(* ===== verification/_CoqProject ===== *)
-Q . S2P
Prelude.v
GoBase.v
GoStrings.v
Registry.v
InstancePool.v
AgentLifecycle.v
LiveEvents.v
TurnGate.v
IdleMonitor.v
GatedSession.v
SessionPool.v
PoolReaper.v
PoolLaws.v
PoolPersist.v
PoolSweep.v
TaskStore.v
LifecycleConfig.v
LifecycleStore.v
LifecycleController.v
Ledger.v
LedgerLaws.v
TurnQueue.v
CmaTypes.v
CmaStore.v
CmaStoreLaws.v
CmaCards.v
CmaTurn.v
CmaOutcome.v
Paths.v
Runtime.v
RuntimeLaws.v
Card.v
CardLaws.v
SessionWorkspace.v
CmaGrader.v
CmaGraderLaws.v
CmaOutcomeLaws.v
CmaOutcomeFair.v
CmaHandlers.v
CmaPages.v
CmaHandlersLaws.v
Rooms.v
RoomsDrive.v
RoomsLaws.v
RoomsTalk.v
RoomStore.v
RoomsRestart.v
RoomsMentions.v
Supervisor.v
SupervisorDrive.v
SupervisorLaws.v
SupervisorSpec.v
Preflight.v
Gateway.v
GatewayLaws.v
Activation.v
Transcript.v
TranscriptLaws.v
Executor.v
ExecutorLaws.v
Server.v
ServerLaws.v
ClaudeSession.v
ClaudeLaws.v
Codex.v
CodexLaws.v
AgentMain.v
AgentMainLaws.v
SchedulerFiles.v
SchedulerFilesLaws.v
ConfigEdit.v
GatewayViews.v
GatewayViewsLaws.v
Dispatch.v
DispatchLaws.v
PersistFile.v
AgentServe.v
SmallSessions.v
Console.v
