(* ===== verification/Prelude.v ===== *)
(** * ahsir: a verification development

    ahsir runs coding agents behind an A2A gateway. A scheduler keeps a registry
    of agent cards, spawns agent processes and routes invocations to them; the
    wrapper, one per agent process, maps every conversation (A2A context) to a
    session of a provider CLI; a facade serves the managed-agents API on top of
    the gateway. This library is a shallow embedding of the stateful core of the
    three, translated from the Go sources under [src/internal/] and
    [src/cmd/], with the theorems that make each part correct. File names below are
    relative to the first of the two, unless they start with [cmd/]; a definition has the name of the Go function it
    translates unless Rocq reserves it.

    ** How the code is modelled

    - A struct is a [Record], a Go map a [gmap], a pointer shared between
      goroutines an address into a heap field, a channel an identity with a
      buffer of its own. [int], [time.Time] and [time.Duration] are [Z]; the
      counters of the code are bounded by what they count.
    - What runs under one acquisition of a mutex is one function, hence one
      atomic step. Where goroutines hold locks in turn, the steps are the rules
      of an inductive relation over any number of goroutines, and invariants are
      proved by rule induction ([rtc_invariant]); where an operation is one
      critical section, histories are lists of operations.
    - Errors are values of a sum, an option or a success flag; the lifecycle
      controller appends to a trace of effects.
    - Code outside [src/] is a parameter: the JSON codec of each persisted file,
      [time.ParseDuration], the YAML encoder and SHA-256, the provider, the
      clock, and the order in which Go visits a map (any permutation of the
      bindings, possibly another one after a restart). A theorem over files
      supposes that the codec reads back the states of the history at hand. I/O
      failures are modelled where the code returns them: failed saves, and every
      point of an append to a transcript.
    - Loops are structural, folds, or over a number of rounds that the code itself
      counts; no definition takes fuel beyond that.

    ** The files

    - [Prelude], [GoBase], [GoStrings]: tactics, reachability, lists; times,
      decimal conversion; the byte-string functions of package [strings].
    - [Registry] ([registry/registry.go]): cards by lower-cased name, liveness
      derived from heartbeats, the HTTP handlers. Module [Registry] implements
      the class [RegistryView] through which [AgentLifecycle] reads it. Shown:
      the registry is a function of the history, whatever the spelling of names;
      the HTTP surface.
    - [InstancePool] ([scheduler/instance.go]): module [InstanceName] (names,
      workspaces: round trips and disjointness) and module [InstancePool]
      (acquire, release: affinity, least-loaded spread, accounting).
    - [AgentLifecycle] ([scheduler/lifecycle.go]): stored snapshots reconciled
      with heartbeats, against the interface only.
    - [LiveEvents] ([scheduler/live_events.go]): the bounded event hub; publishing,
      and resuming a stream from an event id without loss or repetition.
    - [TurnGate], [IdleMonitor], [GatedSession] ([wrapper/turn_gate.go],
      [wrapper/idle_monitor.go]): the FIFO gate of a context, the reference count
      that scales the agent to zero, and the session wrapper that brackets a turn
      with both. Each is a step system (goroutines, timer callbacks); the last
      file composes all gates with the monitor. Shown: mutual exclusion, order and
      no lost wake-up; the agent is never reaped during a turn and always after
      the last one; everything taken is given back.
    - [SessionPool], [PoolReaper] ([wrapper/session_pool.go]): the pool's critical
      sections on a heap of entries, its reaper, capacity and shutdown; [PoolReaper]
      closes them under interleaving and proves the accounting of provider
      sessions, those included that a lookup opens on an entry the reaper has just
      taken out. [PoolLaws]: lookups are stable, resume and respect the capacity.
      [PoolPersist]: the exported operations are runs of the sections, and the
      persisted map restores every resumable conversation. [PoolSweep]: the exact
      effect of a sweep and the bound on mappings.
    - [TaskStore] ([wrapper/taskstore.go]): refinement to the history of saves.
    - [LifecycleConfig], [LifecycleStore], [LifecycleController]
      ([wrapper/lifecycle_config.go], [wrapper/lifecycle_store.go],
      [wrapper/lifecycle.go]): the validated configuration, the persisted record
      of a session, and the initialize, business and finalize turns as a writer of
      store operations and stream events. Shown: a turn settles exactly once and
      its recorded outcome is true, what is streamed of it was logged before,
      initialization runs once per version, the log is the bounded suffix of the
      history, a restart loses nothing durable.
    - [Ledger], [LedgerLaws] ([scheduler/invocation_ledger.go],
      [scheduler/gateway_metrics.go], [obs/result.go]): invocations as events of an
      append-only file, with replay, compaction and retention. Shown: the file
      determines the ledger, ids are never reused, the in-flight gauge is true,
      texts are bounded at rune starts.
    - [TurnQueue], [CmaTypes], [CmaStore], [CmaStoreLaws]
      ([cmagateway/store/store.go], [cmagateway/cma/types.go]): the facade's serial
      turn executor as a step system, its resources, and its store with session
      records on a heap. Shown: turns run one at a time in order and none is lost;
      the store survives a restart; agent versions are a function of the history;
      a session has at most one active outcome and an append-only log; recovery
      settles exactly the interrupted sessions.
    - [CmaTurn] ([cmagateway/turn.go], [cmagateway/handlers.go],
      [cmagateway/ahsir/a2a.go]): one turn of the facade against the gateway, with
      its single redispatch, as a writer of store operations. Shown: how it settles,
      from a reading of the stream that is independent of the program ([ending_of]).
    - [CmaOutcome], [CmaOutcomeLaws], [CmaOutcomeFair] ([cmagateway/outcome.go],
      [cmagateway/grader.go]): the loop that revises work until a grader is content.
      Shown: one terminal result whatever fails, at most the allowed iterations,
      every update is one the store's theorems suppose, recovery after a restart.
    - [CmaCards], [CmaGrader], [CmaGraderLaws] ([cmagateway/cma/ids.go],
      [cmagateway/translate/translate.go], [cmagateway/ahsir/client.go],
      [cmagateway/grader.go]): ids, the card of an agent, the answers of the
      scheduler, the grader. Shown: names never clash, a card holds no literal key
      of its metadata, the grader is confined and its verdicts bounded.
    - [CmaHandlers], [CmaPages], [CmaHandlersLaws] ([cmagateway/handlers.go],
      [cmagateway/server.go]): every request of the facade as a program on its store,
      its requests to the scheduler and the jobs it enqueues. Shown: each request is
      a history of store operations, one that is turned away leaves no trace,
      batches are accepted in order, shared agents are reclaimed only when unused,
      following the cursors enumerates a listing.
    - [Rooms], [RoomsDrive], [RoomsLaws], [RoomsTalk], [RoomsMentions]
      ([scheduler/rooms.go]): rooms in which agents talk to each other, as critical
      sections of one room and as a step system of its goroutines and its people.
      Shown: one driver at a time; everyone is told what was said since; rooms fall
      silent; chains and rounds are bounded; the parser of mentions agrees with a
      reference. [RoomStore], [RoomsRestart] ([scheduler/roomstore.go]): the log of
      a room, and that a restart takes it up where it was, or leaves it stopped when
      the log holds a stop.
    - [Supervisor], [SupervisorDrive], [SupervisorLaws], [SupervisorSpec]
      ([scheduler/scheduler.go]): processes, their monitors, health checks and
      restart timers, and the operations that start, stop, wake and scale agents, as
      labelled steps of a [world]; an instance pool is an object behind a pointer,
      which outlives its entry in the map. Shown, for a configuration with one entry
      per name: no desired agent is forgotten, a stopped one stays stopped, an agent
      has one process. [Activation] (the same file):
      single flight of activations, recovery of an agent's invocations.
    - [Gateway], [GatewayLaws] ([scheduler/gateway.go]): routing and authorization,
      the A2A proxy with its observation of the stream, chats and the settling of
      asynchronous turns. Shown: that the admin routes and the registry writes need the
      token (the routes of turns do not), that the ledger records how a proxied call ended, that observing does not change what is
      relayed, that polling ends.
    - [Transcript], [TranscriptLaws] ([wrapper/transcript.go]): the transcript files,
      with writes that fail at any byte. Shown: what a reader finds; pruning is
      invisible.
    - [Executor], [ExecutorLaws] ([wrapper/executor.go], [wrapper/prompt.go]): the
      agent loop, blocking and streamed. Shown: both do the same work for a consumer
      that reads the stream to its end, and it is bounded.
    - [Server], [ServerLaws] ([wrapper/server.go]): background tasks, streams and
      cancellations over [TaskStore], with [Execute] and [ExecuteStream] as the
      executor. Shown: tasks settle, also when a client gives a stream the id of one;
      a cancellation in time wins.
    - [ClaudeSession], [ClaudeLaws] ([wrapper/session_claude.go]): a provider session
      with its reader, its supervisor and the channels of its turns. Shown: every
      turn ends exactly once, also when the process dies.

    - [Codex], [CodexLaws] ([wrapper/session_codex.go]): the other provider session,
      one process per turn. Shown: which arguments of a card cannot say anything of the
      sandbox of a run, against a list of its own ([owned]), what
      a run reports is true, turns run one at a time.
    - [Paths], [Runtime], [RuntimeLaws], [Card], [CardLaws], [SessionWorkspace]
      ([wrapper/card.go], [wrapper/runtime.go], [wrapper/session_workspace.go]):
      [path/filepath] written out, the environment of a provider, the card of an
      agent, the directories of sessions. Shown: a credential never comes from the
      wrong place, exactly which cards load and as what, sessions have their own
      directories inside the base, which providing and removing one does not leave.
    - [Preflight] ([scheduler/filesystem_preflight.go]): what a dispatch may require
      of the files of an agent, exactly. [AgentMain], [AgentMainLaws]
      ([cmd/ahsir-agent/main.go]): how the process of an agent turns its card into
      the configuration of its sessions, and the monitor that ends it with its
      scheduler. Shown: what the process adds to the runtime arguments of a card grants
      the access of the card and no more;
      what the preflight permits has been granted.
    - [SchedulerFiles], [SchedulerFilesLaws], [ConfigEdit] ([scheduler/config.go],
      [scheduler/admintoken.go], [scheduler/archived.go], [scheduler/configedit.go]):
      the files of the scheduler. Shown: scheduler and clients agree on the token,
      the archive shows what can be opened, an edit of the configuration gives the
      encoder the tree read with one entry changed and nothing else.
    - [GatewayViews], [GatewayViewsLaws] ([scheduler/gateway.go]): what the gateway
      shows, and the commands for agents and rooms. Shown: the answers about rooms
      are true, public addresses lead back. [Dispatch], [DispatchLaws]
      ([scheduler/scheduler.go], [wrapper/client.go]): a turn from the name of an
      agent to the answer, through pool, wake, address and message. Shown: it takes
      an instance and gives it back, to the same pool, exactly once.
    - [PersistFile] ([wrapper/session_pool_persist.go]), [AgentServe]
      ([wrapper/wrapper.go]), [SmallSessions] ([wrapper/session_echo.go],
      [wrapper/session_oneshot.go]), [Console] ([ui/server.go]): the file behind the
      pool, which a crash leaves old or new; the life and the routes of the wrapper,
      guarded by its token; the sessions without a process; the list of
      conversations of the web console, complete and true.

    How they fit: a request enters at the [Gateway], which asks the [Supervisor] for
    an agent ([Preflight], [Dispatch]) and records it in the [Ledger]; in the agent, [Server] hands it to the
    [Executor], which takes a session from the [SessionPool] (gated by [TurnGate] and
    [GatedSession], counted by [IdleMonitor]), itself a [ClaudeSession] or a [Codex] one, configured by [AgentMain] from the
    [Card], under the [LifecycleController]; [Rooms] and the facade ([CmaTurn]) are clients of the
    gateway. The gate, the monitor and the pool meet in two places: [GatedSession]
    needs of the pool only whether a gate is held, and an entry of the pool holds the
    gate of its context.

    ** Bounds

    The constants are those of the code: 256 events per context and 64 per
    subscriber in [LiveEvents], 500 log events and 512-byte strings in
    [LifecycleStore], 512 bytes of user text in [Ledger], 64 events per subscriber
    in [CmaStore], lines of 10 MiB in [Ledger], [RoomStore] and [Transcript], 16 events per
    turn in [ClaudeSession] and 8 in [Codex], 100 criteria of 1 KiB with 4 KiB of feedback and 8 KiB of
    explanation in [CmaGrader]. The agent loop recurses over the rounds left, which the
    code counts up to its maximum.

    ** Behaviour worth knowing

    Some lemmas record what the code does where a comment, or the purpose of the
    code, says otherwise: [LiveEvents.subscribe_ignores_cap] and
    [LiveEvents.evicted_subscriber_starves], [IdleMonitor.stale_callback_reaps_early],
    [PoolPersist.sweep_forgets_a_live_context],
    [LifecycleController.interrupted_init_degrades],
    [LedgerLaws.recovering_in_flight_leaks], [LedgerLaws.long_event_loses_ledger],
    [PoolReaper.late_session_leaks], [SupervisorSpec.duplicate_name_left_running],
    [RoomsRestart.undone_stop_returns], [CodexLaws.joined_short_survives],
    [CardLaws.unchecked_values_load], [RoomsTalk.said_meanwhile_is_missed],
    [RoomsTalk.failed_turn_undoes_stop], [RoomsTalk.decision_undoes_stop],
    [RoomsTalk.floor_given_in_flight_is_lost],
    [RoomsTalk.question_during_verdict_is_lost],
    [GatewayLaws.post_with_slash_bypasses_auth], [ExecutorLaws.yields_after_leaving],
    [ExecutorLaws.canceled_twice], [TranscriptLaws.long_record_wedges],
    [ServerLaws.late_cancel_overwrites], [ServerLaws.early_cancel_lost],
    [ClaudeLaws.blocked_sender_stalls], [ClaudeLaws.mismatch_poisons],
    [CmaHandlersLaws.concurrent_updates_collide],
    [CmaHandlersLaws.failed_begin_wedges], [CmaPages.cursor_gone_ends_listing],
    [CmaGraderLaws.grader_keeps_lifecycle], [CodexLaws.sanitize_smuggles],
    [CardLaws.ipv6_url], [AgentMainLaws.dangling_flag_swallows],
    [AgentMainLaws.runtime_tools_survive], [AgentMainLaws.pool_days_wrap],
    [GatewayViewsLaws.percent_not_found],
    [GatewayViewsLaws.managed_workspace_escapes],
    [DispatchLaws.own_message_returned], [PersistFile.version_ignored],
    [AgentServe.stop_timeout_half_dead], [Console.upload_two_dots]. The reload of
    the ledger is up to the finish time of an invocation under recovery, which the
    file does not keep.

    ** Not modelled

    - One life of the scheduler only: starting it again after it was stopped.
    - What other turns of an agent do to the load of its pool during a dispatch: the
      dispatch itself is accounted for under any of them, the equation on the loads
      supposes that none begins or ends meanwhile. A lookup in the session pool is
      shown to respect the capacity when nothing comes between its sections.
    - A consumer that leaves a stream early, beyond the lemma on what it is still
      given; what the YAML library makes of comments; symbolic links below the
      directories of sessions.
    - Left out: process control ([process]), HTTP and JSON-RPC glue over third-party
      libraries, Prometheus registration, static assets, the command line,
      and the packaged copy of the sources under [plugin/]. *)
From Stdlib Require Import ZArith Lia Ascii.
From stdpp Require Export base tactics numbers list gmap strings pretty sorting relations.

#[global] Set Default Goal Selector "!".
#[global] Set Warnings "-clear-no-such-hyp".

Declare Scope ahsir_scope.
Delimit Scope ahsir_scope with ahsir.

Create HintDb ahsir.
Create Rewrite HintDb ahsir.

(** ** Tactics *)

(** Destructs the innermost scrutinee of a [match] in a hypothesis, keeping
    the equation, and clears the impossible branches. *)
Ltac case_in H :=
  match type of H with
  | context [match ?x with _ => _ end] =>
      lazymatch x with
      | context [match _ with _ => _ end] => fail
      | _ => let E := fresh "E" in destruct x eqn:E; simplify_eq/=
      end
  end.

Ltac case_goal :=
  match goal with
  | |- context [match ?x with _ => _ end] =>
      lazymatch x with
      | context [match _ with _ => _ end] => fail
      | _ => let E := fresh "E" in destruct x eqn:E; simplify_eq/=
      end
  end.

Ltac cases := repeat case_goal.

(** Boolean tests of the code turned into the propositions they decide. *)
Ltac bool_to_prop :=
  repeat match goal with
  | H : (_ && _)%bool = true |- _ => apply andb_prop in H; destruct H
  | H : (_ || _)%bool = false |- _ => apply orb_false_elim in H; destruct H
  | H : negb _ = true |- _ => apply negb_true_iff in H
  | H : negb _ = false |- _ => apply negb_false_iff in H
  | H : (_ <? _)%Z = true |- _ => apply Z.ltb_lt in H
  | H : (_ <? _)%Z = false |- _ => apply Z.ltb_ge in H
  | H : (_ <=? _)%Z = true |- _ => apply Z.leb_le in H
  | H : (_ <=? _)%Z = false |- _ => apply Z.leb_gt in H
  | H : (_ =? _)%Z = true |- _ => apply Z.eqb_eq in H
  | H : (_ =? _)%Z = false |- _ => apply Z.eqb_neq in H
  | H : (_ <? _)%nat = true |- _ => apply Nat.ltb_lt in H
  | H : (_ <? _)%nat = false |- _ => apply Nat.ltb_ge in H
  | H : (_ <=? _)%nat = true |- _ => apply Nat.leb_le in H
  | H : (_ <=? _)%nat = false |- _ => apply Nat.leb_gt in H
  | H : (_ =? _)%nat = true |- _ => apply Nat.eqb_eq in H
  | H : (_ =? _)%nat = false |- _ => apply Nat.eqb_neq in H
  | H : bool_decide _ = true |- _ => apply bool_decide_eq_true in H
  | H : bool_decide _ = false |- _ => apply bool_decide_eq_false in H
  end.

(** ** Reachability

    The step relations of the development are closed reflexively and
    transitively with stdpp's [rtc]; invariants are proved by these two rules. *)
Section reachability.
Context {S : Type} (R : relation S).

Lemma rtc_invariant (I : S → Prop) s s' :
  (∀ x y, I x → R x y → I y) → I s → rtc R s s' → I s'.
Proof. intros Hstep Hs; induction 1; eauto. Qed.

(** A quantity related by a preorder along every step is related along runs. *)
Lemma rtc_monotone {A} (f : S → A) (le : relation A) `{!PreOrder le} s s' :
  (∀ x y, R x y → le (f x) (f y)) → rtc R s s' → le (f s) (f s').
Proof. intros Hstep; induction 1; [reflexivity | etrans; eauto]. Qed.
End reachability.

(** ** Lists *)

Lemma list_filter_all {A} (P : A → Prop) `{!∀ x, Decision (P x)} (l : list A) :
  (∀ x, x ∈ l → P x) → filter P l = l.
Proof.
  induction l as [| x l IH]; intros Hl; [done |].
  rewrite filter_cons_True by (apply Hl; by left). f_equal. apply IH.
  intros y Hy. apply Hl. by right.
Qed.

Lemma filter_none {A} (P : A → Prop) `{!∀ x, Decision (P x)} l : Forall (λ x, ¬ P x) l → filter P l = [].
Proof. induction 1; [done |]. by rewrite filter_cons_False. Qed.

Lemma list_filter_ext {A} (P Q : A → Prop) `{!∀ x, Decision (P x), !∀ x, Decision (Q x)} (l : list A) :
  (∀ x, x ∈ l → P x ↔ Q x) → filter P l = filter Q l.
Proof.
  induction l as [| x l IH]; intros Hl; [done |]. rewrite !filter_cons.
  assert (P x ↔ Q x) as Hx by (apply Hl; by left).
  rewrite IH by (intros; apply Hl; by right).
  destruct (decide (P x)), (decide (Q x)); tauto.
Qed.

Lemma list_filter_fmap {A B} (f : A → B) (P : B → Prop) `{!∀ x, Decision (P x)} (l : list A) :
  filter P (f <$> l) = f <$> filter (λ x, P (f x)) l.
Proof.
  induction l as [| x l IH]; [done |]. rewrite fmap_cons, !filter_cons.
  case_decide; [by rewrite fmap_cons, IH | done].
Qed.

(** ** Maps visited as lists *)

(** Counting the visited bindings that satisfy a predicate. *)
Lemma length_filter_visit {A} (P : string * A → Prop) `{!∀ x, Decision (P x)}
    (m : gmap string A) (l : list (string * A)) :
  l ≡ₚ map_to_list m → length (filter P l) = size (filter P m).
Proof.
  intros ->. rewrite <- length_map_to_list, map_filter_alt, map_to_list_to_map; [done |].
  eapply sublist_NoDup; [apply (NoDup_fst_map_to_list m) |]. apply fmap_sublist, sublist_filter.
Qed.

(** What is relied on of the order in which a map is visited. *)
Definition visits {A} (range : gmap string A → list (string * A)) : Prop := ∀ m, range m ≡ₚ map_to_list m.

Lemma visits_elem {A} (rg : gmap string A → list (string * A)) m k x : visits rg → (k, x) ∈ rg m ↔ m !! k = Some x.
Proof. intros Hv. rewrite (Hv m). apply elem_of_map_to_list. Qed.

Lemma visits_NoDup {A} (rg : gmap string A → list (string * A)) m : visits rg → NoDup (rg m).*1.
Proof. intros Hv. rewrite (Hv m). apply NoDup_fst_map_to_list. Qed.
