(* ===== verification/GoBase.v ===== *)
(** * What the sources use of the Go language and its standard library

    [time.Time] and [time.Duration] as nanosecond counts, the decimal
    conversions of [strconv], the byte-string operations of [strings] and the
    list idioms ([append(nil, l[len(l)-n:]...)]) that several components share. *)
From S2P Require Import Prelude.
From Stdlib Require Import ZArith Lia Ascii.

(** ** Machine integers *)

Definition max_int64 : Z := 2 ^ 63 - 1.
Definition min_int64 : Z := - 2 ^ 63.
Definition max_uint64 : Z := 2 ^ 64 - 1.

(** [uint64] addition wraps around. *)
Definition u64 (z : Z) : Z := z mod 2 ^ 64.

Lemma u64_small z : (0 ≤ z ≤ max_uint64)%Z → u64 z = z.
Proof. unfold u64, max_uint64. intros. apply Z.mod_small. lia. Qed.

Lemma u64_range z : (0 ≤ u64 z ≤ max_uint64)%Z.
Proof.
  unfold u64, max_uint64. pose proof (Z.mod_pos_bound z (2 ^ 64)%Z). lia.
Qed.

#[export] Hint Rewrite u64_small using (unfold max_uint64 in *; lia) : ahsir.

(** [int64] addition wraps around. *)
Definition i64 (z : Z) : Z := (z + 2 ^ 63) mod 2 ^ 64 - 2 ^ 63.

Lemma i64_small z : (min_int64 ≤ z ≤ max_int64)%Z → i64 z = z.
Proof. unfold i64, min_int64, max_int64. intros. rewrite Z.mod_small; lia. Qed.

(** ** Time

    A [time.Time] is the number of nanoseconds since Go's zero time, so that
    [IsZero] is equality with [0]. A [time.Duration] is an [int64] number of
    nanoseconds; [Time.Sub] saturates at the ends of that range. *)

Abbreviation time := Z (only parsing).
Abbreviation duration := Z (only parsing).

Definition zero_time : time := 0%Z.
Definition IsZero (t : time) : bool := Z.eqb t zero_time.
Definition Before (t u : time) : bool := Z.ltb t u.
Definition Add (t : time) (d : duration) : time := (t + d)%Z.
Definition Sub (t u : time) : duration := Z.max min_int64 (Z.min max_int64 (t - u)).

Definition Nanosecond : duration := 1%Z.
Definition Millisecond : duration := (1000000 * Nanosecond)%Z.
Definition Second : duration := (1000000000 * Nanosecond)%Z.
Definition Minute : duration := (60 * Second)%Z.
Definition Hour : duration := (60 * Minute)%Z.

(** For a threshold that is itself an [int64], saturation does not change the
    outcome of the comparison. *)
Lemma Sub_gt t u d : (min_int64 ≤ d < max_int64)%Z → (d < Sub t u ↔ d < t - u)%Z.
Proof. unfold Sub. intros. lia. Qed.

Lemma Sub_le_mono t t' u : (t ≤ t')%Z → (Sub t u ≤ Sub t' u)%Z.
Proof. unfold Sub. lia. Qed.

(** ** Keeping the last [n] elements of a slice *)

Definition keep_last {A} (n : nat) (l : list A) : list A := drop (length l - n) l.

Section keep_last.
Context {A : Type}.
Implicit Types l k : list A.

Lemma keep_last_short n l : length l ≤ n → keep_last n l = l.
Proof. intros. unfold keep_last. by replace (length l - n) with 0 by lia. Qed.

Lemma length_keep_last n l : length (keep_last n l) = min n (length l).
Proof. unfold keep_last. rewrite length_drop. lia. Qed.

(** Truncating after every append is truncating the whole history once. *)
Lemma keep_last_app n l k : keep_last n (keep_last n l ++ k) = keep_last n (l ++ k).
Proof.
  unfold keep_last. rewrite !length_app, length_drop.
  destruct (decide (length l ≤ n)) as [Hle | Hgt].
  - replace (length l - n) with 0 by lia. rewrite drop_0.
    f_equal. lia.
  - rewrite !drop_app, drop_drop, length_drop. repeat (f_equal; try lia).
Qed.

Lemma keep_last_suffix n l : ∃ l', l = l' ++ keep_last n l.
Proof. exists (take (length l - n) l). unfold keep_last. by rewrite take_drop. Qed.

Lemma elem_of_keep_last n l x : x ∈ keep_last n l → x ∈ l.
Proof.
  destruct (keep_last_suffix n l) as [l' E]. intros. rewrite E.
  apply elem_of_app. by right.
Qed.

Lemma keep_last_idemp n l : keep_last n (keep_last n l) = keep_last n l.
Proof. apply keep_last_short. rewrite length_keep_last. lia. Qed.
End keep_last.

#[export] Hint Rewrite @length_keep_last @keep_last_app @keep_last_idemp : ahsir.

(** ** Decimal conversions ([strconv]) *)

Definition digit (c : ascii) : option Z :=
  let n := Z.of_nat (nat_of_ascii c) in
  if (48 <=? n)%Z && (n <=? 57)%Z then Some (n - 48)%Z else None.

(** The digit loop of [ParseUint] in base 10: most significant digit first. *)
Fixpoint digits_value (acc : Z) (s : string) : option Z :=
  match s with
  | EmptyString => Some acc
  | String c s' =>
      match digit c with
      | Some d => digits_value (acc * 10 + d)%Z s'
      | None => None
      end
  end.

(** [strconv.ParseUint(s, 10, 64)]: the empty string, a non-digit and a value
    out of range are errors. *)
Definition ParseUint (s : string) : option Z :=
  match s with
  | EmptyString => None
  | _ => match digits_value 0 s with
         | Some n => if (n <=? max_uint64)%Z then Some n else None
         | None => None
         end
  end.

(** [strconv.Atoi]: an optional sign, at least one digit, an [int64] value. *)
Definition Atoi (s : string) : option Z :=
  let unsigned (t : string) : option Z :=
    match t with EmptyString => None | _ => digits_value 0 t end in
  let r := match s with
           | String "+" t => unsigned t
           | String "-" t => Z.opp <$> unsigned t
           | _ => unsigned s
           end in
  match r with
  | Some n => if (min_int64 <=? n)%Z && (n <=? max_int64)%Z then Some n else None
  | None => None
  end.

(** The loop of [strconv.ParseUint] with the value it returns and whether that is
    an error: the largest number when the range is left, zero at a byte that is
    not a digit, whichever comes first. *)
Fixpoint uint_loop (acc : Z) (s : string) : Z * bool :=
  match s with
  | EmptyString => (acc, true)
  | String c s' =>
      match digit c with
      | None => (0%Z, false)
      | Some d => if (max_uint64 <? acc * 10 + d)%Z then (max_uint64, false) else uint_loop (acc * 10 + d)%Z s'
      end
  end.

(** [strconv.ParseInt(s, 10, 64)], both results: the value is also returned, at
    the end of the range, when the number is out of range. *)
Definition ParseInt (s : string) : Z * bool :=
  let '(neg, t) := match s with
                   | String "+" t => (false, t)
                   | String "-" t => (true, t)
                   | _ => (false, s)
                   end in
  match t with
  | EmptyString => (0%Z, false)
  | _ =>
      let '(un, ok) := uint_loop 0 t in
      if negb ok && (un =? 0)%Z then (0%Z, false)
      else if negb neg && (max_int64 <? un)%Z then (max_int64, false)
      else if neg && (- min_int64 <? un)%Z then (min_int64, false)
      else ((if neg then - un else un)%Z, ok)
  end.

(** [strconv.Itoa] on a non-negative number, and [%d] of a [uint64]. *)
Definition Itoa (n : Z) : string := pretty (Z.to_N n).

Fixpoint all_digits (s : string) : bool :=
  match s with
  | EmptyString => true
  | String c s' => match digit c with Some _ => all_digits s' | None => false end
  end.

Section decimal.
Local Open Scope Z_scope.

Lemma digit_pretty_char (d : N) :
  (d < 10)%N → digit (pretty_N_char d) = Some (Z.of_N d).
Proof.
  intros Hd.
  assert (d ∈ [0; 1; 2; 3; 4; 5; 6; 7; 8; 9]%N) as Hin.
  { rewrite !elem_of_cons. lia. }
  repeat (apply elem_of_cons in Hin as [-> | Hin]; [reflexivity |]).
  by apply not_elem_of_nil in Hin.
Qed.

Lemma digits_value_app acc s t :
  digits_value acc (s +:+ t) = digits_value acc s ≫= λ a, digits_value a t.
Proof.
  revert acc. induction s as [| c s IH]; intros acc; [done |].
  change (digits_value acc (String c (s +:+ t)) = digits_value acc (String c s) ≫= λ a, digits_value a t).
  cbn. destruct (digit c); [apply IH | done].
Qed.

(** Printing a number pushes its decimal digits in front of [s]. *)
Lemma digits_value_pretty_go (x : N) s :
  digits_value 0 (pretty_N_go x s) = digits_value (Z.of_N x) s.
Proof.
  revert s. induction (N.lt_wf_0 x) as [x _ IH]; intros s.
  destruct (decide (x = 0%N)) as [-> | Hx]; [done |].
  rewrite pretty_N_go_step by lia. rewrite IH by (apply N.div_lt; lia).
  cbn. rewrite digit_pretty_char by (apply N.mod_lt; lia). f_equal.
  pose proof (N.div_mod x 10). lia.
Qed.

Lemma digits_value_Itoa n : 0 ≤ n → digits_value 0 (Itoa n) = Some n.
Proof.
  intros Hn. unfold Itoa, pretty, pretty_N.
  case_decide as H0.
  - replace n with 0 by lia. done.
  - rewrite digits_value_pretty_go. cbn. f_equal. lia.
Qed.

Lemma Itoa_nonempty n : 0 ≤ n → Itoa n ≠ "".
Proof.
  intros Hn E. pose proof (digits_value_Itoa n Hn) as H. rewrite E in H.
  cbn in H. injection H as <-. discriminate E.
Qed.

(** The digits of a printed number start with a digit, never with a sign. *)
Lemma digits_value_sign s n :
  digits_value 0 s = Some n → s ≠ "" →
  ∃ c t, s = String c t ∧ c ≠ "+"%char ∧ c ≠ "-"%char.
Proof.
  destruct s as [| c t]; [done |]. intros H _. exists c, t.
  split; [done |]. cbn in H.
  split; intros ->; discriminate H.
Qed.

Lemma ParseUint_Itoa n : 0 ≤ n ≤ max_uint64 → ParseUint (Itoa n) = Some n.
Proof.
  intros Hn. pose proof (Itoa_nonempty n ltac:(lia)). unfold ParseUint.
  rewrite digits_value_Itoa by lia.
  destruct (Itoa n); [done |].
  by rewrite (proj2 (Z.leb_le _ _)) by lia.
Qed.

Lemma Atoi_Itoa n : 0 ≤ n ≤ max_int64 → Atoi (Itoa n) = Some n.
Proof.
  intros Hn. pose proof (digits_value_Itoa n ltac:(lia)) as Hv.
  destruct (digits_value_sign _ _ Hv (Itoa_nonempty n ltac:(lia))) as (c & t & E & Hp & Hm).
  unfold Atoi. rewrite E in *. unfold min_int64, max_int64 in *.
  assert ((- 2 ^ 63 <=? n) && (n <=? 2 ^ 63 - 1) = true) as Hr.
  { apply andb_true_intro. split; apply Z.leb_le; lia. }
  destruct (ascii_dec c "+"%char), (ascii_dec c "-"%char); try done.
  replace (match String c t with
           | String "+" u => match u with "" => None | _ => digits_value 0 u end
           | String "-" u => Z.opp <$> match u with "" => None | _ => digits_value 0 u end
           | _ => match String c t with "" => None | _ => digits_value 0 (String c t) end
           end) with (Some n); [by rewrite Hr |].
  rewrite <- Hv. clear -Hp Hm.
  destruct c as [[] [] [] [] [] [] [] []]; first [done | by destruct Hp | by destruct Hm].
Qed.

Lemma Itoa_inj m n : 0 ≤ m → 0 ≤ n → Itoa m = Itoa n → m = n.
Proof.
  intros Hm Hn E. pose proof (digits_value_Itoa m Hm) as H.
  rewrite E, digits_value_Itoa in H by done. congruence.
Qed.
End decimal.
