(* ===== verification/GoStrings.v ===== *)
(** * Byte strings: the functions of Go's package [strings]

    A Go string is its sequence of bytes. White space is what
    [unicode.IsSpace] accepts, recognised on the UTF-8 encoding: inside a
    multi-byte rune every byte is at least [0x80], and no white-space rune is
    encoded by a suffix of another rune's encoding, so matching the encodings
    byte by byte visits the same runes as Go's [range]. *)
From S2P Require Import Prelude GoBase.
From Stdlib Require Import ZArith Lia Ascii.

(** Length in bytes, Go's [len]. *)
Abbreviation blen := String.length.

Definition byte_of (c : ascii) : Z := Z.of_nat (nat_of_ascii c).

Definition in_range (lo hi : Z) (c : ascii) : bool :=
  ((lo <=? byte_of c) && (byte_of c <=? hi))%Z.

Definition is_byte (b : Z) (c : ascii) : bool := (byte_of c =? b)%Z.

(** [s[:n]] and [s[n:]] for [n ≤ len(s)]. *)
Fixpoint byte_take (n : nat) (s : string) : string :=
  match n, s with
  | S n', String c s' => String c (byte_take n' s')
  | _, _ => EmptyString
  end.

Fixpoint byte_drop (n : nat) (s : string) : string :=
  match n, s with
  | S n', String _ s' => byte_drop n' s'
  | _, _ => s
  end.

(** [s[i]], when in range. *)
Fixpoint byte_at (i : nat) (s : string) : option ascii :=
  match i, s with
  | _, EmptyString => None
  | O, String c _ => Some c
  | S i', String _ s' => byte_at i' s'
  end.

Lemma string_app_cons c s t : String c s +:+ t = String c (s +:+ t).
Proof. reflexivity. Qed.

Lemma string_app_nil_r s : s +:+ "" = s.
Proof. induction s as [| c s IH]; [done |]. by rewrite string_app_cons, IH. Qed.

Lemma string_app_assoc s t u : (s +:+ t) +:+ u = s +:+ t +:+ u.
Proof. induction s as [| c s IH]; [done |]. by rewrite !string_app_cons, IH. Qed.

Lemma blen_app s t : blen (s +:+ t) = blen s + blen t.
Proof. induction s as [| c s IH]; [done |]. rewrite string_app_cons. cbn. by rewrite IH. Qed.

Lemma blen_byte_take n s : blen (byte_take n s) = min n (blen s).
Proof. revert s. induction n; intros []; cbn; auto. Qed.

Lemma byte_take_drop n s : byte_take n s +:+ byte_drop n s = s.
Proof.
  revert s. induction n as [| n IH]; intros [| c s]; [done.. |].
  cbn. by rewrite string_app_cons, IH.
Qed.

#[export] Hint Rewrite blen_app blen_byte_take string_app_nil_r : ahsir.

(** ** Prefixes *)

(** [strings.HasPrefix] together with the rest of the string. *)
Fixpoint strip_prefix (p s : string) : option string :=
  match p, s with
  | EmptyString, _ => Some s
  | String a p', String b s' => if ascii_dec a b then strip_prefix p' s' else None
  | _, _ => None
  end.

Definition TrimPrefix (s p : string) : string :=
  match strip_prefix p s with Some r => r | None => s end.

Lemma strip_prefix_app p s : strip_prefix p (p +:+ s) = Some s.
Proof.
  induction p as [| c p IH]; [done |]. rewrite string_app_cons. cbn.
  by destruct (ascii_dec c c).
Qed.

Lemma TrimPrefix_app p s : TrimPrefix (p +:+ s) p = s.
Proof. unfold TrimPrefix. by rewrite strip_prefix_app. Qed.

Lemma strip_prefix_Some p s r : strip_prefix p s = Some r → s = p +:+ r.
Proof.
  revert s. induction p as [| a p IH]; intros s; [by intros [= ->] |]. destruct s as [| b s]; [done |].
  cbn [strip_prefix]. destruct (ascii_dec a b) as [-> |]; [| done]. intros E%IH. by rewrite string_app_cons, E.
Qed.

#[global] Arguments strip_prefix : simpl never.

(** ** The last occurrence of a byte

    [cut_last c s] is [Some (s[:i], s[i+1:])] for [i = strings.LastIndex(s, c)],
    and [None] when that index is negative. *)
Fixpoint cut_last (c : ascii) (s : string) : option (string * string) :=
  match s with
  | EmptyString => None
  | String a s' =>
      match cut_last c s' with
      | Some (l, r) => Some (String a l, r)
      | None => if ascii_dec a c then Some (EmptyString, s') else None
      end
  end.

Lemma cut_last_Some c s l r :
  cut_last c s = Some (l, r) → s = l +:+ String c r ∧ cut_last c r = None.
Proof.
  revert l. induction s as [| a s IH]; intros l H; [done |]. cbn in H.
  destruct (cut_last c s) as [[l' r'] |] eqn:E.
  - simplify_eq. destruct (IH l' eq_refl) as [-> ?]. done.
  - destruct (ascii_dec a c) as [-> |]; by simplify_eq.
Qed.

Lemma cut_last_app c l r : cut_last c r = None → cut_last c (l +:+ String c r) = Some (l, r).
Proof.
  intros H. induction l as [| a l IH].
  - change (cut_last c (String c r) = Some ("", r)). cbn. rewrite H.
    by destruct (ascii_dec c c).
  - rewrite string_app_cons. cbn. by rewrite IH.
Qed.

(** A printed number contains no separator. *)
Lemma cut_last_digits c s acc n :
  digit c = None → digits_value acc s = Some n → cut_last c s = None.
Proof.
  intros Hc. revert acc. induction s as [| a s IH]; intros acc H; [done |].
  cbn in *. destruct (digit a) eqn:Ea; [| done].
  rewrite (IH _ H). destruct (ascii_dec a c) as [-> |]; congruence.
Qed.

(** ** White space *)

(** The width in bytes of the white-space rune at the front of [s], or [0]. *)
Definition space_width (s : string) : nat :=
  match s with
  | String a s1 =>
      if in_range 9 13 a || is_byte 32 a then 1
      else match s1 with
           | String b s2 =>
               if is_byte 194 a && (is_byte 133 b || is_byte 160 b) then 2
               else match s2 with
                    | String c _ =>
                        if (is_byte 225 a && is_byte 154 b && is_byte 128 c)
                           || (is_byte 226 a && is_byte 128 b
                               && (in_range 128 138 c || in_range 168 169 c || is_byte 175 c))
                           || (is_byte 226 a && is_byte 129 b && is_byte 159 c)
                           || (is_byte 227 a && is_byte 128 b && is_byte 128 c)
                        then 3 else 0
                    | EmptyString => 0
                    end
           | EmptyString => 0
           end
  | EmptyString => 0
  end.

(** The same at the end of a string given in reverse. *)
Definition rev_space_width (s : string) : nat :=
  match s with
  | String a s1 =>
      if in_range 9 13 a || is_byte 32 a then 1
      else match s1 with
           | String b s2 =>
               if Nat.eqb (space_width (String b (String a EmptyString))) 2 then 2
               else match s2 with
                    | String c _ =>
                        if Nat.eqb (space_width (String c (String b (String a EmptyString)))) 3
                        then 3 else 0
                    | EmptyString => 0
                    end
           | EmptyString => 0
           end
  | EmptyString => 0
  end.

(** Drops leading white space; [skip] bytes of the current rune remain. *)
Fixpoint trim_front (width : string → nat) (skip : nat) (s : string) : string :=
  match s with
  | EmptyString => EmptyString
  | String _ s' =>
      match skip with
      | S k => trim_front width k s'
      | O => match width s with
             | O => s
             | S k => trim_front width k s'
             end
      end
  end.

(** [strings.TrimSpace]. *)
Definition TrimSpace (s : string) : string :=
  String.rev (trim_front rev_space_width 0 (String.rev (trim_front space_width 0 s))).

Definition nonempty (s : string) : bool :=
  match s with EmptyString => false | _ => true end.

(** [strings.Fields]: the maximal runs of non-space runes. [cur] is the run in
    progress, reversed. *)
Fixpoint fields_go (skip : nat) (cur s : string) : list string :=
  match s with
  | EmptyString => if nonempty cur then [String.rev cur] else []
  | String c s' =>
      match skip with
      | S k => fields_go k cur s'
      | O => match space_width s with
             | O => fields_go 0 (String c cur) s'
             | S k => (if nonempty cur then [String.rev cur] else []) ++ fields_go k EmptyString s'
             end
      end
  end.

Definition Fields (s : string) : list string := fields_go 0 EmptyString s.

(** [strings.Join]. *)
Fixpoint Join (l : list string) (sep : string) : string :=
  match l with
  | [] => EmptyString
  | [x] => x
  | x :: l' => x +:+ sep +:+ Join l' sep
  end.

Lemma blen_rev_app s t : blen (String.rev_app s t) = blen s + blen t.
Proof. revert t. induction s as [| c s IH]; intros t; cbn; [done |]. rewrite IH. cbn. lia. Qed.

Lemma blen_rev s : blen (String.rev s) = blen s.
Proof. unfold String.rev. rewrite blen_rev_app. cbn. lia. Qed.

Lemma blen_trim_front w k s : blen (trim_front w k s) ≤ blen s.
Proof.
  revert k. induction s as [| c s IH]; intros k; [done |]. cbn.
  destruct k; [destruct (w _); [done |] |]; etrans; try apply IH; lia.
Qed.

Lemma blen_TrimSpace s : blen (TrimSpace s) ≤ blen s.
Proof.
  unfold TrimSpace. rewrite blen_rev. etrans; [apply blen_trim_front |].
  rewrite blen_rev. apply blen_trim_front.
Qed.

(** ** Lower case

    [strings.ToLower] maps the bytes of an ASCII string; any other string goes
    through the Unicode tables, which are a parameter. *)
Definition lower_byte (c : ascii) : ascii :=
  if in_range 65 90 c then ascii_of_nat (nat_of_ascii c + 32) else c.

Fixpoint lower_bytes (s : string) : string :=
  match s with
  | EmptyString => EmptyString
  | String c s' => String (lower_byte c) (lower_bytes s')
  end.

Fixpoint is_ascii (s : string) : bool :=
  match s with
  | EmptyString => true
  | String c s' => (byte_of c <? 128)%Z && is_ascii s'
  end.

Definition ToLower_with (f : string → string) (s : string) : string :=
  if is_ascii s then lower_bytes s else f s.

(** What is relied on of the Unicode tables: lower-casing is idempotent. *)
Class UnicodeLower := {
  unicode_lower : string → string;
  unicode_lower_fixed s : ToLower_with unicode_lower (unicode_lower s) = unicode_lower s;
}.

Definition ToLower `{UnicodeLower} (s : string) : string := ToLower_with unicode_lower s.

Lemma lower_byte_idemp c : lower_byte (lower_byte c) = lower_byte c.
Proof. destruct c as [[] [] [] [] [] [] [] []]; reflexivity. Qed.

Lemma lower_byte_ascii c : (byte_of c <? 128)%Z = true → (byte_of (lower_byte c) <? 128)%Z = true.
Proof. destruct c as [[] [] [] [] [] [] [] []]; vm_compute; auto. Qed.

Lemma lower_bytes_idemp s : lower_bytes (lower_bytes s) = lower_bytes s.
Proof. induction s as [| c s IH]; [done |]. cbn. by rewrite lower_byte_idemp, IH. Qed.

Lemma is_ascii_lower s : is_ascii s = true → is_ascii (lower_bytes s) = true.
Proof.
  induction s as [| c s IH]; [done |]. cbn. intros [Hc Hs]%andb_prop.
  apply andb_true_intro. auto using lower_byte_ascii.
Qed.

Lemma ToLower_idemp `{UnicodeLower} s : ToLower (ToLower s) = ToLower s.
Proof.
  unfold ToLower. unfold ToLower_with at 2 3. destruct (is_ascii s) eqn:E.
  - unfold ToLower_with. by rewrite is_ascii_lower, lower_bytes_idemp.
  - apply unicode_lower_fixed.
Qed.

#[export] Hint Rewrite @ToLower_idemp : ahsir.

(** Tables that leave every non-ASCII byte alone: an instance to compute with. *)
Section bytewise.
Lemma lower_bytes_fixed s : ToLower_with lower_bytes (lower_bytes s) = lower_bytes s.
Proof. unfold ToLower_with. rewrite lower_bytes_idemp. by destruct (is_ascii _). Qed.

Definition bytewise_lower : UnicodeLower :=
  {| unicode_lower := lower_bytes; unicode_lower_fixed := lower_bytes_fixed |}.
End bytewise.

(** ** Cutting between runes *)

(** [utf8.RuneStart]: the byte is not a continuation byte. *)
Definition RuneStart (c : ascii) : bool := negb (in_range 128 191 c).

(** The loop [for cut > 0 && !utf8.RuneStart(s[cut]) { cut-- }]. *)
Fixpoint rune_cut (s : string) (cut : nat) : nat :=
  match cut with
  | O => O
  | S cut' => if from_option RuneStart true (byte_at cut s) then cut else rune_cut s cut'
  end.

(** The byte after the first [n] of [s] starts a rune. *)
Definition boundary (n : nat) (s : string) : bool := from_option RuneStart true (byte_at n s).

(** Valid UTF-8 has at most three continuation bytes in a row. *)
Definition runes_short (s : string) : Prop :=
  ∀ i, ∃ k, k ≤ 3 ∧ k ≤ i ∧ boundary (i - k) s = true.

Lemma rune_cut_spec s n :
  rune_cut s n ≤ n ∧ (rune_cut s n = 0 ∨ boundary (rune_cut s n) s = true) ∧
  (∀ k, rune_cut s n < k ≤ n → boundary k s = false).
Proof.
  induction n as [| n (IH1 & IH2 & IH3)]; cbn [rune_cut].
  - split_and!; [done | by left | lia].
  - fold (boundary (S n) s). destruct (boundary (S n) s) eqn:E.
    + split_and!; [done | by right | lia].
    + split_and!; [lia | done |]. intros k Hk. destruct (decide (k = S n)) as [-> | ]; [done | apply IH3; lia].
Qed.

(** ** Searching *)

(** [strings.Index]; [None] is -1. *)
Fixpoint Index (s sub : string) : option nat :=
  match strip_prefix sub s with
  | Some _ => Some 0
  | None => match s with EmptyString => None | String _ s' => S <$> Index s' sub end
  end.

(** [strings.LastIndex] for a string of one byte. *)
Definition LastIndexByte (s : string) (c : ascii) : option nat := (λ x, blen x.1) <$> cut_last c s.

Definition TrimSuffix (s p : string) : string := String.rev (TrimPrefix (String.rev s) (String.rev p)).

Lemma rev_app_spec a b : String.rev_app a b = String.rev a +:+ b.
Proof.
  unfold String.rev. revert b. induction a as [| x a IH]; intros b; [done |]. cbn. rewrite (IH (String x b)), (IH (String x "")). by rewrite string_app_assoc.
Qed.

Lemma string_rev_app a b : String.rev (a +:+ b) = String.rev b +:+ String.rev a.
Proof.
  induction a as [| x a IH]; [symmetry; apply (string_app_nil_r (String.rev b)) |]. 
  change (String.rev_app (a +:+ b) (String x "") = String.rev b +:+ String.rev_app a (String x "")).
  by rewrite !rev_app_spec, IH, string_app_assoc.
Qed.

Lemma string_rev_rev s : String.rev (String.rev s) = s.
Proof.
  induction s as [| x s IH]; [done |]. change (String.rev (String x s)) with (String.rev_app s (String x "")).
  by rewrite rev_app_spec, string_rev_app, IH.
Qed.

Lemma TrimSuffix_app s p : TrimSuffix (s +:+ p) p = s.
Proof. unfold TrimSuffix. by rewrite string_rev_app, TrimPrefix_app, string_rev_rev. Qed.

Lemma TrimSuffix_cases s p : TrimSuffix s p = s ∨ s = TrimSuffix s p +:+ p.
Proof.
  unfold TrimSuffix, TrimPrefix. destruct (strip_prefix _ _) as [r |] eqn:E; [| left; apply string_rev_rev].
  right. apply strip_prefix_Some in E. by rewrite <- (string_rev_rev s), E, string_rev_app, string_rev_rev.
Qed.

(** [strings.Contains]. *)
Definition Contains (s sub : string) : bool := bool_decide (is_Some (Index s sub)).

(** [strings.Split] at a separator of one byte. *)
Fixpoint Split_byte (s : string) (sep : ascii) : list string :=
  match s with
  | EmptyString => [EmptyString]
  | String c s' =>
      let l := Split_byte s' sep in
      if ascii_dec c sep then EmptyString :: l
      else match l with [] => [String c EmptyString] | x :: l' => String c x :: l' end
  end.

(** ** Formatting *)

(** [fmt]'s [%d], a newline and a double quote. *)
Definition fmt_d (z : Z) : string := pretty z.
Definition nl : string := String "010" EmptyString.
Definition dq : string := String "034" EmptyString.

(** ** Upper case, folding and quoting

    As for lower case, the Unicode tables are a parameter for strings that are
    not ASCII; [fmt]'s [%q] escapes by them. *)
Class UnicodeTables := {
  unicode_upper : string → string;
  unicode_fold : string → string → bool;
  fmt_q : string → string;
}.

Definition upper_byte (c : ascii) : ascii :=
  if in_range 97 122 c then ascii_of_nat (nat_of_ascii c - 32) else c.

Fixpoint upper_bytes (s : string) : string :=
  match s with
  | EmptyString => EmptyString
  | String c s' => String (upper_byte c) (upper_bytes s')
  end.

(** [strings.ToUpper] and [strings.EqualFold]. *)
Definition ToUpper `{UnicodeTables} (s : string) : string := if is_ascii s then upper_bytes s else unicode_upper s.

Definition EqualFold `{UnicodeTables} (s t : string) : bool :=
  if is_ascii s && is_ascii t then bool_decide (lower_bytes s = lower_bytes t) else unicode_fold s t.

(** Tables that know only ASCII, for examples. *)
Definition ascii_tables : UnicodeTables :=
  {| unicode_upper := upper_bytes; unicode_fold := λ s t, bool_decide (lower_bytes s = lower_bytes t); fmt_q := λ s, dq +:+ s +:+ dq |}.

(** ** Runes *)

(** The byte [s[i]] exists and is in a range. *)
Definition byte_in (lo hi : Z) (i : nat) (s : string) : bool := from_option (in_range lo hi) false (byte_at i s).

(** The width of the UTF-8 encoding at the front of [s] and whether it is valid,
    as [utf8.DecodeRune] decides; an invalid byte counts as one rune. *)
Definition decode_width (s : string) : nat * bool :=
  match s with
  | EmptyString => (0, false)
  | String a _ =>
      if in_range 0 127 a then (1, true)
      else if in_range 194 223 a && byte_in 128 191 1 s then (2, true)
      else if in_range 224 239 a &&
              byte_in (if is_byte 224 a then 160 else 128) (if is_byte 237 a then 159 else 191) 1 s && byte_in 128 191 2 s
           then (3, true)
      else if in_range 240 244 a &&
              byte_in (if is_byte 240 a then 144 else 128) (if is_byte 244 a then 143 else 191) 1 s &&
              byte_in 128 191 2 s && byte_in 128 191 3 s
           then (4, true)
      else (1, false)
  end.

(** [[]rune(s)], each rune by its encoding; an invalid byte becomes U+FFFD. *)
Fixpoint runes_go (skip : nat) (s : string) : list string :=
  match s with
  | EmptyString => []
  | String _ s' =>
      match skip with
      | S k => runes_go k s'
      | O => match decode_width s with
             | (w, true) => byte_take w s :: runes_go (pred w) s'
             | (_, false) => String "239" (String "191" (String "189" EmptyString)) :: runes_go 0 s'
             end
      end
  end.

Definition runes (s : string) : list string := runes_go 0 s.

(** ** Texts of which every byte has a property *)

Fixpoint all_bytes (P : ascii → bool) (s : string) : bool :=
  match s with EmptyString => true | String c s' => P c && all_bytes P s' end.

Lemma all_bytes_app P s t : all_bytes P (s +:+ t) = all_bytes P s && all_bytes P t.
Proof. induction s as [| c s IH]; [done |]. rewrite string_app_cons. cbn. by rewrite IH, andb_assoc. Qed.

Lemma all_bytes_take P n s : all_bytes P s = true → all_bytes P (byte_take n s) = true.
Proof. revert n. induction s as [| c s IH]; intros [| n]; try done. cbn. intros [-> Hs]%andb_prop. by rewrite IH. Qed.

Lemma string_app_inj_len s t s' t' : blen s = blen s' → s +:+ t = s' +:+ t' → s = s' ∧ t = t'.
Proof.
  revert s'. induction s as [| c s IH]; intros [| c' s']; cbn; try done. intros [= Hl] [= -> E]. by destruct (IH s' Hl E) as [-> ->].
Qed.
