(* ===== verification/Registry.v ===== *)
(** * The agent registry ([internal/registry/registry.go])

    [Registry] maps the lower-cased agent name to its card and its last
    heartbeat. Liveness is never stored: [GetStatus] derives it from the last
    heartbeat and the time of the read. The HTTP handlers are modelled down to
    the status code and the JSON value they write; request decoding
    ([json.Decoder] on the card of the A2A library) is a parameter. *)
From S2P Require Import Prelude GoBase GoStrings.
From Stdlib Require Import ZArith Lia.

(** What the registry promises to a reader of agent liveness, such as the
    scheduler's diagnostics. *)
Class RegistryView (R card : Type) := {
  view_name : card → string;
  view_List : R → list card;
  view_GetStatus : R → time → string → string;
  view_listed_known r now c :
    c ∈ view_List r →
    view_GetStatus r now (view_name c) = "online" ∨
    view_GetStatus r now (view_name c) = "offline";
  view_names_nodup r : NoDup (view_name <$> view_List r);
}.

Module Registry.
Section registry.
Context `{UnicodeLower} {card : Type} (card_Name : card → string).

Record agentEntry := mkEntry {
  entry_card : card;
  entry_status : string;
  entry_lastBeat : time;
}.

Record Registry := mkRegistry {
  agents : gmap string agentEntry;
  heartbeatTimeout : duration;
}.

Definition NewRegistry (timeout : duration) : Registry := mkRegistry ∅ timeout.

Definition with_agents (r : Registry) (m : gmap string agentEntry) : Registry :=
  mkRegistry m (heartbeatTimeout r).

Definition Register (now : time) (c : card) (r : Registry) : Registry :=
  with_agents r (<[ToLower (card_Name c) := mkEntry c "online" now]> (agents r)).

Definition Get (name : string) (r : Registry) : option card :=
  entry_card <$> agents r !! ToLower name.

(** Map iteration has no order in Go; this is one of its orders. *)
Definition List (r : Registry) : list card := entry_card ∘ snd <$> map_to_list (agents r).

Definition GetStatus (now : time) (name : string) (r : Registry) : string :=
  match agents r !! ToLower name with
  | None => "unknown"
  | Some e =>
      if (0 <? heartbeatTimeout r)%Z && (heartbeatTimeout r <? Sub now (entry_lastBeat e))%Z
      then "offline" else entry_status e
  end.

Definition not_found (name : string) : string := "agent " +:+ name +:+ " not found".

Definition Unregister (name : string) (r : Registry) : Registry * option string :=
  let key := ToLower name in
  match agents r !! key with
  | None => (r, Some (not_found name))
  | Some _ => (with_agents r (delete key (agents r)), None)
  end.

Definition Heartbeat (now : time) (name : string) (r : Registry) : Registry :=
  match agents r !! ToLower name with
  | Some e => with_agents r (<[ToLower name := mkEntry (entry_card e) "online" now]> (agents r))
  | None => r
  end.

(** ** HTTP *)

Inductive method := MethodGet | MethodPost | MethodDelete | MethodOther (m : string).

Inductive reply :=
| RCards (cs : list (card * string))
| RCard (c : card)
| RError (msg : string)
| RStatus (s : string).

Definition response : Type := Z * reply.

Definition StatusOK : Z := 200.
Definition StatusCreated : Z := 201.
Definition StatusBadRequest : Z := 400.
Definition StatusNotFound : Z := 404.
Definition StatusMethodNotAllowed : Z := 405.

(** Decoding a request body into a card, or the decoder's error. *)
Context {body : Type} (decode : body → card + string).

Record request := mkRequest { r_method : method; r_path : string; r_body : body }.

Definition handleAgents (now : time) (q : request) (r : Registry) : Registry * response :=
  match r_method q with
  | MethodGet =>
      (r, (StatusOK, RCards ((λ c, (c, GetStatus now (card_Name c) r)) <$> List r)))
  | MethodPost =>
      match decode (r_body q) with
      | inr err => (r, (StatusBadRequest, RError err))
      | inl c => (Register now c r, (StatusCreated, RCard c))
      end
  | _ => (r, (StatusMethodNotAllowed, RError "method not allowed"))
  end.

Definition handleAgent (now : time) (q : request) (r : Registry) : Registry * response :=
  let name := TrimPrefix (r_path q) "/agents/" in
  if bool_decide (name = "") || bool_decide (name = "/") then handleAgents now q r
  else
    match r_method q with
    | MethodGet =>
        match Get name r with
        | None => (r, (StatusNotFound, RError "agent not found"))
        | Some c => (r, (StatusOK, RCard c))
        end
    | MethodDelete =>
        match Unregister name r with
        | (r', Some err) => (r', (StatusNotFound, RError err))
        | (r', None) => (r', (StatusOK, RStatus "unregistered"))
        end
    | _ => (r, (StatusMethodNotAllowed, RError "method not allowed"))
    end.

(** [http.ServeMux] with the patterns ["/agents"] and ["/agents/"], on an
    already cleaned path: an exact match, a subtree match, or no handler. *)
Definition ServeHTTP (now : time) (q : request) (r : Registry) : Registry * option response :=
  if bool_decide (r_path q = "/agents") then
    let '(r', a) := handleAgents now q r in (r', Some a)
  else if strip_prefix "/agents/" (r_path q) is Some _ then
    let '(r', a) := handleAgent now q r in (r', Some a)
  else (r, None).

(** ** The registry as a history of operations *)

Inductive op :=
| OpRegister (now : time) (c : card)
| OpUnregister (name : string)
| OpHeartbeat (now : time) (name : string).

Definition apply_op (r : Registry) (o : op) : Registry :=
  match o with
  | OpRegister now c => Register now c r
  | OpUnregister name => fst (Unregister name r)
  | OpHeartbeat now name => Heartbeat now name r
  end.

Definition run (r : Registry) (ops : list op) : Registry := foldl apply_op r ops.

(** What is known about the agent called [name] after one more operation, as
    a function of that operation alone: the card and the last heartbeat. *)
Definition spec_step (name : string) (k : option (card * time)) (o : op) : option (card * time) :=
  match o with
  | OpRegister now c =>
      if decide (ToLower (card_Name c) = ToLower name) then Some (c, now) else k
  | OpUnregister n => if decide (ToLower n = ToLower name) then None else k
  | OpHeartbeat now n =>
      if decide (ToLower n = ToLower name) then (λ p, (fst p, now)) <$> k else k
  end.

Definition spec (name : string) (ops : list op) : option (card * time) :=
  foldl (spec_step name) None ops.

Definition known (name : string) (r : Registry) : option (card * time) :=
  (λ e, (entry_card e, entry_lastBeat e)) <$> agents r !! ToLower name.

(** Every stored entry says ["online"] and is filed under its card's name. *)
Definition wf (r : Registry) : Prop :=
  map_Forall (λ k e, entry_status e = "online" ∧ k = ToLower (card_Name (entry_card e))) (agents r).

Lemma wf_New t : wf (NewRegistry t).
Proof. apply map_Forall_empty. Qed.

Lemma wf_apply_op r o : wf r → wf (apply_op r o).
Proof.
  intros Hwf. destruct o as [now c | name | now name]; cbn.
  - apply map_Forall_insert_2; [by split | done].
  - unfold Unregister. destruct (agents r !! _); [| done]. by apply map_Forall_delete.
  - unfold Heartbeat. destruct (agents r !! ToLower name) eqn:E; [| done].
    apply map_Forall_insert_2; [| done]. destruct (Hwf _ _ E) as [_ ?]. by split.
Qed.

Lemma wf_run r ops : wf r → wf (run r ops).
Proof. revert r. induction ops; cbn; auto using wf_apply_op. Qed.

Lemma timeout_run r ops : heartbeatTimeout (run r ops) = heartbeatTimeout r.
Proof.
  revert r. induction ops as [| o ops IH]; intros r; [done |]. cbn. rewrite IH.
  destruct o; cbn; [done | unfold Unregister | unfold Heartbeat]; by destruct (agents r !! _).
Qed.

Lemma known_apply_op name r o : known name (apply_op r o) = spec_step name (known name r) o.
Proof.
  unfold known. destruct o as [now c | n | now n]; cbn.
  - rewrite lookup_insert. by case_decide.
  - unfold Unregister. case_decide as Hn.
    + rewrite Hn. destruct (agents r !! ToLower name) eqn:E; cbn; [| by rewrite E].
      by rewrite lookup_delete_eq.
    + destruct (agents r !! ToLower n); cbn; [| done]. by rewrite lookup_delete_ne.
  - unfold Heartbeat. case_decide as Hn.
    + rewrite Hn. destruct (agents r !! ToLower name) eqn:E; cbn; [| by rewrite E].
      by rewrite lookup_insert_eq.
    + destruct (agents r !! ToLower n); cbn; [| done]. by rewrite lookup_insert_ne.
Qed.

Lemma known_run name r ops : known name (run r ops) = foldl (spec_step name) (known name r) ops.
Proof.
  revert r. induction ops as [| o ops IH]; intros r; [done |]. cbn.
  by rewrite IH, known_apply_op.
Qed.

(** [GetStatus] in terms of what is known. *)
Lemma GetStatus_known now name r :
  wf r →
  GetStatus now name r =
    match known name r with
    | None => "unknown"
    | Some (_, beat) =>
        if decide (0 < heartbeatTimeout r ∧ heartbeatTimeout r < Sub now beat)%Z
        then "offline" else "online"
    end.
Proof.
  intros Hwf. unfold GetStatus, known.
  destruct (agents r !! ToLower name) as [e |] eqn:E; [| done]. cbn.
  destruct (Hwf _ _ E) as [-> _].
  case_decide as Hd; destruct (_ && _)%bool eqn:Eb; [done | | | done].
  - exfalso. apply andb_false_iff in Eb. destruct Eb; bool_to_prop; lia.
  - bool_to_prop. lia.
Qed.

Lemma elem_of_List r c : c ∈ List r ↔ ∃ k e, agents r !! k = Some e ∧ entry_card e = c.
Proof.
  unfold List. rewrite list_elem_of_fmap. split.
  - intros ([k e] & -> & Hin). apply elem_of_map_to_list in Hin. eauto.
  - intros (k & e & He & <-). exists (k, e). split; [done |]. by apply elem_of_map_to_list.
Qed.

Lemma listed_known r now c :
  wf r → c ∈ List r →
  GetStatus now (card_Name c) r = "online" ∨ GetStatus now (card_Name c) r = "offline".
Proof.
  intros Hwf (k & e & He & <-)%elem_of_List. rewrite GetStatus_known by done.
  destruct (Hwf _ _ He) as [_ ->]. unfold known. rewrite He. cbn. case_decide; auto.
Qed.

Lemma names_nodup r : wf r → NoDup (card_Name <$> List r).
Proof.
  intros Hwf. unfold List.
  apply (NoDup_fmap_1 ToLower). rewrite <- !list_fmap_compose.
  erewrite list_fmap_ext; [apply NoDup_fst_map_to_list |]. intros i [k e] Hi. cbn.
  apply list_elem_of_lookup_2, elem_of_map_to_list in Hi. by destruct (Hwf _ _ Hi).
Qed.

(** The interface offered to readers of liveness. *)
#[export] Program Instance Registry_view : RegistryView { r : Registry | wf r } card := {|
  view_name := card_Name;
  view_List r := List (`r);
  view_GetStatus r now name := GetStatus now name (`r);
|}.
Next Obligation. intros [r Hr] now c Hc. by apply listed_known. Qed.
Next Obligation. intros [r Hr]. by apply names_nodup. Qed.

(** Refinement of the history: after any sequence of registrations,
    unregistrations and heartbeats, under any spelling of a name the registry
    returns the card of the last registration not undone by an unregistration,
    and reports the agent offline exactly when a positive timeout is smaller
    than the time since its last registration or heartbeat. *)
Lemma registry_refines_history timeout ops now name :
  let r := run (NewRegistry timeout) ops in
  Get name r = fst <$> spec name ops ∧
  GetStatus now name r =
    match spec name ops with
    | None => "unknown"
    | Some (_, beat) =>
        if decide (0 < timeout ∧ timeout < Sub now beat)%Z then "offline" else "online"
    end.
Proof.
  intros r. assert (known name r = spec name ops) as Hk.
  { unfold r. by rewrite known_run. }
  split.
  - rewrite <- Hk. unfold Get, known. by destruct (agents r !! _).
  - rewrite GetStatus_known by apply wf_run, wf_New. rewrite Hk.
    unfold r. by rewrite timeout_run.
Qed.

#[local] Arguments ServeHTTP : simpl never.

Lemma Get_Register now c name r :
  ToLower name = ToLower (card_Name c) → Get name (Register now c r) = Some c.
Proof. intros E. unfold Get. cbn. by rewrite E, lookup_insert_eq. Qed.

Lemma route_agent now m name b r :
  name ≠ "" → name ≠ "/" →
  ServeHTTP now (mkRequest m ("/agents/" +:+ name) b) r =
    let '(r', a) :=
      match m with
      | MethodGet =>
          (r, match Get name r with
              | None => (StatusNotFound, RError "agent not found")
              | Some c => (StatusOK, RCard c)
              end)
      | MethodDelete =>
          match Unregister name r with
          | (r', Some err) => (r', (StatusNotFound, RError err))
          | (r', None) => (r', (StatusOK, RStatus "unregistered"))
          end
      | _ => (r, (StatusMethodNotAllowed, RError "method not allowed"))
      end in (r', Some a).
Proof.
  intros H1 H2. unfold ServeHTTP, handleAgent. cbn [r_path r_method].
  rewrite TrimPrefix_app, strip_prefix_app, !bool_decide_eq_false_2 by done. cbn.
  destruct m; try done. by destruct (Get name r).
Qed.

Lemma handleAgents_error now q r :
  (400 ≤ fst (snd (handleAgents now q r)))%Z → fst (handleAgents now q r) = r.
Proof. unfold handleAgents. destruct (r_method q); [| destruct (decode _) |..]; cbn; done. Qed.

Lemma handleAgent_error now q r :
  (400 ≤ fst (snd (handleAgent now q r)))%Z → fst (handleAgent now q r) = r.
Proof.
  unfold handleAgent, Unregister. destruct (_ || _); [apply handleAgents_error |].
  destruct (r_method q); [destruct (Get _ _) | | destruct (agents r !! _) |]; cbn; done.
Qed.

Lemma ServeHTTP_error now q r r' status bd :
  ServeHTTP now q r = (r', Some (status, bd)) → (400 ≤ status)%Z → r' = r.
Proof.
  pose proof (handleAgents_error now q r) as H1. pose proof (handleAgent_error now q r) as H2.
  unfold ServeHTTP. destruct (handleAgents now q r) as [r1 [s1 b1]].
  destruct (handleAgent now q r) as [r2 [s2 b2]]. cbn in *.
  destruct (bool_decide (r_path q = "/agents")), (strip_prefix "/agents/" (r_path q));
    cbn; intros Heq Hs; simplify_eq; auto.
Qed.

(** The HTTP surface: a registered card is served back under every
    spelling of its name until it is deleted, after which the agent is gone;
    and no request answered with an error status, nor one without a handler,
    changes the registry. *)
Lemma http_register_get_delete now1 now2 now3 now4 b c name r :
  decode b = inl c → ToLower name = ToLower (card_Name c) → name ≠ "" → name ≠ "/" →
  let '(r1, a1) := ServeHTTP now1 (mkRequest MethodPost "/agents" b) r in
  let '(r2, a2) := ServeHTTP now2 (mkRequest MethodGet ("/agents/" +:+ name) b) r1 in
  let '(r3, a3) := ServeHTTP now3 (mkRequest MethodDelete ("/agents/" +:+ name) b) r2 in
  let '(r4, a4) := ServeHTTP now4 (mkRequest MethodGet ("/agents/" +:+ name) b) r3 in
  a1 = Some (StatusCreated, RCard c) ∧
  a2 = Some (StatusOK, RCard c) ∧
  a3 = Some (StatusOK, RStatus "unregistered") ∧
  a4 = Some (StatusNotFound, RError "agent not found") ∧
  r4 = with_agents r (delete (ToLower (card_Name c)) (agents r)) ∧
  (∀ now q r' status body,
     ServeHTTP now q r = (r', Some (status, body)) → (400 ≤ status)%Z → r' = r).
Proof.
  intros Hd Hn H1 H2.
  change (ServeHTTP now1 (mkRequest MethodPost "/agents" b) r)
    with (let '(r', a) := handleAgents now1 (mkRequest MethodPost "/agents" b) r in (r', Some a)).
  unfold handleAgents. cbn [r_method r_body]. rewrite Hd. cbn.
  rewrite route_agent, Get_Register by done. cbn.
  rewrite route_agent by done. unfold Unregister. cbn.
  rewrite Hn, lookup_insert_eq. cbn. rewrite route_agent by done.
  unfold Get. cbn. rewrite Hn, lookup_delete_eq. cbn.
  split_and!; try done.
  - unfold with_agents. cbn. f_equal. apply delete_insert_eq.
  - intros now q r' status bd. apply ServeHTTP_error.
Qed.
End registry.

(** A registration, a lookup and a deletion of the agent "Coder". *)
Lemma http_register_get_delete_witness :
  let '(r1, a1) := @ServeHTTP bytewise_lower string id string inl 5 (mkRequest MethodPost "/agents" "Coder") (NewRegistry 90) in
  a1 = Some (StatusCreated, RCard "Coder").
Proof.
  pose proof (@http_register_get_delete bytewise_lower string id string inl 5 6 7 8
    "Coder" "Coder" "cODER" (NewRegistry 90) eq_refl eq_refl ltac:(done) ltac:(done)) as H.
  destruct (ServeHTTP _ _ _ _ _) as [r1 a1]. destruct (ServeHTTP _ _ _ _ _) as [r2 a2].
  destruct (ServeHTTP _ _ _ _ _) as [r3 a3]. destruct (ServeHTTP _ _ _ _ _) as [r4 a4].
  apply H.
Defined.
End Registry.
