(* ===== verification/InstancePool.v ===== *)
(** * Concurrent instances of one agent card ([internal/scheduler/instance.go])

    The naming scheme of pooled instances, their workspaces, and the
    bookkeeping that assigns sessions to instances. Go's [int] is [Z] here:
    ordinals and counters stay between [0] and the number of turns in flight.
    The mutex makes each operation one atomic step. *)
From S2P Require Import Prelude GoBase GoStrings.
From Stdlib Require Import ZArith Lia Ascii.

(** ** Names *)
Module InstanceName.
Local Open Scope Z_scope.

Definition instanceSep : ascii := "#".

Definition instanceName (base : string) (idx : Z) : string :=
  if idx <=? 0 then base else base +:+ String instanceSep (Itoa idx).

Definition parseInstanceName (name : string) : string * Z * bool :=
  match cut_last instanceSep name with
  | None => (name, 0, true)
  | Some (pre, suffix) =>
      match Atoi suffix with
      | None => (name, 0, false)
      | Some n =>
          if (n <=? 0) || negb (nonempty pre) then (name, 0, false) else (pre, n, true)
      end
  end.

Definition isInstanceChild (name : string) : bool :=
  let '(_, idx, ok) := parseInstanceName name in ok && (0 <? idx).

(** ** [filepath.Join] and [filepath.Clean] on Unix paths *)

(** The ["/"]-separated components of a path; [cur] is the component being
    read, reversed. *)
Fixpoint split_slash (cur s : string) : list string :=
  match s with
  | EmptyString => [String.rev cur]
  | String c s' =>
      if ascii_dec c "/" then String.rev cur :: split_slash EmptyString s'
      else split_slash (String c cur) s'
  end.

(** One component pushed on the cleaned path so far, innermost first. *)
Definition clean_push (rooted : bool) (stack : list string) (x : string) : list string :=
  if bool_decide (x = "") || bool_decide (x = ".") then stack
  else if bool_decide (x = "..") then
    match stack with
    | [] => if rooted then [] else [".."]
    | y :: stack' => if bool_decide (y = "..") then ".." :: stack else stack'
    end
  else x :: stack.

Definition is_rooted (p : string) : bool :=
  match p with String c _ => bool_decide (c = "/"%char) | _ => false end.

Definition render (rooted : bool) (stack : list string) : string :=
  match rooted, stack with
  | true, _ => "/" +:+ Join (rev stack) "/"
  | false, [] => "."
  | false, _ => Join (rev stack) "/"
  end.

Definition Clean (p : string) : string :=
  render (is_rooted p) (foldl (clean_push (is_rooted p)) [] (split_slash "" p)).

(** [filepath.Join(a, b)] for a non-empty [b]. *)
Definition Join2 (a b : string) : string :=
  Clean (if nonempty a then a +:+ "/" +:+ b else b).

Definition instanceWorkspace (baseWorkspace : string) (idx : Z) : string :=
  if idx <=? 0 then baseWorkspace else Join2 baseWorkspace ("inst-" +:+ Itoa idx).

(** ** Facts *)

Lemma digits_no_sep n : 0 ≤ n → cut_last instanceSep (Itoa n) = None.
Proof. intros. eapply cut_last_digits; [done | by apply digits_value_Itoa]. Qed.

Lemma split_slash_app cur p s :
  split_slash cur (p +:+ String "/" s) = split_slash cur p ++ split_slash "" s.
Proof.
  revert cur. induction p as [| c p IH]; intros cur.
  - change ("" +:+ String "/" s) with (String "/" s). done.
  - rewrite string_app_cons. cbn. destruct (ascii_dec c "/"); cbn; by rewrite IH.
Qed.

Lemma split_slash_none cur s :
  cut_last "/" s = None → split_slash cur s = [String.rev (String.rev_app s cur)].
Proof.
  revert cur. induction s as [| c s IH]; intros cur H; [done |]. cbn in *.
  destruct (cut_last "/" s) as [[] |]; [done |].
  destruct (ascii_dec c "/"); [done |]. by rewrite IH.
Qed.

Lemma rev_app_rev_app s t u : String.rev_app (String.rev_app s t) u = String.rev_app t (s +:+ u).
Proof.
  revert t u. induction s as [| c s IH]; intros t u; [done |]. rewrite string_app_cons.
  cbn. by rewrite IH.
Qed.

Lemma split_slash_one s : cut_last "/" s = None → split_slash "" s = [s].
Proof.
  intros. rewrite split_slash_none by done. unfold String.rev.
  rewrite rev_app_rev_app. cbn. by rewrite string_app_nil_r.
Qed.

Lemma inst_no_slash i : 0 ≤ i → cut_last "/" ("inst-" +:+ Itoa i) = None.
Proof.
  intros Hi. assert (cut_last "/" (Itoa i) = None) as E.
  { eapply cut_last_digits; [done | by apply digits_value_Itoa]. }
  rewrite !string_app_cons. change ("" +:+ Itoa i) with (Itoa i). cbn. by rewrite E.
Qed.

Lemma clean_push_inst r st i : clean_push r st ("inst-" +:+ Itoa i) = ("inst-" +:+ Itoa i) :: st.
Proof.
  unfold clean_push. rewrite !string_app_cons.
  rewrite !bool_decide_eq_false_2 by (intros E; discriminate E). done.
Qed.

Lemma Join_snoc l x sep : ∃ p, ∀ y, Join (l ++ [y]) sep = p +:+ y ∧ Join (l ++ [x]) sep = p +:+ x.
Proof.
  induction l as [| a l [p IH]]; [by exists "" |].
  destruct l as [| b l].
  - exists (a +:+ sep). intros y. cbn. by rewrite !string_app_assoc.
  - exists (a +:+ sep +:+ p). intros y. destruct (IH y) as [E1 E2].
    cbn in *. by rewrite E1, E2, !string_app_assoc.
Qed.

Lemma render_snoc r st : ∃ p, ∀ y, render r (y :: st) = p +:+ y.
Proof.
  destruct (Join_snoc (rev st) "" "/") as [p Hp].
  exists (if r then "/" +:+ p else p). intros y. destruct (Hp y) as [E _].
  destruct r; cbn [render rev]; rewrite E; [by rewrite string_app_assoc | done].
Qed.

(** The workspace of an instance is a prefix fixed by the base workspace,
    followed by the instance's own directory name. *)
Lemma instanceWorkspace_shape base :
  ∃ p, ∀ i, 0 < i → instanceWorkspace base i = p +:+ "inst-" +:+ Itoa i.
Proof.
  set (r := is_rooted base).
  set (st := if nonempty base then foldl (clean_push r) [] (split_slash "" base) else []).
  destruct (render_snoc r st) as [p Hp]. exists p. intros i Hi.
  unfold instanceWorkspace. rewrite (proj2 (Z.leb_gt _ _)) by lia.
  rewrite <- Hp. unfold Join2, Clean, st, r. destruct base as [| c base]; cbn [nonempty].
  - rewrite split_slash_one by (apply inst_no_slash; lia).
    change (foldl (clean_push ?r) [] [?x]) with (clean_push r [] x).
    by rewrite clean_push_inst.
  - change ("/" +:+ ?s) with (String "/" s).
    rewrite split_slash_app, (split_slash_one ("inst-" +:+ _)) by (apply inst_no_slash; lia).
    rewrite foldl_app. cbn [foldl]. rewrite clean_push_inst. done.
Qed.

(** Names and workspaces of instances: a positive ordinal is read back
    from the name it was printed into, whatever the base name, and such a name
    is recognised as an instance child; ordinal 0 is the base itself. Distinct
    instances of a card never share a workspace directory. *)
Lemma instance_identity base ws i j :
  base ≠ "" → 0 < i ≤ max_int64 → 0 < j ≤ max_int64 → i ≠ j →
  parseInstanceName (instanceName base i) = (base, i, true) ∧
  isInstanceChild (instanceName base i) = true ∧
  (cut_last instanceSep base = None →
     parseInstanceName (instanceName base 0) = (base, 0, true) ∧ isInstanceChild base = false) ∧
  instanceName base i ≠ instanceName base j ∧
  instanceWorkspace ws i ≠ instanceWorkspace ws j.
Proof.
  intros Hb Hi Hj Hij.
  assert (∀ k, 0 < k ≤ max_int64 → parseInstanceName (instanceName base k) = (base, k, true)) as Hp.
  { intros k Hk. unfold instanceName, parseInstanceName.
    rewrite (proj2 (Z.leb_gt k 0)) by lia.
    rewrite cut_last_app by (apply digits_no_sep; lia). rewrite Atoi_Itoa by lia.
    rewrite (proj2 (Z.leb_gt k 0)) by lia. by destruct base. }
  split_and!.
  - by apply Hp.
  - unfold isInstanceChild. rewrite Hp by done. apply Z.ltb_lt. lia.
  - intros Hs. unfold isInstanceChild, parseInstanceName. cbn. by rewrite Hs.
  - intros E. pose proof (Hp i Hi) as H1. rewrite E, (Hp j Hj) in H1. congruence.
  - destruct (instanceWorkspace_shape ws) as [p Hw]. rewrite !Hw by lia.
    intros E%(inj (String.append p))%(inj (String.append "inst-")).
    apply Hij, Itoa_inj; [lia | lia | exact E].
Qed.

Lemma instance_identity_witness :
  parseInstanceName (instanceName "cma-x-v1" 2) = ("cma-x-v1", 2, true).
Proof.
  apply (instance_identity "cma-x-v1" "/srv/ws/" 2 3); [done | | | done];
    unfold max_int64; lia.
Defined.
End InstanceName.

(** ** Assignment of sessions to instances *)
Module InstancePool.
Local Open Scope Z_scope.

Record instancePool := mkPool {
  cap : Z;
  spawned : Z;
  assign : gmap string Z;
  active : gmap Z Z;
}.

(** Reading a missing key of a Go [map[int]int]. *)
Definition load (p : instancePool) (i : Z) : Z := default 0 (active p !! i).

Definition newInstancePool (capacity : Z) : instancePool :=
  mkPool (if capacity <? 1 then 1 else capacity) 1 ∅ ∅.

Definition set_load (i n : Z) (p : instancePool) : instancePool :=
  mkPool (cap p) (spawned p) (assign p) (<[i := n]> (active p)).

(** The scan of [pickLocked] over the spawned ordinals. *)
Definition min_step (p : instancePool) (acc : Z * Z) (i : Z) : Z * Z :=
  if load p i <? snd acc then (i, load p i) else acc.

Definition min_scan (p : instancePool) : Z * Z :=
  foldl (min_step p) (0, load p 0) (seqZ 1 (spawned p - 1)).

Definition pickLocked (p : instancePool) : Z * instancePool :=
  let '(minIdx, minLoad) := min_scan p in
  if (0 <? minLoad) && (spawned p <? cap p) then
    (spawned p, mkPool (cap p) (spawned p + 1) (assign p) (active p))
  else (minIdx, p).

Definition incr (i : Z) (p : instancePool) : instancePool := set_load i (load p i + 1) p.

Definition set_assign (c : string) (i : Z) (p : instancePool) : instancePool :=
  mkPool (cap p) (spawned p) (<[c := i]> (assign p)) (active p).

Definition acquire (contextID : string) (p : instancePool) : Z * instancePool :=
  let fresh :=
    let '(idx, p1) := pickLocked p in
    let p2 := if nonempty contextID then set_assign contextID idx p1 else p1 in
    (idx, incr idx p2) in
  if nonempty contextID then
    match assign p !! contextID with
    | Some idx => (idx, incr idx p)
    | None => fresh
    end
  else fresh.

Definition release (idx : Z) (p : instancePool) : instancePool :=
  if 0 <? load p idx then set_load idx (load p idx - 1) p else p.

Definition activeInstances (p : instancePool) : Z := spawned p.

(** The pool with the turns in flight on it: a caller releases exactly once
    the ordinal that an acquisition gave it. *)
Inductive step : instancePool * list Z → instancePool * list Z → Prop :=
| step_acquire c p turns idx p' :
    acquire c p = (idx, p') → step (p, turns) (p', idx :: turns)
| step_release idx p turns turns' :
    turns ≡ₚ idx :: turns' → step (p, turns) (release idx p, turns').

(** How many of the turns in flight run on instance [i]. *)
Definition running_on (i : Z) (turns : list Z) : Z :=
  Z.of_nat (length (filter (λ j, j = i) turns)).

Record wf (p : instancePool) : Prop := {
  wf_spawned : 1 ≤ spawned p ≤ cap p;
  wf_assign c i : assign p !! c = Some i → c ≠ "" ∧ 0 ≤ i < spawned p;
  wf_active i : 0 ≤ load p i ∧ (0 < load p i → 0 ≤ i < spawned p);
}.

Lemma load_set_load i j n p : load (set_load i n p) j = if decide (i = j) then n else load p j.
Proof. unfold load, set_load. cbn. rewrite lookup_insert. by case_decide. Qed.

(** The scan finds a least-loaded ordinal, the lowest among equals. *)
Lemma min_scan_from p l acc :
  let r := foldl (min_step p) acc l in
  snd r ≤ snd acc ∧ (∀ i, i ∈ l → snd r ≤ load p i) ∧
  (r = acc ∨ fst r ∈ l ∧ snd r = load p (fst r) ∧ snd r < snd acc).
Proof.
  revert acc. induction l as [| x l IH]; intros acc; cbn.
  { split_and!; [lia | by intros i ?%not_elem_of_nil | by left]. }
  destruct (IH (min_step p acc x)) as (H1 & H2 & H3). unfold min_step in *.
  destruct (load p x <? snd acc) eqn:E; bool_to_prop; cbn in *.
  - split_and!; [lia | | right].
    + intros i [-> | Hi]%elem_of_cons; [lia | auto].
    + destruct H3 as [-> | (? & ? & ?)]; cbn; rewrite elem_of_cons; auto with lia.
  - split_and!; [lia | |].
    + intros i [-> | Hi]%elem_of_cons; [lia | auto].
    + destruct H3 as [-> | (? & ? & ?)]; [by left | right]. rewrite elem_of_cons. auto.
Qed.

Lemma min_scan_spec p idx m :
  1 ≤ spawned p → min_scan p = (idx, m) →
  0 ≤ idx < spawned p ∧ m = load p idx ∧
  (∀ i, 0 ≤ i < spawned p → m ≤ load p i).
Proof.
  intros Hs E. pose proof (min_scan_from p (seqZ 1 (spawned p - 1)) (0, load p 0)) as H.
  unfold min_scan in E. cbn zeta in H. rewrite E in H. cbn in H.
  destruct H as (H1 & H2 & H3). split; [| split].
  - destruct H3 as [[= -> ->] | (Hin & _)]; [lia |]. apply elem_of_seqZ in Hin. lia.
  - by destruct H3 as [[= -> ->] | (_ & ? & _)].
  - intros i Hi. destruct (decide (i = 0)) as [-> |]; [lia |].
    apply H2, elem_of_seqZ. lia.
Qed.

(** What a fresh pick guarantees: the instance is the least loaded one, and
    it is idle unless every instance the cap allows is busy. *)
Lemma pickLocked_spec p idx p' :
  wf p → pickLocked p = (idx, p') →
  wf p' ∧ 0 ≤ idx < spawned p' ∧ assign p' = assign p ∧ active p' = active p ∧
  cap p' = cap p ∧ (∀ i, 0 ≤ i < spawned p' → load p idx ≤ load p i) ∧
  (load p idx = 0 ∨ (∀ i, 0 ≤ i < cap p → 0 < load p i)).
Proof.
  intros Hwf. unfold pickLocked. destruct (min_scan p) as [m_i m] eqn:E.
  destruct Hwf as [Hs Ha Hl]. apply min_scan_spec in E as (Hm & -> & Hmin); [| lia].
  assert (load p (spawned p) = 0) as Hz.
  { destruct (Hl (spawned p)) as [? Hb].
    destruct (decide (0 < load p (spawned p))); [apply Hb in l |]; lia. }
  destruct (_ && _) eqn:Eb; intros [= <- <-]; bool_to_prop; cbn.
  - split_and!; try lia; try done.
    + split; cbn; [lia | |].
      * intros c i Hc. destruct (Ha c i Hc). split; [done | lia].
      * intros i. destruct (Hl i) as [? Hb]. split; [done |]. intros Hp. apply Hb in Hp. lia.
    + intros i Hi. rewrite Hz. apply (Hl i).
  - split_and!; try lia; try done.
    apply andb_false_iff in Eb as [Eb | Eb]; bool_to_prop.
    + left. pose proof (Hl m_i). lia.
    + destruct (decide (load p m_i = 0)); [by left | right]. intros i Hi.
      pose proof (Hl m_i). pose proof (Hmin i). lia.
Qed.

Lemma wf_incr i p : wf p → 0 ≤ i < spawned p → wf (incr i p).
Proof.
  intros [Hs Ha Hl] Hi. split; [done.. |]. intros j. unfold incr. rewrite load_set_load. cbn.
  destruct (decide (i = j)) as [-> |]; [| apply Hl]. pose proof (Hl j). lia.
Qed.

Lemma wf_set_assign c i p : c ≠ "" → 0 ≤ i < spawned p → wf p → wf (set_assign c i p).
Proof.
  intros Hc Hi [Hs Ha Hl]. split; [done | | done]. cbn. intros c' i'.
  rewrite lookup_insert. case_decide as E; [| apply Ha]. subst. by intros [= <-].
Qed.

Lemma nonempty_true s : nonempty s = true ↔ s ≠ "".
Proof. by destruct s. Qed.

(** One acquisition, on every branch. *)
Lemma acquire_spec c p idx p' :
  wf p → acquire c p = (idx, p') →
  wf p' ∧ 0 ≤ idx < spawned p' ∧ cap p' = cap p ∧
  (∀ i, load p' i = load p i + if decide (idx = i) then 1 else 0) ∧
  assign p' = (if decide (c = "") then assign p else <[c := idx]> (assign p)) ∧
  (assign p !! c = Some idx ∨
   assign p !! c = None ∧
   (∀ i, 0 ≤ i < spawned p' → load p idx ≤ load p i) ∧
   (load p idx = 0 ∨ ∀ i, 0 ≤ i < cap p → 0 < load p i)).
Proof.
  intros Hwf. unfold acquire.
  assert (∀ q, (∀ i, load q i = load p i) → ∀ i,
            load (incr idx q) i = load p i + if decide (idx = i) then 1 else 0) as Hload.
  { intros q Hq i. unfold incr. rewrite load_set_load, !Hq. case_decide; subst; lia. }
  destruct (assign p !! c) as [i |] eqn:Ec.
  - destruct (wf_assign p Hwf c i Ec) as [Hc Hi].
    rewrite (proj2 (nonempty_true c)) by done. intros [= <- <-].
    split_and!; try done; try (cbn; lia).
    + by apply wf_incr.
    + by apply Hload.
    + rewrite decide_False by done. symmetry. by apply insert_id.
    + by left.
  - destruct (pickLocked p) as [k p1] eqn:Ep.
    destruct (pickLocked_spec _ _ _ Hwf Ep) as (Hwf1 & Hk & Ha & Hact & Hcap & Hmin & Hbusy).
    assert (∀ i, load p1 i = load p i) as Hl1 by (intros; unfold load; by rewrite Hact).
    destruct (nonempty c) eqn:En; intros [= <- <-]; split_and!; try done; try (cbn; lia);
      try (by apply Hload); try (right; by split_and!).
    + apply wf_incr; [| done]. apply wf_set_assign; [by apply nonempty_true | done | done].
    + cbn. rewrite decide_False by (by apply nonempty_true). by rewrite Ha.
    + by apply wf_incr.
    + cbn. rewrite decide_True; [done |]. by destruct c.
Qed.

Lemma instances_wf_new n : wf (newInstancePool n).
Proof.
  split; cbn.
  - destruct (n <? 1) eqn:E; bool_to_prop; lia.
  - intros c i. by rewrite lookup_empty.
  - intros i. unfold load. cbn. rewrite lookup_empty. cbn. lia.
Qed.

Lemma wf_release i p : wf p → wf (release i p).
Proof.
  intros [Hs Ha Hl]. unfold release. destruct (_ <? _) eqn:E; [| done]. bool_to_prop.
  split; [done.. |]. intros j. rewrite load_set_load. cbn.
  destruct (decide (i = j)) as [-> |]; [| apply Hl]. pose proof (Hl j). lia.
Qed.

Lemma running_on_cons i j l :
  running_on i (j :: l) = running_on i l + if decide (j = i) then 1 else 0.
Proof. unfold running_on. rewrite filter_cons. case_decide; cbn [length]; lia. Qed.

Lemma running_on_perm i l l' : l ≡ₚ l' → running_on i l = running_on i l'.
Proof. unfold running_on. by intros ->. Qed.

(** The state of the client system: a well-formed pool whose counters are
    exactly the turns in flight. *)
Definition accounts (s : instancePool * list Z) : Prop :=
  wf (fst s) ∧ ∀ i, load (fst s) i = running_on i (snd s).

Lemma accounts_step s s' : accounts s → step s s' → accounts s'.
Proof.
  intros [Hwf Hc] Hstep. destruct Hstep as [c p turns idx p' E | idx p turns turns' E]; cbn in *.
  - destruct (acquire_spec _ _ _ _ Hwf E) as (Hwf' & _ & _ & Hl & _).
    split; [done |]. intros i. cbn. by rewrite Hl, running_on_cons, Hc.
  - split; [by apply wf_release |]. intros i. cbn.
    assert (running_on i turns = running_on i turns' + if decide (idx = i) then 1 else 0) as Hi.
    { by rewrite (running_on_perm _ _ _ E), running_on_cons. }
    assert (0 < load p idx) as Hpos.
    { rewrite Hc, (running_on_perm _ _ _ E), running_on_cons, decide_True by done.
      unfold running_on. lia. }
    unfold release. rewrite (proj2 (Z.ltb_lt _ _) Hpos), load_set_load, !Hc in *.
    destruct (decide (idx = i)) as [-> |]; lia.
Qed.

Lemma assign_step c i s s' :
  accounts s → step s s' → assign (fst s) !! c = Some i → assign (fst s') !! c = Some i.
Proof.
  intros [Hwf _] Hstep Hc. destruct Hstep as [c' p turns idx p' E | idx p turns turns' E]; cbn in *.
  - destruct (acquire_spec _ _ _ _ Hwf E) as (_ & _ & _ & _ & -> & Hor).
    case_decide; [done |]. rewrite lookup_insert. case_decide; [subst | done].
    destruct Hor as [? | [? _]]; congruence.
  - unfold release. by destruct (_ <? _).
Qed.

Definition reachable (n : Z) (s : instancePool * list Z) : Prop :=
  rtc step (newInstancePool n, []) s.

Lemma reachable_accounts n s : reachable n s → accounts s.
Proof.
  apply rtc_invariant; [apply accounts_step |]. split; [apply instances_wf_new |].
  intros i. unfold load. cbn. by rewrite lookup_empty.
Qed.

(** Accounting of the pool: in every state reached by acquisitions and
    matching releases, the per-instance counters are exactly the turns in
    flight, at most [cap] instances exist, no turn runs on an ordinal that was
    not spawned, and when all turns have been released every counter is 0. *)
Lemma pool_accounting n p turns :
  reachable n (p, turns) →
  (∀ i, load p i = running_on i turns) ∧
  1 ≤ activeInstances p ≤ Z.max 1 n ∧
  (∀ i, i ∈ turns → 0 ≤ i < activeInstances p) ∧
  (turns = [] → ∀ i, load p i = 0).
Proof.
  intros Hr. destruct (reachable_accounts _ _ Hr) as [Hwf Hl]. cbn in *.
  assert (cap p = Z.max 1 n) as Hcap.
  { change (cap (fst (p, turns)) = Z.max 1 n).
    refine (proj2 (rtc_invariant step (λ s, accounts s ∧ cap (fst s) = Z.max 1 n) _ _ _ _ Hr)).
    - intros s s' [Hs Hc] Hstep. split; [by eapply accounts_step |].
      destruct Hs as [Hs _]. destruct Hstep as [c q t idx q' E | idx q t t' E]; cbn in *.
      + destruct (acquire_spec _ _ _ _ Hs E) as (_ & _ & -> & _). done.
      + unfold release. by destruct (_ <? _).
    - split; [eapply reachable_accounts, rtc_refl |]. cbn.
      destruct (n <? 1) eqn:E; bool_to_prop; lia. }
  destruct Hwf as [Hs Ha Hact]. unfold activeInstances. split_and!; try done; try lia.
  - intros i Hi. apply Hact. rewrite Hl. unfold running_on.
    assert (i ∈ filter (λ j, j = i) turns) as Hin by (by apply list_elem_of_filter).
    destruct (filter _ _); [by apply not_elem_of_nil in Hin | cbn; lia].
  - intros -> i. by rewrite Hl.
Qed.

(** Affinity and spread: once a non-empty context has been given an
    instance, every later acquisition for it returns that instance; a context
    without an instance gets a least-loaded one, which is idle unless every
    instance allowed by the cap is busy. *)
Lemma affinity_and_spread n s1 s2 c i1 p1 i2 p2 :
  reachable n s1 → c ≠ "" → acquire c (fst s1) = (i1, p1) →
  rtc step (p1, i1 :: snd s1) s2 → acquire c (fst s2) = (i2, p2) →
  i2 = i1 ∧
  (assign (fst s1) !! c = None →
     (∀ i, 0 ≤ i < spawned p1 → load (fst s1) i1 ≤ load (fst s1) i) ∧
     (load (fst s1) i1 = 0 ∨ ∀ i, 0 ≤ i < cap (fst s1) → 0 < load (fst s1) i)).
Proof.
  intros Hr Hc E1 Hrun E2. destruct (reachable_accounts _ _ Hr) as [Hwf _].
  destruct (acquire_spec _ _ _ _ Hwf E1) as (_ & _ & _ & _ & Ha & Hor).
  assert (step s1 (p1, i1 :: snd s1)) as Hstep by (destruct s1; by econstructor).
  assert (accounts (p1, i1 :: snd s1)) as Hacc.
  { eapply accounts_step; [by eapply reachable_accounts | done]. }
  assert (accounts s2 ∧ assign (fst s2) !! c = Some i1) as [[Hwf2 _] Hc2].
  { refine (rtc_invariant step (λ s, accounts s ∧ assign (fst s) !! c = Some i1) _ _ _ _ Hrun).
    - intros s s' [? ?] ?. split; [by eapply accounts_step | by eapply assign_step].
    - split; [done |]. cbn. rewrite Ha, decide_False by done. by rewrite lookup_insert_eq. }
  split.
  - destruct (acquire_spec _ _ _ _ Hwf2 E2) as (_ & _ & _ & _ & _ & [? | [? _]]); congruence.
  - intros Hn. destruct Hor as [? | (_ & ? & ?)]; [congruence | done].
Qed.

(** Two contexts in flight on a card with two instances. *)
Lemma pool_accounting_witness :
  reachable 2 (snd (acquire "b" (snd (acquire "a" (newInstancePool 2)))), [1; 0]) ∧
  activeInstances (snd (acquire "b" (snd (acquire "a" (newInstancePool 2))))) ≤ 2.
Proof.
  assert (reachable 2 (snd (acquire "b" (snd (acquire "a" (newInstancePool 2)))), [1; 0])) as H.
  { eapply rtc_l; [by apply (step_acquire "a") |].
    eapply rtc_l; [by apply (step_acquire "b") |]. apply rtc_refl. }
  split; [exact H |]. apply (pool_accounting 2 _ _ H).
Defined.

Lemma affinity_and_spread_witness :
  fst (acquire "a" (snd (acquire "b" (snd (acquire "a" (newInstancePool 2)))))) = 0.
Proof.
  refine (proj1 (affinity_and_spread 2 (newInstancePool 2, []) (_, [1; 0]) "a" 0 _ _ _
    (rtc_refl _ _) ltac:(done) _ _ _)).
  - apply surjective_pairing.
  - eapply rtc_l; [by apply (step_acquire "b") |]. apply rtc_refl.
  - apply surjective_pairing.
Defined.
End InstancePool.
