(* ===== verification/AgentLifecycle.v ===== *)
(** * Operational state of the agents ([internal/scheduler/lifecycle.go])

    The scheduler stores one lifecycle snapshot per managed agent and, when
    asked, reconciles the stored snapshots with the heartbeats known to the
    registry. The registry is used through the interface [RegistryView] only. *)
From S2P Require Import Prelude GoBase GoStrings Registry InstancePool.
From Stdlib Require Import ZArith Lia.

Inductive AgentLifecycleState :=
| AgentLifecycleOnline
| AgentLifecycleIdle
| AgentLifecycleStopped
| AgentLifecycleInvalidConfig
| AgentLifecycleRestartBackoff
| AgentLifecycleHealthFailed.

Inductive AgentLifecycleSeverity := SeverityOK | SeverityInfo | SeverityWarning | SeverityError.

#[export] Instance AgentLifecycleState_eq_dec : EqDecision AgentLifecycleState.
Proof. solve_decision. Defined.

Record AgentLifecycleSnapshot := mkSnapshot {
  Name : string;
  State : AgentLifecycleState;
  ReasonCode : string;
  Reason : string;
  Severity : AgentLifecycleSeverity;
  Wakeable : bool;
  RestartAttempt : Z;
  RestartAt : option time;
  UpdatedAt : time;
}.

Definition lifecycleSeverity (s : AgentLifecycleState) : AgentLifecycleSeverity :=
  match s with
  | AgentLifecycleOnline => SeverityOK
  | AgentLifecycleIdle => SeverityInfo
  | AgentLifecycleStopped => SeverityWarning
  | _ => SeverityError
  end.

Definition maxReasonBytes : nat := 512.

Definition sanitizeLifecycleReason (reason : string) : string :=
  let reason := Join (Fields reason) " " in
  if maxReasonBytes <? blen reason then byte_take maxReasonBytes reason +:+ "…" else reason.

(** The part of the scheduler's state this component reads and writes: the
    stored snapshots and the names of the live processes. *)
Record Scheduler := mkScheduler {
  lifecycles : gmap string AgentLifecycleSnapshot;
  agents : gset string;
}.

Definition setLifecycleLocked (now : time) (name : string) (state : AgentLifecycleState)
    (reasonCode reason : string) (attempt : Z) (restartAt : time) (s : Scheduler) : Scheduler :=
  mkScheduler
    (<[name := mkSnapshot name state reasonCode (sanitizeLifecycleReason reason)
                 (lifecycleSeverity state)
                 (bool_decide (state = AgentLifecycleIdle)) attempt
                 (if IsZero restartAt then None else Some restartAt) now]> (lifecycles s))
    (agents s).

Definition healthy (name : string) (now : time) : AgentLifecycleSnapshot :=
  mkSnapshot name AgentLifecycleOnline "healthy" "heartbeat current" SeverityOK false 0 None now.

Definition heartbeat_timeout (name : string) (now : time) : AgentLifecycleSnapshot :=
  mkSnapshot name AgentLifecycleHealthFailed "heartbeat-timeout" "registry heartbeat timed out"
    SeverityError false 0 None now.

Definition by_name (a b : AgentLifecycleSnapshot) : Prop := String.le (Name a) (Name b).

#[export] Instance by_name_dec : RelDecision by_name.
Proof. intros a b. unfold by_name. apply _. Defined.

#[export] Instance by_name_total : Total by_name.
Proof. intros a b. apply (total String.le). Qed.

#[export] Instance by_name_trans : Transitive by_name.
Proof. intros a b c. unfold by_name. apply transitivity. Qed.

Section diagnostics.
Context `{RegistryView R card}.

(** One turn of the loop over the registered cards. [stamp] is the clock read
    for the entry of an agent, [now] the clock of the liveness checks. *)
Definition reconcile_card (r : R) (now : time) (stamp : string → time) (running : gset string)
    (items : gmap string AgentLifecycleSnapshot) (c : card) : gmap string AgentLifecycleSnapshot :=
  let n := view_name c in
  if InstanceName.isInstanceChild n then items
  else
    let status := view_GetStatus r now n in
    let known := items !! n in
    let not_started := match known with
                       | Some it => bool_decide (ReasonCode it = "configured-not-started")
                       | None => false end in
    let was_online := match known with
                      | Some it => bool_decide (State it = AgentLifecycleOnline)
                      | None => false end in
    let unknown := match known with Some _ => false | None => true end in
    if bool_decide (status = "online") &&
       (bool_decide (n ∈ running) || unknown || not_started)
    then <[n := healthy n (stamp n)]> items
    else if unknown || not_started || was_online
    then <[n := heartbeat_timeout n (stamp n)]> items
    else items.

Definition AgentLifecycles (r : R) (now : time) (stamp : string → time) (s : Scheduler)
    : list AgentLifecycleSnapshot :=
  let items := foldl (reconcile_card r now stamp (agents s)) (lifecycles s) (view_List r) in
  merge_sort by_name (snd <$> map_to_list items).

(** What is reported for the agent [n]: its stored snapshot, corrected by the
    registry when a card of that name is listed. *)
Definition reported (r : R) (now : time) (stamp : string → time) (s : Scheduler) (n : string)
    : option AgentLifecycleSnapshot :=
  let stored := lifecycles s !! n in
  if decide (n ∈ view_name <$> view_List r ∧ InstanceName.isInstanceChild n = false) then
    let online := view_GetStatus r now n = "online" in
    match stored with
    | None => Some (if decide online then healthy n (stamp n) else heartbeat_timeout n (stamp n))
    | Some it =>
        if decide (online ∧ (n ∈ agents s ∨ ReasonCode it = "configured-not-started"))
        then Some (healthy n (stamp n))
        else if decide (ReasonCode it = "configured-not-started" ∨ State it = AgentLifecycleOnline)
        then Some (heartbeat_timeout n (stamp n))
        else Some it
    end
  else stored.

Lemma reconcile_other r now stamp running items c n :
  n ≠ view_name c → reconcile_card r now stamp running items c !! n = items !! n.
Proof.
  intros Hn. unfold reconcile_card. cbn zeta.
  destruct (InstanceName.isInstanceChild _); [done |].
  destruct (_ && _); [by rewrite lookup_insert_ne |].
  destruct (_ || _); [by rewrite lookup_insert_ne | done].
Qed.

(** One card, seen from its own name. *)
Lemma reconcile_same r now stamp s items c :
  InstanceName.isInstanceChild (view_name c) = false → c ∈ view_List r →
  items !! view_name c = lifecycles s !! view_name c →
  reconcile_card r now stamp (agents s) items c !! view_name c =
    reported r now stamp s (view_name c).
Proof.
  intros Hchild Hc Hi. unfold reconcile_card, reported. cbn zeta.
  rewrite Hchild, Hi, (decide_True (P := _ ∧ _)) by (by split; [apply list_elem_of_fmap_2 |]).
  destruct (lifecycles s !! view_name c) as [it |] eqn:Es;
    repeat case_bool_decide; repeat case_decide; cbn;
    rewrite ?lookup_insert_eq, ?Hi, ?Es; try done; intuition congruence.
Qed.

Lemma reconcile_child r now stamp running items c :
  InstanceName.isInstanceChild (view_name c) = true →
  reconcile_card r now stamp running items c = items.
Proof. intros E. unfold reconcile_card. cbn zeta. by rewrite E. Qed.

Lemma fold_other r now stamp running l items n :
  n ∉ view_name <$> l → foldl (reconcile_card r now stamp running) items l !! n = items !! n.
Proof.
  revert items. induction l as [| c l IH]; intros items Hn; [done |].
  rewrite fmap_cons, not_elem_of_cons in Hn. destruct Hn. cbn. rewrite IH by done.
  by apply reconcile_other.
Qed.

Lemma fold_reported r now stamp s l items n :
  NoDup (view_name <$> l) → (∀ c, c ∈ l → c ∈ view_List r) →
  n ∈ view_name <$> l → InstanceName.isInstanceChild n = false →
  items !! n = lifecycles s !! n →
  foldl (reconcile_card r now stamp (agents s)) items l !! n = reported r now stamp s n.
Proof.
  revert items. induction l as [| c l IH]; intros items Hnd Hl Hn Hc Hi.
  { by apply not_elem_of_nil in Hn. }
  rewrite fmap_cons in *. apply NoDup_cons in Hnd as [Hnotin Hnd]. cbn.
  apply elem_of_cons in Hn as [-> | Hn].
  - rewrite fold_other by done. apply reconcile_same; [done | apply Hl; by left | done].
  - apply IH; [done | intros; apply Hl; by right | done.. |].
    rewrite reconcile_other; [done |]. by intros ->.
Qed.

Lemma fold_child r now stamp running l items n :
  InstanceName.isInstanceChild n = true →
  foldl (reconcile_card r now stamp running) items l !! n = items !! n.
Proof.
  intros Hn. revert items. induction l as [| c l IH]; intros items; [done |].
  cbn. rewrite IH. destruct (decide (n = view_name c)) as [-> |].
  - by rewrite reconcile_child.
  - by apply reconcile_other.
Qed.

Lemma items_reported r now stamp s n :
  foldl (reconcile_card r now stamp (agents s)) (lifecycles s) (view_List r) !! n =
    reported r now stamp s n.
Proof.
  destruct (decide (n ∈ view_name <$> view_List r)) as [Hin |].
  - destruct (InstanceName.isInstanceChild n) eqn:Ec.
    + rewrite fold_child by done. unfold reported. rewrite decide_False by (intros [_ ?]; congruence). done.
    + by apply fold_reported; [apply view_names_nodup | ..].
  - rewrite fold_other by done. unfold reported. rewrite decide_False by (by intros [? _]). done.
Qed.

(** Every stored snapshot is filed under its own name. *)
Definition wf_items (items : gmap string AgentLifecycleSnapshot) : Prop :=
  map_Forall (λ n it, Name it = n) items.

Lemma wf_setLifecycleLocked now n st code why att at_ s :
  wf_items (lifecycles s) →
  wf_items (lifecycles (setLifecycleLocked now n st code why att at_ s)).
Proof. intros Hs. by apply map_Forall_insert_2. Qed.

Lemma reported_name r now stamp s n it :
  wf_items (lifecycles s) → reported r now stamp s n = Some it → Name it = n.
Proof.
  intros Hwf. unfold reported. cbn zeta.
  destruct (lifecycles s !! n) as [it' |] eqn:E; repeat case_decide;
    intros; simplify_eq; try done; by apply Hwf in E.
Qed.

Lemma AgentLifecycles_elem r now stamp s it :
  wf_items (lifecycles s) →
  it ∈ AgentLifecycles r now stamp s ↔ reported r now stamp s (Name it) = Some it.
Proof.
  intros Hwf. unfold AgentLifecycles. cbn zeta.
  rewrite (merge_sort_Permutation _ _), list_elem_of_fmap. split.
  - intros ([n it'] & -> & Hin%elem_of_map_to_list). cbn.
    rewrite items_reported in Hin. by rewrite (reported_name _ _ _ _ _ _ Hwf Hin).
  - intros Hin. exists (Name it, it). split; [done |].
    by rewrite elem_of_map_to_list, items_reported.
Qed.

Lemma AgentLifecycles_names r now stamp s :
  wf_items (lifecycles s) → NoDup (Name <$> AgentLifecycles r now stamp s).
Proof.
  intros Hwf. unfold AgentLifecycles. cbn zeta.
  rewrite (merge_sort_Permutation _ _), <- list_fmap_compose.
  erewrite list_fmap_ext; [apply NoDup_fst_map_to_list |].
  intros i [n it] Hi%list_elem_of_lookup_2%elem_of_map_to_list. cbn.
  rewrite items_reported in Hi. by apply reported_name in Hi.
Qed.

(** The diagnostics list has one snapshot per agent, sorted by name, and
    each is the reconciled one: in particular a current heartbeat makes an agent
    online when its process is live, and never hides the stored state of a
    managed agent that is not running; an agent whose heartbeat lapsed is not
    reported online. *)
Lemma diagnostics_reconciled r now stamp s :
  wf_items (lifecycles s) →
  let out := AgentLifecycles r now stamp s in
  Sorted by_name out ∧ NoDup (Name <$> out) ∧
  (∀ it, it ∈ out ↔ reported r now stamp s (Name it) = Some it) ∧
  (∀ n it, lifecycles s !! n = Some it → n ∉ agents s →
     ReasonCode it ≠ "configured-not-started" → State it ≠ AgentLifecycleOnline → it ∈ out) ∧
  (∀ it, it ∈ out → State it = AgentLifecycleOnline →
     Name it ∈ view_name <$> view_List r → InstanceName.isInstanceChild (Name it) = false →
     view_GetStatus r now (Name it) = "online").
Proof.
  intros Hwf out. split_and!.
  - apply Sorted_merge_sort. apply _.
  - by apply AgentLifecycles_names.
  - intros it. by apply AgentLifecycles_elem.
  - intros n it Hs Hrun Hcode Hst. apply AgentLifecycles_elem; [done |].
    rewrite (Hwf _ _ Hs). unfold reported. cbn zeta. rewrite Hs.
    repeat case_decide; intuition congruence.
  - intros it Hin Hst Hlisted Hc. apply AgentLifecycles_elem in Hin; [| done]. revert Hin.
    unfold reported. cbn zeta. rewrite (decide_True (P := _ ∧ _)) by done.
    destruct (lifecycles s !! Name it) as [it' |]; repeat case_decide; intros E;
      apply (f_equal (fmap State)) in E as E'; cbn in E'; simplify_eq; intuition congruence.
Qed.

(** What a stored snapshot says follows from its state: severity and
    wakeability, a reason of at most 512 bytes and the ellipsis, and a restart
    time only when one was given. *)
Lemma stored_snapshot_shape now n st code why att at_ s :
  ∃ it, lifecycles (setLifecycleLocked now n st code why att at_ s) !! n = Some it ∧
    Name it = n ∧ State it = st ∧ Severity it = lifecycleSeverity st ∧
    (Wakeable it = true ↔ st = AgentLifecycleIdle) ∧
    blen (Reason it) ≤ maxReasonBytes + blen "…" ∧
    (RestartAt it = None ↔ at_ = zero_time) ∧
    (∀ m, m ≠ n → lifecycles (setLifecycleLocked now n st code why att at_ s) !! m = lifecycles s !! m).
Proof.
  eexists. split; [apply lookup_insert_eq |].
  cbn [Name State Severity Wakeable Reason RestartAt lifecycles setLifecycleLocked].
  split_and!; try done.
  - by rewrite bool_decide_eq_true.
  - unfold sanitizeLifecycleReason. destruct (_ <? _)%nat eqn:E; bool_to_prop; [| lia].
    rewrite blen_app, blen_byte_take. apply Nat.add_le_mono_r, Nat.le_min_l.
  - unfold IsZero. destruct (Z.eqb at_ zero_time) eqn:E; bool_to_prop; split; congruence.
  - intros m Hm. by apply lookup_insert_ne.
Qed.
End diagnostics.

(** A registry with one agent whose managed process is scaled to zero. *)
Section example.
Definition example_registry : { r : Registry.Registry | Registry.wf (H := bytewise_lower) (@id string) r } :=
  exist _ (Registry.apply_op (H := bytewise_lower) id (Registry.NewRegistry 90) (Registry.OpRegister 5 "coder"))
    (Registry.wf_apply_op (H := bytewise_lower) id _ (Registry.OpRegister 5 "coder") (Registry.wf_New id 90)).

Definition example_scheduler : Scheduler :=
  setLifecycleLocked 7 "coder" AgentLifecycleIdle "idle-stop" "scaled  to zero" 0 zero_time
    (mkScheduler ∅ ∅).
End example.

Lemma diagnostics_reconciled_witness :
  mkSnapshot "coder" AgentLifecycleIdle "idle-stop" "scaled to zero" SeverityInfo true 0 None 7
    ∈ AgentLifecycles (H := Registry.Registry_view (H := bytewise_lower) (@id string))
        example_registry 20 (λ _, 20%Z) example_scheduler.
Proof.
  apply (diagnostics_reconciled (H := Registry.Registry_view (H := bytewise_lower) (@id string))
    example_registry 20 (λ _, 20%Z) example_scheduler) with (n := "coder").
  - apply wf_setLifecycleLocked, map_Forall_empty.
  - reflexivity.
  - by apply not_elem_of_empty.
  - done.
  - done.
Defined.
