(* ===== verification/LiveEvents.v ===== *)
(** * Live progress events ([internal/scheduler/live_events.go])

    The hub keeps a bounded log of progress events per context and fans each
    event out to the subscribed browser connections. A Go channel is an object
    that outlives its subscription, so channels live in a heap of their own,
    keyed by the subscription number; a subscriber set holds their numbers. *)
From S2P Require Import Prelude GoBase GoStrings.
From Stdlib Require Import ZArith Lia.

Definition maxLiveEventsPerContext : nat := 256.
Definition maxLiveEventContexts : nat := 128.
Definition subscriberBuffer : nat := 64.

Record LiveEvent := mkEvent {
  ID : string;
  InvocationID : string;
  ContextID : string;
  AgentName : string;
  Type_ : string;
  At : time;
  Name : string;
  ToolUseID : string;
  Input : string;
  Content : string;
  IsError : bool;
  State : string;
}.

(** The two fields that [Publish] fills in. *)
Definition stamp (id : string) (at_ : time) (ev : LiveEvent) : LiveEvent :=
  mkEvent id (InvocationID ev) (ContextID ev) (AgentName ev) (Type_ ev) at_ (Name ev)
    (ToolUseID ev) (Input ev) (Content ev) (IsError ev) (State ev).

Record liveContext := mkContext {
  events : list LiveEvent;
  updatedAt : time;
  subscribers : gset Z;
}.

Record liveEventHub := mkHub {
  seq : Z;
  subSeq : Z;
  contexts : gmap string liveContext;
  channels : gmap Z (list LiveEvent);
}.

Definition newLiveEventHub : liveEventHub := mkHub 0 0 ∅ ∅.

Definition live_id (n : Z) : string := "live-" +:+ Itoa n.

(** The oldest context, in one iteration order of the Go map. *)
Definition oldest_step (acc : string * time) (x : string * liveContext) : string * time :=
  let '(oldest, at_) := acc in
  let '(id, c) := x in
  if negb (nonempty oldest) || Before (updatedAt c) at_ then (id, updatedAt c) else acc.

Definition oldest (m : gmap string liveContext) : string :=
  fst (foldl oldest_step ("", zero_time) (map_to_list m)).

Definition evictOldestLocked (m : gmap string liveContext) : gmap string liveContext :=
  if nonempty (oldest m) then delete (oldest m) m else m.

(** A non-blocking send: a full buffer drops the event. *)
Definition send (ev : LiveEvent) (buf : list LiveEvent) : list LiveEvent :=
  if length buf <? subscriberBuffer then buf ++ [ev] else buf.

Definition deliver (subs : gset Z) (ev : LiveEvent) (chs : gmap Z (list LiveEvent))
    : gmap Z (list LiveEvent) :=
  map_imap (λ id buf, Some (if decide (id ∈ subs) then send ev buf else buf)) chs.

Definition Publish (now : time) (ev : LiveEvent) (h : liveEventHub) : liveEventHub * LiveEvent :=
  if negb (nonempty (ContextID ev)) then (h, ev)
  else
    let n := u64 (seq h + 1) in
    let ev := stamp (live_id n) (if IsZero (At ev) then now else At ev) ev in
    let '(c, m) :=
      match contexts h !! ContextID ev with
      | Some c => (c, contexts h)
      | None =>
          (mkContext [] zero_time ∅,
           if maxLiveEventContexts <=? size (contexts h)
           then evictOldestLocked (contexts h) else contexts h)
      end in
    let c := mkContext (keep_last maxLiveEventsPerContext (events c ++ [ev])) (At ev) (subscribers c) in
    (mkHub n (subSeq h) (<[ContextID ev := c]> m) (deliver (subscribers c) ev (channels h)), ev).

(** The loop of [snapshotAfter]: the index after the last event with that id. *)
Fixpoint start_after (after : string) (i start : nat) (l : list LiveEvent) : nat :=
  match l with
  | [] => start
  | ev :: l' => start_after after (S i) (if decide (ID ev = after) then S i else start) l'
  end.

Definition snapshotAfter (c : option liveContext) (after : string) : list LiveEvent :=
  match c with
  | None => []
  | Some c => drop (if nonempty after then start_after after 0 0 (events c) else 0) (events c)
  end.

Definition Snapshot (contextID after : string) (h : liveEventHub) : list LiveEvent :=
  snapshotAfter (contexts h !! contextID) after.

(** Returns the backlog and the subscription number naming the channel. *)
Definition Subscribe (now : time) (contextID after : string) (h : liveEventHub)
    : liveEventHub * (list LiveEvent * Z) :=
  let c := default (mkContext [] now ∅) (contexts h !! contextID) in
  let id := u64 (subSeq h + 1) in
  (mkHub (seq h) id
     (<[contextID := mkContext (events c) (updatedAt c) ({[id]} ∪ subscribers c)]> (contexts h))
     (<[id := []]> (channels h)),
   (snapshotAfter (Some c) after, id)).

(** The cancellation function returned with a subscription. *)
Definition cancel (contextID : string) (id : Z) (h : liveEventHub) : liveEventHub :=
  match contexts h !! contextID with
  | None => h
  | Some c =>
      mkHub (seq h) (subSeq h)
        (<[contextID := mkContext (events c) (updatedAt c) (subscribers c ∖ {[id]})]> (contexts h))
        (channels h)
  end.

(** A subscriber taking the next event from its channel. *)
Definition receive (id : Z) (h : liveEventHub) : liveEventHub * option LiveEvent :=
  match channels h !! id with
  | Some (ev :: buf) => (mkHub (seq h) (subSeq h) (contexts h) (<[id := buf]> (channels h)), Some ev)
  | _ => (h, None)
  end.

(** The HTTP handler for a snapshot: [400] without a context. *)
Definition handleContextEvents (contextID after : string) (h : liveEventHub)
    : Z * (string + list LiveEvent) :=
  if negb (nonempty contextID) then (400%Z, inl "contextId is required")
  else (200%Z, inr (Snapshot contextID after h)).

Definition publish_all (h : liveEventHub) (evs : list (time * LiveEvent)) : liveEventHub :=
  foldl (λ h x, fst (Publish (fst x) (snd x) h)) h evs.

(** The events as they come back from [Publish], in order. *)
Fixpoint published (h : liveEventHub) (evs : list (time * LiveEvent)) : list LiveEvent :=
  match evs with
  | [] => []
  | x :: evs' =>
      let '(h', ev) := Publish (fst x) (snd x) h in ev :: published h' evs'
  end.

(** ** Invariant *)

(** The log of a context: at most 256 events of that context, whose ids are the
    numbers of strictly increasing publications. *)
Definition wf_log (last : Z) (key : string) (l : list LiveEvent) : Prop :=
  length l ≤ maxLiveEventsPerContext ∧
  Forall (λ ev, ContextID ev = key) l ∧
  ∃ ks, ID <$> l = live_id <$> ks ∧ StronglySorted Z.lt ks ∧ Forall (λ k, 0 < k ≤ last)%Z ks.

Record wf (h : liveEventHub) : Prop := {
  wf_seq : (0 ≤ seq h ≤ max_uint64)%Z;
  wf_keys : contexts h !! "" = None;
  wf_subSeq : (0 ≤ subSeq h ≤ max_uint64)%Z;
  wf_logs : map_Forall (λ key c, wf_log (seq h) key (events c)) (contexts h);
  wf_subs : map_Forall (λ _ c, ∀ id, id ∈ subscribers c → (0 < id ≤ subSeq h)%Z) (contexts h);
}.

Lemma live_id_inj m n : (0 ≤ m)%Z → (0 ≤ n)%Z → live_id m = live_id n → m = n.
Proof. intros ?? E%(inj (String.append "live-")). by apply Itoa_inj. Qed.

Lemma StronglySorted_drop {A} (R : relation A) n l : StronglySorted R l → StronglySorted R (drop n l).
Proof.
  revert n. induction l as [| x l IH]; intros [| n] Hs; cbn; [done.. |].
  apply IH. by apply StronglySorted_inv in Hs as [].
Qed.

Lemma StronglySorted_snoc {A} (R : relation A) l x :
  StronglySorted R l → Forall (λ y, R y x) l → StronglySorted R (l ++ [x]).
Proof.
  induction 1 as [| y l Hs IH Hy]; intros Hx; cbn.
  - repeat constructor.
  - apply Forall_cons in Hx as [? ?]. constructor; [auto |].
    apply Forall_app. auto.
Qed.

Lemma wf_log_weaken a b key l : (a ≤ b)%Z → wf_log a key l → wf_log b key l.
Proof.
  intros Hab (H1 & H2 & ks & H3 & H4 & H5). split_and!; [done.. |].
  exists ks. split_and!; [done.. |]. eapply Forall_impl; [done |]. cbn. lia.
Qed.

Lemma wf_log_snoc last key l ev :
  (0 ≤ last)%Z → wf_log last key l → ContextID ev = key → ID ev = live_id (last + 1) →
  wf_log (last + 1) key (keep_last maxLiveEventsPerContext (l ++ [ev])).
Proof.
  intros Hlast (H1 & H2 & ks & H3 & H4 & H5) Hc Hid. split_and!.
  - rewrite length_keep_last. lia.
  - unfold keep_last. apply Forall_drop, Forall_app. auto.
  - exists (keep_last maxLiveEventsPerContext (ks ++ [last + 1]%Z)). unfold keep_last.
    assert (length l = length ks) as Hlen by (by rewrite <- (length_fmap ID), H3, length_fmap).
    split_and!.
    + rewrite !fmap_drop, !fmap_app, !length_app, H3, Hlen. cbn. by rewrite Hid.
    + apply StronglySorted_drop, StronglySorted_snoc; [done |].
      eapply Forall_impl; [done |]. cbn. lia.
    + apply Forall_drop, Forall_app. split; [| repeat constructor; lia].
      eapply Forall_impl; [done |]. cbn. lia.
Qed.

Lemma evict_subseteq m : evictOldestLocked m ⊆ m.
Proof. unfold evictOldestLocked. destruct (nonempty _); [apply delete_subseteq | done]. Qed.

(** The scan over a non-empty map without the empty key finds a least recently
    updated context. *)
Lemma oldest_fold l acc :
  Forall (λ x, fst x ≠ "") l → (fst acc ≠ "" ∨ l ≠ []) →
  let r := foldl oldest_step acc l in
  fst r ≠ "" ∧
  (fst acc ≠ "" ∧ r = acc ∨ ∃ c, (fst r, c) ∈ l ∧ snd r = updatedAt c) ∧
  (fst acc ≠ "" → snd r ≤ snd acc)%Z ∧
  (∀ k c, (k, c) ∈ l → snd r ≤ updatedAt c)%Z.
Proof.
  revert acc. induction l as [| [k c] l IH]; intros [o t] Hl Hor; cbn.
  { destruct Hor as [Ho | ?]; [| done]. split_and!; [done | by left | done |].
    by intros ? ? ?%not_elem_of_nil. }
  apply Forall_cons in Hl as [Hk Hl]. cbn in Hk.
  destruct (negb (nonempty o) || Before (updatedAt c) t) eqn:E.
  - destruct (IH (k, updatedAt c)) as (H1 & H2 & H3 & H4); [done | by left |]. cbn in *.
    split_and!; [done | right | |].
    + destruct H2 as [[_ ->] | (c' & ? & ?)]; cbn.
      * exists c. split; [by left | done].
      * exists c'. split; [by right | done].
    + intros Ho. destruct o; [done |]. cbn in E. unfold Before in E. bool_to_prop.
      specialize (H3 Hk). lia.
    + intros k' c' [[= -> ->] | ?]%elem_of_cons; [auto | eauto].
  - apply orb_false_elim in E as [Eo Et]. unfold Before in Et. bool_to_prop.
    assert (o ≠ "") as Ho by (by destruct o).
    destruct (IH (o, t)) as (H1 & H2 & H3 & H4); [done | by left |]. cbn in *.
    split_and!; [done | | done |].
    + destruct H2 as [? | (c' & ? & ?)]; [by left | right]. exists c'. split; [by right | done].
    + intros k' c' [[= -> ->] | ?]%elem_of_cons; [| eauto]. specialize (H3 Ho). etrans; [exact H3 | done].
Qed.

Lemma oldest_spec m :
  m !! "" = None → m ≠ ∅ →
  ∃ c, m !! oldest m = Some c ∧ oldest m ≠ "" ∧
    (∀ k c', m !! k = Some c' → updatedAt c ≤ updatedAt c')%Z.
Proof.
  intros Hk Hne. destruct (oldest_fold (map_to_list m) ("", zero_time)) as (H1 & H2 & _ & H4).
  - apply Forall_forall. intros [k c] Hin%elem_of_map_to_list. cbn. intros ->. congruence.
  - right. intros E. by apply map_to_list_empty_iff in E.
  - destruct H2 as [[? _] | (c & Hin & Hc)]; [done |]. apply elem_of_map_to_list in Hin.
    exists c. split_and!; [done | done |]. intros k c' Hin'. rewrite <- Hc. eapply H4.
    by apply elem_of_map_to_list.
Qed.

Lemma evict_spec m :
  m !! "" = None → m ≠ ∅ →
  ∃ o c, m !! o = Some c ∧ evictOldestLocked m = delete o m ∧
    (∀ k c', m !! k = Some c' → updatedAt c ≤ updatedAt c')%Z.
Proof.
  intros Hk Hne. destruct (oldest_spec m Hk Hne) as (c & Hc & Ho & Hmin).
  exists (oldest m), c. split_and!; [done | | done]. unfold evictOldestLocked.
  by destruct (oldest m).
Qed.

(** What [Publish] does to the map of contexts before adding the event. *)
Definition make_room (c : string) (m : gmap string liveContext) : gmap string liveContext :=
  match m !! c with
  | Some _ => m
  | None => if maxLiveEventContexts <=? size m then evictOldestLocked m else m
  end.

Definition log_of (c : string) (h : liveEventHub) : list LiveEvent :=
  from_option events [] (contexts h !! c).

Definition subs_of (c : string) (h : liveEventHub) : gset Z :=
  from_option subscribers ∅ (contexts h !! c).

Lemma Publish_eq now ev h :
  ContextID ev ≠ "" →
  let ev' := stamp (live_id (u64 (seq h + 1))) (if IsZero (At ev) then now else At ev) ev in
  Publish now ev h =
    (mkHub (u64 (seq h + 1)) (subSeq h)
       (<[ContextID ev := mkContext (keep_last maxLiveEventsPerContext (log_of (ContextID ev) h ++ [ev']))
                            (At ev') (subs_of (ContextID ev) h)]> (make_room (ContextID ev) (contexts h)))
       (deliver (subs_of (ContextID ev) h) ev' (channels h)), ev').
Proof.
  intros Hc ev'. unfold Publish, log_of, subs_of, make_room.
  destruct (ContextID ev) eqn:Ec; [done |]. cbn -[keep_last maxLiveEventContexts]. rewrite !Ec.
  by destruct (contexts h !! _).
Qed.

Lemma make_room_spec c m :
  m !! "" = None →
  (make_room c m = m ∧ (is_Some (m !! c) ∨ size m < maxLiveEventContexts)) ∨
  (∃ o x, m !! c = None ∧ maxLiveEventContexts ≤ size m ∧ m !! o = Some x ∧
     make_room c m = delete o m ∧ ∀ k x', m !! k = Some x' → (updatedAt x ≤ updatedAt x')%Z).
Proof.
  intros Hk. unfold make_room. destruct (m !! c) eqn:Ec; [left; eauto |].
  destruct (_ <=? _) eqn:E; bool_to_prop; [right | left; eauto with lia].
  destruct (evict_spec m Hk) as (o & x & ? & ? & ?).
  - intros ->. rewrite map_size_empty in E. unfold maxLiveEventContexts in E. lia.
  - by exists o, x.
Qed.

Lemma make_room_subseteq c m : m !! "" = None → make_room c m ⊆ m.
Proof.
  intros Hk. destruct (make_room_spec c m Hk) as [[-> _] | (o & x & _ & _ & _ & -> & _)];
    [done | apply delete_subseteq].
Qed.

(** Publishing: the event gets a fresh increasing id, the log of its context
    becomes the last 256 events of the old log and the new event, every subscriber
    of the context whose buffer has room receives it (and no other channel
    changes), the number of contexts never grows past 128, and another context
    disappears only when a new one needs its place and none was updated earlier. *)
Lemma publish_spec now ev h :
  wf h → ContextID ev ≠ "" → (seq h < max_uint64)%Z →
  let '(h', ev') := Publish now ev h in
  wf h' ∧
  ID ev' = live_id (seq h + 1) ∧
  log_of (ContextID ev) h' = keep_last maxLiveEventsPerContext (log_of (ContextID ev) h ++ [ev']) ∧
  size (contexts h') ≤ Nat.max maxLiveEventContexts (size (contexts h)) ∧
  (∀ id, channels h' !! id =
     (λ buf, if decide (id ∈ subs_of (ContextID ev) h) then send ev' buf else buf) <$> channels h !! id) ∧
  (∀ k x, k ≠ ContextID ev → contexts h !! k = Some x →
     contexts h' !! k = Some x ∨
     contexts h' !! k = None ∧ contexts h !! ContextID ev = None ∧
       maxLiveEventContexts ≤ size (contexts h) ∧
       ∀ k' x', contexts h !! k' = Some x' → (updatedAt x ≤ updatedAt x')%Z).
Proof.
  intros Hwf Hc Hseq. rewrite Publish_eq by done. cbn zeta.
  pose proof (wf_seq h Hwf). pose proof (wf_keys h Hwf) as Hk.
  rewrite u64_small by lia. set (ev' := stamp _ _ _).
  pose proof (make_room_spec (ContextID ev) (contexts h) Hk) as Hroom.
  pose proof (make_room_subseteq (ContextID ev) (contexts h) Hk) as Hsub.
  assert (wf_log (seq h) (ContextID ev) (log_of (ContextID ev) h)) as Hlog.
  { unfold log_of. destruct (contexts h !! ContextID ev) eqn:E; cbn; [by apply (wf_logs h Hwf) in E |].
    split_and!; [apply Nat.le_0_l | done |]. exists []. split_and!; constructor. }
  split_and!.
  - split; cbn -[keep_last].
    + lia.
    + rewrite lookup_insert_ne by done. eapply lookup_weaken_None; [| done]. done.
    + apply (wf_subSeq h Hwf).
    + apply map_Forall_insert_2; [by apply wf_log_snoc; [lia | | done..] |].
      intros k x Hx. eapply wf_log_weaken; [| apply (wf_logs h Hwf)]; [lia |].
      by eapply lookup_weaken.
    + apply map_Forall_insert_2.
      * unfold subs_of. destruct (contexts h !! ContextID ev) eqn:E; cbn; [by apply (wf_subs h Hwf) in E |].
        set_solver.
      * intros k x Hx. eapply (wf_subs h Hwf). by eapply lookup_weaken.
  - done.
  - unfold log_of at 1. cbn -[keep_last]. by rewrite lookup_insert_eq.
  - cbn -[keep_last].
    destruct Hroom as [[-> [Hin | Hlt]] | (o & x & Hn & Hge & Ho & -> & _)].
    + rewrite map_size_insert_Some by done. lia.
    + rewrite map_size_insert. destruct (contexts h !! ContextID ev); cbn; lia.
    + rewrite map_size_insert_None by (by apply lookup_delete_None; right).
      rewrite map_size_delete_Some by done. unfold maxLiveEventContexts in *. lia.
  - intros id. cbn. unfold deliver. rewrite map_lookup_imap.
    destruct (channels h !! id); cbn; [by case_decide | done].
  - intros k x Hkne Hx. cbn -[keep_last]. rewrite lookup_insert_ne by done.
    destruct Hroom as [[-> _] | (o & y & Hn & Hge & Ho & -> & Hmin)]; [by left |].
    destruct (decide (o = k)) as [-> | Hok]; [right | left].
    + rewrite lookup_delete_eq. rewrite Hx in Ho. simplify_eq. done.
    + by rewrite lookup_delete_ne.
Qed.

(** ** Resuming a stream *)

Lemma start_after_notin a i s l : a ∉ ID <$> l → start_after a i s l = s.
Proof.
  revert i s. induction l as [| ev l IH]; intros i s Hn; [done |].
  rewrite fmap_cons, not_elem_of_cons in Hn. destruct Hn as [Hev Hl]. cbn.
  rewrite IH by done. rewrite decide_False; congruence.
Qed.

Lemma start_after_app a i s l k :
  a ∉ ID <$> k →
  ∀ ev, ID ev = a → start_after a i s (l ++ ev :: k) = i + length l + 1.
Proof.
  intros Hk ev Hev. revert i s. induction l as [| x l IH]; intros i s; cbn.
  - rewrite decide_True by done. rewrite start_after_notin by done. lia.
  - rewrite IH. lia.
Qed.

Lemma StronglySorted_lt_NoDup (ks : list Z) : StronglySorted Z.lt ks → NoDup ks.
Proof.
  induction 1 as [| k ks _ IH Hk]; constructor; [| done].
  intros Hin. rewrite Forall_forall in Hk. apply Hk in Hin. lia.
Qed.

Lemma wf_log_NoDup last key l : wf_log last key l → NoDup (ID <$> l).
Proof.
  intros (_ & _ & ks & -> & Hs & Hk). apply NoDup_fmap_2_strong.
  - intros x y Hx Hy. rewrite Forall_forall in Hk.
    apply live_id_inj; [apply Hk in Hx | apply Hk in Hy]; lia.
  - by apply StronglySorted_lt_NoDup.
Qed.

Lemma snapshot_resume last key c seen ev rest :
  wf_log last key (events c) → events c = seen ++ ev :: rest →
  snapshotAfter (Some c) (ID ev) = rest.
Proof.
  intros Hwf E. pose proof (wf_log_NoDup _ _ _ Hwf) as Hnd. unfold snapshotAfter. rewrite E in *.
  rewrite fmap_app, fmap_cons in Hnd. apply NoDup_app in Hnd as (_ & _ & Hnd).
  apply NoDup_cons in Hnd as [Hnotin _].
  assert (nonempty (ID ev) = true) as ->.
  { destruct Hwf as (_ & _ & ks & Hks & _). rewrite fmap_app, fmap_cons in Hks.
    assert (ID ev ∈ live_id <$> ks) as Hin by (rewrite <- Hks; set_solver).
    apply list_elem_of_fmap in Hin as (k & -> & _). done. }
  rewrite start_after_app by done. cbn. rewrite drop_app.
  rewrite drop_ge by lia. cbn. by replace (length seen + 1 - length seen) with 1 by lia.
Qed.

(** A context stays in the hub while [evs] are published: publications on new contexts
    do not evict it. *)
Definition stays (c : string) (h : liveEventHub) (evs : list (time * LiveEvent)) : Prop :=
  ∀ n, is_Some (contexts (publish_all h (take n evs)) !! c).

(** The subscription [id] is one of the context [c] only. *)
Definition subscribed (id : Z) (c : string) (h : liveEventHub) : Prop := id ∈ subs_of c h ∧ ∀ k, k ≠ c → id ∉ subs_of k h.

Lemma made_room c m k x : make_room c m !! k = Some x → m !! k = Some x.
Proof. unfold make_room. intros H. repeat case_match; try done; by apply (lookup_weaken _ _ _ _ H), evict_subseteq. Qed.

(** A publication on another context leaves it and its channel alone. *)
Lemma publish_other now ev id c h :
  ContextID ev ≠ c → is_Some (contexts (fst (Publish now ev h)) !! c) → subscribed id c h →
  subscribed id c (fst (Publish now ev h)) ∧ channels (fst (Publish now ev h)) !! id = channels h !! id.
Proof.
  intros Hne Hk [Hin Hout]. destruct (decide (ContextID ev = "")) as [E | E].
  { unfold Publish. rewrite E. done. }
  pose proof (Hout _ Hne) as Hev. rewrite Publish_eq in * by done. cbn [fst] in *. unfold subscribed, subs_of in *. cbn [contexts channels] in *.
  set (m := make_room _ _) in *. pose proof (made_room (ContextID ev) (contexts h)) as Hm. fold m in Hm.
  rewrite lookup_insert_ne in Hk by done. destruct Hk as [x Hx]. split; [split |].
  - rewrite lookup_insert_ne by done. rewrite Hx. by rewrite (Hm _ _ Hx) in Hin.
  - intros k Hk. destruct (decide (k = ContextID ev)) as [-> | Hkev]; [by rewrite lookup_insert_eq |].
    rewrite lookup_insert_ne by done. destruct (m !! k) as [y |] eqn:Ey; [| set_solver]. specialize (Hout k Hk). by rewrite (Hm _ _ Ey) in Hout.
  - unfold deliver. rewrite map_lookup_imap. destruct (channels h !! id); cbn; [| done]. by rewrite decide_False.
Qed.

Lemma publish_delivers evs c id h buf :
  c ≠ "" → stays c h evs → subscribed id c h → channels h !! id = Some buf →
  length buf + length (filter (λ x, ContextID (snd x) = c) evs) ≤ subscriberBuffer →
  channels (publish_all h evs) !! id = Some (buf ++ filter (λ ev, ContextID ev = c) (published h evs)).
Proof.
  intros Hc. revert h buf. induction evs as [| [now ev] evs IH]; intros h buf Hst Hid Hbuf Hlen.
  { cbn. by rewrite app_nil_r. }
  assert (Hst' : stays c (fst (Publish now ev h)) evs) by (intros n; exact (Hst (S n))).
  pose proof (Hst 1) as Hk. cbn [publish_all foldl published fst snd take] in *.
  destruct (decide (ContextID ev = c)) as [Hev | Hev].
  - rewrite filter_cons_True in Hlen by done. cbn [length] in Hlen. destruct Hid as [Hin Hout].
    pose proof (Publish_eq now ev h ltac:(by rewrite Hev)) as E. rewrite E in *. cbn [fst] in *. rewrite Hev in *.
    set (ev' := stamp _ _ _) in *. set (h' := mkHub _ _ _ _) in *. assert (He' : ContextID ev' = c) by done.
    rewrite filter_cons_True by done. change (ev' :: ?l) with ([ev'] ++ l). rewrite app_assoc.
    apply IH; [done | | | by rewrite length_app; cbn; lia].
    + split; [unfold h', subs_of; cbn; by rewrite lookup_insert_eq |]. intros k Hkc. unfold h', subs_of. cbn.
      rewrite lookup_insert_ne by done. specialize (Hout k Hkc). unfold subs_of in Hout.
      destruct (make_room c (contexts h) !! k) as [y |] eqn:Ey; [| set_solver]. by rewrite (made_room _ _ _ _ Ey) in Hout.
    + unfold h', deliver. cbn. rewrite map_lookup_imap, Hbuf. cbn.
      rewrite decide_True by done. unfold send. by rewrite (proj2 (Nat.ltb_lt _ _)) by lia.
  - rewrite filter_cons_False in Hlen by done. destruct (publish_other now ev id c h Hev Hk Hid) as [Hid' Hch].
    pose proof (surjective_pairing (Publish now ev h)) as E. destruct (Publish now ev h) as [h' ev'] eqn:P. cbn [fst] in *.
    assert (ContextID ev' = ContextID ev) as He'.
    { unfold Publish in P. destruct (negb _); [by injection P as _ <- |]. by repeat case_match; injection P as _ <-. }
    rewrite filter_cons_False by (by rewrite He'). apply IH; [done | done | by rewrite Hch | done].
Qed.

(** (C8) Resuming a stream loses and repeats nothing: a client that has seen a
    context's log up to the event [ev] and subscribes after that event's id gets
    the rest of the log as its backlog, and then, in its channel, every event
    published on the context, in order and no other, whatever is published on other
    contexts meanwhile - as long as the context is not evicted from the hub to make
    room for a new one (lemma evicted_subscriber_starves) and its 64-event buffer does
    not fill; before 2^64 subscriptions. *)
Theorem resume_exactly_once now c x seen ev rest evs h :
  wf h → (subSeq h < max_uint64)%Z → c ≠ "" → contexts h !! c = Some x → events x = seen ++ ev :: rest →
  let '(h1, (backlog, id)) := Subscribe now c (ID ev) h in
  stays c h1 evs → length (filter (λ y, ContextID (snd y) = c) evs) ≤ subscriberBuffer →
  backlog = rest ∧ channels (publish_all h1 evs) !! id = Some (filter (λ ev, ContextID ev = c) (published h1 evs)).
Proof.
  intros Hwf Hsub Hc Hx Hev. unfold Subscribe. rewrite Hx. cbn [default]. set (h1 := mkHub _ _ _ _). intros Hst Hlen. split.
  - eapply snapshot_resume; [by apply (wf_logs h Hwf) in Hx | done].
  - pose proof (wf_subSeq h Hwf) as Hb. assert (u64 (subSeq h + 1) = (subSeq h + 1)%Z) as Hu by (apply u64_small; lia).
    apply (publish_delivers evs c (u64 (subSeq h + 1)) h1 [] Hc Hst); [| by unfold h1; cbn; rewrite lookup_insert_eq | done].
    unfold subscribed, subs_of, h1. cbn. rewrite lookup_insert_eq. split; [cbn; set_solver |]. intros k Hk. rewrite lookup_insert_ne by done.
    destruct (contexts h !! k) as [y |] eqn:Ey; [| set_solver]. cbn. intros Hin. apply (wf_subs h Hwf k y Ey) in Hin. lia.
Qed.

(** ** Two behaviours outside the documented bounds *)

Definition subscribe_all (now : time) (cs : list string) (h : liveEventHub) : liveEventHub :=
  foldl (λ h c, fst (Subscribe now c "" h)) h cs.

(** [Subscribe] creates contexts without consulting [maxLiveEventContexts]:
    subscribing to [n] contexts keeps [n] of them. *)
Lemma subscribe_ignores_cap now cs h :
  NoDup cs → (∀ c, c ∈ cs → contexts h !! c = None) →
  size (contexts (subscribe_all now cs h)) = size (contexts h) + length cs.
Proof.
  revert h. induction cs as [| c cs IH]; intros h Hnd Hn; [cbn; lia |].
  apply NoDup_cons in Hnd as [Hc Hnd].
  change (subscribe_all now (c :: cs) h) with (subscribe_all now cs (fst (Subscribe now c "" h))).
  rewrite IH; [| done |].
  - unfold Subscribe. rewrite (Hn c) by (by left). cbn.
    rewrite map_size_insert_None by (apply Hn; by left). lia.
  - intros c' Hc'. unfold Subscribe. cbn. rewrite lookup_insert_ne by (intros ->; done).
    apply Hn. by right.
Qed.

(** Once its context has been evicted, a connected subscriber receives nothing
    more, although the context is created again by the next publication. *)
Lemma evicted_subscriber_starves evs c h :
  Forall (λ x, ContextID (snd x) = c) evs → c ≠ "" → subs_of c h = ∅ →
  channels (publish_all h evs) = channels h.
Proof.
  intros Hevs Hc. revert h. induction evs as [| [now ev] evs IH]; intros h Hs; [done |].
  apply Forall_cons in Hevs as [Hev Hevs]. cbn [publish_all foldl fst snd] in *.
  rewrite Publish_eq by (by rewrite Hev). cbn [fst]. rewrite Hev.
  etrans; [apply IH; [done |] |].
  - unfold subs_of. cbn. rewrite lookup_insert_eq. cbn. done.
  - cbn. rewrite Hs. apply map_eq. intros i. unfold deliver. rewrite map_lookup_imap.
    destruct (channels h !! i); cbn; [| done]. by rewrite decide_False by set_solver.
Qed.

(** ** Concrete runs *)
Section example.
Definition ev0 (c text : string) : LiveEvent :=
  mkEvent "" "" c "" "text" zero_time "" "" "" text false "".

Definition hub2 : liveEventHub := publish_all newLiveEventHub [(5%Z, ev0 "ctx" "a"); (6%Z, ev0 "ctx" "b")].

Lemma hub_wf_new : wf newLiveEventHub.
Proof.
  split; cbn; try done.
Qed.

Lemma wf_publish now ev h : wf h → ContextID ev ≠ "" → (seq h < max_uint64)%Z → wf (fst (Publish now ev h)).
Proof.
  intros H1 H2 H3. pose proof (publish_spec now ev h H1 H2 H3) as H.
  destruct (Publish now ev h). apply H.
Qed.

Lemma wf_hub2 : wf hub2.
Proof.
  unfold hub2. cbn [publish_all foldl fst snd]. apply wf_publish; [apply wf_publish | done | done];
    [apply hub_wf_new | done | done].
Qed.
End example.

Lemma publish_spec_witness :
  ID (snd (Publish 7 (ev0 "ctx" "c") hub2)) = "live-3".
Proof.
  pose proof (publish_spec 7 (ev0 "ctx" "c") hub2 wf_hub2 ltac:(done) ltac:(done)) as H.
  destruct (Publish 7 (ev0 "ctx" "c") hub2) as [h' ev'].
  destruct H as (_ & E & _). cbn [snd]. rewrite E. vm_compute. reflexivity.
Defined.

(** While the client listens, a message arrives on its context and one on another. *)
Lemma resume_exactly_once_witness :
  let later := [(8%Z, ev0 "other" "x"); (9%Z, ev0 "ctx" "c")] in
  let '(h1, (backlog, id)) := Subscribe 8 "ctx" "live-1" hub2 in
  backlog = [stamp "live-2" 6 (ev0 "ctx" "b")] ∧ channels (publish_all h1 later) !! id = Some [stamp "live-4" 9 (ev0 "ctx" "c")].
Proof.
  cbv zeta.
  pose proof (resume_exactly_once 8 "ctx"
    (mkContext [stamp "live-1" 5 (ev0 "ctx" "a"); stamp "live-2" 6 (ev0 "ctx" "b")] 6 ∅)
    [] (stamp "live-1" 5 (ev0 "ctx" "a")) [stamp "live-2" 6 (ev0 "ctx" "b")] [(8%Z, ev0 "other" "x"); (9%Z, ev0 "ctx" "c")] hub2
    wf_hub2 ltac:(vm_compute; reflexivity) ltac:(done) ltac:(vm_compute; reflexivity) eq_refl) as H.
  revert H. change (ID (stamp "live-1" 5 (ev0 "ctx" "a"))) with "live-1".
  destruct (Subscribe 8 "ctx" "live-1" hub2) as [h1 [backlog id]] eqn:E. intros H. destruct H as [-> H].
  - intros n. vm_compute in E. injection E as <- <- <-. destruct n as [| [| n]]; [vm_compute; eauto.. |]. rewrite take_ge by (cbn; lia). vm_compute. eauto.
  - vm_compute. lia.
  - split; [reflexivity |]. rewrite H. vm_compute in E. injection E as <- <-. vm_compute. reflexivity.
Defined.
