(* ===== verification/TurnGate.v ===== *)
(** * The per-context FIFO turn gate ([internal/wrapper/turn_gate.go])

    [turnGate] serializes the turns of one context. Each critical section of
    the code is one function on the gate; a goroutine blocked in [acquire] is
    named by the ticket of the channel it waits on, and [close(ch)] adds the
    ticket to the granted ones. The relation [step] interleaves the critical
    sections of any number of goroutines. *)
From S2P Require Import Prelude GoBase.
From Stdlib Require Import ZArith Lia.

Definition defaultTurnQueueDepth : nat := 4.

Record turnGate := mkGate {
  busy : bool;
  evicting : bool;
  waiters : list Z;
}.

Definition newTurnGate : turnGate := mkGate false false [].

Inductive gate_error :=
| ErrContext
| ErrSessionEvicted
| ErrTurnInFlight (waiting : nat).

(** The first critical section of [acquire]: [ch] is the channel to wait on
    when the caller has to queue. [ctx_done] is [ctx.Err() != nil] on entry. *)
Inductive acquire_result := Acquired | Queued | Refused (e : gate_error).

Definition acquire (ctx_done : bool) (depth : nat) (ch : Z) (g : turnGate) : turnGate * acquire_result :=
  if ctx_done then (g, Refused ErrContext)
  else if evicting g then (g, Refused ErrSessionEvicted)
  else if negb (busy g) then (mkGate true (evicting g) (waiters g), Acquired)
  else if depth <=? length (waiters g) then (g, Refused (ErrTurnInFlight (length (waiters g))))
  else (mkGate (busy g) (evicting g) (waiters g ++ [ch]), Queued).

(** [release]: the gate passes to the oldest waiter, whose channel is closed,
    or opens. *)
Definition release (g : turnGate) : turnGate * option Z :=
  match waiters g with
  | ch :: ws => (mkGate (busy g) (evicting g) ws, Some ch)
  | [] => (mkGate false (evicting g) (waiters g), None)
  end.

Fixpoint remove_first (ch : Z) (ws : list Z) : option (list Z) :=
  match ws with
  | [] => None
  | w :: ws' => if decide (w = ch) then Some ws' else cons w <$> remove_first ch ws'
  end.

(** The [ctx.Done()] branch of [acquire]: leave the queue, or, when the gate
    was granted in the meantime, hand it straight on. *)
Definition acquire_cancel (ch : Z) (g : turnGate) : turnGate * option Z :=
  match remove_first ch (waiters g) with
  | Some ws => (mkGate (busy g) (evicting g) ws, None)
  | None => release g
  end.

Definition tryBeginEviction (g : turnGate) : turnGate * bool :=
  if evicting g || busy g || (0 <? length (waiters g)) then (g, false)
  else (mkGate (busy g) true (waiters g), true).

Definition endEviction (g : turnGate) : turnGate := mkGate (busy g) false (waiters g).

Definition inFlight (g : turnGate) : bool := busy g || (0 <? length (waiters g)).

(** ** The goroutines around one gate *)

Record system := mkSystem {
  gate : turnGate;
  owners : gset Z;            (** goroutines between a successful [acquire] and their [release] *)
  granted : gset Z;           (** goroutines whose channel is closed and that have not resumed yet *)
  accepted : list Z;          (** every ticket the gate accepted, in order of arrival *)
  grants : list Z;            (** tickets in the order in which the gate was passed to them *)
  surrendered : gset Z;       (** tickets that left the queue without the gate *)
}.

Definition initial : system := mkSystem newTurnGate ∅ ∅ [] [] ∅.

Definition grant (o : option Z) (s : system) : system :=
  match o with
  | None => s
  | Some ch => mkSystem (gate s) (owners s) ({[ch]} ∪ granted s) (accepted s) (grants s ++ [ch]) (surrendered s)
  end.

Section steps.
Context (depth : nat).

Inductive step : system → system → Prop :=
| step_acquired t s g :
    t ∉ accepted s → acquire false depth t (gate s) = (g, Acquired) →
    step s (mkSystem g ({[t]} ∪ owners s) (granted s) (accepted s ++ [t]) (grants s ++ [t]) (surrendered s))
| step_queued t s g :
    t ∉ accepted s → acquire false depth t (gate s) = (g, Queued) →
    step s (mkSystem g (owners s) (granted s) (accepted s ++ [t]) (grants s) (surrendered s))
| step_refused ctx_done t s g e :
    acquire ctx_done depth t (gate s) = (g, Refused e) →
    step s (mkSystem g (owners s) (granted s) (accepted s) (grants s) (surrendered s))
| step_resume t s :
    t ∈ granted s →
    step s (mkSystem (gate s) ({[t]} ∪ owners s) (granted s ∖ {[t]}) (accepted s) (grants s) (surrendered s))
| step_cancel t s g :
    t ∈ waiters (gate s) → acquire_cancel t (gate s) = (g, None) →
    step s (mkSystem g (owners s) (granted s) (accepted s) (grants s) ({[t]} ∪ surrendered s))
| step_cancel_late t s g o :
    t ∈ granted s → acquire_cancel t (gate s) = (g, o) →
    step s (grant o (mkSystem g (owners s) (granted s ∖ {[t]}) (accepted s) (grants s) (surrendered s)))
| step_release t s g o :
    t ∈ owners s → release (gate s) = (g, o) →
    step s (grant o (mkSystem g (owners s ∖ {[t]}) (granted s) (accepted s) (grants s) (surrendered s)))
| step_begin_eviction s g :
    tryBeginEviction (gate s) = (g, true) →
    step s (mkSystem g (owners s) (granted s) (accepted s) (grants s) (surrendered s))
| step_end_eviction s :
    step s (mkSystem (endEviction (gate s)) (owners s) (granted s) (accepted s) (grants s) (surrendered s)).

(** At most one goroutine holds the gate, running or about to resume. *)
Definition one_holder (s : system) : Prop :=
  match busy (gate s) with
  | false => owners s = ∅ ∧ granted s = ∅
  | true => ∃ t, (t ∉ waiters (gate s)) ∧
      ((owners s = {[t]} ∧ granted s = ∅) ∨ (owners s = ∅ ∧ granted s = {[t]}))
  end.

Record wf (s : system) : Prop := {
  wf_holder : one_holder s;
  wf_open : busy (gate s) = false → waiters (gate s) = [];
  wf_evicting : evicting (gate s) = true → busy (gate s) = false;
  wf_depth : length (waiters (gate s)) ≤ depth;
  wf_nodup : NoDup (accepted s);
  wf_fifo : filter (λ t, t ∉ surrendered s) (accepted s) = grants s ++ waiters (gate s);
  wf_surrendered t : t ∈ surrendered s → t ∈ accepted s;
  wf_grants t : t ∈ owners s ∪ granted s → t ∈ grants s;
}.

Lemma gate_wf_initial : wf initial.
Proof.
  split; cbn; try done; try lia; try set_solver.
  constructor.
Qed.

Lemma acquire_Acquired d n t g g' :
  acquire d n t g = (g', Acquired) →
  evicting g = false ∧ busy g = false ∧ g' = mkGate true false (waiters g).
Proof.
  unfold acquire. destruct d, (evicting g) eqn:?; try done. destruct (busy g) eqn:?; cbn; [| by intros [= <-]].
  by destruct (_ <=? _).
Qed.

Lemma acquire_Queued d n t g g' :
  acquire d n t g = (g', Queued) →
  evicting g = false ∧ busy g = true ∧ length (waiters g) < n ∧
  g' = mkGate true false (waiters g ++ [t]).
Proof.
  unfold acquire. destruct d, (evicting g) eqn:?; try done. destruct (busy g) eqn:?; cbn; [| done].
  destruct (_ <=? _) eqn:E; [done |]. bool_to_prop. by intros [= <-].
Qed.

Lemma acquire_Refused d n t g g' e : acquire d n t g = (g', Refused e) → g' = g.
Proof. unfold acquire. repeat case_match; naive_solver. Qed.

Lemma remove_first_spec t ws :
  match remove_first t ws with
  | Some ws' => t ∈ ws ∧ (NoDup ws → ws' = filter (λ w, w ≠ t) ws)
  | None => t ∉ ws
  end.
Proof.
  induction ws as [| w ws IH]; cbn [remove_first]; [set_solver |]. case_decide as Hw.
  - subst. split; [set_solver |]. intros [Hn Hd]%NoDup_cons.
    rewrite filter_cons_False by auto. symmetry. apply list_filter_all.
    intros x Hx ->. done.
  - destruct (remove_first t ws) as [ws' |]; cbn -[filter];
      [| by rewrite not_elem_of_cons].
    destruct IH as [Hin IH]. split; [set_solver |]. intros [_ Hd]%NoDup_cons.
    rewrite filter_cons_True by done. by rewrite IH.
Qed.

(** The waiters are accepted, distinct, and have not surrendered. *)
Lemma waiters_spec s :
  wf s → NoDup (grants s ++ waiters (gate s)) ∧
    ∀ t, t ∈ grants s ++ waiters (gate s) ↔ t ∈ accepted s ∧ t ∉ surrendered s.
Proof.
  intros Hwf. rewrite <- (wf_fifo s Hwf). split; [by apply NoDup_filter, (wf_nodup s Hwf) |].
  intros t. rewrite list_elem_of_filter. tauto.
Qed.

Lemma fifo_snoc s t :
  wf s → t ∉ accepted s →
  filter (λ t, t ∉ surrendered s) (accepted s ++ [t]) = (grants s ++ waiters (gate s)) ++ [t].
Proof.
  intros Hwf Ht. rewrite filter_app, (wf_fifo s Hwf). f_equal.
  rewrite filter_cons_True; [done |]. intros Hs. by apply (wf_surrendered s Hwf) in Hs.
Qed.

(** The gate after its holder has left, before it is handed over. *)
Lemma wf_hand_over s t g o :
  wf s → busy (gate s) = true → release (gate s) = (g, o) →
  (owners s = {[t]} ∧ granted s = ∅ ∨ owners s = ∅ ∧ granted s = {[t]}) →
  wf (grant o (mkSystem g (owners s ∖ {[t]}) (granted s ∖ {[t]}) (accepted s) (grants s) (surrendered s))).
Proof.
  intros Hwf Hb Hr Ht.
  assert (owners s ∖ {[t]} = ∅ ∧ granted s ∖ {[t]} = ∅) as [-> ->] by set_solver.
  destruct (waiters_spec s Hwf) as [Hnd _].
  pose proof (wf_evicting s Hwf) as He. pose proof (wf_depth s Hwf) as Hd.
  pose proof (wf_fifo s Hwf) as Hf. pose proof (wf_surrendered s Hwf).
  pose proof (wf_nodup s Hwf).
  unfold release in Hr. destruct (waiters (gate s)) as [| w ws] eqn:Ew; simplify_eq; cbn in *.
  - split; cbn; try done; set_solver.
  - apply NoDup_app in Hnd as (_ & _ & [Hw _]%NoDup_cons).
    split; cbn; try done; try lia.
    + rewrite Hb. exists w. split; [done | right]. split; [done | set_solver].
    + congruence.
    + rewrite Hf. by rewrite <- app_assoc.
    + set_solver.
Qed.

Lemma fifo_remove s t ws :
  wf s → t ∈ waiters (gate s) → ws = filter (λ w, w ≠ t) (waiters (gate s)) →
  filter (λ x, x ∉ {[t]} ∪ surrendered s) (accepted s) = grants s ++ ws.
Proof.
  intros Hwf Ht ->. destruct (waiters_spec s Hwf) as [Hnd _].
  apply NoDup_app in Hnd as (_ & Hdis & _).
  rewrite (list_filter_ext _ (λ x, x ≠ t ∧ x ∉ surrendered s)) by set_solver.
  rewrite <- list_filter_filter, (wf_fifo s Hwf), filter_app. f_equal.
  apply list_filter_all. intros x Hx ->. by eapply Hdis.
Qed.

Lemma holder_busy s t : wf s → t ∈ owners s ∪ granted s →
  busy (gate s) = true ∧ (t ∉ waiters (gate s)) ∧
  (owners s = {[t]} ∧ granted s = ∅ ∨ owners s = ∅ ∧ granted s = {[t]}).
Proof.
  intros Hwf Ht. pose proof (wf_holder s Hwf) as Hh. unfold one_holder in Hh.
  destruct (busy (gate s)); [| set_solver]. destruct Hh as (t' & Hw & Hor).
  assert (t' = t) as -> by set_solver. auto.
Qed.

Lemma gate_wf_step s s' : wf s → step s s' → wf s'.
Proof.
  intros Hwf Hstep.
  pose proof (wf_holder s Hwf) as Hh. unfold one_holder in Hh.
  pose proof (wf_open s Hwf) as Ho. pose proof (wf_evicting s Hwf) as He.
  pose proof (wf_depth s Hwf) as Hd. pose proof (wf_nodup s Hwf) as Hn.
  pose proof (wf_fifo s Hwf) as Hf. pose proof (wf_surrendered s Hwf) as Hs.
  pose proof (wf_grants s Hwf) as Hg.
  destruct Hstep as [t s g Ht E | t s g Ht E | d t s g e E | t s Ht | t s g Ht E
                    | t s g o Ht E | t s g o Ht E | s g E | s].
  - apply acquire_Acquired in E as (Ee & Eb & ->). rewrite Eb in *. destruct Hh as [Hh1 Hh2].
    split; cbn; try done.
    + exists t. rewrite Ho by done. split; [set_solver | left]. set_solver.
    + apply NoDup_app. split_and!; [done | set_solver | apply NoDup_singleton].
    + rewrite fifo_snoc by done. rewrite Ho by done. by rewrite !app_nil_r.
    + set_solver.
    + set_solver.
  - apply acquire_Queued in E as (Ee & Eb & Hlt & ->). rewrite Eb in *.
    destruct Hh as (t' & Hw & Hh).
    split; cbn; try done.
    + exists t'. split; [| done]. rewrite not_elem_of_app, list_elem_of_singleton. split; [done |].
      intros ->. apply Ht. destruct (waiters_spec s Hwf) as [_ Hsp].
      apply Hsp. rewrite elem_of_app. left. apply Hg. set_solver.
    + rewrite length_app. cbn. lia.
    + apply NoDup_app. split_and!; [done | set_solver | apply NoDup_singleton].
    + rewrite fifo_snoc by done. by rewrite app_assoc.
    + set_solver.
  - apply acquire_Refused in E as ->. by split.
  - destruct (holder_busy s t Hwf) as (Hb & Hw & Hor); [set_solver |].
    split; cbn; try done; [| set_solver].
    unfold one_holder. cbn. rewrite Hb. exists t. split; [done | left]. set_solver.
  - unfold acquire_cancel in E. pose proof (remove_first_spec t (waiters (gate s))) as Hr.
    destruct (remove_first t (waiters (gate s))) as [ws |]; [| done].
    destruct Hr as [_ Hr]. simplify_eq. destruct (waiters_spec s Hwf) as [Hnd Hsp].
    apply NoDup_app in Hnd as (_ & _ & Hnd). specialize (Hr Hnd).
    split; cbn; try done.
    + unfold one_holder. cbn. destruct (busy (gate s)); [| done].
      destruct Hh as (t' & Hw & Hh). exists t'. split; [| done]. rewrite Hr, list_elem_of_filter. tauto.
    + intros Hb. by rewrite Hr, (Ho Hb).
    + rewrite Hr. etrans; [apply length_filter | done].
    + by apply fifo_remove.
    + intros x [->%elem_of_singleton | ?]%elem_of_union; [| auto].
      apply Hsp. set_solver.
  - destruct (holder_busy s t Hwf) as (Hb & Hw & Hor); [set_solver |].
    unfold acquire_cancel in E. pose proof (remove_first_spec t (waiters (gate s))) as Hr.
    destruct (remove_first t (waiters (gate s))) as [ws |]; [by destruct Hr |].
    pose proof (wf_hand_over s t g o Hwf Hb E Hor) as H.
    by replace (owners s ∖ {[t]}) with (owners s) in H by set_solver.
  - destruct (holder_busy s t Hwf) as (Hb & Hw & Hor); [set_solver |].
    pose proof (wf_hand_over s t g o Hwf Hb E Hor) as H.
    by replace (granted s ∖ {[t]}) with (granted s) in H by set_solver.
  - unfold tryBeginEviction in E. destruct (evicting _ || _ || _) eqn:Eb; simplify_eq.
    bool_to_prop. by split.
  - split; cbn; done.
Qed.
Definition reachable (s : system) : Prop := rtc step initial s.

Lemma gate_reachable_wf s : reachable s → wf s.
Proof. apply rtc_invariant; [apply gate_wf_step | apply gate_wf_initial]. Qed.

Lemma release_step t w ws s :
  t ∈ owners s → waiters (gate s) = w :: ws →
  step s (grant (Some w) (mkSystem (mkGate (busy (gate s)) (evicting (gate s)) ws)
    (owners s ∖ {[t]}) (granted s) (accepted s) (grants s) (surrendered s))).
Proof.
  intros Ht Hw. apply step_release; [done |]. unfold release. by rewrite Hw.
Qed.

Lemma drains_from s ws :
  wf s → waiters (gate s) = ws →
  ∃ s', rtc step s s' ∧ waiters (gate s') = [] ∧ grants s' = grants s ++ ws ∧
    surrendered s' = surrendered s.
Proof.
  revert s. induction ws as [| w ws IH]; intros s Hwf Hw.
  { exists s. rewrite app_nil_r. split_and!; [apply rtc_refl | done..]. }
  assert (∃ t, t ∈ owners s ∪ granted s) as [t Ht].
  { pose proof (wf_holder s Hwf) as Hh. unfold one_holder in Hh.
    destruct (busy (gate s)) eqn:Eb; [destruct Hh as (t & _ & ?); exists t; set_solver |].
    rewrite (wf_open s Hwf Eb) in Hw. done. }
  assert (∃ s1, rtc step s s1 ∧ wf s1 ∧ t ∈ owners s1 ∧ gate s1 = gate s ∧
            grants s1 = grants s ∧ surrendered s1 = surrendered s) as (s1 & Hrun & Hwf1 & Ho & Eg & Er & Es).
  { apply elem_of_union in Ht as [Ht | Ht]; [by exists s; split_and!; [apply rtc_refl | ..] |].
    eexists. split_and!; [by apply rtc_once, (step_resume t) | by eapply gate_wf_step, (step_resume t) | ..];
      cbn; [set_solver | done..]. }
  pose proof (release_step t w ws s1 Ho ltac:(by rewrite Eg)) as Hstep.
  destruct (IH _ (gate_wf_step _ _ Hwf1 Hstep) eq_refl) as (s' & Hrun' & Hw' & Hg' & Hs').
  exists s'. split_and!; [| done | | by rewrite Hs'].
  - etrans; [done |]. by eapply rtc_l.
  - rewrite Hg'. cbn. by rewrite Er, <- app_assoc.
Qed.

(** (C1) Safety of the gate under every interleaving: at most one goroutine
    runs a turn, an eviction excludes running and queued turns, at most [depth]
    turns wait, and the gate is passed in strict order of arrival: the tickets
    that got it, followed by those still waiting, are exactly the accepted ones
    that did not give up, in the order in which they arrived. *)
Theorem gate_safety s :
  reachable s →
  (∀ t t', t ∈ owners s → t' ∈ owners s → t = t') ∧
  (evicting (gate s) = true →
     owners s = ∅ ∧ granted s = ∅ ∧ waiters (gate s) = [] ∧ inFlight (gate s) = false) ∧
  (∀ t, t ∈ owners s ∪ granted s → inFlight (gate s) = true) ∧
  length (waiters (gate s)) ≤ depth ∧
  grants s ++ waiters (gate s) = filter (λ t, t ∉ surrendered s) (accepted s).
Proof.
  intros Hwf%gate_reachable_wf. split_and!.
  - intros t t' Ht Ht'. destruct (holder_busy s t Hwf) as (_ & _ & Hor); set_solver.
  - intros He. pose proof (wf_evicting s Hwf He) as Hb. pose proof (wf_open s Hwf Hb) as Hw.
    pose proof (wf_holder s Hwf) as Hh. unfold one_holder in Hh. unfold inFlight.
    rewrite Hb, Hw in *. by destruct Hh.
  - intros t Ht. destruct (holder_busy s t Hwf Ht) as (Hb & _ & _). unfold inFlight. by rewrite Hb.
  - apply (wf_depth s Hwf).
  - by rewrite (wf_fifo s Hwf).
Qed.

(** No lost wake-up: from every reachable state the running turns and the
    waiters alone can finish so that every queued turn gets the gate, in order. *)
Lemma gate_drains s :
  reachable s →
  ∃ s', rtc step s s' ∧ waiters (gate s') = [] ∧
    grants s' = grants s ++ waiters (gate s) ∧ surrendered s' = surrendered s.
Proof. intros Hwf%gate_reachable_wf. by apply drains_from. Qed.
End steps.

(** Two turns on one context: the second one queues. *)
Lemma two_turns : reachable 4 (mkSystem (mkGate true false [2%Z]) {[1%Z]} ∅ [1; 2]%Z [1%Z] ∅).
Proof.
  eapply rtc_l; [by apply (step_acquired 4 1); [set_solver | reflexivity] |].
  eapply rtc_l; [by apply (step_queued 4 2); [set_solver | reflexivity] |].
  cbn. rewrite union_empty_r_L. apply rtc_refl.
Qed.

Lemma gate_safety_witness : [1; 2]%Z = filter (λ t, t ∉ (∅ : gset Z)) [1; 2]%Z.
Proof. apply (gate_safety 4 _ two_turns). Defined.

Lemma gate_drains_witness :
  ∃ s', rtc (step 4) (mkSystem (mkGate true false [2%Z]) {[1%Z]} ∅ [1; 2]%Z [1%Z] ∅) s' ∧
    grants s' = [1; 2]%Z.
Proof.
  destruct (gate_drains 4 _ two_turns) as (s' & H1 & _ & H2 & _). by exists s'.
Defined.
