(* ===== verification/IdleMonitor.v ===== *)
(** * Scale-to-zero idle detection ([internal/wrapper/idle_monitor.go])

    The monitor counts the turns in flight, arms a timer when the last one
    ends, and reaps the agent when the timer fires with nothing in flight. A
    stopped [time.AfterFunc] timer may already have launched its callback, so a
    fired callback is a goroutine of its own that waits for the mutex: [pending]
    counts them, and [step] lets each of them run at any later time. *)
From S2P Require Import Prelude GoBase GoStrings.
From Stdlib Require Import ZArith Lia.

Definition DefaultAgentIdleTimeout : duration := (10 * Minute)%Z.
Definition IdleStopExitCode : Z := 111.

(** [ParseAgentIdleTimeout], over the duration parser of package [time]: the
    timeout and whether reaping is enabled, or the parser's error. *)
Definition ParseAgentIdleTimeout (ParseDuration : string → duration + string) (s : string)
    : duration * bool * option string :=
  if negb (nonempty (TrimSpace s)) then (DefaultAgentIdleTimeout, true, None)
  else match ParseDuration s with
       | inr err => (0%Z, false, Some err)
       | inl d => if (d <=? 0)%Z then (0%Z, false, None) else (d, true, None)
       end.

Record idleMonitor := mkMonitor {
  timeout : duration;
  inflight : gset Z;
  nextID : Z;
  timer : option time;     (** when the armed timer fires *)
  reaped : bool;
}.

Definition newIdleMonitor (timeout : duration) : idleMonitor := mkMonitor timeout ∅ 0 None false.

(** [time.AfterFunc] at the current time, replacing the armed timer. *)
Definition armLocked (now : time) (m : idleMonitor) : idleMonitor :=
  if (timeout m <=? 0)%Z then m
  else mkMonitor (timeout m) (inflight m) (nextID m) (Some (Add now (timeout m))) (reaped m).

(** The id of the registered turn, or [None] when the agent is shutting down. *)
Definition turnStarted (m : idleMonitor) : idleMonitor * option Z :=
  if reaped m then (m, None)
  else (mkMonitor (timeout m) ({[nextID m]} ∪ inflight m) (u64 (nextID m + 1)) None (reaped m),
        Some (nextID m)).

Definition turnEnded (now : time) (id : Z) (m : idleMonitor) : idleMonitor :=
  if decide (id ∉ inflight m) then m
  else
    let m := mkMonitor (timeout m) (inflight m ∖ {[id]}) (nextID m) (timer m) (reaped m) in
    if bool_decide (inflight m = ∅) && negb (reaped m) then armLocked now m else m.

(** The release closure: [sync.Once] around [turnEnded]. [once] is whether it
    has run. *)
Definition release (now : time) (id : Z) (once : bool) (m : idleMonitor) : bool * idleMonitor :=
  if once then (once, m) else (true, turnEnded now id m).

(** The timer callback. [confirmIdle] is the value of the independent check
    ([None] when none is installed); the second result is whether [onReap] is
    invoked. *)
Definition fire (now : time) (confirmIdle : option bool) (m : idleMonitor) : idleMonitor * bool :=
  if reaped m || negb (bool_decide (inflight m = ∅)) then (m, false)
  else if confirmIdle is Some false then (armLocked now m, false)
  else (mkMonitor (timeout m) (inflight m) (nextID m) (timer m) true, true).

(** [SessionPool.EnableIdleReaper]: no monitor for a non-positive timeout, else
    a monitor whose timer is armed at once. *)
Definition EnableIdleReaper (now : time) (d : duration) : option idleMonitor :=
  if (d <=? 0)%Z then None else Some (armLocked now (newIdleMonitor d)).

(** ** The monitor and its goroutines

    [running] are the turns between [turnStarted] and their first release, the
    ground truth the refcount must agree with; [reaps] counts invocations of
    [onReap]; [last_end] is when the last turn ended (or the reaper was enabled). *)
Record system := mkSystem {
  mon : idleMonitor;
  clock : time;
  pending : nat;
  running : gset Z;
  reaps : nat;
  last_end : time;
}.

Inductive step : system → system → Prop :=
| step_tick s t :
    (clock s ≤ t)%Z →
    step s (mkSystem (mon s) t (pending s) (running s) (reaps s) (last_end s))
| step_expire s t :
    (** the runtime launches the callback of an expired timer *)
    timer (mon s) = Some t → (t ≤ clock s)%Z →
    step s (mkSystem (mkMonitor (timeout (mon s)) (inflight (mon s)) (nextID (mon s)) None (reaped (mon s)))
              (clock s) (S (pending s)) (running s) (reaps s) (last_end s))
| step_start s m id :
    (nextID (mon s) < max_uint64)%Z → turnStarted (mon s) = (m, Some id) →
    step s (mkSystem m (clock s) (pending s) ({[id]} ∪ running s) (reaps s) (last_end s))
| step_refused s m :
    turnStarted (mon s) = (m, None) →
    step s (mkSystem m (clock s) (pending s) (running s) (reaps s) (last_end s))
| step_end s id once m o :
    (** a release closure runs, for the first time or again *)
    (once = false → id ∈ running s) → (once = true → id ∉ running s) →
    release (clock s) id once (mon s) = (o, m) →
    step s (mkSystem m (clock s) (pending s) (running s ∖ {[id]}) (reaps s)
              (if once then last_end s else clock s))
| step_fire s n confirm m b :
    pending s = S n → fire (clock s) confirm (mon s) = (m, b) →
    step s (mkSystem m (clock s) n (running s) (reaps s + if b then 1 else 0) (last_end s)).

Definition initial (now : time) (d : duration) : system :=
  mkSystem (armLocked now (newIdleMonitor d)) now 0 ∅ 0 now.

Record wf (s : system) : Prop := {
  wf_agree : inflight (mon s) = running s;
  wf_ids id : id ∈ running s → (0 ≤ id < nextID (mon s))%Z;
  wf_next : (0 ≤ nextID (mon s) ≤ max_uint64)%Z;
  wf_reaps : reaps s = if reaped (mon s) then 1 else 0;
  wf_idle : reaped (mon s) = true → running s = ∅;
  wf_armed : (0 < timeout (mon s))%Z → reaped (mon s) = false → running s = ∅ →
    is_Some (timer (mon s)) ∨ 0 < pending s;
}.

Lemma armLocked_fields now m :
  inflight (armLocked now m) = inflight m ∧ nextID (armLocked now m) = nextID m ∧
  reaped (armLocked now m) = reaped m ∧ timeout (armLocked now m) = timeout m ∧
  ((0 < timeout m)%Z → timer (armLocked now m) = Some (Add now (timeout m))).
Proof.
  unfold armLocked. destruct (_ <=? _)%Z eqn:E; bool_to_prop; split_and!; try done. lia.
Qed.

Lemma monitor_wf_initial now d : wf (initial now d).
Proof.
  destruct (armLocked_fields now (newIdleMonitor d)) as (E1 & E2 & E3 & E4 & E5).
  split; cbn; rewrite ?E1, ?E2, ?E3, ?E4; try done.
  intros Hd _ _. left. by rewrite E5.
Qed.

Lemma turnStarted_Some m m' id :
  turnStarted m = (m', Some id) →
  reaped m = false ∧ id = nextID m ∧
  m' = mkMonitor (timeout m) ({[nextID m]} ∪ inflight m) (u64 (nextID m + 1)) None false.
Proof. unfold turnStarted. destruct (reaped m); intros; by simplify_eq. Qed.

Lemma turnEnded_fields now id m :
  id ∈ inflight m →
  let m' := turnEnded now id m in
  inflight m' = inflight m ∖ {[id]} ∧ nextID m' = nextID m ∧ reaped m' = reaped m ∧
  timeout m' = timeout m ∧
  (reaped m = false → inflight m ∖ {[id]} = ∅ → (0 < timeout m)%Z →
   timer m' = Some (Add now (timeout m))).
Proof.
  intros Hid. unfold turnEnded. rewrite decide_False by auto. cbn zeta.
  set (m1 := mkMonitor _ _ _ _ _). destruct (armLocked_fields now m1) as (E1 & E2 & E3 & E4 & E5).
  destruct (_ && _)%bool eqn:Eb; cbn [inflight reaped m1] in *.
  - split_and!; try done; intros; by apply E5.
  - split_and!; try done. intros Hr He _. rewrite Hr, bool_decide_eq_true_2 in Eb by done. done.
Qed.

Lemma monitor_wf_step s s' : wf s → step s s' → wf s'.
Proof.
  intros Hwf Hstep. pose proof (wf_agree s Hwf) as Ha. pose proof (wf_ids s Hwf) as Hi.
  pose proof (wf_next s Hwf) as Hn. pose proof (wf_reaps s Hwf) as Hr.
  pose proof (wf_idle s Hwf) as Hd. pose proof (wf_armed s Hwf) as Hm.
  destruct Hstep as [s t Ht | s t Ht Hle | s m id Hlt E | s m E | s id once m o H1 H2 E
                    | s n confirm m b Hp E].
  - by split.
  - split; cbn; try done. intros. right. lia.
  - apply turnStarted_Some in E as (Er & -> & ->).
    split; cbn; rewrite ?u64_small by lia; try done.
    + by rewrite Ha.
    + intros id [->%elem_of_singleton | Hid%Hi]%elem_of_union; lia.
    + lia.
    + by rewrite Er in Hr.
    + set_solver.
  - unfold turnStarted in E. destruct (reaped (mon s)) eqn:Er; simplify_eq. split; cbn; rewrite ?Er; done.
  - unfold release in E. destruct once; simplify_eq.
    + assert (running s ∖ {[id]} = running s) as Eq.
      { specialize (H2 eq_refl). set_solver. }
      split; cbn; rewrite ?Eq; done.
    + destruct (turnEnded_fields (clock s) id (mon s)) as (E1 & E2 & E3 & E4 & E5).
      { rewrite Ha. auto. }
      split; cbn; rewrite ?E1, ?E2, ?E3, ?E4; try done.
      * by rewrite Ha.
      * intros x Hx. apply Hi. set_solver.
      * intros Hre. rewrite (Hd Hre). set_solver.
      * intros Hto Hre He. left. rewrite E5; [done | done | by rewrite Ha | done].
  - unfold fire in E. destruct (reaped (mon s)) eqn:Er; cbn in E.
    { simplify_eq. split; cbn; rewrite ?Er; try done. by rewrite Nat.add_0_r. }
    destruct (bool_decide (inflight (mon s) = ∅)) eqn:Ee; bool_to_prop; cbn in E.
    + destruct confirm as [[] |]; simplify_eq;
        [ | destruct (armLocked_fields (clock s) (mon s)) as (E1 & E2 & E3 & E4 & E5) | ];
        split; cbn; rewrite ?E1, ?E2, ?E3, ?E4, ?Er, ?Hr, ?Nat.add_0_r in *; try done; try congruence.
      intros Hto _ _. left. by rewrite E5.
    + simplify_eq. split; cbn; rewrite ?Er, ?Nat.add_0_r; try done. congruence.
Qed.

Definition reachable (now : time) (d : duration) (s : system) : Prop := rtc step (initial now d) s.

Lemma monitor_reachable_wf now d s : reachable now d s → wf s.
Proof. apply rtc_invariant; [apply monitor_wf_step | apply monitor_wf_initial]. Qed.

(** Once [onReap] has been invoked no step admits a turn. *)
Lemma reaped_stays s s' : step s s' → reaped (mon s) = true → reaped (mon s') = true.
Proof.
  intros Hstep Hr. destruct Hstep as [| | s m id _ E | s m E | s id once m o _ _ E | s n confirm m b _ E];
    cbn; try done.
  - apply turnStarted_Some in E as (E & _). congruence.
  - unfold turnStarted in E. rewrite Hr in E. by injection E as <-.
  - unfold release, turnEnded, armLocked in E. destruct once; [by simplify_eq |].
    repeat case_match; simplify_eq; cbn in *; done.
  - unfold fire in E. rewrite Hr in E. by injection E as <- <-.
Qed.

Lemma reaped_refuses s s' :
  rtc step s s' → reaped (mon s) = true → turnStarted (mon s') = (mon s', None).
Proof.
  intros Hrun Hr. assert (reaped (mon s') = true) as Hr'.
  { revert Hr. induction Hrun; eauto using reaped_stays. }
  unfold turnStarted. by rewrite Hr'.
Qed.

(** A fired callback that finds the agent idle reaps it. *)
Lemma fire_idle now confirm m :
  reaped m = false → inflight m = ∅ → confirm ≠ Some false →
  fire now confirm m = (mkMonitor (timeout m) (inflight m) (nextID m) (timer m) true, true).
Proof.
  intros Hr Hi Hc. unfold fire. rewrite Hr, bool_decide_eq_true_2 by done. cbn.
  by destruct confirm as [[] |].
Qed.

Lemma expire_pending s :
  wf s → (0 < timeout (mon s))%Z → reaped (mon s) = false → running s = ∅ →
  ∃ s', rtc step s s' ∧ 0 < pending s' ∧ reaped (mon s') = false ∧ inflight (mon s') = ∅ ∧
    reaps s' = reaps s.
Proof.
  intros Hwf Ht Hr He. pose proof (wf_agree s Hwf) as Ha. rewrite He in Ha.
  destruct (wf_armed s Hwf Ht Hr He) as [[t Et] | Hp].
  - eexists. split_and!.
    + eapply rtc_l; [apply (step_tick s (Z.max t (clock s))); lia |].
      eapply rtc_l; [by apply (step_expire _ t); cbn; [| lia] | apply rtc_refl].
    + cbn. lia.
    + done.
    + done.
    + done.
  - exists s. by split_and!; [apply rtc_refl | ..].
Qed.

Lemma idle_reaps s :
  wf s → (0 < timeout (mon s))%Z → reaped (mon s) = false → running s = ∅ →
  ∃ s', rtc step s s' ∧ reaped (mon s') = true ∧ reaps s' = S (reaps s).
Proof.
  intros Hwf Ht Hr He. destruct (expire_pending s Hwf Ht Hr He) as (s1 & Hrun & Hp & Hr1 & Hi1 & <-).
  destruct (pending s1) as [| n] eqn:Ep; [lia |].
  eexists. split_and!.
  - eapply rtc_r; [done |]. by apply (step_fire s1 n (Some true)), fire_idle.
  - done.
  - cbn. lia.
Qed.

(** Ending every running turn, one release at a time. *)
Lemma running_end s :
  wf s → reaped (mon s) = false →
  ∃ s', rtc step s s' ∧ wf s' ∧ running s' = ∅ ∧ reaped (mon s') = false ∧
    timeout (mon s') = timeout (mon s) ∧ reaps s' = reaps s.
Proof.
  remember (size (running s)) as n eqn:En. revert s En.
  induction (lt_wf n) as [n _ IH]; intros s -> Hwf Hr.
  destruct (decide (running s = ∅)) as [He | He].
  { exists s. by split_and!; [apply rtc_refl | ..]. }
  apply set_choose_L in He as [id Hid].
  destruct (turnEnded_fields (clock s) id (mon s)) as (_ & _ & Er & Et & _).
  { by rewrite (wf_agree s Hwf). }
  assert (step s (mkSystem (turnEnded (clock s) id (mon s)) (clock s) (pending s)
            (running s ∖ {[id]}) (reaps s) (clock s))) as Hstep.
  { by apply (step_end s id false _ true). }
  destruct (IH (size (running s ∖ {[id]}))) with (s := mkSystem (turnEnded (clock s) id (mon s)) (clock s)
    (pending s) (running s ∖ {[id]}) (reaps s) (clock s)) as (s' & Hrun & H1 & H2 & H3 & H4 & H5).
  { apply subset_size. set_solver. }
  { done. }
  { by eapply monitor_wf_step. }
  { cbn. by rewrite Er. }
  exists s'. split_and!; [by eapply rtc_l | done | done | done | | done].
  rewrite H4. cbn. by rewrite Et.
Qed.

Lemma timeout_step s s' : step s s' → timeout (mon s') = timeout (mon s).
Proof.
  destruct 1 as [| | s m id _ E | s m E | s id once m o _ _ E | s n confirm m b _ E]; cbn; try done.
  - by apply turnStarted_Some in E as (_ & _ & ->).
  - unfold turnStarted in E. destruct (reaped _); by simplify_eq.
  - unfold release, turnEnded, armLocked in E. destruct once; [by simplify_eq |].
    repeat case_match; simplify_eq; cbn in *; done.
  - unfold fire, armLocked in E. repeat case_match; simplify_eq; cbn in *; done.
Qed.

Lemma reachable_timeout now d s : reachable now d s → timeout (mon s) = d.
Proof.
  apply (rtc_invariant step (λ s, timeout (mon s) = d)); [| cbn; apply armLocked_fields].
  intros x y <- Hs. by apply timeout_step.
Qed.

(** Scale-to-zero is safe under every interleaving of turns, releases
    (repeated ones included) and timer callbacks, whatever the independent check
    answers: the refcount is exactly the set of running turns, the agent is
    reaped at most once and only with no turn running, and from then on every
    turn is refused. *)
Lemma idle_reap_safe now d s :
  reachable now d s →
  inflight (mon s) = running s ∧
  reaps s = (if reaped (mon s) then 1 else 0) ∧
  (reaped (mon s) = true → running s = ∅ ∧
     ∀ s', rtc step s s' → running s' = ∅ ∧ reaps s' = 1 ∧ turnStarted (mon s') = (mon s', None)).
Proof.
  intros Hreach. pose proof (monitor_reachable_wf now d s Hreach) as Hwf. split_and!.
  - apply (wf_agree s Hwf).
  - apply (wf_reaps s Hwf).
  - intros Hr. split; [by apply (wf_idle s Hwf) |]. intros s' Hrun.
    pose proof (monitor_reachable_wf now d s' ltac:(unfold reachable in *; by etrans)) as Hwf'.
    pose proof (reaped_refuses s s' Hrun Hr) as Href.
    assert (reaped (mon s') = true) as Hr'.
    { unfold turnStarted in Href. by destruct (reaped (mon s')). }
    split_and!; [by apply (wf_idle s' Hwf') | | done]. by rewrite (wf_reaps s' Hwf'), Hr'.
Qed.

(** An idle agent is not leaked: with a positive timeout, from every
    reachable state that has not been reaped the running turns can all end and
    the agent is then reaped by the timer alone, exactly once. *)
Lemma idle_reap_live now d s :
  reachable now d s → (0 < d)%Z → reaped (mon s) = false →
  ∃ s', rtc step s s' ∧ reaped (mon s') = true ∧ running s' = ∅ ∧ reaps s' = 1.
Proof.
  intros Hreach Hd Hr. pose proof (monitor_reachable_wf now d s Hreach) as Hwf.
  destruct (running_end s Hwf Hr) as (s1 & Hrun1 & Hwf1 & He1 & Hr1 & Ht1 & _).
  rewrite (reachable_timeout now d s Hreach) in Ht1.
  destruct (idle_reaps s1 Hwf1 ltac:(by rewrite Ht1) Hr1 He1) as (s2 & Hrun2 & Hr2 & _).
  assert (rtc step s s2) as Hrun by (by etrans). exists s2.
  pose proof (monitor_reachable_wf now d s2 ltac:(unfold reachable in *; by etrans)) as Hwf2.
  split_and!; [done | done | by apply (wf_idle s2 Hwf2) |]. by rewrite (wf_reaps s2 Hwf2), Hr2.
Qed.

(** A turn that starts and ends between the launch of an expired timer's
    callback and its critical section: [Stop] no longer helps, the callback
    finds nothing in flight, and the agent is reaped although its last turn has
    just ended. The window of [timeout] without a turn is not guaranteed. *)
Lemma stale_callback_reaps_early :
  ∃ s, reachable 0 10 s ∧ reaped (mon s) = true ∧ reaps s = 1 ∧ clock s = last_end s.
Proof.
  eexists. split.
  - eapply rtc_l; [apply (step_tick _ 10); cbn; lia |].
    eapply rtc_l; [apply (step_expire _ 10); [reflexivity | cbn; lia] |].
    eapply rtc_l; [eapply step_start; [cbn; unfold max_uint64; lia | reflexivity] |].
    eapply rtc_l; [eapply (step_end _ 0 false _ true); [set_solver | done | reflexivity] |].
    eapply rtc_l; [eapply (step_fire _ 0 None); [reflexivity |] | apply rtc_refl].
    apply fire_idle; vm_compute; done.
  - by vm_compute.
Qed.

Lemma idle_reap_safe_witness :
  ∃ s, reachable 0 10 s ∧ turnStarted (mon s) = (mon s, None) ∧ running s = ∅.
Proof.
  destruct stale_callback_reaps_early as (s & Hreach & Hr & _ & _). exists s.
  destruct (idle_reap_safe 0 10 s Hreach) as (_ & _ & H). destruct (H Hr) as [He H'].
  split; [done |]. split; [| done]. apply (H' s). apply rtc_refl.
Defined.

Lemma idle_reap_live_witness :
  ∃ s', rtc step (initial 0 10) s' ∧ reaps s' = 1.
Proof.
  destruct (idle_reap_live 0 10 (initial 0 10)) as (s' & H1 & _ & _ & H2).
  - apply rtc_refl.
  - reflexivity.
  - reflexivity.
  - by exists s'.
Defined.
