(* ===== verification/GatedSession.v ===== *)
(** * Gated sessions ([internal/wrapper/turn_gate.go], second half)

    [gatedSession] brackets every turn of a pooled session with its context's
    turn gate and with the idle monitor. The sequential part follows [Stream]
    and [Turn] from the moment the gate is held to the moment it is passed on;
    the second part composes the gates of all contexts with the monitor and
    shows that the monitor's two sources agree on a busy agent. *)
From S2P Require Import Prelude GoBase GoStrings TurnGate IdleMonitor.
From Stdlib Require Import ZArith Lia.

(** ** One call *)

(** What a call can see and change: the gate, the monitor ([None] when reaping
    is disabled) and how often [onTurnFinished] ran. *)
Record world := mkWorld {
  w_gate : turnGate;
  w_monitor : option idleMonitor;
  w_finished : nat;
}.

Inductive call_error := GateError (e : gate_error) | ErrAgentIdleStopping | InnerError.

(** [g.gate.release()]; the second component is the waiter that got the gate. *)
Definition gate_release (w : world) : world * option Z :=
  let '(g, o) := TurnGate.release (w_gate w) in (mkWorld g (w_monitor w) (w_finished w), o).

(** [g.monitor.turnStarted()] when there is a monitor: the id to release later,
    or the refusal. *)
Definition monitor_start (w : world) : world * option (option Z) :=
  match w_monitor w with
  | None => (w, Some None)
  | Some m =>
      let '(m, r) := turnStarted m in
      (mkWorld (w_gate w) (Some m) (w_finished w), Some <$> r)
  end.

Definition monitor_release (now : time) (turn : option Z) (w : world) : world :=
  match turn, w_monitor w with
  | Some id, Some m => mkWorld (w_gate w) (Some (snd (IdleMonitor.release now id false m))) (w_finished w)
  | _, _ => w
  end.

Definition on_turn_finished (w : world) : world := mkWorld (w_gate w) (w_monitor w) (S (w_finished w)).

(** What a call comes back with; [Waiting] is a call blocked in [acquire]. *)
Inductive call_result :=
| Failed (e : call_error)
| Waiting
| Open (turn : option Z)
| Text (s : string).

(** [Stream] after [acquire]: [inner_ok] is whether the provider opens its
    event stream. *)
Definition stream_holding (now : time) (inner_ok : bool) (w : world) : world * option Z * call_result :=
  let '(w, r) := monitor_start w in
  match r with
  | None => let '(w, o) := gate_release w in (w, o, Failed ErrAgentIdleStopping)
  | Some turn =>
      if inner_ok then (w, None, Open turn)
      else let '(w, o) := gate_release (monitor_release now turn w) in (w, o, Failed InnerError)
  end.

(** The deferred calls of the goroutine that forwards the events, run once the
    provider's channel is drained. *)
Definition stream_drained (now : time) (turn : option Z) (w : world) : world * option Z :=
  gate_release (monitor_release now turn (on_turn_finished w)).

(** [Turn] after [acquire]; [inner] is the provider's answer. The deferred
    calls run in reverse order. *)
Definition turn_holding (now : time) (inner : option string) (w : world) : world * option Z * call_result :=
  let '(w, r) := monitor_start w in
  match r with
  | None =>
      let '(w, o) := gate_release (on_turn_finished w) in (w, o, Failed ErrAgentIdleStopping)
  | Some turn =>
      let '(w, o) := gate_release (on_turn_finished (monitor_release now turn w)) in
      (w, o, if inner is Some s then Text s else Failed InnerError)
  end.

(** The whole calls: a queued call continues with [stream_holding] or
    [turn_holding] when its channel is closed. *)
Definition gated_call (body : world → world * option Z * call_result)
    (ctx_done : bool) (depth : nat) (ch : Z) (w : world) : world * option Z * call_result :=
  let '(g, r) := acquire ctx_done depth ch (w_gate w) in
  let w := mkWorld g (w_monitor w) (w_finished w) in
  match r with
  | Refused e => (w, None, Failed (GateError e))
  | Queued => (w, None, Waiting)
  | Acquired => body w
  end.

Definition Stream (now : time) (inner_ok : bool) := gated_call (stream_holding now inner_ok).
Definition Turn (now : time) (inner : option string) := gated_call (turn_holding now inner).

(** The turns the monitor counts. *)
Definition counted (w : world) : gset Z := from_option inflight ∅ (w_monitor w).

(** The monitor does not reuse an id that is in flight. *)
Definition fresh_ids (w : world) : Prop := ∀ m, w_monitor w = Some m → nextID m ∉ inflight m.

Lemma monitor_start_spec w w' r :
  fresh_ids w → monitor_start w = (w', r) →
  w_gate w' = w_gate w ∧ w_finished w' = w_finished w ∧
  match r with
  | None => counted w' = counted w
  | Some turn => ∀ now, counted (monitor_release now turn w') = counted w
  end.
Proof.
  unfold monitor_start, counted. intros Hf E. destruct (w_monitor w) as [m |] eqn:Em;
    [| injection E as <- <-; split_and!; [done | done |]; intros now; cbn; by rewrite Em].
  destruct (turnStarted m) as [m' [id |]] eqn:Es; simplify_eq/=.
  - apply turnStarted_Some in Es as (_ & -> & ->). split_and!; [done | done |].
    intros now. cbn. specialize (Hf m Em).
    edestruct (turnEnded_fields now (nextID m)) as [E1 _]; [| rewrite E1]; cbn; set_solver.
  - unfold turnStarted in Es. destruct (reaped m); by simplify_eq.
Qed.

Lemma gate_release_spec w w' o :
  gate_release w = (w', o) →
  TurnGate.release (w_gate w) = (w_gate w', o) ∧ counted w' = counted w ∧ w_finished w' = w_finished w.
Proof. unfold gate_release. destruct (TurnGate.release _) eqn:E. by intros [= <- <-]. Qed.

Lemma monitor_release_fields now turn w :
  w_gate (monitor_release now turn w) = w_gate w ∧
  w_finished (monitor_release now turn w) = w_finished w.
Proof. unfold monitor_release. by repeat case_match. Qed.

(** Every exit of a gated call gives back exactly what it took. Once
    the gate is held, whatever the monitor and the provider answer: a [Stream]
    that fails passes the gate on at once with the monitor's count unchanged; one
    that opens keeps both until its events are drained and then gives both
    back; a [Turn] gives both back on success, on a provider error and on a
    refusal. *)
Lemma gated_session_balanced now now' w w' o r :
  fresh_ids w →
  (∀ ok, stream_holding now ok w = (w', o, r) →
     match r with
     | Open turn =>
         o = None ∧ w_gate w' = w_gate w ∧ w_finished w' = w_finished w ∧
         ∀ w2 o2, stream_drained now' turn w' = (w2, o2) →
           TurnGate.release (w_gate w) = (w_gate w2, o2) ∧ counted w2 = counted w ∧
           w_finished w2 = S (w_finished w)
     | Failed e =>
         (e = ErrAgentIdleStopping ∨ e = InnerError ∧ ok = false) ∧
         TurnGate.release (w_gate w) = (w_gate w', o) ∧ counted w' = counted w ∧
         w_finished w' = w_finished w
     | _ => False
     end) ∧
  (∀ inner, turn_holding now inner w = (w', o, r) →
     (r = Failed ErrAgentIdleStopping ∨ r = from_option Text (Failed InnerError) inner) ∧
     TurnGate.release (w_gate w) = (w_gate w', o) ∧ counted w' = counted w ∧
     w_finished w' = S (w_finished w)).
Proof.
  intros Hf. destruct (monitor_start w) as [w1 r1] eqn:Es.
  destruct (monitor_start_spec w w1 r1 Hf Es) as (Eg & Ef & Hr).
  unfold stream_holding, turn_holding. rewrite Es. split.
  - intros ok. destruct r1 as [turn |].
    + destruct ok.
      * intros [= <- <- <-]. split_and!; [done | done | done |]. intros w2 o2 E2.
        apply gate_release_spec in E2 as (H1 & H2 & H3).
        destruct (monitor_release_fields now' turn (on_turn_finished w1)) as [G1 G2].
        rewrite G1 in H1. rewrite G2 in H3. cbn in *. rewrite <- Eg, <- Ef. split_and!; [done | | done].
        rewrite H2, <- (Hr now'). clear. by destruct w1 as [? [] ?], turn.
      * destruct (gate_release _) as [w2 o2] eqn:E2. intros [= <- <- <-].
        apply gate_release_spec in E2 as (H1 & H2 & H3).
        destruct (monitor_release_fields now turn w1) as [G1 G2].
        rewrite G1, Eg in H1. rewrite G2, Ef in H3. rewrite (Hr now) in H2. auto.
    + destruct (gate_release w1) as [w2 o2] eqn:E2. intros [= <- <- <-].
      apply gate_release_spec in E2 as (H1 & H2 & H3). rewrite <- Eg, <- Ef, <- Hr. auto.
  - intros inner. destruct r1 as [turn |].
    + destruct (gate_release _) as [w2 o2] eqn:E2. intros [= <- <- <-].
      apply gate_release_spec in E2 as (H1 & H2 & H3). cbn in *.
      destruct (monitor_release_fields now turn w1) as [G1 G2].
      rewrite G1, Eg in H1. rewrite G2, Ef in H3.
      split; [right; by destruct inner |]. split_and!; [done | | done]. by rewrite H2, <- (Hr now).
    + destruct (gate_release _) as [w2 o2] eqn:E2. intros [= <- <- <-].
      apply gate_release_spec in E2 as (H1 & H2 & H3). cbn in *. rewrite <- Eg, <- Ef, <- Hr. auto.
Qed.

Lemma gated_session_balanced_witness :
  ∃ w', stream_holding 0 false (mkWorld (mkGate true false [7%Z]) (Some (newIdleMonitor 5)) 0)
          = (w', Some 7%Z, Failed InnerError) ∧ counted w' = ∅ ∧ w_finished w' = 0.
Proof.
  set (w := mkWorld (mkGate true false [7%Z]) (Some (newIdleMonitor 5)) 0).
  destruct (stream_holding 0 false w) as [[w' o] r] eqn:E. exists w'.
  assert (o = Some 7%Z ∧ r = Failed InnerError) as [-> ->].
  { apply (f_equal (λ x, (snd (fst x), snd x))) in E. vm_compute in E. by injection E as <- <-. }
  split; [done |].
  destruct (gated_session_balanced 0 0 w w' (Some 7%Z) (Failed InnerError)) as [H _].
  - intros m [= <-]. cbn. set_solver.
  - apply (H false E).
Defined.

(** ** All contexts and the monitor

    [gates] is the turn-gate system of each context and [regs] the monitor id
    of every call that is between [turnStarted] and its release; a call is a
    context and its ticket at that context's gate. *)
Section composed.
Context (depth : nat).

Record system := mkSystem {
  gates : gmap string TurnGate.system;
  monitor : IdleMonitor.system;
  regs : gmap (string * Z) Z;
}.

Definition gate_of (s : system) (ctx : string) : TurnGate.system :=
  default TurnGate.initial (gates s !! ctx).

(** [SessionPool.AnyMidTurn]: some context's gate is held or waited for. *)
Definition AnyMidTurn (s : system) : bool :=
  bool_decide (map_Exists (λ _ g, inFlight (gate g) = true) (gates s)).

Inductive step : system → system → Prop :=
| step_gate s ctx g :
    TurnGate.step depth (gate_of s ctx) g →
    (** a call gives its registration back before the gate *)
    (∀ t, (ctx, t) ∈ dom (regs s) → t ∈ owners (gate_of s ctx) → t ∈ owners g) →
    step s (mkSystem (<[ctx := g]> (gates s)) (monitor s) (regs s))
| step_register s ctx t id m :
    t ∈ owners (gate_of s ctx) → (ctx, t) ∉ dom (regs s) →
    (nextID (mon (monitor s)) < max_uint64)%Z → turnStarted (mon (monitor s)) = (m, Some id) →
    step s (mkSystem (gates s)
      (IdleMonitor.mkSystem m (clock (monitor s)) (pending (monitor s)) ({[id]} ∪ running (monitor s))
         (reaps (monitor s)) (last_end (monitor s)))
      (<[(ctx, t) := id]> (regs s)))
| step_unregister s ctx t id o m :
    regs s !! (ctx, t) = Some id → IdleMonitor.release (clock (monitor s)) id false (mon (monitor s)) = (o, m) →
    step s (mkSystem (gates s)
      (IdleMonitor.mkSystem m (clock (monitor s)) (pending (monitor s)) (running (monitor s) ∖ {[id]})
         (reaps (monitor s)) (clock (monitor s)))
      (delete (ctx, t) (regs s)))
| step_fire s n m b :
    (** the timer's callback, confirmed by the gates *)
    pending (monitor s) = S n →
    fire (clock (monitor s)) (Some (negb (AnyMidTurn s))) (mon (monitor s)) = (m, b) →
    step s (mkSystem (gates s)
      (IdleMonitor.mkSystem m (clock (monitor s)) n (running (monitor s))
         (reaps (monitor s) + if b then 1 else 0) (last_end (monitor s)))
      (regs s))
| step_time s m :
    (** time passes or an expired timer launches its callback *)
    IdleMonitor.step (monitor s) m → running m = running (monitor s) → reaps m = reaps (monitor s) →
    reaped (mon m) = reaped (mon (monitor s)) →
    step s (mkSystem (gates s) m (regs s)).

Definition start (now : time) (d : duration) : system :=
  mkSystem ∅ (IdleMonitor.initial now d) ∅.

Record wf (s : system) : Prop := {
  wf_gates ctx : TurnGate.wf depth (gate_of s ctx);
  wf_monitor : IdleMonitor.wf (monitor s);
  wf_holding ctx t : (ctx, t) ∈ dom (regs s) → t ∈ owners (gate_of s ctx);
  wf_running id : id ∈ running (monitor s) ↔ ∃ k, regs s !! k = Some id;
  wf_once k k' id : regs s !! k = Some id → regs s !! k' = Some id → k = k';
}.

Lemma gate_of_insert s ctx ctx' g m r :
  gate_of (mkSystem (<[ctx := g]> (gates s)) m r) ctx' = if decide (ctx = ctx') then g else gate_of s ctx'.
Proof.
  unfold gate_of. cbn [gates]. case_decide as Hc; [subst; by rewrite lookup_insert_eq |].
  by rewrite lookup_insert_ne.
Qed.

Lemma wf_start now d : wf (start now d).
Proof.
  split; cbn [start monitor regs].
  - intros ctx. unfold gate_of. cbn. apply TurnGate.gate_wf_initial.
  - apply IdleMonitor.monitor_wf_initial.
  - intros ctx t. rewrite dom_empty_L. set_solver.
  - intros id. cbn. split; [set_solver |]. by intros [k Hk].
  - by intros k k' id Hk.
Qed.

Lemma gated_wf_step s s' : wf s → step s s' → wf s'.
Proof.
  intros Hwf Hstep. pose proof (wf_gates s Hwf) as Hg. pose proof (wf_monitor s Hwf) as Hm.
  pose proof (wf_holding s Hwf) as Hh. pose proof (wf_running s Hwf) as Hr.
  pose proof (wf_once s Hwf) as Ho.
  destruct Hstep as [s ctx g E Hk | s ctx t id m Ht Hn Hlt E | s ctx t id o m Hl E | s n m b Hp E | s m E Er _ _].
  - split; cbn [monitor regs]; try done.
    + intros ctx'. rewrite gate_of_insert. case_decide; [| done].
      eapply TurnGate.gate_wf_step; [apply Hg | done].
    + intros ctx' t Ht. rewrite gate_of_insert. case_decide; subst; eauto.
  - pose proof (turnStarted_Some _ _ _ E) as (_ & Eid & _).
    assert (id ∉ running (monitor s)) as Hfresh.
    { intros Hid%(wf_ids _ Hm). lia. }
    split; cbn [monitor regs]; try done.
    + eapply IdleMonitor.monitor_wf_step; [done |]. by apply IdleMonitor.step_start.
    + intros ctx' t'. rewrite dom_insert_L. intros [Hin%elem_of_singleton | ?]%elem_of_union.
      * by simplify_eq.
      * by apply Hh.
    + intros x. cbn [running]. rewrite elem_of_union, elem_of_singleton, Hr. split.
      * intros [-> | [k Hk]]; [exists (ctx, t); by rewrite lookup_insert_eq |]. exists k.
        rewrite lookup_insert_ne; [done |]. intros <-. by apply Hn, elem_of_dom.
      * intros [k [[_ ?] | [_ ?]]%lookup_insert_Some]; eauto.
    + intros k k' x [[<- <-] | [Hk1 Hk2]]%lookup_insert_Some [[<- E2] | [Hk3 Hk4]]%lookup_insert_Some;
        try done; subst; [| | by eapply Ho]; exfalso; apply Hfresh, Hr; eauto.
  - assert (id ∈ running (monitor s)) as Hid by (apply Hr; eauto).
    split; cbn [monitor regs]; try done.
    + eapply IdleMonitor.monitor_wf_step; [done |]. by eapply (IdleMonitor.step_end _ id false).
    + intros ctx' t' Hd. apply Hh. rewrite dom_delete_L in Hd. set_solver.
    + intros x. cbn [running]. rewrite elem_of_difference, elem_of_singleton, Hr. split.
      * intros [[k Hk] Hx]. exists k. rewrite lookup_delete_ne; [done |]. intros <-. congruence.
      * intros [k [Hk1 Hk2]%lookup_delete_Some]. split; [eauto |]. intros ->.
        apply Hk1. by eapply Ho.
    + intros k k' x [_ ?]%lookup_delete_Some [_ ?]%lookup_delete_Some. by eapply Ho.
  - split; cbn [monitor regs]; try done.
    eapply IdleMonitor.monitor_wf_step; [done |]. by eapply IdleMonitor.step_fire.
  - split; cbn [monitor regs]; try done.
    + by eapply IdleMonitor.monitor_wf_step.
    + intros id. by rewrite Er.
Qed.

Definition reachable (now : time) (d : duration) (s : system) : Prop := rtc step (start now d) s.

Lemma gated_reachable_wf now d s : reachable now d s → wf s.
Proof. apply rtc_invariant; [apply gated_wf_step | apply wf_start]. Qed.

Lemma AnyMidTurn_owner s ctx t : wf s → t ∈ owners (gate_of s ctx) → AnyMidTurn s = true.
Proof.
  intros Hwf Ht. apply bool_decide_eq_true. exists ctx. unfold gate_of in *.
  pose proof (wf_gates s Hwf ctx) as Hg. unfold gate_of in Hg.
  destruct (gates s !! ctx) as [g |]; cbn in *; [| set_solver]. exists g. split; [done |].
  destruct (holder_busy depth g t Hg) as (Hb & _); [set_solver |]. unfold inFlight. by rewrite Hb.
Qed.

(** The monitor's two sources never disagree in the dangerous direction:
    in every reachable state of all gates and the monitor, a turn the monitor
    counts holds its context's gate, so the pool reports a turn in flight, the
    session cannot be claimed for eviction, and no timer callback reaps; and a
    callback that does reap finds every gate open and nothing counted. *)
Lemma midturn_protected now d s :
  reachable now d s →
  (∀ id, id ∈ inflight (mon (monitor s)) → ∃ ctx t,
     t ∈ owners (gate_of s ctx) ∧ AnyMidTurn s = true ∧
     snd (tryBeginEviction (gate (gate_of s ctx))) = false) ∧
  (∀ m, fire (clock (monitor s)) (Some (negb (AnyMidTurn s))) (mon (monitor s)) = (m, true) →
     inflight (mon (monitor s)) = ∅ ∧ ∀ ctx, owners (gate_of s ctx) = ∅ ∧ inFlight (gate (gate_of s ctx)) = false).
Proof.
  intros Hwf%gated_reachable_wf. split.
  - intros id Hid. rewrite (wf_agree _ (wf_monitor s Hwf)) in Hid.
    apply (wf_running s Hwf) in Hid as [[ctx t] Hk].
    assert (t ∈ owners (gate_of s ctx)) as Ht by (apply (wf_holding s Hwf), elem_of_dom; eauto).
    exists ctx, t. split_and!; [done | by eapply AnyMidTurn_owner |].
    destruct (holder_busy depth (gate_of s ctx) t (wf_gates s Hwf ctx)) as (Hb & _); [set_solver |].
    unfold tryBeginEviction. rewrite Hb. by rewrite orb_true_r.
  - intros m. unfold fire. destruct (_ || _)%bool eqn:Eb; [by intros [=] |].
    bool_to_prop. destruct (AnyMidTurn s) eqn:Em; [by intros [=] |]. intros _. split; [done |].
    intros ctx. split.
    + apply set_eq. intros t. split; [| set_solver]. intros Ht.
      by rewrite (AnyMidTurn_owner s ctx t Hwf Ht) in Em.
    + unfold gate_of. destruct (gates s !! ctx) as [g |] eqn:Eg; [| done]. cbn.
      apply not_true_is_false. intros Hf. apply bool_decide_eq_false in Em. apply Em. by exists ctx, g.
Qed.
End composed.

(** One registered turn on one context. *)
Lemma registered_run : ∃ s, reachable 4 0 10 s ∧ inflight (mon (monitor s)) = {[0%Z]}.
Proof.
  eexists. split.
  - eapply rtc_l.
    { eapply (step_gate 4 _ "ctx"); [by apply (step_acquired 4 1); [set_solver | reflexivity] |].
      intros t Ht. cbn in Ht. set_solver. }
    eapply rtc_l; [| apply rtc_refl].
    eapply (step_register 4 _ "ctx" 1); [set_solver | set_solver | cbn; unfold max_uint64; lia | reflexivity].
  - by vm_compute.
Qed.

Lemma midturn_protected_witness : ∃ s, reachable 4 0 10 s ∧ AnyMidTurn s = true.
Proof.
  destruct registered_run as (s & Hreach & Hid). exists s. split; [done |].
  destruct (midturn_protected 4 0 10 s Hreach) as [H _].
  destruct (H 0%Z) as (ctx & t & _ & H' & _); [by rewrite Hid; apply elem_of_singleton | exact H'].
Defined.
