(* ===== verification/SessionPool.v ===== *)
(** * The session pool ([internal/wrapper/session_pool.go])

    One slot per A2A context. The entries map holds pointers, and goroutines
    keep the pointers they looked up, so the pool is a heap of entries and a map
    from contexts to heap addresses; a provider session is known by its
    identity. Each critical section of the code (what runs under one
    acquisition of [p.mu] or [entry.mu]) is one function on the pool, and the
    exported operations compose the sections in the order of the code. *)
From S2P Require Import Prelude GoBase GoStrings TurnGate.
From Stdlib Require Import ZArith Lia.

Definition Session := Z.

Record PersistedRecord := mkRecord {
  SessionID : string;
  State : string;
  LastUsed : time;
  EvictedAt : time;
}.

Definition persistStateActive : string := "active".
Definition persistStateEvicted : string := "evicted".

(** [OverloadPolicy] is an [int] with two named values. *)
Definition OverloadPolicy := Z.
Definition OverloadReject : OverloadPolicy := 0%Z.
Definition OverloadEvictLRU : OverloadPolicy := 1%Z.

Definition OverloadPolicy_String (p : OverloadPolicy) : string :=
  if (p =? OverloadReject)%Z then "reject"
  else if (p =? OverloadEvictLRU)%Z then "evict-lru"
  else "unknown(" +:+ Itoa p +:+ ")".

(** The policy and whether parsing failed. *)
Definition ParseOverloadPolicy (s : string) : OverloadPolicy * bool :=
  if bool_decide (s = "") || bool_decide (s = "reject") then (OverloadReject, false)
  else if bool_decide (s = "evict-lru") then (OverloadEvictLRU, false)
  else (OverloadReject, true).

Inductive entryState := entryActive | entryEvicted.
#[export] Instance entryState_eq_dec : EqDecision entryState.
Proof. solve_decision. Defined.

Record pooledEntry := mkEntry {
  contextID : string;
  sessionID : string;
  gate : turnGate;
  state : entryState;
  session : option Session;
  lastUsed : time;
  evictedAt : time;
  gatedWrap : option (Z * Session);  (** the wrapper's identity and its [inner] *)
}.

Record SessionPool := mkPool {
  idleTTL : duration;
  evictedTTL : duration;
  heap : gmap Z pooledEntry;
  entries : gmap string Z;
  next : Z;                          (** the next unused heap address *)
  stopped : bool;
  persist : bool;                    (** whether there is a [Persistence] backend *)
  persistState : gmap string PersistedRecord;
  saves : list (gmap string PersistedRecord);  (** the arguments of [Save], newest first *)
  maxActive : Z;
  overloadPolicy : OverloadPolicy;
  maxEvicted : Z;
  queueDepth : Z;
  forgotten : list string;           (** the arguments of [onForget], newest first *)
  closed : list Session;             (** the sessions [Close] was called on, newest first *)
}.

(** ** Field updates *)
Definition with_heap (h : gmap Z pooledEntry) (p : SessionPool) : SessionPool :=
  mkPool (idleTTL p) (evictedTTL p) h (entries p) (next p) (stopped p) (persist p) (persistState p)
    (saves p) (maxActive p) (overloadPolicy p) (maxEvicted p) (queueDepth p) (forgotten p) (closed p).
Definition with_entries (m : gmap string Z) (p : SessionPool) : SessionPool :=
  mkPool (idleTTL p) (evictedTTL p) (heap p) m (next p) (stopped p) (persist p) (persistState p)
    (saves p) (maxActive p) (overloadPolicy p) (maxEvicted p) (queueDepth p) (forgotten p) (closed p).
Definition with_next (n : Z) (p : SessionPool) : SessionPool :=
  mkPool (idleTTL p) (evictedTTL p) (heap p) (entries p) n (stopped p) (persist p) (persistState p)
    (saves p) (maxActive p) (overloadPolicy p) (maxEvicted p) (queueDepth p) (forgotten p) (closed p).
Definition with_persist (m : gmap string PersistedRecord) (s : list (gmap string PersistedRecord))
    (p : SessionPool) : SessionPool :=
  mkPool (idleTTL p) (evictedTTL p) (heap p) (entries p) (next p) (stopped p) (persist p) m
    s (maxActive p) (overloadPolicy p) (maxEvicted p) (queueDepth p) (forgotten p) (closed p).
Definition with_forgotten (l : list string) (p : SessionPool) : SessionPool :=
  mkPool (idleTTL p) (evictedTTL p) (heap p) (entries p) (next p) (stopped p) (persist p) (persistState p)
    (saves p) (maxActive p) (overloadPolicy p) (maxEvicted p) (queueDepth p) l (closed p).
Definition close (s : Session) (p : SessionPool) : SessionPool :=
  mkPool (idleTTL p) (evictedTTL p) (heap p) (entries p) (next p) (stopped p) (persist p) (persistState p)
    (saves p) (maxActive p) (overloadPolicy p) (maxEvicted p) (queueDepth p) (forgotten p) (s :: closed p).

Definition set_entry (ptr : Z) (e : pooledEntry) (p : SessionPool) : SessionPool :=
  with_heap (<[ptr := e]> (heap p)) p.

Definition SetCap (max : Z) (policy : OverloadPolicy) (p : SessionPool) : SessionPool :=
  mkPool (idleTTL p) (evictedTTL p) (heap p) (entries p) (next p) (stopped p) (persist p) (persistState p)
    (saves p) max policy (maxEvicted p) (queueDepth p) (forgotten p) (closed p).
Definition SetMaxEvicted (max : Z) (p : SessionPool) : SessionPool :=
  mkPool (idleTTL p) (evictedTTL p) (heap p) (entries p) (next p) (stopped p) (persist p) (persistState p)
    (saves p) (maxActive p) (overloadPolicy p) max (queueDepth p) (forgotten p) (closed p).
Definition SetQueueDepth (depth : Z) (p : SessionPool) : SessionPool :=
  mkPool (idleTTL p) (evictedTTL p) (heap p) (entries p) (next p) (stopped p) (persist p) (persistState p)
    (saves p) (maxActive p) (overloadPolicy p) (maxEvicted p) depth (forgotten p) (closed p).

(** ** Persistence *)

Definition upsertPersist (ctx : string) (rec : PersistedRecord) (p : SessionPool) : SessionPool :=
  if negb (persist p) then p
  else let m := <[ctx := rec]> (persistState p) in with_persist m (m :: saves p) p.

Definition removePersist (ctx : string) (p : SessionPool) : SessionPool :=
  if negb (persist p) then p
  else let m := delete ctx (persistState p) in with_persist m (m :: saves p) p.

Definition forget (ctx : string) (p : SessionPool) : SessionPool :=
  let p := removePersist ctx p in with_forgotten (ctx :: forgotten p) p.

(** ** Construction *)

Definition newPool (idleTTL evictedTTL : duration) (persist : bool) : SessionPool :=
  mkPool idleTTL evictedTTL ∅ ∅ 0 false persist ∅ [] 0 OverloadReject 0
    (Z.of_nat defaultTurnQueueDepth) [] [].

Definition rehydrate_record (now : time) (p : SessionPool) (x : string * PersistedRecord) : SessionPool :=
  let '(ctx, rec) := x in
  if negb (nonempty (SessionID rec)) then p
  else
    let ev := if IsZero (EvictedAt rec) then now else EvictedAt rec in
    let entry := mkEntry ctx (SessionID rec) newTurnGate entryEvicted None (LastUsed rec) ev None in
    let ptr := next p in
    with_persist (<[ctx := mkRecord (SessionID rec) persistStateEvicted (LastUsed rec) ev]> (persistState p)) (saves p)
      (with_entries (<[ctx := ptr]> (entries p)) (set_entry ptr entry (with_next (ptr + 1) p))).

(** [records] is the loaded map in the order in which [range] visits it. *)
Definition rehydrateLocked (now : time) (records : list (string * PersistedRecord)) (p : SessionPool) : SessionPool :=
  foldl (rehydrate_record now) p records.

(** [loaded] is [None] when there is no backend; the inner option is [Load]'s
    result, [None] for an error. *)
Definition NewSessionPoolWithPersistence (now : time) (idleTTL evictedTTL : duration)
    (loaded : option (option (list (string * PersistedRecord)))) : SessionPool :=
  match loaded with
  | None => newPool idleTTL evictedTTL false
  | Some None => newPool idleTTL evictedTTL true
  | Some (Some records) => rehydrateLocked now records (newPool idleTTL evictedTTL true)
  end.

(** ** Looking a session up *)

(** The first section of [LookupOrCreate]: the entry's address, or [None] when
    the pool is stopped. *)
Definition lookup_entry (ctx : string) (p : SessionPool) : SessionPool * option Z :=
  if stopped p then (p, None)
  else match entries p !! ctx with
       | Some ptr => (p, Some ptr)
       | None =>
           let ptr := next p in
           (with_entries (<[ctx := ptr]> (entries p))
              (set_entry ptr (mkEntry ctx "" newTurnGate entryActive None zero_time zero_time None)
                 (with_next (ptr + 1) p)), Some ptr)
       end.

(** The wrapper of the entry's current session, allocated when the session
    has changed. *)
Definition gatedLocked (ptr : Z) (e : pooledEntry) (s : Session) (p : SessionPool) : SessionPool * Z :=
  match gatedWrap e with
  | Some (w, inner) =>
      if decide (inner = s) then (set_entry ptr e p, w)
      else (set_entry ptr (mkEntry (contextID e) (sessionID e) (gate e) (state e) (session e) (lastUsed e)
              (evictedAt e) (Some (next p, s))) (with_next (next p + 1) p), next p)
  | None =>
      (set_entry ptr (mkEntry (contextID e) (sessionID e) (gate e) (state e) (session e) (lastUsed e)
         (evictedAt e) (Some (next p, s))) (with_next (next p + 1) p), next p)
  end.

Definition touch (now : time) (e : pooledEntry) : pooledEntry :=
  mkEntry (contextID e) (sessionID e) (gate e) (state e) (session e) now (evictedAt e) (gatedWrap e).

(** Closing an entry's session: what [LookupOrCreate] (dead session), [evictForCap]
    and [reapOnce] each do to the entry. *)
Definition evict (now : time) (g : turnGate) (e : pooledEntry) : pooledEntry :=
  mkEntry (contextID e) (sessionID e) g entryEvicted None (lastUsed e) now (gatedWrap e).

Definition evicted_record (now : time) (e : pooledEntry) : PersistedRecord :=
  mkRecord (sessionID e) persistStateEvicted (lastUsed e) now.

(** The top of the loop, under [entry.mu]: a hit's wrapper and session, or
    [None] after closing a dead session. *)
Definition lookup_hit (healthy : Session → bool) (now : time) (ptr : Z) (p : SessionPool)
    : SessionPool * option (Z * Session) :=
  match heap p !! ptr with
  | None => (p, None)
  | Some e =>
      match state e, session e with
      | entryActive, Some s =>
          if healthy s then
            let '(p, w) := gatedLocked ptr (touch now e) s p in (p, Some (w, s))
          else (set_entry ptr (evict now (gate e) e) (close s p), None)
      | _, _ => (p, None)
      end
  end.

(** What the scan of [enforceCap] reads of the entries, each under its own
    lock: the number of active ones and the least recently used one. *)
Definition cap_scan_entry (h : gmap Z pooledEntry) (acc : Z * option (Z * time)) (ptr : Z) : Z * option (Z * time) :=
  match h !! ptr with
  | None => acc
  | Some e =>
      match state e, session e with
      | entryActive, Some _ =>
          let '(active, lru) := acc in
          ((active + 1)%Z,
           match lru with
           | None => Some (ptr, lastUsed e)
           | Some (_, t) => if Before (lastUsed e) t then Some (ptr, lastUsed e) else lru
           end)
      | _, _ => acc
      end
  end.

Definition cap_scan (h : gmap Z pooledEntry) (ptrs : list Z) : Z * option (Z * time) :=
  foldl (cap_scan_entry h) (0%Z, None) ptrs.

Definition evictForCap (now : time) (victim : Z) (p : SessionPool) : SessionPool :=
  match heap p !! victim with
  | None => p
  | Some e =>
      match state e, session e with
      | entryActive, Some s =>
          upsertPersist (contextID e) (evicted_record now e)
            (set_entry victim (evict now (gate e) e) (close s p))
      | _, _ => p
      end
  end.

Inductive pool_error :=
| ErrStopped | ErrAtCapacity (active : Z) | ErrUnknownPolicy (policy : Z) | ErrFactory.

(** [range] is the order in which the map is visited. *)
Definition enforceCap (range : gmap string Z → list (string * Z)) (now : time) (ctx : string)
    (max : Z) (policy : OverloadPolicy) (p : SessionPool) : SessionPool * option pool_error :=
  let snapshot := (filter (λ x, x.1 ≠ ctx) (range (entries p))).*2 in
  let '(active, lru) := cap_scan (heap p) snapshot in
  if (active <? max)%Z then (p, None)
  else if (policy =? OverloadReject)%Z then (p, Some (ErrAtCapacity max))
  else if (policy =? OverloadEvictLRU)%Z then
    match lru with
    | None => (p, None)
    | Some (victim, _) => (evictForCap now victim p, None)
    end
  else (p, Some (ErrUnknownPolicy policy)).

(** What the factory returns: the session and, for one that knows its id at
    construction, that id ([None] for a session with a [sessionIDNotifier]). *)
Definition Factory := string → string → option (Session * option string).

(** The rest of [LookupOrCreate]'s section: create or resume. *)
Definition lookup_create (factory : Factory) (now : time) (ctx : string) (ptr : Z) (p : SessionPool)
    : SessionPool * (Z * Session + pool_error) :=
  match heap p !! ptr with
  | None => (p, inr ErrFactory)
  | Some e =>
      match factory ctx (sessionID e) with
      | None => (p, inr ErrFactory)
      | Some (s, sync) =>
          let e := mkEntry (contextID e) (default (sessionID e) sync) (endEviction (gate e)) entryActive
                     (Some s) now (evictedAt e) (gatedWrap e) in
          let '(p, w) := gatedLocked ptr e s p in
          (if nonempty (sessionID e)
           then upsertPersist ctx (mkRecord (sessionID e) persistStateActive now zero_time) p else p,
           inl (w, s))
      end
  end.

(** [LookupOrCreate]. The loop runs at most twice: the second pass has
    [capChecked] set. [now'] is the clock of a possible cap eviction. *)
Definition LookupOrCreate (factory : Factory) (healthy : Session → bool)
    (range : gmap string Z → list (string * Z)) (now now' : time) (ctx : string) (p : SessionPool)
    : SessionPool * (Z * Session + pool_error) :=
  match lookup_entry ctx p with
  | (p, None) => (p, inr ErrStopped)
  | (p, Some ptr) =>
      match lookup_hit healthy now ptr p with
      | (p, Some r) => (p, inl r)
      | (p, None) =>
          if (0 <? maxActive p)%Z then
            match enforceCap range now' ctx (maxActive p) (overloadPolicy p) p with
            | (p, Some err) => (p, inr err)
            | (p, None) =>
                match lookup_hit healthy now ptr p with
                | (p, Some r) => (p, inl r)
                | (p, None) => lookup_create factory now ctx ptr p
                end
            end
          else lookup_create factory now ctx ptr p
      end
  end.

Definition handleSessionIDKnown (ctx : string) (owner : Session) (sid : string) (p : SessionPool) : SessionPool :=
  if negb (nonempty sid) then p
  else match entries p !! ctx ≫= λ ptr, pair ptr <$> heap p !! ptr with
       | None => p
       | Some (ptr, e) =>
           if decide (session e ≠ Some owner) then p
           else if decide (sessionID e = sid) then p
           else
             upsertPersist ctx (mkRecord sid persistStateActive (lastUsed e) zero_time)
               (set_entry ptr (mkEntry (contextID e) sid (gate e) (state e) (session e) (lastUsed e)
                  (evictedAt e) (gatedWrap e)) p)
       end.

Definition markTurnFinished (now : time) (ptr : Z) (owner : Session) (p : SessionPool) : SessionPool :=
  match heap p !! ptr with
  | None => p
  | Some e =>
      if decide (state e = entryActive ∧ session e = Some owner) then set_entry ptr (touch now e) p else p
  end.

(** [AnyMidTurn] over the snapshot of the map. *)
Definition AnyMidTurn (range : gmap string Z → list (string * Z)) (p : SessionPool) : bool :=
  existsb (λ x, from_option (λ e, inFlight (gate e)) false (heap p !! x.2)) (range (entries p)).
