(* ===== verification/PoolReaper.v ===== *)
(** * The session pool's background work ([internal/wrapper/session_pool.go])

    The reaper's sweep, the bound on resumable mappings, shutdown, and the
    concurrent semantics of the pool: every critical section as a step that any
    goroutine may take at any time. *)
From S2P Require Import Prelude GoBase GoStrings TurnGate SessionPool.
From Stdlib Require Import ZArith Lia.

(** ** The sweep *)

(** One entry of [reapOnce]'s snapshot, under its lock. *)
Definition reap_entry (now : time) (acc : SessionPool * list (string * PersistedRecord) * list string) (ptr : Z)
    : SessionPool * list (string * PersistedRecord) * list string :=
  let '(p, evicted, toDelete) := acc in
  match heap p !! ptr with
  | None => acc
  | Some e =>
      match state e with
      | entryActive =>
          match session e with
          | Some s =>
              if (idleTTL p <? Sub now (lastUsed e))%Z then
                let '(g, ok) := tryBeginEviction (gate e) in
                if negb ok then acc
                else (set_entry ptr (evict now g e) (close s p),
                      evicted ++ [(contextID e, evicted_record now e)], toDelete)
              else acc
          | None => acc
          end
      | entryEvicted =>
          if (evictedTTL p <? Sub now (evictedAt e))%Z then (p, evicted, toDelete ++ [contextID e]) else acc
      end
  end.

(** The deletion of one key of [toDelete], re-checked under the entry's lock. *)
Definition delete_evicted (p : SessionPool) (k : string) : SessionPool :=
  match entries p !! k ≫= λ ptr, heap p !! ptr with
  | Some e => if decide (state e = entryEvicted) then with_entries (delete k (entries p)) p else p
  | None => p
  end.

(** A candidate of [enforceMaxEvicted]: context, entry and eviction time. *)
Definition candidate : Type := string * Z * time.

Definition evicted_candidates (h : gmap Z pooledEntry) (items : list (string * Z)) : list candidate :=
  omap (λ x, match h !! x.2 with
             | Some e => if decide (state e = entryEvicted) then Some (x.1, x.2, evictedAt e) else None
             | None => None
             end) items.

Definition drop_candidate (acc : SessionPool * list string) (c : candidate) : SessionPool * list string :=
  let '(p, deleted) := acc in
  let '(ctx, ptr, _) := c in
  match heap p !! ptr with
  | Some e =>
      if decide (state e = entryEvicted ∧ entries p !! ctx = Some ptr)
      then (with_entries (delete ctx (entries p)) p, deleted ++ [ctx])
      else acc
  | None => acc
  end.

(** [sort] is [sort.Slice] by eviction time. *)
Definition enforceMaxEvicted (range : gmap string Z → list (string * Z))
    (sort : list candidate → list candidate) (p : SessionPool) : SessionPool :=
  if (maxEvicted p <=? 0)%Z then p
  else
    let candidates := evicted_candidates (heap p) (range (entries p)) in
    if (Z.of_nat (length candidates) <=? maxEvicted p)%Z then p
    else
      let toDelete := take (length candidates - Z.to_nat (maxEvicted p)) (sort candidates) in
      let '(p, deleted) := foldl drop_candidate (p, []) toDelete in
      foldl (flip forget) p deleted.

Definition reapOnce (now : time) (range range' : gmap string Z → list (string * Z))
    (sort : list candidate → list candidate) (p : SessionPool) : SessionPool :=
  let '(p, evicted, toDelete) := foldl (reap_entry now) (p, [], []) ((range (entries p)).*2) in
  let p := foldl (λ p x, upsertPersist x.1 x.2 p) p evicted in
  let p := foldl delete_evicted p toDelete in
  let p := foldl (flip forget) p toDelete in
  enforceMaxEvicted range' sort p.

(** ** Shutdown *)

Definition stop_entry (p : SessionPool) (ptr : Z) : SessionPool :=
  match heap p !! ptr with
  | Some e =>
      match session e with
      | Some s =>
          set_entry ptr (mkEntry (contextID e) (sessionID e) (gate e) (state e) None (lastUsed e)
            (evictedAt e) (gatedWrap e)) (close s p)
      | None => p
      end
  | None => p
  end.

Definition mark_stopped (p : SessionPool) : SessionPool :=
  mkPool (idleTTL p) (evictedTTL p) (heap p) (entries p) (next p) true (persist p) (persistState p)
    (saves p) (maxActive p) (overloadPolicy p) (maxEvicted p) (queueDepth p) (forgotten p) (closed p).

Definition Stop (range : gmap string Z → list (string * Z)) (p : SessionPool) : SessionPool :=
  if stopped p then p
  else
    let es := range (entries p) in
    foldl stop_entry (with_entries ∅ (mark_stopped p)) es.*2.

(** ** Every interleaving

    The critical sections are steps that any goroutine may take at any time, with
    arbitrary arguments, which covers whatever addresses and times the goroutines
    have read before: in particular a lookup goes on with the entry it picked up,
    also when the reaper has taken that entry out of the map meanwhile. *)
Definition Created := gset Session.

(** The sections that neither create a session nor belong to [Stop]. *)
Inductive section : SessionPool → SessionPool → Prop :=
| sec_lookup_entry p ctx : section p (fst (lookup_entry ctx p))
| sec_lookup_hit p healthy now ptr : section p (fst (lookup_hit healthy now ptr p))
| sec_create_failed p p1 p2 healthy factory now ctx ptr err :
    lookup_hit healthy now ptr p = (p1, None) → lookup_create factory now ctx ptr p1 = (p2, inr err) →
    section p p2
| sec_evict p now victim : section p (evictForCap now victim p)
| sec_known p ctx owner sid : section p (handleSessionIDKnown ctx owner sid p)
| sec_finished p now ptr owner : section p (markTurnFinished now ptr owner p)
| sec_reap p now ptr ev del : section p (fst (fst (reap_entry now (p, ev, del) ptr)))
| sec_delete p k : section p (delete_evicted p k)
| sec_drop p del cand : section p (fst (drop_candidate (p, del) cand))
| sec_forget p k : section p (forget k p)
| sec_save p ctx rec : section p (upsertPersist ctx rec p)
| sec_gate p ptr e g :
    (** a turn acquires, gives up or releases the entry's gate *)
    heap p !! ptr = Some e →
    ((∃ d n t, g = fst (acquire d n t (gate e))) ∨ (∃ t, g = fst (acquire_cancel t (gate e))) ∨
     g = fst (release (gate e))) →
    section p (set_entry ptr (mkEntry (contextID e) (sessionID e) g (state e) (session e) (lastUsed e)
      (evictedAt e) (gatedWrap e)) p)
| sec_SetCap p max policy : section p (SetCap max policy p)
| sec_SetMaxEvicted p max : section p (SetMaxEvicted max p)
| sec_SetQueueDepth p d : section p (SetQueueDepth d p).

(** The sections with the set of sessions the factory has returned. Creating a
    session is one step with the check that precedes it, since [entry.mu] is held
    across both. *)
Inductive step : Created * SessionPool → Created * SessionPool → Prop :=
| step_section c p p' : section p p' → step (c, p) (c, p')
| step_create c p p1 p2 healthy factory now ptr e s w :
    heap p !! ptr = Some e → lookup_hit healthy now ptr p = (p1, None) →
    s ∉ c → lookup_create factory now (contextID e) ptr p1 = (p2, inl (w, s)) →
    step (c, p) ({[s]} ∪ c, p2)
| step_stopped c p : step (c, p) (c, with_entries ∅ (mark_stopped p))
| step_stop_entry c p ptr : step (c, p) (c, stop_entry p ptr).

(** The entries the map leads to, by their addresses. *)
Definition pointers (p : SessionPool) : gset Z := list_to_set (map_to_list (entries p)).*2.

(** An entry is listed while the map leads to it under its context. *)
Definition listed (p : SessionPool) (ptr : Z) (e : pooledEntry) : Prop := entries p !! contextID e = Some ptr.
#[export] Instance listed_dec p ptr e : Decision (listed p ptr e) := decide (entries p !! contextID e = Some ptr).

(** The same steps with two accounts the code does not keep: [late] are the
    sessions that a lookup created on an entry which was not listed any more, and
    [doomed] the entries of the snapshot of [Stop] it has yet to visit. *)
Record World := mkWorld { made : Created; late : gset Session; doomed : gset Z; pool : SessionPool }.

Inductive wstep : World → World → Prop :=
| w_section c l d p p' : section p p' → wstep (mkWorld c l d p) (mkWorld c l d p')
| w_create c l l' d p p1 p2 healthy factory now ptr e s w :
    heap p !! ptr = Some e → lookup_hit healthy now ptr p = (p1, None) →
    s ∉ c → lookup_create factory now (contextID e) ptr p1 = (p2, inl (w, s)) →
    l' = (if decide (listed p ptr e) then l else {[s]} ∪ l) →
    wstep (mkWorld c l d p) (mkWorld ({[s]} ∪ c) l' d p2)
| w_stopped c l d p :
    stopped p = false →
    wstep (mkWorld c l d p) (mkWorld c l (d ∪ pointers p) (with_entries ∅ (mark_stopped p)))
| w_stop_entry c l d p ptr :
    ptr ∈ d → wstep (mkWorld c l d p) (mkWorld c l (d ∖ {[ptr]}) (stop_entry p ptr)).

Record entry_ok (e : pooledEntry) : Prop := {
  ok_evicted : state e = entryEvicted → session e = None;
  ok_gate : evicting (gate e) = true → state e = entryEvicted;
}.

Record wf (c : Created) (p : SessionPool) : Prop := {
  wf_entry ptr e : heap p !! ptr = Some e → entry_ok e ∧ (ptr < next p)%Z;
  wf_map ctx ptr : entries p !! ctx = Some ptr → ∃ e, heap p !! ptr = Some e ∧ contextID e = ctx;
  wf_live s : s ∈ c ∧ s ∉ closed p ↔ ∃ ptr e, heap p !! ptr = Some e ∧ session e = Some s;
  wf_owner s ptr ptr' e e' : heap p !! ptr = Some e → heap p !! ptr' = Some e' →
    session e = Some s → session e' = Some s → ptr = ptr';
  wf_closed : NoDup (closed p);
  wf_created s : s ∈ closed p → s ∈ c;
}.

(** The part of the pool the invariant is about. *)
Definition core (p : SessionPool) := (heap p, entries p, next p, closed p).

Lemma wf_core c p p' : core p = core p' → wf c p → wf c p'.
Proof.
  unfold core. intros [= Eh Ee En Ec] [H1 H2 H3 H4 H5 H6].
  rewrite Eh, Ee, En, Ec in *. by split.
Qed.

Lemma core_upsert ctx rec p : core (upsertPersist ctx rec p) = core p.
Proof. unfold upsertPersist. by destruct (negb _). Qed.
Lemma core_remove ctx p : core (removePersist ctx p) = core p.
Proof. unfold removePersist. by destruct (negb _). Qed.
Lemma core_forget ctx p : core (forget ctx p) = core p.
Proof. apply (core_remove ctx p). Qed.

Lemma wf_set_next n c p : (next p ≤ n)%Z → wf c p → wf c (with_next n p).
Proof.
  intros Hn [H1 H2 H3 H4 H5 H6]. split; cbn; try done.
  intros ptr e [? ?]%H1. split; [done | lia].
Qed.

(** An entry changes, its session does not. *)
Lemma pool_wf_update c p ptr e e' :
  wf c p → heap p !! ptr = Some e → session e' = session e → contextID e' = contextID e →
  entry_ok e' → wf c (set_entry ptr e' p).
Proof.
  intros [H1 H2 H3 H4 H5 H6] He Es Ec Hok. split; cbn; try done.
  - intros q x [[<- <-] | [? Hx]]%lookup_insert_Some; [| by apply H1].
    split; [done | by eapply H1].
  - intros ctx q Hq. destruct (H2 ctx q Hq) as (x & Hx & Hc). destruct (decide (ptr = q)) as [<- | Hne].
    + exists e'. rewrite lookup_insert_eq. split; [done |]. congruence.
    + exists x. by rewrite lookup_insert_ne.
  - intros s. rewrite H3. split; intros (q & x & Hx & Hs).
    + destruct (decide (ptr = q)) as [<- | Hne].
      * exists ptr, e'. rewrite lookup_insert_eq. split; [done |]. congruence.
      * exists q, x. by rewrite lookup_insert_ne.
    + apply lookup_insert_Some in Hx as [[<- <-] | [? Hx]]; [exists ptr, e | exists q, x]; split; congruence.
  - intros s q q' x x' [[<- <-] | [? Hx]]%lookup_insert_Some [[<- <-] | [? Hx']]%lookup_insert_Some Hs Hs';
      try done; [rewrite Es in Hs | rewrite Es in Hs' |]; by eapply H4.
Qed.

(** An entry's session is closed. *)
Lemma wf_close c p ptr e e' s :
  wf c p → heap p !! ptr = Some e → session e = Some s → session e' = None → contextID e' = contextID e →
  entry_ok e' → wf c (set_entry ptr e' (close s p)).
Proof.
  intros [H1 H2 H3 H4 H5 H6] He Es Es' Ec Hok.
  assert (s ∈ c ∧ s ∉ closed p) as [Hc Hn] by (apply H3; eauto).
  split; cbn.
  - intros q x [[<- <-] | [? Hx]]%lookup_insert_Some; [| by apply H1].
    split; [done | by eapply H1].
  - intros ctx q Hq. destruct (H2 ctx q Hq) as (x & Hx & Hcx). destruct (decide (ptr = q)) as [<- | Hne].
    + exists e'. rewrite lookup_insert_eq. split; [done |]. congruence.
    + exists x. by rewrite lookup_insert_ne.
  - intros s'. rewrite not_elem_of_cons. split.
    + intros (Hs1 & Hs2 & Hs3). destruct (proj1 (H3 s') (conj Hs1 Hs3)) as (q & x & Hx & Hs).
      exists q, x. rewrite lookup_insert_ne; [done |]. intros <-. congruence.
    + intros (q & x & [[<- <-] | [Hne Hx]]%lookup_insert_Some & Hs); [congruence |].
      destruct (proj2 (H3 s')) as [Hs1 Hs2]; [eauto |]. split_and!; [done | | done].
      intros ->. apply Hne. by eapply H4.
  - intros s' q q' x x' [[<- <-] | [? Hx]]%lookup_insert_Some [[<- <-] | [? Hx']]%lookup_insert_Some Hs Hs';
      try congruence. by eapply H4.
  - by constructor.
  - intros s' [-> | ?]%elem_of_cons; auto.
Qed.

(** An entry without a session gets a new one. *)
Lemma wf_open c p ptr e e' s :
  wf c p → heap p !! ptr = Some e → session e = None → s ∉ c → session e' = Some s →
  contextID e' = contextID e → entry_ok e' → wf ({[s]} ∪ c) (set_entry ptr e' p).
Proof.
  intros [H1 H2 H3 H4 H5 H6] He Es Hs Es' Ec Hok. split; cbn.
  - intros q x [[<- <-] | [? Hx]]%lookup_insert_Some; [| by apply H1].
    split; [done | by eapply H1].
  - intros ctx q Hq. destruct (H2 ctx q Hq) as (x & Hx & Hcx). destruct (decide (ptr = q)) as [<- | Hne].
    + exists e'. rewrite lookup_insert_eq. split; [done |]. congruence.
    + exists x. by rewrite lookup_insert_ne.
  - intros s'. rewrite elem_of_union, elem_of_singleton. split.
    + intros [[-> | Hs1] Hs2]; [exists ptr, e'; by rewrite lookup_insert_eq |].
      destruct (proj1 (H3 s') (conj Hs1 Hs2)) as (q & x & Hx & Hsx).
      exists q, x. rewrite lookup_insert_ne; [done |]. intros <-. congruence.
    + intros (q & x & [[<- <-] | [Hne Hx]]%lookup_insert_Some & Hsx).
      * assert (s' = s) as -> by congruence. split; [by left |]. intros ?. by apply Hs, H6.
      * destruct (proj2 (H3 s')); [eauto |]. auto.
  - intros s' q q' x x' [[<- <-] | [? Hx]]%lookup_insert_Some [[<- <-] | [? Hx']]%lookup_insert_Some Hsx Hsx';
      try done; [| | by eapply H4]; exfalso; apply Hs; assert (s' = s) as -> by congruence;
      eapply H3; eauto.
  - done.
  - intros s' ?. apply elem_of_union. auto.
Qed.

Definition with_wrap (g : option (Z * Session)) (e : pooledEntry) : pooledEntry :=
  mkEntry (contextID e) (sessionID e) (gate e) (state e) (session e) (lastUsed e) (evictedAt e) g.

Lemma gatedLocked_shape ptr e s p :
  ∃ n g, (next p ≤ n)%Z ∧ fst (gatedLocked ptr e s p) = set_entry ptr (with_wrap g e) (with_next n p).
Proof.
  unfold gatedLocked. destruct (gatedWrap e) as [[w inner] |] eqn:Eg; [case_decide |].
  - exists (next p), (gatedWrap e). split; [lia |]. destruct e, p; cbn in *; done.
  - exists (next p + 1)%Z, (Some (next p, s)). split; [lia | done].
  - exists (next p + 1)%Z, (Some (next p, s)). split; [lia | done].
Qed.

Lemma entry_ok_wrap g e : entry_ok e → entry_ok (with_wrap g e).
Proof. by destruct 1. Qed.

Lemma entry_ok_evict now g e : entry_ok (evict now g e).
Proof. by split. Qed.

Lemma wf_lookup_entry c ctx p : wf c p → wf c (fst (lookup_entry ctx p)).
Proof.
  intros Hwf. unfold lookup_entry. destruct (stopped p); [done |].
  destruct (entries p !! ctx) eqn:Ee; [done |]. cbn. destruct Hwf as [H1 H2 H3 H4 H5 H6].
  assert (heap p !! next p = None) as Hn.
  { destruct (heap p !! next p) eqn:E; [| done]. apply H1 in E as [_ ?]. lia. }
  split; cbn; try done.
  - intros q x [[<- <-] | [? Hx]]%lookup_insert_Some.
    + split; [by split | lia].
    + apply H1 in Hx as [? ?]. split; [done | lia].
  - intros ctx' q [[<- <-] | [? Hq]]%lookup_insert_Some.
    + eexists. by rewrite lookup_insert_eq.
    + destruct (H2 ctx' q Hq) as (x & Hx & Hc). exists x. rewrite lookup_insert_ne by congruence. done.
  - intros s. rewrite H3. split; intros (q & x & Hx & Hs).
    + exists q, x. rewrite lookup_insert_ne by congruence. done.
    + apply lookup_insert_Some in Hx as [[<- <-] | [? Hx]]; [done | eauto].
  - intros s q q' x x' [[<- <-] | [? Hx]]%lookup_insert_Some [[<- <-] | [? Hx']]%lookup_insert_Some Hs Hs';
      try done. by eapply H4.
Qed.

Lemma wf_lookup_hit c healthy now ptr p : wf c p → wf c (fst (lookup_hit healthy now ptr p)).
Proof.
  intros Hwf. unfold lookup_hit. destruct (heap p !! ptr) as [e |] eqn:He; [| done].
  destruct (state e) eqn:Es; [| done]. destruct (session e) as [s |] eqn:Ess; [| done].
  destruct (wf_entry c p Hwf ptr e He) as [[Hok1 Hok2] _].
  destruct (healthy s).
  - destruct (gatedLocked_shape ptr (touch now e) s p) as (n & g & Hn & E).
    destruct (gatedLocked _ _ _ _) as [p' w]. cbn in E |- *. subst p'.
    apply (pool_wf_update _ _ _ e); try done. by apply wf_set_next.
  - by apply (wf_close _ _ _ e).
Qed.

(** After the loop of [LookupOrCreate] falls through, the entry has no session. *)
Lemma lookup_hit_None c healthy now ptr p p1 :
  wf c p → lookup_hit healthy now ptr p = (p1, None) →
  ∀ e1, heap p1 !! ptr = Some e1 → session e1 = None ∧
    ∃ e, heap p !! ptr = Some e ∧ contextID e1 = contextID e ∧ sessionID e1 = sessionID e ∧
      gate e1 = gate e ∧ state e1 = (if session e is Some _ then entryEvicted else state e).
Proof.
  intros Hwf E e1 He1. unfold lookup_hit in E. destruct (heap p !! ptr) as [e |] eqn:He;
    [| simplify_eq; congruence].
  destruct (wf_entry c p Hwf ptr e He) as [[Hok1 Hok2] _].
  destruct (state e) eqn:Es.
  - destruct (session e) as [s |] eqn:Ess.
    + destruct (healthy s); [by destruct (gatedLocked _ _ _ _) |].
      injection E as <-. cbn in He1. rewrite lookup_insert_eq in He1. simplify_eq. split; [done |].
      exists e. by rewrite Ess.
    + injection E as <-. simplify_eq. split; [done |]. exists e. by rewrite Ess, Es.
  - injection E as <-. simplify_eq. split; [by apply Hok1 |]. exists e. by rewrite Hok1, Es.
Qed.

Lemma wf_lookup_create c healthy factory now ptr e s w p p1 p2 :
  wf c p → heap p !! ptr = Some e → lookup_hit healthy now ptr p = (p1, None) → s ∉ c →
  lookup_create factory now (contextID e) ptr p1 = (p2, inl (w, s)) → wf ({[s]} ∪ c) p2.
Proof.
  intros Hwf He Eh Hs E. pose proof (wf_lookup_hit c healthy now ptr p Hwf) as Hwf1.
  rewrite Eh in Hwf1. cbn in Hwf1. unfold lookup_create in E.
  destruct (heap p1 !! ptr) as [e1 |] eqn:He1; [| done].
  destruct (lookup_hit_None c healthy now ptr p p1 Hwf Eh e1 He1) as (Hn & _).
  destruct (factory _ _) as [[s' sync] |]; [| done].
  set (e2 := mkEntry _ _ _ _ _ _ _ _) in E.
  destruct (gatedLocked_shape ptr e2 s' p1) as (n & g & Hle & Eg).
  destruct (gatedLocked _ _ _ _) as [p' w']. cbn in Eg. injection E as <- <- <-. subst p'.
  assert (wf ({[s']} ∪ c) (set_entry ptr (with_wrap g e2) (with_next n p1))) as Hwf2.
  { apply (wf_open _ _ _ e1); try done. by apply wf_set_next. }
  case_match; [| done]. by eapply wf_core; [symmetry; apply core_upsert |].
Qed.

Lemma wf_evictForCap c now victim p : wf c p → wf c (evictForCap now victim p).
Proof.
  intros Hwf. unfold evictForCap. destruct (heap p !! victim) as [e |] eqn:He; [| done].
  destruct (state e) eqn:Es; [| done]. destruct (session e) as [s |] eqn:Ess; [| done].
  eapply wf_core; [symmetry; apply core_upsert |]. by apply (wf_close _ _ _ e).
Qed.

Lemma wf_known c ctx owner sid p : wf c p → wf c (handleSessionIDKnown ctx owner sid p).
Proof.
  intros Hwf. unfold handleSessionIDKnown. destruct (negb _); [done |].
  destruct (entries p !! ctx) as [ptr |]; [cbn | done].
  destruct (heap p !! ptr) as [e |] eqn:He; cbn; [| done].
  case_decide; [done |]. case_decide; [done |].
  eapply wf_core; [symmetry; apply core_upsert |]. apply (pool_wf_update _ _ _ e); try done.
  destruct (wf_entry c p Hwf ptr e He) as [[? ?] _]. by split.
Qed.

Lemma wf_finished c now ptr owner p : wf c p → wf c (markTurnFinished now ptr owner p).
Proof.
  intros Hwf. unfold markTurnFinished. destruct (heap p !! ptr) as [e |] eqn:He; [| done].
  case_decide; [| done]. apply (pool_wf_update _ _ _ e); try done.
  destruct (wf_entry c p Hwf ptr e He) as [[? ?] _]. by split.
Qed.

Lemma wf_reap c now ptr p ev del : wf c p → wf c (fst (fst (reap_entry now (p, ev, del) ptr))).
Proof.
  intros Hwf. unfold reap_entry. destruct (heap p !! ptr) as [e |] eqn:He; [| done].
  destruct (state e) eqn:Es; [| by case_match].
  destruct (session e) as [s |] eqn:Ess; [| done]. case_match; [| done].
  destruct (tryBeginEviction (gate e)) as [g ok]. destruct ok; [| done].
  by apply (wf_close _ _ _ e).
Qed.

Lemma wf_entries c m p : (∀ k v, m !! k = Some v → entries p !! k = Some v) →
  wf c p → wf c (with_entries m p).
Proof. intros Hm [H1 H2 H3 H4 H5 H6]. split; cbn; try done. eauto. Qed.

Lemma wf_delete_key c k p : wf c p → wf c (with_entries (delete k (entries p)) p).
Proof. apply wf_entries. by intros x v [_ ?]%lookup_delete_Some. Qed.

Lemma wf_stop_entry c ptr p : wf c p → wf c (stop_entry p ptr).
Proof.
  intros Hwf. unfold stop_entry. destruct (heap p !! ptr) as [e |] eqn:He; [| done].
  destruct (session e) as [s |] eqn:Ess; [| done]. apply (wf_close _ _ _ e); try done.
  destruct (wf_entry c p Hwf ptr e He) as [[Hok1 Hok2] _]. by split.
Qed.

Lemma gate_ops_evicting g0 g :
  ((∃ d n t, g = fst (acquire d n t g0)) ∨ (∃ t, g = fst (acquire_cancel t g0)) ∨ g = fst (release g0)) →
  evicting g = evicting g0.
Proof.
  intros [(d & n & t & ->) | [[t ->] | ->]].
  - unfold acquire. by repeat case_match.
  - unfold acquire_cancel, release. by repeat case_match.
  - unfold release. by repeat case_match.
Qed.

Lemma wf_section c p p' : wf c p → section p p' → wf c p'.
Proof.
  intros Hwf Hstep. destruct Hstep.
  - by apply wf_lookup_entry.
  - by apply wf_lookup_hit.
  - match goal with H : lookup_hit ?h ?n ?q ?x = _ |- _ =>
      pose proof (wf_lookup_hit c h n q x Hwf) as Hwf1; rewrite H in Hwf1 end.
    match goal with H : lookup_create _ _ _ _ _ = _ |- _ => unfold lookup_create in H end.
    repeat case_match; by simplify_eq.
  - by apply wf_evictForCap.
  - by apply wf_known.
  - by apply wf_finished.
  - by apply wf_reap.
  - unfold delete_evicted. repeat case_match; try done. by apply wf_delete_key.
  - unfold drop_candidate. repeat case_match; try done. by apply wf_delete_key.
  - eapply wf_core; [symmetry; apply core_forget | done].
  - eapply wf_core; [symmetry; apply core_upsert | done].
  - destruct (wf_entry c p Hwf ptr e ltac:(done)) as [[Hok1 Hok2] _].
    apply (pool_wf_update _ _ _ e); try done. split; [done |]. cbn. by rewrite (gate_ops_evicting (gate e)).
  - by eapply wf_core; [| exact Hwf].
  - by eapply wf_core; [| exact Hwf].
  - by eapply wf_core; [| exact Hwf].
Qed.

Lemma pool_wf_step x y : wf (fst x) (snd x) → step x y → wf (fst y) (snd y).
Proof.
  intros Hwf Hstep. destruct Hstep; cbn [fst snd] in *.
  - by eapply wf_section.
  - by eapply wf_lookup_create.
  - apply (wf_entries c ∅ (mark_stopped p)); [done |]. by eapply wf_core; [| exact Hwf].
  - by apply wf_stop_entry.
Qed.

Lemma wstep_step w w' : wstep w w' → step (made w, pool w) (made w', pool w').
Proof. destruct 1; cbn; [by apply step_section | by eapply step_create | apply step_stopped | apply step_stop_entry]. Qed.

Lemma wf_rehydrate_record now c p x : wf c p → wf c (rehydrate_record now p x).
Proof.
  intros Hwf. destruct x as [ctx rec]. unfold rehydrate_record. destruct (negb _); [done |].
  set (e := mkEntry _ _ _ _ _ _ _ _). set (q := set_entry _ _ _).
  eapply wf_core; [by symmetry |].
  destruct Hwf as [H1 H2 H3 H4 H5 H6].
  assert (heap p !! next p = None) as Hn.
  { destruct (heap p !! next p) eqn:E; [| done]. apply H1 in E as [_ ?]. lia. }
  split; cbn; try done.
  - intros r x [[<- <-] | [? Hx]]%lookup_insert_Some; [split; [done | lia] |].
    apply H1 in Hx as [? ?]. split; [done | lia].
  - intros ctx' r [[<- <-] | [? Hr]]%lookup_insert_Some.
    + exists e. by rewrite lookup_insert_eq.
    + destruct (H2 ctx' r Hr) as (x & Hx & Hc). exists x. rewrite lookup_insert_ne by congruence. done.
  - intros s. rewrite H3. split; intros (r & x & Hx & Hs).
    + exists r, x. rewrite lookup_insert_ne by congruence. done.
    + apply lookup_insert_Some in Hx as [[<- <-] | [? Hx]]; [done | eauto].
  - intros s r r' x x' [[<- <-] | [? Hx]]%lookup_insert_Some [[<- <-] | [? Hx']]%lookup_insert_Some Hs Hs';
      try done. by eapply H4.
Qed.

Lemma pool_wf_new now idle ev loaded : wf ∅ (NewSessionPoolWithPersistence now idle ev loaded).
Proof.
  assert (∀ b, wf ∅ (newPool idle ev b)) as Hnew.
  { split; cbn; try done.
    - intros s. split; [set_solver |]. by intros (q & e & He & _).
    - apply NoDup_nil_2.
    - set_solver. }
  unfold NewSessionPoolWithPersistence. destruct loaded as [[records |] |]; try done.
  unfold rehydrateLocked. generalize (Hnew true). generalize (newPool idle ev true).
  induction records as [| x records IH]; intros p Hp; [done |]. cbn. apply IH. by apply wf_rehydrate_record.
Qed.

(** ** What the map leads to *)

(** A session held after a section was held before by the same entry, which is
    listed still if it was. *)
Definition keeps (p p' : SessionPool) : Prop :=
  ∀ ptr e' s, heap p' !! ptr = Some e' → session e' = Some s →
    ∃ e, heap p !! ptr = Some e ∧ session e = Some s ∧ (listed p ptr e → listed p' ptr e').

Lemma keeps_same p p' : heap p' = heap p → entries p' = entries p → keeps p p'.
Proof. intros Hh He ptr e' s H1 H2. unfold listed. rewrite Hh in H1. rewrite He. by exists e'. Qed.

Lemma keeps_core p p' q : keeps p p' → core q = core p' → keeps p q.
Proof.
  unfold core. intros Hk [= Eh Ee _ _] ptr e' s H1 H2. rewrite Eh in H1. destruct (Hk ptr e' s H1 H2) as (e & He & Hs & Hl).
  exists e. split_and!; [done.. |]. unfold listed in *. by rewrite Ee.
Qed.

Lemma keeps_set p q ptr e e' :
  heap q = <[ptr := e']> (heap p) → entries q = entries p → heap p !! ptr = Some e → contextID e' = contextID e →
  session e' = session e ∨ session e' = None → keeps p q.
Proof.
  intros Hh He Hp Hc Hs r x s. unfold listed. rewrite Hh, He. intros [[<- <-] | [? Hx]]%lookup_insert_Some Hx2.
  - exists e. rewrite Hc. destruct Hs; split_and!; congruence.
  - by exists x.
Qed.

Lemma keeps_delete c p k ptr e :
  wf c p → entries p !! k = Some ptr → heap p !! ptr = Some e → state e = entryEvicted →
  keeps p (with_entries (delete k (entries p)) p).
Proof.
  intros Hwf Hk He Hst r x s Hx Hs. exists x. split_and!; [done.. |]. unfold listed. cbn. intros Hl.
  cbn in Hx. rewrite lookup_delete_ne; [done |]. intros ->. assert (x = e) as -> by congruence.
  destruct (wf_entry c p Hwf ptr e He) as [[Hok _] _]. rewrite (Hok Hst) in Hs. done.
Qed.

Lemma keeps_lookup_hit healthy now ptr p : keeps p (fst (lookup_hit healthy now ptr p)).
Proof.
  unfold lookup_hit. destruct (heap p !! ptr) as [e |] eqn:He; [| by apply keeps_same].
  destruct (state e); [| by apply keeps_same]. destruct (session e) as [s |] eqn:Es; [| by apply keeps_same].
  destruct (healthy s).
  - destruct (gatedLocked_shape ptr (touch now e) s p) as (n & g & _ & E).
    destruct (gatedLocked _ _ _ _) as [p' w]. cbn in E |- *. subst p'.
    apply (keeps_set _ _ ptr e (with_wrap g (touch now e))); try done. by left.
  - eapply (keeps_set _ _ ptr e); [done.. | by right].
Qed.

Lemma section_keeps c p p' : wf c p → section p p' → keeps p p'.
Proof.
  intros Hwf Hsec. destruct Hsec.
  - unfold lookup_entry. destruct (stopped p); [by apply keeps_same |].
    destruct (entries p !! ctx) eqn:Ee; [by apply keeps_same |]. cbn.
    intros r x s Hx Hs. cbn in Hx. apply lookup_insert_Some in Hx as [[<- <-] | [? Hx]]; [done |].
    exists x. split_and!; [done.. |]. unfold listed. cbn. intros Hl.
    rewrite lookup_insert_ne; [done |]. intros ->. by rewrite Ee in Hl.
  - apply keeps_lookup_hit.
  - match goal with H : lookup_hit ?h ?n ?q ?x = _ |- _ =>
      pose proof (keeps_lookup_hit h n q x) as Hk; rewrite H in Hk end.
    match goal with H : lookup_create _ _ _ _ _ = _ |- _ => unfold lookup_create in H end.
    repeat case_match; by simplify_eq.
  - unfold evictForCap. destruct (heap p !! victim) as [e |] eqn:He; [| by apply keeps_same].
    destruct (state e); [| by apply keeps_same]. destruct (session e) as [s |] eqn:Es; [| by apply keeps_same].
    eapply keeps_core; [| apply core_upsert]. eapply (keeps_set _ _ victim e); [done.. | by right].
  - unfold handleSessionIDKnown. destruct (negb _); [by apply keeps_same |].
    destruct (entries p !! ctx) as [ptr |]; [cbn | by apply keeps_same].
    destruct (heap p !! ptr) as [e |] eqn:He; cbn; [| by apply keeps_same].
    case_decide; [by apply keeps_same |]. case_decide; [by apply keeps_same |].
    eapply keeps_core; [| apply core_upsert]. eapply (keeps_set _ _ ptr e); [done.. | by left].
  - unfold markTurnFinished. destruct (heap p !! ptr) as [e |] eqn:He; [| by apply keeps_same].
    case_decide; [| by apply keeps_same]. eapply (keeps_set _ _ ptr e); [done.. | by left].
  - unfold reap_entry. destruct (heap p !! ptr) as [e |] eqn:He; [| by apply keeps_same].
    destruct (state e); [| case_match; by apply keeps_same].
    destruct (session e) as [s |] eqn:Es; [| by apply keeps_same]. case_match; [| by apply keeps_same].
    destruct (tryBeginEviction (gate e)) as [g ok]. destruct ok; [| by apply keeps_same].
    eapply (keeps_set _ _ ptr e); [done.. | by right].
  - unfold delete_evicted. destruct (entries p !! k) as [ptr |] eqn:Ek; [cbn | by apply keeps_same].
    destruct (heap p !! ptr) as [e |] eqn:He; cbn; [| by apply keeps_same].
    case_decide; [| by apply keeps_same]. by eapply keeps_delete.
  - destruct cand as [[ctx ptr] t]. cbn. destruct (heap p !! ptr) as [e |] eqn:He; [| by apply keeps_same].
    case_decide as Hd; [| by apply keeps_same]. destruct Hd. by eapply keeps_delete.
  - eapply keeps_core; [by apply (keeps_same p p) | apply core_forget].
  - eapply keeps_core; [by apply (keeps_same p p) | apply core_upsert].
  - eapply (keeps_set _ _ ptr e); [done.. | by left].
  - by apply keeps_same.
  - by apply keeps_same.
  - by apply keeps_same.
Qed.

(** Nothing is listed once the pool has been stopped. *)
Definition stopped_empty (p : SessionPool) : Prop := stopped p = true → entries p = ∅.

Lemma stopped_empty_same p p' : stopped p' = stopped p → entries p' = entries p → stopped_empty p → stopped_empty p'.
Proof. unfold stopped_empty. by intros -> ->. Qed.

Lemma upsert_shape ctx rec p : stopped (upsertPersist ctx rec p) = stopped p ∧ entries (upsertPersist ctx rec p) = entries p.
Proof. unfold upsertPersist. by destruct (negb _). Qed.
Lemma remove_shape ctx p : stopped (removePersist ctx p) = stopped p ∧ entries (removePersist ctx p) = entries p.
Proof. unfold removePersist. by destruct (negb _). Qed.

Lemma lookup_hit_shape healthy now ptr p :
  stopped (fst (lookup_hit healthy now ptr p)) = stopped p ∧ entries (fst (lookup_hit healthy now ptr p)) = entries p.
Proof.
  unfold lookup_hit. destruct (heap p !! ptr) as [e |]; [| done]. destruct (state e); [| done].
  destruct (session e) as [s |]; [| done]. destruct (healthy s); [| done].
  destruct (gatedLocked_shape ptr (touch now e) s p) as (n & g & _ & E).
  destruct (gatedLocked _ _ _ _) as [p' w]. cbn in E |- *. by subst p'.
Qed.

Lemma lookup_create_shape factory now ctx ptr p :
  stopped (fst (lookup_create factory now ctx ptr p)) = stopped p ∧
  entries (fst (lookup_create factory now ctx ptr p)) = entries p.
Proof.
  unfold lookup_create. destruct (heap p !! ptr) as [e |]; [| done]. destruct (factory _ _) as [[s sync] |]; [| done].
  set (e2 := mkEntry _ _ _ _ _ _ _ _). destruct (gatedLocked_shape ptr e2 s p) as (n & g & _ & E).
  destruct (gatedLocked _ _ _ _) as [p' w]. cbn in E. subst p'. cbn [fst]. case_match; [| done].
  split; apply (upsert_shape ctx _ (set_entry ptr (with_wrap g e2) (with_next n p))).
Qed.

Lemma lookup_create_heap factory now ctx ptr p p' w s :
  lookup_create factory now ctx ptr p = (p', inl (w, s)) →
  ∃ e e', heap p !! ptr = Some e ∧ session e' = Some s ∧ contextID e' = contextID e ∧ heap p' = <[ptr := e']> (heap p).
Proof.
  unfold lookup_create. destruct (heap p !! ptr) as [e |] eqn:He; [| done].
  destruct (factory _ _) as [[s' sync] |]; [| done].
  set (e2 := mkEntry _ _ _ _ _ _ _ _). destruct (gatedLocked_shape ptr e2 s' p) as (n & g & _ & E).
  destruct (gatedLocked _ _ _ _) as [q w']. cbn in E. subst q. intros [= <- <- <-].
  exists e, (with_wrap g e2). split_and!; [done.. |]. case_match; [| done].
  apply (f_equal (λ x, fst (fst (fst x))) (core_upsert ctx _ (set_entry ptr (with_wrap g e2) (with_next n p)))).
Qed.

Lemma section_stopped p p' : section p p' → stopped_empty p → stopped_empty p'.
Proof.
  intros Hsec Hp. destruct Hsec.
  - unfold lookup_entry. destruct (stopped p) eqn:E; [done |]. destruct (entries p !! ctx); [done |].
    intros Hs. cbn in Hs. congruence.
  - destruct (lookup_hit_shape healthy now ptr p). by eapply stopped_empty_same.
  - match goal with H : lookup_hit ?h ?n ?q ?x = _ |- _ =>
      destruct (lookup_hit_shape h n q x) as [Hs1 He1]; rewrite H in Hs1, He1 end.
    match goal with H : lookup_create ?f ?n ?c ?q ?x = _ |- _ =>
      destruct (lookup_create_shape f n c q x) as [Hs2 He2]; rewrite H in Hs2, He2 end.
    cbn in *. eapply stopped_empty_same; [| | exact Hp]; congruence.
  - unfold evictForCap. repeat case_match; try done.
    eapply stopped_empty_same; [apply upsert_shape | apply upsert_shape | done].
  - unfold handleSessionIDKnown. repeat case_match; try done.
    eapply stopped_empty_same; [apply upsert_shape | apply upsert_shape | done].
  - unfold markTurnFinished. by repeat case_match.
  - unfold reap_entry. by repeat case_match.
  - unfold delete_evicted. repeat case_match; try done. intros Hs. cbn in *. by rewrite (Hp Hs), delete_empty.
  - unfold drop_candidate. repeat case_match; try done. intros Hs. cbn in *. by rewrite (Hp Hs), delete_empty.
  - eapply stopped_empty_same; [apply (remove_shape k p) | apply (remove_shape k p) | done].
  - eapply stopped_empty_same; [apply upsert_shape | apply upsert_shape | done].
  - done.
  - done.
  - done.
  - done.
Qed.

Lemma section_stopped_eq p p' : section p p' → stopped p' = stopped p.
Proof.
  intros Hsec. destruct Hsec.
  - unfold lookup_entry. by repeat case_match.
  - apply lookup_hit_shape.
  - match goal with H : lookup_hit ?h ?n ?q ?x = _ |- _ =>
      destruct (lookup_hit_shape h n q x) as [Hs1 _]; rewrite H in Hs1 end.
    match goal with H : lookup_create ?f ?n ?c ?q ?x = _ |- _ =>
      destruct (lookup_create_shape f n c q x) as [Hs2 _]; rewrite H in Hs2 end.
    cbn in *. congruence.
  - unfold evictForCap. repeat case_match; try done. by etrans; [apply upsert_shape |].
  - unfold handleSessionIDKnown. repeat case_match; try done. by etrans; [apply upsert_shape |].
  - unfold markTurnFinished. by repeat case_match.
  - unfold reap_entry. by repeat case_match.
  - unfold delete_evicted. by repeat case_match.
  - unfold drop_candidate. by repeat case_match.
  - apply (remove_shape k p).
  - apply upsert_shape.
  - done.
  - done.
  - done.
  - done.
Qed.

Lemma stop_entry_clears p ptr e : heap (stop_entry p ptr) !! ptr = Some e → session e = None.
Proof.
  unfold stop_entry. destruct (heap p !! ptr) as [e0 |] eqn:He; [| by rewrite He].
  destruct (session e0) eqn:Es; cbn; [rewrite lookup_insert_eq; by intros [= <-] | rewrite He; by intros [= <-]].
Qed.

Lemma stop_entry_keeps p ptr : keeps p (stop_entry p ptr).
Proof.
  unfold stop_entry. destruct (heap p !! ptr) as [e |] eqn:He; [| by apply keeps_same].
  destruct (session e) eqn:Es; [| by apply keeps_same]. eapply (keeps_set _ _ ptr e); [done.. | by right].
Qed.

(** A session that is held is held by a listed entry, or by one that [Stop] has
    yet to visit, or it was created too late. *)
Definition traced (w : World) : Prop :=
  ∀ ptr e s, heap (pool w) !! ptr = Some e → session e = Some s →
    listed (pool w) ptr e ∨ ptr ∈ doomed w ∨ s ∈ late w.

Lemma traced_wstep w w' : wf (made w) (pool w) → traced w → wstep w w' → traced w'.
Proof.
  intros Hwf Ht Hstep. destruct Hstep; cbn in *; unfold traced in *; cbn in *.
  - intros r x s Hx Hs. destruct (section_keeps c p p' Hwf ltac:(done) r x s Hx Hs) as (x0 & Hx0 & Hs0 & Hl).
    destruct (Ht r x0 s Hx0 Hs0) as [? | ?]; [left; auto | by right].
  - match goal with H : lookup_hit _ _ _ _ = _, H' : lookup_create _ _ _ _ _ = _ |- _ =>
      rename H into Eh; rename H' into Ec end.
    destruct (lookup_hit_shape healthy now ptr p) as [_ En1]. rewrite Eh in En1. cbn in En1.
    pose proof (keeps_lookup_hit healthy now ptr p) as Hk. rewrite Eh in Hk. cbn in Hk.
    destruct (lookup_create_shape factory now (contextID e) ptr p1) as [_ En2]. rewrite Ec in En2. cbn in En2.
    destruct (lookup_create_heap factory now (contextID e) ptr p1 p2 w s Ec) as (e1 & e2 & He1 & Hs2 & Hc2 & Hh).
    assert (contextID e1 = contextID e) as Hc1.
    { destruct (lookup_hit_None c healthy now ptr p p1 Hwf Eh e1 He1) as (_ & e0 & He0 & -> & _). congruence. }
    match goal with H : l' = _ |- _ => rename H into El end.
    assert (l ⊆ l') as Hsub by (subst l'; destruct (decide (listed p ptr e)); set_solver).
    intros r x s' Hx Hs. rewrite Hh in Hx. apply lookup_insert_Some in Hx as [[<- <-] | [Hne Hx]].
    + destruct (decide (listed p ptr e)) as [Hd | Hd]; subst l';
        unfold listed in *; rewrite En2, En1, Hc2, Hc1; [by left |]. right. right. set_solver.
    + destruct (Hk r x s' Hx Hs) as (x0 & Hx0 & Hs0 & Hl). unfold listed in *. rewrite En2.
      destruct (Ht r x0 s' Hx0 Hs0) as [? | [? | ?]]; [left; auto | right; by left | right; right; set_solver].
  - intros r x s Hx Hs. destruct (Ht r x s Hx Hs) as [Hl | [? | ?]]; [| set_solver | set_solver].
    right. left. apply elem_of_union_r, elem_of_list_to_set, list_elem_of_fmap. exists (contextID x, r). split; [done |].
    by apply elem_of_map_to_list.
  - intros r x s Hx Hs. destruct (decide (r = ptr)) as [-> | Hne]; [by rewrite (stop_entry_clears _ _ _ Hx) in Hs |].
    destruct (stop_entry_keeps p ptr r x s Hx Hs) as (x0 & Hx0 & Hs0 & Hl).
    destruct (Ht r x0 s Hx0 Hs0) as [? | [? | ?]]; [left; auto | right; left; set_solver | right; by right].
Qed.

Lemma lookup_stopped_eq healthy factory now now' ctx ptr p p1 p2 r :
  lookup_hit healthy now ptr p = (p1, None) → lookup_create factory now' ctx ptr p1 = (p2, r) →
  stopped p2 = stopped p ∧ entries p2 = entries p.
Proof.
  intros Eh Ec. destruct (lookup_hit_shape healthy now ptr p) as [H1 H2]. rewrite Eh in H1, H2.
  destruct (lookup_create_shape factory now' ctx ptr p1) as [H3 H4]. rewrite Ec in H3, H4. cbn in *. split; congruence.
Qed.

Definition stops (w : World) : Prop :=
  stopped_empty (pool w) ∧ (stopped (pool w) = false → doomed w = ∅).

Lemma stops_wstep w w' : stops w → wstep w w' → stops w'.
Proof.
  intros [Hp Hd] Hstep. destruct Hstep; split; cbn in *.
  - by eapply section_stopped.
  - by rewrite (section_stopped_eq p p').
  - destruct (lookup_stopped_eq healthy factory now now (contextID e) ptr p p1 p2 _ ltac:(done) ltac:(done)).
    by eapply stopped_empty_same.
  - destruct (lookup_stopped_eq healthy factory now now (contextID e) ptr p p1 p2 _ ltac:(done) ltac:(done)) as [-> _].
    done.
  - by intros _.
  - done.
  - unfold stop_entry. by repeat case_match.
  - unfold stop_entry. repeat case_match; cbn; intros Hs; rewrite (Hd Hs); set_solver.
Qed.

Definition initial (now : time) (idle ev : duration) (loaded : option (option (list (string * PersistedRecord)))) : World :=
  mkWorld ∅ ∅ ∅ (NewSessionPoolWithPersistence now idle ev loaded).

Definition reachable (now : time) (idle ev : duration)
    (loaded : option (option (list (string * PersistedRecord)))) (w : World) : Prop :=
  rtc wstep (initial now idle ev loaded) w.

Definition accounted (w : World) : Prop := wf (made w) (pool w) ∧ traced w ∧ stops w.

Lemma rehydrate_runs now p records : stopped p = false → stopped (foldl (rehydrate_record now) p records) = false.
Proof.
  revert p. induction records as [| x records IH]; intros p Hp; [done |]. cbn. apply IH.
  unfold rehydrate_record. destruct x as [ctx rec]. by destruct (negb _).
Qed.

Lemma reachable_accounted now idle ev loaded w : reachable now idle ev loaded w → accounted w.
Proof.
  apply (rtc_invariant wstep accounted).
  - intros x y (Hwf & Ht & Hs) Hstep. split_and!.
    + by apply (pool_wf_step (made x, pool x) (made y, pool y)), wstep_step.
    + by eapply traced_wstep.
    + by eapply stops_wstep.
  - pose proof (pool_wf_new now idle ev loaded) as Hwf. split_and!; [done | |].
    + intros ptr e s He Hs. destruct (proj2 (wf_live _ _ Hwf s)) as [Hc _]; [eauto |]. by apply elem_of_empty in Hc.
    + assert (stopped (NewSessionPoolWithPersistence now idle ev loaded) = false) as Hs.
      { unfold NewSessionPoolWithPersistence. destruct loaded as [[records |] |]; try done.
        by apply rehydrate_runs. }
      split; cbn; [| done]. intros Hs'. congruence.
Qed.


(** A lookup that creates session [7] for a fresh context. *)
Definition sync_factory : Factory := λ _ resume, Some (7%Z, Some (if nonempty resume then resume else "sid")).


(** *** The leak

    The first lookup of a context is done, the reaper evicts the session, a
    second lookup picks up the evicted entry, the reaper finds that its time is
    over and deletes it, and the lookup goes on to resume the conversation on it.
    A third lookup knows nothing of it and creates another session for the same
    context, and [Stop] closes only that one. *)
Definition numbered_factory (s : Session) : Factory := λ _ resume, Some (s, Some (if nonempty resume then resume else "sid")).

Section leak.
Let p1 : SessionPool := fst (lookup_entry "ctx" (newPool 10 100 false)).
Let p2 : SessionPool := fst (lookup_create (numbered_factory 7%Z) 5%Z "ctx" 0%Z p1).
Let p3 : SessionPool := fst (fst (reap_entry 20%Z (p2, [], []) 0%Z)).
Let p4 : SessionPool := fst (lookup_entry "ctx" p3).
Let p5 : SessionPool := delete_evicted p4 "ctx".
Let p6 : SessionPool := fst (lookup_create (numbered_factory 8%Z) 125%Z "ctx" 0%Z p5).
Let p7 : SessionPool := fst (lookup_entry "ctx" p6).
Let p8 : SessionPool := fst (lookup_create (numbered_factory 9%Z) 130%Z "ctx" 3%Z p7).
Let p9 : SessionPool := with_entries ∅ (mark_stopped p8).

Local Ltac creates f now ptr s :=
  match goal with |- wstep (mkWorld _ _ _ ?p) (mkWorld _ _ _ ?q) =>
    eapply (w_create _ _ _ _ p p q (λ _, true) f now ptr _ s); [by vm_compute | by vm_compute | by vm_compute ..]
  end.

Lemma late_session_leaks :
  ∃ w, reachable 0 10 100 None w ∧ stopped (pool w) = true ∧ doomed w = ∅ ∧
    late w = {[8%Z]} ∧ 8%Z ∈ made w ∧ closed (pool w) = [9; 7]%Z.
Proof.
  set (c7 := {[7%Z]} ∪ ∅ : Created). set (c8 := {[8%Z]} ∪ c7 : Created). set (c9 := {[9%Z]} ∪ c8 : Created).
  set (l8 := {[8%Z]} ∪ ∅ : gset Session).
  exists (mkWorld c9 l8 ((∅ ∪ pointers p8) ∖ {[3%Z]}) (stop_entry p9 3%Z)).
  split_and!; [| by vm_compute ..].
  apply (rtc_l _ _ (mkWorld ∅ ∅ ∅ p1)); [apply w_section, (sec_lookup_entry _ "ctx") |].
  apply (rtc_l _ _ (mkWorld c7 ∅ ∅ p2)); [creates (numbered_factory 7%Z) 5%Z 0%Z 7%Z |].
  apply (rtc_l _ _ (mkWorld c7 ∅ ∅ p3)); [apply w_section, (sec_reap _ 20%Z 0%Z [] []) |].
  apply (rtc_l _ _ (mkWorld c7 ∅ ∅ p4)); [apply w_section, (sec_lookup_entry _ "ctx") |].
  apply (rtc_l _ _ (mkWorld c7 ∅ ∅ p5)); [apply w_section, (sec_delete _ "ctx") |].
  apply (rtc_l _ _ (mkWorld c8 l8 ∅ p6)); [creates (numbered_factory 8%Z) 125%Z 0%Z 8%Z |].
  apply (rtc_l _ _ (mkWorld c8 l8 ∅ p7)); [apply w_section, (sec_lookup_entry _ "ctx") |].
  apply (rtc_l _ _ (mkWorld c9 l8 ∅ p8)); [creates (numbered_factory 9%Z) 130%Z 3%Z 9%Z |].
  apply (rtc_l _ _ (mkWorld c9 l8 (∅ ∪ pointers p8) p9)); [by apply w_stopped |].
  apply (rtc_l _ _ (mkWorld c9 l8 ((∅ ∪ pointers p8) ∖ {[3%Z]}) (stop_entry p9 3%Z))); [| apply rtc_refl].
  apply w_stop_entry. by vm_compute.
Qed.
End leak.
