(* ===== verification/PoolLaws.v ===== *)
(** * What the session pool promises its callers

    Operations run one after another (nothing else holds the locks): a lookup
    is stable, resumes what was evicted, survives a restart and respects the
    capacity; the reaper evicts the idle contexts only. *)
From S2P Require Import Prelude GoBase GoStrings TurnGate SessionPool PoolReaper.
From Stdlib Require Import ZArith Lia.

(** The entry a context is mapped to. *)
Definition view (p : SessionPool) (ctx : string) : option pooledEntry :=
  entries p !! ctx ≫= λ ptr, heap p !! ptr.

(** [range] visits every key of a map once. *)
Definition range_law {A} (range : gmap string A → list (string * A)) : Prop :=
  ∀ m, range m ≡ₚ map_to_list m.

Definition sort_law (sort : list candidate → list candidate) : Prop :=
  ∀ l, sort l ≡ₚ l ∧ StronglySorted (λ a b, a.2 ≤ b.2)%Z (sort l).

Section views.
Context (c : Created) (p : SessionPool) (Hwf : wf c p).

Lemma entries_inj ctx ctx' ptr : entries p !! ctx = Some ptr → entries p !! ctx' = Some ptr → ctx = ctx'.
Proof using c Hwf.
  intros H H'. destruct (wf_map c p Hwf ctx ptr H) as (e & He & <-).
  destruct (wf_map c p Hwf ctx' ptr H') as (e' & He' & <-). congruence.
Qed.

Lemma view_Some ctx e : view p ctx = Some e ↔ ∃ ptr, entries p !! ctx = Some ptr ∧ heap p !! ptr = Some e.
Proof using Type. unfold view. rewrite bind_Some. done. Qed.

Lemma view_contextID ctx e : view p ctx = Some e → contextID e = ctx.
Proof using c Hwf.
  intros (ptr & Hp & He)%view_Some. destruct (wf_map c p Hwf ctx ptr Hp) as (e' & He' & <-). congruence.
Qed.

Lemma view_is_Some ctx : is_Some (view p ctx) ↔ is_Some (entries p !! ctx).
Proof using c Hwf.
  split.
  - by intros [e (ptr & -> & _)%view_Some].
  - intros [ptr Hp]. destruct (wf_map c p Hwf ctx ptr Hp) as (e & He & _). exists e. apply view_Some. eauto.
Qed.

Lemma view_set_entry ctx ptr e ctx' :
  entries p !! ctx = Some ptr →
  view (set_entry ptr e p) ctx' = if decide (ctx' = ctx) then Some e else view p ctx'.
Proof using c Hwf.
  intros Hp. unfold view. cbn. case_decide as Hc.
  - subst. rewrite Hp. cbn. by rewrite lookup_insert_eq.
  - destruct (entries p !! ctx') as [q |] eqn:Eq; [cbn | done]. rewrite lookup_insert_ne; [done |].
    intros <-. apply Hc. by eapply entries_inj.
Qed.
End views.

(** ** The loop and the factory *)

(** Whether the entry's session can be handed out. *)
Definition usable (healthy : Session → bool) (e : pooledEntry) : bool :=
  match state e, session e with entryActive, Some s => healthy s | _, _ => false end.

Lemma lookup_hit_usable healthy now ptr p e :
  heap p !! ptr = Some e → usable healthy e = true →
  ∃ s w g n, session e = Some s ∧ healthy s = true ∧ (next p ≤ n)%Z ∧ g = Some (w, s) ∧
    (∀ w0, gatedWrap e = Some (w0, s) → w = w0) ∧
    lookup_hit healthy now ptr p =
      (set_entry ptr (with_wrap g (touch now e)) (with_next n p), Some (w, s)).
Proof.
  unfold usable, lookup_hit. intros -> Hu. destruct (state e); [| done].
  destruct (session e) as [s |] eqn:Es; [| done]. rewrite Hu. unfold gatedLocked. cbn [gatedWrap touch].
  destruct (gatedWrap e) as [[w inner] |] eqn:Eg; [case_decide as Hi |].
  - subst. exists s, w, (Some (w, s)), (next p). split_and!; try done.
    + by intros w0 [= <-].
    + unfold touch, with_wrap. cbn. rewrite <- Eg. by destruct p.
  - exists s, (next p), (Some (next p, s)), (next p + 1)%Z. split_and!; try done; [lia |].
    intros w0 [= -> ->]. done.
  - exists s, (next p), (Some (next p, s)), (next p + 1)%Z. split_and!; try done. lia.
Qed.

Lemma lookup_hit_unusable healthy now ptr p e :
  heap p !! ptr = Some e → usable healthy e = false →
  snd (lookup_hit healthy now ptr p) = None.
Proof.
  unfold usable, lookup_hit. intros -> Hu. destruct (state e); [| done].
  destruct (session e) as [s |]; [| done]. by rewrite Hu.
Qed.

(** A context that is already pooled is looked up in the map as it is. *)
Lemma lookup_entry_known ctx p ptr :
  stopped p = false → entries p !! ctx = Some ptr → lookup_entry ctx p = (p, Some ptr).
Proof. unfold lookup_entry. by intros -> ->. Qed.

Lemma LookupOrCreate_hit factory healthy range now now' ctx p ptr e :
  stopped p = false → entries p !! ctx = Some ptr → heap p !! ptr = Some e → usable healthy e = true →
  ∃ s w g n, session e = Some s ∧ healthy s = true ∧ g = Some (w, s) ∧
    (∀ w0, gatedWrap e = Some (w0, s) → w = w0) ∧
    LookupOrCreate factory healthy range now now' ctx p =
      (set_entry ptr (with_wrap g (touch now e)) (with_next n p), inl (w, s)).
Proof.
  intros Hs Hp He Hu.
  destruct (lookup_hit_usable healthy now ptr p e He Hu) as (s & w & g & n & H1 & H2 & _ & H3 & H4 & H5).
  exists s, w, g, n. split_and!; try done. unfold LookupOrCreate.
  by rewrite (lookup_entry_known ctx p ptr), H5.
Qed.

Lemma gatedLocked_result ptr e s p p' w :
  gatedLocked ptr e s p = (p', w) →
  ∃ n, p' = set_entry ptr (with_wrap (Some (w, s)) e) (with_next n p).
Proof.
  unfold gatedLocked. destruct (gatedWrap e) as [[w0 inner] |] eqn:Eg; [case_decide as Hi |];
    intros [= <- <-]; [subst; exists (next p) | by eexists | by eexists].
  unfold with_wrap. rewrite <- Eg. by destruct e, p.
Qed.

(** A dead session is closed and its entry evicted; anything else is left alone. *)
Definition settle (now : time) (e : pooledEntry) : pooledEntry :=
  match state e, session e with entryActive, Some _ => evict now (gate e) e | _, _ => e end.

Lemma settle_fields c p ptr now e : wf c p → heap p !! ptr = Some e →
  session (settle now e) = None ∧ sessionID (settle now e) = sessionID e ∧
  contextID (settle now e) = contextID e ∧ gate (settle now e) = gate e.
Proof.
  intros Hwf He. destruct (wf_entry c p Hwf ptr e He) as [[Hok _] _]. unfold settle.
  destruct (state e) eqn:Es; [destruct (session e) eqn:Ess |]; split_and!; try done. by apply Hok.
Qed.

Lemma lookup_hit_miss healthy now ptr p e :
  heap p !! ptr = Some e → usable healthy e = false →
  ∃ p1, lookup_hit healthy now ptr p = (p1, None) ∧ entries p1 = entries p ∧
    heap p1 = <[ptr := settle now e]> (heap p) ∧ persistState p1 = persistState p ∧ saves p1 = saves p ∧
    persist p1 = persist p ∧ maxActive p1 = maxActive p ∧ overloadPolicy p1 = overloadPolicy p ∧
    stopped p1 = stopped p ∧ forgotten p1 = forgotten p ∧ next p1 = next p.
Proof.
  unfold usable, lookup_hit, settle. intros He Hu. rewrite He.
  destruct (state e); [destruct (session e) as [s |] |].
  - rewrite Hu. by eexists.
  - eexists. split; [done |]. by rewrite insert_id.
  - eexists. split; [done |]. by rewrite insert_id.
Qed.

Lemma lookup_hit_empty healthy now ptr p e :
  heap p !! ptr = Some e → session e = None → lookup_hit healthy now ptr p = (p, None).
Proof. unfold lookup_hit. intros -> ->. by destruct (state e). Qed.

(** ** Capacity *)

Definition live_entry (e : pooledEntry) : bool :=
  match state e, session e with entryActive, Some _ => true | _, _ => false end.

Definition live (h : gmap Z pooledEntry) (ptr : Z) : bool :=
  from_option live_entry false (h !! ptr).

Definition last_used (h : gmap Z pooledEntry) (ptr : Z) : time := from_option lastUsed zero_time (h !! ptr).

Lemma cap_scan_spec h ptrs :
  fst (cap_scan h ptrs) = Z.of_nat (length (filter (λ q, live h q) ptrs)) ∧
  match snd (cap_scan h ptrs) with
  | None => ∀ q, q ∈ ptrs → live h q = false
  | Some (v, t) => v ∈ ptrs ∧ live h v = true ∧ t = last_used h v ∧
      ∀ q, q ∈ ptrs → live h q = true → (t ≤ last_used h q)%Z
  end.
Proof.
  unfold cap_scan. induction ptrs as [| q ptrs IH] using rev_ind; [cbn; set_solver |].
  rewrite foldl_snoc, filter_app, length_app.
  destruct (foldl _ _ _) as [n lru]. cbn [fst snd] in IH. destruct IH as [IHn IHl].
  assert (live h q = true → ∃ e s, h !! q = Some e ∧ state e = entryActive ∧ session e = Some s) as Hlive.
  { unfold live, live_entry. destruct (h !! q) as [e |]; [cbn | done]. destruct (state e) eqn:Ee; [| done].
    destruct (session e) eqn:Es; [| done]. eauto. }
  destruct (live h q) eqn:El.
  - destruct (Hlive eq_refl) as (e & s & He & Hst & Hs). unfold cap_scan_entry. rewrite He, Hst, Hs.
    assert (last_used h q = lastUsed e) as Hlu by (unfold last_used; by rewrite He).
    cbn [fst snd]. split; [rewrite filter_cons_True by (by rewrite El); rewrite filter_nil; cbn; lia |].
    destruct lru as [[v t] |].
    + destruct IHl as (Hv & Hlv & -> & Hmin). unfold Before. destruct (lastUsed e <? _)%Z eqn:Eb; bool_to_prop.
      * split_and!; [set_solver | done | done |]. intros q' [Hq' | ->%list_elem_of_singleton]%elem_of_app Hl;
          [specialize (Hmin q' Hq' Hl); lia | lia].
      * split_and!; [set_solver | done | done |]. intros q' [Hq' | ->%list_elem_of_singleton]%elem_of_app Hl;
          [by apply Hmin | lia].
    + split_and!; [set_solver | done | done |]. intros q' [Hq' | ->%list_elem_of_singleton]%elem_of_app Hl;
        [by rewrite (IHl q' Hq') in Hl | lia].
  - assert (cap_scan_entry h (n, lru) q = (n, lru)) as ->.
    { unfold live, live_entry in El. unfold cap_scan_entry. destruct (h !! q) as [e |]; [cbn in El | done].
      destruct (state e); [| done]. by destruct (session e). }
    cbn [fst snd]. split; [rewrite filter_cons_False by (rewrite El; intros []); rewrite filter_nil; cbn; lia |].
    destruct lru as [[v t] |].
    + destruct IHl as (Hv & Hlv & -> & Hmin). split_and!; [set_solver | done | done |].
      intros q' [Hq' | ->%list_elem_of_singleton]%elem_of_app Hl; [by apply Hmin | congruence].
    + intros q' [Hq' | ->%list_elem_of_singleton]%elem_of_app; auto.
Qed.

(** The contexts with a live provider session. *)
Definition active (p : SessionPool) : gmap string Z := filter (λ x, live (heap p) x.2) (entries p).

Lemma active_Some p ctx ptr :
  active p !! ctx = Some ptr ↔ entries p !! ctx = Some ptr ∧ live (heap p) ptr = true.
Proof. unfold active. rewrite map_lookup_filter_Some. cbn. by rewrite Is_true_true. Qed.

Lemma live_Some h ptr :
  live h ptr = true ↔ ∃ e s, h !! ptr = Some e ∧ state e = entryActive ∧ session e = Some s.
Proof.
  unfold live, live_entry. destruct (h !! ptr) as [e |]; cbn; [| by split; [| intros (? & ? & ? & ?)]].
  destruct (state e) eqn:Ee, (session e) eqn:Es; split; try done; eauto; intros (x & s' & ? & ? & ?);
    simplify_eq; congruence.
Qed.

(** The other contexts a new session competes with. *)
Definition rivals (ctx : string) (p : SessionPool) : nat := size (delete ctx (active p)).

Lemma enforceCap_spec range now ctx max policy c p :
  wf c p → range_law range → (0 < max)%Z →
  (Z.of_nat (rivals ctx p) < max ∧ enforceCap range now ctx max policy p = (p, None))%Z ∨
  (max ≤ Z.of_nat (rivals ctx p))%Z ∧
    ((policy = OverloadReject ∧ enforceCap range now ctx max policy p = (p, Some (ErrAtCapacity max))) ∨
     (policy = OverloadEvictLRU ∧ ∃ ctx' v, active (p) !! ctx' = Some v ∧ ctx' ≠ ctx ∧
        (∀ k q, active p !! k = Some q → k ≠ ctx → last_used (heap p) v ≤ last_used (heap p) q)%Z ∧
        enforceCap range now ctx max policy p = (evictForCap now v p, None)) ∨
     (policy ≠ OverloadReject ∧ policy ≠ OverloadEvictLRU ∧
        enforceCap range now ctx max policy p = (p, Some (ErrUnknownPolicy policy)))).
Proof.
  intros Hwf Hrange Hmax. unfold enforceCap.
  set (others := filter (λ x, x.1 ≠ ctx) (range (entries p))).
  pose proof (cap_scan_spec (heap p) (others.*2)) as [Hn Hl].
  assert (length (filter (λ q, live (heap p) q) (others.*2)) = rivals ctx p) as Hlen.
  { rewrite list_filter_fmap, length_fmap. unfold others.
    rewrite list_filter_filter, (length_filter_visit _ (entries p)) by apply Hrange.
    unfold rivals, active. f_equal. apply map_eq. intros k. apply option_eq. intros q.
    rewrite map_lookup_filter_Some, lookup_delete_Some, map_lookup_filter_Some. cbn. naive_solver. }
  assert (∀ q, q ∈ others.*2 ↔ ∃ k, k ≠ ctx ∧ entries p !! k = Some q) as Hin.
  { intros q. unfold others. rewrite list_elem_of_fmap. split.
    - intros ([k q'] & -> & [Hk Hin]%list_elem_of_filter). rewrite (Hrange (entries p)) in Hin.
      apply elem_of_map_to_list in Hin. by exists k.
    - intros (k & Hk & Hq). exists (k, q). split; [done |]. apply list_elem_of_filter. split; [done |].
      rewrite (Hrange (entries p)). by apply elem_of_map_to_list. }
  rewrite Hlen in Hn. destruct (cap_scan _ _) as [n lru]. cbn [fst snd] in Hn, Hl. subst n.
  destruct (_ <? _)%Z eqn:Eb; bool_to_prop; [by left | right]. split; [done |].
  destruct (policy =? OverloadReject)%Z eqn:E1; bool_to_prop; [by left | right].
  destruct (policy =? OverloadEvictLRU)%Z eqn:E2; bool_to_prop; [left | right; by split_and!].
  split; [done |]. destruct lru as [[v t] |].
  - destruct Hl as ((k & Hk & Hv)%Hin & Hlv & -> & Hmin). exists k, v. split_and!; [by apply active_Some | done | | done].
    intros k' q [Hq Hlq]%active_Some Hk'. apply Hmin; [| done]. apply Hin. eauto.
  - exfalso. destruct (decide (rivals ctx p = 0)) as [H0 | H0]; [lia |]. unfold rivals in H0.
    apply map_size_ne_0_lookup in H0 as (k & q & [Hk [Hq Hlq]%active_Some]%lookup_delete_Some).
    rewrite (Hl q) in Hlq; [done |]. apply Hin. eauto.
Qed.

(** What the sections of a lookup leave alone. *)
Definition config (p : SessionPool) :=
  (persist p, stopped p, maxActive p, overloadPolicy p, maxEvicted p, idleTTL p, evictedTTL p).
Definition store (p : SessionPool) := (persistState p, saves p, forgotten p).

Lemma lookup_entry_spec c ctx p :
  wf c p → stopped p = false →
  ∃ p0 ptr e0, lookup_entry ctx p = (p0, Some ptr) ∧ wf c p0 ∧ config p0 = config p ∧ store p0 = store p ∧
    closed p0 = closed p ∧ entries p0 !! ctx = Some ptr ∧ heap p0 !! ptr = Some e0 ∧
    (∀ k, k ≠ ctx → entries p0 !! k = entries p !! k ∧ view p0 k = view p k ∧ active p0 !! k = active p !! k) ∧
    active p0 = active p ∧
    e0 = default (mkEntry ctx "" newTurnGate entryActive None zero_time zero_time None) (view p ctx).
Proof.
  intros Hwf Hs. pose proof (wf_lookup_entry c ctx p Hwf) as Hwf0. unfold lookup_entry in *. rewrite Hs in *.
  destruct (entries p !! ctx) as [ptr |] eqn:Ep.
  - destruct (wf_map c p Hwf ctx ptr Ep) as (e & He & Hc). exists p, ptr, e. cbn in Hwf0.
    split_and!; try done. unfold view. rewrite Ep. cbn. by rewrite He.
  - cbn [fst] in Hwf0. eexists _, (next p), _. split; [reflexivity |]. split; [done |].
    assert (∀ k q, entries p !! k = Some q → q ≠ next p) as Hne.
    { intros k q Hq ->. destruct (wf_map c p Hwf k _ Hq) as (e & He & _).
      apply (wf_entry c p Hwf) in He as [_ ?]. lia. }
    assert (∀ k, entries p !! k = None → active p !! k = None) as Hact.
    { intros k Hk. apply eq_None_not_Some. intros [q [Hq _]%active_Some]. congruence. }
    set (p0 := with_entries _ _).
    assert (∀ k, k ≠ ctx → entries p0 !! k = entries p !! k ∧ view p0 k = view p k ∧ active p0 !! k = active p !! k) as Ho.
    { intros k Hk. split; [cbn; by rewrite lookup_insert_ne |]. split.
      - unfold view. cbn. rewrite lookup_insert_ne by done. destruct (entries p !! k) as [q |] eqn:Eq; [cbn | done].
        rewrite lookup_insert_ne; [done |]. intros <-. by eapply Hne.
      - apply option_eq. intros q. rewrite !active_Some. cbn. rewrite lookup_insert_ne by done.
        unfold live. split; intros [Hq Hl]; (split; [done |]).
        + rewrite lookup_insert_ne in Hl by (intros <-; by eapply Hne). done.
        + rewrite lookup_insert_ne by (intros <-; by eapply Hne). done. }
    split_and!; try done.
    + cbn. by rewrite lookup_insert_eq.
    + unfold view. rewrite Ep. cbn. by rewrite lookup_insert_eq.
    + apply map_eq. intros k. destruct (decide (k = ctx)) as [-> | Hk]; [| by apply Ho].
      rewrite (Hact ctx Ep). apply eq_None_not_Some. intros [q [Hq Hl]%active_Some].
      unfold live in Hl. cbn in Hq, Hl. rewrite lookup_insert_eq in Hq. simplify_eq.
      by rewrite lookup_insert_eq in Hl.
Qed.

(** Replacing the entry of one context. *)
Lemma active_set_entry c p ctx ptr e :
  wf c p → entries p !! ctx = Some ptr →
  active (set_entry ptr e p) = if live_entry e then <[ctx := ptr]> (active p) else delete ctx (active p).
Proof.
  intros Hwf Hp. apply map_eq. intros k. apply option_eq. intros q. rewrite active_Some. cbn.
  destruct (decide (k = ctx)) as [-> | Hk].
  - unfold live. destruct (live_entry e) eqn:El.
    + rewrite lookup_insert_eq. split; [intros [? _]; congruence | intros [= <-]].
      split; [done |]. by rewrite lookup_insert_eq.
    + rewrite lookup_delete_eq. split; [| done]. intros [? Hl]. simplify_eq.
      rewrite lookup_insert_eq in Hl. cbn in Hl. congruence.
  - assert (entries p !! k = Some q → ptr ≠ q) as Hne.
    { intros Hq <-. apply Hk. by eapply (entries_inj c p Hwf). }
    transitivity (active p !! k = Some q).
    + rewrite active_Some. unfold live. split; intros [Hq Hl]; (split; [done |]).
      * by rewrite lookup_insert_ne in Hl by auto.
      * by rewrite lookup_insert_ne by auto.
    + by destruct (live_entry e); [rewrite lookup_insert_ne | rewrite lookup_delete_ne].
Qed.

Definition created_entry (now : time) (e : pooledEntry) (s : Session) (sync : option string) (w : Z) : pooledEntry :=
  mkEntry (contextID e) (default (sessionID e) sync) (endEviction (gate e)) entryActive (Some s) now
    (evictedAt e) (Some (w, s)).

Definition persist_created (now : time) (ctx sid : string) (p : SessionPool) : SessionPool :=
  if nonempty sid then upsertPersist ctx (mkRecord sid persistStateActive now zero_time) p else p.

Lemma lookup_create_spec factory now ctx ptr p e p' r :
  heap p !! ptr = Some e → lookup_create factory now ctx ptr p = (p', r) →
  (factory ctx (sessionID e) = None ∧ p' = p ∧ r = inr ErrFactory) ∨
  ∃ s sync w n, factory ctx (sessionID e) = Some (s, sync) ∧ r = inl (w, s) ∧
    p' = persist_created now ctx (default (sessionID e) sync)
           (set_entry ptr (created_entry now e s sync w) (with_next n p)).
Proof.
  intros He E. unfold lookup_create in E. rewrite He in E.
  destruct (factory ctx (sessionID e)) as [[s sync] |]; [right | left; by injection E as <- <-].
  destruct (gatedLocked _ _ _ _) as [q w] eqn:Eg. apply gatedLocked_result in Eg as [n ->].
  injection E as <- <-. by exists s, sync, w, n.
Qed.

Lemma evictForCap_spec now v p e s :
  heap p !! v = Some e → state e = entryActive → session e = Some s →
  evictForCap now v p =
    upsertPersist (contextID e) (evicted_record now e) (set_entry v (evict now (gate e) e) (close s p)).
Proof. unfold evictForCap. by intros -> -> ->. Qed.

(** The room made for a new session: none needed, or the least recently used
    rival [ctx'] evicted. *)
Definition room (now : time) (ctx : string) (p p' : SessionPool) : Prop :=
  (p' = p ∧ (0 < maxActive p → Z.of_nat (rivals ctx p) < maxActive p)%Z) ∨
  (0 < maxActive p ≤ Z.of_nat (rivals ctx p))%Z ∧ overloadPolicy p = OverloadEvictLRU ∧
  ∃ ctx' v e s, ctx' ≠ ctx ∧ entries p !! ctx' = Some v ∧ heap p !! v = Some e ∧
    state e = entryActive ∧ session e = Some s ∧ contextID e = ctx' ∧
    (∀ k q, active p !! k = Some q → k ≠ ctx → lastUsed e ≤ last_used (heap p) q)%Z ∧
    p' = upsertPersist ctx' (evicted_record now e) (set_entry v (evict now (gate e) e) (close s p)).

Definition refusal (p : SessionPool) (ctx : string) (err : pool_error) : Prop :=
  (0 < maxActive p ≤ Z.of_nat (rivals ctx p))%Z ∧
  (overloadPolicy p = OverloadReject ∧ err = ErrAtCapacity (maxActive p) ∨
   overloadPolicy p ≠ OverloadReject ∧ overloadPolicy p ≠ OverloadEvictLRU ∧ err = ErrUnknownPolicy (overloadPolicy p)).

(** The three ways a lookup goes once the entry is known. *)
Lemma LookupOrCreate_outcomes c factory healthy range now now' ctx p p' r :
  wf c p → range_law range → stopped p = false →
  LookupOrCreate factory healthy range now now' ctx p = (p', r) →
  ∃ p0 ptr e0, lookup_entry ctx p = (p0, Some ptr) ∧ heap p0 !! ptr = Some e0 ∧
    ((usable healthy e0 = true ∧ ∃ w s n, r = inl (w, s) ∧ session e0 = Some s ∧ healthy s = true ∧
        (∀ w0, gatedWrap e0 = Some (w0, s) → w = w0) ∧
        p' = set_entry ptr (with_wrap (Some (w, s)) (touch now e0)) (with_next n p0)) ∨
     (usable healthy e0 = false ∧ ∃ p1, lookup_hit healthy now ptr p0 = (p1, None) ∧
        ((∃ err, refusal p1 ctx err ∧ p' = p1 ∧ r = inr err) ∨
         (∃ p2, room now' ctx p1 p2 ∧ lookup_create factory now ctx ptr p2 = (p', r))))).
Proof.
  intros Hwf Hrange Hs E. unfold LookupOrCreate in E.
  destruct (lookup_entry_spec c ctx p Hwf Hs) as (p0 & ptr & e0 & El & Hwf0 & Hc & _ & _ & Hp & He & _).
  rewrite El in E. exists p0, ptr, e0. split; [done |]. split; [done |].
  destruct (usable healthy e0) eqn:Eu; [left | right]; (split; [done |]).
  { destruct (lookup_hit_usable healthy now ptr p0 e0 He Eu) as (s & w & g & n & H1 & H2 & _ & -> & H4 & H5).
    rewrite H5 in E. injection E as <- <-. by exists w, s, n. }
  destruct (lookup_hit_miss healthy now ptr p0 e0 He Eu) as (p1 & Eh & Ee & Ehp & _).
  pose proof (wf_lookup_hit c healthy now ptr p0 Hwf0) as Hwf1.
  rewrite Eh in E, Hwf1. cbn [fst] in Hwf1. exists p1. split; [done |].
  assert (heap p1 !! ptr = Some (settle now e0)) as He1 by (by rewrite Ehp, lookup_insert_eq).
  destruct (settle_fields c p0 ptr now e0 Hwf0 He) as (Hsn & _).
  destruct (_ <? _)%Z eqn:Em; bool_to_prop; cycle 1.
  { right. exists p1. split; [left; split; [done | lia] | done]. }
  destruct (enforceCap_spec range now' ctx (maxActive p1) (overloadPolicy p1) c p1 Hwf1 Hrange Em)
    as [[Hlt Ec] | [Hge [[Epol Ec] | [(Epol & ctx' & v & Hv & Hne & Hmin & Ec) | (Epol & Epol' & Ec)]]]];
    rewrite Ec in E.
  - rewrite (lookup_hit_empty healthy now ptr p1 (settle now e0)) in E by done.
    right. exists p1. split; [by left | done].
  - left. injection E as <- <-. exists (ErrAtCapacity (maxActive p1)). split; [| done]. split; [done | by left].
  - right. apply active_Some in Hv as [Hv (e & s & Hev & Hst & Hse)%live_Some].
    assert (contextID e = ctx') as Hce.
    { destruct (wf_map c p1 Hwf1 ctx' v Hv) as (e' & ? & <-). congruence. }
    rewrite (evictForCap_spec now' v p1 e s Hev Hst Hse) in E.
    assert (v ≠ ptr) as Hvp by congruence.
    rewrite (lookup_hit_empty healthy now ptr _ (settle now e0)) in E; [| | done].
    + eexists. split; [right; split; [done |]; split; [done |] | exact E].
      exists ctx', v, e, s. rewrite Hce. split_and!; try done. intros k q Hk Hkc.
      specialize (Hmin k q Hk Hkc). unfold last_used in Hmin at 1. by rewrite Hev in Hmin.
    + unfold upsertPersist. destruct (negb _); cbn; by rewrite lookup_insert_ne.
  - left. injection E as <- <-. exists (ErrUnknownPolicy (overloadPolicy p1)). split; [| done].
    split; [done | by right].
Qed.

Lemma active_ext p p' : heap p' = heap p → entries p' = entries p → active p' = active p.
Proof. unfold active. by intros -> ->. Qed.
Lemma view_ext p p' k : heap p' = heap p → entries p' = entries p → view p' k = view p k.
Proof. unfold view. by intros -> ->. Qed.

Lemma upsert_fields ctx rec p :
  heap (upsertPersist ctx rec p) = heap p ∧ entries (upsertPersist ctx rec p) = entries p ∧
  config (upsertPersist ctx rec p) = config p ∧ forgotten (upsertPersist ctx rec p) = forgotten p.
Proof. unfold upsertPersist. by destruct (negb _). Qed.

Lemma persist_created_fields now ctx sid p :
  heap (persist_created now ctx sid p) = heap p ∧ entries (persist_created now ctx sid p) = entries p ∧
  config (persist_created now ctx sid p) = config p ∧ forgotten (persist_created now ctx sid p) = forgotten p.
Proof. unfold persist_created. case_match; [apply upsert_fields | done]. Qed.

(** What replacing one context's entry does to the others. *)
Lemma replace_entry c p ctx ptr e p' :
  wf c p → entries p !! ctx = Some ptr → heap p' = <[ptr := e]> (heap p) → entries p' = entries p →
  active p' = (if live_entry e then <[ctx := ptr]> (active p) else delete ctx (active p)) ∧
  (∀ k, view p' k = if decide (k = ctx) then Some e else view p k).
Proof.
  intros Hwf Hp Hh He. split.
  - rewrite <- (active_set_entry c p ctx ptr e Hwf Hp). by apply active_ext.
  - intros k. rewrite <- (view_set_entry c p Hwf ctx ptr e k Hp). by apply view_ext.
Qed.

Lemma live_settle c p ptr now e : wf c p → heap p !! ptr = Some e → live_entry (settle now e) = false.
Proof.
  intros Hwf He. destruct (settle_fields c p ptr now e Hwf He) as (H & _).
  unfold live_entry. rewrite H. by destruct (state _).
Qed.

(** The first part of a lookup that misses, as one change of the pool. *)
Lemma lookup_miss_spec c healthy now ctx p p0 ptr e0 p1 :
  wf c p → stopped p = false → lookup_entry ctx p = (p0, Some ptr) → heap p0 !! ptr = Some e0 →
  usable healthy e0 = false → lookup_hit healthy now ptr p0 = (p1, None) →
  wf c p1 ∧ config p1 = config p ∧ store p1 = store p ∧ entries p1 !! ctx = Some ptr ∧
  heap p1 !! ptr = Some (settle now e0) ∧ session (settle now e0) = None ∧
  contextID (settle now e0) = ctx ∧
  sessionID (settle now e0) = from_option sessionID "" (view p ctx) ∧
  active p1 = delete ctx (active p) ∧ (∀ k, k ≠ ctx → view p1 k = view p k ∧ entries p1 !! k = entries p !! k).
Proof.
  intros Hwf Hs El He Hu Eh.
  destruct (lookup_entry_spec c ctx p Hwf Hs) as (p0' & ptr' & e0' & El' & Hwf0 & Hc & Hst & _ & Hp & He' & Ho & Ha & Hd).
  rewrite El in El'. injection El' as <- <-. rewrite He in He'. injection He' as <-.
  destruct (lookup_hit_miss healthy now ptr p0 e0 He Hu) as (p1' & Eh' & E1 & E2 & E3 & E4 & E5 & E6 & E7 & E8 & E9 & E10).
  rewrite Eh in Eh'. injection Eh' as <-.
  pose proof (wf_lookup_hit c healthy now ptr p0 Hwf0) as Hwf1. rewrite Eh in Hwf1. cbn in Hwf1.
  destruct (settle_fields c p0 ptr now e0 Hwf0 He) as (F1 & F2 & F3 & F4).
  destruct (replace_entry c p0 ctx ptr (settle now e0) p1 Hwf0 Hp E2 E1) as [Ract Rview].
  rewrite (live_settle c p0 ptr now e0 Hwf0 He), Ha in Ract.
  split_and!; try done.
  - rewrite <- Hc. unfold lookup_hit in Eh. rewrite He in Eh. repeat case_match; by simplify_eq.
  - rewrite <- Hst. unfold store. by rewrite E3, E4, E9.
  - by rewrite E1.
  - by rewrite E2, lookup_insert_eq.
  - rewrite F3. eapply (view_contextID c p0 Hwf0). apply view_Some. eauto.
  - rewrite F2, Hd. by destruct (view p ctx).
  - intros k Hk. rewrite Rview, decide_False, E1 by done. by destruct (Ho k Hk) as (? & ? & _).
Qed.

(** The views of the other contexts after a lookup: untouched, or the least
    recently used one of them evicted to make room. *)
Definition others_kept (now : time) (ctx : string) (p p' : SessionPool) : Prop :=
  (∀ k, k ≠ ctx → view p' k = view p k) ∨
  overloadPolicy p = OverloadEvictLRU ∧ (0 < maxActive p ≤ Z.of_nat (rivals ctx p))%Z ∧
  ∃ victim e, victim ≠ ctx ∧ view p victim = Some e ∧ live_entry e = true ∧
    view p' victim = Some (evict now (gate e) e) ∧
    (∀ k e', k ≠ ctx → view p k = Some e' → live_entry e' = true → lastUsed e ≤ lastUsed e')%Z ∧
    (∀ k, k ≠ ctx → k ≠ victim → view p' k = view p k).

Lemma room_spec c now ctx ptr p p' :
  wf c p → room now ctx p p' → entries p !! ctx = Some ptr →
  entries p' = entries p ∧ heap p' !! ptr = heap p !! ptr ∧ others_kept now ctx p p' ∧
  config p' = config p ∧ wf c p' ∧
  (0 < maxActive p → Z.of_nat (rivals ctx p) ≤ maxActive p → Z.of_nat (rivals ctx p') < maxActive p)%Z.
Proof.
  intros Hwf Hroom Hp. destruct Hroom as [[-> Hlt] | (Hge & Epol & ctx' & v & e & s & Hne & Hv & He & Hst & Hse & Hc & Hmin & ->)].
  { split_and!; try done; [by left | lia]. }
  set (p1 := set_entry v _ _). destruct (upsert_fields ctx' (evicted_record now e) p1) as (F1 & F2 & F3 & F4).
  destruct (replace_entry c p ctx' v (evict now (gate e) e) (upsertPersist ctx' (evicted_record now e) p1))
    as [Ract Rview]; [done | done | by rewrite F1 | by rewrite F2 |]. cbn in Ract.
  assert (live_entry e = true) as Hlive by (unfold live_entry; by rewrite Hst, Hse).
  assert (view p ctx' = Some e) as Hview by (apply view_Some; eauto).
  split_and!.
  - by rewrite F2.
  - rewrite F1. cbn. rewrite lookup_insert_ne; [done |]. intros ->. apply Hne. by eapply (entries_inj c p Hwf).
  - right. split; [done |]. split; [done |]. exists ctx', e. split_and!; try done.
    + by rewrite Rview, decide_True.
    + intros k e' Hk (q & Hq & He')%view_Some Hl. specialize (Hmin k q).
      unfold last_used in Hmin. rewrite He' in Hmin. apply Hmin; [| done]. apply active_Some.
      split; [done |]. unfold live. by rewrite He'.
    + intros k Hk Hk'. by rewrite Rview, decide_False.
  - by rewrite F3.
  - eapply wf_core; [symmetry; apply core_upsert |]. apply (wf_close _ _ _ e); try done. 
  - intros Hmax Hle. unfold rivals in *. rewrite Ract, delete_delete.
    assert (is_Some (delete ctx (active p) !! ctx')) as Hin.
    { exists v. rewrite lookup_delete_ne by done. apply active_Some. split; [done |]. unfold live. by rewrite He. }
    rewrite map_size_delete_Some by done. destruct (map_size_ne_0_lookup (delete ctx (active p))) as [_ H].
    assert (size (delete ctx (active p)) ≠ 0) by (apply H; naive_solver). lia.
Qed.

Lemma create_spec c factory now ctx ptr p e p' r :
  wf c p → entries p !! ctx = Some ptr → heap p !! ptr = Some e →
  lookup_create factory now ctx ptr p = (p', r) →
  (factory ctx (sessionID e) = None ∧ p' = p ∧ r = inr ErrFactory) ∨
  ∃ s sync w, factory ctx (sessionID e) = Some (s, sync) ∧ r = inl (w, s) ∧ config p' = config p ∧
    entries p' = entries p ∧ heap p' = <[ptr := created_entry now e s sync w]> (heap p) ∧
    (∀ k, view p' k = if decide (k = ctx) then Some (created_entry now e s sync w) else view p k) ∧
    active p' = <[ctx := ptr]> (active p).
Proof.
  intros Hwf Hp He E. apply (lookup_create_spec factory now ctx ptr p e p' r He) in E
    as [E | (s & sync & w & n & E1 & E2 & ->)]; [by left | right].
  set (q := set_entry _ _ _). exists s, sync, w.
  destruct (persist_created_fields now ctx (default (sessionID e) sync) q) as (F1 & F2 & F3 & _).
  destruct (replace_entry c p ctx ptr (created_entry now e s sync w)
    (persist_created now ctx (default (sessionID e) sync) q)) as [Ract Rview];
    [done | done | by rewrite F1 | by rewrite F2 |].
  split_and!; done.
Qed.

Lemma others_kept_l now ctx p p1 p2 :
  (∀ k, k ≠ ctx → view p1 k = view p k) → overloadPolicy p1 = overloadPolicy p →
  maxActive p1 = maxActive p → rivals ctx p1 = rivals ctx p →
  others_kept now ctx p1 p2 → others_kept now ctx p p2.
Proof.
  intros Hv Epol Em Eriv [Hk | (G1 & G2 & v & e & G3 & G4 & G5 & G6 & G7 & G8)]; [left | right].
  - intros k Hne. rewrite Hk by done. by apply Hv.
  - rewrite Epol in G1. rewrite Em, Eriv in G2. split; [done |]. split; [done |].
    exists v, e. rewrite <- (Hv v G3). split_and!; try done.
    + intros k e' Hk. rewrite <- (Hv k Hk). by apply G7.
    + intros k Hk Hk'. rewrite G8 by done. by apply Hv.
Qed.

Lemma others_kept_r now ctx p p2 p3 :
  (∀ k, k ≠ ctx → view p3 k = view p2 k) → others_kept now ctx p p2 → others_kept now ctx p p3.
Proof.
  intros Hv [Hk | (K1 & K2 & v & e & K3 & K4 & K5 & K6 & K7 & K8)]; [left | right].
  - intros k Hne. rewrite Hv by done. by apply Hk.
  - split; [done |]. split; [done |]. exists v, e. split_and!; try done.
    + by rewrite Hv.
    + intros k Hk Hk'. rewrite Hv by done. by apply K8.
Qed.

(** What a lookup hands out is the live session of the context's entry. *)
Definition hands_out (p' : SessionPool) (ctx : string) (w : Z) (s : Session) : Prop :=
  ∃ e, view p' ctx = Some e ∧ state e = entryActive ∧ session e = Some s ∧ gatedWrap e = Some (w, s).

Lemma hit_spec c ctx p p0 ptr e0 s w now n :
  wf c p → stopped p = false → lookup_entry ctx p = (p0, Some ptr) → heap p0 !! ptr = Some e0 →
  state e0 = entryActive → session e0 = Some s →
  let p' := set_entry ptr (with_wrap (Some (w, s)) (touch now e0)) (with_next n p0) in
  active p' = active p ∧ config p' = config p ∧ store p' = store p ∧
  (∀ k, k ≠ ctx → view p' k = view p k) ∧ view p ctx = Some e0 ∧
  view p' ctx = Some (with_wrap (Some (w, s)) (touch now e0)) ∧ hands_out p' ctx w s.
Proof.
  intros Hwf Hs El He Hst Hse p'.
  destruct (lookup_entry_spec c ctx p Hwf Hs)
    as (q0 & qtr & q & El' & Hwf0 & Hc0 & Hs0 & _ & Hp0 & Hq & Ho & Ha0 & Hd).
  rewrite El in El'. injection El' as <- <-. rewrite He in Hq. injection Hq as <-.
  set (e1 := with_wrap (Some (w, s)) (touch now e0)) in *.
  destruct (replace_entry c p0 ctx ptr e1 p' Hwf0 Hp0 eq_refl eq_refl) as [Ract Rview].
  assert (active p' = active p) as Ha.
  { rewrite Ract. unfold live_entry. cbn. rewrite Hst, Hse, Ha0. apply insert_id.
    rewrite <- Ha0. apply active_Some. split; [done |]. unfold live, live_entry. rewrite He. cbn. by rewrite Hst, Hse. }
  split_and!; try done.
  - intros k Hk. rewrite Rview, decide_False by done. by apply Ho.
  - destruct (view p ctx); cbn in Hd; subst e0; done.
  - by rewrite Rview, decide_True.
  - exists e1. by rewrite Rview, decide_True.
Qed.

(** The contexts that compete with the new session, once it is known to miss. *)
Lemma miss_rivals ctx p p1 :
  active p1 = delete ctx (active p) →
  rivals ctx p1 = rivals ctx p ∧ rivals ctx p1 = size (active p1) ∧ rivals ctx p1 ≤ size (active p).
Proof.
  unfold rivals. intros ->. rewrite delete_delete_eq. split_and!; [done | done |].
  rewrite map_size_delete. destruct (active p !! ctx); unfold id; lia.
Qed.

Lemma usable_Some healthy e : usable healthy e = true → state e = entryActive ∧ live_entry e = true.
Proof. unfold usable, live_entry. destruct (state e); [| done]. by destruct (session e). Qed.

Lemma miss_respects_cap c factory now now' ctx ptr p p1 p2 p' r e :
  wf c p1 → entries p1 !! ctx = Some ptr → heap p1 !! ptr = Some e → session e = None →
  active p1 = delete ctx (active p) → (∀ k, k ≠ ctx → view p1 k = view p k) → config p1 = config p →
  (0 < maxActive p)%Z → (Z.of_nat (size (active p)) ≤ maxActive p)%Z →
  room now' ctx p1 p2 → lookup_create factory now ctx ptr p2 = (p', r) →
  (Z.of_nat (size (active p')) ≤ maxActive p')%Z ∧ others_kept now' ctx p p' ∧
  match r with inl (w, s) => hands_out p' ctx w s | inr err => err = ErrFactory end.
Proof.
  intros Hwf1 Hp1 He1 Hn1 Ha1 Hv1 Hc1 Hmax Hle Hroom Ec.
  destruct (miss_rivals ctx p p1 Ha1) as (Eriv & Eriv' & Hriv).
  destruct (room_spec c now' ctx ptr p1 p2 Hwf1 Hroom Hp1) as (F1 & F2 & F3 & F4 & Hwf2 & F5).
  injection Hc1 as _ _ Em Epol _ _ _.
  pose proof (others_kept_l now' ctx p p1 p2 Hv1 Epol Em Eriv F3) as Hok.
  rewrite <- F1 in Hp1. rewrite <- F2 in He1.
  assert (active p2 !! ctx = None) as Hnone.
  { apply eq_None_not_Some. intros [x [Hx (y & s & Hy & Hst & Hsy)%live_Some]%active_Some]. congruence. }
  assert (maxActive p2 = maxActive p) as Em2 by (injection F4 as _ _ H _ _ _ _; lia).
  assert (size (active p2) = rivals ctx p2) as Esz by (unfold rivals; by rewrite delete_id).
  destruct (create_spec c factory now ctx ptr p2 e p' r Hwf2 Hp1 He1 Ec)
    as [(_ & -> & ->) | (s & sync & w & _ & -> & G1 & _ & _ & G3 & G4)]; [split_and!; [lia | done..] |].
  injection G1 as _ _ G1 _ _ _ _. split_and!.
  - rewrite G4, map_size_insert_None by done. lia.
  - apply (others_kept_r _ _ _ p2); [| done]. intros k Hk. by rewrite G3, decide_False.
  - eexists. rewrite G3, decide_True by done. by split_and!.
Qed.

(** (C5) A lookup respects the capacity, when no other operation of the pool comes
    between its two sections: concurrent lookups may together exceed it, as the code
    says (session_pool.go:566). With a capacity set, the pool not stopped, and at most
    [maxActive] live sessions before it, there are at most as many after it; it hands out a live session
    held by the context's own entry; a refusal under [OverloadReject] leaves
    every other context alone; and under [OverloadEvictLRU] at most one other
    context changes, the least recently used one, which is evicted with its
    session id kept for a later resume. *)
Theorem lookup_respects_cap c factory healthy range now now' ctx p p' r :
  wf c p → range_law range → stopped p = false → (0 < maxActive p)%Z →
  (Z.of_nat (size (active p)) ≤ maxActive p)%Z →
  LookupOrCreate factory healthy range now now' ctx p = (p', r) →
  (Z.of_nat (size (active p')) ≤ maxActive p')%Z ∧ others_kept now' ctx p p' ∧
  match r with
  | inl (w, s) => hands_out p' ctx w s
  | inr err => err = ErrFactory ∨ ∀ k, k ≠ ctx → view p' k = view p k
  end.
Proof.
  intros Hwf Hrange Hs Hmax Hle E.
  destruct (LookupOrCreate_outcomes c factory healthy range now now' ctx p p' r Hwf Hrange Hs E)
    as (p0 & ptr & e0 & El & He & [(Hu & w & s & n & -> & Hse & _ & _ & ->) | (Hu & p1 & Eh & Hcase)]).
  - destruct (usable_Some healthy e0 Hu) as [Hst _].
    destruct (hit_spec c ctx p p0 ptr e0 s w now n Hwf Hs El He Hst Hse) as (Ha & Hc & _ & Ho & _ & _ & Hh).
    split_and!; [| by left | done]. injection Hc as _ _ Em _ _ _ _. rewrite Ha. cbn. lia.
  - destruct (lookup_miss_spec c healthy now ctx p p0 ptr e0 p1 Hwf Hs El He Hu Eh)
      as (Hwf1 & Hc1 & _ & Hp1 & He1 & Hn1 & _ & _ & Ha1 & Hv1).
    assert (∀ k, k ≠ ctx → view p1 k = view p k) as Hv by (intros k Hk; by apply Hv1).
    destruct Hcase as [(err & Href & -> & ->) | (p2 & Hroom & Ec)].
    + destruct (miss_rivals ctx p p1 Ha1) as (_ & E1 & E2). injection Hc1 as _ _ Em _ _ _ _.
      split_and!; [lia | by left | by right].
    + destruct (miss_respects_cap c factory now now' ctx ptr p p1 p2 p' r (settle now e0)) as (G1 & G2 & G3); try done.
      split_and!; [done | done |]. destruct r as [[w s] | err]; [done | by left].
Qed.

(** ** Stability and resumption *)

Lemma LookupOrCreate_success c factory healthy range now now' ctx p p' w s :
  wf c p → range_law range → stopped p = false →
  LookupOrCreate factory healthy range now now' ctx p = (p', inl (w, s)) →
  hands_out p' ctx w s ∧ stopped p' = false ∧
  ((∃ e, view p ctx = Some e ∧ usable healthy e = true ∧ session e = Some s ∧
      (∀ w0, gatedWrap e = Some (w0, s) → w = w0)) ∨
   (∀ e, view p ctx = Some e → usable healthy e = false) ∧
   ∃ sync, factory ctx (from_option sessionID "" (view p ctx)) = Some (s, sync) ∧
     from_option sessionID "" (view p' ctx) = default (from_option sessionID "" (view p ctx)) sync).
Proof.
  intros Hwf Hrange Hs E.
  destruct (LookupOrCreate_outcomes c factory healthy range now now' ctx p p' _ Hwf Hrange Hs E)
    as (p0 & ptr & e0 & El & He & [(Hu & w' & s' & n & [= <- <-] & Hse & _ & Hw & ->) | (Hu & p1 & Eh & Hcase)]).
  - destruct (usable_Some healthy e0 Hu) as [Hst _].
    destruct (hit_spec c ctx p p0 ptr e0 s w now n Hwf Hs El He Hst Hse) as (_ & Hc & _ & _ & Hv & _ & Hh).
    split; [done |]. injection Hc as _ Hc _ _ _ _ _. split; [cbn; congruence |]. left. by exists e0.
  - destruct (lookup_miss_spec c healthy now ctx p p0 ptr e0 p1 Hwf Hs El He Hu Eh)
      as (Hwf1 & Hc1 & _ & Hp1 & He1 & Hn1 & _ & Hsid & _ & _).
    destruct Hcase as [(err & _ & _ & [=]) | (p2 & Hroom & Ec)].
    destruct (room_spec c now' ctx ptr p1 p2 Hwf1 Hroom Hp1) as (F1 & F2 & _ & F4 & Hwf2 & _).
    rewrite <- F1 in Hp1. rewrite <- F2 in He1.
    destruct (create_spec c factory now ctx ptr p2 (settle now e0) p' _ Hwf2 Hp1 He1 Ec)
      as [(_ & _ & [=]) | (s' & sync & w' & Ef & [= -> ->] & G1 & _ & _ & G3 & _)].
    split; [eexists; rewrite G3, decide_True by done; by split_and! |].
    injection G1 as _ G1 _ _ _ _ _. injection F4 as _ F4 _ _ _ _ _. injection Hc1 as _ Hc1 _ _ _ _ _.
    split; [congruence |]. right. rewrite Hsid in Ef. split.
    + intros e Hv. destruct (lookup_entry_spec c ctx p Hwf Hs)
        as (q0 & qtr & q & El' & _ & _ & _ & _ & _ & Hq & _ & _ & Hd).
      rewrite El in El'. injection El' as <- <-. rewrite Hv in Hd. cbn in Hd. congruence.
    + exists sync. split; [done |]. rewrite G3, decide_True by done. cbn. by rewrite Hsid.
Qed.

(** A session is handed out until it dies, and its conversation outlives
    it. A successful lookup returns the context's live session; while that
    session is healthy every later lookup returns the same session in the same
    wrapper, whatever the factory would do; and when there was no usable session,
    the factory was asked to resume exactly the session id the context's entry
    remembers (the empty one for a new context), which the entry keeps unless the
    new session reports another at once. *)
Lemma lookup_stable c factory healthy range now now' ctx p p' w s :
  wf c p → range_law range → stopped p = false →
  LookupOrCreate factory healthy range now now' ctx p = (p', inl (w, s)) →
  hands_out p' ctx w s ∧
  (∀ factory' healthy' range' t t', healthy' s = true →
     snd (LookupOrCreate factory' healthy' range' t t' ctx p') = inl (w, s)) ∧
  ((∃ e, view p ctx = Some e ∧ session e = Some s ∧ healthy s = true) ∨
   ∃ sync, factory ctx (from_option sessionID "" (view p ctx)) = Some (s, sync) ∧
     from_option sessionID "" (view p' ctx) = default (from_option sessionID "" (view p ctx)) sync).
Proof.
  intros Hwf Hrange Hs E.
  destruct (LookupOrCreate_success c factory healthy range now now' ctx p p' w s Hwf Hrange Hs E) as (Hh & Hs' & Hcase).
  split; [done |]. split.
  - intros f' h' range' t t' Hhealthy. destruct Hh as (e & (ptr & Hp & He)%view_Some & Hst & Hse & Hw).
    assert (usable h' e = true) as Hu by (unfold usable; by rewrite Hst, Hse).
    destruct (LookupOrCreate_hit f' h' range' t t' ctx p' ptr e Hs' Hp He Hu) as (s' & w' & g & n & E1 & _ & _ & E3 & E4).
    rewrite E4. cbn. rewrite Hse in E1. injection E1 as <-. by rewrite (E3 w Hw).
  - destruct Hcase as [(e & Hv & Hu & Hse & _) | [_ H]]; [left | by right].
    exists e. split_and!; [done | done |]. unfold usable in Hu. rewrite Hse in Hu. by destruct (state e).
Qed.

(** A pool of capacity one: a second context under each policy. *)
Definition visit (m : gmap string Z) : list (string * Z) := map_to_list m.
Definition resuming_factory (s : Session) : Factory :=
  λ ctx resume, Some (s, Some (if nonempty resume then resume else ctx +:+ "-sid")).

Definition one_session (policy : OverloadPolicy) : SessionPool :=
  fst (LookupOrCreate (resuming_factory 1%Z) (λ _, true) visit 10 10 "a"
    (SetCap 1 policy (newPool 100 1000 true))).

Lemma one_session_wf policy : wf ({[1%Z]} ∪ ∅) (one_session policy).
Proof.
  assert (wf ∅ (SetCap 1 policy (newPool 100 1000 true))) as Hnew.
  { apply (wf_core _ (newPool 100 1000 true)); [done | apply (pool_wf_new 0 100 1000 (Some None))]. }
  pose proof (wf_lookup_entry ∅ "a" _ Hnew) as Hwf0.
  refine (wf_lookup_create ∅ (λ _, true) (resuming_factory 1%Z) 10%Z 0%Z _ 1%Z 1%Z _ _ _ Hwf0 _ _ _ _);
    [vm_compute; reflexivity | vm_compute; reflexivity | set_solver | vm_compute; reflexivity].
Qed.

Lemma lookup_respects_cap_witness :
  snd (LookupOrCreate (resuming_factory 2%Z) (λ _, true) visit 20 20 "b" (one_session OverloadReject)) =
    inr (ErrAtCapacity 1) ∧
  others_kept 20 "b" (one_session OverloadEvictLRU)
    (fst (LookupOrCreate (resuming_factory 2%Z) (λ _, true) visit 20 20 "b" (one_session OverloadEvictLRU))).
Proof.
  split; [by vm_compute |].
  destruct (LookupOrCreate (resuming_factory 2%Z) (λ _, true) visit 20 20 "b" (one_session OverloadEvictLRU))
    as [p' r] eqn:E.
  apply (lookup_respects_cap _ _ _ _ _ _ _ _ _ _ (one_session_wf OverloadEvictLRU)
    (λ m, Permutation_refl _) eq_refl) in E; [by destruct E as (_ & E & _) | reflexivity | vm_compute; discriminate].
Defined.

Lemma lookup_stable_witness :
  snd (LookupOrCreate (resuming_factory 9%Z) (λ _, true) visit 30 30 "b"
    (fst (LookupOrCreate (resuming_factory 2%Z) (λ _, true) visit 20 20 "b" (one_session OverloadEvictLRU)))) =
  inl (3%Z, 2%Z).
Proof.
  destruct (LookupOrCreate (resuming_factory 2%Z) (λ _, true) visit 20 20 "b" (one_session OverloadEvictLRU))
    as [p' r] eqn:E.
  assert (r = inl (3%Z, 2%Z)) as ->.
  { apply (f_equal snd) in E. vm_compute in E. by rewrite <- E. }
  apply (lookup_stable _ _ _ _ _ _ _ _ _ _ _ (one_session_wf OverloadEvictLRU)
    (λ m, Permutation_refl _) eq_refl) in E as (_ & E & _).
  by apply E.
Defined.
