(* ===== verification/PoolPersist.v ===== *)
(** * The pool's operations as runs, and what survives a restart

    The exported operations are runs of the critical sections of [PoolReaper],
    so that its invariant holds of them; run one after another they keep the
    persisted map in step with the entries, and a pool built from the last saved
    map resumes the conversations of the one before. *)
From S2P Require Import Prelude GoBase GoStrings TurnGate SessionPool PoolReaper PoolLaws.
From Stdlib Require Import ZArith Lia.

(** ** Operations are runs of sections *)

Lemma run_fold {A B} (f : A → B → A) (proj : A → SessionPool) c (l : list B) a :
  (∀ a b, rtc step (c, proj a) (c, proj (f a b))) →
  rtc step (c, proj a) (c, proj (foldl f a l)).
Proof.
  intros Hf. revert a. induction l as [| b l IH]; intros a; [apply rtc_refl |].
  etrans; [apply Hf | apply IH].
Qed.

Lemma run_forgets c p l : rtc step (c, p) (c, foldl (flip forget) p l).
Proof. apply (run_fold (flip forget) id). intros. apply rtc_once, step_section, sec_forget. Qed.

Lemma run_enforceMaxEvicted c range sort p : rtc step (c, p) (c, enforceMaxEvicted range sort p).
Proof.
  unfold enforceMaxEvicted. case_match; [apply rtc_refl |]. case_match; [apply rtc_refl |].
  match goal with |- context [foldl drop_candidate ?a ?l] =>
    pose proof (run_fold drop_candidate fst c l a) as Hrun; destruct (foldl drop_candidate a l) as [q deleted] end.
  etrans; [apply Hrun | apply run_forgets]. intros [p1 del] cand. apply rtc_once, step_section, sec_drop.
Qed.

Lemma run_reapOnce c now range range' sort p : rtc step (c, p) (c, reapOnce now range range' sort p).
Proof.
  unfold reapOnce.
  pose proof (run_fold (reap_entry now) (λ a, fst (fst a)) c ((range (entries p)).*2) (p, [], [])) as Hrun.
  destruct (foldl (reap_entry now) _ _) as [[p1 evicted] toDelete]. cbn in Hrun.
  etrans; [apply Hrun; intros [[p2 ev] del] ptr; apply rtc_once, step_section, sec_reap |].
  etrans; [apply (run_fold (λ p x, upsertPersist x.1 x.2 p) id c evicted p1); intros; apply rtc_once, step_section, sec_save |].
  etrans; [apply (run_fold delete_evicted id c toDelete); intros; apply rtc_once, step_section, sec_delete |].
  etrans; [apply run_forgets | apply run_enforceMaxEvicted].
Qed.

Lemma run_Stop c range p : rtc step (c, p) (c, Stop range p).
Proof.
  unfold Stop. case_match; [apply rtc_refl |].
  eapply rtc_l; [apply step_stopped |].
  apply (run_fold stop_entry id). intros. apply rtc_once, step_stop_entry.
Qed.

Definition created_after (c : Created) (r : Z * Session + pool_error) : Created :=
  match r with inl (_, s) => {[s]} ∪ c | inr _ => c end.

Definition fresh_factory (c : Created) (factory : Factory) : Prop :=
  ∀ ctx r s x, factory ctx r = Some (s, x) → s ∉ c.

Lemma run_room now ctx c p p' : room now ctx p p' → rtc step (c, p) (c, p').
Proof.
  intros [[-> _] | (_ & _ & ctx' & v & e & s & _ & _ & He & Hst & Hse & Hc & _ & ->)]; [apply rtc_refl |].
  apply rtc_once. rewrite <- Hc, <- (evictForCap_spec now v p e s He Hst Hse). apply step_section, sec_evict.
Qed.

Lemma run_LookupOrCreate c factory healthy range now now' ctx p p' r :
  wf c p → range_law range → fresh_factory c factory →
  LookupOrCreate factory healthy range now now' ctx p = (p', r) →
  rtc step (c, p) (created_after c r, p').
Proof.
  intros Hwf Hrange Hf E. destruct (stopped p) eqn:Hs.
  { unfold LookupOrCreate, lookup_entry in E. rewrite Hs in E. injection E as <- <-. apply rtc_refl. }
  pose proof E as E'.
  destruct (LookupOrCreate_outcomes c factory healthy range now now' ctx p p' r Hwf Hrange Hs E)
    as (p0 & ptr & e0 & El & He & Hcase).
  eapply rtc_l; [apply step_section, (sec_lookup_entry p ctx) |]. rewrite El. cbn [fst].
  destruct Hcase as [(Hu & w & s & n & -> & Hse & _ & _ & ->) | (Hu & p1 & Eh & Hcase)].
  - pose proof (wf_lookup_entry c ctx p Hwf) as Hwf0. rewrite El in Hwf0. cbn in Hwf0.
    assert (s ∈ c) as Hin by (eapply (wf_live c p0 Hwf0); eauto).
    cbn. replace ({[s]} ∪ c) with c by set_solver.
    unfold LookupOrCreate in E'. rewrite El in E'.
    destruct (lookup_hit_usable healthy now ptr p0 e0 He Hu) as (s' & w' & g & n' & _ & _ & _ & _ & _ & Eh).
    rewrite Eh in E'. apply (f_equal fst) in E'. cbn [fst] in E'. apply rtc_once.
    pose proof (step_section c _ _ (sec_lookup_hit p0 healthy now ptr)) as Hstep. rewrite Eh in Hstep. cbn [fst] in Hstep.
    by rewrite E' in Hstep.
  - destruct (lookup_miss_spec c healthy now ctx p p0 ptr e0 p1 Hwf Hs El He Hu Eh)
      as (Hwf1 & _ & _ & Hp1 & He1 & Hn1 & Hctx & _ & _ & _).
    pose proof (step_section c _ _ (sec_lookup_hit p0 healthy now ptr)) as Hstep. rewrite Eh in Hstep. cbn in Hstep.
    eapply rtc_l; [exact Hstep |].
    destruct Hcase as [(err & _ & -> & ->) | (p2 & Hroom & Ec)]; [apply rtc_refl |].
    etrans; [by apply (run_room now' ctx) |]. apply rtc_once.
    destruct (room_spec c now' ctx ptr p1 p2 Hwf1 Hroom Hp1) as (_ & F2 & _). rewrite He1 in F2.
    pose proof (lookup_hit_empty healthy now ptr p2 (settle now e0) F2 Hn1) as Eh2.
    destruct (lookup_create_spec factory now ctx ptr p2 (settle now e0) p' r F2 Ec)
      as [(_ & _ & ->) | (s & sync & w & n & Ef & -> & _)].
    + by eapply step_section, sec_create_failed.
    + eapply step_create; [exact F2 | exact Eh2 | by eapply Hf |]. by rewrite Hctx.
Qed.

(** ** The operations *)

Inductive op : Created * SessionPool → Created * SessionPool → Prop :=
| op_lookup c p factory healthy range now now' ctx p' r :
    range_law range → fresh_factory c factory →
    LookupOrCreate factory healthy range now now' ctx p = (p', r) →
    op (c, p) (created_after c r, p')
| op_known c p ctx owner sid : op (c, p) (c, handleSessionIDKnown ctx owner sid p)
| op_finished c p now ptr owner : op (c, p) (c, markTurnFinished now ptr owner p)
| op_reap c p now range range' sort :
    range_law range → range_law range' → sort_law sort → op (c, p) (c, reapOnce now range range' sort p)
| op_gate c p ptr e g :
    heap p !! ptr = Some e →
    ((∃ d n t, g = fst (acquire d n t (gate e))) ∨ (∃ t, g = fst (acquire_cancel t (gate e))) ∨
     g = fst (release (gate e))) →
    op (c, p) (c, set_entry ptr (mkEntry (contextID e) (sessionID e) g (state e) (session e) (lastUsed e)
      (evictedAt e) (gatedWrap e)) p)
| op_SetCap c p max policy : op (c, p) (c, SetCap max policy p)
| op_SetMaxEvicted c p max : op (c, p) (c, SetMaxEvicted max p)
| op_SetQueueDepth c p d : op (c, p) (c, SetQueueDepth d p).

(** Every exported operation of the pool is a run of its critical
    sections, from a well-formed pool, so that everything shown of the
    interleaved sections holds of the operations. *)
Lemma operations_are_runs x y : wf (fst x) (snd x) → op x y → rtc step x y ∧ wf (fst y) (snd y).
Proof.
  intros Hwf Hop. assert (rtc step x y) as Hrun.
  { destruct Hop; cbn in Hwf.
    - by eapply run_LookupOrCreate.
    - apply rtc_once, step_section, sec_known.
    - apply rtc_once, step_section, sec_finished.
    - apply run_reapOnce.
    - by apply rtc_once, step_section, sec_gate.
    - apply rtc_once, step_section, sec_SetCap.
    - apply rtc_once, step_section, sec_SetMaxEvicted.
    - apply rtc_once, step_section, sec_SetQueueDepth. }
  split; [done |]. revert Hrun Hwf. apply (rtc_ind_l (λ x, wf (fst x) (snd x) → wf (fst y) (snd y))).
  - done.
  - intros a b Hs _ IH Ha. by apply IH, (pool_wf_step a).
Qed.

(** ** The persisted map and the entries

    [F] are contexts whose session id may not have been saved yet and [B]
    contexts that were deleted but not yet forgotten. *)
Record consistent_ex (F B : gset string) (p : SessionPool) : Prop := {
  cons_on : persist p = true;
  cons_fwd k e : k ∉ F → view p k = Some e → sessionID e ≠ "" →
    ∃ r, persistState p !! k = Some r ∧ SessionID r = sessionID e;
  cons_bwd k r : k ∉ B → persistState p !! k = Some r → is_Some (entries p !! k);
  cons_saved : match saves p with [] => True | m :: _ => m = persistState p end;
}.

Definition consistent : SessionPool → Prop := consistent_ex ∅ ∅.

Lemma ex_transfer F B p p' :
  persist p' = persist p → persistState p' = persistState p → saves p' = saves p →
  (∀ k e', k ∉ F → view p' k = Some e' → sessionID e' ≠ "" → ∃ e, view p k = Some e ∧ sessionID e = sessionID e') →
  (∀ k, is_Some (entries p !! k) → is_Some (entries p' !! k)) →
  consistent_ex F B p → consistent_ex F B p'.
Proof.
  intros E1 E2 E3 Hv Hk [H1 H2 H3 H4]. split; rewrite ?E1, ?E2, ?E3; try done.
  - intros k e' Hf He' Hs. destruct (Hv k e' Hf He' Hs) as (e & He & Es). rewrite <- Es in *. eauto.
  - intros k r Hb Hr. apply Hk. eauto.
Qed.

Lemma ex_upsert F B ctx rec p :
  consistent_ex F B p → is_Some (entries p !! ctx) →
  (∀ e, view p ctx = Some e → sessionID e ≠ "" → SessionID rec = sessionID e) →
  consistent_ex (F ∖ {[ctx]}) B (upsertPersist ctx rec p).
Proof.
  intros [H1 H2 H3 H4] Hc Hrec. unfold upsertPersist. rewrite H1. cbn [negb]. split; cbn; try done.
  - intros k e Hf Hv Hs. destruct (decide (k = ctx)) as [-> | Hk].
    + exists rec. rewrite lookup_insert_eq. split; [done |]. by apply Hrec.
    + rewrite lookup_insert_ne by done. apply H2; [set_solver | done | done].
  - intros k r Hb [[<- _] | [_ ?]]%lookup_insert_Some; eauto.
Qed.

Lemma ex_forget F B ctx p :
  consistent_ex F B p → entries p !! ctx = None → consistent_ex F (B ∖ {[ctx]}) (forget ctx p).
Proof.
  intros [H1 H2 H3 H4] Hc. unfold forget, removePersist. rewrite H1. cbn [negb]. split; cbn; try done.
  - intros k e Hf Hv Hs. assert (k ≠ ctx) as Hk.
    { intros ->. unfold view in Hv. cbn in Hv. by rewrite Hc in Hv. }
    rewrite lookup_delete_ne by done. by apply H2.
  - intros k r Hb [? ?]%lookup_delete_Some. eapply H3; [set_solver | done].
Qed.

Lemma ex_delete F B ctx p :
  consistent_ex F B p → consistent_ex F ({[ctx]} ∪ B) (with_entries (delete ctx (entries p)) p).
Proof.
  intros [H1 H2 H3 H4]. split; cbn; try done.
  - intros k e Hf Hv Hs. apply (H2 k e); [done | | done]. unfold view in *. cbn in Hv.
    apply bind_Some in Hv as (q & [_ Hq]%lookup_delete_Some & Hv). by rewrite Hq.
  - intros k r Hb Hr. rewrite lookup_delete_ne by set_solver. eapply H3; [set_solver | done].
Qed.

Lemma ex_forgets l p :
  consistent_ex ∅ (list_to_set l) p → (∀ k, k ∈ l → entries p !! k = None) →
  consistent (foldl (flip forget) p l).
Proof.
  revert p. induction l as [| k l IH]; intros p Hc Hl; [done |]. cbn. apply IH.
  - pose proof (ex_forget _ _ k p Hc (Hl k ltac:(by left))) as [H1 H2 H3 H4]. split; try done.
    intros k' r Hb Hr. apply (H3 k' r); [| done]. set_solver.
  - intros k' Hk'. cbn. unfold forget, removePersist. destruct (negb _); cbn; apply Hl; by right.
Qed.

(** Changing an entry without changing its session id. *)
Lemma ex_set_entry F B p ptr e e' p' :
  heap p !! ptr = Some e → sessionID e' = sessionID e →
  persist p' = persist p → persistState p' = persistState p → saves p' = saves p →
  heap p' = <[ptr := e']> (heap p) → entries p' = entries p →
  consistent_ex F B p → consistent_ex F B p'.
Proof.
  intros He Es E1 E2 E3 E4 E5. apply ex_transfer; try done; [| by rewrite E5].
  intros k x Hf (q & Hq & Hx)%view_Some Hs. rewrite E5 in Hq. rewrite E4 in Hx.
  apply lookup_insert_Some in Hx as [[-> ->] | [_ Hx]]; [exists e | exists x]; (split; [apply view_Some; eauto | done]).
Qed.

Lemma ex_weaken F F' B p : F' ⊆ F → consistent_ex F' B p → consistent_ex F B p.
Proof. intros Hf [H1 H2 H3 H4]. split; try done. intros k e Hk. apply H2. set_solver. Qed.

Lemma consistent_entry c ctx p p0 ptr :
  wf c p → stopped p = false → lookup_entry ctx p = (p0, Some ptr) → consistent p → consistent p0.
Proof.
  intros Hwf Hs El. destruct (lookup_entry_spec c ctx p Hwf Hs)
    as (q0 & q & e0 & El' & _ & Hc & Hst & _ & Hp0 & He & Ho & _ & Hd).
  rewrite El in El'. injection El' as <- <-.
  injection Hc as E1 _ _ _ _ _ _. injection Hst as E2 E3 _. apply ex_transfer; try done.
  - intros k e' _ Hv Hsid. destruct (decide (k = ctx)) as [-> | Hk].
    + apply view_Some in Hv as (q & Hq & Hv). rewrite Hp0 in Hq. injection Hq as <-.
      rewrite He in Hv. injection Hv as <-. destruct (view p ctx) as [e |]; cbn in Hd; subst e0; [by exists e | done].
    + destruct (Ho k Hk) as (_ & E & _). rewrite E in Hv. by exists e'.
  - intros k Hk. destruct (decide (k = ctx)) as [-> | Hne]; [eauto |]. by rewrite (proj1 (Ho k Hne)).
Qed.

Lemma consistent_miss c healthy now ctx p p0 ptr e0 p1 :
  wf c p → stopped p = false → lookup_entry ctx p = (p0, Some ptr) → heap p0 !! ptr = Some e0 →
  usable healthy e0 = false → lookup_hit healthy now ptr p0 = (p1, None) → consistent p → consistent p1.
Proof.
  intros Hwf Hs El He Hu Eh Hcons. pose proof (consistent_entry c ctx p p0 ptr Hwf Hs El Hcons) as Hc0.
  destruct (lookup_entry_spec c ctx p Hwf Hs) as (q0 & q & x & El' & Hwf0 & _ & _ & _ & Hp0 & _).
  rewrite El in El'. injection El' as <- <-.
  destruct (lookup_hit_miss healthy now ptr p0 e0 He Hu) as (p1' & Eh' & E1 & E2 & E3 & E4 & E5 & _).
  rewrite Eh in Eh'. injection Eh' as <-.
  by apply (ex_set_entry ∅ ∅ p0 ptr e0 (settle now e0) p1); try done; apply (settle_fields c p0 ptr now e0).
Qed.

Lemma consistent_room c now ctx p p' : wf c p → room now ctx p p' → consistent p → consistent p'.
Proof.
  intros Hwf [[-> _] | (_ & _ & ctx' & v & e & s & _ & Hv & He & _ & _ & _ & _ & ->)] Hcons; [done |].
  set (q := set_entry _ _ _).
  assert (consistent q) as Hq by (by apply (ex_set_entry ∅ ∅ p v e (evict now (gate e) e))).
  apply (ex_weaken _ (∅ ∖ {[ctx']})); [set_solver |]. apply ex_upsert; [done | by exists v |].
  intros e' (x & Hx & He')%view_Some _. cbn in Hx, He'. rewrite Hv in Hx. injection Hx as <-.
  rewrite lookup_insert_eq in He'. by injection He' as <-.
Qed.

Lemma consistent_create c factory now ctx ptr p e p' r :
  wf c p → entries p !! ctx = Some ptr → heap p !! ptr = Some e →
  lookup_create factory now ctx ptr p = (p', r) → consistent p → consistent p'.
Proof.
  intros Hwf Hp He E Hcons. apply (lookup_create_spec factory now ctx ptr p e p' r He) in E
    as [(_ & -> & _) | (s & sync & w & n & _ & _ & ->)]; [done |].
  set (e' := created_entry now e s sync w). set (q := set_entry ptr e' (with_next n p)).
  destruct (replace_entry c p ctx ptr e' q Hwf Hp eq_refl eq_refl) as [_ Hv].
  assert (consistent_ex {[ctx]} ∅ q) as Hq.
  { eapply (ex_transfer _ _ p); [reflexivity | reflexivity | reflexivity | | done | by eapply ex_weaken; [| exact Hcons]].
    intros k x Hk Hx _. rewrite Hv, decide_False in Hx by set_solver. by exists x. }
  assert (view q ctx = Some e') as Hctx by (by rewrite Hv, decide_True).
  unfold persist_created. destruct (nonempty _) eqn:En.
  - apply (ex_weaken _ ({[ctx]} ∖ {[ctx]})); [set_solver |]. apply ex_upsert; [done | by exists ptr |].
    intros x Hx _. rewrite Hctx in Hx. by injection Hx as <-.
  - destruct Hq as [H1 H2 H3 H4]. split; try done. intros k x _ Hx Hs. apply (H2 k x); [| done | done].
    intros ->%elem_of_singleton. rewrite Hctx in Hx. injection Hx as <-. cbn in Hs. by destruct (default _ _).
Qed.

Lemma consistent_lookup c factory healthy range now now' ctx p p' r :
  wf c p → range_law range → LookupOrCreate factory healthy range now now' ctx p = (p', r) →
  consistent p → consistent p'.
Proof.
  intros Hwf Hrange E Hcons. destruct (stopped p) eqn:Hs.
  { unfold LookupOrCreate, lookup_entry in E. rewrite Hs in E. by injection E as <- <-. }
  destruct (LookupOrCreate_outcomes c factory healthy range now now' ctx p p' r Hwf Hrange Hs E)
    as (p0 & ptr & e0 & El & He & [(Hu & w & s & n & -> & Hse & _ & _ & ->) | (Hu & p1 & Eh & Hcase)]).
  - pose proof (consistent_entry c ctx p p0 ptr Hwf Hs El Hcons) as Hc0.
    destruct (lookup_entry_spec c ctx p Hwf Hs) as (q0 & q & x & El' & Hwf0 & _ & _ & _ & Hp0 & _).
    rewrite El in El'. injection El' as <- <-.
    by apply (ex_set_entry ∅ ∅ p0 ptr e0 (with_wrap (Some (w, s)) (touch now e0))).
  - destruct (lookup_miss_spec c healthy now ctx p p0 ptr e0 p1 Hwf Hs El He Hu Eh)
      as (Hwf1 & _ & _ & Hp1 & He1 & _).
    pose proof (consistent_miss c healthy now ctx p p0 ptr e0 p1 Hwf Hs El He Hu Eh Hcons) as Hc1.
    destruct Hcase as [(err & _ & -> & _) | (p2 & Hroom & Ec)]; [done |].
    destruct (room_spec c now' ctx ptr p1 p2 Hwf1 Hroom Hp1) as (F1 & F2 & _ & _ & Hwf2 & _).
    pose proof (consistent_room c now' ctx p1 p2 Hwf1 Hroom Hc1) as Hc2.
    eapply (consistent_create c factory now ctx ptr p2); [done | by rewrite F1 | by rewrite F2 | done | done].
Qed.

Lemma consistent_known c ctx owner sid p :
  wf c p → consistent p → consistent (handleSessionIDKnown ctx owner sid p).
Proof.
  intros Hwf Hcons. unfold handleSessionIDKnown. destruct (negb _); [done |].
  destruct (entries p !! ctx) as [ptr |] eqn:Hp; [cbn | done].
  destruct (heap p !! ptr) as [e |] eqn:He; [cbn | done].
  case_decide; [done |]. case_decide; [done |].
  set (e' := mkEntry _ _ _ _ _ _ _ _). set (q := set_entry ptr e' p).
  destruct (replace_entry c p ctx ptr e' q Hwf Hp eq_refl eq_refl) as [_ Hv].
  apply (ex_weaken _ ({[ctx]} ∖ {[ctx]})); [set_solver |]. apply ex_upsert; [| by exists ptr |].
  - eapply (ex_transfer _ _ p); [reflexivity | reflexivity | reflexivity | | done | by eapply ex_weaken; [| exact Hcons]].
    intros k x Hk Hx _. rewrite Hv, decide_False in Hx by set_solver. by exists x.
  - intros x Hx _. rewrite Hv, decide_True in Hx by done. by injection Hx as <-.
Qed.

Lemma consistent_finished now ptr owner p : consistent p → consistent (markTurnFinished now ptr owner p).
Proof.
  intros Hcons. unfold markTurnFinished. destruct (heap p !! ptr) as [e |] eqn:He; [| done].
  case_decide; [| done]. by apply (ex_set_entry ∅ ∅ p ptr e (touch now e)).
Qed.

(** *** The sweep *)

Definition reap_inv (c : Created) (M : gmap string Z) (acc : SessionPool * list (string * PersistedRecord) * list string) : Prop :=
  let '(p, ev, del) := acc in
  wf c p ∧ consistent p ∧ entries p = M ∧
  (∀ k rec, (k, rec) ∈ ev → ∃ e, view p k = Some e ∧ SessionID rec = sessionID e) ∧
  (∀ k, k ∈ del → ∃ e, view p k = Some e ∧ state e = entryEvicted).

Lemma reap_inv_step c M now acc ptr :
  (∃ k, M !! k = Some ptr) → reap_inv c M acc → reap_inv c M (reap_entry now acc ptr).
Proof.
  destruct acc as [[p ev] del]. intros [k Hk] (Hwf & Hcons & HM & Hev & Hdel).
  pose proof (wf_reap c now ptr p ev del Hwf) as Hwf'. unfold reap_entry in *.
  destruct (heap p !! ptr) as [e |] eqn:He; [| done]. rewrite <- HM in Hk.
  assert (view p k = Some e) as Hv by (apply view_Some; eauto).
  pose proof (view_contextID c p Hwf k e Hv) as Hctx.
  destruct (state e) eqn:Hst.
  - destruct (session e) as [s |] eqn:Hse; [| done]. destruct (_ <? _)%Z; [| done].
    destruct (tryBeginEviction (gate e)) as [g ok]. destruct ok; [| done]. cbn [negb fst] in *.
    destruct (replace_entry c p k ptr (evict now g e) (set_entry ptr (evict now g e) (close s p))
      Hwf Hk eq_refl eq_refl) as [_ Hv'].
    split_and!; try done.
    + by apply (ex_set_entry ∅ ∅ p ptr e (evict now g e)).
    + intros k' rec [Hin | Hin%list_elem_of_singleton]%elem_of_app.
      * rewrite Hv'. case_decide as Hd; [| by apply Hev]. subst k'.
        destruct (Hev k rec Hin) as (x & Hx & ->). exists (evict now g e). split; [done |]. cbn. congruence.
      * injection Hin as -> ->. rewrite Hv', decide_True by done. by exists (evict now g e).
    + intros k' Hin. rewrite Hv'. case_decide; [by exists (evict now g e) | by apply Hdel].
  - destruct (_ <? _)%Z; [| done]. split_and!; try done.
    intros k' [Hin | ->%list_elem_of_singleton]%elem_of_app; [by apply Hdel |]. rewrite Hctx. by exists e.
Qed.

Lemma reap_inv_fold c M now acc ptrs :
  (∀ ptr, ptr ∈ ptrs → ∃ k, M !! k = Some ptr) → reap_inv c M acc →
  reap_inv c M (foldl (reap_entry now) acc ptrs).
Proof.
  revert acc. induction ptrs as [| ptr ptrs IH]; intros acc Hp Hi; [done |]. cbn. apply IH.
  - intros q Hq. apply Hp. by right.
  - apply reap_inv_step; [apply Hp; by left | done].
Qed.

Lemma upserts_fields ev p :
  let p' := foldl (λ p x, upsertPersist x.1 x.2 p) p ev in
  heap p' = heap p ∧ entries p' = entries p.
Proof.
  revert p. induction ev as [| x ev IH]; intros p; [done |]. cbn.
  destruct (IH (upsertPersist x.1 x.2 p)) as [E1 E2].
  destruct (upsert_fields x.1 x.2 p) as (F1 & F2 & _). cbn in *. by rewrite E1, E2.
Qed.

Lemma consistent_upserts ev p :
  (∀ k rec, (k, rec) ∈ ev → ∃ e, view p k = Some e ∧ SessionID rec = sessionID e) →
  consistent p → consistent (foldl (λ p x, upsertPersist x.1 x.2 p) p ev).
Proof.
  revert p. induction ev as [| [k rec] ev IH]; intros p Hev Hcons; [done |]. cbn. apply IH.
  - intros k' rec' Hin. destruct (Hev k' rec' ltac:(by right)) as (e & He & Hs). exists e. split; [| done].
    rewrite <- He. destruct (upsert_fields k rec p) as (F1 & F2 & _). by apply view_ext.
  - destruct (Hev k rec ltac:(by left)) as (e & He & Hs).
    apply (ex_weaken _ (∅ ∖ {[k]})); [set_solver |]. apply ex_upsert; [done | |].
    + apply view_Some in He as (q & -> & _). by eexists.
    + intros e' He' _. congruence.
Qed.

Lemma delete_evicted_spec p k e :
  view p k = Some e → state e = entryEvicted →
  delete_evicted p k = with_entries (delete k (entries p)) p.
Proof. unfold delete_evicted, view. intros -> Hs. by rewrite decide_True. Qed.

Lemma delete_evicted_gone p k : view p k = None → delete_evicted p k = p.
Proof. unfold delete_evicted, view. by intros ->. Qed.

Lemma consistent_deletes B del p :
  (∀ k, k ∈ del → view p k = None ∧ entries p !! k = None ∨ ∃ e, view p k = Some e ∧ state e = entryEvicted) →
  (∀ k, k ∈ B → entries p !! k = None) → consistent_ex ∅ B p →
  let p' := foldl delete_evicted p del in
  consistent_ex ∅ (B ∪ list_to_set del) p' ∧ (∀ k, k ∈ B ∪ list_to_set del → entries p' !! k = None).
Proof.
  revert B p. induction del as [| k del IH]; intros B p Hdel HB Hcons; cbn.
  { split; [by rewrite union_empty_r_L | intros k Hk; apply HB; set_solver]. }
  set (q := delete_evicted p k).
  assert (consistent_ex ∅ ({[k]} ∪ B) q ∧ entries q = delete k (entries p) ∧ heap q = heap p) as (Hq & Eq & Ehq).
  { unfold q. destruct (Hdel k ltac:(by left)) as [[Hv He] | (e & Hv & Hs)].
    - rewrite delete_evicted_gone by done. split_and!; [| by rewrite delete_id | done].
      destruct Hcons as [H1 H2 H3 H4]. split; try done. intros k' r Hk'. apply H3. set_solver.
    - rewrite (delete_evicted_spec p k e) by done. split_and!; [by apply ex_delete | done | done]. }
  destruct (IH ({[k]} ∪ B) q) as [G1 G2].
  - intros k' Hk'. destruct (decide (k' = k)) as [-> | Hne].
    + left. unfold view. rewrite Eq, lookup_delete_eq. done.
    + unfold view. rewrite Eq, Ehq, lookup_delete_ne by done. apply Hdel. by right.
  - intros k' Hk'. rewrite Eq. destruct (decide (k' = k)) as [-> | Hne]; [apply lookup_delete_eq |].
    rewrite lookup_delete_ne by done. apply HB. set_solver.
  - done.
  - replace (B ∪ ({[k]} ∪ list_to_set del)) with ({[k]} ∪ B ∪ list_to_set del) by set_solver. by split.
Qed.

Definition drop_inv (acc : SessionPool * list string) : Prop :=
  consistent_ex ∅ (list_to_set (snd acc)) (fst acc) ∧ (∀ k, k ∈ snd acc → entries (fst acc) !! k = None).

Lemma drop_inv_step acc cand : drop_inv acc → drop_inv (drop_candidate acc cand).
Proof.
  destruct acc as [p del], cand as [[ctx ptr] t]. intros [Hc Hd]. unfold drop_candidate. cbn in Hc, Hd.
  destruct (heap p !! ptr) as [e |]; [| by split]. case_decide; [| by split].
  split; cbn.
  - rewrite list_to_set_app_L. cbn. rewrite union_empty_r_L, union_comm_L. by apply ex_delete.
  - intros k [Hk | ->%list_elem_of_singleton]%elem_of_app; [| apply lookup_delete_eq].
    destruct (decide (k = ctx)) as [-> |]; [apply lookup_delete_eq | rewrite lookup_delete_ne; auto].
Qed.

Lemma consistent_enforceMaxEvicted range sort p : consistent p → consistent (enforceMaxEvicted range sort p).
Proof.
  intros Hcons. unfold enforceMaxEvicted. case_match; [done |]. case_match; [done |].
  match goal with |- context [foldl drop_candidate ?a ?l] =>
    assert (drop_inv (foldl drop_candidate a l)) as [H1 H2] end.
  { generalize (sort (evicted_candidates (heap p) (range (entries p)))). intros l.
    generalize (take (length (evicted_candidates (heap p) (range (entries p))) - Z.to_nat (maxEvicted p)) l).
    clear -Hcons. intros l. assert (drop_inv (p, [])) as Hi by (split; [done | set_solver]). revert Hi.
    generalize (p, @nil string). induction l as [| x l IH]; intros acc Hi; [done |].
    cbn. by apply IH, drop_inv_step. }
  destruct (foldl drop_candidate _ _) as [q deleted]. by apply ex_forgets.
Qed.

(** The state of the sweep when the keys to delete are known. *)
Lemma reap_collected c now range p :
  wf c p → range_law range → consistent p →
  reap_inv c (entries p) (foldl (reap_entry now) (p, [], []) ((range (entries p)).*2)).
Proof.
  intros Hwf Hr Hcons. apply reap_inv_fold; [| split_and!; try done; set_solver].
  intros ptr ([k q] & -> & Hin)%list_elem_of_fmap. rewrite (Hr (entries p)) in Hin.
  apply elem_of_map_to_list in Hin. by exists k.
Qed.

Lemma consistent_reapOnce c now range range' sort p :
  wf c p → range_law range → consistent p → consistent (reapOnce now range range' sort p).
Proof.
  intros Hwf Hr Hcons. unfold reapOnce. pose proof (reap_collected c now range p Hwf Hr Hcons) as Hi.
  destruct (foldl _ _ _) as [[p1 ev] del]. destruct Hi as (_ & Hc1 & _ & Hev & Hdel).
  apply consistent_enforceMaxEvicted.
  set (p2 := foldl _ p1 ev). assert (consistent p2) as Hc2 by (by apply consistent_upserts).
  destruct (upserts_fields ev p1) as [E1 E2].
  destruct (consistent_deletes ∅ del p2) as [Hc3 Hgone]; [| set_solver | done |].
  - intros k Hk. right. destruct (Hdel k Hk) as (e & He & Hs). exists e. split; [| done].
    rewrite <- He. by apply view_ext.
  - rewrite union_empty_l_L in Hc3. apply ex_forgets; [done |].
    intros k Hk. apply Hgone, elem_of_union_r, elem_of_list_to_set, Hk.
Qed.

Lemma consistent_op x y : wf (fst x) (snd x) → op x y → consistent (snd x) → consistent (snd y).
Proof.
  intros Hwf Hop Hcons. destruct Hop; cbn [fst snd] in *.
  - by eapply consistent_lookup.
  - by eapply consistent_known.
  - by apply consistent_finished.
  - by eapply consistent_reapOnce.
  - set (e' := mkEntry _ _ _ _ _ _ _ _). by apply (ex_set_entry ∅ ∅ p ptr e e').
  - by destruct Hcons; split.
  - by destruct Hcons; split.
  - by destruct Hcons; split.
Qed.

(** *** Loading *)

Lemma rehydrate_record_spec c now p k rec :
  wf c p →
  let p' := rehydrate_record now p (k, rec) in
  (∀ x, view p' x = if decide (x = k ∧ SessionID rec ≠ "")
        then Some (mkEntry k (SessionID rec) newTurnGate entryEvicted None (LastUsed rec)
               (if IsZero (EvictedAt rec) then now else EvictedAt rec) None) else view p x) ∧
  (consistent p → saves p = [] → consistent p') ∧ saves p' = saves p ∧ stopped p' = stopped p ∧
  maxActive p' = maxActive p.
Proof.
  intros Hwf. unfold rehydrate_record. destruct (SessionID rec) as [| a s] eqn:Es; cbn [nonempty negb].
  { split_and!; try done. intros x. rewrite decide_False; [done | naive_solver]. }
  set (ev := if IsZero _ then _ else _). set (e := mkEntry _ _ _ _ _ _ _ _). set (p' := with_persist _ _ _).
  assert (∀ x, view p' x = if decide (x = k) then Some e else view p x) as Hv.
  { intros x. unfold view. cbn. case_decide as Hx; [subst; by rewrite lookup_insert_eq; cbn; rewrite lookup_insert_eq |].
    rewrite lookup_insert_ne by done. destruct (entries p !! x) as [q |] eqn:Eq; [cbn | done].
    destruct (wf_map c p Hwf x q Eq) as (y & Hy & _). apply (wf_entry c p Hwf) in Hy as [_ ?].
    rewrite lookup_insert_ne; [done | lia]. }
  split_and!; try done.
  - intros x. rewrite Hv. by repeat case_decide; naive_solver.
  - intros [H1 H2 H3 H4] Hsaves. split; cbn; try done; [| | by rewrite Hsaves].
    + intros x y _ Hy Hs. rewrite Hv in Hy. case_decide as Hx.
      * injection Hy as <-. subst x. eexists. by rewrite lookup_insert_eq.
      * rewrite lookup_insert_ne by done. by apply H2.
    + intros x r _ [[<- _] | [? Hr]]%lookup_insert_Some; [by rewrite lookup_insert_eq |].
      rewrite lookup_insert_ne by done. by eapply H3.
Qed.

Lemma rehydrate_spec c now records p :
  wf c p → NoDup records.*1 → consistent p → saves p = [] →
  let p' := rehydrateLocked now records p in
  wf c p' ∧ consistent p' ∧ saves p' = [] ∧ stopped p' = stopped p ∧ maxActive p' = maxActive p ∧
  (∀ k rec, (k, rec) ∈ records → SessionID rec ≠ "" →
     ∃ e, view p' k = Some e ∧ sessionID e = SessionID rec ∧ state e = entryEvicted) ∧
  (∀ k, (∀ rec, (k, rec) ∈ records → SessionID rec = "") → view p' k = view p k).
Proof.
  unfold rehydrateLocked. revert p. induction records as [| [k rec] records IH]; intros p Hwf Hnd Hcons Hs; cbn [foldl fmap list_fmap fst] in *.
  { split_and!; try done. set_solver. }
  apply NoDup_cons in Hnd as [Hk Hnd].
  destruct (rehydrate_record_spec c now p k rec Hwf) as (Hv & Hc & E1 & E2 & E3).
  destruct (IH (rehydrate_record now p (k, rec))) as (G1 & G2 & G3 & G4 & G5 & G6 & G7);
    [by apply wf_rehydrate_record | done | by apply Hc | congruence |].
  split_and!; try done; try congruence.
  - intros x r [[= -> ->] | Hin]%elem_of_cons Hr; [| by apply G6].
    rewrite G7; [rewrite Hv, decide_True by done; by eexists |].
    intros r' Hr'. exfalso. apply Hk. apply list_elem_of_fmap. by exists (k, r').
  - intros x Hx. rewrite G7 by (intros r Hr; apply Hx; by right). rewrite Hv, decide_False; [done |].
    intros [-> Hr]. apply Hr, Hx. by left.
Qed.

Lemma consistent_new now idle ev loaded :
  (∀ records, loaded = Some records → NoDup records.*1) →
  consistent (NewSessionPoolWithPersistence now idle ev (Some loaded)).
Proof.
  intros Hl. assert (consistent (newPool idle ev true)) as Hn by (split; cbn; try done; set_solver).
  destruct loaded as [records |]; [| done].
  pose proof (pool_wf_new now idle ev (Some None)) as Hwf.
  by destruct (rehydrate_spec ∅ now records (newPool idle ev true) Hwf (Hl _ eq_refl) Hn eq_refl) as (_ & ? & _).
Qed.

Lemma ops_invariant now idle ev loaded c p :
  (∀ records, loaded = Some records → NoDup records.*1) →
  rtc op (∅, NewSessionPoolWithPersistence now idle ev (Some loaded)) (c, p) → wf c p ∧ consistent p.
Proof.
  intros Hl Hrun.
  apply (rtc_invariant op (λ x, wf (fst x) (snd x) ∧ consistent (snd x)) _ (c, p)) in Hrun; [done | |].
  - intros x y [Hwf Hc] Hop. split; [by apply (operations_are_runs x y) | by apply (consistent_op x y)].
  - split; [apply pool_wf_new | by apply consistent_new].
Qed.

(** (C7) Conversations survive a restart. Take any pool built over a
    persistence backend after any sequence of operations, and a pool built from
    the map that was saved last: every context the first one could resume is
    resumed by the second, a lookup asking the factory for the very session id
    the first one held; a context it had forgotten is unknown to the second; and
    nothing the second one loads counts as a live session. *)
Theorem restart_resumes now idle ev loaded c p m ms records now' idle' ev' :
  (∀ records, loaded = Some records → NoDup records.*1) →
  rtc op (∅, NewSessionPoolWithPersistence now idle ev (Some loaded)) (c, p) →
  saves p = m :: ms → records ≡ₚ map_to_list m →
  let q := NewSessionPoolWithPersistence now' idle' ev' (Some (Some records)) in
  (∀ ctx e, view p ctx = Some e → sessionID e ≠ "" →
     (∃ e', view q ctx = Some e' ∧ sessionID e' = sessionID e ∧ state e' = entryEvicted) ∧
     ∀ factory healthy range t t' w s, range_law range →
       snd (LookupOrCreate factory healthy range t t' ctx q) = inl (w, s) →
       ∃ sync, factory ctx (sessionID e) = Some (s, sync)) ∧
  (∀ ctx, entries p !! ctx = None → view q ctx = None) ∧
  active q = ∅.
Proof.
  intros Hl Hrun Hs Hrec q. destruct (ops_invariant now idle ev loaded c p Hl Hrun) as [Hwf [H1 H2 H3 H4]].
  rewrite Hs in H4. subst m.
  assert (NoDup records.*1) as Hnd by (rewrite Hrec; apply NoDup_fst_map_to_list).
  assert (consistent (newPool idle' ev' true)) as Hn by (apply (consistent_new now' idle' ev' None); done).
  destruct (rehydrate_spec ∅ now' records (newPool idle' ev' true) (pool_wf_new now' idle' ev' (Some None)) Hnd Hn eq_refl)
    as (G1 & _ & _ & G4 & _ & G6 & G7).
  change (rehydrateLocked now' records (newPool idle' ev' true)) with q in *.
  assert (∀ k r, (k, r) ∈ records ↔ persistState p !! k = Some r) as Hin.
  { intros k r. by rewrite Hrec, elem_of_map_to_list. }
  assert (∀ k e, view q k = Some e → state e = entryEvicted) as Hev.
  { intros k e Hv. destruct (persistState p !! k) as [r |] eqn:Er.
    - destruct (decide (SessionID r = "")) as [He | He].
      + rewrite G7 in Hv; [done |]. intros r' Hr'%Hin. congruence.
      + destruct (G6 k r) as (e' & He' & _ & Hst); [by apply Hin | done |]. congruence.
    - rewrite G7 in Hv; [done |]. intros r' Hr'%Hin. congruence. }
  split_and!.
  - intros ctx e Hv Hsid. destruct (H2 ctx e) as (r & Hr & Er); [set_solver | done | done |].
    destruct (G6 ctx r) as (e' & He' & Hs' & Hst); [by apply Hin | congruence |].
    split; [exists e'; split_and!; [done | congruence | done] |].
    intros factory healthy range t t' w s Hrange E.
    destruct (LookupOrCreate factory healthy range t t' ctx q) as [q' r'] eqn:Eq. cbn in E. subst r'.
    destruct (LookupOrCreate_success ∅ factory healthy range t t' ctx q q' w s G1 Hrange G4 Eq)
      as (_ & _ & [(x & Hx & Hu & _) | (_ & sync & Ef & _)]).
    + apply usable_Some in Hu as [Hu _]. rewrite (Hev ctx x Hx) in Hu. done.
    + exists sync. rewrite He' in Ef. cbn in Ef. congruence.
  - intros ctx Hc. rewrite G7; [done |]. intros r Hr%Hin. apply H3 in Hr; [| set_solver].
    rewrite Hc in Hr. by destruct Hr.
  - apply map_empty. intros k. apply eq_None_not_Some. intros [v [Hk (e & s & He & Hst & _)%live_Some]%active_Some].
    rewrite (Hev k e) in Hst; [done |]. apply view_Some. eauto.
Qed.

(** Two contexts, one of them evicted by the sweep before the restart. *)
Definition time_le (a b : candidate) : Prop := (a.2 ≤ b.2)%Z.
#[export] Instance time_le_dec a b : Decision (time_le a b).
Proof. unfold time_le. apply _. Defined.

Definition by_time (l : list candidate) : list candidate := merge_sort time_le l.

Definition looked_up : SessionPool * (Z * Session + pool_error) :=
  LookupOrCreate (resuming_factory 1%Z) (λ _, true) visit 10 10 "a" (newPool 100 1000 true).

Definition after_sweep : SessionPool := reapOnce 500 visit visit by_time (fst looked_up).

Lemma by_time_sort : sort_law by_time.
Proof.
  intros l. split; [apply merge_sort_Permutation |]. apply StronglySorted_merge_sort.
  - intros a b c Hab Hbc. unfold time_le in *. lia.
  - intros a b. unfold time_le. lia.
Qed.

Lemma after_sweep_run :
  rtc op (∅, NewSessionPoolWithPersistence 0 100 1000 (Some None)) (created_after ∅ (snd looked_up), after_sweep).
Proof.
  eapply rtc_l.
  { apply (op_lookup ∅ _ (resuming_factory 1%Z) (λ _, true) visit 10 10 "a" (fst looked_up) (snd looked_up));
      [by intros m | intros ctx r s x _; set_solver | apply surjective_pairing]. }
  apply rtc_once, op_reap; [by intros m | by intros m | apply by_time_sort].
Qed.

Lemma operations_are_runs_witness :
  wf ∅ (reapOnce 500 visit visit by_time (newPool 100 1000 true)).
Proof.
  apply (operations_are_runs (∅, newPool 100 1000 true) (∅, reapOnce 500 visit visit by_time (newPool 100 1000 true))).
  - apply (pool_wf_new 0 100 1000 (Some None)).
  - apply op_reap; [by intros m | by intros m | apply by_time_sort].
Defined.

Lemma restart_resumes_witness :
  ∃ e', view (NewSessionPoolWithPersistence 900 100 1000
               (Some (Some [("a", mkRecord "a-sid" persistStateEvicted 10 500)]))) "a" = Some e' ∧
    sessionID e' = "a-sid" ∧ state e' = entryEvicted.
Proof.
  destruct (restart_resumes 0 100 1000 None (created_after ∅ (snd looked_up)) after_sweep
    {["a" := mkRecord "a-sid" persistStateEvicted 10 500]}
    [{["a" := mkRecord "a-sid" persistStateActive 10 0]}]
    [("a", mkRecord "a-sid" persistStateEvicted 10 500)] 900 100 1000) as (H & _).
  - done.
  - apply after_sweep_run.
  - vm_compute. reflexivity.
  - reflexivity.
  - destruct (H "a" (mkEntry "a" "a-sid" (mkGate false true []) entryEvicted None 10 500 (Some (1%Z, 1%Z)))) as [H' _];
      [by vm_compute | done | exact H'].
Defined.

(** ** The sweep against a lookup

    [reapOnce] forgets every key it collected. A key whose context is resumed
    between the collection and the deletion keeps its entry, but its persisted
    mapping is removed and [onForget] is invoked: the next restart does not know
    the live conversation. [enforceMaxEvicted] forgets only what it deleted. *)
Definition resumed_while_swept : SessionPool :=
  let '(p, _, toDelete) := reap_entry 9000 (after_sweep, [], []) 0 in
  let p := fst (LookupOrCreate (resuming_factory 2%Z) (λ _, true) visit 9000 9000 "a" p) in
  foldl (flip forget) (foldl delete_evicted p toDelete) toDelete.

Lemma sweep_forgets_a_live_context :
  (∃ e, view resumed_while_swept "a" = Some e ∧ state e = entryActive ∧ session e = Some 2%Z ∧
     sessionID e = "a-sid") ∧
  persistState resumed_while_swept !! "a" = None ∧ forgotten resumed_while_swept = ["a"].
Proof. vm_compute. split_and!; [eexists; split_and! | |]; reflexivity. Qed.
