(* ===== verification/PoolSweep.v ===== *)
(** * What one sweep of the pool does

    The exact effect of [reapOnce] and [enforceMaxEvicted] on every context,
    run with nothing in between. *)
From S2P Require Import Prelude GoBase GoStrings TurnGate SessionPool PoolReaper PoolLaws PoolPersist.
From Stdlib Require Import ZArith Lia.

(** The entry after the sweep, before expired mappings are deleted. *)
Definition swept (now : time) (idle : duration) (e : pooledEntry) : pooledEntry :=
  match state e, session e with
  | entryActive, Some _ =>
      if (idle <? Sub now (lastUsed e))%Z && snd (tryBeginEviction (gate e))
      then evict now (fst (tryBeginEviction (gate e))) e else e
  | _, _ => e
  end.

(** An evicted mapping past its retention. *)
Definition expired (now : time) (ttl : duration) (e : pooledEntry) : bool :=
  match state e with entryEvicted => (ttl <? Sub now (evictedAt e))%Z | entryActive => false end.

Definition expired_key (now : time) (p : SessionPool) (ptr : Z) : option string :=
  e ← heap p !! ptr; if expired now (evictedTTL p) e then Some (contextID e) else None.

Lemma reap_entry_spec now p ev del ptr :
  let '(p', _, del') := reap_entry now (p, ev, del) ptr in
  entries p' = entries p ∧ config p' = config p ∧ forgotten p' = forgotten p ∧
  (∀ q, heap p' !! q = if decide (q = ptr) then swept now (idleTTL p) <$> heap p !! q else heap p !! q) ∧
  del' = del ++ option_list (expired_key now p ptr).
Proof.
  unfold reap_entry, expired_key, swept, expired.
  assert (∀ q, heap p !! q = if decide (q = ptr) then heap p !! q else heap p !! q) as Hid.
  { intros q. by case_decide. }
  destruct (heap p !! ptr) as [e |] eqn:He; cbn.
  2: { split_and!; try done; [| by rewrite app_nil_r]. intros q. case_decide as Hq; [| done].
       subst. by rewrite He. }
  destruct (state e) eqn:Hst.
  - destruct (session e) as [s |] eqn:Hse; [destruct (_ <? _)%Z eqn:Ei |].
    + destruct (tryBeginEviction (gate e)) as [g ok] eqn:Eg. destruct ok; cbn.
      * split_and!; try done; [| by rewrite app_nil_r]. intros q. case_decide as Hq.
        -- subst. rewrite He, lookup_insert_eq. cbn. by rewrite Hst, Hse, Ei, Eg.
        -- by rewrite lookup_insert_ne.
      * split_and!; try done; [| by rewrite app_nil_r]. intros q. case_decide as Hq; [| done].
        subst. rewrite He. cbn. by rewrite Hst, Hse, Ei, Eg.
    + split_and!; try done; [| by rewrite app_nil_r]. intros q. case_decide as Hq; [| done].
      subst. rewrite He. cbn. by rewrite Hst, Hse, Ei.
    + split_and!; try done; [| by rewrite app_nil_r]. intros q. case_decide as Hq; [| done].
      subst. rewrite He. cbn. by rewrite Hst, Hse.
  - destruct (_ <? _)%Z; (split_and!; [done | done | done | | by rewrite ?app_nil_r]); intros q;
      (case_decide as Hq; [| done]); subst; rewrite He; cbn; by rewrite Hst.
Qed.

Lemma reap_fold now p ev del ptrs :
  NoDup ptrs →
  let '(p', _, del') := foldl (reap_entry now) (p, ev, del) ptrs in
  entries p' = entries p ∧ config p' = config p ∧ forgotten p' = forgotten p ∧
  (∀ q, heap p' !! q = if decide (q ∈ ptrs) then swept now (idleTTL p) <$> heap p !! q else heap p !! q) ∧
  del' = del ++ omap (expired_key now p) ptrs.
Proof.
  revert p ev del. induction ptrs as [| ptr ptrs IH]; intros p ev del Hnd; cbn [foldl].
  { split_and!; try done. by rewrite app_nil_r. }
  apply NoDup_cons in Hnd as [Hin Hnd].
  pose proof (reap_entry_spec now p ev del ptr) as Hs.
  destruct (reap_entry now (p, ev, del) ptr) as [[p1 ev1] del1].
  destruct Hs as (E1 & E2 & E3 & E4 & E5). specialize (IH p1 ev1 del1 Hnd).
  destruct (foldl _ _ _) as [[p2 ev2] del2]. destruct IH as (G1 & G2 & G3 & G4 & G5).
  assert (idleTTL p1 = idleTTL p ∧ evictedTTL p1 = evictedTTL p) as [Ei Ee].
  { by injection E2 as _ _ _ _ _ ? ?. }
  split_and!; try congruence.
  - intros q. rewrite G4, E4, Ei. destruct (decide (q = ptr)) as [-> | Hq].
    + rewrite decide_False by done. rewrite decide_True by set_solver. done.
    + destruct (decide (q ∈ ptrs)); [rewrite decide_True by set_solver | rewrite decide_False by set_solver]; done.
  - rewrite G5, E5, <- app_assoc. f_equal. cbn.
    assert (omap (expired_key now p1) ptrs = omap (expired_key now p) ptrs) as ->.
    { apply list_omap_ext, Forall_Forall2_diag, Forall_forall. intros q Hq. unfold expired_key.
      rewrite E4, decide_False, Ee; [done |]. by intros ->. }
    by destruct (expired_key now p ptr).
Qed.

Lemma deletes_spec del p :
  (∀ k, k ∈ del → view p k = None ∧ entries p !! k = None ∨ ∃ e, view p k = Some e ∧ state e = entryEvicted) →
  let p' := foldl delete_evicted p del in
  heap p' = heap p ∧ config p' = config p ∧ forgotten p' = forgotten p ∧
  (∀ k, entries p' !! k = if decide (k ∈ del) then None else entries p !! k).
Proof.
  revert p. induction del as [| k del IH]; intros p Hdel; cbn [foldl].
  { split_and!; try done. }
  set (q := delete_evicted p k).
  assert (entries q = delete k (entries p) ∧ heap q = heap p ∧ config q = config p ∧ forgotten q = forgotten p)
    as (Eq & Ehq & Ec & Ef).
  { unfold q. destruct (Hdel k ltac:(by left)) as [[Hv He] | (e & Hv & Hs)].
    - rewrite delete_evicted_gone by done. split_and!; [by rewrite delete_id | done..].
    - by rewrite (delete_evicted_spec p k e). }
  destruct (IH q) as (G1 & G2 & G3 & G4).
  - intros k' Hk'. unfold view. rewrite Eq, Ehq. destruct (decide (k' = k)) as [-> | Hne].
    + left. by rewrite lookup_delete_eq.
    + rewrite lookup_delete_ne by done. apply Hdel. by right.
  - split_and!; try congruence. intros x. rewrite G4, Eq.
    destruct (decide (x = k)) as [-> | Hne].
    + rewrite lookup_delete_eq, (decide_True _ _ (P := k ∈ k :: del)) by set_solver. by case_decide.
    + rewrite lookup_delete_ne by done.
      destruct (decide (x ∈ del)); [rewrite decide_True by set_solver | rewrite decide_False by set_solver]; done.
Qed.

Lemma forgets_spec l p :
  let p' := foldl (flip forget) p l in
  heap p' = heap p ∧ entries p' = entries p ∧ config p' = config p ∧ forgotten p' = rev l ++ forgotten p.
Proof.
  revert p. induction l as [| k l IH]; intros p; [done |]. cbn [foldl flip].
  destruct (IH (forget k p)) as (E1 & E2 & E3 & E4). cbn in *. rewrite E1, E2, E3, E4.
  unfold forget, removePersist, config. destruct (negb _); cbn; by rewrite <- app_assoc.
Qed.

(** ** Evicting the idle contexts *)

Lemma range_ptrs_NoDup c range p : wf c p → range_law range → NoDup (range (entries p)).*2.
Proof.
  intros Hwf Hr. rewrite (Hr (entries p)). apply NoDup_alt. intros i j ptr Hi Hj.
  rewrite list_lookup_fmap, fmap_Some in Hi. rewrite list_lookup_fmap, fmap_Some in Hj.
  destruct Hi as ([k q] & Hi & ->), Hj as ([k' q'] & Hj & E). cbn in E. subst q'.
  assert (k = k') as <-.
  { apply (entries_inj c p Hwf k k' q); apply elem_of_map_to_list; by eapply list_elem_of_lookup_2. }
  eapply NoDup_lookup; [apply (NoDup_map_to_list (entries p)) | done | done].
Qed.

Lemma in_range range p ptr :
  range_law range → ptr ∈ (range (entries p)).*2 ↔ ∃ k, entries p !! k = Some ptr.
Proof.
  intros Hr. rewrite (Hr (entries p)), list_elem_of_fmap. split.
  - intros ([k q] & -> & Hin%elem_of_map_to_list). by exists k.
  - intros [k Hk%elem_of_map_to_list]. by exists (k, ptr).
Qed.

(** The keys the sweep deletes are the expired contexts. *)
Lemma expired_keys c now range p k :
  wf c p → range_law range →
  k ∈ omap (expired_key now p) (range (entries p)).*2 ↔
    ∃ e, view p k = Some e ∧ expired now (evictedTTL p) e = true.
Proof.
  intros Hwf Hr. rewrite list_elem_of_omap. split.
  - intros (ptr & (k' & Hk')%(in_range range p ptr Hr) & Hx). unfold expired_key in Hx.
    destruct (heap p !! ptr) as [e |] eqn:He; [cbn in Hx | done].
    destruct (expired _ _ _) eqn:Ee; [| done]. injection Hx as <-.
    assert (view p k' = Some e) as Hv by (apply view_Some; eauto).
    rewrite (view_contextID c p Hwf k' e Hv). by exists e.
  - intros (e & Hv & He). pose proof (view_contextID c p Hwf k e Hv) as Hc.
    apply view_Some in Hv as (ptr & Hp & Hh). exists ptr. split; [apply in_range; eauto |].
    unfold expired_key. rewrite Hh. cbn. by rewrite He, Hc.
Qed.

Definition sweep_view (now : time) (p : SessionPool) (e : pooledEntry) : option pooledEntry :=
  if expired now (evictedTTL p) e then None else Some (swept now (idleTTL p) e).

(** The pool after the first two loops of [reapOnce] and the forgotten keys. *)
Lemma reap_phases c now range p :
  wf c p → range_law range →
  let '(p1, ev, del) := foldl (reap_entry now) (p, [], []) (range (entries p)).*2 in
  let p4 := foldl (flip forget) (foldl delete_evicted (foldl (λ p x, upsertPersist x.1 x.2 p) p1 ev) del) del in
  (∀ k, view p4 k = view p k ≫= sweep_view now p) ∧
  (∀ k, entries p4 !! k = if decide (k ∈ del) then None else entries p !! k) ∧
  config p4 = config p ∧ forgotten p4 = rev del ++ forgotten p ∧
  (∀ k, k ∈ del ↔ ∃ e, view p k = Some e ∧ expired now (evictedTTL p) e = true).
Proof.
  intros Hwf Hr. pose proof (reap_fold now p [] [] _ (range_ptrs_NoDup c range p Hwf Hr)) as Hf.
  assert (∀ k, k ∈ omap (expired_key now p) (range (entries p)).*2 ↔
    ∃ e, view p k = Some e ∧ expired now (evictedTTL p) e = true) as Hdel by (intros k; by eapply expired_keys).
  destruct (foldl (reap_entry now) _ _) as [[p1 ev] del]. destruct Hf as (E1 & E2 & E3 & E4 & ->).
  cbn [app] in *. set (del := omap _ _) in *. set (p2 := foldl _ p1 ev).
  assert (heap p2 = heap p1 ∧ entries p2 = entries p1) as [F1 F2] by apply upserts_fields.
  assert (config p2 = config p1 ∧ forgotten p2 = forgotten p1) as [F3 F4].
  { unfold p2. clear. revert p1. induction ev as [| x ev IH]; intros p1; [done |]. cbn [foldl].
    destruct (IH (upsertPersist x.1 x.2 p1)) as [-> ->].
    by destruct (upsert_fields x.1 x.2 p1) as (_ & _ & ? & ?). }
  assert (∀ k, view p2 k = swept now (idleTTL p) <$> view p k) as Hv2.
  { intros k. unfold view. rewrite F1, F2, E1.
    destruct (entries p !! k) as [ptr |] eqn:Ep; [cbn | done].
    rewrite E4, decide_True; [done |]. apply in_range; eauto. }
  assert (∀ k, k ∈ del → ∃ e, view p2 k = Some e ∧ state e = entryEvicted) as Hev.
  { intros k (e & Hv & He)%Hdel. rewrite Hv2, Hv. eexists. split; [done |].
    unfold swept, expired in *. destruct (state e) eqn:Es; done. }
  destruct (deletes_spec del p2) as (G1 & G2 & G3 & G4); [intros k Hk; right; by apply Hev |].
  destruct (forgets_spec del (foldl delete_evicted p2 del)) as (K1 & K2 & K3 & K4).
  split_and!; [| | congruence | congruence | done].
  - intros k. transitivity (if decide (k ∈ del) then None else view p2 k).
    + unfold view. rewrite K1, K2, G1, G4. by case_decide.
    + rewrite Hv2. unfold sweep_view. case_decide as Hk.
      * apply Hdel in Hk as (e & -> & He). cbn. by rewrite He.
      * destruct (view p k) as [e |] eqn:Hv; [cbn | done]. destruct (expired _ _ _) eqn:He; [| done].
        exfalso. apply Hk, Hdel. eauto.
  - intros k. by rewrite K2, G4, F2, E1.
Qed.

Lemma swept_midturn now idle e : inFlight (gate e) = true → swept now idle e = e.
Proof.
  unfold swept, inFlight, tryBeginEviction. intros Hf. destruct (state e); [| done].
  destruct (session e); [| done]. destruct (_ <? _)%Z; [cbn | done].
  destruct (evicting (gate e)); [done |]. destruct (busy (gate e)); [done |]. cbn in *. by rewrite Hf.
Qed.

(** A sweep without a bound on the mappings changes each context exactly
    as documented: an active session idle for longer than [idleTTL] is closed
    and its mapping kept with the session id, unless a turn runs or waits on the
    context's gate; a mapping evicted for longer than [evictedTTL] is deleted and
    reported to [onForget]; everything else is as before. In particular no
    session is closed in the middle of a turn, however old its last use. *)
Lemma sweep_spec c now range range' sort p :
  wf c p → range_law range → (maxEvicted p ≤ 0)%Z →
  let p' := reapOnce now range range' sort p in
  (∀ k, view p' k = view p k ≫= sweep_view now p) ∧
  (∀ k e, view p k = Some e → state e = entryActive → inFlight (gate e) = true → view p' k = Some e) ∧
  (∃ dropped, forgotten p' = dropped ++ forgotten p ∧
     ∀ k, k ∈ dropped ↔ ∃ e, view p k = Some e ∧ expired now (evictedTTL p) e = true).
Proof.
  intros Hwf Hr Hmax. unfold reapOnce. pose proof (reap_phases c now range p Hwf Hr) as Hp.
  destruct (foldl (reap_entry now) _ _) as [[p1 ev] del]. destruct Hp as (E1 & _ & E3 & E4 & E5).
  cbn zeta. set (p4 := foldl (flip forget) _ del) in *.
  assert (enforceMaxEvicted range' sort p4 = p4) as ->.
  { unfold enforceMaxEvicted. injection E3 as _ _ _ _ -> _ _. by rewrite (proj2 (Z.leb_le _ _)). }
  split_and!; [done | |].
  - intros k e Hv Hst Hf. rewrite E1, Hv. cbn. unfold sweep_view, expired. rewrite Hst. by rewrite swept_midturn.
  - exists (rev del). split; [done |]. intros k. by rewrite <- E5, !list_elem_of_In, <- in_rev.
Qed.

(** ** Bounding the resumable mappings *)

Definition is_evicted (p : SessionPool) (ptr : Z) : bool :=
  from_option (λ e, bool_decide (state e = entryEvicted)) false (heap p !! ptr).

(** The contexts that are only a mapping. *)
Definition mappings (p : SessionPool) : gmap string Z := filter (λ x, is_evicted p x.2) (entries p).

Lemma mappings_Some p k ptr :
  mappings p !! k = Some ptr ↔
    entries p !! k = Some ptr ∧ ∃ e, heap p !! ptr = Some e ∧ state e = entryEvicted.
Proof.
  unfold mappings, is_evicted. rewrite map_lookup_filter_Some. cbn.
  destruct (heap p !! ptr) as [e |]; cbn; [| naive_solver].
  rewrite bool_decide_spec. naive_solver.
Qed.

Definition candidate_of (p : SessionPool) (x : candidate) : Prop :=
  let '(k, ptr, t) := x in
  entries p !! k = Some ptr ∧ ∃ e, heap p !! ptr = Some e ∧ state e = entryEvicted ∧ t = evictedAt e.

Lemma candidates_spec range p :
  range_law range →
  let l := evicted_candidates (heap p) (range (entries p)) in
  (∀ x, x ∈ l ↔ candidate_of p x) ∧ NoDup l.*1.*1 ∧ length l = size (mappings p).
Proof.
  intros Hr. cbn zeta. unfold evicted_candidates. set (f := λ x : string * Z, _).
  assert (∀ x y, f x = Some y ↔ y.1 = x ∧ ∃ e, heap p !! x.2 = Some e ∧ state e = entryEvicted ∧ y.2 = evictedAt e) as Hf.
  { intros [k ptr] [[k' ptr'] t]. unfold f. cbn [fst snd]. destruct (heap p !! ptr) as [e |] eqn:He.
    - case_decide; naive_solver.
    - naive_solver. }
  assert (∀ x y, f x = Some y → y.1.1 = x.1) as Hkey.
  { intros x y Hx. by apply Hf in Hx as [-> _]. }
  split_and!.
  - intros [[k ptr] t]. rewrite list_elem_of_omap. split.
    + intros ([k' q] & Hin & Hx). apply Hf in Hx as [Hx He]. cbn [fst] in Hx. injection Hx as -> ->.
      rewrite (Hr (entries p)) in Hin. split; [by apply elem_of_map_to_list | done].
    + intros [Hk He]. exists (k, ptr). split; [rewrite (Hr (entries p)); by apply elem_of_map_to_list |].
      by apply Hf.
  - assert (NoDup (range (entries p)).*1) as Hnd by (rewrite (Hr (entries p)); apply NoDup_fst_map_to_list).
    clear Hf. induction (range (entries p)) as [| x l IH]; [by apply NoDup_nil_2 |].
    cbn in Hnd. apply NoDup_cons in Hnd as [Hx Hnd]. cbn. destruct (f x) as [y |] eqn:Ef; [| by apply IH].
    cbn. apply NoDup_cons. split; [| by apply IH]. intros Hin. apply Hx.
    rewrite (Hkey x y Ef) in Hin.
    apply list_elem_of_fmap in Hin as (z & Hz & Hin). apply list_elem_of_fmap in Hin as (u & -> & Hin).
    apply list_elem_of_omap in Hin as (v & Hv & Hu). rewrite (Hkey v u Hu) in Hz.
    apply list_elem_of_fmap. by exists v.
  - unfold mappings. rewrite <- (length_filter_visit _ (entries p) (range (entries p))) by apply Hr.
    clear Hkey. induction (range (entries p)) as [| [k ptr] l IH]; [done |]. cbn [omap list_omap].
    rewrite filter_cons. unfold f at 1, is_evicted. cbn [fst snd].
    destruct (heap p !! ptr) as [e |]; cbn [from_option].
    + destruct (decide (state e = entryEvicted)) as [Hs | Hs].
      * rewrite decide_True by (by apply bool_decide_spec). cbn. by rewrite IH.
      * rewrite decide_False by (by rewrite bool_decide_spec). done.
    + rewrite decide_False by (intros []). done.
Qed.

Lemma drops_spec l p del :
  (∀ x, x ∈ l → candidate_of p x) → NoDup l.*1.*1 →
  let '(p', del') := foldl drop_candidate (p, del) l in
  del' = del ++ l.*1.*1 ∧ heap p' = heap p ∧ config p' = config p ∧ forgotten p' = forgotten p ∧
  (∀ k, entries p' !! k = if decide (k ∈ l.*1.*1) then None else entries p !! k).
Proof.
  revert p del. induction l as [| [[k ptr] t] l IH]; intros p del Hl Hnd; cbn [foldl fmap list_fmap fst] in *.
  { split_and!; try done. by rewrite app_nil_r. }
  apply NoDup_cons in Hnd as [Hk Hnd].
  destruct (Hl (k, ptr, t)) as (Hp & e & He & Hs & _); [by left |].
  unfold drop_candidate at 2. rewrite He, decide_True by done.
  specialize (IH (with_entries (delete k (entries p)) p) (del ++ [k])).
  destruct (foldl _ _ _) as [p' del']. destruct IH as (E1 & E2 & E3 & E4 & E5); [| done |].
  - intros [[k' q] t'] Hx. destruct (Hl (k', q, t')) as [H1 H2]; [by right |]. split; [| done].
    cbn. rewrite lookup_delete_ne; [done |]. intros <-. apply Hk. apply list_elem_of_fmap. exists (k, q).
    split; [done |]. apply list_elem_of_fmap. by exists (k, q, t').
  - split_and!; try done; [by rewrite E1, <- app_assoc |].
    intros x. rewrite E5. cbn. destruct (decide (x = k)) as [-> | Hne].
    + rewrite lookup_delete_eq. rewrite (decide_True _ _ (P := k ∈ k :: _)) by (by left). by case_decide.
    + rewrite lookup_delete_ne by done.
      destruct (decide (x ∈ l.*1.*1)); [rewrite decide_True by (by right) | rewrite decide_False by set_solver]; done.
Qed.

Lemma StronglySorted_take_drop {A} (R : relation A) n (l : list A) x y :
  StronglySorted R l → x ∈ take n l → y ∈ drop n l → R x y.
Proof.
  rewrite <- (take_drop n l) at 1. intros Hs Hx Hy.
  induction (take n l) as [| z k IH]; [by apply elem_of_nil in Hx |].
  cbn in Hs. apply StronglySorted_inv in Hs as [Hs Hf]. apply elem_of_cons in Hx as [-> | Hx]; [| by apply IH].
  rewrite Forall_forall in Hf. apply Hf. apply elem_of_app. by right.
Qed.

(** Deleting [D] from the map removes that many mappings. *)
Lemma mappings_delete p p' (D : list string) :
  heap p' = heap p → (∀ k, entries p' !! k = if decide (k ∈ D) then None else entries p !! k) →
  NoDup D → (∀ k, k ∈ D → is_Some (mappings p !! k)) →
  size (mappings p') + length D = size (mappings p).
Proof.
  intros Hh He Hnd HD.
  assert (mappings p' = filter (λ x, x.1 ∉ D) (mappings p)) as ->.
  { apply map_eq. intros k. apply option_eq. intros q.
    rewrite mappings_Some, Hh, He, map_lookup_filter_Some, mappings_Some. cbn. case_decide; naive_solver. }
  clear Hh He. assert (length D = size (filter (λ x, ¬ (x.1 ∉ D)) (mappings p))) as ->.
  { rewrite <- (size_dom (D := gset string)), <- (size_list_to_set (C := gset string)) by done. f_equal.
    apply set_eq. intros k. rewrite elem_of_list_to_set, elem_of_dom. split.
    - intros Hk. destruct (HD k Hk) as [q Hq]. exists q. apply map_lookup_filter_Some. split; [done |]. cbn. tauto.
    - intros [q [_ Hk]%map_lookup_filter_Some]. cbn in Hk. by apply dec_stable. }
  rewrite <- map_size_disj_union by apply map_disjoint_filter_complement.
  by rewrite map_filter_union_complement.
Qed.

(** What happens when there are too many mappings: a set [D] of the oldest
    contexts goes. *)
Lemma overflow_spec range sort p :
  range_law range → sort_law sort → (0 < maxEvicted p < Z.of_nat (size (mappings p)))%Z →
  ∃ D : list string,
    NoDup D ∧ Z.of_nat (length D) = (Z.of_nat (size (mappings p)) - maxEvicted p)%Z ∧
    (∀ k, k ∈ D → ∃ ptr t, candidate_of p (k, ptr, t) ∧
       ∀ k' ptr' t', candidate_of p (k', ptr', t') → k' ∉ D → (t ≤ t')%Z) ∧
    let p' := enforceMaxEvicted range sort p in
    heap p' = heap p ∧ forgotten p' = rev D ++ forgotten p ∧
    (∀ k, entries p' !! k = if decide (k ∈ D) then None else entries p !! k).
Proof.
  intros Hr Hsort [Hmax Hover]. unfold enforceMaxEvicted. rewrite (proj2 (Z.leb_gt _ _)) by done.
  destruct (candidates_spec range p Hr) as (Hin & Hnd & Hlen).
  set (l := evicted_candidates _ _) in *. rewrite Hlen, (proj2 (Z.leb_gt _ _)) by done.
  destruct (Hsort l) as [Hperm Hsorted]. set (n := size (mappings p) - Z.to_nat (maxEvicted p)).
  set (gone := take n (sort l)).
  assert (∀ x, candidate_of p x ↔ x ∈ gone ∨ x ∈ drop n (sort l)) as Hx.
  { intros x. unfold gone. rewrite <- elem_of_app, take_drop, <- Hin. by rewrite Hperm. }
  assert (NoDup gone.*1.*1) as Hgnd.
  { eapply sublist_NoDup; [by rewrite <- Hperm in Hnd; exact Hnd |]. do 2 apply fmap_sublist. apply sublist_take. }
  assert (length gone = n) as Hgl by (unfold gone; rewrite length_take, Hperm, Hlen; lia).
  pose proof (drops_spec gone p [] (λ x H, proj2 (Hx x) (or_introl H)) Hgnd) as Hd.
  destruct (foldl drop_candidate _ _) as [p1 deleted].
  destruct Hd as (-> & Eh & _ & Ef & Ee). cbn [app] in *.
  destruct (forgets_spec gone.*1.*1 p1) as (F1 & F2 & _ & F4).
  exists gone.*1.*1. split; [done |]. split.
  { assert (length gone.*1.*1 = n) as Hl by (by rewrite !length_fmap). unfold n in Hl. lia. }
  split.
  - intros k ([k' ptr] & -> & ([[k2 ptr2] t] & [= -> ->] & Hk)%list_elem_of_fmap)%list_elem_of_fmap.
    exists ptr2, t. split; [apply Hx; by left |]. intros k' ptr' t' [Hk' | Hk']%Hx Hn.
    + exfalso. apply Hn. apply list_elem_of_fmap. exists (k', ptr'). split; [done |].
      apply list_elem_of_fmap. by exists (k', ptr', t').
    + by apply (StronglySorted_take_drop _ n (sort l) (k2, ptr2, t) (k', ptr', t') Hsorted Hk).
  - split_and!; [congruence | congruence |]. intros k. by rewrite F2, Ee.
Qed.

(** The bound on the resumable mappings. With [maxEvicted] positive,
    [enforceMaxEvicted] leaves exactly the smaller of the bound and the number
    there were; contexts with a live session are never touched; the mappings it
    drops are no younger than any it keeps; and exactly the dropped ones are
    reported to [onForget]. *)
Lemma mappings_bounded c range sort p :
  wf c p → range_law range → sort_law sort → (0 < maxEvicted p)%Z →
  let p' := enforceMaxEvicted range sort p in
  Z.of_nat (size (mappings p')) = Z.min (maxEvicted p) (Z.of_nat (size (mappings p))) ∧
  (∀ k, view p' k = view p k ∨ view p' k = None ∧ ∃ e, view p k = Some e ∧ state e = entryEvicted) ∧
  (∀ k k' e e', view p k = Some e → view p' k = None → view p' k' = Some e' → state e' = entryEvicted →
     (evictedAt e ≤ evictedAt e')%Z) ∧
  ∃ dropped, forgotten p' = dropped ++ forgotten p ∧
    ∀ k, k ∈ dropped ↔ is_Some (view p k) ∧ view p' k = None.
Proof.
  intros Hwf Hr Hsort Hmax. cbn zeta.
  destruct (decide (Z.of_nat (size (mappings p)) ≤ maxEvicted p)%Z) as [Hle | Hgt].
  { assert (enforceMaxEvicted range sort p = p) as ->.
    { unfold enforceMaxEvicted. destruct (candidates_spec range p Hr) as (_ & _ & ->).
      by rewrite (proj2 (Z.leb_gt _ _)), (proj2 (Z.leb_le _ _)). }
    split_and!; [lia | by left | congruence | exists []; split; [done |]].
    intros k. split; [by intros ?%elem_of_nil |]. by intros [[e ->] ?]. }
  destruct (overflow_spec range sort p Hr Hsort) as (D & Hnd & Hlen & HD & Eh & Ef & Ee); [lia |].
  set (p' := enforceMaxEvicted range sort p) in *.
  assert (∀ k, view p' k = if decide (k ∈ D) then None else view p k) as Hv.
  { intros k. unfold view. rewrite Eh, Ee. by case_decide. }
  assert (∀ k, k ∈ D → ∃ e, view p k = Some e ∧ state e = entryEvicted ∧ is_Some (mappings p !! k)) as Hk.
  { intros k Hk. destruct (HD k Hk) as (ptr & t & (Hp & e & He & Hs & _) & _). exists e.
    split_and!; [apply view_Some; eauto | done | exists ptr; apply mappings_Some; eauto]. }
  split_and!.
  - pose proof (mappings_delete p p' D Eh Ee Hnd (λ k H, match Hk k H with ex_intro _ _ (conj _ (conj _ H)) => H end)).
    lia.
  - intros k. rewrite Hv. case_decide as Hd; [right | by left]. split; [done |].
    destruct (Hk k Hd) as (e & ? & ? & _). eauto.
  - intros k k' e e' He Hn (ptr' & Hp' & Hh')%view_Some Hs'. rewrite Hv in Hn. rewrite Ee in Hp'. rewrite Eh in Hh'.
    destruct (decide (k ∈ D)) as [Hd | Hd]; [| congruence].
    destruct (decide (k' ∈ D)) as [Hd' | Hd']; [done |].
    destruct (HD k Hd) as (ptr & t & (Hp & x & Hx & _ & ->) & Hmin).
    assert (x = e) as -> by (apply view_Some in He as (q & ? & ?); congruence).
    apply (Hmin k' ptr' (evictedAt e')); [split; [done | eauto] | done].
  - exists (rev D). split; [done |]. intros k. rewrite list_elem_of_In, <- in_rev, <- list_elem_of_In, Hv.
    split; [intros Hd; rewrite decide_True by done; split; [| done] | intros [[e He] Hn]].
    + destruct (Hk k Hd) as (e & ? & _). by exists e.
    + case_decide; [done | congruence].
Qed.

Lemma sweep_spec_witness : view after_sweep "a" ≠ None ∧ forgotten after_sweep = [].
Proof.
  assert (wf (created_after ∅ (snd looked_up)) (fst looked_up)) as Hwf.
  { refine (proj2 (operations_are_runs (∅, newPool 100 1000 true)
      (created_after ∅ (snd looked_up), fst looked_up) (pool_wf_new 0 100 1000 (Some None)) _)).
    apply (op_lookup ∅ _ (resuming_factory 1%Z) (λ _, true) visit 10 10 "a" (fst looked_up) (snd looked_up));
      [by intros m | intros ctx r s x _; set_solver | apply surjective_pairing]. }
  destruct (sweep_spec _ 500 visit visit by_time (fst looked_up) Hwf) as (H & _ & _); [by intros m | by vm_compute |].
  split; [| by vm_compute]. unfold after_sweep. rewrite H. by vm_compute.
Defined.

(** Two mappings loaded after a restart, and room for one. *)
Definition two_mappings : SessionPool :=
  SetMaxEvicted 1 (NewSessionPoolWithPersistence 900 100 1000
    (Some (Some [("a", mkRecord "a-sid" persistStateEvicted 10 500);
                 ("b", mkRecord "b-sid" persistStateEvicted 10 600)]))).

Lemma mappings_bounded_witness :
  Z.of_nat (size (mappings (enforceMaxEvicted visit by_time two_mappings))) = 1%Z ∧
  view (enforceMaxEvicted visit by_time two_mappings) "a" = None.
Proof.
  split; [| by vm_compute].
  destruct (mappings_bounded ∅ visit by_time two_mappings) as [H _].
  - apply (wf_core _ (NewSessionPoolWithPersistence 900 100 1000
      (Some (Some [("a", mkRecord "a-sid" persistStateEvicted 10 500);
                   ("b", mkRecord "b-sid" persistStateEvicted 10 600)])))); [done | apply pool_wf_new].
  - by intros m.
  - apply by_time_sort.
  - by vm_compute.
  - rewrite H. by vm_compute.
Defined.
