(* ===== verification/TaskStore.v ===== *)
(** * The in-memory task store ([internal/wrapper/taskstore.go])

    Tasks are the A2A library's; the store reads their id, context and state.
    Writers replace whole tasks and never mutate a stored one, so a task is a
    value here. The store is specified by the history of its saves. *)
From S2P Require Import Prelude GoBase GoStrings.

Section task_store.
Context {Task : Type} (ID ContextID : Task → string) (State : Task → string).

Record TaskStore := mkTaskStore { tasks : gmap string Task; order : list string }.

Definition NewTaskStore : TaskStore := mkTaskStore ∅ [].

Definition Save (task : Task) (ts : TaskStore) : TaskStore :=
  mkTaskStore (<[ID task := task]> (tasks ts))
    (if tasks ts !! ID task is Some _ then order ts else order ts ++ [ID task]).

Definition Get (id : string) (ts : TaskStore) : option Task := tasks ts !! id.

Definition StateOf (id : string) (ts : TaskStore) : string * bool :=
  match tasks ts !! id with Some t => (State t, true) | None => ("", false) end.

Definition List (ts : TaskStore) : list Task := omap (λ id, tasks ts !! id) (order ts).

Definition ListByContextID (ctx : string) (ts : TaskStore) : list Task :=
  if negb (nonempty ctx) then []
  else omap (λ id, t ← tasks ts !! id; if decide (ContextID t = ctx) then Some t else None) (order ts).

(** ** The history of saves *)

(** The last save of an id. *)
Definition latest (h : list Task) (id : string) : option Task := last (filter (λ t, ID t = id) h).

(** The ids in the order of their first save. *)
Fixpoint first_ids (h : list Task) : list string :=
  match h with
  | [] => []
  | t :: h => ID t :: filter (λ id, id ≠ ID t) (first_ids h)
  end.

Definition saved (h : list Task) : TaskStore := foldl (flip Save) NewTaskStore h.

Lemma first_ids_elem h id : id ∈ first_ids h ↔ ∃ t, t ∈ h ∧ ID t = id.
Proof.
  induction h as [| t h IH]; [cbn; set_solver |]. cbn -[filter].
  rewrite elem_of_cons, list_elem_of_filter, IH. setoid_rewrite elem_of_cons.
  destruct (decide (id = ID t)); naive_solver.
Qed.

Lemma first_ids_NoDup h : NoDup (first_ids h).
Proof.
  induction h as [| t h IH]; [by apply NoDup_nil_2 |]. cbn -[filter]. apply NoDup_cons. split.
  - rewrite list_elem_of_filter. tauto.
  - by apply NoDup_filter.
Qed.

Lemma first_ids_snoc h t :
  first_ids (h ++ [t]) = if decide (ID t ∈ first_ids h) then first_ids h else first_ids h ++ [ID t].
Proof.
  induction h as [| x h IH]; [done |]. cbn -[filter decide]. rewrite IH. clear IH.
  destruct (decide (ID t ∈ first_ids h)) as [Hin | Hin].
  - rewrite decide_True; [done |]. destruct (decide (ID t = ID x)) as [-> |]; [by left |].
    right. by apply list_elem_of_filter.
  - rewrite filter_app. destruct (decide (ID t = ID x)) as [Hx | Hx].
    + rewrite decide_True by (rewrite Hx; by left). f_equal.
      rewrite filter_cons_False by auto. by rewrite filter_nil, app_nil_r.
    + rewrite decide_False by (rewrite elem_of_cons, list_elem_of_filter; naive_solver).
      rewrite filter_cons_True by done. by rewrite filter_nil.
Qed.

Lemma latest_snoc h t id : latest (h ++ [t]) id = if decide (ID t = id) then Some t else latest h id.
Proof.
  unfold latest. rewrite filter_app, filter_cons, filter_nil.
  case_decide; [by rewrite last_snoc | by rewrite app_nil_r].
Qed.

Lemma latest_first h id :
  match latest h id with
  | Some t => ID t = id ∧ id ∈ first_ids h
  | None => id ∉ first_ids h
  end.
Proof.
  destruct (latest h id) as [t |] eqn:E.
  - apply last_Some in E as [l E].
    assert (t ∈ filter (λ t', ID t' = id) h) as Hx by (rewrite E; apply elem_of_app; right; by left).
    apply list_elem_of_filter in Hx as [Hx ?]. split; [done |]. apply first_ids_elem. by exists t.
  - intros (t & Hin & Hid)%first_ids_elem. apply last_None in E.
    assert (t ∈ filter (λ t', ID t' = id) h) as Hf by (by apply list_elem_of_filter).
    rewrite E in Hf. by apply elem_of_nil in Hf.
Qed.

Lemma saved_spec h : (∀ id, tasks (saved h) !! id = latest h id) ∧ order (saved h) = first_ids h.
Proof.
  unfold saved. induction h as [| t h [IH1 IH2]] using rev_ind; [done |].
  rewrite foldl_snoc. cbn [flip Save tasks order]. split.
  - intros id. rewrite latest_snoc. case_decide as Hd; [subst; by rewrite lookup_insert_eq |].
    by rewrite lookup_insert_ne.
  - rewrite first_ids_snoc, IH2, IH1.
    pose proof (latest_first h (ID t)) as Hl. destruct (latest h (ID t)) as [x |].
    + by rewrite decide_True by apply Hl.
    + by rewrite decide_False.
Qed.

Lemma ListByContextID_filter ctx ts :
  nonempty ctx = true → ListByContextID ctx ts = filter (λ t, ContextID t = ctx) (List ts).
Proof.
  unfold ListByContextID, List. intros ->. cbn [negb]. induction (order ts) as [| id l IH]; [done |].
  cbn -[filter decide]. destruct (tasks ts !! id) as [t |]; cbn -[filter decide]; [| done].
  rewrite filter_cons, IH. by case_decide.
Qed.

(** The store is its history. After any saves, [Get] and [StateOf]
    answer with the last save of an id; [List] enumerates every saved id exactly
    once, in the order of first saves (saving again keeps the position), with
    its latest task; and [ListByContextID] is that list restricted to the
    context, and empty for the empty context. *)
Lemma task_store_refines_history h :
  (∀ id, Get id (saved h) = latest h id ∧
     StateOf id (saved h) = from_option (λ t, (State t, true)) ("", false) (latest h id)) ∧
  List (saved h) = omap (latest h) (first_ids h) ∧
  ID <$> List (saved h) = first_ids h ∧ NoDup (ID <$> List (saved h)) ∧
  (∀ ctx, ListByContextID ctx (saved h) =
     if nonempty ctx then filter (λ t, ContextID t = ctx) (List (saved h)) else []).
Proof.
  destruct (saved_spec h) as [Ht Ho].
  assert (List (saved h) = omap (latest h) (first_ids h)) as HL.
  { unfold List. rewrite Ho. apply list_omap_ext, Forall_Forall2_diag, Forall_forall. intros id _. apply Ht. }
  assert (ID <$> List (saved h) = first_ids h) as HI.
  { rewrite HL. assert (∀ id, id ∈ first_ids h → ∃ t, latest h id = Some t ∧ ID t = id) as Hall.
    { intros id Hid. pose proof (latest_first h id) as Hl. destruct (latest h id) as [t |]; [| done].
      exists t. by destruct Hl. }
    clear -Hall. induction (first_ids h) as [| id l IH]; [done |]. cbn.
    destruct (Hall id) as (t & -> & Hid); [by left |]. cbn. rewrite Hid. f_equal. apply IH.
    intros id' Hin. apply Hall. by right. }
  split; [| split; [done | split; [done | split; [rewrite HI; apply first_ids_NoDup |]]]].
  - intros id. unfold Get, StateOf. rewrite Ht. split; [done |]. by destruct (latest h id).
  - intros ctx. destruct (nonempty ctx) eqn:E; [by apply ListByContextID_filter |].
    unfold ListByContextID. by rewrite E.
Qed.
End task_store.
