(* ===== verification/LifecycleConfig.v ===== *)
(** * The lifecycle block of an agent card ([internal/wrapper/lifecycle_config.go])

    Validation and defaults. The parser of package [time], the YAML encoder and
    SHA-256 are arguments; what is shown holds whatever they return. *)
From S2P Require Import Prelude GoBase GoStrings.
From Stdlib Require Import ZArith Lia.

Record LifecycleInitializeConfig := mkInitConfig {
  i_Enabled : bool; i_Timeout : string; i_Prompt : string; i_OnFailure : string;
}.

Record LifecycleFinalizeConfig := mkFinalConfig {
  f_Enabled : bool; f_WorkTimeout : string; f_GraceTimeout : string; f_Prompt : string;
}.

Record LifecycleConfig := mkLifecycleConfig {
  c_Initialize : LifecycleInitializeConfig;
  c_Finalize : LifecycleFinalizeConfig;
}.

Definition InitFailClosed : string := "fail_closed".
Definition InitDegraded : string := "degraded".

Definition lifecycleMinDuration : duration := Second.
Definition lifecycleMaxDuration : duration := Hour.

Definition DefaultInitializePrompt : string :=
  "This is a one-time session initialization turn owned by the runtime, not a user message. " +:+
  "Read the workspace guidance, validate that the tools you need are available, and prepare durable context for the session. " +:+
  "Keep this step idempotent and do not perform irreversible external writes. Reply with a brief readiness summary.".
Definition DefaultFinalizePrompt : string :=
  "The work deadline for this turn was reached. This is a finalize turn owned by the runtime, not a user message. " +:+
  "Stop all new investigation and tool use now. Summarize the evidence gathered so far and deliver the best final answer you can from it. " +:+
  "Do not start new lines of inquiry.".

Record ResolvedInitialize := mkResolvedInit {
  Init_Enabled : bool; Init_Timeout : duration; Init_Prompt : string; Init_OnFailure : string;
}.

Record ResolvedFinalize := mkResolvedFinal {
  Fin_Enabled : bool; Fin_WorkTimeout : duration; Fin_GraceTimeout : duration; Fin_Prompt : string;
}.

Record ResolvedLifecycle := mkResolved {
  Initialize : ResolvedInitialize;
  Finalize : ResolvedFinalize;
  Version : string;
}.

Definition Enabled (r : ResolvedLifecycle) : bool := Init_Enabled (Initialize r) || Fin_Enabled (Finalize r).

Inductive config_error :=
| Required (field : string)
| Unparsable (field raw err : string)
| OutOfBounds (field raw : string)
| BadOnFailure (got : string)
| GraceExceedsWork (grace work : duration).

Section resolve.
Context (ParseDuration : string → duration + string)
        (yaml_Marshal : LifecycleConfig → option string)
        (sha256_hex16 : string → string).

(** The first eight bytes of the digest, in hexadecimal. *)
Definition lifecycleVersion (cfg : LifecycleConfig) : string :=
  match yaml_Marshal cfg with None => "" | Some canonical => sha256_hex16 canonical end.

Definition resolveLifecycleDuration (field raw : string) (def : duration) : duration + config_error :=
  if bool_decide (raw = "") then
    if (def =? 0)%Z then inr (Required field) else inl def
  else match ParseDuration raw with
       | inr err => inr (Unparsable field raw err)
       | inl d =>
           if (d <? lifecycleMinDuration)%Z || (lifecycleMaxDuration <? d)%Z
           then inr (OutOfBounds field raw) else inl d
       end.

Definition resolve_initialize (c : LifecycleInitializeConfig) : ResolvedInitialize + config_error :=
  if i_Enabled c then
    match resolveLifecycleDuration "lifecycle.initialize.timeout" (i_Timeout c) Minute with
    | inr err => inr err
    | inl d =>
        let ok (onFailure : string) :=
          inl (mkResolvedInit true d (if bool_decide (i_Prompt c = "") then DefaultInitializePrompt else i_Prompt c) onFailure) in
        if bool_decide (i_OnFailure c = "") then ok InitFailClosed
        else if bool_decide (i_OnFailure c = InitFailClosed) || bool_decide (i_OnFailure c = InitDegraded)
        then ok (i_OnFailure c)
        else inr (BadOnFailure (i_OnFailure c))
    end
  else inl (mkResolvedInit false 0 (i_Prompt c) (i_OnFailure c)).

Definition resolve_finalize (c : LifecycleFinalizeConfig) : ResolvedFinalize + config_error :=
  if f_Enabled c then
    if bool_decide (f_WorkTimeout c = "") then inr (Required "lifecycle.finalize.work_timeout")
    else match resolveLifecycleDuration "lifecycle.finalize.work_timeout" (f_WorkTimeout c) 0 with
         | inr err => inr err
         | inl work =>
             match resolveLifecycleDuration "lifecycle.finalize.grace_timeout" (f_GraceTimeout c) (2 * Minute) with
             | inr err => inr err
             | inl grace =>
                 if (work <? grace)%Z then inr (GraceExceedsWork grace work)
                 else inl (mkResolvedFinal true work grace
                        (if bool_decide (f_Prompt c = "") then DefaultFinalizePrompt else f_Prompt c))
             end
         end
  else inl (mkResolvedFinal false 0 0 (f_Prompt c)).

Definition ResolveLifecycle (cfg : LifecycleConfig) : ResolvedLifecycle + config_error :=
  match resolve_initialize (c_Initialize cfg) with
  | inr err => inr err
  | inl i =>
      match resolve_finalize (c_Finalize cfg) with
      | inr err => inr err
      | inl f => inl (mkResolved i f (lifecycleVersion cfg))
      end
  end.

Lemma resolveLifecycleDuration_bounds field raw def d :
  (def = 0 ∨ lifecycleMinDuration ≤ def ≤ lifecycleMaxDuration)%Z →
  resolveLifecycleDuration field raw def = inl d →
  (lifecycleMinDuration ≤ d ≤ lifecycleMaxDuration)%Z.
Proof.
  intros Hdef. unfold resolveLifecycleDuration. case_bool_decide.
  - destruct (_ =? _)%Z eqn:E; [done |]. bool_to_prop. intros [= <-]. lia.
  - destruct (ParseDuration raw); [| done]. destruct (_ || _)%bool eqn:E; [done |]. bool_to_prop.
    intros [= <-]. lia.
Qed.

(** The default durations are within the bounds. *)
Lemma defaults_in_bounds :
  (lifecycleMinDuration ≤ Minute ≤ lifecycleMaxDuration)%Z ∧
  (lifecycleMinDuration ≤ 2 * Minute ≤ lifecycleMaxDuration)%Z.
Proof. by vm_compute. Qed.

Lemma resolve_initialize_sound c i :
  resolve_initialize c = inl i →
  Init_Enabled i = i_Enabled c ∧
  (Init_Enabled i = true → (lifecycleMinDuration ≤ Init_Timeout i ≤ lifecycleMaxDuration)%Z ∧ Init_Prompt i ≠ "" ∧
     (Init_OnFailure i = InitFailClosed ∨ Init_OnFailure i = InitDegraded)) ∧
  (Init_Enabled i = false → Init_Timeout i = 0%Z).
Proof.
  unfold resolve_initialize. destruct (i_Enabled c); [| by intros [= <-]].
  destruct (resolveLifecycleDuration _ _ _) as [d |] eqn:E; [| done].
  apply resolveLifecycleDuration_bounds in E; [| right; apply defaults_in_bounds].
  assert ((if bool_decide (i_Prompt c = "") then DefaultInitializePrompt else i_Prompt c) ≠ "") as Hp.
  { by case_bool_decide. }
  cbn zeta. set (prompt := if bool_decide (i_Prompt c = "") then _ else _) in *. clearbody prompt.
  intros Ei.
  assert (∃ p, i = mkResolvedInit true d prompt p ∧ (p = InitFailClosed ∨ p = InitDegraded)) as (p & -> & Hpol).
  { destruct (bool_decide (i_OnFailure c = "")); [injection Ei as <-; eauto |].
    destruct (_ || _)%bool eqn:E2; [| done]. injection Ei as <-. eexists. split; [done |].
    apply orb_prop in E2 as [E2 | E2]; bool_to_prop; auto. }
  split; [done |]. by split.
Qed.

Lemma resolve_finalize_sound c f :
  resolve_finalize c = inl f →
  Fin_Enabled f = f_Enabled c ∧
  (Fin_Enabled f = true →
     (lifecycleMinDuration ≤ Fin_GraceTimeout f ≤ Fin_WorkTimeout f)%Z ∧
     (Fin_WorkTimeout f ≤ lifecycleMaxDuration)%Z ∧ Fin_Prompt f ≠ "") ∧
  (Fin_Enabled f = false → Fin_WorkTimeout f = 0%Z ∧ Fin_GraceTimeout f = 0%Z).
Proof.
  unfold resolve_finalize. destruct (f_Enabled c); [| by intros [= <-]].
  case_bool_decide; [done |].
  destruct (resolveLifecycleDuration _ _ 0) as [work |] eqn:E1; [| done].
  destruct (resolveLifecycleDuration _ _ (2 * Minute)) as [grace |] eqn:E2; [| done].
  apply resolveLifecycleDuration_bounds in E1; [| by left].
  apply resolveLifecycleDuration_bounds in E2; [| right; apply defaults_in_bounds].
  destruct (_ <? _)%Z eqn:Eg; [done |]. bool_to_prop. intros [= <-]. split; [done |]. split; [| done].
  intros _. cbn [Fin_GraceTimeout Fin_WorkTimeout Fin_Prompt]. split; [lia |]. split; [lia |].
  by case_bool_decide.
Qed.

(** What a resolved lifecycle promises the runtime. Every deadline that
    is in force lies between one second and one hour and the grace period does
    not exceed the work period; the failure policy is one of the two known
    ones and no prompt is empty; a block that is off has no deadline; and a
    card with neither block resolves to the disabled lifecycle without any
    error, whatever its other fields hold. *)
Lemma resolved_lifecycle_sound cfg :
  (∀ r, ResolveLifecycle cfg = inl r →
     (Init_Enabled (Initialize r) = i_Enabled (c_Initialize cfg) ∧
      Fin_Enabled (Finalize r) = f_Enabled (c_Finalize cfg)) ∧
     (Init_Enabled (Initialize r) = true →
        (Second ≤ Init_Timeout (Initialize r) ≤ Hour)%Z ∧ Init_Prompt (Initialize r) ≠ "" ∧
        (Init_OnFailure (Initialize r) = InitFailClosed ∨ Init_OnFailure (Initialize r) = InitDegraded)) ∧
     (Fin_Enabled (Finalize r) = true →
        (Second ≤ Fin_GraceTimeout (Finalize r) ≤ Fin_WorkTimeout (Finalize r))%Z ∧
        (Fin_WorkTimeout (Finalize r) ≤ Hour)%Z ∧ Fin_Prompt (Finalize r) ≠ "") ∧
     (Init_Enabled (Initialize r) = false → Init_Timeout (Initialize r) = 0%Z) ∧
     (Fin_Enabled (Finalize r) = false →
        Fin_WorkTimeout (Finalize r) = 0%Z ∧ Fin_GraceTimeout (Finalize r) = 0%Z)) ∧
  (i_Enabled (c_Initialize cfg) = false → f_Enabled (c_Finalize cfg) = false →
     ∃ r, ResolveLifecycle cfg = inl r ∧ Enabled r = false).
Proof.
  unfold ResolveLifecycle. split.
  - intros r E. destruct (resolve_initialize _) as [i |] eqn:Ei; [| done].
    destruct (resolve_finalize _) as [f |] eqn:Ef; [| done]. injection E as <-.
    apply resolve_initialize_sound in Ei as (I1 & I2 & I3).
    apply resolve_finalize_sound in Ef as (F1 & F2 & F3). by split_and!.
  - unfold resolve_initialize, resolve_finalize. intros -> ->. eexists. split; [done |]. done.
Qed.
End resolve.
