(* ===== verification/LifecycleStore.v ===== *)
(** * The persisted lifecycle state ([internal/wrapper/lifecycle_store.go])

    One record per session: its phase, the initialization marker, a bounded
    ordered event log and the last typed outcome, written as one JSON file after
    every change. The JSON codec is an argument; an I/O failure, which the code
    logs and which leaves the previous file, is not modelled. *)
From S2P Require Import Prelude GoBase GoStrings.
From Stdlib Require Import ZArith Lia.

Definition EvtSessionInitializing : string := "session.initializing".
Definition EvtSessionInitialized : string := "session.initialized".
Definition EvtSessionInitializationFailed : string := "session.initialization_failed".
Definition EvtTurnRunning : string := "turn.running".
Definition EvtTurnSoftDeadline : string := "turn.soft_deadline".
Definition EvtTurnFinalizing : string := "turn.finalizing".
Definition EvtTurnFinalized : string := "turn.finalized".
Definition EvtTurnFinalizationFailed : string := "turn.finalization_failed".
Definition EvtTurnOutcome : string := "turn.outcome".

Definition PhaseIdle : string := "idle".
Definition PhaseInitializing : string := "initializing".
Definition PhaseRunning : string := "running".
Definition PhaseFinalizing : string := "finalizing".

Definition KindCompleted : string := "completed".
Definition KindRuntimeTimeout : string := "runtime_timeout".
Definition KindFacadeTimeout : string := "facade_timeout".
Definition KindCanceled : string := "canceled".
Definition KindProviderError : string := "provider_error".
Definition KindFinalizeTimeout : string := "finalize_timeout".
Definition KindInitializationFailure : string := "initialization_failure".

Definition TriggerSoftDeadline : string := "soft_deadline".
Definition TriggerGracefulStop : string := "graceful_stop".

Definition maxLifecycleEventsPerSession : nat := 500.
Definition maxLifecycleDetailBytes : nat := 512.
Definition maxLifecycleErrBytes : nat := 1024.
Definition maxLifecycleMessageBytes : nat := 4096.

Record LifecycleEvent := mkEvent {
  Seq : Z;
  Type_ : string;
  SessionID : string;
  TurnID : string;
  Phase : string;
  Trigger : string;
  Kind : string;
  Detail : string;
  At : time;
}.

Record TurnOutcome := mkOutcome {
  o_SessionID : string;
  o_TurnID : string;
  o_Phase : string;
  o_Kind : string;
  o_Finalized : bool;
  o_Trigger : string;
  o_StartedAt : time;
  o_FinishedAt : time;
  o_WorkDeadline : option time;
  o_GraceDeadline : option time;
  o_Error : string;
  o_LastMessage : string;
}.

Record SessionLifecycle := mkSession {
  s_Phase : string;
  LifecycleVersion : string;
  Initialized : bool;
  InitializedAt : option time;
  InitDegraded_ : bool;
  CurrentTurnID : string;
  Events : list LifecycleEvent;
  LastOutcome : option TurnOutcome;
}.

Definition emptySession : SessionLifecycle := mkSession PhaseIdle "" false None false "" [] None.

(** The contents of the file. *)
Definition onDisk : Type := Z * gmap string SessionLifecycle.

Definition boundLifecycleString (s : string) (max : nat) : string :=
  let s := TrimSpace s in
  if max <? blen s then byte_take (max - blen "…") s +:+ "…" else s.

(** What [NewLifecycleStore] does to a loaded record. *)
Definition settle (r : SessionLifecycle) : SessionLifecycle :=
  let idle := bool_decide (s_Phase r = PhaseIdle) in
  mkSession PhaseIdle (LifecycleVersion r) (Initialized r) (InitializedAt r) (InitDegraded_ r)
    (if idle then CurrentTurnID r else "") (keep_last maxLifecycleEventsPerSession (Events r)) (LastOutcome r).

Section store.
Context (Marshal : onDisk → option string) (Unmarshal : string → option onDisk).

Record LifecycleStore := mkStore {
  path : string;
  sessions : gmap string SessionLifecycle;
  seq : Z;
  file : option string;     (** the contents of the file at [path] *)
}.

(** [contents] is the file as read, [None] when it cannot be. *)
Definition NewLifecycleStore (p : string) (contents : option string) : LifecycleStore :=
  match contents ≫= Unmarshal with
  | None => mkStore p ∅ 0 contents
  | Some (n, m) => mkStore p (settle <$> m) n contents
  end.

Definition persistLocked (s : LifecycleStore) : LifecycleStore :=
  if negb (nonempty (path s)) then s
  else match Marshal (seq s, sessions s) with
       | None => s
       | Some data => mkStore (path s) (sessions s) (seq s) (Some data)
       end.

Definition record_of (ctx : string) (s : LifecycleStore) : SessionLifecycle :=
  default emptySession (sessions s !! ctx).

Definition set_record (ctx : string) (r : SessionLifecycle) (s : LifecycleStore) : LifecycleStore :=
  mkStore (path s) (<[ctx := r]> (sessions s)) (seq s) (file s).

(** The record is allocated when it does not exist, also by readers. *)
Definition getLocked (ctx : string) (s : LifecycleStore) : LifecycleStore * SessionLifecycle :=
  (set_record ctx (record_of ctx s) s, record_of ctx s).

Definition needs_init (r : SessionLifecycle) (version : string) : bool :=
  if InitDegraded_ r && bool_decide (LifecycleVersion r = version) then false
  else negb (Initialized r) || negb (bool_decide (LifecycleVersion r = version)).

Definition NeedsInit (ctx version : string) (s : LifecycleStore) : LifecycleStore * bool :=
  let '(s, r) := getLocked ctx s in (s, needs_init r version).

Definition MarkInitialized (now : time) (ctx version : string) (s : LifecycleStore) : LifecycleStore :=
  let '(s, r) := getLocked ctx s in
  persistLocked (set_record ctx
    (mkSession (s_Phase r) version true (Some now) false (CurrentTurnID r) (Events r) (LastOutcome r)) s).

Definition MarkInitDegraded (ctx version : string) (s : LifecycleStore) : LifecycleStore :=
  let '(s, r) := getLocked ctx s in
  persistLocked (set_record ctx
    (mkSession (s_Phase r) version (Initialized r) (InitializedAt r) true (CurrentTurnID r) (Events r) (LastOutcome r)) s).

Definition SetPhase (ctx phase turnID : string) (s : LifecycleStore) : LifecycleStore :=
  let '(s, r) := getLocked ctx s in
  persistLocked (set_record ctx
    (mkSession phase (LifecycleVersion r) (Initialized r) (InitializedAt r) (InitDegraded_ r) turnID (Events r)
       (LastOutcome r)) s).

Definition stamp (n : Z) (now : time) (ctx : string) (ev : LifecycleEvent) : LifecycleEvent :=
  mkEvent n (Type_ ev) ctx (TurnID ev) (Phase ev) (Trigger ev) (Kind ev)
    (boundLifecycleString (Detail ev) maxLifecycleDetailBytes) now.

Definition Append (now : time) (ctx : string) (ev : LifecycleEvent) (s : LifecycleStore) : LifecycleStore :=
  let '(s, r) := getLocked ctx s in
  let n := i64 (seq s + 1) in
  let events := Events r ++ [stamp n now ctx ev] in
  persistLocked
    (mkStore (path s)
       (<[ctx := mkSession (s_Phase r) (LifecycleVersion r) (Initialized r) (InitializedAt r) (InitDegraded_ r)
            (CurrentTurnID r)
            (if maxLifecycleEventsPerSession <? length events
             then keep_last maxLifecycleEventsPerSession events else events) (LastOutcome r)]> (sessions s))
       n (file s)).

Definition RecordOutcome (ctx : string) (o : TurnOutcome) (s : LifecycleStore) : LifecycleStore :=
  let '(s, r) := getLocked ctx s in
  let o := mkOutcome ctx (o_TurnID o) (o_Phase o) (o_Kind o) (o_Finalized o) (o_Trigger o) (o_StartedAt o)
             (o_FinishedAt o) (o_WorkDeadline o) (o_GraceDeadline o)
             (boundLifecycleString (o_Error o) maxLifecycleErrBytes)
             (boundLifecycleString (o_LastMessage o) maxLifecycleMessageBytes) in
  persistLocked (set_record ctx
    (mkSession PhaseIdle (LifecycleVersion r) (Initialized r) (InitializedAt r) (InitDegraded_ r) "" (Events r)
       (Some o)) s).

Definition Record_ (ctx : string) (s : LifecycleStore) : LifecycleStore * SessionLifecycle := getLocked ctx s.

(** ** Sequences of operations *)

Inductive op :=
| OpNeedsInit (ctx version : string)
| OpMarkInitialized (now : time) (ctx version : string)
| OpMarkInitDegraded (ctx version : string)
| OpSetPhase (ctx phase turnID : string)
| OpAppend (now : time) (ctx : string) (ev : LifecycleEvent)
| OpRecordOutcome (ctx : string) (o : TurnOutcome)
| OpRecord (ctx : string).

Definition apply (o : op) (s : LifecycleStore) : LifecycleStore :=
  match o with
  | OpNeedsInit ctx v => fst (NeedsInit ctx v s)
  | OpMarkInitialized now ctx v => MarkInitialized now ctx v s
  | OpMarkInitDegraded ctx v => MarkInitDegraded ctx v s
  | OpSetPhase ctx ph turn => SetPhase ctx ph turn s
  | OpAppend now ctx ev => Append now ctx ev s
  | OpRecordOutcome ctx out => RecordOutcome ctx out s
  | OpRecord ctx => fst (Record_ ctx s)
  end.

Definition run (ops : list op) (s : LifecycleStore) : LifecycleStore := foldl (flip apply) s ops.

Lemma persistLocked_fields s :
  sessions (persistLocked s) = sessions s ∧ seq (persistLocked s) = seq s ∧ path (persistLocked s) = path s.
Proof. unfold persistLocked. by repeat case_match. Qed.

Lemma record_of_set ctx ctx' r s :
  record_of ctx' (set_record ctx r s) = if decide (ctx' = ctx) then r else record_of ctx' s.
Proof.
  unfold record_of. cbn. case_decide; [subst; by rewrite lookup_insert_eq | by rewrite lookup_insert_ne].
Qed.

Lemma record_of_persist ctx s : record_of ctx (persistLocked s) = record_of ctx s.
Proof. unfold record_of. by rewrite (proj1 (persistLocked_fields s)). Qed.

(** What each operation does to the records it leaves behind. *)
Definition touched (o : op) : string :=
  match o with
  | OpNeedsInit ctx _ | OpMarkInitialized _ ctx _ | OpMarkInitDegraded ctx _ | OpSetPhase ctx _ _
  | OpAppend _ ctx _ | OpRecordOutcome ctx _ | OpRecord ctx => ctx
  end.

Lemma apply_other o ctx s : ctx ≠ touched o → record_of ctx (apply o s) = record_of ctx s.
Proof.
  intros Hne. destruct o; cbn [touched apply NeedsInit MarkInitialized MarkInitDegraded SetPhase Append RecordOutcome Record_ getLocked fst] in *;
    rewrite ?record_of_persist, ?record_of_set, ?decide_False by done; try done.
  unfold record_of. cbn. by rewrite !lookup_insert_ne.
Qed.

Lemma apply_seq o s :
  seq (apply o s) = if o is OpAppend _ _ _ then i64 (seq s + 1) else seq s.
Proof.
  destruct o; cbn [apply NeedsInit MarkInitialized MarkInitDegraded SetPhase Append RecordOutcome Record_ getLocked fst];
    rewrite ?(proj1 (proj2 (persistLocked_fields _))); done.
Qed.

(** The record an operation works on, afterwards. *)
Lemma apply_touched o s :
  let r := record_of (touched o) s in
  let r' := record_of (touched o) (apply o s) in
  Events r' = (if o is OpAppend now ctx ev
               then keep_last maxLifecycleEventsPerSession (Events r ++ [stamp (i64 (seq s + 1)) now ctx ev])
               else Events r) ∧
  (Initialized r', InitDegraded_ r', LifecycleVersion r') =
    match o with
    | OpMarkInitialized _ _ v => (true, false, v)
    | OpMarkInitDegraded _ v => (Initialized r, true, v)
    | _ => (Initialized r, InitDegraded_ r, LifecycleVersion r)
    end.
Proof.
  destruct o; cbn [touched apply NeedsInit MarkInitialized MarkInitDegraded SetPhase Append RecordOutcome Record_ getLocked fst];
    rewrite ?record_of_persist, ?record_of_set, ?decide_True by done; try done.
  unfold record_of. cbn [sessions set_record]. rewrite !lookup_insert_eq. cbn [default Events Initialized InitDegraded_ LifecycleVersion].
  split; [| done]. destruct (_ <? _) eqn:E; [done |]. bool_to_prop. by rewrite keep_last_short.
Qed.

(** The phase, the turn in flight and the outcome. *)
Lemma apply_outcome ctx out s :
  let r' := record_of ctx (apply (OpRecordOutcome ctx out) s) in
  s_Phase r' = PhaseIdle ∧ CurrentTurnID r' = "" ∧
  ∃ o', LastOutcome r' = Some o' ∧ o_SessionID o' = ctx ∧ o_TurnID o' = o_TurnID out ∧
    o_Kind o' = o_Kind out ∧ o_Finalized o' = o_Finalized out.
Proof.
  cbn [apply RecordOutcome getLocked]. rewrite record_of_persist, record_of_set, decide_True by done.
  split; [done |]. split; [done |]. by eexists.
Qed.

Lemma apply_append t ctx ctx' ev s :
  let r := record_of ctx s in
  let r' := record_of ctx (apply (OpAppend t ctx' ev) s) in
  s_Phase r' = s_Phase r ∧ CurrentTurnID r' = CurrentTurnID r ∧ LastOutcome r' = LastOutcome r.
Proof.
  destruct (decide (ctx = ctx')) as [<- | Hne]; [| by rewrite apply_other].
  cbn [apply Append getLocked]. rewrite record_of_persist. unfold record_of. cbn [sessions set_record].
  by rewrite !lookup_insert_eq.
Qed.

(** ** The event log *)

(** The appended events, stamped with their position. *)
Definition appended (ops : list op) : list (time * string * LifecycleEvent) :=
  omap (λ o, if o is OpAppend now ctx ev then Some (now, ctx, ev) else None) ops.

Definition history (ops : list op) : list LifecycleEvent :=
  imap (λ i x, stamp (Z.of_nat (S i)) x.1.1 x.1.2 x.2) (appended ops).

Lemma appended_snoc ops o :
  appended (ops ++ [o]) = appended ops ++ (if o is OpAppend now ctx ev then [(now, ctx, ev)] else []).
Proof. unfold appended. rewrite omap_app. by destruct o. Qed.

Lemma history_snoc ops o :
  history (ops ++ [o]) = history ops ++
    (if o is OpAppend now ctx ev then [stamp (Z.of_nat (S (length (history ops)))) now ctx ev] else []).
Proof.
  unfold history. rewrite appended_snoc, imap_app, length_imap. destruct o; try done. cbn. by rewrite Nat.add_0_r.
Qed.

Lemma run_log ops p :
  (Z.of_nat (length ops) < max_int64)%Z →
  seq (run ops (mkStore p ∅ 0 None)) = Z.of_nat (length (history ops)) ∧
  ∀ ctx, Events (record_of ctx (run ops (mkStore p ∅ 0 None))) =
    keep_last maxLifecycleEventsPerSession (filter (λ e, SessionID e = ctx) (history ops)).
Proof.
  induction ops as [| o ops IH] using rev_ind; [done |]. intros Hlen. rewrite length_app in Hlen. cbn in Hlen.
  destruct IH as [IH1 IH2]; [lia |]. unfold run in *. rewrite foldl_snoc. cbn [flip].
  set (s := foldl _ _ ops) in *.
  assert (length (history ops) ≤ length ops) as Hh.
  { unfold history, appended. rewrite length_imap. clear. induction ops as [| o ops IH]; [done |]. cbn. destruct o; cbn; lia. }
  assert (i64 (seq s + 1) = Z.of_nat (S (length (history ops)))) as Hn.
  { rewrite IH1, i64_small; [lia |]. unfold min_int64, max_int64 in *. lia. }
  split.
  - rewrite apply_seq, history_snoc, length_app. destruct o; cbn [length]; rewrite ?Nat.add_0_r; try done.
    rewrite Hn. lia.
  - intros ctx. rewrite history_snoc, filter_app. destruct (decide (ctx = touched o)) as [-> | Hne].
    + destruct (apply_touched o s) as [-> _]. rewrite IH2. destruct o; rewrite ?filter_nil, ?app_nil_r; try done.
      rewrite filter_cons_True by done. by rewrite filter_nil, keep_last_app, Hn.
    + rewrite apply_other, IH2 by done. destruct o; rewrite ?filter_nil, ?app_nil_r; try done.
      rewrite filter_cons_False by (cbn; by intros ->). by rewrite filter_nil, app_nil_r.
Qed.

Lemma boundLifecycleString_length s max :
  blen "…" ≤ max → blen (boundLifecycleString s max) ≤ max.
Proof.
  intros Hmax. unfold boundLifecycleString. destruct (_ <? _) eqn:E; bool_to_prop; [| done].
  rewrite blen_app, blen_byte_take. lia.
Qed.

Lemma history_sorted ops : StronglySorted (λ a b, Seq a < Seq b)%Z (history ops).
Proof.
  unfold history. generalize (appended ops). intros l.
  assert (∀ k, StronglySorted (λ a b, Seq a < Seq b)%Z
    (imap (λ i x, stamp (Z.of_nat (S (k + i))) x.1.1 x.1.2 x.2) l)) as H; [| apply (H 0)].
  induction l as [| x l IH]; intros k; [constructor |]. cbn. constructor.
  - eapply eq_ind; [apply (IH (S k)) |]. apply imap_ext. intros i y _. cbn. do 2 f_equal. lia.
  - apply Forall_lookup. intros i e. rewrite list_lookup_imap, fmap_Some. intros (y & _ & ->). cbn. lia.
Qed.

Lemma StronglySorted_sublist {A} (R : relation A) l k : l `sublist_of` k → StronglySorted R k → StronglySorted R l.
Proof.
  induction 1 as [| x l k Hs IH | x l k Hs IH]; intros H; [constructor | |];
    apply StronglySorted_inv in H as [H1 H2]; [| by apply IH].
  constructor; [by apply IH |]. rewrite Forall_forall in *. intros y Hy. apply H2. by eapply elem_of_sublist.
Qed.

(** The event log is ordered, bounded and complete up to the bound.
    After any sequence of operations on a new store, the log of a session is
    the last 500 of the events appended for it, each stamped with its position
    among all appends of the store; hence sequence numbers increase strictly
    along every log, an event is in its own session's log only, and no detail
    exceeds 512 bytes. The other operations do not touch any log. *)
Lemma lifecycle_log_refines_history p ops ctx :
  (Z.of_nat (length ops) < max_int64)%Z →
  let log := Events (record_of ctx (run ops (NewLifecycleStore p None))) in
  log = keep_last maxLifecycleEventsPerSession (filter (λ e, SessionID e = ctx) (history ops)) ∧
  StronglySorted (λ a b, Seq a < Seq b)%Z log ∧
  length log ≤ maxLifecycleEventsPerSession ∧
  Forall (λ e, SessionID e = ctx ∧ blen (Detail e) ≤ maxLifecycleDetailBytes) log.
Proof.
  intros Hlen. cbn zeta. change (NewLifecycleStore p None) with (mkStore p ∅ 0 None).
  rewrite (proj2 (run_log ops p Hlen) ctx). split; [done |].
  assert (keep_last maxLifecycleEventsPerSession (filter (λ e, SessionID e = ctx) (history ops)) `sublist_of` history ops) as Hs.
  { etrans; [apply sublist_drop | apply sublist_filter]. }
  split_and!.
  - by eapply StronglySorted_sublist, history_sorted.
  - rewrite length_keep_last. lia.
  - apply Forall_forall. intros e He. split.
    + eapply elem_of_sublist in He; [| apply sublist_drop]. by apply list_elem_of_filter in He as [? _].
    + eapply elem_of_sublist in He; [| exact Hs]. unfold history in He.
      apply elem_of_lookup_imap in He as (i & x & -> & _). apply boundLifecycleString_length. unfold maxLifecycleDetailBytes. cbn. lia.
Qed.

(** ** The initialization marker *)

(** The version of the last marker written for a session. *)
Definition marks (ctx : string) (o : op) : option string :=
  match o with
  | OpMarkInitialized _ c v | OpMarkInitDegraded c v => if decide (c = ctx) then Some v else None
  | _ => None
  end.

Definition last_mark (ctx : string) (ops : list op) : option string := last (omap (marks ctx) ops).

Definition marker_agrees (r : SessionLifecycle) (m : option string) : Prop :=
  match m with
  | None => Initialized r = false ∧ InitDegraded_ r = false
  | Some v => LifecycleVersion r = v ∧ (Initialized r = true ∨ InitDegraded_ r = true)
  end.

Lemma marker_agrees_needs r m v :
  marker_agrees r m → needs_init r v = negb (bool_decide (m = Some v)).
Proof.
  unfold marker_agrees, needs_init. destruct m as [v' |].
  - intros [<- Hor]. destruct (decide (LifecycleVersion r = v)) as [He | He].
    + rewrite !bool_decide_eq_true_2 by congruence. destruct Hor as [-> | ->]; [| done].
      by destruct (InitDegraded_ r).
    + rewrite !bool_decide_eq_false_2 by congruence. by rewrite andb_false_r, orb_true_r.
  - intros [-> ->]. by rewrite (bool_decide_eq_false_2 (None = Some v)).
Qed.

Lemma run_marker ops ctx s :
  let r := record_of ctx s in
  let r' := record_of ctx (run ops s) in
  match last_mark ctx ops with
  | Some v => marker_agrees r' (Some v)
  | None => (Initialized r', InitDegraded_ r', LifecycleVersion r') = (Initialized r, InitDegraded_ r, LifecycleVersion r)
  end.
Proof.
  unfold run, last_mark. cbn zeta. induction ops as [| o ops IH] using rev_ind; [done |].
  rewrite foldl_snoc, omap_app. cbn [flip]. set (s1 := foldl _ s ops) in *.
  destruct (decide (ctx = touched o)) as [-> | Hne].
  - destruct (apply_touched o s1) as [_ E]. cbn zeta in E.
    set (r' := record_of (touched o) (apply o s1)) in *. clearbody r'. destruct o; cbn [touched marks omap list_omap] in *;
      rewrite ?decide_True by done; rewrite ?app_nil_r, ?last_snoc; injection E as E1 E2 E3;
      unfold marker_agrees in *; rewrite E1, E2, E3; auto.
  - rewrite apply_other by done. destruct o; cbn [touched marks omap list_omap] in *;
      rewrite ?decide_False by congruence; by rewrite app_nil_r.
Qed.

Lemma run_needs ops ctx s v :
  needs_init (record_of ctx (run ops s)) v =
    match last_mark ctx ops with
    | Some v' => negb (bool_decide (v' = v))
    | None => needs_init (record_of ctx s) v
    end.
Proof.
  pose proof (run_marker ops ctx s) as H. cbn zeta in H. destruct (last_mark ctx ops) as [v' |].
  - rewrite (marker_agrees_needs _ _ v H). f_equal. apply bool_decide_ext. naive_solver.
  - unfold needs_init. by injection H as -> -> ->.
Qed.

(** Initialization runs once per session and lifecycle version. After
    any operations a session needs initialization for a version exactly when
    the last marker written for that session, completed or degraded, is not
    for that version; phases, events, outcomes and other sessions are
    irrelevant. *)
Lemma init_once_per_version p ops ctx version :
  snd (NeedsInit ctx version (run ops (NewLifecycleStore p None))) =
    negb (bool_decide (last_mark ctx ops = Some version)).
Proof.
  cbn [NeedsInit getLocked snd]. rewrite run_needs. destruct (last_mark ctx ops) as [v |]; [| done].
  f_equal. apply bool_decide_ext. naive_solver.
Qed.

(** ** Restart *)

Section restart.
Context (representable : onDisk → Prop).
Hypothesis codec : ∀ x, representable x → ∃ d, Marshal x = Some d ∧ Unmarshal d = Some x.

Definition file_agrees (s : LifecycleStore) : Prop :=
  match file s with
  | None => ∀ ctx, record_of ctx s = emptySession
  | Some d => ∃ n m, Unmarshal d = Some (n, m) ∧ ∀ ctx, default emptySession (m !! ctx) = record_of ctx s
  end.

Lemma file_agrees_persist s :
  nonempty (path s) = true → representable (seq s, sessions s) → file_agrees (persistLocked s).
Proof using codec.
  intros Hp Hr. unfold persistLocked. rewrite Hp. cbn [negb].
  destruct (codec _ Hr) as (d & -> & Hd). unfold file_agrees. cbn. by exists (seq s), (sessions s).
Qed.

(** Reading a record allocates it, which changes no record. *)
Lemma file_agrees_get s ctx : file_agrees s → file_agrees (fst (getLocked ctx s)).
Proof using Type.
  unfold file_agrees. cbn [getLocked fst set_record file].
  assert (∀ k, record_of k (set_record ctx (record_of ctx s) s) = record_of k s) as E.
  { intros k. rewrite record_of_set. by case_decide; subst. }
  destruct (file s) as [d |].
  - intros (n & m & Hd & H). exists n, m. split; [done |]. intros k. by rewrite E.
  - intros H k. by rewrite E.
Qed.

Definition state_of (s : LifecycleStore) : onDisk := (seq s, sessions s).

Lemma file_agrees_apply o s :
  nonempty (path s) = true → representable (state_of (apply o s)) → file_agrees s → file_agrees (apply o s).
Proof using codec.
  intros Hp Hr Ha. destruct o; cbn [apply] in *; try by apply file_agrees_get.
  all: cbn [MarkInitialized MarkInitDegraded SetPhase Append RecordOutcome getLocked] in *;
    apply file_agrees_persist; [done |]; unfold state_of in Hr;
    match type of Hr with context [persistLocked ?x] =>
      destruct (persistLocked_fields x) as (E1 & E2 & _); by rewrite E1, E2 in Hr end.
Qed.

Lemma apply_path o s : path (apply o s) = path s.
Proof using Type.
  destruct o; cbn [apply NeedsInit MarkInitialized MarkInitDegraded SetPhase Append RecordOutcome Record_ getLocked fst];
    rewrite ?(proj2 (proj2 (persistLocked_fields _))); done.
Qed.

Lemma run_file ops p :
  nonempty p = true →
  (∀ n, n < length ops → representable (state_of (run (take (S n) ops) (mkStore p ∅ 0 None)))) →
  path (run ops (mkStore p ∅ 0 None)) = p ∧ file_agrees (run ops (mkStore p ∅ 0 None)).
Proof using codec.
  intros Hp. induction ops as [| o ops IH] using rev_ind; [done |]. intros Hr.
  destruct IH as [IH1 IH2].
  { intros n Hn. specialize (Hr n). rewrite length_app, take_app_le in Hr by lia. apply Hr. lia. }
  specialize (Hr (length ops)). rewrite length_app, take_ge in Hr by (rewrite length_app; cbn; lia).
  unfold run in *. rewrite foldl_snoc in *. cbn [flip] in *. split; [by rewrite apply_path |].
  apply file_agrees_apply; [by rewrite IH1 | apply Hr; cbn; lia | done].
Qed.

(** A restart loses nothing that was durable. Reopening the store from
    the file it last wrote gives, for every session, the record it had, with
    the phase settled to idle and the turn in flight cleared: the
    initialization marker, the log and the last outcome are those before the
    crash, and no outcome is invented. Hypothesis: the JSON codec reads back
    the states the run persists. *)
Lemma restart_settles p ops ctx :
  nonempty p = true →
  (∀ n, n < length ops → representable (state_of (run (take (S n) ops) (NewLifecycleStore p None)))) →
  (Z.of_nat (length ops) < max_int64)%Z →
  let s := run ops (NewLifecycleStore p None) in
  let r := record_of ctx s in
  let r' := record_of ctx (NewLifecycleStore p (file s)) in
  s_Phase r' = PhaseIdle ∧ (s_Phase r ≠ PhaseIdle → CurrentTurnID r' = "") ∧
  Events r' = Events r ∧ LastOutcome r' = LastOutcome r ∧
  (∀ v, needs_init r' v = needs_init r v).
Proof using codec.
  intros Hp Hr Hlen. cbn zeta. change (NewLifecycleStore p None) with (mkStore p ∅ 0 None) in *.
  destruct (run_file ops p Hp Hr) as [_ Hfile]. destruct (run_log ops p Hlen) as [_ Hlog]. specialize (Hlog ctx).
  set (s := run ops _) in *.
  assert (record_of ctx (NewLifecycleStore p (file s)) = settle (record_of ctx s)) as ->.
  { unfold file_agrees in Hfile. unfold NewLifecycleStore. destruct (file s) as [d |]; cbn [mbind option_bind].
    - destruct Hfile as (n & m & -> & Hm). unfold record_of at 1. cbn [sessions]. rewrite lookup_fmap.
      rewrite <- Hm. by destruct (m !! ctx).
    - by rewrite Hfile. }
  assert (keep_last maxLifecycleEventsPerSession (Events (record_of ctx s)) = Events (record_of ctx s)) as He.
  { apply keep_last_short. rewrite Hlog, length_keep_last. lia. }
  unfold settle. cbn [s_Phase CurrentTurnID Events LastOutcome]. split_and!; try done.
  intros Hph. by rewrite bool_decide_eq_false_2.
Qed.
End restart.
End store.

(** Two sessions, three events; the codec of the witness knows one state. *)
Definition sample_event (ty : string) : LifecycleEvent := mkEvent 0 ty "" "t1" PhaseRunning "" "" "" 0.

Definition sample_ops : list op :=
  [OpAppend 1 "s1" (sample_event EvtTurnRunning); OpAppend 2 "s2" (sample_event EvtTurnRunning);
   OpAppend 3 "s1" (sample_event EvtTurnOutcome)].

Lemma lifecycle_log_witness :
  Seq <$> Events (record_of "s1" (run (λ _, None) sample_ops (NewLifecycleStore (λ _, None) "" None))) = [1; 3]%Z.
Proof.
  destruct (lifecycle_log_refines_history (λ _, None) (λ _, None) "" sample_ops "s1") as [-> _].
  - by vm_compute.
  - by vm_compute.
Defined.

Definition crashed_ops : list op := [OpSetPhase "s1" PhaseRunning "t1"].

Definition crashed_state : onDisk :=
  state_of (run (λ _, Some "1") crashed_ops (NewLifecycleStore (λ _, None) "lifecycle.json" None)).

Lemma restart_settles_witness :
  s_Phase (record_of "s1" (NewLifecycleStore (λ _, Some crashed_state) "lifecycle.json"
    (file (run (λ _, Some "1") crashed_ops (NewLifecycleStore (λ _, Some crashed_state) "lifecycle.json" None)))))
  = PhaseIdle.
Proof.
  apply (restart_settles (λ _, Some "1") (λ _, Some crashed_state) (λ x, x = crashed_state)).
  - intros x ->. by exists "1".
  - reflexivity.
  - intros [| n] Hn; [reflexivity | cbn in Hn; lia].
  - by vm_compute.
Defined.
