(* ===== verification/LifecycleController.v ===== *)
(** * The lifecycle controller ([internal/wrapper/lifecycle.go])

    [run] drives one user turn: initialization when it is due, the business
    turn, and the finalize turn after a deadline or a graceful stop. It is
    translated as a program that appends to a trace of effects: the operations on
    the [LifecycleStore], in order, and the events sent on the turn's stream. What
    the provider, the contexts and the clock answer is the environment's [env]. *)
From S2P Require Import Prelude GoBase GoStrings LifecycleConfig LifecycleStore.
From Stdlib Require Import ZArith Lia.

(** ** Errors and events *)

(** An [error] by how it was built: [Wrap] is [fmt.Errorf] with [%w] after a
    prefix, [WrapText] wraps a sentinel and only prints its cause. *)
Inductive error :=
| ErrTurnCanceled
| ErrInitializationFailed
| ErrFinalizeTimeout
| ErrFinalizationFailed
| ErrStreamTruncated
| Foreign (msg : string)
| Wrap (prefix : string) (err : error)
| WrapText (sentinel : error) (text : string)
| WrapBoth (err1 err2 : error).

Fixpoint Error (e : error) : string :=
  match e with
  | ErrTurnCanceled => "turn canceled"
  | ErrInitializationFailed => "session initialization failed"
  | ErrFinalizeTimeout => "finalize turn exceeded grace timeout"
  | ErrFinalizationFailed => "finalize turn failed"
  | ErrStreamTruncated => "provider stream closed without a terminal event"
  | Foreign msg => msg
  | Wrap p e => p +:+ Error e
  | WrapText s t => Error s +:+ t
  | WrapBoth a b => Error a +:+ ": " +:+ Error b
  end.

(** [errors.Is(e, ErrTurnCanceled)]. *)
Fixpoint is_canceled (e : error) : bool :=
  match e with
  | ErrTurnCanceled => true
  | Wrap _ e | WrapText e _ => is_canceled e
  | WrapBoth a b => is_canceled a || is_canceled b
  | _ => false
  end.

Definition TurnStats : Type := Z * Z * Z * Z.
Definition no_stats : TurnStats := (0, 0, 0, 0)%Z.

Record EventLifecycle := mkLifecycle {
  Event_ : string; l_TurnID : string; l_Phase : string; l_Kind : string; l_Trigger : string; l_Detail : string;
}.

Inductive Event :=
| EventText (text : string)
| EventTurnDone (err : option error) (stats : TurnStats)
| EventOther (payload : string)     (** deltas, tool use and results, thinking, agent calls *)
| EventLife (ev : EventLifecycle).

(** ** Programs that append to a trace *)

Inductive effect := Stored (o : op) | Sent (e : Event).

Definition M (A : Type) : Type := list effect → A * list effect.
#[export] Instance M_ret : MRet M := λ A x tr, (x, tr).
#[export] Instance M_bind : MBind M := λ A B f m tr, let '(x, tr) := m tr in f x tr.

Definition tell (e : effect) : M unit := λ tr, (tt, tr ++ [e]).
Definition store_op (o : op) : M unit := tell (Stored o).
Definition send (e : Event) : M unit := tell (Sent e).

(** ** The environment *)

Inductive ctx_err := Canceled | DeadlineExceeded.
#[export] Instance ctx_err_eq_dec : EqDecision ctx_err.
Proof. solve_decision. Defined.

(** One provider turn: whether the session opens, whether the turn starts, and
    the events of its stream until the channel closes. *)
Record provider_turn := mkTurn {
  p_open : option error;
  p_stream : option error;
  p_events : list Event;
}.

(** Context errors are those read when the stream has closed. *)
Record env := mkEnv {
  init_turnID : string;
  init_started : time;
  init_finished : time;
  init_turn : provider_turn;
  init_ctx : option ctx_err;          (** [initCtx.Err()] *)
  init_caller : option ctx_err;       (** [ctx.Err()] *)
  turnID : string;
  started : time;
  finished : time;
  business : provider_turn;
  work_ctx : option ctx_err;          (** [workCtx.Err()] *)
  caller : option ctx_err;            (** [ctx.Err()] *)
  graceStarted : time;
  finalizing : provider_turn;
  grace_ctx : option ctx_err;         (** [graceCtx.Err()] *)
}.

(** What draining a stream leaves in the local variables. *)
Record drained := mkDrained {
  d_text : string;
  d_done : option error * TurnStats;
  d_terminal : bool;
}.

Definition drain_event (forward : bool) (d : drained) (ev : Event) : M drained :=
  match ev with
  | EventTurnDone err stats => mret (mkDrained (d_text d) (err, stats) true)
  | EventText t =>
      _ ← (if forward then send ev else mret tt); mret (mkDrained t (d_done d) (d_terminal d))
  | _ => _ ← (if forward then send ev else mret tt); mret d
  end.

Fixpoint drain (forward : bool) (d : drained) (evs : list Event) : M drained :=
  match evs with
  | [] => mret d
  | ev :: evs => d ← drain_event forward d ev; drain forward d evs
  end.

Definition undrained : drained := mkDrained "" (None, no_stats) false.

Section controller.
Context (cfg : ResolvedLifecycle) (ctx : string) (clock : nat → time)
        (fmt_duration : duration → string) (fmt_time : time → string).

(** [emit]: the event is appended to the store, at the clock's reading, and
    then sent. *)
Definition emit (ev : EventLifecycle) : M unit :=
  _ ← (λ tr, store_op (OpAppend (clock (length tr)) ctx
         (mkEvent 0 (Event_ ev) "" (l_TurnID ev) (l_Phase ev) (l_Trigger ev) (l_Kind ev) (l_Detail ev) zero_time)) tr);
  send (EventLife ev).

Definition finishTurn (outcome : TurnOutcome) (done : option (option error * TurnStats)) (turnErr : option error) : M unit :=
  _ ← store_op (OpRecordOutcome ctx outcome);
  _ ← emit (mkLifecycle EvtTurnOutcome (o_TurnID outcome) (o_Phase outcome) (o_Kind outcome) (o_Trigger outcome) (o_Error outcome));
  match done with
  | Some (err, stats) => send (EventTurnDone err stats)
  | None => send (EventTurnDone turnErr no_stats)
  end.

(** *** Initialization *)

Definition init_fail (E : env) (cause : error) : M bool :=
  _ ← store_op (OpSetPhase ctx PhaseIdle "");
  _ ← emit (mkLifecycle EvtSessionInitializationFailed (init_turnID E) PhaseIdle "" "" (Error cause));
  _ ← store_op (OpRecordOutcome ctx
        (mkOutcome "" (init_turnID E) PhaseIdle KindInitializationFailure false "" (init_started E) (init_finished E)
           None None (Error cause) ""));
  _ ← emit (mkLifecycle EvtTurnOutcome (init_turnID E) PhaseIdle KindInitializationFailure "" (Error cause));
  if bool_decide (Init_OnFailure (Initialize cfg) = InitDegraded) then
    _ ← store_op (OpMarkInitDegraded ctx (Version cfg)); mret true
  else
    _ ← send (EventTurnDone (Some (WrapText ErrInitializationFailed (": " +:+ Error cause))) no_stats); mret false.

Definition initialize (E : env) : M bool :=
  let deadline := Add (init_started E) (Init_Timeout (Initialize cfg)) in
  _ ← store_op (OpSetPhase ctx PhaseInitializing (init_turnID E));
  _ ← emit (mkLifecycle EvtSessionInitializing (init_turnID E) PhaseInitializing "" "" "");
  match p_open (init_turn E) with
  | Some err => init_fail E (Wrap "open session: " err)
  | None =>
      match p_stream (init_turn E) with
      | Some err => init_fail E (Wrap "start initialization turn: " err)
      | None =>
          d ← drain false undrained (p_events (init_turn E));
          if bool_decide (init_ctx E = Some DeadlineExceeded) && bool_decide (init_caller E = None) then
            init_fail E (Foreign ("initialization exceeded timeout " +:+ fmt_duration (Init_Timeout (Initialize cfg)) +:+
              " (deadline " +:+ fmt_time deadline +:+ ")"))
          else if negb (bool_decide (init_caller E = None)) then
            init_fail E (Wrap "initialization interrupted: " ErrTurnCanceled)
          else match fst (d_done d), d_terminal d with
               | None, true =>
                   _ ← (λ tr, store_op (OpMarkInitialized (clock (length tr)) ctx (Version cfg)) tr);
                   _ ← store_op (OpSetPhase ctx PhaseIdle "");
                   _ ← emit (mkLifecycle EvtSessionInitialized (init_turnID E) PhaseIdle "" "" "");
                   mret true
               | None, false => init_fail E (Wrap "initialization turn: " ErrStreamTruncated)
               | Some err, _ => init_fail E (Wrap "initialization turn: " err)
               end
      end
  end.

(** *** Finalization *)

Definition finishFinalize (E : env) (trigger : string) (workDeadline graceDeadline : option time)
    (partialText kind : string) (err : error) : M unit :=
  _ ← emit (mkLifecycle EvtTurnFinalizationFailed (turnID E) PhaseIdle kind trigger (Error err));
  finishTurn (mkOutcome "" (turnID E) PhaseIdle kind false trigger (started E) (finished E) workDeadline graceDeadline
                (Error err) partialText) None (Some err).

Definition finalize (E : env) (trigger triggerKind : string) (workDeadline : option time) (partialText : string) : M unit :=
  _ ← store_op (OpSetPhase ctx PhaseFinalizing (turnID E));
  _ ← emit (mkLifecycle EvtTurnFinalizing (turnID E) PhaseFinalizing "" trigger "");
  let graceDeadline := Some (Add (graceStarted E) (Fin_GraceTimeout (Finalize cfg))) in
  match p_open (finalizing E) with
  | Some err => finishFinalize E trigger workDeadline graceDeadline partialText KindProviderError
                  (Wrap "finalize: reopen session: " err)
  | None =>
      match p_stream (finalizing E) with
      | Some err => finishFinalize E trigger workDeadline graceDeadline partialText KindProviderError
                      (Wrap "finalize: start turn: " err)
      | None =>
          d ← drain true undrained (p_events (finalizing E));
          if bool_decide (grace_ctx E = Some DeadlineExceeded) then
            finishFinalize E trigger workDeadline graceDeadline partialText KindFinalizeTimeout
              (WrapText ErrFinalizeTimeout (" (" +:+ fmt_duration (Fin_GraceTimeout (Finalize cfg)) +:+ ")"))
          else match fst (d_done d), d_terminal d with
               | None, true =>
                   _ ← emit (mkLifecycle EvtTurnFinalized (turnID E) PhaseIdle "" trigger "");
                   finishTurn (mkOutcome "" (turnID E) PhaseIdle triggerKind true trigger (started E) (finished E)
                     workDeadline graceDeadline "" (d_text d)) (Some (None, snd (d_done d))) None
               | None, false =>
                   finishFinalize E trigger workDeadline graceDeadline partialText KindProviderError
                     (WrapBoth ErrFinalizationFailed ErrStreamTruncated)
               | Some err, _ =>
                   finishFinalize E trigger workDeadline graceDeadline partialText KindProviderError
                     (WrapText ErrFinalizationFailed (": " +:+ Error err))
               end
      end
  end.

(** *** The business turn *)

Definition runBusiness (E : env) : M unit :=
  let fin := Fin_Enabled (Finalize cfg) in
  let workDeadline := if fin then Some (Add (started E) (Fin_WorkTimeout (Finalize cfg))) else None in
  let outcome kind err text :=
    mkOutcome "" (turnID E) PhaseIdle kind false "" (started E) (finished E) workDeadline None err text in
  _ ← store_op (OpSetPhase ctx PhaseRunning (turnID E));
  _ ← emit (mkLifecycle EvtTurnRunning (turnID E) PhaseRunning "" "" "");
  match p_open (business E) with
  | Some err =>
      finishTurn (outcome KindProviderError ("open session: " +:+ Error err) "") None (Some (Wrap "open session: " err))
  | None =>
      match p_stream (business E) with
      | Some err =>
          finishTurn (outcome KindProviderError ("start turn: " +:+ Error err) "") None (Some (Wrap "start turn: " err))
      | None =>
          d ← drain true undrained (p_events (business E));
          let softDeadline := fin && bool_decide (work_ctx E = Some DeadlineExceeded) && bool_decide (caller E = None) in
          let callerGone := fin && negb (bool_decide (caller E = None)) in
          if softDeadline then
            _ ← emit (mkLifecycle EvtTurnSoftDeadline (turnID E) PhaseRunning "" "" "");
            finalize E TriggerSoftDeadline KindRuntimeTimeout workDeadline (d_text d)
          else if callerGone then
            finalize E TriggerGracefulStop KindCanceled workDeadline (d_text d)
          else match fst (d_done d), d_terminal d with
               | None, true => finishTurn (outcome KindCompleted "" (d_text d)) (Some (d_done d)) None
               | None, false =>
                   let err := Wrap "business turn: " ErrStreamTruncated in
                   finishTurn (outcome KindProviderError (Error err) (d_text d)) None (Some err)
               | Some err, _ =>
                   finishTurn (outcome (if is_canceled err then KindCanceled else KindProviderError) (Error err) (d_text d))
                     (Some (d_done d)) (Some err)
               end
      end
  end.

(** [run]; [needs] is what [NeedsInit] answers on entry. *)
Definition run (E : env) (needs : bool) : M unit :=
  if Init_Enabled (Initialize cfg) && needs then
    ok ← initialize E;
    if ok : bool then runBusiness E else mret tt
  else runBusiness E.
End controller.

(** [drainEvents], used by [Turn]. *)
Definition drainEvents (evs : list Event) : list Event * string * option error :=
  (evs,
   foldl (λ acc ev, if ev is EventText t then acc +:+ t else acc) "" evs,
   foldl (λ acc ev, if ev is EventTurnDone err _ then err else acc) None evs).

(** ** Reasoning about programs

    [spec m P]: [m] only extends the trace, by effects that satisfy [P]. *)
Definition spec {A} (m : M A) (P : A → list effect → Prop) : Prop :=
  ∀ tr, ∃ eff, snd (m tr) = tr ++ eff ∧ P (fst (m tr)) eff.

Lemma spec_ret {A} (x : A) (P : A → list effect → Prop) : P x [] → spec (mret x) P.
Proof. intros H tr. exists []. by rewrite app_nil_r. Qed.

Lemma spec_bind {A B} (m : M A) (f : A → M B) (P : A → list effect → Prop) (Q : B → list effect → Prop) :
  spec m P → (∀ x e1, P x e1 → spec (f x) (λ y e2, Q y (e1 ++ e2))) → spec (m ≫= f) Q.
Proof.
  intros Hm Hf tr. destruct (Hm tr) as (e1 & E1 & H1). unfold mbind, M_bind.
  destruct (m tr) as [x tr1]. cbn in *. subst tr1.
  destruct (Hf x e1 H1 (tr ++ e1)) as (e2 & E2 & H2). exists (e1 ++ e2). by rewrite E2, app_assoc.
Qed.

Lemma spec_mono {A} (m : M A) (P Q : A → list effect → Prop) :
  spec m P → (∀ x e, P x e → Q x e) → spec m Q.
Proof. intros Hm H tr. destruct (Hm tr) as (e & E & Hp). exists e. eauto. Qed.

Lemma spec_tell e (P : unit → list effect → Prop) : P tt [e] → spec (tell e) P.
Proof. intros H tr. by exists [e]. Qed.

(** What draining computes. *)
Definition drained_after (d : drained) (evs : list Event) : drained :=
  foldl (λ d ev, match ev with
                 | EventTurnDone err stats => mkDrained (d_text d) (err, stats) true
                 | EventText t => mkDrained t (d_done d) (d_terminal d)
                 | _ => d
                 end) d evs.

Definition is_done (ev : Event) : bool := if ev is EventTurnDone _ _ then true else false.

Definition forwarded (evs : list Event) : list effect := Sent <$> filter (λ ev, is_done ev = false) evs.

Lemma spec_drain fwd d evs :
  spec (drain fwd d evs) (λ d' eff, d' = drained_after d evs ∧ eff = if fwd then forwarded evs else []).
Proof.
  revert d. induction evs as [| ev evs IH]; intros d; cbn [drain].
  { apply spec_ret. split; [done |]. by destruct fwd. }
  apply (spec_bind _ _ (λ d' eff, d' = drained_after d [ev] ∧ eff = if fwd then forwarded [ev] else [])).
  - intros tr. destruct ev, fwd; cbn;
      first [by exists []; rewrite app_nil_r | eexists [_]; by split].
  - intros d' e1 [-> ->]. eapply spec_mono; [apply IH |]. intros d2 e2 [-> ->]. split; [done |].
    destruct fwd; [| done]. unfold forwarded. rewrite <- fmap_app, <- filter_app. done.
Qed.

(** ** The shape of a settled turn *)

(** The lifecycle events sent and those appended to the log. *)
Definition sent_life (eff : list effect) : list EventLifecycle :=
  omap (λ e, if e is Sent (EventLife ev) then Some ev else None) eff.

Definition logged_life (ctx : string) (eff : list effect) : list EventLifecycle :=
  omap (λ e, if e is Stored (OpAppend _ c ev)
             then if decide (c = ctx) then Some (mkLifecycle (Type_ ev) (TurnID ev) (Phase ev) (Kind ev) (Trigger ev) (Detail ev)) else None
             else None) eff.

(** At every moment the events sent are among those logged before, in order. *)
Definition logged_first (ctx : string) (eff : list effect) : Prop :=
  ∀ n, sent_life (take n eff) `prefix_of` logged_life ctx (take n eff).

Lemma logged_first_app ctx e1 e2 :
  sent_life e1 = logged_life ctx e1 → logged_first ctx e1 → logged_first ctx e2 → logged_first ctx (e1 ++ e2).
Proof.
  unfold logged_first, sent_life, logged_life. intros E H1 H2 n. rewrite take_app. destruct (decide (n ≤ length e1)) as [L | L].
  - replace (n - length e1) with 0 by lia. cbn. rewrite app_nil_r. apply H1.
  - rewrite (take_ge e1) by lia. rewrite !omap_app, E. apply prefix_app, H2.
Qed.

Lemma logged_first_silent ctx eff : sent_life eff = [] → logged_first ctx eff.
Proof.
  unfold logged_first, sent_life. intros E n. rewrite <- (take_drop n eff), omap_app in E. apply app_eq_nil in E as [-> _]. apply prefix_nil.
Qed.

(** The moments of a trace that is written out, one by one. *)
Ltac moments :=
  let n := fresh in intros n; unfold sent_life, logged_life; cbn;
  repeat (destruct n as [| n]; cbn; rewrite ?(decide_True (P := _ = _)) by done; [first [apply prefix_nil | reflexivity | by eexists] |]);
  first [apply prefix_nil | reflexivity].

Definition dones (eff : list effect) : list (option error) :=
  omap (λ e, if e is Sent (EventTurnDone err _) then Some err else None) eff.

(** The operations on the store, in order. *)
Definition store_ops (eff : list effect) : list op :=
  omap (λ e, if e is Stored o then Some o else None) eff.

(** The versions of the markers written for the session. *)
Definition marks_of (ctx : string) (eff : list effect) : list string := omap (marks ctx) (store_ops eff).

(** A part of a turn that does not end it: it writes the markers [m] and emits
    the lifecycle events named [ns], each both sent and logged. *)
Record tame (ctx : string) (m ns : list string) (eff : list effect) : Prop := {
  tame_dones : dones eff = [];
  tame_log : sent_life eff = logged_life ctx eff;
  tame_first : logged_first ctx eff;
  tame_marks : marks_of ctx eff = m;
  tame_names : Event_ <$> sent_life eff = ns;
}.

(** A turn that has ended: the last change of the record is the outcome [o],
    the last event, and the only one of its kind, is [EventTurnDone err]. *)
Definition settled (ctx : string) (m ns : list string) (eff : list effect) (o : TurnOutcome) (err : option error) : Prop :=
  ∃ stats t ev l pre ns0, eff = pre ++ [Stored (OpRecordOutcome ctx o); Stored (OpAppend t ctx ev); Sent (EventLife l);
                                    Sent (EventTurnDone err stats)] ∧
    ns = ns0 ++ [EvtTurnOutcome] ∧ tame ctx m ns0 pre ∧
    tame ctx [] [EvtTurnOutcome] [Stored (OpAppend t ctx ev); Sent (EventLife l)].

Lemma tame_app ctx m1 m2 n1 n2 e1 e2 :
  tame ctx m1 n1 e1 → tame ctx m2 n2 e2 → tame ctx (m1 ++ m2) (n1 ++ n2) (e1 ++ e2).
Proof.
  intros [A1 A2 AF A3 A4] [B1 B2 BF B3 B4]. pose proof (logged_first_app _ _ _ A2 AF BF) as F.
  unfold dones, sent_life, logged_life, marks_of, store_ops in *.
  split; [| | exact F | |]; unfold dones, sent_life, logged_life, marks_of, store_ops; rewrite ?omap_app, ?fmap_app.
  - by rewrite A1, B1.
  - by rewrite A2, B2.
  - by rewrite A3, B3.
  - by rewrite A4, B4.
Qed.

Lemma settled_app ctx m1 m2 n1 n2 e1 e2 o err :
  tame ctx m1 n1 e1 → settled ctx m2 n2 e2 o err → settled ctx (m1 ++ m2) (n1 ++ n2) (e1 ++ e2) o err.
Proof.
  intros H1 (stats & t & ev & l & pre & ns0 & -> & -> & H2 & H3). exists stats, t, ev, l, (e1 ++ pre), (n1 ++ ns0).
  split; [by rewrite app_assoc |]. split; [by rewrite app_assoc |]. split; [by apply tame_app | done].
Qed.

Definition no_life (evs : list Event) : Prop := Forall (λ ev, if ev is EventLife _ then False else True) evs.

Lemma tame_nil ctx : tame ctx [] [] [].
Proof. split; try done. moments. Qed.

Lemma tame_forwarded ctx evs : no_life evs → tame ctx [] [] (forwarded evs).
Proof.
  unfold forwarded. induction 1 as [| ev evs Hev _ IH]; [apply tame_nil |].
  destruct ev; try done; rewrite filter_cons_True by done; destruct IH as [A1 A2 _ A3 A4];
    (split; [exact A1 | exact A2 | apply logged_first_silent, (fmap_nil_inv Event_), A4 | exact A3 | exact A4]).
Qed.

(** An event logged and then sent. *)
Lemma tame_emit ctx t ev l :
  mkLifecycle (Type_ ev) (TurnID ev) (Phase ev) (Kind ev) (Trigger ev) (Detail ev) = l →
  tame ctx [] [Event_ l] [Stored (OpAppend t ctx ev); Sent (EventLife l)].
Proof. intros <-. split; [done | | | done | done]; [cbn; by rewrite decide_True | moments]. Qed.

(** The parts of a trace that is written out. *)
Ltac tame_trace :=
  split; [done | unfold sent_life, logged_life; cbn; by rewrite ?(decide_True (P := _ = _)) by done | moments
         | unfold marks_of; cbn -[decide]; by rewrite ?decide_True by done | done].

(** ** What the controller decides *)

Definition is_none {A} (o : option A) : bool := if o is None then true else false.

(** The provider ended its stream with an explicit, error-free terminal event. *)
Definition clean (p : provider_turn) : bool :=
  is_none (p_open p) && is_none (p_stream p) &&
  d_terminal (drained_after undrained (p_events p)) && is_none (fst (d_done (drained_after undrained (p_events p)))).

Definition opened (p : provider_turn) : bool := is_none (p_open p) && is_none (p_stream p).

(** A deadline of the wrapper or the caller's cancellation ended the business turn. *)
Definition interrupted (cfg : ResolvedLifecycle) (E : env) : bool :=
  Fin_Enabled (Finalize cfg) &&
  (bool_decide (work_ctx E = Some DeadlineExceeded) || negb (bool_decide (caller E = None))).

Definition completed (cfg : ResolvedLifecycle) (E : env) : bool :=
  clean (business E) && negb (interrupted cfg E).

Definition finalized (cfg : ResolvedLifecycle) (E : env) : bool :=
  opened (business E) && interrupted cfg E && clean (finalizing E) &&
  negb (bool_decide (grace_ctx E = Some DeadlineExceeded)).

Definition initialized (E : env) : bool :=
  clean (init_turn E) && bool_decide (init_caller E = None) && negb (bool_decide (init_ctx E = Some DeadlineExceeded)).

(** The recorded outcome [o] and the stream's terminal error [err]. *)
Definition verdict (cfg : ResolvedLifecycle) (E : env) (o : TurnOutcome) (err : option error) : Prop :=
  o_TurnID o = turnID E ∧
  bool_decide (o_Kind o = KindCompleted) = completed cfg E ∧
  o_Finalized o = finalized cfg E ∧
  is_none err = completed cfg E || finalized cfg E.

Section proofs.
Context (cfg : ResolvedLifecycle) (ctx : string) (clock : nat → time)
        (fmt_duration : duration → string) (fmt_time : time → string).

(** Turns that settle with markers [m] and events [ns]. *)
Definition settles (m ns : list string) (V : TurnOutcome → option error → Prop) (p : M unit) : Prop :=
  spec p (λ _ eff, ∃ o err, settled ctx m ns eff o err ∧ V o err).

Lemma spec_emit ev : spec (emit ctx clock ev) (λ _ eff, tame ctx [] [Event_ ev] eff).
Proof.
  intros tr. eexists [_; _]. split; [unfold emit, mbind, M_bind, store_op, send, tell; cbn; by rewrite <- app_assoc |].
  apply tame_emit. by destruct ev.
Qed.

Lemma spec_store o : spec (store_op o) (λ _ eff, eff = [Stored o]).
Proof. intros tr. by exists [Stored o]. Qed.

Lemma tame_store o m : logged_life ctx [Stored o] = [] → marks_of ctx [Stored o] = m →
  spec (store_op o) (λ _ eff, tame ctx m [] eff).
Proof. intros H1 H2. eapply spec_mono; [apply spec_store |]. intros ? e ->. split; try done. by apply logged_first_silent. Qed.

Lemma settles_finishTurn (V : TurnOutcome → option error → Prop) o done err :
  V o (if done is Some (e, _) then e else err) →
  settles [] [EvtTurnOutcome] V (finishTurn ctx clock o done err).
Proof.
  intros HV. unfold settles, finishTurn. eapply spec_bind; [apply spec_store |]. intros ? ? ->.
  intros tr. set (l := mkLifecycle EvtTurnOutcome _ _ _ _ _).
  set (e := if done is Some (e, _) then e else err) in *.
  set (stats := if done is Some (_, st) then st else no_stats).
  assert ((_ ← emit ctx clock l; match done with Some (err, stats) => send (EventTurnDone err stats)
           | None => send (EventTurnDone err no_stats) end) tr = ((_ ← emit ctx clock l; send (EventTurnDone e stats)) tr)) as ->.
  { by destruct done as [[e0 st] |]. }
  unfold emit, mbind, M_bind, store_op, send, tell. cbn. rewrite <- !app_assoc. cbn.
  eexists. split; [reflexivity |]. exists o, e. split; [| done].
  eexists stats, _, _, l, [], []. split; [reflexivity |]. split; [done |]. split; [apply tame_nil | by apply (tame_emit _ _ _ l)].
Qed.

Lemma settles_prefix {A} (p : M A) (f : A → M unit) m1 m2 n1 n2 V :
  spec p (λ _ e, tame ctx m1 n1 e) → (∀ x, settles m2 n2 V (f x)) → settles (m1 ++ m2) (n1 ++ n2) V (p ≫= f).
Proof.
  intros Hp Hf. eapply spec_bind; [exact Hp |]. intros x e1 Hq. eapply spec_mono; [apply Hf |].
  intros ? e2 (o & err & Hs & Hv). exists o, err. split; [by apply settled_app | done].
Qed.

Lemma settles_store o (f : unit → M unit) m ns V :
  logged_life ctx [Stored o] = [] → marks_of ctx [Stored o] = [] → (∀ x, settles m ns V (f x)) →
  settles m ns V (store_op o ≫= f).
Proof. intros H1 H2 Hf. by apply (settles_prefix _ _ [] m [] ns); [apply tame_store |]. Qed.

Lemma settles_emit ev (f : unit → M unit) m ns V :
  (∀ x, settles m ns V (f x)) → settles m (Event_ ev :: ns) V (emit ctx clock ev ≫= f).
Proof. intros Hf. by apply (settles_prefix _ _ [] m [_] ns); [apply spec_emit |]. Qed.

Lemma settles_drain evs (f : drained → M unit) m ns V :
  no_life evs → settles m ns V (f (drained_after undrained evs)) → settles m ns V (drain true undrained evs ≫= f).
Proof.
  intros Hl Hf. eapply spec_bind; [apply spec_drain |]. intros d e1 [-> ->].
  eapply spec_mono; [apply Hf |]. intros ? e2 (o & err & Hs & Hv). exists o, err.
  split; [by apply (settled_app ctx [] m [] ns); [apply tame_forwarded |] | done].
Qed.

Lemma settles_finishFinalize V E trigger wd gd partial kind err :
  V (mkOutcome "" (turnID E) PhaseIdle kind false trigger (started E) (finished E) wd gd (Error err) partial) (Some err) →
  settles [] [EvtTurnFinalizationFailed; EvtTurnOutcome] V (finishFinalize ctx clock E trigger wd gd partial kind err).
Proof. intros HV. unfold finishFinalize. apply settles_emit. intros _. by apply settles_finishTurn. Qed.

(** The events of the finalize phase. *)
Definition finalize_names (E : env) : list string :=
  [EvtTurnFinalizing; if finalized cfg E then EvtTurnFinalized else EvtTurnFinalizationFailed; EvtTurnOutcome].

Lemma settles_finalize E trigger kind wd partial :
  no_life (p_events (finalizing E)) → interrupted cfg E = true → opened (business E) = true → kind ≠ KindCompleted →
  settles [] (finalize_names E) (verdict cfg E) (finalize cfg ctx clock fmt_duration E trigger kind wd partial).
Proof.
  intros Hl Hi Hb Hk. unfold finalize.
  assert (completed cfg E = false) as Hc by (unfold completed; by rewrite Hi, andb_false_r).
  assert (∀ k err wd gd partial, k ≠ KindCompleted → finalized cfg E = false →
    settles [] [if finalized cfg E then EvtTurnFinalized else EvtTurnFinalizationFailed; EvtTurnOutcome] (verdict cfg E)
      (finishFinalize ctx clock E trigger wd gd partial k err)) as Hfail.
  { intros k err wd' gd' partial' Hkind Hfin. rewrite Hfin. apply settles_finishFinalize. unfold verdict.
    cbn [o_TurnID o_Kind o_Finalized is_none]. rewrite Hc, Hfin, bool_decide_eq_false_2 by done. done. }
  apply settles_store; [done | done | intros _]. unfold finalize_names. apply (settles_emit (mkLifecycle _ _ _ _ _ _)). intros _.
  assert (finalized cfg E = clean (finalizing E) && negb (bool_decide (grace_ctx E = Some DeadlineExceeded))) as Hf.
  { unfold finalized. by rewrite Hb, Hi. }
  unfold clean in Hf.
  destruct (p_open (finalizing E)) as [err |] eqn:Eo; [by apply Hfail |].
  destruct (p_stream (finalizing E)) as [err |] eqn:Es; [by apply Hfail |].
  apply settles_drain; [done |]. set (d := drained_after _ _) in *.
  destruct (bool_decide (grace_ctx E = _)) eqn:Eg.
  { apply Hfail; [done |]. by rewrite Hf, andb_false_r. }
  destruct (fst (d_done d)) as [err |] eqn:Ed; [| destruct (d_terminal d) eqn:Et].
  - apply Hfail; [done |]. by rewrite Hf; cbn; rewrite !andb_false_r.
  - rewrite Hf. cbn. apply (settles_emit (mkLifecycle _ _ _ _ _ _)). intros _. apply settles_finishTurn. unfold verdict.
    cbn [o_TurnID o_Kind o_Finalized]. rewrite Hc, bool_decide_eq_false_2 by done. by rewrite Hf.
  - by apply Hfail; [| rewrite Hf].
Qed.

(** The events of the business turn, finalization included. *)
Definition business_names (E : env) : list string :=
  EvtTurnRunning ::
    (if opened (business E) && interrupted cfg E
     then (if bool_decide (work_ctx E = Some DeadlineExceeded) && bool_decide (caller E = None)
           then [EvtTurnSoftDeadline] else []) ++ finalize_names E
     else [EvtTurnOutcome]).

Lemma settles_runBusiness E :
  no_life (p_events (business E)) → no_life (p_events (finalizing E)) →
  settles [] (business_names E) (verdict cfg E) (runBusiness cfg ctx clock fmt_duration E).
Proof.
  intros Hl Hl'. unfold runBusiness, business_names. cbn zeta.
  apply settles_store; [done | done | intros _]. apply (settles_emit (mkLifecycle _ _ _ _ _ _)). intros _.
  assert (∀ k err msg text wd, k ≠ KindCompleted → completed cfg E = false → finalized cfg E = false →
    verdict cfg E (mkOutcome "" (turnID E) PhaseIdle k false "" (started E) (finished E) wd None msg text) (Some err)) as Hfail.
  { intros k err msg text wd Hk Hc Hf. unfold verdict. cbn. by rewrite Hc, Hf, bool_decide_eq_false_2. }
  destruct (p_open (business E)) as [err |] eqn:Eo.
  { unfold opened. rewrite Eo. apply settles_finishTurn, Hfail; [done | |]; unfold completed, finalized, clean, opened; by rewrite Eo. }
  destruct (p_stream (business E)) as [err |] eqn:Es.
  { unfold opened. rewrite Eo, Es. apply settles_finishTurn, Hfail; [done | |]; unfold completed, finalized, clean, opened; by rewrite Eo, Es. }
  assert (opened (business E) = true) as Hb by (unfold opened; by rewrite Eo, Es).
  rewrite Hb. cbn [andb]. apply settles_drain; [done |].
  assert (completed cfg E = (let d := drained_after undrained (p_events (business E)) in
    d_terminal d && is_none (fst (d_done d))) && negb (interrupted cfg E)) as Hc.
  { unfold completed, clean. by rewrite Eo, Es. }
  set (d := drained_after undrained (p_events (business E))) in *.
  destruct (interrupted cfg E) eqn:Ei.
  - unfold interrupted in Ei. apply andb_prop in Ei as [Ef Ei']. rewrite Ef. cbn [andb].
    destruct (bool_decide (work_ctx E = _) && bool_decide (caller E = None)) eqn:Esoft.
    + apply (settles_emit (mkLifecycle _ _ _ _ _ _)). intros _. apply settles_finalize; try done.
      unfold interrupted. by rewrite Ef.
    + assert (bool_decide (caller E = None) = false) as Hcal.
      { destruct (bool_decide (caller E = None)); [| done]. rewrite andb_true_r in Esoft. by rewrite Esoft in Ei'. }
      rewrite Hcal. cbn [negb]. apply settles_finalize; try done. unfold interrupted. by rewrite Ef.
  - assert (finalized cfg E = false) as Hf by (unfold finalized; by rewrite Ei, andb_false_r).
    assert (Fin_Enabled (Finalize cfg) && bool_decide (work_ctx E = Some DeadlineExceeded) && bool_decide (caller E = None) = false
      ∧ Fin_Enabled (Finalize cfg) && negb (bool_decide (caller E = None)) = false) as [-> ->].
    { unfold interrupted in Ei. destruct (Fin_Enabled _); [| done]. cbn in *. apply orb_false_elim in Ei as [-> ->]. done. }
    cbn zeta in Hc. rewrite andb_true_r in Hc.
    destruct (fst (d_done d)) as [err |] eqn:Ed; [| destruct (d_terminal d) eqn:Et].
    + apply settles_finishTurn. destruct (d_done d) as [e st]. cbn in Ed. subst e.
      apply Hfail; [by destruct (is_canceled err) | by rewrite Hc, andb_false_r | done].
    + apply settles_finishTurn. destruct (d_done d) as [e st]. cbn in Ed. subst e.
      unfold verdict. cbn. by rewrite Hc, Hf.
    + apply settles_finishTurn, Hfail; done.
Qed.

(** The events of the initialization turn. *)
Definition init_names (E : env) : list string :=
  EvtSessionInitializing ::
    (if initialized E then [EvtSessionInitialized] else [EvtSessionInitializationFailed; EvtTurnOutcome]).

Definition degraded : bool := bool_decide (Init_OnFailure (Initialize cfg) = InitDegraded).

Definition init_refused (o : TurnOutcome) (err : option error) : Prop :=
  o_Kind o = KindInitializationFailure ∧ ∃ text, err = Some (WrapText ErrInitializationFailed text).

Definition init_result (ok : bool) (m ns : list string) (eff : list effect) : Prop :=
  if ok then tame ctx m ns eff else ∃ o err, settled ctx [] ns eff o err ∧ init_refused o err.

Lemma init_fail_spec E cause :
  spec (init_fail cfg ctx clock E cause)
    (λ ok eff, ok = degraded ∧ init_result ok [Version cfg] [EvtSessionInitializationFailed; EvtTurnOutcome] eff).
Proof.
  intros tr. unfold init_fail, emit, mbind, M_bind, store_op, send, tell, mret, M_ret, degraded. cbn.
  destruct (bool_decide _); cbn; rewrite <- !app_assoc; cbn; (eexists; split; [reflexivity |]; split; [done |]).
  - tame_trace.
  - eexists _, _. split.
    + eexists no_stats, _, _, _, [_; _; _], [EvtSessionInitializationFailed]. split; [reflexivity |].
      split; [done |]. split; tame_trace.
    + split; [done | by eexists].
Qed.

Lemma init_result_prefix ok m ns n1 e1 e2 :
  tame ctx [] n1 e1 → init_result ok m ns e2 → init_result ok m (n1 ++ ns) (e1 ++ e2).
Proof.
  intros H1. unfold init_result. destruct ok.
  - apply (tame_app ctx [] m n1 ns e1 e2 H1).
  - intros (o & err & Hs & Hr). exists o, err. split; [| done]. by apply (settled_app ctx [] [] n1 ns).
Qed.

Lemma initialize_spec E :
  spec (initialize cfg ctx clock fmt_duration fmt_time E)
    (λ ok eff, ok = initialized E || degraded ∧ init_result ok [Version cfg] (init_names E) eff).
Proof.
  unfold initialize, init_names. cbn zeta.
  eapply spec_bind; [by apply (tame_store _ []) |]. intros ? e1 H1.
  eapply spec_bind; [apply spec_emit |]. intros ? e2 H2.
  pose proof (tame_app ctx _ _ _ _ _ _ H1 H2) as H3. cbn [app Event_] in H3. clear H1 H2.
  assert (∀ cause, initialized E = false → spec (init_fail cfg ctx clock E cause)
    (λ y e3, y = initialized E || degraded ∧ init_result y [Version cfg]
       (EvtSessionInitializing :: (if initialized E then [EvtSessionInitialized]
          else [EvtSessionInitializationFailed; EvtTurnOutcome])) (e1 ++ e2 ++ e3))) as Hfail.
  { intros cause Hi. rewrite Hi. eapply spec_mono; [apply init_fail_spec |]. intros ok e3 [-> Hr]. split; [done |].
    rewrite app_assoc. by apply (init_result_prefix degraded _ _ [EvtSessionInitializing]). }
  unfold initialized, clean in *.
  destruct (p_open (init_turn E)) as [err |]; [by apply Hfail |].
  destruct (p_stream (init_turn E)) as [err |]; [by apply Hfail |]. cbn [is_none andb] in *.
  eapply spec_bind; [apply spec_drain |]. intros d ? [-> ->]. cbn [app].
  set (d := drained_after _ _) in *.
  destruct (bool_decide (init_caller E = None)) eqn:Ec; cbn [negb andb];
    [rewrite andb_true_r | by rewrite andb_false_r; apply Hfail; rewrite andb_false_r].
  destruct (bool_decide (init_ctx E = _)) eqn:Ed; [by apply Hfail; rewrite andb_false_r |].
  destruct (fst (d_done d)) as [err |] eqn:Ee; [by apply Hfail; rewrite !andb_false_r |].
  destruct (d_terminal d) eqn:Et; [| by apply Hfail]. cbn in *.
  intros tr. unfold emit, mbind, M_bind, store_op, send, tell, mret, M_ret. cbn. rewrite <- !app_assoc. cbn.
  eexists. split; [reflexivity |]. split; [done |]. rewrite (app_assoc e1).
  apply (tame_app ctx [] [Version cfg] [EvtSessionInitializing] [EvtSessionInitialized]); [done |].
  tame_trace.
Qed.

(** The whole turn: the markers it writes, the lifecycle events it emits, and
    whether the business turn started. *)
Definition run_result (E : env) (needs : bool) (eff : list effect) (o : TurnOutcome) (err : option error) : Prop :=
  if Init_Enabled (Initialize cfg) && needs then
    if initialized E || degraded
    then settled ctx [Version cfg] (init_names E ++ business_names E) eff o err ∧ verdict cfg E o err
    else settled ctx [] (init_names E) eff o err ∧ init_refused o err
  else settled ctx [] (business_names E) eff o err ∧ verdict cfg E o err.

Lemma run_spec E needs :
  no_life (p_events (business E)) → no_life (p_events (finalizing E)) →
  spec (run cfg ctx clock fmt_duration fmt_time E needs) (λ _ eff, ∃ o err, run_result E needs eff o err).
Proof.
  intros Hl Hl'. unfold run, run_result. destruct (Init_Enabled (Initialize cfg) && needs) eqn:Ed.
  - eapply spec_bind; [apply initialize_spec |]. intros ok e1 [-> Hr].
    destruct (initialized E || degraded) eqn:Eok; cbn [init_result] in Hr.
    + eapply spec_mono; [by apply settles_runBusiness |]. intros ? e2 (o & err & Hs & Hv). exists o, err.
      split; [| done]. by apply (settled_app ctx [Version cfg] [] (init_names E)).
    + apply spec_ret. rewrite app_nil_r. exact Hr.
  - by apply settles_runBusiness.
Qed.
End proofs.

Lemma settled_dones ctx m ns eff o err :
  settled ctx m ns eff o err →
  dones eff = [err] ∧ (∃ stats, last eff = Some (Sent (EventTurnDone err stats))) ∧
  sent_life eff = logged_life ctx eff ∧ logged_first ctx eff ∧ Event_ <$> sent_life eff = ns ∧ marks_of ctx eff = m.
Proof.
  intros (stats & t & ev & l & pre & ns0 & -> & -> & Pre & Post).
  assert (Q : tame ctx [] [] [Stored (OpRecordOutcome ctx o)]) by tame_trace.
  pose proof (tame_app _ _ _ _ _ _ _ Pre (tame_app _ _ _ _ _ _ _ Q Post)) as [A1 A2 AF A3 A4]. cbn [app] in *.
  rewrite app_nil_r in A3. set (whole := pre ++ [_; _; _]) in *.
  change [Stored (OpRecordOutcome ctx o); Stored (OpAppend t ctx ev); Sent (EventLife l); Sent (EventTurnDone err stats)]
    with ([Stored (OpRecordOutcome ctx o); Stored (OpAppend t ctx ev); Sent (EventLife l)] ++ [Sent (EventTurnDone err stats)]).
  rewrite app_assoc. fold whole.
  assert (F : logged_first ctx (whole ++ [Sent (EventTurnDone err stats)])) by (apply logged_first_app; [done | done | by apply logged_first_silent]).
  unfold dones, sent_life, logged_life, marks_of, store_ops in *. rewrite !omap_app, A1, A2, A3. cbn. rewrite !app_nil_r. split_and!; try done.
  - exists stats. by rewrite last_snoc.
  - by rewrite <- A2.
Qed.

(** The record after the operations of a settled turn. *)
Lemma settled_record Marshal ctx m ns eff o err s :
  settled ctx m ns eff o err →
  let r := record_of ctx (LifecycleStore.run Marshal (store_ops eff) s) in
  s_Phase r = PhaseIdle ∧ CurrentTurnID r = "" ∧
  ∃ o', LastOutcome r = Some o' ∧ o_SessionID o' = ctx ∧ o_TurnID o' = o_TurnID o ∧ o_Kind o' = o_Kind o ∧
    o_Finalized o' = o_Finalized o.
Proof.
  intros (stats & t & ev & l & pre & ns0 & -> & _). unfold store_ops, LifecycleStore.run. rewrite omap_app. cbn [omap list_omap].
  rewrite foldl_app. set (s1 := foldl _ s _). cbn [foldl flip].
  destruct (apply_append Marshal t ctx ctx ev (apply Marshal (OpRecordOutcome ctx o) s1)) as (-> & -> & ->).
  apply apply_outcome.
Qed.

(** ** A turn on a session *)

Section turn.
Context (Marshal : onDisk → option string) (cfg : ResolvedLifecycle) (ctx : string) (clock : nat → time)
        (fmt_duration : duration → string) (fmt_time : time → string) (s : LifecycleStore) (E : env).

(** Initialization is due: it is enabled and the store has no marker for the
    current version. *)
Definition due : bool := Init_Enabled (Initialize cfg) && snd (NeedsInit ctx (Version cfg) s).

(** The business turn starts: there was nothing to initialize, or it worked,
    or the policy tolerates the failure. *)
Definition admitted : bool := negb due || initialized E || degraded cfg.

Definition effects : list effect :=
  snd (run cfg ctx clock fmt_duration fmt_time E (snd (NeedsInit ctx (Version cfg) s)) []).

Definition after : LifecycleStore := LifecycleStore.run Marshal (store_ops effects) s.

Hypothesis business_events : no_life (p_events (business E)).
Hypothesis finalize_events : no_life (p_events (finalizing E)).

Lemma effects_result : ∃ o err, run_result cfg ctx E (snd (NeedsInit ctx (Version cfg) s)) effects o err.
Proof using business_events finalize_events.
  destruct (run_spec cfg ctx clock fmt_duration fmt_time E (snd (NeedsInit ctx (Version cfg) s))
              business_events finalize_events []) as (eff & Heff & o & err & Hr).
  exists o, err. unfold effects. by rewrite Heff.
Qed.

(** (C3) A turn always settles, once. Whatever the provider, the contexts and
    the policy do, the stream carries exactly one [EventTurnDone] and it is the
    last event; when a lifecycle event is sent, it and all those sent before it have
    been appended to the session's log, in the same order, and at the end the log
    has no others; their names are those of one path of the lifecycle's state
    machine, in particular no business turn runs unless initialization was not
    due, succeeded or was allowed to fail; and the session is left idle with no
    turn in flight. (The provider's own events are not lifecycle events: only this
    controller makes those.) *)
Theorem lifecycle_turn_settles :
  (∃ err stats, dones effects = [err] ∧ last effects = Some (Sent (EventTurnDone err stats))) ∧
  sent_life effects = logged_life ctx effects ∧
  (∀ before ev rest, effects = before ++ Sent (EventLife ev) :: rest → sent_life before ++ [ev] `prefix_of` logged_life ctx before) ∧
  Event_ <$> sent_life effects =
    (if due then init_names E else []) ++ (if admitted then business_names cfg E else []) ∧
  s_Phase (record_of ctx after) = PhaseIdle ∧ CurrentTurnID (record_of ctx after) = "".
Proof using business_events finalize_events.
  destruct effects_result as (o & err & Hr). unfold run_result in Hr. fold due in Hr. unfold admitted, after.
  assert (∃ m ns, settled ctx m ns effects o err ∧
    ns = (if due then init_names E else []) ++ (if negb due || initialized E || degraded cfg then business_names cfg E else []))
    as (m & ns & Hs & <-).
  { destruct due; cbn [negb orb]; [destruct (initialized E || degraded cfg) |]; destruct Hr as [Hr _];
      eexists _, _; (split; [exact Hr |]); [done | by rewrite app_nil_r | done]. }
  destruct (settled_dones ctx m ns effects o err Hs) as (H1 & [stats H2] & H3 & HF & H4 & _).
  destruct (settled_record Marshal ctx m ns effects o err s Hs) as (H5 & H6 & _).
  split_and!; try done; [by exists err, stats |]. intros before ev rest Eq. specialize (HF (S (length before))). revert HF.
  assert (T : take (S (length before)) effects = before ++ [Sent (EventLife ev)]) by (rewrite Eq; replace (S (length before)) with (length before + 1) by lia; by rewrite take_app_add).
  rewrite T. unfold sent_life, logged_life. rewrite !omap_app. cbn. by rewrite app_nil_r.
Qed.

(** (C4) The recorded outcome tells the truth. If the business turn was
    admitted, the outcome stored for the session is of that turn; it is
    "completed" exactly when the provider ended its stream with an error-free
    terminal event and, with finalization enabled, neither the work deadline
    nor a cancellation had fired; it is marked finalized exactly when such an
    interruption was settled by a finalize turn that ended cleanly within its
    grace; and the stream's terminal error is empty in exactly these two cases.
    If it was not admitted, the outcome is an initialization failure and the
    error wraps [ErrInitializationFailed]. *)
Theorem lifecycle_outcome_true :
  ∃ out err, LastOutcome (record_of ctx after) = Some out ∧ dones effects = [err] ∧ o_SessionID out = ctx ∧
    if admitted then
      o_TurnID out = turnID E ∧
      (o_Kind out = KindCompleted ↔ completed cfg E = true) ∧
      (o_Finalized out = true ↔ finalized cfg E = true) ∧
      (err = None ↔ completed cfg E = true ∨ finalized cfg E = true)
    else o_Kind out = KindInitializationFailure ∧ ∃ text, err = Some (WrapText ErrInitializationFailed text).
Proof using business_events finalize_events.
  destruct effects_result as (o & err & Hr). unfold run_result in Hr. fold due in Hr. unfold admitted, after.
  assert (∃ m ns, settled ctx m ns effects o err ∧
    if negb due || initialized E || degraded cfg then verdict cfg E o err else init_refused o err) as (m & ns & Hs & Hv).
  { destruct due; cbn [negb orb]; [destruct (initialized E || degraded cfg) |]; destruct Hr as [Hr ?];
      eexists _, _; by split. }
  destruct (settled_dones ctx m ns effects o err Hs) as (H1 & _).
  destruct (settled_record Marshal ctx m ns effects o err s Hs) as (_ & _ & out & H2 & H3 & H4 & H5 & H6).
  exists out, err. split; [done |]. split; [done |]. split; [done |]. rewrite H4, H5, H6.
  destruct (negb due || _ || _); [| exact Hv]. destruct Hv as (V1 & V2 & V3 & V4).
  split; [done |]. split; [by rewrite <- V2, bool_decide_eq_true |]. split; [by rewrite V3 |].
  rewrite <- orb_true_iff, <- V4. by destruct err.
Qed.

(** Initialization is done once. With initialization enabled, after the
    turn the session still needs it exactly when it was due and the business
    turn was refused; so an admitted turn, or one for which nothing was due,
    leaves nothing to do for the next. *)
Lemma lifecycle_init_once :
  Init_Enabled (Initialize cfg) = true →
  snd (NeedsInit ctx (Version cfg) after) = negb admitted.
Proof using business_events finalize_events.
  intros Hen. destruct effects_result as (o & err & Hr). unfold run_result in Hr. fold due in Hr.
  assert (snd (NeedsInit ctx (Version cfg) after) =
    match last (marks_of ctx effects) with
    | Some v => negb (bool_decide (v = Version cfg)) | None => due end) as ->.
  { unfold after. cbn [NeedsInit getLocked snd]. rewrite (run_needs Marshal (λ _, None)). unfold due. by rewrite Hen. }
  unfold admitted. destruct due; cbn [negb orb].
  - destruct (initialized E || degraded cfg); destruct Hr as [Hr _]; destruct (settled_dones _ _ _ _ _ _ Hr) as (_ & _ & _ & _ & _ & ->);
      [| done]. cbn. by rewrite (bool_decide_eq_true_2 _ eq_refl).
  - destruct Hr as [Hr _]. by destruct (settled_dones _ _ _ _ _ _ Hr) as (_ & _ & _ & _ & _ & ->).
Qed.
End turn.

(** ** A turn that passes its work deadline *)

Definition sample_cfg (onFailure : string) : ResolvedLifecycle :=
  mkResolved (mkResolvedInit true Minute "prepare" onFailure) (mkResolvedFinal true (20 * Minute) (2 * Minute) "wrap up") "v1".

Definition ok_turn (text : string) : provider_turn := mkTurn None None [EventText text; EventTurnDone None no_stats].

Definition deadline_env : env :=
  mkEnv "i1" 0 1 (ok_turn "ready") None None "t1" 2 3 (mkTurn None None [EventText "partial"])
    (Some DeadlineExceeded) None 4 (ok_turn "summary") None.

Definition new_store : LifecycleStore := NewLifecycleStore (λ _, None) "" None.

Definition sample_effects : list effect :=
  effects (sample_cfg InitFailClosed) "s1" Z.of_nat (λ _, "") (λ _, "") new_store deadline_env.

Definition sample_after : LifecycleStore :=
  after (λ _, None) (sample_cfg InitFailClosed) "s1" Z.of_nat (λ _, "") (λ _, "") new_store deadline_env.

Lemma deadline_no_life : no_life (p_events (business deadline_env)) ∧ no_life (p_events (finalizing deadline_env)).
Proof. split; repeat constructor. Qed.

Lemma lifecycle_turn_settles_witness :
  Event_ <$> sent_life sample_effects =
    [EvtSessionInitializing; EvtSessionInitialized; EvtTurnRunning; EvtTurnSoftDeadline; EvtTurnFinalizing;
     EvtTurnFinalized; EvtTurnOutcome].
Proof.
  destruct (lifecycle_turn_settles (λ _, None) (sample_cfg InitFailClosed) "s1" Z.of_nat (λ _, "") (λ _, "") new_store
    deadline_env (proj1 deadline_no_life) (proj2 deadline_no_life)) as (_ & _ & _ & H & _).
  unfold sample_effects. rewrite H. by vm_compute.
Defined.

Lemma lifecycle_outcome_true_witness :
  ∃ out, LastOutcome (record_of "s1" sample_after) = Some out ∧ o_Finalized out = true ∧ o_Kind out ≠ KindCompleted.
Proof.
  destruct (lifecycle_outcome_true (λ _, None) (sample_cfg InitFailClosed) "s1" Z.of_nat (λ _, "") (λ _, "") new_store
    deadline_env (proj1 deadline_no_life) (proj2 deadline_no_life)) as (out & err & H1 & _ & _ & H2).
  exists out. split; [exact H1 |].
  replace (admitted (sample_cfg InitFailClosed) "s1" new_store deadline_env) with true in H2 by (by vm_compute).
  destruct H2 as (_ & H3 & H4 & _). split; [apply H4; reflexivity |].
  intros H%H3. vm_compute in H. discriminate H.
Defined.

Lemma lifecycle_init_once_witness : snd (NeedsInit "s1" "v1" sample_after) = false.
Proof.
  unfold sample_after. change "v1" with (Version (sample_cfg InitFailClosed)).
  rewrite (lifecycle_init_once (λ _, None) (sample_cfg InitFailClosed) "s1" Z.of_nat (λ _, "") (λ _, "") new_store
    deadline_env (proj1 deadline_no_life) (proj2 deadline_no_life)); [by vm_compute | reflexivity].
Defined.

(** Under the degraded policy an initialization turn that the client merely
    interrupted is recorded as a degraded initialization, so it is not attempted
    again for this version although nothing failed. *)
Definition interrupted_env : env :=
  mkEnv "i1" 0 1 (ok_turn "ready") (Some Canceled) (Some Canceled) "t1" 2 3 (ok_turn "answer") (Some Canceled)
    (Some Canceled) 4 (ok_turn "summary") None.

Lemma interrupted_init_degrades :
  snd (NeedsInit "s1" "v1" (after (λ _, None) (sample_cfg InitDegraded) "s1" Z.of_nat (λ _, "") (λ _, "") new_store
    interrupted_env)) = false.
Proof. by vm_compute. Qed.
