(* ===== verification/Ledger.v ===== *)
(** * The invocation ledger ([internal/scheduler/invocation_ledger.go],
      [internal/scheduler/gateway_metrics.go], [internal/obs/result.go])

    Every gateway invocation is a record; every change of a record is an event
    appended to a file, from which the ledger is rebuilt, and the file is
    compacted by retention. The mutex makes each operation one atomic step. The
    file is its list of events, one line each; a line too long for the scanner
    makes the file unreadable. I/O failures, which the code ignores on append,
    are not modelled. *)
From S2P Require Import Prelude GoBase GoStrings.
From Stdlib Require Import ZArith Lia Ascii.

(** ** Result labels *)

Definition ResultDone : string := "done".
Definition ResultBusy : string := "busy".
Definition ResultCancel : string := "cancel".
Definition ResultTimeout : string := "timeout".
Definition ResultEvict : string := "evict".
Definition ResultProviderError : string := "provider_error".
Definition ResultUpstreamError : string := "upstream_error".
Definition ResultInternalError : string := "internal_error".

Definition AllResults : list string :=
  [ResultDone; ResultBusy; ResultCancel; ResultTimeout; ResultEvict; ResultProviderError; ResultUpstreamError;
   ResultInternalError].

Definition Valid (r : string) : bool := existsb (λ v, bool_decide (r = v)) AllResults.

Definition IsError (r : string) : bool :=
  bool_decide (r = ResultProviderError) || bool_decide (r = ResultUpstreamError) || bool_decide (r = ResultInternalError).

(** ** Gateway metrics

    The in-flight gauge by (agent, source), and the counter of settled requests
    by (agent, source, result). [None] is the nil sink. *)
Record GatewayMetrics := mkMetrics {
  inflight : gmap (string * string) Z;
  requests : gmap (string * string * string) Z;
}.

Definition add_at {K} `{Countable K} (k : K) (n : Z) (m : gmap K Z) : gmap K Z :=
  <[k := (default 0 (m !! k) + n)%Z]> m.

Definition begin (agent source : string) (m : option GatewayMetrics) : option GatewayMetrics :=
  (λ m, mkMetrics (add_at (agent, source) 1 (inflight m)) (requests m)) <$> m.

Definition settle (agent source result : string) (m : option GatewayMetrics) : option GatewayMetrics :=
  (λ m, mkMetrics (add_at (agent, source) (-1) (inflight m)) (add_at (agent, source, result) 1 (requests m))) <$> m.

(** ** Records and events *)

Definition completedInvocationRetention : duration := (7 * 24 * Hour)%Z.
Definition incompleteInvocationRetention : duration := (30 * 24 * Hour)%Z.
Definition maxLedgerUserTextBytes : nat := 512.

Definition truncation_marker : string := "…[truncated]".

Definition boundUserText (s : string) : string :=
  if blen s <=? maxLedgerUserTextBytes then s
  else byte_take (rune_cut s maxLedgerUserTextBytes) s +:+ truncation_marker.

Definition InvocationStatusInFlight : string := "in_flight".
Definition InvocationStatusCompleted : string := "completed".
Definition InvocationStatusFailed : string := "failed".
Definition InvocationStatusQueued : string := "queued".
Definition InvocationStatusRecovering : string := "recovering".
Definition InvocationStatusRecovered : string := "recovered".
Definition InvocationStatusRecoveryFailed : string := "recovery_failed".

Record InvocationMetadata := mkMeta {
  m_Source : string; m_AgentName : string; m_Method : string; m_ContextID : string; m_MessageID : string;
  m_UserText : string; m_Speaker : string;
}.

Record InvocationRecord := mkRecord {
  ID : string;
  Source : string;
  AgentName : string;
  Method : string;
  ContextID : string;
  MessageID : string;
  UserText : string;
  Speaker : string;
  Status : string;
  StartedAt : time;
  FinishedAt : time;
  Error : string;
}.

Record invocationLedgerEvent := mkEvent {
  Type_ : string;
  e_ID : string;
  NextID : Z;
  e_Source : string;
  e_AgentName : string;
  e_Method : string;
  e_ContextID : string;
  e_MessageID : string;
  e_UserText : string;
  e_Speaker : string;
  e_Error : string;
  TS : time;
}.

Definition status_event (ty id err : string) (ts : time) : invocationLedgerEvent :=
  mkEvent ty id 0 "" "" "" "" "" "" "" err ts.

Record InvocationLedger := mkLedger {
  nextID : Z;
  path : string;
  records : gmap string InvocationRecord;
  order : list string;
  metrics : option GatewayMetrics;
  file : list invocationLedgerEvent;   (** the events in the file at [path] *)
}.

Definition NewInvocationLedger : InvocationLedger := mkLedger 0 "" ∅ [] None [].

Definition SetGatewayMetrics (m : GatewayMetrics) (l : InvocationLedger) : InvocationLedger :=
  mkLedger (nextID l) (path l) (records l) (order l) (Some m) (file l).

(** ** Changing records *)

(** The time of a written event is never zero. *)
Definition with_ts (now : time) (e : invocationLedgerEvent) : invocationLedgerEvent :=
  if IsZero (TS e)
  then mkEvent (Type_ e) (e_ID e) (NextID e) (e_Source e) (e_AgentName e) (e_Method e) (e_ContextID e)
         (e_MessageID e) (e_UserText e) (e_Speaker e) (e_Error e) now
  else e.

Definition appendEventLocked (now : time) (e : invocationLedgerEvent) (l : InvocationLedger) : InvocationLedger :=
  if negb (nonempty (path l)) then l
  else mkLedger (nextID l) (path l) (records l) (order l) (metrics l) (file l ++ [with_ts now e]).

Definition startedEventFromRecord (r : InvocationRecord) : invocationLedgerEvent :=
  mkEvent "started" (ID r) 0 (Source r) (AgentName r) (Method r) (ContextID r) (MessageID r) (UserText r) (Speaker r)
    "" (StartedAt r).

Definition with_metrics (m : option GatewayMetrics) (l : InvocationLedger) : InvocationLedger :=
  mkLedger (nextID l) (path l) (records l) (order l) m (file l).

Definition invocation_id (n : Z) : string := "inv-" +:+ Itoa n.

Definition Begin (now : time) (meta : InvocationMetadata) (l : InvocationLedger) : InvocationLedger * InvocationRecord :=
  let n := u64 (nextID l + 1) in
  let id := invocation_id n in
  let rec := mkRecord id (m_Source meta) (m_AgentName meta) (m_Method meta) (m_ContextID meta) (m_MessageID meta)
               (boundUserText (m_UserText meta)) (m_Speaker meta) InvocationStatusInFlight now zero_time "" in
  let l := mkLedger n (path l) (<[id := rec]> (records l)) (order l ++ [id]) (metrics l) (file l) in
  let l := appendEventLocked now (startedEventFromRecord rec) l in
  (with_metrics (begin (AgentName rec) (Source rec) (metrics l)) l, rec).

Definition is_live (status : string) : bool :=
  bool_decide (status = InvocationStatusInFlight) || bool_decide (status = InvocationStatusQueued).

Definition updateStatus (now : time) (id status result errMsg : string) (finish : bool) (l : InvocationLedger)
    : InvocationLedger :=
  match records l !! id with
  | None => l
  | Some rec =>
      let prev := Status rec in
      let rec := mkRecord (ID rec) (Source rec) (AgentName rec) (Method rec) (ContextID rec) (MessageID rec)
                   (UserText rec) (Speaker rec) status (StartedAt rec) (if finish then now else FinishedAt rec) errMsg in
      let l := mkLedger (nextID l) (path l) (<[id := rec]> (records l)) (order l) (metrics l) (file l) in
      let l := appendEventLocked now (status_event status id errMsg now) l in
      if finish && is_live prev
      then with_metrics (settle (AgentName rec) (Source rec) result (metrics l)) l
      else l
  end.

Definition finish (now : time) (id status result errMsg : string) : InvocationLedger → InvocationLedger :=
  updateStatus now id status result errMsg true.

Definition Complete (now : time) (id : string) := finish now id InvocationStatusCompleted ResultDone "".
(** [Fail], [FailMessage] are [FailResult], [FailMessageResult] with
    [ResultInternalError]; an error is its message, [""] for nil. *)
Definition FailResult (now : time) (id result msg : string) := finish now id InvocationStatusFailed result msg.
Definition Fail (now : time) (id msg : string) := FailResult now id ResultInternalError msg.
Definition Queued (now : time) (id : string) := updateStatus now id InvocationStatusQueued "" "" false.
Definition Recovering (now : time) (id : string) := updateStatus now id InvocationStatusRecovering "" "" false.
Definition Recovered (now : time) (id : string) := updateStatus now id InvocationStatusRecovered "" "" true.
Definition RecoveryFailed (now : time) (id msg : string) :=
  updateStatus now id InvocationStatusRecoveryFailed "" msg true.

Definition Snapshot (l : InvocationLedger) : list InvocationRecord := omap (λ id, records l !! id) (order l).

Definition recoverable (agentName : string) (r : InvocationRecord) : bool :=
  bool_decide (AgentName r = agentName) && nonempty (ContextID r) &&
  (bool_decide (Status r = InvocationStatusInFlight) || bool_decide (Status r = InvocationStatusFailed) ||
   bool_decide (Status r = InvocationStatusRecoveryFailed)).

Definition RecoverableForAgent (agentName : string) (l : InvocationLedger) : list InvocationRecord :=
  filter (λ r, recoverable agentName r) (Snapshot l).

(** ** Replay *)

Definition bump (nextID : Z) (id : string) : Z :=
  match ParseUint (TrimPrefix id "inv-") with
  | None => nextID
  | Some n => if (nextID <? n)%Z then n else nextID
  end.

Definition with_status (status : string) (fin : option time) (err : string) (r : InvocationRecord) : InvocationRecord :=
  mkRecord (ID r) (Source r) (AgentName r) (Method r) (ContextID r) (MessageID r) (UserText r) (Speaker r) status
    (StartedAt r) (default (FinishedAt r) fin) err.

(** The status, finishing time and error an event gives its record. *)
Definition replay_status (e : invocationLedgerEvent) : option (string * option time * string) :=
  if bool_decide (Type_ e = "completed") then Some (InvocationStatusCompleted, Some (TS e), "")
  else if bool_decide (Type_ e = "failed") then Some (InvocationStatusFailed, Some (TS e), e_Error e)
  else if bool_decide (Type_ e = "queued") then Some (InvocationStatusQueued, None, "")
  else if bool_decide (Type_ e = "recovering") then Some (InvocationStatusRecovering, None, e_Error e)
  else if bool_decide (Type_ e = "recovered") then Some (InvocationStatusRecovered, Some (TS e), "")
  else if bool_decide (Type_ e = "recovery_failed") then Some (InvocationStatusRecoveryFailed, Some (TS e), e_Error e)
  else None.

Definition applyReplayEvent (l : InvocationLedger) (e : invocationLedgerEvent) : InvocationLedger :=
  if bool_decide (Type_ e = "checkpoint") then
    mkLedger (if (nextID l <? NextID e)%Z then NextID e else nextID l) (path l) (records l) (order l) (metrics l) (file l)
  else
    let n := bump (nextID l) (e_ID e) in
    if bool_decide (Type_ e = "started") then
      mkLedger n (path l)
        (<[e_ID e := mkRecord (e_ID e) (e_Source e) (e_AgentName e) (e_Method e) (e_ContextID e) (e_MessageID e)
             (e_UserText e) (e_Speaker e) InvocationStatusInFlight (TS e) zero_time ""]> (records l))
        (if records l !! e_ID e is Some _ then order l else order l ++ [e_ID e]) (metrics l) (file l)
    else
      match replay_status e, records l !! e_ID e with
      | Some (status, fin, err), Some rec =>
          mkLedger n (path l) (<[e_ID e := with_status status fin err rec]> (records l)) (order l) (metrics l) (file l)
      | _, _ => mkLedger n (path l) (records l) (order l) (metrics l) (file l)
      end.

Definition replay_events (l : InvocationLedger) (es : list invocationLedgerEvent) : InvocationLedger :=
  foldl applyReplayEvent l es.

(** The longest token of the scanner is one byte shorter than its buffer. *)
Definition max_line : Z := (10 * 1024 * 1024)%Z.

(** [replay]: blank and undecodable lines are skipped; a line that does not fit
    the buffer ends the loop with [bufio.ErrTooLong], the flag, after the lines
    before it have been applied. *)
Fixpoint replay (Decode : string → option invocationLedgerEvent) (lines : list string) (l : InvocationLedger)
    : InvocationLedger * bool :=
  match lines with
  | [] => (l, false)
  | line :: lines =>
      if (max_line <=? Z.of_nat (blen line))%Z then (l, true)
      else
        let line := TrimSpace line in
        replay Decode lines
          (if nonempty line then match Decode line with None => l | Some e => applyReplayEvent l e end else l)
  end.

(** ** Compaction *)

Definition terminalTime (now : time) (r : InvocationRecord) : time :=
  if negb (IsZero (FinishedAt r)) then FinishedAt r
  else if negb (IsZero (StartedAt r)) then StartedAt r else now.

Definition retainInvocationRecord (now : time) (r : InvocationRecord) : bool :=
  if bool_decide (Status r = InvocationStatusCompleted)
  then negb (Before (terminalTime now r) (Add now (- completedInvocationRetention)))
  else negb (Before (if IsZero (StartedAt r) then terminalTime now r else StartedAt r)
               (Add now (- incompleteInvocationRetention))).

Definition compact_events (now : time) (r : InvocationRecord) : list invocationLedgerEvent :=
  let ts := terminalTime now r in
  startedEventFromRecord r ::
    (if bool_decide (Status r = InvocationStatusCompleted) then [status_event "completed" (ID r) "" ts]
     else if bool_decide (Status r = InvocationStatusFailed) then [status_event "failed" (ID r) (Error r) ts]
     else if bool_decide (Status r = InvocationStatusQueued) then [status_event "queued" (ID r) "" ts]
     else if bool_decide (Status r = InvocationStatusRecovering) then [status_event "recovering" (ID r) "" ts]
     else if bool_decide (Status r = InvocationStatusRecovered) then [status_event "recovered" (ID r) "" ts]
     else if bool_decide (Status r = InvocationStatusRecoveryFailed)
          then [status_event "recovery_failed" (ID r) (Error r) ts]
     else []).

Definition checkpoint (now : time) (n : Z) : invocationLedgerEvent := mkEvent "checkpoint" "" n "" "" "" "" "" "" "" "" now.

Definition compactForRetentionLocked (now : time) (l : InvocationLedger) : InvocationLedger :=
  let retained := filter (λ r, retainInvocationRecord now r) (Snapshot l) in
  let events := checkpoint now (nextID l) :: mjoin (compact_events now <$> retained) in
  mkLedger (nextID l) (path l) (foldl (λ m r, <[ID r := r]> m) ∅ retained) (ID <$> retained) (metrics l)
    (with_ts now <$> events).

Definition CompactForRetention (now : time) (l : InvocationLedger) : InvocationLedger :=
  if negb (nonempty (path l)) then l else compactForRetentionLocked now l.

(** [lines] is the file's contents, [None] when it does not exist. No ledger is
    returned for a file that cannot be scanned to its end. *)
Definition NewInvocationLedgerFromFile (Decode : string → option invocationLedgerEvent) (now : time) (p : string)
    (lines : option (list string)) : option InvocationLedger :=
  let l := mkLedger 0 p ∅ [] None [] in
  if negb (nonempty p) then Some l
  else match lines with
       | None => Some l
       | Some lines =>
           match replay Decode lines l with
           | (_, true) => None
           | (l, false) => Some (CompactForRetention now l)
           end
       end.

(** What the scheduler starts with: a ledger in memory only, when there is no
    path or the file is not readable. *)
Definition open_ledger (Decode : string → option invocationLedgerEvent) (now : time) (p : string)
    (lines : option (list string)) : InvocationLedger :=
  if nonempty p then default NewInvocationLedger (NewInvocationLedgerFromFile Decode now p lines) else NewInvocationLedger.
