(* ===== verification/LedgerLaws.v ===== *)
(** * What the invocation ledger promises

    The file determines the ledger, ids are never reused, the in-flight gauge
    counts the live invocations, and the persisted text is bounded. *)
From S2P Require Import Prelude GoBase GoStrings Ledger.
From Stdlib Require Import ZArith Lia Ascii.

(** ** Well-formed ledgers *)

Definition terminal (status : string) : bool :=
  bool_decide (status = InvocationStatusCompleted) || bool_decide (status = InvocationStatusFailed) ||
  bool_decide (status = InvocationStatusRecovered) || bool_decide (status = InvocationStatusRecoveryFailed).

Definition known (status : string) : Prop :=
  terminal status = true ∨ is_live status = true ∨ status = InvocationStatusRecovering.

Definition failing (status : string) : bool :=
  bool_decide (status = InvocationStatusFailed) || bool_decide (status = InvocationStatusRecoveryFailed).

Record record_ok (id : string) (r : InvocationRecord) : Prop := {
  ro_id : ID r = id;
  ro_started : StartedAt r ≠ 0%Z;
  ro_status : known (Status r);
  ro_finished : terminal (Status r) = true → FinishedAt r ≠ 0%Z;
  ro_error : failing (Status r) = false → Error r = "";
}.

(** An id read back by [bumpNextID] is at most [n]. *)
Definition id_below (n : Z) (id : string) : Prop :=
  ∀ k, ParseUint (TrimPrefix id "inv-") = Some k → (k ≤ n)%Z.

Record wf (l : InvocationLedger) : Prop := {
  wf_next : (0 ≤ nextID l)%Z;
  wf_order : NoDup (order l);
  wf_dom id : id ∈ order l ↔ is_Some (records l !! id);
  wf_records id r : records l !! id = Some r → record_ok id r;
  wf_below id : id ∈ order l → id_below (nextID l) id;
}.

Lemma bump_below n id : id_below n id → bump n id = n.
Proof.
  unfold id_below, bump. destruct (ParseUint _) as [k |]; [| done]. intros H. specialize (H k eq_refl).
  by rewrite (proj2 (Z.ltb_ge _ _)).
Qed.

Lemma below_mono n m id : (n ≤ m)%Z → id_below n id → id_below m id.
Proof. intros Hle H k Hk. specialize (H k Hk). lia. Qed.

Lemma invocation_id_parse n : (0 ≤ n ≤ max_uint64)%Z → ParseUint (TrimPrefix (invocation_id n) "inv-") = Some n.
Proof. intros Hn. unfold invocation_id. rewrite TrimPrefix_app. by apply ParseUint_Itoa. Qed.

Lemma invocation_id_fresh l n :
  wf l → (nextID l < n ≤ max_uint64)%Z → invocation_id n ∉ order l.
Proof.
  intros Hwf Hn Hin. apply (wf_below l Hwf) in Hin. pose proof (wf_next l Hwf).
  specialize (Hin n (invocation_id_parse n ltac:(lia))). lia.
Qed.

(** ** The file and the ledger *)

(** What the file knows of a record: a finishing time only of a finished one. *)
Definition persisted (r : InvocationRecord) : InvocationRecord :=
  if terminal (Status r) then r
  else mkRecord (ID r) (Source r) (AgentName r) (Method r) (ContextID r) (MessageID r) (UserText r) (Speaker r)
         (Status r) (StartedAt r) zero_time (Error r).

Definition empty_ledger (p : string) : InvocationLedger := mkLedger 0 p ∅ [] None [].

Definition agrees (l l' : InvocationLedger) : Prop :=
  nextID l' = nextID l ∧ order l' = order l ∧ (∀ id, persisted <$> records l' !! id = persisted <$> records l !! id).

Definition file_agrees (l : InvocationLedger) : Prop := agrees l (replay_events (empty_ledger (path l)) (file l)).

Lemma append_fields now e l :
  records (appendEventLocked now e l) = records l ∧ order (appendEventLocked now e l) = order l ∧
  nextID (appendEventLocked now e l) = nextID l ∧ path (appendEventLocked now e l) = path l ∧
  metrics (appendEventLocked now e l) = metrics l.
Proof. unfold appendEventLocked. by destruct (negb _). Qed.

Lemma append_file now e l :
  nonempty (path l) = true → TS e ≠ 0%Z → file (appendEventLocked now e l) = file l ++ [e].
Proof.
  intros Hp Ht. unfold appendEventLocked, with_ts, IsZero. rewrite Hp. cbn [negb file].
  by rewrite (proj2 (Z.eqb_neq _ _)).
Qed.

Lemma persisted_fields r r' :
  persisted r = persisted r' →
  ID r = ID r' ∧ Source r = Source r' ∧ AgentName r = AgentName r' ∧ Method r = Method r' ∧ ContextID r = ContextID r' ∧
  MessageID r = MessageID r' ∧ UserText r = UserText r' ∧ Speaker r = Speaker r' ∧ Status r = Status r' ∧
  StartedAt r = StartedAt r' ∧ Error r = Error r'.
Proof.
  destruct r, r'. unfold persisted. cbn. intros H.
  destruct (terminal _); destruct (terminal _); injection H; intros; subst; done.
Qed.

(** ** The operations *)

Inductive op :=
| OpBegin (now : time) (meta : InvocationMetadata)
| OpComplete (now : time) (id : string)
| OpFail (now : time) (id result msg : string)
| OpQueued (now : time) (id : string)
| OpRecovering (now : time) (id : string)
| OpRecovered (now : time) (id : string)
| OpRecoveryFailed (now : time) (id msg : string)
| OpCompact (now : time).

Definition apply (l : InvocationLedger) (o : op) : InvocationLedger :=
  match o with
  | OpBegin now meta => fst (Begin now meta l)
  | OpComplete now id => Complete now id l
  | OpFail now id result msg => FailResult now id result msg l
  | OpQueued now id => Queued now id l
  | OpRecovering now id => Recovering now id l
  | OpRecovered now id => Recovered now id l
  | OpRecoveryFailed now id msg => RecoveryFailed now id msg l
  | OpCompact now => CompactForRetention now l
  end.

Definition op_time (o : op) : time :=
  match o with
  | OpBegin t _ | OpComplete t _ | OpFail t _ _ _ | OpQueued t _ | OpRecovering t _ | OpRecovered t _
  | OpRecoveryFailed t _ _ | OpCompact t => t
  end.

(** The status updates, as their arguments to [updateStatus]. *)
Definition update_of (o : op) : option (string * string * string * string * bool) :=
  match o with
  | OpComplete _ id => Some (id, InvocationStatusCompleted, ResultDone, "", true)
  | OpFail _ id result msg => Some (id, InvocationStatusFailed, result, msg, true)
  | OpQueued _ id => Some (id, InvocationStatusQueued, "", "", false)
  | OpRecovering _ id => Some (id, InvocationStatusRecovering, "", "", false)
  | OpRecovered _ id => Some (id, InvocationStatusRecovered, "", "", true)
  | OpRecoveryFailed _ id msg => Some (id, InvocationStatusRecoveryFailed, "", msg, true)
  | _ => None
  end.

Lemma apply_update o l id status result msg fin :
  update_of o = Some (id, status, result, msg, fin) →
  apply l o = updateStatus (op_time o) id status result msg fin l ∧
  fin = terminal status ∧ known status ∧ (failing status = false → msg = "").
Proof.
  destruct o; cbn [update_of]; intros [= <- <- <- <- <-]; (split; [done |]); (split; [done |]);
    (split; [by vm_compute; auto |]); by vm_compute.
Qed.

Definition updated (now : time) (status msg : string) (fin : bool) (r : InvocationRecord) : InvocationRecord :=
  mkRecord (ID r) (Source r) (AgentName r) (Method r) (ContextID r) (MessageID r) (UserText r) (Speaker r) status
    (StartedAt r) (if fin then now else FinishedAt r) msg.

Lemma update_spec now id status result msg fin l r :
  records l !! id = Some r →
  let l' := updateStatus now id status result msg fin l in
  records l' = <[id := updated now status msg fin r]> (records l) ∧ order l' = order l ∧ nextID l' = nextID l ∧
  path l' = path l ∧
  file l' = file (appendEventLocked now (status_event status id msg now) l) ∧
  metrics l' = (if fin && is_live (Status r) then settle (AgentName r) (Source r) result (metrics l) else metrics l).
Proof.
  intros Hr. unfold updateStatus. rewrite Hr. set (l1 := mkLedger _ _ _ _ _ _).
  destruct (append_fields now (status_event status id msg now) l1) as (E1 & E2 & E3 & E4 & E5).
  assert (file (appendEventLocked now (status_event status id msg now) l1) =
          file (appendEventLocked now (status_event status id msg now) l)) as E6.
  { unfold appendEventLocked. cbn. by destruct (negb _). }
  destruct (_ && _)%bool; cbn; rewrite ?E1, ?E2, ?E3, ?E4, ?E5, ?E6; by split_and!.
Qed.

Lemma update_None now id status result msg fin l :
  records l !! id = None → updateStatus now id status result msg fin l = l.
Proof. unfold updateStatus. by intros ->. Qed.

Lemma updated_ok now id status msg fin r :
  record_ok id r → now ≠ 0%Z → known status → fin = terminal status → (failing status = false → msg = "") →
  record_ok id (updated now status msg fin r).
Proof. intros [H1 H2 H3 H4 H5] Ht Hk Hfin Hm. split; cbn; try done. intros Hterm. by rewrite Hfin, Hterm. Qed.

Lemma ledger_wf_update o l : wf l → op_time o ≠ 0%Z → is_Some (update_of o) → wf (apply l o).
Proof.
  intros Hwf Ht [[[[[id status] result] msg] fin] Hu].
  destruct (apply_update o l id status result msg fin Hu) as (-> & Hfin & Hk & Hm).
  destruct (records l !! id) as [r |] eqn:Hr; [| by rewrite update_None].
  destruct (update_spec (op_time o) id status result msg fin l r Hr) as (E1 & E2 & E3 & _).
  destruct Hwf as [W1 W2 W3 W4 W5]. split; rewrite ?E1, ?E2, ?E3; try done.
  - intros id'. rewrite W3. destruct (decide (id' = id)) as [-> | Hne].
    + rewrite lookup_insert_eq. split; [done | by rewrite Hr].
    + by rewrite lookup_insert_ne.
  - intros id' r' [[<- <-] | [_ Hr']]%lookup_insert_Some; [| by apply W4].
    apply updated_ok; try done. by apply W4.
Qed.

Lemma begin_spec now meta l :
  (0 ≤ nextID l < max_uint64)%Z →
  let '(l', rec) := Begin now meta l in
  nextID l' = (nextID l + 1)%Z ∧ ID rec = invocation_id (nextID l + 1) ∧ Status rec = InvocationStatusInFlight ∧
  StartedAt rec = now ∧ FinishedAt rec = zero_time ∧ Error rec = "" ∧ AgentName rec = m_AgentName meta ∧
  Source rec = m_Source meta ∧ UserText rec = boundUserText (m_UserText meta) ∧
  records l' = <[ID rec := rec]> (records l) ∧ order l' = order l ++ [ID rec] ∧ path l' = path l ∧
  file l' = file (appendEventLocked now (startedEventFromRecord rec) l) ∧
  metrics l' = begin (AgentName rec) (Source rec) (metrics l).
Proof.
  intros Hn. unfold Begin. rewrite u64_small by (unfold max_uint64 in *; lia). cbn zeta.
  set (rec := mkRecord _ _ _ _ _ _ _ _ _ _ _ _). set (l1 := mkLedger _ _ _ _ _ _).
  destruct (append_fields now (startedEventFromRecord rec) l1) as (E1 & E2 & E3 & E4 & E5).
  assert (file (appendEventLocked now (startedEventFromRecord rec) l1) =
          file (appendEventLocked now (startedEventFromRecord rec) l)) as E6.
  { unfold appendEventLocked. cbn. by destruct (negb _). }
  cbn [nextID records order path file metrics with_metrics fst]. rewrite E1, E2, E3, E4, E5, E6. by split_and!.
Qed.

Lemma wf_begin now meta l : wf l → (nextID l < max_uint64)%Z → now ≠ 0%Z → wf (fst (Begin now meta l)).
Proof.
  intros Hwf Hn Ht. pose proof (wf_next l Hwf). pose proof (begin_spec now meta l ltac:(lia)) as Hs.
  destruct (Begin now meta l) as [l' rec]. destruct Hs as (S1 & S2 & S3 & S4 & S5 & S6 & _ & _ & _ & S7 & S8 & _).
  pose proof (invocation_id_fresh l (nextID l + 1) Hwf ltac:(lia)) as Hfresh. rewrite <- S2 in Hfresh.
  destruct Hwf as [W1 W2 W3 W4 W5]. cbn [fst]. split; rewrite ?S1, ?S7, ?S8.
  - lia.
  - apply NoDup_app. split_and!; [done | | apply NoDup_singleton]. by intros id Hid ->%list_elem_of_singleton.
  - intros id. rewrite elem_of_app, list_elem_of_singleton, W3. destruct (decide (id = ID rec)) as [-> | Hne].
    + rewrite lookup_insert_eq. split; [done | by right].
    + rewrite lookup_insert_ne by done. tauto.
  - intros id r [[<- <-] | [_ Hr]]%lookup_insert_Some; [| by apply W4].
    split; rewrite ?S3, ?S4, ?S6; try done. by vm_compute; auto.
  - intros id [Hid | ->%list_elem_of_singleton]%elem_of_app; [eapply below_mono; [| by apply W5]; lia |].
    rewrite S2. intros k. rewrite invocation_id_parse by lia. intros [= <-]. lia.
Qed.

(** ** Replaying single events *)

Lemma replay_snoc l es e : replay_events l (es ++ [e]) = applyReplayEvent (replay_events l es) e.
Proof. unfold replay_events. by rewrite foldl_snoc. Qed.

Lemma agrees_begin now meta l l' :
  wf l → (nextID l < max_uint64)%Z → now ≠ 0%Z → agrees l l' →
  let '(l1, rec) := Begin now meta l in agrees l1 (applyReplayEvent l' (startedEventFromRecord rec)).
Proof.
  intros Hwf Hn Ht (A1 & A2 & A3). pose proof (wf_next l Hwf). pose proof (begin_spec now meta l ltac:(lia)) as Hs.
  destruct (Begin now meta l) as [l1 rec]. destruct Hs as (S1 & S2 & S3 & S4 & S5 & S6 & _ & _ & _ & S7 & S8 & _).
  pose proof (invocation_id_fresh l (nextID l + 1) Hwf ltac:(lia)) as Hfresh. rewrite <- S2 in Hfresh.
  assert (records l' !! ID rec = None) as Hnone.
  { specialize (A3 (ID rec)). rewrite (wf_dom l Hwf) in Hfresh. destruct (records l !! ID rec); [by destruct Hfresh |].
    by destruct (records l' !! ID rec). }
  unfold applyReplayEvent. cbn [Type_ startedEventFromRecord e_ID].
  rewrite bool_decide_eq_false_2, bool_decide_eq_true_2 by done. rewrite Hnone.
  unfold agrees. cbn [nextID order records]. rewrite S1, S7, S8, A1, A2. split_and!.
  - unfold bump. rewrite S2, invocation_id_parse by lia. destruct (_ <? _)%Z eqn:E; bool_to_prop; lia.
  - done.
  - intros id. destruct (decide (id = ID rec)) as [-> | Hne]; [| by rewrite !lookup_insert_ne].
    rewrite !lookup_insert_eq. cbn. do 2 f_equal. destruct rec; cbn in *; by subst.
Qed.

Lemma agrees_update now id status result msg fin l l' :
  wf l → now ≠ 0%Z → known status → fin = terminal status → (failing status = false → msg = "") →
  status ≠ InvocationStatusInFlight → agrees l l' →
  match records l !! id with
  | None => True
  | Some _ => agrees (updateStatus now id status result msg fin l) (applyReplayEvent l' (status_event status id msg now))
  end.
Proof.
  intros Hwf Ht Hk Hfin Hm Hne (A1 & A2 & A3). destruct (records l !! id) as [r |] eqn:Hr; [| done].
  destruct (update_spec now id status result msg fin l r Hr) as (E1 & E2 & E3 & _).
  pose proof (A3 id) as Hid. rewrite Hr in Hid. destruct (records l' !! id) as [r' |] eqn:Hr'; [| done].
  cbn in Hid. injection Hid as Hid. apply persisted_fields in Hid as (F1 & F2 & F3 & F4 & F5 & F6 & F7 & F8 & F9 & F10 & F11).
  assert (id ∈ order l) as Hin by (apply (wf_dom l Hwf); by exists r).
  assert (bump (nextID l') id = nextID l) as Hb by (rewrite A1; by apply bump_below, (wf_below l Hwf)).
  assert (∃ fin' err', replay_status (status_event status id msg now) = Some (status, fin', err') ∧
    persisted (with_status status fin' err' r') = persisted (updated now status msg fin r)) as (fin' & err' & Hrs & Hp).
  { subst fin. destruct Hk as [Hk | [Hk | ->]].
    - unfold terminal in Hk. repeat (apply orb_prop in Hk as [Hk | Hk]); apply bool_decide_eq_true in Hk; subst status;
        (eexists _, _; split; [reflexivity |]); unfold persisted, with_status, updated; cbn;
        rewrite ?F1, ?F2, ?F3, ?F4, ?F5, ?F6, ?F7, ?F8, ?F9, ?F10; try done; by rewrite Hm.
    - unfold is_live in Hk. apply orb_prop in Hk as [Hk | Hk]; apply bool_decide_eq_true in Hk; subst status; [done |].
      eexists _, _. split; [reflexivity |]. unfold persisted, with_status, updated. cbn.
      rewrite F1, F2, F3, F4, F5, F6, F7, F8, F10. by rewrite Hm.
    - eexists _, _. split; [reflexivity |]. unfold persisted, with_status, updated. cbn.
      rewrite F1, F2, F3, F4, F5, F6, F7, F8, F10. done. }
  unfold applyReplayEvent. cbn [Type_ status_event e_ID].
  assert (status ≠ "checkpoint" ∧ status ≠ "started") as [Hc Hst].
  { split; intros ->; by vm_compute in Hrs. }
  rewrite !bool_decide_eq_false_2 by done. rewrite Hrs, Hr'. unfold agrees. cbn [nextID order records].
  rewrite E1, E2, E3, A2. split_and!; [done | done |].
  intros id'. destruct (decide (id' = id)) as [-> | Hne']; [| by rewrite !lookup_insert_ne].
  rewrite !lookup_insert_eq. cbn. by rewrite Hp.
Qed.

(** ** Compaction *)

Definition build_records (m : gmap string InvocationRecord) (rs : list InvocationRecord) : gmap string InvocationRecord :=
  foldl (λ m r, <[ID r := r]> m) m rs.

Lemma build_notin m rs id : id ∉ ID <$> rs → build_records m rs !! id = m !! id.
Proof.
  unfold build_records. revert m. induction rs as [| r rs IH]; intros m Hin; [done |]. cbn in *.
  apply not_elem_of_cons in Hin as [Hne Hin]. rewrite IH by done. by rewrite lookup_insert_ne.
Qed.

Lemma build_in m rs r : NoDup (ID <$> rs) → r ∈ rs → build_records m rs !! ID r = Some r.
Proof.
  revert m. induction rs as [| r' rs IH]; intros m Hnd Hin; [by apply not_elem_of_nil in Hin |].
  cbn in *. apply NoDup_cons in Hnd as [Hni Hnd]. apply elem_of_cons in Hin as [-> | Hin].
  - change (build_records (<[ID r' := r']> m) rs !! ID r' = Some r'). rewrite build_notin by done. apply lookup_insert_eq.
  - by apply (IH (<[ID r' := r']> m)).
Qed.

Lemma build_dom rs id : is_Some (build_records ∅ rs !! id) ↔ id ∈ ID <$> rs.
Proof.
  unfold build_records. assert (∀ m : gmap string InvocationRecord, is_Some (foldl (λ m r, <[ID r := r]> m) m rs !! id) ↔ is_Some (m !! id) ∨ id ∈ ID <$> rs)
    as H.
  2: { rewrite H, lookup_empty. split; [intros [[? [=]] | Hin]; done | by right]. }
  induction rs as [| r rs IH]; intros m; cbn; [set_solver |]. rewrite IH, elem_of_cons.
  destruct (decide (id = ID r)) as [-> | Hne].
  - rewrite lookup_insert_eq. split; [by right; left | by left].
  - rewrite lookup_insert_ne by done. tauto.
Qed.

Lemma snapshot_build (m : gmap string InvocationRecord) rs :
  NoDup (ID <$> rs) → omap (λ id, build_records m rs !! id) (ID <$> rs) = rs.
Proof.
  intros Hnd. assert (∀ l : list InvocationRecord, (∀ r, r ∈ l → r ∈ rs) → omap (λ id, build_records m rs !! id) (ID <$> l) = l) as H.
  { induction l as [| r l IH]; intros Hl; [done |]. cbn. rewrite build_in by (try done; apply Hl; by left).
    f_equal. apply IH. intros r' Hr'. apply Hl. by right. }
  by apply H.
Qed.

(** The snapshot of a well-formed ledger: its records, one per id. *)
Lemma snapshot_elem l r : wf l → r ∈ Snapshot l ↔ records l !! ID r = Some r.
Proof.
  intros Hwf. unfold Snapshot. rewrite list_elem_of_omap. split.
  - intros (id & _ & Hr). by rewrite (ro_id _ _ (wf_records l Hwf id r Hr)).
  - intros Hr. exists (ID r). split; [| done]. apply (wf_dom l Hwf). by exists r.
Qed.

Lemma snapshot_ids l : wf l → ID <$> Snapshot l = order l.
Proof.
  intros Hwf. unfold Snapshot.
  assert (∀ ids : list string, (∀ id, id ∈ ids → id ∈ order l) → ID <$> omap (λ id, records l !! id) ids = ids) as H; [| by apply H].
  induction ids as [| id ids IH]; intros Hids; [done |]. cbn.
  assert (is_Some (records l !! id)) as [r Hr] by (apply (wf_dom l Hwf), Hids; by left).
  rewrite Hr. cbn. rewrite (ro_id _ _ (wf_records l Hwf id r Hr)). f_equal. apply IH. intros id' H'. apply Hids. by right.
Qed.

Definition retained (now : time) (l : InvocationLedger) : list InvocationRecord :=
  filter (λ r, retainInvocationRecord now r) (Snapshot l).

Lemma retained_sublist now l : wf l → ID <$> retained now l `sublist_of` order l.
Proof. intros Hwf. rewrite <- (snapshot_ids l Hwf). apply fmap_sublist, sublist_filter. Qed.

Lemma retained_nodup now l : wf l → NoDup (ID <$> retained now l).
Proof. intros Hwf. eapply sublist_NoDup; [by apply (wf_order l Hwf) | by apply retained_sublist]. Qed.

Lemma retained_ok now l r :
  wf l → r ∈ retained now l → record_ok (ID r) r ∧ id_below (nextID l) (ID r) ∧ records l !! ID r = Some r.
Proof.
  intros Hwf [_ Hr]%list_elem_of_filter. apply (snapshot_elem l r Hwf) in Hr.
  split_and!; [by apply (wf_records l Hwf) | | done]. apply (wf_below l Hwf), (wf_dom l Hwf). by exists r.
Qed.

Lemma compact_fields now l :
  let l' := compactForRetentionLocked now l in
  nextID l' = nextID l ∧ path l' = path l ∧ records l' = build_records ∅ (retained now l) ∧
  order l' = ID <$> retained now l ∧ metrics l' = metrics l.
Proof. done. Qed.

Lemma wf_compact now l : wf l → wf (compactForRetentionLocked now l).
Proof.
  intros Hwf. destruct (compact_fields now l) as (E1 & _ & E3 & E4 & _).
  split; rewrite ?E1, ?E3, ?E4.
  - apply Hwf.
  - by apply retained_nodup.
  - intros id. symmetry. apply build_dom.
  - intros id r Hr. assert (id ∈ ID <$> retained now l) as (r' & -> & Hr')%list_elem_of_fmap by (apply build_dom; by exists r).
    rewrite build_in in Hr by (try done; by apply retained_nodup). injection Hr as <-. by apply (retained_ok now l r' Hwf Hr').
  - intros id (r & -> & Hr)%list_elem_of_fmap. by apply (retained_ok now l r Hwf Hr).
Qed.

Lemma snapshot_compact now l : wf l → Snapshot (compactForRetentionLocked now l) = retained now l.
Proof. intros Hwf. apply (snapshot_build ∅). by apply retained_nodup. Qed.

Lemma known_inv status :
  known status →
  status ∈ [InvocationStatusInFlight; InvocationStatusCompleted; InvocationStatusFailed; InvocationStatusQueued;
            InvocationStatusRecovering; InvocationStatusRecovered; InvocationStatusRecoveryFailed].
Proof.
  intros [Hk | [Hk | ->]]; [unfold terminal in Hk | unfold is_live in Hk |]; [| | by apply (bool_decide_unpack _)].
  all: repeat (apply orb_prop in Hk as [Hk | Hk]); apply bool_decide_eq_true in Hk as ->; by apply (bool_decide_unpack _).
Qed.

Ltac each_status H := apply known_inv in H; repeat (apply elem_of_cons in H as [H | H]); [.. | by apply not_elem_of_nil in H].

(** Compaction writes at most one status event for a record. *)
Lemma compact_events_status now r :
  record_ok (ID r) r →
  compact_events now r =
  startedEventFromRecord r ::
    (if bool_decide (Status r = InvocationStatusInFlight) then []
     else [status_event (Status r) (ID r) (Error r) (terminalTime now r)]).
Proof.
  intros [_ _ Hk _ He]. unfold compact_events. f_equal. each_status Hk; rewrite Hk in *; try rewrite He by reflexivity; done.
Qed.

Lemma replay_status_event l status id err ts r :
  known status → status ≠ InvocationStatusInFlight → (failing status = false → err = "") → records l !! id = Some r →
  applyReplayEvent l (status_event status id err ts) =
  mkLedger (bump (nextID l) id) (path l)
    (<[id := with_status status (if terminal status then Some ts else None) err r]> (records l)) (order l) (metrics l) (file l).
Proof.
  intros Hk Hne He Hr. unfold applyReplayEvent. cbn [Type_ status_event e_ID]. rewrite Hr.
  each_status Hk; subst status; try (by destruct Hne); try rewrite (He eq_refl); reflexivity.
Qed.

(** Replaying the events compaction writes for a record rebuilds what the file
    knows of it. *)
Lemma replay_record now r l :
  record_ok (ID r) r → id_below (nextID l) (ID r) → records l !! ID r = None → now ≠ 0%Z →
  replay_events l (with_ts now <$> compact_events now r) =
  mkLedger (nextID l) (path l) (<[ID r := persisted r]> (records l)) (order l ++ [ID r]) (metrics l) (file l).
Proof.
  intros Hok Hb Hnone Hnow. assert (terminalTime now r = if IsZero (FinishedAt r) then StartedAt r else FinishedAt r) as Htt.
  { unfold terminalTime, IsZero. destruct (FinishedAt r =? _)%Z; [| done]. cbn. pose proof (ro_started _ _ Hok).
    by rewrite (proj2 (Z.eqb_neq _ _)). }
  assert (terminalTime now r ≠ 0%Z) as Hts.
  { rewrite Htt. unfold IsZero. destruct (FinishedAt r =? _)%Z eqn:E; [apply Hok | by apply Z.eqb_neq]. }
  assert (terminal (Status r) = true → terminalTime now r = FinishedAt r) as Hfin.
  { intros H%(ro_finished _ _ Hok). rewrite Htt. unfold IsZero. by rewrite (proj2 (Z.eqb_neq _ _)). }
  assert (∀ e, TS e ≠ 0%Z → with_ts now e = e) as Hwt.
  { intros e He. unfold with_ts, IsZero. by rewrite (proj2 (Z.eqb_neq _ _)). }
  rewrite compact_events_status by done. rewrite fmap_cons, Hwt by apply Hok. unfold replay_events. cbn [foldl].
  set (l1 := applyReplayEvent l _).
  assert (l1 = mkLedger (nextID l) (path l) (<[ID r := with_status InvocationStatusInFlight (Some zero_time) "" r]> (records l))
      (order l ++ [ID r]) (metrics l) (file l)) as ->.
  { unfold l1, applyReplayEvent. cbn [Type_ startedEventFromRecord e_ID]. rewrite (bump_below _ _ Hb), Hnone. reflexivity. }
  case_bool_decide as Hs; cbn [fmap list_fmap foldl].
  - do 2 f_equal. unfold persisted, with_status. rewrite Hs. cbn. by rewrite (ro_error _ _ Hok) by (by rewrite Hs).
  - rewrite Hwt by done. rewrite (replay_status_event _ _ _ _ _ (with_status InvocationStatusInFlight (Some zero_time) "" r));
      [| apply Hok | done | apply Hok | apply lookup_insert_eq].
    cbn [nextID path records order metrics file]. rewrite (bump_below _ _ Hb), insert_insert_eq. do 2 f_equal.
    unfold persisted, with_status. cbn. destruct (terminal (Status r)) eqn:Ht; cbn; [| done].
    rewrite Hfin by done. by destruct r.
Qed.

Lemma replay_app l es es' : replay_events l (es ++ es') = replay_events (replay_events l es) es'.
Proof. unfold replay_events. by rewrite foldl_app. Qed.

Lemma replay_records now rs l :
  now ≠ 0%Z → NoDup (ID <$> rs) →
  (∀ r, r ∈ rs → record_ok (ID r) r ∧ id_below (nextID l) (ID r) ∧ records l !! ID r = None) →
  replay_events l (with_ts now <$> mjoin (compact_events now <$> rs)) =
  mkLedger (nextID l) (path l) (build_records (records l) (persisted <$> rs)) (order l ++ (ID <$> rs)) (metrics l) (file l).
Proof.
  intros Hnow. revert l. induction rs as [| r rs IH]; intros l Hnd Hrs.
  - cbn. rewrite app_nil_r. by destruct l.
  - cbn [fmap list_fmap] in Hnd. apply NoDup_cons in Hnd as [Hni Hnd].
    destruct (Hrs r ltac:(by left)) as (Hok & Hb & Hnone).
    change (mjoin (compact_events now <$> r :: rs)) with (compact_events now r ++ mjoin (compact_events now <$> rs)).
    rewrite fmap_app, replay_app, (replay_record now r l) by done.
    rewrite IH; [| done |].
    + cbn [nextID path records order metrics file]. unfold build_records. rewrite !fmap_cons. cbn [foldl].
      rewrite <- app_assoc. cbn [app]. f_equal. f_equal. f_equal.
      unfold persisted at 1. by destruct (terminal (Status r)).
    + cbn [nextID records]. intros r' Hr'. destruct (Hrs r' ltac:(by right)) as (? & ? & ?). split_and!; [done | done |].
      rewrite lookup_insert_ne; [done |]. intros E. apply Hni. rewrite E. by apply list_elem_of_fmap_2.
Qed.

Lemma persisted_ID r : ID (persisted r) = ID r.
Proof. unfold persisted. by destruct (terminal _). Qed.

Lemma persisted_Status r : Status (persisted r) = Status r.
Proof. unfold persisted. by destruct (terminal _). Qed.

Lemma persisted_idemp r : persisted (persisted r) = persisted r.
Proof. unfold persisted at 1. rewrite persisted_Status. unfold persisted. by destruct (terminal _). Qed.

Lemma build_persisted m rs : build_records (persisted <$> m) (persisted <$> rs) = persisted <$> build_records m rs.
Proof.
  unfold build_records. revert m. induction rs as [| r rs IH]; intros m; [done |]. cbn.
  by rewrite persisted_ID, <- fmap_insert, IH.
Qed.

(** The file compaction writes is that of the compacted ledger. *)
Lemma file_agrees_compact now l : wf l → now ≠ 0%Z → file_agrees (compactForRetentionLocked now l).
Proof.
  intros Hwf Hnow. destruct (compact_fields now l) as (E1 & E2 & E3 & E4 & _). unfold file_agrees, agrees.
  rewrite E1, E2, E3, E4.
  change (file (compactForRetentionLocked now l)) with
    (with_ts now <$> (checkpoint now (nextID l) :: mjoin (compact_events now <$> retained now l))).
  rewrite fmap_cons. unfold replay_events at 1 2 3. cbn [foldl]. fold (replay_events).
  assert (applyReplayEvent (empty_ledger (path l)) (with_ts now (checkpoint now (nextID l))) =
    mkLedger (nextID l) (path l) ∅ [] None []) as ->.
  { unfold with_ts, IsZero. cbn [TS checkpoint]. rewrite (proj2 (Z.eqb_neq _ _)) by done.
    unfold applyReplayEvent. cbn -[Z.ltb]. destruct (0 <? nextID l)%Z eqn:E; bool_to_prop; [done |].
    pose proof (wf_next l Hwf). by replace (nextID l) with 0%Z by lia. }
  set (l0 := mkLedger _ _ _ _ _ _).
  assert (foldl applyReplayEvent l0 (with_ts now <$> mjoin (compact_events now <$> retained now l)) =
    mkLedger (nextID l) (path l) (build_records ∅ (persisted <$> retained now l)) (ID <$> retained now l) None []) as ->.
  { apply (replay_records now (retained now l) l0); [done | by apply retained_nodup |].
    intros r Hr. destruct (retained_ok now l r Hwf Hr) as (? & ? & ?). split_and!; [done | done |]. apply lookup_empty. }
  cbn [nextID order records]. split_and!; [done | done |]. intros id.
  replace (∅ : gmap string InvocationRecord) with (persisted <$> (∅ : gmap string InvocationRecord)) at 1 by apply fmap_empty.
  rewrite build_persisted, lookup_fmap. destruct (build_records ∅ _ !! id); [| done]. cbn. by rewrite persisted_idemp.
Qed.

(** ** The ledger across restarts *)

Lemma persisted_retain now r :
  record_ok (ID r) r → retainInvocationRecord now (persisted r) = retainInvocationRecord now r.
Proof.
  intros Hok. unfold retainInvocationRecord. rewrite persisted_Status. pose proof (ro_started _ _ Hok) as Hs.
  case_bool_decide as E.
  - unfold persisted. by rewrite E.
  - assert (StartedAt (persisted r) = StartedAt r) as -> by (unfold persisted; by destruct (terminal _)).
    unfold IsZero. by rewrite (proj2 (Z.eqb_neq _ _)).
Qed.

Lemma record_ok_persisted r r' :
  record_ok (ID r) r → persisted r' = persisted r → record_ok (ID r) r'.
Proof.
  intros [H1 H2 H3 H4 H5] Hp. destruct (persisted_fields _ _ Hp) as (F1 & _ & _ & _ & _ & _ & _ & _ & F9 & F10 & F11).
  split; rewrite ?F9, ?F10, ?F11; try done. intros Ht. unfold persisted in Hp. rewrite F9, Ht in Hp. subst r'. by apply H4.
Qed.

(** A ledger that agrees with a well-formed one is well formed and has its
    snapshot, up to what the file knows. *)
Lemma agrees_wf l l' : wf l → agrees l l' → wf l'.
Proof.
  intros Hwf (A1 & A2 & A3). split; rewrite ?A1, ?A2.
  - apply Hwf.
  - apply Hwf.
  - intros id. rewrite (wf_dom l Hwf). specialize (A3 id).
    destruct (records l !! id), (records l' !! id); try discriminate A3; [by split; eauto | tauto].
  - intros id r' Hr'. specialize (A3 id). rewrite Hr' in A3. destruct (records l !! id) as [r |] eqn:Hr; [| done].
    injection A3 as A3. pose proof (wf_records l Hwf id r Hr) as Hok. destruct Hok as [<- H2 H3 H4 H5].
    by apply record_ok_persisted.
  - apply Hwf.
Qed.

Lemma agrees_snapshot l l' : agrees l l' → persisted <$> Snapshot l' = persisted <$> Snapshot l.
Proof.
  intros (_ & A2 & A3). unfold Snapshot. rewrite A2. clear A2. induction (order l) as [| id ids IH]; [done |]. cbn.
  specialize (A3 id). destruct (records l !! id) as [r |], (records l' !! id) as [r' |]; try discriminate A3; [| apply IH].
  injection A3 as A3. cbn. by rewrite A3, IH.
Qed.

Lemma agrees_retained now l l' :
  wf l → agrees l l' → persisted <$> retained now l' = persisted <$> retained now l.
Proof.
  intros Hwf Ha. pose proof (agrees_wf l l' Hwf Ha) as Hwf'. pose proof (agrees_snapshot l l' Ha) as Hs. unfold retained.
  assert (∀ l, wf l → persisted <$> filter (λ r, retainInvocationRecord now r) (Snapshot l) =
    filter (λ r, retainInvocationRecord now r) (persisted <$> Snapshot l)) as H.
  { clear. intros l Hwf. rewrite list_filter_fmap. f_equal. apply list_filter_ext. intros r Hr.
    apply (snapshot_elem l r Hwf), (wf_records l Hwf) in Hr. by rewrite persisted_retain. }
  by rewrite !H, Hs.
Qed.

(** The retention policy: finished invocations by their end, the others by
    their start. *)
Definition kept (now : time) (r : InvocationRecord) : bool :=
  if bool_decide (Status r = InvocationStatusCompleted) then (now - completedInvocationRetention <=? FinishedAt r)%Z
  else (now - incompleteInvocationRetention <=? StartedAt r)%Z.

Lemma retain_kept now r : record_ok (ID r) r → retainInvocationRecord now r = kept now r.
Proof.
  intros Hok. unfold retainInvocationRecord, kept, Before, Add. pose proof (ro_started _ _ Hok) as Hs.
  case_bool_decide as E.
  - unfold terminalTime, IsZero. rewrite (proj2 (Z.eqb_neq (FinishedAt r) _)) by (apply Hok; by rewrite E). cbn [negb].
    rewrite Z.leb_antisym. f_equal.
  - unfold IsZero. rewrite (proj2 (Z.eqb_neq (StartedAt r) _)) by done. rewrite Z.leb_antisym. f_equal.
Qed.

Lemma retained_kept now l : wf l → retained now l = filter (λ r, kept now r) (Snapshot l).
Proof.
  intros Hwf. unfold retained. apply list_filter_ext. intros r Hr.
  apply (snapshot_elem l r Hwf), (wf_records l Hwf) in Hr. by rewrite retain_kept.
Qed.

Section lives.
Context (Encode : invocationLedgerEvent → string) (Decode : string → option invocationLedgerEvent).
Context (representable : invocationLedgerEvent → Prop).
(** The JSON codec reads back, from its line, every event it represents. *)
Hypothesis codec : ∀ e, representable e → nonempty (TrimSpace (Encode e)) = true ∧ Decode (TrimSpace (Encode e)) = Some e.

(** The line of an event fits the buffer of the scanner. *)
Definition fits (e : invocationLedgerEvent) : Prop := (Z.of_nat (blen (Encode e)) < max_line)%Z.
#[export] Instance fits_dec e : Decision (fits e) := decide (Z.of_nat (blen (Encode e)) < max_line)%Z.

(** A life of the ledger: operations, and restarts of the process, which read
    the file again and go on with a ledger in memory when they cannot. *)
Inductive sys_op := Do (o : op) | Restart (now : time).

Definition sys_time (o : sys_op) : time := match o with Do o => op_time o | Restart t => t end.

Definition reopen (now : time) (l : InvocationLedger) : option InvocationLedger :=
  NewInvocationLedgerFromFile Decode now (path l) (Some (Encode <$> file l)).

Definition sys_apply (l : InvocationLedger) (o : sys_op) : InvocationLedger :=
  match o with Do o => apply l o | Restart now => open_ledger Decode now (path l) (Some (Encode <$> file l)) end.

Definition sys_run (ops : list sys_op) (l : InvocationLedger) : InvocationLedger := foldl sys_apply l ops.

(** The codec represents every event the run writes, on a line that can be read. *)
Fixpoint codable (ops : list sys_op) (l : InvocationLedger) : Prop :=
  Forall (λ e, representable e ∧ fits e) (file l) ∧ match ops with [] => True | o :: ops => codable ops (sys_apply l o) end.

Lemma replay_lines es l :
  Forall (λ e, representable e ∧ fits e) es → replay Decode (Encode <$> es) l = (replay_events l es, false).
Proof using codec.
  intros Hes. revert l. induction Hes as [| e es [He Hf] _ IH]; intros l; [done |]. rewrite fmap_cons. cbn [replay].
  unfold fits in Hf. rewrite (proj2 (Z.leb_gt _ _)) by done. destruct (codec e He) as [-> ->]. apply IH.
Qed.

(** A line that is too long ends the file's life: the ledger cannot be opened any
    more, whatever else it holds, and the scheduler goes on without a file and
    without the history. *)
Lemma long_event_loses_ledger now p before e after :
  nonempty p = true → (max_line ≤ Z.of_nat (blen (Encode e)))%Z →
  NewInvocationLedgerFromFile Decode now p (Some (Encode <$> before ++ e :: after)) = None ∧
  open_ledger Decode now p (Some (Encode <$> before ++ e :: after)) = NewInvocationLedger.
Proof using Type.
  intros Hp Hl. assert (∀ l, snd (replay Decode (Encode <$> before ++ e :: after) l) = true) as Hr.
  { induction before as [| x before IH]; intros l; cbn [app]; rewrite fmap_cons; cbn [replay];
      [by rewrite (proj2 (Z.leb_le _ _)) | by destruct (_ <=? _)%Z]. }
  assert (NewInvocationLedgerFromFile Decode now p (Some (Encode <$> before ++ e :: after)) = None) as E.
  { unfold NewInvocationLedgerFromFile. rewrite Hp. cbn [negb]. specialize (Hr (mkLedger 0 p ∅ [] None [])).
    destruct (replay _ _ _) as [l b]. cbn in Hr. by subst b. }
  split; [done |]. unfold open_ledger. by rewrite Hp, E.
Qed.

Definition sound (l : InvocationLedger) : Prop := nonempty (path l) = true ∧ wf l ∧ file_agrees l.

Lemma replay_file_path es l : path (replay_events l es) = path l.
Proof using Type.
  revert l. unfold replay_events. induction es as [| e es IH]; intros l; [done |]. cbn [foldl]. rewrite IH.
  unfold applyReplayEvent. cases; done.
Qed.

Lemma reopen_spec now l :
  sound l → Forall (λ e, representable e ∧ fits e) (file l) → now ≠ 0%Z →
  ∃ l', reopen now l = Some l' ∧ sound l' ∧ nextID l' = nextID l ∧
    persisted <$> Snapshot l' = persisted <$> filter (λ r, kept now r) (Snapshot l).
Proof using codec.
  intros (Hp & Hwf & Ha) Hr Hnow. unfold reopen, NewInvocationLedgerFromFile. rewrite Hp. cbn [negb].
  rewrite replay_lines by done. fold (empty_ledger (path l)). set (l1 := replay_events _ _).
  assert (path l1 = path l) as Hp1 by (unfold l1; by rewrite replay_file_path). unfold CompactForRetention. rewrite Hp1, Hp. cbn [negb].
  pose proof (agrees_wf l l1 Hwf Ha) as Hwf1. eexists. split; [done |]. split_and!.
  - split_and!; [by change (nonempty (path l1) = true); rewrite Hp1 | by apply wf_compact | by apply file_agrees_compact].
  - apply Ha.
  - rewrite snapshot_compact by done. rewrite (agrees_retained now l l1 Hwf Ha). by rewrite retained_kept.
Qed.

Lemma sound_apply l o :
  sound l → op_time o ≠ 0%Z → (nextID l < max_uint64)%Z →
  sound (apply l o) ∧ (nextID (apply l o) = nextID l + if o is OpBegin _ _ then 1 else 0)%Z.
Proof using Type.
  intros (Hp & Hwf & Ha) Ht Hn. destruct (update_of o) as [[[[[id status] result] msg] fin] |] eqn:Hu.
  - pose proof (ledger_wf_update o l Hwf Ht (mk_is_Some _ _ Hu)) as Hwf'.
    destruct (apply_update o l id status result msg fin Hu) as (E & Hfin & Hk & Hm). rewrite E in *.
    assert (status ≠ InvocationStatusInFlight) as Hne.
    { destruct o; cbn in Hu; try done; by injection Hu as <- <- <- <- <-. }
    pose proof (agrees_update (op_time o) id status result msg fin l _ Hwf Ht Hk Hfin Hm Hne Ha) as Hagr.
    destruct (records l !! id) as [r |] eqn:Hr; [| rewrite update_None in * by done; split; [by split_and! |]].
    2: { destruct o; try done; lia. }
    destruct (update_spec (op_time o) id status result msg fin l r Hr) as (_ & _ & E3 & E4 & E5 & _).
    rewrite append_file in E5 by done. split; [| rewrite E3; destruct o; try done; lia].
    split_and!; [by rewrite E4 | done |]. unfold file_agrees. rewrite E4, E5, replay_snoc. apply Hagr.
  - destruct o; try done; cbn [apply op_time] in *.
    + pose proof (wf_begin now meta l Hwf Hn Ht) as Hwf'. pose proof (agrees_begin now meta l _ Hwf Hn Ht Ha) as Hagr.
      pose proof (wf_next l Hwf). pose proof (begin_spec now meta l ltac:(lia)) as Hs.
      destruct (Begin now meta l) as [l' rec]. cbn [fst] in *.
      destruct Hs as (S1 & _ & _ & S4 & _ & _ & _ & _ & _ & _ & _ & S8 & S9 & _). split; [| lia].
      split_and!; [by rewrite S8 | done |]. unfold file_agrees. rewrite append_file in S9; [| done | cbn; by rewrite S4].
      by rewrite S8, S9, replay_snoc.
    + unfold CompactForRetention. rewrite Hp. cbn [negb]. split; [| cbn; lia].
      split_and!; [done | by apply wf_compact | by apply file_agrees_compact].
Qed.

Lemma sound_sys_apply l o :
  sound l → sys_time o ≠ 0%Z → (nextID l < max_uint64)%Z → Forall (λ e, representable e ∧ fits e) (file l) →
  sound (sys_apply l o) ∧ (nextID (sys_apply l o) = nextID l + if o is Do (OpBegin _ _) then 1 else 0)%Z.
Proof using codec.
  intros Hs Ht Hn Hr. destruct o as [o | now]; cbn [sys_apply sys_time] in *.
  - by apply sound_apply.
  - destruct (reopen_spec now l Hs Hr Ht) as (l' & E & ? & ? & _). unfold open_ledger. unfold reopen in E.
    destruct Hs as [-> _]. rewrite E. change (default NewInvocationLedger (Some l')) with l'. split; [done | lia].
Qed.

Lemma sound_run ops l :
  sound l → (nextID l + Z.of_nat (length ops) < max_uint64)%Z → Forall (λ o, sys_time o ≠ 0%Z) ops → codable ops l →
  sound (sys_run ops l) ∧ Forall (λ e, representable e ∧ fits e) (file (sys_run ops l)).
Proof using codec.
  revert l. induction ops as [| o ops IH]; intros l Hs Hn Ht [Hr Hc]; [done |]. cbn [length] in Hn.
  apply Forall_cons in Ht as [Ht Hts]. destruct (sound_sys_apply l o Hs Ht ltac:(lia) Hr) as [Hs' Hn'].
  apply (IH (sys_apply l o)); try done. rewrite Hn'. destruct o as [[] |]; lia.
Qed.

Lemma sound_empty p : nonempty p = true → sound (empty_ledger p).
Proof using Type.
  intros Hp. split_and!; [done | | by split_and!]. split; cbn.
  - lia.
  - constructor.
  - intros id. rewrite lookup_empty, elem_of_nil. split; [done | by intros [? ?]].
  - intros id r. by rewrite lookup_empty.
  - by intros id ?%not_elem_of_nil.
Qed.

Lemma open_missing now p : nonempty p = true → open_ledger Decode now p None = empty_ledger p.
Proof using Type. intros Hp. unfold open_ledger, NewInvocationLedgerFromFile. by rewrite Hp. Qed.

(** (C6) The file determines the ledger. After any life - invocations,
    updates, compactions and restarts, on a ledger whose file did not exist - the
    file can be opened again, and gives exactly the invocations of the ledger that
    the retention policy keeps (completed ones for seven days after their end, the
    others for thirty days after their start), in order, with every field and
    status; only the finishing time of an invocation whose recovery is under way
    is not in the file. The id counter is kept. Hypotheses: the codec reads back
    the events written and each is on a line shorter than 10 MiB (one that is
    longer makes the file unreadable for good: lemma [long_event_loses_ledger]);
    appends and compactions reach the disk; clocks are not zero; the counter does
    not overflow. *)
Theorem ledger_reload p ops t0 now :
  nonempty p = true → now ≠ 0%Z → Forall (λ o, sys_time o ≠ 0%Z) ops → (Z.of_nat (length ops) < max_uint64)%Z →
  let l0 := open_ledger Decode t0 p None in
  codable ops l0 →
  let l := sys_run ops l0 in
  ∃ l', NewInvocationLedgerFromFile Decode now (path l) (Some (Encode <$> file l)) = Some l' ∧
    persisted <$> Snapshot l' = persisted <$> filter (λ r, kept now r) (Snapshot l) ∧ nextID l' = nextID l.
Proof using codec.
  intros Hp Hnow Ht Hlen. rewrite open_missing by done. cbv zeta. intros Hc. destruct (sound_run ops (empty_ledger p)) as [Hs Hr]; [by apply sound_empty | done | done | done |].
  destruct (reopen_spec now _ Hs Hr Hnow) as (l' & E & _ & ? & ?). by exists l'.
Qed.

(** The ids handed out along a life. *)
Fixpoint begun (ops : list sys_op) (l : InvocationLedger) : list string :=
  match ops with
  | [] => []
  | o :: ops =>
      (match o with Do (OpBegin now meta) => [ID (snd (Begin now meta l))] | _ => [] end) ++ begun ops (sys_apply l o)
  end.

Lemma begun_above ops l id :
  sound l → (nextID l + Z.of_nat (length ops) < max_uint64)%Z → Forall (λ o, sys_time o ≠ 0%Z) ops → codable ops l →
  id ∈ begun ops l → ∃ k, id = invocation_id k ∧ (nextID l < k < max_uint64)%Z.
Proof using codec.
  revert l. induction ops as [| o ops IH]; intros l Hs Hn Ht [Hr Hc] Hin; [by apply not_elem_of_nil in Hin |].
  cbn [length] in Hn. apply Forall_cons in Ht as [Ht Hts].
  destruct (sound_sys_apply l o Hs Ht ltac:(lia) Hr) as [Hs' Hn'].
  apply elem_of_app in Hin as [Hin | Hin].
  - destruct o as [[now meta | | | | | | |] |]; try by apply not_elem_of_nil in Hin.
    apply list_elem_of_singleton in Hin as ->. destruct Hs as (_ & Hwf & _). pose proof (wf_next l Hwf).
    pose proof (begin_spec now meta l ltac:(lia)) as Hb. destruct (Begin now meta l) as [l' rec].
    destruct Hb as (_ & S2 & _). exists (nextID l + 1)%Z. cbn [snd]. rewrite S2. split; [done | lia].
  - destruct (IH (sys_apply l o)) as (k & -> & Hk); try done; [destruct o as [[] |]; lia |].
    exists k. split; [done |]. destruct o as [[] |]; lia.
Qed.

(** An invocation id is never used twice: along any life, across
    compactions that drop old records and restarts that re-read the file, the
    ids handed out are pairwise different. Same hypotheses as the previous theorem. *)
Lemma ids_never_reused p ops t0 :
  nonempty p = true → Forall (λ o, sys_time o ≠ 0%Z) ops → (Z.of_nat (length ops) < max_uint64)%Z →
  codable ops (open_ledger Decode t0 p None) →
  NoDup (begun ops (open_ledger Decode t0 p None)).
Proof using codec.
  intros Hp Ht Hlen. rewrite open_missing by done.
  pose proof (sound_empty p Hp) as Hs. assert (nextID (empty_ledger p) + Z.of_nat (length ops) < max_uint64)%Z as Hn by done.
  revert Hs Hn. clear Hlen. generalize (empty_ledger p). induction ops as [| o ops IH]; intros l Hs Hn Hc; [constructor |].
  destruct Hc as [Hr Hc]. cbn [length] in Hn. apply Forall_cons in Ht as [Ht Hts].
  destruct (sound_sys_apply l o Hs Ht ltac:(lia) Hr) as [Hs' Hn'].
  assert (nextID (sys_apply l o) + Z.of_nat (length ops) < max_uint64)%Z as Hn'' by (destruct o as [[] |]; lia).
  cbn [begun]. apply NoDup_app. split_and!; [| | by apply IH].
  - destruct o as [[] |]; first [apply NoDup_singleton | constructor].
  - intros id Hid Hin. destruct (begun_above ops _ id Hs' Hn'' Hts Hc Hin) as (k & -> & Hk).
    destruct o as [[now meta | | | | | | |] |]; try by apply not_elem_of_nil in Hid.
    apply list_elem_of_singleton in Hid. destruct Hs as (_ & Hwf & _). pose proof (wf_next l Hwf).
    pose proof (begin_spec now meta l ltac:(lia)) as Hb. destruct (Begin now meta l) as [l' rec].
    destruct Hb as (_ & S2 & _). cbn [snd] in Hid. rewrite S2 in Hid.
    assert (Some k = Some (nextID l + 1)%Z) as [= ->]; [| lia].
    rewrite <- (invocation_id_parse k), <- (invocation_id_parse (nextID l + 1)) by lia. by rewrite Hid.
Qed.
End lives.

(** ** The in-flight gauge *)

Lemma wf_apply l o : wf l → op_time o ≠ 0%Z → (nextID l < max_uint64)%Z → wf (apply l o).
Proof.
  intros Hwf Ht Hn. destruct (update_of o) eqn:Hu; [apply ledger_wf_update; [done | done | by rewrite Hu] |].
  destruct o; try done; cbn [apply op_time] in *.
  - by apply wf_begin.
  - unfold CompactForRetention. destruct (negb _); [done | by apply wf_compact].
Qed.

Lemma nextID_apply l o :
  wf l → (nextID l < max_uint64)%Z → (nextID (apply l o) = nextID l + if o is OpBegin _ _ then 1 else 0)%Z.
Proof.
  intros Hwf Hn. destruct (update_of o) as [[[[[id status] result] msg] fin] |] eqn:Hu.
  - destruct (apply_update o l id status result msg fin Hu) as [-> _].
    assert (nextID (updateStatus (op_time o) id status result msg fin l) = nextID l) as ->; [| destruct o; try done; lia].
    destruct (records l !! id) as [r |] eqn:Hr; [| by rewrite update_None].
    by destruct (update_spec (op_time o) id status result msg fin l r Hr) as (_ & _ & -> & _).
  - destruct o; try done; cbn [apply].
    + pose proof (wf_next l Hwf). pose proof (begin_spec now meta l ltac:(lia)) as Hs.
      destruct (Begin now meta l) as [l' rec]. cbn [fst]. by destruct Hs as (-> & _).
    + unfold CompactForRetention. destruct (negb _); cbn; lia.
Qed.

(** An invocation of the agent and source that is in flight or queued. *)
Definition live_of (agent source : string) (r : InvocationRecord) : bool :=
  is_live (Status r) && bool_decide (AgentName r = agent) && bool_decide (Source r = source).

Definition live_count (agent source : string) (l : InvocationLedger) : Z :=
  Z.of_nat (length (filter (λ r, live_of agent source r) (Snapshot l))).

Definition gauge (agent source : string) (l : InvocationLedger) : Z :=
  default 0%Z (metrics l ≫= λ m, inflight m !! (agent, source)).

(** Recovery is of an invocation that is no longer live, queueing of one that
    is, and a compaction drops no live invocation. *)
Definition orderly (l : InvocationLedger) (o : op) : bool :=
  match o with
  | OpQueued _ id => if records l !! id is Some r then is_live (Status r) else true
  | OpRecovering _ id => if records l !! id is Some r then negb (is_live (Status r)) else true
  | OpCompact now => forallb (λ r, negb (is_live (Status r)) || kept now r) (Snapshot l)
  | _ => true
  end.

Fixpoint orderly_run (ops : list op) (l : InvocationLedger) : bool :=
  match ops with [] => true | o :: ops => orderly l o && orderly_run ops (apply l o) end.

Definition count_in (P : InvocationRecord → bool) (ids : list string) (m : gmap string InvocationRecord) : Z :=
  Z.of_nat (length (filter (λ r, P r) (omap (λ id, m !! id) ids))).

Lemma count_in_cons P id ids m :
  count_in P (id :: ids) m = ((if m !! id is Some r then Z.b2z (P r) else 0) + count_in P ids m)%Z.
Proof.
  unfold count_in. cbn [omap list_omap]. destruct (m !! id) as [r |]; [| done]. rewrite filter_cons.
  destruct (P r); case_decide; try done; cbn -[Z.of_nat Z.add]; lia.
Qed.

Lemma count_in_notin P ids m id r : id ∉ ids → count_in P ids (<[id := r]> m) = count_in P ids m.
Proof.
  induction ids as [| id' ids IH]; intros Hni; [done |]. apply not_elem_of_cons in Hni as [Hne Hni].
  rewrite !count_in_cons, IH by done. by rewrite lookup_insert_ne.
Qed.

Lemma count_in_insert P ids m id r r' :
  NoDup ids → id ∈ ids → m !! id = Some r →
  (count_in P ids (<[id := r']> m) = count_in P ids m + Z.b2z (P r') - Z.b2z (P r))%Z.
Proof.
  induction ids as [| id' ids IH]; intros Hnd Hin Hr; [by apply not_elem_of_nil in Hin |].
  apply NoDup_cons in Hnd as [Hni Hnd]. rewrite !count_in_cons. apply elem_of_cons in Hin as [<- | Hin].
  - rewrite lookup_insert_eq, Hr, count_in_notin by done. lia.
  - rewrite lookup_insert_ne by (intros ->; done). rewrite IH by done. lia.
Qed.

Lemma live_count_in agent source l : live_count agent source l = count_in (live_of agent source) (order l) (records l).
Proof. done. Qed.

Lemma gauge_add agent source agent' source' n (l : InvocationLedger) m :
  metrics l = Some m →
  default 0%Z (add_at (agent', source') n (inflight m) !! (agent, source)) =
  (gauge agent source l + if bool_decide (agent' = agent ∧ source' = source) then n else 0)%Z.
Proof.
  intros Hm. unfold gauge. rewrite Hm. cbn [mbind option_bind]. unfold add_at. case_bool_decide as E.
  - destruct E as [-> ->]. by rewrite lookup_insert_eq.
  - rewrite lookup_insert_ne by (intros [= -> ->]; by destruct E). lia.
Qed.

Lemma count_in_snoc P ids m id r :
  id ∉ ids → (count_in P (ids ++ [id]) (<[id := r]> m) = count_in P ids m + Z.b2z (P r))%Z.
Proof.
  induction ids as [| id' ids IH]; intros Hni; cbn [app].
  - rewrite count_in_cons, lookup_insert_eq. change (count_in P [] _) with 0%Z. lia.
  - apply not_elem_of_cons in Hni as [Hne Hni]. rewrite !count_in_cons, IH by done.
    rewrite lookup_insert_ne by done. lia.
Qed.

Definition tracked (l : InvocationLedger) : Prop := is_Some (metrics l).

(** A step from [l] to [l'] moves the gauge as it moves the count. *)
Definition gauge_follows (agent source : string) (l l' : InvocationLedger) : Prop :=
  tracked l' ∧
  (gauge agent source l' - gauge agent source l = live_count agent source l' - live_count agent source l)%Z.

Lemma gauge_update agent source now id status result msg fin l r m :
  wf l → metrics l = Some m → records l !! id = Some r →
  (is_live status = true → fin = false ∧ is_live (Status r) = true) →
  (is_live status = false → fin = true ∨ is_live (Status r) = false) →
  gauge_follows agent source l (updateStatus now id status result msg fin l).
Proof.
  intros Hwf Hm Hr Hque Hrec. destruct (update_spec now id status result msg fin l r Hr) as (E1 & E2 & _ & _ & _ & E6).
  unfold gauge_follows, tracked. rewrite !live_count_in, E1, E2.
  rewrite (count_in_insert _ _ _ _ r (updated now status msg fin r) (wf_order l Hwf)
    (proj2 (wf_dom l Hwf id) (mk_is_Some _ _ Hr)) Hr).
  unfold live_of. cbn [updated Status AgentName Source]. destruct (fin && is_live (Status r))%bool eqn:Hsettle.
  - apply andb_true_iff in Hsettle as [-> Hlive]. rewrite Hm in E6. unfold gauge at 1. rewrite E6, Hlive.
    cbn [settle fmap option_fmap option_map mbind option_bind inflight]. rewrite (gauge_add _ _ _ _ _ l) by done.
    destruct (is_live status) eqn:Hs; [by destruct (Hque eq_refl) |]. split; [by eexists |]. cbn [andb].
    repeat case_bool_decide; cbn; try lia; naive_solver.
  - unfold gauge. rewrite E6. split; [by exists m |]. destruct (is_live status) eqn:Hs.
    + destruct (Hque eq_refl) as [_ ->]. lia.
    + destruct (Hrec eq_refl) as [-> | ->]; [| cbn; lia]. cbn in Hsettle. rewrite Hsettle. cbn. lia.
Qed.

Lemma gauge_begin agent source now meta l m :
  wf l → metrics l = Some m → (nextID l < max_uint64)%Z → gauge_follows agent source l (fst (Begin now meta l)).
Proof.
  intros Hwf Hm Hn. pose proof (wf_next l Hwf). pose proof (begin_spec now meta l ltac:(lia)) as Hs.
  pose proof (invocation_id_fresh l (nextID l + 1) Hwf ltac:(lia)) as Hfresh.
  destruct (Begin now meta l) as [l' rec]. cbn [fst].
  destruct Hs as (_ & S2 & S3 & _ & _ & _ & _ & _ & _ & S7 & S8 & _ & _ & S10). rewrite <- S2 in Hfresh. rewrite Hm in S10.
  unfold gauge_follows, tracked. rewrite !live_count_in, S7, S8, count_in_snoc by done. unfold gauge at 1. rewrite S10.
  cbn [begin fmap option_fmap option_map mbind option_bind inflight]. rewrite (gauge_add _ _ _ _ _ l) by done.
  split; [by eexists |]. unfold live_of. rewrite S3.
  change (is_live InvocationStatusInFlight) with true. cbn [andb].
  repeat case_bool_decide; cbn; try lia; naive_solver.
Qed.

Lemma gauge_compact agent source now l :
  wf l → tracked l → orderly l (OpCompact now) = true → gauge_follows agent source l (CompactForRetention now l).
Proof.
  intros Hwf Htr Ho. unfold CompactForRetention. destruct (negb _); [split; [done | lia] |].
  destruct (compact_fields now l) as (_ & _ & _ & _ & Em). unfold gauge_follows, tracked, gauge, live_count. rewrite Em.
  rewrite snapshot_compact, retained_kept, list_filter_filter by done.
  rewrite (list_filter_ext _ (λ r, live_of agent source r)); [split; [done | lia] |].
  intros r Hin. cbn [orderly] in Ho. rewrite forallb_forall in Ho. apply list_elem_of_In, Ho in Hin.
  unfold live_of. destruct (is_live (Status r)); cbn in *; [rewrite Hin; cbn; tauto | tauto].
Qed.

Lemma gauge_step agent source l o :
  wf l → tracked l → (nextID l < max_uint64)%Z → orderly l o = true → gauge_follows agent source l (apply l o).
Proof.
  intros Hwf [m Hm] Hn Ho. destruct (update_of o) as [[[[[id status] result] msg] fin] |] eqn:Hu.
  - destruct (apply_update o l id status result msg fin Hu) as [-> _].
    destruct (records l !! id) as [r |] eqn:Hr; [| rewrite update_None by done; split; [by exists m | lia]].
    apply (gauge_update _ _ _ _ _ _ _ _ _ r m); try done;
      (destruct o; cbn in Hu, Ho; try done; injection Hu as <- <- <- <- <-; try rewrite Hr in Ho; intros [=]);
      try (by left); try done. right. by apply negb_true_iff.
  - destruct o; try done; cbn [apply].
    + by apply (gauge_begin _ _ _ _ _ m).
    + apply gauge_compact; [done | by exists m | done].
Qed.

Definition run (ops : list op) (l : InvocationLedger) : InvocationLedger := foldl apply l ops.

(** The gauge of requests in flight is true: from any ledger with a metrics
    sink, along operations that recover only settled invocations and queue only
    live ones, the gauge of every agent and source moves exactly as the number of
    its invocations that are in flight or queued; so a gauge that starts at zero
    with no live invocation always equals that number, and returns to zero. *)
Lemma gauge_counts_live ops l agent source :
  wf l → tracked l → (nextID l + Z.of_nat (length ops) < max_uint64)%Z → Forall (λ o, op_time o ≠ 0%Z) ops →
  orderly_run ops l = true →
  (gauge agent source (run ops l) - gauge agent source l = live_count agent source (run ops l) - live_count agent source l)%Z.
Proof.
  intros Hwf Htr Hn Ht Ho. assert (∀ g, gauge_follows agent source g l → gauge_follows agent source g (run ops l)) as H.
  { intros g. revert l Hwf Htr Hn Ht Ho. induction ops as [| o ops IH]; intros l Hwf Htr Hn Ht Ho [Hg1 Hg2]; [done |].
    cbn [length orderly_run] in *. apply andb_true_iff in Ho as [Ho Hos]. apply Forall_cons in Ht as [Ht Hts].
    destruct (gauge_step agent source l o Hwf Htr ltac:(lia) Ho) as [Hs1 Hs2].
    apply (IH (apply l o)); try done; [apply wf_apply; [done | done | lia] | | split; [done | lia]].
    rewrite nextID_apply by (try done; lia). destruct o; lia. }
  apply H. split; [done | lia].
Qed.

(** Recovery of an invocation that is still in flight - [RecoverableForAgent]
    offers those too - is never settled: the gauge stays up. *)
Lemma recovering_in_flight_leaks :
  let l := run [OpBegin 1 (mkMeta "a2a_proxy" "agent" "message/send" "ctx" "m1" "hi" "")]
             (SetGatewayMetrics (mkMetrics ∅ ∅) NewInvocationLedger) in
  let l' := run [OpRecovering 2 "inv-1"; OpRecovered 3 "inv-1"] l in
  ID <$> RecoverableForAgent "agent" l = ["inv-1"] ∧ gauge "agent" "a2a_proxy" l' = 1%Z ∧
  live_count "agent" "a2a_proxy" l' = 0%Z.
Proof. by vm_compute. Qed.

(** ** The bounded user text *)

(** The ledger keeps at most a preview of the user's message: a message of
    512 bytes or fewer is kept whole; a longer one is kept as a prefix of at most
    512 bytes that ends where a rune starts, followed by the marker. When the
    text is UTF-8 - at most three continuation bytes in a row - at most three
    bytes of the 512 are given up. *)
Lemma user_text_bounded s :
  blen (boundUserText s) ≤ maxLedgerUserTextBytes + blen truncation_marker ∧
  (blen s ≤ maxLedgerUserTextBytes → boundUserText s = s) ∧
  (maxLedgerUserTextBytes < blen s →
   ∃ n, boundUserText s = byte_take n s +:+ truncation_marker ∧ n ≤ maxLedgerUserTextBytes ∧
        (n = 0 ∨ boundary n s = true) ∧ (runes_short s → maxLedgerUserTextBytes - 3 ≤ n)).
Proof.
  unfold boundUserText. destruct (rune_cut_spec s maxLedgerUserTextBytes) as (H1 & H2 & H3).
  destruct (blen s <=? maxLedgerUserTextBytes) eqn:E; bool_to_prop.
  - split_and!; [lia | done | lia].
  - split_and!; [rewrite blen_app, blen_byte_take; lia | lia |]. intros _.
    exists (rune_cut s maxLedgerUserTextBytes). split_and!; try done. intros Hshort.
    destruct (Hshort maxLedgerUserTextBytes) as (k & Hk & Hk' & Hb).
    destruct (decide (maxLedgerUserTextBytes - 3 ≤ rune_cut s maxLedgerUserTextBytes)) as [| Hlt]; [done |].
    rewrite H3 in Hb; [done |]. lia.
Qed.

(** ** Witnesses

    One invocation completed, the process restarted, a second invocation begun;
    the codec knows the four events of the run. *)
#[export] Instance event_eq_dec : EqDecision invocationLedgerEvent.
Proof. solve_decision. Defined.

Definition sample_meta : InvocationMetadata := mkMeta "chat_gateway" "agent" "chat" "ctx" "m" "hello" "".

Definition sample_started (id : string) (t : time) : invocationLedgerEvent :=
  mkEvent "started" id 0 "chat_gateway" "agent" "chat" "ctx" "m" "hello" "" "" t.

Definition sample_events : list invocationLedgerEvent :=
  [sample_started "inv-1" 1; status_event "completed" "inv-1" "" 2; checkpoint 3 1; sample_started "inv-2" 4].

Definition sample_encode (e : invocationLedgerEvent) : string := Type_ e +:+ e_ID e.

Definition sample_decode (line : string) : option invocationLedgerEvent :=
  snd <$> list_find (λ e, sample_encode e = line) sample_events.

Definition sample_life : list sys_op :=
  [Do (OpBegin 1 sample_meta); Do (OpComplete 2 "inv-1"); Restart 3; Do (OpBegin 4 sample_meta)].

Lemma sample_codec e :
  e ∈ sample_events →
  nonempty (TrimSpace (sample_encode e)) = true ∧ sample_decode (TrimSpace (sample_encode e)) = Some e.
Proof.
  intros He. unfold sample_events in He.
  repeat (apply elem_of_cons in He as [-> | He]; [by vm_compute |]). by apply not_elem_of_nil in He.
Qed.

Lemma sample_codable :
  codable sample_encode sample_decode (λ e, e ∈ sample_events) sample_life
    (open_ledger sample_decode 1 "ledger.jsonl" None).
Proof. cbn [codable sample_life]. split_and!; try done; apply (bool_decide_unpack _); by vm_compute. Qed.

Lemma ledger_reload_witness :
  let l := sys_run sample_encode sample_decode sample_life (open_ledger sample_decode 1 "ledger.jsonl" None) in
  ∃ l', reopen sample_encode sample_decode 5 l = Some l' ∧
    (λ r, (ID r, Status r)) <$> (persisted <$> Snapshot l') = [("inv-1", "completed"); ("inv-2", "in_flight")].
Proof.
  cbv zeta.
  destruct (ledger_reload sample_encode sample_decode (λ e, e ∈ sample_events) sample_codec "ledger.jsonl" sample_life 1 5)
    as (l' & E & H & _); [done | done | by repeat constructor | done | apply sample_codable |].
  exists l'. split; [exact E |]. rewrite H. by vm_compute.
Defined.

Lemma ids_never_reused_witness :
  NoDup (begun sample_encode sample_decode sample_life (open_ledger sample_decode 1 "ledger.jsonl" None)) ∧
  begun sample_encode sample_decode sample_life (open_ledger sample_decode 1 "ledger.jsonl" None) =
    ["inv-1"; "inv-2"].
Proof.
  split; [| by vm_compute].
  apply (ids_never_reused sample_encode sample_decode (λ e, e ∈ sample_events) sample_codec);
    [done | by repeat constructor | done | apply sample_codable].
Defined.

Definition sample_ops : list op :=
  [OpBegin 1 sample_meta; OpQueued 2 "inv-1"; OpBegin 3 sample_meta; OpFail 4 "inv-2" ResultBusy "busy";
   OpRecovering 5 "inv-2"].

Definition sample_ledger : InvocationLedger := SetGatewayMetrics (mkMetrics ∅ ∅) NewInvocationLedger.

Lemma gauge_counts_live_witness :
  (gauge "agent" "chat_gateway" (run sample_ops sample_ledger) = 1)%Z.
Proof.
  enough (gauge "agent" "chat_gateway" (run sample_ops sample_ledger) - gauge "agent" "chat_gateway" sample_ledger = 1)%Z
    as H by exact H.
  rewrite (gauge_counts_live sample_ops sample_ledger "agent" "chat_gateway");
    [by vm_compute | | by eexists | done | by repeat constructor | by vm_compute].
  split; cbn; [done | constructor | | by intros ?? | by intros ? ?%not_elem_of_nil].
  intros id. rewrite lookup_empty, elem_of_nil. split; [done | by intros [? ?]].
Defined.
