(* ===== verification/TurnQueue.v ===== *)
(** * The serial turn executor of a session ([internal/cmagateway/store/store.go])

    [EnqueueTurn] appends a job and starts the drain goroutine unless one is
    running; [drainTurns] takes the jobs one at a time. A job is a number, a
    critical section of [turnMu] is one atomic step, and a job runs between two
    of them, so that goroutines interleave with every other caller. *)
From S2P Require Import Prelude.
From Stdlib Require Import ZArith Lia.

Record executor := mkExecutor { turnQueue : list Z; turnBusy : bool }.

Definition new_executor : executor := mkExecutor [] false.

(** The second result is whether a drain goroutine is started. *)
Definition EnqueueTurn (job : Z) (r : executor) : executor * bool :=
  let q := turnQueue r ++ [job] in
  if turnBusy r then (mkExecutor q true, false) else (mkExecutor q true, true).

(** One pass of the loop of [drainTurns]: the job to run next, or [None] when
    the goroutine returns. *)
Definition drainTurns (r : executor) : executor * option Z :=
  match turnQueue r with
  | [] => (mkExecutor [] false, None)
  | job :: q => (mkExecutor q (turnBusy r), Some job)
  end.

Definition TurnsIdle (r : executor) : bool := negb (turnBusy r) && bool_decide (length (turnQueue r) = 0).

(** ** All callers and drain goroutines together

    [drainers] has one element per drain goroutine: the job it runs, or [None]
    when it is about to lock. [enqueued] and [finished] are the jobs accepted and
    returned so far, in order. *)
Record system := mkSystem {
  exec : executor;
  drainers : list (option Z);
  enqueued : list Z;
  finished : list Z;
}.

Definition initial : system := mkSystem new_executor [] [] [].

(** Steps of the drain goroutines. *)
Inductive work : system → system → Prop :=
| work_stop s l r e :
    drainers s = l ++ None :: r → drainTurns (exec s) = (e, None) →
    work s (mkSystem e (l ++ r) (enqueued s) (finished s))
| work_take s l r e j :
    drainers s = l ++ None :: r → drainTurns (exec s) = (e, Some j) →
    work s (mkSystem e (l ++ Some j :: r) (enqueued s) (finished s))
| work_return s l r j :
    drainers s = l ++ Some j :: r →
    work s (mkSystem (exec s) (l ++ None :: r) (enqueued s) (finished s ++ [j])).

Inductive step : system → system → Prop :=
| step_work s s' : work s s' → step s s'
| step_enqueue s j e started :
    EnqueueTurn j (exec s) = (e, started) →
    step s (mkSystem e (drainers s ++ if started : bool then [None] else []) (enqueued s ++ [j]) (finished s)).

Definition reachable (s : system) : Prop := rtc step initial s.

(** The jobs being run. *)
Definition running (s : system) : list Z := omap id (drainers s).

Record wf (s : system) : Prop := {
  wf_busy : turnBusy (exec s) = true → ∃ d, drainers s = [d];
  wf_idle : turnBusy (exec s) = false → drainers s = [] ∧ turnQueue (exec s) = [];
  wf_fifo : enqueued s = finished s ++ running s ++ turnQueue (exec s);
}.

(** A goroutine exists only while the executor is busy, and it is alone. *)
Lemma only_drainer s l r d : wf s → drainers s = l ++ d :: r → l = [] ∧ r = [] ∧ turnBusy (exec s) = true.
Proof.
  intros Hwf Hd. destruct (turnBusy (exec s)) eqn:Hb.
  - destruct (wf_busy s Hwf Hb) as [d' E]. rewrite Hd in E. destruct l as [| x l]; [by injection E as -> -> |].
    by destruct l.
  - destruct (wf_idle s Hwf Hb) as [E _]. rewrite Hd in E. by destruct l.
Qed.

Lemma queue_wf_work s s' : wf s → work s s' → wf s' ∧ enqueued s' = enqueued s.
Proof.
  intros Hwf Hw. pose proof (wf_fifo s Hwf) as Hf. unfold running in Hf.
  destruct Hw as [s l r e Hd He | s l r e j Hd He | s l r j Hd];
    destruct (only_drainer s l r _ Hwf Hd) as (-> & -> & Hb); rewrite Hd in Hf; cbn in Hf; (split; [| done]);
    try unfold drainTurns in He; try (destruct (turnQueue (exec s)) as [| j' q] eqn:Hq; simplify_eq/=).
  - split; cbn; [done | by intros _ | by rewrite Hf].
  - split; cbn; [intros _; by eexists | by rewrite Hb |]. by rewrite Hf.
  - split; cbn; [intros _; by eexists | by rewrite Hb |]. rewrite Hf, Hq. by rewrite <- app_assoc.
  - split; cbn; [intros _; by eexists | by rewrite Hb |]. rewrite Hf, Hq. by rewrite <- app_assoc.
Qed.

Lemma queue_wf_step s s' : wf s → step s s' → wf s'.
Proof.
  intros Hwf Hs. destruct Hs as [s1 s2 Hw | s1 j e started He]; [by apply (queue_wf_work s1 s2) |].
  pose proof (wf_fifo s1 Hwf) as Hf. unfold running in Hf. unfold EnqueueTurn in He.
  destruct (turnBusy (exec s1)) eqn:Hb; simplify_eq/=.
  - destruct (wf_busy s1 Hwf Hb) as [d Hd]. rewrite Hd in Hf. split; cbn; rewrite ?Hd; [by eexists | done |].
    unfold running. cbn. rewrite ?Hd, Hf. cbn. by rewrite <- !app_assoc.
  - destruct (wf_idle s1 Hwf Hb) as [Hd Hq]. rewrite Hd, Hq in Hf. split; cbn; rewrite ?Hd; [by eexists | done |].
    unfold running. cbn. rewrite ?Hd, Hq, Hf. cbn. by rewrite <- !app_assoc.
Qed.

Lemma queue_reachable_wf s : reachable s → wf s.
Proof.
  intros Hr. eapply (rtc_invariant step wf); [apply queue_wf_step | | exact Hr]. by split.
Qed.

(** (C30) A session's turns run one at a time, in the order in which they were
    enqueued, under every interleaving of the callers with the drain goroutine:
    at most one job runs, the jobs accepted so far are those that have returned,
    followed by the running one and the queue; and when [TurnsIdle] answers true
    every accepted job has returned and no goroutine is left. *)
Theorem turns_serial_fifo s :
  reachable s →
  length (running s) ≤ 1 ∧ enqueued s = finished s ++ running s ++ turnQueue (exec s) ∧
  (TurnsIdle (exec s) = true → finished s = enqueued s ∧ drainers s = []).
Proof.
  intros Hwf%queue_reachable_wf. split_and!.
  - unfold running. destruct (turnBusy (exec s)) eqn:Hb.
    + destruct (wf_busy s Hwf Hb) as [[j |] ->]; cbn; lia.
    + destruct (wf_idle s Hwf Hb) as [-> _]. cbn. lia.
  - by apply wf_fifo.
  - unfold TurnsIdle. intros [Hb _]%andb_prop. apply negb_true_iff in Hb.
    destruct (wf_idle s Hwf Hb) as [Hd Hq]. split; [| done].
    pose proof (wf_fifo s Hwf) as Hf. unfold running in Hf. rewrite Hd, Hq in Hf. cbn in Hf. by rewrite app_nil_r in Hf.
Qed.

(** From a state whose goroutine is about to lock, the whole queue is run. *)
Lemma drains_queue s :
  wf s → drainers s = [None] →
  ∃ s', rtc work s s' ∧ finished s' = enqueued s ∧ TurnsIdle (exec s') = true.
Proof.
  remember (turnQueue (exec s)) as q eqn:Hq. revert s Hq. induction q as [| j q IH]; intros s Hq Hwf Hd.
  - pose proof (wf_fifo s Hwf) as Hf. unfold running in Hf. rewrite Hd, <- Hq in Hf. cbn in Hf. rewrite app_nil_r in Hf.
    eexists. split; [apply rtc_once, (work_stop s [] [] (mkExecutor [] false)); [done | by unfold drainTurns; rewrite <- Hq] |].
    by cbn.
  - set (s1 := mkSystem (mkExecutor q (turnBusy (exec s))) [Some j] (enqueued s) (finished s)).
    assert (work s s1) as H1 by (apply (work_take s [] [] _ j); [done | by unfold drainTurns; rewrite <- Hq]).
    set (s2 := mkSystem (exec s1) [None] (enqueued s) (finished s ++ [j])).
    assert (work s1 s2) as H2 by (by apply (work_return s1 [] [] j)).
    destruct (IH s2) as (s' & Hr & Hf & Hi); [done | | done |].
    { by destruct (queue_wf_work s1 s2 (proj1 (queue_wf_work s s1 Hwf H1)) H2). }
    exists s'. split; [| done]. by eapply rtc_l, rtc_l.
Qed.

(** No accepted turn is lost: from every reachable state the drain
    goroutine alone, as its jobs return, runs every accepted job and leaves the
    executor idle. *)
Lemma turns_drain s :
  reachable s → ∃ s', rtc work s s' ∧ finished s' = enqueued s ∧ TurnsIdle (exec s') = true.
Proof.
  intros Hwf%queue_reachable_wf. destruct (turnBusy (exec s)) eqn:Hb.
  - destruct (wf_busy s Hwf Hb) as [[j |] Hd]; [| by apply drains_queue].
    pose proof (work_return s [] [] j Hd) as Hw. destruct (queue_wf_work _ _ Hwf Hw) as [Hwf' He].
    destruct (drains_queue _ Hwf' eq_refl) as (s' & Hr & Hf & Hi). exists s'. split; [by eapply rtc_l | done].
  - destruct (wf_idle s Hwf Hb) as [Hd Hq]. exists s. split; [apply rtc_refl |].
    pose proof (wf_fifo s Hwf) as Hf. unfold running in Hf. rewrite Hd, Hq in Hf. cbn in Hf.
    rewrite app_nil_r in Hf. unfold TurnsIdle. by rewrite Hb, Hq.
Qed.

(** Two turns enqueued, the first one running. *)
Definition two_turns : system := mkSystem (mkExecutor [2%Z] true) [Some 1%Z] [1; 2]%Z [].

Lemma two_turns_reachable : reachable two_turns.
Proof.
  eapply rtc_l; [by apply (step_enqueue initial 1) |].
  eapply rtc_l; [apply step_work, (work_take _ [] [] (mkExecutor [] true) 1); reflexivity |].
  eapply rtc_l; [by eapply (step_enqueue _ 2) |]. apply rtc_refl.
Qed.

Lemma turns_serial_fifo_witness : reachable two_turns ∧ enqueued two_turns = [] ++ [1]%Z ++ [2]%Z.
Proof.
  split; [apply two_turns_reachable |].
  destruct (turns_serial_fifo two_turns two_turns_reachable) as (_ & -> & _). reflexivity.
Defined.

Lemma turns_drain_witness : ∃ s', rtc work two_turns s' ∧ finished s' = [1; 2]%Z ∧ TurnsIdle (exec s') = true.
Proof. apply (turns_drain two_turns), two_turns_reachable. Defined.
