(* ===== verification/CmaTypes.v ===== *)
(** * The managed-agents resources ([internal/cmagateway/cma/types.go])

    The wire types as the store keeps them. Raw JSON is a string, an [int] or a
    time is a [Z], a nil-able pointer an option, a [map[string]string] a finite
    map. A nil slice and an empty one are the same list. *)
From S2P Require Import Prelude GoBase.

(** ** Agents and environments *)

Record ModelConfig := mkModel { model_ID : string; Speed : string }.

Record ToolDef := mkTool {
  tool_Type : string; tool_Name : string; tool_MCPServerName : string; tool_Description : string;
  InputSchema : string; DefaultConfig : string; Configs : string;
}.

Record SkillRef := mkSkill { skill_Type : string; SkillID : string; skill_Version : string }.

Record MCPServer := mkMCPServer { server_Type : string; server_Name : string; server_URL : string }.

Record Agent := mkAgent {
  ag_Type : string;
  ag_ID : string;
  Version : Z;
  ag_Name : string;
  Model : ModelConfig;
  System : string;
  ag_Description : string;
  Tools : list ToolDef;
  Skills : list SkillRef;
  MCPServers : list MCPServer;
  ag_Metadata : gmap string string;
  ag_CreatedAt : time;
  ag_UpdatedAt : time;
  ag_ArchivedAt : option time;
}.

Record Environment := mkEnvironment {
  env_Type : string;
  env_ID : string;
  env_Name : string;
  env_Description : string;
  env_Config : string;
  env_Metadata : gmap string string;
  env_CreatedAt : time;
  env_UpdatedAt : time;
  env_ArchivedAt : option time;
}.

(** ** Outcomes *)

Definition OutcomeStatePending : string := "pending".
Definition OutcomeStateRunning : string := "running".
Definition OutcomeStateEvaluating : string := "evaluating".
Definition OutcomeResultSatisfied : string := "satisfied".
Definition OutcomeResultNeedsRevision : string := "needs_revision".
Definition OutcomeResultMaxIterationsReached : string := "max_iterations_reached".
Definition OutcomeResultFailed : string := "failed".
Definition OutcomeResultInterrupted : string := "interrupted".
Definition OutcomeVerdictSatisfied : string := "satisfied".
Definition OutcomeVerdictNeedsRevision : string := "needs_revision".

Definition OutcomeTerminal (result : string) : bool :=
  bool_decide (result = OutcomeResultSatisfied) || bool_decide (result = OutcomeResultMaxIterationsReached) ||
  bool_decide (result = OutcomeResultFailed) || bool_decide (result = OutcomeResultInterrupted).

Record Rubric := mkRubric { rubric_Type : string; rubric_Content : string; FileID : string }.

Record OutcomeCriterion := mkCriterion { Criterion : string; Passed : bool; Feedback : string }.

Record OutcomeGrade := mkGrade { Verdict : string; grade_Criteria : list OutcomeCriterion; grade_Explanation : string }.

Record OutcomeEvaluation := mkOutcome {
  oc_OutcomeID : string;
  oc_Description : string;
  oc_Rubric : string;
  oc_MaxIterations : Z;
  oc_Iteration : Z;
  oc_Result : string;
  oc_Explanation : string;
  oc_Criteria : list OutcomeCriterion;
  oc_Deliverable : string;
  oc_CreatedAt : time;
  oc_UpdatedAt : time;
  oc_CompletedAt : option time;
}.

(** ** Sessions *)

Definition StatusRescheduling : string := "rescheduling".
Definition StatusRunning : string := "running".
Definition StatusIdle : string := "idle".
Definition StatusTerminated : string := "terminated".

Record SessionAgent := mkSessionAgent {
  sa_Type : string; sa_ID : string; sa_Version : Z; sa_Name : string; sa_Model : ModelConfig; sa_System : string;
  sa_Description : string; sa_Tools : list ToolDef; sa_Skills : list SkillRef; sa_MCPServers : list MCPServer;
}.

(** [Stats] and [Usage] are empty structs. *)
Record Session := mkSession {
  s_Type : string;
  s_ID : string;
  Title : string;
  Status : string;
  EnvironmentID : string;
  s_Agent : SessionAgent;
  Resources : list string;
  VaultIDs : list string;
  OutcomeEvaluations : list OutcomeEvaluation;
  s_Metadata : gmap string string;
  s_CreatedAt : time;
  s_UpdatedAt : time;
  s_ArchivedAt : option time;
}.

(** ** Events *)

Definition EvtUserDefineOutcome : string := "user.define_outcome".
Definition EvtSpanOutcomeEvaluationStart : string := "span.outcome_evaluation_start".
Definition EvtSpanOutcomeEvaluationOngoing : string := "span.outcome_evaluation_ongoing".
Definition EvtSpanOutcomeEvaluationEnd : string := "span.outcome_evaluation_end".
Definition EvtSessionStatusRunning : string := "session.status_running".
Definition EvtSessionStatusIdle : string := "session.status_idle".
Definition EvtSessionStatusTerminate : string := "session.status_terminated".
Definition EvtSessionError : string := "session.error".
Definition EvtSessionDeleted : string := "session.deleted".
Definition EvtSessionStatusRescheduled : string := "session.status_rescheduled".
Definition EvtSessionLifecycle : string := "session.lifecycle".
Definition EvtUserMessage : string := "user.message".
Definition EvtAgentMessage : string := "agent.message".
Definition EvtAgentThinking : string := "agent.thinking".
Definition EvtAgentToolUse : string := "agent.tool_use".
Definition EvtAgentMCPToolUse : string := "agent.mcp_tool_use".
Definition EvtAgentToolResult : string := "agent.tool_result".
Definition EvtAgentMCPToolResult : string := "agent.mcp_tool_result".
Definition EvtSpanModelRequestStart : string := "span.model_request_start".
Definition EvtSpanModelRequestEnd : string := "span.model_request_end".
Definition LifecycleKindFacadeTimeout : string := "facade_timeout".

Record ContentBlock := mkContent { content_Type : string; content_Text : string }.

Record StopReason := mkStopReason { stop_Type : string; EventIDs : list string }.

Record RetryStatus := mkRetry { retry_Type : string }.

Record EventError := mkEventError { err_Type : string; Message : string; err_RetryStatus : RetryStatus }.

Record ModelUsage := mkUsage {
  InputTokens : Z; OutputTokens : Z; CacheCreationInputTokens : Z; CacheReadInputTokens : Z; usage_Speed : string;
}.

Record LifecycleInfo := mkLifecycleInfo {
  life_Event : string; life_TurnID : string; life_Phase : string; life_Kind : string; life_Trigger : string;
  life_Detail : string;
}.

Record Event := mkEvent {
  ev_ID : string;
  ev_Type : string;
  ProcessedAt : option time;
  Content : list ContentBlock;
  ev_StopReason : option StopReason;
  ev_Error : option EventError;
  ev_Name : string;
  Input : string;
  ev_MCPServerName : string;
  ToolUseID : string;
  MCPToolUseID : string;
  IsError : bool;
  ModelRequestStartID : string;
  ev_ModelUsage : option ModelUsage;
  ev_Description : string;
  ev_Rubric : option Rubric;
  ev_MaxIterations : Z;
  OutcomeID : string;
  OutcomeEvaluationStartID : option string;
  Iteration : option Z;
  Result : string;
  Explanation : string;
  ev_Usage : option ModelUsage;
  Lifecycle : option LifecycleInfo;
}.

(** The literal [cma.Event{ID: id, Type: ty, ProcessedAt: at}]. *)
Definition event_of (id ty : string) (at_ : option time) : Event :=
  mkEvent id ty at_ [] None None "" "" "" "" "" false "" None "" None 0 "" None None "" "" None None.

Definition with_error (e : EventError) (ev : Event) : Event :=
  mkEvent (ev_ID ev) (ev_Type ev) (ProcessedAt ev) (Content ev) (ev_StopReason ev) (Some e) (ev_Name ev) (Input ev)
    (ev_MCPServerName ev) (ToolUseID ev) (MCPToolUseID ev) (IsError ev) (ModelRequestStartID ev) (ev_ModelUsage ev)
    (ev_Description ev) (ev_Rubric ev) (ev_MaxIterations ev) (OutcomeID ev) (OutcomeEvaluationStartID ev) (Iteration ev)
    (Result ev) (Explanation ev) (ev_Usage ev) (Lifecycle ev).

(** Assignments to the fields of an event, grouped as the handlers make them. *)
Definition with_content (c : list ContentBlock) (ev : Event) : Event :=
  mkEvent (ev_ID ev) (ev_Type ev) (ProcessedAt ev) c (ev_StopReason ev) (ev_Error ev) (ev_Name ev) (Input ev)
    (ev_MCPServerName ev) (ToolUseID ev) (MCPToolUseID ev) (IsError ev) (ModelRequestStartID ev) (ev_ModelUsage ev)
    (ev_Description ev) (ev_Rubric ev) (ev_MaxIterations ev) (OutcomeID ev) (OutcomeEvaluationStartID ev)
    (Iteration ev) (Result ev) (Explanation ev) (ev_Usage ev) (Lifecycle ev).

Definition with_stop (r : StopReason) (ev : Event) : Event :=
  mkEvent (ev_ID ev) (ev_Type ev) (ProcessedAt ev) (Content ev) (Some r) (ev_Error ev) (ev_Name ev) (Input ev)
    (ev_MCPServerName ev) (ToolUseID ev) (MCPToolUseID ev) (IsError ev) (ModelRequestStartID ev) (ev_ModelUsage ev)
    (ev_Description ev) (ev_Rubric ev) (ev_MaxIterations ev) (OutcomeID ev) (OutcomeEvaluationStartID ev)
    (Iteration ev) (Result ev) (Explanation ev) (ev_Usage ev) (Lifecycle ev).

Definition with_tool (id ty server name input : string) (ev : Event) : Event :=
  mkEvent id ty (ProcessedAt ev) (Content ev) (ev_StopReason ev) (ev_Error ev) name input server (ToolUseID ev)
    (MCPToolUseID ev) (IsError ev) (ModelRequestStartID ev) (ev_ModelUsage ev) (ev_Description ev) (ev_Rubric ev)
    (ev_MaxIterations ev) (OutcomeID ev) (OutcomeEvaluationStartID ev) (Iteration ev) (Result ev) (Explanation ev)
    (ev_Usage ev) (Lifecycle ev).

Definition with_tool_result (ty tool mcp : string) (c : list ContentBlock) (failed : bool) (ev : Event) : Event :=
  mkEvent (ev_ID ev) ty (ProcessedAt ev) c (ev_StopReason ev) (ev_Error ev) (ev_Name ev) (Input ev)
    (ev_MCPServerName ev) tool mcp failed (ModelRequestStartID ev) (ev_ModelUsage ev) (ev_Description ev)
    (ev_Rubric ev) (ev_MaxIterations ev) (OutcomeID ev) (OutcomeEvaluationStartID ev) (Iteration ev) (Result ev)
    (Explanation ev) (ev_Usage ev) (Lifecycle ev).

Definition with_span_end (start : string) (u : ModelUsage) (ev : Event) : Event :=
  mkEvent (ev_ID ev) (ev_Type ev) (ProcessedAt ev) (Content ev) (ev_StopReason ev) (ev_Error ev) (ev_Name ev)
    (Input ev) (ev_MCPServerName ev) (ToolUseID ev) (MCPToolUseID ev) (IsError ev) start (Some u) (ev_Description ev)
    (ev_Rubric ev) (ev_MaxIterations ev) (OutcomeID ev) (OutcomeEvaluationStartID ev) (Iteration ev) (Result ev)
    (Explanation ev) (ev_Usage ev) (Lifecycle ev).

Definition with_lifecycle (l : LifecycleInfo) (ev : Event) : Event :=
  mkEvent (ev_ID ev) (ev_Type ev) (ProcessedAt ev) (Content ev) (ev_StopReason ev) (ev_Error ev) (ev_Name ev)
    (Input ev) (ev_MCPServerName ev) (ToolUseID ev) (MCPToolUseID ev) (IsError ev) (ModelRequestStartID ev)
    (ev_ModelUsage ev) (ev_Description ev) (ev_Rubric ev) (ev_MaxIterations ev) (OutcomeID ev)
    (OutcomeEvaluationStartID ev) (Iteration ev) (Result ev) (Explanation ev) (ev_Usage ev) (Some l).

Definition with_iteration (outcome : string) (i : Z) (ev : Event) : Event :=
  mkEvent (ev_ID ev) (ev_Type ev) (ProcessedAt ev) (Content ev) (ev_StopReason ev) (ev_Error ev) (ev_Name ev)
    (Input ev) (ev_MCPServerName ev) (ToolUseID ev) (MCPToolUseID ev) (IsError ev) (ModelRequestStartID ev)
    (ev_ModelUsage ev) (ev_Description ev) (ev_Rubric ev) (ev_MaxIterations ev) outcome (OutcomeEvaluationStartID ev)
    (Some i) (Result ev) (Explanation ev) (ev_Usage ev) (Lifecycle ev).

Definition with_result (start result explanation : string) (u : ModelUsage) (ev : Event) : Event :=
  mkEvent (ev_ID ev) (ev_Type ev) (ProcessedAt ev) (Content ev) (ev_StopReason ev) (ev_Error ev) (ev_Name ev)
    (Input ev) (ev_MCPServerName ev) (ToolUseID ev) (MCPToolUseID ev) (IsError ev) (ModelRequestStartID ev)
    (ev_ModelUsage ev) (ev_Description ev) (ev_Rubric ev) (ev_MaxIterations ev) (OutcomeID ev) (Some start)
    (Iteration ev) result explanation (Some u) (Lifecycle ev).

Definition with_define (description : string) (rubric : option Rubric) (max : Z) (outcome : string) (ev : Event) : Event :=
  mkEvent (ev_ID ev) (ev_Type ev) (ProcessedAt ev) (Content ev) (ev_StopReason ev) (ev_Error ev) (ev_Name ev)
    (Input ev) (ev_MCPServerName ev) (ToolUseID ev) (MCPToolUseID ev) (IsError ev) (ModelRequestStartID ev)
    (ev_ModelUsage ev) description rubric max outcome (OutcomeEvaluationStartID ev) (Iteration ev) (Result ev)
    (Explanation ev) (ev_Usage ev) (Lifecycle ev).
