(* ===== verification/CmaStore.v ===== *)
(** * The store of the managed-agents facade ([internal/cmagateway/store/store.go])

    Agents with all their versions, environments and sessions, written to one
    file after every change. Session records are shared by reference - a handler
    or a turn keeps a record after the session was deleted - so they live on a
    heap of addresses; a subscriber is the number of its channel. The JSON codec
    is a parameter, and a marshalling failure is the error of an operation;
    file-system failures are not modelled. *)
From S2P Require Import Prelude GoBase CmaTypes.
From Stdlib Require Import ZArith Lia.

Record AgentRecord := mkAgentRecord { a_ID : string; Latest : Z; Versions : gmap Z Agent }.

Record SessionRecord := mkSessionRecord {
  r_Session : Session;
  AhsirName : string;
  ContextID : string;
  Events : list Event;
  subs : gset Z;               (** the channels of the live subscribers *)
  inFlightTaskID : string;
  outcomeCancel : option Z;    (** the cancel function of the active outcome loop *)
}.

Definition subscriberBuffer : nat := 64.

(** What is written of a session, and of the store. *)
Definition saved_session : Type := Session * string * string * list Event.
Definition persisted : Type := gmap string AgentRecord * gmap string Environment * gmap string saved_session.

Definition saved_of (r : SessionRecord) : saved_session := (r_Session r, AhsirName r, ContextID r, Events r).

Definition loaded_of (x : saved_session) : SessionRecord :=
  let '(sess, name, ctx, evs) := x in mkSessionRecord sess name ctx evs ∅ "" None.

Record Store := mkStore {
  agents : gmap string AgentRecord;
  environments : gmap string Environment;
  sessions : gmap string Z;
  heap : gmap Z SessionRecord;
  channels : gmap Z (list Event);   (** the buffered events of every channel made *)
  next : Z;                         (** the next unused address or channel *)
  file : option string;             (** the contents of the file at [path] *)
}.

Definition set_record (ptr : Z) (r : SessionRecord) (s : Store) : Store :=
  mkStore (agents s) (environments s) (sessions s) (<[ptr := r]> (heap s)) (channels s) (next s) (file s).

Definition snapshot (s : Store) : persisted :=
  (agents s, environments s, omap (λ ptr, saved_of <$> heap s !! ptr) (sessions s)).

Section store.
Context (Marshal : persisted → option string) (Unmarshal : string → option persisted).

(** [saveLocked], and whether it succeeded. *)
Definition saveLocked (s : Store) : Store * bool :=
  match Marshal (snapshot s) with
  | None => (s, false)
  | Some d => (mkStore (agents s) (environments s) (sessions s) (heap s) (channels s) (next s) (Some d), true)
  end.

Definition persist : Store → Store * bool := saveLocked.

(** One record of the map loaded: it gets an address of its own. *)
Definition load_session (acc : gmap string Z * gmap Z SessionRecord * Z) (x : string * saved_session)
    : gmap string Z * gmap Z SessionRecord * Z :=
  let '(m, h, n) := acc in (<[x.1 := n]> m, <[n := loaded_of x.2]> h, (n + 1)%Z).

(** [New]: [None] is an error. [range] is the order in which the loaded map is
    visited. *)
Definition New (range : gmap string saved_session → list (string * saved_session)) (contents : option string) : option Store :=
  match contents with
  | None => Some (mkStore ∅ ∅ ∅ ∅ ∅ 0 None)
  | Some d =>
      '(ags, envs, sess) ← Unmarshal d;
      let '(m, h, n) := foldl load_session (∅, ∅, 0%Z) (range sess) in
      Some (mkStore ags envs m h ∅ n (Some d))
  end.

(** ** Agents *)

(** A deep copy. *)
Definition cloneAgent (a : Agent) : Agent :=
  mkAgent (ag_Type a) (ag_ID a) (Version a) (ag_Name a) (Model a) (System a) (ag_Description a)
    ((λ t, mkTool (tool_Type t) (tool_Name t) (tool_MCPServerName t) (tool_Description t) (InputSchema t)
             (DefaultConfig t) (Configs t)) <$> Tools a)
    (Skills a) (MCPServers a) (ag_Metadata a) (ag_CreatedAt a) (ag_UpdatedAt a) (ag_ArchivedAt a).

Definition with_agents (m : gmap string AgentRecord) (s : Store) : Store :=
  mkStore m (environments s) (sessions s) (heap s) (channels s) (next s) (file s).

Definition PutAgentVersion (a : Agent) (s : Store) : Store * bool :=
  let rec := default (mkAgentRecord (ag_ID a) 0 ∅) (agents s !! ag_ID a) in
  let rec := mkAgentRecord (a_ID rec) (if (Latest rec <? Version a)%Z then Version a else Latest rec)
               (<[Version a := cloneAgent a]> (Versions rec)) in
  saveLocked (with_agents (<[ag_ID a := rec]> (agents s)) s).

(** [Store.Agent]. *)
Definition GetAgent (id : string) (version : Z) (s : Store) : option Agent :=
  rec ← agents s !! id;
  cloneAgent <$> Versions rec !! (if (version =? 0)%Z then Latest rec else version).

(** [Store.AgentRecord]. *)
Definition GetAgentRecord (id : string) (s : Store) : option AgentRecord :=
  (λ rec, mkAgentRecord (a_ID rec) (Latest rec) (cloneAgent <$> Versions rec)) <$> agents s !! id.

Definition archived (at_ : time) (a : Agent) : Agent :=
  mkAgent (ag_Type a) (ag_ID a) (Version a) (ag_Name a) (Model a) (System a) (ag_Description a) (Tools a) (Skills a)
    (MCPServers a) (ag_Metadata a) (ag_CreatedAt a) at_ (Some at_).

(** The result is [None] for an unknown agent, else the latest version, which
    may be missing. The error of the save is ignored. *)
Definition ArchiveAgent (id : string) (at_ : time) (s : Store) : Store * option (option Agent) :=
  match agents s !! id with
  | None => (s, None)
  | Some rec =>
      let rec := mkAgentRecord (a_ID rec) (Latest rec) (archived at_ <$> Versions rec) in
      (fst (saveLocked (with_agents (<[id := rec]> (agents s)) s)), Some (cloneAgent <$> Versions rec !! Latest rec))
  end.

Definition ListAgents (range : gmap string AgentRecord → list (string * AgentRecord)) (s : Store) : list Agent :=
  omap (λ x : string * AgentRecord, cloneAgent <$> Versions x.2 !! Latest x.2) (range (agents s)).

(** ** Environments *)

Definition with_environments (m : gmap string Environment) (s : Store) : Store :=
  mkStore (agents s) m (sessions s) (heap s) (channels s) (next s) (file s).

Definition PutEnvironment (e : Environment) (s : Store) : Store * bool :=
  saveLocked (with_environments (<[env_ID e := e]> (environments s)) s).

(** [Store.Environment]. *)
Definition GetEnvironment (id : string) (s : Store) : option Environment := environments s !! id.

(** Whether the environment existed, and whether the save succeeded. *)
Definition DeleteEnvironment (id : string) (s : Store) : Store * bool * bool :=
  match environments s !! id with
  | None => (s, false, true)
  | Some _ => let '(s, ok) := saveLocked (with_environments (delete id (environments s)) s) in (s, true, ok)
  end.

(** ** Sessions *)

Definition with_sessions (m : gmap string Z) (s : Store) : Store :=
  mkStore (agents s) (environments s) m (heap s) (channels s) (next s) (file s).

(** A new record: [&SessionRecord{Session: .., AhsirName: .., ContextID: ..}]. *)
Definition alloc (sess : Session) (name ctx : string) (s : Store) : Store * Z :=
  (mkStore (agents s) (environments s) (sessions s)
     (<[next s := mkSessionRecord sess name ctx [] ∅ "" None]> (heap s)) (channels s) (next s + 1) (file s), next s).

Definition PutSession (ptr : Z) (s : Store) : Store * bool :=
  match heap s !! ptr with
  | None => (s, true)
  | Some r => saveLocked (with_sessions (<[s_ID (r_Session r) := ptr]> (sessions s)) s)
  end.

(** [Store.Session]. *)
Definition GetSession (id : string) (s : Store) : option Z := sessions s !! id.

Definition DeleteSession (id : string) (s : Store) : Store * bool * bool :=
  match sessions s !! id with
  | None => (s, false, true)
  | Some _ => let '(s, ok) := saveLocked (with_sessions (delete id (sessions s)) s) in (s, true, ok)
  end.

Definition counts_for (ahsirName : string) (r : SessionRecord) : bool :=
  bool_decide (AhsirName r = ahsirName) && bool_decide (s_ArchivedAt (r_Session r) = None).

Definition ActiveAhsirRefs (range : gmap string Z → list (string * Z)) (ahsirName : string) (s : Store) : nat :=
  length (filter (λ x : string * Z, from_option (counts_for ahsirName) false (heap s !! x.2)) (range (sessions s))).

(** ** Changing a record *)

Definition with_session (f : Session → Session) (r : SessionRecord) : SessionRecord :=
  mkSessionRecord (f (r_Session r)) (AhsirName r) (ContextID r) (Events r) (subs r) (inFlightTaskID r) (outcomeCancel r).

Definition with_events (evs : list Event) (r : SessionRecord) : SessionRecord :=
  mkSessionRecord (r_Session r) (AhsirName r) (ContextID r) evs (subs r) (inFlightTaskID r) (outcomeCancel r).

Definition set_status (status : string) (now : time) (x : Session) : Session :=
  mkSession (s_Type x) (s_ID x) (Title x) status (EnvironmentID x) (s_Agent x) (Resources x) (VaultIDs x)
    (OutcomeEvaluations x) (s_Metadata x) (s_CreatedAt x) now (s_ArchivedAt x).

Definition set_outcomes (l : list OutcomeEvaluation) (now : time) (x : Session) : Session :=
  mkSession (s_Type x) (s_ID x) (Title x) (Status x) (EnvironmentID x) (s_Agent x) (Resources x) (VaultIDs x) l
    (s_Metadata x) (s_CreatedAt x) now (s_ArchivedAt x).

(** The select with a default: a full channel drops the event. *)
Definition send (ev : Event) (buf : list Event) : list Event :=
  if decide (length buf < subscriberBuffer) then buf ++ [ev] else buf.

Definition fan_out (chs : gset Z) (ev : Event) (m : gmap Z (list Event)) : gmap Z (list Event) :=
  map_imap (λ ch buf, Some (if decide (ch ∈ chs) then send ev buf else buf)) m.

(** [SessionRecord.Append]. *)
Definition Append (ptr : Z) (ev : Event) (s : Store) : Store :=
  match heap s !! ptr with
  | None => s
  | Some r =>
      mkStore (agents s) (environments s) (sessions s) (<[ptr := with_events (Events r ++ [ev]) r]> (heap s))
        (fan_out (subs r) ev (channels s)) (next s) (file s)
  end.

Definition AppendEvent (ptr : Z) (ev : Event) (s : Store) : Store * bool := persist (Append ptr ev s).

(** A change of the session of a record, then [persist]. *)
Definition update_session (ptr : Z) (f : Session → Session) (s : Store) : Store * bool :=
  match heap s !! ptr with
  | None => (s, true)
  | Some r => persist (set_record ptr (with_session f r) s)
  end.

Definition SetSessionStatus (ptr : Z) (status : string) (updatedAt : time) (s : Store) : Store * bool :=
  update_session ptr (set_status status updatedAt) s.

(** [None] is a field absent from the request. *)
Definition UpdateSessionMeta (now : time) (ptr : Z) (title : option string) (metadata : option (gmap string string))
    (vaultIDs : option (list string)) (s : Store) : Store * bool :=
  update_session ptr (λ x,
    mkSession (s_Type x) (s_ID x) (default (Title x) title) (Status x) (EnvironmentID x) (s_Agent x) (Resources x)
      (default (VaultIDs x) vaultIDs) (OutcomeEvaluations x) (default (s_Metadata x) metadata) (s_CreatedAt x) now
      (s_ArchivedAt x)) s.

Definition ArchiveSession (ptr : Z) (at_ : time) (s : Store) : Store * bool :=
  update_session ptr (λ x,
    mkSession (s_Type x) (s_ID x) (Title x) StatusTerminated (EnvironmentID x) (s_Agent x) (Resources x) (VaultIDs x)
      (OutcomeEvaluations x) (s_Metadata x) (s_CreatedAt x) (s_UpdatedAt x) (Some at_)) s.

Definition SetInFlightTask (ptr : Z) (id : string) (s : Store) : Store :=
  match heap s !! ptr with
  | None => s
  | Some r => set_record ptr (mkSessionRecord (r_Session r) (AhsirName r) (ContextID r) (Events r) (subs r) id (outcomeCancel r)) s
  end.

Definition SetOutcomeCancel (ptr : Z) (f : option Z) (s : Store) : Store :=
  match heap s !! ptr with
  | None => s
  | Some r => set_record ptr (mkSessionRecord (r_Session r) (AhsirName r) (ContextID r) (Events r) (subs r) (inFlightTaskID r) f) s
  end.

(** The cancel function to call, if any. *)
Definition CancelOutcome (ptr : Z) (s : Store) : option Z := heap s !! ptr ≫= outcomeCancel.

(** ** Outcomes *)

(** The guard of [beginOutcome]: the last outcome is still active. *)
Definition outcome_active (x : Session) : bool :=
  if last (OutcomeEvaluations x) is Some o then negb (OutcomeTerminal (oc_Result o)) else false.

(** [beginOutcome]; [cancel] is [None] when none is to be registered. The
    results are the acceptance and the success of the save. *)
Definition beginOutcome (now : time) (ptr : Z) (oc : OutcomeEvaluation) (cancel : option Z) (s : Store)
    : Store * bool * bool :=
  match heap s !! ptr with
  | None => (s, false, true)
  | Some r =>
      if outcome_active (r_Session r) then (s, false, true)
      else
        let r := with_session (set_outcomes (OutcomeEvaluations (r_Session r) ++ [oc]) now) r in
        let r := if cancel is Some f
                 then mkSessionRecord (r_Session r) (AhsirName r) (ContextID r) (Events r) (subs r) (inFlightTaskID r) (Some f)
                 else r in
        let '(s, ok) := persist (set_record ptr r s) in (s, true, ok)
  end.

Definition BeginOutcome (now : time) (ptr : Z) (oc : OutcomeEvaluation) := beginOutcome now ptr oc None.
Definition BeginOutcomeWithCancel (now : time) (ptr : Z) (oc : OutcomeEvaluation) (cancel : Z) :=
  beginOutcome now ptr oc (Some cancel).

(** The index of the last outcome with the id. *)
Fixpoint outcome_index (id : string) (i : nat) (idx : option nat) (l : list OutcomeEvaluation) : option nat :=
  match l with
  | [] => idx
  | o :: l => outcome_index id (S i) (if decide (oc_OutcomeID o = id) then Some i else idx) l
  end.

Definition touch_outcome (now : time) (o : OutcomeEvaluation) : OutcomeEvaluation :=
  mkOutcome (oc_OutcomeID o) (oc_Description o) (oc_Rubric o) (oc_MaxIterations o) (oc_Iteration o) (oc_Result o)
    (oc_Explanation o) (oc_Criteria o) (oc_Deliverable o) (oc_CreatedAt o) now (oc_CompletedAt o).

(** The results are whether the outcome was found and the success of the
    save. *)
Definition UpdateOutcome (now : time) (ptr : Z) (outcomeID : string) (mutate : OutcomeEvaluation → OutcomeEvaluation) (s : Store)
    : Store * bool * bool :=
  match heap s !! ptr with
  | None => (s, false, true)
  | Some r =>
      let l := OutcomeEvaluations (r_Session r) in
      match outcome_index outcomeID 0 None l with
      | None => (s, false, true)
      | Some idx =>
          let '(s, ok) := persist (set_record ptr
            (with_session (set_outcomes (alter (λ o, touch_outcome now (mutate o)) idx l) now) r) s) in (s, true, ok)
      end
  end.

(** ** Recovery *)

Definition interrupted_message : string :=
  "runtime_interrupted: ahsir restarted while this Session was running; the prior execution owner no longer exists".

Definition interrupted (x : Session) : bool :=
  bool_decide (s_ArchivedAt x = None) && bool_decide (Status x = StatusRunning).

(** The two events of a settled session; [ids] are the fresh ids. *)
Definition interruption_events (now : time) (ids : string * string) : list Event :=
  [with_error (mkEventError "unknown_error" interrupted_message (mkRetry "terminal")) (event_of (fst ids) EvtSessionError (Some now));
   event_of (snd ids) EvtSessionStatusTerminate (Some now)].

Definition settled (now : time) (ids : string * string) (r : SessionRecord) : SessionRecord :=
  with_session (set_status StatusTerminated now) (with_events (Events r ++ interruption_events now ids) r).

(** One turn of the loop over the sessions; [newIDs] gives the ids generated
    for a session. *)
Definition reconcile_session (newIDs : string → string * string) (now : time) (acc : gmap Z SessionRecord * Z)
    (x : string * Z) : gmap Z SessionRecord * Z :=
  let '(h, count) := acc in
  match h !! x.2 with
  | Some r => if interrupted (r_Session r) then (<[x.2 := settled now (newIDs x.1) r]> h, (count + 1)%Z) else acc
  | None => acc
  end.

(** The number of sessions settled, and the success of the save. *)
Definition ReconcileInterruptedSessions (range : gmap string Z → list (string * Z)) (newIDs : string → string * string)
    (now : time) (s : Store) : Store * Z * bool :=
  let '(h, count) := foldl (reconcile_session newIDs now) (heap s, 0%Z) (range (sessions s)) in
  let s := mkStore (agents s) (environments s) (sessions s) h (channels s) (next s) (file s) in
  if (count =? 0)%Z then (s, 0%Z, true) else let '(s, ok) := saveLocked s in (s, count, ok).

Definition SaveSnapshot (s : Store) : Store * bool := saveLocked s.

(** ** Subscriptions *)

(** The backlog and the channel. *)
Definition Subscribe (ptr : Z) (s : Store) : Store * option (list Event * Z) :=
  match heap s !! ptr with
  | None => (s, None)
  | Some r =>
      let ch := next s in
      let r' := mkSessionRecord (r_Session r) (AhsirName r) (ContextID r) (Events r) ({[ch]} ∪ subs r) (inFlightTaskID r)
                  (outcomeCancel r) in
      (mkStore (agents s) (environments s) (sessions s) (<[ptr := r']> (heap s)) (<[ch := []]> (channels s)) (ch + 1) (file s),
       Some (Events r, ch))
  end.

(** The cancel function of a subscription. *)
Definition Unsubscribe (ptr ch : Z) (s : Store) : Store :=
  match heap s !! ptr with
  | None => s
  | Some r =>
      set_record ptr (mkSessionRecord (r_Session r) (AhsirName r) (ContextID r) (Events r) (subs r ∖ {[ch]})
        (inFlightTaskID r) (outcomeCancel r)) s
  end.

(** A subscriber takes the oldest buffered event. *)
Definition receive (ch : Z) (s : Store) : Store * option Event :=
  match channels s !! ch with
  | Some (ev :: buf) =>
      (mkStore (agents s) (environments s) (sessions s) (heap s) (<[ch := buf]> (channels s)) (next s) (file s), Some ev)
  | _ => (s, None)
  end.
End store.
