(* ===== verification/CmaStoreLaws.v ===== *)
(** * What the facade's store promises

    The state survives a restart, agent versions are a function of the history,
    a session has at most one active outcome and an append-only log, and
    recovery settles exactly the interrupted sessions. *)
From S2P Require Import Prelude GoBase CmaTypes CmaStore.
From Stdlib Require Import ZArith Lia.

(** ** The operations *)

Inductive op :=
| OpPutAgent (a : Agent)
| OpArchiveAgent (id : string) (at_ : time)
| OpPutEnvironment (e : Environment)
| OpDeleteEnvironment (id : string)
| OpAlloc (sess : Session) (name ctx : string)
| OpPutSession (ptr : Z)
| OpDeleteSession (id : string)
| OpAppend (ptr : Z) (ev : Event)
| OpStatus (ptr : Z) (status : string) (now : time)
| OpMeta (now : time) (ptr : Z) (title : option string) (metadata : option (gmap string string)) (vaults : option (list string))
| OpArchiveSession (ptr : Z) (at_ : time)
| OpInFlight (ptr : Z) (id : string)
| OpCancelFunc (ptr : Z) (f : option Z)
| OpBegin (now : time) (ptr : Z) (oc : OutcomeEvaluation) (cancel : option Z)
| OpUpdate (now : time) (ptr : Z) (id : string) (mutate : OutcomeEvaluation → OutcomeEvaluation)
| OpReconcile (newIDs : string → string * string) (now : time)
| OpSave
| OpSubscribe (ptr : Z)
| OpUnsubscribe (ptr ch : Z)
| OpReceive (ch : Z).

Definition empty_store : Store := mkStore ∅ ∅ ∅ ∅ ∅ 0 None.

Section laws.
Context (Marshal : persisted → option string).
Context (range : gmap string Z → list (string * Z)).

Definition apply (s : Store) (o : op) : Store :=
  match o with
  | OpPutAgent a => fst (PutAgentVersion Marshal a s)
  | OpArchiveAgent id t => fst (ArchiveAgent Marshal id t s)
  | OpPutEnvironment e => fst (PutEnvironment Marshal e s)
  | OpDeleteEnvironment id => fst (fst (DeleteEnvironment Marshal id s))
  | OpAlloc sess name ctx => fst (alloc sess name ctx s)
  | OpPutSession ptr => fst (PutSession Marshal ptr s)
  | OpDeleteSession id => fst (fst (DeleteSession Marshal id s))
  | OpAppend ptr ev => fst (AppendEvent Marshal ptr ev s)
  | OpStatus ptr st now => fst (SetSessionStatus Marshal ptr st now s)
  | OpMeta now ptr t m v => fst (UpdateSessionMeta Marshal now ptr t m v s)
  | OpArchiveSession ptr t => fst (ArchiveSession Marshal ptr t s)
  | OpInFlight ptr id => SetInFlightTask ptr id s
  | OpCancelFunc ptr f => SetOutcomeCancel ptr f s
  | OpBegin now ptr oc cancel => fst (fst (beginOutcome Marshal now ptr oc cancel s))
  | OpUpdate now ptr id mutate => fst (fst (UpdateOutcome Marshal now ptr id mutate s))
  | OpReconcile ids now => fst (fst (ReconcileInterruptedSessions Marshal range ids now s))
  | OpSave => fst (SaveSnapshot Marshal s)
  | OpSubscribe ptr => fst (Subscribe ptr s)
  | OpUnsubscribe ptr ch => Unsubscribe ptr ch s
  | OpReceive ch => fst (receive ch s)
  end.

Definition run (ops : list op) (s : Store) : Store := foldl apply s ops.

(** ** What an operation does to a record

    [evolves F] is how a record on the heap may change in one operation, where
    [F] is that the operation is [fair]: an outcome keeps its id and, once
    terminal, is not made active again. [fair] is asked of the caller's mutation
    only at the outcome it is applied to, since the loop of [executeOutcome]
    sets the state unconditionally but stops after the terminal one. *)

Definition active (o : OutcomeEvaluation) : bool := negb (OutcomeTerminal (oc_Result o)).

Definition fair (s : Store) (o : op) : Prop :=
  match o with
  | OpUpdate _ ptr id mutate =>
      ∀ r i oc, heap s !! ptr = Some r → outcome_index id 0 None (OutcomeEvaluations (r_Session r)) = Some i →
        OutcomeEvaluations (r_Session r) !! i = Some oc →
        oc_OutcomeID (mutate oc) = oc_OutcomeID oc ∧ (active oc = false → active (mutate oc) = false)
  | OpAlloc sess _ _ => OutcomeEvaluations sess = []
  | _ => True
  end.

(** Only the last outcome may be active. *)
Definition outcomes_ok (l : list OutcomeEvaluation) : Prop :=
  ∀ i o, l !! i = Some o → S i < length l → active o = false.

Record evolves (F : Prop) (r r' : SessionRecord) : Prop := {
  ev_id : s_ID (r_Session r') = s_ID (r_Session r);
  ev_name : AhsirName r' = AhsirName r ∧ ContextID r' = ContextID r ∧ s_Agent (r_Session r') = s_Agent (r_Session r);
  ev_log : Events r `prefix_of` Events r';
  ev_ids : F → oc_OutcomeID <$> OutcomeEvaluations (r_Session r) `prefix_of` oc_OutcomeID <$> OutcomeEvaluations (r_Session r');
  ev_ok : F → outcomes_ok (OutcomeEvaluations (r_Session r)) → outcomes_ok (OutcomeEvaluations (r_Session r'));
}.

Lemma evolves_refl F r : evolves F r r.
Proof. by split. Qed.

Lemma evolves_trans F r1 r2 r3 : evolves F r1 r2 → evolves F r2 r3 → evolves F r1 r3.
Proof.
  intros [A1 (A2 & A2' & A2'') A3 A4 A5] [B1 (B2 & B2' & B2'') B3 B4 B5]. split; [congruence | split_and!; congruence | | | auto].
  - by etrans.
  - intros HF. specialize (A4 HF). specialize (B4 HF). by etrans.
Qed.

Lemma evolves_same F r r' : saved_of r' = saved_of r → evolves F r r'.
Proof. destruct r, r'. unfold saved_of. cbn. intros [= -> -> -> ->]. by split. Qed.

Lemma evolves_session F f r :
  s_ID (f (r_Session r)) = s_ID (r_Session r) → OutcomeEvaluations (f (r_Session r)) = OutcomeEvaluations (r_Session r) →
  s_Agent (f (r_Session r)) = s_Agent (r_Session r) → evolves F r (with_session f r).
Proof. intros E1 E2 E3. split; cbn; rewrite ?E2; done. Qed.

Lemma evolves_events F evs r : evolves F r (with_events (Events r ++ evs) r).
Proof. split; cbn; [done | done | by apply prefix_app_r | done | done]. Qed.

Lemma last_active l :
  outcomes_ok l → (if last l is Some o then active o else false) = false → ∀ o, o ∈ l → active o = false.
Proof.
  intros Hok Hlast o (i & Hi)%list_elem_of_lookup. destruct (decide (S i < length l)) as [Hlt | Hge]; [by eapply Hok |].
  assert (last l = Some o) as E; [| by rewrite E in Hlast].
  rewrite last_lookup. apply lookup_lt_Some in Hi as Hl. by replace (pred (length l)) with i by lia.
Qed.

Lemma evolves_begin F now oc r :
  outcome_active (r_Session r) = false →
  evolves F r (with_session (set_outcomes (OutcomeEvaluations (r_Session r) ++ [oc]) now) r).
Proof.
  intros Ha. split; cbn; [done | done | done | intros _; rewrite fmap_app; by apply prefix_app_r |].
  intros _ Hok i o Hi Hlt. rewrite length_app in Hlt. cbn in Hlt. apply (last_active _ Hok Ha).
  rewrite lookup_app_l in Hi by lia. by eapply list_elem_of_lookup_2.
Qed.

Lemma evolves_update (F : Prop) now mutate i r :
  (F → ∀ o, OutcomeEvaluations (r_Session r) !! i = Some o →
     oc_OutcomeID (mutate o) = oc_OutcomeID o ∧ (active o = false → active (mutate o) = false)) →
  evolves F r (with_session (set_outcomes (alter (λ o, touch_outcome now (mutate o)) i (OutcomeEvaluations (r_Session r))) now) r).
Proof.
  set (l := OutcomeEvaluations (r_Session r)). intros Hf. split; cbn; [done | done | done | |]; fold l; intros HF.
  - assert (oc_OutcomeID <$> alter (λ o, touch_outcome now (mutate o)) i l = oc_OutcomeID <$> l) as ->; [| done].
    apply list_eq. intros j. rewrite !list_lookup_fmap. destruct (decide (i = j)) as [-> | Hne].
    + rewrite list_lookup_alter_eq. destruct (l !! j) as [o |] eqn:Ho; [| done]. cbn. by rewrite (proj1 (Hf HF o eq_refl)).
    + by rewrite list_lookup_alter_ne.
  - intros Hok j o Hj Hlt. rewrite length_alter in Hlt. destruct (decide (i = j)) as [-> | Hne].
    + rewrite list_lookup_alter_eq in Hj. destruct (l !! j) as [o' |] eqn:Ho; [| done]. injection Hj as <-.
      change (active (mutate o') = false). apply (proj2 (Hf HF o' eq_refl)). by eapply Hok.
    + rewrite list_lookup_alter_ne in Hj by done. by eapply Hok.
Qed.

Lemma evolves_settled F now ids r : evolves F r (settled now ids r).
Proof. eapply evolves_trans; [apply evolves_events | by apply evolves_session]. Qed.

(** ** What an operation does to the store *)

Record step_ok (F : Prop) (s s' : Store) : Prop := {
  st_next : (next s ≤ next s')%Z;
  st_heap : ∀ p r', heap s' !! p = Some r' →
    (∃ r, heap s !! p = Some r ∧ evolves F r r') ∨
    ((next s ≤ p < next s')%Z ∧ Events r' = [] ∧ (F → OutcomeEvaluations (r_Session r') = []));
  st_kept : ∀ p, is_Some (heap s !! p) → is_Some (heap s' !! p);
  st_sess : ∀ id p, sessions s' !! id = Some p →
    sessions s !! id = Some p ∨ ∃ r', heap s' !! p = Some r' ∧ s_ID (r_Session r') = id;
}.

Definition with_file (f : option string) (s : Store) : Store :=
  mkStore (agents s) (environments s) (sessions s) (heap s) (channels s) (next s) f.

Lemma saveLocked_file s : ∃ f, fst (saveLocked Marshal s) = with_file f s.
Proof. unfold saveLocked. destruct (Marshal _) as [d |]; [by exists (Some d) |]. exists (file s). by destruct s. Qed.

Lemma step_save F s s' : step_ok F s s' → step_ok F s (fst (saveLocked Marshal s')).
Proof. destruct (saveLocked_file s') as [f ->]. by intros []. Qed.

(** The records are unchanged. *)
Lemma step_frame F s ags envs m ch f :
  (∀ id p, m !! id = Some p → sessions s !! id = Some p ∨ ∃ r, heap s !! p = Some r ∧ s_ID (r_Session r) = id) →
  step_ok F s (mkStore ags envs m (heap s) ch (next s) f).
Proof. intros Hm. split; cbn; [done | | done | done]. intros p r Hp. left. exists r. split; [done | apply evolves_refl]. Qed.

Lemma step_refl F s : step_ok F s s.
Proof. destruct s. apply (step_frame F (mkStore _ _ _ _ _ _ _)). by left. Qed.

(** One record changes. *)
Lemma step_record F s ptr r r' ch n f :
  heap s !! ptr = Some r → evolves F r r' → (next s ≤ n)%Z →
  step_ok F s (mkStore (agents s) (environments s) (sessions s) (<[ptr := r']> (heap s)) ch n f).
Proof.
  intros Hr He Hn. split; cbn; [done | | |].
  - intros p x Hp. left. destruct (decide (ptr = p)) as [-> | Hne].
    + rewrite lookup_insert_eq in Hp. injection Hp as <-. by exists r.
    + rewrite lookup_insert_ne in Hp by done. exists x. split; [done | apply evolves_refl].
  - intros p Hp. destruct (decide (ptr = p)) as [-> | Hne]; [rewrite lookup_insert_eq; eauto |].
    by rewrite lookup_insert_ne.
  - by left.
Qed.

(** ** The invariant of the store: a session's record exists and has its id *)

Record wf (s : Store) : Prop := {
  wf_heap : ∀ p, is_Some (heap s !! p) → (p < next s)%Z;
  wf_sess : ∀ id p, sessions s !! id = Some p → ∃ r, heap s !! p = Some r ∧ s_ID (r_Session r) = id;
}.

Lemma wf_empty : wf empty_store.
Proof. split; cbn; [intros p [x Hx] |]; set_solver. Qed.

Lemma step_wf F s s' : step_ok F s s' → wf s → wf s'.
Proof.
  intros [Hn Hh Hk Hs] [W1 W2]. split.
  - intros p [r' Hr']. destruct (Hh p r' Hr') as [(r & Hr & _) | [[_ ?] _]]; [| done].
    specialize (W1 p (mk_is_Some _ _ Hr)). lia.
  - intros id p Hp. destruct (Hs id p Hp) as [Hp' | Hr]; [| done]. destruct (W2 id p Hp') as (r & Hr & Hid).
    destruct (Hk p (mk_is_Some _ _ Hr)) as [r' Hr']. exists r'. split; [done |].
    destruct (Hh p r' Hr') as [(r0 & Hr0 & He) | [[? _] _]].
    + rewrite Hr in Hr0. injection Hr0 as <-. rewrite (ev_id _ _ _ He). done.
    + specialize (W1 p (mk_is_Some _ _ Hr)). lia.
Qed.

Lemma wf_inj s id id' p : wf s → sessions s !! id = Some p → sessions s !! id' = Some p → id = id'.
Proof. intros [_ W] H1 H2. destruct (W id p H1) as (r & Hr & <-), (W id' p H2) as (r' & Hr' & <-). congruence. Qed.

Lemma visits_pointers s : visits range → wf s → NoDup (range (sessions s)).*2.
Proof.
  intros Hv W. apply NoDup_fmap_2_strong; [| apply (NoDup_fmap_1 fst), (visits_NoDup range _ Hv)].
  intros [id p] [id' p'] H1 H2 E. cbn in E. subst p'.
  apply (visits_elem range) in H1, H2; [| done..]. by rewrite (wf_inj s id id' p W H1 H2).
Qed.

(** ** Recovery, record by record *)

Definition settle (newIDs : string → string * string) (now : time) (id : string) (r : SessionRecord) : SessionRecord :=
  if interrupted (r_Session r) then settled now (newIDs id) r else r.

Definition interrupted_at (h : gmap Z SessionRecord) (x : string * Z) : bool :=
  from_option (λ r, interrupted (r_Session r)) false (h !! x.2).

Lemma reconcile_fold newIDs now l : ∀ h n,
  NoDup l.*2 →
  let h' := fst (foldl (reconcile_session newIDs now) (h, n) l) in
  (∀ p, p ∉ l.*2 → h' !! p = h !! p) ∧
  (∀ id p, (id, p) ∈ l → h' !! p = settle newIDs now id <$> h !! p) ∧
  snd (foldl (reconcile_session newIDs now) (h, n) l) = (n + Z.of_nat (length (filter (interrupted_at h) l)))%Z.
Proof.
  induction l as [| [id p] l IH]; intros h n Hnd; [cbn; split_and!; [done | set_solver | lia] |].
  cbn in Hnd. apply NoDup_cons in Hnd as [Hni Hnd]. cbn [foldl].
  destruct (reconcile_session newIDs now (h, n) (id, p)) as [h1 n1] eqn:E1.
  destruct (IH h1 n1 Hnd) as (A & B & C). clear IH.
  assert (h1 !! p = settle newIDs now id <$> h !! p ∧ (∀ q, q ≠ p → h1 !! q = h !! q) ∧
          n1 = (n + if interrupted_at h (id, p) then 1 else 0)%Z) as (H1 & H2 & H3).
  { unfold reconcile_session, interrupted_at, settle in *. cbn [fst snd] in *. destruct (h !! p) as [r |] eqn:Hr; cbn in *.
    - destruct (interrupted (r_Session r)); injection E1 as <- <-.
      + rewrite lookup_insert_eq. split_and!; [done | | done]. intros q Hq. by rewrite lookup_insert_ne.
      + split_and!; [done | done | lia].
    - injection E1 as <- <-. split_and!; [done | done | lia]. }
  split_and!.
  - intros q Hq. cbn in Hq. rewrite A by set_solver. apply H2. set_solver.
  - intros id' q [[= -> ->] | Hq]%elem_of_cons; [by rewrite A |].
    rewrite (B id' q Hq), H2; [done |]. intros ->. apply Hni. by apply (list_elem_of_fmap_2 snd l (id', p)).
  - rewrite C, H3. rewrite filter_cons.
    assert (filter (interrupted_at h1) l = filter (interrupted_at h) l) as ->.
    { apply list_filter_ext. intros [id' q] Hq. unfold interrupted_at. cbn [snd]. rewrite H2; [done |].
      intros ->. apply Hni. by apply (list_elem_of_fmap_2 snd l (id', p)). }
    destruct (interrupted_at h (id, p)) eqn:Ei.
    + rewrite decide_True by done. cbn. lia.
    + rewrite decide_False by (by intros []). lia.
Qed.

Lemma evolves_settle F newIDs now id r : evolves F r (settle newIDs now id r).
Proof. unfold settle. destruct (interrupted _); [apply evolves_settled | apply evolves_refl]. Qed.

(** The store before the save of [ReconcileInterruptedSessions]. *)
Definition reconciled (newIDs : string → string * string) (now : time) (s : Store) : Store :=
  mkStore (agents s) (environments s) (sessions s) (fst (foldl (reconcile_session newIDs now) (heap s, 0%Z) (range (sessions s))))
    (channels s) (next s) (file s).

Lemma step_reconciled F newIDs now s : visits range → wf s → step_ok F s (reconciled newIDs now s).
Proof.
  intros Hv W. destruct (reconcile_fold newIDs now _ (heap s) 0 (visits_pointers s Hv W)) as (A & B & _).
  assert (∀ p, (fst (foldl (reconcile_session newIDs now) (heap s, 0%Z) (range (sessions s)))) !! p = heap s !! p ∨
               ∃ id, (fst (foldl (reconcile_session newIDs now) (heap s, 0%Z) (range (sessions s)))) !! p =
                     settle newIDs now id <$> heap s !! p) as H.
  { intros p. destruct (decide (p ∈ (range (sessions s)).*2)) as [Hin | Hni]; [right | left; by apply A].
    apply list_elem_of_fmap in Hin as ([id q] & -> & Hin). exists id. by apply B. }
  split; cbn [reconciled next sessions heap].
  - done.
  - intros p r' Hr'. left. destruct (H p) as [E | [id E]]; rewrite E in Hr'.
    + exists r'. split; [done | apply evolves_refl].
    + destruct (heap s !! p) as [r |]; [| done]. injection Hr' as <-. exists r. split; [done | apply evolves_settle].
  - intros p Hp. destruct (H p) as [E | [id E]]; rewrite E; [done |]. by apply fmap_is_Some.
  - by left.
Qed.

Lemma Reconcile_unfold newIDs now s :
  let count := snd (foldl (reconcile_session newIDs now) (heap s, 0%Z) (range (sessions s))) in
  ReconcileInterruptedSessions Marshal range newIDs now s =
  if (count =? 0)%Z then (reconciled newIDs now s, 0%Z, true)
  else (fst (saveLocked Marshal (reconciled newIDs now s)), count, snd (saveLocked Marshal (reconciled newIDs now s))).
Proof.
  unfold ReconcileInterruptedSessions, reconciled.
  destruct (foldl _ (heap s, 0%Z) _) as [h count]. cbn. destruct (count =? 0)%Z; [done |].
  by destruct (saveLocked _ _).
Qed.

Lemma step_update_session F ptr f s :
  (∀ x, s_ID (f x) = s_ID x ∧ OutcomeEvaluations (f x) = OutcomeEvaluations x ∧ s_Agent (f x) = s_Agent x) →
  step_ok F s (fst (update_session Marshal ptr f s)).
Proof.
  intros Hf. unfold update_session, persist. destruct (heap s !! ptr) as [r |] eqn:Hr; [| apply step_refl].
  apply step_save. eapply step_record; [done | by apply evolves_session; apply Hf | done].
Qed.

(** A record whose saved part is unchanged. *)
Lemma step_transient F ptr r r' s : heap s !! ptr = Some r → saved_of r' = saved_of r → step_ok F s (set_record ptr r' s).
Proof. intros Hr E. eapply step_record; [done | by apply evolves_same | done]. Qed.

Lemma fst_pair_bind {A B C} (x : A * B) (f : A → B → C) : (let '(a, b) := x in f a b) = f (fst x) (snd x).
Proof. by destruct x. Qed.

Lemma step_begin F now ptr oc cancel s : step_ok F s (fst (fst (beginOutcome Marshal now ptr oc cancel s))).
Proof.
  unfold beginOutcome, persist. destruct (heap s !! ptr) as [r |] eqn:Hr; [| apply step_refl].
  destruct (outcome_active (r_Session r)) eqn:Ha; [apply step_refl |]. rewrite fst_pair_bind. cbn [fst].
  apply step_save. eapply step_record; [done | | done]. eapply evolves_trans; [by apply (evolves_begin F now oc) |].
  apply evolves_same. by destruct cancel.
Qed.

Lemma step_update now ptr id mutate s :
  step_ok (fair s (OpUpdate now ptr id mutate)) s (fst (fst (UpdateOutcome Marshal now ptr id mutate s))).
Proof.
  unfold UpdateOutcome, persist. destruct (heap s !! ptr) as [r |] eqn:Hr; [| apply step_refl].
  destruct (outcome_index _ _ _ _) as [i |] eqn:Hi; [| apply step_refl]. rewrite fst_pair_bind. cbn [fst].
  apply step_save. eapply step_record; [done | | done]. apply evolves_update. intros HF o Ho. by apply (HF r i o).
Qed.

Lemma step_alloc sess name ctx s : wf s → step_ok (fair s (OpAlloc sess name ctx)) s (fst (alloc sess name ctx s)).
Proof.
  intros W. assert (heap s !! next s = None) as Hfresh.
  { destruct (heap s !! next s) eqn:E; [| done]. pose proof (wf_heap s W _ (mk_is_Some _ _ E)). lia. }
  split; cbn; [lia | | | by left].
  - intros p r'. destruct (decide (p = next s)) as [-> | Hne].
    + rewrite lookup_insert_eq. intros [= <-]. right. split_and!; [lia | lia | done | done].
    + rewrite lookup_insert_ne by done. intros Hr. left. exists r'. split; [done | apply evolves_refl].
  - intros p Hp. rewrite lookup_insert_ne; [done |]. intros <-. rewrite Hfresh in Hp. by destruct Hp.
Qed.

Lemma step_delete_session F id s : step_ok F s (fst (fst (DeleteSession Marshal id s))).
Proof.
  unfold DeleteSession. destruct (sessions s !! id); [| apply step_refl]. rewrite fst_pair_bind. cbn [fst].
  apply step_save, step_frame. intros id' p Hp. left. by apply lookup_delete_Some in Hp as [_ Hp].
Qed.

Lemma step_delete_environment F id s : step_ok F s (fst (fst (DeleteEnvironment Marshal id s))).
Proof.
  unfold DeleteEnvironment. destruct (environments s !! id); [| apply step_refl]. rewrite fst_pair_bind. cbn [fst].
  apply step_save, step_frame. by left.
Qed.

Lemma step_put_session F ptr s : step_ok F s (fst (PutSession Marshal ptr s)).
Proof.
  unfold PutSession. destruct (heap s !! ptr) as [r |] eqn:Hr; [| apply step_refl].
  apply step_save, step_frame. intros id p. destruct (decide (id = s_ID (r_Session r))) as [-> | Hne].
  - rewrite lookup_insert_eq. intros [= <-]. right. by exists r.
  - rewrite lookup_insert_ne by done. by left.
Qed.

Lemma apply_step s o : visits range → wf s → step_ok (fair s o) s (apply s o).
Proof.
  intros Hv W. destruct o; cbn [apply].
  - apply step_save, step_frame. by left.
  - unfold ArchiveAgent. destruct (agents s !! id); [| apply step_refl]. apply step_save, step_frame. by left.
  - apply step_save, step_frame. by left.
  - apply step_delete_environment.
  - by apply step_alloc.
  - apply step_put_session.
  - apply step_delete_session.
  - unfold AppendEvent, persist. apply step_save. unfold Append. destruct (heap s !! ptr) as [r |] eqn:Hr; [| apply step_refl].
    eapply step_record; [done | apply evolves_events | done].
  - by apply step_update_session.
  - by apply step_update_session.
  - by apply step_update_session.
  - unfold SetInFlightTask. destruct (heap s !! ptr) as [r |] eqn:Hr; [| apply step_refl]. by apply (step_transient _ _ r).
  - unfold SetOutcomeCancel. destruct (heap s !! ptr) as [r |] eqn:Hr; [| apply step_refl]. by apply (step_transient _ _ r).
  - apply step_begin.
  - apply step_update.
  - rewrite Reconcile_unfold. case_match; cbn [fst]; [by apply step_reconciled | by apply step_save, step_reconciled].
  - apply step_save, step_refl.
  - unfold Subscribe. destruct (heap s !! ptr) as [r |] eqn:Hr; [| apply step_refl].
    eapply step_record; [done | by apply evolves_same | lia].
  - unfold Unsubscribe. destruct (heap s !! ptr) as [r |] eqn:Hr; [| apply step_refl]. by apply (step_transient _ _ r).
  - unfold receive. destruct (channels s !! ch) as [[| ev buf] |]; cbn [fst]; [apply step_refl | | apply step_refl].
    apply step_frame. by left.
Qed.

Lemma apply_wf s o : visits range → wf s → wf (apply s o).
Proof. intros Hv W. by eapply step_wf; [apply apply_step |]. Qed.

Lemma run_wf ops s : visits range → wf s → wf (run ops s).
Proof. intros Hv. revert s. induction ops as [| o ops IH]; intros s W; [done |]. apply IH, apply_wf; done. Qed.

Lemma run_snoc ops o s : run (ops ++ [o]) s = apply (run ops s) o.
Proof. unfold run. by rewrite foldl_app. Qed.

(** ** What the file holds *)

Section durable.
Context (Unmarshal : string → option persisted).

Definition durable (s : Store) : Prop :=
  (file s = None ∧ snapshot s = (∅, ∅, ∅)) ∨ ∃ d, file s = Some d ∧ Unmarshal d = Some (snapshot s).

Definition representable (s : Store) : Prop := ∃ d, Marshal (snapshot s) = Some d ∧ Unmarshal d = Some (snapshot s).

Lemma snapshot_save s : snapshot (fst (saveLocked Marshal s)) = snapshot s.
Proof. by destruct (saveLocked_file s) as [f ->]. Qed.

Lemma durable_save s : representable (fst (saveLocked Marshal s)) → durable (fst (saveLocked Marshal s)).
Proof.
  unfold durable, representable. rewrite snapshot_save. intros (d & Hm & Hu). right. exists d. split; [| done].
  unfold saveLocked. by rewrite Hm.
Qed.

Lemma snapshot_same s h ch n f :
  (∀ id p, sessions s !! id = Some p → saved_of <$> h !! p = saved_of <$> heap s !! p) →
  snapshot (mkStore (agents s) (environments s) (sessions s) h ch n f) = snapshot s.
Proof.
  intros H. unfold snapshot. cbn. f_equal. apply map_eq. intros id. rewrite !lookup_omap.
  destruct (sessions s !! id) as [p |] eqn:Hp; [| done]. cbn. by apply (H id).
Qed.

Lemma snapshot_transient ptr r r' s ch n f :
  heap s !! ptr = Some r → saved_of r' = saved_of r →
  snapshot (mkStore (agents s) (environments s) (sessions s) (<[ptr := r']> (heap s)) ch n f) = snapshot s.
Proof.
  intros Hr E. apply snapshot_same. intros id p _. destruct (decide (ptr = p)) as [-> | Hne].
  - rewrite lookup_insert_eq, Hr. cbn. by rewrite E.
  - by rewrite lookup_insert_ne.
Qed.

Definition unsaved (s s' : Store) : Prop := snapshot s' = snapshot s ∧ file s' = file s.

Definition saves (s s' : Store) : Prop := (∃ s1, s' = fst (saveLocked Marshal s1)) ∨ unsaved s s'.

Lemma saves_save s s1 : saves s (fst (saveLocked Marshal s1)).
Proof. left. by exists s1. Qed.

Lemma saves_refl s : saves s s.
Proof. by right. Qed.

Lemma saves_update ptr f s : saves s (fst (update_session Marshal ptr f s)).
Proof. unfold update_session. destruct (heap s !! ptr); [apply saves_save | apply saves_refl]. Qed.

Lemma saves_reconcile newIDs now s :
  visits range → wf s → saves s (fst (fst (ReconcileInterruptedSessions Marshal range newIDs now s))).
Proof.
  intros Hv W. rewrite Reconcile_unfold. cbn zeta.
  destruct (reconcile_fold newIDs now _ (heap s) 0 (visits_pointers s Hv W)) as (A & B & C).
  destruct (snd _ =? 0)%Z eqn:E0; cbn [fst]; [| apply saves_save]. right. split; [| done].
  apply Z.eqb_eq in E0. rewrite C in E0. unfold reconciled. apply snapshot_same. intros id p Hp.
  apply (visits_elem range _ _ _ Hv) in Hp. rewrite (B id p Hp).
  destruct (filter (interrupted_at (heap s)) (range (sessions s))) as [| x l] eqn:Hf; [| cbn in E0; lia].
  assert ((id, p) ∉ filter (interrupted_at (heap s)) (range (sessions s))) as Hni by (rewrite Hf; set_solver).
  rewrite list_elem_of_filter in Hni. unfold settle. destruct (heap s !! p) as [r |] eqn:Hr; [| done]. cbn.
  destruct (interrupted (r_Session r)) eqn:Hi; [| done]. exfalso. apply Hni. split; [| done].
  unfold interrupted_at. cbn. by rewrite Hr; cbn; rewrite Hi.
Qed.

Lemma apply_saves s o : visits range → wf s → saves s (apply s o).
Proof.
  intros Hv W. destruct o; cbn [apply]; try apply saves_save; try apply saves_update.
  - unfold ArchiveAgent. destruct (agents s !! id); [apply saves_save | apply saves_refl].
  - unfold DeleteEnvironment. destruct (environments s !! id); [| apply saves_refl]. rewrite fst_pair_bind. apply saves_save.
  - right. split; [| done]. apply snapshot_same. intros id p Hp. rewrite lookup_insert_ne; [done |]. intros <-.
    destruct (wf_sess s W id _ Hp) as (r & Hr & _). pose proof (wf_heap s W _ (mk_is_Some _ _ Hr)). lia.
  - unfold PutSession. destruct (heap s !! ptr); [apply saves_save | apply saves_refl].
  - unfold DeleteSession. destruct (sessions s !! id); [| apply saves_refl]. rewrite fst_pair_bind. apply saves_save.
  - unfold SetInFlightTask. destruct (heap s !! ptr) as [r |] eqn:Hr; [| apply saves_refl].
    right. split; [by apply (snapshot_transient _ r) | done].
  - unfold SetOutcomeCancel. destruct (heap s !! ptr) as [r |] eqn:Hr; [| apply saves_refl].
    right. split; [by apply (snapshot_transient _ r) | done].
  - unfold beginOutcome. destruct (heap s !! ptr) as [r |]; [| apply saves_refl].
    destruct (outcome_active _); [apply saves_refl |]. rewrite fst_pair_bind. apply saves_save.
  - unfold UpdateOutcome. destruct (heap s !! ptr) as [r |]; [| apply saves_refl].
    destruct (outcome_index _ _ _ _); [| apply saves_refl]. rewrite fst_pair_bind. apply saves_save.
  - by apply saves_reconcile.
  - unfold Subscribe. destruct (heap s !! ptr) as [r |] eqn:Hr; [| apply saves_refl].
    right. split; [by apply (snapshot_transient _ r) | done].
  - unfold Unsubscribe. destruct (heap s !! ptr) as [r |] eqn:Hr; [| apply saves_refl].
    right. split; [by apply (snapshot_transient _ r) | done].
  - unfold receive. by destruct (channels s !! ch) as [[| ev buf] |]; right.
Qed.

Lemma apply_durable s o : visits range → wf s → representable (apply s o) → durable s → durable (apply s o).
Proof.
  intros Hv W Hr Hd. destruct (apply_saves s o Hv W) as [(s1 & E) | [Hs Hf]].
  - rewrite E in *. by apply durable_save.
  - unfold durable. by rewrite Hs, Hf.
Qed.

Lemma run_durable ops :
  visits range → (∀ k, representable (run (take k ops) empty_store)) → durable (run ops empty_store).
Proof.
  intros Hv. induction ops as [| o ops IH] using rev_ind; intros Hr.
  - left. split; [done |]. unfold snapshot. cbn. by rewrite omap_empty.
  - rewrite run_snoc. apply apply_durable; [done | by apply run_wf, wf_empty | |].
    + specialize (Hr (length (ops ++ [o]))). by rewrite firstn_all, run_snoc in Hr.
    + apply IH. intros k. specialize (Hr (min k (length ops))). rewrite take_app_le in Hr by lia.
      destruct (decide (k ≤ length ops)) as [Hle | Hgt]; [by rewrite Nat.min_l in Hr |].
      rewrite Nat.min_r in Hr by lia. rewrite take_ge in Hr by lia. by rewrite take_ge by lia.
Qed.

(** ** Loading the file *)

Lemma load_fold l : ∀ m h n,
  NoDup l.*1 → (∀ p, is_Some (h !! p) → (p < n)%Z) →
  let '(m', h', n') := foldl load_session (m, h, n) l in
  (n ≤ n')%Z ∧
  (∀ k, k ∉ l.*1 → m' !! k = m !! k) ∧
  (∀ p, (p < n)%Z → h' !! p = h !! p) ∧
  (∀ k x, (k, x) ∈ l → ∃ p, m' !! k = Some p ∧ h' !! p = Some (loaded_of x)) ∧
  (∀ p r, h' !! p = Some r → (p < n')%Z ∧ (h !! p = Some r ∨ ∃ k x, (k, x) ∈ l ∧ r = loaded_of x)).
Proof.
  induction l as [| [k x] l IH]; intros m h n Hnd Hh.
  { cbn. split_and!; [done | done | done | set_solver |]. intros p r Hr. split; [eauto | by left]. }
  cbn in Hnd. apply NoDup_cons in Hnd as [Hni Hnd]. cbn [foldl load_session fst snd].
  specialize (IH (<[k := n]> m) (<[n := loaded_of x]> h) (n + 1)%Z Hnd).
  destruct (foldl load_session _ l) as [[m' h'] n']. destruct IH as (A & B & C & D & E).
  { intros p Hp. destruct (decide (n = p)) as [<- | Hne]; [lia |]. rewrite lookup_insert_ne in Hp by done.
    specialize (Hh p Hp). lia. }
  split_and!.
  - lia.
  - intros q Hq. cbn in Hq. rewrite B by set_solver. rewrite lookup_insert_ne; [done | set_solver].
  - intros p Hp. rewrite C by lia. rewrite lookup_insert_ne; [done | lia].
  - intros k' x' [[= -> ->] | Hin]%elem_of_cons; [| by apply D]. exists n. split.
    + by rewrite B, lookup_insert_eq.
    + rewrite C by lia. by rewrite lookup_insert_eq.
  - intros p r Hr. destruct (E p r Hr) as [Hp [Ho | (k' & x' & Hin & ->)]]; split; try done.
    + destruct (decide (n = p)) as [<- | Hne].
      * rewrite lookup_insert_eq in Ho. injection Ho as <-. right. exists k, x. split; [by left | done].
      * rewrite lookup_insert_ne in Ho by done. by left.
    + right. exists k', x'. split; [by right | done].
Qed.

(** A record as it comes out of the file. *)
Definition transient_clear (r : SessionRecord) : Prop := subs r = ∅ ∧ inFlightTaskID r = "" ∧ outcomeCancel r = None.

Lemma New_loads range' d p :
  visits range' → Unmarshal d = Some p →
  ∃ s', New Unmarshal range' (Some d) = Some s' ∧ snapshot s' = p ∧ file s' = Some d ∧ channels s' = ∅ ∧
    (∀ q r, heap s' !! q = Some r → (q < next s')%Z ∧ transient_clear r).
Proof.
  intros Hv Hu. destruct p as [[ags envs] sess]. unfold New. rewrite Hu. cbn [mbind option_bind].
  pose proof (load_fold (range' sess) ∅ ∅ 0%Z (visits_NoDup range' _ Hv)) as H.
  destruct (foldl load_session _ _) as [[m h] n]. destruct H as (A & B & C & D & E); [intros q [? Hq]; set_solver |].
  eexists. split; [done |]. split_and!; [| done | done |].
  - unfold snapshot. cbn. f_equal. apply map_eq. intros k. rewrite lookup_omap. destruct (sess !! k) as [x |] eqn:Hx.
    + apply (visits_elem range' _ _ _ Hv) in Hx. destruct (D k x Hx) as (q & -> & Hq). cbn. rewrite Hq. cbn.
      by destruct x as [[[??]?]?].
    + rewrite B; [by rewrite lookup_empty |]. intros Hin. apply list_elem_of_fmap in Hin as ([k' x] & -> & Hin).
      apply (visits_elem range' _ _ _ Hv) in Hin. cbn in Hx. congruence.
  - cbn. intros q r Hr. destruct (E q r Hr) as [Hq [Ho | (k & x & _ & ->)]]; [set_solver |].
    split; [done |]. by destruct x as [[[??]?]?].
Qed.

(** (C9) A facade restarted at any point of any history of operations has the
    agents, environments and sessions it had - every version, event, outcome and
    status - and none of the transient state: no subscriber, no turn in flight,
    no cancel function. The JSON codec has to represent the states of the
    history, and the maps may be visited in any order, a different one after the
    restart. *)
Theorem store_reload range' ops :
  visits range → visits range' → (∀ k, representable (run (take k ops) empty_store)) →
  ∃ s', New Unmarshal range' (file (run ops empty_store)) = Some s' ∧ snapshot s' = snapshot (run ops empty_store) ∧
    file s' = file (run ops empty_store) ∧ channels s' = ∅ ∧
    ∀ p r, heap s' !! p = Some r → (p < next s')%Z ∧ transient_clear r.
Proof.
  intros Hv Hv' Hr. destruct (run_durable ops Hv Hr) as [[Hf Hs] | (d & Hf & Hu)]; rewrite Hf.
  - eexists. split; [done |]. rewrite Hs. split_and!; [| done | done | cbn; set_solver].
    unfold snapshot. cbn. by rewrite omap_empty.
  - by apply New_loads.
Qed.
End durable.

(** ** Agent versions as a function of the history *)

(** A version of an agent after a history, newest operation first: the last
    agent put under that id and version, marked by every archiving since. *)
Fixpoint version_at (h : list op) (id : string) (v : Z) : option Agent :=
  match h with
  | [] => None
  | OpPutAgent a :: h => if decide (ag_ID a = id ∧ Version a = v) then Some a else version_at h id v
  | OpArchiveAgent id' t :: h => if decide (id' = id) then archived t <$> version_at h id v else version_at h id v
  | _ :: h => version_at h id v
  end.

(** The greatest version put, at least 0. *)
Fixpoint latest_at (h : list op) (id : string) : Z :=
  match h with
  | [] => 0
  | OpPutAgent a :: h => if decide (ag_ID a = id) then Z.max (Version a) (latest_at h id) else latest_at h id
  | _ :: h => latest_at h id
  end.

Lemma cloneAgent_id a : cloneAgent a = a.
Proof.
  destruct a as [??????? tools]. unfold cloneAgent. cbn. f_equal. induction tools as [| [] l IH]; [done |].
  rewrite fmap_cons, IH. done.
Qed.

Lemma agents_save s : agents (fst (saveLocked Marshal s)) = agents s.
Proof. by destruct (saveLocked_file s) as [f ->]. Qed.

Lemma agents_update_session ptr f s : agents (fst (update_session Marshal ptr f s)) = agents s.
Proof. unfold update_session, persist. destruct (heap s !! ptr); [by rewrite agents_save | done]. Qed.

Definition agent_op (o : op) : bool :=
  match o with OpPutAgent _ | OpArchiveAgent _ _ => true | _ => false end.

Lemma agents_frame s o : agent_op o = false → agents (apply s o) = agents s.
Proof.
  destruct o; intros Ho; try discriminate Ho; cbn [apply]; try apply agents_update_session;
    unfold PutEnvironment, DeleteEnvironment, PutSession, DeleteSession, AppendEvent, Append, persist, SetInFlightTask,
      SetOutcomeCancel, beginOutcome, UpdateOutcome, SaveSnapshot, Subscribe, Unsubscribe, receive;
    try rewrite Reconcile_unfold; cbn zeta;
    repeat (case_match; simplify_eq/=);
    repeat match goal with
      | H : persist _ _ = _ |- _ => unfold persist in H
      | H : saveLocked Marshal ?x = (?y, _) |- _ => pose proof (agents_save x); rewrite H in *; clear H
      end; rewrite ?agents_save; done.
Qed.

(** What the store holds of one agent. *)
Definition agent_ok (s : Store) (h : list op) (id : string) : Prop :=
  match agents s !! id with
  | None => latest_at h id = 0%Z ∧ ∀ v, version_at h id v = None
  | Some rec => Latest rec = latest_at h id ∧ ∀ v, Versions rec !! v = version_at h id v
  end.

Lemma agent_ok_put s h a id : (∀ id, agent_ok s h id) → agent_ok (apply s (OpPutAgent a)) (OpPutAgent a :: h) id.
Proof.
  intros Hok. specialize (Hok id). unfold agent_ok in *. cbn [apply PutAgentVersion latest_at version_at].
  unfold PutAgentVersion. rewrite agents_save, cloneAgent_id. cbn [agents with_agents].
  destruct (decide (ag_ID a = id)) as [<- | Hne].
  - rewrite lookup_insert_eq. cbn [Latest Versions].
    destruct (agents s !! ag_ID a) as [rec |]; cbn [default from_option Latest Versions]; unfold Datatypes.id; cbn [Latest Versions];
      destruct Hok as [Hl Hv].
    + split; [destruct (Z.ltb_spec (Latest rec) (Version a)); lia |]. intros v. destruct (decide (Version a = v)) as [<- | Hnv].
      * rewrite lookup_insert_eq. by rewrite decide_True.
      * rewrite lookup_insert_ne, Hv by done. by rewrite decide_False by tauto.
    + split; [destruct (Z.ltb_spec 0 (Version a)); lia |]. intros v. destruct (decide (Version a = v)) as [<- | Hnv].
      * rewrite lookup_insert_eq. by rewrite decide_True.
      * rewrite lookup_insert_ne by done. rewrite decide_False by tauto. by rewrite Hv, lookup_empty.
  - rewrite lookup_insert_ne by done. destruct (agents s !! id); destruct Hok as [Hl Hv]; (split; [done |]);
      intros v; by rewrite decide_False by tauto.
Qed.

Lemma agent_ok_archive s h id' t id :
  (∀ id, agent_ok s h id) → agent_ok (apply s (OpArchiveAgent id' t)) (OpArchiveAgent id' t :: h) id.
Proof.
  intros Hok. specialize (Hok id). unfold agent_ok in *. cbn [apply latest_at version_at]. unfold ArchiveAgent.
  destruct (agents s !! id') as [rec |] eqn:Hr; cbn [fst]; [rewrite agents_save; cbn [agents with_agents] |].
  - destruct (decide (id' = id)) as [-> | Hne].
    + rewrite Hr in Hok. destruct Hok as [Hl Hv]. rewrite lookup_insert_eq. split; [done |]. intros v. cbn.
      by rewrite lookup_fmap, Hv.
    + by rewrite lookup_insert_ne.
  - destruct (decide (id' = id)) as [-> | Hne]; [| done]. rewrite Hr in *. destruct Hok as [Hl Hv]. split; [done |].
    intros v. by rewrite Hv.
Qed.

Lemma agent_ok_frame s h o id : agent_op o = false → agent_ok s h id → agent_ok (apply s o) (o :: h) id.
Proof. intros Ho. unfold agent_ok. rewrite agents_frame by done. by destruct o. Qed.

Lemma run_agent_ok ops id : agent_ok (run ops empty_store) (reverse ops) id.
Proof.
  revert id. induction ops as [| o ops IH] using rev_ind; intros id; [done |]. rewrite run_snoc, reverse_snoc.
  destruct (agent_op o) eqn:Ho; [| by apply agent_ok_frame]. destruct o; try discriminate Ho.
  - by apply agent_ok_put.
  - by apply agent_ok_archive.
Qed.

(** What the store answers about an agent is a function of the history
    alone, whatever else happened to environments and sessions: version [v] is the
    last agent put under that id and version, with the archivals since; version
    0 is the greatest version put; and the list has exactly the agents whose
    latest version exists. *)
Lemma agent_versions_refine range' ops :
  visits range' →
  (∀ id v, GetAgent id v (run ops empty_store) =
     version_at (reverse ops) id (if (v =? 0)%Z then latest_at (reverse ops) id else v)) ∧
  (∀ a, a ∈ ListAgents range' (run ops empty_store) ↔
     ∃ id, version_at (reverse ops) id (latest_at (reverse ops) id) = Some a).
Proof.
  intros Hv. pose proof (run_agent_ok ops) as Hok. unfold agent_ok in Hok. split.
  - intros id v. specialize (Hok id). unfold GetAgent. destruct (agents _ !! id) as [rec |]; cbn; destruct Hok as [Hl Hvs].
    + rewrite <- Hl, <- Hvs. destruct (Versions rec !! _); cbn; [by rewrite cloneAgent_id | done].
    + by rewrite Hvs.
  - intros a. unfold ListAgents. rewrite list_elem_of_omap. split.
    + intros ([id rec] & Hin & Ha). apply (visits_elem range' _ _ _ Hv) in Hin. exists id. specialize (Hok id).
      rewrite Hin in Hok. destruct Hok as [Hl Hvs]. cbn in Ha. rewrite <- Hl, <- Hvs.
      destruct (Versions rec !! _); cbn in Ha; [by rewrite cloneAgent_id in Ha | done].
    + intros (id & Ha). specialize (Hok id). destruct (agents _ !! id) as [rec |] eqn:Hr; destruct Hok as [Hl Hvs].
      * exists (id, rec). split; [by apply (visits_elem range') |]. cbn. rewrite Hl, Hvs, Ha. cbn. by rewrite cloneAgent_id.
      * by rewrite Hvs in Ha.
Qed.

(** ** Outcomes and logs along a run *)

Fixpoint fair_run (s : Store) (ops : list op) : Prop :=
  match ops with
  | [] => True
  | o :: ops => fair s o ∧ fair_run (apply s o) ops
  end.

Definition all_outcomes_ok (s : Store) : Prop :=
  ∀ p r, heap s !! p = Some r → outcomes_ok (OutcomeEvaluations (r_Session r)).

Lemma apply_outcomes_ok s o : visits range → wf s → fair s o → all_outcomes_ok s → all_outcomes_ok (apply s o).
Proof.
  intros Hv W HF Hok p r' Hr'. destruct (st_heap _ _ _ (apply_step s o Hv W) p r' Hr') as [(r & Hr & He) | (_ & _ & Hnil)].
  - apply (ev_ok _ _ _ He HF). by apply (Hok p).
  - rewrite (Hnil HF). intros i oc Hi. by rewrite lookup_nil in Hi.
Qed.

Lemma run_outcomes_ok ops : ∀ s, visits range → wf s → fair_run s ops → all_outcomes_ok s → all_outcomes_ok (run ops s).
Proof.
  induction ops as [| o ops IH]; intros s Hv W HF Hok; [done |]. destruct HF as [HF1 HF2].
  apply IH; [done | by apply apply_wf | done | by apply apply_outcomes_ok].
Qed.

Lemma apply_evolves s o p r :
  visits range → wf s → heap s !! p = Some r → ∃ r', heap (apply s o) !! p = Some r' ∧ evolves (fair s o) r r'.
Proof.
  intros Hv W Hr. pose proof (apply_step s o Hv W) as Hst.
  destruct (st_kept _ _ _ Hst p (mk_is_Some _ _ Hr)) as [r' Hr']. exists r'. split; [done |].
  destruct (st_heap _ _ _ Hst p r' Hr') as [(r0 & Hr0 & He) | ([Hge _] & _)]; [congruence |].
  pose proof (wf_heap s W p (mk_is_Some _ _ Hr)). lia.
Qed.

Lemma outcomes_active_count l : outcomes_ok l → length (filter (λ o, active o) l) ≤ 1.
Proof.
  induction l as [| o l IH]; intros Hok; [cbn; lia |]. assert (outcomes_ok l) as Hl.
  { intros i x Hi Hlt. apply (Hok (S i)); [done | cbn; lia]. }
  specialize (IH Hl). destruct l as [| o' l]; [rewrite filter_cons; case_decide; cbn; lia |].
  rewrite filter_cons, decide_False; [done |]. rewrite (Hok 0 o eq_refl) by (cbn; lia). intros [].
Qed.

(** In any history whose updates are those of an outcome loop (an outcome
    keeps its id, and a terminal one is not revived) a session never has two
    active outcomes, whichever way begins, updates, deletions, saves
    and recovery interleave; and a new outcome is accepted exactly when none is
    active. *)
Lemma one_active_outcome ops p r :
  visits range → fair_run empty_store ops → heap (run ops empty_store) !! p = Some r →
  length (filter (λ o, active o) (OutcomeEvaluations (r_Session r))) ≤ 1 ∧
  ∀ now oc cancel,
    snd (fst (beginOutcome Marshal now p oc cancel (run ops empty_store))) = true ↔
    ∀ o, o ∈ OutcomeEvaluations (r_Session r) → active o = false.
Proof.
  intros Hv HF Hr. assert (outcomes_ok (OutcomeEvaluations (r_Session r))) as Hok.
  { eapply (run_outcomes_ok ops empty_store); [done | apply wf_empty | done | | done]. intros q x Hq. cbn in Hq. by rewrite lookup_empty in Hq. }
  split; [by apply outcomes_active_count |]. intros now oc cancel. unfold beginOutcome. rewrite Hr.
  destruct (outcome_active (r_Session r)) eqn:Ha.
  - cbn. split; [done |]. intros Hall. unfold outcome_active in Ha. destruct (last _) as [o |] eqn:Hl; [| done].
    apply last_Some in Hl as [l Hl]. rewrite Hl in Hall. specialize (Hall o). unfold active in Hall.
    rewrite Hall in Ha; [done | set_solver].
  - rewrite fst_pair_bind. split; [intros _; by apply last_active | done].
Qed.

(** A session record is never lost and its history only grows: from any
    well-formed store, through any fair operations on any sessions, deletions
    included, the record at an address keeps its session id, the instance name
    and the context id, its event log is extended at the end only, and so is the
    list of its outcomes. *)
Lemma session_history_grows ops : ∀ s p r,
  visits range → wf s → fair_run s ops → heap s !! p = Some r →
  ∃ r', heap (run ops s) !! p = Some r' ∧ s_ID (r_Session r') = s_ID (r_Session r) ∧
    AhsirName r' = AhsirName r ∧ ContextID r' = ContextID r ∧ Events r `prefix_of` Events r' ∧
    oc_OutcomeID <$> OutcomeEvaluations (r_Session r) `prefix_of` oc_OutcomeID <$> OutcomeEvaluations (r_Session r').
Proof.
  induction ops as [| o ops IH]; intros s p r Hv W HF Hr; [by exists r |]. destruct HF as [HF1 HF2].
  destruct (apply_evolves s o p r Hv W Hr) as (r1 & Hr1 & He1).
  destruct (IH (apply s o) p r1 Hv (apply_wf s o Hv W) HF2 Hr1) as (r' & Hr' & A & B & C & D & E).
  exists r'. destruct He1 as [E1 (E2 & E3 & _) E4 E5 _]. split_and!; [done | congruence.. | |].
  - by etrans.
  - etrans; [by apply E5 | done].
Qed.

(** ** Recovery *)

Definition record_of (s : Store) (id : string) : option SessionRecord := sessions s !! id ≫= λ p, heap s !! p.

Lemma record_of_reconciled newIDs now s id :
  visits range → wf s → record_of (reconciled newIDs now s) id = settle newIDs now id <$> record_of s id.
Proof.
  intros Hv W. destruct (reconcile_fold newIDs now _ (heap s) 0 (visits_pointers s Hv W)) as (_ & B & _).
  unfold record_of. cbn. destruct (sessions s !! id) as [p |] eqn:Hp; [| done]. cbn. apply B. by apply (visits_elem range).
Qed.

Definition is_interrupted (s : Store) (id : string) : bool :=
  from_option (λ r, interrupted (r_Session r)) false (record_of s id).

Lemma list_filter_none {A} (P : A → Prop) `{!∀ x, Decision (P x)} (l : list A) : (∀ x, x ∈ l → ¬ P x) → filter P l = [].
Proof.
  induction l as [| x l IH]; intros Hl; [done |]. rewrite filter_cons_False by (apply Hl; by left).
  apply IH. intros y Hy. apply Hl. by right.
Qed.

Lemma reconcile_count newIDs now s :
  visits range → wf s →
  snd (foldl (reconcile_session newIDs now) (heap s, 0%Z) (range (sessions s))) =
  Z.of_nat (length (filter (λ x : string * Z, is_interrupted s x.1) (range (sessions s)))).
Proof.
  intros Hv W. destruct (reconcile_fold newIDs now _ (heap s) 0 (visits_pointers s Hv W)) as (_ & _ & ->). rewrite Z.add_0_l. f_equal. f_equal.
  apply list_filter_ext. intros [id p] Hin. apply (visits_elem range _ _ _ Hv) in Hin. unfold interrupted_at, is_interrupted, record_of.
  cbn. by rewrite Hin.
Qed.

(** Recovery at startup settles exactly the sessions that were running when
    the process died and are not archived: each gets one error event and one
    terminated event at the end of its log and the status terminated, all else of
    it is as it was; every other session is untouched; the count is the number
    settled and the result is saved unless it is 0; afterwards no session is left
    to settle, so that recovering again does nothing. *)
Lemma reconcile_settles newIDs now s :
  visits range → wf s →
  let '(s', count, ok) := ReconcileInterruptedSessions Marshal range newIDs now s in
  (∀ id r, record_of s id = Some r → record_of s' id = Some (
     if is_interrupted s id
     then mkSessionRecord (set_status StatusTerminated now (r_Session r)) (AhsirName r) (ContextID r)
            (Events r ++ interruption_events now (newIDs id)) (subs r) (inFlightTaskID r) (outcomeCancel r)
     else r)) ∧
  agents s' = agents s ∧ environments s' = environments s ∧ sessions s' = sessions s ∧
  count = Z.of_nat (size (filter (λ x : string * Z, is_interrupted s x.1) (sessions s))) ∧
  (if (count =? 0)%Z then file s' = file s ∧ ok = true
   else match Marshal (snapshot s') with Some d => file s' = Some d ∧ ok = true | None => file s' = file s ∧ ok = false end) ∧
  (∀ id, is_interrupted s' id = false) ∧
  (∀ newIDs' now', snd (fst (ReconcileInterruptedSessions Marshal range newIDs' now' s')) = 0%Z).
Proof.
  intros Hv W. rewrite Reconcile_unfold, reconcile_count by done. cbn zeta.
  set (n := Z.of_nat (length _)). set (s1 := reconciled newIDs now s).
  assert (∃ s' ok, (if (n =? 0)%Z then (s1, 0%Z, true) else (fst (saveLocked Marshal s1), n, snd (saveLocked Marshal s1))) = (s', n, ok) ∧
    (∃ f, s' = with_file f s1) ∧
    (if (n =? 0)%Z then file s' = file s ∧ ok = true
     else match Marshal (snapshot s') with Some d => file s' = Some d ∧ ok = true | None => file s' = file s ∧ ok = false end))
    as (s' & ok & -> & (f & ->) & Hf).
  { destruct (n =? 0)%Z eqn:E.
    - apply Z.eqb_eq in E. exists s1, true. rewrite E. split_and!; [done | | done | done]. exists (file s1). by destruct s1.
    - eexists _, _. split; [done |]. split; [apply saveLocked_file |]. rewrite snapshot_save. unfold saveLocked.
      by destruct (Marshal (snapshot s1)). }
  assert (∀ id, record_of (with_file f s1) id = settle newIDs now id <$> record_of s id) as Hrec
    by (intros id; by apply record_of_reconciled).
  assert (∀ id, is_interrupted (with_file f s1) id = false) as Hnone.
  { intros id. unfold is_interrupted. rewrite Hrec. destruct (record_of s id) as [r |]; [| done]. cbn. unfold settle.
    destruct (interrupted (r_Session r)) eqn:Hi; [| done]. unfold interrupted. cbn. by rewrite andb_false_r. }
  assert (wf (with_file f s1)) as W'.
  { eapply (step_wf True s); [| done]. by destruct (step_reconciled True newIDs now s Hv W). }
  split_and!; [| done | done | done | | done | done |].
  - intros id r Hr. rewrite Hrec. unfold is_interrupted. rewrite Hr. cbn. unfold settle. by destruct (interrupted (r_Session r)).
  - unfold n. f_equal. apply (length_filter_visit _ _ _ (Hv (sessions s))).
  - intros newIDs' now'. rewrite Reconcile_unfold, reconcile_count by done. cbn zeta.
    assert (filter (λ x : string * Z, is_interrupted (with_file f s1) x.1) (range (sessions (with_file f s1))) = []) as ->; [| done].
    apply list_filter_none. intros x _. rewrite Hnone. by intros [].
Qed.
End laws.

(** ** Witnesses *)

Definition w_session (id status : string) : Session :=
  mkSession "session" id "" status "env_1"
    (mkSessionAgent "agent" "agent_1" 1 "a" (mkModel "m" "") "" "" [] [] []) [] [] [] ∅ 0 0 None.

Definition w_event (id : string) : Event := event_of id EvtSessionStatusRunning (Some 1%Z).

Definition w_ops : list op :=
  [OpAlloc (w_session "s1" StatusRunning) "inst" "ctx"; OpPutSession 0; OpAppend 0 (w_event "e1")].

(** A codec for the three states of the history [w_ops]: a file per state. *)
Definition w_state (k : nat) : persisted :=
  snapshot (run (λ _, None) map_to_list (take k w_ops) empty_store).

Definition w_marshal (p : persisted) : option string :=
  match p.2 !! "s1" with
  | None => Some "0"
  | Some x => Some (if snd x is [] then "1" else "2")
  end.

Definition w_unmarshal (d : string) : option persisted :=
  Some (w_state (if decide (d = "0") then 0 else if decide (d = "1") then 2 else 3)).

Lemma w_visits {A} : visits (@map_to_list string A _ _).
Proof. by intros m. Qed.

Lemma w_representable k : representable w_marshal w_unmarshal (run w_marshal map_to_list (take k w_ops) empty_store).
Proof.
  destruct k as [| [| [| k]]].
  - exists "0". by vm_compute.
  - exists "0". by vm_compute.
  - exists "1". by vm_compute.
  - exists "2". rewrite take_ge by (cbn; lia). by vm_compute.
Qed.

Lemma store_reload_witness :
  ∃ s', New w_unmarshal map_to_list (file (run w_marshal map_to_list w_ops empty_store)) = Some s' ∧
    snapshot s' = snapshot (run w_marshal map_to_list w_ops empty_store) ∧
    from_option (λ r, length (Events r)) 0 (record_of s' "s1") = 1.
Proof.
  destruct (store_reload w_marshal map_to_list w_unmarshal map_to_list w_ops w_visits w_visits w_representable)
    as (s' & E & Hs & _). exists s'. split_and!; [exact E | exact Hs |].
  vm_compute in E. injection E as <-. vm_compute. reflexivity.
Defined.

Definition w_agent (v : Z) (name : string) : Agent :=
  mkAgent "agent" "agent_1" v name (mkModel "m" "") "" "" [] [] [] ∅ 0 0 None.

Definition w_versions : list op := [OpPutAgent (w_agent 1 "old"); OpSave; OpPutAgent (w_agent 2 "new"); OpArchiveAgent "agent_1" 9].

Lemma agent_versions_refine_witness :
  GetAgent "agent_1" 0 (run w_marshal map_to_list w_versions empty_store) = Some (archived 9 (w_agent 2 "new")) ∧
  GetAgent "agent_1" 1 (run w_marshal map_to_list w_versions empty_store) = Some (archived 9 (w_agent 1 "old")) ∧
  archived 9 (w_agent 2 "new") ∈ ListAgents map_to_list (run w_marshal map_to_list w_versions empty_store).
Proof.
  destruct (agent_versions_refine w_marshal map_to_list map_to_list w_versions w_visits) as [H1 H2].
  split_and!; [rewrite H1; vm_compute; reflexivity.. |]. apply H2. exists "agent_1". vm_compute. reflexivity.
Defined.

Definition w_outcome (id result : string) : OutcomeEvaluation := mkOutcome id "" "" 3 0 result "" [] "" 0 0 None.

Definition set_result (result : string) (o : OutcomeEvaluation) : OutcomeEvaluation :=
  mkOutcome (oc_OutcomeID o) (oc_Description o) (oc_Rubric o) (oc_MaxIterations o) (oc_Iteration o) result (oc_Explanation o)
    (oc_Criteria o) (oc_Deliverable o) (oc_CreatedAt o) (oc_UpdatedAt o) (oc_CompletedAt o).

(** The loop sets the running state without looking, and later the terminal one. *)
Definition w_outcomes : list op :=
  [OpAlloc (w_session "s1" StatusIdle) "inst" "ctx"; OpPutSession 0;
   OpBegin 1 0 (w_outcome "o1" OutcomeStatePending) (Some 7%Z);
   OpUpdate 2 0 "o1" (set_result OutcomeStateRunning);
   OpBegin 3 0 (w_outcome "o2" OutcomeStatePending) None;
   OpUpdate 4 0 "o1" (set_result OutcomeResultSatisfied);
   OpBegin 5 0 (w_outcome "o3" OutcomeStatePending) None].

Lemma w_fair : fair_run w_marshal map_to_list empty_store w_outcomes.
Proof.
  cbn [fair_run w_outcomes]. split_and!; try done.
  intros r i oc Hr Hi Ho. vm_compute in Hr. injection Hr as <-. vm_compute in Hi. injection Hi as <-.
  vm_compute in Ho. injection Ho as <-. split; vm_compute; [done | discriminate].
Qed.

Lemma one_active_outcome_witness :
  ∃ r, heap (run w_marshal map_to_list w_outcomes empty_store) !! 0%Z = Some r ∧
    (oc_OutcomeID <$> OutcomeEvaluations (r_Session r)) = ["o1"; "o3"] ∧
    length (filter (λ o, active o) (OutcomeEvaluations (r_Session r))) ≤ 1 ∧
    snd (fst (beginOutcome w_marshal 6 0 (w_outcome "o4" OutcomeStatePending) None
      (run w_marshal map_to_list w_outcomes empty_store))) ≠ true.
Proof.
  eexists. split; [vm_compute; reflexivity |].
  match goal with |- context [OutcomeEvaluations (r_Session ?r)] =>
    destruct (one_active_outcome w_marshal map_to_list w_outcomes 0 r w_visits w_fair) as [H1 H2]; [vm_compute; reflexivity |]
  end.
  split_and!; [vm_compute; reflexivity | exact H1 |].
  intros H. pose proof (proj1 (H2 _ _ _) H (w_outcome "o3" OutcomeStatePending)) as H3. vm_compute in H3.
  discriminate H3. right. left.
Defined.

Lemma w_wf : wf (run w_marshal map_to_list w_outcomes empty_store).
Proof. apply run_wf, wf_empty. apply w_visits. Qed.

Lemma session_history_grows_witness :
  ∃ r', heap (run w_marshal map_to_list [OpAppend 0 (w_event "e1"); OpDeleteSession "s1"; OpAppend 0 (w_event "e2")]
                (run w_marshal map_to_list w_outcomes empty_store)) !! 0%Z = Some r' ∧
    s_ID (r_Session r') = "s1" ∧ length (Events r') = 2.
Proof.
  destruct (heap (run w_marshal map_to_list w_outcomes empty_store) !! 0%Z) as [r |] eqn:Hr; [| vm_compute in Hr; discriminate Hr].
  destruct (session_history_grows w_marshal map_to_list
    [OpAppend 0 (w_event "e1"); OpDeleteSession "s1"; OpAppend 0 (w_event "e2")] _ 0 r w_visits w_wf) as (r' & Hr' & Hid & _).
  - exact (conj I (conj I (conj I I))).
  - exact Hr.
  - exists r'. split_and!; [exact Hr' | |].
    + rewrite Hid. vm_compute in Hr. by injection Hr as <-.
    + vm_compute in Hr'. by injection Hr' as <-.
Defined.

Lemma reconcile_settles_witness :
  let s := run w_marshal map_to_list w_ops empty_store in
  let res := ReconcileInterruptedSessions w_marshal map_to_list (λ id, (id +:+ "_a", id +:+ "_b")) 5 s in
  snd (fst res) = 1%Z ∧
  from_option (λ r, (Status (r_Session r), ev_Type <$> Events r)) ("", []) (record_of (fst (fst res)) "s1") =
    (StatusTerminated, [EvtSessionStatusRunning; EvtSessionError; EvtSessionStatusTerminate]).
Proof.
  intros s res. assert (wf s) as W by (apply run_wf, wf_empty; apply w_visits).
  pose proof (reconcile_settles w_marshal map_to_list (λ id, (id +:+ "_a", id +:+ "_b")) 5 s w_visits W) as H.
  fold res in H. destruct res as [[s' n] ok] eqn:E. destruct H as (H1 & _ & _ & _ & Hn & _).
  split.
  - cbn. rewrite Hn. vm_compute. reflexivity.
  - destruct (record_of s "s1") as [r |] eqn:Hr; [| vm_compute in Hr; discriminate Hr].
    cbn. rewrite (H1 "s1" r Hr). vm_compute in Hr. injection Hr as <-. vm_compute. reflexivity.
Defined.
