(* ===== verification/CmaCards.v ===== *)
(** * Cards and names of the facade's agents ([internal/cmagateway/translate/translate.go],
      [internal/cmagateway/ahsir/card.go], [internal/cmagateway/ahsir/client.go],
      [internal/cmagateway/cma/ids.go])

    Every version of an agent of the facade is an agent of the scheduler of its
    own, under a name derived from the id and the version, with a card rendered
    from the agent; and the requests by which the facade registers, cancels and
    deletes it. Random bytes are an argument of [NewID]; a request is what is
    sent, an HTTP exchange is answered by the environment. *)
From S2P Require Import Prelude GoBase GoStrings CmaTypes.
From Stdlib Require Import ZArith Lia Ascii.

(** ** Ids ([cma/ids.go]) *)

Definition PrefixAgent : string := "agent".
Definition PrefixEnvironment : string := "env".
Definition PrefixSession : string := "sesn".
Definition PrefixEvent : string := "sevt".
Definition PrefixOutcome : string := "outc".
Definition PrefixGraderContext : string := "gctx".

Definition alphabet : string := "abcdefghijklmnopqrstuvwxyz234567".

(** Base 32 without padding: groups of five bits, the most significant first,
    the last one filled up with zeros. *)
Definition byte_bits (b : Z) : list bool := (λ i, Z.testbit b i) <$> [7; 6; 5; 4; 3; 2; 1; 0]%Z.

Definition bits_value (bits : list bool) : nat := foldl (λ n (b : bool), 2 * n + if b then 1 else 0) 0 bits.

Definition symbol (bits : list bool) : ascii := default "a"%char (byte_at (bits_value bits) alphabet).

Fixpoint encode_bits (bits : list bool) : string :=
  match bits with
  | [] => ""
  | [a] => String (symbol [a; false; false; false; false]) ""
  | [a; b] => String (symbol [a; b; false; false; false]) ""
  | [a; b; c] => String (symbol [a; b; c; false; false]) ""
  | [a; b; c; d] => String (symbol [a; b; c; d; false]) ""
  | a :: b :: c :: d :: e :: bits => String (symbol [a; b; c; d; e]) (encode_bits bits)
  end.

Definition enc (bs : list Z) : string := encode_bits (bs ≫= byte_bits).

(** [NewID]: sixteen random bytes. *)
Definition NewID (random : list Z) (prefix : string) : string := prefix +:+ "_" +:+ lower_bytes (enc random).

(** ** The card ([ahsir/card.go]) *)

Record LifecycleInitializeConfig := mkCardInit {
  ci_Enabled : bool; ci_Timeout : string; ci_Prompt : string; ci_OnFailure : string;
}.

Record LifecycleFinalizeConfig := mkCardFinal {
  cf_Enabled : bool; cf_WorkTimeout : string; cf_GraceTimeout : string; cf_Prompt : string;
}.

Record LifecycleConfig := mkCardLifecycle { Initialize : LifecycleInitializeConfig; Finalize : LifecycleFinalizeConfig }.

Definition no_lifecycle : LifecycleConfig := mkCardLifecycle (mkCardInit false "" "" "") (mkCardFinal false "" "" "").

Record SkillConfig := mkSkillConfig { sk_Name : string; sk_Description : string }.

Record ClaudeConfig := mkClaudeConfig { SystemPrompt : string; MaxAgentCalls : Z }.

Record RuntimeConfig := mkRuntimeConfig {
  rt_Provider : string; rt_BaseURL : string; rt_APIKey : string; rt_Model : string; rt_WireAPI : string;
  rt_EnvKey : string;   (** [Credential.EnvKey] *)
  rt_Command : string; rt_Args : list string; rt_Env : gmap string string;
  rt_Timeout : string; rt_AgentIdleTimeout : string;
}.

Record FilesystemConfig := mkFilesystem { fs_Enabled : bool; WriteAccess : bool; ShellAccess : bool; AllowedPaths : list string }.

Record AgentCard := mkCard {
  card_Name : string;
  card_Description : string;
  card_Version : string;
  card_Skills : list SkillConfig;
  Claude : ClaudeConfig;
  Runtime : RuntimeConfig;
  Filesystem : FilesystemConfig;
  OutboundAccess : bool;                         (** [Network] *)
  PartialMessages : bool;                        (** [Streaming] *)
  SessionIsolation : string;                     (** [Pool] *)
  MCP_Servers : gmap string (string * string);   (** [MCP]: type and URL by name *)
  card_Lifecycle : LifecycleConfig;
}.

(** ** Translation ([translate/translate.go]) *)

Record RuntimeDefaults := mkDefaults { d_Provider : string; d_BaseURL : string; d_APIKey : string }.

Definition metadataRuntimeProvider : string := "runtime_provider".
Definition metadataRuntimeBaseURL : string := "runtime_base_url".
Definition metadataRuntimeAPIKeyEnv : string := "runtime_api_key_env".
Definition metadataRuntimeWireAPI : string := "runtime_wire_api".
Definition metadataNetworkAccess : string := "network_access".
Definition metadataLifecycleInitializeEnabled : string := "lifecycle_initialize_enabled".
Definition metadataLifecycleInitializeTimeout : string := "lifecycle_initialize_timeout".
Definition metadataLifecycleInitializePrompt : string := "lifecycle_initialize_prompt".
Definition metadataLifecycleInitializeOnFailure : string := "lifecycle_initialize_on_failure".
Definition metadataLifecycleFinalizeEnabled : string := "lifecycle_finalize_enabled".
Definition metadataLifecycleFinalizeWorkTimeout : string := "lifecycle_finalize_work_timeout".
Definition metadataLifecycleFinalizeGrace : string := "lifecycle_finalize_grace_timeout".
Definition metadataLifecycleFinalizePrompt : string := "lifecycle_finalize_prompt".

Definition name_char (first : bool) (c : ascii) : bool :=
  in_range 65 90 c || in_range 97 122 c || is_byte 95 c || (negb first && in_range 48 57 c).

(** [shellEnvNameRE.MatchString]: a letter or an underscore, then letters,
    digits and underscores. *)
Definition shellEnvName (s : string) : bool :=
  match s with EmptyString => false | String c s' => name_char true c && all_bytes (name_char false) s' end.

Definition AhsirAgentName (agentID : string) (version : Z) : string :=
  "cma-" +:+ TrimPrefix agentID (PrefixAgent +:+ "_") +:+ "-v" +:+ fmt_d version.

Definition AhsirGraderName (agentID : string) (version : Z) : string :=
  "cma-grader-" +:+ TrimPrefix agentID (PrefixAgent +:+ "_") +:+ "-v" +:+ fmt_d version.

(** A missing key reads as the empty string. *)
Definition meta_get (m : gmap string string) (k : string) : string := default "" (m !! k).

Definition skillDescription (s : SkillRef) : string :=
  if decide (skill_Type s = "anthropic") then "anthropic prebuilt skill: " +:+ SkillID s else "custom skill: " +:+ SkillID s.

(** The map filled by the loop over the servers: a later one with the same name wins. *)
Definition mcp_servers (l : list MCPServer) : gmap string (string * string) :=
  foldl (λ m s, <[server_Name s := ("http", server_URL s)]> m) ∅ l.

Definition Instances (a : Agent) : Z :=
  match Atoi (TrimSpace (meta_get (ag_Metadata a) "instances")) with
  | Some n => if (n <? 1)%Z then 0 else n
  | None => 0
  end.

Section translate.
Context `{UnicodeTables}.

Definition lifecycleFromMetadata (m : gmap string string) : LifecycleConfig :=
  mkCardLifecycle
    (if EqualFold (TrimSpace (meta_get m metadataLifecycleInitializeEnabled)) "true"
     then mkCardInit true (TrimSpace (meta_get m metadataLifecycleInitializeTimeout))
            (meta_get m metadataLifecycleInitializePrompt) (TrimSpace (meta_get m metadataLifecycleInitializeOnFailure))
     else mkCardInit false "" "" "")
    (if EqualFold (TrimSpace (meta_get m metadataLifecycleFinalizeEnabled)) "true"
     then mkCardFinal true (TrimSpace (meta_get m metadataLifecycleFinalizeWorkTimeout))
            (TrimSpace (meta_get m metadataLifecycleFinalizeGrace)) (meta_get m metadataLifecycleFinalizePrompt)
     else mkCardFinal false "" "" "").

Definition override (def value : string) : string := if decide (TrimSpace value = "") then def else TrimSpace value.

(** The API key and the environment key of the card, for the provider chosen. *)
Definition credentials (m : gmap string string) (provider : string) (d : RuntimeDefaults) : string * string + string :=
  let envName := TrimSpace (meta_get m metadataRuntimeAPIKeyEnv) in
  let codex := EqualFold provider "codex" in
  if decide (envName = "") then inl (if codex then "" else d_APIKey d, "")
  else if shellEnvName envName then inl (if codex then "" else "${" +:+ envName +:+ "}", if codex then envName else "")
  else inr ("invalid " +:+ metadataRuntimeAPIKeyEnv +:+ " " +:+ fmt_q envName +:+ ": must be a shell environment variable name").

Definition AgentToCard (name : string) (a : Agent) (d : RuntimeDefaults) : AgentCard + string :=
  let m := ag_Metadata a in
  let provider := override (d_Provider d) (meta_get m metadataRuntimeProvider) in
  let baseURL := override (d_BaseURL d) (meta_get m metadataRuntimeBaseURL) in
  match credentials m provider d with
  | inr err => inr err
  | inl (apiKey, envKey) =>
      inl (mkCard name (ag_Description a) (fmt_d (Version a))
             ((λ s, mkSkillConfig (SkillID s) (skillDescription s)) <$> Skills a)
             (mkClaudeConfig (System a) 0)
             (mkRuntimeConfig provider baseURL apiKey (model_ID (Model a)) (TrimSpace (meta_get m metadataRuntimeWireAPI))
                envKey "" [] ∅ (meta_get m "runtime_timeout") (meta_get m "agent_idle_timeout"))
             (mkFilesystem true true (bool_decide (meta_get m "shell_access" = "true")) ["."])
             (bool_decide (meta_get m metadataNetworkAccess = "true")) true
             (meta_get m "session_isolation") (mcp_servers (MCPServers a)) (lifecycleFromMetadata m))
  end.
End translate.

(** ** The admin client ([ahsir/client.go]) *)

Inductive admin_err :=
| AdminHTTPError (Operation ag : string) (StatusCode : Z) (Detail : string)
| ClientError (msg : string).

Definition admin_message `{UnicodeTables} (e : admin_err) : string :=
  match e with
  | AdminHTTPError op ag _ detail => op +:+ " agent " +:+ fmt_q ag +:+ ": " +:+ detail
  | ClientError msg => msg
  end.

(** What one exchange answers: the request cannot be built, nothing comes back,
    or a response with its status, the text of the status and the body. *)
Inductive admin_answer :=
| NotBuilt (msg : string)
| NoResponse (msg : string)
| Answered (status : Z) (status_text body : string).

Definition readErr (status_text body : string) : string :=
  let b := byte_take 4096 body in
  if decide (b = "") then status_text else status_text +:+ ": " +:+ TrimSpace b.

Definition unauthorized_detail (baseURL : string) : string :=
  "401 unauthorized from " +:+ baseURL +:+ " — check CMA_AHSIR_ADMIN_TOKEN matches the scheduler's admin token (or that both are unset for token-free local use), and that CMA_AHSIR_URL points at the ahsir scheduler, not an agent port".

Section client.
Context `{UnicodeTables} (baseURL : string).

(** [None] is success. *)
Definition RegisterAgent (name : string) (a : admin_answer) : option admin_err :=
  match a with
  | NotBuilt msg => Some (ClientError msg)
  | NoResponse msg => Some (ClientError ("register agent " +:+ fmt_q name +:+ ": " +:+ msg))
  | Answered status text body =>
      if (status =? 401)%Z then Some (AdminHTTPError "register" name status (unauthorized_detail baseURL))
      else if (300 <=? status)%Z then Some (AdminHTTPError "register" name status (readErr text body))
      else None
  end.

Definition DeleteAgent (name : string) (a : admin_answer) : option admin_err :=
  match a with
  | NotBuilt msg | NoResponse msg => Some (ClientError msg)
  | Answered status text body =>
      if (300 <=? status)%Z && negb (status =? 404)%Z
      then Some (ClientError ("delete agent " +:+ fmt_q name +:+ ": " +:+ readErr text body)) else None
  end.

Definition CancelTask (agent taskID : string) (a : admin_answer) : option admin_err :=
  match a with
  | NotBuilt msg => Some (ClientError msg)
  | NoResponse msg => Some (ClientError ("cancel " +:+ fmt_q agent +:+ "/" +:+ taskID +:+ ": " +:+ msg))
  | Answered status text body =>
      if (300 <=? status)%Z then Some (ClientError ("cancel " +:+ fmt_q agent +:+ "/" +:+ taskID +:+ ": " +:+ readErr text body))
      else None
  end.

(** [Chat]: [decode] reads the [response] field of the body. *)
Definition Chat (decode : string → string + string) (agent : string) (a : admin_answer) : string + admin_err :=
  match a with
  | NotBuilt msg => inr (ClientError msg)
  | NoResponse msg => inr (ClientError ("chat " +:+ fmt_q agent +:+ ": " +:+ msg))
  | Answered status text body =>
      if (300 <=? status)%Z then inr (ClientError ("chat " +:+ fmt_q agent +:+ ": " +:+ readErr text body))
      else match decode body with
           | inl reply => inl reply
           | inr err => inr (ClientError ("chat " +:+ fmt_q agent +:+ ": decode: " +:+ err))
           end
  end.
End client.
