(* ===== verification/CmaTurn.v ===== *)
(** * One turn of the facade ([internal/cmagateway/handlers.go] and
      [internal/cmagateway/ahsir/a2a.go])

    A turn sends one message to the agent over the A2A stream and turns what comes
    back into events of the session. It is a program that appends to a trace of
    effects: the operations on the store, in order, and the requests it sends.
    What the scheduler, the contexts and the store answer is the environment's;
    ids and times are taken from the position in the trace. *)
From S2P Require Import Prelude GoBase GoStrings CmaTypes CmaStore CmaStoreLaws.
From Stdlib Require Import ZArith Lia.

(** ** Programs *)

Record GradeRequest := mkGradeRequest {
  g_OutcomeID : string; g_Goal : string; g_Rubric : string; g_Iteration : Z; g_Response : string;
}.

Inductive effect :=
| Did (o : op)
| Asked (message : string)          (** a [message/stream] request to the session's agent *)
| Graded (req : GradeRequest).      (** a call of the grader *)

Definition M (A : Type) : Type := list effect → A * list effect.
#[export] Instance M_ret : MRet M := λ A x tr, (x, tr).
#[export] Instance M_bind : MBind M := λ A B f m tr, let '(x, tr) := m tr in f x tr.

Definition tell (e : effect) : M unit := λ tr, (tt, tr ++ [e]).

(** ** The wire ([ahsir/a2a.go]) *)

Record StreamUsage := mkStreamUsage { u_InputTokens : Z; u_OutputTokens : Z }.

Record StreamLifecycle := mkStreamLifecycle {
  sl_Event : string; sl_TurnID : string; sl_Phase : string; sl_Kind : string; sl_Trigger : string; sl_Detail : string;
}.

Record StreamEvent := mkStreamEvent {
  se_Kind : string; se_ID : string; se_Name : string; se_Input : string; se_Usage : option StreamUsage;
  se_ToolUseID : string; se_Content : string; se_IsError : bool; se_Lifecycle : option StreamLifecycle;
}.

(** The map of a data part holds raw JSON. *)
Record a2aPart := mkPart { part_Kind : string; part_Text : string; part_Data : gmap string string }.

Record a2aEvent := mkA2AEvent {
  e_Kind : string; e_TaskID : string; e_ID : string; e_State : string; e_Parts : option (list a2aPart);
}.

(** What one HTTP exchange answers: no request, no response, or a status, the error code
    header, the two readings of an error body, and the lines of the stream with
    the error that ended it. *)
Inductive http_answer :=
| RequestError (msg : string)
| TransportError (msg : string)
| Response (status : Z) (code_header detail error_field : string) (lines : list string) (read_err : option string).

Inductive chat_err :=
| ErrTurnCanceled
| PreStreamHTTPError (agent : string) (StatusCode : Z) (Detail Reason : string)
| StreamError (msg : string).

(** What the facade uses of code that is not its own: fresh ids, the clock,
    [%q] of package [fmt], and the JSON decoder at the types it is used at. *)
Class Facade := {
  newID : nat → string;
  clock : nat → time;
  quote : string → string;
  json_string : string → option string;
  json_bool : string → option bool;
  json_usage : string → option StreamUsage;
  json_response : string → option (string * option (Z * string));
  json_event : string → option a2aEvent;
}.

Section turn.
Context `{F : Facade} (ptr : Z) (agentRef : SessionAgent) (ahsirName : string).

Definition Error (e : chat_err) : string :=
  match e with
  | ErrTurnCanceled => "turn canceled"
  | PreStreamHTTPError agent code detail _ => "stream " +:+ quote agent +:+ ": " +:+ fmt_d code +:+ " " +:+ detail
  | StreamError msg => msg
  end.

Definition IsPreStreamRuntimeError (e : chat_err) : bool :=
  match e with
  | PreStreamHTTPError _ code _ reason => bool_decide (code = 404%Z) && bool_decide (reason = "agent_not_found")
  | _ => false
  end.

Definition json_field (data : gmap string string) (k : string) : string := default "" (data !! k ≫= json_string).

Definition parseDataPart (data : gmap string string) : option StreamEvent :=
  kind ← json_string <$> data !! "ev";
  let kind := default "" kind in
  let ev := mkStreamEvent kind (json_field data "id") (json_field data "name") (default "" (data !! "input"))
    (data !! "usage" ≫= json_usage) (json_field data "tool_use_id") (json_field data "content")
    (default false (data !! "is_error" ≫= json_bool))
    (if decide (kind = "lifecycle")
     then Some (mkStreamLifecycle (json_field data "event") (json_field data "turn_id") (json_field data "phase")
                  (json_field data "kind") (json_field data "trigger") (json_field data "detail"))
     else None) in
  if decide (kind = "") then None else Some ev.

(** ** Writing to the session *)

Definition store_op (o : op) : M unit := tell (Did o).

Definition newEvent (ty : string) : M Event := λ tr, (event_of (newID (length tr)) ty (Some (clock (length tr))), tr).

Definition emit (ev : Event) : M unit := store_op (OpAppend ptr ev).

Definition setStatus (status : string) : M unit := λ tr, store_op (OpStatus ptr status (clock (length tr))) tr.

(** [s.emit(rec, newEvent(ty))]. *)
Definition emitNew (ty : string) : M unit := ev ← newEvent ty; emit ev.

Definition text_block (text : string) : list ContentBlock := [mkContent "text" text].

Definition emitMessage (reply : string) : M unit := ev ← newEvent EvtAgentMessage; emit (with_content (text_block reply) ev).

Definition emitMessageIfAny (text : string) : M unit := if decide (text = "") then mret tt else emitMessage text.

Definition emitIdle : M unit :=
  ev ← newEvent EvtSessionStatusIdle; _ ← emit (with_stop (mkStopReason "end_turn" []) ev); setStatus StatusIdle.

Definition terminateTurn (err : string) : M unit :=
  ev ← newEvent EvtSessionError; _ ← emit (with_error (mkEventError "unknown_error" err (mkRetry "terminal")) ev);
  _ ← emitNew EvtSessionStatusTerminate; setStatus StatusTerminated.

Definition emitLifecycleTerminal (kind detail : string) : M unit :=
  ev ← newEvent EvtSessionLifecycle; emit (with_lifecycle (mkLifecycleInfo "turn.outcome" "" "" kind "" detail) ev).

Fixpoint textOf (blocks : list ContentBlock) : string :=
  match blocks with
  | [] => ""
  | b :: blocks => (if decide (content_Type b = "text") then content_Text b else "") +:+ textOf blocks
  end.

(** ** Observability events *)

Record turnObs := mkObs { spanStartID : string; mcpToolUse : gset string }.

Definition splitMCPToolName (name : string) : option (string * string) :=
  rest ← strip_prefix "mcp__" name;
  i ← Index rest "__";
  Some (byte_take i rest, byte_drop (i + 2) rest).

Definition emitObservability (se : StreamEvent) (obs : turnObs) : M turnObs :=
  if decide (se_Kind se = "tool_use") then
    ev ← newEvent EvtAgentToolUse;
    let id := if decide (se_ID se = "") then ev_ID ev else se_ID se in
    let input := if decide (blen (se_Input se) = 0) then "{}" else se_Input se in
    match splitMCPToolName (se_Name se) with
    | Some (server, tool) =>
        _ ← emit (with_tool id EvtAgentMCPToolUse server tool input ev);
        mret (mkObs (spanStartID obs) ({[id]} ∪ mcpToolUse obs))
    | None => _ ← emit (with_tool id EvtAgentToolUse "" (se_Name se) input ev); mret obs
    end
  else if decide (se_Kind se = "thinking") then _ ← emitNew EvtAgentThinking; mret obs
  else if decide (se_Kind se = "tool_result") then
    ev ← newEvent EvtAgentToolResult;
    let content := if decide (se_Content se = "") then [] else text_block (se_Content se) in
    _ ← emit (if decide (se_ToolUseID se ∈ mcpToolUse obs)
              then with_tool_result EvtAgentMCPToolResult "" (se_ToolUseID se) content (se_IsError se) ev
              else with_tool_result EvtAgentToolResult (se_ToolUseID se) "" content (se_IsError se) ev);
    mret obs
  else if decide (se_Kind se = "span_start") then
    ev ← newEvent EvtSpanModelRequestStart; _ ← emit ev; mret (mkObs (ev_ID ev) (mcpToolUse obs))
  else if decide (se_Kind se = "span_end") then
    ev ← newEvent EvtSpanModelRequestEnd;
    let u := match se_Usage se with
             | Some u => mkUsage (u_InputTokens u) (u_OutputTokens u) 0 0 ""
             | None => mkUsage 0 0 0 0 ""
             end in
    _ ← emit (with_span_end (spanStartID obs) u ev); mret obs
  else if decide (se_Kind se = "lifecycle") then
    match se_Lifecycle se with
    | None => mret obs
    | Some l =>
        ev ← newEvent EvtSessionLifecycle;
        _ ← emit (with_lifecycle (mkLifecycleInfo (sl_Event l) (sl_TurnID l) (sl_Phase l) (sl_Kind l) (sl_Trigger l) (sl_Detail l)) ev);
        mret obs
    end
  else mret obs.

(** ** The stream *)

Record stream_state := mkStreamState {
  buf : string; taskIDSeen : bool; terminalSeen : bool; st_canceled : bool; streamFailed : string; obs : turnObs;
}.

(** [noteTaskID], whose callback is [rec.SetInFlightTask]. *)
Definition noteTaskID (id : string) (st : stream_state) : M stream_state :=
  if negb (bool_decide (id = "")) && negb (taskIDSeen st)
  then _ ← store_op (OpInFlight ptr id);
       mret (mkStreamState (buf st) true (terminalSeen st) (st_canceled st) (streamFailed st) (obs st))
  else mret st.

Definition with_buf (b : string) (st : stream_state) : stream_state :=
  mkStreamState b (taskIDSeen st) (terminalSeen st) (st_canceled st) (streamFailed st) (obs st).

Definition with_obs (o : turnObs) (st : stream_state) : stream_state :=
  mkStreamState (buf st) (taskIDSeen st) (terminalSeen st) (st_canceled st) (streamFailed st) o.

(** The parts of a status update. *)
Fixpoint update_parts (parts : list a2aPart) (st : stream_state) : M stream_state :=
  match parts with
  | [] => mret st
  | p :: parts =>
      st ← (if decide (part_Kind p = "text") then mret (with_buf (buf st +:+ part_Text p) st)
            else if decide (part_Kind p = "data") then
              match parseDataPart (part_Data p) with
              | Some se => o ← emitObservability se (obs st); mret (with_obs o st)
              | None => mret st
              end
            else mret st);
      update_parts parts st
  end.

Fixpoint text_parts (parts : list a2aPart) : string :=
  match parts with
  | [] => ""
  | p :: parts => (if decide (part_Kind p = "text") then part_Text p else "") +:+ text_parts parts
  end.

Definition task_event (ev : a2aEvent) (st : stream_state) : stream_state :=
  let b := if decide (buf st = "") then text_parts (default [] (e_Parts ev)) else buf st in
  mkStreamState b (taskIDSeen st) true
    (st_canceled st || bool_decide (e_State ev = "canceled"))
    (if decide (e_State ev = "failed" ∨ e_State ev = "rejected") then e_State ev else streamFailed st) (obs st).

Definition handle_event (ev : a2aEvent) (st : stream_state) : M stream_state :=
  st ← noteTaskID (e_TaskID ev) st;
  st ← noteTaskID (e_ID ev) st;
  if decide (e_Kind ev = "status-update") then update_parts (default [] (e_Parts ev)) st
  else mret (if decide (e_Kind ev = "task") then task_event ev st else st).

(** One line of the stream; [inr] is the error of an RPC error frame. *)
Definition handle_line (line : string) (st : stream_state) : M (stream_state + chat_err) :=
  match strip_prefix "data:" line with
  | None => mret (inl st)
  | Some rest =>
      let payload := TrimSpace rest in
      if decide (payload = "") then mret (inl st)
      else match json_response payload with
           | None => mret (inl st)
           | Some (_, Some (code, msg)) =>
               mret (inr (StreamError ("stream " +:+ quote ahsirName +:+ ": rpc error " +:+ fmt_d code +:+ ": " +:+ msg)))
           | Some (result, None) =>
               match json_event result with
               | None => mret (inl st)
               | Some ev => st ← handle_event ev st; mret (inl st)
               end
           end
  end.

Fixpoint handle_lines (lines : list string) (st : stream_state) : M (stream_state * option chat_err) :=
  match lines with
  | [] => mret (st, None)
  | line :: lines =>
      r ← handle_line line st;
      match r with
      | inl st => handle_lines lines st
      | inr err => mret (st, Some err)
      end
  end.

(** What [ChatStream] returns after the last line. *)
Definition stream_end (read_err : option string) (st : stream_state) : option chat_err :=
  match read_err with
  | Some err => Some (StreamError ("stream " +:+ quote ahsirName +:+ ": read: " +:+ err))
  | None =>
      if negb (terminalSeen st) then Some (StreamError ("stream " +:+ quote ahsirName +:+ ": ended before terminal task"))
      else if st_canceled st then Some ErrTurnCanceled
      else if decide (streamFailed st = "") then None
      else Some (StreamError ("stream " +:+ quote ahsirName +:+ ": task " +:+ streamFailed st))
  end.

(** [openStream]: the lines of an accepted stream, or the error. *)
Definition openStream (a : http_answer) : list string * option string + chat_err :=
  match a with
  | RequestError msg => inr (StreamError msg)
  | TransportError msg => inr (StreamError ("stream " +:+ quote ahsirName +:+ ": " +:+ msg))
  | Response status code detail error_field lines read_err =>
      if (300 <=? status)%Z
      then inr (PreStreamHTTPError ahsirName status detail
                  (if bool_decide (status = 404%Z) && bool_decide (code = "scheduler_agent_not_found") &&
                      bool_decide (error_field = "agent not found") then "agent_not_found" else ""))
      else inl (lines, read_err)
  end.

(** The reply, the error and the observability state. *)
Definition ChatStream (a : http_answer) (message : string) (o : turnObs) : M (string * option chat_err * turnObs) :=
  _ ← tell (Asked message);
  match openStream a with
  | inr err => mret ("", Some err, o)
  | inl (lines, read_err) =>
      '(st, err) ← handle_lines lines (mkStreamState "" false false false "" o);
      match err with
      | Some err => mret ("", Some err, obs st)
      | None => mret (buf st, stream_end read_err st, obs st)
      end
  end.

(** ** The turn *)

Record turn_env := mkTurnEnv {
  te_agent : Agent + string;          (** [s.sessionAgent(rec)] *)
  te_first : http_answer;
  te_register : option string;        (** the error of [ensureRegistered] *)
  te_second : http_answer;
  te_parent : bool;                   (** [parent.Err() != nil] after the stream *)
  te_deadline : bool;                 (** [ctx.Err() == context.DeadlineExceeded] *)
}.

Record turnResult := mkResult { reply : string; canceled : bool }.

(** [sessionAgent] on the store of the moment. *)
Definition sessionAgent (s : Store) : Agent + string :=
  match GetAgent (sa_ID agentRef) (sa_Version agentRef) s with
  | None => inr "agent (or version) not found"
  | Some a => if ag_ArchivedAt a is Some _ then inr "agent is archived" else inl a
  end.

Definition dispatch_error (id : string) (version : Z) (rest : string) : string :=
  "cma agent id=" +:+ id +:+ " version=" +:+ fmt_d version +:+ " scheduler=" +:+ quote ahsirName +:+ ": " +:+ rest.

(** The second dispatch: only after a definite pre-stream rejection. The last
    result is the text about the reconciliation. *)
Definition redispatch (te : turn_env) (text : string) (first : string * option chat_err * turnObs)
    : M (string * option chat_err * string) :=
  match first with
  | (reply, Some err, o) =>
      if IsPreStreamRuntimeError err then
        match te_register te with
        | Some msg => mret (reply, Some err, "failed: " +:+ msg)
        | None => '(reply, err, _) ← ChatStream (te_second te) text o; mret (reply, err, "succeeded")
        end
      else mret (reply, Some err, "not attempted")
  | (reply, None, _) => mret (reply, None, "not attempted")
  end.

Definition dispatch (te : turn_env) (text : string) : M (string * option chat_err * string) :=
  first ← ChatStream (te_first te) text (mkObs "" ∅); redispatch te text first.

Definition is_canceled (e : chat_err) : bool := if e is ErrTurnCanceled then true else false.

Definition executeTurnCore (te : turn_env) (text : string) : M (turnResult * option string) :=
  _ ← setStatus StatusRunning;
  _ ← emitNew EvtSessionStatusRunning;
  match te_agent te with
  | inr err =>
      let err := dispatch_error (sa_ID agentRef) (sa_Version agentRef) ("dispatch rejected; reconciliation=skipped: " +:+ err) in
      _ ← terminateTurn err; mret (mkResult "" false, Some err)
  | inl agent =>
      '(rep, err, reconcileResult) ← dispatch te text;
      _ ← store_op (OpInFlight ptr "");
      match err with
      | Some e =>
          if is_canceled e || te_parent te
          then _ ← emitMessageIfAny rep; mret (mkResult rep true, None)
          else
            _ ← (if te_deadline te then emitLifecycleTerminal LifecycleKindFacadeTimeout "facade turn timeout" else mret tt);
            let msg := dispatch_error (ag_ID agent) (Version agent)
              ("dispatch failed: " +:+ Error e +:+ "; reconciliation=" +:+ reconcileResult) in
            _ ← terminateTurn msg; mret (mkResult "" false, Some msg)
      | None => _ ← emitMessage rep; mret (mkResult rep false, None)
      end
  end.

(** [executeTurn], the job of a [user.message]. *)
Definition executeTurn (te : turn_env) (text : string) : M unit :=
  '(_, err) ← executeTurnCore te text;
  if err is Some _ then mret tt else emitIdle.

(** [deliverUserMessage] up to the enqueueing of the turn: the message is
    recorded and the text of the turn is given to [EnqueueTurn]. *)
Definition deliverUserMessage (content : list ContentBlock) : M string :=
  ev ← newEvent EvtUserMessage; _ ← emit (with_content content ev); mret (textOf content).

(** ** What a program appends *)

Definition appends {A} (m : M A) (Q : A → list effect → Prop) : Prop :=
  ∀ tr, ∃ l, snd (m tr) = tr ++ l ∧ Q (fst (m tr)) l.

Lemma appends_ret {A} (x : A) (Q : A → list effect → Prop) : Q x [] → appends (mret x) Q.
Proof. intros HQ tr. exists []. by rewrite app_nil_r. Qed.

Lemma appends_bind {A B} (m : M A) (f : A → M B) Q (R : B → list effect → Prop) :
  appends m Q → (∀ x l1, Q x l1 → appends (f x) (λ y l2, R y (l1 ++ l2))) → appends (m ≫= f) R.
Proof.
  intros Hm Hf tr. unfold mbind, M_bind. destruct (Hm tr) as (l1 & E1 & H1). destruct (m tr) as [x tr1]. cbn in *. subst tr1.
  destruct (Hf x l1 H1 (tr ++ l1)) as (l2 & E2 & H2). exists (l1 ++ l2). split; [by rewrite E2, app_assoc | done].
Qed.

Lemma appends_mono {A} (m : M A) (Q R : A → list effect → Prop) :
  appends m Q → (∀ x l, Q x l → R x l) → appends m R.
Proof. intros Hm HQ tr. destruct (Hm tr) as (l & E & H). exists l. eauto. Qed.

Lemma appends_tell e : appends (tell e) (λ _ l, l = [e]).
Proof. intros tr. by exists [e]. Qed.

Lemma appends_newEvent ty (Q : Event → list effect → Prop) :
  (∀ id t, Q (event_of id ty (Some t)) []) → appends (newEvent ty) Q.
Proof. intros HQ tr. exists []. split; [by rewrite app_nil_r | apply HQ]. Qed.

Lemma appends_setStatus status : appends (setStatus status) (λ _ l, ∃ t, l = [Did (OpStatus ptr status t)]).
Proof. intros tr. eexists. split; [done | by eexists]. Qed.

(** An event with only its type known. *)
Definition event_typed (ty : string) (e : effect) : Prop :=
  match e with Did (OpAppend p ev) => p = ptr ∧ ev_Type ev = ty | _ => False end.

Lemma appends_emit_new ty (f : Event → Event) :
  (∀ id t, ev_Type (f (event_of id ty (Some t))) = ty) →
  appends (ev ← newEvent ty; emit (f ev)) (λ _ l, ∃ e, l = [e] ∧ event_typed ty e).
Proof.
  intros Hf. eapply appends_bind; [by apply (appends_newEvent ty (λ ev l, l = [] ∧ ev_Type (f ev) = ty)) |].
  intros ev l1 [-> Hev]. eapply appends_mono; [apply appends_tell |]. intros [] l ->. eexists. by split.
Qed.

(** ** The stream only adds observability events and task ids *)

Definition observed : list string :=
  [EvtAgentToolUse; EvtAgentMCPToolUse; EvtAgentThinking; EvtAgentToolResult; EvtAgentMCPToolResult;
   EvtSpanModelRequestStart; EvtSpanModelRequestEnd; EvtSessionLifecycle].

Definition quiet (e : effect) : Prop :=
  match e with
  | Did (OpAppend p ev) => p = ptr ∧ ev_Type ev ∈ observed
  | Did (OpInFlight p id) => p = ptr ∧ id ≠ ""
  | _ => False
  end.

Definition is_quiet {A} (m : M A) : Prop := appends m (λ _ l, Forall quiet l).

Lemma quiet_ret {A} (x : A) : is_quiet (mret x).
Proof. by apply appends_ret. Qed.

Lemma quiet_bind {A B} (m : M A) (f : A → M B) : is_quiet m → (∀ x, is_quiet (f x)) → is_quiet (m ≫= f).
Proof.
  intros Hm Hf. eapply appends_bind; [done |]. intros x l1 H1. eapply appends_mono; [apply Hf |].
  intros y l2 H2. by apply Forall_app.
Qed.

Lemma quiet_tell e : quiet e → is_quiet (tell e).
Proof. intros He. eapply appends_mono; [apply appends_tell |]. intros [] l ->. by constructor. Qed.

Lemma quiet_newEvent {A} ty (k : Event → M A) :
  (∀ ev, ev_Type ev = ty → is_quiet (k ev)) → is_quiet (newEvent ty ≫= k).
Proof.
  intros Hk. eapply appends_bind; [by apply (appends_newEvent ty (λ ev l, l = [] ∧ ev_Type ev = ty)) |].
  intros ev l1 [-> Hev]. by apply Hk.
Qed.

Lemma quiet_emit {A} ev (k : unit → M A) :
  ev_Type ev ∈ observed → (∀ x, is_quiet (k x)) → is_quiet (emit ev ≫= k).
Proof. intros Hev Hk. apply quiet_bind; [by apply quiet_tell | done]. Qed.

Ltac observed_type := cbn; unfold observed; set_solver.

Lemma quiet_observability se o : is_quiet (emitObservability se o).
Proof.
  unfold emitObservability.
  destruct (decide (se_Kind se = "tool_use")); [apply quiet_newEvent; intros ev _; case_match |
  destruct (decide (se_Kind se = "thinking")); [unfold emitNew |
  destruct (decide (se_Kind se = "tool_result")); [apply quiet_newEvent; intros ev _ |
  destruct (decide (se_Kind se = "span_start")); [apply quiet_newEvent; intros ev Hev |
  destruct (decide (se_Kind se = "span_end")); [apply quiet_newEvent; intros ev Hev |
  destruct (decide (se_Kind se = "lifecycle")); [case_match; [apply quiet_newEvent; intros ev Hev |] |]]]]]].
  - destruct p. apply quiet_emit; [observed_type | intros; apply quiet_ret].
  - apply quiet_emit; [observed_type | intros; apply quiet_ret].
  - apply quiet_bind; [| intros; apply quiet_ret]. apply quiet_newEvent. intros ev Hev. apply quiet_tell. split; [done |].
    rewrite Hev. observed_type.
  - apply quiet_emit; [| intros; apply quiet_ret]. case_decide; observed_type.
  - apply quiet_emit; [rewrite Hev; observed_type | intros; apply quiet_ret].
  - apply quiet_emit; [cbn; rewrite Hev; observed_type | intros; apply quiet_ret].
  - apply quiet_emit; [cbn; rewrite Hev; observed_type | intros; apply quiet_ret].
  - apply quiet_ret.
  - apply quiet_ret.
Qed.

Lemma quiet_noteTaskID id st : is_quiet (noteTaskID id st).
Proof.
  unfold noteTaskID. destruct (_ && _) eqn:E; [| apply quiet_ret]. bool_to_prop.
  apply quiet_bind; [by apply quiet_tell | intros; apply quiet_ret].
Qed.

Lemma quiet_update_parts parts : ∀ st, is_quiet (update_parts parts st).
Proof.
  induction parts as [| p parts IH]; intros st; [apply quiet_ret |]. cbn [update_parts]. apply quiet_bind; [| done].
  repeat case_decide; try apply quiet_ret. destruct (parseDataPart _); [| apply quiet_ret].
  apply quiet_bind; [apply quiet_observability | intros; apply quiet_ret].
Qed.

Lemma appends_handle_line line st :
  appends (handle_line line st) (λ r l, Forall quiet l ∧ ∀ err, r = inr err → IsPreStreamRuntimeError err = false).
Proof.
  unfold handle_line. destruct (strip_prefix _ _); [| by apply appends_ret]. cbn zeta. case_decide; [by apply appends_ret |].
  destruct (json_response _) as [[r [[code msg] |]] |]; try by apply appends_ret.
  { apply appends_ret. split; [done |]. by intros err [= <-]. }
  destruct (json_event r); [| by apply appends_ret].
  eapply (appends_bind _ _ (λ _ l, Forall quiet l)).
  - unfold handle_event. apply quiet_bind; [apply quiet_noteTaskID | intros st1].
    apply quiet_bind; [apply quiet_noteTaskID | intros st2]. case_decide; [apply quiet_update_parts | apply quiet_ret].
  - intros st' l Hl. apply appends_ret. by rewrite app_nil_r.
Qed.

Lemma appends_handle_lines lines : ∀ st,
  appends (handle_lines lines st) (λ r l, Forall quiet l ∧ ∀ err, r.2 = Some err → IsPreStreamRuntimeError err = false).
Proof.
  induction lines as [| line lines IH]; intros st; [by apply appends_ret |]. cbn [handle_lines].
  eapply appends_bind; [apply appends_handle_line |]. intros [st' | err] l [Hl He].
  - eapply appends_mono; [apply IH |]. intros r l2 [Hl2 He2]. split; [by apply Forall_app | done].
  - apply appends_ret. rewrite app_nil_r. split; [done |]. intros err' [= <-]. by apply He.
Qed.

Lemma stream_end_not_prestream read_err st err :
  stream_end read_err st = Some err → IsPreStreamRuntimeError err = false.
Proof. unfold stream_end. intros H. repeat case_match; simplify_eq; done. Qed.

(** A dispatch is one request and quiet effects; a rejected one adds nothing, and
    only a rejected one may be repeated. *)
Lemma appends_ChatStream a message o :
  appends (ChatStream a message o) (λ r l, ∃ q, l = Asked message :: q ∧ Forall quiet q ∧
    match openStream a with
    | inr err => r = ("", Some err, o)
    | inl _ => ∀ err, r.1.2 = Some err → IsPreStreamRuntimeError err = false
    end).
Proof.
  unfold ChatStream. eapply appends_bind; [apply appends_tell |]. intros _ l1 ->.
  destruct (openStream a) as [[lines read_err] | err].
  - eapply appends_bind; [apply appends_handle_lines |]. intros [st [err |]] l [Hl He]; apply appends_ret; rewrite app_nil_r.
    + exists l. split_and!; [done | done |]. intros err' [= <-]. by apply He.
    + exists l. split_and!; [done | done |]. intros err'. apply stream_end_not_prestream.
  - apply appends_ret. by exists [].
Qed.

(** ** What a turn leaves behind *)

Definition statuses (l : list effect) : list string :=
  omap (λ e, match e with Did (OpStatus _ st _) => Some st | _ => None end) l.

Definition messages (l : list effect) : list (list ContentBlock) :=
  omap (λ e, match e with
             | Did (OpAppend _ ev) => if decide (ev_Type ev = EvtAgentMessage) then Some (Content ev) else None
             | _ => None
             end) l.

Definition requests (l : list effect) : list string :=
  omap (λ e, match e with Asked message => Some message | _ => None end) l.

Definition task_ids (l : list effect) : list string :=
  omap (λ e, match e with Did (OpInFlight _ id) => Some id | _ => None end) l.

(** The events of a turn other than the agent's message. *)
Definition other_events : list string :=
  [EvtSessionStatusRunning; EvtSessionError; EvtSessionStatusTerminate; EvtSessionStatusIdle] ++ observed.

(** An effect of a turn is a request or an operation on the turn's own record
    that adds an event of a turn, sets the status or the task in flight. *)
Definition on_session (e : effect) : Prop :=
  match e with
  | Did (OpAppend p ev) => p = ptr ∧ ev_Type ev ∈ EvtAgentMessage :: other_events
  | Did (OpStatus p _ _) | Did (OpInFlight p _) => p = ptr
  | Asked _ => True
  | _ => False
  end.

Lemma message_not_other ty : ty ∈ other_events → ty ≠ EvtAgentMessage.
Proof. intros H ->. revert H. by apply (bool_decide_eq_false (EvtAgentMessage ∈ other_events)). Qed.

Lemma quiet_projections l :
  Forall quiet l → statuses l = [] ∧ messages l = [] ∧ requests l = [] ∧ Forall on_session l.
Proof.
  induction 1 as [| e l He _ (IH1 & IH2 & IH3 & IH4)]; [done |]. destruct e as [[] | |]; try done; cbn in *.
  - destruct He as [-> He]. assert (ev_Type ev ∈ other_events) as Ho by (apply elem_of_app; by right).
    rewrite decide_False by by apply message_not_other. split_and!; [done.. |]. constructor; [| done]. split; [done | by right].
  - destruct He as [-> He]. by split_and!; [.. | constructor].
Qed.

(** The turn is dispatched again: the first request was rejected by a scheduler
    that does not know the agent, and the agent is registered now. *)
Definition redispatched (te : turn_env) : bool :=
  match openStream (te_first te) with
  | inr err => IsPreStreamRuntimeError err && bool_decide (te_register te = None)
  | inl _ => false
  end.

Record turn_trace (te : turn_env) (text : string) (r : turnResult * option string) (l : list effect) : Prop := {
  tt_statuses : statuses l = StatusRunning :: (if r.2 is Some _ then [StatusTerminated] else []);
  tt_messages : messages l = match r with
    | (r, None) => if canceled r && bool_decide (reply r = "") then [] else [text_block (reply r)]
    | _ => []
    end;
  tt_requests : requests l =
    match te_agent te with inr _ => [] | inl _ => if redispatched te then [text; text] else [text] end;
  tt_task : last (task_ids l) = match te_agent te with inr _ => None | inl _ => Some "" end;
  tt_session : Forall on_session l;
}.

Lemma statuses_app l1 l2 : statuses (l1 ++ l2) = statuses l1 ++ statuses l2.
Proof. apply omap_app. Qed.
Lemma messages_app l1 l2 : messages (l1 ++ l2) = messages l1 ++ messages l2.
Proof. apply omap_app. Qed.
Lemma requests_app l1 l2 : requests (l1 ++ l2) = requests l1 ++ requests l2.
Proof. apply omap_app. Qed.
Lemma task_ids_app l1 l2 : task_ids (l1 ++ l2) = task_ids l1 ++ task_ids l2.
Proof. apply omap_app. Qed.

(** A part of a turn seen through the projections. *)
Record part (sts : list string) (msgs : list (list ContentBlock)) (reqs : list string) (ids : list string → Prop) (l : list effect) : Prop := {
  part_statuses : statuses l = sts;
  part_messages : messages l = msgs;
  part_requests : requests l = reqs;
  part_ids : ids (task_ids l);
  part_session : Forall on_session l;
}.

Lemma part_app s1 s2 m1 m2 r1 r2 i1 i2 (i : list string → Prop) l1 l2 :
  part s1 m1 r1 i1 l1 → part s2 m2 r2 i2 l2 → (∀ x y, i1 x → i2 y → i (x ++ y)) →
  part (s1 ++ s2) (m1 ++ m2) (r1 ++ r2) i (l1 ++ l2).
Proof.
  intros [] [] Hi. split; rewrite ?statuses_app, ?messages_app, ?requests_app, ?task_ids_app; [by f_equal.. | auto | by apply Forall_app].
Qed.

Ltac other_event := apply (bool_decide_eq_true_1 _); reflexivity.

Definition no_ids (x : list string) : Prop := x = [].

Lemma part_quiet l : Forall quiet l → part [] [] [] (λ _, True) l.
Proof. intros H. by destruct (quiet_projections l H) as (? & ? & ? & ?). Qed.

Lemma part_emit ev :
  ev_Type ev ∈ other_events → part [] [] [] no_ids [Did (OpAppend ptr ev)].
Proof.
  intros H. split; cbn; try done; [by rewrite decide_False by by apply message_not_other |].
  constructor; [| done]. split; [done | by right].
Qed.

Lemma part_status st t : part [st] [] [] no_ids [Did (OpStatus ptr st t)].
Proof. split; try done. by constructor. Qed.

(** The pieces that the turn is made of. *)
Lemma appends_emitNew ty :
  ty ∈ other_events → appends (emitNew ty) (λ _ l, part [] [] [] no_ids l).
Proof.
  intros Hty. eapply appends_mono; [by apply (appends_emit_new ty (λ ev, ev)) |].
  intros [] l (e & -> & He). destruct e as [[] | |]; try done. destruct He as [-> He]. apply part_emit. by rewrite He.
Qed.

Lemma appends_part_bind {A B} (m : M A) (f : A → M B) s1 m1 r1 i1 s2 m2 r2 i2 (i : list string → Prop) :
  appends m (λ _ l, part s1 m1 r1 i1 l) → (∀ x, appends (f x) (λ _ l, part s2 m2 r2 i2 l)) →
  (∀ x y, i1 x → i2 y → i (x ++ y)) →
  appends (m ≫= f) (λ _ l, part (s1 ++ s2) (m1 ++ m2) (r1 ++ r2) i l).
Proof.
  intros Hm Hf Hi. eapply appends_bind; [done |]. intros x l1 H1. eapply appends_mono; [apply Hf |].
  intros y l2 H2. exact (part_app _ _ _ _ _ _ _ _ _ _ _ H1 H2 Hi).
Qed.

Lemma no_ids_app x y : no_ids x → no_ids y → no_ids (x ++ y).
Proof. by intros -> ->. Qed.

Lemma appends_status st : appends (setStatus st) (λ _ l, part [st] [] [] no_ids l).
Proof. eapply appends_mono; [apply appends_setStatus |]. intros [] l (t & ->). apply part_status. Qed.

Lemma appends_message rep : appends (emitMessage rep) (λ _ l, part [] [text_block rep] [] no_ids l).
Proof.
  intros tr. eexists. split; [done |]. split; try done. constructor; [| done]. split; [done | by left].
Qed.

Lemma appends_event {A} ty (f : Event → Event) (k : unit → M A) s1 m1 r1 (i1 : list string → Prop) :
  (∀ ev, ev_Type ev = ty → ev_Type (f ev) ∈ other_events) → appends (k tt) (λ _ l, part s1 m1 r1 i1 l) →
  appends (ev ← newEvent ty; _ ← emit (f ev); k tt) (λ _ l, part s1 m1 r1 i1 l).
Proof.
  intros Hf Hk. eapply appends_bind; [by apply (appends_newEvent ty (λ ev l, l = [] ∧ ev_Type ev = ty)) |].
  intros ev l1 [-> Hev]. eapply appends_bind; [apply appends_tell |]. intros [] l2 ->.
  eapply appends_mono; [apply Hk |]. intros x l Hl.
  apply (part_app [] _ [] _ [] _ no_ids i1 i1 [_] l); [by apply part_emit, Hf | exact Hl | by intros y z ->].
Qed.

Lemma appends_idle : appends emitIdle (λ _ l, part [StatusIdle] [] [] no_ids l).
Proof.
  apply (appends_event EvtSessionStatusIdle _ (λ _, setStatus StatusIdle)); [intros ev E; cbn; rewrite E; other_event |].
  apply appends_status.
Qed.

Lemma appends_terminate err : appends (terminateTurn err) (λ _ l, part [StatusTerminated] [] [] no_ids l).
Proof.
  apply (appends_event EvtSessionError _ (λ _, _ ← emitNew EvtSessionStatusTerminate; setStatus StatusTerminated));
    [intros ev E; cbn; rewrite E; other_event |].
  apply (appends_part_bind _ _ [] [] [] no_ids _ _ _ no_ids); [apply appends_emitNew; other_event | intros; apply appends_status | apply no_ids_app].
Qed.

(** The end of a turn whose stream failed. *)
Lemma appends_failure (deadline : bool) err :
  appends (_ ← (if deadline then emitLifecycleTerminal LifecycleKindFacadeTimeout "facade turn timeout" else mret tt);
           _ ← terminateTurn err; mret (mkResult "" false, Some err))
    (λ r l, r = (mkResult "" false, Some err) ∧ part [StatusTerminated] [] [] no_ids l).
Proof.
  assert (appends (_ ← terminateTurn err; mret (mkResult "" false, Some err))
            (λ r l, r = (mkResult "" false, Some err) ∧ part [StatusTerminated] [] [] no_ids l)) as Hend.
  { eapply appends_bind; [apply appends_terminate |]. intros x l Hl. cbn in Hl. apply appends_ret. by rewrite app_nil_r. }
  destruct deadline; [| exact Hend].
  eapply appends_bind; [apply (appends_emit_new EvtSessionLifecycle); done |].
  intros x l1 (e & -> & He). eapply appends_mono; [exact Hend |]. intros r l [-> Hl]. split; [done |].
  destruct e as [[] | |]; try done. destruct He as [-> He].
  apply (part_app [] _ [] _ [] _ no_ids no_ids no_ids [_] l); [apply part_emit; rewrite He; other_event | done | apply no_ids_app].
Qed.

(** What [ChatStream] and the second dispatch append. *)
Lemma appends_dispatch te text :
  appends (dispatch te text)
    (λ _ l, part [] [] (if redispatched te then [text; text] else [text]) (λ _, True) l).
Proof.
  assert (∀ q, Forall quiet q → part [] [] [text] (λ _, True) (Asked text :: q)) as Hask.
  { intros q Hq. apply (part_app [] _ [] _ [text] [] (λ _, True) (λ _, True) _ [Asked text] q); [| by apply part_quiet | done].
    split; try done. by constructor. }
  eapply appends_bind; [apply appends_ChatStream |]. intros [[rep err] o] l (q & -> & Hq & Ho). unfold redispatch, redispatched.
  destruct (openStream (te_first te)) as [x | e]; cbn in Ho.
  - destruct err as [err |]; [rewrite (Ho err eq_refl) |]; apply appends_ret; rewrite app_nil_r; by apply Hask.
  - injection Ho as -> -> ->. destruct (IsPreStreamRuntimeError e); [| apply appends_ret; rewrite app_nil_r; by apply Hask].
    destruct (te_register te) as [msg |]; cbn [andb]; [apply appends_ret; rewrite app_nil_r; by apply Hask |].
    eapply appends_bind; [apply appends_ChatStream |]. intros [[rep2 err2] o2] l2 (q2 & -> & Hq2 & _).
    apply appends_ret. rewrite app_nil_r, bool_decide_eq_true_2 by done.
    by apply (part_app [] [] [] [] [text] [text] (λ _, True) (λ _, True) (λ _, True)); [apply Hask | apply Hask |].
Qed.

(** The part of [executeTurnCore] after the session is running. *)
Lemma appends_message_if_any rep :
  appends (_ ← emitMessageIfAny rep; mret (mkResult rep true, None))
    (λ (r : turnResult * option string) l, r = (mkResult rep true, None) ∧
       part [] (if bool_decide (rep = "") then [] else [text_block rep]) [] no_ids l).
Proof.
  unfold emitMessageIfAny. case_decide as Hrep.
  - rewrite bool_decide_eq_true_2 by done. eapply appends_bind; [by apply (appends_ret _ (λ _ l, l = [])) |].
    intros x l ->. by apply appends_ret.
  - rewrite bool_decide_eq_false_2 by done. eapply appends_bind; [apply appends_message |].
    intros x l Hl. cbn in Hl. apply appends_ret. by rewrite app_nil_r.
Qed.

Lemma last_clear (x y : list string) : x = [""] → no_ids y → last (x ++ y) = Some "".
Proof. by intros -> ->. Qed.

Lemma last_app_r {A} (x y : list A) z : last y = Some z → last (x ++ y) = Some z.
Proof. intros H. by rewrite last_app, H. Qed.

(** How the turn ends once the stream did: the result and what is appended. *)
Definition finish (te : turn_env) (agent : Agent) (rep : string) (err : option chat_err) (reconcileResult : string)
    : M (turnResult * option string) :=
  match err with
  | Some e =>
      if is_canceled e || te_parent te
      then _ ← emitMessageIfAny rep; mret (mkResult rep true, None)
      else
        _ ← (if te_deadline te then emitLifecycleTerminal LifecycleKindFacadeTimeout "facade turn timeout" else mret tt);
        let msg := dispatch_error (ag_ID agent) (Version agent)
          ("dispatch failed: " +:+ Error e +:+ "; reconciliation=" +:+ reconcileResult) in
        _ ← terminateTurn msg; mret (mkResult "" false, Some msg)
  | None => _ ← emitMessage rep; mret (mkResult rep false, None)
  end.

Definition finish_messages (r : turnResult * option string) : list (list ContentBlock) :=
  match r with
  | (r, None) => if canceled r && bool_decide (reply r = "") then [] else [text_block (reply r)]
  | _ => []
  end.

Lemma appends_finish te agent rep err rr :
  appends (finish te agent rep err rr)
    (λ r l, part (if r.2 is Some _ then [StatusTerminated] else []) (finish_messages r) [] no_ids l).
Proof.
  unfold finish. destruct err as [e |]; [destruct (is_canceled e || te_parent te) |].
  - eapply appends_mono; [apply appends_message_if_any |]. by intros r l [-> Hl].
  - eapply appends_mono; [apply appends_failure |]. by intros r l [-> Hl].
  - eapply appends_bind; [apply appends_message |]. intros x l Hl. cbn in Hl. apply appends_ret. by rewrite app_nil_r.
Qed.

Lemma appends_executeTurnCore te text : appends (executeTurnCore te text) (turn_trace te text).
Proof.
  unfold executeTurnCore. eapply appends_bind; [apply appends_status |]. intros x l1 H1. cbn in H1.
  eapply appends_bind; [apply appends_emitNew; other_event |]. intros y l2 H2. cbn in H2.
  pose proof (part_app _ _ _ _ _ _ _ _ no_ids _ _ H1 H2 no_ids_app) as H12. cbn [app] in H12.
  destruct (te_agent te) as [agent | err] eqn:Hag.
  - eapply appends_bind; [apply appends_dispatch |]. intros [[rep err] rr] l3 H3. cbn in H3.
    eapply appends_bind; [apply appends_tell |]. intros [] l4 ->.
    eapply appends_mono; [apply (appends_finish te agent rep err rr) |]. intros r l5 H5. cbn in H5.
    assert (part [] [] [] (λ x, x = [""]) [Did (OpInFlight ptr "")]) as H4 by (split; try done; by constructor).
    pose proof (part_app _ _ _ _ _ _ _ _ (λ x, last x = Some "") _ _ H4 H5 (λ x y E1 E2, last_clear x y E1 E2)) as H45.
    pose proof (part_app _ _ _ _ _ _ _ _ (λ x, last x = Some "") _ _ H3 H45 (λ x y _ E2, last_app_r x y _ E2)) as H35.
    destruct (part_app _ _ _ _ _ _ _ _ (λ x, last x = Some "") _ _ H12 H35 (λ x y _ E2, last_app_r x y _ E2)).
    rewrite <- app_assoc in *. split; rewrite ?Hag, ?app_nil_r in *; first [done | by destruct r].
  - eapply appends_bind; [apply appends_terminate |]. intros z l3 H3. cbn in H3. apply appends_ret.
    rewrite app_nil_r, app_assoc. pose proof (part_app _ _ _ _ _ _ _ _ no_ids _ _ H12 H3 no_ids_app) as [].
    split; rewrite ?Hag; try done. by unfold no_ids in *; rewrite part_ids0.
Qed.

(** ** The result of a turn depends on the answers only *)

Definition related {A B} (R : A → B → Prop) (m : M A) (m' : M B) : Prop :=
  ∀ tr tr', R (fst (m tr)) (fst (m' tr')).

Lemma related_ret {A B} (R : A → B → Prop) x y : R x y → related R (mret x) (mret y).
Proof. by intros H tr tr'. Qed.

Lemma related_bind {A B C D} (R : A → B → Prop) (S : C → D → Prop) m m' f f' :
  related R m m' → (∀ x y, R x y → related S (f x) (f' y)) → related S (m ≫= f) (m' ≫= f').
Proof.
  intros Hm Hf tr tr'. unfold mbind, M_bind. specialize (Hm tr tr').
  destruct (m tr) as [x t1], (m' tr') as [y t2]. by apply Hf.
Qed.

Lemma related_top {A B} (m : M A) (m' : M B) : related (λ _ _, True) m m'.
Proof. done. Qed.

(** A stream state up to the observability state. *)
Definition erase (st : stream_state) : string * bool * bool * bool * string :=
  (buf st, taskIDSeen st, terminalSeen st, st_canceled st, streamFailed st).

Definition same_stream (st st' : stream_state) : Prop := erase st = erase st'.

Lemma related_parts parts : ∀ st st',
  same_stream st st' → related same_stream (update_parts parts st) (update_parts parts st').
Proof.
  induction parts as [| p parts IH]; intros st st' Hst; [by apply related_ret |]. cbn [update_parts].
  eapply related_bind; [| intros x y Hxy; by apply IH].
  destruct st, st'. injection Hst as -> -> -> -> ->. cbn. repeat case_decide; [by apply related_ret | | by apply related_ret].
  destruct (parseDataPart _); [| by apply related_ret]. eapply related_bind; [apply related_top |].
  intros o o' _. by apply related_ret.
Qed.

Lemma related_event ev st st' : same_stream st st' → related same_stream (handle_event ev st) (handle_event ev st').
Proof.
  assert (∀ id st st', same_stream st st' → related same_stream (noteTaskID id st) (noteTaskID id st')) as Hnote.
  { intros id s s' Hs. destruct s, s'. injection Hs as -> -> -> -> ->. unfold noteTaskID. cbn.
    destruct (_ && _); [| by apply related_ret]. eapply related_bind; [apply related_top |]. intros _ _ _. by apply related_ret. }
  intros Hst. unfold handle_event. eapply related_bind; [by apply Hnote |]. intros s1 s1' H1.
  eapply related_bind; [by apply Hnote |]. intros s2 s2' H2. case_decide; [by apply related_parts |].
  apply related_ret. case_decide; [| done]. destruct s2, s2'. by injection H2 as -> -> -> -> ->.
Qed.

Definition same_line (r r' : stream_state + chat_err) : Prop :=
  match r, r' with inl st, inl st' => same_stream st st' | inr e, inr e' => e = e' | _, _ => False end.

Lemma related_line line st st' : same_stream st st' → related same_line (handle_line line st) (handle_line line st').
Proof.
  intros Hst. unfold handle_line. destruct (strip_prefix _ _); [| by apply related_ret]. cbn zeta.
  case_decide; [by apply related_ret |]. destruct (json_response _) as [[r [[code msg] |]] |]; try by apply related_ret.
  destruct (json_event r); [| by apply related_ret]. eapply related_bind; [by apply related_event |].
  intros x y Hxy. by apply related_ret.
Qed.

Definition same_end (r r' : stream_state * option chat_err) : Prop := same_stream (fst r) (fst r') ∧ snd r = snd r'.

Lemma related_lines lines : ∀ st st',
  same_stream st st' → related same_end (handle_lines lines st) (handle_lines lines st').
Proof.
  induction lines as [| line lines IH]; intros st st' Hst; [by apply related_ret |]. cbn [handle_lines].
  eapply related_bind; [by apply related_line |]. intros [x | e] [y | e'] Hxy; try done.
  - by apply IH.
  - cbn in Hxy. subst e'. by apply related_ret.
Qed.

Lemma related_chat a message message' o o' :
  related (λ r r', fst r = fst r') (ChatStream a message o) (ChatStream a message' o').
Proof.
  unfold ChatStream. eapply related_bind; [apply related_top |]. intros _ _ _.
  destruct (openStream a) as [[lines read_err] | err]; [| by apply related_ret].
  eapply related_bind; [by apply related_lines |]. intros [st e] [st' e'] [Hst He]. cbn in Hst, He. subst e'.
  unfold same_stream, erase in Hst. destruct st, st'; cbn in *. simplify_eq. destruct e; by apply related_ret.
Qed.

Lemma related_dispatch te text text' : related eq (dispatch te text) (dispatch te text').
Proof.
  unfold dispatch. eapply related_bind; [apply (related_chat _ text text') |].
  intros [[rep err] o] [[rep' err'] o'] E. cbn in E. injection E as -> ->. unfold redispatch.
  destruct err' as [err' |]; [| by apply related_ret]. destruct (IsPreStreamRuntimeError err'); [| by apply related_ret].
  destruct (te_register te); [by apply related_ret |]. eapply related_bind; [apply related_chat |].
  intros [[rep1 err1] o1] [[rep2 err2] o2] E. cbn in E. injection E as -> ->. by apply related_ret.
Qed.

Lemma related_turn te text text' : related eq (executeTurnCore te text) (executeTurnCore te text').
Proof.
  unfold executeTurnCore. eapply related_bind; [apply related_top |]. intros _ _ _.
  eapply related_bind; [apply related_top |]. intros _ _ _. destruct (te_agent te) as [agent | err].
  - eapply related_bind; [apply related_dispatch |]. intros x ? <-. destruct x as [[rep err] rr].
    eapply related_bind; [apply related_top |]. intros _ _ _. destruct err as [e |].
    + destruct (is_canceled e || te_parent te).
      * eapply related_bind; [apply related_top |]. intros _ _ _. by apply related_ret.
      * eapply related_bind; [apply related_top |]. intros _ _ _. eapply related_bind; [apply related_top |].
        intros _ _ _. by apply related_ret.
    + eapply related_bind; [apply related_top |]. intros _ _ _. by apply related_ret.
  - eapply related_bind; [apply related_top |]. intros _ _ _. by apply related_ret.
Qed.

(** What a turn returns, whatever is asked and whatever came before. *)
Definition turn_result (te : turn_env) : turnResult * option string := fst (executeTurnCore te "" []).

Lemma turn_result_eq te text tr : fst (executeTurnCore te text tr) = turn_result te.
Proof. apply related_turn. Qed.

(** ** What the answers say

    The reading of an answer without the program: the frames of the lines, the events
    before the first error frame, and how the stream came to its end. *)

Definition frame (line : string) : option (a2aEvent + Z * string) :=
  rest ← strip_prefix "data:" line;
  if decide (TrimSpace rest = "") then None
  else match json_response (TrimSpace rest) with
       | Some (_, Some err) => Some (inr err)
       | Some (result, None) => inl <$> json_event result
       | None => None
       end.

Definition events (lines : list string) : list a2aEvent := omap (λ f, if f is inl ev then Some ev else None) (omap frame lines).
Definition rpc_error (lines : list string) : bool := existsb (λ f, if f is inr _ then true else false) (omap frame lines).

Definition is_task (ev : a2aEvent) : bool := bool_decide (e_Kind ev = "task").
Definition reported (state : string) (evs : list a2aEvent) : bool := existsb (λ ev, is_task ev && bool_decide (e_State ev = state)) evs.

(** The reply: the text of the status updates, or that of the first task that has
    any if nothing came before it. *)
Definition said (evs : list a2aEvent) : string :=
  foldl (λ b ev, let text := text_parts (default [] (e_Parts ev)) in
                 if decide (e_Kind ev = "status-update") then b +:+ text
                 else if is_task ev && bool_decide (b = "") then text else b) "" evs.

Inductive ending := Replied (text : string) | Cancelled (text : string) | Broken (text : string).

(** How an exchange ends: the reply is complete when the stream reached a task that is
    neither cancelled nor failed. *)
Definition ending_of (a : http_answer) : ending :=
  match a with
  | RequestError _ | TransportError _ => Broken ""
  | Response status _ _ _ lines read_err =>
      let evs := events lines in
      if (300 <=? status)%Z || rpc_error lines then Broken ""
      else if negb (bool_decide (read_err = None)) || negb (existsb is_task evs) then Broken (said evs)
      else if reported "canceled" evs then Cancelled (said evs)
      else if reported "failed" evs || reported "rejected" evs then Broken (said evs)
      else Replied (said evs)
  end.

(** The scheduler does not know the agent, and says so before any stream. *)
Definition agent_unknown (a : http_answer) : bool :=
  match a with
  | Response status code _ error_field _ _ =>
      bool_decide (status = 404%Z) && bool_decide (code = "scheduler_agent_not_found") && bool_decide (error_field = "agent not found")
  | _ => false
  end.

Definition sent_twice (te : turn_env) : bool := agent_unknown (te_first te) && bool_decide (te_register te = None).

(** How a turn ends; an interrupt of the turn itself takes a failure for a
    cancellation. *)
Definition turn_ending (te : turn_env) : ending :=
  match te_agent te with
  | inr _ => Broken ""
  | inl _ =>
      match ending_of (if sent_twice te then te_second te else te_first te) with
      | Broken text => if te_parent te then Cancelled text else Broken text
      | e => e
      end
  end.

(** *** The program reads them so *)

Definition view (st : stream_state) : string * bool * bool * string := (buf st, terminalSeen st, st_canceled st, streamFailed st).

Definition view_event (v : string * bool * bool * string) (ev : a2aEvent) : string * bool * bool * string :=
  let '(b, term, canc, fail) := v in
  let text := text_parts (default [] (e_Parts ev)) in
  if decide (e_Kind ev = "status-update") then (b +:+ text, term, canc, fail)
  else if is_task ev then
    (if decide (b = "") then text else b, true, canc || bool_decide (e_State ev = "canceled"),
     if decide (e_State ev = "failed" ∨ e_State ev = "rejected") then e_State ev else fail)
  else v.

Lemma fst_bind {A B} (m : M A) (f : A → M B) tr : fst ((m ≫= f) tr) = fst (f (fst (m tr)) (snd (m tr))).
Proof. unfold mbind, M_bind. by destruct (m tr). Qed.

Lemma view_parts parts : ∀ st tr,
  view (fst (update_parts parts st tr)) = (buf st +:+ text_parts parts, terminalSeen st, st_canceled st, streamFailed st).
Proof.
  induction parts as [| p parts IH]; intros st tr; [unfold view; cbn; by rewrite string_app_nil_r |].
  cbn [update_parts text_parts]. rewrite fst_bind, IH. repeat case_decide; cbn; [by rewrite string_app_assoc | | done].
  destruct (parseDataPart _); [| done]. unfold mbind, M_bind. by destruct (emitObservability s (obs st) tr).
Qed.

Lemma view_note id st tr : view (fst (noteTaskID id st tr)) = view st.
Proof. unfold noteTaskID. by destruct (_ && _). Qed.

Lemma view_handle ev st tr : view (fst (handle_event ev st tr)) = view_event (view st) ev.
Proof.
  unfold handle_event. rewrite !fst_bind. set (st1 := fst (noteTaskID (e_TaskID ev) st tr)).
  set (st2 := fst (noteTaskID _ st1 _)). assert (V : view st2 = view st) by (unfold st2, st1; by rewrite !view_note).
  unfold view_event. rewrite <- V. unfold view at 2. cbn. unfold is_task.
  case_decide; [apply view_parts |]. case_decide as K; [rewrite bool_decide_eq_true_2 by done | by rewrite bool_decide_eq_false_2]. done.
Qed.

(** Every line but the first error frame counts. *)
Lemma handle_lines_reads lines : ∀ st tr,
  let r := fst (handle_lines lines st tr) in
  if rpc_error lines then is_Some (snd r) ∧ snd r ≠ Some ErrTurnCanceled
  else snd r = None ∧ view (fst r) = foldl view_event (view st) (events lines).
Proof.
  unfold rpc_error, events. induction lines as [| line lines IH]; intros st tr; [done |]. cbn [handle_lines omap list_omap].
  rewrite fst_bind. unfold handle_line, frame. destruct (strip_prefix _ line) as [rest |]; cbn; [| apply IH].
  case_decide; [apply IH |]. destruct (json_response _) as [[result [[code msg] |]] |]; cbn; [by split; [eexists |] | | apply IH].
  destruct (json_event result) as [ev |]; cbn; [| apply IH].
  unfold mbind, M_bind. pose proof (view_handle ev st tr) as V. destruct (handle_event ev st tr) as [st' tr']. cbn in V |- *. rewrite <- V. apply IH.
Qed.

(** The parts of the reading, one by one. *)
Lemma view_fold evs : ∀ b term canc fail, ∃ fail',
  foldl view_event (b, term, canc, fail) evs =
    (foldl (λ b ev, let text := text_parts (default [] (e_Parts ev)) in
                 if decide (e_Kind ev = "status-update") then b +:+ text
                 else if is_task ev && bool_decide (b = "") then text else b) b evs,
     term || existsb is_task evs, canc || reported "canceled" evs, fail') ∧
  bool_decide (fail' = "") = bool_decide (fail = "") && negb (reported "failed" evs || reported "rejected" evs).
Proof.
  unfold reported. induction evs as [| ev evs IH]; intros b term canc fail.
  { exists fail. cbn. by rewrite !orb_false_r, andb_true_r. }
  cbn [foldl existsb view_event].
  destruct (decide (e_Kind ev = "status-update")) as [K |].
  { assert (is_task ev = false) as -> by (unfold is_task; by rewrite K). apply IH. }
  destruct (is_task ev); cbn [andb orb]; [| apply IH].
  destruct (IH (if decide (b = "") then text_parts (default [] (e_Parts ev)) else b) true
    (canc || bool_decide (e_State ev = "canceled")) (if decide (e_State ev = "failed" ∨ e_State ev = "rejected") then e_State ev else fail))
    as (fail' & E & Fl).
  exists fail'. rewrite E, Fl, orb_true_r, <- !orb_assoc. split.
  { destruct (decide (b = "")) as [-> | N]; [done | by rewrite (bool_decide_eq_false_2 (b = ""))]. }
  case_decide as D; [| apply Decidable.not_or in D as [D1 D2]; by rewrite !(bool_decide_eq_false_2 (e_State ev = _))].
  destruct D as [-> | ->]; cbn; by rewrite ?andb_false_r, ?orb_true_r, ?andb_false_r.
Qed.

(** What [ChatStream] returns. *)
Lemma chat_reads a message o tr :
  let r := fst (ChatStream a message o tr) in
  match ending_of a with
  | Replied text => r.1 = (text, None)
  | Cancelled text => r.1 = (text, Some ErrTurnCanceled)
  | Broken text => r.1.1 = text ∧ is_Some r.1.2 ∧ r.1.2 ≠ Some ErrTurnCanceled
  end ∧ from_option IsPreStreamRuntimeError false r.1.2 = agent_unknown a.
Proof.
  unfold ChatStream, tell. cbn zeta. rewrite fst_bind. cbn [fst snd]. destruct a as [msg | msg | status code detail field lines read_err]; [by split_and!.. |].
  cbn [openStream ending_of agent_unknown]. destruct (300 <=? status)%Z eqn:S; cbn [orb].
  { cbn. split; [by split_and! |]. destruct (bool_decide (status = 404%Z)); [| done]. destruct (bool_decide (code = _)); [| done]. by destruct (bool_decide (field = _)). }
  rewrite (bool_decide_eq_false_2 (status = 404%Z)) by (bool_to_prop; lia). cbn [andb]. rewrite fst_bind.
  pose proof (handle_lines_reads lines (mkStreamState "" false false false "" o) (tr ++ [Asked message])) as L. cbn zeta in L.
  pose proof (appends_handle_lines lines (mkStreamState "" false false false "" o) (tr ++ [Asked message])) as (? & _ & _ & Q).
  destruct (handle_lines _ _ _) as [[st err] tr']. cbn [fst snd] in *. destruct (rpc_error lines).
  { destruct L as [[e ->] L]. cbn. split; [split_and!; [done | by eexists | done] | by apply Q]. }
  destruct L as [-> L]. destruct (view_fold (events lines) "" false false "") as (fail & E & Fl). unfold view in L. cbn in L, Fl.
  rewrite E in L. fold (said (events lines)) in L. injection L as Hb Ht Hc Hf. cbn. rewrite Hb. split.
  2: { destruct (stream_end read_err st) eqn:Se; [| done]. by apply stream_end_not_prestream in Se. }
  unfold stream_end. rewrite Ht, Hc, Hf. destruct read_err; cbn; [split_and!; [done | by eexists | done] |].
  destruct (existsb is_task (events lines)); cbn; [| split_and!; [done | by eexists | done]].
  destruct (reported "canceled" (events lines)); [done |]. rewrite orb_comm, orb_comm in Fl.
  case_decide as D; [rewrite (bool_decide_eq_true_2 _ D) in Fl | rewrite (bool_decide_eq_false_2 _ D) in Fl].
  - by destruct (reported "failed" _ || reported "rejected" _).
  - destruct (reported "failed" _ || reported "rejected" _); [split_and!; [done | by eexists | done] | done].
Qed.

(** What the dispatch returns. *)
Lemma dispatch_reads te text tr :
  let r := fst (dispatch te text tr) in
  match ending_of (if sent_twice te then te_second te else te_first te) with
  | Replied text => r.1 = (text, None)
  | Cancelled text => r.1 = (text, Some ErrTurnCanceled)
  | Broken text => r.1.1 = text ∧ is_Some r.1.2 ∧ r.1.2 ≠ Some ErrTurnCanceled
  end.
Proof.
  unfold dispatch. cbn zeta. rewrite fst_bind. unfold sent_twice. pose proof (chat_reads (te_first te) text (mkObs "" ∅) tr) as [R P].
  destruct (ChatStream (te_first te) text _ tr) as [[[rep err] o] tr1]. cbn [fst snd] in *. rewrite <- P. unfold redispatch.
  destruct err as [err |]; cbn in *; [| exact R]. destruct (IsPreStreamRuntimeError err); cbn; [| exact R].
  destruct (te_register te); cbn; [exact R |]. rewrite fst_bind.
  pose proof (chat_reads (te_second te) text o tr1) as [R2 _].
  destruct (ChatStream (te_second te) text o tr1) as [[[rep2 err2] o2] tr2]. exact R2.
Qed.

(** What the turn returns. *)
Lemma turn_reads te :
  match turn_ending te with
  | Replied text => turn_result te = (mkResult text false, None)
  | Cancelled text => turn_result te = (mkResult text true, None)
  | Broken _ => (turn_result te).1 = mkResult "" false ∧ is_Some (turn_result te).2
  end.
Proof.
  unfold turn_result, turn_ending, executeTurnCore. rewrite !fst_bind. destruct (te_agent te) as [agent | err]; [| by split; [| eexists]].
  rewrite fst_bind. set (tr := snd _). pose proof (dispatch_reads te "" tr) as R. cbn zeta in R.
  destruct (dispatch te "" tr) as [[[rep err] rr] tr1]. cbn [fst snd] in *. rewrite fst_bind.
  destruct (ending_of _) as [text | text | text].
  - injection R as -> ->. by rewrite fst_bind.
  - injection R as -> ->. cbn [is_canceled orb]. by rewrite fst_bind.
  - destruct R as (-> & [e ->] & N). cbn in N. assert (is_canceled e = false) as -> by (destruct e; done). cbn [orb].
    destruct (te_parent te); [by rewrite fst_bind |]. rewrite !fst_bind. by split; [| eexists].
Qed.

Lemma redispatched_twice te : redispatched te = sent_twice te.
Proof.
  unfold redispatched, sent_twice. destruct (te_first te) as [msg | msg | status code detail field lines read_err]; [done.. |]. cbn.
  destruct (300 <=? status)%Z eqn:S; cbn; [| by rewrite (bool_decide_eq_false_2 (status = 404%Z)) by (bool_to_prop; lia)].
  destruct (bool_decide (status = 404%Z)); [| done]. destruct (bool_decide (code = _)); [| done]. by destruct (bool_decide (field = _)).
Qed.

End turn.

(** ** Examples *)

(** A decoder for the frames of the examples. *)
Definition sample_task (state : string) : a2aEvent := mkA2AEvent "task" "t1" "" state (Some [mkPart "text" "done" ∅]).

Definition sample_facade : Facade := {|
  newID := λ n, "id" +:+ pretty n; clock := λ n, Z.of_nat n; quote := λ s, s;
  json_string := λ s, Some s; json_bool := λ s, Some (bool_decide (s = "true")); json_usage := λ _, None;
  json_response := λ s, Some (s, None);
  json_event := λ s,
    if decide (s = "T") then Some (sample_task "completed")
    else if decide (s = "U")
      then Some (mkA2AEvent "status-update" "t1" "" "" (Some [mkPart "data" "" {["ev" := "tool_use"; "name" := "mcp__fs__read"]}]))
      else None
|}.

Definition sample_agent : Agent := mkAgent "agent" "agent_1" 1 "a" (mkModel "m" "") "" "" [] [] [] ∅ 0 0 None.
Definition sample_ref : SessionAgent := mkSessionAgent "agent" "agent_1" 1 "a" (mkModel "m" "") "" "" [] [] [].

(** The first request meets a scheduler that has lost the agent. *)
Definition sample_turn : turn_env :=
  mkTurnEnv (inl sample_agent) (Response 404 "scheduler_agent_not_found" "" "agent not found" [] None) None
    (Response 200 "" "" "" ["event: x"; "data: U"; "data: T"] None) false false.

Example sample_turn_events :
  let l := snd (executeTurn (F := sample_facade) 0 sample_ref "agent_1-v1" sample_turn "hello" []) in
  requests l = ["hello"; "hello"] ∧ task_ids l = ["t1"; ""] ∧ messages l = [text_block "done"] ∧
  statuses l = [StatusRunning; StatusIdle] ∧
  omap (λ e, if e is Did (OpAppend _ ev) then Some (ev_Type ev) else None) l =
    [EvtSessionStatusRunning; EvtAgentMCPToolUse; EvtAgentMessage; EvtSessionStatusIdle].
Proof. by vm_compute. Qed.
