(* ===== verification/CmaOutcome.v ===== *)
(** * The outcome loop of the facade ([internal/cmagateway/outcome.go])

    An outcome is a goal with a rubric: the agent works on it, a grader judges
    the reply, and the agent revises until the rubric is satisfied or the
    iterations are used up. The loop runs on the session's serial turn goroutine
    and is a program of [CmaTurn]; what the contexts, the executor and the grader
    answer is the environment's. *)
From S2P Require Import Prelude GoBase GoStrings CmaTypes CmaStore CmaStoreLaws CmaTurn.
From Stdlib Require Import ZArith Lia Ascii.

Definition outcomeMaxDescriptionBytes : nat := 16 * 1024.
Definition outcomeMaxRubricBytes : nat := 64 * 1024.
Definition outcomeMaxDeliverableBytes : nat := 256 * 1024.
Definition defaultOutcomeMaxIterationsCap : Z := 20.
Definition defaultOutcomeIterations : Z := 3.

(** ** The request *)

Record OutcomeConfig := mkOutcomeConfig { OutcomeMaxIterationsCap : Z; OutcomeDefaultIterations : Z }.

(** The description, the rubric and the number of iterations, or the message of
    a 400. *)
Definition validateDefineOutcome `{Facade} (cfg : OutcomeConfig) (ev : Event) : string * string * Z + string :=
  let desc := TrimSpace (ev_Description ev) in
  if decide (desc = "") then inr "user.define_outcome: description is required"
  else if decide (outcomeMaxDescriptionBytes < blen (ev_Description ev)) then
    inr ("user.define_outcome: description exceeds " +:+ fmt_d (Z.of_nat outcomeMaxDescriptionBytes) +:+ " bytes")
  else
  match ev_Rubric ev with
  | None => inr "user.define_outcome: rubric is required"
  | Some r =>
      if decide (rubric_Type r = "text") then
        let rubric := TrimSpace (rubric_Content r) in
        if decide (rubric = "") then inr "user.define_outcome: rubric content must not be blank"
        else if decide (outcomeMaxRubricBytes < blen (rubric_Content r)) then
          inr ("user.define_outcome: rubric exceeds " +:+ fmt_d (Z.of_nat outcomeMaxRubricBytes) +:+ " bytes")
        else if (ev_MaxIterations ev <? 0)%Z then inr "user.define_outcome: max_iterations must not be negative"
        else
          let cap := if (OutcomeMaxIterationsCap cfg <=? 0)%Z then defaultOutcomeMaxIterationsCap else OutcomeMaxIterationsCap cfg in
          if (cap <? ev_MaxIterations ev)%Z then
            inr ("user.define_outcome: max_iterations " +:+ fmt_d (ev_MaxIterations ev) +:+ " exceeds the configured cap " +:+ fmt_d cap)
          else
            let maxIter := if (ev_MaxIterations ev =? 0)%Z
              then if (OutcomeDefaultIterations cfg <=? 0)%Z then defaultOutcomeIterations else OutcomeDefaultIterations cfg
              else ev_MaxIterations ev in
            inl (desc, rubric, maxIter)
      else if decide (rubric_Type r = "file") then
        inr ("user.define_outcome: file rubrics require the Files API, which this facade does not implement; pass the rubric inline as {" +:+
             dq +:+ "type" +:+ dq +:+ ":" +:+ dq +:+ "text" +:+ dq +:+ "," +:+ dq +:+ "content" +:+ dq +:+ ":...}")
      else inr ("user.define_outcome: unsupported rubric type " +:+ quote (rubric_Type r) +:+ " (want " +:+ dq +:+ "text" +:+ dq +:+ ")")
  end.

(** [truncateForOutcome]. *)
Definition truncateForOutcome (s : string) (max : nat) : string :=
  if bool_decide (max = 0) || bool_decide (blen s ≤ max) then s
  else byte_take (rune_cut s max) s +:+ "… [truncated]".

(** ** Changes of the read model *)

Definition set_progress (result : string) (i : Z) (o : OutcomeEvaluation) : OutcomeEvaluation :=
  mkOutcome (oc_OutcomeID o) (oc_Description o) (oc_Rubric o) (oc_MaxIterations o) i result (oc_Explanation o)
    (oc_Criteria o) (oc_Deliverable o) (oc_CreatedAt o) (oc_UpdatedAt o) (oc_CompletedAt o).

Definition set_end (result explanation : string) (o : OutcomeEvaluation) : OutcomeEvaluation :=
  mkOutcome (oc_OutcomeID o) (oc_Description o) (oc_Rubric o) (oc_MaxIterations o) (oc_Iteration o) result explanation
    (oc_Criteria o) (oc_Deliverable o) (oc_CreatedAt o) (oc_UpdatedAt o) (oc_CompletedAt o).

Definition set_grade (explanation : string) (criteria : list OutcomeCriterion) (o : OutcomeEvaluation) : OutcomeEvaluation :=
  mkOutcome (oc_OutcomeID o) (oc_Description o) (oc_Rubric o) (oc_MaxIterations o) (oc_Iteration o) (oc_Result o) explanation
    criteria (oc_Deliverable o) (oc_CreatedAt o) (oc_UpdatedAt o) (oc_CompletedAt o).

Definition set_deliverable (deliverable : string) (o : OutcomeEvaluation) : OutcomeEvaluation :=
  mkOutcome (oc_OutcomeID o) (oc_Description o) (oc_Rubric o) (oc_MaxIterations o) (oc_Iteration o) (oc_Result o)
    (oc_Explanation o) (oc_Criteria o) deliverable (oc_CreatedAt o) (oc_UpdatedAt o) (oc_CompletedAt o).

Definition set_completed (now : time) (o : OutcomeEvaluation) : OutcomeEvaluation :=
  mkOutcome (oc_OutcomeID o) (oc_Description o) (oc_Rubric o) (oc_MaxIterations o) (oc_Iteration o) (oc_Result o)
    (oc_Explanation o) (oc_Criteria o) (oc_Deliverable o) (oc_CreatedAt o) (oc_UpdatedAt o) (Some now).

(** ** Prompts *)

Definition failing_lines (criteria : list OutcomeCriterion) : list string :=
  omap (λ c, if Passed c then None
             else Some ("- " +:+ Criterion c +:+ (if decide (Feedback c = "") then "" else ": " +:+ Feedback c))) criteria.

(** The grade is that of the previous iteration; iteration 0 has none. *)
Definition outcomePrompt (oc : OutcomeEvaluation) (iteration : nat) (grade : option OutcomeGrade) : string :=
  (match iteration, grade with
   | O, _ => "You are working toward a defined outcome. Work autonomously until the deliverable satisfies the rubric." +:+ nl +:+ nl
   | S i, Some g =>
       "Your previous deliverable (iteration " +:+ fmt_d (Z.of_nat i) +:+ ") did not satisfy the rubric. Grader feedback:" +:+ nl +:+
       grade_Explanation g +:+ nl +:+
       (if decide (length (failing_lines (grade_Criteria g)) = 0) then ""
        else nl +:+ "Failing criteria:" +:+ nl +:+ Join (failing_lines (grade_Criteria g)) nl +:+ nl) +:+
       nl +:+ "Revise your deliverable to address every failing criterion." +:+ nl +:+ nl
   | S _, None => ""
   end) +:+
  "## Goal" +:+ nl +:+ oc_Description oc +:+ nl +:+ nl +:+ "## Rubric" +:+ nl +:+ oc_Rubric oc +:+ nl.

Definition outcomeAckPrompt (oc : OutcomeEvaluation) (grade : OutcomeGrade) : string :=
  "The iteration budget for this outcome is exhausted; the rubric is not fully satisfied. Provide a concise final summary of the deliverable's current state, noting which rubric criteria remain unmet." +:+
  nl +:+ nl +:+ "## Goal" +:+ nl +:+ oc_Description oc +:+ nl +:+ nl +:+ "## Last grader feedback" +:+ nl +:+ grade_Explanation grade.

Section outcome.
Context `{F : Facade} (ptr : Z) (agentRef : SessionAgent) (ahsirName : string).

(** ** Events and updates *)

Definition emitOutcomeStart (id : string) (i : nat) : M Event :=
  ev ← newEvent EvtSpanOutcomeEvaluationStart;
  let ev := with_iteration id (Z.of_nat i) ev in
  _ ← emit ptr ev; mret ev.

Definition emitOutcomeOngoing (id : string) (i : nat) : M unit :=
  ev ← newEvent EvtSpanOutcomeEvaluationOngoing; emit ptr (with_iteration id (Z.of_nat i) ev).

Definition emitOutcomeEnd (id : string) (i : Z) (startID result explanation : string) : M unit :=
  ev ← newEvent EvtSpanOutcomeEvaluationEnd;
  emit ptr (with_result startID result explanation (mkUsage 0 0 0 0 "") (with_iteration id i ev)).

Definition updateOutcome (id : string) (mutate : OutcomeEvaluation → OutcomeEvaluation) : M unit :=
  λ tr, store_op (OpUpdate (clock (length tr)) ptr id mutate) tr.

Definition finishOutcome (id : string) (mutate : OutcomeEvaluation → OutcomeEvaluation) : M unit :=
  λ tr, updateOutcome id (λ o, set_completed (clock (length tr)) (mutate o)) tr.

Definition finishOutcomeInterrupted (id : string) (i : nat) (startID : string) : M unit :=
  _ ← emitOutcomeEnd id (Z.of_nat i) startID OutcomeResultInterrupted "outcome interrupted by user";
  _ ← finishOutcome id (set_end OutcomeResultInterrupted "outcome interrupted by user");
  emitIdle ptr.

(** [findOutcome]. *)
Fixpoint findOutcome (id : string) (l : list OutcomeEvaluation) : option OutcomeEvaluation :=
  match l with
  | [] => None
  | o :: l => if decide (oc_OutcomeID o = id) then Some o else findOutcome id l
  end.

(** ** Grading *)

(** One attempt: whether the context has been cancelled before it, the number of
    heartbeats while it is under way, and the grader's answer. *)
Record attempt := mkAttempt { at_ctx : bool; at_beats : nat; at_grade : OutcomeGrade + string }.

Fixpoint heartbeat (id : string) (i n : nat) : M unit :=
  match n with
  | O => mret tt
  | S n => _ ← emitOutcomeOngoing id i; heartbeat id i n
  end.

Definition gradeOnce (oc : OutcomeEvaluation) (i : nat) (reply : string) (a : attempt) : M (OutcomeGrade + string) :=
  _ ← tell (Graded (mkGradeRequest (oc_OutcomeID oc) (oc_Description oc) (oc_Rubric oc) (Z.of_nat i)
                      (truncateForOutcome reply outcomeMaxDeliverableBytes)));
  _ ← heartbeat (oc_OutcomeID oc) i (at_beats a);
  mret (at_grade a).

Definition canceled_text : string := "context canceled".

(** One turn of the retry loop; [lastErr] is dead on success. *)
Definition gradeAttempt (oc : OutcomeEvaluation) (i : nat) (reply : string) (a : attempt) : M (OutcomeGrade + string) :=
  _ ← emitOutcomeOngoing (oc_OutcomeID oc) i; gradeOnce oc i reply a.

Definition gradeWithRetry (oc : OutcomeEvaluation) (i : nat) (reply : string) (a1 a2 : attempt) : M (OutcomeGrade + string) :=
  if at_ctx a1 then mret (inr canceled_text)
  else
    r ← gradeAttempt oc i reply a1;
    match r with
    | inl g => mret (inl g)
    | inr _ => if at_ctx a2 then mret (inr canceled_text) else gradeAttempt oc i reply a2
    end.

(** ** The loop *)

(** The answers of one iteration: the context at its start, the executor's turn,
    the context after it, the two attempts at grading and the context after. *)
Record iter_env := mkIterEnv {
  it_ctx : bool;
  it_turn : turn_env;
  it_ctx_turn : bool;
  it_first : attempt;
  it_second : attempt;
  it_ctx_grade : bool;
}.

Definition failOutcome (id : string) (i : nat) (startID end_text explanation : string) : M unit :=
  _ ← emitOutcomeEnd id (Z.of_nat i) startID OutcomeResultFailed end_text;
  finishOutcome id (set_end OutcomeResultFailed explanation).

(** The end of an outcome with a grade: satisfied, or out of iterations. *)
Definition gradeOutcome (id : string) (i : nat) (startID result : string) (g : OutcomeGrade) (deliverable : string) : M unit :=
  _ ← emitOutcomeEnd id (Z.of_nat i) startID result (grade_Explanation g);
  finishOutcome id (λ o, set_deliverable (truncateForOutcome deliverable outcomeMaxDeliverableBytes)
                           (set_grade (grade_Explanation g) (grade_Criteria g) (set_end result (grade_Explanation g) o))).

(** The acknowledgment turn of an exhausted outcome. *)
Definition acknowledge (oc : OutcomeEvaluation) (g : OutcomeGrade) (ack : turn_env) : M unit :=
  '(res, err) ← executeTurnCore ptr agentRef ahsirName ack (outcomeAckPrompt oc g);
  _ ← (if bool_decide (err = None) && negb (canceled res) && negb (bool_decide (TrimSpace (reply res) = ""))
       then updateOutcome (oc_OutcomeID oc) (set_deliverable (truncateForOutcome (reply res) outcomeMaxDeliverableBytes))
       else mret tt);
  emitIdle ptr.

(** One iteration; the result is the grade to revise for, or [None] when the loop
    returns. *)
Definition iteration (oc : OutcomeEvaluation) (i : nat) (lastGrade : option OutcomeGrade) (e : iter_env) (ack : turn_env)
    : M (option OutcomeGrade) :=
  let id := oc_OutcomeID oc in
  if it_ctx e then _ ← finishOutcomeInterrupted id i ""; mret None
  else
  _ ← updateOutcome id (set_progress OutcomeStateRunning (Z.of_nat i));
  '(res, err) ← executeTurnCore ptr agentRef ahsirName (it_turn e) (outcomePrompt oc i lastGrade);
  if canceled res || it_ctx_turn e then _ ← finishOutcomeInterrupted id i ""; mret None
  else if err is Some msg then _ ← failOutcome id i "" ("executor turn failed: " +:+ msg) "executor turn failed"; mret None
  else
  start ← emitOutcomeStart id i;
  _ ← updateOutcome id (set_progress OutcomeStateEvaluating (Z.of_nat i));
  grade ← gradeWithRetry oc i (reply res) (it_first e) (it_second e);
  if it_ctx_grade e then _ ← finishOutcomeInterrupted id i (ev_ID start); mret None
  else
  match grade with
  | inr gerr =>
      let msg := "grader failed after one retry: " +:+ gerr in
      _ ← failOutcome id i (ev_ID start) msg msg; _ ← emitIdle ptr; mret None
  | inl g =>
      if decide (Verdict g = OutcomeVerdictSatisfied) then
        _ ← gradeOutcome id i (ev_ID start) OutcomeResultSatisfied g (reply res); _ ← emitIdle ptr; mret None
      else if (oc_MaxIterations oc <=? Z.of_nat (S i))%Z then
        _ ← gradeOutcome id i (ev_ID start) OutcomeResultMaxIterationsReached g (reply res);
        _ ← acknowledge oc g ack; mret None
      else
        _ ← emitOutcomeEnd id (Z.of_nat i) (ev_ID start) OutcomeResultNeedsRevision (grade_Explanation g);
        _ ← updateOutcome id (set_grade (grade_Explanation g) (grade_Criteria g)); mret (Some g)
  end.

(** The loop from iteration [i] with [n] to go. *)
Fixpoint outcome_loop (oc : OutcomeEvaluation) (envs : nat → iter_env) (ack : turn_env) (n i : nat)
    (lastGrade : option OutcomeGrade) : M unit :=
  match n with
  | O => mret tt
  | S n =>
      r ← iteration oc i lastGrade (envs i) ack;
      match r with
      | Some g => outcome_loop oc envs ack n (S i) (Some g)
      | None => mret tt
      end
  end.

Record outcome_env := mkOutcomeEnv {
  oe_outcomes : list OutcomeEvaluation;   (** [rec.OutcomeEvaluations()] when the loop starts *)
  oe_agent : Agent + string;              (** [s.sessionAgent(rec)] *)
  oe_iter : nat → iter_env;
  oe_ack : turn_env;
}.

(** [executeOutcome], the job of a [user.define_outcome]. *)
Definition executeOutcome (id : string) (e : outcome_env) : M unit :=
  _ ← match findOutcome id (oe_outcomes e) with
      | None => mret tt
      | Some oc =>
          match oe_agent e with
          | inr err =>
              let msg := "executor agent unavailable: " +:+ err in
              _ ← failOutcome id 0 "" msg msg; emitIdle ptr
          | inl _ => outcome_loop oc (oe_iter e) (oe_ack e) (Z.to_nat (oc_MaxIterations oc)) 0 None
          end
      end;
  store_op (OpCancelFunc ptr None).

(** [deliverDefineOutcome] once the request is valid, up to the enqueueing: the
    outcome offered to the store and, when it accepts, the echoed event. *)
Definition new_outcome (id desc rubric : string) (maxIter : Z) (now : time) : OutcomeEvaluation :=
  mkOutcome id desc rubric maxIter 0 OutcomeStatePending "" [] "" now now None.

Definition echoDefineOutcome (ev : Event) (id desc : string) (maxIter : Z) : M unit :=
  echo ← newEvent EvtUserDefineOutcome; emit ptr (with_define desc (ev_Rubric ev) maxIter id echo).

(** ** Recovery *)

Definition recover_message : string :=
  "facade restarted before the outcome completed; recorded as failed rather than guessing satisfied".

Fixpoint recover_record (l : list OutcomeEvaluation) : M unit :=
  match l with
  | [] => mret tt
  | o :: l =>
      _ ← (if OutcomeTerminal (oc_Result o) then mret tt
           else _ ← emitOutcomeEnd (oc_OutcomeID o) (oc_Iteration o) "" OutcomeResultFailed recover_message;
                finishOutcome (oc_OutcomeID o) (set_end OutcomeResultFailed recover_message));
      recover_record l
  end.
End outcome.

(** [recoverOutcomes]: the records visited are those of the sessions listed. *)
Fixpoint recover_sessions `{Facade} (s : Store) (l : list (string * Z)) : M unit :=
  match l with
  | [] => mret tt
  | (_, ptr) :: l =>
      _ ← match heap s !! ptr with Some r => recover_record ptr (OutcomeEvaluations (r_Session r)) | None => mret tt end;
      recover_sessions s l
  end.

Definition recoverOutcomes `{Facade} (range : gmap string Z → list (string * Z)) (s : Store) : M unit :=
  recover_sessions s (range (sessions s)).
