(* ===== verification/Paths.v ===== *)
(** * Slash-separated paths (package [path/filepath] on Unix)

    What the scheduler and the wrapper use of it, on top of the [Clean] of
    [InstanceName]: [Base], [Dir], [IsAbs], [Abs], [Join] and [Rel], with their
    meaning on the components of a path, from which containment follows. *)
From S2P Require Import Prelude GoBase GoStrings InstancePool.
From Stdlib Require Import ZArith Lia Ascii.
Import InstanceName.

(** ** Operations *)

Definition IsAbs (p : string) : bool := is_rooted p.

(** The cleaned components, outermost first; those of a rooted path never start
    with [".."]. *)
Definition components (p : string) : list string := rev (foldl (clean_push (is_rooted p)) [] (split_slash "" p)).

(** [filepath.Join(a, b)]: empty elements are ignored. *)
Definition JoinPath (a b : string) : string :=
  if nonempty b then Join2 a b else if nonempty a then Clean a else "".

(** [filepath.Abs] in the working directory [cwd]. *)
Definition Abs (cwd p : string) : string := if IsAbs p then Clean p else JoinPath cwd p.

(** The last element: trailing slashes are dropped first. *)
Definition Base (p : string) : string :=
  if decide (p = "") then "."
  else match last (filter (λ x, x ≠ "") (split_slash "" p)) with Some x => x | None => "/" end.

(** Everything up to the last slash, cleaned. *)
Definition Dir (p : string) : string :=
  Clean (match cut_last "/" p with Some (d, _) => d +:+ "/" | None => "" end).

(** The components of both after their common prefix. *)
Fixpoint drop_common (base targ : list string) : list string * list string :=
  match base, targ with
  | b :: base', t :: targ' => if decide (b = t) then drop_common base' targ' else (base, targ)
  | _, _ => (base, targ)
  end.

(** [filepath.Rel]; an error is [None]. *)
Definition Rel (base targ : string) : option string :=
  if decide (Clean base = Clean targ) then Some "."
  else if xorb (is_rooted base) (is_rooted targ) then None
  else let '(b, t) := drop_common (components base) (components targ) in
       if bool_decide (head b = Some "..") then None
       else Some (Join (replicate (length b) ".." ++ t) "/").

(** ** Facts *)

(** What a component of a cleaned rooted path looks like. *)
Definition plain (x : string) : Prop := x ≠ "" ∧ x ≠ "." ∧ x ≠ ".." ∧ cut_last "/" x = None.

Lemma cut_last_cons c a s : cut_last c (String a s) = None ↔ a ≠ c ∧ cut_last c s = None.
Proof. cbn. destruct (cut_last c s) as [[] |]; [naive_solver |]. destruct (ascii_dec a c); naive_solver. Qed.

Lemma cut_last_none_app c s t : cut_last c (s +:+ t) = None ↔ cut_last c s = None ∧ cut_last c t = None.
Proof.
  induction s as [| a s IH]; [by split; [| intros [_ ?]] |]. rewrite string_app_cons, !cut_last_cons, IH. tauto.
Qed.

Lemma rev_no_slash s : cut_last "/" (String.rev s) = None ↔ cut_last "/" s = None.
Proof.
  assert (∀ s, cut_last "/" s = None → cut_last "/" (String.rev s) = None) as Hr.
  { clear. induction s as [| a s IH]; [done |]. change (String a s) with (String a "" +:+ s).
    rewrite string_rev_app. intros [H1 H2]%cut_last_none_app. apply cut_last_none_app. split; [by apply IH |].
    revert H1. cbn. by destruct (ascii_dec a "/"). }
  split; [| apply Hr]. intros H. apply Hr in H. by rewrite string_rev_rev in H.
Qed.

(** The pieces between slashes have none. *)
Lemma split_slash_pieces cur s : cut_last "/" cur = None → Forall (λ x, cut_last "/" x = None) (split_slash cur s).
Proof.
  revert cur. induction s as [| a s IH]; intros cur Hc; cbn [split_slash].
  - constructor; [by apply rev_no_slash | done].
  - destruct (ascii_dec a "/") as [| Ha].
    + constructor; [by apply rev_no_slash | by apply IH].
    + apply IH. cbn. rewrite Hc. by destruct (ascii_dec a "/").
Qed.

Lemma clean_push_plain stack x :
  cut_last "/" x = None → Forall plain stack → Forall plain (clean_push true stack x).
Proof.
  intros Hx Hs. unfold clean_push. repeat case_bool_decide; subst; try done; cbn [orb].
  - destruct stack as [| y stack]; [done |]. apply Forall_cons in Hs as [(? & ? & Hy & ?) Hs].
    by rewrite bool_decide_eq_false_2.
  - constructor; [done | done].
Qed.

Lemma components_plain p : is_rooted p = true → Forall plain (components p).
Proof.
  intros Hr. unfold components. rewrite Hr. apply Forall_rev.
  pose proof (split_slash_pieces "" p eq_refl) as Hp. revert Hp. generalize (split_slash "" p) as l.
  assert (Forall plain []) as Hs by constructor. revert Hs. generalize (@nil string) as st. intros st Hst l. revert st Hst.
  induction l as [| x l IH]; intros st Hst Hl; cbn [foldl]; [done |].
  apply Forall_cons in Hl as [Hx Hl]. apply IH; [by apply clean_push_plain | done].
Qed.

Lemma Clean_rooted p : is_rooted p = true → Clean p = "/" +:+ Join (components p) "/".
Proof. intros Hr. unfold Clean, components, render. by rewrite Hr. Qed.

(** Splitting what was joined. *)
Lemma split_slash_Join l : l ≠ [] → Forall (λ x, cut_last "/" x = None) l → split_slash "" (Join l "/") = l.
Proof.
  induction l as [| x l IH]; [done |]. intros _ [Hx Hl]%Forall_cons. destruct l as [| y l].
  - cbn. by apply split_slash_one.
  - cbn [Join]. change ("/" +:+ ?s) with (String "/" s). rewrite split_slash_app, split_slash_one by done.
    cbn [app]. f_equal. by apply IH.
Qed.

Lemma foldl_plain st l : Forall plain l → foldl (clean_push true) st l = rev l ++ st.
Proof.
  revert st. induction l as [| x l IH]; intros st Hl; [done |]. apply Forall_cons in Hl as [(H1 & H2 & H3 & _) Hl].
  cbn [foldl]. rewrite IH by done. unfold clean_push. rewrite !bool_decide_eq_false_2 by done. cbn. by rewrite <- app_assoc.
Qed.

Lemma plain_no_slash l : Forall plain l → Forall (λ x, cut_last "/" x = None) l.
Proof. intros Hl. eapply Forall_impl; [exact Hl |]. by intros x (_ & _ & _ & ?). Qed.

Definition rooted_path (l : list string) : string := "/" +:+ Join l "/".

(** A rooted path made of plain components is clean and has those components. *)
Lemma components_rooted l : Forall plain l → components (rooted_path l) = l.
Proof.
  intros Hl. unfold components, rooted_path. change (is_rooted ("/" +:+ _)) with true.
  change ("/" +:+ ?s) with ("" +:+ String "/" s). rewrite split_slash_app. change (split_slash "" "") with [""]. cbn [app foldl].
  change (clean_push true [] "") with (@nil string). destruct (decide (l = [])) as [-> |]; [done |].
  rewrite split_slash_Join by (try done; by apply plain_no_slash). rewrite foldl_plain by done. rewrite app_nil_r. apply rev_involutive.
Qed.

Lemma Clean_rooted_path l : Forall plain l → Clean (rooted_path l) = rooted_path l.
Proof. intros Hl. rewrite Clean_rooted by done. by rewrite components_rooted. Qed.

Lemma Clean_inj p q : is_rooted p = true → is_rooted q = true → Clean p = Clean q ↔ components p = components q.
Proof.
  intros Hp Hq. rewrite !Clean_rooted by done. split; [| by intros ->]. intros E. change (rooted_path (components p) = rooted_path (components q)) in E.
  rewrite <- (components_rooted (components p)) by (by apply components_plain). rewrite E. apply components_rooted. by apply components_plain.
Qed.

Lemma drop_common_spec base targ b t :
  drop_common base targ = (b, t) → ∃ pre, base = pre ++ b ∧ targ = pre ++ t ∧ (b = [] ∨ t = [] ∨ head b ≠ head t).
Proof.
  revert targ. induction base as [| x base IH]; intros targ Hd; [injection Hd as <- <-; exists []; auto |].
  destruct targ as [| y targ]; [injection Hd as <- <-; exists []; auto |]. cbn in Hd. destruct (decide (x = y)) as [-> | Hne].
  - destruct (IH _ Hd) as (pre & -> & -> & Ho). by exists (y :: pre).
  - injection Hd as <- <-. exists []. split_and!; [done.. |]. do 2 right. by intros [= ->].
Qed.

(** Joining a plain element to a rooted path makes a direct child. *)
Lemma JoinPath_child a x : is_rooted a = true → plain x → JoinPath a x = rooted_path (components a ++ [x]).
Proof.
  intros Ha Hx. pose proof Hx as (Hne & _ & _ & Hs). unfold JoinPath, Join2. destruct x as [| c x]; [done |]. destruct a as [| d a]; [done |].
  cbn [nonempty]. change ("/" +:+ String c x) with (String "/" (String c x)).
  assert (is_rooted (String d a +:+ String "/" (String c x)) = true) as Hr by exact Ha.
  rewrite Clean_rooted by done. unfold rooted_path. do 2 f_equal. unfold components. rewrite Hr, Ha.
  rewrite split_slash_app, (split_slash_one (String c x)) by done. rewrite foldl_app.
  pose proof (foldl_plain (foldl (clean_push true) [] (split_slash "" (String d a))) [String c x]) as E.
  rewrite E by (by constructor; [| constructor]). done.
Qed.

Lemma components_child a x : is_rooted a = true → plain x → components (JoinPath a x) = components a ++ [x].
Proof.
  intros Ha Hx. rewrite JoinPath_child by done. apply components_rooted. apply Forall_app. split; [by apply components_plain | by constructor].
Qed.

(** ** Containment *)

(** [pathContainedBy] of [filesystem_preflight.go]. *)
Definition pathContainedBy (root required : string) : bool :=
  match Rel root required with
  | None => false
  | Some rel =>
      if IsAbs rel then false
      else bool_decide (rel = ".") || (negb (bool_decide (rel = "..")) && negb (bool_decide (is_Some (strip_prefix "../" rel))))
  end.

Lemma not_absolute x l : plain x → is_rooted (Join (x :: l) "/") = false.
Proof.
  intros (Hx & _ & _ & Hs). destruct x as [| c x]; [done |]. assert (c ≠ "/"%char) as Hc.
  { apply cut_last_cons in Hs. tauto. }
  destruct l; cbn [Join]; rewrite ?string_app_cons; cbn; by apply bool_decide_eq_false_2.
Qed.

(** A plain first component is neither [".."] nor goes up. *)
Lemma stays_below x l : plain x → Join (x :: l) "/" ≠ ".." ∧ strip_prefix "../" (Join (x :: l) "/") = None.
Proof.
  intros (H1 & _ & H3 & H4).
  split.
  - intros E. destruct l as [| y l]; cbn [Join] in E; [done |].
    assert (cut_last "/" ".." = None) as Hn by done. rewrite <- E in Hn. apply cut_last_none_app in Hn as [_ Hn].
    change ("/" +:+ ?s) with (String "/" s) in Hn. apply cut_last_cons in Hn. tauto.
  - destruct (strip_prefix _ _) as [r |] eqn:E; [| done]. apply strip_prefix_Some in E.
    assert (∃ rest, Join (x :: l) "/" = x +:+ rest ∧ (rest = "" ∨ ∃ u, rest = String "/" u)) as (rest & Er & Hrest).
    { destruct l as [| y l]; [exists ""; cbn; by rewrite string_app_nil_r; auto | exists (String "/" (Join (y :: l) "/")); eauto]. }
    rewrite Er in E. destruct x as [| a [| b [| d x]]]; [done | | |].
    + rewrite string_app_cons in E. cbn in E. injection E as -> E. destruct Hrest as [-> | [u ->]]; done.
    + rewrite !string_app_cons in E. cbn in E. injection E as -> -> _. done.
    + rewrite !string_app_cons in E. cbn in E. injection E as -> -> -> _. rewrite !cut_last_cons in H4. tauto.
Qed.

(** Going up at all shows at the beginning of the relative path. *)
Lemma goes_up n l : Join (replicate (S n) ".." ++ l) "/" = ".." ∨ is_Some (strip_prefix "../" (Join (replicate (S n) ".." ++ l) "/")).
Proof.
  cbn [replicate app]. destruct (replicate n ".." ++ l) as [| y m]; [by left |]. right. cbn [Join].
  exists (Join (y :: m) "/"). by change (".." +:+ "/" +:+ ?s) with ("../" +:+ s).
Qed.

(** Containment is what it should be: the components of the root are a prefix of
    those of the path. *)
Lemma contained_iff root p :
  is_rooted root = true → is_rooted p = true → pathContainedBy root p = true ↔ components root `prefix_of` components p.
Proof.
  intros Hr Hp. unfold pathContainedBy, Rel. destruct (decide (Clean root = Clean p)) as [E | E].
  { apply Clean_inj in E; [| done | done]. rewrite E. cbn. split; [intros _; done | done]. }
  rewrite Hr, Hp. cbn [xorb]. destruct (drop_common (components root) (components p)) as [b t] eqn:Ed.
  apply drop_common_spec in Ed as (pre & E1 & E2 & Ho).
  pose proof (components_plain root Hr) as Pr. pose proof (components_plain p Hp) as Pp. rewrite E1, E2 in *.
  apply Forall_app in Pr as [_ Pb]. apply Forall_app in Pp as [_ Pt].
  destruct b as [| x b].
  - rewrite app_nil_r. cbn [head length replicate app]. rewrite bool_decide_eq_false_2 by done.
    split; [intros _; by exists t |]. intros _. destruct t as [| y t].
    { exfalso. apply E, Clean_inj; [done.. |]. by rewrite E1, E2. }
    apply Forall_cons in Pt as [Py Pt]. unfold IsAbs. rewrite not_absolute by done.
    destruct (stays_below y t Py) as [H1 H2]. rewrite H2. rewrite (bool_decide_eq_false_2 (_ = "..")) by done.
    rewrite (bool_decide_eq_false_2 (is_Some None)) by (by intros []). by rewrite orb_true_r.
  - apply Forall_cons in Pb as [(_ & _ & Px & _) _]. cbn [head]. rewrite bool_decide_eq_false_2 by congruence.
    split.
    + destruct (IsAbs _); [done |]. cbn [length]. destruct (goes_up (length b) t) as [-> | Hs]; [done |].
      rewrite (bool_decide_eq_true_2 (is_Some _)) by done. rewrite andb_false_r, orb_false_r. intros E3%bool_decide_eq_true.
      rewrite E3 in Hs. by destruct Hs.
    + intros [k Hk]. rewrite <- app_assoc in Hk. apply app_inv_head in Hk. rewrite Hk in Ho. cbn in Ho. naive_solver.
Qed.
