(* ===== verification/Runtime.v ===== *)
(** * The runtime of an agent ([internal/wrapper/runtime.go])

    How the [runtime] block of a card becomes the environment of the provider's
    command: the expansion of variables (package [os], [Expand]), the providers,
    the credential contract of codex, and the validation that the scheduler and
    the agent share. The environment of the process is a map; the parser of
    durations and the tables of Unicode are parameters. *)
From S2P Require Import Prelude GoBase GoStrings IdleMonitor CmaCards.
From Stdlib Require Import ZArith Lia Ascii.

(** ** Data ([card.go]) *)

Record RuntimeConfig := mkRuntime {
  Provider : string; BaseURL : string; APIKey : string; Model : string; WireAPI : string; EnvKey : string;
  Command : string; Args : list string; Env : gmap string string; Timeout : string; AgentIdleTimeout : string;
}.

Record CodexProviderConfig := mkCodex { cx_BaseURL : string; cx_WireAPI : string; cx_EnvKey : string }.

Definition ProviderAnthropic : string := "anthropic".
Definition ProviderZhipu : string := "zhipu".
Definition ProviderDeepSeek : string := "deepseek".
Definition ProviderCodex : string := "codex".
Definition ProviderEcho : string := "echo".
Definition zhipuDefaultBaseURL : string := "https://open.bigmodel.cn/api/anthropic".
Definition deepseekDefaultBaseURL : string := "https://api.deepseek.com/anthropic".

(** ** [os.Expand] *)

Definition isShellSpecialVar (c : ascii) : bool :=
  in_range 48 57 c || is_byte 42 c || is_byte 35 c || is_byte 36 c || is_byte 64 c || is_byte 33 c || is_byte 63 c || is_byte 45 c.
Definition isAlphaNum (c : ascii) : bool := is_byte 95 c || in_range 48 57 c || in_range 97 122 c || in_range 65 90 c.

Fixpoint span_bytes (P : ascii → bool) (s : string) : string :=
  match s with String c s' => if P c then String c (span_bytes P s') else EmptyString | EmptyString => EmptyString end.

(** [getShellName] on the text after the dollar sign: the name and how many bytes
    it takes. *)
Definition getShellName (s : string) : string * nat :=
  match s with
  | EmptyString => ("", 0)
  | String c rest =>
      if is_byte 123 c then
        match rest with
        | String d (String e _) =>
            if isShellSpecialVar d && is_byte 125 e then (String d "", 3)
            else match Index rest "}" with
                 | Some 0 => ("", 2)
                 | Some i => (byte_take i rest, i + 2)
                 | None => ("", 1)
                 end
        | _ => match Index rest "}" with
               | Some 0 => ("", 2)
               | Some i => (byte_take i rest, i + 2)
               | None => ("", 1)
               end
        end
      else if isShellSpecialVar c then (String c "", 1)
      else let n := span_bytes isAlphaNum s in (n, blen n)
  end.

(** [Expand]; [skip] bytes of a reference remain to be passed over. Beside the
    text, the names that were looked up, in order. *)
Fixpoint expand_go (mapping : string → string) (skip : nat) (s : string) : string * list string :=
  match s with
  | EmptyString => ("", [])
  | String c s' =>
      match skip with
      | S k => expand_go mapping k s'
      | O =>
          if is_byte 36 c && nonempty s' then
            let '(name, w) := getShellName s' in
            let '(out, names) := expand_go mapping w s' in
            if nonempty name then (mapping name +:+ out, name :: names)
            else if decide (w = 0) then (String c out, names) else (out, names)
          else let '(out, names) := expand_go mapping 0 s' in (String c out, names)
      end
  end.

Definition Expand (mapping : string → string) (s : string) : string := (expand_go mapping 0 s).1.

(** The variables a text refers to. *)
Definition references (s : string) : list string := (expand_go (λ _, "") 0 s).2.

(** ** Resolution *)

Definition legacyAPIKeyEnvName (value : string) : string :=
  match strip_prefix "$" value with
  | None => ""
  | Some rest =>
      if shellEnvName rest then rest
      else match strip_prefix "{" rest with
           | None => ""
           | Some r => let n := TrimSuffix r "}" in if shellEnvName n && bool_decide (n +:+ "}" = r) then n else ""
           end
  end.

Definition reserved_env (key : string) (x : CodexProviderConfig) : bool :=
  bool_decide (key = "OPENAI_API_KEY") || bool_decide (key = "CODEX_API_KEY") || bool_decide (key = cx_EnvKey x).

Definition is_anthropic (provider : string) : bool :=
  bool_decide (provider = ProviderAnthropic) || bool_decide (provider = ProviderZhipu) || bool_decide (provider = ProviderDeepSeek).

(** The additions that are not empty. *)
Definition put_nonempty (k v : string) (m : gmap string string) : gmap string string := if nonempty v then <[k := v]> m else m.

Section runtime.
Context `{UnicodeTables} `{UnicodeLower} (ParseDuration : string → duration + string).
(** The environment of the process, and the order in which a map is visited. *)
Context (environ : gmap string string) (visit : gmap string string → list (string * string)).

Definition RuntimeProvider (rt : RuntimeConfig) : string :=
  let provider := ToLower (TrimSpace (Provider rt)) in if nonempty provider then provider else ProviderAnthropic.

(** The variables that are not set, without repetition, sorted. *)
Definition missing_vars (s : string) : list string :=
  merge_sort String.le (elements (list_to_set (filter (λ n, environ !! n = None) (references s)) : gset string)).

Definition expandStrict (field s : string) : string + string :=
  if nonempty s then
    match missing_vars s with
    | [] => inl (Expand (λ n, default "" (environ !! n)) s)
    | names => inr (field +:+ " references unset env vars: " +:+ Join names ", ")
    end
  else inl "".

Definition ResolveRuntimeModel (rt : RuntimeConfig) : string + string := expandStrict "runtime.model" (Model rt).
Definition ResolveRuntimeBaseURL (rt : RuntimeConfig) : string + string := expandStrict "runtime.baseURL" (BaseURL rt).

Definition ResolveCodexProvider (rt : RuntimeConfig) : CodexProviderConfig + string :=
  if nonempty (APIKey rt) then
    inr (let name := legacyAPIKeyEnvName (APIKey rt) in
         if nonempty name
         then "runtime.apiKey is no longer supported for provider=codex; use runtime.credential.envKey: " +:+ name
         else "runtime.apiKey must not contain a Codex provider secret; use runtime.credential.envKey")
  else match expandStrict "runtime.baseURL" (BaseURL rt) with
  | inr err => inr err
  | inl baseURL =>
      let envKey := TrimSpace (EnvKey rt) in
      if nonempty envKey && negb (shellEnvName envKey)
      then inr ("runtime.credential.envKey " +:+ fmt_q envKey +:+ " is not a valid environment variable name")
      else if nonempty baseURL && negb (nonempty envKey)
      then inr "runtime.credential.envKey is required when runtime.baseURL is set (provider=codex)"
      else if nonempty envKey && negb (nonempty (default "" (environ !! envKey)))
      then inr ("runtime.credential.envKey references missing or empty environment variable " +:+ envKey)
      else
        let wireAPI := ToLower (TrimSpace (WireAPI rt)) in
        let wireAPI := if nonempty wireAPI then wireAPI else "responses" in
        if bool_decide (wireAPI ≠ "responses") && bool_decide (wireAPI ≠ "chat")
        then inr ("runtime.wireAPI " +:+ fmt_q (WireAPI rt) +:+ " is not supported for provider=codex; use responses or chat")
        else inl (mkCodex baseURL wireAPI envKey)
  end.

(** The loop over [rt.Env] that lays the explicit entries over [out]; [refuse] is
    its first check. *)
Fixpoint layer_env (refuse : string → option string) (entries : list (string * string)) (out : gmap string string)
    : gmap string string + string :=
  match entries with
  | [] => inl out
  | (k, v) :: entries =>
      match refuse k with
      | Some err => inr err
      | None =>
          match expandStrict ("runtime.env." +:+ k) v with
          | inr err => inr err
          | inl expanded => layer_env refuse entries (<[k := expanded]> out)
          end
      end
  end.

Definition codex_refuse (x : CodexProviderConfig) (k : string) : option string :=
  if reserved_env k x then
    Some ("runtime.env." +:+ k +:+ " is reserved for Codex authentication; set credential.envKey and export the credential in the parent process environment")
  else None.

(** What the high-level fields become. *)
Definition provider_env (provider given baseURL apiKey model : string) : gmap string string + string :=
  if is_anthropic provider then
    let baseURL :=
      if nonempty baseURL then baseURL
      else if decide (provider = ProviderZhipu) then zhipuDefaultBaseURL
      else if decide (provider = ProviderDeepSeek) then deepseekDefaultBaseURL else "" in
    inl (put_nonempty "ANTHROPIC_MODEL" model (put_nonempty "ANTHROPIC_AUTH_TOKEN" apiKey (put_nonempty "ANTHROPIC_BASE_URL" baseURL ∅)))
  else if decide (provider = ProviderEcho) then inl ∅
  else if nonempty baseURL || nonempty apiKey || nonempty model
  then inr ("unknown runtime.provider " +:+ fmt_q given +:+ " (high-level baseURL/apiKey/model fields can only be used with provider=anthropic|zhipu|deepseek|codex); use runtime.env for custom providers")
  else inl ∅.

Definition ResolveProviderEnv (rt : RuntimeConfig) : gmap string string + string :=
  let provider := RuntimeProvider rt in
  if decide (provider = ProviderCodex) then
    match ResolveCodexProvider rt with
    | inr err => inr err
    | inl x => layer_env (codex_refuse x) (visit (Env rt)) ∅
    end
  else
    match expandStrict "runtime.baseURL" (BaseURL rt), expandStrict "runtime.apiKey" (APIKey rt), expandStrict "runtime.model" (Model rt) with
    | inr err, _, _ | inl _, inr err, _ | inl _, inl _, inr err => inr err
    | inl baseURL, inl apiKey, inl model =>
        match provider_env provider (Provider rt) baseURL apiKey model with
        | inr err => inr err
        | inl out =>
            match layer_env (λ _, None) (visit (Env rt)) out with
            | inr err => inr err
            | inl out =>
                if is_anthropic provider && nonempty (default "" (out !! "ANTHROPIC_BASE_URL")) &&
                   negb (nonempty (default "" (out !! "ANTHROPIC_AUTH_TOKEN")))
                then inr ("runtime.apiKey is required when runtime.baseURL is set (provider=" +:+ provider +:+ ")")
                else inl out
            end
        end
    end.

(** [ValidateRuntimeConfig]; [servers] says whether the card declares MCP servers. *)
Definition ValidateRuntimeConfig (rt : RuntimeConfig) (servers : bool) : option string :=
  match (if nonempty (Timeout rt) then ParseDuration (Timeout rt) else inl 0%Z) with
  | inr err => Some ("runtime.timeout " +:+ fmt_q (Timeout rt) +:+ ": " +:+ err)
  | inl _ =>
      match (ParseAgentIdleTimeout ParseDuration (AgentIdleTimeout rt)).2 with
      | Some err => Some ("runtime.agent_idle_timeout " +:+ fmt_q (AgentIdleTimeout rt) +:+ ": " +:+ err)
      | None =>
          match ResolveProviderEnv rt, ResolveRuntimeModel rt with
          | inr err, _ | inl _, inr err => Some err
          | inl _, inl _ =>
              if bool_decide (RuntimeProvider rt = ProviderCodex) && servers
              then Some "mcp.servers is only supported for claude-backed agents; codex configures MCP via its CODEX_HOME config.toml"
              else None
          end
      end
  end.
End runtime.
