(* ===== verification/RuntimeLaws.v ===== *)
(** * The environment of a provider, proved

    Expansion looks up exactly the variables it names and copies everything else;
    the environment of a codex agent holds no credential; explicit entries win over
    those of the provider; and what validation accepts resolves later on. *)
From S2P Require Import Prelude GoBase GoStrings IdleMonitor CmaCards Runtime.
From Stdlib Require Import ZArith Lia Ascii.

(** ** Expansion *)

(** A text as a sequence of literal bytes and references. *)
Inductive chunk := Lit (c : ascii) | Ref (name : string).

Definition render (f : string → string) (l : list chunk) : string :=
  foldr (λ x s, match x with Lit c => String c s | Ref n => f n +:+ s end) "" l.

Definition refs (l : list chunk) : list string := omap (λ x, if x is Ref n then Some n else None) l.

(** What is read does not depend on what the variables hold. *)
Lemma expand_chunks k s : ∃ l, (∀ f, expand_go f k s = (render f l, refs l)) ∧ (∀ c, Lit c ∈ l → ∃ i, byte_at i s = Some c).
Proof.
  revert k. induction s as [| c s IH]; intros k; [by exists []; split; [| set_solver] |].
  assert (∀ l : list chunk, (∀ c, Lit c ∈ l → ∃ i, byte_at i s = Some c) → ∀ d, Lit d ∈ l → ∃ i, byte_at i (String c s) = Some d) as Hshift.
  { intros l Hl d [i Hi]%Hl. by exists (S i). }
  destruct k as [| k]; cbn [expand_go].
  - destruct (is_byte 36 c && nonempty s).
    + destruct (getShellName s) as [name w]. destruct (IH w) as (l & Hl & Hb).
      destruct (nonempty name); [exists (Ref name :: l) | destruct (decide (w = 0)); [exists (Lit c :: l) | exists l]].
      * split; [intros f; by rewrite Hl |]. intros d [|]%elem_of_cons; [done | by eapply Hshift].
      * split; [intros f; by rewrite Hl |]. intros d [[= ->] |]%elem_of_cons; [by exists 0 | by eapply Hshift].
      * split; [intros f; by rewrite Hl | by apply Hshift].
    + destruct (IH 0) as (l & Hl & Hb). exists (Lit c :: l). split; [intros f; by rewrite Hl |].
      intros d [[= ->] |]%elem_of_cons; [by exists 0 | by eapply Hshift].
  - destruct (IH k) as (l & Hl & Hb). exists l. split; [done | by apply Hshift].
Qed.

Lemma references_eq f s : (expand_go f 0 s).2 = references s.
Proof. unfold references. destruct (expand_chunks 0 s) as (l & Hl & _). by rewrite !Hl. Qed.

(** Only the variables that are referred to matter. *)
Lemma Expand_ext f g s : (∀ n, n ∈ references s → f n = g n) → Expand f s = Expand g s.
Proof.
  unfold Expand, references. destruct (expand_chunks 0 s) as (l & Hl & _). rewrite !Hl. cbn. clear Hl. induction l as [| x l IH]; [done |].
  intros Hf. assert (render f l = render g l) as E by (apply IH; intros n Hn; apply Hf; destruct x; cbn; [done | by right]).
  destruct x as [c | n]; cbn [render foldr]; fold (render f l) (render g l); rewrite E; [done |]. by rewrite (Hf n) by (left).
Qed.

(** Without a dollar sign nothing is looked up or changed. *)
Lemma Expand_literal f s : Index s "$" = None → Expand f s = s ∧ references s = [].
Proof.
  unfold Expand, references. assert (∀ g, Index s "$" = None → expand_go g 0 s = (s, [])) as Hg; [| intros Hs; by rewrite !Hg].
  intros g. induction s as [| c s IH]; [done |]. cbn [Index]. change (strip_prefix "$" (String c s)) with (if ascii_dec "$" c then Some s else None).
  destruct (ascii_dec "$" c) as [| Hc]; [done |].
  destruct (Index s "$"); [done |]. intros _. assert (is_byte 36 c = false) as Hb.
  { unfold is_byte, byte_of. apply Z.eqb_neq. intros E. apply Hc. rewrite <- (ascii_nat_embedding c).
    by replace (nat_of_ascii c) with 36 by lia. }
  cbn [expand_go]. rewrite Hb. cbn [andb]. by rewrite IH.
Qed.

Section laws.
Context `{UnicodeTables} `{UnicodeLower}.

Lemma missing_elem env s n : n ∈ missing_vars env s ↔ n ∈ references s ∧ env !! n = None.
Proof. unfold missing_vars. rewrite merge_sort_Permutation, elem_of_elements, elem_of_list_to_set, list_elem_of_filter. tauto. Qed.

Lemma missing_nil env s : missing_vars env s = [] ↔ ∀ n, n ∈ references s → is_Some (env !! n).
Proof.
  split.
  - intros E n Hn. apply not_eq_None_Some. intros Hx. assert (n ∈ missing_vars env s) as Hin by (by apply missing_elem).
    rewrite E in Hin. by apply not_elem_of_nil in Hin.
  - intros Hs. destruct (missing_vars env s) as [| n l] eqn:E; [done |]. assert (n ∈ missing_vars env s) as Hin by (rewrite E; by left).
    apply missing_elem in Hin as [Hn Hx]. destruct (Hs n Hn) as [v Hv]. congruence.
Qed.

(** The text and the error of a strict expansion. *)
Lemma expandStrict_spec env field s :
  match expandStrict env field s with
  | inl t => (∀ n, n ∈ references s → is_Some (env !! n)) ∧ ∀ f, (∀ n v, n ∈ references s → env !! n = Some v → f n = v) → t = Expand f s
  | inr err =>
      ∃ names, err = field +:+ " references unset env vars: " +:+ Join names ", " ∧ names ≠ [] ∧ NoDup names ∧ StronglySorted String.le names ∧
        ∀ n, n ∈ names ↔ n ∈ references s ∧ env !! n = None
  end.
Proof.
  unfold expandStrict. destruct (nonempty s) eqn:Hs.
  2: { destruct s; [| done]. by split; [set_solver |]. }
  destruct (missing_vars env s) as [| n l] eqn:Hm.
  - pose proof (proj1 (missing_nil env s) Hm) as Hset. clear Hm. split; [done |]. intros f Hf. apply Expand_ext. intros n Hn. destruct (Hset n Hn) as [v Hv].
    rewrite Hv. symmetry. by apply Hf.
  - exists (missing_vars env s). split_and!; [by rewrite Hm | by rewrite Hm | | | apply missing_elem].
    + unfold missing_vars. rewrite merge_sort_Permutation. apply NoDup_elements.
    + apply (StronglySorted_merge_sort String.le).
Qed.

(** ** The environment *)

Section environment.
Context (environ : gmap string string).

Lemma layer_env_spec refuse entries : ∀ out out',
  NoDup entries.*1 → layer_env environ refuse entries out = inl out' →
  (∀ k v, (k, v) ∈ entries → refuse k = None ∧ ∃ t, expandStrict environ ("runtime.env." +:+ k) v = inl t ∧ out' !! k = Some t) ∧
  (∀ k, k ∉ entries.*1 → out' !! k = out !! k).
Proof.
  induction entries as [| [k v] entries IH]; intros out out' Hnd; cbn [layer_env].
  { intros [= ->]. split; [set_solver | done]. }
  destruct (refuse k) eqn:Hr; [done |]. destruct (expandStrict _ _ v) as [t |] eqn:Ht; [| done].
  apply NoDup_cons in Hnd as [Hk Hnd]. intros Hl. destruct (IH _ _ Hnd Hl) as [Hin Hout]. split.
  - intros k' v' [[= -> ->] | Hx]%elem_of_cons; [| by apply Hin]. split; [done |]. exists t. split; [done |].
    rewrite Hout by done. apply lookup_insert_eq.
  - intros k' Hk'. cbn in Hk'. apply not_elem_of_cons in Hk' as [Hne Hk']. rewrite Hout by done. by apply lookup_insert_ne.
Qed.

(** The explicit entries are expanded and win; the rest is what was there. *)
Lemma layer_env_map (visit : gmap string string → list (string * string)) refuse m out out' :
  visits visit → layer_env environ refuse (visit m) out = inl out' → ∀ k,
  match m !! k with
  | Some v => refuse k = None ∧ ∃ t, expandStrict environ ("runtime.env." +:+ k) v = inl t ∧ out' !! k = Some t
  | None => out' !! k = out !! k
  end.
Proof.
  intros Hv Hl k. destruct (layer_env_spec _ _ _ _ (visits_NoDup visit m Hv) Hl) as [Hin Hout].
  destruct (m !! k) as [v |] eqn:Hk; [by apply Hin, (visits_elem visit) |]. apply Hout. intros [[k' v] [-> Hx]]%list_elem_of_fmap.
  apply (visits_elem visit) in Hx; [| done]. cbn in Hk. congruence.
Qed.

Lemma neither_not (w a b : string) : bool_decide (w ≠ a) && bool_decide (w ≠ b) = false → w = a ∨ w = b.
Proof. repeat case_bool_decide; naive_solver. Qed.

Lemma codex_provider_spec rt x :
  ResolveCodexProvider environ rt = inl x →
  APIKey rt = "" ∧ expandStrict environ "runtime.baseURL" (BaseURL rt) = inl (cx_BaseURL x) ∧ cx_EnvKey x = TrimSpace (EnvKey rt) ∧
  (cx_WireAPI x = "responses" ∨ cx_WireAPI x = "chat") ∧ (cx_EnvKey x = "" → cx_BaseURL x = "") ∧
  (cx_EnvKey x ≠ "" → shellEnvName (cx_EnvKey x) = true ∧ ∃ v, environ !! cx_EnvKey x = Some v ∧ v ≠ "").
Proof.
  unfold ResolveCodexProvider. destruct (nonempty (APIKey rt)) eqn:Ha; [done |]. destruct (APIKey rt); [| done].
  destruct (expandStrict _ _ _) as [url |] eqn:Hu; [| done]. cbv zeta.
  destruct (nonempty (TrimSpace (EnvKey rt))) eqn:Hk; cbn [andb negb].
  - rewrite andb_false_r. destruct (shellEnvName _) eqn:Hn; [| done]. cbn [negb].
    destruct (environ !! TrimSpace (EnvKey rt)) as [v |] eqn:Hv; cbn [from_option id negb nonempty]; [| done]. destruct (nonempty v) eqn:Hne; [| done]. cbn [negb].
    destruct (bool_decide _ && bool_decide _) eqn:Hw; [done |]. apply neither_not in Hw. intros [= <-]. cbn.
    split_and!; try done; [intros E; by rewrite E in Hk |]. intros _. split; [done |]. exists v. split; [done |]. by destruct v.
  - destruct (TrimSpace (EnvKey rt)) eqn:Ht; [| done]. rewrite andb_true_r. destruct (nonempty url) eqn:Hne; [done |]. destruct url; [| done].
    destruct (bool_decide _ && bool_decide _) eqn:Hw; [done |]. apply neither_not in Hw. by intros [= <-].
Qed.

Lemma codex_refuse_none x k : codex_refuse x k = None ↔ reserved_env k x = false.
Proof. unfold codex_refuse. by destruct (reserved_env k x). Qed.

Lemma put_nonempty_lookup k v m k' : put_nonempty k v m !! k' = if decide (k' = k ∧ v ≠ "") then Some v else m !! k'.
Proof.
  unfold put_nonempty. destruct v as [| c v]; cbn [nonempty].
  - by rewrite decide_False by tauto.
  - destruct (decide (k' = k)) as [-> |]; [by rewrite lookup_insert_eq, decide_True | by rewrite lookup_insert_ne, decide_False by naive_solver].
Qed.

(** What the high-level fields contribute. *)
Definition contributed (rt : RuntimeConfig) (k v : string) : Prop :=
  v ≠ "" ∧
  ((k = "ANTHROPIC_BASE_URL" ∧
      (expandStrict environ "runtime.baseURL" (BaseURL rt) = inl v ∨
       expandStrict environ "runtime.baseURL" (BaseURL rt) = inl "" ∧
         (RuntimeProvider rt = ProviderZhipu ∧ v = zhipuDefaultBaseURL ∨ RuntimeProvider rt = ProviderDeepSeek ∧ v = deepseekDefaultBaseURL))) ∨
   (k = "ANTHROPIC_AUTH_TOKEN" ∧ expandStrict environ "runtime.apiKey" (APIKey rt) = inl v) ∨
   (k = "ANTHROPIC_MODEL" ∧ expandStrict environ "runtime.model" (Model rt) = inl v)).

Lemma provider_env_contributes rt baseURL apiKey model out k v :
  expandStrict environ "runtime.baseURL" (BaseURL rt) = inl baseURL → expandStrict environ "runtime.apiKey" (APIKey rt) = inl apiKey →
  expandStrict environ "runtime.model" (Model rt) = inl model →
  provider_env (RuntimeProvider rt) (Provider rt) baseURL apiKey model = inl out → out !! k = Some v → contributed rt k v.
Proof.
  intros Hb Ha Hm. unfold provider_env, contributed. destruct (is_anthropic _).
  - intros [= <-]. rewrite !put_nonempty_lookup, lookup_empty.
    case_decide as H1; [destruct H1; intros [= <-]; naive_solver |]. case_decide as H2; [destruct H2; intros [= <-]; naive_solver |].
    case_decide as H3; [| done]. destruct H3 as [-> H3]. intros [= <-]. split; [done |]. left. split; [done |].
    destruct (nonempty baseURL) eqn:Hne; [by left |]. destruct baseURL; [| done]. right. split; [done |].
    repeat case_decide; naive_solver.
  - destruct (decide (RuntimeProvider rt = ProviderEcho)); [by intros [= <-] |]. destruct (_ || _); [done | by intros [= <-]].
Qed.
End environment.

(** The environment a provider's command is started with, whenever one is
    computed at all: every explicit entry of the card is in it, expanded, and wins
    over what the high-level fields contribute; anything else in it comes from one
    of those fields and is not empty; an Anthropic-compatible address never comes
    without a token; and for codex it holds no credential - the card has no key,
    the reserved variables are absent, only the card's own entries are there, and
    the variable named for the credential is a shell identifier that is set and
    not empty. The order in which the entries are visited does not matter. *)
Lemma provider_env_sound environ visit rt out :
  visits visit → ResolveProviderEnv environ visit rt = inl out →
  (∀ k v, Env rt !! k = Some v → ∃ t, expandStrict environ ("runtime.env." +:+ k) v = inl t ∧ out !! k = Some t) ∧
  (∀ k v, Env rt !! k = None → out !! k = Some v → RuntimeProvider rt ≠ ProviderCodex ∧ contributed environ rt k v) ∧
  (is_anthropic (RuntimeProvider rt) = true → ∀ u, out !! "ANTHROPIC_BASE_URL" = Some u → u ≠ "" →
     ∃ token, out !! "ANTHROPIC_AUTH_TOKEN" = Some token ∧ token ≠ "") ∧
  (RuntimeProvider rt = ProviderCodex →
     APIKey rt = "" ∧ out !! "OPENAI_API_KEY" = None ∧ out !! "CODEX_API_KEY" = None ∧ out !! TrimSpace (EnvKey rt) = None ∧
     (TrimSpace (EnvKey rt) ≠ "" → shellEnvName (TrimSpace (EnvKey rt)) = true ∧ ∃ v, environ !! TrimSpace (EnvKey rt) = Some v ∧ v ≠ "")) ∧
  (∀ visit', visits visit' → ∀ out', ResolveProviderEnv environ visit' rt = inl out' → out' = out).
Proof.
  intros Hv Hr. pose proof Hr as Hr0. unfold ResolveProviderEnv in Hr. cbv zeta in Hr. destruct (decide (RuntimeProvider rt = ProviderCodex)) as [Hc | Hc].
  - destruct (ResolveCodexProvider environ rt) as [x |] eqn:Hx; [| done]. apply codex_provider_spec in Hx as Hs.
    destruct Hs as (Ha & _ & Hkey & _ & _ & Hset). pose proof (layer_env_map _ _ _ _ _ _ Hv Hr) as Hl.
    assert (∀ k, reserved_env k x = true → out !! k = None) as Hres.
    { intros k Hk. specialize (Hl k). destruct (Env rt !! k) as [v |]; [| by rewrite Hl]. destruct Hl as [Hn _]. apply codex_refuse_none in Hn. congruence. }
    split_and!.
    + intros k v Hk. specialize (Hl k). rewrite Hk in Hl. apply Hl.
    + intros k v Hk Ho. specialize (Hl k). rewrite Hk, Ho in Hl. done.
    + unfold is_anthropic. rewrite Hc. done.
    + intros _. rewrite <- Hkey. split; [done |].
      assert (∀ k, k = "OPENAI_API_KEY" ∨ k = "CODEX_API_KEY" ∨ k = cx_EnvKey x → out !! k = None) as Hk3.
      { intros k Hk. apply Hres. unfold reserved_env. repeat case_bool_decide; naive_solver. }
      split_and!; [apply Hk3; tauto .. | done].
    + intros visit' Hv' out' Hr'. unfold ResolveProviderEnv in Hr'. cbv zeta in Hr'. rewrite decide_True, Hx in Hr' by done.
      pose proof (layer_env_map _ _ _ _ _ _ Hv' Hr') as Hl'. apply map_eq. intros k. specialize (Hl k). specialize (Hl' k).
      destruct (Env rt !! k); [| congruence]. destruct Hl as (_ & t & E & ->), Hl' as (_ & t' & E' & ->). congruence.
  - destruct (expandStrict environ "runtime.baseURL" _) as [baseURL |] eqn:Hb; [| done].
    destruct (expandStrict environ "runtime.apiKey" _) as [apiKey |] eqn:Ha; [| done].
    destruct (expandStrict environ "runtime.model" _) as [model |] eqn:Hm; [| done].
    destruct (provider_env _ _ _ _ _) as [out0 |] eqn:Hp; [| done]. destruct (layer_env _ _ _ _) as [out1 |] eqn:Hl0; [| done].
    destruct (is_anthropic _ && _ && _) eqn:Htok; [done |]. injection Hr as ->. pose proof (layer_env_map _ _ _ _ _ _ Hv Hl0) as Hl. split_and!.
    + intros k v Hk. specialize (Hl k). rewrite Hk in Hl. apply Hl.
    + intros k v Hk Ho. split; [done |]. specialize (Hl k). rewrite Hk, Ho in Hl. by eapply provider_env_contributes.
    + intros Han u Hu Hne. rewrite Han, Hu in Htok. cbn [andb from_option id] in Htok. destruct u; [done |]. cbn [nonempty andb] in Htok.
      destruct (out !! "ANTHROPIC_AUTH_TOKEN") as [tk |]; [| done]. exists tk. split; [done |]. by destruct tk.
    + done.
    + intros visit' Hv' out' Hr'. unfold ResolveProviderEnv in Hr'. cbv zeta in Hr'. rewrite decide_False, Hb, Ha, Hm, Hp in Hr' by done.
      destruct (layer_env _ _ (visit' _) _) as [out2 |] eqn:Hl2; [| done]. clear Htok. destruct (is_anthropic _ && _ && _); [done |]. injection Hr' as <-.
      pose proof (layer_env_map _ _ _ _ _ _ Hv' Hl2) as Hl'. apply map_eq. intros k. specialize (Hl k). specialize (Hl' k).
      destruct (Env rt !! k); [| congruence]. destruct Hl as (_ & t & E & ->), Hl' as (_ & t' & E' & ->). congruence.
Qed.

(** What was validated resolves: nothing that is resolved later can fail. *)
Lemma validated_resolves (ParseDuration : string → duration + string) environ visit rt servers :
  ValidateRuntimeConfig ParseDuration environ visit rt servers = None →
  (Timeout rt ≠ "" → ∃ d, ParseDuration (Timeout rt) = inl d) ∧
  (∃ out, ResolveProviderEnv environ visit rt = inl out) ∧ (∃ model, ResolveRuntimeModel environ rt = inl model) ∧
  (RuntimeProvider rt = ProviderCodex → servers = false ∧ ∃ x, ResolveCodexProvider environ rt = inl x).
Proof.
  unfold ValidateRuntimeConfig. destruct (if nonempty (Timeout rt) then _ else _) as [d |] eqn:Hd; [| done].
  destruct (ParseAgentIdleTimeout _ _).2; [done |]. destruct (ResolveProviderEnv environ visit rt) as [out |] eqn:Hr; [| done].
  destruct (ResolveRuntimeModel environ rt) as [model |] eqn:Hm; [| done]. destruct (bool_decide _ && servers) eqn:Hs; [done |]. intros _.
  split_and!; [| by exists out | by exists model |].
  - intros Hne. destruct (Timeout rt); [done |]. by exists d.
  - intros Hc. rewrite bool_decide_eq_true_2 in Hs by done. split; [done |]. unfold ResolveProviderEnv in Hr. rewrite decide_True in Hr by done.
    destruct (ResolveCodexProvider environ rt) as [x |]; [by exists x | done].
Qed.
End laws.

#[local] Existing Instances ascii_tables bytewise_lower.

Lemma provider_env_sound_witness :
  let environ : gmap string string := {["KEY" := "secret"; "HOST" := "example.org"]} in
  let rt := mkRuntime "Codex" "https://$HOST/v1" "" "" "" "KEY" "" [] {["MODE" := "on ${HOST}"]} "" "" in
  ∃ out, ResolveProviderEnv environ map_to_list rt = inl out ∧ out !! "KEY" = None ∧ out !! "MODE" = Some "on example.org".
Proof.
  intros environ rt. eexists. split; [vm_compute; reflexivity |].
  assert (R : ResolveProviderEnv environ map_to_list rt = inl {["MODE" := "on example.org"]}) by by vm_compute.
  destruct (provider_env_sound environ map_to_list rt _ ltac:(by intros m) R) as (Explicit & _ & _ & Codex & _).
  split; [exact (proj1 (proj2 (proj2 (proj2 (Codex ltac:(by vm_compute)))))) |].
  destruct (Explicit "MODE" "on ${HOST}" ltac:(reflexivity)) as (t & E & L). vm_compute in E. injection E as <-. exact L.
Defined.
