(* ===== verification/Card.v ===== *)
(** * The card of an agent ([internal/wrapper/card.go], [scheduler/config_validation.go])

    The file [.a2a/agent-card.yaml] of a workspace: what it holds, the checks and
    defaults of [Load], writing and comparing cards, and the A2A card that an agent
    publishes. YAML is a parameter, both as the decoder of a card and as the view
    of a document by its sections and keys. *)
From S2P Require Import Prelude GoBase GoStrings InstancePool IdleMonitor LifecycleConfig CmaCards Paths Runtime.
From Stdlib Require Import ZArith Lia Ascii.

(** ** Data *)

Record ProviderConfig := mkProvider { pv_Name : string; pv_URL : string }.
Record SkillConfig := mkSkill { sk_Name : string; sk_Description : string }.
Record ClaudeConfig := mkClaude { SystemPrompt : string; MaxAgentCalls : Z }.
Record FilesystemConfig := mkFilesystem { fs_Enabled : bool; WriteAccess : bool; ShellAccess : bool; AllowedPaths : list string }.
Record NetworkConfig := mkNetwork { Bind : string; Advertise : string; OutboundAccess : bool }.
Record PoolConfig := mkPool {
  MaxActive : Z; OverloadPolicy : string; SessionIdleTTL : string; EvictedTTL : string; MaxEvicted : Z; QueueDepth : option Z;
  SessionIsolation : string;
}.

(** [MCP] maps the name of a server to its entry, passed through as JSON. *)
Record AgentCardConfig := mkCard {
  card_Name : string; card_Description : string; card_Version : string; card_Provider : option ProviderConfig;
  card_Skills : list SkillConfig; Claude : ClaudeConfig; card_Runtime : Runtime.RuntimeConfig; Network : NetworkConfig;
  Filesystem : FilesystemConfig; Pool : PoolConfig; PartialMessages : bool; MCP_Servers : gmap string string;
  Lifecycle : LifecycleConfig.LifecycleConfig;
}.

Definition isLoopbackBind (bind : string) : bool := bool_decide (bind ∈ ["127.0.0.1"; "localhost"; "::1"; "[::1]"]).

(** [ResolveUploadDir] of the variable and the directory for temporary files. *)
Definition ResolveUploadDir (AHSIR_UPLOAD_DIR tempDir : string) : string :=
  if nonempty AHSIR_UPLOAD_DIR then AHSIR_UPLOAD_DIR else JoinPath tempDir "ahsir-uploads".

Definition cardFile (workspace : string) : string := JoinPath (JoinPath workspace ".a2a") "agent-card.yaml".

(** ** Renamed keys *)

(** The section, the removed key and the one in its place. *)
Definition renamedCardKeys : list (string * string * string) :=
  [("pool", "idle_ttl", "session_idle_ttl"); ("runtime", "idle_timeout", "agent_idle_timeout")].

Definition renamed_message (x : string * string * string) : string :=
  let '(section, old, new) := x in
  section +:+ "." +:+ old +:+ " has been renamed to " +:+ section +:+ "." +:+ new +:+ " (breaking change); please update your agent-card.yaml".

(** [raw] is the document as its sections that are maps, with their keys; [None]
    when it is malformed. *)
Definition checkRenamedCardKeys (raw : option (gmap string (gset string))) : option string :=
  match raw with
  | None => None
  | Some m =>
      renamed_message <$> head (filter (λ x : string * string * string,
        bool_decide (x.1.2 ∈ default ∅ (m !! x.1.1)) = true) renamedCardKeys)
  end.

(** ** Loading *)

(** What reading a file answers. *)
Inductive file := Missing (msg : string) | Unreadable (msg : string) | Content (data : string).

Inductive card_error := CardMissing (msg : string) | CardError (msg : string).

Section card.
Context `{UnicodeTables} `{UnicodeLower} (ParseDuration : string → duration + string)
  (Unmarshal : string → AgentCardConfig + string) (raw : string → option (gmap string (gset string)))
  (Resolve : LifecycleConfig.LifecycleConfig → option string).

Definition set_runtime (command : string) (args : list string) (timeout : string) (rt : Runtime.RuntimeConfig) : Runtime.RuntimeConfig :=
  Runtime.mkRuntime (Provider rt) (BaseURL rt) (APIKey rt) (Model rt) (WireAPI rt) (EnvKey rt) command args (Env rt) timeout
    (AgentIdleTimeout rt).

(** The defaults of the runtime block. *)
Definition runtime_defaults (rt : Runtime.RuntimeConfig) : Runtime.RuntimeConfig :=
  let command := if nonempty (Command rt) then Command rt
                 else if decide (RuntimeProvider rt = ProviderCodex) then "codex" else "claude" in
  let args := if negb (nonempty (Command rt)) && bool_decide (command = "claude") && bool_decide (Args rt = [])
              then ["-p"; "--output-format"; "text"] else Args rt in
  set_runtime command args (if nonempty (Timeout rt) then Timeout rt else "120s") rt.

(** The checks and defaults of [Load] on what was decoded; [Resolve] is the error
    of [ResolveLifecycle]. *)
Definition normalize (c : AgentCardConfig) : AgentCardConfig + string :=
  let bind := if nonempty (Bind (Network c)) then Bind (Network c) else "127.0.0.1" in
  if negb (isLoopbackBind bind) then
    inr ("network.bind " +:+ fmt_q bind +:+ ": only loopback (127.0.0.1 / localhost / ::1) is supported until scheduler ingress auth lands")
  else
    let calls := if (MaxAgentCalls (Claude c) =? 0)%Z then 5%Z else MaxAgentCalls (Claude c) in
    let fs := Filesystem c in
    let paths := if fs_Enabled fs && bool_decide (AllowedPaths fs = []) then ["."] else AllowedPaths fs in
    match Resolve (Lifecycle c) with
    | Some err => inr err
    | None =>
        inl (mkCard (card_Name c) (card_Description c) (card_Version c) (card_Provider c) (card_Skills c)
               (mkClaude (SystemPrompt (Claude c)) calls) (runtime_defaults (card_Runtime c))
               (mkNetwork bind (Advertise (Network c)) (OutboundAccess (Network c)))
               (mkFilesystem (fs_Enabled fs) (WriteAccess fs) (ShellAccess fs) paths)
               (Pool c) (PartialMessages c) (MCP_Servers c) (Lifecycle c))
    end.

Definition Load (f : file) : AgentCardConfig + card_error :=
  match f with
  | Missing msg => inr (CardMissing ("read agent-card.yaml: " +:+ msg))
  | Unreadable msg => inr (CardError ("read agent-card.yaml: " +:+ msg))
  | Content data =>
      match checkRenamedCardKeys (raw data) with
      | Some err => inr (CardError err)
      | None =>
          match Unmarshal data with
          | inr err => inr (CardError ("parse agent-card.yaml: " +:+ err))
          | inl c => match normalize c with inr err => inr (CardError err) | inl c => inl c end
          end
      end
  end.

(** [CardMatches]: the file and the requested card through YAML, whose encoder is
    [Marshal]; [same] is [reflect.DeepEqual]. *)
Definition CardMatches (Marshal : AgentCardConfig → string + string) (same : AgentCardConfig → AgentCardConfig → bool)
    (f : file) (requested : option AgentCardConfig) : bool + string :=
  match requested, f with
  | None, _ => inr "requested agent card is required"
  | Some _, Missing msg | Some _, Unreadable msg => inr ("read agent-card.yaml: " +:+ msg)
  | Some requested, Content data =>
      match checkRenamedCardKeys (raw data) with
      | Some err => inr err
      | None =>
          match Unmarshal data with
          | inr err => inr ("parse agent-card.yaml: " +:+ err)
          | inl existing =>
              match Marshal requested with
              | inr err => inr ("marshal requested agent-card.yaml: " +:+ err)
              | inl d =>
                  match Unmarshal d with
                  | inr err => inr ("normalize requested agent-card.yaml: " +:+ err)
                  | inl normalized => inl (same existing normalized)
                  end
              end
          end
      end
  end.

(** What [WriteCard] leaves in the file, with the errors of the directory and the
    write. *)
Definition WriteCard (Marshal : AgentCardConfig → string + string) (mkdir write : option string) (c : AgentCardConfig) (f : file)
    : file * option string :=
  match mkdir with
  | Some err => (f, Some ("create .a2a dir: " +:+ err))
  | None =>
      match Marshal c with
      | inr err => (f, Some ("marshal agent-card.yaml: " +:+ err))
      | inl data => match write with Some err => (f, Some ("write agent-card.yaml: " +:+ err)) | None => (Content data, None) end
      end
  end.

(** [validateAgentConfiguration] of the scheduler: the reason code and the text. *)
Definition validateAgentConfiguration (environ : gmap string string) (visit : gmap string string → list (string * string)) (f : file)
    : option (string * string) :=
  match Load f with
  | inr (CardMissing _) => None
  | inr (CardError err) => Some ("invalid-agent-card", "invalid agent card: " +:+ err)
  | inl c =>
      match ValidateRuntimeConfig ParseDuration environ visit (card_Runtime c) (negb (bool_decide (MCP_Servers c = ∅))) with
      | Some err => Some ("invalid-runtime", "invalid runtime config: " +:+ err)
      | None => None
      end
  end.
End card.

(** ** The published card *)

Record a2a_card := mkA2ACard {
  a2a_Name : string; a2a_Description : string; a2a_Version : string; a2a_URL : string; a2a_Skills : list (string * string * string);
  a2a_Provider : string * string;
}.

Definition BuildRuntime (c : AgentCardConfig) (port : Z) : a2a_card :=
  let bind := if nonempty (Bind (Network c)) then Bind (Network c) else "127.0.0.1" in
  let advertise := if nonempty (Advertise (Network c)) then Advertise (Network c) else bind in
  mkA2ACard (card_Name c) (card_Description c) (if nonempty (card_Version c) then card_Version c else "1.0.0")
    ("http://" +:+ advertise +:+ ":" +:+ fmt_d port +:+ "/")
    ((λ s, (sk_Name s, sk_Name s, sk_Description s)) <$> card_Skills c)
    (match card_Provider c with Some p => (pv_Name p, pv_URL p) | None => ("ahsir", "https://github.com/wu8685/ahsir") end).
