(* ===== verification/CardLaws.v ===== *)
(** * Laws of the card of an agent

    What [Load] returns is a well-formed card and stays as it is when it is loaded
    again; a written card is read back. *)
From S2P Require Import Prelude GoBase GoStrings InstancePool IdleMonitor LifecycleConfig CmaCards Paths Runtime Card.
From Stdlib Require Import ZArith Lia Ascii.

Section laws.
Context `{UnicodeTables} `{UnicodeLower} (Unmarshal : string → AgentCardConfig + string) (raw : string → option (gmap string (gset string)))
  (Resolve : LifecycleConfig.LifecycleConfig → option string).

(** What [Load] establishes and no more: the agent listens on the loopback interface
    only, it has a command, some text as its timeout (which is not parsed here), a
    number of calls that is not zero (a negative one passes), a filesystem that is on
    allows something, and the lifecycle block is valid. *)
Definition card_ok (c : AgentCardConfig) : Prop :=
  isLoopbackBind (Bind (Network c)) = true ∧ MaxAgentCalls (Claude c) ≠ 0%Z ∧ Command (card_Runtime c) ≠ "" ∧ Timeout (card_Runtime c) ≠ "" ∧
  (fs_Enabled (Filesystem c) = true → AllowedPaths (Filesystem c) ≠ []) ∧ Resolve (Lifecycle c) = None.

Lemma runtime_defaults_fixed rt : Command rt ≠ "" → Timeout rt ≠ "" → runtime_defaults rt = rt.
Proof.
  destruct rt as [? ? ? ? ? ? command args ? timeout ?]. unfold runtime_defaults, set_runtime. cbn. intros C T.
  destruct command; [done |]. destruct timeout; done.
Qed.

Lemma runtime_defaults_ok rt : Command (runtime_defaults rt) ≠ "" ∧ Timeout (runtime_defaults rt) ≠ "".
Proof.
  unfold runtime_defaults. cbn. split; [| by destruct (Timeout rt)].
  destruct (Command rt); [| done]. cbn. by case_decide.
Qed.

Lemma normalize_fixed c : card_ok c → normalize Resolve c = inl c.
Proof.
  destruct c as [? ? ? ? ? [? calls] rt [bind ? ?] [enabled ? ? paths] ? ? ? lc]. unfold card_ok, normalize. cbn.
  intros (B & M & C & T & P & L). rewrite L, runtime_defaults_fixed by done. rewrite (proj2 (Z.eqb_neq _ _) M).
  destruct bind as [| b bind]; [done |]. cbn [nonempty]. rewrite B. cbn [negb].
  destruct (enabled && bool_decide (paths = [])) eqn:E; [| done]. apply andb_true_iff in E as [-> ->%bool_decide_eq_true]. by destruct P.
Qed.

Lemma normalize_ok c c' : normalize Resolve c = inl c' → card_ok c'.
Proof.
  unfold normalize, card_ok. set (bind := if nonempty (Bind _) then _ else _). destruct (isLoopbackBind bind) eqn:B; [| done].
  destruct (Resolve (Lifecycle c)) eqn:R; [done |]. cbn. intros [= <-]. cbn. pose proof (runtime_defaults_ok (card_Runtime c)) as [C T].
  split_and!; [done | | done | done | | done].
  - destruct (Z.eqb_spec (MaxAgentCalls (Claude c)) 0); lia.
  - intros ->. cbn. by case_bool_decide.
Qed.

(** Which cards load. *)
Definition loadable (data : string) (given : AgentCardConfig) : Prop :=
  checkRenamedCardKeys (raw data) = None ∧ Unmarshal data = inl given ∧
  (Bind (Network given) = "" ∨ isLoopbackBind (Bind (Network given)) = true) ∧ Resolve (Lifecycle given) = None.

Lemma loopback_default bind :
  isLoopbackBind (if nonempty bind then bind else "127.0.0.1") = true ↔ bind = "" ∨ isLoopbackBind bind = true.
Proof. destruct bind; cbn [nonempty]; [| naive_solver]. split; [by left | by intros _]. Qed.

Lemma load_iff data c : Load Unmarshal raw Resolve (Content data) = inl c ↔ ∃ given, loadable data given ∧ normalize Resolve given = inl c.
Proof.
  unfold Load, loadable. split.
  - destruct (checkRenamedCardKeys (raw data)); [done |]. destruct (Unmarshal data) as [given |]; [| done].
    destruct (normalize Resolve given) as [c' |] eqn:N; [| done]. intros [= ->]. exists given. split_and!; try done.
    all: unfold normalize in N; destruct (isLoopbackBind _) eqn:B; cbn in N; [| done]; destruct (Resolve (Lifecycle given)) eqn:R; try done.
    by apply loopback_default.
  - intros (given & (-> & -> & _ & _) & ->). done.
Qed.

Lemma loadable_normalizes data given : loadable data given → ∃ c, normalize Resolve given = inl c.
Proof. intros (_ & _ & B%loopback_default & R). unfold normalize. rewrite B, R. by eexists. Qed.

(** (C35) Exactly these card files load: YAML that decodes, without a key that was
    removed, with a bind address that is empty or on the loopback interface and a
    lifecycle block that resolves. What is returned is the decoded card with its empty
    fields filled in and nothing else changed: the address 127.0.0.1, five calls for
    zero, codex or claude as the command (claude with its print flags when there are
    no arguments either), 120s as the timeout, and the directory itself for an enabled
    filesystem without paths; a second pass changes nothing. So a loaded card has a
    command, a timeout and a number of calls other than zero, but neither is checked:
    a timeout that does not parse, or of 0s, and a negative number of calls load. *)
Theorem loaded_card_well_formed data :
  ((∃ c, Load Unmarshal raw Resolve (Content data) = inl c) ↔ ∃ given, loadable data given) ∧
  ∀ c, Load Unmarshal raw Resolve (Content data) = inl c →
    card_ok c ∧ normalize Resolve c = inl c ∧
    ∃ given, Unmarshal data = inl given ∧
      let rt := card_Runtime given in
      c = mkCard (card_Name given) (card_Description given) (card_Version given) (card_Provider given) (card_Skills given)
            (mkClaude (SystemPrompt (Claude given)) (if decide (MaxAgentCalls (Claude given) = 0%Z) then 5%Z else MaxAgentCalls (Claude given)))
            (Runtime.mkRuntime (Provider rt) (BaseURL rt) (APIKey rt) (Model rt) (WireAPI rt) (EnvKey rt)
               (if decide (Command rt = "") then if decide (RuntimeProvider rt = ProviderCodex) then "codex" else "claude" else Command rt)
               (if decide (Command rt = "" ∧ RuntimeProvider rt ≠ ProviderCodex ∧ Args rt = []) then ["-p"; "--output-format"; "text"] else Args rt)
               (Env rt) (if decide (Timeout rt = "") then "120s" else Timeout rt) (AgentIdleTimeout rt))
            (mkNetwork (if decide (Bind (Network given) = "") then "127.0.0.1" else Bind (Network given))
               (Advertise (Network given)) (OutboundAccess (Network given)))
            (mkFilesystem (fs_Enabled (Filesystem given)) (WriteAccess (Filesystem given)) (ShellAccess (Filesystem given))
               (if decide (fs_Enabled (Filesystem given) = true ∧ AllowedPaths (Filesystem given) = []) then ["."] else AllowedPaths (Filesystem given)))
            (Pool given) (PartialMessages given) (MCP_Servers given) (Lifecycle given).
Proof.
  split.
  { split; [intros (c & (given & L & _)%load_iff); by exists given |]. intros (given & L). destruct (loadable_normalizes _ _ L) as (c & N).
    exists c. apply load_iff. by exists given. }
  intros c (given & (_ & U & _ & R) & N)%load_iff. pose proof (normalize_ok _ _ N) as Ok.
  split_and!; [done | by apply normalize_fixed |]. exists given. split; [done |]. cbv zeta.
  unfold normalize in N. rewrite R in N. destruct (negb _) eqn:B; [done |]. injection N as <-. clear Ok B U.
  destruct given as [? ? ? ? ? [? calls] rt [bind ? ?] [enabled ? ? paths] ? ? ? ?]. cbn. f_equal.
  - f_equal. destruct (Z.eqb_spec calls 0); by case_decide.
  - destruct rt as [? ? ? ? ? ? command args ? timeout ?]. unfold runtime_defaults, set_runtime. cbn. destruct command, timeout; cbn; try done.
    all: repeat case_decide; repeat case_bool_decide; cbn; try done; naive_solver.
  - f_equal. by destruct bind.
  - f_equal. destruct enabled, paths; done.
Qed.

(** A card that was written is the card that is found: when YAML reads back what
    it wrote, without a removed key, [CardMatches] holds of the card itself, so a
    repeated registration is no conflict, and of no other card; and a well-formed
    card loads unchanged. *)
Lemma written_card_found Marshal same c d f f' :
  (∀ x y, same x y = true ↔ x = y) → Unmarshal d = inl c → checkRenamedCardKeys (raw d) = None → Marshal c = inl d →
  WriteCard Marshal None None c f = (f', None) →
  (CardMatches Unmarshal raw Marshal same f' (Some c) = inl true) ∧
  (∀ c2 d2 c2', Marshal c2 = inl d2 → Unmarshal d2 = inl c2' → CardMatches Unmarshal raw Marshal same f' (Some c2) = inl (same c c2')) ∧
  (card_ok c → Load Unmarshal raw Resolve f' = inl c).
Proof.
  intros S U R M W. unfold WriteCard in W. rewrite M in W. injection W as <-. unfold CardMatches, Load. rewrite R, U. split_and!.
  - rewrite M, U. f_equal. by apply S.
  - by intros c2 d2 c2' -> ->.
  - by intros ->%normalize_fixed.
Qed.

(** An unbracketed IPv6 loopback is a valid bind and makes an invalid URL. *)
Lemma ipv6_url c port :
  Bind (Network c) = "::1" → Advertise (Network c) = "" → a2a_URL (BuildRuntime c port) = "http://::1:" +:+ fmt_d port +:+ "/".
Proof. unfold BuildRuntime. by intros -> ->. Qed.
End laws.

(** ** A card with nothing but a name *)

#[local] Existing Instances ascii_tables bytewise_lower.

Definition bare_card : AgentCardConfig :=
  mkCard "crew" "" "" None [] (mkClaude "" 0) (Runtime.mkRuntime "" "" "" "" "" "" "" [] ∅ "" "") (mkNetwork "" "" false)
    (mkFilesystem true false false []) (mkPool 0 "" "" "" 0 None "") false ∅
    (LifecycleConfig.mkLifecycleConfig (LifecycleConfig.mkInitConfig false "" "" "") (LifecycleConfig.mkFinalConfig false "" "" "")).

(** It gets the loopback interface, the default command with its deadline, five
    calls and its own directory. *)
Lemma loaded_card_well_formed_witness :
  ∃ c, Load (λ _, inl bare_card) (λ _, Some ∅) (λ _, None) (Content "name: crew") = inl c ∧ card_ok (λ _, None) c ∧
    Command (card_Runtime c) = "claude" ∧ AllowedPaths (Filesystem c) = ["."].
Proof.
  eexists. split; [by vm_compute |].
  split; [| by vm_compute].
  refine (proj1 (proj2 (loaded_card_well_formed (λ _, inl bare_card) (λ _, Some ∅) (λ _, None) "name: crew") _ _)). by vm_compute.
Defined.

(** No delegation, a timeout that is none and one that is no duration are not
    understood: zero calls become five, the rest loads. *)
Definition odd_card (timeout : string) (calls : Z) : AgentCardConfig :=
  mkCard "crew" "" "" None [] (mkClaude "" calls) (Runtime.mkRuntime "" "" "" "" "" "" "claude" [] ∅ timeout "") (mkNetwork "" "" false)
    (mkFilesystem true false false ["."]) (mkPool 0 "" "" "" 0 None "") false ∅
    (LifecycleConfig.mkLifecycleConfig (LifecycleConfig.mkInitConfig false "" "" "") (LifecycleConfig.mkFinalConfig false "" "" "")).

Definition loads_as (given : AgentCardConfig) : option (string * Z) :=
  match Load (λ _, inl given) (λ _, Some ∅) (λ _, None) (Content "") with
  | inl c => Some (Timeout (card_Runtime c), MaxAgentCalls (Claude c))
  | inr _ => None
  end.

Lemma unchecked_values_load :
  loads_as (odd_card "banana" (-1)) = Some ("banana", (-1)%Z) ∧ loads_as (odd_card "0s" 0) = Some ("0s", 5%Z).
Proof. by vm_compute. Qed.
