(* ===== verification/SessionWorkspace.v ===== *)
(** * Working directories of sessions ([internal/wrapper/session_workspace.go])

    The isolation modes, the directory of a conversation, its creation and removal
    in the file system, and the configuration a session is started with
    ([SessionConfig] of [session_types.go]). SHA-1 and git are parameters. *)
From S2P Require Import Prelude GoBase GoStrings InstancePool Paths.
From Stdlib Require Import ZArith Lia Ascii.
Import InstanceName.

(** ** What a session is started with *)

Record SessionConfig := mkSessionConfig {
  sc_Name : string; sc_Provider : string; sc_Command : string; sc_Args : list string; sc_CodexProviderArgs : list string;
  sc_Env : list string; sc_WorkDir : string; sc_Timeout : duration; sc_WriteAccess : bool; sc_NetworkAccess : bool;
}.

Definition Validate (c : SessionConfig) : option string :=
  if negb (nonempty (sc_Command c)) then Some "command is required"
  else if (sc_Timeout c <? 0)%Z then Some "timeout must be non-negative" else None.

(** [WithSessionWorkspace] *)
Definition WithSessionWorkspace (c : SessionConfig) (dir : string) : SessionConfig :=
  mkSessionConfig (sc_Name c) (sc_Provider c) (sc_Command c) (sc_Args c ++ ["--add-dir=" +:+ dir]) (sc_CodexProviderArgs c) (sc_Env c)
    dir (sc_Timeout c) (sc_WriteAccess c) (sc_NetworkAccess c).

(** ** Modes *)

Inductive IsolationMode := IsolationOff | IsolationScratch | IsolationWorktree.
#[export] Instance IsolationMode_eq_dec : EqDecision IsolationMode.
Proof. solve_decision. Defined.

Definition ParseIsolationMode `{UnicodeTables} `{UnicodeLower} (s : string) : IsolationMode + string :=
  let m := ToLower (TrimSpace s) in
  if bool_decide (m ∈ [""; "off"; "none"]) then inl IsolationOff
  else if decide (m = "scratch") then inl IsolationScratch
  else if decide (m = "worktree") then inl IsolationWorktree
  else inr ("unknown session_isolation " +:+ fmt_q s +:+ " (want off, scratch, or worktree)").

Definition Enabled (m : IsolationMode) : bool := negb (bool_decide (m = IsolationOff)).

(** ** The directory of a conversation *)

Definition safe_rune (c : ascii) : bool :=
  in_range 97 122 c || in_range 65 90 c || in_range 48 57 c || is_byte 45 c || is_byte 95 c.

(** A rune is kept when it is one of the safe bytes, and is an underscore
    otherwise. *)
Definition safe_of (rune : string) : ascii :=
  match rune with String c EmptyString => if safe_rune c then c else "_"%char | _ => "_"%char end.

Definition sanitize (contextID : string) : string := foldr (λ r s, String (safe_of r) s) "" (runes contextID).

Record SessionWorkspace := mkWorkspace { repoDir : string; baseDir : string; effectiveMode : IsolationMode }.

(** The file system: what is at a place, which is the list of the names that lead
    to it, the last one first. Symbolic links are not modelled. *)
Inductive entry := Directory | Other.
#[export] Instance entry_eq_dec : EqDecision entry.
Proof. solve_decision. Defined.

Abbreviation files := (gmap (list string) entry) (only parsing).

Definition place (path : string) : list string := reverse (components path).

Definition at_or_below (p q : list string) : Prop := p `suffix_of` q.
#[export] Instance at_or_below_dec p q : Decision (at_or_below p q) := decide (p `suffix_of` q).

(** [os.MkdirAll]: the missing parents first; [fault] are the errors of making one
    directory, and what was made before it stays. *)
Fixpoint MkdirAll (fault : list string → option string) (p : list string) (fs : files) : files * option string :=
  match p with
  | [] => (fs, None)
  | _ :: parent =>
      match fs !! p with
      | Some Directory => (fs, None)
      | Some Other => (fs, Some "not a directory")
      | None =>
          match MkdirAll fault parent fs with
          | (fs, Some err) => (fs, Some err)
          | (fs, None) => match fault p with Some err => (fs, Some err) | None => (<[p := Directory]> fs, None) end
          end
      end
  end.

(** [os.RemoveAll]: everything at or below [p], but for what is [stuck] and the
    directories it is in; the error is of one of those. *)
Definition RemoveAll (stuck : list string → bool) (p : list string) (fs : files) : files * option string :=
  let left := filter (λ q, stuck q = true ∧ at_or_below p q) (map_to_list fs).*1 in
  (filter (λ x, at_or_below p x.1 → Exists (at_or_below x.1) left) fs,
   match left with [] => None | _ :: _ => Some "unlink" end).

(** The git plumbing: whether a directory is a working tree, and the two commands
    on the file system, with their errors. *)
Record gitRunner := mkGit {
  isWorkTree : string → bool;
  addWorktree : string → string → files → files * option string;
  removeWorktree : string → string → files → files * option string;
}.

Definition NewSessionWorkspace (repoDir baseDir : string) (mode : IsolationMode) (git : gitRunner) : SessionWorkspace :=
  mkWorkspace repoDir baseDir
    (if bool_decide (mode = IsolationWorktree) && negb (isWorkTree git repoDir) then IsolationScratch else mode).

Section workspace.
(** [sha1] is the sum in hexadecimal. *)
Context (sha1 : string → string).

Definition sessionDirName (contextID : string) : string :=
  let safe := byte_take 48 (sanitize contextID) in
  (if nonempty safe then safe else "ctx") +:+ "-" +:+ byte_take 8 (sha1 contextID).

Definition SessionDir (w : SessionWorkspace) (contextID : string) : string := JoinPath (baseDir w) (sessionDirName contextID).

Definition Provision `{UnicodeTables} (w : SessionWorkspace) (git : gitRunner) (fault : list string → option string)
    (contextID : string) (fs : files) : files * (string + string) :=
  let dir := SessionDir w contextID in
  match fs !! place dir with
  | Some Directory => (fs, inl dir)
  | Some Other => (fs, inr ("session workspace " +:+ fmt_q dir +:+ " exists but is not a directory"))
  | None =>
      match MkdirAll fault (place (baseDir w)) fs with
      | (fs, Some err) => (fs, inr ("create session workspace base " +:+ fmt_q (baseDir w) +:+ ": " +:+ err))
      | (fs, None) =>
          if decide (effectiveMode w = IsolationWorktree) then
            match addWorktree git (repoDir w) dir fs with
            | (fs, Some err) => (fs, inr ("provision session worktree for " +:+ fmt_q contextID +:+ ": " +:+ err))
            | (fs, None) => (fs, inl dir)
            end
          else
            match MkdirAll fault (place dir) fs with
            | (fs, Some err) => (fs, inr ("provision session scratch for " +:+ fmt_q contextID +:+ ": " +:+ err))
            | (fs, None) => (fs, inl dir)
            end
      end
  end.

Definition Remove `{UnicodeTables} (w : SessionWorkspace) (git : gitRunner) (stuck : list string → bool) (contextID : string)
    (fs : files) : files * option string :=
  let dir := SessionDir w contextID in
  match fs !! place dir with
  | None => (fs, None)
  | Some _ =>
      let '(fs, removed) :=
        if decide (effectiveMode w = IsolationWorktree)
        then let '(fs, err) := removeWorktree git (repoDir w) dir fs in (fs, bool_decide (err = None))
        else (fs, false) in
      if removed then (fs, None)
      else match RemoveAll stuck (place dir) fs with
           | (fs, Some err) => (fs, Some ("remove session workspace " +:+ fmt_q dir +:+ ": " +:+ err))
           | (fs, None) => (fs, None)
           end
  end.
End workspace.

(** ** Containment *)

(** The first eight digits of a sum are hexadecimal. *)
Definition hex_prefix (sha1 : string → string) : Prop :=
  ∀ s, blen (byte_take 8 (sha1 s)) = 8 ∧ all_bytes safe_rune (byte_take 8 (sha1 s)) = true.

Lemma safe_no_slash s : all_bytes safe_rune s = true → cut_last "/" s = None.
Proof.
  induction s as [| c s IH]; [done |]. cbn [all_bytes]. intros [Hc Hs]%andb_prop. apply cut_last_cons. split; [| by apply IH].
  intros ->. by vm_compute in Hc.
Qed.

Lemma safe_of_safe r : safe_rune (safe_of r) = true.
Proof. destruct r as [| c []]; [done | | done]. cbn. by destruct (safe_rune c) eqn:E. Qed.

Lemma sanitize_safe s : all_bytes safe_rune (sanitize s) = true.
Proof. unfold sanitize. induction (runes s) as [| r l IH]; [done |]. cbn [foldr all_bytes]. by rewrite safe_of_safe, IH. Qed.

Lemma blen_byte_take_le n s : blen (byte_take n s) ≤ n.
Proof. rewrite blen_byte_take. lia. Qed.

Section contained.
Context (sha1 : string → string) (Hsha : hex_prefix sha1).

Lemma dir_name_safe id : all_bytes safe_rune (sessionDirName sha1 id) = true ∧ blen (sessionDirName sha1 id) ≤ 57.
Proof.
  unfold sessionDirName. set (safe := byte_take 48 (sanitize id)). destruct (Hsha id) as [Hl Hs].
  rewrite !all_bytes_app, !blen_app, Hl, Hs. assert (all_bytes safe_rune safe = true) as H1 by (apply all_bytes_take, sanitize_safe).
  pose proof (blen_byte_take_le 48 (sanitize id)) as H2. fold safe in H2. clearbody safe.
  destruct (nonempty safe); [rewrite H1; cbn; split; [done | lia] | cbn; split; [done | lia]].
Qed.

Lemma safe_plain s : all_bytes safe_rune s = true → 2 < blen s → plain s.
Proof.
  intros Hs Hl. split_and!; [| | | by apply safe_no_slash]; intros ->; cbn in Hl; lia.
Qed.

Lemma dir_name_plain id : plain (sessionDirName sha1 id).
Proof.
  destruct (dir_name_safe id) as [Hs _]. apply safe_plain; [done |]. unfold sessionDirName. rewrite !blen_app.
  destruct (Hsha id) as [Hl _]. rewrite Hl. lia.
Qed.

(** Names that agree agree in both of their parts. *)
Lemma dir_name_parts id id' :
  sessionDirName sha1 id = sessionDirName sha1 id' →
  byte_take 8 (sha1 id) = byte_take 8 (sha1 id') ∧
  (if nonempty (sanitize id) then byte_take 48 (sanitize id) else "ctx") = (if nonempty (sanitize id') then byte_take 48 (sanitize id') else "ctx").
Proof.
  intros E. assert (∀ i, (if nonempty (byte_take 48 (sanitize i)) then byte_take 48 (sanitize i) else "ctx") =
    (if nonempty (sanitize i) then byte_take 48 (sanitize i) else "ctx")) as Hn by (intros i; by destruct (sanitize i)).
  unfold sessionDirName in E. rewrite !Hn in E. destruct (Hsha id) as [H1 _], (Hsha id') as [H2 _].
  set (p := if nonempty (sanitize id) then _ else _) in *. set (p' := if nonempty (sanitize id') then _ else _) in *.
  assert (blen p = blen p') as Hp. { apply (f_equal blen) in E. rewrite !blen_app, H1, H2 in E. lia. }
  apply string_app_inj_len in E as [-> E]; [| done]. split; [| done]. by injection E.
Qed.
Lemma SessionDir_components w id :
  is_rooted (baseDir w) = true → components (SessionDir sha1 w id) = components (baseDir w) ++ [sessionDirName sha1 id].
Proof. intros Hr. apply components_child; [done | apply dir_name_plain]. Qed.

Lemma SessionDir_place w id : is_rooted (baseDir w) = true → place (SessionDir sha1 w id) = sessionDirName sha1 id :: place (baseDir w).
Proof. intros Hr. unfold place. by rewrite SessionDir_components, reverse_snoc. Qed.

Lemma suffix_cons_cases (q l : list string) x : q `suffix_of` x :: l → q = x :: l ∨ q `suffix_of` l.
Proof. intros [[| y k] E]; [by left |]. right. injection E as _ ->. by exists k. Qed.

(** A directory of a conversation is neither above nor below another's. *)
Lemma dirs_disjoint w id id' :
  is_rooted (baseDir w) = true → sessionDirName sha1 id ≠ sessionDirName sha1 id' →
  ¬ at_or_below (place (SessionDir sha1 w id)) (place (SessionDir sha1 w id')).
Proof.
  intros Hr Hne Hs. unfold at_or_below in Hs. rewrite !SessionDir_place in Hs by done.
  apply suffix_cons_cases in Hs as [E | Hs]; [by injection E |]. apply suffix_length in Hs. cbn in Hs. lia.
Qed.

(** *** The file system *)

Lemma MkdirAll_changes fault p fs q :
  (MkdirAll fault p fs).1 !! q ≠ fs !! q →
  at_or_below q p ∧ fs !! q = None ∧ (MkdirAll fault p fs).1 !! q = Some Directory.
Proof.
  revert q. induction p as [| x p IH]; intros q; [done |]. cbn [MkdirAll]. destruct (fs !! (x :: p)) as [[] |] eqn:E; [done | done |].
  specialize (IH q). destruct (MkdirAll fault p fs) as [fs' [err |]]; cbn in *.
  - intros Hq. destruct (IH Hq) as (? & ? & ?). split_and!; [by apply suffix_cons_r | done..].
  - destruct (fault (x :: p)); cbn.
    + intros Hq. destruct (IH Hq) as (? & ? & ?). split_and!; [by apply suffix_cons_r | done..].
    + destruct (decide (q = x :: p)) as [-> | Hne].
      * rewrite lookup_insert_eq. intros _. split_and!; [by exists [] | done | done].
      * rewrite lookup_insert_ne by done. intros Hq. destruct (IH Hq) as (? & ? & ?). split_and!; [by apply suffix_cons_r | done..].
Qed.

Lemma MkdirAll_done fault p fs fs' : p ≠ [] → MkdirAll fault p fs = (fs', None) → fs' !! p = Some Directory.
Proof.
  intros Hp. destruct p as [| x p]; [done |]. cbn [MkdirAll]. destruct (fs !! (x :: p)) as [[] |] eqn:E; [by intros [= <-] | done |].
  destruct (MkdirAll fault p fs) as [fs1 [err |]]; [done |]. destruct (fault _); [done |]. intros [= <-]. apply lookup_insert_eq.
Qed.

Lemma RemoveAll_changes stuck p fs q : (RemoveAll stuck p fs).1 !! q ≠ fs !! q → at_or_below p q.
Proof.
  unfold RemoveAll. cbn. intros Hq. destruct (decide (at_or_below p q)) as [| Hn]; [done |]. exfalso. apply Hq.
  destruct (fs !! q) as [e |] eqn:E; [apply map_lookup_filter_Some; by split | by apply map_lookup_filter_None; left].
Qed.

Lemma RemoveAll_done stuck p fs fs' q : RemoveAll stuck p fs = (fs', None) → at_or_below p q → fs' !! q = None.
Proof.
  unfold RemoveAll. destruct (filter _ (map_to_list fs).*1) as [| y l] eqn:El; [| done]. intros [= <-] Hq.
  apply map_lookup_filter_None. right. intros e _ Hk. specialize (Hk Hq). by apply Exists_nil in Hk.
Qed.

(** What is relied on of git: the two commands touch the working tree they are
    given and the repository's own directory [admin], which no conversation's
    directory is in; when they succeed the tree is there, or gone. *)
Context (git : gitRunner) (w : SessionWorkspace) (admin : list string).
Hypothesis git_add : ∀ path fs fs' r, addWorktree git (repoDir w) path fs = (fs', r) →
  (∀ q, fs' !! q ≠ fs !! q → at_or_below (place path) q ∨ at_or_below admin q) ∧ (r = None → fs' !! place path = Some Directory).
Hypothesis git_remove : ∀ path fs fs' r, removeWorktree git (repoDir w) path fs = (fs', r) →
  (∀ q, fs' !! q ≠ fs !! q → at_or_below (place path) q ∨ at_or_below admin q) ∧ (r = None → fs' !! place path = None).
Hypothesis base_rooted : is_rooted (baseDir w) = true.
Hypothesis apart : ∀ id, ¬ at_or_below admin (place (SessionDir sha1 w id)).

(** Where a change for the directory [dir] may be. *)
Definition near (dir : string) (fs fs' : files) (q : list string) : Prop :=
  (at_or_below q (place (baseDir w)) ∧ fs !! q = None ∧ fs' !! q = Some Directory) ∨
  at_or_below (place dir) q ∨ at_or_below admin q.

Lemma Provision_spec `{UnicodeTables} fault id fs fs' r :
  Provision sha1 w git fault id fs = (fs', r) →
  (∀ q, fs' !! q ≠ fs !! q → near (SessionDir sha1 w id) fs fs' q) ∧
  (is_Some (fs !! place (SessionDir sha1 w id)) → fs' = fs) ∧
  (∀ dir, r = inl dir → dir = SessionDir sha1 w id ∧ fs' !! place dir = Some Directory).
Proof using All.
  unfold Provision. set (dir := SessionDir sha1 w id). destruct (fs !! place dir) as [[] |] eqn:Hd.
  - intros [= <- <-]. split_and!; [done.. |]. by intros ? [= <-].
  - intros [= <- <-]. by split_and!.
  - destruct (MkdirAll fault (place (baseDir w)) fs) as [fs1 [err |]] eqn:Hb;
      pose proof (λ q, MkdirAll_changes fault (place (baseDir w)) fs q) as H1; rewrite Hb in H1; cbn in H1.
    { intros [= <- <-]. split_and!; [| by intros [] | done]. intros q Hq. left. by apply H1. }
    assert (∀ fs2, (∀ q, fs2 !! q ≠ fs1 !! q → at_or_below (place dir) q ∨ at_or_below admin q) → ∀ q, fs2 !! q ≠ fs !! q → near dir fs fs2 q) as Hnear.
    { intros fs2 H2 q Hq. destruct (decide (fs2 !! q = fs1 !! q)) as [E | Hne]; [| right; by apply H2].
      left. rewrite E in Hq |- *. by apply H1. }
    destruct (decide (effectiveMode w = IsolationWorktree)).
    + destruct (addWorktree git (repoDir w) dir fs1) as [fs2 r2] eqn:Ha. destruct (git_add _ _ _ _ Ha) as [H2 H3].
      destruct r2; intros [= <- <-]; (split_and!; [by apply Hnear | by intros [] |]); [done |]. intros ? [= <-]. by split; [| apply H3].
    + destruct (MkdirAll fault (place dir) fs1) as [fs2 r2] eqn:Hm.
      assert (∀ q, fs2 !! q ≠ fs1 !! q → near dir fs fs2 q) as Hown.
      { intros q Hq. pose proof (MkdirAll_changes fault (place dir) fs1 q) as H2. rewrite Hm in H2. destruct (H2 Hq) as (Hs & Hn & Hy).
        unfold at_or_below in Hs. unfold dir in Hs. rewrite SessionDir_place in Hs by done. apply suffix_cons_cases in Hs as [-> | Hs].
        - right. left. unfold at_or_below, dir. rewrite SessionDir_place by done. by exists [].
        - left. split_and!; [done | | done]. destruct (decide (fs1 !! q = fs !! q)) as [E | Hne]; [by rewrite <- E | by apply H1]. }
      assert (∀ q, fs2 !! q ≠ fs !! q → near dir fs fs2 q) as Hall.
      { intros q Hq. destruct (decide (fs2 !! q = fs1 !! q)) as [E | Hne]; [| by apply Hown]. left. rewrite E in Hq |- *. by apply H1. }
      destruct r2; intros [= <- <-]; (split_and!; [done | by intros [] |]); [done |]. intros ? [= <-]. split; [done |].
      eapply MkdirAll_done; [| done]. unfold dir. by rewrite SessionDir_place.
Qed.

Lemma Remove_spec `{UnicodeTables} stuck id fs fs' r :
  Remove sha1 w git stuck id fs = (fs', r) →
  (∀ q, fs' !! q ≠ fs !! q → at_or_below (place (SessionDir sha1 w id)) q ∨ at_or_below admin q) ∧
  (r = None → fs' !! place (SessionDir sha1 w id) = None).
Proof using All.
  unfold Remove. set (dir := SessionDir sha1 w id). destruct (fs !! place dir) as [e |] eqn:Hd; [| by intros [= <- <-]].
  assert (∀ fs1, (∀ q, fs1 !! q ≠ fs !! q → at_or_below (place dir) q ∨ at_or_below admin q) →
    match RemoveAll stuck (place dir) fs1 with
    | (fs, Some err) => (fs, Some ("remove session workspace " +:+ fmt_q dir +:+ ": " +:+ err))
    | (fs, None) => (fs, None)
    end = (fs', r) →
    (∀ q, fs' !! q ≠ fs !! q → at_or_below (place dir) q ∨ at_or_below admin q) ∧ (r = None → fs' !! place dir = None)) as Hgone.
  { intros fs1 H1. pose proof (λ q, RemoveAll_changes stuck (place dir) fs1 q) as H2.
    destruct (RemoveAll stuck (place dir) fs1) as [fs2 [err |]] eqn:Hr; cbn in H2; intros [= <- <-]; split; try done.
    - intros q Hq. destruct (decide (fs2 !! q = fs1 !! q)) as [E | Hne]; [apply H1; by rewrite <- E | left; by apply H2].
    - intros q Hq. destruct (decide (fs2 !! q = fs1 !! q)) as [E | Hne]; [apply H1; by rewrite <- E | left; by apply H2].
    - intros _. by eapply RemoveAll_done. }
  destruct (decide (effectiveMode w = IsolationWorktree)); [| by apply Hgone].
  destruct (removeWorktree git (repoDir w) dir fs) as [fs1 r1] eqn:Hg. destruct (git_remove _ _ _ _ Hg) as [H1 H2].
  case_bool_decide; [| by apply Hgone]. intros [= <- <-]. split; [done | auto].
Qed.

(** Neither reaches what is at or below the directory of another conversation. *)
Lemma others_kept id id' l fs fs' :
  sessionDirName sha1 id ≠ sessionDirName sha1 id' → near (SessionDir sha1 w id) fs fs' (l ++ place (SessionDir sha1 w id')) →
  at_or_below admin (l ++ place (SessionDir sha1 w id')).
Proof using All.
  intros Hne [(Hs & _ & _) | [Hs | Hs]]; [| | done]; exfalso; unfold at_or_below in Hs; rewrite !SessionDir_place in Hs by done.
  - apply suffix_length in Hs. rewrite length_app in Hs. cbn in Hs. lia.
  - destruct Hs as [k Hs]. apply (f_equal reverse) in Hs. rewrite !reverse_app, !reverse_cons, <- !app_assoc in Hs.
    apply app_inv_head in Hs. by injection Hs.
Qed.

(** (C36) The working directories of conversations, for every id a client may send:
    the directory is a direct child of the base (an absolute path) with a name of at
    most 57 harmless bytes, so no id reaches outside; two conversations share one
    only when both the first 32 bits of their SHA-1 sums and their readable
    prefixes agree. Providing one, also when it fails half-way, makes missing
    directories on the path to the base and changes nothing else but what is at or
    below this directory, and what git keeps of its own; it leaves alone what is
    already there, so a resumed conversation finds its tree, and what it returns is
    a directory, returned again unchanged the next time. Removing one changes only
    what is at or below it, or git's own, and without an error it is gone. So
    neither touches the directory of a conversation of another name. Hypotheses:
    git touches only the tree it is told to and its own directory, in which the base
    does not lie; no symbolic links. *)
Theorem session_dirs_isolated `{UnicodeTables} id id' fs fault stuck :
  components (SessionDir sha1 w id) = components (baseDir w) ++ [sessionDirName sha1 id] ∧ blen (sessionDirName sha1 id) ≤ 57 ∧
  (SessionDir sha1 w id = SessionDir sha1 w id' →
     byte_take 8 (sha1 id) = byte_take 8 (sha1 id') ∧
     (if nonempty (sanitize id) then byte_take 48 (sanitize id) else "ctx") =
     (if nonempty (sanitize id') then byte_take 48 (sanitize id') else "ctx")) ∧
  (∀ fs' r, Provision sha1 w git fault id fs = (fs', r) →
     (∀ q, fs' !! q ≠ fs !! q → near (SessionDir sha1 w id) fs fs' q) ∧
     (is_Some (fs !! place (SessionDir sha1 w id)) → fs' = fs) ∧
     (∀ dir, r = inl dir → dir = SessionDir sha1 w id ∧ fs' !! place dir = Some Directory ∧
        Provision sha1 w git fault id fs' = (fs', inl dir)) ∧
     (sessionDirName sha1 id ≠ sessionDirName sha1 id' → fs' !! place (SessionDir sha1 w id') = fs !! place (SessionDir sha1 w id'))) ∧
  (∀ fs' r, Remove sha1 w git stuck id fs = (fs', r) →
     (∀ q, fs' !! q ≠ fs !! q → at_or_below (place (SessionDir sha1 w id)) q ∨ at_or_below admin q) ∧
     (r = None → fs' !! place (SessionDir sha1 w id) = None) ∧
     (sessionDirName sha1 id ≠ sessionDirName sha1 id' → fs' !! place (SessionDir sha1 w id') = fs !! place (SessionDir sha1 w id'))).
Proof using All.
  split_and!.
  - by apply SessionDir_components.
  - apply dir_name_safe.
  - intros E. apply (f_equal components) in E. rewrite !SessionDir_components in E by done. apply app_inv_head in E. injection E as E.
    by apply dir_name_parts.
  - intros fs' r Hp. destruct (Provision_spec fault id fs fs' r Hp) as (H1 & H2 & H3). split_and!; [done | done | |].
    + intros dir Hr. destruct (H3 dir Hr) as [-> H4]. split_and!; [done | done |]. unfold Provision. by rewrite H4.
    + intros Hne. apply dec_stable. intros Hq%H1. by apply (others_kept id id' []), (apart id') in Hq.
  - intros fs' r Hp. destruct (Remove_spec stuck id fs fs' r Hp) as (H1 & H2). split_and!; [done | done |].
    intros Hne. apply dec_stable. intros Hq%H1. destruct Hq as [Hq | Hq]; [by apply dirs_disjoint in Hq | by apply (apart id') in Hq].
Qed.
End contained.

(** Isolation gives a session a directory of its own, but takes none away: what the
    card allows stays allowed, the shared working directory included. *)
Lemma shared_directories_stay_granted c dir a : a ∈ sc_Args c → a ∈ sc_Args (WithSessionWorkspace c dir).
Proof. cbn. set_solver. Qed.

Definition zero_sha1 (s : string) : string := "0123456789abcdef".

(** A git that makes and removes one directory. *)
Definition plain_git : gitRunner :=
  mkGit (λ _, true) (λ _ path fs, (<[place path := Directory]> fs, None)) (λ _ path fs, (delete (place path) fs, None)).
Definition sample_workspace : SessionWorkspace := NewSessionWorkspace "/srv/repo" "/srv/a/.a2a/sessions" IsolationWorktree plain_git.

#[local] Existing Instance ascii_tables.

(** The first conversation of an agent makes the base. *)
Example first_provision :
  let '(fs, r) := Provision zero_sha1 sample_workspace plain_git (λ _, None) "../../etc" {[["a"; "srv"] := Directory]} in
  (fs !! [".a2a"; "a"; "srv"], fs !! ["sessions"; ".a2a"; "a"; "srv"], fs !! ["______etc-01234567"; "sessions"; ".a2a"; "a"; "srv"], r) =
  (Some Directory, Some Directory, Some Directory, inl "/srv/a/.a2a/sessions/______etc-01234567").
Proof. by vm_compute. Qed.

Lemma session_dirs_isolated_witness :
  components (SessionDir zero_sha1 sample_workspace "../../etc") = ["srv"; "a"; ".a2a"; "sessions"; "______etc-01234567"].
Proof.
  refine (eq_trans (proj1 (session_dirs_isolated zero_sha1 (λ s, conj eq_refl eq_refl) plain_git sample_workspace [".git"; "repo"; "srv"]
    _ _ _ _ "../../etc" "x" ∅ (λ _, None) (λ _, false))) _).
  - intros path fs fs' r [= <- <-]. split; [| intros _; apply lookup_insert_eq].
    intros q Hq. left. destruct (decide (q = place path)) as [-> | Hne]; [by exists [] | by rewrite lookup_insert_ne in Hq].
  - intros path fs fs' r [= <- <-]. split; [| intros _; apply lookup_delete_eq].
    intros q Hq. left. destruct (decide (q = place path)) as [-> | Hne]; [by exists [] | by rewrite lookup_delete_ne in Hq].
  - reflexivity.
  - intros id [k Hk]. rewrite (SessionDir_place zero_sha1 (λ s, conj eq_refl eq_refl)) in Hk by reflexivity.
    apply (f_equal reverse) in Hk. rewrite reverse_app, reverse_cons in Hk. vm_compute in Hk. discriminate.
  - vm_compute. reflexivity.
Defined.
