(* ===== verification/CmaGrader.v ===== *)
(** * The grader of outcomes ([internal/cmagateway/grader.go])

    A grader is an agent of its own: same provider, model and credentials as the
    agent it judges, a system prompt that asks for a JSON verdict, and none of
    the agent's tools. One call registers it, sends one message in a fresh
    conversation and reads the verdict out of the reply. JSON decoding is a
    parameter; what the two exchanges answer is the environment's. The result of
    [Grade] is what [CmaOutcome] takes as the answer of an attempt. *)
From S2P Require Import Prelude GoBase GoStrings CmaTypes CmaCards CmaStore CmaStoreLaws CmaTurn CmaOutcome.
From Stdlib Require Import ZArith Lia Ascii.

Definition gradeMaxCriteria : nat := 100.
Definition gradeMaxCriterionBytes : nat := 1024.
Definition gradeMaxFeedbackBytes : nat := 4 * 1024.
Definition gradeMaxExplainBytes : nat := 8 * 1024.

Definition quoted (s : string) : string := dq +:+ s +:+ dq.

Definition graderSystemPrompt : string :=
  "You are an impartial outcome grader. You evaluate whether an agent's deliverable satisfies a stated goal and rubric. You see only the goal, the rubric, and the deliverable — never the agent's conversation." +:+ nl +:+ nl +:+
  "Respond with ONLY a JSON object — no prose, no markdown fences:" +:+ nl +:+
  "{" +:+ nl +:+
  "  " +:+ quoted "verdict" +:+ ": " +:+ quoted "satisfied" +:+ " | " +:+ quoted "needs_revision" +:+ "," +:+ nl +:+
  "  " +:+ quoted "criteria" +:+ ": [{" +:+ quoted "criterion" +:+ ": " +:+ quoted "<one rubric criterion>" +:+ ", " +:+
    quoted "passed" +:+ ": true|false, " +:+ quoted "feedback" +:+ ": " +:+ quoted "<short, actionable>" +:+ "}]," +:+ nl +:+
  "  " +:+ quoted "explanation" +:+ ": " +:+ quoted "<2-3 sentence summary safe to show the user>" +:+ nl +:+
  "}" +:+ nl +:+ nl +:+
  "Rules:" +:+ nl +:+
  "- Cover every rubric criterion in criteria, one entry each." +:+ nl +:+
  "- verdict is " +:+ quoted "satisfied" +:+ " only when every criterion passes." +:+ nl +:+
  "- feedback and explanation are shown to the user and handed back to the executing agent: keep them concise, specific, and actionable." +:+ nl +:+
  "- Never include internal deliberation or chain-of-thought in any field.".

Definition graderUserMessage (req : GradeRequest) : string :=
  "# Goal" +:+ nl +:+ g_Goal req +:+ nl +:+ nl +:+ "# Rubric" +:+ nl +:+ g_Rubric req +:+ nl +:+ nl +:+
  "# Deliverable under evaluation (iteration " +:+ fmt_d (g_Iteration req) +:+ ")" +:+ nl +:+ g_Response req.

(** ** The reply *)

(** From the first opening brace to the last closing one; empty when there is none. *)
Definition extractJSONObject (raw : string) : string :=
  let s := TrimSpace raw in
  let s := TrimPrefix s "```json" in
  let s := TrimPrefix s "```" in
  let s := TrimSuffix s "```" in
  match Index s "{", LastIndexByte s "}" with
  | Some start, Some end_ => if decide (end_ ≤ start) then "" else byte_drop start (byte_take (end_ + 1) s)
  | _, _ => ""
  end.

(** The decoded reply: unknown fields are dropped by the decoder. *)
Record grade_wire := mkWire { w_Verdict : string; w_Criteria : list OutcomeCriterion; w_Explanation : string }.

Definition keep_criterion (c : OutcomeCriterion) : option OutcomeCriterion :=
  let criterion := TrimSpace (Criterion c) in
  if decide (criterion = "") then None
  else Some (mkCriterion (truncateForOutcome criterion gradeMaxCriterionBytes) (Passed c)
               (truncateForOutcome (Feedback c) gradeMaxFeedbackBytes)).

Section grader.
Context `{UnicodeTables} (baseURL : string).
Context (decode : string → grade_wire + string) (decode_reply : string → string + string).

Definition parseGradeReply (raw : string) : OutcomeGrade + string :=
  let span := extractJSONObject raw in
  if decide (span = "") then inr "grader reply contained no JSON object"
  else match decode span with
       | inr err => inr ("grader reply JSON: " +:+ err)
       | inl w =>
           if decide (w_Verdict w = OutcomeVerdictSatisfied ∨ w_Verdict w = OutcomeVerdictNeedsRevision) then
             inl (mkGrade (w_Verdict w) (omap keep_criterion (take gradeMaxCriteria (w_Criteria w)))
                    (truncateForOutcome (w_Explanation w) gradeMaxExplainBytes))
           else inr ("grader verdict " +:+ fmt_q (w_Verdict w) +:+ " is not satisfied|needs_revision")
       end.

(** ** The agent *)

Record ahsirGrader := mkGrader { gr_name : string; gr_card : AgentCard + string; gr_timeout : duration }.

(** The copy of the agent from which the card is made. *)
Definition grader_agent (a : Agent) : Agent :=
  mkAgent (ag_Type a) (ag_ID a) (Version a) (ag_Name a) (Model a) graderSystemPrompt (ag_Description a) [] [] []
    (ag_Metadata a) (ag_CreatedAt a) (ag_UpdatedAt a) (ag_ArchivedAt a).

Definition newAhsirGrader (rt : RuntimeDefaults) (a : Agent) (timeout : duration) : ahsirGrader :=
  let name := AhsirGraderName (ag_ID a) (Version a) in
  mkGrader name
    (match AgentToCard name (grader_agent a) rt with
     | inr err => inr err
     | inl c => inl (mkCard (card_Name c) (card_Description c) (card_Version c) (card_Skills c) (Claude c) (Runtime c)
                       (mkFilesystem false false false []) false (PartialMessages c) (SessionIsolation c) (MCP_Servers c)
                       (card_Lifecycle c))
     end)
    (if (timeout <=? 0)%Z then 5 * Minute else timeout)%Z.

(** The requests sent, in order. *)
Inductive admin_request :=
| Registering (name : string) (card : AgentCard) (instances : Z)
| Chatting (name context speaker message : string) (timeout : duration).

Definition Grade (g : ahsirGrader) (random : list Z) (registered chatted : admin_answer) (req : GradeRequest)
    : list admin_request * (OutcomeGrade + string) :=
  match gr_card g with
  | inr err => ([], inr ("grader card: " +:+ err))
  | inl card =>
      let sent := [Registering (gr_name g) card 0] in
      match RegisterAgent baseURL (gr_name g) registered with
      | Some err => (sent, inr ("provision grader: " +:+ admin_message err))
      | None =>
          let sent := sent ++ [Chatting (gr_name g) (NewID random PrefixGraderContext) "" (graderUserMessage req) (gr_timeout g)] in
          match Chat decode_reply (gr_name g) chatted with
          | inr err => (sent, inr (admin_message err))
          | inl reply => (sent, parseGradeReply reply)
          end
      end
  end.
End grader.
