(* ===== verification/CmaGraderLaws.v ===== *)
(** * What the facade's cards, names and grader promise

    Generated ids and the names derived from them are distinct, a card never
    carries a credential the metadata chose, the grader is confined and apart
    from the agent it judges, and a verdict read from a reply is bounded and does
    not depend on how the JSON was wrapped. *)
From S2P Require Import Prelude GoBase GoStrings CmaTypes CmaCards CmaStore CmaStoreLaws CmaTurn CmaOutcome CmaGrader.
From Stdlib Require Import ZArith Lia Ascii.

(** ** Strings without a byte *)

Fixpoint lacks (c : ascii) (s : string) : bool :=
  match s with EmptyString => true | String a s' => negb (Ascii.eqb a c) && lacks c s' end.

Lemma lacks_app c s t : lacks c (s +:+ t) = lacks c s && lacks c t.
Proof. induction s as [| a s IH]; [done |]. rewrite string_app_cons. cbn. by rewrite IH, andb_assoc. Qed.

Lemma lacks_rev c s : lacks c (String.rev s) = lacks c s.
Proof.
  induction s as [| a s IH]; [done |]. change (String.rev (String a s)) with (String.rev_app s (String a "")).
  rewrite rev_app_spec, lacks_app, IH. cbn. by rewrite andb_true_r, andb_comm.
Qed.

(** The first occurrence of a byte splits a string in one way. *)
Lemma lacks_split c s s' t t' :
  lacks c s = true → lacks c s' = true → s +:+ String c t = s' +:+ String c t' → s = s' ∧ t = t'.
Proof.
  revert s'. induction s as [| a s IH]; intros [| a' s'] Hs Hs' E; cbn in Hs, Hs'.
  - by injection E as ->.
  - injection E as <- _. by rewrite Ascii.eqb_refl in Hs'.
  - injection E as -> _. by rewrite Ascii.eqb_refl in Hs.
  - apply andb_prop in Hs as [_ Hs]. apply andb_prop in Hs' as [_ Hs']. injection E as <- E.
    by destruct (IH s' Hs Hs' E) as [-> ->].
Qed.

(** ** Ids *)

Lemma symbol_inj a b c d e a' b' c' d' e' :
  symbol [a; b; c; d; e] = symbol [a'; b'; c'; d'; e'] → [a; b; c; d; e] = [a'; b'; c'; d'; e'].
Proof. destruct a, b, c, d, e, a', b', c', d', e'; vm_compute; intros H; first [reflexivity | discriminate H]. Qed.

Lemma symbol_lower a b c d e : lower_byte (symbol [a; b; c; d; e]) = symbol [a; b; c; d; e].
Proof. by destruct a, b, c, d, e. Qed.

Lemma symbol_plain a b c d e x :
  x = "-"%char ∨ x = "_"%char → Ascii.eqb (symbol [a; b; c; d; e]) x = false.
Proof. by intros [-> | ->]; destruct a, b, c, d, e. Qed.

(** Induction by groups of five bits. *)
Lemma groups_ind (P : list bool → Prop) :
  P [] → (∀ a, P [a]) → (∀ a b, P [a; b]) → (∀ a b c, P [a; b; c]) → (∀ a b c d, P [a; b; c; d]) →
  (∀ a b c d e l, P l → P (a :: b :: c :: d :: e :: l)) → ∀ l, P l.
Proof.
  intros H0 H1 H2 H3 H4 H5 l. remember (length l) as n eqn:E. revert l E.
  induction (lt_wf n) as [n _ IH]. intros l ->.
  destruct l as [| a [| b [| c [| d [| e l]]]]]; auto. apply H5. apply (IH (length l)); [cbn; lia | done].
Qed.

Lemma encode_bits_inj l l' : length l = length l' → encode_bits l = encode_bits l' → l = l'.
Proof.
  revert l'. induction l as [| | | | | a b c d e l IH] using groups_ind; intros l' Hlen E;
    destruct l' as [| a' [| b' [| c' [| d' [| e' l']]]]]; try discriminate Hlen; [done | ..];
    injection E as E1; try (apply symbol_inj in E1; congruence).
  injection Hlen as Hlen. apply symbol_inj in E1. rewrite (IH l' Hlen ltac:(eassumption)). congruence.
Qed.

Lemma lower_encode l : lower_bytes (encode_bits l) = encode_bits l.
Proof. induction l as [| | | | | a b c d e l IH] using groups_ind; cbn [encode_bits lower_bytes]; by rewrite ?symbol_lower, ?IH. Qed.

Lemma lacks_encode x l : x = "-"%char ∨ x = "_"%char → lacks x (encode_bits l) = true.
Proof.
  intros Hx. induction l as [| | | | | a b c d e l IH] using groups_ind; cbn [encode_bits lacks];
    by rewrite ?symbol_plain, ?IH.
Qed.

Lemma byte_bits_inj b b' : (0 ≤ b < 256)%Z → (0 ≤ b' < 256)%Z → byte_bits b = byte_bits b' → b = b'.
Proof.
  intros Hb Hb' [= E7 E6 E5 E4 E3 E2 E1 E0]. apply Z.bits_inj'. intros i Hi.
  destruct (decide (i < 8)%Z) as [Hlt | Hge].
  - assert (i = 0 ∨ i = 1 ∨ i = 2 ∨ i = 3 ∨ i = 4 ∨ i = 5 ∨ i = 6 ∨ i = 7)%Z as Hc by lia.
    by destruct Hc as [-> | [-> | [-> | [-> | [-> | [-> | [-> | ->]]]]]]].
  - assert (∀ x, (0 ≤ x < 256)%Z → Z.testbit x i = false) as Hhigh.
    { intros x Hx. destruct (decide (x = 0)%Z) as [-> |]; [apply Z.testbit_0_l |].
      apply Z.bits_above_log2; [lia |]. apply Z.lt_le_trans with 8%Z; [| lia]. apply Z.log2_lt_pow2; lia. }
    by rewrite !Hhigh.
Qed.

Definition is_byte_list (l : list Z) : Prop := Forall (λ b, (0 ≤ b < 256)%Z) l.

Lemma enc_inj r r' : length r = length r' → is_byte_list r → is_byte_list r' → enc r = enc r' → r = r'.
Proof.
  intros Hlen Hr Hr' E. apply encode_bits_inj in E.
  - revert r' Hlen Hr' E. induction Hr as [| b r Hb Hr IH]; intros [| b' r'] Hlen Hr' E; try discriminate Hlen; [done |].
    inversion_clear Hr' as [| ?? Hb' Hr'']. rewrite !bind_cons in E. apply app_inj_1 in E as [E1 E2]; [| done].
    f_equal; [by apply byte_bits_inj | apply IH; [by injection Hlen | done | done]].
  - clear - Hlen. revert r' Hlen. induction r as [| b r IH]; intros [| b' r'] Hlen; try discriminate Hlen; [done |].
    rewrite !bind_cons, !length_app. f_equal. apply IH. by injection Hlen.
Qed.

(** What follows the prefix of an id. *)
Lemma agent_id_body r : TrimPrefix (NewID r PrefixAgent) (PrefixAgent +:+ "_") = enc r.
Proof.
  unfold NewID, enc. rewrite lower_encode. change (PrefixAgent +:+ "_" +:+ ?x) with ((PrefixAgent +:+ "_") +:+ x).
  apply TrimPrefix_app.
Qed.

Lemma agent_name_eq r v : AhsirAgentName (NewID r PrefixAgent) v = "cma-" +:+ enc r +:+ String "-" ("v" +:+ fmt_d v).
Proof. unfold AhsirAgentName. by rewrite agent_id_body. Qed.

Lemma grader_name_eq r v : AhsirGraderName (NewID r PrefixAgent) v = "cma-grader-" +:+ enc r +:+ String "-" ("v" +:+ fmt_d v).
Proof. unfold AhsirGraderName. by rewrite agent_id_body. Qed.

Lemma enc_lacks r : lacks "-" (enc r) = true.
Proof. apply lacks_encode. by left. Qed.

Lemma fmt_d_inj v v' : fmt_d v = fmt_d v' → v = v'.
Proof. apply (inj pretty). Qed.

Lemma blen_enc r : length r = 16 → blen (enc r) = 26.
Proof. intros H. do 16 (destruct r as [| ? r]; [discriminate H |]). by destruct r. Qed.

Lemma name_tail_inj r r' v v' :
  enc r +:+ String "-" ("v" +:+ fmt_d v) = enc r' +:+ String "-" ("v" +:+ fmt_d v') → enc r = enc r' ∧ v = v'.
Proof.
  intros [E1 E2]%lacks_split; try apply enc_lacks. split; [done |]. by injection E2 as E2%fmt_d_inj.
Qed.

(** The names under which the facade runs its agents never clash: for ids
    generated from sixteen random bytes, two executors have the same name only
    when the bytes and the versions are the same, likewise two graders, and no
    executor has the name of a grader - so registering, cancelling or deleting
    one agent never touches another, and a grader never is the agent it judges. *)
Lemma agent_names_distinct r r' v v' :
  length r = 16 → length r' = 16 → is_byte_list r → is_byte_list r' →
  (AhsirAgentName (NewID r PrefixAgent) v = AhsirAgentName (NewID r' PrefixAgent) v' → r = r' ∧ v = v') ∧
  (AhsirGraderName (NewID r PrefixAgent) v = AhsirGraderName (NewID r' PrefixAgent) v' → r = r' ∧ v = v') ∧
  AhsirAgentName (NewID r PrefixAgent) v ≠ AhsirGraderName (NewID r' PrefixAgent) v'.
Proof.
  intros Hl Hl' Hr Hr'. rewrite !agent_name_eq, !grader_name_eq. split_and!.
  - intros [= E]. apply name_tail_inj in E as [E ->]. split; [by apply enc_inj; [congruence | ..] | done].
  - intros [= E]. apply name_tail_inj in E as [E ->]. split; [by apply enc_inj; [congruence | ..] | done].
  - intros [= E]. apply (lacks_split "-" _ "grader") in E as [E _]; [| apply enc_lacks | done].
    pose proof (blen_enc r Hl) as Hb. by rewrite E in Hb.
Qed.

Definition sample_random : list Z := [1; 2; 3; 4; 5; 6; 7; 8; 9; 10; 11; 12; 13; 14; 15; 255]%Z.

Lemma sample_random_ok : is_byte_list sample_random.
Proof. repeat constructor; done. Qed.

Lemma agent_names_distinct_witness :
  AhsirAgentName (NewID sample_random PrefixAgent) 3 ≠ AhsirGraderName (NewID sample_random PrefixAgent) 3.
Proof. apply (agent_names_distinct sample_random sample_random 3 3); first [done | apply sample_random_ok]. Defined.

(** ** Cards *)

Section cards.
Context `{UnicodeTables}.

Lemma shell_name_lacks s : shellEnvName s = true → lacks "}" s = true ∧ s ≠ "".
Proof.
  destruct s as [| c s]; [done |]. cbn. intros [Hc Hs]%andb_prop. split; [| done].
  assert (∀ first x, name_char first x = true → Ascii.eqb x "}" = false) as Hx.
  { intros first x Hx. apply Ascii.eqb_neq. intros ->. by destruct first. }
  rewrite (Hx _ _ Hc). clear Hc. induction s as [| a s IH]; [done |]. cbn in *.
  apply andb_prop in Hs as [Ha Hs]. rewrite (Hx _ _ Ha). by apply IH.
Qed.

(** What metadata can put into a card, whatever it holds: the API key of a
    card is empty, the facade's own, or a reference [${NAME}] to an environment
    variable with [NAME] a shell identifier - never a literal; a codex agent gets
    no API key at all; and write access is bounded to the workspace. When the
    variable's name is not an identifier there is no card. *)
Lemma card_credentials name a d :
  match AgentToCard name a d with
  | inl c =>
      (rt_APIKey (Runtime c) = "" ∨ rt_APIKey (Runtime c) = d_APIKey d ∨
       ∃ n, shellEnvName n = true ∧ rt_APIKey (Runtime c) = "${" +:+ n +:+ "}") ∧
      (EqualFold (rt_Provider (Runtime c)) "codex" = true → rt_APIKey (Runtime c) = "") ∧
      (rt_EnvKey (Runtime c) ≠ "" → shellEnvName (rt_EnvKey (Runtime c)) = true ∧ rt_APIKey (Runtime c) = "") ∧
      AllowedPaths (Filesystem c) = ["."] ∧ rt_Command (Runtime c) = "" ∧ rt_Args (Runtime c) = [] ∧ rt_Env (Runtime c) = ∅ ∧
      (ShellAccess (Filesystem c) = true ↔ ag_Metadata a !! "shell_access" = Some "true") ∧
      (OutboundAccess c = true ↔ ag_Metadata a !! metadataNetworkAccess = Some "true")
  | inr _ => shellEnvName (TrimSpace (meta_get (ag_Metadata a) metadataRuntimeAPIKeyEnv)) = false
  end.
Proof.
  assert (∀ k, bool_decide (meta_get (ag_Metadata a) k = "true") = true ↔ ag_Metadata a !! k = Some "true") as Hm.
  { intros k. rewrite bool_decide_eq_true. unfold meta_get. destruct (ag_Metadata a !! k); cbn; naive_solver. }
  unfold AgentToCard, credentials. cbv zeta. set (env := TrimSpace _). set (p := override _ _).
  destruct (decide (env = "")); [| destruct (shellEnvName env) eqn:Henv]; cbn; [.. | done];
    (split_and!; [| | | done | done | done | done | apply Hm | apply Hm]); destruct (EqualFold p "codex"); cbn; eauto; done.
Qed.
End cards.

(** ** Finding the object in a reply

    Trimming white space and fences keeps the braces. *)

Definition brace (c : ascii) : Prop := c = "{"%char ∨ c = "}"%char.

Lemma lacks_eq c a s : Ascii.eqb a c = false → lacks c s = true → lacks c (String a s) = true.
Proof. intros E H. cbn. by rewrite E. Qed.

(** A byte in none of the sets that make up white space. *)
Lemma space_width_lacks c s : brace c → lacks c (byte_take (space_width s) s) = true.
Proof.
  intros Hc. assert (∀ b x, (b <? 123)%Z = true ∨ (125 <? b)%Z = true → is_byte b x = true → Ascii.eqb x c = false) as Hb.
  { unfold is_byte, byte_of. intros b x Hb Hx%Z.eqb_eq. apply Ascii.eqb_neq. intros ->.
    destruct Hc as [-> | ->]; [change (123 = b)%Z in Hx | change (125 = b)%Z in Hx]; destruct Hb; bool_to_prop; lia. }
  assert (∀ lo hi x, (hi <? 123)%Z = true ∨ (125 <? lo)%Z = true → in_range lo hi x = true → Ascii.eqb x c = false) as Hr.
  { unfold in_range, byte_of. intros lo hi x Hb' [Hx%Z.leb_le Hy%Z.leb_le]%andb_prop. apply Ascii.eqb_neq. intros ->.
    destruct Hc as [-> | ->]; [change (lo ≤ 123)%Z in Hx; change (123 ≤ hi)%Z in Hy |
      change (lo ≤ 125)%Z in Hx; change (125 ≤ hi)%Z in Hy]; destruct Hb'; bool_to_prop; lia. }
  assert (∀ x, in_range 9 13 x || is_byte 32 x = true → Ascii.eqb x c = false) as Hone.
  { intros x [E | E]%orb_prop; [by apply (Hr 9 13 x)%Z; [left |] | by apply (Hb 32 x)%Z; [left |]]. }
  assert (∀ x y, is_byte 194 x && (is_byte 133 y || is_byte 160 y) = true → Ascii.eqb x c = false ∧ Ascii.eqb y c = false) as Htwo.
  { intros x y [E1 E2]%andb_prop. split; [by apply (Hb 194 x)%Z; [right |] |].
    apply orb_prop in E2 as [E | E]; [by apply (Hb 133 y)%Z; [right |] | by apply (Hb 160 y)%Z; [right |]]. }
  destruct s as [| x [| y [| z s]]]; unfold space_width; [done | ..]; (destruct (in_range 9 13 x || is_byte 32 x) eqn:E1;
    [by apply lacks_eq; [apply Hone |] |]); [done | ..]; (destruct (is_byte 194 x && _) eqn:E2;
    [apply Htwo in E2 as [? ?]; by do 2 (apply lacks_eq; [done |]) |]); [done |].
  match goal with |- context [if ?b then 3 else 0] => destruct b eqn:E3; [| done] end.
  assert (Ascii.eqb x c = false ∧ Ascii.eqb y c = false ∧ Ascii.eqb z c = false) as (Hx & Hy & Hz).
  { repeat (apply orb_prop in E3 as [E3 | E3]); apply andb_prop in E3 as [E3 Ez]; apply andb_prop in E3 as [Ex Ey]; split_and!;
      repeat match goal with H : (_ || _) = true |- _ => apply orb_prop in H as [H | H] end;
      first [eapply Hb; [| eassumption] | eapply Hr; [| eassumption]]; first [by left | by right]. }
  by do 3 (apply lacks_eq; [done |]).
Qed.

Lemma rev_space_width_lacks c s : brace c → lacks c (byte_take (rev_space_width s) s) = true.
Proof.
  intros Hc. destruct s as [| x s]; [done |].
  assert (in_range 9 13 x || is_byte 32 x = true → lacks c (String x "") = true) as Hone.
  { intros E. pose proof (space_width_lacks c (String x "") Hc) as H. unfold space_width in H. by rewrite E in H. }
  unfold rev_space_width. destruct (in_range 9 13 x || is_byte 32 x); [by apply Hone |].
  destruct s as [| y s]; [done |].
  destruct (Nat.eqb (space_width (String y (String x ""))) 2) eqn:E2.
  { apply Nat.eqb_eq in E2. pose proof (space_width_lacks c (String y (String x "")) Hc) as H. rewrite E2 in H.
    cbn in *. destruct (Ascii.eqb x c), (Ascii.eqb y c); done. }
  destruct s as [| z s]; [done |].
  destruct (Nat.eqb (space_width (String z (String y (String x "")))) 3) eqn:E3; [| done].
  apply Nat.eqb_eq in E3. pose proof (space_width_lacks c (String z (String y (String x ""))) Hc) as H. rewrite E3 in H.
  cbn in *. destruct (Ascii.eqb x c), (Ascii.eqb y c), (Ascii.eqb z c); done.
Qed.

(** What is trimmed at the front has no brace, when no rune trimmed has one. *)
Definition braceless (s : string) : Prop := ∀ c, brace c → lacks c s = true.

Lemma trim_front_braceless w k s :
  (∀ u, braceless (byte_take (w u) u)) → braceless (byte_take k s) →
  ∃ p, s = p +:+ trim_front w k s ∧ braceless p.
Proof.
  intros Hw. revert k. induction s as [| a s IH]; intros k Hk; [by exists "" |]. cbn [trim_front].
  assert (∀ k', braceless (String a (byte_take k' s)) → ∃ p, String a s = p +:+ trim_front w k' s ∧ braceless p) as Hskip.
  { intros k' H. destruct (IH k') as (p & E & Hp).
    - intros c Hc. specialize (H c Hc). cbn in H. by apply andb_prop in H as [_ H].
    - exists (String a p). split; [by rewrite string_app_cons, <- E |]. intros c Hc. specialize (H c Hc). cbn in *.
      apply andb_prop in H as [-> _]. by apply Hp. }
  destruct k as [| k]; [| by apply Hskip].
  pose proof (Hw (String a s)) as Hs. destruct (w (String a s)) as [| k]; [by exists "" |]. by apply Hskip.
Qed.

Lemma TrimSpace_braceless s : ∃ p q, s = p +:+ TrimSpace s +:+ q ∧ braceless p ∧ braceless q.
Proof.
  destruct (trim_front_braceless space_width 0 s) as (p & E & Hp); [by intros u c; apply space_width_lacks | done |].
  set (s1 := trim_front space_width 0 s) in *.
  destruct (trim_front_braceless rev_space_width 0 (String.rev s1)) as (q & E' & Hq); [by intros u c; apply rev_space_width_lacks | done |].
  exists p, (String.rev q). split_and!; [| done | by intros c Hc; rewrite lacks_rev; apply Hq].
  rewrite E at 1. f_equal. by rewrite <- (string_rev_rev s1), E', string_rev_app.
Qed.

(** A string that is [obj] between text without an opening brace and text
    without a closing one. *)
Definition wraps (obj s : string) : Prop :=
  ∃ pre post, s = pre +:+ obj +:+ post ∧ lacks "{" pre = true ∧ lacks "}" post = true.

Lemma lacks_front c p u pre t :
  lacks c p = true → p +:+ u = pre +:+ String c t → ∃ pre', pre = p +:+ pre' ∧ u = pre' +:+ String c t.
Proof.
  revert pre. induction p as [| a p IH]; intros pre Hp E; [by exists pre |]. cbn in Hp. apply andb_prop in Hp as [Ha Hp].
  destruct pre as [| b pre]; rewrite ?string_app_cons in E.
  - injection E as -> _. by rewrite Ascii.eqb_refl in Ha.
  - injection E as <- E. destruct (IH pre Hp E) as (pre' & -> & ->). by exists pre'.
Qed.

Lemma wraps_inner mid p s q :
  braceless p → braceless q → wraps ("{" +:+ mid +:+ "}") (p +:+ s +:+ q) → wraps ("{" +:+ mid +:+ "}") s.
Proof.
  intros Hp Hq (pre & post & E & Hpre & Hpost). rewrite string_app_assoc in E.
  change ("{" +:+ ?x) with (String "{" x) in E.
  apply (lacks_front "{") in E as (pre' & -> & E); [| apply Hp; by left].
  apply (f_equal String.rev) in E. change (String "{" ?x) with ("{" +:+ x) in E.
  rewrite string_rev_app, <- string_app_assoc, <- string_app_assoc, string_rev_app in E.
  assert (String.rev ((pre' +:+ "{") +:+ mid +:+ "}") = String "}" (String.rev ((pre' +:+ "{") +:+ mid))) as Er.
  { rewrite <- string_app_assoc, string_rev_app. done. }
  rewrite Er in E. apply (lacks_front "}") in E as (post' & Ep & E); [| rewrite lacks_rev; apply Hq; by right].
  exists pre', (String.rev post'). split_and!.
  - apply (f_equal String.rev) in E. rewrite string_rev_rev, string_rev_app in E. rewrite E.
    change (String "}" ?x) with ("}" +:+ x). rewrite string_rev_app, string_rev_rev. cbn [String.rev String.rev_app].
    by rewrite !string_app_assoc.
  - rewrite lacks_app in Hpre. by apply andb_prop in Hpre as [_ ?].
  - rewrite lacks_rev. apply (f_equal (lacks "}")) in Ep. rewrite lacks_rev, lacks_app, Hpost in Ep.
    symmetry in Ep. by apply andb_prop in Ep as [_ ?].
Qed.

Lemma TrimPrefix_cases s p : TrimPrefix s p = s ∨ s = p +:+ TrimPrefix s p.
Proof. unfold TrimPrefix. destruct (strip_prefix p s) eqn:E; cbn; [right; by apply strip_prefix_Some | by left]. Qed.

Lemma Index_lacks c pre t : lacks c pre = true → Index (pre +:+ String c t) (String c "") = Some (blen pre).
Proof.
  induction pre as [| a pre IH]; cbn [lacks]; intros Hp.
  - change (Index (String c t) (String c "") = Some 0). unfold Index. by rewrite (strip_prefix_app (String c "") t : strip_prefix _ (String c t) = _).
  - apply andb_prop in Hp as [Ha Hp]. apply negb_true_iff, Ascii.eqb_neq in Ha. rewrite string_app_cons. cbn [Index].
    assert (strip_prefix (String c "") (String a (pre +:+ String c t)) = None) as ->.
    { change (strip_prefix (String c "") (String a ?u)) with (if ascii_dec c a then strip_prefix "" u else None).
      destruct (ascii_dec c a) as [-> | _]; [by destruct Ha | done]. }
    by rewrite IH.
Qed.

Lemma cut_last_lacks c s : lacks c s = true → cut_last c s = None.
Proof.
  induction s as [| a s IH]; [done |]. cbn. intros [Ha Hs]%andb_prop. rewrite (IH Hs).
  apply negb_true_iff, Ascii.eqb_neq in Ha. by destruct (ascii_dec a c).
Qed.

Lemma byte_take_app_add s t n : byte_take (blen s + n) (s +:+ t) = s +:+ byte_take n t.
Proof. induction s as [| c s IH]; [done |]. rewrite string_app_cons. cbn. by rewrite IH. Qed.

Lemma byte_take_app s t : byte_take (blen s) (s +:+ t) = s.
Proof. rewrite <- (Nat.add_0_r (blen s)), byte_take_app_add. destruct t; apply string_app_nil_r. Qed.

Lemma byte_drop_app s t : byte_drop (blen s) (s +:+ t) = t.
Proof. induction s as [| c s IH]; [by destruct t | done]. Qed.

(** A JSON object standing between text without an opening brace and text without a
    closing one - white space, prose, a markdown fence - is found
    exactly. *)
Lemma extract_wrapped mid raw : wraps ("{" +:+ mid +:+ "}") raw → extractJSONObject raw = "{" +:+ mid +:+ "}".
Proof.
  intros Hraw. set (obj := "{" +:+ mid +:+ "}") in *. unfold extractJSONObject. cbv zeta.
  destruct (TrimSpace_braceless raw) as (p & q & E & Hp & Hq). rewrite E in Hraw. apply wraps_inner in Hraw; [| done | done].
  clear E Hp Hq p q. generalize dependent (TrimSpace raw). intros s Hs.
  assert (∀ f, braceless f → ∀ s, wraps obj s → wraps obj (TrimPrefix s f)) as Hpre.
  { intros f Hf s' Hs'. destruct (TrimPrefix_cases s' f) as [-> | E]; [done |].
    rewrite E in Hs'. apply (wraps_inner mid f _ ""); [done | by intros ? | by rewrite string_app_nil_r]. }
  assert (braceless "```json" ∧ braceless "```") as [H1 H2] by (split; by intros ? [-> | ->]).
  apply (Hpre _ H1), (Hpre _ H2) in Hs. set (s' := TrimPrefix _ _) in *. clearbody s'.
  assert (wraps obj (TrimSuffix s' "```")) as Hs'.
  { destruct (TrimSuffix_cases s' "```") as [-> | E]; [done |]. rewrite E in Hs. by apply (wraps_inner mid "" _ "```"); [intros ? | |]. }
  clear Hs. generalize dependent (TrimSuffix s' "```"). intros u (pre & post & -> & Hl & Hr).
  assert (pre +:+ obj +:+ post = pre +:+ String "{" (mid +:+ "}" +:+ post)) as -> by (unfold obj; by rewrite !string_app_assoc).
  rewrite (Index_lacks "{" pre) by done.
  assert (pre +:+ String "{" (mid +:+ "}" +:+ post) = (pre +:+ "{" +:+ mid) +:+ String "}" post) as -> by (by rewrite !string_app_assoc).
  unfold LastIndexByte. rewrite cut_last_app by (by apply cut_last_lacks). cbn [fmap option_fmap option_map fst].
  rewrite decide_False by (rewrite !blen_app; cbn; lia).
  assert ((pre +:+ "{" +:+ mid) +:+ String "}" post = pre +:+ obj +:+ post) as -> by (unfold obj; by rewrite !string_app_assoc).
  replace (blen (pre +:+ "{" +:+ mid) + 1) with (blen pre + blen obj) by (unfold obj; rewrite !blen_app; cbn; lia).
  by rewrite byte_take_app_add, byte_take_app, byte_drop_app.
Qed.

(** ** Verdicts *)

Lemma blen_truncate s max : max ≠ 0 → blen (truncateForOutcome s max) ≤ max + 15.
Proof.
  intros Hmax. unfold truncateForOutcome. rewrite (bool_decide_eq_false_2 (max = 0)) by done. cbn.
  destruct (bool_decide (blen s ≤ max)) eqn:E; [apply bool_decide_eq_true in E; lia |].
  destruct (rune_cut_spec s max) as [H _]. rewrite blen_app, blen_byte_take. cbn. lia.
Qed.

Lemma truncate_nonempty s max : s ≠ "" → truncateForOutcome s max ≠ "".
Proof.
  unfold truncateForOutcome. intros Hs. destruct (_ || _); [done |]. intros E. apply (f_equal blen) in E.
  rewrite blen_app in E. cbn in E. lia.
Qed.

Definition criterion_bounded (c : OutcomeCriterion) : Prop :=
  Criterion c ≠ "" ∧ blen (Criterion c) ≤ gradeMaxCriterionBytes + 15 ∧ blen (Feedback c) ≤ gradeMaxFeedbackBytes + 15.

Lemma keep_bounded l : Forall criterion_bounded (omap keep_criterion l).
Proof.
  induction l as [| c l IH]; [constructor |]. cbn. unfold keep_criterion at 1. destruct (decide _) as [| Hc]; [done |].
  constructor; [| done]. unfold criterion_bounded. cbn [Criterion Feedback].
  split_and!; [by apply truncate_nonempty | by apply blen_truncate | by apply blen_truncate].
Qed.

Lemma length_omap_le {A B} (f : A → option B) l : length (omap f l) ≤ length l.
Proof. induction l as [| x l IH]; [done |]. cbn. destruct (f x); cbn; lia. Qed.

Section verdicts.
Context `{UnicodeTables} (decoder : string → grade_wire + string).

(** What a grader's reply can be. The verdict does not depend on what the
    model wraps its JSON object in: text before it without an opening brace and
    text after it without a closing one change nothing. And whatever is replied,
    a verdict that is accepted is one of the two of the protocol, with at most a
    hundred criteria, none of them blank, and every text within its bound (plus
    the 15 bytes of the mark of a truncation); the criteria are the first hundred
    of the reply, in order, without the blank ones. *)
Lemma grade_reply_sound mid raw :
  (wraps ("{" +:+ mid +:+ "}") raw →
   parseGradeReply decoder raw = parseGradeReply decoder ("{" +:+ mid +:+ "}")) ∧
  ∀ g, parseGradeReply decoder raw = inl g →
    (Verdict g = OutcomeVerdictSatisfied ∨ Verdict g = OutcomeVerdictNeedsRevision) ∧
    length (grade_Criteria g) ≤ gradeMaxCriteria ∧ Forall criterion_bounded (grade_Criteria g) ∧
    blen (grade_Explanation g) ≤ gradeMaxExplainBytes + 15 ∧
    ∃ w, decoder (extractJSONObject raw) = inl w ∧ Verdict g = w_Verdict w ∧
      Passed <$> grade_Criteria g =
      Passed <$> filter (λ c, TrimSpace (Criterion c) ≠ "") (take gradeMaxCriteria (w_Criteria w)).
Proof.
  split.
  - intros Hw. unfold parseGradeReply. rewrite (extract_wrapped mid raw Hw), (extract_wrapped mid ("{" +:+ mid +:+ "}")); [done |].
    exists "", "". by rewrite string_app_nil_r.
  - intros g. unfold parseGradeReply. destruct (decide _); [done |].
    destruct (decoder (extractJSONObject raw)) as [w |] eqn:E; [| done]. destruct (decide _) as [Hv |]; [| done].
    intros [= <-]. cbn [Verdict grade_Criteria grade_Explanation]. split_and!; [done | | apply keep_bounded | by apply blen_truncate |].
    + etrans; [apply length_omap_le |]. rewrite length_take. lia.
    + exists w. split_and!; [done | done |]. generalize (take gradeMaxCriteria (w_Criteria w)). intros l.
      induction l as [| c l IH]; [done |]. rewrite filter_cons. cbn. unfold keep_criterion at 1.
      destruct (decide (TrimSpace (Criterion c) = "")) as [Hc | Hc].
      * by rewrite decide_False by (by intros []).
      * rewrite decide_True by done. cbn. by rewrite IH.
Qed.
End verdicts.

(** ** The grader *)

Definition grader_card_ok (rt : RuntimeDefaults) (a : Agent) (c : AgentCard) `{UnicodeTables} : Prop :=
  Filesystem c = mkFilesystem false false false [] ∧ OutboundAccess c = false ∧ MCP_Servers c = ∅ ∧ card_Skills c = [] ∧
  SystemPrompt (Claude c) = graderSystemPrompt ∧
  ∀ name, ∃ executor, AgentToCard name a rt = inl executor ∧ Runtime c = Runtime executor.

Section confinement.
Context `{UnicodeTables} (baseURL : string).
Context (decode : string → grade_wire + string) (decode_reply : string → string + string).

(** (C25) What a grading call does, for every agent, every metadata and whatever
    the scheduler answers: it registers only the grader's own name, with a card
    that has no file system, no shell, no network, no MCP server and no skill,
    the grader's prompt, and the provider, model and credentials of the agent it
    judges; then, only if that succeeded, it sends one message in a fresh
    conversation, made of the goal, the rubric, the iteration and the deliverable
    alone and bounded in time. A verdict is returned only after both. *)
Theorem grader_confined rt a timeout random registered chatted req sent result :
  Grade baseURL decode decode_reply (newAhsirGrader rt a timeout) random registered chatted req = (sent, result) →
  let name := AhsirGraderName (ag_ID a) (Version a) in
  (∀ n c k, Registering n c k ∈ sent → n = name ∧ card_Name c = name ∧ k = 0%Z ∧ grader_card_ok rt a c) ∧
  (∀ n ctx speaker m d, Chatting n ctx speaker m d ∈ sent →
     n = name ∧ ctx = NewID random PrefixGraderContext ∧ m = graderUserMessage req ∧ (0 < d)%Z ∧
     RegisterAgent baseURL name registered = None) ∧
  (∀ g, result = inl g → length sent = 2 ∧ ∃ reply, Chat decode_reply name chatted = inl reply ∧
     parseGradeReply decode reply = inl g).
Proof.
  intros HG name. unfold Grade, newAhsirGrader in HG. cbn [gr_card gr_name gr_timeout] in HG. fold name in HG.
  destruct (AgentToCard name (grader_agent a) rt) as [c |] eqn:Ec; [| injection HG as <- <-; split_and!; set_solver].
  match type of HG with context [Registering name ?x 0] => set (gc := x) in * end.
  assert (card_Name gc = name ∧ grader_card_ok rt a gc) as Hcard.
  { unfold AgentToCard in Ec. cbv zeta in Ec. cbn [ag_Metadata grader_agent] in Ec.
    destruct (credentials _ _ _) as [[key env] |] eqn:Ecr; [| done]. injection Ec as <-. split; [done |]. split_and!; try done.
    intros n. unfold AgentToCard. cbv zeta. rewrite Ecr. by eexists. }
  assert (0 < if (timeout <=? 0)%Z then 5 * Minute else timeout)%Z as Ht.
  { destruct (_ <=? _)%Z eqn:E; [by compute | bool_to_prop; lia]. }
  destruct (RegisterAgent baseURL name registered) eqn:Er; [injection HG as <- <-; split_and!; [| | done] |].
  - intros n c' k [= -> -> ->]%list_elem_of_singleton. by destruct Hcard.
  - by intros n ctx sp m d Hin%list_elem_of_singleton.
  - destruct (Chat decode_reply name chatted) as [reply | err] eqn:Ech; injection HG as <- <-; cbn [app].
    all: split_and!; [intros n c' k | intros n ctx sp m d | intros g Hg].
    all: try (rewrite elem_of_cons, list_elem_of_singleton; intros [[= ] | [= ]]; subst; by destruct Hcard).
    + split; [done |]. by exists reply.
    + done.
Qed.

(** Although its card has none of the agent's tools, a grader keeps the
    lifecycle hooks its metadata configures: an initialization prompt runs in
    every grading conversation. *)
Lemma grader_keeps_lifecycle rt a timeout c :
  gr_card (newAhsirGrader rt a timeout) = inl c → card_Lifecycle c = lifecycleFromMetadata (ag_Metadata a).
Proof.
  unfold newAhsirGrader, AgentToCard. cbn [gr_card]. cbv zeta. cbn [ag_Metadata grader_agent].
  destruct (credentials _ _ _) as [[key env] |]; [| done]. by intros [= <-].
Qed.
End confinement.

(** ** Examples *)

#[local] Existing Instance ascii_tables.

Definition sample_agent : Agent :=
  mkAgent "agent" (NewID sample_random PrefixAgent) 2 "coder" (mkModel "claude-x" "") "be brief" "" [] []
    [mkMCPServer "url" "git" "https://git.example"]
    {[ "runtime_api_key_env" := " MOONSHOT_API_KEY "; "shell_access" := "true"; "lifecycle_initialize_enabled" := "True" ]} 0 0 None.

Definition sample_defaults : RuntimeDefaults := mkDefaults "anthropic" "https://global.example/" "${GLOBAL_API_KEY}".

Definition sample_decoder (obj : string) : grade_wire + string :=
  if decide (obj = "{v}") then inl (mkWire "satisfied" [mkCriterion " tests pass " true ""; mkCriterion " " false "x"] "fine")
  else inr "unexpected".

Definition fenced : string := "```json" +:+ nl +:+ "{v}" +:+ nl +:+ "```" +:+ nl.

Example sample_card :
  match AgentToCard "cma-x-v2" sample_agent sample_defaults with
  | inl c => rt_APIKey (Runtime c) = "${MOONSHOT_API_KEY}" ∧ ShellAccess (Filesystem c) = true ∧
             MCP_Servers c !! "git" = Some ("http", "https://git.example") ∧ ci_Enabled (Initialize (card_Lifecycle c)) = true
  | inr _ => False
  end.
Proof. vm_compute. done. Qed.

Lemma grade_reply_sound_witness :
  parseGradeReply sample_decoder fenced = parseGradeReply sample_decoder "{v}" ∧
  parseGradeReply sample_decoder "{v}" = inl (mkGrade "satisfied" [mkCriterion "tests pass" true ""] "fine").
Proof.
  split; [| by vm_compute]. apply (grade_reply_sound sample_decoder "v" fenced). exists ("```json" +:+ nl), (nl +:+ "```" +:+ nl). done.
Defined.

Definition sample_request : GradeRequest := mkGradeRequest "outc_1" "goal" "rubric" 0 "text".

Lemma grader_confined_witness :
  let '(sent, result) := Grade "http://127.0.0.1:9800" sample_decoder inl (newAhsirGrader sample_defaults sample_agent 0) sample_random
    (Answered 200 "200 OK" "") (Answered 200 "200 OK" fenced) sample_request in
  length sent = 2 ∧ (∀ n c k, Registering n c k ∈ sent → grader_card_ok sample_defaults sample_agent c).
Proof.
  destruct (Grade _ _ _ _ _ _ _ _) as [sent result] eqn:E.
  destruct (grader_confined _ _ _ _ _ _ _ _ _ _ _ _ E) as (H1 & _ & H3). split; [| intros n c k Hc; by apply (H1 n c k)].
  vm_compute in E. injection E as <- <-. done.
Defined.
