(* ===== verification/CmaOutcomeLaws.v ===== *)
(** * What the outcome loop promises

    Every outcome ends once, with the result its iterations deserve, and its
    updates of the store are those under which [CmaStoreLaws] shows that a session
    has at most one active outcome. *)
From S2P Require Import Prelude GoBase GoStrings CmaTypes CmaStore CmaStoreLaws CmaTurn CmaOutcome.
From Stdlib Require Import ZArith Lia.

(** ** What a trace says about one outcome *)

(** The end events, the calls of the grader and the statuses of the session. *)
Inductive obs := OStatus (st : string) | OGrade | OEnd (i : Z) (result : string).

#[export] Instance obs_eq_dec : EqDecision obs.
Proof. solve_decision. Defined.

Definition observe (e : effect) : option obs :=
  match e with
  | Did (OpAppend _ ev) =>
      if decide (ev_Type ev = EvtSpanOutcomeEvaluationEnd) then Some (OEnd (default 0%Z (Iteration ev)) (Result ev)) else None
  | Did (OpStatus _ st _) => Some (OStatus st)
  | Graded _ => Some OGrade
  | _ => None
  end.

Definition observations (l : list effect) : list obs := omap observe l.

(** The entry of the read model after the updates of a trace. *)
Definition update_entry (o : OutcomeEvaluation) (e : effect) : OutcomeEvaluation :=
  match e with Did (OpUpdate now _ _ mutate) => touch_outcome now (mutate o) | _ => o end.

Definition after (o : OutcomeEvaluation) (l : list effect) : OutcomeEvaluation := foldl update_entry o l.

Definition keeps_id (f : OutcomeEvaluation → OutcomeEvaluation) : Prop := ∀ o, oc_OutcomeID (f o) = oc_OutcomeID o.

(** No update revives a terminal outcome or changes its id. *)
Fixpoint fair_updates (o : OutcomeEvaluation) (l : list effect) : Prop :=
  match l with
  | [] => True
  | e :: l =>
      match e with
      | Did (OpUpdate _ _ _ mutate) =>
          oc_OutcomeID (mutate o) = oc_OutcomeID o ∧ (active o = false → active (mutate o) = false)
      | _ => True
      end ∧ fair_updates (update_entry o e) l
  end.

Lemma observations_app l1 l2 : observations (l1 ++ l2) = observations l1 ++ observations l2.
Proof. apply omap_app. Qed.

Lemma after_app o l1 l2 : after o (l1 ++ l2) = after (after o l1) l2.
Proof. apply foldl_app. Qed.

Lemma fair_updates_app l1 : ∀ l2 o, fair_updates o l1 → fair_updates (after o l1) l2 → fair_updates o (l1 ++ l2).
Proof. induction l1 as [| e l1 IH]; intros l2 o; [done |]. cbn. intros [H1 H2] H3. split; [done |]. by apply IH. Qed.

Section loop.
Context `{F : Facade} (ptr : Z) (agentRef : SessionAgent) (ahsirName : string) (id : string).

(** The effects of a loop: on its own record, and updates of its own outcome. *)
Definition loop_effect (e : effect) : Prop :=
  match e with
  | Did (OpAppend p _) | Did (OpStatus p _ _) | Did (OpInFlight p _) => p = ptr
  | Did (OpUpdate _ p id' mutate) => p = ptr ∧ id' = id ∧ keeps_id mutate
  | Did (OpCancelFunc p f) => p = ptr ∧ f = None
  | Asked _ | Graded _ => True
  | _ => False
  end.

(** A Hoare triple over the entry of the outcome. *)
Definition triple {A} (P : OutcomeEvaluation → Prop) (m : M A) (Q : A → list obs → OutcomeEvaluation → Prop) : Prop :=
  appends m (λ r l, Forall loop_effect l ∧ ∀ o, P o → fair_updates o l ∧ Q r (observations l) (after o l)).

Lemma triple_bind {A B} P (m : M A) (f : A → M B) Q R :
  triple P m Q → (∀ x ob, triple (Q x ob) (f x) (λ y ob' o, R y (ob ++ ob') o)) → triple P (m ≫= f) R.
Proof.
  intros Hm Hf. eapply appends_bind; [exact Hm |]. intros x l1 [He1 H1].
  eapply appends_mono; [apply (Hf x (observations l1)) |]. intros y l2 [He2 H2]. split; [by apply Forall_app |].
  intros o Ho. destruct (H1 o Ho) as [F1 Q1]. destruct (H2 _ Q1) as [F2 Q2].
  split; [by apply fair_updates_app |]. by rewrite observations_app, after_app.
Qed.

Lemma triple_ret {A} (P : OutcomeEvaluation → Prop) (x : A) (Q : A → list obs → OutcomeEvaluation → Prop) :
  (∀ o, P o → Q x [] o) → triple P (mret x) Q.
Proof. intros H. apply appends_ret. split; [done |]. intros o Ho. split; [done | by apply H]. Qed.

Lemma triple_mono {A} (P P' : OutcomeEvaluation → Prop) (m : M A) Q Q' :
  triple P m Q → (∀ o, P' o → P o) → (∀ r ob o, Q r ob o → Q' r ob o) → triple P' m Q'.
Proof.
  intros Hm HP HQ. eapply appends_mono; [exact Hm |]. intros r l [He H]. split; [done |].
  intros o Ho. destruct (H o (HP o Ho)) as [H1 H2]. eauto.
Qed.

(** Sequencing after a program with known observations; the continuation may use
    its result, or not. *)
Lemma triple_seq {A B} P (m : M A) (f : A → M B) ob1 P1 R :
  triple P m (λ _ ob o, ob = ob1 ∧ P1 o) → (∀ x, triple P1 (f x) (λ y ob o, R y (ob1 ++ ob) o)) → triple P (m ≫= f) R.
Proof.
  intros Hm Hk. eapply triple_bind; [exact Hm |]. intros x ob. eapply appends_mono; [apply Hk |].
  intros y l [He H]. split; [done |]. intros o [-> Ho]. by apply H.
Qed.

Lemma triple_then {A B} P (m : M A) (k : M B) ob1 P1 R :
  triple P m (λ _ ob o, ob = ob1 ∧ P1 o) → triple P1 k (λ y ob o, R y (ob1 ++ ob) o) → triple P (m ≫= λ _, k) R.
Proof. intros Hm Hk. by eapply triple_seq. Qed.

(** Sequencing after a program whose result does not depend on the trace. *)
Lemma triple_result {A B} P (m : M A) (f : A → M B) x0 ob0 P1 R :
  (∀ tr, fst (m tr) = x0) → triple P m (λ _ ob o, ob = ob0 ∧ P1 o) → triple P1 (f x0) (λ y ob o, R y (ob0 ++ ob) o) →
  triple P (m ≫= f) R.
Proof.
  intros Hx Hm Hk tr. specialize (Hx tr). destruct (Hm tr) as (l1 & E1 & He1 & H1). unfold mbind, M_bind.
  destruct (m tr) as [x tr1]. cbn in Hx, E1. subst x tr1. destruct (Hk (tr ++ l1)) as (l2 & E2 & He2 & H2).
  exists (l1 ++ l2). rewrite E2, app_assoc. split; [done |]. split; [by apply Forall_app |]. intros o Ho.
  destruct (H1 o Ho) as [F1 [Hob Q1]]. destruct (H2 _ Q1) as [F2 Q2]. split; [by apply fair_updates_app |].
  rewrite observations_app, after_app, Hob. exact Q2.
Qed.

(** ** The pieces of the loop *)

Lemma triple_event {A} P ty (f : Event → Event) (k : Event → M A) Q :
  (∀ ev, ev_Type ev = ty → ev_Type (f ev) = ty) → ty ≠ EvtSpanOutcomeEvaluationEnd →
  (∀ ev, triple P (k ev) Q) → triple P (ev ← newEvent ty; _ ← emit ptr (f ev); k ev) Q.
Proof.
  intros Hf Hty Hk. eapply appends_bind; [by apply (appends_newEvent ty (λ ev l, l = [] ∧ ev_Type ev = ty)) |].
  intros ev l1 [-> Hev]. eapply appends_bind; [apply appends_tell |]. intros [] l2 ->.
  eapply appends_mono; [apply (Hk ev) |]. intros x l [He H]. split; [by constructor |].
  intros o Ho. destruct (H o Ho) as [H1 H2]. split; [done |]. cbn. rewrite decide_False; [done |]. by rewrite Hf.
Qed.

Lemma triple_emit P ty (f : Event → Event) :
  (∀ ev, ev_Type ev = ty → ev_Type (f ev) = ty) → ty ≠ EvtSpanOutcomeEvaluationEnd →
  triple P (ev ← newEvent ty; emit ptr (f ev)) (λ _ ob o, ob = [] ∧ P o).
Proof.
  intros Hf Hty. eapply appends_bind; [by apply (appends_newEvent ty (λ ev l, l = [] ∧ ev_Type ev = ty)) |].
  intros ev l1 [-> Hev]. eapply appends_mono; [apply appends_tell |]. intros [] l2 ->. split; [by constructor |].
  intros o Ho. split; [done |]. cbn. rewrite decide_False; [done |]. by rewrite Hf.
Qed.

Lemma triple_end P i start result explanation :
  triple P (emitOutcomeEnd ptr id i start result explanation) (λ _ ob o, ob = [OEnd i result] ∧ P o).
Proof.
  unfold emitOutcomeEnd. eapply appends_bind; [by apply (appends_newEvent _ (λ ev l, l = [] ∧ ev_Type ev = EvtSpanOutcomeEvaluationEnd)) |].
  intros ev l1 [-> Hev]. eapply appends_mono; [apply appends_tell |]. intros [] l2 ->. split; [by constructor |].
  intros o Ho. split; [done |]. cbn. by rewrite decide_True.
Qed.

Lemma triple_status P st : triple P (setStatus ptr st) (λ _ ob o, ob = [OStatus st] ∧ P o).
Proof.
  eapply appends_mono; [apply appends_setStatus |]. intros [] l (t & ->). split; [by constructor |].
  intros o Ho. by split.
Qed.

Lemma triple_idle P : triple P (emitIdle ptr) (λ _ ob o, ob = [OStatus StatusIdle] ∧ P o).
Proof.
  apply (triple_event _ EvtSessionStatusIdle (with_stop (mkStopReason "end_turn" [])) (λ _, setStatus ptr StatusIdle)); [done | done |].
  intros _. apply triple_status.
Qed.

Lemma triple_update (P : OutcomeEvaluation → Prop) mutate :
  keeps_id mutate → (∀ o, P o → active o = false → active (mutate o) = false) →
  triple P (updateOutcome ptr id mutate) (λ _ ob o, ob = [] ∧ ∃ o0 t, P o0 ∧ o = touch_outcome t (mutate o0)).
Proof.
  intros Hid Hfair tr. eexists. split; [done |]. split; [by constructor |]. intros o Ho.
  split; [split; [split; [apply Hid | by apply Hfair] | done] |].
  split; [done |]. cbn. eauto.
Qed.

(** The observations of a turn are its statuses. *)
Lemma turn_observations l :
  Forall (on_session ptr) l → observations l = OStatus <$> statuses l ∧ Forall loop_effect l ∧
  (∀ o, after o l = o ∧ fair_updates o l).
Proof.
  induction 1 as [| e l He _ (IH1 & IH2 & IH3)]; [done |]. destruct e as [[] | |]; try done; cbn.
  - destruct He as [-> He]. rewrite decide_False.
    { split_and!; [done | by constructor |]. intros o. destruct (IH3 o). by split. }
    intros E. rewrite E in He. revert He. by apply (bool_decide_eq_false (_ ∈ _)).
  - rewrite He. split_and!; [by f_equal | by constructor |]. intros o. destruct (IH3 o). by split.
  - rewrite He. split_and!; [done | by constructor |]. intros o. destruct (IH3 o). by split.
  - split_and!; [done | by constructor |]. intros o. destruct (IH3 o). by split.
Qed.

#[local] Abbreviation result_of := (turn_result ptr agentRef ahsirName).

Definition turn_statuses (te : turn_env) : list obs :=
  OStatus StatusRunning :: (if (result_of te).2 is Some _ then [OStatus StatusTerminated] else []).

Lemma triple_turn P te text :
  triple P (executeTurnCore ptr agentRef ahsirName te text)
    (λ r ob o, r = result_of te ∧ ob = turn_statuses te ∧ P o).
Proof.
  intros tr. destruct (appends_executeTurnCore ptr agentRef ahsirName te text tr) as (l & E & [Hst _ _ _ Hs]).
  rewrite turn_result_eq in *. exists l. destruct (turn_observations l Hs) as (Ho & He & Ha).
  split; [done |]. split; [done |]. intros o HP. destruct (Ha o) as [-> Hf]. split_and!; [done | done | | done].
  rewrite Ho, Hst. unfold turn_statuses. by destruct ((result_of te).2).
Qed.

(** ** Grading *)

Definition graded (e : iter_env) : OutcomeGrade + string :=
  if at_ctx (it_first e) then inr canceled_text
  else match at_grade (it_first e) with
       | inl g => inl g
       | inr _ => if at_ctx (it_second e) then inr canceled_text else at_grade (it_second e)
       end.

Definition grade_calls (e : iter_env) : list obs :=
  if at_ctx (it_first e) then []
  else match at_grade (it_first e) with
       | inl _ => [OGrade]
       | inr _ => if at_ctx (it_second e) then [OGrade] else [OGrade; OGrade]
       end.

Lemma triple_heartbeat P i n : triple P (heartbeat ptr id i n) (λ _ ob o, ob = [] ∧ P o).
Proof.
  induction n as [| n IH]; [by apply triple_ret |]. cbn [heartbeat].
  apply (triple_then _ _ _ [] P); [by apply (triple_emit _ EvtSpanOutcomeEvaluationOngoing) | exact IH].
Qed.

Lemma triple_gradeAttempt P oc i rep a :
  oc_OutcomeID oc = id →
  triple P (gradeAttempt ptr oc i rep a) (λ r ob o, r = at_grade a ∧ ob = [OGrade] ∧ P o).
Proof.
  intros Hid. unfold gradeAttempt, gradeOnce. rewrite Hid.
  apply (triple_then _ _ _ [] P); [by apply (triple_emit _ EvtSpanOutcomeEvaluationOngoing) |].
  apply (triple_then _ _ _ [OGrade] P).
  - eapply appends_mono; [apply appends_tell |]. intros [] l ->. split; [by constructor |]. intros o Ho. by split.
  - apply (triple_then _ _ _ [] P); [apply triple_heartbeat |]. apply triple_ret. intros o Ho. by split_and!.
Qed.

Lemma triple_gradeWithRetry P oc i rep e :
  oc_OutcomeID oc = id →
  triple P (gradeWithRetry ptr oc i rep (it_first e) (it_second e)) (λ r ob o, r = graded e ∧ ob = grade_calls e ∧ P o).
Proof.
  intros Hid. unfold gradeWithRetry, graded, grade_calls. destruct (at_ctx (it_first e)); [by apply triple_ret |].
  eapply triple_bind; [by apply triple_gradeAttempt |]. intros [g | m] ob; cbn beta iota.
  - apply triple_ret. by intros o (<- & -> & Ho).
  - destruct (at_ctx (it_second e)); [apply triple_ret; by intros o (<- & -> & Ho) |].
    eapply triple_mono; [by apply (triple_gradeAttempt (λ o, inr m = at_grade (it_first e) ∧ ob = [OGrade] ∧ P o)) | done |].
    by intros r ob' o (-> & -> & <- & -> & Ho).
Qed.

(** ** One iteration *)

Inductive verdict := Interrupted | ExecutorFailed (msg : string) | GraderFailed (msg : string) | Judged (g : OutcomeGrade).

(** What the answers of an iteration amount to. *)
Definition verdict_of (e : iter_env) : verdict :=
  if it_ctx e then Interrupted
  else
    let '(res, err) := result_of (it_turn e) in
    if canceled res || it_ctx_turn e then Interrupted
    else match err with
         | Some msg => ExecutorFailed msg
         | None => if it_ctx_grade e then Interrupted
                   else match graded e with inr m => GraderFailed m | inl g => Judged g end
         end.

(** The result an iteration reports, of [max] iterations. *)
Definition result_for (max : Z) (i : nat) (v : verdict) : string :=
  match v with
  | Interrupted => OutcomeResultInterrupted
  | ExecutorFailed _ | GraderFailed _ => OutcomeResultFailed
  | Judged g =>
      if decide (Verdict g = OutcomeVerdictSatisfied) then OutcomeResultSatisfied
      else if (max <=? Z.of_nat (S i))%Z then OutcomeResultMaxIterationsReached else OutcomeResultNeedsRevision
  end.

(** The turn of an iteration, when there is one, and the calls of the grader. *)
Definition work_of (e : iter_env) : list obs :=
  if it_ctx e then []
  else
    let '(res, err) := result_of (it_turn e) in
    turn_statuses (it_turn e) ++
    (if canceled res || it_ctx_turn e then [] else if err is Some _ then [] else grade_calls e).

(** What follows the end event: the session goes idle, except when its executor
    failed - the turn has terminated it - or the agent has to revise. *)
Definition settle_obs (ack : turn_env) (v : verdict) (result : string) : list obs :=
  match v with
  | ExecutorFailed _ => []
  | _ =>
      if decide (result = OutcomeResultNeedsRevision) then []
      else (if decide (result = OutcomeResultMaxIterationsReached) then turn_statuses ack else []) ++ [OStatus StatusIdle]
  end.

(** The entry of an outcome that has ended. *)
Definition ended (e : iter_env) (result : string) (o : OutcomeEvaluation) : Prop :=
  oc_Result o = result ∧ is_Some (oc_CompletedAt o) ∧
  (∀ g, verdict_of e = Judged g → oc_Explanation o = grade_Explanation g ∧ oc_Criteria o = grade_Criteria g) ∧
  (result = OutcomeResultSatisfied →
   oc_Deliverable o = truncateForOutcome (reply (result_of (it_turn e)).1) outcomeMaxDeliverableBytes).

(** ** The ends of an iteration *)

Definition is_active (o : OutcomeEvaluation) : Prop := active o = true.
Definition is_ended (result : string) (o : OutcomeEvaluation) : Prop := oc_Result o = result ∧ is_Some (oc_CompletedAt o).

Lemma triple_finish (P : OutcomeEvaluation → Prop) mutate result :
  OutcomeTerminal result = true →
  (∀ o, oc_OutcomeID (mutate o) = oc_OutcomeID o ∧ oc_Result (mutate o) = result) →
  triple P (finishOutcome ptr id mutate)
    (λ _ ob o, ob = [] ∧ ∃ o0 t t', P o0 ∧ o = touch_outcome t (set_completed t' (mutate o0))).
Proof.
  intros Hterm Hm tr. destruct (triple_update P (λ o, set_completed (clock (length tr)) (mutate o))) with (tr := tr) as (l & E & He & H).
  { intros o. apply (Hm o). }
  { intros o Ho _. unfold active. cbn. by rewrite (proj2 (Hm o)), Hterm. }
  exists l. split; [exact E |]. split; [exact He |]. intros o Ho. destruct (H o Ho) as [Hf [Hob (o0 & t & HP & Heq)]].
  split; [done |]. split; [done |]. eauto 6.
Qed.

Lemma triple_interrupted P i start :
  triple P (finishOutcomeInterrupted ptr id i start)
    (λ _ ob o, ob = [OEnd (Z.of_nat i) OutcomeResultInterrupted; OStatus StatusIdle] ∧ is_ended OutcomeResultInterrupted o).
Proof.
  apply (triple_then _ _ _ [OEnd (Z.of_nat i) OutcomeResultInterrupted] P); [apply triple_end |].
  apply (triple_then _ _ _ [] (is_ended OutcomeResultInterrupted)).
  - eapply triple_mono; [by apply (triple_finish P _ OutcomeResultInterrupted) | done |].
    intros _ ob o (-> & o0 & t & t' & _ & ->). split; [done |]. split; [done | by eexists].
  - eapply triple_mono; [apply triple_idle | done |]. by intros _ ob o [-> Ho].
Qed.

Lemma triple_fail P i start end_text explanation :
  triple P (failOutcome ptr id i start end_text explanation)
    (λ _ ob o, ob = [OEnd (Z.of_nat i) OutcomeResultFailed] ∧ is_ended OutcomeResultFailed o).
Proof.
  apply (triple_then _ _ _ [OEnd (Z.of_nat i) OutcomeResultFailed] P); [apply triple_end |].
  eapply triple_mono; [by apply (triple_finish P _ OutcomeResultFailed) | done |].
  intros _ ob o (-> & o0 & t & t' & _ & ->). split; [done |]. split; [done | by eexists].
Qed.

(** The entry of an outcome that ended with a grade. *)
Definition is_judged (result : string) (g : OutcomeGrade) (o : OutcomeEvaluation) : Prop :=
  is_ended result o ∧ oc_Explanation o = grade_Explanation g ∧ oc_Criteria o = grade_Criteria g.

Lemma triple_grade P i start result g deliverable :
  OutcomeTerminal result = true →
  triple P (gradeOutcome ptr id i start result g deliverable)
    (λ _ ob o, ob = [OEnd (Z.of_nat i) result] ∧ is_judged result g o ∧
       oc_Deliverable o = truncateForOutcome deliverable outcomeMaxDeliverableBytes).
Proof.
  intros Ht. apply (triple_then _ _ _ [OEnd (Z.of_nat i) result] P); [apply triple_end |].
  eapply triple_mono; [by apply (triple_finish P _ result) | done |].
  intros _ ob o (-> & o0 & t & t' & _ & ->). split; [done |]. split; [| done]. split; [| done]. split; [done | by eexists].
Qed.

Lemma triple_acknowledge result g oc ack :
  oc_OutcomeID oc = id →
  triple (is_judged result g) (acknowledge ptr agentRef ahsirName oc g ack)
    (λ _ ob o, ob = turn_statuses ack ++ [OStatus StatusIdle] ∧ is_judged result g o).
Proof.
  intros Hid. unfold acknowledge. rewrite Hid. eapply triple_bind; [apply triple_turn |]. intros [res err] ob. cbn beta iota.
  apply (triple_then _ _ _ [] (λ o, ob = turn_statuses ack ∧ is_judged result g o)).
  - destruct (_ && _); [| apply triple_ret; by intros o (_ & -> & Ho)].
    eapply triple_mono; [apply (triple_update (λ o, ob = turn_statuses ack ∧ is_judged result g o)); done | by intros o (_ & Ho) |].
    intros _ ob' o (-> & o0 & t & [-> [[H1 H2] [H3 H4]]] & ->). by split_and!.
  - eapply triple_mono; [apply (triple_idle (λ o, ob = turn_statuses ack ∧ is_judged result g o)) | done |]. by intros _ ob' o (-> & -> & Ho).
Qed.

Lemma triple_progress result i :
  OutcomeTerminal result = false →
  triple is_active (updateOutcome ptr id (set_progress result i)) (λ _ ob o, ob = [] ∧ is_active o).
Proof.
  intros Hr. eapply triple_mono; [apply (triple_update is_active) | done |].
  - done.
  - intros o Ho. unfold is_active in Ho. by rewrite Ho.
  - intros _ ob o (-> & o0 & t & _ & ->). split; [done |]. unfold is_active, active. cbn. by rewrite Hr.
Qed.

(** ** An iteration follows its verdict *)

Definition next_grade (result : string) (v : verdict) : option OutcomeGrade :=
  match v with Judged g => if decide (result = OutcomeResultNeedsRevision) then Some g else None | _ => None end.

Definition iteration_post (oc : OutcomeEvaluation) (i : nat) (e : iter_env) (ack : turn_env)
    (r : option OutcomeGrade) (ob : list obs) (o : OutcomeEvaluation) : Prop :=
  let v := verdict_of e in
  let res := result_for (oc_MaxIterations oc) i v in
  ob = work_of e ++ [OEnd (Z.of_nat i) res] ++ settle_obs ack v res ∧
  r = next_grade res v ∧
  if decide (res = OutcomeResultNeedsRevision) then is_active o else ended e res o.

(** The rest of an iteration once the grader has judged. *)
Lemma triple_judged oc i e ack start g :
  oc_OutcomeID oc = id → verdict_of e = Judged g →
  triple is_active
    (if decide (Verdict g = OutcomeVerdictSatisfied) then
       _ ← gradeOutcome ptr id i start OutcomeResultSatisfied g (reply (result_of (it_turn e)).1); _ ← emitIdle ptr; mret None
     else if (oc_MaxIterations oc <=? Z.of_nat (S i))%Z then
       _ ← gradeOutcome ptr id i start OutcomeResultMaxIterationsReached g (reply (result_of (it_turn e)).1);
       _ ← acknowledge ptr agentRef ahsirName oc g ack; mret None
     else
       _ ← emitOutcomeEnd ptr id (Z.of_nat i) start OutcomeResultNeedsRevision (grade_Explanation g);
       _ ← updateOutcome ptr id (set_grade (grade_Explanation g) (grade_Criteria g)); mret (Some g))
    (λ r ob o, iteration_post oc i e ack r (work_of e ++ ob) o).
Proof.
  intros Hid Hv. unfold iteration_post. rewrite Hv. cbn zeta. unfold result_for, settle_obs, next_grade. cbn iota.
  destruct (decide (Verdict g = OutcomeVerdictSatisfied)) as [Hs | Hs]; [| destruct (oc_MaxIterations oc <=? Z.of_nat (S i))%Z].
  - apply (triple_then _ _ _ [OEnd (Z.of_nat i) OutcomeResultSatisfied] (λ o, is_judged OutcomeResultSatisfied g o ∧
      oc_Deliverable o = truncateForOutcome (reply (result_of (it_turn e)).1) outcomeMaxDeliverableBytes)); [by apply triple_grade |].
    eapply (triple_then _ _ _ [OStatus StatusIdle]); [apply triple_idle |]. apply triple_ret.
    intros o ([[H1 H2] [H3 H4]] & Hd). split_and!; [done | done |]. split_and!; try done. intros g'. rewrite Hv. by intros [= <-].
  - apply (triple_then _ _ _ [OEnd (Z.of_nat i) OutcomeResultMaxIterationsReached] (is_judged OutcomeResultMaxIterationsReached g)).
    { eapply triple_mono; [by apply (triple_grade is_active) | done |]. by intros _ ob o (-> & Ho & _). }
    eapply (triple_then _ _ _ (turn_statuses ack ++ [OStatus StatusIdle])); [by apply triple_acknowledge |]. apply triple_ret.
    intros o [[H1 H2] [H3 H4]]. split_and!; [by rewrite app_nil_r | done |]. split_and!; try done. intros g'. rewrite Hv. by intros [= <-].
  - apply (triple_then _ _ _ [OEnd (Z.of_nat i) OutcomeResultNeedsRevision] is_active); [apply triple_end |].
    apply (triple_then _ _ _ [] is_active).
    { eapply triple_mono; [by apply (triple_update is_active) | done |]. intros _ ob o (-> & o0 & t & Ho & ->). by split. }
    apply triple_ret. intros o Ho. by split_and!.
Qed.

Lemma interrupted_post oc i e ack start ob :
  verdict_of e = Interrupted → ob = work_of e →
  triple is_active (_ ← finishOutcomeInterrupted ptr id i start; mret None)
    (λ r ob' o, iteration_post oc i e ack r (ob ++ ob') o).
Proof.
  intros Hv ->. unfold iteration_post. rewrite Hv.
  eapply triple_bind; [apply triple_interrupted |]. intros x ob'. cbn beta. apply triple_ret.
  intros o (-> & [H1 H2]). split_and!; [done | done |]. cbn. split_and!; [done | done | | done]. intros g'. by rewrite Hv.
Qed.

Lemma gradeAttempt_result oc i rep a tr : fst (gradeAttempt ptr oc i rep a tr) = at_grade a.
Proof.
  unfold gradeAttempt, gradeOnce, mbind, M_bind. destruct (emitOutcomeOngoing _ _ _ _) as [u tr1], (tell _ tr1) as [u2 tr2].
  by destruct (heartbeat _ _ _ _ tr2).
Qed.

Lemma gradeWithRetry_result oc i rep e tr :
  fst (gradeWithRetry ptr oc i rep (it_first e) (it_second e) tr) = graded e.
Proof.
  unfold gradeWithRetry, graded. destruct (at_ctx (it_first e)); [done |].
  unfold mbind, M_bind. pose proof (gradeAttempt_result oc i rep (it_first e) tr) as H.
  destruct (gradeAttempt _ _ _ _ _ tr) as [r tr1]. cbn in H. subst r. destruct (at_grade (it_first e)); [done |].
  destruct (at_ctx (it_second e)); [done | apply gradeAttempt_result].
Qed.

Lemma triple_iteration oc i lastGrade e ack :
  oc_OutcomeID oc = id →
  triple is_active (iteration ptr agentRef ahsirName oc i lastGrade e ack) (iteration_post oc i e ack).
Proof.
  intros Hid. unfold iteration. rewrite Hid. cbn zeta.
  pose proof (eq_refl (verdict_of e)) as Hv. unfold verdict_of in Hv at 1.
  pose proof (eq_refl (work_of e)) as Hw. unfold work_of in Hw at 1.
  destruct (it_ctx e) eqn:Hctx; [by apply (interrupted_post _ _ _ _ _ []) |].
  apply (triple_then _ _ _ [] is_active); [by apply triple_progress |].
  apply (triple_result _ _ _ (result_of (it_turn e)) (turn_statuses (it_turn e)) is_active).
  { intros tr. apply turn_result_eq. }
  { eapply triple_mono; [apply triple_turn | done |]. by intros r ob o (_ & -> & Ho). }
  destruct (result_of (it_turn e)) as [res err] eqn:Hres. cbn [fst snd app].
  destruct (canceled res || it_ctx_turn e) eqn:Hcan.
  { apply interrupted_post; [done |]. by rewrite app_nil_r in Hw. }
  destruct err as [msg |].
  { eapply triple_bind; [apply triple_fail |]. intros x ob. cbn beta. apply triple_ret. intros o (-> & [H1 H2]).
    unfold iteration_post. rewrite <- Hv, <- Hw. cbn. rewrite !app_nil_r. split_and!; [done | done |]. split_and!; [done | done | | done].
    intros g. by rewrite <- Hv. }
  apply (triple_seq _ _ _ [] is_active).
  { apply (triple_event _ EvtSpanOutcomeEvaluationStart (with_iteration id (Z.of_nat i)) (λ ev, mret (with_iteration id (Z.of_nat i) ev)));
      [done | done |]. intros ev. by apply triple_ret. }
  intros start. apply (triple_then _ _ _ [] is_active); [by apply triple_progress |].
  apply (triple_result _ _ _ (graded e) (grade_calls e) is_active).
  { intros tr. apply gradeWithRetry_result. }
  { eapply triple_mono; [by apply triple_gradeWithRetry | done |]. by intros r ob o (_ & -> & Ho). }
  eapply (triple_mono is_active _ _ (λ r ob o, iteration_post oc i e ack r (work_of e ++ ob) o));
    [| done | by intros r ob o; rewrite <- Hw, <- app_assoc].
  destruct (it_ctx_grade e); [by apply interrupted_post |]. destruct (graded e) as [g | m].
  - pose proof (triple_judged oc i e ack (ev_ID start) g Hid (eq_sym Hv)) as H. rewrite Hres in H. exact H.
  - eapply triple_seq; [apply triple_fail |]. intros x. eapply triple_then; [apply triple_idle |]. apply triple_ret.
    intros o [H1 H2]. unfold iteration_post. rewrite <- Hv, <- Hw. split_and!; [done | done |]. cbn.
    split_and!; [done | done | | done]. intros g. by rewrite <- Hv.
Qed.

(** ** The whole loop *)

(** What iteration [i] reports. *)
Definition result_at (oc : OutcomeEvaluation) (envs : nat → iter_env) (i : nat) : string :=
  result_for (oc_MaxIterations oc) i (verdict_of (envs i)).

Definition pass (oc : OutcomeEvaluation) (envs : nat → iter_env) (ack : turn_env) (i : nat) : list obs :=
  work_of (envs i) ++ [OEnd (Z.of_nat i) (result_at oc envs i)] ++ settle_obs ack (verdict_of (envs i)) (result_at oc envs i).

(** The loop from [i] stops at [k]. *)
Definition stops_at (oc : OutcomeEvaluation) (envs : nat → iter_env) (i n k : nat) : Prop :=
  i ≤ k < i + n ∧ (∀ j, i ≤ j < k → result_at oc envs j = OutcomeResultNeedsRevision) ∧
  result_at oc envs k ≠ OutcomeResultNeedsRevision.

Lemma stops_exists oc envs n : ∀ i, 0 < n → Z.of_nat (i + n) = oc_MaxIterations oc → ∃ k, stops_at oc envs i n k.
Proof.
  induction n as [| n IH]; intros i Hn Hmax; [lia |].
  destruct (decide (result_at oc envs i = OutcomeResultNeedsRevision)) as [Hr | Hr].
  - destruct (decide (n = 0)) as [-> | Hn0].
    + exfalso. unfold result_at, result_for in Hr. destruct (verdict_of (envs i)); try discriminate Hr.
      case_decide; [discriminate Hr |]. destruct (Z.leb_spec (oc_MaxIterations oc) (Z.of_nat (S i))); [discriminate Hr | lia].
    + destruct (IH (S i)) as (k & Hk & Hj & Hd); [lia | lia |]. exists k. split_and!; [lia | lia | | done].
      intros j Hj'. destruct (decide (j = i)) as [-> | ]; [done | apply Hj; lia].
  - exists i. split_and!; [lia | lia | intros j Hj; lia | done].
Qed.

(** What an iteration returns does not depend on the entry. *)
Lemma iteration_result oc i lastGrade e ack tr :
  oc_OutcomeID oc = id →
  fst (iteration ptr agentRef ahsirName oc i lastGrade e ack tr) =
  next_grade (result_for (oc_MaxIterations oc) i (verdict_of e)) (verdict_of e).
Proof.
  intros Hid. destruct (triple_iteration oc i lastGrade e ack Hid tr) as (l & _ & _ & H).
  by destruct (H (new_outcome "" "" "" 0 0) eq_refl) as [_ (_ & -> & _)].
Qed.

Lemma triple_loop oc envs ack n : ∀ i k lastGrade,
  oc_OutcomeID oc = id → stops_at oc envs i n k →
  triple is_active (outcome_loop ptr agentRef ahsirName oc envs ack n i lastGrade)
    (λ _ ob o, ob = flat_map (pass oc envs ack) (seq i (S k - i)) ∧ ended (envs k) (result_at oc envs k) o).
Proof.
  induction n as [| n IH]; intros i k lastGrade Hid (Hk & Hj & Hd); [lia |]. cbn [outcome_loop].
  replace (S k - i) with (S (k - i)) by lia. cbn [seq flat_map].
  eapply (triple_result _ _ _ _ (pass oc envs ack i) (λ o,
    if decide (result_at oc envs i = OutcomeResultNeedsRevision) then is_active o else ended (envs i) (result_at oc envs i) o)).
  { intros tr. by apply iteration_result. }
  { eapply triple_mono; [by apply triple_iteration | done |]. by intros r ob o (-> & _ & Ho). }
  fold (result_at oc envs i). destruct (decide (k = i)) as [-> | Hne].
  - rewrite Nat.sub_diag. cbn [seq flat_map]. destruct (decide (result_at oc envs i = OutcomeResultNeedsRevision)); [done |].
    assert (next_grade (result_at oc envs i) (verdict_of (envs i)) = None) as ->.
    { unfold next_grade. destruct (verdict_of _); try done. by rewrite decide_False. }
    by apply triple_ret.
  - destruct (decide (result_at oc envs i = OutcomeResultNeedsRevision)) as [Hr | Hr]; [| exfalso; apply Hr, Hj; lia].
    assert (∃ g, next_grade (result_at oc envs i) (verdict_of (envs i)) = Some g) as [g ->].
    { unfold next_grade. destruct (verdict_of (envs i)) eqn:Hv;
        try (unfold result_at, result_for in Hr; rewrite Hv in Hr; discriminate Hr).
      rewrite decide_True by done. eauto. }
    eapply triple_mono; [apply (IH (S i) k (Some g)); [done |] | done |].
    + split_and!; [lia | lia | | done]. intros j Hj'. apply Hj. lia.
    + intros u ob o [-> Ho]. split; [| done]. by replace (S k - S i) with (k - i) by lia.
Qed.

(** ** What is read off the observations *)

Definition ends (ob : list obs) : list (Z * string) :=
  omap (λ x, match x with OEnd i result => Some (i, result) | _ => None end) ob.

Definition grader_calls (ob : list obs) : nat := length (filter (λ x, bool_decide (x = OGrade)) ob).
Definition turns (ob : list obs) : nat := length (filter (λ x, bool_decide (x = OStatus StatusRunning)) ob).
Definition last_status (ob : list obs) : option string :=
  last (omap (λ x, match x with OStatus st => Some st | _ => None end) ob).

Lemma ends_app ob1 ob2 : ends (ob1 ++ ob2) = ends ob1 ++ ends ob2.
Proof. apply omap_app. Qed.
Lemma grader_calls_app ob1 ob2 : grader_calls (ob1 ++ ob2) = grader_calls ob1 + grader_calls ob2.
Proof. unfold grader_calls. by rewrite filter_app, length_app. Qed.
Lemma turns_app ob1 ob2 : turns (ob1 ++ ob2) = turns ob1 + turns ob2.
Proof. unfold turns. by rewrite filter_app, length_app. Qed.

Lemma turn_statuses_facts te :
  ends (turn_statuses te) = [] ∧ grader_calls (turn_statuses te) = 0 ∧ turns (turn_statuses te) = 1.
Proof. unfold turn_statuses. by destruct ((result_of te).2). Qed.

Lemma grade_calls_facts e : ends (grade_calls e) = [] ∧ grader_calls (grade_calls e) ≤ 2 ∧ turns (grade_calls e) = 0.
Proof. unfold grade_calls. repeat case_match; (split_and!; [done | vm_compute; lia | done]). Qed.

Lemma work_facts e : ends (work_of e) = [] ∧ grader_calls (work_of e) ≤ 2 ∧ turns (work_of e) ≤ 1.
Proof.
  unfold work_of. destruct (it_ctx e); [split_and!; [done | vm_compute; lia | vm_compute; lia] |].
  destruct (turn_statuses_facts (it_turn e)) as (A1 & A2 & A3), (grade_calls_facts e) as (B1 & B2 & B3).
  destruct (result_of (it_turn e)) as [res err]. rewrite ends_app, grader_calls_app, turns_app, A1, A2, A3.
  change (grader_calls []) with 0 in *. change (turns []) with 0 in *.
  destruct (canceled res || it_ctx_turn e); [| destruct err]; rewrite ?B1, ?B3;
    change (grader_calls []) with 0; change (turns []) with 0; (split_and!; [done | lia | lia]).
Qed.

Lemma settle_facts ack v result :
  ends (settle_obs ack v result) = [] ∧ grader_calls (settle_obs ack v result) = 0 ∧ turns (settle_obs ack v result) ≤ 1 ∧
  (result = OutcomeResultNeedsRevision → settle_obs ack v result = []).
Proof.
  destruct (turn_statuses_facts ack) as (A1 & A2 & A3). unfold settle_obs.
  destruct v; repeat case_decide; subst; try done; rewrite ?ends_app, ?grader_calls_app, ?turns_app, ?A1, ?A2, ?A3;
    change (turns [OStatus StatusIdle]) with 0; change (turns []) with 0; (split_and!; [done | done | lia | done]).
Qed.

Lemma pass_facts oc envs ack i :
  ends (pass oc envs ack i) = [(Z.of_nat i, result_at oc envs i)] ∧ grader_calls (pass oc envs ack i) ≤ 2 ∧
  turns (pass oc envs ack i) ≤ 2 ∧ (result_at oc envs i = OutcomeResultNeedsRevision → turns (pass oc envs ack i) ≤ 1).
Proof.
  unfold pass. destruct (work_facts (envs i)) as (A1 & A2 & A3).
  destruct (settle_facts ack (verdict_of (envs i)) (result_at oc envs i)) as (B1 & B2 & B3 & B4).
  rewrite !ends_app, !grader_calls_app, !turns_app, A1, B1, B2.
  assert (∀ i r, grader_calls [OEnd i r] = 0 ∧ turns [OEnd i r] = 0) as Hend by by intros.
  destruct (Hend (Z.of_nat i) (result_at oc envs i)) as [-> ->]. split_and!; [done | lia | lia |].
  intros Hr. rewrite (B4 Hr). change (turns []) with 0. lia.
Qed.

Lemma passes_facts oc envs ack n : ∀ i,
  ends (flat_map (pass oc envs ack) (seq i n)) = (λ j, (Z.of_nat j, result_at oc envs j)) <$> seq i n ∧
  grader_calls (flat_map (pass oc envs ack) (seq i n)) ≤ 2 * n ∧
  ((∀ j, i ≤ j < i + n → result_at oc envs j = OutcomeResultNeedsRevision) → turns (flat_map (pass oc envs ack) (seq i n)) ≤ n).
Proof.
  induction n as [| n IH]; intros i; [split_and!; [done | vm_compute; lia | intros _; vm_compute; lia] |].
  cbn [seq flat_map]. destruct (IH (S i)) as (A & B & C), (pass_facts oc envs ack i) as (D & E & _ & G).
  rewrite ends_app, grader_calls_app, turns_app, A, D. split_and!; [done | lia |]. intros Hj.
  specialize (G (Hj i ltac:(lia))). specialize (C (λ j H, Hj j ltac:(lia))). lia.
Qed.

Lemma last_status_app ob st ob' : last_status ob' = Some st → last_status (ob ++ ob') = Some st.
Proof. unfold last_status. rewrite omap_app, last_app. by intros ->. Qed.

(** The iteration that ends the outcome leaves the session idle, or terminated
    when its executor failed. *)
Lemma pass_last_status oc envs ack k :
  result_at oc envs k ≠ OutcomeResultNeedsRevision →
  last_status (pass oc envs ack k) =
    Some (if verdict_of (envs k) is ExecutorFailed _ then StatusTerminated else StatusIdle).
Proof.
  intros Hr. unfold pass. destruct (verdict_of (envs k)) eqn:Hv.
  2:{ cbn [settle_obs]. rewrite app_nil_r. unfold last_status. rewrite omap_app. cbn. rewrite app_nil_r.
      unfold verdict_of in Hv. unfold work_of. destruct (it_ctx (envs k)); [discriminate Hv |].
      unfold turn_statuses. destruct (result_of (it_turn (envs k))) as [res err] eqn:Hres.
      destruct (canceled res || it_ctx_turn (envs k)); [discriminate Hv |].
      destruct err as [m |]; [| destruct (it_ctx_grade (envs k)); [discriminate Hv |]; destruct (graded (envs k)); discriminate Hv].
      done. }
  all: unfold settle_obs; rewrite decide_False by done; rewrite !app_assoc; by apply last_status_app.
Qed.

Lemma result_terminal max i v : result_for max i v ≠ OutcomeResultNeedsRevision → OutcomeTerminal (result_for max i v) = true.
Proof. unfold result_for. destruct v; [done.. |]. repeat case_match; done. Qed.

Lemma revised_judged oc envs j :
  result_at oc envs j = OutcomeResultNeedsRevision → ∃ g, verdict_of (envs j) = Judged g ∧ Verdict g ≠ OutcomeVerdictSatisfied.
Proof.
  unfold result_at, result_for. destruct (verdict_of (envs j)) as [| | | g] eqn:Hv; try discriminate.
  destruct (decide (Verdict g = OutcomeVerdictSatisfied)) as [| Hs]; [discriminate |]. intros _. eauto.
Qed.

Lemma findOutcome_id l oc : findOutcome id l = Some oc → oc_OutcomeID oc = id.
Proof. induction l as [| o l IH]; cbn; [done |]. case_decide; [by intros [= <-] | done]. Qed.

(** The deferred clearing of the cancel function. *)
Lemma triple_deferred {A} (m : M A) P ob0 (P1 : OutcomeEvaluation → Prop) tr :
  triple P m (λ _ ob o, ob = ob0 ∧ P1 o) →
  ∃ l, snd ((_ ← m; store_op (OpCancelFunc ptr None)) tr) = tr ++ l ∧ Forall loop_effect l ∧
    last l = Some (Did (OpCancelFunc ptr None)) ∧
    ∀ o, P o → observations l = ob0 ∧ fair_updates o l ∧ P1 (after o l).
Proof.
  intros Hm. destruct (Hm tr) as (l & E & He & H). unfold mbind, M_bind. destruct (m tr) as [x tr1]. cbn in E |- *. subst tr1.
  exists (l ++ [Did (OpCancelFunc ptr None)]). rewrite app_assoc, last_snoc. split; [done |].
  split; [apply Forall_app; split; [done | by repeat constructor] |]. split; [done |]. intros o Ho.
  destruct (H o Ho) as [H1 [H2 H3]]. rewrite observations_app, after_app, app_nil_r. split_and!; [done | | done].
  by apply fair_updates_app.
Qed.

Lemma outcome_settled e oc tr :
  findOutcome id (oe_outcomes e) = Some oc → (1 ≤ oc_MaxIterations oc)%Z →
  ∃ l k result,
    snd (executeOutcome ptr agentRef ahsirName id e tr) = tr ++ l ∧ Forall loop_effect l ∧
    last l = Some (Did (OpCancelFunc ptr None)) ∧
    (Z.of_nat k < oc_MaxIterations oc)%Z ∧ OutcomeTerminal result = true ∧
    ends (observations l) = ((λ j, (Z.of_nat j, OutcomeResultNeedsRevision)) <$> seq 0 k) ++ [(Z.of_nat k, result)] ∧
    grader_calls (observations l) ≤ 2 * S k ∧ turns (observations l) ≤ k + 2 ∧
    match oe_agent e with
    | inr _ => k = 0 ∧ result = OutcomeResultFailed ∧ last_status (observations l) = Some StatusIdle
    | inl _ =>
        (∀ j, j < k → ∃ g, verdict_of (oe_iter e j) = Judged g ∧ Verdict g ≠ OutcomeVerdictSatisfied) ∧
        result = result_for (oc_MaxIterations oc) k (verdict_of (oe_iter e k)) ∧
        last_status (observations l) =
          Some (if verdict_of (oe_iter e k) is ExecutorFailed _ then StatusTerminated else StatusIdle)
    end ∧
    ∀ o, active o = true → fair_updates o l ∧
      if oe_agent e is inl _ then ended (oe_iter e k) result (after o l) else is_ended result (after o l).
Proof.
  intros Hfind Hmax. pose proof (findOutcome_id _ _ Hfind) as Hid. unfold executeOutcome. rewrite Hfind.
  set (sample := new_outcome "" "" "" 0 0).
  destruct (oe_agent e) as [agent | err].
  - set (envs := oe_iter e). destruct (stops_exists oc envs (Z.to_nat (oc_MaxIterations oc)) 0) as (k & Hk); [lia | lia |].
    destruct (triple_deferred _ _ _ _ tr (triple_loop oc envs (oe_ack e) _ 0 k None Hid Hk)) as (l & E & He & Hl & H).
    destruct Hk as (Hk & Hj & Hd). destruct (H sample eq_refl) as [Hob _].
    exists l, k, (result_at oc envs k). rewrite Hob. replace (S k - 0) with (k + 1) by lia.
    destruct (passes_facts oc envs (oe_ack e) (k + 1) 0) as (A & B & _), (passes_facts oc envs (oe_ack e) k 0) as (_ & _ & C).
    destruct (pass_facts oc envs (oe_ack e) k) as (_ & _ & D & _). split_and!; try done.
    + lia.
    + by apply result_terminal.
    + rewrite A, seq_app, fmap_app. cbn. f_equal. apply list_fmap_ext. intros i j Hi%list_elem_of_lookup_2.
      apply elem_of_seq in Hi. by rewrite Hj by lia.
    + lia.
    + rewrite seq_app, flat_map_app, turns_app. cbn [seq flat_map Nat.add]. rewrite app_nil_r.
      specialize (C (λ j Hj', Hj j ltac:(lia))). lia.
    + intros j Hj'. apply (revised_judged oc envs). apply Hj. lia.
    + rewrite seq_app, flat_map_app. cbn [seq flat_map Nat.add]. rewrite app_nil_r.
      apply last_status_app. by apply pass_last_status.
    + intros o Ho. by destruct (H o Ho) as (_ & ? & ?).
  - assert (triple is_active (_ ← failOutcome ptr id 0 "" ("executor agent unavailable: " +:+ err) ("executor agent unavailable: " +:+ err); emitIdle ptr)
      (λ _ ob o, ob = [OEnd 0 OutcomeResultFailed; OStatus StatusIdle] ∧ is_ended OutcomeResultFailed o)) as Ht.
    { eapply triple_then; [apply triple_fail |]. eapply triple_mono; [apply triple_idle | done |]. by intros u ob o [-> Ho]. }
    destruct (triple_deferred _ _ _ _ tr Ht) as (l & E & He & Hl & H). exists l, 0, OutcomeResultFailed.
    destruct (H sample eq_refl) as [-> _]. split_and!; try done; try lia; try (vm_compute; lia).
    intros o Ho. by destruct (H o Ho) as (_ & ? & ?).
Qed.

(** (C10) An outcome ends exactly once and with the result it deserves, whatever
    the executor, the grader, the contexts and the agent's registration do. The
    loop stops at an iteration k within the allowed ones; every earlier one was
    judged and not satisfactory; the end events are one "needs_revision" for each
    earlier iteration and then the terminal one of k, which is "satisfied" only
    on a grader's verdict, "max_iterations_reached" only at the last iteration,
    "interrupted" only on a cancellation and "failed" otherwise; the read model
    ends with that result, stamped as completed, with the grade and, when
    satisfied, the deliverable of that iteration. The executor is asked at most
    once per iteration and once more to acknowledge, the grader at most twice per
    iteration; the session is left idle, or terminated when its executor failed;
    and the cancel function is cleared last. *)
Theorem outcome_settles e oc tr :
  findOutcome id (oe_outcomes e) = Some oc → (1 ≤ oc_MaxIterations oc)%Z →
  ∃ l k result,
    snd (executeOutcome ptr agentRef ahsirName id e tr) = tr ++ l ∧ Forall loop_effect l ∧
    last l = Some (Did (OpCancelFunc ptr None)) ∧
    (Z.of_nat k < oc_MaxIterations oc)%Z ∧ OutcomeTerminal result = true ∧
    ends (observations l) = ((λ j, (Z.of_nat j, OutcomeResultNeedsRevision)) <$> seq 0 k) ++ [(Z.of_nat k, result)] ∧
    grader_calls (observations l) ≤ 2 * S k ∧ turns (observations l) ≤ k + 2 ∧
    match oe_agent e with
    | inr _ => k = 0 ∧ result = OutcomeResultFailed ∧ last_status (observations l) = Some StatusIdle
    | inl _ =>
        (∀ j, j < k → ∃ g, verdict_of (oe_iter e j) = Judged g ∧ Verdict g ≠ OutcomeVerdictSatisfied) ∧
        result = result_for (oc_MaxIterations oc) k (verdict_of (oe_iter e k)) ∧
        last_status (observations l) =
          Some (if verdict_of (oe_iter e k) is ExecutorFailed _ then StatusTerminated else StatusIdle)
    end ∧
    ∀ o, active o = true → fair_updates o l ∧
      if oe_agent e is inl _ then ended (oe_iter e k) result (after o l) else is_ended result (after o l).
Proof. apply outcome_settled. Qed.
End loop.

(** ** A sample outcome: revised once - after a grader error - and satisfied *)

Definition sample_grade (verdict : string) : OutcomeGrade := mkGrade verdict [mkCriterion "c" false "fix it"] "why".

Definition sample_attempt (g : OutcomeGrade + string) : attempt := mkAttempt false 1 g.

Definition sample_iter (a1 a2 : OutcomeGrade + string) : iter_env :=
  mkIterEnv false sample_turn false (sample_attempt a1) (sample_attempt a2) false.

Definition sample_outcome : OutcomeEvaluation := new_outcome "o1" "goal" "rubric" 3 0.

Definition sample_outcome_env : outcome_env :=
  mkOutcomeEnv [sample_outcome] (inl sample_agent)
    (λ i, if decide (i = 0) then sample_iter (inr "busy") (inl (sample_grade OutcomeVerdictNeedsRevision))
          else sample_iter (inl (sample_grade OutcomeVerdictSatisfied)) (inr ""))
    sample_turn.

Lemma outcome_settles_witness :
  let tr := snd (executeOutcome (F := sample_facade) 0 sample_ref "agent_1-v1" "o1" sample_outcome_env []) in
  ends (observations tr) = [(0%Z, OutcomeResultNeedsRevision); (1%Z, OutcomeResultSatisfied)] ∧
  grader_calls (observations tr) = 3 ∧ last_status (observations tr) = Some StatusIdle ∧
  is_Some (oc_CompletedAt (after sample_outcome tr)) ∧ oc_Deliverable (after sample_outcome tr) = "done".
Proof.
  intros tr. destruct (outcome_settles (F := sample_facade) 0 sample_ref "agent_1-v1" "o1" sample_outcome_env sample_outcome [])
    as (l & k & result & E & _ & _ & _ & _ & _ & _ & _ & _ & Ho); [reflexivity | vm_compute; discriminate |].
  destruct (Ho sample_outcome eq_refl) as (_ & _ & Hc & _). change ([] ++ l) with l in E. subst l. fold tr in Hc.
  split_and!; [vm_compute; reflexivity.. | exact Hc | vm_compute; reflexivity].
Defined.
