(* ===== verification/CmaOutcomeFair.v ===== *)
(** * The outcome loop against the store

    The loop's updates are fair in the sense of [CmaStoreLaws] at every store they
    meet, whatever other requests and loops do in between; and recovery at startup
    leaves no outcome active. *)
From S2P Require Import Prelude GoBase GoStrings CmaTypes CmaStore CmaStoreLaws CmaTurn CmaOutcome CmaOutcomeLaws.
From Stdlib Require Import ZArith Lia.

(** ** The entry of an outcome in a list *)

(** The last entry with the id, which is the one [UpdateOutcome] changes. *)
Definition entry_of (id : string) (l : list OutcomeEvaluation) : option OutcomeEvaluation :=
  last (filter (λ o, oc_OutcomeID o = id) l).

#[global] Arguments entry_of : simpl never.

Lemma entry_of_app id l1 l2 :
  entry_of id (l1 ++ l2) = match entry_of id l2 with Some o => Some o | None => entry_of id l1 end.
Proof. unfold entry_of. by rewrite filter_app, last_app. Qed.

Lemma entry_of_single id o : entry_of id [o] = if decide (oc_OutcomeID o = id) then Some o else None.
Proof. unfold entry_of. rewrite filter_cons. by case_decide. Qed.

Lemma outcome_index_app id l1 : ∀ l2 i idx,
  outcome_index id i idx (l1 ++ l2) = outcome_index id (i + length l1) (outcome_index id i idx l1) l2.
Proof.
  induction l1 as [| o l1 IH]; intros l2 i idx; cbn; [by rewrite Nat.add_0_r |].
  rewrite IH. by replace (i + S (length l1)) with (S i + length l1) by lia.
Qed.

(** The index found is that of the entry. *)
Lemma outcome_index_entry id l :
  match outcome_index id 0 None l with
  | Some i => l !! i = entry_of id l ∧ is_Some (entry_of id l) ∧ entry_of id (drop (S i) l) = None
  | None => entry_of id l = None
  end.
Proof.
  induction l as [| o l IH] using rev_ind; [done |]. rewrite outcome_index_app, entry_of_app, entry_of_single. cbn.
  destruct (decide (oc_OutcomeID o = id)).
  - split_and!; [by rewrite list_lookup_middle | by eexists |]. rewrite drop_ge; [done | rewrite length_app; cbn; lia].
  - destruct (outcome_index id 0 None l) as [i |]; [| done]. destruct IH as (H1 & [x Hx] & H3).
    assert (i < length l) by (apply (lookup_lt_Some l i x); congruence).
    split_and!; [by rewrite lookup_app_l | by eexists |].
    rewrite drop_app_le by lia. rewrite entry_of_app, entry_of_single, decide_False by done. done.
Qed.

(** Changing the entry, or an entry with another id. *)
Lemma entry_of_alter id id' f l i :
  keeps_id f → outcome_index id' 0 None l = Some i →
  entry_of id (alter f i l) = if decide (id' = id) then f <$> entry_of id l else entry_of id l.
Proof.
  intros Hf Hi. pose proof (outcome_index_entry id' l) as H. rewrite Hi in H. destruct H as (H1 & [o Ho] & H3).
  rewrite Ho in H1. assert (oc_OutcomeID o = id') as Hid.
  { unfold entry_of in Ho. apply last_Some_elem_of in Ho. by apply list_elem_of_filter in Ho as [? _]. }
  assert (length (take i l) = i) as Hlen by (apply length_take_le; apply lookup_lt_Some in H1; lia).
  rewrite <- (take_drop_middle l i o H1). generalize dependent (take i l). intros l1 Hlen. revert H3. generalize (drop (S i) l).
  intros l2 H3. rewrite alter_app_r_alt, Hlen, Nat.sub_diag by lia. cbn [alter list_alter].
  rewrite !(cons_middle _ l1), !entry_of_app, !entry_of_single, Hf, Hid.
  destruct (decide (id' = id)) as [<- |]; [by rewrite H3 | done].
Qed.

(** ** Operations that are not the loop's *)

Definition foreign (ptr : Z) (id : string) (o : op) : Prop :=
  match o with
  | OpUpdate _ p id' mutate => (p ≠ ptr ∨ id' ≠ id) ∧ keeps_id mutate
  | OpBegin _ p oc _ => oc_OutcomeID oc ≠ id
  | _ => True
  end.

Section fair.
Context (Marshal : persisted → option string) (range : gmap string Z → list (string * Z)).

Definition entry (s : Store) (ptr : Z) (id : string) : option OutcomeEvaluation :=
  r ← heap s !! ptr; entry_of id (OutcomeEvaluations (r_Session r)).

Lemma entry_save s ptr id : entry (fst (saveLocked Marshal s)) ptr id = entry s ptr id.
Proof. by destruct (saveLocked_file Marshal s) as [f ->]. Qed.

Lemma entry_record s ptr p r r' id ags envs m ch n f :
  heap s !! p = Some r →
  (ptr = p → entry_of id (OutcomeEvaluations (r_Session r')) = entry_of id (OutcomeEvaluations (r_Session r))) →
  entry (mkStore ags envs m (<[p := r']> (heap s)) ch n f) ptr id = entry s ptr id.
Proof.
  intros Hr He. unfold entry. cbn. destruct (decide (p = ptr)) as [-> | Hne].
  - rewrite lookup_insert_eq, Hr. cbn. by apply He.
  - by rewrite lookup_insert_ne.
Qed.

Lemma entry_update_session f p s ptr id :
  (∀ x, OutcomeEvaluations (f x) = OutcomeEvaluations x) → entry (fst (update_session Marshal p f s)) ptr id = entry s ptr id.
Proof.
  intros Hf. unfold update_session, persist. destruct (heap s !! p) as [r |] eqn:Hr; [| done]. rewrite entry_save.
  apply (entry_record s ptr p r); [done |]. intros _. cbn. by rewrite Hf.
Qed.

Lemma entry_begin now p oc cancel s ptr id :
  oc_OutcomeID oc ≠ id → entry (fst (fst (beginOutcome Marshal now p oc cancel s))) ptr id = entry s ptr id.
Proof.
  intros Hoc. unfold beginOutcome, persist. destruct (heap s !! p) as [r |] eqn:Hr; [| done].
  destruct (outcome_active _); [done |]. rewrite fst_pair_bind. cbn [fst]. rewrite entry_save.
  apply (entry_record s ptr p r); [done |]. intros _. destruct cancel; cbn;
    by rewrite entry_of_app, entry_of_single, decide_False.
Qed.

Lemma entry_of_touch now mutate l i id id' :
  keeps_id mutate → outcome_index id' 0 None l = Some i →
  entry_of id (alter (λ o, touch_outcome now (mutate o)) i l) =
  if decide (id' = id) then (λ o, touch_outcome now (mutate o)) <$> entry_of id l else entry_of id l.
Proof. intros Hm Hi. apply entry_of_alter; [| done]. intros o. apply Hm. Qed.

(** The loop's own update. *)
Lemma entry_update now p id' mutate s ptr id :
  keeps_id mutate →
  entry (fst (fst (UpdateOutcome Marshal now p id' mutate s))) ptr id =
  if decide (p = ptr ∧ id' = id) then (λ o, touch_outcome now (mutate o)) <$> entry s ptr id else entry s ptr id.
Proof.
  intros Hm. unfold UpdateOutcome, persist. destruct (heap s !! p) as [r |] eqn:Hr.
  - pose proof (outcome_index_entry id' (OutcomeEvaluations (r_Session r))) as Hix.
    destruct (outcome_index id' 0 None _) as [i |] eqn:Hi.
    + rewrite fst_pair_bind. cbn [fst]. rewrite entry_save. case_decide as Hd.
      * destruct Hd as [-> ->]. unfold entry. cbn. rewrite lookup_insert_eq, Hr. cbn.
        rewrite (entry_of_touch _ _ _ _ _ id) by done. by rewrite decide_True.
      * apply (entry_record s ptr p r); [done |]. intros <-. cbn. rewrite (entry_of_touch _ _ _ _ _ id') by done.
        rewrite decide_False; [done |]. intros ->. by apply Hd.
    + case_decide as Hd; [| done]. destruct Hd as [-> ->]. cbn [fst]. unfold entry. rewrite !Hr. cbn. by rewrite Hix.
  - case_decide as Hd; [| done]. destruct Hd as [-> _]. cbn [fst]. unfold entry. by rewrite !Hr.
Qed.

Lemma entry_reconcile newIDs now s ptr id :
  visits range → wf s →
  entry (fst (fst (ReconcileInterruptedSessions Marshal range newIDs now s))) ptr id = entry s ptr id.
Proof.
  intros Hv W. assert (entry (reconciled range newIDs now s) ptr id = entry s ptr id) as E.
  { destruct (reconcile_fold newIDs now _ (heap s) 0 (visits_pointers range s Hv W)) as (A & B & _).
    unfold entry. cbn [reconciled heap]. destruct (decide (ptr ∈ (range (sessions s)).*2)) as [Hin | Hni]; [| by rewrite A].
    apply list_elem_of_fmap in Hin as ([k q] & -> & Hin). cbn [snd]. rewrite (B k q Hin).
    destruct (heap s !! q) as [r |]; [| done]. cbn. unfold settle. by destruct (interrupted _). }
  rewrite Reconcile_unfold. cbn zeta. destruct (_ =? 0)%Z; cbn [fst]; [done | by rewrite entry_save].
Qed.

(** A record that keeps its outcomes, with any change of the channels. *)
Lemma entry_same s ptr id p r r' ch n f :
  heap s !! p = Some r → OutcomeEvaluations (r_Session r') = OutcomeEvaluations (r_Session r) →
  entry (mkStore (agents s) (environments s) (sessions s) (<[p := r']> (heap s)) ch n f) ptr id = entry s ptr id.
Proof. intros Hr E. apply (entry_record s ptr p r); [done |]. by rewrite E. Qed.

Lemma entry_foreign o s ptr id x :
  visits range → wf s → foreign ptr id o → entry s ptr id = Some x → entry (apply Marshal range s o) ptr id = Some x.
Proof.
  intros Hv W Hf Hx. rewrite <- Hx. destruct o; cbn [apply]; try (by apply entry_update_session).
  - unfold PutAgentVersion. by rewrite entry_save.
  - unfold ArchiveAgent. destruct (agents s !! id0); [| done]. cbn [fst]. by rewrite entry_save.
  - unfold PutEnvironment. by rewrite entry_save.
  - unfold DeleteEnvironment. destruct (environments s !! id0); [| done]. rewrite fst_pair_bind. cbn [fst]. by rewrite entry_save.
  - unfold entry. cbn. rewrite lookup_insert_ne; [done |]. intros <-. unfold entry in Hx.
    destruct (heap s !! next s) as [r |] eqn:Hr; [| done]. pose proof (wf_heap s W _ (mk_is_Some _ _ Hr)). lia.
  - unfold PutSession. destruct (heap s !! ptr0); [by rewrite entry_save | done].
  - unfold DeleteSession. destruct (sessions s !! id0); [| done]. rewrite fst_pair_bind. cbn [fst]. by rewrite entry_save.
  - unfold AppendEvent, persist. rewrite entry_save. unfold Append. destruct (heap s !! ptr0) as [r |] eqn:Hr; [| done].
    by eapply entry_same.
  - unfold SetInFlightTask. destruct (heap s !! ptr0) as [r |] eqn:Hr; [| done]. by eapply entry_same.
  - unfold SetOutcomeCancel. destruct (heap s !! ptr0) as [r |] eqn:Hr; [| done]. by eapply entry_same.
  - by apply entry_begin.
  - destruct Hf as [Hne Hk]. rewrite entry_update by done. rewrite decide_False; [done |]. intros [-> ->]. by destruct Hne.
  - by apply entry_reconcile.
  - unfold SaveSnapshot. by rewrite entry_save.
  - unfold Subscribe. destruct (heap s !! ptr0) as [r |] eqn:Hr; [| done]. by eapply entry_same.
  - unfold Unsubscribe. destruct (heap s !! ptr0) as [r |] eqn:Hr; [| done]. by eapply entry_same.
  - unfold receive. by destruct (channels s !! ch) as [[| ev buf] |].
Qed.

(** ** The loop among other operations *)

Definition ops_of (l : list effect) : list op := omap (λ e, if e is Did o then Some o else None) l.

(** A history in which every operation is marked as the loop's or not. *)
Definition loop_ops (h : list (bool * op)) : list op := omap (λ x : bool * op, if x.1 then Some x.2 else None) h.

(** One operation of the loop. *)
Lemma loop_op_step o s ptr id x :
  visits range → wf s → loop_effect ptr id (Did o) → entry s ptr id = Some x →
  fair_updates x [Did o] →
  fair s o ∧ entry (apply Marshal range s o) ptr id = Some (update_entry x (Did o)).
Proof.
  intros Hv W He Hx Hf. destruct o; try done; try (split; [done |]; by apply (entry_foreign _ s ptr id x)).
  destruct He as (-> & -> & Hk). destruct Hf as [[_ Hact] _]. split.
  - intros r i oc Hr Hi Hoc. pose proof (outcome_index_entry id (OutcomeEvaluations (r_Session r))) as H. rewrite Hi in H.
    destruct H as [H _]. unfold entry in Hx. rewrite Hr in Hx. cbn in Hx. rewrite Hx in H. rewrite Hoc in H. injection H as ->.
    split; [apply Hk | done].
  - cbn [apply update_entry]. rewrite entry_update by done. rewrite decide_True by done. by rewrite Hx.
Qed.

Lemma ops_of_effects l o l' :
  ops_of l = o :: l' → ∃ l1 l2, l = l1 ++ Did o :: l2 ∧ ops_of l2 = l' ∧ ∀ x, after x l1 = x ∧ (fair_updates x l → fair_updates x [Did o] ∧ fair_updates (update_entry x (Did o)) l2).
Proof.
  induction l as [| e l IH]; cbn; [done |]. destruct e as [o' | |]; cbn.
  - intros [= -> <-]. exists [], l. split_and!; [done | done |]. intros x. split; [done |]. by intros [H1 H2].
  - intros E. destruct (IH E) as (l1 & l2 & -> & E2 & H). eexists (_ :: l1), l2. split_and!; [done | done |].
    intros x. destruct (H x) as [H1 H2]. split; [done |]. cbn. intros [_ H3]. by apply H2.
  - intros E. destruct (IH E) as (l1 & l2 & -> & E2 & H). eexists (_ :: l1), l2. split_and!; [done | done |].
    intros x. destruct (H x) as [H1 H2]. split; [done |]. cbn. intros [_ H3]. by apply H2.
Qed.

(** Every operation of the loop is fair where it happens, and the entry is what
    the loop's own updates make of it. *)
Lemma loop_fair_run h : ∀ s l ptr id x,
  visits range → wf s → loop_ops h = ops_of l → Forall (loop_effect ptr id) l → fair_updates x l →
  (∀ o, (false, o) ∈ h → foreign ptr id o) → entry s ptr id = Some x →
  (∀ h1 o h2, h = h1 ++ (true, o) :: h2 → fair (run Marshal range (snd <$> h1) s) o) ∧
  entry (run Marshal range (snd <$> h) s) ptr id = Some (after x l).
Proof.
  induction h as [| [b o] h IH]; intros s l ptr id x Hv W Hops He Hf Hfor Hx.
  { split; [by intros [] |]. cbn in *. symmetry in Hops. assert (∀ y, after y l = y) as Hafter; [| by rewrite Hafter].
    revert Hops. clear. induction l as [| [] l IH]; cbn; intros H y; [done | discriminate H | by apply IH | by apply IH]. }
  destruct b.
  - cbn in Hops. symmetry in Hops. destruct (ops_of_effects l o _ Hops) as (l1 & l2 & -> & E2 & H).
    destruct (H x) as [Ha Hfs]. destruct (Hfs Hf) as [Hf1 Hf2]. apply Forall_app in He as [_ He]. apply Forall_cons in He as [He1 He2].
    destruct (loop_op_step o s ptr id x Hv W He1 Hx Hf1) as [Hfair Hx'].
    destruct (IH (apply Marshal range s o) l2 ptr id (update_entry x (Did o))) as [IH1 IH2]; try done.
    { by apply apply_wf. }
    { intros o' Ho'. apply Hfor. by right. }
    split; [| by rewrite after_app, Ha].
    intros [| [b' o1] h1] o' h2 E; cbn in E; [by injection E as <- _ |]. injection E as <- <- ->. cbn. by eapply IH1.
  - cbn in Hops. assert (entry (apply Marshal range s o) ptr id = Some x) as Hx'.
    { apply entry_foreign; try done. apply Hfor. by left. }
    destruct (IH (apply Marshal range s o) l ptr id x) as [IH1 IH2]; try done.
    { by apply apply_wf. }
    { intros o' Ho'. apply Hfor. by right. }
    split; [| done]. intros [| [b' o1] h1] o' h2 E; cbn in E; [discriminate E |]. injection E as <- <- ->. cbn. by eapply IH1.
Qed.

(** (C11) The outcome loop keeps to the contract of the store under every
    interleaving. Take any history in which the loop's operations occur in their
    order, with any other operations in between - requests on any session, other
    loops, recovery - that do not update this outcome or begin one with its id:
    every operation of the loop is fair at the store it meets, and when the loop
    is over the store's entry of the outcome is terminal and completed. *)
Theorem outcome_loop_fair `{F : Facade} ptr agentRef ahsirName id e oc tr s x h :
  visits range → wf s → findOutcome id (oe_outcomes e) = Some oc → (1 ≤ oc_MaxIterations oc)%Z →
  entry s ptr id = Some x → active x = true →
  loop_ops h = ops_of (drop (length tr) (snd (executeOutcome ptr agentRef ahsirName id e tr))) →
  (∀ o, (false, o) ∈ h → foreign ptr id o) →
  (∀ h1 o h2, h = h1 ++ (true, o) :: h2 → fair (run Marshal range (snd <$> h1) s) o) ∧
  ∃ x', entry (run Marshal range (snd <$> h) s) ptr id = Some x' ∧ active x' = false ∧ is_Some (oc_CompletedAt x').
Proof.
  intros Hv W Hfind Hmax Hx Ha Hops Hfor.
  destruct (outcome_settled ptr agentRef ahsirName id e oc tr Hfind Hmax) as (l & k & result & E & He & _ & _ & Ht & _ & _ & _ & _ & Ho).
  rewrite E, drop_app_length in Hops. destruct (Ho x Ha) as [Hf Hend].
  destruct (loop_fair_run h s l ptr id x Hv W Hops He Hf Hfor Hx) as [H1 H2]. split; [done |].
  exists (after x l). split; [done |]. unfold active.
  assert (is_ended result (after x l)) as [-> Hc]; [| by rewrite Ht].
  destruct (oe_agent e); [| done]. by destruct Hend as (? & ? & _).
Qed.

(** ** Recovery of the outcomes *)

Definition failed_entry (t t' : time) (o : OutcomeEvaluation) : OutcomeEvaluation :=
  touch_outcome t (set_completed t' (set_end OutcomeResultFailed recover_message o)).

Lemma run_app l1 l2 s : run Marshal range (l1 ++ l2) s = run Marshal range l2 (run Marshal range l1 s).
Proof. unfold run. by rewrite foldl_app. Qed.

(** What recovery writes for the outcomes [l] of the record [ptr]: for each one
    still active, in order, an event and the failure. *)
Inductive recovery (ptr : Z) : list OutcomeEvaluation → list effect → Prop :=
| recovery_nil : recovery ptr [] []
| recovery_skip o l tr : active o = false → recovery ptr l tr → recovery ptr (o :: l) tr
| recovery_fail o l tr ev t t' :
    active o = true → recovery ptr l tr →
    recovery ptr (o :: l)
      (Did (OpAppend ptr ev) ::
       Did (OpUpdate t ptr (oc_OutcomeID o) (λ o, set_completed t' (set_end OutcomeResultFailed recover_message o))) :: tr).

Lemma appends_recover `{F : Facade} ptr l : appends (recover_record ptr l) (λ _ tr, recovery ptr l tr).
Proof.
  induction l as [| o l IH]; [apply appends_ret; constructor |]. cbn [recover_record].
  destruct (OutcomeTerminal (oc_Result o)) eqn:Ho.
  - eapply appends_bind; [by apply (appends_ret _ (λ _ tr, tr = [])) |]. intros u tr ->.
    eapply appends_mono; [exact IH |]. intros u' tr' H. constructor; [| done]. unfold active. by rewrite Ho.
  - eapply (appends_bind _ _ (λ _ tr, ∃ ev t t', tr = [Did (OpAppend ptr ev);
      Did (OpUpdate t ptr (oc_OutcomeID o) (λ o, set_completed t' (set_end OutcomeResultFailed recover_message o)))])).
    + intros tr. unfold emitOutcomeEnd, finishOutcome, updateOutcome, emit, store_op, tell, newEvent, mbind, M_bind. cbn [fst snd].
      rewrite <- app_assoc. eexists. split; [done |]. by do 3 eexists.
    + intros u tr (ev & t & t' & ->). eapply appends_mono; [exact IH |]. intros u' tr' H. cbn. constructor; [| done].
      unfold active. by rewrite Ho.
Qed.

Definition must_recover (l : list OutcomeEvaluation) (id : string) : bool :=
  existsb (λ o, active o && bool_decide (oc_OutcomeID o = id)) l.

(** The entries of the record afterwards, and of the other records. *)
Lemma recovery_entries ptr l tr : ∀ s,
  visits range → wf s → recovery ptr l tr →
  wf (run Marshal range (ops_of tr) s) ∧
  (∀ q id x, q ≠ ptr → entry s q id = Some x → entry (run Marshal range (ops_of tr) s) q id = Some x) ∧
  (∀ id x, entry s ptr id = Some x →
     ∃ x', entry (run Marshal range (ops_of tr) s) ptr id = Some x' ∧
       if must_recover l id then active x' = false else x' = x).
Proof.
  intros s Hv W Hrec. revert s W. induction Hrec as [| o l tr Ho Hrec IH | o l tr ev t t' Ho Hrec IH]; intros s W.
  - split_and!; [done | done |]. intros id x Hx. by exists x.
  - destruct (IH s W) as (A & B & C). split_and!; [done | done |]. intros id x Hx. cbn. rewrite Ho. by apply C.
  - cbn [ops_of omap list_omap run foldl]. set (s1 := apply Marshal range s (OpAppend ptr ev)).
    set (m := λ o, set_completed t' (set_end OutcomeResultFailed recover_message o)).
    set (s2 := apply Marshal range s1 (OpUpdate t ptr (oc_OutcomeID o) m)).
    assert (wf s1) as W1 by by apply apply_wf. assert (wf s2) as W2 by by apply apply_wf.
    destruct (IH s2 W2) as (A & B & C). split; [exact A |]. split.
    + intros q id x Hq Hx. apply B; [done |]. apply entry_foreign; [done | done | by split; [left; congruence |] |].
      by apply entry_foreign.
    + intros id x Hx. assert (entry s1 ptr id = Some x) as H1 by by apply entry_foreign. cbn [must_recover existsb].
      rewrite Ho. cbn [andb]. destruct (decide (oc_OutcomeID o = id)) as [<- | Hne].
      * rewrite bool_decide_eq_true_2 by done. cbn [orb].
        assert (entry s2 ptr (oc_OutcomeID o) = Some (touch_outcome t (m x))) as H2.
        { unfold s2. cbn [apply]. rewrite entry_update by done. rewrite decide_True by done. by rewrite H1. }
        destruct (C _ _ H2) as (x' & Hx' & Hd). exists x'. split; [done |].
        fold (must_recover l (oc_OutcomeID o)) in Hd. destruct (must_recover _ _); [done | by rewrite Hd].
      * rewrite bool_decide_eq_false_2 by done. cbn [orb]. apply C. apply entry_foreign; [done | done | by split; [right |] | done].
Qed.

(** With distinct ids the entry of an id is the only one. *)
Lemma must_recover_entry l id x :
  NoDup (oc_OutcomeID <$> l) → entry_of id l = Some x → must_recover l id = active x.
Proof.
  intros Hnd Hx. assert (x ∈ l ∧ oc_OutcomeID x = id) as [Hin <-].
  { unfold entry_of in Hx. apply last_Some_elem_of in Hx. by apply list_elem_of_filter in Hx as [? ?]. }
  clear Hx. apply eq_true_iff_eq. unfold must_recover. rewrite existsb_exists. split.
  - intros (o & Ho%list_elem_of_In & Hb). bool_to_prop. apply list_elem_of_lookup in Ho as [i Hi], Hin as [k Hk].
    assert (i = k) as ->; [| by simplify_eq].
    apply (NoDup_lookup _ _ _ (oc_OutcomeID x) Hnd); rewrite list_lookup_fmap; [by rewrite Hi; cbn; f_equal | by rewrite Hk].
  - intros Ha. exists x. split; [by apply list_elem_of_In |]. by rewrite Ha, bool_decide_eq_true_2.
Qed.

(** The visit of several records. *)
Inductive recoveries (s : Store) : list (string * Z) → list effect → Prop :=
| recoveries_nil : recoveries s [] []
| recoveries_cons sid p r l tr1 tr2 :
    heap s !! p = Some r → recovery p (OutcomeEvaluations (r_Session r)) tr1 → recoveries s l tr2 →
    recoveries s ((sid, p) :: l) (tr1 ++ tr2).

Lemma appends_recover_sessions `{F : Facade} s l :
  (∀ sid p, (sid, p) ∈ l → is_Some (heap s !! p)) → appends (recover_sessions s l) (λ _ tr, recoveries s l tr).
Proof.
  induction l as [| [sid p] l IH]; intros Hl; [apply appends_ret; constructor |]. cbn [recover_sessions].
  destruct (Hl sid p) as [r Hr]; [by left |]. rewrite Hr.
  eapply appends_bind; [apply appends_recover |]. intros u tr1 H1. eapply appends_mono; [apply IH |].
  - intros sid' p' Hin. apply (Hl sid'). by right.
  - intros u' tr2 H2. by econstructor.
Qed.

Lemma recoveries_entries s0 l tr : recoveries s0 l tr → ∀ s,
  visits range → wf s → NoDup l.*2 →
  (∀ p r, p ∈ l.*2 → heap s0 !! p = Some r → NoDup (oc_OutcomeID <$> OutcomeEvaluations (r_Session r))) →
  (∀ p id x, p ∈ l.*2 → entry s0 p id = Some x → entry s p id = Some x) →
  ∀ p id x, entry s p id = Some x →
  ∃ x', entry (run Marshal range (ops_of tr) s) p id = Some x' ∧
    (p ∈ l.*2 → entry s0 p id = Some x → active x' = false ∧ (active x = false → x' = x)) ∧
    (p ∉ l.*2 → x' = x).
Proof.
  induction 1 as [| sid p0 r l tr1 tr2 Hr H1 H2 IH]; intros s Hv W Hnd Hids Heq p id x Hx.
  { exists x. split_and!; [done | cbn; set_solver | done]. }
  cbn in Hnd. apply NoDup_cons in Hnd as [Hni Hnd]. unfold ops_of. rewrite omap_app, run_app. fold (ops_of tr1) (ops_of tr2).
  destruct (recovery_entries p0 _ tr1 s Hv W H1) as (W1 & Hother & Hown). cbn [fmap list_fmap snd] in *.
  specialize (IH (run Marshal range (ops_of tr1) s) Hv W1 Hnd (λ q r' Hq, Hids q r' ltac:(set_solver))).
  assert (∀ p id x, p ∈ l.*2 → entry s0 p id = Some x → entry (run Marshal range (ops_of tr1) s) p id = Some x) as Heq1.
  { intros q id' y Hq Hy. apply Hother; [intros -> ; done |]. apply Heq; [set_solver | done]. }
  specialize (IH Heq1). destruct (decide (p = p0)) as [-> | Hne].
  - destruct (Hown id x Hx) as (x1 & Hx1 & Hd1). destruct (IH p0 id x1 Hx1) as (x' & Hx' & _ & Hd'). exists x'.
    rewrite (Hd' Hni) in *. split_and!; [done | | set_solver]. intros _ Hx0.
    unfold entry in Hx0. rewrite Hr in Hx0. cbn in Hx0.
    rewrite (must_recover_entry _ id x) in Hd1; [| apply (Hids p0); [set_solver | done] | done].
    destruct (active x) eqn:Ha; [by split | by rewrite Hd1].
  - destruct (IH p id x (Hother p id x Hne Hx)) as (x' & Hx' & Hd1 & Hd2). exists x'. split_and!; [done | | set_solver].
    intros Hp. apply Hd1. set_solver.
Qed.

(** Recovery of the outcomes at startup: whatever the store loaded, provided
    the ids of a session's outcomes are distinct, afterwards no outcome of any
    session is active; those that had ended are exactly as they were, so that
    none that was not known to be satisfied is reported as such. *)
Lemma recovery_settles_outcomes `{F : Facade} s tr :
  visits range → wf s →
  (∀ p r, heap s !! p = Some r → NoDup (oc_OutcomeID <$> OutcomeEvaluations (r_Session r))) →
  let s' := run Marshal range (ops_of (drop (length tr) (snd (recoverOutcomes range s tr)))) s in
  ∀ sid p id x, sessions s !! sid = Some p → entry s p id = Some x →
    ∃ x', entry s' p id = Some x' ∧ active x' = false ∧ (active x = false → x' = x).
Proof.
  intros Hv W Hids s' sid p id x Hsid Hx.
  assert (∀ sid p, (sid, p) ∈ range (sessions s) → is_Some (heap s !! p)) as Hl.
  { intros sid' p' Hin. apply (visits_elem range _ _ _ Hv) in Hin. destruct (wf_sess s W sid' p' Hin) as (r & Hr & _). eauto. }
  destruct (appends_recover_sessions s (range (sessions s)) Hl tr) as (l & E & Hrec).
  unfold s', recoverOutcomes. rewrite E, drop_app_length.
  destruct (recoveries_entries s _ l Hrec s Hv W (visits_pointers range s Hv W) (λ p r _, Hids p r) (λ p id x _ H, H) p id x Hx)
    as (x' & Hx' & Hd & _). exists x'. split; [done |]. apply Hd; [| done].
  apply (list_elem_of_fmap_2 snd _ (sid, p)). by apply (visits_elem range).
Qed.
End fair.

(** ** Witnesses *)

(** A store in which the sample outcome has begun. *)
Definition sample_store : Store :=
  run w_marshal map_to_list
    [OpAlloc (w_session "s1" StatusIdle) "agent_1-v1" "ctx"; OpPutSession 0; OpBegin 1 0 sample_outcome (Some 7%Z)] empty_store.

Lemma sample_store_wf : wf sample_store.
Proof. apply run_wf, wf_empty. apply w_visits. Qed.

Definition sample_trace : list effect :=
  snd (executeOutcome (F := sample_facade) 0 sample_ref "agent_1-v1" "o1" sample_outcome_env []).

(** The loop's operations, each followed by a save and by the begin of another
    outcome, which is refused. *)
Definition spread (l : list op) : list (bool * op) :=
  flat_map (λ o, [(true, o); (false, OpSave); (false, OpBegin 5 0 (w_outcome "o2" OutcomeStatePending) None)]) l.

Definition sample_history : list (bool * op) := spread (ops_of sample_trace).

Lemma spread_loop_ops l : loop_ops (spread l) = l.
Proof.
  induction l as [| o l IH]; [done |]. unfold spread in *. cbn [flat_map]. unfold loop_ops. rewrite omap_app.
  cbn [omap list_omap app fst snd]. f_equal. exact IH.
Qed.

Lemma spread_foreign l o : (false, o) ∈ spread l → foreign 0 "o1" o.
Proof.
  intros (o' & _ & Ho)%list_elem_of_In%in_flat_map.
  destruct Ho as [Ho | [Ho | [Ho | []]]]; [discriminate Ho | injection Ho as <-; exact I | injection Ho as <-; discriminate].
Qed.

Lemma outcome_loop_fair_witness :
  ∃ x', entry (run w_marshal map_to_list (snd <$> sample_history) sample_store) 0 "o1" = Some x' ∧ active x' = false ∧
    is_Some (oc_CompletedAt x').
Proof.
  destruct (outcome_loop_fair (F := sample_facade) w_marshal map_to_list 0 sample_ref "agent_1-v1" "o1" sample_outcome_env
    sample_outcome [] sample_store sample_outcome sample_history) as [_ H].
  - apply w_visits.
  - apply sample_store_wf.
  - reflexivity.
  - vm_compute. discriminate.
  - vm_compute. reflexivity.
  - reflexivity.
  - apply spread_loop_ops.
  - apply spread_foreign.
  - exact H.
Defined.

Lemma recovery_settles_outcomes_witness :
  let s' := run w_marshal map_to_list (ops_of (drop 0 (snd (recoverOutcomes (H := sample_facade) map_to_list sample_store [])))) sample_store in
  ∃ x', entry s' 0 "o1" = Some x' ∧ active x' = false.
Proof.
  intros s'. destruct (recovery_settles_outcomes (F := sample_facade) w_marshal map_to_list sample_store [] w_visits sample_store_wf)
    with (sid := "s1") (p := 0%Z) (id := "o1") (x := sample_outcome) as (x' & Hx' & Ha & _).
  - intros p r Hr. destruct (decide (p = 0%Z)) as [-> | Hne].
    + vm_compute in Hr. injection Hr as <-. cbn. apply NoDup_singleton.
    + exfalso. apply Hne.
      assert (dom (heap sample_store) = {[0%Z]}) as Hdom by (vm_compute; reflexivity).
      assert (p ∈ dom (heap sample_store)) as Hp by (by eapply elem_of_dom_2).
      rewrite Hdom in Hp. by apply elem_of_singleton in Hp.
  - vm_compute. reflexivity.
  - vm_compute. reflexivity.
  - exists x'. split; [exact Hx' | exact Ha].
Defined.
