(* ===== verification/CmaHandlers.v ===== *)
(** * The request handlers of the facade ([internal/cmagateway/handlers.go],
      [internal/cmagateway/server.go])

    Every route of the managed-agents surface as a program on the facade's store:
    a handler reads and changes the store, sends requests to the scheduler, hands
    jobs to the session's turn executor, calls cancel functions, and answers with a
    status and a body. The decoded request body (or the decoder's error), the
    random bytes of ids, the clock, the scheduler's answers and the order in which
    a map is visited are the environment's. A handler runs as one program here;
    where the code waits for other goroutines, or where a race matters, the parts
    before and after are definitions of their own. *)
From S2P Require Import Prelude GoBase GoStrings CmaTypes CmaStore CmaStoreLaws CmaCards CmaTurn CmaOutcome.
From Stdlib Require Import ZArith Lia Ascii.

(** ** Requests and responses *)

Record AgentCreateRequest := mkAgentCreate {
  aq_Name : string; aq_Model : ModelConfig; aq_System : string; aq_Description : string; aq_Tools : list ToolDef;
  aq_Skills : list SkillRef; aq_MCPServers : list MCPServer; aq_Metadata : gmap string string;
}.

Record EnvironmentCreateRequest := mkEnvCreate {
  eq_Name : string; eq_Description : string; eq_Config : string; eq_Metadata : gmap string string;
}.

(** An absent field is [None]; an absent [config] is empty. *)
Record EnvironmentUpdateRequest := mkEnvUpdate {
  eu_Name : option string; eu_Description : option string; eu_Config : string; eu_Metadata : option (gmap string string);
}.

Record AgentRef := mkAgentRef { ref_Type : string; ref_ID : string; ref_Version : Z }.

Record SessionCreateRequest := mkSessionCreate {
  sq_Agent : AgentRef; sq_EnvironmentID : string; sq_Title : string; sq_Metadata : gmap string string;
}.

Record SessionUpdateRequest := mkSessionUpdate {
  su_Title : option string; su_Metadata : option (gmap string string); su_VaultIDs : option (list string);
}.

Definition EvtUserInterrupt : string := "user.interrupt".

Inductive body :=
| BError (type_ msg : string)
| BAgent (a : option Agent)
| BEnvironment (e : Environment)
| BSession (s : option Session)
| BAgents (l : list Agent * option string)
| BEnvironments (l : list Environment * option string)
| BSessions (l : list Session * option string)
| BEvents (l : list Event * option string)
| BDeleted (id type_ : string)
| BStream (ch : option Z)
| BEmpty.

(** [Panicked] is a nil dereference: the server drops the connection. *)
Inductive response := Respond (status : Z) (b : body) | Panicked.

Definition StatusOK : Z := 200.
Definition StatusBadRequest : Z := 400.
Definition StatusUnauthorized : Z := 401.
Definition StatusNotFound : Z := 404.
Definition StatusInternalServerError : Z := 500.
Definition StatusBadGateway : Z := 502.

Definition writeErr (status : Z) (type_ msg : string) : response := Respond status (BError type_ msg).
Definition ok (b : body) : response := Respond StatusOK b.
Definition invalid_body (err : string) : response := writeErr StatusBadRequest "invalid_request_error" ("invalid body: " +:+ err).
Definition missing (what : string) : response := writeErr StatusNotFound "not_found_error" (what +:+ " not found").

(** ** Pages *)

(** [r.URL.Query()]: an absent key reads as the empty string. *)
Definition query : Type := gmap string string.
Definition q_get (q : query) (k : string) : string := default "" (q !! k).

(** The place after the last item with the id of the cursor. *)
Fixpoint cursor_start {T} (id : T → string) (cur : string) (i start : nat) (items : list T) : nat :=
  match items with
  | [] => start
  | it :: items => cursor_start id cur (S i) (if decide (id it = cur) then S i else start) items
  end.

Definition after_cursor {T} (id : T → string) (q : query) (items : list T) : list T :=
  let cur := q_get q "page" in
  if decide (cur = "") then items else drop (cursor_start id cur 0 (length items) items) items.

(** The page and the cursor of the next one. *)
Definition limited {T} (id : T → string) (q : query) (items : list T) : list T * option string :=
  match Atoi (q_get q "limit") with
  | Some limit =>
      if (0 <? limit)%Z && (limit <? Z.of_nat (length items))%Z
      then (take (Z.to_nat limit) items, id <$> items !! pred (Z.to_nat limit)) else (items, None)
  | None => (items, None)
  end.

(** The order of a listing: by creation, then by id. *)
Definition listed {T} (id : T → string) (createdAt : T → time) (a b : T) : Prop :=
  (createdAt a < createdAt b)%Z ∨ createdAt a = createdAt b ∧ String.le (id a) (id b).

#[export] Instance listed_dec {T} (id : T → string) (createdAt : T → time) : RelDecision (listed id createdAt).
Proof. intros a b. unfold listed. apply _. Defined.

(** The items listed, in order, before paging. *)
Definition listing {T} (id : T → string) (createdAt : T → time) (isArchived : T → bool) (q : query) (items : list T) : list T :=
  let items := if decide (q_get q "include_archived" = "true") then items else filter (λ it, isArchived it = false) items in
  let items := merge_sort (listed id createdAt) items in
  if decide (q_get q "order" = "desc") then reverse items else items.

Definition listPage {T} (id : T → string) (createdAt : T → time) (isArchived : T → bool) (q : query) (items : list T)
    : list T * option string :=
  limited id q (after_cursor id q (listing id createdAt isArchived q items)).

(** [listEvents] on the log of a session. *)
Definition page_events (q : query) (events : list Event) : list Event * option string :=
  limited ev_ID q (after_cursor ev_ID q (if decide (q_get q "order" = "desc") then reverse events else events)).

(** ** The state of the facade *)

Inductive call :=
| CallRegister (name : string) (card : AgentCard) (instances : Z)
| CallDelete (name : string)
| CallCancel (name task : string).

(** A job given to [EnqueueTurn] of the record at the address. *)
Inductive job :=
| JobTurn (ptr : Z) (text : string)
| JobOutcome (ptr : Z) (id : string).

Record facade := mkFacade {
  h_store : Store;
  h_trace : list effect;   (** what the programs of [CmaTurn] and [CmaOutcome] appended *)
  h_calls : list call;     (** the requests sent to the scheduler *)
  h_jobs : list job;       (** the jobs enqueued *)
  h_cancels : list Z;      (** the cancel functions called *)
  h_tick : nat;            (** the ids and times drawn *)
}.

Definition H (A : Type) : Type := facade → A * facade.
#[export] Instance H_ret : MRet H := λ A x s, (x, s).
#[export] Instance H_bind : MBind H := λ A B f m s, let '(x, s) := m s in f x s.

(** What a handler depends on: [h_random] are the bytes of the ids, [h_now] the
    clock, [h_answer] the scheduler's answer to the n-th request, [h_url] its
    address, [h_save_error] the text of a failed save, and the orders in which
    maps are visited. *)
Class Env := {
  h_random : nat → list Z;
  h_now : nat → time;
  h_answer : nat → admin_answer;
  h_url : string;
  h_save_error : string;
  h_agents : gmap string AgentRecord → list (string * AgentRecord);
  h_environments : gmap string Environment → list (string * Environment);
  h_sessions : gmap string Z → list (string * Z);
}.

Section handlers.
Context `{F : Facade} `{UnicodeTables} `{E : Env} (Marshal : persisted → option string).
Context (cfg : OutcomeConfig) (rt : RuntimeDefaults).

Definition get : H Store := λ s, (h_store s, s).

(** One operation on the store with its result. *)
Definition store_do {A} (f : Store → Store * A) : H A := λ s,
  let '(st, x) := f (h_store s) in
  (x, mkFacade st (h_trace s) (h_calls s) (h_jobs s) (h_cancels s) (h_tick s)).

Definition tick : H nat := λ s,
  (h_tick s, mkFacade (h_store s) (h_trace s) (h_calls s) (h_jobs s) (h_cancels s) (S (h_tick s))).

Definition now : H time := n ← tick; mret (h_now n).
Definition fresh (prefix : string) : H string := n ← tick; mret (NewID (h_random n) prefix).

Definition send_call (c : call) : H admin_answer := λ s,
  (h_answer (length (h_calls s)),
   mkFacade (h_store s) (h_trace s) (h_calls s ++ [c]) (h_jobs s) (h_cancels s) (h_tick s)).

Definition EnqueueTurn (j : job) : H unit := λ s,
  (tt, mkFacade (h_store s) (h_trace s) (h_calls s) (h_jobs s ++ [j]) (h_cancels s) (h_tick s)).

Definition call_cancel (f : Z) : H unit := λ s,
  (tt, mkFacade (h_store s) (h_trace s) (h_calls s) (h_jobs s) (h_cancels s ++ [f]) (h_tick s)).

Definition did (e : effect) : option op := if e is Did o then Some o else None.

(** A program of [CmaTurn]: its store operations are applied. *)
Definition lift {A} (m : M A) : H A := λ s,
  let '(x, tr) := m (h_trace s) in
  (x, mkFacade (run Marshal h_sessions (omap did (drop (length (h_trace s)) tr)) (h_store s)) tr (h_calls s) (h_jobs s)
        (h_cancels s) (h_tick s)).

(** ** Agents *)

Definition agent_of (id : string) (version : Z) (name : string) (req : AgentCreateRequest) (t : time) : Agent :=
  mkAgent "agent" id version name (aq_Model req) (aq_System req) (aq_Description req) (aq_Tools req) (aq_Skills req)
    (aq_MCPServers req) (aq_Metadata req) t t None.

Definition save_agent (a : Agent) : H response :=
  saved ← store_do (PutAgentVersion Marshal a);
  mret (if saved : bool then ok (BAgent (Some a)) else writeErr StatusInternalServerError "api_error" h_save_error).

Definition createAgent (req : AgentCreateRequest + string) : H response :=
  match req with
  | inr err => mret (invalid_body err)
  | inl req =>
      if decide (aq_Name req = "" ∨ model_ID (aq_Model req) = "")
      then mret (writeErr StatusBadRequest "invalid_request_error" "name and model are required")
      else
        t ← now; id ← fresh PrefixAgent; save_agent (agent_of id 1 (aq_Name req) req t)
  end.

(** The part of [updateAgent] after the record was read. *)
Definition updateAgent_write (id : string) (rec : AgentRecord) (req : AgentCreateRequest + string) : H response :=
  match req with
  | inr err => mret (invalid_body err)
  | inl req =>
      t ← now;
      match (if decide (aq_Name req = "") then ag_Name <$> Versions rec !! Latest rec else Some (aq_Name req)) with
      | None => mret Panicked
      | Some name => save_agent (agent_of id (Latest rec + 1) name req t)
      end
  end.

Definition updateAgent (id : string) (req : AgentCreateRequest + string) : H response :=
  s ← get;
  match GetAgentRecord id s with
  | None => mret (missing "agent")
  | Some rec => updateAgent_write id rec req
  end.

Definition getAgent (id : string) (q : query) : H response :=
  s ← get;
  let version := if decide (q_get q "version" = "") then 0%Z else fst (ParseInt (q_get q "version")) in
  mret (match GetAgent id version s with Some a => ok (BAgent (Some a)) | None => missing "agent" end).

Definition has_archived (at_ : option time) : bool := bool_decide (at_ ≠ None).

Definition listAgents (q : query) : H response :=
  s ← get;
  mret (ok (BAgents (listPage ag_ID ag_CreatedAt (λ a, has_archived (ag_ArchivedAt a)) q (ListAgents h_agents s)))).

Definition archiveAgent (id : string) : H response :=
  t ← now; r ← store_do (ArchiveAgent Marshal id t);
  mret (match r with Some a => ok (BAgent a) | None => missing "agent" end).

(** ** Environments *)

Definition save_environment (e : Environment) : H response :=
  saved ← store_do (PutEnvironment Marshal e);
  mret (if saved : bool then ok (BEnvironment e) else writeErr StatusInternalServerError "api_error" h_save_error).

Definition createEnvironment (req : EnvironmentCreateRequest + string) : H response :=
  match req with
  | inr err => mret (invalid_body err)
  | inl req =>
      if decide (eq_Name req = "") then mret (writeErr StatusBadRequest "invalid_request_error" "name is required")
      else
        t ← now; id ← fresh PrefixEnvironment;
        save_environment (mkEnvironment "environment" id (eq_Name req) (eq_Description req) (eq_Config req) (eq_Metadata req) t t None)
  end.

Definition getEnvironment (id : string) : H response :=
  s ← get; mret (match GetEnvironment id s with Some e => ok (BEnvironment e) | None => missing "environment" end).

Definition ListEnvironments (s : Store) : list Environment := snd <$> h_environments (environments s).

Definition listEnvironments (q : query) : H response :=
  s ← get;
  mret (ok (BEnvironments (listPage env_ID env_CreatedAt (λ e, has_archived (env_ArchivedAt e)) q (ListEnvironments s)))).

Definition updated_environment (req : EnvironmentUpdateRequest) (t : time) (e : Environment) : Environment :=
  mkEnvironment (env_Type e) (env_ID e) (default (env_Name e) (eu_Name req)) (default (env_Description e) (eu_Description req))
    (if decide (0 < blen (eu_Config req)) then eu_Config req else env_Config e) (default (env_Metadata e) (eu_Metadata req))
    (env_CreatedAt e) t (env_ArchivedAt e).

Definition updateEnvironment (id : string) (req : EnvironmentUpdateRequest + string) : H response :=
  s ← get;
  match GetEnvironment id s, req with
  | None, _ => mret (missing "environment")
  | Some _, inr err => mret (invalid_body err)
  | Some e, inl req => t ← now; save_environment (updated_environment req t e)
  end.

Definition archived_environment (t : time) (e : Environment) : Environment :=
  mkEnvironment (env_Type e) (env_ID e) (env_Name e) (env_Description e) (env_Config e) (env_Metadata e) (env_CreatedAt e) t (Some t).

Definition archiveEnvironment (id : string) : H response :=
  s ← get;
  match GetEnvironment id s with
  | None => mret (missing "environment")
  | Some e => t ← now; save_environment (archived_environment t e)
  end.

Definition deleteEnvironment (id : string) : H response :=
  '(found, saved) ← store_do (λ s, let '(s', found, saved) := DeleteEnvironment Marshal id s in (s', (found, saved)));
  mret (if negb saved then writeErr StatusInternalServerError "api_error" h_save_error
        else if negb found then missing "environment" else ok (BDeleted id "environment_deleted")).

(** ** Sessions *)

Inductive reg_err := ErrTranslate (msg : string) | ErrAdmin (e : admin_err).

Definition reg_message (e : reg_err) : string :=
  match e with ErrTranslate msg => "translate agent card: " +:+ msg | ErrAdmin e => admin_message e end.

Definition ensureRegistered (name : string) (a : Agent) : H (option reg_err) :=
  match AgentToCard name a rt with
  | inr err => mret (Some (ErrTranslate err))
  | inl card => ans ← send_call (CallRegister name card (Instances a)); mret (ErrAdmin <$> RegisterAgent h_url name ans)
  end.

(** The classified errors of session creation and of reconciliation. *)
Inductive session_err := errAgentNotFound | errAgentArchived | errEnvNotFound | errEnvArchived | errRegister (e : reg_err) | errSave.

Definition session_message (e : session_err) : string :=
  match e with
  | errAgentNotFound => "agent (or version) not found"
  | errAgentArchived => "agent is archived"
  | errEnvNotFound => "environment not found"
  | errEnvArchived => "environment is archived"
  | errRegister e => "register ahsir agent: " +:+ reg_message e
  | errSave => h_save_error
  end.

Definition sessionAgentFrom (a : Agent) : SessionAgent :=
  mkSessionAgent "agent" (ag_ID a) (Version a) (ag_Name a) (Model a) (System a) (ag_Description a) (Tools a) (Skills a) (MCPServers a).

Definition new_session (id title envID : string) (a : Agent) (meta : gmap string string) (t : time) : Session :=
  mkSession "session" id title StatusIdle envID (sessionAgentFrom a) [] [] [] meta t t None.

(** The agent and the environment named by the request, usable. *)
Definition resolve_session (ref : AgentRef) (envID : string) (s : Store) : Agent + session_err :=
  match GetAgent (ref_ID ref) (ref_Version ref) s with
  | None => inr errAgentNotFound
  | Some a =>
      if has_archived (ag_ArchivedAt a) then inr errAgentArchived
      else match GetEnvironment envID s with
           | None => inr errEnvNotFound
           | Some e => if has_archived (env_ArchivedAt e) then inr errEnvArchived else inl a
           end
  end.

(** The address of the new record, or the error. *)
Definition createSessionRecord (ref : AgentRef) (envID title : string) (meta : gmap string string) : H (Z + session_err) :=
  s ← get;
  match resolve_session ref envID s with
  | inr err => mret (inr err)
  | inl a =>
      let name := AhsirAgentName (ag_ID a) (Version a) in
      err ← ensureRegistered name a;
      match err with
      | Some e => mret (inr (errRegister e))
      | None =>
          t ← now; id ← fresh PrefixSession; ctx ← fresh "ctx";
          ptr ← store_do (alloc (new_session id title envID a meta t) name ctx);
          saved ← store_do (PutSession Marshal ptr);
          mret (if saved : bool then inl ptr else inr errSave)
      end
  end.

Definition session_at (ptr : Z) (s : Store) : option Session := r_Session <$> heap s !! ptr.

Definition session_failure (e : session_err) : response :=
  let msg := session_message e in
  match e with
  | errAgentNotFound | errEnvNotFound => writeErr StatusNotFound "not_found_error" msg
  | errAgentArchived | errEnvArchived => writeErr StatusBadRequest "invalid_request_error" msg
  | errRegister _ | errSave =>
      if strip_prefix "register ahsir agent" msg is Some _ then writeErr StatusBadGateway "api_error" msg
      else writeErr StatusInternalServerError "api_error" msg
  end.

Definition createSession (req : SessionCreateRequest + string) : H response :=
  match req with
  | inr err => mret (invalid_body err)
  | inl req =>
      if decide (ref_ID (sq_Agent req) = "" ∨ sq_EnvironmentID req = "")
      then mret (writeErr StatusBadRequest "invalid_request_error" "agent and environment_id are required")
      else
        r ← createSessionRecord (sq_Agent req) (sq_EnvironmentID req) (sq_Title req) (sq_Metadata req);
        s ← get;
        mret (match r with inl ptr => ok (BSession (session_at ptr s)) | inr e => session_failure e end)
  end.

Definition getSession (id : string) : H response :=
  s ← get;
  mret (match GetSession id s with Some ptr => ok (BSession (session_at ptr s)) | None => missing "session" end).

Definition ListSessions (s : Store) : list Session := omap (λ x : string * Z, session_at x.2 s) (h_sessions (sessions s)).

Definition of_agent (q : query) (x : Session) : Prop :=
  (q_get q "agent_id" = "" ∨ sa_ID (s_Agent x) = q_get q "agent_id") ∧
  (q_get q "agent_version" = "" ∨ snd (ParseInt (q_get q "agent_version")) = false ∨
   sa_Version (s_Agent x) = fst (ParseInt (q_get q "agent_version"))).

Definition listSessions (q : query) : H response :=
  s ← get;
  mret (ok (BSessions (listPage s_ID s_CreatedAt (λ x, has_archived (s_ArchivedAt x)) q (filter (of_agent q) (ListSessions s))))).

(** [rec.CancelOutcome()]. *)
Definition cancel_outcome (ptr : Z) : H unit :=
  s ← get; match CancelOutcome ptr s with Some f => call_cancel f | None => mret tt end.

(** The agent of the session on the heap; the grader of its version. *)
Definition session_ref (ptr : Z) (s : Store) : string * string :=
  match heap s !! ptr with
  | Some r => (AhsirName r, AhsirGraderName (sa_ID (s_Agent (r_Session r))) (sa_Version (s_Agent (r_Session r))))
  | None => ("", "")
  end.

Definition gcAhsirAgentIfUnused (ptr : Z) : H unit :=
  s ← get;
  let '(name, grader) := session_ref ptr s in
  if decide (ActiveAhsirRefs h_sessions name s = 0)
  then _ ← send_call (CallDelete name); _ ← send_call (CallDelete grader); mret tt
  else mret tt.

Definition archiveSession (id : string) : H response :=
  s ← get;
  match GetSession id s with
  | None => mret (missing "session")
  | Some ptr =>
      _ ← cancel_outcome ptr; t ← now; _ ← store_do (ArchiveSession Marshal ptr t); _ ← gcAhsirAgentIfUnused ptr;
      s ← get; mret (ok (BSession (session_at ptr s)))
  end.

Definition in_flight (ptr : Z) (s : Store) : string := from_option inFlightTaskID "" (heap s !! ptr).

Definition cancelInFlight (ptr : Z) : H unit :=
  s ← get;
  if decide (in_flight ptr s = "") then mret tt
  else _ ← send_call (CallCancel (fst (session_ref ptr s)) (in_flight ptr s)); mret tt.

Definition updateSession (id : string) (req : SessionUpdateRequest + string) : H response :=
  s ← get;
  match GetSession id s, req with
  | None, _ => mret (missing "session")
  | Some _, inr err => mret (invalid_body err)
  | Some ptr, inl req =>
      t ← now; _ ← store_do (UpdateSessionMeta Marshal t ptr (su_Title req) (su_Metadata req) (su_VaultIDs req));
      s ← get; mret (ok (BSession (session_at ptr s)))
  end.

(** [deleteSession] up to the wait for the running turn, and after it. *)
Definition deleteSession_begin (ptr : Z) : H unit := _ ← cancelInFlight ptr; cancel_outcome ptr.

Definition deleteSession_end (ptr : Z) : H response :=
  _ ← lift (emitNew ptr EvtSessionDeleted);
  s ← get;
  let id := from_option s_ID "" (session_at ptr s) in
  _ ← store_do (λ s, fst (DeleteSession Marshal id s));
  _ ← gcAhsirAgentIfUnused ptr;
  mret (ok (BDeleted id "session_deleted")).

(** [during] is what the other goroutines do to the store while the handler
    waits for the turn to clear its task. *)
Definition waitInFlightCleared (during : list op) : H unit := store_do (λ s, (run Marshal h_sessions during s, tt)).

Definition deleteSession (id : string) (during : list op) : H response :=
  s ← get;
  match GetSession id s with
  | None => mret (missing "session")
  | Some ptr => _ ← deleteSession_begin ptr; _ ← waitInFlightCleared during; deleteSession_end ptr
  end.

(** ** Events *)

Definition reconcileSession (ptr : Z) : H (option session_err) :=
  s ← get;
  match heap s !! ptr with
  | None => mret (Some errAgentNotFound)
  | Some r =>
      let ref := s_Agent (r_Session r) in
      match GetAgent (sa_ID ref) (sa_Version ref) s with
      | None => mret (Some errAgentNotFound)
      | Some a =>
          if has_archived (ag_ArchivedAt a) then mret (Some errAgentArchived)
          else err ← ensureRegistered (AhsirName r) a; mret (errRegister <$> err)
      end
  end.

(** The first malformed outcome of a batch. *)
Definition batch_error (events : list Event) : option string :=
  head (omap (λ ev, if decide (ev_Type ev = EvtUserDefineOutcome)
                    then match validateDefineOutcome cfg ev with inr msg => Some msg | inl _ => None end else None) events).

Definition containsUserMessage (events : list Event) : bool := bool_decide (Exists (λ ev, ev_Type ev = EvtUserMessage) events).
Definition containsDefineOutcome (events : list Event) : bool := bool_decide (Exists (λ ev, ev_Type ev = EvtUserDefineOutcome) events).

(** The answer to a failed reconciliation. *)
Definition reconcile_failure (e : session_err) : response :=
  match e with
  | errAgentNotFound => writeErr StatusNotFound "not_found_error" (session_message e)
  | errAgentArchived => writeErr StatusBadRequest "invalid_request_error" (session_message e)
  | errRegister (ErrAdmin (AdminHTTPError op ag code detail) as err) =>
      if (400 <=? code)%Z && (code <? 500)%Z
      then writeErr code (if (code =? 404)%Z then "not_found_error" else "invalid_request_error") (reg_message err)
      else writeErr StatusBadGateway "api_error" ("reconcile scheduler runtime: " +:+ reg_message err)
  | errRegister err => writeErr StatusBadGateway "api_error" ("reconcile scheduler runtime: " +:+ reg_message err)
  | _ => writeErr StatusBadGateway "api_error" ("reconcile scheduler runtime: " +:+ session_message e)
  end.

Definition deliver_message (ptr : Z) (content : list ContentBlock) : H unit :=
  text ← lift (deliverUserMessage ptr content); EnqueueTurn (JobTurn ptr text).

(** [deliverDefineOutcome]: [None] is acceptance. The cancel function of the new
    context is the tick at which it is made. *)
Definition deliverDefineOutcome (ptr : Z) (ev : Event) : H (option (Z * string)) :=
  match validateDefineOutcome cfg ev with
  | inr msg => mret (Some (StatusBadRequest, msg))
  | inl (desc, rubric, maxIter) =>
      t ← now; id ← fresh PrefixOutcome; cancel ← tick; t' ← now;
      '(accepted, saved) ← store_do (λ s,
        let '(s', accepted, saved) :=
          BeginOutcomeWithCancel Marshal t' ptr (new_outcome id desc rubric maxIter t) (Z.of_nat cancel) s in
        (s', (accepted, saved)));
      if negb saved then _ ← call_cancel (Z.of_nat cancel); mret (Some (StatusInternalServerError, "persist outcome: " +:+ h_save_error))
      else if negb accepted then
        _ ← call_cancel (Z.of_nat cancel);
        mret (Some (409%Z, "an outcome is already active on this session; interrupt it or wait for its terminal span.outcome_evaluation_end"))
      else
        _ ← lift (echoDefineOutcome ptr ev id desc maxIter);
        _ ← EnqueueTurn (JobOutcome ptr id);
        mret None
  end.

(** The loop over the events of a batch. *)
Fixpoint deliver (ptr : Z) (events : list Event) : H response :=
  match events with
  | [] => mret (ok BEmpty)
  | ev :: events =>
      if decide (ev_Type ev = EvtUserMessage) then _ ← deliver_message ptr (Content ev); deliver ptr events
      else if decide (ev_Type ev = EvtUserDefineOutcome) then
        r ← deliverDefineOutcome ptr ev;
        match r with
        | Some (status, msg) =>
            mret (writeErr status (if (500 <=? status)%Z then "api_error" else "invalid_request_error") msg)
        | None => deliver ptr events
        end
      else if decide (ev_Type ev = EvtUserInterrupt) then _ ← cancelInFlight ptr; _ ← cancel_outcome ptr; deliver ptr events
      else deliver ptr events
  end.

Definition sendEvents (id : string) (req : list Event + string) : H response :=
  s ← get;
  match GetSession id s, req with
  | None, _ => mret (missing "session")
  | Some _, inr err => mret (invalid_body err)
  | Some ptr, inl events =>
      match batch_error events with
      | Some msg => mret (writeErr StatusBadRequest "invalid_request_error" msg)
      | None =>
          err ← (if containsUserMessage events || containsDefineOutcome events then reconcileSession ptr else mret None);
          match err with
          | Some e => mret (reconcile_failure e)
          | None => deliver ptr events
          end
      end
  end.

Definition session_events (ptr : Z) (s : Store) : list Event := from_option Events [] (heap s !! ptr).

Definition listEvents (id : string) (q : query) : H response :=
  s ← get;
  mret (match GetSession id s with Some ptr => ok (BEvents (page_events q (session_events ptr s))) | None => missing "session" end).

(** [streamEvents] up to the first event: the channel subscribed. [flushable] is
    whether the connection can stream. *)
Definition streamEvents (id : string) (flushable : bool) : H response :=
  s ← get;
  match GetSession id s with
  | None => mret (missing "session")
  | Some ptr =>
      if flushable then r ← store_do (Subscribe ptr); mret (ok (BStream (snd <$> r)))
      else mret (writeErr StatusInternalServerError "api_error" "streaming unsupported")
  end.

(** One event on the wire; [marshal] is the encoder of an event. *)
Definition writeSSE (marshal : Event → option string) (ev : Event) : string :=
  match marshal ev with None => "" | Some b => "event: " +:+ ev_Type ev +:+ nl +:+ "data: " +:+ b +:+ nl +:+ nl end.

(** ** The surface ([server.go]) *)

Inductive request :=
| CreateAgent (req : AgentCreateRequest + string)
| ListAgentsReq (q : query)
| GetAgentReq (id : string) (q : query)
| UpdateAgent (id : string) (req : AgentCreateRequest + string)
| ArchiveAgentReq (id : string)
| CreateEnvironment (req : EnvironmentCreateRequest + string)
| ListEnvironmentsReq (q : query)
| GetEnvironmentReq (id : string)
| UpdateEnvironment (id : string) (req : EnvironmentUpdateRequest + string)
| ArchiveEnvironment (id : string)
| DeleteEnvironmentReq (id : string)
| CreateSession (req : SessionCreateRequest + string)
| ListSessionsReq (q : query)
| GetSessionReq (id : string)
| UpdateSession (id : string) (req : SessionUpdateRequest + string)
| ArchiveSessionReq (id : string)
| DeleteSessionReq (id : string) (during : list op)
| SendEvents (id : string) (req : list Event + string)
| ListEventsReq (id : string) (q : query)
| StreamEvents (id : string) (flushable : bool).

Definition Handler (r : request) : H response :=
  match r with
  | CreateAgent req => createAgent req
  | ListAgentsReq q => listAgents q
  | GetAgentReq id q => getAgent id q
  | UpdateAgent id req => updateAgent id req
  | ArchiveAgentReq id => archiveAgent id
  | CreateEnvironment req => createEnvironment req
  | ListEnvironmentsReq q => listEnvironments q
  | GetEnvironmentReq id => getEnvironment id
  | UpdateEnvironment id req => updateEnvironment id req
  | ArchiveEnvironment id => archiveEnvironment id
  | DeleteEnvironmentReq id => deleteEnvironment id
  | CreateSession req => createSession req
  | ListSessionsReq q => listSessions q
  | GetSessionReq id => getSession id
  | UpdateSession id req => updateSession id req
  | ArchiveSessionReq id => archiveSession id
  | DeleteSessionReq id during => deleteSession id during
  | SendEvents id req => sendEvents id req
  | ListEventsReq id q => listEvents id q
  | StreamEvents id flushable => streamEvents id flushable
  end.

(** [auth]: the allowlist and the two headers. *)
Definition authorized (keys : gset string) (x_api_key anthropic_api_key : string) : bool :=
  bool_decide (keys = ∅) || bool_decide ((if decide (x_api_key = "") then anthropic_api_key else x_api_key) ∈ keys).

Definition auth (keys : gset string) (x_api_key anthropic_api_key : string) (r : request) : H response :=
  if authorized keys x_api_key anthropic_api_key then Handler r
  else mret (writeErr StatusUnauthorized "authentication_error" "invalid or missing x-api-key").
End handlers.
