(* ===== verification/CmaPages.v ===== *)
(** * Paging through the facade's listings

    A client asks for the first page and follows the cursors. The pages it gets
    are the listing, every item once and in order - for the log of a session even
    when events are appended between the requests. *)
From S2P Require Import Prelude GoBase GoStrings CmaTypes CmaStore CmaStoreLaws CmaCards CmaTurn CmaOutcome CmaHandlers.
From Stdlib Require Import ZArith Lia Ascii.

(** ** A client

    The pages of up to [n] requests, the [i]-th being answered by [serve i], and
    whether the last one had no cursor. *)
Fixpoint follow {T} (serve : nat → string → list T * option string) (i n : nat) (cur : string) : list (list T) * bool :=
  match n with
  | O => ([], false)
  | S n =>
      match serve i cur with
      | (page, None) => ([page], true)
      | (page, Some c) => let '(pages, fin) := follow serve (S i) n c in (page :: pages, fin)
      end
  end.

Section paging.
Context {T : Type} (id : T → string).

Lemma cursor_start_absent cur items : ∀ i start, (∀ it, it ∈ items → id it ≠ cur) → cursor_start id cur i start items = start.
Proof.
  induction items as [| it items IH]; intros i start Hn; [done |]. cbn. rewrite decide_False by (apply Hn; by left).
  apply IH. intros. apply Hn. by right.
Qed.

Lemma cursor_start_at items : ∀ i start p it,
  NoDup (id <$> items) → items !! p = Some it → cursor_start id (id it) i start items = i + S p.
Proof.
  induction items as [| x items IH]; intros i start p it Hnd Hp; [done |]. cbn. rewrite fmap_cons in Hnd.
  apply NoDup_cons in Hnd as [Hx Hnd]. destruct p as [| p]; cbn in Hp.
  - injection Hp as ->. rewrite decide_True by done. rewrite cursor_start_absent; [lia |].
    intros y Hy E. apply Hx. rewrite <- E. by apply list_elem_of_fmap_2.
  - rewrite (IH (S i) _ p it Hnd Hp). lia.
Qed.

(** [cur] is the cursor for what follows the first [p] items. *)
Definition cursor_at (items : list T) (p : nat) (cur : string) : Prop :=
  match p with O => cur = "" | S p => ∃ it, items !! p = Some it ∧ cur = id it end.

Definition well_named (items : list T) : Prop := NoDup (id <$> items) ∧ Forall (λ it, id it ≠ "") items.

Definition page_query (q : query) (cur : string) : query := <["page" := cur]> q.

Lemma q_get_page q cur : q_get (page_query q cur) "page" = cur.
Proof. unfold q_get, page_query, query in *. by rewrite lookup_insert_eq. Qed.

Lemma q_get_other q cur k : k ≠ "page" → q_get (page_query q cur) k = q_get q k.
Proof. intros Hk. unfold q_get, page_query, query in *. by rewrite lookup_insert_ne. Qed.

Lemma after_cursor_at q items p cur :
  well_named items → cursor_at items p cur → after_cursor id (page_query q cur) items = drop p items.
Proof.
  intros [Hnd Hne] Hp. unfold after_cursor. rewrite q_get_page. destruct p as [| p].
  - cbn in Hp. subst. by rewrite decide_True.
  - destruct Hp as (it & Hit & ->). rewrite Forall_lookup in Hne. specialize (Hne p it Hit).
    rewrite decide_False by done. rewrite (cursor_start_at items 0 _ p it) by done. done.
Qed.

(** One page: the next [k] items with the cursor after them, or the rest. *)
Lemma limited_page q k rest :
  Atoi (q_get q "limit") = Some k → (0 < k)%Z →
  (length rest ≤ Z.to_nat k ∧ limited id q rest = (rest, None)) ∨
  (Z.to_nat k < length rest ∧ ∃ it, rest !! pred (Z.to_nat k) = Some it ∧
   limited id q rest = (take (Z.to_nat k) rest, Some (id it))).
Proof.
  intros Hk Hpos. unfold limited. rewrite Hk. destruct (decide (Z.to_nat k < length rest)) as [Hlt | Hge].
  - right. split; [done |]. destruct (lookup_lt_is_Some_2 rest (pred (Z.to_nat k))) as [it Hit]; [lia |].
    exists it. split; [done |]. rewrite Hit. replace ((0 <? k)%Z && (k <? Z.of_nat (length rest))%Z) with true; [done |].
    symmetry. apply andb_true_intro. split; apply Z.ltb_lt; lia.
  - left. split; [lia |]. replace ((0 <? k)%Z && (k <? Z.of_nat (length rest))%Z) with false; [done |].
    symmetry. apply andb_false_iff. right. apply Z.ltb_ge. lia.
Qed.

(** ** Following the cursors while the listing grows *)

Section growing.
Context (q : query) (k : Z) (logs : nat → list T).
Hypothesis Hlimit : Atoi (q_get q "limit") = Some k.
Hypothesis Hpos : (0 < k)%Z.
Hypothesis Hnamed : ∀ i, well_named (logs i).
Hypothesis Hgrow : ∀ i, logs i `prefix_of` logs (S i).

Definition serve_log (i : nat) (cur : string) : list T * option string :=
  limited id (page_query q cur) (after_cursor id (page_query q cur) (logs i)).

(** The state of the log when the last of [n] pages starting at [i] was served. *)
Lemma follow_grows n : ∀ i p cur pages fin,
  p ≤ length (logs i) → cursor_at (logs i) p cur → follow serve_log i n cur = (pages, fin) →
  (pages ≠ [] → take p (logs i) ++ concat pages `prefix_of` logs (i + pred (length pages))) ∧
  (fin = true → pages ≠ [] ∧ take p (logs i) ++ concat pages = logs (i + pred (length pages))) ∧
  (fin = false → length pages = n ∧ Forall (λ page, length page = Z.to_nat k) pages) ∧
  Forall (λ page, length page ≤ Z.to_nat k) pages.
Proof.
  induction n as [| n IH]; intros i p cur pages fin Hp Hcur Hf; cbn in Hf.
  { injection Hf as <- <-. by split_and!. }
  unfold serve_log at 1 in Hf. rewrite (after_cursor_at q (logs i) p cur) in Hf by done.
  destruct (limited_page (page_query q cur) k (drop p (logs i))) as [[Hlen E] | (Hlen & it & Hit & E)];
    [by rewrite q_get_other | done | ..]; rewrite E in Hf.
  - injection Hf as <- <-. cbn. rewrite app_nil_r, take_drop, Nat.add_0_r. split_and!; try done. by constructor.
  - destruct (follow serve_log (S i) n (id it)) as [pages' fin'] eqn:Ef. injection Hf as <- <-.
    rewrite length_drop in Hlen. rewrite lookup_drop in Hit.
    assert (take (p + Z.to_nat k) (logs (S i)) = take p (logs i) ++ take (Z.to_nat k) (drop p (logs i))) as Et.
    { destruct (Hgrow i) as [suffix ->]. rewrite take_app_le by lia. by rewrite take_take_drop. }
    destruct (Hgrow i) as [suffix Hsuf].
    destruct (IH (S i) (p + Z.to_nat k) (id it) pages' fin') as (H1 & H2 & H3 & H4); [| | done |].
    + rewrite Hsuf, length_app. lia.
    + replace (p + Z.to_nat k) with (S (p + pred (Z.to_nat k))) by lia. exists it. split; [| done].
      rewrite Hsuf. by apply lookup_app_l_Some.
    + rewrite Et, <- app_assoc in H1, H2. cbn [concat length pred].
      assert (length (take (Z.to_nat k) (drop p (logs i))) = Z.to_nat k) as Hk by (rewrite length_take, length_drop; lia).
      split_and!.
      * intros _. destruct pages' as [| page' pages']; [| cbn [length pred] in *; rewrite <- plus_n_Sm; by apply H1].
        cbn. rewrite app_nil_r, Nat.add_0_r, take_take_drop. eexists. symmetry. apply take_drop.
      * intros Hfin. destruct (H2 Hfin) as [Hne H2']. split; [done |]. destruct pages'; [done |]. cbn [length pred] in *.
        by rewrite <- plus_n_Sm.
      * intros Hfin. destruct (H3 Hfin) as [<- H3']. split; [done | by constructor].
      * constructor; [lia | done].
Qed.
End growing.
End paging.

(** ** The listings *)

Section listings.
Context {T : Type} (id : T → string) (createdAt : T → time) (isArchived : T → bool).

#[local] Instance listed_total : Total (listed id createdAt).
Proof.
  intros a b. unfold listed. destruct (Z.lt_trichotomy (createdAt a) (createdAt b)) as [? | [E | ?]]; [by left; left | | by right; left].
  rewrite E. destruct (total String.le (id a) (id b)); [left | right]; by right.
Qed.

#[local] Instance listed_trans : Transitive (listed id createdAt).
Proof.
  intros a b c. unfold listed. intros [H1 | [E1 H1]] [H2 | [E2 H2]]; [left; lia | left; lia | left; lia | right].
  split; [lia | by etrans].
Qed.

Lemma listing_perm q items :
  listing id createdAt isArchived q items ≡ₚ
  (if decide (q_get q "include_archived" = "true") then items else filter (λ it, isArchived it = false) items).
Proof. unfold listing. destruct (decide (q_get q "order" = "desc")); by rewrite ?reverse_Permutation, merge_sort_Permutation. Qed.

Lemma listing_page q cur items :
  listing id createdAt isArchived (page_query q cur) items = listing id createdAt isArchived q items.
Proof. unfold listing. by rewrite !q_get_other. Qed.

Lemma well_named_listing q items : well_named id items → well_named id (listing id createdAt isArchived q items).
Proof.
  intros [Hnd Hne]. split.
  - rewrite listing_perm. destruct (decide _); [done |]. eapply sublist_NoDup; [exact Hnd |]. apply fmap_sublist, sublist_filter.
  - rewrite listing_perm. destruct (decide _); [done |]. rewrite Forall_forall in *.
    intros it [_ Hit]%list_elem_of_filter. by apply Hne.
Qed.

(** Following the cursors of a listing enumerates it: for items with
    distinct ids and any page size, asking for the first page and then for the
    page after each cursor ends after at most one request more than there are
    items; the pages put together are the items selected - all of them, or those
    that are not archived - each exactly once, in the order of creation (or the
    reverse), and every page but the last is full. *)
Lemma listing_paged_once q k items :
  well_named id items → Atoi (q_get q "limit") = Some k → (0 < k)%Z → ∃ pages,
  follow (λ _ cur, listPage id createdAt isArchived (page_query q cur) items) 0 (S (length items)) "" = (pages, true) ∧
  concat pages = listing id createdAt isArchived q items ∧
  concat pages ≡ₚ (if decide (q_get q "include_archived" = "true") then items else filter (λ it, isArchived it = false) items) ∧
  StronglySorted (if decide (q_get q "order" = "desc") then flip (listed id createdAt) else listed id createdAt) (concat pages) ∧
  Forall (λ page, length page ≤ Z.to_nat k) pages.
Proof.
  intros Hnamed Hk Hpos. set (L := listing id createdAt isArchived q items).
  assert (∀ n i cur, follow (λ _ cur, listPage id createdAt isArchived (page_query q cur) items) i n cur =
                     follow (serve_log id q (λ _, L)) i n cur) as Hsame.
  { induction n as [| n IH]; intros i cur; [done |]. cbn. unfold listPage at 1, serve_log at 1. rewrite listing_page.
    fold L. destruct (limited _ _ _) as [page [c |]]; [by rewrite IH | done]. }
  destruct (follow (serve_log id q (λ _, L)) 0 (S (length items)) "") as [pages fin] eqn:Ef.
  destruct (follow_grows id q k (λ _, L) Hk Hpos (λ _, well_named_listing q items Hnamed) (λ _, reflexivity _)
              (S (length items)) 0 0 "" pages fin) as (H1 & H2 & H3 & H4); [lia | done | done |].
  assert (length L ≤ length items) as HL.
  { unfold L. rewrite listing_perm. destruct (decide _); [done |]. apply length_filter. }
  exists pages. rewrite Hsame, Ef. destruct fin.
  - destruct (H2 eq_refl) as [_ E]. rewrite take_0 in E. cbn in E. rewrite E. split_and!; [done | done | apply listing_perm | | done].
    unfold L, listing. destruct (decide (q_get q "order" = "desc")); [apply Sorted_StronglySorted; [| apply Sorted_reverse, Sorted_merge_sort; apply _] | apply StronglySorted_merge_sort; apply _].
    intros a b c Hab Hbc. unfold flip in *. by etrans.
  - exfalso. destruct (H3 eq_refl) as [Hlen Hfull]. destruct H1 as [suffix E]; [by destruct pages |].
    apply (f_equal length) in E. rewrite take_0, length_app in E. cbn in E.
    assert (∀ ps : list (list T), Forall (λ page, length page = Z.to_nat k) ps → length ps ≤ length (concat ps)) as Hc.
    { clear - Hpos. induction 1 as [| page ps Hp _ IH]; [done |]. cbn. rewrite length_app. lia. }
    specialize (Hc pages Hfull). lia.
Qed.

(** When the item a cursor names has left the listing - it was deleted or,
    without [include_archived], archived - the next page is empty and the last:
    the items after it are never listed. *)
Lemma cursor_gone_ends_listing q cur items :
  cur ≠ "" → (∀ it, it ∈ listing id createdAt isArchived q items → id it ≠ cur) →
  listPage id createdAt isArchived (page_query q cur) items = ([], None).
Proof.
  intros Hcur Hgone. unfold listPage. rewrite listing_page. set (L := listing _ _ _ _ _) in *.
  unfold after_cursor. rewrite q_get_page, decide_False by done. rewrite cursor_start_absent by done. rewrite drop_all.
  unfold limited. destruct (Atoi _) as [l |]; [| done].
  destruct (0 <? l)%Z eqn:E1; [| done]. destruct (l <? Z.of_nat (length (@nil T)))%Z eqn:E2; [| done]. cbn in E2. bool_to_prop. lia.
Qed.
End listings.

(** The log of a session is paged without loss while it grows: whatever is
    appended between the requests, the events of the pages a client obtains by
    following the cursors are the log up to some point, each event exactly once
    and in order; they are the whole log when the last page comes without a
    cursor, and as long as there is a cursor every page is full, so that the
    client makes progress. *)
Lemma events_paged_once q k logs n pages fin :
  (∀ i, well_named ev_ID (logs i)) → (∀ i, logs i `prefix_of` logs (S i)) →
  q_get q "order" ≠ "desc" → Atoi (q_get q "limit") = Some k → (0 < k)%Z →
  follow (λ i cur, page_events (page_query q cur) (logs i)) 0 n "" = (pages, fin) →
  (pages ≠ [] → concat pages `prefix_of` logs (pred (length pages))) ∧
  (fin = true → concat pages = logs (pred (length pages))) ∧
  (fin = false → length pages = n ∧ Forall (λ page, length page = Z.to_nat k) pages) ∧
  NoDup (ev_ID <$> concat pages).
Proof.
  intros Hnamed Hgrow Horder Hk Hpos Hf.
  assert (follow (serve_log ev_ID q logs) 0 n "" = (pages, fin)) as Ef.
  { rewrite <- Hf. clear - Horder. generalize 0, "". induction n as [| n IH]; intros i cur; [done |]. cbn.
    unfold serve_log at 1, page_events at 1. rewrite q_get_other by done. rewrite decide_False by done.
    destruct (limited _ _ _) as [page [c |]]; [by rewrite IH | done]. }
  destruct (follow_grows ev_ID q k logs Hk Hpos Hnamed Hgrow n 0 0 "" pages fin) as (H1 & H2 & H3 & H4); [lia | done | done |].
  rewrite take_0 in H1, H2. split_and!; [done | by intros H; apply H2 | done |].
  destruct pages as [| page pages]; [constructor |]. destruct H1 as [suffix E]; [done |].
  destruct (Hnamed (0 + pred (length (page :: pages)))) as [Hnd _]. rewrite E in Hnd. cbn [app] in Hnd.
  rewrite fmap_app in Hnd. by apply NoDup_app in Hnd as [? _].
Qed.

(** ** Examples *)

Definition sample_events (n : nat) : list Event :=
  (λ i, event_of (String (ascii_of_nat (97 + i)) "") EvtUserMessage None) <$> Lists.List.seq 0 n.

Definition sample_query : query := {[ "limit" := "2" ]}.

Lemma sample_events_named n : n ≤ 20 → well_named ev_ID (sample_events n).
Proof. intros Hn. do 21 (destruct n as [| n]; [by split; [match goal with |- ?P => apply (bool_decide_eq_true_1 P) end; vm_compute | repeat constructor] |]). lia. Qed.

(** Five events at the first request, six from the second on. *)
Lemma events_paged_once_witness :
  let logs i := sample_events (if Nat.eqb i 0 then 5 else 6) in
  follow (λ i cur, page_events (page_query sample_query cur) (logs i)) 0 9 "" =
    ([take 2 (sample_events 6); take 2 (drop 2 (sample_events 6)); drop 4 (sample_events 6)], true) ∧
  concat [take 2 (sample_events 6); take 2 (drop 2 (sample_events 6)); drop 4 (sample_events 6)] = logs 2.
Proof.
  split; [by vm_compute |].
  eapply (events_paged_once sample_query 2 (λ i, sample_events (if Nat.eqb i 0 then 5 else 6)) 9).
  - intros i. apply sample_events_named. destruct (Nat.eqb i 0); lia.
  - intros [| i]; [| done]. by exists (drop 5 (sample_events 6)).
  - done.
  - done.
  - done.
  - by vm_compute.
  - done.
Defined.

Lemma listing_paged_once_witness : ∃ pages,
  follow (λ _ cur, listPage ev_ID (λ _, 0%Z) (λ _, false) (page_query sample_query cur) (sample_events 5)) 0 6 "" = (pages, true) ∧
  concat pages = sample_events 5.
Proof.
  destruct (listing_paged_once ev_ID (λ _, 0%Z) (λ _, false) sample_query 2 (sample_events 5)) as (pages & E & Hc & _).
  - by apply sample_events_named; lia.
  - done.
  - done.
  - exists pages. split; [done |]. rewrite Hc. by vm_compute.
Defined.
