(* ===== verification/CmaHandlersLaws.v ===== *)
(** * What the facade's handlers promise

    Requests are histories of store operations, a rejected request leaves no
    trace, a batch of events is accepted in order up to where it fails, a session
    is created whole or not at all, and a shared agent is reclaimed only when no
    live session is pinned to it. *)
From S2P Require Import Prelude GoBase GoStrings CmaTypes CmaStore CmaStoreLaws CmaCards CmaTurn CmaOutcome CmaHandlers.
From Stdlib Require Import ZArith Lia Ascii.

Section laws.
Context `{F : Facade} `{UnicodeTables} `{E : Env} (Marshal : persisted → option string).
Context (cfg : OutcomeConfig) (rt : RuntimeDefaults).

(** ** Programs that respect a preorder on the facade's state *)

Definition respects (R : relation facade) {A} (m : H A) : Prop := ∀ s, R s (snd (m s)).

Section preorder.
Context (R : relation facade) `{!PreOrder R}.

Lemma respects_ret {A} (x : A) : respects R (mret x).
Proof. intros s. cbn. reflexivity. Qed.

Lemma respects_bind {A B} (m : H A) (f : A → H B) : respects R m → (∀ x, respects R (f x)) → respects R (m ≫= f).
Proof.
  intros Hm Hf s. unfold mbind, H_bind. specialize (Hm s). destruct (m s) as [x s1]. cbn in Hm. etrans; [exact Hm | apply Hf].
Qed.

Lemma respects_get {B} (f : Store → H B) : (∀ x, respects R (f x)) → respects R (get ≫= f).
Proof. intros Hf s. apply Hf. Qed.
End preorder.

(** What a rejection may have done: only sent requests and drawn ids. *)
Definition inert (s s' : facade) : Prop :=
  h_store s' = h_store s ∧ h_trace s' = h_trace s ∧ h_jobs s' = h_jobs s ∧ h_cancels s' = h_cancels s.

#[local] Instance inert_preorder : PreOrder inert.
Proof. split; [by intros x | intros s1 s2 s3 (A1 & A2 & A3 & A4) (B1 & B2 & B3 & B4); split_and!; congruence]. Qed.

Lemma inert_ret {A} (x : A) : respects inert (mret x).
Proof. by intros ?. Qed.

Lemma inert_tick : respects inert tick.
Proof. by intros s. Qed.

Lemma inert_send c : respects inert (send_call c).
Proof. by intros s. Qed.

Lemma inert_now : respects inert now.
Proof. by intros s. Qed.

Lemma inert_fresh p : respects inert (fresh p).
Proof. by intros s. Qed.

Lemma inert_register name a : respects inert (ensureRegistered rt name a).
Proof. unfold ensureRegistered. destruct (AgentToCard name a rt); by intros ?. Qed.

Lemma inert_reconcile ptr : respects inert (reconcileSession rt ptr).
Proof.
  unfold reconcileSession. apply respects_get. intros st. destruct (heap st !! ptr) as [r |]; [| apply inert_ret].
  cbv zeta. destruct (GetAgent _ _ _) as [a |]; [| apply inert_ret].
  destruct (has_archived _); [apply inert_ret |].
  apply respects_bind; [apply _ | apply inert_register | intros; apply inert_ret].
Qed.

(** ** Rejections *)

(** A client error other than a conflict, or a failure of the scheduler. *)
Definition rejected (r : response) : Prop :=
  match r with Respond status _ => (400 ≤ status < 500)%Z ∧ status ≠ 409%Z ∨ status = 502%Z | Panicked => True end.

Definition guarded (m : H response) : Prop := ∀ s, rejected (fst (m s)) → inert s (snd (m s)).

Lemma guarded_ret r : guarded (mret r).
Proof. by intros s. Qed.

Lemma guarded_bind {A} (m : H A) (f : A → H response) : respects inert m → (∀ x, guarded (f x)) → guarded (m ≫= f).
Proof.
  intros Hm Hf s. unfold mbind, H_bind. specialize (Hm s). destruct (m s) as [x s1]. cbn in Hm. intros Hr.
  etrans; [exact Hm | by apply Hf].
Qed.

Lemma guarded_get (f : Store → H response) : (∀ x, guarded (f x)) → guarded (get ≫= f).
Proof. intros Hf s. apply Hf. Qed.

(** A program whose answers are no rejections. *)
Definition accepting (m : H response) : Prop := ∀ s, ¬ rejected (fst (m s)).

Lemma accepting_guarded m : accepting m → guarded m.
Proof. intros Hm s Hr. by destruct (Hm s). Qed.

Lemma accepting_bind {A} (m : H A) (f : A → H response) : (∀ x, accepting (f x)) → accepting (m ≫= f).
Proof. intros Hf s. unfold mbind, H_bind. destruct (m s). apply Hf. Qed.

Lemma accepting_ret r : ¬ rejected r → accepting (mret r).
Proof. by intros Hr s. Qed.

Lemma accepted_ok b : ¬ rejected (ok b).
Proof. cbn. unfold StatusOK. lia. Qed.

Lemma accepted_500 t msg : ¬ rejected (writeErr StatusInternalServerError t msg).
Proof. cbn. unfold StatusInternalServerError. lia. Qed.

Hint Resolve guarded_ret accepted_ok accepted_500 inert_tick inert_send inert_now inert_fresh inert_register : core.

Lemma accepting_save_agent a : accepting (save_agent Marshal a).
Proof. apply accepting_bind. intros []; apply accepting_ret; auto. Qed.

Lemma accepting_save_environment e : accepting (save_environment Marshal e).
Proof. apply accepting_bind. intros []; apply accepting_ret; auto. Qed.

(** The batch is valid, so that no event of it is refused for its content. *)
Lemma batch_valid ev events :
  batch_error cfg (ev :: events) = None →
  (ev_Type ev = EvtUserDefineOutcome → ∃ x, validateDefineOutcome cfg ev = inl x) ∧ batch_error cfg events = None.
Proof.
  unfold batch_error. cbn. destruct (decide (ev_Type ev = EvtUserDefineOutcome)) as [Ht | Ht].
  - destruct (validateDefineOutcome cfg ev) as [x | msg]; [| done]. intros He. split; [by exists x | done].
  - intros He. by split.
Qed.

Lemma deliver_outcome_status ptr ev s :
  (∃ x, validateDefineOutcome cfg ev = inl x) →
  from_option (λ x : Z * string, x.1 = 409%Z ∨ x.1 = 500%Z) True (fst (deliverDefineOutcome Marshal cfg ptr ev s)).
Proof.
  intros [[[desc rubric] maxIter] E']. unfold deliverDefineOutcome. rewrite E'. unfold mbind, H_bind.
  destruct (now s) as [t s1]. destruct (fresh _ s1) as [id s2]. destruct (tick s2) as [c s3]. destruct (now s3) as [t' s4].
  destruct (store_do _ s4) as [[[] []] s5]; cbn; first [done | by left | by right].
Qed.

Lemma accepting_deliver ptr events : batch_error cfg events = None → accepting (deliver Marshal cfg ptr events).
Proof.
  induction events as [| ev events IH]; intros Hb; [by apply accepting_ret |].
  destruct (batch_valid ev events Hb) as [Hev Hb']. cbn [deliver].
  destruct (decide _); [by apply accepting_bind; intros; apply IH |].
  destruct (decide _) as [Ht |]; [| destruct (decide _); [do 2 (apply accepting_bind; intros); by apply IH | by apply IH]].
  intros s. unfold mbind, H_bind. pose proof (deliver_outcome_status ptr ev s (Hev Ht)) as Hs.
  destruct (deliverDefineOutcome Marshal cfg ptr ev s) as [[[status msg] |] s1]; [| by apply IH]. cbn in *. lia.
Qed.

Lemma guarded_deliver ptr events : batch_error cfg events = None → guarded (deliver Marshal cfg ptr events).
Proof. intros Hb. by apply accepting_guarded, accepting_deliver. Qed.

Lemma guarded_send id req : guarded (sendEvents Marshal cfg rt id req).
Proof.
  unfold sendEvents. apply guarded_get. intros st. destruct (GetSession id st) as [ptr |]; [| auto].
  destruct req as [events |]; [| auto]. destruct (batch_error cfg events) eqn:Hb; [auto |].
  apply guarded_bind.
  - destruct (_ || _); [apply inert_reconcile | apply inert_ret].
  - intros [e |]; [auto | by apply guarded_deliver].
Qed.

(** The text of a failed save is not that of a failed registration. *)
Definition save_error_own : Prop := strip_prefix "register ahsir agent" h_save_error = None.

Lemma strip_prefix_own p t : strip_prefix p (p +:+ t) ≠ None.
Proof. by rewrite strip_prefix_app. Qed.

Lemma guarded_create_session req : save_error_own → guarded (createSession Marshal rt req).
Proof.
  intros Hown.
  destruct req as [req |]; cbn [createSession]; [| auto]. destruct (decide _); [auto |].
  unfold createSessionRecord. intros s. unfold mbind, H_bind. cbn [get].
  destruct (resolve_session _ _ _) as [a | err]; [| by intros _].
  unfold mbind, H_bind. pose proof (inert_register (AhsirAgentName (ag_ID a) (Version a)) a s) as Hreg.
  destruct (ensureRegistered _ _ _ s) as [[e |] s1]; cbn in Hreg; [intros _; exact Hreg |].
  destruct (now s1) as [t s2]. destruct (fresh _ s2) as [id s3]. destruct (fresh _ s3) as [ctx s4].
  destruct (store_do _ s4) as [ptr s5]. destruct (store_do _ s5) as [[] s6]; intros Hr; [by apply accepted_ok in Hr |].
  exfalso. revert Hr. cbn [fst mret H_ret get session_failure session_message]. rewrite Hown. apply accepted_500.
Qed.

(** (C24) A request that is turned away leaves no trace: whatever the request, the
    caller's key and the scheduler's answers, when the response is a client error
    other than a conflict (400, 401, 404 or a status relayed from the scheduler)
    or 502, the store is unchanged - no event, no session, no file -, no turn or
    outcome is enqueued and nothing is cancelled. In particular a batch with one
    malformed outcome is rejected whole, and a batch whose agent cannot be
    registered is rejected before anything of it is recorded. *)
Theorem rejected_leaves_no_trace keys key key' r s :
  save_error_own → rejected (fst (auth Marshal cfg rt keys key key' r s)) → inert s (snd (auth Marshal cfg rt keys key key' r s)).
Proof.
  intros Hown. assert (guarded (auth Marshal cfg rt keys key key' r)) as Hg; [| apply Hg].
  unfold auth. destruct (authorized _ _ _); [| auto].
  destruct r; cbn [Handler]; try apply guarded_send; try by apply guarded_create_session.
  - destruct req as [req |]; cbn [createAgent]; [| auto]. destruct (decide _); [auto |].
    apply accepting_guarded. do 2 (apply accepting_bind; intros). apply accepting_save_agent.
  - by apply guarded_get.
  - apply guarded_get. intros st. cbv zeta. destruct (GetAgent _ _ _); auto.
  - apply guarded_get. intros st. destruct (GetAgentRecord id st); [| auto]. destruct req as [req |]; cbn [updateAgent_write]; [| auto].
    apply guarded_bind; [auto |]. intros t. destruct (if decide _ then _ else _); [| auto].
    apply accepting_guarded, accepting_save_agent.
  - intros st. unfold archiveAgent, ArchiveAgent, store_do, now, tick, mbind, H_bind. cbn. destruct (agents _ !! id); cbn; [intros []%(accepted_ok BEmpty) | by destruct st].
  - destruct req as [req |]; cbn [createEnvironment]; [| auto]. destruct (decide _); [auto |].
    apply accepting_guarded. do 2 (apply accepting_bind; intros). apply accepting_save_environment.
  - by apply guarded_get.
  - apply guarded_get. intros st. destruct (GetEnvironment id st); auto.
  - apply guarded_get. intros st. destruct (GetEnvironment id st); [| auto]. destruct req; [| auto].
    apply accepting_guarded, accepting_bind. intros. apply accepting_save_environment.
  - apply guarded_get. intros st. destruct (GetEnvironment id st); [| auto].
    apply accepting_guarded, accepting_bind. intros. apply accepting_save_environment.
  - intros st. unfold deleteEnvironment, DeleteEnvironment, store_do, mbind, H_bind. cbn. destruct (environments _ !! id); cbn; [| by destruct st].
    destruct (saveLocked _ _) as [st' []]; cbn; [intros []%(accepted_ok BEmpty) | intros []%(accepted_500 "" "")].
  - by apply guarded_get.
  - apply guarded_get. intros st. destruct (GetSession id st); auto.
  - apply guarded_get. intros st. destruct (GetSession id st); [| auto]. destruct req; [| auto].
    apply accepting_guarded. do 3 (apply accepting_bind; intros). by apply accepting_ret.
  - apply guarded_get. intros st. destruct (GetSession id st); [| auto].
    apply accepting_guarded. do 5 (apply accepting_bind; intros). by apply accepting_ret.
  - apply guarded_get. intros st. destruct (GetSession id st); [| auto].
    apply accepting_guarded. do 6 (apply accepting_bind; intros). by apply accepting_ret.
  - apply guarded_get. intros st. destruct (GetSession id st); auto.
  - apply guarded_get. intros st. destruct (GetSession id st); [| auto]. destruct flushable; [| auto].
    apply accepting_guarded, accepting_bind. intros. by apply accepting_ret.
Qed.

(** ** Requests as histories of the store *)

(** The scheduler's name of a session is that of the version it is pinned to. *)
Definition session_named (r : SessionRecord) : Prop :=
  AhsirName r = AhsirAgentName (sa_ID (s_Agent (r_Session r))) (sa_Version (s_Agent (r_Session r))).

Definition named_op (o : op) : Prop :=
  match o with OpAlloc sess name _ => name = AhsirAgentName (sa_ID (s_Agent sess)) (sa_Version (s_Agent sess)) | _ => True end.

Record store_ok (st : Store) : Prop := {
  ok_wf : wf st;
  ok_outcomes : all_outcomes_ok st;
  ok_named : ∀ p r, heap st !! p = Some r → session_named r;
}.

Lemma save_next st : next (fst (saveLocked Marshal st)) = next st.
Proof. by destruct (saveLocked_file Marshal st) as [f ->]. Qed.

Lemma apply_next st o :
  match o with OpAlloc _ _ _ | OpSubscribe _ => True | _ => next (apply Marshal h_sessions st o) = next st end.
Proof.
  destruct o; try done; cbn [apply];
    unfold ArchiveAgent, DeleteEnvironment, PutSession, DeleteSession, AppendEvent, Append, SetSessionStatus, UpdateSessionMeta,
      ArchiveSession, update_session, SetInFlightTask, SetOutcomeCancel, beginOutcome, UpdateOutcome, SaveSnapshot,
      Unsubscribe, receive, persist, PutAgentVersion, PutEnvironment;
    try rewrite Reconcile_unfold; cbv zeta; rewrite ?fst_pair_bind;
    repeat match goal with |- context [match ?x with _ => _ end] =>
      lazymatch x with saveLocked _ _ => rewrite fst_pair_bind | _ => destruct x end end;
    cbn [fst snd]; rewrite ?save_next; done.
Qed.

(** Only an allocation makes a record. *)
Lemma apply_heap_dom st o p :
  (if o is OpAlloc _ _ _ then False else True) → visits h_sessions → wf st →
  is_Some (heap (apply Marshal h_sessions st o) !! p) → is_Some (heap st !! p).
Proof.
  intros Ho Hv W [r Hr]. destruct (st_heap _ _ _ (apply_step Marshal h_sessions st o Hv W) p r Hr) as [(r0 & Hr0 & _) | (Hlt & _)];
    [by exists r0 |].
  pose proof (apply_next st o) as Hn. destruct o; try done; try lia. clear Hlt. cbn [apply] in Hr. unfold Subscribe in Hr.
  destruct (heap st !! ptr) as [r0 |] eqn:Hp; [| by exists r]. cbn in Hr. destruct (decide (ptr = p)) as [<- | Hne]; [by exists r0 |].
  rewrite lookup_insert_ne in Hr by done. by exists r.
Qed.

Lemma apply_store_ok st o : visits h_sessions → fair st o → named_op o → store_ok st → store_ok (apply Marshal h_sessions st o).
Proof.
  intros Hv HF Hn [W Ho Hnm]. split; [by apply apply_wf | by apply apply_outcomes_ok |]. intros p r Hr.
  destruct (decide (is_Some (heap st !! p))) as [[r0 Hr0] | Hnone].
  - destruct (apply_evolves Marshal h_sessions st o p r0 Hv W Hr0) as (r' & Hr' & He). rewrite Hr in Hr'. injection Hr' as <-.
    destruct (ev_name _ _ _ He) as (E1 & _ & E2). specialize (Hnm p r0 Hr0). unfold session_named in *. by rewrite E1, E2.
  - destruct o; try (exfalso; apply Hnone; eapply apply_heap_dom; [| exact Hv | exact W |]; [| eauto]; done).
    cbn [apply alloc fst heap] in Hr. destruct (decide (next st = p)) as [<- | Hne].
    + rewrite lookup_insert_eq in Hr. by injection Hr as <-.
    + rewrite lookup_insert_ne in Hr by done. by apply (Hnm p).
Qed.

Lemma run_store_ok ops : ∀ st, visits h_sessions → fair_run Marshal h_sessions st ops → Forall named_op ops → store_ok st →
  store_ok (run Marshal h_sessions ops st).
Proof.
  induction ops as [| o ops IH]; intros st Hv HF Hn Hst; [done |]. destruct HF as [HF1 HF2]. inversion_clear Hn.
  apply IH; try done. by apply apply_store_ok.
Qed.

Definition history (s s' : facade) : Prop :=
  ∃ ops, h_store s' = run Marshal h_sessions ops (h_store s) ∧ fair_run Marshal h_sessions (h_store s) ops ∧ Forall named_op ops.

Lemma fair_run_app ops1 : ∀ st ops2,
  fair_run Marshal h_sessions st ops1 → fair_run Marshal h_sessions (run Marshal h_sessions ops1 st) ops2 →
  fair_run Marshal h_sessions st (ops1 ++ ops2).
Proof. induction ops1 as [| o ops1 IH]; intros st ops2 H1 H2; [done |]. destruct H1 as [H1 H1']. split; [done | by apply IH]. Qed.

#[local] Instance history_preorder : PreOrder history.
Proof.
  split.
  - intros x. by exists [].
  - intros s1 s2 s3 (ops1 & E1 & F1 & N1) (ops2 & E2 & F2 & N2). exists (ops1 ++ ops2). rewrite E1 in E2, F2. split_and!.
    + rewrite E2. unfold run. by rewrite foldl_app.
    + by apply fair_run_app.
    + by apply Forall_app.
Qed.

(** Operations that are fair everywhere. *)
Definition plain (o : op) : Prop :=
  match o with OpUpdate _ _ _ _ => False | OpAlloc sess _ _ => OutcomeEvaluations sess = [] ∧ named_op o | _ => True end.

Lemma plain_run ops : ∀ st, Forall plain ops → fair_run Marshal h_sessions st ops ∧ Forall named_op ops.
Proof.
  induction ops as [| o ops IH]; intros st Hp; [done |]. inversion_clear Hp as [| ?? Ho Hops].
  destruct (IH (apply Marshal h_sessions st o) Hops) as [H1 H2]. split; [split; [| done] | constructor; [| done]]; destruct o; naive_solver.
Qed.

Lemma history_store_do {A} (f : Store → Store * A) :
  (∀ st, ∃ ops, fst (f st) = run Marshal h_sessions ops st ∧ Forall plain ops) → respects history (store_do f).
Proof.
  intros Hf s. destruct (Hf (h_store s)) as (ops & E' & Hp). unfold store_do. destruct (f (h_store s)) as [st x]. cbn in *.
  exists ops. destruct (plain_run ops (h_store s) Hp). by split_and!.
Qed.

Lemma history_lift {A} (m : M A) : appends m (λ _ l, Forall plain (omap did l)) → respects history (lift Marshal m).
Proof.
  intros Hm s. unfold lift. destruct (Hm (h_trace s)) as (l & E' & Hp). destruct (m (h_trace s)) as [x tr]. cbn in *. subst tr.
  rewrite drop_app_length. eexists. split; [done |]. by apply plain_run.
Qed.

Lemma history_same {A} (m : H A) : (∀ s, h_store (snd (m s)) = h_store s) → respects history m.
Proof. intros Hm s. exists []. by rewrite Hm. Qed.

(** One operation. *)
Lemma history_op {A} o (f : Store → Store * A) :
  plain o → (∀ st, fst (f st) = apply Marshal h_sessions st o) → respects history (store_do f).
Proof. intros Ho Hf. apply history_store_do. intros st. exists [o]. split; [apply Hf | by constructor]. Qed.

Lemma history_bind {A B} (m : H A) (f : A → H B) : respects history m → (∀ x, respects history (f x)) → respects history (m ≫= f).
Proof. apply respects_bind, _. Qed.

Lemma history_get {B} (f : Store → H B) : (∀ st, respects history (f st)) → respects history (get ≫= f).
Proof. apply respects_get. Qed.

Lemma history_ret {A} (x : A) : respects history (mret x).
Proof. by apply history_same. Qed.

Lemma history_send c : respects history (send_call c).
Proof. by apply history_same. Qed.

Lemma history_tick : respects history tick.
Proof. by apply history_same. Qed.

Lemma history_now : respects history now.
Proof. by apply history_same. Qed.

Lemma history_fresh p : respects history (fresh p).
Proof. by apply history_same. Qed.

Lemma history_enqueue j : respects history (EnqueueTurn j).
Proof. by apply history_same. Qed.

Lemma history_cancel f : respects history (call_cancel f).
Proof. by apply history_same. Qed.

Lemma history_register name a : respects history (ensureRegistered rt name a).
Proof. apply history_same. intros s. destruct (inert_register name a s) as [E' _]. exact E'. Qed.

Lemma history_reconcile ptr : respects history (reconcileSession rt ptr).
Proof. apply history_same. intros s. destruct (inert_reconcile ptr s) as [E' _]. exact E'. Qed.

Hint Resolve history_ret history_send history_tick history_now history_fresh history_enqueue history_cancel history_register
  history_reconcile : core.

Lemma plain_append ev ptr : Forall plain (omap did [Did (OpAppend ptr ev)]).
Proof. by repeat constructor. Qed.

(** An event made and appended. *)
Lemma history_emit ptr ty (f : Event → Event) : respects history (lift Marshal (ev ← newEvent ty; emit ptr (f ev))).
Proof.
  apply history_lift. eapply appends_bind; [by apply (appends_newEvent ty (λ _ l, l = [])) |].
  intros ev l1 ->. eapply appends_mono; [apply appends_tell |]. intros [] l ->. apply plain_append.
Qed.

Lemma history_deliver_message ptr content : respects history (deliver_message Marshal ptr content).
Proof.
  apply history_bind; [| auto]. apply history_lift. unfold deliverUserMessage.
  eapply appends_bind; [by apply (appends_newEvent EvtUserMessage (λ _ l, l = [])) |].
  intros ev l1 ->. eapply appends_bind; [apply appends_tell |]. intros [] l ->. apply appends_ret. apply plain_append.
Qed.

Lemma history_save_agent a : respects history (save_agent Marshal a).
Proof. apply history_bind; [| auto]. by apply (history_op (OpPutAgent a)). Qed.

Lemma history_save_environment e : respects history (save_environment Marshal e).
Proof. apply history_bind; [| auto]. by apply (history_op (OpPutEnvironment e)). Qed.

Hint Resolve history_save_agent history_save_environment history_deliver_message : core.

Lemma history_cancel_outcome ptr : respects history (cancel_outcome ptr).
Proof. apply history_get. intros st. destruct (CancelOutcome ptr st); auto. Qed.

Lemma history_cancel_in_flight ptr : respects history (cancelInFlight ptr).
Proof. apply history_get. intros st. destruct (decide _); [auto | by apply history_bind]. Qed.

Lemma history_gc ptr : respects history (gcAhsirAgentIfUnused ptr).
Proof.
  apply history_get. intros st. destruct (session_ref ptr st) as [name grader]. destruct (decide _); [| auto].
  do 2 (apply history_bind; [auto | intros _]). auto.
Qed.

Hint Resolve history_cancel_outcome history_cancel_in_flight history_gc : core.

Lemma history_outcome ptr ev : respects history (deliverDefineOutcome Marshal cfg ptr ev).
Proof.
  unfold deliverDefineOutcome. destruct (validateDefineOutcome cfg ev) as [[[desc rubric] maxIter] |]; [| auto].
  apply history_bind; [auto | intros t]. apply history_bind; [auto | intros id]. apply history_bind; [auto | intros c].
  apply history_bind; [auto | intros t']. apply history_bind.
  - apply (history_op (OpBegin t' ptr (new_outcome id desc rubric maxIter t) (Some (Z.of_nat c)))); [done |].
    intros st. unfold BeginOutcomeWithCancel. cbn [apply]. by destruct (beginOutcome _ _ _ _ _ _) as [[? ?] ?].
  - intros [accepted saved]. destruct (negb saved); [by apply history_bind |]. destruct (negb accepted); [by apply history_bind |].
    apply history_bind; [apply history_emit | intros _]. by apply history_bind.
Qed.

Lemma history_deliver ptr events : respects history (deliver Marshal cfg ptr events).
Proof.
  induction events as [| ev events IH]; [auto |]. cbn [deliver].
  destruct (decide _); [by apply history_bind |]. destruct (decide _).
  - apply history_bind; [apply history_outcome |]. intros [[] |]; auto.
  - destruct (decide _); [by do 2 (apply history_bind; [auto | intros _]) | done].
Qed.

Lemma history_send_events id req : respects history (sendEvents Marshal cfg rt id req).
Proof.
  apply history_get. intros st. destruct (GetSession id st) as [ptr |]; [| auto]. destruct req as [events |]; [| auto].
  destruct (batch_error cfg events); [auto |]. apply history_bind; [destruct (_ || _); auto |].
  intros [e |]; [auto | apply history_deliver].
Qed.

Lemma history_create_session ref envID title meta : respects history (createSessionRecord Marshal rt ref envID title meta).
Proof.
  apply history_get. intros st. destruct (resolve_session _ _ _) as [a |]; [| auto]. cbv zeta.
  apply history_bind; [auto |]. intros [e |]; [auto |]. do 3 (apply history_bind; [auto | intros ?]).
  apply history_bind; [by apply (history_op (OpAlloc (new_session x0 title envID a meta x) (AhsirAgentName (ag_ID a) (Version a)) x1)) |].
  intros ptr. apply history_bind; [by apply (history_op (OpPutSession ptr)) |]. intros []; auto.
Qed.

Lemma history_delete_begin ptr s : h_store (snd (deleteSession_begin ptr s)) = h_store s.
Proof.
  unfold deleteSession_begin, cancelInFlight, cancel_outcome, mbind, H_bind. cbn.
  destruct (decide _); cbn; destruct (CancelOutcome _ _); done.
Qed.

Lemma history_delete_end ptr : respects history (deleteSession_end Marshal ptr).
Proof.
  apply history_bind; [apply (history_emit ptr EvtSessionDeleted id) | intros _]. apply history_get. intros st. cbv zeta.
  apply history_bind; [| intros _; by apply history_bind].
  apply (history_op (OpDeleteSession (from_option s_ID "" (session_at ptr st)))); [done |]. intros st'. cbn [apply].
  by destruct (DeleteSession _ _ _) as [[? ?] ?].
Qed.

(** What other goroutines do while a deletion waits is fair. *)
Definition waits_fairly (r : request) (st : Store) : Prop :=
  match r with
  | DeleteSessionReq _ during => fair_run Marshal h_sessions st during ∧ Forall named_op during
  | _ => True
  end.

Lemma request_history keys key key' r s :
  waits_fairly r (h_store s) → history s (snd (auth Marshal cfg rt keys key key' r s)).
Proof.
  intros Hwait.
  unfold auth. destruct (authorized keys key key'); [| by apply history_ret].
  destruct r; cbn [Handler]; try (by apply history_get; auto); try apply history_send_events.
  - destruct req as [req |]; cbn [createAgent]; [| by apply history_ret]. destruct (decide _); [by apply history_ret |].
    do 2 (apply history_bind; [auto | intros ?]). auto.
  - apply history_get. intros st. destruct (GetAgentRecord id st) as [rec |]; [| auto].
    destruct req as [req |]; cbn [updateAgent_write]; [| auto]. apply history_bind; [auto | intros t].
    destruct (if decide _ then _ else _); auto.
  - apply history_bind; [auto | intros t]. apply history_bind; [| auto].
    apply (history_op (OpArchiveAgent id t)); [done |]. intros st. done.
  - destruct req as [req |]; cbn [createEnvironment]; [| by apply history_ret]. destruct (decide _); [by apply history_ret |].
    do 2 (apply history_bind; [auto | intros ?]). auto.
  - apply history_get. intros st. destruct (GetEnvironment id st); [| auto]. destruct req; [| auto]. by apply history_bind.
  - apply history_get. intros st. destruct (GetEnvironment id st); [| auto]. by apply history_bind.
  - apply history_bind; [| intros []; auto]. apply (history_op (OpDeleteEnvironment id)); [done |]. intros st. cbn [apply].
    by destruct (DeleteEnvironment _ _ _) as [[? ?] ?].
  - destruct req as [req |]; cbn [createSession]; [| by apply history_ret]. destruct (decide _); [by apply history_ret |].
    apply history_bind; [apply history_create_session | intros x]. apply history_get. auto.
  - apply history_get. intros st. destruct (GetSession id st) as [ptr |]; [| auto]. destruct req as [req |]; [| auto].
    apply history_bind; [auto | intros t]. apply history_bind; [| intros _; by apply history_get].
    by apply (history_op (OpMeta t ptr (su_Title req) (su_Metadata req) (su_VaultIDs req))).
  - apply history_get. intros st. destruct (GetSession id st) as [ptr |]; [| auto].
    apply history_bind; [auto | intros _]. apply history_bind; [auto | intros t].
    apply history_bind; [by apply (history_op (OpArchiveSession ptr t)) | intros _].
    apply history_bind; [auto | intros _]. by apply history_get.
  - destruct Hwait as [Hf Hn]. unfold deleteSession, mbind, H_bind, get. cbn beta iota.
    destruct (GetSession id (h_store s)) as [ptr |]; [| by apply history_ret].
    pose proof (history_delete_begin ptr s) as Hb. destruct (deleteSession_begin ptr s) as [[] s1]. cbn in Hb.
    etrans; [| apply history_delete_end]. exists during. rewrite <- Hb in Hf |- *. by split_and!.
  - apply history_get. intros st. destruct (GetSession id st) as [ptr |]; [| auto]. destruct flushable; [| auto].
    apply history_bind; [by apply (history_op (OpSubscribe ptr)) | auto].
Qed.

(** (C23) The facade implements its requests by operations of the store only: the
    effect of any request - authorised or not, successful or not - is a history
    of the store's operations in which an outcome is never revived or renamed, so
    that everything proved of such histories (one active outcome, append-only
    logs, agent versions, reload) holds of the facade; and the invariant is kept:
    session ids and records agree, at most the last outcome of a session is
    active, and a session's scheduler agent is the one of the version it is
    pinned to. While a deletion waits, other goroutines may do anything fair. *)
Theorem requests_refine_store keys key key' r s :
  visits h_sessions → waits_fairly r (h_store s) → store_ok (h_store s) →
  ∃ ops, h_store (snd (auth Marshal cfg rt keys key key' r s)) = run Marshal h_sessions ops (h_store s) ∧
    fair_run Marshal h_sessions (h_store s) ops ∧ store_ok (run Marshal h_sessions ops (h_store s)).
Proof.
  intros Hv Hwait Hok. destruct (request_history keys key key' r s Hwait) as (ops & E1 & HF & Hn).
  exists ops. split_and!; [done | done | by apply run_store_ok].
Qed.

(** ** Batches *)

(** The state of the session while a batch is delivered. *)
Definition log_at (ptr : Z) (s : facade) : option (list Event) := Events <$> heap (h_store s) !! ptr.

Lemma log_append ptr st ev evs :
  Events <$> heap st !! ptr = Some evs → Events <$> heap (apply Marshal h_sessions st (OpAppend ptr ev)) !! ptr = Some (evs ++ [ev]).
Proof.
  intros Hl. cbn [apply]. unfold AppendEvent, persist. destruct (saveLocked_file Marshal (Append ptr ev st)) as [f ->]. cbn.
  unfold Append. destruct (heap st !! ptr) as [r |] eqn:Hr; [| done]. cbn. rewrite lookup_insert_eq. injection Hl as <-. done.
Qed.

Lemma log_begin now ptr oc c st :
  Events <$> heap (fst (fst (beginOutcome Marshal now ptr oc c st))) !! ptr = Events <$> heap st !! ptr.
Proof.
  unfold beginOutcome. destruct (heap st !! ptr) as [r |] eqn:Hr; cbn; [| by rewrite Hr].
  destruct (outcome_active _); cbn; [by rewrite Hr |]. rewrite fst_pair_bind. cbn. unfold persist.
  match goal with |- context [saveLocked Marshal ?x] => destruct (saveLocked_file Marshal x) as [f E'] end.
  rewrite E'. cbn. rewrite lookup_insert_eq. by destruct c.
Qed.

(** What is recorded and enqueued for one event of a batch. *)
Definition recorded (ptr : Z) (ev e : Event) (j : job) : Prop :=
  (ev_Type ev = EvtUserMessage ∧ ev_Type e = EvtUserMessage ∧ Content e = Content ev ∧ j = JobTurn ptr (textOf (Content ev))) ∨
  (ev_Type ev = EvtUserDefineOutcome ∧ ev_Type e = EvtUserDefineOutcome ∧ j = JobOutcome ptr (OutcomeID e) ∧
   ev_Description e = TrimSpace (ev_Description ev)).

Definition dispatched (ev : Event) : Prop := ev_Type ev = EvtUserMessage ∨ ev_Type ev = EvtUserDefineOutcome.

#[local] Instance dispatched_dec ev : Decision (dispatched ev).
Proof. unfold dispatched. apply _. Defined.

Lemma log_deliver_message ptr content evs s :
  log_at ptr s = Some evs → ∃ e, ev_Type e = EvtUserMessage ∧ Content e = content ∧
    log_at ptr (snd (deliver_message Marshal ptr content s)) = Some (evs ++ [e]) ∧
    h_jobs (snd (deliver_message Marshal ptr content s)) = h_jobs s ++ [JobTurn ptr (textOf content)] ∧
    h_calls (snd (deliver_message Marshal ptr content s)) = h_calls s.
Proof.
  intros Hl. exists (with_content content (event_of (newID (length (h_trace s))) EvtUserMessage (Some (clock (length (h_trace s)))))).
  split_and!; [done | done | | done | done]. unfold deliver_message, mbind, H_bind, lift, log_at.
  match goal with |- context [with_content content ?e0] =>
    change (deliverUserMessage ptr content (h_trace s)) with (textOf content, h_trace s ++ [Did (OpAppend ptr (with_content content e0))]) end.
  cbv beta iota zeta. rewrite drop_app_length. cbn -[apply]. by apply log_append.
Qed.

Lemma log_define_outcome ptr ev evs s :
  log_at ptr s = Some evs →
  match deliverDefineOutcome Marshal cfg ptr ev s with
  | (None, s') => ∃ e, ev_Type e = EvtUserDefineOutcome ∧ ev_Description e = TrimSpace (ev_Description ev) ∧
      log_at ptr s' = Some (evs ++ [e]) ∧ h_jobs s' = h_jobs s ++ [JobOutcome ptr (OutcomeID e)] ∧ h_calls s' = h_calls s
  | (Some _, s') => log_at ptr s' = Some evs ∧ h_jobs s' = h_jobs s ∧ h_calls s' = h_calls s
  end.
Proof.
  intros Hl. unfold deliverDefineOutcome. destruct (validateDefineOutcome cfg ev) as [[[desc rubric] maxIter] |] eqn:Hv; [| done].
  assert (desc = TrimSpace (ev_Description ev)) as ->.
  { revert Hv. unfold validateDefineOutcome. cbv zeta. repeat case_match; congruence. }
  unfold now, fresh, tick, mbind, H_bind, mret, H_ret, store_do, BeginOutcomeWithCancel.
  cbn beta iota zeta delta [h_store h_trace h_calls h_jobs h_cancels h_tick].
  match goal with |- context [beginOutcome ?M ?t ?p ?oc ?c ?st] => pose proof (log_begin t p oc c st) as Hb;
    destruct (beginOutcome M t p oc c st) as [[st' accepted] saved] eqn:Eb end.
  cbn in Hb. destruct saved; cbn [negb]; [| unfold log_at in *; cbn; by rewrite Hb].
  destruct accepted; cbn [negb]; [| unfold log_at in *; cbn; by rewrite Hb].
  unfold lift, EnqueueTurn. cbn beta iota zeta delta [h_store h_trace h_calls h_jobs h_cancels h_tick].
  match goal with |- context [echoDefineOutcome ptr ev ?id ?d ?m ?tr] =>
    change (echoDefineOutcome ptr ev id d m tr) with (tt, tr ++ [Did (OpAppend ptr (with_define d (ev_Rubric ev) m id
      (event_of (newID (length tr)) EvtUserDefineOutcome (Some (clock (length tr))))))]) end.
  cbv beta iota zeta. rewrite drop_app_length.
  eexists (with_define _ _ _ _ (event_of _ EvtUserDefineOutcome _)). split_and!; [done | done | | done | done].
  unfold log_at. cbn -[apply]. apply log_append. rewrite Hb. exact Hl.
Qed.

Definition is_refusal (ev : Event) (resp : response) : Prop := ev_Type ev = EvtUserDefineOutcome ∧ ∃ status t msg, resp = writeErr status t msg.

(** [deliver] from any point of a batch: the events taken, what they left, and
    the event that was refused, if any. *)
Lemma deliver_in_order ptr events : ∀ evs s resp s',
  log_at ptr s = Some evs → deliver Marshal cfg ptr events s = (resp, s') →
  ∃ taken rest new js, events = taken ++ rest ∧ log_at ptr s' = Some (evs ++ new) ∧ h_jobs s' = h_jobs s ++ js ∧
    Forall3 (recorded ptr) (filter dispatched taken) new js ∧ h_calls s `prefix_of` h_calls s' ∧
    match rest with [] => resp = ok BEmpty | ev :: _ => is_refusal ev resp end.
Proof.
  induction events as [| ev events IH]; intros evs s resp s' Hl Hd; cbn [deliver] in Hd.
  { injection Hd as <- <-. exists [], [], [], []. rewrite !app_nil_r. split_and!; try done; by constructor. }
  assert (∀ s1 new js, log_at ptr s1 = Some (evs ++ new) → h_jobs s1 = h_jobs s ++ js → h_calls s `prefix_of` h_calls s1 →
            Forall3 (recorded ptr) (filter dispatched [ev]) new js → deliver Marshal cfg ptr events s1 = (resp, s') →
            ∃ taken rest new js, ev :: events = taken ++ rest ∧ log_at ptr s' = Some (evs ++ new) ∧ h_jobs s' = h_jobs s ++ js ∧
              Forall3 (recorded ptr) (filter dispatched taken) new js ∧ h_calls s `prefix_of` h_calls s' ∧
              match rest with [] => resp = ok BEmpty | ev :: _ => is_refusal ev resp end) as Hnext.
  { intros s1 new js Hl1 Hj1 Hc1 Hr1 Hd1. destruct (IH _ _ _ _ Hl1 Hd1) as (taken & rest & new' & js' & -> & H1 & H2 & H3 & H4 & H5).
    exists (ev :: taken), rest, (new ++ new'), (js ++ js'). rewrite !app_assoc, H1, H2, Hj1. split_and!; [done | done | done | | by etrans | done].
    change (ev :: taken) with ([ev] ++ taken). rewrite filter_app. by apply Forall3_app. }
  unfold mbind, H_bind in Hd. destruct (decide (ev_Type ev = EvtUserMessage)) as [Hm | Hm].
  - destruct (log_deliver_message ptr (Content ev) evs s Hl) as (e & He1 & He2 & He3 & He4 & He5).
    destruct (deliver_message Marshal ptr (Content ev) s) as [[] s1]. cbn in *.
    eapply (Hnext s1 [e] [_]); [done | done | by rewrite He5 | | done]. rewrite decide_True by by left.
    constructor; [left; by split_and! | constructor].
  - destruct (decide (ev_Type ev = EvtUserDefineOutcome)) as [Ho | Ho].
    + pose proof (log_define_outcome ptr ev evs s Hl) as Hspec.
      destruct (deliverDefineOutcome Marshal cfg ptr ev s) as [[[status msg] |] s1].
      * destruct Hspec as (He1 & He2 & He3). injection Hd as <- <-. exists [], (ev :: events), [], [].
        rewrite !app_nil_r. split_and!; try done; [constructor | by rewrite He3 |]. split; [done | by do 3 eexists].
      * destruct Hspec as (e & He1 & He2 & He3 & He4 & He5).
        eapply (Hnext s1 [e] [_]); [done | done | by rewrite He5 | | done]. cbn. rewrite decide_True by by right.
        constructor; [right; by split_and! | constructor].
    + assert (filter dispatched [ev] = []) as Hf by (cbn; by rewrite decide_False by (by intros [])).
      destruct (decide (ev_Type ev = EvtUserInterrupt)) as [Hi | Hi].
      * assert (∀ s, log_at ptr (snd (cancelInFlight ptr s)) = log_at ptr s ∧ h_jobs (snd (cancelInFlight ptr s)) = h_jobs s ∧
                     h_calls s `prefix_of` h_calls (snd (cancelInFlight ptr s))) as Hc.
        { intros s0. unfold cancelInFlight, mbind, H_bind. cbn. destruct (decide _); cbn; split_and!; try done. by apply prefix_app_r. }
        assert (∀ s, log_at ptr (snd (cancel_outcome ptr s)) = log_at ptr s ∧ h_jobs (snd (cancel_outcome ptr s)) = h_jobs s ∧
                     h_calls (snd (cancel_outcome ptr s)) = h_calls s) as Hc'.
        { intros s0. unfold cancel_outcome, mbind, H_bind. cbn. by destruct (CancelOutcome _ _). }
        destruct (Hc s) as (A1 & A2 & A3). destruct (cancelInFlight ptr s) as [[] s1]. cbn in A1, A2, A3.
        destruct (Hc' s1) as (B1 & B2 & B3). destruct (cancel_outcome ptr s1) as [[] s2]. cbn in B1, B2, B3.
        apply (Hnext s2 [] []); [by rewrite app_nil_r, B1, A1 | by rewrite app_nil_r, B2 | by rewrite B3 | rewrite Hf; constructor | done].
      * apply (Hnext s [] []); [by rewrite app_nil_r | by rewrite app_nil_r | done | rewrite Hf; constructor | done].
Qed.

(** The scheduler confirmed the session's agent at the first request of the run. *)
Definition confirmed (ptr : Z) (s s' : facade) : Prop :=
  ∃ r card inst more, heap (h_store s) !! ptr = Some r ∧ h_calls s' = h_calls s ++ CallRegister (AhsirName r) card inst :: more ∧
    RegisterAgent h_url (AhsirName r) (h_answer (length (h_calls s))) = None.

(** A batch of events is accepted in order, up to the first outcome that is
    refused: the events accepted are a prefix of the batch, and for each message
    and outcome of the prefix - in the order of the batch - exactly one event with
    its content is appended to the log and exactly one job is enqueued, the turn
    of its text or the outcome just recorded. When the answer is a success the
    prefix is the whole batch; and nothing is recorded unless the scheduler has
    just confirmed the agent the session is pinned to. *)
Lemma batch_accepted_in_order id ptr events evs s resp s' :
  GetSession id (h_store s) = Some ptr → log_at ptr s = Some evs →
  sendEvents Marshal cfg rt id (inl events) s = (resp, s') →
  ∃ taken rest new js, events = taken ++ rest ∧ log_at ptr s' = Some (evs ++ new) ∧ h_jobs s' = h_jobs s ++ js ∧
    Forall3 (recorded ptr) (filter dispatched taken) new js ∧ (resp = ok BEmpty → rest = []) ∧
    (new ≠ [] → confirmed ptr s s').
Proof.
  intros Hid Hl Hs. unfold sendEvents, mbind, H_bind, get in Hs. cbn beta iota in Hs. rewrite Hid in Hs.
  assert (∀ s1 resp', (resp', s1) = (resp, s') → resp' ≠ ok BEmpty → inert s s1 →
    ∃ taken rest new js, events = taken ++ rest ∧ log_at ptr s' = Some (evs ++ new) ∧ h_jobs s' = h_jobs s ++ js ∧
      Forall3 (recorded ptr) (filter dispatched taken) new js ∧ (resp = ok BEmpty → rest = []) ∧ (new ≠ [] → confirmed ptr s s')) as Hno.
  { intros s1 resp' [= <- <-] Hne (E1 & _ & E3 & _). exists [], events, [], []. unfold log_at. rewrite E1, E3, !app_nil_r.
    split_and!; try done. constructor. }
  destruct (batch_error cfg events) as [msg |] eqn:Hb; [by apply (Hno s _ Hs) |].
  destruct (containsUserMessage events || containsDefineOutcome events) eqn:Hc.
  - pose proof (inert_reconcile ptr s) as Hi. destruct (reconcileSession rt ptr s) as [[e |] s1] eqn:Er; cbn in Hi.
    { apply (Hno s1 _ Hs); [| done]. unfold reconcile_failure. repeat case_match; done. }
    destruct Hi as (E1 & E2 & E3 & E4).
    assert (log_at ptr s1 = Some evs) as Hl1 by (unfold log_at; by rewrite E1).
    destruct (deliver_in_order ptr events evs s1 resp s' Hl1 Hs) as (taken & rest & new & js & H1 & H2 & H3 & H4 & H5 & H6).
    exists taken, rest, new, js. rewrite <- E3. split_and!; [done | done | done | done | |].
    + intros ->. destruct rest as [| ev rest]; [done |]. destruct H6 as [_ (status & t & msg & [=])].
    + intros _. unfold reconcileSession, mbind, H_bind, get in Er. cbn beta iota in Er.
      destruct (heap (h_store s) !! ptr) as [r |] eqn:Hr; [| done]. cbv zeta in Er.
      destruct (GetAgent _ _ _) as [a |]; [| done]. destruct (has_archived _); [done |].
      unfold ensureRegistered, mbind, H_bind in Er. destruct (AgentToCard _ _ _) as [card |]; [| done]. cbn in Er.
      destruct (RegisterAgent _ _ _) eqn:Ereg; [done |]. injection Er as <-. cbn in H5. destruct H5 as [more E5].
      exists r, card, (Instances a), more. rewrite E5. cbn. by rewrite <- app_assoc.
  - destruct (deliver_in_order ptr events evs s resp s' Hl Hs) as (taken & rest & new & js & H1 & H2 & H3 & H4 & H5 & H6).
    exists taken, rest, new, js. split_and!; [done | done | done | done | |].
    + intros ->. destruct rest as [| ev rest]; [done |]. destruct H6 as [_ (status & t & msg & [=])].
    + intros Hne. exfalso. apply Hne. apply orb_false_elim in Hc as [Hc1 Hc2].
      apply bool_decide_eq_false in Hc1, Hc2. rewrite Exists_exists in Hc1, Hc2.
      assert (filter dispatched taken = []) as Hf.
      { destruct (filter dispatched taken) as [| ev l] eqn:Ef; [done |]. exfalso.
        assert (ev ∈ filter dispatched taken) as [Hd Hin]%list_elem_of_filter by (rewrite Ef; by left).
        destruct Hd; [apply Hc1 | apply Hc2]; exists ev; (split; [rewrite H1; set_solver | done]). }
      rewrite Hf in H4. by inversion H4.
Qed.

(** ** Reclaiming agents *)

(** No live session is pinned to the version. *)
Definition unpinned (id : string) (v : Z) (st : Store) : Prop :=
  ∀ sid p r, sessions st !! sid = Some p → heap st !! p = Some r → s_ArchivedAt (r_Session r) = None →
    ¬ (sa_ID (s_Agent (r_Session r)) = id ∧ sa_Version (s_Agent (r_Session r)) = v).

(** The deletions among the requests sent. *)
Definition deletions (l : list call) : list string := omap (λ c, if c is CallDelete n then Some n else None) l.

Definition no_delete (s s' : facade) : Prop := deletions (h_calls s') = deletions (h_calls s).

#[local] Instance no_delete_preorder : PreOrder no_delete.
Proof. split; [by intros x | intros x y z; unfold no_delete; congruence]. Qed.

Lemma no_delete_calls {A} (m : H A) : (∀ s, h_calls (snd (m s)) = h_calls s) → respects no_delete m.
Proof. intros Hm s. unfold no_delete. by rewrite Hm. Qed.

Lemma no_delete_store_do {A} (f : Store → Store * A) : respects no_delete (store_do f).
Proof. apply no_delete_calls. intros s. unfold store_do. by destruct (f _). Qed.

Lemma no_delete_lift {A} (m : M A) : respects no_delete (lift Marshal m).
Proof. apply no_delete_calls. intros s. unfold lift. by destruct (m _). Qed.

Lemma no_delete_send c : (if c is CallDelete _ then False else True) → respects no_delete (send_call c).
Proof.
  intros Hc s. unfold no_delete, deletions. cbn. rewrite omap_app. destruct c; cbn; [by rewrite app_nil_r | done | by rewrite app_nil_r].
Qed.

Lemma no_delete_ret {A} (x : A) : respects no_delete (mret x).
Proof. by apply no_delete_calls. Qed.

Lemma no_delete_bind {A B} (m : H A) (f : A → H B) : respects no_delete m → (∀ x, respects no_delete (f x)) → respects no_delete (m ≫= f).
Proof. apply respects_bind, _. Qed.

Lemma no_delete_draw : respects no_delete tick ∧ respects no_delete now ∧ ∀ p, respects no_delete (fresh p).
Proof. by split_and!; [apply no_delete_calls | apply no_delete_calls | intros p; apply no_delete_calls]. Qed.

Lemma no_delete_hand j : respects no_delete (EnqueueTurn j).
Proof. by apply no_delete_calls. Qed.

Lemma no_delete_cancel f : respects no_delete (call_cancel f).
Proof. by apply no_delete_calls. Qed.

Lemma no_delete_get : respects no_delete get.
Proof. by apply no_delete_calls. Qed.

(** A handler made of other steps sends no deletion. *)
Ltac spares :=
  repeat first
    [ apply no_delete_bind; [| intros ?]
    | apply no_delete_store_do | apply no_delete_lift | apply no_delete_ret | apply no_delete_hand | apply no_delete_cancel
    | apply no_delete_get | apply (proj1 no_delete_draw) | apply (proj1 (proj2 no_delete_draw)) | apply (proj2 (proj2 no_delete_draw))
    | apply no_delete_send; exact I
    | match goal with |- respects no_delete (match ?x with _ => _ end) => destruct x end ].

Lemma no_delete_register name a : respects no_delete (ensureRegistered rt name a).
Proof. unfold ensureRegistered. spares. Qed.

Lemma no_delete_send_events id req : respects no_delete (sendEvents Marshal cfg rt id req).
Proof.
  unfold sendEvents. spares.
  - unfold reconcileSession. spares; cbv zeta; spares. apply no_delete_register.
  - generalize l. intros events. induction events as [| ev events IH]; cbn [deliver]; [spares |].
    spares; try done; unfold deliver_message, deliverDefineOutcome, cancelInFlight, cancel_outcome; spares.
Qed.

Lemma gc_spares ptr s sid :
  store_ok (h_store s) → visits h_sessions → sessions (h_store s) !! sid = Some ptr ∨ is_Some (heap (h_store s) !! ptr) →
  ∃ id v, (∀ n, n ∈ deletions (h_calls (snd (gcAhsirAgentIfUnused ptr s))) → n ∈ deletions (h_calls s) ∨
             (n = AhsirAgentName id v ∨ n = AhsirGraderName id v) ∧ unpinned id v (h_store s)) ∧
           h_store (snd (gcAhsirAgentIfUnused ptr s)) = h_store s.
Proof.
  intros Hok Hv Hptr. assert (is_Some (heap (h_store s) !! ptr)) as [r Hr].
  { destruct Hptr as [Hs | ]; [| done]. destruct (wf_sess _ (ok_wf _ Hok) sid ptr Hs) as (r & Hr & _). by exists r. }
  exists (sa_ID (s_Agent (r_Session r))), (sa_Version (s_Agent (r_Session r))).
  unfold gcAhsirAgentIfUnused, mbind, H_bind, get. cbn beta iota. unfold session_ref. rewrite Hr.
  destruct (decide _) as [Hz |]; [| split; [by left | done]]. cbn. split; [| done].
  intros n. unfold deletions. rewrite !omap_app. cbn. intros Hn.
  assert (unpinned (sa_ID (s_Agent (r_Session r))) (sa_Version (s_Agent (r_Session r))) (h_store s)) as Hun.
  { intros sid' p r' Hs' Hr' Har [Eid Ev]. unfold ActiveAhsirRefs in Hz. apply nil_length_inv in Hz.
    assert ((sid', p) ∈ filter (λ x : string * Z, from_option (counts_for (AhsirName r)) false (heap (h_store s) !! x.2))
              (h_sessions (sessions (h_store s)))) as Hin; [| by rewrite Hz in Hin; apply not_elem_of_nil in Hin].
    apply list_elem_of_filter. split; [| by apply (visits_elem h_sessions)]. cbn. rewrite Hr'. cbn. unfold counts_for.
    pose proof (ok_named _ Hok _ _ Hr) as N1. pose proof (ok_named _ Hok _ _ Hr') as N2. unfold session_named in N1, N2.
    rewrite N1, N2, Eid, Ev, Har, !bool_decide_eq_true_2 by done. done. }
  pose proof (ok_named _ Hok _ _ Hr) as N1. unfold session_named in N1. rewrite <- N1.
  rewrite <- app_assoc in Hn. apply elem_of_app in Hn as [Hn | Hn]; [by left | right]. split; [set_solver | done].
Qed.

(** What the steps before the collection of [ptr] may do. *)
Definition before_gc (s s' : facade) : Prop := history s s' ∧ no_delete s s'.

#[local] Instance before_gc_preorder : PreOrder before_gc.
Proof. split; [intros x; split; reflexivity | intros x y z [A1 A2] [B1 B2]; split; by etrans]. Qed.

Lemma before_gc_intro {A} (m : H A) : respects history m → respects no_delete m → respects before_gc m.
Proof. intros H1 H2 s. by split. Qed.

Lemma history_dom s s' ptr :
  visits h_sessions → store_ok (h_store s) → history s s' → is_Some (heap (h_store s) !! ptr) → is_Some (heap (h_store s') !! ptr).
Proof.
  intros Hv Hok (ops & -> & HF & _) [r Hr].
  destruct (session_history_grows Marshal h_sessions ops (h_store s) ptr r Hv (ok_wf _ Hok) HF Hr) as (r' & Hr' & _). by exists r'.
Qed.

(** A deletion is of the agents of a version that is not pinned at the end. *)
Definition spared (s s' : facade) : Prop :=
  ∀ n, n ∈ deletions (h_calls s') → n ∈ deletions (h_calls s) ∨
    ∃ id v, (n = AhsirAgentName id v ∨ n = AhsirGraderName id v) ∧ unpinned id v (h_store s').

(** A program that collects the agent of the session at [ptr]. *)
Definition collecting (ptr : Z) {B} (m : H B) : Prop :=
  ∀ s, store_ok (h_store s) → is_Some (heap (h_store s) !! ptr) → spared s (snd (m s)).

Lemma spared_before s s1 s2 : before_gc s s1 → spared s1 s2 → spared s s2.
Proof. intros [_ Hd] H2 n Hn. destruct (H2 n Hn) as [Hin | ?]; [left; by rewrite <- Hd | by right]. Qed.

Lemma before_gc_ok ptr s s1 :
  visits h_sessions → before_gc s s1 → store_ok (h_store s) → is_Some (heap (h_store s) !! ptr) →
  store_ok (h_store s1) ∧ is_Some (heap (h_store s1) !! ptr).
Proof.
  intros Hv [Hh _] Hok Hp. split; [| by apply (history_dom s)]. destruct Hh as (ops & -> & HF & Hn). by apply run_store_ok.
Qed.

Lemma collecting_bind ptr {A B} (pre : H A) (f : A → H B) :
  visits h_sessions → respects before_gc pre → (∀ x, collecting ptr (f x)) → collecting ptr (pre ≫= f).
Proof.
  intros Hv Hpre Hf s Hok Hp. unfold mbind, H_bind. specialize (Hpre s). destruct (pre s) as [x s1]. cbn in Hpre.
  destruct (before_gc_ok ptr s s1 Hv Hpre Hok Hp) as [Hok1 Hp1]. eapply spared_before; [done | by apply Hf].
Qed.

Lemma collecting_gc ptr {B} (post : unit → H B) :
  visits h_sessions → (∀ s, h_store (snd (post tt s)) = h_store s ∧ h_calls (snd (post tt s)) = h_calls s) →
  collecting ptr (gcAhsirAgentIfUnused ptr ≫= post).
Proof.
  intros Hv Hpost s Hok Hp. destruct (gc_spares ptr s "" Hok Hv (or_intror Hp)) as (id & v & Hgc & Est).
  unfold mbind, H_bind. destruct (gcAhsirAgentIfUnused ptr s) as [[] s2]. cbn in Hgc, Est.
  destruct (Hpost s2) as [Ep Ec]. intros n. rewrite Ec. intros Hn. destruct (Hgc n Hn) as [Hin | [Hname Hun]]; [by left | right].
  exists id, v. by rewrite Ep, Est.
Qed.

Lemma collecting_delete_end ptr : visits h_sessions → collecting ptr (deleteSession_end Marshal ptr).
Proof.
  intros Hv. apply collecting_bind; [done | apply before_gc_intro; [apply (history_emit ptr EvtSessionDeleted id) | spares] | intros _].
  apply collecting_bind; [done | apply before_gc_intro; [by apply history_same | spares] | intros st]. cbv zeta.
  apply collecting_bind; [done | apply before_gc_intro; [| spares] | intros _; by apply collecting_gc].
  apply (history_op (OpDeleteSession (from_option s_ID "" (session_at ptr st)))); [done |]. intros st'. cbn [apply].
  by destruct (DeleteSession _ _ _) as [[? ?] ?].
Qed.

Definition collects (r : request) : bool :=
  match r with ArchiveSessionReq _ | DeleteSessionReq _ _ => true | _ => false end.

Lemma others_spare keys key key' r : collects r = false → respects no_delete (auth Marshal cfg rt keys key key' r).
Proof.
  intros Hr. unfold auth. destruct r; try done; (destruct (authorized _ _ _); [cbn [Handler] | apply no_delete_ret]);
    try apply no_delete_send_events;
    unfold createAgent, listAgents, getAgent, updateAgent, updateAgent_write, archiveAgent, createEnvironment, listEnvironments, getEnvironment,
      updateEnvironment, archiveEnvironment, deleteEnvironment, createSession, createSessionRecord, listSessions, getSession, updateSession,
      listEvents, streamEvents, save_agent, save_environment; spares; cbv zeta; spares; apply no_delete_register.
Qed.

(** A shared agent is reclaimed only when nothing is pinned to it: whatever
    the request, every agent the scheduler is told to delete is the executor or
    the grader of one version of one agent, and when the request is over no
    session that is not archived is pinned to that version. Only the archiving and
    the deletion of a session delete at all. *)
Lemma reclaims_only_unused keys key key' r s :
  visits h_sessions → waits_fairly r (h_store s) → store_ok (h_store s) →
  let s' := snd (auth Marshal cfg rt keys key key' r s) in
  (∀ n, n ∈ deletions (h_calls s') → n ∈ deletions (h_calls s) ∨
    ∃ id v, (n = AhsirAgentName id v ∨ n = AhsirGraderName id v) ∧ unpinned id v (h_store s')) ∧
  (collects r = false → deletions (h_calls s') = deletions (h_calls s)).
Proof.
  intros Hv Hwait Hok s'. split; [| intros Hr; by apply (others_spare keys key key' r Hr s)].
  destruct (collects r) eqn:Hr; [| pose proof (others_spare keys key key' r Hr s) as E'; fold s' in E'; rewrite E'; by left].
  change (spared s s'). subst s'. unfold auth. destruct (authorized _ _ _); [| by left]. destruct r; try done; cbn [Handler].
  - unfold archiveSession, get. unfold mbind at 1, H_bind at 1. cbn beta iota.
    destruct (GetSession id (h_store s)) as [ptr |] eqn:Hid; [| by left].
    assert (is_Some (heap (h_store s) !! ptr)) as Hp by (destruct (wf_sess _ (ok_wf _ Hok) id ptr Hid) as (r & -> & _); by eexists).
    revert s Hwait Hok Hid Hp. intros s _ Hok _ Hp. revert s Hok Hp. change (collecting ptr (cancel_outcome ptr ≫= λ _, now ≫= λ t,
      store_do (ArchiveSession Marshal ptr t) ≫= λ _, gcAhsirAgentIfUnused ptr ≫= λ _, get ≫= λ st, mret (ok (BSession (session_at ptr st))))).
    apply collecting_bind; [done | apply before_gc_intro; [auto | unfold cancel_outcome; spares] | intros _].
    apply collecting_bind; [done | apply before_gc_intro; [auto | spares] | intros t].
    apply collecting_bind; [done | apply before_gc_intro; [by apply (history_op (OpArchiveSession ptr t)) | spares] | intros _].
    by apply collecting_gc.
  - unfold deleteSession, get. unfold mbind at 1, H_bind at 1. cbn beta iota.
    destruct (GetSession id (h_store s)) as [ptr |] eqn:Hid; [| by left].
    assert (is_Some (heap (h_store s) !! ptr)) as Hp by (destruct (wf_sess _ (ok_wf _ Hok) id ptr Hid) as (r & -> & _); by eexists).
    destruct Hwait as [Hf Hn]. unfold mbind, H_bind.
    assert (no_delete s (snd (deleteSession_begin ptr s))) as Hd1.
    { assert (respects no_delete (deleteSession_begin ptr)) as Hd; [| apply Hd].
      unfold deleteSession_begin, cancelInFlight, cancel_outcome. spares. }
    pose proof (history_delete_begin ptr s) as Hb. destruct (deleteSession_begin ptr s) as [[] s1]. cbn in Hb, Hd1.
    unfold waitInFlightCleared, store_do. cbn beta iota.
    match goal with |- spared s (snd (deleteSession_end _ _ ?s2)) => assert (before_gc s s2) as Hg end.
    { split; [exists during; cbn; rewrite Hb; by split_and! | exact Hd1]. }
    destruct (before_gc_ok ptr _ _ Hv Hg Hok Hp) as [Hok2 Hp2]. eapply spared_before; [exact Hg |]. by apply collecting_delete_end.
Qed.

(** ** Creating sessions *)

Lemma put_session_saves ptr r st :
  heap st !! ptr = Some r →
  let '(st', saved) := PutSession Marshal ptr st in
  heap st' = heap st ∧ sessions st' = <[s_ID (r_Session r) := ptr]> (sessions st) ∧
  (saved = true → is_Some (Marshal (snapshot st')) ∧ file st' = Marshal (snapshot st')) ∧ (saved = false → file st' = file st).
Proof.
  intros Hr. unfold PutSession. rewrite Hr. unfold saveLocked. set (st1 := with_sessions _ st).
  destruct (Marshal (snapshot st1)) as [d |] eqn:Em; cbn; split_and!; try done.
Qed.

(** A session is created whole or the file keeps its content: when the
    request succeeds, the agent version and the environment it names exist and
    are not archived, the scheduler has just accepted the card of that version
    under its name, and the response is a new idle session pinned to that version,
    stored under its id at an unused address with an empty log, and on file; the
    other sessions are untouched. When it fails, the file is as before, and
    nothing at all has changed unless it was the save that failed. *)
Lemma session_created req s status b s' :
  save_error_own → store_ok (h_store s) →
  createSession Marshal rt (inl req) s = (Respond status b, s') →
  (status = 200%Z → ∃ a card ptr x ctx,
     GetAgent (ref_ID (sq_Agent req)) (ref_Version (sq_Agent req)) (h_store s) = Some a ∧ ag_ArchivedAt a = None ∧
     (∃ e, GetEnvironment (sq_EnvironmentID req) (h_store s) = Some e ∧ env_ArchivedAt e = None) ∧
     let name := AhsirAgentName (ag_ID a) (Version a) in
     AgentToCard name a rt = inl card ∧ h_calls s' = h_calls s ++ [CallRegister name card (Instances a)] ∧
     RegisterAgent h_url name (h_answer (length (h_calls s))) = None ∧
     b = BSession (Some x) ∧ s_Agent x = sessionAgentFrom a ∧ Status x = StatusIdle ∧ Title x = sq_Title req ∧
     heap (h_store s) !! ptr = None ∧ heap (h_store s') = <[ptr := mkSessionRecord x name ctx [] ∅ "" None]> (heap (h_store s)) ∧
     sessions (h_store s') = <[s_ID x := ptr]> (sessions (h_store s)) ∧
     is_Some (Marshal (snapshot (h_store s'))) ∧ file (h_store s') = Marshal (snapshot (h_store s'))) ∧
  (status ≠ 200%Z → file (h_store s') = file (h_store s) ∧ (status ≠ 500%Z → inert s s')).
Proof.
  intros Hown Hok Hc. cbn [createSession] in Hc. destruct (decide _); [by injection Hc as <- <- <- |].
  unfold createSessionRecord, resolve_session, has_archived in Hc. unfold mbind, H_bind in Hc. cbn beta iota delta [get] in Hc.
  destruct (GetAgent _ _ (h_store s)) as [a |] eqn:Ha; [| by injection Hc as <- <- <-].
  destruct (bool_decide (ag_ArchivedAt a ≠ None)) eqn:Har; [by injection Hc as <- <- <- |].
  destruct (GetEnvironment _ (h_store s)) as [e |] eqn:He; [| by injection Hc as <- <- <-].
  destruct (bool_decide (env_ArchivedAt e ≠ None)) eqn:Hea; [by injection Hc as <- <- <- |].
  apply bool_decide_eq_false, dec_stable in Har, Hea.
  unfold ensureRegistered in Hc. destruct (AgentToCard _ a rt) as [card | msg] eqn:Ecard.
  2:{ cbv beta iota zeta delta [mret H_ret session_failure] in Hc. destruct (strip_prefix _ _); by injection Hc as <- <- <-. }
  unfold mbind, H_bind, send_call in Hc. cbn beta iota delta [mret H_ret] in Hc.
  destruct (RegisterAgent h_url _ _) as [err |] eqn:Ereg.
  { cbv beta iota zeta delta [mret H_ret fmap option_fmap option_map session_failure] in Hc.
    destruct (strip_prefix _ _); by injection Hc as <- <- <-. }
  cbn [fmap option_fmap option_map] in Hc. unfold now, fresh, tick, mbind, H_bind, mret, H_ret, store_do, alloc in Hc.
  cbn beta iota zeta delta [h_store h_trace h_calls h_jobs h_cancels h_tick] in Hc.
  match type of Hc with context [PutSession Marshal ?ptr ?st] =>
    pose proof (put_session_saves ptr _ st (lookup_insert_eq _ _ _)) as Hput; destruct (PutSession Marshal ptr st) as [st' saved] end.
  cbn in Hput. destruct Hput as (Hheap & Hsess & Hsaved & Hfailed). destruct saved; cbn in Hc.
  - injection Hc as <- <- <-. split; [| done]. intros _. unfold session_at. cbn [h_store h_calls]. rewrite Hheap, lookup_insert_eq. cbn.
    destruct (Hsaved eq_refl) as [Hm Hf].
    eexists a, card, (next (h_store s)), _, _. split_and!; try done; [by exists e |].
    destruct (heap (h_store s) !! next (h_store s)) eqn:En; [| done].
    pose proof (wf_heap _ (ok_wf _ Hok) _ (mk_is_Some _ _ En)). lia.
  - rewrite Hown in Hc. injection Hc as <- <- <-. split; [done |]. intros _. cbn [h_store]. rewrite Hfailed by done. done.
Qed.

(** ** Two defects *)

(** [updateAgent] reads the latest version and writes the next one in two
    critical sections: two updates that read the same record are both told that
    they made version [Latest + 1], and the content of the first is gone. *)
Lemma concurrent_updates_collide id rec req1 req2 s :
  aq_Name req1 ≠ "" → aq_Name req2 ≠ "" → (0 ≤ Latest rec)%Z →
  let '(_, s1) := updateAgent_write Marshal id rec (inl req1) s in
  let '(_, s2) := updateAgent_write Marshal id rec (inl req2) s1 in
  ∃ t1 t2,
    GetAgent id (Latest rec + 1) (h_store s1) = Some (agent_of id (Latest rec + 1) (aq_Name req1) req1 t1) ∧
    GetAgent id (Latest rec + 1) (h_store s2) = Some (agent_of id (Latest rec + 1) (aq_Name req2) req2 t2).
Proof.
  intros H1 H2 Hl.
  assert (∀ req s, aq_Name req ≠ "" → ∃ t,
    GetAgent id (Latest rec + 1) (h_store (snd (updateAgent_write Marshal id rec (inl req) s))) =
    Some (agent_of id (Latest rec + 1) (aq_Name req) req t)) as Hput.
  { intros req s0 Hne. cbn [updateAgent_write]. rewrite decide_False by done. exists (h_now (h_tick s0)).
    unfold now, tick, save_agent, store_do, mbind, H_bind, mret, H_ret, PutAgentVersion, saveLocked. cbn -[agent_of].
    set (a := agent_of _ _ _ _ _). destruct (Marshal _); cbn -[agent_of]; unfold GetAgent; cbn -[agent_of]; rewrite lookup_insert_eq; cbn -[agent_of].
    all: destruct (Latest rec + 1 =? 0)%Z eqn:E'; [bool_to_prop; lia |]; replace (Latest rec + 1)%Z with (Version a) by done;
      rewrite lookup_insert_eq; cbn -[agent_of]; by rewrite !cloneAgent_id. }
  destruct (Hput req1 s H1) as [t1 E1]. destruct (updateAgent_write Marshal id rec (inl req1) s) as [r1 s1].
  destruct (Hput req2 s1 H2) as [t2 E2]. destruct (updateAgent_write Marshal id rec (inl req2) s1) as [r2 s2].
  by exists t1, t2.
Qed.

(** When the save of a new outcome fails the request is answered 500 and nothing
    is enqueued, but the outcome stays in the session as its active one: every
    later outcome of the session is refused, and no loop will ever end it. *)
Lemma failed_begin_wedges ptr ev s msg s1 :
  is_Some (heap (h_store s) !! ptr) →
  deliverDefineOutcome Marshal cfg ptr ev s = (Some (500%Z, msg), s1) → (∃ x, validateDefineOutcome cfg ev = inl x) →
  h_jobs s1 = h_jobs s ∧ ∃ r1, heap (h_store s1) !! ptr = Some r1 ∧ outcome_active (r_Session r1) = true.
Proof.
  intros [r Hr] Hd [[[desc rubric] maxIter] Hval]. unfold deliverDefineOutcome in Hd. rewrite Hval in Hd.
  unfold now, fresh, tick, mbind, H_bind, mret, H_ret, store_do, BeginOutcomeWithCancel in Hd.
  cbn beta iota zeta delta [h_store h_trace h_calls h_jobs h_cancels h_tick] in Hd.
  unfold beginOutcome in Hd. rewrite Hr in Hd. destruct (outcome_active (r_Session r)) eqn:Ha; [by cbn in Hd |].
  match type of Hd with context [persist Marshal ?x] => set (st1 := x) in *; destruct (persist Marshal st1) as [st' saved] eqn:Ep end.
  destruct saved; cbn in Hd; [by unfold lift in Hd; cbn in Hd |]. injection Hd as <- <-. cbn. split; [done |].
  unfold persist in Ep. destruct (saveLocked_file Marshal st1) as [f E']. rewrite Ep in E'. cbn in E'. subst st'. cbn. rewrite lookup_insert_eq.
  eexists. split; [done |]. unfold outcome_active. cbn. by rewrite last_snoc.
Qed.
End laws.

(** ** Examples *)

#[local] Existing Instance ascii_tables.
#[local] Existing Instance sample_facade.

Definition sample_env : Env := {|
  h_random := λ n, Z.of_nat n :: replicate 15 0%Z; h_now := λ n, Z.of_nat n; h_answer := λ _, Answered 200 "200 OK" "";
  h_url := "http://127.0.0.1:9800"; h_save_error := "disk full"; h_agents := map_to_list; h_environments := map_to_list;
  h_sessions := map_to_list |}.

#[local] Existing Instance sample_env.

Definition sample_marshal (_ : persisted) : option string := Some "saved".
Definition sample_cfg : OutcomeConfig := mkOutcomeConfig 0 0.
Definition sample_rt : RuntimeDefaults := mkDefaults "anthropic" "" "${KEY}".

Definition serve (r : request) (s : facade) : facade := snd (auth sample_marshal sample_cfg sample_rt ∅ "" "" r s).

Definition sample_agent_id : string := NewID (1%Z :: replicate 15 0%Z) PrefixAgent.
Definition sample_env_id : string := NewID (3%Z :: replicate 15 0%Z) PrefixEnvironment.
Definition sample_session_id : string := NewID (5%Z :: replicate 15 0%Z) PrefixSession.

Definition sample_session_req : SessionCreateRequest := mkSessionCreate (mkAgentRef "agent" sample_agent_id 0) sample_env_id "work" ∅.

(** An agent, an environment and a session of that agent. *)
Definition empty_facade : facade := mkFacade empty_store [] [] [] [] 0.
Definition before_session : facade :=
  serve (CreateEnvironment (inl (mkEnvCreate "env" "" "" ∅)))
    (serve (CreateAgent (inl (mkAgentCreate "coder" (mkModel "claude-x" "") "" "" [] [] [] ∅))) empty_facade).
Definition with_one_session : facade := serve (CreateSession (inl sample_session_req)) before_session.

Lemma empty_ok : store_ok empty_store.
Proof. split; [apply wf_empty | |]; intros p r Hr; cbn in Hr; by rewrite lookup_empty in Hr. Qed.

Lemma serve_ok r s : waits_fairly sample_marshal r (h_store s) → store_ok (h_store s) → store_ok (h_store (serve r s)).
Proof.
  intros Hw Hok. destruct (request_history sample_marshal sample_cfg sample_rt ∅ "" "" r s Hw) as (ops & E1 & HF & Hn).
  unfold serve. rewrite E1. by apply (run_store_ok sample_marshal ops); [apply w_visits | ..].
Qed.

Lemma before_session_ok : store_ok (h_store before_session).
Proof. do 2 (apply serve_ok; [exact I |]). apply empty_ok. Qed.

Lemma with_one_session_ok : store_ok (h_store with_one_session).
Proof. apply serve_ok; [exact I | apply before_session_ok]. Qed.

Definition sample_outcome (desc : string) : Event :=
  with_define desc (Some (mkRubric "text" "all tests pass" "")) 0 "" (event_of "" EvtUserDefineOutcome None).
Definition sample_message : Event := with_content [mkContent "text" "hello"] (event_of "" EvtUserMessage None).

(** A batch with a message and an outcome without a description. *)
Lemma rejected_leaves_no_trace_witness :
  fst (auth sample_marshal sample_cfg sample_rt ∅ "" "" (SendEvents sample_session_id (inl [sample_message; sample_outcome " "])) with_one_session) =
    writeErr 400 "invalid_request_error" "user.define_outcome: description is required" ∧
  inert with_one_session (serve (SendEvents sample_session_id (inl [sample_message; sample_outcome " "])) with_one_session).
Proof.
  split; [by vm_compute |]. apply (rejected_leaves_no_trace sample_marshal sample_cfg sample_rt); [done |].
  match goal with |- rejected ?x => assert (x = writeErr 400 "invalid_request_error" "user.define_outcome: description is required") as -> by by vm_compute end.
  left. cbn. lia.
Defined.

Lemma requests_refine_store_witness : ∃ ops,
  h_store (serve (ArchiveSessionReq sample_session_id) with_one_session) = run sample_marshal h_sessions ops (h_store with_one_session) ∧
  store_ok (run sample_marshal h_sessions ops (h_store with_one_session)).
Proof.
  destruct (requests_refine_store sample_marshal sample_cfg sample_rt ∅ "" "" (ArchiveSessionReq sample_session_id) with_one_session)
    as (ops & E1 & _ & H2); [apply w_visits | exact I | apply with_one_session_ok |].
  exists ops. split; [exact E1 | exact H2].
Defined.

(** Of two outcomes only the first is accepted. *)
Definition sample_batch : list Event := [sample_message; sample_outcome "ship"; sample_outcome "again"].

Lemma batch_accepted_in_order_witness : ∃ taken rest new js,
  sample_batch = taken ++ rest ∧ length new = 2 ∧ js = [JobTurn 0 "hello"; JobOutcome 0 (OutcomeID (default sample_message (new !! 1)))] ∧
  Forall3 (recorded 0) (filter dispatched taken) new js.
Proof.
  destruct (sendEvents sample_marshal sample_cfg sample_rt sample_session_id (inl sample_batch) with_one_session) as [resp s'] eqn:Es.
  destruct (batch_accepted_in_order sample_marshal sample_cfg sample_rt sample_session_id 0 sample_batch [] with_one_session resp s')
    as (taken & rest & new & js & H1 & H2 & H3 & H4 & _); [by vm_compute | by vm_compute | done |].
  exists taken, rest, new, js. vm_compute in Es. injection Es as <- <-. vm_compute in H2. injection H2 as <-.
  vm_compute in H3. subst js. by split_and!.
Defined.

Lemma reclaims_only_unused_witness :
  deletions (h_calls (serve (ArchiveSessionReq sample_session_id) with_one_session)) =
    [AhsirAgentName sample_agent_id 1; AhsirGraderName sample_agent_id 1] ∧
  ∃ id v, AhsirAgentName sample_agent_id 1 = AhsirAgentName id v ∨ AhsirAgentName sample_agent_id 1 = AhsirGraderName id v.
Proof.
  split; [by vm_compute |].
  destruct (reclaims_only_unused sample_marshal sample_cfg sample_rt ∅ "" "" (ArchiveSessionReq sample_session_id) with_one_session)
    as [H1 _]; [apply w_visits | exact I | apply with_one_session_ok |].
  destruct (H1 (AhsirAgentName sample_agent_id 1)) as [Hin | (id & v & Hn & _)].
  - vm_compute. left.
  - exfalso. vm_compute in Hin. by apply not_elem_of_nil in Hin.
  - by exists id, v.
Defined.

Definition body_of (r : response) : body := match r with Respond _ b => b | Panicked => BEmpty end.

Lemma session_created_witness : ∃ x ptr s',
  createSession sample_marshal sample_rt (inl sample_session_req) before_session = (Respond 200 (BSession (Some x)), s') ∧
  sessions (h_store s') = <[s_ID x := ptr]> (sessions (h_store before_session)) ∧ Status x = StatusIdle.
Proof.
  destruct (createSession sample_marshal sample_rt (inl sample_session_req) before_session) as [resp s'] eqn:Es.
  assert (resp = Respond 200 (body_of resp)) as Hresp by (vm_compute in Es; injection Es as <- <-; by vm_compute).
  revert Es. rewrite Hresp. generalize (body_of resp). clear Hresp resp. intros b Es.
  destruct (session_created sample_marshal sample_rt sample_session_req before_session 200 b s')
    as [H1 _]; [reflexivity | apply before_session_ok | exact Es |].
  destruct (H1 eq_refl) as (a & card & ptr & x & ctx & _ & _ & _ & _ & _ & _ & Hb & _ & Hst & _ & _ & _ & Hsess & _).
  exists x, ptr, s'. subst b. split_and!; [reflexivity | exact Hsess | exact Hst].
Defined.
