(* ===== verification/Rooms.v ===== *)
(** * Rooms ([internal/scheduler/rooms.go])

    A room is a conversation of several agents in one context. In relay mode an
    @-mention passes the floor; in roundtable mode every round is one pass over
    the participants and a moderator judges consensus. This file has the room's
    state and the sections of code that run under its mutex; [RoomsDrive] lets
    them interleave. What an agent answers, the clock and the random order of a
    round are arguments. *)
From S2P Require Import Prelude GoBase GoStrings.
From Stdlib Require Import ZArith Lia Ascii.

(** ** Data *)

Definition RoomActive : string := "active".
Definition RoomWaiting : string := "waiting".
Definition RoomStopped : string := "stopped".
Definition RoomModeRelay : string := "relay".
Definition RoomModeRoundtable : string := "roundtable".
Definition defaultMaxChain : Z := 8.
Definition defaultRoundtableBudget : Z := 12.
Definition maxTopicRunes : nat := 60.

Record RoomTurn := mkTurn {
  Speaker : string; Text : string; Mentions : list string; turn_Round : Z; TS : time; turn_Error : string;
}.

(** The fields of a [Room] that its creation fixes. *)
Record RoomMeta := mkMeta {
  room_ID : string; Topic : string; Participants : list string; Organizer : string; MaxChain : Z;
  Mode : string; Moderator : string; Budget : Z; createdAt : time;
}.

(** The fields guarded by [room.mu]. *)
Record Room := mkRoom {
  meta : RoomMeta;
  transcript : list RoomTurn;
  status : string;
  next : string;
  speaking : string;
  lastSeen : gmap string nat;
  chain : Z;
  running : bool;
  order : list string;
  cursor : nat;
  round : Z;
  roundStart : nat;
}.

(** Assignments to groups of fields. *)
Definition set_schedule (n st : string) (r : Room) : Room :=
  mkRoom (meta r) (transcript r) st n (speaking r) (lastSeen r) (chain r) (running r) (order r) (cursor r) (round r) (roundStart r).
Definition set_speaking (s : string) (r : Room) : Room :=
  mkRoom (meta r) (transcript r) (status r) (next r) s (lastSeen r) (chain r) (running r) (order r) (cursor r) (round r) (roundStart r).
Definition set_chain (c : Z) (r : Room) : Room :=
  mkRoom (meta r) (transcript r) (status r) (next r) (speaking r) (lastSeen r) c (running r) (order r) (cursor r) (round r) (roundStart r).
Definition set_running (b : bool) (r : Room) : Room :=
  mkRoom (meta r) (transcript r) (status r) (next r) (speaking r) (lastSeen r) (chain r) b (order r) (cursor r) (round r) (roundStart r).
Definition set_seen (m : gmap string nat) (r : Room) : Room :=
  mkRoom (meta r) (transcript r) (status r) (next r) (speaking r) m (chain r) (running r) (order r) (cursor r) (round r) (roundStart r).
Definition set_cursor (c : nat) (r : Room) : Room :=
  mkRoom (meta r) (transcript r) (status r) (next r) (speaking r) (lastSeen r) (chain r) (running r) (order r) c (round r) (roundStart r).
Definition set_round (o : list string) (c : nat) (n : Z) (start : nat) (r : Room) : Room :=
  mkRoom (meta r) (transcript r) (status r) (next r) (speaking r) (lastSeen r) (chain r) (running r) o c n start.
Definition append (t : RoomTurn) (r : Room) : Room :=
  mkRoom (meta r) (transcript r ++ [t]) (status r) (next r) (speaking r) (lastSeen r) (chain r) (running r) (order r) (cursor r) (round r) (roundStart r).

Definition truncateTopic (topic : string) : string :=
  let r := runes topic in
  if decide (length r ≤ maxTopicRunes) then topic else Join (take maxTopicRunes r) "" +:+ "…".

(** ** Mentions *)

(** The matches of [codeSpanRe] at the front of a string: a fence closed by the
    first fence after it, or else a span between two back quotes. *)
Definition fence : string := "```".

Definition code_span (s : string) : option nat :=
  match strip_prefix fence s ≫= λ rest, Index rest fence with
  | Some i => Some (i + 6)
  | None => strip_prefix "`" s ≫= λ rest, Index rest "`" ≫= λ i, Some (i + 2)
  end.

(** [codeSpanRe.ReplaceAllString(text, " ")]; [skip] bytes of the span remain. *)
Fixpoint strip_code (skip : nat) (s : string) : string :=
  match s with
  | EmptyString => EmptyString
  | String c s' =>
      match skip with
      | S k => strip_code k s'
      | O => match code_span s with
             | Some n => String " " (strip_code (pred n) s')
             | None => String c (strip_code 0 s')
             end
      end
  end.

Definition alnum (c : ascii) : bool := in_range 65 90 c || in_range 97 122 c || in_range 48 57 c.
Definition name_byte (c : ascii) : bool := alnum c || is_byte 95 c || is_byte 45 c.

(** Scanning for [mentionRe]: outside a match, after its at sign, or in the name
    (reversed). *)
Inductive scan := Outside | After | Inside (name : string).

Definition scan_byte (c : ascii) (st : scan) : scan * list string :=
  let fresh := if is_byte 64 c then After else Outside in
  match st with
  | Outside => (fresh, [])
  | After => (if alnum c then Inside (String c EmptyString) else fresh, [])
  | Inside n => if name_byte c then (Inside (String c n), []) else (fresh, [String.rev n])
  end.

(** The names of [mentionRe.FindAllStringSubmatch(text, -1)]. *)
Fixpoint mention_names (st : scan) (s : string) : list string :=
  match s with
  | EmptyString => if st is Inside n then [String.rev n] else []
  | String c s' => let '(st', out) := scan_byte c st in out ++ mention_names st' s'
  end.

Section rooms.
Context `{UnicodeLower, UnicodeTables}.

Definition canon (participants : list string) : gmap string string :=
  foldl (λ m p, <[ToLower p := p]> m) ∅ participants.

(** The loop of [parseMentions]: [seen] and the names to come. *)
Fixpoint select (m : gmap string string) (self : string) (seen : gset string) (names : list string) : list string :=
  match names with
  | [] => []
  | n :: names =>
      let name := ToLower n in
      match m !! name with
      | Some p =>
          if bool_decide (p = self) || bool_decide (name ∈ seen) then select m self seen names
          else p :: select m self ({[name]} ∪ seen) names
      | None => select m self seen names
      end
  end.

Definition parseMentions (text : string) (participants : list string) (self : string) : list string :=
  select (canon participants) self ∅ (mention_names Outside (strip_code 0 text)).

(** ** Scheduling *)

Definition scheduleNextLocked (speaker : string) (mentions : list string) (r : Room) : Room :=
  if decide (status r = RoomStopped) then set_schedule "" (status r) r
  else match mentions with
       | m :: _ => set_schedule m RoomActive r
       | [] =>
           let o := Organizer (meta r) in
           if decide (o ≠ "operator" ∧ o ≠ speaker) then set_schedule o RoomActive r
           else set_schedule "" RoomWaiting r
       end.

Definition isParticipant (name : string) (r : Room) : bool := bool_decide (name ∈ Participants (meta r)).

(** The number of turns up to a speaker's last successful one. *)
Fixpoint last_success (p : string) (i : nat) (l : list RoomTurn) (seen : nat) : nat :=
  match l with
  | [] => seen
  | t :: l => last_success p (S i) l (if decide (turn_Error t = "" ∧ Speaker t = p) then S i else seen)
  end.

Definition recoverScheduleLocked (r : Room) : Room :=
  let seen := foldl (λ m p, <[p := last_success p 0 (transcript r) 0]> m) (lastSeen r) (Participants (meta r)) in
  let r := set_chain 0 (set_running false (set_speaking "" (set_seen seen r))) in
  let parked := if decide (status r = RoomStopped) then status r else RoomWaiting in
  if decide (Mode (meta r) = RoomModeRoundtable) then set_schedule "" parked (set_round [] 0 0 (roundStart r) r)
  else match last (transcript r) with
       | None => set_schedule "" parked r
       | Some t =>
           if decide (status r = RoomStopped) then set_schedule "" parked r
           else if decide (turn_Error t = "")
           then scheduleNextLocked (Speaker t) (Mentions t) (set_schedule (next r) RoomWaiting r)
           else if isParticipant (Speaker t) r then set_schedule (Speaker t) RoomActive r
           else set_schedule "" RoomWaiting r
       end.

(** ** What is sent *)

(** The lines of the turns that did not fail. *)
Fixpoint turn_lines (l : list RoomTurn) : string :=
  match l with
  | [] => ""
  | t :: l => (if decide (turn_Error t = "") then Speaker t +:+ ": " +:+ Text t +:+ nl else "") +:+ turn_lines l
  end.

Definition seen_by (p : string) (r : Room) : nat := default 0 (lastSeen r !! p).

Definition deltaLocked (speaker : string) (r : Room) : string :=
  let from := seen_by speaker r in
  (if decide (Topic (meta r) = "") then "" else "[圆桌 · 话题] " +:+ Topic (meta r) +:+ nl +:+ nl) +:+
  (if decide (from < length (transcript r))
   then "自你上次发言以来的新消息：" +:+ nl +:+ turn_lines (drop from (transcript r)) +:+ nl else "") +:+
  (if decide (Mode (meta r) = RoomModeRoundtable)
   then "轮到你（" +:+ speaker +:+ "）发言。若上方有主持的最新小结，请只针对其中【待议】的点推进；" +:+
        "【已达成】的结论不要重复讨论，除非你有新论据推翻了它依赖的某个假设——那就明确指出是哪条、哪个假设被推翻。" +:+
        "若小结的【纠偏】里点到了你，请据此收敛、回到命题，别再发散。" +:+
        "若你对【待议】也无异议，请只回复『同意』；否则直接说出你的观点（不要加『同意』前缀）。"
   else "轮到你（" +:+ speaker +:+ "）发言。如需把问题交给某位参与者，请用 @他的名字。其他参与者：" +:+
        Join (filter (λ p, p ≠ speaker) (Participants (meta r))) "、" +:+ "。").

(** The speaker of the last turn, or the operator. *)
Definition addresser (r : Room) : string := from_option Speaker "operator" (last (transcript r)).

(** ** The moderator *)

Definition consolidate_prompt (start : nat) (rnd : Z) (r : Room) : string :=
  (if decide (Topic (meta r) = "") then "" else "议题：" +:+ Topic (meta r) +:+ nl +:+ nl) +:+
  "本轮（第 " +:+ fmt_d rnd +:+ " 轮）的发言：" +:+ nl +:+ turn_lines (drop start (transcript r)) +:+
  nl +:+ "请基于全部讨论，更新并输出本轮小结，分三栏：" +:+ nl +:+
  "【已达成】逐条列出已无争议、可锁定的结论。" +:+ nl +:+
  "【待议】逐条列出仍有分歧或未决的点。" +:+ nl +:+
  "【纠偏】如果某位参与者本轮的论述偏离了命题、过度发散、或钻进与决策无关的细节，" +:+
  "请点名（用 @他的名字）指出，并用一句话告诉他下一轮该如何收敛、回到命题；若无则写「无」。" +:+ nl +:+
  "规则：被各方接受的点放入【已达成】，下一轮不再重复讨论；" +:+
  "若本轮有人用新论据推翻了某条【已达成】所依赖的假设，把它移回【待议】并注明原因。" +:+ nl +:+
  "最后单独一行输出 CONSENSUS（【待议】已清空、全部达成一致）或 CONTINUE（仍有待议）。".

Definition parseConsensus (reply : string) : bool :=
  let up := ToUpper reply in
  if Contains up "CONTINUE" then false else Contains up "CONSENSUS".

Definition verdict_line (line : string) : bool :=
  let l := ToUpper (TrimSpace line) in
  bool_decide (l = "") || bool_decide (l = "CONSENSUS") || bool_decide (l = "CONTINUE").

(** The loop that drops the last lines, on the lines in reverse. *)
Fixpoint drop_verdict (rev_lines : list string) : list string :=
  match rev_lines with
  | [] => []
  | l :: ls => if verdict_line l then drop_verdict ls else rev_lines
  end.

Definition stripVerdictLine (s : string) : string :=
  let lines := reverse (drop_verdict (reverse (Split_byte s "010"))) in
  let out := TrimSpace (Join lines nl) in
  if decide (out = "") then TrimSpace s else out.

(** The end of [roundtableConsolidate]: the text and the verdict. *)
Definition consolidation (answer : string + string) : string * bool :=
  match answer with
  | inr _ => ("", false)
  | inl reply => (stripVerdictLine reply, parseConsensus reply)
  end.

(** ** The sections of [Say], [Stop] and the drive loops *)

(** [Say] up to the unlock: the turn to persist and whether a drive goroutine is
    started; [None] when the room is stopped. *)
Definition Say_locked (shuffle : list string → list string) (now : time) (text speaker : string) (r : Room)
    : option (Room * RoomTurn * bool) :=
  let speaker := if decide (speaker = "") then "operator" else speaker in
  if decide (status r = RoomStopped) then None
  else
    let mentions := parseMentions text (Participants (meta r)) "" in
    let turn := mkTurn speaker text mentions 0 now "" in
    let r := append turn r in
    if decide (Mode (meta r) = RoomModeRoundtable) then
      let r := set_schedule (next r) RoomActive
                 (set_round (shuffle (Participants (meta r))) 0 0 (length (transcript r)) r) in
      Some (set_running true r, turn, negb (running r))
    else
      let r := scheduleNextLocked speaker mentions (set_chain 0 r) in
      let start := negb (bool_decide (next r = "")) && negb (running r) in
      Some (if start then set_running true r else r, turn, start).

Definition Stop_locked (r : Room) : Room := set_schedule "" RoomStopped r.

(** What a drive loop does after the section at its head. *)
Inductive next_action :=
| Return
| Speak (speaker message addresser : string)
| Consolidate (roundStart : nat) (round : Z) (moderator : string) (budget : Z).

Definition drive_top (r : Room) : Room * next_action :=
  if decide (status r = RoomStopped ∨ next r = "") then (set_running false r, Return)
  else if (MaxChain (meta r) <=? chain r)%Z then (set_running false (set_schedule "" RoomWaiting r), Return)
  else
    let speaker := next r in
    let r := set_speaking speaker (set_schedule "" (status r) r) in
    (r, Speak speaker (deltaLocked speaker r) (addresser r)).

(** The section after a turn that failed, in both loops. *)
Definition turn_failed (now : time) (speaker err : string) (r : Room) : Room * RoomTurn :=
  let t := mkTurn speaker "" [] 0 now err in
  (set_running false (set_schedule (next r) RoomWaiting (append t (set_speaking "" r))), t).

(** [lastSeen[speaker] = len(transcript)]. *)
Definition mark_seen (speaker : string) (r : Room) : Room :=
  set_seen (<[speaker := length (transcript r)]> (lastSeen r)) r.

Definition drive_replied (now : time) (speaker reply : string) (r : Room) : Room * RoomTurn :=
  let mentions := parseMentions reply (Participants (meta r)) speaker in
  let t := mkTurn speaker reply mentions 0 now "" in
  let r := mark_seen speaker (append t (set_speaking "" r)) in
  (scheduleNextLocked speaker mentions (set_chain (chain r + 1) r), t).

Definition roundtable_top (r : Room) : Room * next_action :=
  if decide (status r = RoomStopped) then (set_running false r, Return)
  else match order r !! cursor r with
       | Some speaker =>
           let r := set_speaking speaker (set_cursor (S (cursor r)) r) in
           (r, Speak speaker (deltaLocked speaker r) (addresser r))
       | None =>
           let r := set_speaking (Moderator (meta r)) (set_round (order r) (cursor r) (round r + 1) (roundStart r) r) in
           (r, Consolidate (roundStart r) (round r) (Moderator (meta r)) (Budget (meta r)))
       end.

Definition roundtable_replied (now : time) (speaker reply : string) (r : Room) : Room * RoomTurn :=
  let t := mkTurn speaker reply [] (round r + 1) now "" in
  (mark_seen speaker (append t (set_speaking "" r)), t).

(** After the consolidation; the result is the turn to persist before the
    decision, if any, or whether the loop goes on. *)
Definition decide_round (shuffle : list string → list string) (consensus : bool) (rnd budget : Z) (r : Room) : Room * bool :=
  if consensus || (budget <=? rnd)%Z then (set_running false (set_schedule (next r) RoomWaiting r), false)
  else (set_round (shuffle (Participants (meta r))) 0 (round r) (length (transcript r)) r, true).

Definition roundtable_judged (shuffle : list string → list string) (now : time) (moderator text : string)
    (consensus : bool) (rnd budget : Z) (r : Room) : Room * (RoomTurn + bool) :=
  let r := set_speaking "" r in
  if decide (status r = RoomStopped) then (set_running false r, inr false)
  else if decide (text = "") then let '(r, go) := decide_round shuffle consensus rnd budget r in (r, inr go)
  else let t := mkTurn moderator text [] rnd now "" in (append t r, inl t).

(** The guarded section of [ResumePending]: whether the room is driven. *)
Definition resume_locked (r : Room) : Room * bool :=
  let start := bool_decide (status r = RoomActive) && negb (bool_decide (next r = "")) && negb (running r) in
  (if start then set_running true r else r, start).

(** ** The manager

    Rooms are independent: an operation on the manager is one on the room it
    names. What it persists is in [RoomStore]. *)
Record RoomManager := mkManager { rooms : gmap string Room; isAgent : option (string → bool) }.

Definition registered (m : RoomManager) (name : string) : bool := from_option (λ f, f name) true (isAgent m).

Fixpoint canon_loop (m : RoomManager) (seen : gset string) (ps canonical : list string) : list string + string :=
  match ps with
  | [] => inl canonical
  | p :: ps =>
      let p := TrimSpace p in
      if decide (p = "") then canon_loop m seen ps canonical
      else if negb (registered m p) then inr ("participant " +:+ fmt_q p +:+ " is not a registered agent")
      else if bool_decide (ToLower p ∈ seen) then canon_loop m seen ps canonical
      else canon_loop m ({[ToLower p]} ∪ seen) ps (canonical ++ [p])
  end.

Definition canonParticipants (m : RoomManager) (participants : list string) : list string + string :=
  match canon_loop m ∅ participants [] with
  | inl [] => inr "a room needs at least one participant"
  | r => r
  end.

Definition new_room (mt : RoomMeta) : Room := mkRoom mt [] RoomWaiting "" "" ∅ 0 false [] 0 0 0.

(** The room of [CreateRoom], before its opening message. *)
Definition relay_room (m : RoomManager) (id topic : string) (participants : list string) (organizer : string)
    (maxChain : Z) (now : time) : Room + string :=
  match canonParticipants m participants with
  | inr err => inr err
  | inl canonical =>
      let topic := truncateTopic (TrimSpace topic) in
      let organizer := TrimSpace organizer in
      let organizer := if decide (organizer = "") then "operator" else organizer in
      if negb (bool_decide (organizer = "operator")) && negb (bool_decide (organizer ∈ canonical))
      then inr ("organizer " +:+ fmt_q organizer +:+ " must be a participant or " +:+ dq +:+ "operator" +:+ dq)
      else
        let maxChain := if (maxChain <=? 0)%Z then defaultMaxChain else maxChain in
        inl (new_room (mkMeta id topic canonical organizer maxChain RoomModeRelay "" 0 now))
  end.

(** The room of [CreateRoundtableRoom], before its opening message. *)
Definition roundtable_room (m : RoomManager) (id topic : string) (participants : list string) (moderator : string)
    (budget : Z) (now : time) : Room + string :=
  match canonParticipants m participants with
  | inr err => inr err
  | inl canonical =>
      let moderator := TrimSpace moderator in
      if decide (moderator = "") then inr "a roundtable needs a moderator agent"
      else if negb (registered m moderator) then inr ("moderator " +:+ fmt_q moderator +:+ " is not a registered agent")
      else if existsb (λ p, EqualFold p moderator) canonical
      then inr ("moderator " +:+ fmt_q moderator +:+ " must not also be a participant")
      else
        let budget := if (budget <=? 0)%Z then defaultRoundtableBudget else budget in
        inl (new_room (mkMeta id (truncateTopic (TrimSpace topic)) canonical "operator" 0 RoomModeRoundtable moderator budget now))
  end.

Definition with_room (id : string) (r : Room) (m : RoomManager) : RoomManager := mkManager (<[id := r]> (rooms m)) (isAgent m).

(** [SetStore]'s restored rooms. *)
Definition SetStore (restored : gmap string Room) (m : RoomManager) : RoomManager :=
  mkManager (restored ∪ rooms m) (isAgent m).

(** [Say]: the new manager, and the turn to persist and whether a goroutine is
    started, or the error. *)
Definition Say (shuffle : list string → list string) (now : time) (id text speaker : string) (m : RoomManager)
    : RoomManager * (RoomTurn * bool + string) :=
  match rooms m !! id with
  | None => (m, inr ("room " +:+ fmt_q id +:+ " not found"))
  | Some r => match Say_locked shuffle now text speaker r with
              | None => (m, inr "room is stopped")
              | Some (r, t, start) => (with_room id r m, inl (t, start))
              end
  end.

Definition Stop (id : string) (m : RoomManager) : RoomManager * option string :=
  match rooms m !! id with
  | None => (m, Some ("room " +:+ fmt_q id +:+ " not found"))
  | Some r => (with_room id (Stop_locked r) m, None)
  end.

(** The end of both constructors: the room enters the map and an opening message
    is said by the operator. *)
Definition create (shuffle : list string → list string) (now : time) (opening : string) (r : Room) (m : RoomManager)
    : RoomManager * (option (RoomTurn * bool) + string) :=
  let id := room_ID (meta r) in
  let m := with_room id r m in
  if decide (TrimSpace opening = "") then (m, inl None)
  else match Say shuffle now id opening "operator" m with
       | (m, inl x) => (m, inl (Some x))
       | (m, inr err) => (m, inr err)
       end.

Definition CreateRoom (shuffle : list string → list string) (now : time) (id topic : string) (participants : list string)
    (organizer : string) (maxChain : Z) (opening : string) (m : RoomManager)
    : RoomManager * (option (RoomTurn * bool) + string) :=
  match relay_room m id topic participants organizer maxChain now with
  | inr err => (m, inr err)
  | inl r => create shuffle now opening r m
  end.

Definition CreateRoundtableRoom (shuffle : list string → list string) (now : time) (id topic : string)
    (participants : list string) (moderator : string) (budget : Z) (opening : string) (m : RoomManager)
    : RoomManager * (option (RoomTurn * bool) + string) :=
  match roundtable_room m id topic participants moderator budget now with
  | inr err => (m, inr err)
  | inl r => create shuffle now opening r m
  end.

(** ** Views *)

Record RoomView := mkView {
  v_meta : RoomMeta; v_Status : string; v_Next : string; v_Speaking : string; v_Transcript : list RoomTurn;
}.

Definition snapshot (r : Room) : RoomView := mkView (meta r) (status r) (next r) (speaking r) (transcript r).

Definition Get (id : string) (m : RoomManager) : option RoomView := snapshot <$> rooms m !! id.

Abbreviation created v := (createdAt (v_meta v)) (only parsing).

(** The inner loop of [List] for one [i]: [x] is [views[i]], the list what comes
    after it. *)
Fixpoint newest_pass (x : RoomView) (l : list RoomView) : RoomView * list RoomView :=
  match l with
  | [] => (x, [])
  | y :: l =>
      if Before (created x) (created y)
      then let '(v, l) := newest_pass y l in (v, x :: l)
      else let '(v, l) := newest_pass x l in (v, y :: l)
  end.

Fixpoint newest_first (n : nat) (l : list RoomView) : list RoomView :=
  match n, l with
  | S n, x :: l => let '(v, l) := newest_pass x l in v :: newest_first n l
  | _, _ => l
  end.

(** [List], with the order in which the map is visited. *)
Definition List_ (range : gmap string Room → list (string * Room)) (m : RoomManager) : list RoomView :=
  let views := snapshot ∘ snd <$> range (rooms m) in newest_first (length views) views.
End rooms.
