(* ===== verification/RoomsDrive.v ===== *)
(** * The goroutines of a room ([internal/scheduler/rooms.go])

    The sections of [Rooms] under every interleaving: requests that say something
    or stop the room, drive goroutines that wait for an agent or the moderator
    outside the lock, and turns and stops on their way to the log. *)
From S2P Require Import Prelude GoBase GoStrings Rooms.
From Stdlib Require Import ZArith Lia.

Inductive kind := Relay | Rounds.
#[export] Instance kind_eq_dec : EqDecision kind.
Proof. solve_decision. Defined.

(** Where a drive goroutine is. [sent] is the length of the transcript when the
    message of the turn was built. *)
Inductive driver :=
| Top (k : kind)                                                  (** about to lock at the head of its loop *)
| Turn (k : kind) (speaker message : string) (sent : nat)         (** waiting for an agent *)
| Save (k : kind) (t : RoomTurn)                                  (** persisting a turn, then back to the head *)
| Judge (start : nat) (rnd : Z) (moderator : string) (budget : Z) (** about to read the round *)
| Judging (prompt moderator : string) (rnd : Z) (budget : Z)      (** waiting for the moderator *)
| Announce (t : RoomTurn) (consensus : bool) (rnd budget : Z)     (** persisting the consolidation *)
| Decide (consensus : bool) (rnd budget : Z).                     (** about to lock for the decision *)

(** A message that was answered: the turns [from] up to [sent] were in it, the
    answer became turn [own]. *)
Record delivery := mkDelivery { d_to : string; d_from : nat; d_sent : nat; d_own : nat; d_message : string }.

(** What is written to the log of a room after its creation: a turn, or the
    status it was given by [Stop]. *)
Inductive change := Turned (t : RoomTurn) | Status (st : string).

(** [pending] are the changes that a request, or a goroutine about to end, has still
    to persist; [log] those persisted. [since] counts the turns begun since the
    last message of an operator, [heard] the deliveries and
    [posts] the places in the transcript of what requests have said. *)
Record system := mkSystem {
  room : Room;
  drivers : list driver;
  pending : list change;
  log : list change;
  since : nat;
  heard : list delivery;
  posts : list nat;
}.

(** The twelve kinds of work; those of a drive goroutine with what the lemma
    [alone] below says of it. *)
Ltac work_cases alone W Hw :=
  destruct Hw as [s l rest k r E Ht | s l rest k r sp msg addr E Ht | s l rest k r start rnd m b E Ht
    | s l rest k sp msg sent now err r t E Herr Ht | s l rest k sp msg sent now reply r t E Ht | s l rest k t E
    | s l rest start rnd m b E | s l rest prompt m rnd b sh now answer r t E Hsh Ht
    | s l rest prompt m rnd b sh now answer r go E Hsh Ht | s l rest t c rnd b E | s l rest c rnd b sh r go E Hsh Ht | s l rest t E];
  try (destruct (alone s l _ rest W E) as (-> & -> & Hrun & Hp); cbn in Hp, E).

Section drive.
Context `{UnicodeLower, UnicodeTables}.

Definition kind_of (r : Room) : kind := if decide (Mode (meta r) = RoomModeRoundtable) then Rounds else Relay.

Definition top (k : kind) (r : Room) : Room * next_action := match k with Relay => drive_top r | Rounds => roundtable_top r end.

Definition replied (k : kind) (now : time) (speaker reply : string) (r : Room) : Room * RoomTurn :=
  match k with Relay => drive_replied now speaker reply r | Rounds => roundtable_replied now speaker reply r end.

Definition shuffles (sh : list string → list string) : Prop := ∀ l, sh l ≡ₚ l.

(** Steps of the goroutines of the room itself; an error has a text. *)
Inductive work : system → system → Prop :=
| w_return s l rest k r :
    drivers s = l ++ Top k :: rest → top k (room s) = (r, Return) →
    work s (mkSystem r (l ++ rest) (pending s) (log s) (since s) (heard s) (posts s))
| w_speak s l rest k r sp msg addr :
    drivers s = l ++ Top k :: rest → top k (room s) = (r, Speak sp msg addr) →
    work s (mkSystem r (l ++ Turn k sp msg (length (transcript (room s))) :: rest) (pending s) (log s) (S (since s)) (heard s) (posts s))
| w_consolidate s l rest k r start rnd moderator budget :
    drivers s = l ++ Top k :: rest → top k (room s) = (r, Consolidate start rnd moderator budget) →
    work s (mkSystem r (l ++ Judge start rnd moderator budget :: rest) (pending s) (log s) (since s) (heard s) (posts s))
| w_failed s l rest k sp msg sent now err r t :
    drivers s = l ++ Turn k sp msg sent :: rest → err ≠ "" → turn_failed now sp err (room s) = (r, t) →
    work s (mkSystem r (l ++ rest) (pending s ++ [Turned t]) (log s) (since s) (heard s) (posts s))
| w_replied s l rest k sp msg sent now reply r t :
    drivers s = l ++ Turn k sp msg sent :: rest → replied k now sp reply (room s) = (r, t) →
    work s (mkSystem r (l ++ Save k t :: rest) (pending s) (log s) (since s)
              (heard s ++ [mkDelivery sp (seen_by sp (room s)) sent (length (transcript (room s))) msg]) (posts s))
| w_saved s l rest k t :
    drivers s = l ++ Save k t :: rest →
    work s (mkSystem (room s) (l ++ Top k :: rest) (pending s) (log s ++ [Turned t]) (since s) (heard s) (posts s))
| w_ask s l rest start rnd moderator budget :
    drivers s = l ++ Judge start rnd moderator budget :: rest →
    work s (mkSystem (room s) (l ++ Judging (consolidate_prompt start rnd (room s)) moderator rnd budget :: rest)
              (pending s) (log s) (since s) (heard s) (posts s))
| w_announce s l rest prompt moderator rnd budget sh now answer r t :
    drivers s = l ++ Judging prompt moderator rnd budget :: rest → shuffles sh →
    roundtable_judged sh now moderator (consolidation answer).1 (consolidation answer).2 rnd budget (room s) = (r, inl t) →
    work s (mkSystem r (l ++ Announce t (consolidation answer).2 rnd budget :: rest) (pending s) (log s) (since s) (heard s) (posts s))
| w_judged s l rest prompt moderator rnd budget sh now answer r go :
    drivers s = l ++ Judging prompt moderator rnd budget :: rest → shuffles sh →
    roundtable_judged sh now moderator (consolidation answer).1 (consolidation answer).2 rnd budget (room s) = (r, inr go) →
    work s (mkSystem r (l ++ (if go : bool then [Top Rounds] else []) ++ rest) (pending s) (log s) (since s) (heard s) (posts s))
| w_announced s l rest t consensus rnd budget :
    drivers s = l ++ Announce t consensus rnd budget :: rest →
    work s (mkSystem (room s) (l ++ Decide consensus rnd budget :: rest) (pending s) (log s ++ [Turned t]) (since s) (heard s) (posts s))
| w_decided s l rest consensus rnd budget sh r go :
    drivers s = l ++ Decide consensus rnd budget :: rest → shuffles sh → decide_round sh consensus rnd budget (room s) = (r, go) →
    work s (mkSystem r (l ++ (if go : bool then [Top Rounds] else []) ++ rest) (pending s) (log s) (since s) (heard s) (posts s))
| w_persist s l rest c :
    pending s = l ++ c :: rest →
    work s (mkSystem (room s) (drivers s) (l ++ rest) (log s ++ [c]) (since s) (heard s) (posts s)).

Inductive step : system → system → Prop :=
| step_work s s' : work s s' → step s s'
| step_say s sh now text sp r t start :
    shuffles sh → Say_locked sh now text sp (room s) = Some (r, t, start) →
    step s (mkSystem r (drivers s ++ if start : bool then [Top (kind_of (room s))] else []) (pending s ++ [Turned t]) (log s) 0 (heard s)
            (posts s ++ [length (transcript (room s))]))
| step_stop s :
    step s (mkSystem (Stop_locked (room s)) (drivers s) (pending s ++ [Status RoomStopped]) (log s) (since s) (heard s) (posts s))
| step_resume s r :
    resume_locked (room s) = (r, true) →
    step s (mkSystem r (drivers s ++ [Top Relay]) (pending s) (log s) (since s) (heard s) (posts s)).

(** A room that no goroutine drives: fresh, or restored from its log. *)
Definition rest_at (r : Room) : system := mkSystem r [] [] [] 0 [] [].

Definition reachable (r : Room) (s : system) : Prop := rtc step (rest_at r) s.
(** ** Well-formed systems *)

Record room_ok (r : Room) : Prop := {
  ok_seen p : seen_by p r ≤ length (transcript r);
  ok_start : roundStart r ≤ length (transcript r);
  ok_round : (0 ≤ round r)%Z;
  ok_next : kind_of r = Rounds → next r = "";
}.

Definition phase (r : Room) (d : driver) : Prop :=
  match d with
  | Top k | Save k _ => k = kind_of r ∧ speaking r = ""
  | Turn k sp _ sent => k = kind_of r ∧ speaking r = sp ∧ seen_by sp r ≤ sent ≤ length (transcript r)
  | Judge start rnd m b =>
      kind_of r = Rounds ∧ speaking r = m ∧ start ≤ length (transcript r) ∧ b = Budget (meta r) ∧ (0 ≤ rnd ∧ round r ≤ rnd)%Z
  | Judging _ m rnd b => kind_of r = Rounds ∧ speaking r = m ∧ b = Budget (meta r) ∧ (0 ≤ rnd ∧ round r ≤ rnd)%Z
  | Announce _ _ rnd b | Decide _ rnd b =>
      kind_of r = Rounds ∧ speaking r = "" ∧ b = Budget (meta r) ∧ (0 ≤ rnd ∧ round r ≤ rnd)%Z
  end.

Record wf (s : system) : Prop := {
  wf_room : room_ok (room s);
  wf_run : match drivers s with
           | [] => running (room s) = false ∧ speaking (room s) = ""
           | [d] => running (room s) = true ∧ phase (room s) d
           | _ => False
           end;
}.

(** A goroutine is alone and the room is marked as running. *)
Lemma alone s l d rest : wf s → drivers s = l ++ d :: rest → l = [] ∧ rest = [] ∧ running (room s) = true ∧ phase (room s) d.
Proof.
  intros W E. pose proof (wf_run s W) as Hr. rewrite E in Hr. destruct l as [| a l]; cbn in Hr.
  - destruct rest; [by destruct Hr | done].
  - destruct l; [destruct rest |]; done.
Qed.

(** ** What the sections change *)

Lemma schedule_shape sp ms r : ∃ n st, scheduleNextLocked sp ms r = set_schedule n st r.
Proof. unfold scheduleNextLocked. repeat case_match; eauto. Qed.

Lemma kind_of_meta r r' : meta r' = meta r → kind_of r' = kind_of r.
Proof. unfold kind_of. by intros ->. Qed.

Lemma kind_rounds r : kind_of r = Rounds ↔ Mode (meta r) = RoomModeRoundtable.
Proof. unfold kind_of. by case_decide. Qed.

Record said (sh : list string → list string) (r r' : Room) (t : RoomTurn) (start : bool) : Prop := {
  said_live : status r ≠ RoomStopped;
  said_meta : meta r' = meta r;
  said_transcript : transcript r' = transcript r ++ [t];
  said_ok : turn_Error t = "";
  said_speaking : speaking r' = speaking r;
  said_seen : lastSeen r' = lastSeen r;
  said_running : running r' = running r || start;
  said_start : start = true → running r = false;
  said_mode : match kind_of r with
    | Rounds => next r' = next r ∧ status r' = RoomActive ∧ order r' = sh (Participants (meta r)) ∧ cursor r' = 0 ∧
                round r' = 0%Z ∧ roundStart r' = length (transcript r') ∧ chain r' = chain r ∧ running r' = true
    | Relay => (next r', status r') = (next (scheduleNextLocked (Speaker t) (Mentions t) r), status (scheduleNextLocked (Speaker t) (Mentions t) r)) ∧
               order r' = order r ∧ cursor r' = cursor r ∧ round r' = round r ∧ roundStart r' = roundStart r ∧ chain r' = 0%Z ∧
               start = negb (bool_decide (next r' = "")) && negb (running r)
    end;
}.

Lemma Say_said sh now text sp r r' t start : Say_locked sh now text sp r = Some (r', t, start) → said sh r r' t start.
Proof.
  unfold Say_locked. cbn zeta. generalize (if decide (sp = "") then "operator" else sp) as spk. intros spk.
  destruct (decide (status r = RoomStopped)) as [| Hs]; [done |].
  cbn [meta append]. destruct (decide (Mode (meta r) = RoomModeRoundtable)) as [Hm | Hm].
  - intros [= <- <- <-]. split; try done; cbn.
    + by destruct (running r).
    + by intros ->%negb_true_iff.
    + rewrite (proj2 (kind_rounds r) Hm). by split_and!.
  - set (ms := parseMentions text (Participants (meta r)) ""). set (u := mkTurn spk text ms 0 now "").
    destruct (schedule_shape spk ms (set_chain 0 (append u r))) as (n & st & E).
    assert (scheduleNextLocked spk ms r = set_schedule n st r) as E'.
    { revert E. unfold scheduleNextLocked. cbn. repeat case_match; intros [=]; by subst. }
    rewrite E. intros [= <- <- <-].
    assert (kind_of r = Relay) as Hk by (unfold kind_of; by case_decide).
    destruct (bool_decide (n = "")) eqn:En, (running r) eqn:Er; cbn; rewrite ?En, ?Er;
      (split; cbn; rewrite ?Hk, ?E', ?En, ?Er; try done; by split_and!).
Qed.

(** A head section that goes on. *)
Lemma top_speak k r r' sp msg addr :
  top k r = (r', Speak sp msg addr) →
  status r ≠ RoomStopped ∧ meta r' = meta r ∧ transcript r' = transcript r ∧ status r' = status r ∧ speaking r' = sp ∧
  lastSeen r' = lastSeen r ∧ running r' = running r ∧ order r' = order r ∧ round r' = round r ∧ roundStart r' = roundStart r ∧
  chain r' = chain r ∧ msg = deltaLocked sp r' ∧
  match k with
  | Relay => next r = sp ∧ sp ≠ "" ∧ next r' = "" ∧ (chain r < MaxChain (meta r))%Z ∧ cursor r' = cursor r
  | Rounds => next r' = next r ∧ order r !! cursor r = Some sp ∧ cursor r' = S (cursor r)
  end.
Proof.
  destruct k; cbn [top]; unfold drive_top, roundtable_top.
  - case_decide as Hs; [done |]. destruct (_ <=? _)%Z eqn:E; [done |]. bool_to_prop.
    intros [= <- <- <- <-]. cbn. split_and!; auto; try lia; intros ?; apply Hs; auto.
  - case_decide as Hs; [done |]. destruct (order r !! cursor r) as [p |] eqn:E; [| done].
    intros [= <- <- <- <-]. by split_and!.
Qed.

Lemma top_return k r r' :
  top k r = (r', Return) →
  ∃ n st, r' = set_running false (set_schedule n st r) ∧ (k = Rounds → n = next r) ∧
    ((n = next r ∧ st = status r ∧ (status r = RoomStopped ∨ (k = Relay ∧ next r = ""))) ∨
     (k = Relay ∧ n = "" ∧ st = RoomWaiting)).
Proof.
  destruct k; cbn [top]; unfold drive_top, roundtable_top.
  - case_decide as Hs.
    + intros [= <-]. exists (next r), (status r). split_and!; [by destruct r | done |]. left. naive_solver.
    + destruct (_ <=? _)%Z; [| done]. intros [= <-]. exists "", RoomWaiting. split_and!; [done.. |]. by right.
  - case_decide as Hs; [| by destruct (order r !! cursor r)].
    intros [= <-]. exists (next r), (status r). split_and!; [by destruct r | done |]. left. auto.
Qed.

Lemma top_consolidate k r r' start rnd m b :
  top k r = (r', Consolidate start rnd m b) →
  k = Rounds ∧ status r ≠ RoomStopped ∧ order r !! cursor r = None ∧ start = roundStart r ∧ rnd = (round r + 1)%Z ∧ m = Moderator (meta r) ∧
  b = Budget (meta r) ∧ r' = set_speaking m (set_round (order r) (cursor r) rnd (roundStart r) r).
Proof.
  destruct k; cbn [top]; unfold drive_top, roundtable_top.
  - case_decide; [done |]. by destruct (_ <=? _)%Z.
  - case_decide as Hs; [done |]. destruct (order r !! cursor r) as [p |] eqn:E; [done |].
    intros [= <- <- <- <- <-]. by split_and!.
Qed.
(** The turn that an answer adds, in either mode. *)
Lemma replied_facts k now sp reply r r' t :
  replied k now sp reply r = (r', t) →
  meta r' = meta r ∧ transcript r' = transcript r ++ [t] ∧ Speaker t = sp ∧ turn_Error t = "" ∧ speaking r' = "" ∧
  lastSeen r' = <[sp := S (length (transcript r))]> (lastSeen r) ∧ running r' = running r ∧ order r' = order r ∧
  cursor r' = cursor r ∧ round r' = round r ∧ roundStart r' = roundStart r ∧
  match k with
  | Relay => chain r' = (chain r + 1)%Z ∧ (next r', status r') = (next (scheduleNextLocked sp (Mentions t) r), status (scheduleNextLocked sp (Mentions t) r))
  | Rounds => chain r' = chain r ∧ next r' = next r ∧ status r' = status r
  end.
Proof.
  destruct k; cbn [replied]; unfold drive_replied, roundtable_replied; cbn zeta.
  - set (ms := parseMentions reply _ sp). set (u := mkTurn sp reply ms 0 now "").
    set (r1 := set_chain _ _). destruct (schedule_shape sp ms r1) as (n & st & E).
    assert (scheduleNextLocked sp ms r = set_schedule n st r) as E'.
    { revert E. unfold scheduleNextLocked, r1. cbn. repeat case_match; intros [=]; by subst. }
    rewrite E. intros [= <- <-]. cbn. rewrite E', length_app, Nat.add_1_r. by split_and!.
  - intros [= <- <-]. cbn. rewrite length_app, Nat.add_1_r. by split_and!.
Qed.

Lemma decide_facts sh c rnd b r r' go :
  decide_round sh c rnd b r = (r', go) →
  if go then c = false ∧ (rnd < b)%Z ∧ r' = set_round (sh (Participants (meta r))) 0 (round r) (length (transcript r)) r
  else r' = set_running false (set_schedule (next r) RoomWaiting r).
Proof.
  unfold decide_round. destruct (c || _) eqn:E; intros [= <- <-]; [done |]. bool_to_prop. by split_and!.
Qed.

(** The room after the moderator's answer. *)
Lemma judged_facts sh now m text c rnd b r r' x :
  roundtable_judged sh now m text c rnd b r = (r', x) →
  match x with
  | inl t => r' = append t (set_speaking "" r) ∧ t = mkTurn m text [] rnd now ""
  | inr true => c = false ∧ (rnd < b)%Z ∧
      r' = set_round (sh (Participants (meta r))) 0 (round r) (length (transcript r)) (set_speaking "" r)
  | inr false => ∃ st, r' = set_running false (set_schedule (next r) st (set_speaking "" r)) ∧ (st = status r ∨ st = RoomWaiting)
  end.
Proof.
  unfold roundtable_judged. cbn zeta. case_decide as Hs.
  { intros [= <- <-]. exists (status r). split; [| by left]. by destruct r. }
  case_decide as Ht; [| by intros [= <- <-]].
  destruct (decide_round sh c rnd b _) as [r1 go] eqn:E. intros [= <- <-]. apply decide_facts in E.
  destruct go; [done |]. subst r1. exists RoomWaiting. split; [done | by right].
Qed.

(** A room is as well-formed as another when it has the same bounds and a longer
    transcript. *)
Lemma room_ok_same r r' :
  room_ok r → meta r' = meta r → length (transcript r) ≤ length (transcript r') → lastSeen r' = lastSeen r →
  roundStart r' ≤ length (transcript r') → (0 ≤ round r')%Z → (kind_of r = Rounds → next r' = "") → room_ok r'.
Proof.
  intros [] Hm Hl Hseen Hs Hr Hn. split; auto.
  - intros p. unfold seen_by. rewrite Hseen. etrans; [apply ok_seen0 | done].
  - by rewrite (kind_of_meta r r') by done.
Qed.

Lemma phase_said sh r r' t start d : phase r d → said sh r r' t start → room_ok r → phase r' d.
Proof.
  intros Hp S Hok. destruct S as [_ Hmeta Htr _ Hsp Hseen _ _ Hmode].
  assert (kind_of r' = kind_of r) as Hk by by apply kind_of_meta.
  assert (length (transcript r') = S (length (transcript r))) as Hlen by (rewrite Htr, length_app; cbn; lia).
  destruct d; cbn in Hp |- *; rewrite Hk, Hsp; rewrite ?Hmeta, ?Hlen; unfold seen_by in *; rewrite ?Hseen;
    try (by intuition lia); destruct (kind_of r); destruct_and!; try done; split_and!; auto; lia.
Qed.

Lemma wf_say s sh now text sp r t start :
  wf s → Say_locked sh now text sp (room s) = Some (r, t, start) →
  wf (mkSystem r (drivers s ++ if start : bool then [Top (kind_of (room s))] else []) (pending s ++ [Turned t]) (log s) 0 (heard s)
            (posts s ++ [length (transcript (room s))])).
Proof.
  intros W Hsay%Say_said. pose proof (wf_room s W) as Hok. pose proof (wf_run s W) as Hrun. split; cbn.
  - destruct Hsay as [_ Hmeta Htr _ _ Hseen _ _ Hmode].
    assert (length (transcript r) = S (length (transcript (room s)))) as Hlen by (rewrite Htr, length_app; cbn; lia).
    destruct Hok. eapply (room_ok_same (room s)); [by split | done | lia | done | ..];
      destruct (kind_of (room s)) eqn:Ek; destruct_and!; try lia; try done; intros _; rewrite H1; auto.
  - pose proof (λ d Hp, phase_said sh (room s) r t start d Hp Hsay Hok) as Hphase.
    destruct Hsay as [_ Hmeta _ _ Hsp _ Hrunning Hstart _].
    destruct (drivers s) as [| d [| ? ?]] eqn:Ed; [| | done].
    + destruct Hrun as [Hrun Hidle]. cbn. destruct start; cbn in *.
      * rewrite Hrunning, orb_true_r. split; [done |]. split; [by rewrite (kind_of_meta (room s) r) | by rewrite Hsp].
      * rewrite Hrunning, Hrun, Hsp. by split.
    + destruct Hrun as [Hrun Hp]. destruct start; [by rewrite (Hstart eq_refl) in Hrun |]. cbn.
      rewrite Hrunning, Hrun. split; [done | by apply Hphase].
Qed.
Lemma wf_work s s' : wf s → work s s' → wf s' ∧ meta (room s') = meta (room s).
Proof.
  intros W Hw. pose proof (wf_room s W) as Hok. pose proof Hok as [Hseen Hstart Hround Hnext].
  work_cases alone W Hw.
  - apply top_return in Ht as (n & st & -> & Hn & _). destruct Hp as [-> Hsp]. split; [split; cbn | done].
    + eapply (room_ok_same (room s)); try done. cbn. intros Hk. rewrite (Hn Hk). by apply Hnext.
    + done.
  - apply top_speak in Ht as (_ & Hm & Htr & _ & Hsp & Hse & Hru & _ & Hro & Hrs & _ & _ & Hk). destruct Hp as [-> _].
    split; [split; cbn | done].
    + eapply (room_ok_same (room s)); rewrite ?Htr, ?Hrs, ?Hro; try done. intros Hk'. rewrite Hk' in Hk. destruct Hk as [-> _]. auto.
    + rewrite (kind_of_meta (room s) r), Hru, Htr by done. split_and!; try done. unfold seen_by in *. by rewrite Hse.
  - apply top_consolidate in Ht as (Hk & _ & _ & -> & -> & -> & -> & ->). destruct Hp as [Hk' _]. subst k.
    split; [split; cbn | done].
    + eapply (room_ok_same (room s)); try done. cbn. lia.
    + split; [done |]. split_and!; try done; cbn; lia.
  - destruct Hp as (-> & Hsp & _). unfold turn_failed in Ht. injection Ht as <- <-. split; [split; cbn | done].
    + eapply (room_ok_same (room s)); try done; cbn; rewrite ?length_app; lia.
    + done.
  - destruct Hp as (-> & Hsp & Hse). apply replied_facts in Ht as (Hm & Htr & _ & _ & Hs & Hls & Hru & _ & _ & Hro & Hrs & Hk).
    split; [split; cbn | done].
    + split; rewrite ?Htr, ?length_app, ?Hrs, ?Hro, ?(kind_of_meta (room s) r); try done; cbn; [| lia |].
      * intros p. unfold seen_by in *. rewrite Hls. destruct (decide (p = sp)) as [-> | Hne]; simplify_map_eq; [cbn; lia |].
        specialize (Hseen p). lia.
      * intros Hk'. rewrite Hk' in Hk. destruct Hk as (_ & -> & _). auto.
    + by rewrite (kind_of_meta (room s) r), Hru.
  - destruct Hp as (-> & Hsp). split; [split; cbn | done]; [done |]. by rewrite Hrun.
  - split; [split; cbn | done]; [done |]. rewrite Hrun. intuition.
  - apply judged_facts in Ht as [-> ->]. split; [split; cbn | done].
    + eapply (room_ok_same (room s)); try done; cbn; rewrite ?length_app; lia.
    + rewrite Hrun. intuition.
  - apply judged_facts in Ht. destruct go; [destruct Ht as (_ & _ & ->) | destruct Ht as (st & -> & _)]; (split; [split; cbn | done]).
    + eapply (room_ok_same (room s)); try done; cbn; lia.
    + rewrite Hrun. destruct Hp as [Hk _]. by split_and!.
    + eapply (room_ok_same (room s)); try done; cbn; lia.
    + done.
  - split; [split; cbn | done]; [done |]. rewrite Hrun. intuition.
  - apply decide_facts in Ht. destruct go; [destruct Ht as (_ & _ & ->) | subst r]; (split; [split; cbn | done]).
    + eapply (room_ok_same (room s)); try done; cbn; lia.
    + rewrite Hrun. destruct Hp as (Hk & Hs & _). by split_and!.
    + by eapply (room_ok_same (room s)).
    + by destruct Hp as (_ & ? & _).
  - split; [split; cbn | done]; [done | apply (wf_run s W)].
Qed.

Lemma wf_step s s' : wf s → step s s' → wf s' ∧ meta (room s') = meta (room s).
Proof.
  intros W Hs. destruct Hs as [s s' Hw | s sh now text sp r t start _ Hsay | s | s r Hr].
  - by apply wf_work.
  - split; [by eapply wf_say |]. by apply Say_said in Hsay as [].
  - split; [| done]. pose proof (wf_room s W) as Hok. split; cbn.
    + destruct Hok. by eapply (room_ok_same (room s)).
    + pose proof (wf_run s W) as Hrun. destruct (drivers s) as [| [] [| ? ?]]; done.
  - unfold resume_locked in Hr. destruct (_ && negb (running (room s))) eqn:E; [| done]. injection Hr as <-. bool_to_prop.
    split; [| done]. pose proof (wf_run s W) as Hrun. pose proof (wf_room s W) as Hok. split; cbn.
    + destruct Hok. by eapply (room_ok_same (room s)).
    + destruct (drivers s) as [| d [| ? ?]]; [| by destruct Hrun as [? _]; congruence | done]. destruct Hrun as [_ Hsp]. cbn.
      split; [done |]. split; [| done]. rewrite (kind_of_meta (room s)) by done. destruct (kind_of (room s)) eqn:Ek; [done |].
      by pose proof (ok_next _ Hok Ek).
Qed.

(** A room before any goroutine drives it. *)
Definition at_rest (r : Room) : Prop := room_ok r ∧ running r = false ∧ speaking r = "".

Lemma room_reachable_wf r s : at_rest r → reachable r s → wf s ∧ meta (room s) = meta r.
Proof.
  intros (Hok & Hr & Hs). apply (rtc_invariant step (λ s, wf s ∧ meta (room s) = meta r)).
  - intros x y [W Hm] Hxy. destruct (wf_step x y W Hxy) as [W' Hm']. split; [done |]. by rewrite Hm'.
  - split; [| done]. by split.
Qed.

Lemma new_room_at_rest mt : at_rest (new_room mt).
Proof. by split_and!. Qed.

(** (C26) A room is driven by at most one goroutine, under every interleaving of
    its requests, its drive loop and the retries after a restart, and in either
    mode: exactly one while the room is marked as running and none otherwise. The
    speaker shown as in flight is the one being waited for; a round always begins
    inside the transcript, so that reading it does not panic; and nobody has seen
    more turns than there are. *)
Theorem one_driver r s :
  at_rest r → reachable r s →
  length (drivers s) = (if running (room s) then 1 else 0) ∧
  (speaking (room s) ≠ "" → ∃ d, drivers s = [d] ∧
     match d with
     | Turn _ sp _ _ => speaking (room s) = sp
     | Judge _ _ m _ | Judging _ m _ _ => speaking (room s) = m
     | _ => False
     end) ∧
  roundStart (room s) ≤ length (transcript (room s)) ∧
  (∀ start rnd m b, drivers s = [Judge start rnd m b] → start ≤ length (transcript (room s))) ∧
  ∀ p, seen_by p (room s) ≤ length (transcript (room s)).
Proof.
  intros Hr Hreach. destruct (room_reachable_wf r s Hr Hreach) as [W _]. pose proof (wf_room s W) as Hok.
  pose proof (wf_run s W) as Hrun. split_and!.
  - destruct (drivers s) as [| d [| ? ?]]; [by destruct Hrun as [-> _] | by destruct Hrun as [-> _] | done].
  - intros Hsp. destruct (drivers s) as [| d [| ? ?]]; [by destruct Hrun | | done].
    exists d. split; [done |]. destruct d, Hrun as [_ Hp]; cbn in Hp; destruct_and!; congruence.
  - apply (ok_start _ Hok).
  - intros start rnd m b E. rewrite E in Hrun. destruct Hrun as [_ Hp]. cbn in Hp. tauto.
  - apply (ok_seen _ Hok).
Qed.
(** ** One run, executed

    The next step of the goroutine, with the answer it gets, and the two other
    moves of a run: a message of the operator and the persisting of a turn. *)
Definition move (s : system) (r : Room) (ds : list driver) : system := mkSystem r ds (pending s) (log s) (since s) (heard s) (posts s).

Definition advance (answer : string) (s : system) : system :=
  match drivers s with
  | [Top k] => match top k (room s) with
               | (r, Return) => move s r []
               | (r, Speak sp msg _) =>
                   mkSystem r [Turn k sp msg (length (transcript (room s)))] (pending s) (log s) (S (since s)) (heard s) (posts s)
               | (r, Consolidate start rnd m b) => move s r [Judge start rnd m b]
               end
  | [Turn k sp msg sent] =>
      let '(r, t) := replied k 0 sp answer (room s) in
      mkSystem r [Save k t] (pending s) (log s) (since s)
        (heard s ++ [mkDelivery sp (seen_by sp (room s)) sent (length (transcript (room s))) msg]) (posts s)
  | [Save k t] => mkSystem (room s) [Top k] (pending s) (log s ++ [Turned t]) (since s) (heard s) (posts s)
  | [Judge start rnd m b] => move s (room s) [Judging (consolidate_prompt start rnd (room s)) m rnd b]
  | [Judging _ m rnd b] =>
      match roundtable_judged id 0 m (consolidation (inl answer)).1 (consolidation (inl answer)).2 rnd b (room s) with
      | (r, inl t) => move s r [Announce t (consolidation (inl answer)).2 rnd b]
      | (r, inr go) => move s r (if go : bool then [Top Rounds] else [])
      end
  | [Announce t c rnd b] => mkSystem (room s) [Decide c rnd b] (pending s) (log s ++ [Turned t]) (since s) (heard s) (posts s)
  | [Decide c rnd b] => let '(r, go) := decide_round id c rnd b (room s) in move s r (if go : bool then [Top Rounds] else [])
  | _ => s
  end.

Definition fail (err : string) (s : system) : system :=
  match drivers s with
  | [Turn k sp msg sent] => let '(r, t) := turn_failed 0 sp err (room s) in mkSystem r [] (pending s ++ [Turned t]) (log s) (since s) (heard s) (posts s)
  | _ => s
  end.

Definition say (text : string) (s : system) : system :=
  match Say_locked id 0 text "operator" (room s) with
  | Some (r, t, start) =>
      mkSystem r (drivers s ++ if start : bool then [Top (kind_of (room s))] else []) (pending s ++ [Turned t]) (log s) 0 (heard s)
        (posts s ++ [length (transcript (room s))])
  | None => s
  end.

Definition persist (s : system) : system :=
  match pending s with
  | c :: rest => mkSystem (room s) (drivers s) rest (log s ++ [c]) (since s) (heard s) (posts s)
  | [] => s
  end.

Definition stop (s : system) : system :=
  mkSystem (Stop_locked (room s)) (drivers s) (pending s ++ [Status RoomStopped]) (log s) (since s) (heard s) (posts s).

Inductive move_kind := Advance (answer : string) | FailTurn (err : string) | SayIt (text : string) | Persist | StopIt.

Definition play (m : move_kind) (s : system) : system :=
  match m with Advance a => advance a s | FailTurn e => fail e s | SayIt t => say t s | Persist => persist s | StopIt => stop s end.

Lemma advance_runs answer s : rtc step s (advance answer s).
Proof.
  unfold advance. destruct (drivers s) as [| d [| ? ?]] eqn:E; [apply rtc_refl | | destruct d; apply rtc_refl].
  destruct d as [k | k sp msg sent | k t | start rnd m b | prompt m rnd b | t c rnd b | c rnd b].
  - destruct (top k (room s)) as [r [| sp msg addr | start rnd m b]] eqn:Ht; apply rtc_once, step_work.
    + exact (w_return s [] [] k r E Ht).
    + exact (w_speak s [] [] k r sp msg addr E Ht).
    + exact (w_consolidate s [] [] k r start rnd m b E Ht).
  - destruct (replied k 0 sp answer (room s)) as [r t] eqn:Ht. apply rtc_once, step_work. exact (w_replied s [] [] k sp msg sent 0 answer r t E Ht).
  - apply rtc_once, step_work. exact (w_saved s [] [] k t E).
  - apply rtc_once, step_work. exact (w_ask s [] [] start rnd m b E).
  - destruct (roundtable_judged id 0 m (consolidation (inl answer)).1 (consolidation (inl answer)).2 rnd b (room s)) as [r [t | go]] eqn:Ej; apply rtc_once, step_work.
    + exact (w_announce s [] [] prompt m rnd b id 0 (inl answer) r t E (λ l, reflexivity l) Ej).
    + pose proof (w_judged s [] [] prompt m rnd b id 0 (inl answer) r go E (λ l, reflexivity l) Ej) as Hw. cbn in Hw. by rewrite app_nil_r in Hw.
  - apply rtc_once, step_work. exact (w_announced s [] [] t c rnd b E).
  - destruct (decide_round id c rnd b (room s)) as [r go] eqn:Ed. apply rtc_once, step_work.
    pose proof (w_decided s [] [] c rnd b id r go E (λ l, reflexivity l) Ed) as Hw. cbn in Hw. by rewrite app_nil_r in Hw.
Qed.

Lemma play_runs m s : m ≠ FailTurn "" → rtc step s (play m s).
Proof.
  intros Hm. destruct m as [a | e | t | |]; cbn; [apply advance_runs | | | |].
  - unfold fail. destruct (drivers s) as [| [] [| ? ?]] eqn:E; try apply rtc_refl.
    destruct (turn_failed 0 speaker e (room s)) as [r t] eqn:Ht. apply rtc_once, step_work.
    apply (w_failed s [] [] k speaker message sent 0 e r t E); [| exact Ht]. intros ->. by apply Hm.
  - unfold say. destruct (Say_locked id 0 t "operator" (room s)) as [[[r u] start] |] eqn:Hs; [| apply rtc_refl].
    apply rtc_once. exact (step_say s id 0 t "operator" r u start (λ l, reflexivity l) Hs).
  - unfold persist. destruct (pending s) as [| t rest] eqn:E; [apply rtc_refl |]. apply rtc_once, step_work. exact (w_persist s [] rest t E).
  - apply rtc_once, step_stop.
Qed.

Definition game (r : Room) (ms : list move_kind) : system := foldl (λ s m, play m s) (rest_at r) ms.

Lemma game_reachable r ms : Forall (λ m, m ≠ FailTurn "") ms → reachable r (game r ms).
Proof.
  unfold reachable, game. induction ms as [| m ms IH] using rev_ind; intros Hms; [apply rtc_refl |].
  apply Forall_app in Hms as [Hms Hm%Forall_inv]. rewrite foldl_app. etrans; [exact (IH Hms) | exact (play_runs m _ Hm)].
Qed.
End drive.

(** A small room of each mode. *)
Definition relay_meta : RoomMeta := mkMeta "r1" "tea" ["ann"; "bob"] "operator" 2 RoomModeRelay "" 0 0.
Definition table_meta : RoomMeta := mkMeta "r2" "tea" ["ann"] "operator" 0 RoomModeRoundtable "max" 1 0.

#[local] Existing Instances bytewise_lower ascii_tables.

(** Ann is asked, passes the floor to Bob, who is being waited for. *)
Definition relay_moves : list move_kind := [SayIt "@ann hello"; Advance ""; Advance "@Bob you?"; Advance ""; Advance ""].

Example relay_game :
  (speaking (room (game (new_room relay_meta) relay_moves)), since (game (new_room relay_meta) relay_moves),
   Speaker <$> transcript (room (game (new_room relay_meta) relay_moves))) = ("bob", 2, ["operator"; "ann"]).
Proof. vm_compute. reflexivity. Qed.

Lemma relay_game_reachable : reachable (new_room relay_meta) (game (new_room relay_meta) relay_moves).
Proof. apply game_reachable. by repeat constructor. Qed.

Lemma one_driver_witness : length (drivers (game (new_room relay_meta) relay_moves)) = 1.
Proof.
  destruct (one_driver _ _ (new_room_at_rest relay_meta) relay_game_reachable) as [-> _].
  vm_compute. reflexivity.
Defined.
