(* ===== verification/RoomsLaws.v ===== *)
(** * What a room's goroutines guarantee ([internal/scheduler/rooms.go])

    The bound on an autonomous chain, the end of every discussion, what each
    participant is told, and what stopping a room does. *)
From S2P Require Import Prelude GoBase GoStrings Rooms RoomsDrive.
From Stdlib Require Import ZArith Lia.

Section laws.
Context `{UnicodeLower, UnicodeTables}.

(** ** The budget of an autonomous chain *)

Definition paced (s : system) : Prop :=
  let r := room s in let M := MaxChain (meta r) in let n := Z.of_nat (since s) in
  kind_of r = Relay → (0 ≤ chain r ≤ Z.max 0 M)%Z ∧
  match drivers s with
  | [] => (n ≤ Z.max 0 M)%Z ∧ (status r = RoomActive → next r ≠ "" → n = 0%Z)
  | Turn _ _ _ _ :: _ => (chain r < M ∧ n ≤ chain r + 1)%Z
  | _ => (n ≤ chain r)%Z
  end.

Lemma paced_work s s' : wf s → paced s → work s s' → paced s'.
Proof.
  intros W P Hw. assert (meta (room s') = meta (room s)) as Hm by by apply wf_work.
  assert (kind_of (room s') = kind_of (room s)) as Hk by by apply kind_of_meta. revert Hm Hk.
  unfold paced in *. work_cases alone W Hw; cbn zeta in P; rewrite ?E in P; cbn; intros Hm Hk Hrel';
    pose proof (eq_trans (eq_sym Hk) Hrel') as Hrel; destruct (P Hrel) as [P1 P2]; rewrite ?Hm; try (destruct Hp as [Hk' _]; congruence).
  - apply top_return in Ht as (n & st & -> & _ & Hcase). cbn. split; [done |]. split; [lia |].
    intros Ha Hne. destruct Hcase as [(-> & -> & [Hs | [_ Hs]]) | (_ & -> & ->)]; [by rewrite Hs in Ha | done | done].
  - destruct Hp as [-> _]. rewrite Hrel in Ht. apply top_speak in Ht as (_ & _ & _ & _ & _ & _ & _ & _ & _ & _ & -> & _ & _ & _ & _ & Hlt & _). lia.
  - apply top_consolidate in Ht as (-> & _). destruct Hp as [Hk' _]. congruence.
  - unfold turn_failed in Ht. injection Ht as <- <-. cbn. split; [done |]. split; [lia | done].
  - destruct Hp as (-> & _). rewrite Hrel in Ht. apply replied_facts in Ht as (_ & _ & _ & _ & _ & _ & _ & _ & _ & _ & _ & -> & _). lia.
  - done.
  - done.
Qed.

Lemma paced_step s s' : wf s → paced s → step s s' → paced s'.
Proof.
  intros W P Hs. destruct Hs as [s s' Hw | s sh now text sp r t start _ Hsay | s | s r Hr].
  - by eapply paced_work.
  - apply Say_said in Hsay. destruct Hsay as [_ Hm _ _ _ _ Hr Hst Hmode]. intros Hk. cbn in Hk |- *.
    rewrite (kind_of_meta (room s) r Hm) in Hk. destruct (P Hk) as [P1 P2]. rewrite Hk in Hmode. rewrite Hm, Hk.
    destruct Hmode as (_ & _ & _ & _ & _ & -> & ->). split; [lia |]. pose proof (wf_run s W) as Hrun.
    destruct (drivers s) as [| d [| ? ?]] eqn:Ed; [| | done].
    + destruct Hrun as [-> _]. destruct (bool_decide (next r = "")) eqn:En; cbn; [split; [lia | done] | lia].
    + destruct Hrun as [-> _]. rewrite andb_false_r. cbn. destruct d; cbn; lia.
  - intros Hk. cbn in Hk |- *. destruct (P Hk) as [P1 P2]. split; [done |]. destruct (drivers s); [| done].
    destruct P2 as [P2 _]. by split.
  - unfold resume_locked in Hr. destruct (_ && negb (running (room s))) eqn:E; [| done]. injection Hr as <-. bool_to_prop.
    intros Hk. cbn in Hk |- *. destruct (P Hk) as [P1 P2]. split; [done |]. pose proof (wf_run s W) as Hrun.
    destruct (drivers s) as [| d ?]; cbn; [destruct P2 as [_ P2]; rewrite P2 by done; lia |].
    destruct l; [| done]. destruct Hrun. congruence.
Qed.

(** A room before any goroutine drives it, its budget unspent. *)
Definition unspent (r : Room) : Prop := at_rest r ∧ chain r = 0%Z.

Lemma reachable_paced r s : unspent r → reachable r s → wf s ∧ paced s ∧ meta (room s) = meta r.
Proof.
  intros [Hr Hc]. apply (rtc_invariant step (λ s, wf s ∧ paced s ∧ meta (room s) = meta r)).
  - intros x y (W & P & Hm) Hxy. destruct (wf_step x y W Hxy) as [W' Hm']. rewrite Hm'. split_and!; [done | by apply (paced_step x) | done].
  - destruct Hr as (Hok & Hr1 & Hr2). split_and!; [by split | | done]. intros _. cbn. rewrite Hc. lia.
Qed.

(** Agents that keep handing the floor to each other are stopped: between
    two messages of an operator a relay room begins at most [MaxChain] turns,
    whatever the agents answer and however requests interleave. *)
Lemma relay_chain_bounded r s :
  unspent r → kind_of r = Relay → reachable r s → (Z.of_nat (since s) ≤ Z.max 0 (MaxChain (meta r)))%Z.
Proof.
  intros Hr Hk Hreach. destruct (reachable_paced r s Hr Hreach) as (_ & P & Hm).
  rewrite <- Hm. destruct P as [P1 P2]; [by rewrite (kind_of_meta r) |].
  destruct (drivers s) as [| [] ?]; cbn in P2; lia.
Qed.
(** ** Every discussion ends *)

(** What is left to a goroutine: turns of the chain in relay mode; rounds, then
    the rest of the round, in roundtable mode. *)
Definition chain_left (r : Room) : nat := Z.to_nat (MaxChain (meta r) - chain r).
Definition rounds_left (r : Room) : nat := Z.to_nat (Budget (meta r) - round r).
Definition order_left (r : Room) : nat := length (order r) - cursor r.
(** The steps of [n] whole rounds. *)
Definition rounds_of (r : Room) (n : nat) : nat := (3 * length (Participants (meta r)) + 8) * n.

Definition left_to (r : Room) (d : driver) : nat :=
  match d with
  | Top Relay => 3 * chain_left r + 1
  | Turn Relay _ _ _ => 3 * chain_left r
  | Save Relay _ => 3 * chain_left r + 2
  | Top Rounds => rounds_of r (pred (rounds_left r)) + 3 * order_left r + 6
  | Turn Rounds _ _ _ => rounds_of r (pred (rounds_left r)) + 3 * order_left r + 8
  | Save Rounds _ => rounds_of r (pred (rounds_left r)) + 3 * order_left r + 7
  | Judge _ _ _ _ => rounds_of r (rounds_left r) + 5
  | Judging _ _ _ _ => rounds_of r (rounds_left r) + 4
  | Announce _ _ _ _ => rounds_of r (rounds_left r) + 3
  | Decide _ _ _ => rounds_of r (rounds_left r) + 2
  end.

Definition left (s : system) : nat := sum_list_with (left_to (room s)) (drivers s) + length (pending s).

(** A decision to go on starts a round that the budget still had. *)
Lemma next_round sh c rnd b r r' :
  shuffles sh → decide_round sh c rnd b r = (r', true) → b = Budget (meta r) → (round r ≤ rnd)%Z →
  left_to r' (Top Rounds) < rounds_of r (rounds_left r) + 2.
Proof.
  intros Hsh Hd Hb Hr. apply decide_facts in Hd as (_ & Hlt & ->). cbn. unfold rounds_left, order_left, rounds_of. cbn.
  rewrite (Permutation_length (Hsh (Participants (meta r)))).
  destruct (Z.to_nat (Budget (meta r) - round r)) as [| n] eqn:En; [lia |]. cbn [pred]. rewrite Nat.mul_succ_r. lia.
Qed.

Lemma left_decreases s s' : wf s → paced s → work s s' → left s' < left s.
Proof.
  intros W P Hw. unfold left, paced in *. work_cases alone W Hw; rewrite ?E in *; cbn [sum_list_with app room drivers pending];
    rewrite ?length_app; cbn [length].
  - unfold left_to. destruct k; lia.
  - destruct Hp as [-> _]. apply top_speak in Ht as (_ & Hm & _ & _ & _ & _ & _ & Ho & Hro & _ & Hc & _ & Hk). destruct (kind_of (room s)); cbn [left_to].
    + unfold chain_left. rewrite Hm, Hc. destruct Hk as (_ & _ & _ & Hlt & _). lia.
    + unfold rounds_left, order_left. replace (rounds_of r) with (rounds_of (room s)) by (unfold rounds_of; by rewrite Hm).
      rewrite Hm, Ho, Hro. destruct Hk as (_ & Hl & ->).
      apply lookup_lt_Some in Hl. lia.
  - apply top_consolidate in Ht as (-> & _ & Hl & _ & -> & _ & _ & ->). cbn [left_to]. unfold rounds_left. cbn. change (rounds_of (set_speaking _ _)) with (rounds_of (room s)).
    replace (Z.to_nat (Budget (meta (room s)) - (round (room s) + 1))) with (pred (Z.to_nat (Budget (meta (room s)) - round (room s)))) by lia. lia.
  - destruct Hp as [-> _]. destruct (kind_of (room s)) eqn:Ek; cbn [left_to]; [| lia].
    destruct (P eq_refl) as [_ [Hlt _]]. unfold chain_left. lia.
  - destruct Hp as [-> _]. apply replied_facts in Ht as (Hm & _ & _ & _ & _ & _ & _ & Ho & Hc & Hro & _ & Hk).
    destruct (kind_of (room s)) eqn:Ek; cbn [left_to].
    + destruct (P eq_refl) as [_ [Hlt _]], Hk as [Hch _]. unfold chain_left. rewrite Hm, Hch. lia.
    + unfold rounds_left, order_left. replace (rounds_of r) with (rounds_of (room s)) by (unfold rounds_of; by rewrite Hm).
      rewrite Hm, Ho, Hro, Hc. lia.
  - destruct k; cbn [left_to]; lia.
  - cbn [left_to]. lia.
  - apply judged_facts in Ht as [-> _]. cbn [left_to]. change (rounds_of (append _ _)) with (rounds_of (room s)).
    change (rounds_left (append _ _)) with (rounds_left (room s)). lia.
  - destruct go; [| cbn; lia]. destruct Hp as (_ & _ & Hb & _ & Hr).
    unfold roundtable_judged in Ht. cbn zeta in Ht. case_decide; [done |]. case_decide; [| done].
    destruct (decide_round sh _ rnd b (set_speaking "" (room s))) as [r1 g] eqn:Ed. injection Ht as <- ->.
    pose proof (next_round _ _ _ _ _ _ Hsh Ed Hb Hr) as Hn.
    change (rounds_of (set_speaking "" (room s))) with (rounds_of (room s)) in Hn.
    change (rounds_left (set_speaking "" (room s))) with (rounds_left (room s)) in Hn. cbn [app sum_list_with left_to] in *. lia.
  - cbn [left_to]. lia.
  - destruct go; [| cbn; lia]. destruct Hp as (_ & _ & Hb & _ & Hr).
    pose proof (next_round _ _ _ _ _ _ Hsh Ht Hb Hr) as Hn. cbn [app sum_list_with left_to] in *. lia.
  - lia.
Qed.

Lemma left_steps r s s' n : unspent r → reachable r s → nsteps work n s s' → n + left s' ≤ left s.
Proof.
  intros Hr Hreach Hn. revert Hreach. induction Hn as [s | n s s1 s2 Hw _ IH]; intros Hreach; [lia |].
  destruct (reachable_paced r s Hr Hreach) as (W & P & _). pose proof (left_decreases s s1 W P Hw).
  specialize (IH ltac:(by eapply rtc_r; [| apply step_work])). lia.
Qed.

(** A goroutine can always go on. *)
Lemma can_work s : wf s → (∀ s', ¬ work s s') → drivers s = [] ∧ pending s = [].
Proof.
  intros W Hno. split.
  - pose proof (wf_run s W) as Hrun. destruct (drivers s) as [| d [| ? ?]] eqn:E; [done | | done]. exfalso.
    destruct d as [k | k sp msg sent | k t | start rnd m b | prompt m rnd b | t c rnd b | c rnd b].
    + destruct (top k (room s)) as [r h] eqn:Ht. destruct h as [| sp msg addr | start rnd m b].
      * exact (Hno _ (w_return s [] [] k r E Ht)).
      * exact (Hno _ (w_speak s [] [] k r sp msg addr E Ht)).
      * exact (Hno _ (w_consolidate s [] [] k r start rnd m b E Ht)).
    + exact (Hno _ (w_failed s [] [] k sp msg sent 0 "error" _ _ E ltac:(discriminate) eq_refl)).
    + exact (Hno _ (w_saved s [] [] k t E)).
    + exact (Hno _ (w_ask s [] [] start rnd m b E)).
    + destruct (roundtable_judged id 0 m (consolidation (inr "")).1 (consolidation (inr "")).2 rnd b (room s)) as [r [t | go]] eqn:Ej.
      * exact (Hno _ (w_announce s [] [] prompt m rnd b id 0 (inr "") r t E (λ l, reflexivity l) Ej)).
      * exact (Hno _ (w_judged s [] [] prompt m rnd b id 0 (inr "") r go E (λ l, reflexivity l) Ej)).
    + exact (Hno _ (w_announced s [] [] t c rnd b E)).
    + destruct (decide_round id c rnd b (room s)) as [r go] eqn:Ed.
      exact (Hno _ (w_decided s [] [] c rnd b id r go E (λ l, reflexivity l) Ed)).
  - destruct (pending s) as [| t l] eqn:E; [done |]. exfalso. exact (Hno _ (w_persist s [] l t E)).
Qed.

(** (C28) Every discussion ends: once nobody says anything more, a room in either
    mode comes to rest whatever the agents and the moderator answer - the number
    of steps is bounded by the chain or the rounds left, and when no step is
    possible no goroutine is left, nothing remains to be persisted and the room
    is not marked as running. *)
Theorem room_falls_silent r s :
  unspent r → reachable r s →
  (∀ n s', nsteps work n s s' → n ≤ left s) ∧
  ∀ s', rtc work s s' → (∀ s'', ¬ work s' s'') → drivers s' = [] ∧ pending s' = [] ∧ running (room s') = false.
Proof.
  intros Hr Hreach. split.
  - intros n s' Hn. pose proof (left_steps r s s' n Hr Hreach Hn). lia.
  - intros s' Hrun Hno. assert (reachable r s') as Hreach'.
    { unfold reachable in *. etrans; [exact Hreach |]. revert Hrun. apply rtc_subrel. intros x y. apply step_work. }
    destruct (reachable_paced r s' Hr Hreach') as (W & _ & _). destruct (can_work s' W Hno) as [Hd Hp].
    split_and!; [done | done |]. pose proof (wf_run s' W) as Hw. rewrite Hd in Hw. by destruct Hw.
Qed.
End laws.

#[local] Existing Instances bytewise_lower ascii_tables.

Lemma new_room_unspent mt : unspent (new_room mt).
Proof. split; [apply new_room_at_rest | done]. Qed.

Lemma relay_chain_bounded_witness : (Z.of_nat (since (game (new_room relay_meta) relay_moves)) ≤ 2)%Z.
Proof.
  exact (relay_chain_bounded (new_room relay_meta) _ (new_room_unspent relay_meta) eq_refl relay_game_reachable).
Defined.

Lemma room_falls_silent_witness :
  left (game (new_room relay_meta) relay_moves) = 4 ∧ ∀ n s', nsteps work n (game (new_room relay_meta) relay_moves) s' → n ≤ 4.
Proof.
  split; [vm_compute; reflexivity |].
  exact (proj1 (room_falls_silent _ _ (new_room_unspent relay_meta) relay_game_reachable)).
Defined.
