(* ===== verification/RoomsTalk.v ===== *)
(** * What the participants of a room are told ([internal/scheduler/rooms.go])

    The incremental relay: what every participant has heard, what the moderator
    of a round reads, and what stopping a room does. *)
From S2P Require Import Prelude GoBase GoStrings Rooms RoomsDrive RoomsLaws.
From Stdlib Require Import ZArith Lia.

Section talk.
Context `{UnicodeLower, UnicodeTables}.

(** ** Deliveries *)

Definition deliveries (p : string) (s : system) : list delivery := filter (λ d, d_to d = p) (heard s).

Definition covers (d : delivery) (i : nat) : Prop := d_from d ≤ i ≤ d_own d.

(** The turns of the transcript that a message carries. *)
Definition carries (message : string) (l : list RoomTurn) : Prop := ∃ pre post, message = pre +:+ turn_lines l +:+ post.

(** Consecutive deliveries, from a place in the transcript to another. *)
Fixpoint chained (from : nat) (l : list delivery) (seen : nat) : Prop :=
  match l with
  | [] => from = seen
  | d :: l => d_from d = from ∧ d_from d ≤ d_own d ∧ chained (S (d_own d)) l seen
  end.

Record told (tr : list RoomTurn) (po : list nat) (d : delivery) : Prop := {
  told_order : d_from d ≤ d_sent d ≤ d_own d;
  told_carries : carries (d_message d) (drop (d_from d) (take (d_sent d) tr));
  told_own : ∃ t, tr !! d_own d = Some t ∧ Speaker t = d_to d ∧ turn_Error t = "";
  told_posts : ∀ i, d_sent d ≤ i < d_own d → i ∈ po;
}.

Definition asked (r : Room) (po : list nat) (d : driver) : Prop :=
  match d with
  | Turn _ sp msg sent =>
      carries msg (drop (seen_by sp r) (take sent (transcript r))) ∧ ∀ i, sent ≤ i < length (transcript r) → i ∈ po
  | _ => True
  end.

Record hearing (s : system) : Prop := {
  h_chain p : chained 0 (deliveries p s) (seen_by p (room s));
  h_told : Forall (told (transcript (room s)) (posts s)) (heard s);
  h_asked : Forall (asked (room s) (posts s)) (drivers s);
}.

Lemma chained_snoc l from seen d :
  chained from l seen → d_from d = seen → d_from d ≤ d_own d → chained from (l ++ [d]) (S (d_own d)).
Proof. revert from. induction l as [| x l IH]; intros from; cbn; [by intros -> -> | naive_solver]. Qed.

Lemma chained_le l from seen : chained from l seen → from ≤ seen ∧ ∀ d, d ∈ l → from ≤ d_from d ∧ d_own d < seen.
Proof.
  revert from. induction l as [| x l IH]; intros from; cbn.
  - intros ->. split; [done |]. by intros d Hd%elem_of_nil.
  - intros (<- & Hle & [H1 H2]%IH). split; [lia |]. intros d [-> | Hd]%elem_of_cons; [lia |]. specialize (H2 d Hd). lia.
Qed.

Lemma chained_cover l from seen i :
  chained from l seen → from ≤ i < seen →
  ∃ l1 d l2, l = l1 ++ d :: l2 ∧ covers d i ∧ ∀ d', d' ∈ l1 ++ l2 → ¬ covers d' i.
Proof.
  revert from. induction l as [| x l IH]; intros from; cbn; [lia |]. intros (Hf & Hle & Hc) Hi.
  destruct (chained_le _ _ _ Hc) as [_ Hl]. destruct (decide (i ≤ d_own x)) as [Hx | Hx].
  - exists [], x, l. split_and!; [done | by split; lia |]. intros d' Hd'. cbn in Hd'. specialize (Hl d' Hd'). unfold covers. lia.
  - destruct (IH _ Hc ltac:(lia)) as (l1 & d & l2 & -> & Hd & Hno). exists (x :: l1), d, l2. split_and!; [done.. |].
    intros d' [-> | Hd']%elem_of_cons; [unfold covers; lia | by apply Hno].
Qed.

Lemma told_grows tr po t po' d : told tr po d → told (tr ++ [t]) (po ++ po') d.
Proof.
  intros [Ho Hc (u & Hu & Hs) Hp]. pose proof (lookup_lt_Some _ _ _ Hu). split; [done | | |].
  - rewrite take_app_le by lia. done.
  - exists u. by rewrite lookup_app_l.
  - intros i Hi. apply elem_of_app. left. by apply Hp.
Qed.

Lemma carries_delta sp r : carries (deltaLocked sp r) (drop (seen_by sp r) (transcript r)).
Proof.
  unfold deltaLocked. set (a := if decide (Topic (meta r) = "") then _ else _). set (c := if decide (Mode (meta r) = _) then _ else _).
  case_decide as Hl.
  - exists (a +:+ "自你上次发言以来的新消息：" +:+ nl), (nl +:+ c). by rewrite !string_app_assoc.
  - rewrite drop_ge by lia. exists (a +:+ c), "". cbn. by rewrite string_app_nil_r.
Qed.

(** Nothing is heard and nothing asked anew, and the transcript stays or grows
    while no agent is waited for. *)
Lemma hearing_same s s' :
  hearing s → heard s' = heard s → posts s' = posts s → lastSeen (room s') = lastSeen (room s) →
  (transcript (room s') = transcript (room s) ∨ ∃ t, transcript (room s') = transcript (room s) ++ [t]) →
  Forall (asked (room s') (posts s')) (drivers s') → hearing s'.
Proof.
  intros [Hc Ht _] Hh Hp Hl Htr Ha. split; [| | done].
  - intros p. unfold deliveries, seen_by. rewrite Hh, Hl. apply Hc.
  - rewrite Hh, Hp. destruct Htr as [-> | [t ->]]; [done |]. eapply Forall_impl; [exact Ht |].
    intros d Hd. rewrite <- (app_nil_r (posts s)). by apply told_grows.
Qed.

Ltac no_turn := cbn; repeat (apply Forall_cons_2; [exact I |]); apply Forall_nil_2.

Lemma hearing_work s s' : wf s → hearing s → work s s' → hearing s'.
Proof.
  intros W Hh Hw. pose proof Hh as [Hc Ht0 Ha]. work_cases alone W Hw.
  - apply top_return in Ht as (n & st & -> & _). apply (hearing_same s); cbn; auto; no_turn.
  - destruct Hp as [-> _]. apply top_speak in Ht as (_ & _ & Htr & _ & _ & Hl & _ & _ & _ & _ & _ & Hmsg & _).
    apply (hearing_same s); cbn; auto. constructor; [| done]. cbn. rewrite Htr. split; [| lia].
    rewrite firstn_all. unfold seen_by. rewrite Hl, Hmsg. fold (seen_by sp (room s)).
    pose proof (carries_delta sp r) as Hcd. unfold seen_by in Hcd. by rewrite Hl, Htr in Hcd.
  - apply top_consolidate in Ht as (_ & _ & _ & _ & _ & _ & _ & ->). apply (hearing_same s); cbn; auto; no_turn.
  - unfold turn_failed in Ht. injection Ht as <- <-. apply (hearing_same s); cbn; eauto; no_turn.
  - destruct Hp as (-> & _ & Hse). apply replied_facts in Ht as (_ & Htr & Hsp & Herr & _ & Hl & _).
    rewrite E in Ha. apply Forall_inv in Ha as [Hca Hpo]. split; cbn; [| | no_turn].
    + intros p. unfold deliveries, seen_by in *. rewrite filter_app, Hl. destruct (decide (sp = p)) as [-> | Hne].
      * rewrite filter_cons_True, filter_nil by done. rewrite lookup_insert_eq. cbn.
        apply (chained_snoc _ _ _ (mkDelivery _ _ _ _ _) (Hc _)); cbn; unfold seen_by; [done | lia].
      * rewrite filter_cons_False, filter_nil, app_nil_r by done. rewrite lookup_insert_ne by done. apply Hc.
    + apply Forall_app. split.
      * eapply Forall_impl; [exact Ht0 |]. intros d Hd. rewrite Htr, <- (app_nil_r (posts s)). by apply told_grows.
      * constructor; [| done]. rewrite Htr. split; cbn; [lia | by rewrite take_app_le by lia | | done].
        exists t. rewrite lookup_app_r, Nat.sub_diag by done. by split_and!.
  - apply (hearing_same s); cbn; auto; no_turn.
  - apply (hearing_same s); cbn; auto; no_turn.
  - apply judged_facts in Ht as [-> _]. apply (hearing_same s); cbn; eauto; no_turn.
  - apply judged_facts in Ht. destruct go; [destruct Ht as (_ & _ & ->) | destruct Ht as (st & -> & _)]; (apply (hearing_same s); cbn; auto; no_turn).
  - apply (hearing_same s); cbn; auto; no_turn.
  - apply decide_facts in Ht. destruct go; [destruct Ht as (_ & _ & ->) | subst r]; (apply (hearing_same s); cbn; auto; no_turn).
  - by apply (hearing_same s); auto.
Qed.

Lemma hearing_step s s' : wf s → hearing s → step s s' → hearing s'.
Proof.
  intros W Hh Hs. pose proof Hh as [Hc Ht Ha]. destruct Hs as [s s' Hw | s sh now text sp r t start _ Hsay | s | s r Hr].
  - by eapply hearing_work.
  - apply Say_said in Hsay as [_ _ Htr _ _ Hl _ _ _]. split; cbn.
    + intros p. unfold deliveries, seen_by. cbn. rewrite Hl. apply Hc.
    + eapply Forall_impl; [exact Ht |]. intros d Hd. rewrite Htr. by apply told_grows.
    + apply Forall_app. split; [| destruct start; by repeat constructor]. pose proof (wf_run s W) as Hrun.
      destruct (drivers s) as [| d [| ? ?]]; [done | | done]. destruct Hrun as [_ Hp]. constructor; [| done].
      apply Forall_inv in Ha. destruct d; try done. cbn in *. destruct Hp as (_ & _ & Hse), Ha as [Hca Hpo].
      unfold seen_by in *. rewrite Hl, Htr, take_app_le, length_app by lia. split; [done |]. cbn. intros i Hi.
      apply elem_of_app. destruct (decide (i = length (transcript (room s)))) as [-> | Hne]; [right; by apply list_elem_of_singleton |].
      left. apply Hpo. lia.
  - by apply (hearing_same s); auto.
  - unfold resume_locked in Hr. destruct (_ && _); [| done]. injection Hr as <-. apply (hearing_same s); cbn; auto.
    apply Forall_app. split; [| by repeat constructor]. exact Ha.
Qed.
Lemma reachable_hearing mt s : reachable (new_room mt) s → wf s ∧ hearing s.
Proof.
  apply (rtc_invariant step (λ s, wf s ∧ hearing s)).
  - intros x y [W Hh] Hxy. split; [by destruct (wf_step x y W Hxy) | by apply (hearing_step x)].
  - split; [| by split]. destruct (new_room_at_rest mt) as (Hok & Hr & Hs). by split.
Qed.

(** (C27) The incremental relay gives every participant the whole discussion, each
    turn once. Take any history of a new room and a turn that participant [p]
    counts as seen: exactly one of the answers of [p] accounts for it. Either the
    turn was in the message [p] answered, or it is that answer, or a request said
    it while [p] was answering - and that is the only case in which [p] is never
    told. *)
Theorem every_turn_told mt s p i :
  reachable (new_room mt) s → i < seen_by p (room s) →
  ∃ l1 d l2, deliveries p s = l1 ++ d :: l2 ∧ covers d i ∧ (∀ d', d' ∈ l1 ++ l2 → ¬ covers d' i) ∧
    ((i < d_sent d ∧ carries (d_message d) (drop (d_from d) (take (d_sent d) (transcript (room s))))) ∨
     (i = d_own d ∧ ∃ t, transcript (room s) !! i = Some t ∧ Speaker t = p ∧ turn_Error t = "") ∨
     (d_sent d ≤ i < d_own d ∧ i ∈ posts s)).
Proof.
  intros Hreach Hi. destruct (reachable_hearing mt s Hreach) as [_ [Hc Ht _]].
  destruct (chained_cover _ _ _ i (Hc p) ltac:(lia)) as (l1 & d & l2 & E & Hd & Hno). exists l1, d, l2. split_and!; [done.. |].
  assert (d ∈ deliveries p s) as [Hp Hin]%list_elem_of_filter by (rewrite E; apply elem_of_app; right; by left).
  rewrite Forall_forall in Ht. destruct (Ht d Hin) as [Ho Hca Hown Hpo]. destruct Hd as [Hd1 Hd2].
  destruct (decide (i < d_sent d)) as [| Hs]; [by left | right].
  destruct (decide (i = d_own d)) as [-> |]; [left; split; [done |]; by rewrite <- Hp | right].
  assert (d_sent d ≤ i < d_own d) as Hr by lia. split; [done | by apply Hpo].
Qed.

(** ** A round *)

Definition speakers (l : list RoomTurn) : list string := Speaker <$> l.

(** The turns of a round: at most one left over from before an operator's message,
    then those of [l]; none of them failed. *)
Definition passed (l : list string) (turns : list RoomTurn) : Prop :=
  Forall (λ t, turn_Error t = "") turns ∧ ∃ late, length late ≤ 1 ∧ speakers turns = late ++ l.

Definition passing_at (r : Room) (d : driver) : Prop :=
  let P := Participants (meta r) in let turns := drop (roundStart r) (transcript r) in
  match d with
  | Top _ | Save _ _ => order r ≡ₚ P ∧ cursor r ≤ length P ∧ passed (take (cursor r) (order r)) turns
  | Turn _ sp _ _ => order r ≡ₚ P ∧
      ((∃ c, cursor r = S c ∧ order r !! c = Some sp ∧ passed (take c (order r)) turns) ∨ (cursor r = 0 ∧ turns = []))
  | Judge start _ _ _ => ∃ o rest, o ≡ₚ P ∧ passed (o ++ rest) (drop start (transcript r))
  | _ => True
  end.

Definition passing (s : system) : Prop := kind_of (room s) = Rounds → Forall (passing_at (room s)) (drivers s).

Lemma passed_start o : passed (take 0 o) [].
Proof. split; [done |]. exists []. by split; [cbn; lia |]. Qed.

Lemma passed_snoc l turns t : passed l turns → turn_Error t = "" → passed (l ++ [Speaker t]) (turns ++ [t]).
Proof.
  intros [Hf (late & Hl & E)] Ht. split; [by apply Forall_app; split; [| constructor] |].
  exists late. split; [done |]. unfold speakers in *. by rewrite fmap_app, E, <- app_assoc.
Qed.

Lemma passed_late t : turn_Error t = "" → passed [] [t].
Proof. intros Ht. split; [by constructor |]. exists [Speaker t]. by split; [cbn; lia |]. Qed.

(** A round that starts afresh. *)
Lemma passing_fresh r d :
  match d with Top _ | Save _ _ => True | _ => False end →
  order r ≡ₚ Participants (meta r) → cursor r = 0 → roundStart r = length (transcript r) → passing_at r d.
Proof. intros Hd Ho Hc Hs. destruct d; try done; cbn; rewrite Hc, Hs, drop_all; (split_and!; [done | lia | apply passed_start]). Qed.

Lemma passing_work s s' : wf s → passing s → work s s' → passing s'.
Proof.
  intros W P Hw Hk'. assert (kind_of (room s) = Rounds) as Hk.
  { rewrite <- Hk'. symmetry. apply kind_of_meta. by apply wf_work. }
  clear Hk'. specialize (P Hk). pose proof (wf_room s W) as Hok.
  work_cases alone W Hw; rewrite ?E in P; cbn [room drivers app] in *; try (apply Forall_inv in P); try done.
  - destruct Hp as [-> _]. rewrite Hk in Ht. apply top_speak in Ht as (_ & Hm & Htr & _ & _ & _ & _ & Ho & _ & Hrs & _ & _ & _ & Hl & Hc).
    apply Forall_singleton. destruct P as (P1 & P2 & P3). cbn. rewrite Ho, Hm, Hc, Hrs, Htr. split; [done |]. left. by exists (cursor (room s)).
  - apply top_consolidate in Ht as (-> & _ & Hl & -> & _ & _ & _ & ->). apply Forall_singleton. destruct P as (P1 & P2 & P3). cbn.
    exists (order (room s)), []. split; [done |]. rewrite app_nil_r. rewrite take_ge in P3; [done |]. by apply lookup_ge_None.
  - destruct Hp as (-> & _). rewrite Hk in Ht. apply replied_facts in Ht as (Hm & Htr & Hsp & Herr & _ & _ & _ & Ho & Hc & _ & Hrs & _).
    apply Forall_singleton. destruct P as (P1 & P2). cbn. rewrite Ho, Hm, Hc, Hrs, Htr, drop_app_le by apply (ok_start _ Hok).
    destruct P2 as [(c & -> & Hl & P2) | [-> ->]].
    + split_and!; [done | rewrite <- P1; by apply lookup_lt_Some in Hl |].
      rewrite (take_S_r _ _ _ Hl), <- Hsp. by apply passed_snoc.
    + split_and!; [done | lia | by apply passed_late].
  - by apply Forall_singleton.
  - by apply Forall_singleton.
  - by apply Forall_singleton.
  - apply judged_facts in Ht. destruct go; [destruct Ht as (_ & _ & ->); apply Forall_singleton | done].
    apply passing_fresh; try done. apply Hsh.
  - by apply Forall_singleton.
  - apply decide_facts in Ht. destruct go; [destruct Ht as (_ & _ & ->); apply Forall_singleton | done].
    apply passing_fresh; try done. apply Hsh.
Qed.

Lemma passing_step s s' : wf s → passing s → step s s' → passing s'.
Proof.
  intros W P Hs. destruct Hs as [s s' Hw | s sh now text sp r t start Hsh Hsay | s | s r Hr].
  - by eapply passing_work.
  - apply Say_said in Hsay as [_ Hm Htr Herr _ _ Hr Hst Hmode]. intros Hk'. cbn in Hk' |- *.
    assert (kind_of (room s) = Rounds) as Hk by (rewrite <- Hk'; symmetry; by apply kind_of_meta).
    rewrite Hk in *. destruct Hmode as (_ & _ & Ho & Hc & _ & Hrs & _). specialize (P Hk).
    assert (order r ≡ₚ Participants (meta r)) as Hperm by (rewrite Ho, Hm; apply Hsh).
    apply Forall_app. split; [| destruct start; [| done]; apply Forall_singleton; by apply passing_fresh].
    pose proof (wf_run s W) as Hrun. destruct (drivers s) as [| d [| ? ?]]; [done | | done]. apply Forall_inv in P.
    apply Forall_singleton. destruct Hrun as [_ Hp]. destruct d; try done; try (by apply passing_fresh).
    + cbn. rewrite Hc, Hrs, drop_all. split; [done | by right].
    + cbn in *. destruct P as (o & rest & P1 & P2), Hp as (_ & _ & Hle & _). exists o, (rest ++ [Speaker t]). rewrite Hm, Htr.
      split; [done |]. rewrite drop_app_le, app_assoc by done. by apply passed_snoc.
  - intros Hk. specialize (P Hk). exact P.
  - unfold resume_locked in Hr. destruct (_ && _) eqn:E; [| done]. injection Hr as <-. bool_to_prop. intros Hk.
    by pose proof (ok_next _ (wf_room s W) Hk).
Qed.

(** A round is a full pass: whenever the moderator of a roundtable is about
    to judge, every participant has spoken exactly once since the round began, in
    the round's order and after at most one turn that an operator's question
    overtook; none of these turns failed, and the moderator is asked about all of
    them. *)
Lemma round_is_full_pass r s start rnd m b :
  at_rest r → kind_of r = Rounds → reachable r s → drivers s = [Judge start rnd m b] →
  (∃ o rest, o ≡ₚ Participants (meta r) ∧ passed (o ++ rest) (drop start (transcript (room s)))) ∧
  carries (consolidate_prompt start rnd (room s)) (drop start (transcript (room s))).
Proof.
  intros Hr Hk Hreach E. split.
  - assert (wf s ∧ passing s ∧ meta (room s) = meta r) as (W & P & Hm).
    { revert Hreach. apply (rtc_invariant step (λ s, wf s ∧ passing s ∧ meta (room s) = meta r)).
      - intros x y (W & P & Hm) Hxy. destruct (wf_step x y W Hxy) as [W' Hm']. rewrite Hm'. split_and!; [done | by apply (passing_step x) | done].
      - destruct Hr as (Hok & Hr1 & Hr2). split_and!; [by split | by intros _; constructor | done]. }
    specialize (P ltac:(by rewrite (kind_of_meta r))). rewrite E in P. apply Forall_inv in P.
    cbn in P. by rewrite Hm in P.
  - unfold consolidate_prompt. set (a := if decide (Topic (meta (room s)) = "") then _ else _). clearbody a.
    eexists (a +:+ "本轮（第 " +:+ fmt_d rnd +:+ " 轮）的发言：" +:+ nl), _. by rewrite !string_app_assoc.
Qed.

(** ** Stopping *)

(** No agent is waited for, and no decision is due. *)
Definition settled (d : driver) : Prop :=
  match d with Turn _ _ _ _ | Announce _ _ _ _ | Decide _ _ _ => False | _ => True end.

Definition silent (s0 s : system) : Prop :=
  wf s ∧ status (room s) = RoomStopped ∧ Forall settled (drivers s) ∧ transcript (room s) = transcript (room s0) ∧
  heard s = heard s0 ∧ since s = since s0.

Lemma top_stopped k r : status r = RoomStopped → top k r = (set_running false r, Return).
Proof.
  intros Hs. destruct k; cbn; unfold drive_top, roundtable_top; rewrite Hs, decide_True; [done | by left | done | done].
Qed.

Lemma judged_stopped sh now m text c rnd b r :
  status r = RoomStopped → roundtable_judged sh now m text c rnd b r = (set_running false (set_speaking "" r), inr false).
Proof. intros Hs. unfold roundtable_judged. cbn. by rewrite decide_True. Qed.

Lemma silent_step s0 s s' : silent s0 s → step s s' → silent s0 s'.
Proof.
  intros (W & Hst & Hd & Htr & Hh & Hn) Hs. split; [by destruct (wf_step s s' W Hs) |].
  destruct Hs as [s s' Hw | s sh now text sp r t start _ Hsay | s | s r Hr].
  - work_cases alone W Hw; rewrite ?E in Hd; cbn [room drivers app heard since] in *; try (apply Forall_inv in Hd; done);
      try rewrite (top_stopped k _ Hst) in Ht; try rewrite (judged_stopped _ _ _ _ _ _ _ _ Hst) in Ht; simplify_eq; by split_and!; repeat constructor.
  - apply Say_said in Hsay. by destruct Hsay.
  - by split_and!.
  - unfold resume_locked in Hr. rewrite Hst in Hr. done.
Qed.

(** Stopping a room between turns is final: when no agent is being waited
    for and no decision is due, nothing that happens afterwards - requests, the
    moderator's answer, a drive goroutine under way, a retry - begins a turn, adds
    to the transcript or changes the status. *)
Lemma stop_is_final r s s' :
  at_rest r → reachable r s → Forall settled (drivers s) → rtc step (mkSystem (Stop_locked (room s)) (drivers s) (pending s ++ [Status RoomStopped])
    (log s) (since s) (heard s) (posts s)) s' →
  status (room s') = RoomStopped ∧ transcript (room s') = transcript (room s) ∧ since s' = since s ∧ heard s' = heard s.
Proof.
  intros Hr Hreach Hd Hrun. destruct (room_reachable_wf r s Hr Hreach) as [W _]. destruct (wf_step _ _ W (step_stop s)) as [W' _].
  assert (silent s s') as (_ & ? & _ & ? & ? & ?); [| done].
  revert Hrun. apply (rtc_invariant step (silent s)); [intros x y; apply silent_step | by split_and!].
Qed.
End talk.

(** ** Examples *)

#[local] Existing Instances bytewise_lower ascii_tables.

(** The operator speaks again while Ann is answering. *)
Definition interrupted : system := game (new_room relay_meta) [SayIt "@ann hello"; Advance ""; SayIt "and milk?"; Advance "ok"].

Lemma interrupted_reachable : reachable (new_room relay_meta) interrupted.
Proof. apply game_reachable. by repeat constructor. Qed.

Lemma every_turn_told_witness :
  ∃ l1 d l2, deliveries "ann" interrupted = l1 ++ d :: l2 ∧ covers d 1 ∧ ∀ d', d' ∈ l1 ++ l2 → ¬ covers d' 1.
Proof.
  destruct (every_turn_told relay_meta interrupted "ann" 1 interrupted_reachable) as (l1 & d & l2 & E & Hc & Hno & _).
  - vm_compute. lia.
  - exists l1, d, l2. exact (conj E (conj Hc Hno)).
Defined.

(** What is said while an agent answers counts as seen by it although no message
    to it will ever contain it. *)
Lemma said_meanwhile_is_missed :
  transcript interrupted.(room) !! 1 = Some (mkTurn "operator" "and milk?" [] 0 0 "") ∧ seen_by "ann" (room interrupted) = 3 ∧
  Forall (λ d, d_sent d ≤ 1) (deliveries "ann" interrupted).
Proof. split_and!; [reflexivity | reflexivity |]. vm_compute. repeat constructor. Qed.

(** A roundtable of one, about to be judged. *)
Definition round_moves : list move_kind := [SayIt "milk first?"; Advance ""; Advance "yes"; Advance ""; Advance ""].

Lemma round_is_full_pass_witness :
  ∃ o rest, o ≡ₚ ["ann"] ∧ passed (o ++ rest) (drop 1 (transcript (room (game (new_room table_meta) round_moves)))).
Proof.
  apply (round_is_full_pass (new_room table_meta) (game (new_room table_meta) round_moves) 1 1 "max" 1
           (new_room_at_rest table_meta)); [reflexivity | | vm_compute; reflexivity].
  apply game_reachable. by repeat constructor.
Defined.

(** Stopped while nobody is being waited for. *)
Definition at_head : system := game (new_room relay_meta) [SayIt "@ann hello"].

Lemma stop_is_final_witness : transcript (room (play (Advance "") (stop at_head))) = transcript (room at_head).
Proof.
  refine (proj1 (proj2 (stop_is_final (new_room relay_meta) at_head _ (new_room_at_rest relay_meta) _ _ _))).
  - apply game_reachable. by repeat constructor.
  - by repeat constructor.
  - apply (play_runs (Advance "") (stop at_head)). discriminate.
Defined.

Definition result (r : RoomMeta) (ms : list move_kind) : string * string * list driver :=
  let s := game (new_room r) ms in (status (room s), next (room s), drivers s).

(** A stopped room whose turn in flight fails is waiting again, and accepts
    messages. *)
Lemma failed_turn_undoes_stop :
  result relay_meta [SayIt "@ann hello"; Advance ""; StopIt; FailTurn "gone"] = (RoomWaiting, "", []) ∧
  (result relay_meta [SayIt "@ann hello"; Advance ""; StopIt; FailTurn "gone"; SayIt "@bob hello"]).1 = (RoomActive, "bob").
Proof. by vm_compute. Qed.

(** So is a roundtable stopped while its consolidation is being persisted. *)
Lemma decision_undoes_stop :
  result table_meta (round_moves ++ [Advance ""; Advance "CONSENSUS"; StopIt; Advance ""; Advance ""]) = (RoomWaiting, "", []).
Proof. by vm_compute. Qed.

(** A speaker scheduled while a turn is in flight is dropped: by the failure of
    that turn it stays scheduled with nobody to drive the room, by its success
    the floor goes where the answer says. *)
Lemma floor_given_in_flight_is_lost :
  result relay_meta [SayIt "@ann hello"; Advance ""; SayIt "@bob you"; FailTurn "gone"] = (RoomWaiting, "bob", []) ∧
  (result relay_meta [SayIt "@ann hello"; Advance ""; SayIt "@bob you"; Advance "done"]).1 = (RoomWaiting, "").
Proof. by vm_compute. Qed.

(** A question put while the moderator judges a round with consensus is never
    discussed. *)
Lemma question_during_verdict_is_lost :
  let s := game (new_room table_meta) (round_moves ++ [Advance ""; SayIt "and sugar?"; Advance "CONSENSUS"; Advance ""; Advance ""]) in
  (status (room s), drivers s, cursor (room s), order (room s)) = (RoomWaiting, [], 0, ["ann"]).
Proof. by vm_compute. Qed.
