(* ===== verification/RoomStore.v ===== *)
(** * The logs of the rooms ([internal/scheduler/roomstore.go])

    One append-only file per room: a meta line, then turns and status changes,
    replayed on load. The directory is a map from file names to lines; the JSON
    codec is a parameter. *)
From S2P Require Import Prelude GoBase GoStrings Rooms RoomsDrive.
From Stdlib Require Import ZArith Lia.

Definition roomRetention : duration := (30 * 24 * Hour)%Z.

Record roomRecord := mkRecord {
  rr_Kind : string; rr_Topic : string; rr_Participants : list string; rr_Organizer : string; rr_MaxChain : Z;
  rr_Mode : string; rr_Moderator : string; rr_Budget : Z; rr_CreatedAt : option time; rr_Turn : option RoomTurn; rr_Status : string;
}.

Record file := mkFile { lines : list string; ModTime : time; IsDir : bool }.

(** The directory, or no store at all. *)
Abbreviation RoomStore := (option (gmap string file)) (only parsing).

Definition suffix : string := ".jsonl".

Definition HasSuffix (name : string) : bool := bool_decide (TrimSuffix name suffix +:+ suffix = name).

Definition path (roomID : string) : string := roomID +:+ suffix.

(** The longest line that the scanner of [loadRoomLocked] accepts. *)
Definition max_line : Z := (10 * 1024 * 1024)%Z.

Section store.
Context `{UnicodeLower}.
Context (Encode : roomRecord → option string) (Unmarshal : string → option roomRecord).

Definition appendLocked (now : time) (roomID : string) (rec : roomRecord) (dir : gmap string file) : gmap string file :=
  match Encode rec with
  | None => dir
  | Some line =>
      let old := from_option lines [] (dir !! path roomID) in
      <[path roomID := mkFile (old ++ [line]) now false]> dir
  end.

(** With a nil store every operation does nothing. *)
Definition on_store (f : gmap string file → gmap string file) (s : RoomStore) : RoomStore := f <$> s.

Definition meta_record (m : RoomMeta) : roomRecord :=
  mkRecord "meta" (Topic m) (Participants m) (Organizer m) (MaxChain m) (Mode m) (Moderator m) (Budget m) (Some (createdAt m)) None "".
Definition turn_record (t : RoomTurn) : roomRecord := mkRecord "turn" "" [] "" 0 "" "" 0 None (Some t) "".
Definition status_record (st : string) : roomRecord := mkRecord "status" "" [] "" 0 "" "" 0 None None st.

Definition WriteMeta (now : time) (m : RoomMeta) : RoomStore → RoomStore := on_store (appendLocked now (room_ID m) (meta_record m)).
Definition AppendTurn (now : time) (roomID : string) (t : RoomTurn) : RoomStore → RoomStore := on_store (appendLocked now roomID (turn_record t)).
Definition WriteStatus (now : time) (roomID st : string) : RoomStore → RoomStore := on_store (appendLocked now roomID (status_record st)).

(** One line of [loadRoomLocked]. *)
Definition load_record (roomID : string) (rec : roomRecord) (room : option Room) : option Room :=
  if decide (rr_Kind rec = "meta") then
    Some (new_room (mkMeta roomID (rr_Topic rec) (rr_Participants rec) (rr_Organizer rec) (rr_MaxChain rec)
      (if decide (rr_Mode rec = "") then RoomModeRelay else rr_Mode rec) (rr_Moderator rec) (rr_Budget rec)
      (default zero_time (rr_CreatedAt rec))))
  else if decide (rr_Kind rec = "turn") then
    match room, rr_Turn rec with Some r, Some t => Some (append t r) | _, _ => room end
  else if decide (rr_Kind rec = "status") then (λ r, set_schedule (next r) (rr_Status rec) r) <$> room
  else room.

(** The scanning loop: it stops at a line that is too long and skips one that
    is empty or cannot be decoded. *)
Fixpoint load_lines (roomID : string) (ls : list string) (room : option Room) : option Room :=
  match ls with
  | [] => room
  | line :: ls =>
      if (max_line <=? Z.of_nat (blen line))%Z then room
      else load_lines roomID ls
             (if decide (line = "") then room
              else match Unmarshal line with None => room | Some rec => load_record roomID rec room end)
  end.

Definition loadRoomLocked (roomID : string) (f : file) : option Room := recoverScheduleLocked <$> load_lines roomID (lines f) None.

Definition Load (s : RoomStore) : gmap string Room :=
  match s with
  | None => ∅
  | Some dir =>
      map_fold (λ name f rooms,
        if IsDir f || negb (HasSuffix name) then rooms
        else match loadRoomLocked (TrimSuffix name suffix) f with
             | Some r => <[TrimSuffix name suffix := r]> rooms
             | None => rooms
             end) ∅ dir
  end.

(** The files kept, and the number removed. *)
Definition expired (now : time) (name : string) (f : file) : bool :=
  negb (IsDir f) && HasSuffix name && Before (ModTime f) (Add now (- roomRetention)).

Definition CompactForRetention (now : time) (s : RoomStore) : RoomStore * nat :=
  match s with
  | None => (None, 0)
  | Some dir => (Some (filter (λ x, expired now x.1 x.2 = false) dir), size (filter (λ x, expired now x.1 x.2 = true) dir))
  end.

(** ** What is written is read back *)

Lemma HasSuffix_path id : HasSuffix (path id) = true.
Proof. unfold HasSuffix, path. rewrite TrimSuffix_app. by apply bool_decide_eq_true. Qed.

(** A change of a room after its creation, as a record of its log. *)
Definition change_record (c : change) : roomRecord := match c with Turned t => turn_record t | Status st => status_record st end.

Definition write (now : time) (id : string) (c : change) : RoomStore → RoomStore :=
  match c with Turned t => AppendTurn now id t | Status st => WriteStatus now id st end.

Definition apply_change (c : change) (r : Room) : Room :=
  match c with Turned t => append t r | Status st => set_schedule (next r) st r end.

(** Records that the codec reads back, on a line that the scanner accepts. *)
Definition readable (rec : roomRecord) : Prop :=
  ∃ line, Encode rec = Some line ∧ line ≠ "" ∧ (Z.of_nat (blen line) < max_line)%Z ∧ Unmarshal line = Some rec.

Lemma load_lines_app id l1 l2 r :
  Forall (λ line, (Z.of_nat (blen line) < max_line)%Z) l1 → load_lines id (l1 ++ l2) r = load_lines id l2 (load_lines id l1 r).
Proof.
  revert r. induction l1 as [| x l1 IH]; intros r Hl; [done |]. apply Forall_cons in Hl as [Hx Hl].
  cbn [load_lines app]. destruct ((max_line <=? Z.of_nat (blen x))%Z) eqn:E; [bool_to_prop; lia | by apply IH].
Qed.

Lemma load_change id l line c r :
  Forall (λ x, (Z.of_nat (blen x) < max_line)%Z) l → Encode (change_record c) = Some line → readable (change_record c) →
  load_lines id l None = Some r → load_lines id (l ++ [line]) None = Some (apply_change c r) ∧ (Z.of_nat (blen line) < max_line)%Z.
Proof.
  intros Hl He (line' & He' & Hne & Hlen & Hun) Hr. rewrite He in He'. injection He' as <-. split; [| done].
  rewrite load_lines_app, Hr by done. cbn [load_lines]. destruct ((max_line <=? Z.of_nat (blen line))%Z) eqn:E; [bool_to_prop; lia |].
  rewrite decide_False, Hun by done. by destruct c.
Qed.
(** The room that [Load] makes of a file, by its id. *)
Lemma Load_lookup dir id :
  Load (Some dir) !! id = (f ← dir !! path id; if IsDir f then None else loadRoomLocked id f).
Proof.
  revert id. unfold Load. apply (map_fold_weak_ind (λ rooms dir, ∀ id, rooms !! id = (f ← dir !! path id; if IsDir f then None else loadRoomLocked id f))).
  - intros id. by rewrite !lookup_empty.
  - intros name f dir' rooms Hname IH id. destruct (decide (name = path id)) as [-> | Hne].
    + rewrite lookup_insert_eq, HasSuffix_path. unfold path. rewrite TrimSuffix_app. fold (path id). cbn [mbind option_bind].
      specialize (IH id). rewrite Hname in IH. cbn in IH. destruct (IsDir f); [done |]. cbn.
      destruct (loadRoomLocked id f); [by rewrite lookup_insert_eq | done].
    + rewrite lookup_insert_ne by done. destruct (IsDir f) eqn:Ed; [apply IH |]. destruct (HasSuffix name) eqn:Es; [| apply IH]. cbn.
      destruct (loadRoomLocked _ f); [| apply IH]. rewrite lookup_insert_ne; [apply IH |]. intros <-.
      unfold HasSuffix in Es. apply bool_decide_eq_true in Es. unfold path in Hne. congruence.
Qed.

Definition written (id : string) (m : RoomMeta) (now : time) (cs : list (time * change)) (s : RoomStore) : RoomStore :=
  foldl (λ s x, write x.1 id x.2 s) (WriteMeta now m s) cs.

Lemma path_inj id id' : path id = path id' → id = id'.
Proof. unfold path. intros E. rewrite <- (TrimSuffix_app id suffix), <- (TrimSuffix_app id' suffix). by rewrite E. Qed.

(** Writing a change to a log that loads. *)
Lemma write_loads now id c dir f r :
  dir !! path id = Some f → IsDir f = false → Forall (λ x, (Z.of_nat (blen x) < max_line)%Z) (lines f) → load_lines id (lines f) None = Some r →
  readable (change_record c) →
  ∃ dir' f', write now id c (Some dir) = Some dir' ∧ dir' !! path id = Some f' ∧ IsDir f' = false ∧
    Forall (λ x, (Z.of_nat (blen x) < max_line)%Z) (lines f') ∧ load_lines id (lines f') None = Some (apply_change c r) ∧
    ∀ id', id' ≠ id → dir' !! path id' = dir !! path id'.
Proof.
  intros Hf Hd Hl Hr Hc. pose proof Hc as (line & He & _). eexists _, _. split.
  { unfold write, AppendTurn, WriteStatus, on_store. destruct c; cbn; unfold appendLocked; cbn in He; by rewrite He, Hf. }
  destruct (load_change id (lines f) line c r Hl He Hc Hr) as [H1 H2]. cbn. rewrite lookup_insert_eq. split_and!; [done | done | | done |].
  - cbn. apply Forall_app. by split; [| constructor].
  - intros id' Hne. apply lookup_insert_ne. intros E. by apply Hne, path_inj.
Qed.

(** The log of a room is read back: after its creation and any sequence of turns
    and status changes, [Load] rebuilds the room with the same metadata and the
    turns in the order in which they were written, and the other rooms as before. *)
Lemma room_log_reload id m now cs dir :
  room_ID m = id → Mode m ≠ "" → dir !! path id = None → readable (meta_record m) →
  (∀ x, x ∈ cs → readable (change_record x.2)) →
  Load (written id m now cs (Some dir)) !! id =
    Some (recoverScheduleLocked (foldl (λ r x, apply_change x.2 r) (new_room m) cs)) ∧
  ∀ id', id' ≠ id → Load (written id m now cs (Some dir)) !! id' = Load (Some dir) !! id'.
Proof.
  intros Hid Hmode Hdir Hm Hcs.
  assert (∃ dir' f, written id m now cs (Some dir) = Some dir' ∧ dir' !! path id = Some f ∧ IsDir f = false ∧
    Forall (λ x, (Z.of_nat (blen x) < max_line)%Z) (lines f) ∧
    load_lines id (lines f) None = Some (foldl (λ r x, apply_change x.2 r) (new_room m) cs) ∧
    ∀ id', id' ≠ id → dir' !! path id' = dir !! path id') as (dir' & f & E & Hf & Hd & _ & Hl & Ho).
  { unfold written. induction cs as [| x cs IH] using rev_ind.
    - destruct Hm as (line & He & Hne & Hlen & Hun). cbn. unfold WriteMeta, on_store. cbn. unfold appendLocked. rewrite He, Hid, Hdir. cbn.
      eexists _, _. split; [done |]. rewrite lookup_insert_eq. split_and!; [done | done | by constructor | |].
      + cbn [load_lines lines]. destruct ((max_line <=? Z.of_nat (blen line))%Z) eqn:El; [bool_to_prop; lia |]. rewrite decide_False, Hun by done.
        unfold load_record. rewrite decide_True by done. cbn. destruct (decide (Mode m = "")) as [| _]; [done |].
        f_equal. unfold new_room. f_equal. destruct m; cbn in *. by subst.
      + intros id' Hne'. apply lookup_insert_ne. intros E. by apply Hne', path_inj.
    - destruct IH as (dir1 & f1 & E1 & Hf1 & Hd1 & Hl1 & Hr1 & Ho1); [intros y Hy; apply Hcs, elem_of_app; by left |].
      rewrite !foldl_app. cbn [foldl]. rewrite E1.
      destruct (write_loads x.1 id x.2 dir1 f1 _ Hf1 Hd1 Hl1 Hr1) as (dir2 & f2 & E2 & Hf2 & Hd2 & Hl2 & Hr2 & Ho2).
      { apply Hcs, elem_of_app. right. by left. }
      exists dir2, f2. split_and!; try done. intros id' Hne'. by rewrite Ho2, Ho1. }
  rewrite E. split.
  - rewrite Load_lookup, Hf. cbn. rewrite Hd. unfold loadRoomLocked. by rewrite Hl.
  - intros id' Hne. by rewrite !Load_lookup, Ho.
Qed.
End store.
