(* ===== verification/RoomsRestart.v ===== *)
(** * Restarting with rooms ([internal/scheduler/rooms.go], [internal/scheduler/roomstore.go])

    A room restored from its log goes on where the live one was interrupted: the
    composition of the goroutines of [RoomsDrive] with the log of [RoomStore]. *)
From S2P Require Import Prelude GoBase GoStrings Rooms RoomsDrive RoomStore.
From Stdlib Require Import ZArith Lia.

Section restart.
Context `{UnicodeLower, UnicodeTables}.

(** ** Who has the floor *)

(** The next speaker after a turn, [""] for the operator. *)
Definition floor_of (m : RoomMeta) (t : RoomTurn) : string :=
  match Mentions t with
  | x :: _ => x
  | [] => if decide (Organizer m ≠ "operator" ∧ Organizer m ≠ Speaker t) then Organizer m else ""
  end.

Lemma schedule_floor t r : status r ≠ RoomStopped → next (scheduleNextLocked (Speaker t) (Mentions t) r) = floor_of (meta r) t.
Proof. intros Hs. unfold scheduleNextLocked, floor_of. rewrite decide_False by done. by repeat case_match. Qed.

Lemma schedule_stopped sp ms r : status r = RoomStopped → status (scheduleNextLocked sp ms r) = RoomStopped.
Proof. intros Hs. unfold scheduleNextLocked. by rewrite decide_True. Qed.

Lemma schedule_active sp ms r :
  status r ≠ RoomStopped → next (scheduleNextLocked sp ms r) ≠ "" → status (scheduleNextLocked sp ms r) = RoomActive.
Proof. intros Hs. unfold scheduleNextLocked. rewrite decide_False by done. by repeat case_match. Qed.

Definition last_good (r : Room) (P : RoomTurn → Prop) : Prop := ∃ t, last (transcript r) = Some t ∧ turn_Error t = "" ∧ P t.

(** The floor of the live room is the one that its last turn gives. *)
Definition floor_at (r : Room) (d : driver) : Prop :=
  match d with
  | Turn _ sp _ sent => last_good r (λ t, if decide (sent = length (transcript r)) then floor_of (meta r) t = sp
                                          else next r = floor_of (meta r) t)
  | _ => last_good r (λ t, next r = floor_of (meta r) t)
  end.

Definition floor (s : system) : Prop :=
  kind_of (room s) = Relay → status (room s) ≠ RoomStopped →
  match drivers s with
  | [] => status (room s) = RoomActive → next (room s) = ""
  | d :: _ => floor_at (room s) d
  end.

Lemma floor_work s s' : wf s → floor s → work s s' → floor s'.
Proof.
  intros W F Hw Hk' Hst'. assert (kind_of (room s) = Relay) as Hk.
  { rewrite <- Hk'. symmetry. apply kind_of_meta. by apply wf_work. }
  clear Hk'. specialize (F Hk). unfold floor in F. work_cases alone W Hw; rewrite ?E in F; cbn [room drivers app] in *; try by (destruct Hp; congruence).
  - apply top_return in Ht as (n & st & -> & _ & [(-> & -> & [Hs | [_ Hs]]) | (_ & -> & ->)]); cbn in *; [done | by intros _ | done].
  - destruct Hp as [-> _]. rewrite Hk in Ht.
    apply top_speak in Ht as (Hs & Hm & Htr & _ & _ & _ & _ & _ & _ & _ & _ & _ & Hn & _). destruct (F Hs) as (t & Hl & He & Hf). exists t.
    rewrite Htr, Hm, decide_True by done. by split_and!; [.. | rewrite <- Hf].
  - apply top_consolidate in Ht as (-> & _). destruct Hp as [Hp _]. congruence.
  - unfold turn_failed in Ht. injection Ht as <- <-. done.
  - destruct Hp as (-> & _). rewrite Hk in Ht. apply replied_facts in Ht as (Hm & Htr & <- & He & _ & _ & _ & _ & _ & _ & _ & _ & [= Hn Hs]).
    exists t. rewrite Htr, last_snoc, Hm, Hn. split_and!; [done | done |]. apply schedule_floor. intros Hs1. apply Hst'. rewrite Hs. by apply schedule_stopped.
  - destruct k; by apply F.
  - by apply F.
Qed.

Lemma floor_step s s' : wf s → floor s → step s s' → floor s'.
Proof.
  intros W F Hs. destruct Hs as [s s' Hw | s sh now text sp r t start _ Hsay | s | s r Hr].
  - by eapply floor_work.
  - apply Say_said in Hsay as [Hlive Hm Htr He _ _ _ _ Hmode]. intros Hk' Hst. cbn in *.
    assert (kind_of (room s) = Relay) as Hk by (rewrite <- Hk'; symmetry; by apply kind_of_meta). rewrite Hk in *.
    destruct Hmode as ([= Hn Hs] & _ & _ & _ & _ & _ & ->).
    assert (last_good r (λ t, next r = floor_of (meta r) t)) as Hfloor.
    { exists t. rewrite Htr, last_snoc, Hm, Hn. split_and!; [done | done |]. by apply schedule_floor. }
    pose proof (wf_run s W) as Hrun. destruct (drivers s) as [| d [| ? ?]]; [| | done].
    + destruct Hrun as [-> _]. destruct (bool_decide (next r = "")) eqn:En; cbn; [| done]. by bool_to_prop.
    + destruct Hrun as [-> Hp]. rewrite andb_false_r. cbn. destruct d; try done. cbn in Hp |- *. destruct Hp as (_ & _ & _ & Hle).
      destruct Hfloor as (u & Hu1 & Hu2 & Hu3). exists u. rewrite decide_False; [done |]. rewrite Htr, length_app. cbn. lia.
  - intros Hk Hst. done.
  - unfold resume_locked in Hr. destruct (_ && negb (running (room s))) eqn:E; [| done]. injection Hr as <-. bool_to_prop. intros Hk Hst.
    specialize (F Hk Hst). pose proof (wf_run s W) as Hrun. cbn. destruct (drivers s) as [| d [| ? ?]]; [| destruct Hrun; congruence | done]. by destruct H3; apply F.
Qed.

(** ** What the participants are owed *)

Lemma last_success_snoc p i l t seen :
  last_success p i (l ++ [t]) seen = if decide (turn_Error t = "" ∧ Speaker t = p) then S (i + length l) else last_success p i l seen.
Proof.
  revert i seen. induction l as [| x l IH]; intros i seen; cbn; [by rewrite Nat.add_0_r |].
  rewrite IH. by replace (S i + length l) with (i + S (length l)) by lia.
Qed.

(** Unless a request spoke in the name of [p]. *)
Definition owed (p : string) (s : system) : Prop :=
  kind_of (room s) = Relay → (∀ i t, i ∈ posts s → transcript (room s) !! i = Some t → Speaker t ≠ p) →
  last_success p 0 (transcript (room s)) 0 = seen_by p (room s).

Lemma owed_work p s s' : wf s → owed p s → work s s' → owed p s'.
Proof.
  intros W O Hw Hk' Hno. assert (kind_of (room s) = Relay) as Hk.
  { rewrite <- Hk'. symmetry. apply kind_of_meta. by apply wf_work. }
  clear Hk'. specialize (O Hk).
  assert (∀ l, transcript (room s') = transcript (room s) ++ l → posts s' = posts s → last_success p 0 (transcript (room s)) 0 = seen_by p (room s)) as O'.
  { intros l Htr Hpo. apply O. intros i t Hi Ht. apply (Hno i); [by rewrite Hpo | by rewrite Htr; apply lookup_app_l_Some]. }
  clear O. revert O'. work_cases alone W Hw; cbn [room posts] in *; intros O';
    try by (destruct Hp; congruence).
  - apply top_return in Ht as (n & st & -> & _). by apply (O' []); rewrite ?app_nil_r.
  - apply top_speak in Ht as (_ & _ & Htr & _ & _ & Hl & _). unfold seen_by. rewrite Hl, Htr. by apply (O' []); rewrite ?app_nil_r.
  - apply top_consolidate in Ht as (-> & _). destruct Hp as [Hp _]. congruence.
  - unfold turn_failed in Ht. injection Ht as <- <-. cbn in *. rewrite last_success_snoc, decide_False by naive_solver.
    change (seen_by p _) with (seen_by p (room s)). by eapply O'.
  - destruct Hp as (-> & _). rewrite Hk in Ht. apply replied_facts in Ht as (Hm & Htr & <- & He & _ & Hl & _).
    rewrite Htr, last_success_snoc. unfold seen_by. rewrite Hl. destruct (decide (Speaker t = p)) as [<- | Hne].
    + by rewrite decide_True, lookup_insert_eq by done.
    + rewrite decide_False by naive_solver. rewrite lookup_insert_ne by done. by apply (O' [t]).
  - by apply (O' []); rewrite ?app_nil_r.
  - by apply (O' []); rewrite ?app_nil_r.
Qed.

Lemma owed_step p s s' : wf s → owed p s → step s s' → owed p s'.
Proof.
  intros W O Hs. destruct Hs as [s s' Hw | s sh now text sp r t start _ Hsay | s | s r Hr].
  - by eapply owed_work.
  - apply Say_said in Hsay as [_ Hm Htr _ _ Hl _ _ _]. intros Hk Hno. cbn in *.
    rewrite Htr, last_success_snoc, decide_False.
    + unfold seen_by. rewrite Hl. apply O; [rewrite <- Hk; symmetry; by apply kind_of_meta |].
      intros i u Hi Hu. apply (Hno i); [apply elem_of_app; by left | rewrite Htr; by apply lookup_app_l_Some].
    + intros [_ Hp]. apply (Hno (length (transcript (room s))) t); [| | done].
      * apply elem_of_app. right. by left.
      * by rewrite Htr, lookup_app_r, Nat.sub_diag by done.
  - exact O.
  - unfold resume_locked in Hr. destruct (_ && _); [| done]. injection Hr as <-. exact O.
Qed.

Lemma reachable_floor mt s p : reachable (new_room mt) s → wf s ∧ floor s ∧ owed p s ∧ meta (room s) = mt.
Proof.
  apply (rtc_invariant step (λ s, wf s ∧ floor s ∧ owed p s ∧ meta (room s) = mt)).
  - intros x y (W & F & O & Hm) Hxy. destruct (wf_step x y W Hxy) as [W' Hm']. rewrite Hm'.
    split_and!; [done | by apply (floor_step x) | by apply (owed_step p x) | done].
  - destruct (new_room_at_rest mt) as (Hok & Hr & Hs). by split_and!.
Qed.

(** ** Recovery *)

Lemma recovered_seen f ps m p :
  foldl (λ m q, <[q := f q]> m) m ps !! p = if decide (p ∈ ps) then Some (f p) else (m : gmap string nat) !! p.
Proof.
  induction ps as [| q ps IH] using rev_ind; [done |]. rewrite foldl_app. cbn. destruct (decide (q = p)) as [-> | Hne].
  - rewrite lookup_insert_eq, decide_True; [done |]. apply elem_of_app. right. by left.
  - rewrite lookup_insert_ne, IH by done. repeat case_decide; try done; set_solver.
Qed.

(** What a log says: its turns, and the status its last status record gives. *)
Definition turns_of : list change → list RoomTurn := omap (λ c, match c with Turned t => Some t | Status _ => None end).

Definition has_stop (l : list change) : bool := existsb (λ c, match c with Status _ => true | Turned _ => false end) l.

Definition status_after (l : list change) : string :=
  foldl (λ st c, match c with Status x => x | Turned _ => st end) RoomWaiting l.

(** The room that a log loads. *)
Definition logged (mt : RoomMeta) (l : list change) : Room := foldl (λ r c, apply_change c r) (new_room mt) l.

Lemma logged_eq mt l : logged mt l = mkRoom mt (turns_of l) (status_after l) "" "" ∅ 0 false [] 0 0 0.
Proof.
  unfold logged, turns_of, status_after. induction l as [| c l IH] using rev_ind; [done |].
  rewrite !foldl_app, omap_app, IH. destruct c; cbn; by rewrite ?app_nil_r.
Qed.

(** Only [Stop] writes a status. *)
Definition only_stops (l : list change) : Prop := Forall (λ c, match c with Status st => st = RoomStopped | Turned _ => True end) l.

Lemma status_only_stops l : only_stops l → status_after l = if has_stop l then RoomStopped else RoomWaiting.
Proof.
  unfold only_stops, status_after, has_stop. induction l as [| c l IH] using rev_ind; [done |].
  intros [Hl Hc%Forall_inv]%Forall_app. rewrite foldl_app, existsb_app, IH by done.
  destruct c; cbn; [by rewrite orb_false_r | by rewrite orb_true_r].
Qed.

Lemma only_stops_app l1 l2 : only_stops (l1 ++ l2) ↔ only_stops l1 ∧ only_stops l2.
Proof. apply Forall_app. Qed.

Lemma only_stops_step s s' : only_stops (pending s ++ log s) → step s s' → only_stops (pending s' ++ log s').
Proof.
  rewrite !only_stops_app. intros [Hp Hl] Hs.
  assert (∀ t, only_stops [Turned t]) as Ht by (intros t; by repeat constructor).
  destruct Hs as [s s' Hw | s sh now text sp r t start _ _ | s | s r _]; cbn; rewrite ?only_stops_app.
  - destruct Hw; cbn; rewrite ?only_stops_app; try by split_and!.
    match goal with E : pending s = _ |- _ => rewrite E in Hp end.
    apply only_stops_app in Hp as [Hp1 Hp2]. apply Forall_cons in Hp2 as [Hp2 Hp3]. split_and!; try done. by repeat constructor.
  - by split_and!.
  - split_and!; [done | by repeat constructor | done].
  - by split.
Qed.

Lemma reachable_only_stops r s : reachable r s → only_stops (log s).
Proof.
  intros Hreach. cut (only_stops (pending s ++ log s)); [by intros [_ ?]%only_stops_app |].
  revert Hreach. apply (rtc_invariant step (λ s, only_stops (pending s ++ log s))); [apply only_stops_step | constructor].
Qed.

Definition recovered_map (r : Room) : gmap string nat :=
  foldl (λ m p, <[p := last_success p 0 (transcript r) 0]> m) (lastSeen r) (Participants (meta r)).

Lemma recover_good r t :
  Mode (meta r) ≠ RoomModeRoundtable → status r ≠ RoomStopped → last (transcript r) = Some t → turn_Error t = "" →
  recoverScheduleLocked r = scheduleNextLocked (Speaker t) (Mentions t)
    (set_schedule (next r) RoomWaiting (set_chain 0 (set_running false (set_speaking "" (set_seen (recovered_map r) r))))).
Proof.
  intros Hm Hs Hl He. unfold recoverScheduleLocked. cbn [Mode meta set_chain set_running set_speaking set_seen status transcript].
  by rewrite decide_False, Hl, decide_False, decide_True by done.
Qed.

Lemma recover_logged mt l t :
  Mode mt = RoomModeRelay → status_after l = RoomWaiting → last (turns_of l) = Some t → turn_Error t = "" →
  let r := recoverScheduleLocked (logged mt l) in
  meta r = mt ∧ transcript r = turns_of l ∧ next r = floor_of mt t ∧ (next r ≠ "" → snd (resume_locked r) = true) ∧
  ∀ p, p ∈ Participants mt → seen_by p r = last_success p 0 (turns_of l) 0.
Proof.
  intros Hmode Hw Hl He. cbn zeta. rewrite logged_eq, Hw. rewrite (recover_good _ t); cbn; try done; [| by rewrite Hmode].
  set (r1 := set_schedule _ _ _). assert (status r1 ≠ RoomStopped) as Hs by done.
  destruct (schedule_shape (Speaker t) (Mentions t) r1) as (n & st & E).
  pose proof (schedule_floor t r1 Hs) as Hf. pose proof (schedule_active (Speaker t) (Mentions t) r1 Hs) as Ha. rewrite E in *.
  cbn in Hf, Ha |- *. split_and!; [done | done | done | |].
  - intros Hn. unfold resume_locked. cbn. rewrite (Ha Hn). by rewrite (bool_decide_false _ Hn).
  - intros p Hp. unfold seen_by. cbn. unfold recovered_map. cbn. by rewrite (recovered_seen (λ q, last_success q 0 (turns_of l) 0)), decide_True.
Qed.
(** A log with a stop in it loads as a stopped room, which is not driven. *)
Lemma recover_stopped mt l :
  Mode mt = RoomModeRelay → status_after l = RoomStopped →
  let r := recoverScheduleLocked (logged mt l) in
  meta r = mt ∧ transcript r = turns_of l ∧ status r = RoomStopped ∧ next r = "" ∧ snd (resume_locked r) = false.
Proof.
  intros Hmode Hs. cbn zeta. rewrite logged_eq, Hs. unfold recoverScheduleLocked.
  cbn [Mode meta set_chain set_running set_speaking set_seen status transcript].
  rewrite decide_False by (by rewrite Hmode). destruct (last (turns_of l)); by rewrite ?decide_True by done.
Qed.

(** ** The whole *)

Context (Encode : roomRecord → option string) (Unmarshal : string → option roomRecord).

(** Who has the floor while a goroutine is at [d]. *)
Definition floor_holder (d : driver) (r : Room) : string :=
  match d with
  | Turn _ sp _ sent => if decide (sent = length (transcript r)) then sp else next r
  | _ => next r
  end.

(** (C29) A restart interrupts no discussion. Take a relay room, not stopped, that is
    being driven when the process dies, with all its turns in the log, in order,
    each record on a line that the codec reads back and shorter than 10 MiB. The
    room that [Load] rebuilds from that log has the same participants and
    transcript. If the log holds no stop, its next speaker is the one being waited
    for - unless an operator's message overtook that turn and gave the floor away -
    or else the one scheduled; it is ready to be resumed; and each participant is
    owed exactly the turns it was owed before, unless a request spoke in its name.
    If the log holds a stop - undone in the live room by a turn that failed after
    it, as in lemma [undone_stop_returns] - the room comes back stopped and is not
    driven again. *)
Theorem restart_resumes_room mt now stamps dir s d :
  Mode mt = RoomModeRelay → reachable (new_room mt) s → drivers s = [d] → status (room s) ≠ RoomStopped →
  turns_of (log s) = transcript (room s) → length stamps = length (log s) →
  dir !! path (room_ID mt) = None → readable Encode Unmarshal (meta_record mt) →
  (∀ c, c ∈ log s → readable Encode Unmarshal (change_record c)) →
  ∃ r, Load Unmarshal (written Encode (room_ID mt) mt now (zip stamps (log s)) (Some dir)) !! room_ID mt = Some r ∧
    meta r = mt ∧ transcript r = transcript (room s) ∧
    if has_stop (log s) then status r = RoomStopped ∧ next r = "" ∧ snd (resume_locked r) = false
    else next r = floor_holder d (room s) ∧ (next r ≠ "" → snd (resume_locked r) = true) ∧
      ∀ p, p ∈ Participants mt → (∀ i t, i ∈ posts s → transcript (room s) !! i = Some t → Speaker t ≠ p) →
        seen_by p r = seen_by p (room s).
Proof.
  intros Hmode Hreach Hd Hst Hlog Hlen Hdir Hrm Hrt. exists (recoverScheduleLocked (logged mt (log s))).
  destruct (room_log_reload Encode Unmarshal (room_ID mt) mt now (zip stamps (log s)) dir) as [-> _]; [done | by rewrite Hmode | done | done | |].
  { intros [now' c] Hin. apply elem_of_zip_r in Hin. by apply Hrt. }
  assert (Some (recoverScheduleLocked (foldl (λ r x, apply_change x.2 r) (new_room mt) (zip stamps (log s)))) =
          Some (recoverScheduleLocked (logged mt (log s)))) as ->.
  { f_equal. f_equal. unfold logged. clear -Hlen. revert stamps Hlen. generalize (new_room mt) as r.
    induction (log s) as [| u l IH]; intros r [| x stamps] Hlen; try done. cbn. apply IH. by injection Hlen. }
  split; [done |]. pose proof (status_only_stops _ (reachable_only_stops _ _ Hreach)) as Hstat.
  destruct (has_stop (log s)).
  { destruct (recover_stopped mt (log s) Hmode Hstat) as (H1 & H2 & H3 & H4 & H5). split_and!; [done | by rewrite H2 | done..]. }
  destruct (reachable_floor mt s "" Hreach) as (W & F & _ & Hm).
  assert (kind_of (room s) = Relay) as Hk by (unfold kind_of; by rewrite Hm, Hmode).
  specialize (F Hk Hst). rewrite Hd in F.
  assert (∃ t, last (turns_of (log s)) = Some t ∧ turn_Error t = "") as (t & Hl & He).
  { rewrite Hlog. destruct d; destruct F as (u & ? & ? & _); by exists u. }
  destruct (recover_logged mt (log s) t Hmode Hstat Hl He) as (H1 & H2 & H3 & H4 & H5). split_and!; [done | by rewrite H2 | | done |].
  - rewrite H3. assert (∀ u, last (transcript (room s)) = Some u → u = t) as Hu by (intros u Hu; rewrite <- Hlog in Hu; congruence).
    destruct d; destruct F as (u & Hu' & _ & Hf); rewrite (Hu u Hu') in Hf; rewrite Hm in Hf; try done. cbn. by destruct (decide _).
  - intros p Hp Hno. rewrite H5 by done. rewrite Hlog. destruct (reachable_floor mt s p Hreach) as (_ & _ & O & _). by apply O.
Qed.
End restart.

(** ** Ann is being waited for when the process dies *)

#[local] Existing Instances bytewise_lower ascii_tables.

Definition asked_ann : system := game (new_room relay_meta) [SayIt "@ann hello"; Advance ""; Persist].
Definition said_turn : RoomTurn := mkTurn "operator" "@ann hello" ["ann"] 0 0 "".

Definition sample_encode (rec : roomRecord) : option string :=
  if decide (rr_Kind rec = "meta") then Some "m" else Some "t".
Definition sample_decode (line : string) : option roomRecord :=
  if decide (line = "m") then Some (meta_record relay_meta) else Some (turn_record said_turn).

Lemma restart_resumes_room_witness :
  next <$> (Load sample_decode (written sample_encode "r1" relay_meta 0 [(5%Z, Turned said_turn)] (Some ∅)) !! "r1") = Some "ann".
Proof.
  destruct (restart_resumes_room sample_encode sample_decode relay_meta 0 [5%Z] ∅ asked_ann
    (Turn Relay "ann" (deltaLocked "ann" (room asked_ann)) 1)) as (r & Hl & _ & _ & Hn).
  - reflexivity.
  - apply game_reachable. by repeat constructor.
  - vm_compute. reflexivity.
  - vm_compute. discriminate.
  - vm_compute. reflexivity.
  - vm_compute. reflexivity.
  - reflexivity.
  - exists "m". split_and!; [reflexivity | discriminate | vm_compute; reflexivity | reflexivity].
  - intros t Ht. replace (log asked_ann) with [Turned said_turn] in Ht by (vm_compute; reflexivity).
    apply list_elem_of_singleton in Ht as ->. exists "t". split_and!; [reflexivity | discriminate | vm_compute; reflexivity | reflexivity].
  - replace (log asked_ann) with [Turned said_turn] in Hl, Hn by (vm_compute; reflexivity).
    change (zip [5%Z] [Turned said_turn]) with [(5%Z, Turned said_turn)] in Hl. change (room_ID relay_meta) with "r1" in Hl. rewrite Hl. cbn [fmap option_fmap option_map].
    destruct Hn as [Hn _]. rewrite Hn. vm_compute. reflexivity.
Defined.

(** A stop that a failing turn undoes: the operator asks again and Bob is being
    waited for, but the log still holds the stop, and a restart ends the
    discussion. *)
Definition undone : system :=
  game (new_room relay_meta)
    [SayIt "@ann hello"; Advance ""; StopIt; FailTurn "gone"; SayIt "@bob hello"; Advance ""; Persist; Persist; Persist; Persist].

Lemma undone_stop_returns :
  (status (room undone), speaking (room undone), length (drivers undone)) = (RoomActive, "bob", 1) ∧
  turns_of (log undone) = transcript (room undone) ∧
  status (recoverScheduleLocked (logged relay_meta (log undone))) = RoomStopped.
Proof. by vm_compute. Qed.
