(* ===== verification/RoomsMentions.v ===== *)
(** * Mentions, participants and listings ([internal/scheduler/rooms.go])

    The parser of mentions against a reference definition, the validation of a
    room's participants, and the order of a listing. *)
From S2P Require Import Prelude GoBase GoStrings Rooms RoomsDrive.
From Stdlib Require Import ZArith Lia Ascii.

(** ** Reading a mention *)

(** The first occurrence of each element. *)
Fixpoint nub {A} `{EqDecision A} (l : list A) : list A :=
  match l with
  | [] => []
  | x :: l => x :: filter (λ y, y ≠ x) (nub l)
  end.

Lemma elem_of_nub {A} `{EqDecision A} (l : list A) x : x ∈ nub l ↔ x ∈ l.
Proof.
  induction l as [| y l IH]; [done |]. cbn [nub]. rewrite !elem_of_cons, list_elem_of_filter, IH.
  destruct (decide (x = y)); naive_solver.
Qed.

Definition no_quote (s : string) : bool := all_bytes (λ c, negb (is_byte 96 c)) s.

(** The first byte, if any, does not belong to a name. *)
Definition name_ends (s : string) : bool := match s with EmptyString => true | String c _ => negb (name_byte c) end.

Definition is_name (s : string) : bool := match s with EmptyString => false | String c s => alnum c && all_bytes name_byte s end.

Lemma strip_code_none s : no_quote s = true → strip_code 0 s = s.
Proof.
  induction s as [| c s IH]; [done |]. cbn. intros [Hc Hs]%andb_prop.
  assert (code_span (String c s) = None) as ->; [| by rewrite IH].
  unfold code_span. destruct c as [[] [] [] [] [] [] [] []]; try reflexivity. done.
Qed.

Lemma names_at st pre s : ∃ out, mention_names st (pre +:+ String "@" s) = out ++ mention_names After s.
Proof.
  revert st. induction pre as [| c pre IH]; intros st.
  - change ("" +:+ String "@" s) with (String "@" s). destruct st as [| | n]; cbn; [by exists [] | by exists [] | by exists [String.rev n]].
  - rewrite string_app_cons. cbn. destruct (scan_byte c st) as [st' out]. destruct (IH st') as [out' ->].
    exists (out ++ out'). by rewrite app_assoc.
Qed.

Lemma names_inside acc s post :
  all_bytes name_byte s = true → name_ends post = true →
  ∃ out, mention_names (Inside acc) (s +:+ post) = String.rev (String.rev_app s acc) :: out.
Proof.
  revert acc. induction s as [| c s IH]; intros acc.
  - intros _ Hp. change ("" +:+ post) with post. destruct post as [| c post]; [by exists [] |]. cbn in *.
    apply negb_true_iff in Hp. rewrite Hp. by eexists.
  - cbn [all_bytes]. intros [Hc Hs]%andb_prop Hp. rewrite string_app_cons. cbn. rewrite Hc. by apply (IH (String c acc)).
Qed.

Lemma rev_rev_app s acc : String.rev (String.rev_app s acc) = String.rev acc +:+ s.
Proof.
  assert (∀ a c, String.rev_app a c = String.rev a +:+ c) as Hr.
  { unfold String.rev. assert (∀ a c d, String.rev_app a c +:+ d = String.rev_app a (c +:+ d)) as H.
    { induction a as [| x a IH]; intros c d; [done |]. cbn. by rewrite IH. }
    intros a c. by rewrite H. }
  revert acc. induction s as [| c s IH]; intros acc; [by rewrite string_app_nil_r |]. cbn [String.rev_app].
  rewrite IH. unfold String.rev at 1. cbn [String.rev_app]. by rewrite (Hr acc (String c "")), string_app_assoc.
Qed.

(** A mention is found wherever it stands, unless it is quoted. *)
Lemma mention_found pre n post :
  no_quote pre = true → is_name n = true → name_ends post = true → no_quote post = true →
  n ∈ mention_names Outside (strip_code 0 (pre +:+ "@" +:+ n +:+ post)).
Proof.
  intros Hpre Hn Hend Hpost. destruct n as [| c n]; [done |]. cbn in Hn. apply andb_prop in Hn as [Hc Hn].
  assert (∀ c, name_byte c = true → is_byte 96 c = false) as Hq by (intros x; destruct x as [[] [] [] [] [] [] [] []]; vm_compute; congruence).
  assert (name_byte c = true) as Hc' by (unfold name_byte; by rewrite Hc).
  rewrite strip_code_none.
  - destruct (names_at Outside pre (String c n +:+ post)) as [out E]. change ("@" +:+ String c n +:+ post) with (String "@" (String c n +:+ post)).
    rewrite E. apply elem_of_app. right. rewrite string_app_cons. cbn. rewrite Hc. cbn.
    destruct (names_inside (String c "") n post Hn Hend) as [out' ->]. rewrite rev_rev_app. left.
  - assert (no_quote n = true) as Hn'.
    { revert Hn. clear -Hq. unfold no_quote. induction n as [| x n IH]; [done |]. cbn. intros [Hx Hn]%andb_prop. by rewrite (Hq x Hx), (IH Hn). }
    unfold no_quote in *. rewrite !all_bytes_app, Hpre, Hpost. cbn. by rewrite (Hq c Hc'), Hn'.
Qed.

Section mentions.
Context `{UnicodeLower, UnicodeTables}.

(** The participant that a name stands for. *)
Definition resolve (ps : list string) (name : string) : option string := head (filter (λ p, ToLower p = ToLower name) ps).

Lemma resolve_cons p ps n : resolve (p :: ps) n = if decide (ToLower p = ToLower n) then Some p else resolve ps n.
Proof. unfold resolve. rewrite filter_cons. by case_decide. Qed.

Lemma resolve_Some ps n p : resolve ps n = Some p → p ∈ ps ∧ ToLower p = ToLower n.
Proof.
  unfold resolve. intros Hh. assert (p ∈ filter (λ p, ToLower p = ToLower n) ps) as Hp; [| by apply list_elem_of_filter in Hp as [? ?]].
  destruct (filter _ ps); [done |]. injection Hh as <-. by left.
Qed.

Lemma canon_resolve ps n : NoDup (ToLower <$> ps) → canon ps !! ToLower n = resolve ps n.
Proof.
  intros Hnd. unfold canon.
  assert (∀ m, foldl (λ m p, <[ToLower p := p]> m) m ps !! ToLower n = match resolve ps n with Some p => Some p | None => (m : gmap string string) !! ToLower n end) as Hgen.
  { induction ps as [| p ps IH]; intros m; [done |]. cbn in Hnd. apply NoDup_cons in Hnd as [Hni Hnd]. cbn [foldl].
    rewrite (IH Hnd), resolve_cons. destruct (decide (ToLower p = ToLower n)) as [E | Hne].
    - destruct (resolve ps n) as [q |] eqn:Hq; [| by rewrite E, lookup_insert_eq].
      apply resolve_Some in Hq as [Hq Eq]. destruct Hni. rewrite E, <- Eq. by apply list_elem_of_fmap_2.
    - by rewrite lookup_insert_ne. }
  rewrite Hgen. by destruct (resolve ps n).
Qed.

Lemma lower_inj ps p q : NoDup (ToLower <$> ps) → p ∈ ps → q ∈ ps → ToLower p = ToLower q → p = q.
Proof.
  induction ps as [| x ps IH]; [by intros _ ?%elem_of_nil |]. cbn. intros [Hni Hnd]%NoDup_cons Hp Hq E.
  apply elem_of_cons in Hp as [-> | Hp], Hq as [-> | Hq]; [done | | | by apply IH].
  - destruct Hni. rewrite E. by apply list_elem_of_fmap_2.
  - destruct Hni. rewrite <- E. by apply list_elem_of_fmap_2.
Qed.

Lemma select_reference ps self seen names :
  NoDup (ToLower <$> ps) →
  select (canon ps) self seen names = filter (λ p, p ≠ self ∧ ToLower p ∉ seen) (nub (omap (resolve ps) names)).
Proof.
  intros Hnd. revert seen. induction names as [| n names IH]; intros seen; [done |].
  cbn [select].
  change (omap (resolve ps) (n :: names)) with (match resolve ps n with Some p => p :: omap (resolve ps) names | None => omap (resolve ps) names end).
  rewrite canon_resolve by done. destruct (resolve ps n) as [p |] eqn:Hp; [| by rewrite IH].
  destruct (resolve_Some _ _ _ Hp) as [Hin E]. rewrite <- E. cbn [nub]. rewrite filter_cons.
  destruct (bool_decide (p = self) || bool_decide (ToLower p ∈ seen)) eqn:Eb.
  - rewrite decide_False by (apply orb_prop in Eb as [?%bool_decide_eq_true | ?%bool_decide_eq_true]; naive_solver).
    rewrite IH, list_filter_filter. apply list_filter_ext. intros x _. split; [| naive_solver]. intros [Hx Hx']. split_and!; try done.
    intros ->. apply orb_prop in Eb as [?%bool_decide_eq_true | ?%bool_decide_eq_true]; naive_solver.
  - bool_to_prop. rewrite decide_True by done. f_equal. rewrite IH, list_filter_filter. apply list_filter_ext. intros x Hx.
    apply elem_of_nub, list_elem_of_omap in Hx as (n' & _ & Hn'). apply resolve_Some in Hn' as [Hx _].
    assert (ToLower x = ToLower p ↔ x = p) as Hinj by (split; [by apply (lower_inj ps) | by intros ->]). set_solver.
Qed.

(** Mention parsing agrees with its reference: among participants whose
    names differ in more than case, [parseMentions] answers the participants
    named after an at sign outside code, in any case, each once, in the order of
    their first mention and without the speaker; and a participant's name after
    an at sign is always found when it is not in code and not part of a longer
    name. *)
Lemma mentions_reference text ps self :
  NoDup (ToLower <$> ps) →
  parseMentions text ps self =
    filter (λ p, p ≠ self) (nub (omap (resolve ps) (mention_names Outside (strip_code 0 text)))) ∧
  ∀ p pre n post, text = pre +:+ "@" +:+ n +:+ post → p ∈ ps → p ≠ self → ToLower n = ToLower p →
    no_quote pre = true → is_name n = true → name_ends post = true → no_quote post = true →
    p ∈ parseMentions text ps self.
Proof.
  intros Hnd. assert (∀ text, parseMentions text ps self =
    filter (λ p, p ≠ self) (nub (omap (resolve ps) (mention_names Outside (strip_code 0 text))))) as Hspec.
  { intros u. unfold parseMentions. rewrite select_reference by done. apply list_filter_ext. intros x _. set_solver. }
  split; [apply Hspec |]. intros p pre n post -> Hp Hself E H1 H2 H3 H4. rewrite Hspec.
  apply list_elem_of_filter. split; [done |]. apply elem_of_nub, list_elem_of_omap. exists n. split; [by apply mention_found |].
  destruct (resolve ps n) as [q |] eqn:Hq.
  - apply resolve_Some in Hq as [Hq Eq]. f_equal. apply (lower_inj ps); try done. congruence.
  - unfold resolve in Hq. assert (p ∈ filter (λ p, ToLower p = ToLower n) ps) as Hin by (by apply list_elem_of_filter).
    destruct (filter _ ps); [by apply elem_of_nil in Hin | done].
Qed.

(** ** Participants *)

Lemma canon_loop_spec m seen ps acc l :
  canon_loop m seen ps acc = inl l → (∀ p, p ∈ acc → ToLower p ∈ seen ∧ p ≠ "" ∧ registered m p = true) → NoDup (ToLower <$> acc) →
  NoDup (ToLower <$> l) ∧ ∀ p, p ∈ l → p ≠ "" ∧ registered m p = true.
Proof.
  revert seen acc. induction ps as [| p ps IH]; intros seen acc; cbn [canon_loop].
  - intros [= <-] Ha Hnd. split; [done |]. intros p Hp. by destruct (Ha p Hp) as (_ & ? & ?).
  - cbn zeta. destruct (decide (TrimSpace p = "")); [apply IH |]. destruct (registered m (TrimSpace p)) eqn:Er; [| done]. cbn [negb].
    destruct (bool_decide _) eqn:Es; [apply IH |]. bool_to_prop. intros Hl Ha Hnd. apply (IH _ _ Hl).
    + intros q [Hq | ->%list_elem_of_singleton]%elem_of_app; [destruct (Ha q Hq) as (? & ? & ?); set_solver | set_solver].
    + rewrite fmap_app. apply NoDup_app. split_and!; [done | | by apply NoDup_singleton].
      intros x (q & -> & Hq)%list_elem_of_fmap. intros Hx. apply list_elem_of_singleton in Hx. destruct (Ha q Hq) as (Hs & _). by rewrite Hx in Hs.
Qed.

(** What both constructors of rooms require of their participants: at least one,
    registered, and no two that differ in case only. *)
Lemma canonParticipants_spec m ps l :
  canonParticipants m ps = inl l → l ≠ [] ∧ NoDup (ToLower <$> l) ∧ ∀ p, p ∈ l → p ≠ "" ∧ registered m p = true.
Proof.
  unfold canonParticipants. destruct (canon_loop m ∅ ps []) as [[| p l'] |] eqn:E; [done | | done]. intros [= <-].
  split; [done |]. apply (canon_loop_spec _ _ _ _ _ E); [by intros q ?%elem_of_nil | apply NoDup_nil_2].
Qed.

(** ** Listings *)

Abbreviation created v := (createdAt (v_meta v)) (only parsing).
Definition newer (v w : RoomView) : Prop := (created w ≤ created v)%Z.

Lemma newest_pass_spec x l : 
  let '(v, l') := newest_pass x l in v :: l' ≡ₚ x :: l ∧ ∀ w, w ∈ l' → newer v w.
Proof.
  revert x. induction l as [| y l IH]; intros x; cbn; [split; [done |]; by intros w ?%elem_of_nil |]. unfold Before.
  destruct (created x <? created y)%Z eqn:E.
  - specialize (IH y). destruct (newest_pass y l) as [v l']. destruct IH as [Hp Hn]. bool_to_prop. split; [etrans; [apply perm_swap | by rewrite Hp] |].
    intros w [-> | Hw]%elem_of_cons; [| by apply Hn]. assert (y ∈ v :: l') as [<- | Hy]%elem_of_cons by (rewrite Hp; by left).
    + unfold newer. lia.
    + specialize (Hn y Hy). unfold newer in *. lia.
  - specialize (IH x). destruct (newest_pass x l) as [v l']. destruct IH as [Hp Hn]. bool_to_prop. split; [etrans; [apply perm_swap | rewrite Hp; apply perm_swap] |].
    intros w [-> | Hw]%elem_of_cons; [| by apply Hn]. assert (x ∈ v :: l') as [<- | Hx]%elem_of_cons by (rewrite Hp; by left).
    + unfold newer. lia.
    + specialize (Hn x Hx). unfold newer in *. lia.
Qed.

(** A listing has every room once, newest first. *)
Lemma newest_first_spec n l : length l ≤ n → newest_first n l ≡ₚ l ∧ StronglySorted newer (newest_first n l).
Proof.
  revert l. induction n as [| n IH]; intros [| x l] Hl; cbn in Hl; try lia; [split; [done | constructor] .. |]. cbn.
  pose proof (newest_pass_spec x l) as Hs. destruct (newest_pass x l) as [v l'] eqn:E. destruct Hs as [Hp Hn].
  destruct (IH l') as [Hp' Hs']; [apply Permutation_length in Hp; cbn in Hp; lia |]. split; [by rewrite Hp', Hp |].
  constructor; [done |]. apply Forall_forall. intros w. rewrite Hp'. apply Hn.
Qed.
End mentions.

#[local] Existing Instances bytewise_lower ascii_tables.

Lemma mentions_reference_witness :
  parseMentions ("`@ann` ask @BOB, " +:+ "@" +:+ "Ann" +:+ ", or @bob") ["ann"; "bob"] "" = ["bob"; "ann"] ∧
  "ann" ∈ parseMentions ("ask @BOB, " +:+ "@" +:+ "Ann" +:+ ", or @bob") ["ann"; "bob"] "".
Proof.
  assert (NoDup (ToLower <$> ["ann"; "bob"])) as Hnd by (vm_compute; repeat constructor; set_solver).
  split.
  - rewrite (proj1 (mentions_reference _ _ _ Hnd)). vm_compute. reflexivity.
  - refine (proj2 (mentions_reference _ _ "" Hnd) "ann" "ask @BOB, " "Ann" ", or @bob" eq_refl _ _ _ _ _ _ _); try reflexivity; try discriminate.
    by left.
Defined.
