(* ===== verification/Supervisor.v ===== *)
(** * Supervision of the agent processes ([internal/scheduler/scheduler.go])

    What the scheduler does under its mutex: spawning, stopping, waking and
    restarting agents, allocating their ports, and keeping the desired set, the
    running set and the idle set. Processes are on a heap, since their monitor and
    health watcher hold them by reference. The operating system, the file system
    and the clock answer through arguments; [SupervisorDrive] lets the goroutines
    interleave. *)
From S2P Require Import Prelude GoBase GoStrings Registry InstancePool AgentLifecycle.
From Stdlib Require Import ZArith Lia.

(** ** Data *)

Record AgentConfig := mkConfig {
  ac_Name : string; Workspace : string; Workdir : string; Port : Z; Instances : Z; Remote : string;
  InternalToken : string; AdminToken : string;
}.

Definition InstanceCap (c : AgentConfig) : Z := if (Instances c <? 1)%Z then 1%Z else Instances c.

Definition set_port (p : Z) (c : AgentConfig) : AgentConfig :=
  mkConfig (ac_Name c) (Workspace c) (Workdir c) p (Instances c) (Remote c) (InternalToken c) (AdminToken c).
Definition set_tokens (internal admin : string) (c : AgentConfig) : AgentConfig :=
  mkConfig (ac_Name c) (Workspace c) (Workdir c) (Port c) (Instances c) (Remote c) internal admin.

Record PortRange := mkRange { Start : Z; End_ : Z }.

(** [PortRange.validate]. *)
Definition valid_range (p : PortRange) : bool := ((0 <? Start p) && (End_ p <=? 65535) && (Start p <=? End_ p))%Z.

Record supervisorConfig := mkSupervisor {
  Enabled : bool; InitialBackoff : duration; MaxBackoff : duration; HealthCheckEnabled : bool; HealthStartupGrace : duration;
  HealthInterval : duration; HealthTimeout : duration; HealthFailureThreshold : Z;
}.

Definition defaultSupervisorConfig : supervisorConfig :=
  mkSupervisor true Second (30 * Second)%Z true (5 * Second)%Z (5 * Second)%Z (2 * Second)%Z 3.

Record agentProcess := mkProcess {
  p_cfg : AgentConfig; stopping : bool; restartAttempts : Z; internalToken : string;
  failureState : option AgentLifecycleState; failureReason : string; killed : bool;
}.

(** The fields of [Scheduler] guarded by [s.mu]; [procs] is the heap of processes.
    [ctxDone] is [s.ctx == nil || s.ctx.Err() != nil]. *)
Record Sched := mkSched {
  static : list AgentConfig;
  port_range : PortRange;
  nextPort : Z;
  procs : gmap Z agentProcess;
  nextProc : Z;
  agents : gmap string Z;
  desired : gmap string AgentConfig;
  idleStopped : gmap string AgentConfig;
  lifecycle : gmap string AgentLifecycleSnapshot;
  pools : gmap string nat;
  running : bool;
  ctxDone : bool;
  adminTok : string;
  supervisor : supervisorConfig;
  pool_objects : list InstancePool.instancePool;
}.

Definition with_agents (m : gmap string Z) (s : Sched) : Sched :=
  mkSched (static s) (port_range s) (nextPort s) (procs s) (nextProc s) m (desired s) (idleStopped s) (lifecycle s) (pools s) (running s) (ctxDone s) (adminTok s) (supervisor s) (pool_objects s).
Definition with_desired (m : gmap string AgentConfig) (s : Sched) : Sched :=
  mkSched (static s) (port_range s) (nextPort s) (procs s) (nextProc s) (agents s) m (idleStopped s) (lifecycle s) (pools s) (running s) (ctxDone s) (adminTok s) (supervisor s) (pool_objects s).
Definition with_idle (m : gmap string AgentConfig) (s : Sched) : Sched :=
  mkSched (static s) (port_range s) (nextPort s) (procs s) (nextProc s) (agents s) (desired s) m (lifecycle s) (pools s) (running s) (ctxDone s) (adminTok s) (supervisor s) (pool_objects s).
Definition with_proc (ptr : Z) (p : agentProcess) (s : Sched) : Sched :=
  mkSched (static s) (port_range s) (nextPort s) (<[ptr := p]> (procs s)) (nextProc s) (agents s) (desired s) (idleStopped s) (lifecycle s) (pools s) (running s) (ctxDone s) (adminTok s) (supervisor s) (pool_objects s).
Definition with_next (n : Z) (s : Sched) : Sched :=
  mkSched (static s) (port_range s) (nextPort s) (procs s) n (agents s) (desired s) (idleStopped s) (lifecycle s) (pools s) (running s) (ctxDone s) (adminTok s) (supervisor s) (pool_objects s).
Definition with_nextPort (n : Z) (s : Sched) : Sched :=
  mkSched (static s) (port_range s) n (procs s) (nextProc s) (agents s) (desired s) (idleStopped s) (lifecycle s) (pools s) (running s) (ctxDone s) (adminTok s) (supervisor s) (pool_objects s).
Definition with_lifecycle (m : gmap string AgentLifecycleSnapshot) (s : Sched) : Sched :=
  mkSched (static s) (port_range s) (nextPort s) (procs s) (nextProc s) (agents s) (desired s) (idleStopped s) m (pools s) (running s) (ctxDone s) (adminTok s) (supervisor s) (pool_objects s).
Definition with_pools (m : gmap string nat) (s : Sched) : Sched :=
  mkSched (static s) (port_range s) (nextPort s) (procs s) (nextProc s) (agents s) (desired s) (idleStopped s) (lifecycle s) m (running s) (ctxDone s) (adminTok s) (supervisor s) (pool_objects s).
Definition with_pool_objects (l : list InstancePool.instancePool) (s : Sched) : Sched :=
  mkSched (static s) (port_range s) (nextPort s) (procs s) (nextProc s) (agents s) (desired s) (idleStopped s) (lifecycle s) (pools s) (running s) (ctxDone s) (adminTok s) (supervisor s) l.
Definition with_running (b done : bool) (s : Sched) : Sched :=
  mkSched (static s) (port_range s) (nextPort s) (procs s) (nextProc s) (agents s) (desired s) (idleStopped s) (lifecycle s) (pools s) b done (adminTok s) (supervisor s) (pool_objects s).

(** [s.setLifecycleLocked]: that of [AgentLifecycle]. *)
Definition set_lifecycle (now : time) (name : string) (st : AgentLifecycleState) (code reason : string) (attempt : Z) (at_ : time)
    (s : Sched) : Sched :=
  with_lifecycle (lifecycles (setLifecycleLocked now name st code reason attempt at_ (mkScheduler (lifecycle s) ∅))) s.

(** The entry of a map that a loop with a condition looks for. *)
Definition any {A} (f : string → A → bool) (m : gmap string A) : bool := existsb (λ x, f x.1 x.2) (map_to_list m).

(** ** Restart backoff *)

(** The doubling loop, [n] rounds of it. *)
Fixpoint backoff_loop (n : nat) (delay max : duration) : duration :=
  match n with
  | O => if (max <? delay)%Z then max else delay
  | S n => let delay := i64 (delay * 2) in if (max <=? delay)%Z then max else backoff_loop n delay max
  end.

Definition restartBackoff (c : supervisorConfig) (attempt : Z) : duration :=
  let initial := if (InitialBackoff c <=? 0)%Z then Second else InitialBackoff c in
  let max := if (MaxBackoff c <=? 0)%Z then (30 * Second)%Z else MaxBackoff c in
  backoff_loop (Z.to_nat (attempt - 1)) initial max.

(** ** Ports *)

(** [Config.AllocatePort]. *)
Definition AllocatePort (s : Sched) : option (Z * Sched) :=
  if valid_range (port_range s) then
    let n := if ((nextPort s <? Start (port_range s)) || (End_ (port_range s) <? nextPort s))%Z then Start (port_range s) else nextPort s in
    Some (n, with_nextPort (if (n =? End_ (port_range s))%Z then Start (port_range s) else n + 1)%Z s)
  else None.

Definition port_of (s : Sched) (ptr : Z) : option Z := Port ∘ p_cfg <$> procs s !! ptr.

Definition portReservedLocked (port : Z) (s : Sched) : bool :=
  any (λ _ ptr, bool_decide (port_of s ptr = Some port)) (agents s) ||
  any (λ name c, bool_decide (idleStopped s !! name = None) && (Port c =? port)%Z) (desired s) ||
  existsb (λ c, (0 <? Port c) && (Port c =? port))%Z (static s).

Definition portReservedByOtherLocked (port : Z) (name : string) (s : Sched) : bool :=
  any (λ n ptr, negb (bool_decide (n = name)) && bool_decide (port_of s ptr = Some port)) (agents s) ||
  any (λ n c, negb (bool_decide (n = name)) && bool_decide (idleStopped s !! n = None) && (Port c =? port)%Z) (desired s) ||
  existsb (λ c, negb (bool_decide (ac_Name c = name)) && (0 <? Port c)%Z && (Port c =? port)%Z) (static s).

(** What [evictStaleLocalAgent] finds on a port: nothing (any more), a foreign
    process, or an error. *)
Inductive listener := Free | Foreign (msg : string) | Failed (msg : string).

(** The answers of the environment to one spawn: the validation of the card, the
    listeners, the random token and the command. *)
Record start_env := mkStartEnv {
  se_invalid : option (string * string);
  se_listener : Z → listener;
  se_token : string + string;
  se_exec : option string;
}.

Inductive start_err := ConfigError (msg : string) | StartError (msg : string).

Definition err_text (e : start_err) : string := match e with ConfigError m | StartError m => m end.

(** The scan for a usable port. *)
Fixpoint allocate (env : start_env) (n : nat) (s : Sched) : Sched * (Z + start_err) :=
  match n with
  | O => (s, inr (StartError "no available ports in range"))
  | S n =>
      match AllocatePort s with
      | None => (s, inr (StartError "invalid port_range"))
      | Some (port, s) =>
          if portReservedLocked port s then allocate env n s
          else match se_listener env port with
               | Free => (s, inl port)
               | Foreign _ => allocate env n s
               | Failed msg => (s, inr (StartError msg))
               end
      end
  end.

(** The port of a new process. *)
Definition choose_port (env : start_env) (c : AgentConfig) (s : Sched) : Sched * (Z + start_err) :=
  if decide (Port c = 0%Z) then allocate env (Z.to_nat (End_ (port_range s) - Start (port_range s) + 1)) s
  else if portReservedByOtherLocked (Port c) (ac_Name c) s then (s, inr (StartError "port is reserved by another scheduler agent"))
  else match (if (Port c <=? 0)%Z then Free else se_listener env (Port c)) with
       | Free => (s, inl (Port c))
       | Foreign msg | Failed msg => (s, inr (StartError msg))
       end.

(** [startAgentLocked]; the result is the process. *)
Definition startAgentLocked (env : start_env) (now : time) (c : AgentConfig) (attempts : Z) (s : Sched) : Sched * (Z + start_err) :=
  match se_invalid env with
  | Some (code, msg) =>
      (set_lifecycle now (ac_Name c) AgentLifecycleInvalidConfig code msg 0 zero_time
         (with_desired (<[ac_Name c := c]> (desired s)) s), inr (ConfigError msg))
  | None =>
      match choose_port env c s with
      | (s, inr err) => (s, inr err)
      | (s, inl port) =>
          match (if decide (InternalToken c = "") then se_token env else inl (InternalToken c)) with
          | inr msg => (s, inr (StartError ("create internal token for " +:+ ac_Name c +:+ ": " +:+ msg)))
          | inl token =>
              let c := set_tokens token (adminTok s) (set_port port c) in
              match se_exec env with
              | Some msg => (s, inr (StartError ("start agent " +:+ ac_Name c +:+ ": " +:+ msg)))
              | None =>
                  let ptr := nextProc s in
                  (with_desired (<[ac_Name c := c]> (desired s))
                     (with_agents (<[ac_Name c := ptr]> (agents s))
                        (with_next (ptr + 1)%Z (with_proc ptr (mkProcess c false attempts token None "" false) s))), inl ptr)
              end
          end
      end
  end.

(** ** Processes *)

Definition set_stopping (p : agentProcess) : agentProcess :=
  mkProcess (p_cfg p) true (restartAttempts p) (internalToken p) (failureState p) (failureReason p) (killed p).
Definition set_killed (p : agentProcess) : agentProcess :=
  mkProcess (p_cfg p) (stopping p) (restartAttempts p) (internalToken p) (failureState p) (failureReason p) true.
Definition set_failure (st : AgentLifecycleState) (reason : string) (p : agentProcess) : agentProcess :=
  mkProcess (p_cfg p) (stopping p) (restartAttempts p) (internalToken p) (Some st) reason (killed p).

Definition on_proc (f : agentProcess → agentProcess) (ptr : Z) (s : Sched) : Sched :=
  match procs s !! ptr with Some p => with_proc ptr (f p) s | None => s end.

(** The process published under its own name. *)
Definition current (ptr : Z) (p : agentProcess) (s : Sched) : bool := bool_decide (agents s !! ac_Name (p_cfg p) = Some ptr).

(** [monitorAgent] after [Wait]: whether a restart is scheduled, as the
    configuration, the attempt and the delay. *)
Definition monitor_exit (now : time) (ptr : Z) (idle : bool) (exit_text : string) (s : Sched) : Sched * option (AgentConfig * Z * duration) :=
  match procs s !! ptr with
  | None => (s, None)
  | Some p =>
      let name := ac_Name (p_cfg p) in
      if negb (current ptr p s) then (s, None)
      else
        let s := with_agents (delete name (agents s)) s in
        if stopping p || ctxDone s || negb (Enabled (supervisor s)) then (s, None)
        else match desired s !! name with
             | None => (s, None)
             | Some c =>
                 if idle then
                   (set_lifecycle now name AgentLifecycleIdle "scale-to-zero" "idle timeout elapsed; wakeable on next request" 0 zero_time
                      (with_idle (<[name := c]> (idleStopped s)) s), None)
                 else
                   let attempt := (restartAttempts p + 1)%Z in
                   let delay := restartBackoff (supervisor s) attempt in
                   let failed := bool_decide (failureState p = Some AgentLifecycleHealthFailed) in
                   (set_lifecycle now name (if failed then AgentLifecycleHealthFailed else AgentLifecycleRestartBackoff)
                      (if failed then "health-threshold" else "process-exit")
                      (if failed then failureReason p else "process exited: " +:+ exit_text) attempt (Add now delay) s,
                    Some (c, attempt, delay))
             end
  end.

(** ** Health *)

(** The counting loop of [watchAgentHealth] over the answers of the probes:
    whether and after how many of them it gives up. *)
Fixpoint watch_loop (threshold failures : Z) (probes : list bool) : option nat :=
  match probes with
  | [] => None
  | ok :: probes =>
      let failures := if ok : bool then 0%Z else (failures + 1)%Z in
      if negb ok && (threshold <=? failures)%Z then Some 1 else S <$> watch_loop threshold failures probes
  end.

Definition watchAgentHealth (c : supervisorConfig) (probes : list bool) : option nat :=
  watch_loop (if (HealthFailureThreshold c <=? 0)%Z then 3 else HealthFailureThreshold c)%Z 0 probes.

Definition restartUnhealthyAgent (now : time) (ptr : Z) (detail : string) (s : Sched) : Sched :=
  match procs s !! ptr with
  | None => s
  | Some p =>
      if negb (current ptr p s) || stopping p || ctxDone s || negb (Enabled (supervisor s)) then s
      else
        let reason := "health check failed: " +:+ detail in
        with_proc ptr (set_killed (set_failure AgentLifecycleHealthFailed reason p))
          (set_lifecycle now (ac_Name (p_cfg p)) AgentLifecycleHealthFailed "health-threshold" reason (restartAttempts p) zero_time s)
  end.

(** ** Restarting *)

(** The section of [scheduleRestartLocked] when its timer fires: the next restart
    to schedule, if any, and whether the recovery of invocations is started. *)
Definition restart_fired (env : start_env) (now : time) (name : string) (attempt : Z) (s : Sched)
    : Sched * option (AgentConfig * Z * duration) * bool :=
  if ctxDone s then (s, None, false)
  else match desired s !! name with
       | None => (s, None, false)
       | Some c =>
           if decide (is_Some (agents s !! name)) then (s, None, false)
           else if decide (is_Some (idleStopped s !! name)) then (s, None, false)
           else match startAgentLocked env now c attempt s with
                | (s, inl _) => (s, None, true)
                | (s, inr (ConfigError _)) => (s, None, false)
                | (s, inr (StartError msg)) =>
                    let next := (attempt + 1)%Z in
                    let delay := restartBackoff (supervisor s) next in
                    (set_lifecycle now name AgentLifecycleRestartBackoff "process-exit" ("restart failed: " +:+ msg) next (Add now delay) s,
                     Some (c, next, delay), false)
                end
       end.
