(* ===== verification/SupervisorDrive.v ===== *)
(** * Requests to the supervisor and its goroutines ([internal/scheduler/scheduler.go])

    The sections of the requests (start, register, stop, wake, instance) and of
    [Start] and [Stop], and a step system in which they interleave with the
    monitors of the processes, the restart timers, the health watchers and the
    callers that wait for a new process to answer. *)
From S2P Require Import Prelude GoBase GoStrings Registry InstancePool AgentLifecycle Supervisor.
From Stdlib Require Import ZArith Lia.

Inductive agent_err :=
| NotRunning | NameRequired | WorkspaceRequired
| AlreadyRunning (name : string) | NotFound (name : string) | AlreadyExists (name : string)
| Incompatible (name detail : string) | Scaffold (msg : string) | Spawn (e : start_err).

(** ** Requests *)

Definition StartAgent (env : start_env) (now : time) (c : AgentConfig) (s : Sched) : Sched * (Z + agent_err) :=
  if negb (running s) then (s, inr NotRunning)
  else if decide (ac_Name c = "") then (s, inr NameRequired)
  else if decide (Workspace c = "") then (s, inr WorkspaceRequired)
  else if decide (is_Some (agents s !! ac_Name c)) then (s, inr (AlreadyRunning (ac_Name c)))
  else match startAgentLocked env now c 0 s with
       | (s, inr e) => (s, inr (Spawn e))
       | (s, inl ptr) => (s, inl (default 0%Z (port_of s ptr)))
       end.

(** [StopAgent]: whether the card is unregistered afterwards. *)
Definition StopAgent (now : time) (name : string) (s : Sched) : Sched * bool :=
  let stopped := set_lifecycle now name AgentLifecycleStopped "operator-stopped" "stopped by operator" 0 zero_time in
  let gone := with_idle (delete name (idleStopped s)) (with_desired (delete name (desired s)) s) in
  match agents s !! name with
  | None => (if decide (is_Some (desired s !! name) ∨ is_Some (lifecycle s !! name)) then stopped gone else gone, false)
  | Some ptr => (on_proc (λ p, set_killed (set_stopping p)) ptr (stopped gone), true)
  end.

Section paths.
(** [canonicalPath] resolves symbolic links: the answer of the file system. *)
Context `{UnicodeTables} (canonicalPath : string → string).

Definition sameCleanPath (a b : string) : bool :=
  if decide (a = "" ∨ b = "") then false else bool_decide (canonicalPath a = canonicalPath b).

Definition workdir_of (c : AgentConfig) : string := if decide (Workdir c = "") then Workspace c else Workdir c.

(** [compatibleRegistration]: what differs, if anything. *)
Definition compatibleRegistration (existing requested : AgentConfig) : option string :=
  if negb (InstanceCap existing =? InstanceCap requested)%Z then
    Some ("instances=" +:+ fmt_d (InstanceCap existing) +:+ ", requested=" +:+ fmt_d (InstanceCap requested))
  else if negb (sameCleanPath (Workspace existing) (Workspace requested)) then
    Some ("workspace=" +:+ fmt_q (Workspace existing) +:+ ", requested=" +:+ fmt_q (Workspace requested))
  else if negb (sameCleanPath (workdir_of existing) (workdir_of requested)) then
    Some ("workdir=" +:+ fmt_q (workdir_of existing) +:+ ", requested=" +:+ fmt_q (workdir_of requested))
  else if ((0 <? Port requested) && negb (Port existing =? Port requested))%Z then
    Some ("port=" +:+ fmt_d (Port existing) +:+ ", requested=" +:+ fmt_d (Port requested))
  else None.

(** An inline card: whether it matches the one on disk, and whether writing it
    fails. *)
Record card_env := mkCardEnv { ce_matches : bool + string; ce_write : option string }.

Definition registration_conflict (card : card_env) (existing requested : AgentConfig) : option string :=
  match compatibleRegistration existing requested with
  | Some detail => Some detail
  | None =>
      match ce_matches card with
      | inr msg => Some ("existing card cannot be verified: " +:+ msg)
      | inl false => Some "inline card differs"
      | inl true => None
      end
  end.

(** What [EnsureAgent] does once it has given the mutex back. *)
Inductive ensure_next := Refused (e : agent_err) | Running_ (ptr : Z) | Wake (name : string) | Started (ptr : Z).

(** The agent another workspace belongs to; [range] takes the entries in any
    order. *)
Definition workspace_owner (c : AgentConfig) (s : Sched) : option string :=
  fst <$> head (filter (λ x, x.1 ≠ ac_Name c ∧ sameCleanPath (Workspace x.2) (Workspace c) = true) (map_to_list (desired s))).

Definition spawn (env : start_env) (now : time) (c : AgentConfig) (s : Sched) : Sched * ensure_next :=
  match startAgentLocked env now c 0 s with
  | (s, inr e) => (s, Refused (Spawn e))
  | (s, inl ptr) => (s, Started ptr)
  end.

Definition EnsureAgent (env : start_env) (now : time) (c : AgentConfig) (card : option card_env) (s : Sched) : Sched * ensure_next :=
  if negb (running s) then (s, Refused NotRunning)
  else if decide (ac_Name c = "") then (s, Refused NameRequired)
  else if decide (Workspace c = "") then (s, Refused WorkspaceRequired)
  else match workspace_owner c s with
  | Some other =>
      (s, Refused (Incompatible (ac_Name c) ("workspace " +:+ fmt_q (Workspace c) +:+ " is already desired by " +:+ fmt_q other)))
  | None =>
      match desired s !! ac_Name c with
      | Some existing =>
          match card with
          | None => (s, Refused (AlreadyExists (ac_Name c)))
          | Some card =>
              match registration_conflict card existing c with
              | Some detail => (s, Refused (Incompatible (ac_Name c) detail))
              | None =>
                  match agents s !! ac_Name c with
                  | Some ptr => (s, Running_ ptr)
                  | None =>
                      if decide (is_Some (idleStopped s !! ac_Name c)) then (s, Wake (ac_Name c))
                      else spawn env now existing s
                  end
              end
          end
      | None =>
          match card ≫= ce_write with
          | Some msg => (s, Refused (Scaffold msg))
          | None => spawn env now c s
          end
      end
  end.
End paths.

(** ** Waking *)

(** The locked section of [ensureAwakeOnce]: nothing to do, an error, or a new
    process to wait for. *)
Definition ensureAwakeOnce (env : start_env) (now : time) (name : string) (s : Sched) : Sched * option (Z + start_err) :=
  if negb (running s) then (s, None)
  else if decide (is_Some (agents s !! name)) then (s, None)
  else match idleStopped s !! name with
       | None => (s, None)
       | Some c =>
           match startAgentLocked env now (set_port 0 c) 0 s with
           | (s, inr e) => (s, Some (inr e))
           | (s, inl ptr) => (with_idle (delete name (idleStopped s)) s, Some (inl ptr))
           end
       end.

(** The two sections of [rollbackFailedWake]. Between them it waits for the exit
    of the process when the first one says so. *)
Definition rollback_kill (name : string) (ptr : Z) (s : Sched) : Sched * bool :=
  if decide (agents s !! name = Some ptr) then (on_proc (λ p, set_killed (set_stopping p)) ptr s, true) else (s, false).

Definition rollback_restore (name : string) (s : Sched) : Sched * bool :=
  let replaced := bool_decide (is_Some (agents s !! name)) in
  (match desired s !! name with
   | Some c => if running s && negb replaced then with_idle (<[name := c]> (idleStopped s)) s else s
   | None => s
   end, negb replaced).

(** ** Instances of a pooled agent *)

Definition deriveInstanceConfig (base : AgentConfig) (idx : Z) : AgentConfig :=
  mkConfig (InstanceName.instanceName (ac_Name base) idx) (InstanceName.instanceWorkspace (Workspace base) idx) (Workdir base) 0
    (Instances base) (Remote base) "" (AdminToken base).

(** A pool is an object behind a pointer: it outlives its entry in the map, which
    [Stop] drops. *)
Definition poolFor (name : string) (s : Sched) : Sched * option nat :=
  match pools s !! name with
  | Some p => (s, Some p)
  | None =>
      match desired s !! name with
      | Some c =>
          if (InstanceCap c <=? 1)%Z then (s, None)
          else
            let p := length (pool_objects s) in
            (with_pools (<[name := p]> (pools s)) (with_pool_objects (pool_objects s ++ [InstancePool.newInstancePool (InstanceCap c)]) s), Some p)
      | None => (s, None)
      end
  end.

(** [pool.acquire] through the pointer. *)
Definition acquire_instance (p : nat) (contextID : string) (s : Sched) : Sched * Z :=
  let '(idx, pool) := InstancePool.acquire contextID (default (InstancePool.newInstancePool 1) (pool_objects s !! p)) in
  (with_pool_objects (<[p := pool]> (pool_objects s)) s, idx).

(** [resolveInstance] up to the start of the instance: the agent to dial and, for
    a pooled one, the pool and the ordinal taken. *)
Definition resolveInstance (name contextID : string) (s : Sched) : Sched * string * option (nat * Z) :=
  match poolFor name s with
  | (s, None) => (s, name, None)
  | (s, Some p) =>
      let '(s, idx) := acquire_instance p contextID s in
      (s, (if decide (idx = 0%Z) then name else InstanceName.instanceName name idx), Some (p, idx))
  end.

(** The release that comes with it, on the pool that was taken from. *)
Definition release_instance (p : nat) (idx : Z) (s : Sched) : Sched :=
  with_pool_objects (alter (InstancePool.release idx) p (pool_objects s)) s.

Inductive instance_next := I_Failed (e : agent_err) | I_Up | I_Wake | I_Started (ptr : Z).

(** The locked section of [startOrWakeInstance]; [scaffold] is the error of
    [scaffoldInstanceWorkspace]. *)
Definition startOrWakeInstance (env : start_env) (now : time) (scaffold : option string) (base : string) (idx : Z) (s : Sched)
    : Sched * instance_next :=
  let name := InstanceName.instanceName base idx in
  if negb (running s) then (s, I_Failed NotRunning)
  else if decide (is_Some (agents s !! name)) then (s, I_Up)
  else if decide (is_Some (idleStopped s !! name)) then (s, I_Wake)
  else match desired s !! base with
       | None => (s, I_Failed (NotFound base))
       | Some c =>
           match scaffold with
           | Some msg => (s, I_Failed (Scaffold msg))
           | None =>
               match startAgentLocked env now (deriveInstanceConfig c idx) 0 s with
               | (s, inr e) => (s, I_Failed (Spawn e))
               | (s, inl ptr) => (s, I_Started ptr)
               end
           end
       end.

(** ** Starting and stopping the scheduler *)

Definition stop_all (ps : list Z) (s : Sched) : Sched := foldr (on_proc (λ p, set_killed (set_stopping p))) s ps.

(** [abortStartLocked] *)
Definition abortStartLocked (s : Sched) : Sched :=
  with_running (running s) true
    (with_agents ∅ (with_desired (filter (λ x, agents s !! x.1 = None) (desired s)) (stop_all (snd <$> map_to_list (agents s)) s))).

(** The boot loop of [Start] over the local agents; [envs] answers for each. *)
Fixpoint boot (envs : string → start_env) (now : time) (cs : list AgentConfig) (s : Sched) : Sched * option string :=
  match cs with
  | [] => (s, None)
  | c :: cs =>
      if decide (Remote c = "") then
        match startAgentLocked (envs (ac_Name c)) now c 0 s with
        | (s, inl _) | (s, inr (ConfigError _)) => boot envs now cs s
        | (s, inr (StartError msg)) => (s, Some ("start agent " +:+ ac_Name c +:+ ": " +:+ msg))
        end
      else boot envs now cs s
  end.

(** [Start] once the token is loaded and the listener bound. *)
Definition SchedulerStart (envs : string → start_env) (now : time) (s : Sched) : Sched * option string :=
  if running s then (s, Some "scheduler already running")
  else match boot envs now (static s) (with_running false false s) with
       | (s, Some msg) => (abortStartLocked s, Some msg)
       | (s, None) => (with_running true (ctxDone s) s, None)
       end.

Definition SchedulerStop (s : Sched) : Sched :=
  with_running false true
    (with_pools ∅ (with_idle ∅ (with_desired ∅ (with_agents ∅ (stop_all (snd <$> map_to_list (agents s)) s))))).

(** [New]: what [Start] finds. *)
Definition configured (now : time) (cs : list AgentConfig) (r : PortRange) (token : string) (c : supervisorConfig) : Sched :=
  foldl (λ s c, set_lifecycle now (ac_Name c) AgentLifecycleStopped "configured-not-started" "configured but not started" 0 zero_time s)
    (mkSched cs r (Start r) ∅ 0 ∅ ∅ ∅ ∅ ∅ false true token c []) cs.

(** ** The world

    [exited] are the processes whose monitor has returned. [timers] are the
    restarts to come, as the name and the attempt. [waiters] are the callers that
    wait for a process they started, or that roll a failed start back. *)

Inductive phase := Probing | Draining | Restoring.
#[export] Instance phase_eq_dec : EqDecision phase.
Proof. solve_decision. Defined.

Record world := mkWorld {
  sch : Sched;
  exited : gset Z;
  timers : list (string * Z);
  waiters : list (string * Z * phase);
}.

Definition timer_of (t : option (AgentConfig * Z * duration)) : list (string * Z) :=
  match t with Some (c, attempt, _) => [(ac_Name c, attempt)] | None => [] end.

(** One section of one goroutine. The label names the agent of a request to start
    or register it. *)
Inductive step `{UnicodeTables} : option string → world → world → Prop :=
| s_start w env now c s r :
    StartAgent env now c (sch w) = (s, r) → step (Some (ac_Name c)) w (mkWorld s (exited w) (timers w) (waiters w))
| s_ensure w canonicalPath env now c card s r :
    EnsureAgent canonicalPath env now c card (sch w) = (s, r) →
    step (Some (ac_Name c)) w
      (mkWorld s (exited w) (timers w) (waiters w ++ match r with Started ptr => [(ac_Name c, ptr, Probing)] | _ => [] end))
| s_instance w env now scaffold base idx s r :
    startOrWakeInstance env now scaffold base idx (sch w) = (s, r) →
    step (Some (InstanceName.instanceName base idx)) w
      (mkWorld s (exited w) (timers w)
         (waiters w ++ match r with I_Started ptr => [(InstanceName.instanceName base idx, ptr, Probing)] | _ => [] end))
| s_resolve w name contextID s target idx :
    resolveInstance name contextID (sch w) = (s, target, idx) → step None w (mkWorld s (exited w) (timers w) (waiters w))
| s_release w p idx : step None w (mkWorld (release_instance p idx (sch w)) (exited w) (timers w) (waiters w))
| s_wake w env now name s r :
    ensureAwakeOnce env now name (sch w) = (s, r) →
    step None w (mkWorld s (exited w) (timers w) (waiters w ++ match r with Some (inl ptr) => [(name, ptr, Probing)] | _ => [] end))
| s_stop w now name s r : StopAgent now name (sch w) = (s, r) → step None w (mkWorld s (exited w) (timers w) (waiters w))
| s_exit w now ptr idle text s t :
    is_Some (procs (sch w) !! ptr) → ptr ∉ exited w → monitor_exit now ptr idle text (sch w) = (s, t) →
    step None w (mkWorld s ({[ptr]} ∪ exited w) (timers w ++ timer_of t) (waiters w))
| s_unhealthy w now ptr detail :
    step None w (mkWorld (restartUnhealthyAgent now ptr detail (sch w)) (exited w) (timers w) (waiters w))
| s_fire w l rest env now name attempt s t recover :
    timers w = l ++ (name, attempt) :: rest → restart_fired env now name attempt (sch w) = (s, t, recover) →
    step None w (mkWorld s (exited w) (l ++ rest ++ timer_of t) (waiters w))
| s_healthy w l rest name ptr :
    waiters w = l ++ (name, ptr, Probing) :: rest → step None w (mkWorld (sch w) (exited w) (timers w) (l ++ rest))
| s_kill w l rest name ptr s wait :
    waiters w = l ++ (name, ptr, Probing) :: rest → rollback_kill name ptr (sch w) = (s, wait) →
    step None w (mkWorld s (exited w) (timers w) (l ++ (name, ptr, if wait : bool then Draining else Restoring) :: rest))
| s_drained w l rest name ptr :
    waiters w = l ++ (name, ptr, Draining) :: rest → ptr ∈ exited w →
    step None w (mkWorld (sch w) (exited w) (timers w) (l ++ (name, ptr, Restoring) :: rest))
| s_restore w l rest name ptr s unregister :
    waiters w = l ++ (name, ptr, Restoring) :: rest → rollback_restore name (sch w) = (s, unregister) →
    step None w (mkWorld s (exited w) (timers w) (l ++ rest))
| s_shutdown w : step None w (mkWorld (SchedulerStop (sch w)) (exited w) (timers w) (waiters w)).

Definition any_step `{UnicodeTables} : relation world := λ w w', ∃ l, step l w w'.

(** A scheduler that has just been started with the configured entries [cs], and what
    it comes to. *)
Inductive started_with (cs : list AgentConfig) : world → Prop :=
| started_world envs now r token c s :
    SchedulerStart envs now (configured now cs r token c) = (s, None) →
    started_with cs (mkWorld s ∅ [] []).

Definition reachable `{UnicodeTables} (cs : list AgentConfig) (w : world) : Prop := ∃ w0, started_with cs w0 ∧ rtc any_step w0 w.

(** One entry for each name: neither the loader nor [Start] sees to it. *)
Definition distinct_names (cs : list AgentConfig) : Prop := NoDup (ac_Name <$> cs).
