(* ===== verification/SupervisorLaws.v ===== *)
(** * What supervision guarantees ([internal/scheduler/scheduler.go])

    The invariants of [SupervisorDrive] under every interleaving: at most one
    runtime for each agent that is not being torn down, distinct ports for the
    published ones, no desired agent without a process or a way back to one, and
    no process for an agent an operator has stopped. *)
From S2P Require Import Prelude GoBase GoStrings Registry InstancePool AgentLifecycle Supervisor SupervisorDrive.
From Stdlib Require Import ZArith Lia.

(** ** Spawning *)

(** The scheduler after a spawn of the configuration [c], which the process was
    given a port and its tokens in. *)
Definition spawned (c : AgentConfig) (attempts : Z) (token : string) (next : Z) (s : Sched) : Sched :=
  with_desired (<[ac_Name c := c]> (desired s))
    (with_agents (<[ac_Name c := nextProc s]> (agents s))
       (with_next (nextProc s + 1)%Z (with_proc (nextProc s) (mkProcess c false attempts token None "" false) (with_nextPort next s)))).

Definition port_free (name : string) (port : Z) (s : Sched) : Prop :=
  ∀ n q, agents s !! n = Some q → n ≠ name → port_of s q ≠ Some port.

Inductive start_outcome (now : time) (c : AgentConfig) (attempts : Z) (s : Sched) : Sched → Z + start_err → Prop :=
| so_started c' token next :
    ac_Name c' = ac_Name c → port_free (ac_Name c) (Port c') s → start_outcome now c attempts s (spawned c' attempts token next s) (inl (nextProc s))
| so_invalid code msg :
    start_outcome now c attempts s
      (set_lifecycle now (ac_Name c) AgentLifecycleInvalidConfig code msg 0 zero_time (with_desired (<[ac_Name c := c]> (desired s)) s))
      (inr (ConfigError msg))
| so_failed next msg : start_outcome now c attempts s (with_nextPort next s) (inr (StartError msg)).

Lemma with_nextPort_id s : with_nextPort (nextPort s) s = s.
Proof. by destruct s. Qed.

Lemma any_false {A} (f : string → A → bool) m n x : any f m = false → m !! n = Some x → f n x = false.
Proof.
  intros Hf Hx. apply elem_of_map_to_list in Hx. destruct (f n x) eqn:E; [| done].
  rewrite <- Hf. symmetry. apply existsb_exists. exists (n, x). split; [by apply list_elem_of_In | done].
Qed.

Lemma allocate_spec env n s s' r :
  allocate env n s = (s', r) →
  ∃ next, s' = with_nextPort next s ∧
    match r with inl port => portReservedLocked port s = false | inr (ConfigError _) => False | inr _ => True end.
Proof.
  revert s. induction n as [| n IH]; intros s Ha; cbn in Ha.
  - simplify_eq. eexists. split; [symmetry; apply with_nextPort_id | done].
  - unfold AllocatePort in Ha. destruct (valid_range (port_range s)).
    2: { simplify_eq. eexists. split; [symmetry; apply with_nextPort_id | done]. }
    repeat case_in Ha; try (destruct (IH _ Ha) as (next & -> & Hr); by exists next); eexists; by split.
Qed.

Lemma choose_port_spec env c s s' r :
  choose_port env c s = (s', r) →
  ∃ next, s' = with_nextPort next s ∧
    match r with inl port => port_free (ac_Name c) port s | inr (ConfigError _) => False | inr _ => True end.
Proof.
  unfold choose_port. intros Hc. destruct (decide (Port c = 0%Z)) as [Hz | Hz].
  - destruct (allocate_spec _ _ _ _ _ Hc) as (next & -> & Hr). exists next. split; [done |]. destruct r; [| done].
    intros n q Hq _ Hp. unfold portReservedLocked in Hr. bool_to_prop.
    apply (any_false _ _ n q) in H; [| done]. by apply bool_decide_eq_false in H.
  - repeat case_in Hc; eexists; (split; [symmetry; apply with_nextPort_id |]); try done; intros n q Hq Hn Hp; unfold portReservedByOtherLocked in E; bool_to_prop;
      match goal with H : any _ (agents _) = false |- _ => apply (any_false _ _ n q) in H; [cbv beta in H | done] end;
      rewrite (bool_decide_eq_false_2 _ Hn), (bool_decide_eq_true_2 _ Hp) in H; done.
Qed.

Lemma startAgentLocked_spec env now c attempts s s' r :
  startAgentLocked env now c attempts s = (s', r) → start_outcome now c attempts s s' r.
Proof.
  unfold startAgentLocked. intros Hs. destruct (se_invalid env) as [[code msg] |]; [simplify_eq; constructor |].
  destruct (choose_port env c s) as [s1 p] eqn:Ec. apply choose_port_spec in Ec as (next & -> & Hp).
  destruct p as [port | [msg | msg]]; [| done | simplify_eq; constructor].
  destruct (if decide _ then _ else _) as [token | msg]; [| simplify_eq; constructor].
  destruct (se_exec env); simplify_eq; [constructor |].
  exact (so_started now c attempts s (set_tokens token (adminTok s) (set_port port c)) token next eq_refl Hp).
Qed.

(** ** The invariant *)

Definition invalid (n : string) (s : Sched) : Prop := State <$> lifecycle s !! n = Some AgentLifecycleInvalidConfig.

(** A failed start of the agent is being rolled back. *)
Definition rolling (n : string) (ws : list (string * Z * phase)) : Prop := ∃ ptr ph, (n, ptr, ph) ∈ ws ∧ ph ≠ Probing.

Definition supervised (s : Sched) : Prop := running s = true ∧ ctxDone s = false ∧ Enabled (supervisor s) = true.

(** Something will bring the agent back, or it needs a new configuration. *)
Definition recovering (n : string) (w : world) : Prop :=
  is_Some (agents (sch w) !! n) ∨ is_Some (idleStopped (sch w) !! n) ∨ (∃ a, (n, a) ∈ timers w) ∨ invalid n (sch w) ∨ rolling n (waiters w).

Record wf (w : world) : Prop := {
  wf_heap n q : agents (sch w) !! n = Some q → ∃ p, procs (sch w) !! q = Some p ∧ ac_Name (p_cfg p) = n ∧ q ∉ exited w;
  wf_next q : is_Some (procs (sch w) !! q) ∨ q ∈ exited w → (q < nextProc (sch w))%Z;
  wf_live q p : procs (sch w) !! q = Some p → q ∉ exited w → stopping p = false →
    agents (sch w) !! ac_Name (p_cfg p) = Some q ∧ is_Some (desired (sch w) !! ac_Name (p_cfg p));
  wf_ports n1 n2 q1 q2 p1 p2 :
    agents (sch w) !! n1 = Some q1 → agents (sch w) !! n2 = Some q2 → procs (sch w) !! q1 = Some p1 → procs (sch w) !! q2 = Some p2 →
    n1 ≠ n2 → Port (p_cfg p1) ≠ Port (p_cfg p2);
  wf_names n c : desired (sch w) !! n = Some c ∨ idleStopped (sch w) !! n = Some c → ac_Name c = n ∧ is_Some (desired (sch w) !! n);
  wf_kept n : supervised (sch w) → is_Some (desired (sch w) !! n) → recovering n w;
  wf_roll n q p :
    agents (sch w) !! n = Some q → procs (sch w) !! q = Some p → stopping p = true → is_Some (desired (sch w) !! n) →
    (n, q, Draining) ∈ waiters w ∨ invalid n (sch w);
}.

(** ** Parts of the steps that keep it *)

Definition at_sched (f : Sched → Sched) (w : world) : world := mkWorld (f (sch w)) (exited w) (timers w) (waiters w).

Lemma wf_nextPort next w : wf w → wf (at_sched (with_nextPort next) w).
Proof. intros []. constructor; assumption. Qed.

Lemma wf_pools m w : wf w → wf (at_sched (with_pools m) w).
Proof. intros []. constructor; assumption. Qed.

Lemma wf_pool_objects l w : wf w → wf (at_sched (with_pool_objects l) w).
Proof. intros []. constructor; assumption. Qed.

Lemma lookup_lifecycle now m n st code reason a t s :
  State <$> lifecycle (set_lifecycle now n st code reason a t s) !! m = if decide (n = m) then Some st else State <$> lifecycle s !! m.
Proof.
  unfold set_lifecycle, setLifecycleLocked. cbn. case_decide as E; [subst; by rewrite lookup_insert_eq | by rewrite lookup_insert_ne].
Qed.

Lemma wf_lifecycle now n st code reason a t w :
  wf w →
  (st = AgentLifecycleInvalidConfig ∨
   (is_Some (desired (sch w) !! n) →
      is_Some (agents (sch w) !! n) ∨ is_Some (idleStopped (sch w) !! n) ∨ (∃ a, (n, a) ∈ timers w)) ∧
   (∀ q p, agents (sch w) !! n = Some q → procs (sch w) !! q = Some p → stopping p = true → is_Some (desired (sch w) !! n) →
      (n, q, Draining) ∈ waiters w)) →
  wf (at_sched (set_lifecycle now n st code reason a t) w).
Proof.
  intros [] Hn. constructor; try assumption.
  - intros m Hs Hd. unfold recovering, invalid. cbn [at_sched sch timers waiters]. rewrite lookup_lifecycle.
    destruct (wf_kept0 m Hs Hd) as [? | [? | [? | [? | ?]]]]; auto; [].
    case_decide as E; [subst m | auto]. destruct Hn as [-> | [Hn _]]; [by auto |]. destruct (Hn Hd) as [? | [? | ?]]; auto.
  - intros m q p Ha Hp Hst Hd. unfold invalid. cbn [at_sched sch timers waiters]. rewrite lookup_lifecycle.
    destruct (wf_roll0 m q p Ha Hp Hst Hd) as [? | ?]; [auto |].
    case_decide as E; [subst m | auto]. destruct Hn as [-> | [_ Hn]]; [by auto |]. left. eauto.
Qed.

Lemma wf_grow tms ws w : wf w → timers w ⊆ tms → waiters w ⊆ ws → wf (mkWorld (sch w) (exited w) tms ws).
Proof.
  intros [] Ht Hw. constructor; try assumption.
  - intros n Hs Hd. destruct (wf_kept0 n Hs Hd) as [? | [? | [[a ?] | [? | (q & ph & ? & ?)]]]]; unfold recovering; cbn; eauto 7.
    do 4 right. exists q, ph. auto.
  - intros n q p Ha Hp Hst Hd. destruct (wf_roll0 n q p Ha Hp Hst Hd); cbn; auto.
Qed.

(** A timer may go when its agent is cared for. *)
Lemma wf_timer l rest n a w :
  wf w → timers w = l ++ (n, a) :: rest →
  (supervised (sch w) → is_Some (desired (sch w) !! n) → recovering n (mkWorld (sch w) (exited w) (l ++ rest) (waiters w))) →
  wf (mkWorld (sch w) (exited w) (l ++ rest) (waiters w)).
Proof.
  intros [] Ht Hn. constructor; try assumption. intros m Hs Hd. destruct (decide (m = n)) as [-> | Hmn]; [by apply Hn |].
  destruct (wf_kept0 m Hs Hd) as [? | [? | [[b Hb] | [? | ?]]]]; unfold recovering; cbn; auto.
  right; right; left. exists b. rewrite Ht in Hb. set_solver.
Qed.

(** So may a waiter. *)
Lemma wf_waiter l rest n q ph new w :
  wf w → waiters w = l ++ (n, q, ph) :: rest →
  (ph = Draining → q ∈ exited w) →
  (ph = Restoring → supervised (sch w) → is_Some (desired (sch w) !! n) → recovering n (mkWorld (sch w) (exited w) (timers w) (l ++ new ++ rest))) →
  (ph = Draining → rolling n new) →
  wf (mkWorld (sch w) (exited w) (timers w) (l ++ new ++ rest)).
Proof.
  intros [] Hw Hdr Hre Hnew. constructor; try assumption.
  - intros m Hs Hd. destruct (wf_kept0 m Hs Hd) as [? | [? | [? | [? | (q' & ph' & Hin & Hph)]]]]; unfold recovering; cbn; auto.
    rewrite Hw in Hin. apply elem_of_app in Hin as [Hin | Hin]; [do 4 right; exists q', ph'; set_solver |].
    apply elem_of_cons in Hin as [Hin | Hin]; [simplify_eq | do 4 right; exists q', ph'; set_solver].
    destruct ph; [done | | by apply Hre]. destruct (Hnew eq_refl) as (r & ph & Hr & Hph'). do 4 right. exists r, ph. set_solver.
  - intros m r p Ha Hp Hst Hd. destruct (wf_roll0 m r p Ha Hp Hst Hd) as [Hin | Hin]; [left | by right]. cbn.
    rewrite Hw in Hin. destruct (decide ((m, r, Draining) = (n, q, ph))) as [E | E]; [| set_solver]. simplify_eq.
    destruct (wf_heap0 n q Ha) as (p' & _ & _ & Hx). by specialize (Hdr eq_refl).
Qed.

Lemma on_proc_fields f q s :
  agents (on_proc f q s) = agents s ∧ desired (on_proc f q s) = desired s ∧ idleStopped (on_proc f q s) = idleStopped s ∧
  lifecycle (on_proc f q s) = lifecycle s ∧ nextProc (on_proc f q s) = nextProc s ∧ running (on_proc f q s) = running s ∧
  ctxDone (on_proc f q s) = ctxDone s ∧ supervisor (on_proc f q s) = supervisor s ∧ procs (on_proc f q s) = alter f q (procs s).
Proof.
  unfold on_proc. destruct (procs s !! q) as [p |] eqn:E; cbn; split_and!; try done.
  - by apply map_eq; intros i; destruct (decide (i = q)) as [-> | ?]; rewrite ?lookup_insert_eq, ?lookup_insert_ne, ?lookup_alter_eq, ?lookup_alter_ne, ?E by done.
  - apply map_eq; intros i; destruct (decide (i = q)) as [-> | ?]; rewrite ?lookup_alter_eq, ?lookup_alter_ne, ?E by done; done.
Qed.

Lemma lookup_on_proc f q s i p :
  procs (on_proc f q s) !! i = Some p → ∃ p0, procs s !! i = Some p0 ∧ p = (if decide (i = q) then f p0 else p0).
Proof.
  destruct (on_proc_fields f q s) as (_ & _ & _ & _ & _ & _ & _ & _ & ->).
  destruct (decide (i = q)) as [-> | Hi]; rewrite ?lookup_alter_eq, ?lookup_alter_ne by done; [| by eauto].
  intros (p0 & -> & ?)%fmap_Some_1. eauto.
Qed.

Lemma is_some_on_proc f q s i : is_Some (procs (on_proc f q s) !! i) → is_Some (procs s !! i).
Proof. intros [p (p0 & Hp & _)%lookup_on_proc]. by exists p0. Qed.

Lemma on_proc_some f q s i p : procs s !! i = Some p → procs (on_proc f q s) !! i = Some (if decide (i = q) then f p else p).
Proof.
  destruct (on_proc_fields f q s) as (_ & _ & _ & _ & _ & _ & _ & _ & ->). intros Hp.
  case_decide as E; [subst; by rewrite lookup_alter_eq, Hp | by rewrite lookup_alter_ne].
Qed.

(** What [StopAgent] and the rollback do to a process keeps its configuration. *)
Definition keeps (f : agentProcess → agentProcess) : Prop := ∀ p, p_cfg (f p) = p_cfg p ∧ (stopping p = true → stopping (f p) = true).

Lemma keeps_pick f (b : bool) p : keeps f → p_cfg (if b then f p else p) = p_cfg p ∧ (stopping (if b then f p else p) = false → stopping p = false).
Proof. intros Hf. destruct b; [| done]. destruct (Hf p) as [Hc Hs]. split; [done |]. destruct (stopping p); [| done]. by rewrite Hs. Qed.

Lemma wf_on_proc f q w :
  keeps f → wf w →
  (∀ n p, agents (sch w) !! n = Some q → procs (sch w) !! q = Some p → stopping (f p) = true → is_Some (desired (sch w) !! n) →
     (n, q, Draining) ∈ waiters w ∨ invalid n (sch w)) →
  wf (at_sched (on_proc f q) w).
Proof.
  intros Hf [] Hroll. destruct (on_proc_fields f q (sch w)) as (Ha & Hd & Hi & Hl & Hn & Hr & Hc & Hs & _).
  assert (∀ p b, p_cfg (if (b : bool) then f p else p) = p_cfg p) as Hcfg by (intros p b; by apply keeps_pick).
  constructor; cbn [at_sched sch exited timers waiters]; unfold recovering, supervised, invalid; cbn [at_sched sch exited timers waiters];
    rewrite ?Ha, ?Hd, ?Hi, ?Hl, ?Hn, ?Hr, ?Hc, ?Hs.
  - intros n i E. destruct (wf_heap0 n i E) as (p & Hp & Hname & Hx). eexists. split; [by apply on_proc_some |].
    split; [| done]. rewrite <- Hname. by destruct (decide (i = q)); rewrite ?(proj1 (Hf p)).
  - intros i [Hi' | Hi']; apply wf_next0; [left; by eapply is_some_on_proc | by right].
  - intros i p (p0 & Hp & ->)%lookup_on_proc Hx Hst. destruct (keeps_pick f (bool_decide (i = q)) p0 Hf) as [E1 E2].
    rewrite <- decide_bool_decide in E1, E2.
    rewrite E1. apply wf_live0; auto.
  - intros n1 n2 q1 q2 p1 p2 H1 H2 (p1' & Hp1 & ->)%lookup_on_proc (p2' & Hp2 & ->)%lookup_on_proc Hne.
    rewrite !decide_bool_decide, !Hcfg. by apply (wf_ports0 n1 n2 q1 q2).
  - done.
  - done.
  - intros n i p E (p0 & Hp & ->)%lookup_on_proc Hst Hdn. destruct (decide (i = q)) as [-> | Hne]; [by apply (Hroll n p0) | by apply (wf_roll0 n i p0)].
Qed.

Definition not_serving (n : string) (s : Sched) : Prop := ∀ q p, agents s !! n = Some q → procs s !! q = Some p → stopping p = true.

Lemma lookup_new (w : world) q (p : agentProcess) i x :
  wf w → nextProc (sch w) = q → <[q := p]> (procs (sch w)) !! i = Some x → (i = q ∧ x = p) ∨ (i ≠ q ∧ procs (sch w) !! i = Some x).
Proof.
  intros _ <-. destruct (decide (i = nextProc (sch w))) as [-> | Hne]; [rewrite lookup_insert_eq; intros [= ->]; auto |].
  rewrite lookup_insert_ne by done. auto.
Qed.

Lemma wf_spawned c attempts token next w :
  wf w → not_serving (ac_Name c) (sch w) → port_free (ac_Name c) (Port c) (sch w) → wf (at_sched (spawned c attempts token next) w).
Proof.
  intros W Hns Hfree. pose proof W as []. assert (∀ n q, agents (sch w) !! n = Some q → q ≠ nextProc (sch w)) as Hold.
  { intros n q E ->. destruct (wf_heap0 _ _ E) as (p & Hp & _). specialize (wf_next0 (nextProc (sch w)) (or_introl (ex_intro _ _ Hp))). lia. }
  constructor; cbn [at_sched sch exited timers waiters]; unfold recovering, supervised, invalid; cbn.
  - intros n q [[<- <-] | [Hne E]]%lookup_insert_Some.
    + eexists. split_and!; [apply lookup_insert_eq | done |]. intros Hx. specialize (wf_next0 _ (or_intror Hx)). lia.
    + destruct (wf_heap0 _ _ E) as (p & Hp & Hname & Hx). exists p. by rewrite lookup_insert_ne by (specialize (Hold _ _ E); congruence).
  - intros q [[x Hq] | Hq]; [| specialize (wf_next0 _ (or_intror Hq)); lia].
    destruct (lookup_new w _ _ _ _ W eq_refl Hq) as [[-> _] | [_ Hp]]; [lia |]. specialize (wf_next0 _ (or_introl (ex_intro _ _ Hp))). lia.
  - intros q x Hq Hx Hst. destruct (lookup_new w _ _ _ _ W eq_refl Hq) as [[-> ->] | [Hne Hp]]; cbn; [by rewrite !lookup_insert_eq |].
    destruct (wf_live0 q x Hp Hx Hst) as [Hl Hd]. destruct (decide (ac_Name c = ac_Name (p_cfg x))) as [E | E].
    + rewrite <- E in Hl. by rewrite (Hns q x Hl Hp) in Hst.
    + by rewrite !lookup_insert_ne.
  - intros n1 n2 q1 q2 p1 p2 H1 H2 Hp1 Hp2 Hne.
    destruct (lookup_new w _ _ _ _ W eq_refl Hp1) as [[-> ->] | [Hq1 Hp1']], (lookup_new w _ _ _ _ W eq_refl Hp2) as [[-> ->] | [Hq2 Hp2']];
      apply lookup_insert_Some in H1 as [[<- ?] | [Hn1 H1]], H2 as [[<- ?] | [Hn2 H2]]; try done; try congruence;
      try (by destruct (Hold _ _ H1)); try (by destruct (Hold _ _ H2)); cbn.
    + intros E. apply (Hfree n2 q2 H2); [done |]. unfold port_of. rewrite Hp2'. cbn. by rewrite E.
    + intros E. apply (Hfree n1 q1 H1); [done |]. unfold port_of. rewrite Hp1'. cbn. by rewrite E.
    + by apply (wf_ports0 n1 n2 q1 q2).
  - intros n x [[[<- <-] | [Hne E]]%lookup_insert_Some | E]; [by rewrite lookup_insert_eq | |].
    + rewrite lookup_insert_ne by done. apply wf_names0. by left.
    + destruct (wf_names0 n x (or_intror E)) as [? [y ?]]. split; [done |]. destruct (decide (ac_Name c = n)) as [-> | ?];
        [by rewrite lookup_insert_eq | rewrite lookup_insert_ne by done; eauto].
  - intros n Hs Hd. destruct (decide (ac_Name c = n)) as [<- | Hne]; [left; by rewrite lookup_insert_eq |].
    rewrite lookup_insert_ne in Hd by done. destruct (wf_kept0 n Hs Hd) as [? | ?]; [left; by rewrite lookup_insert_ne | auto].
  - intros n q x [[<- <-] | [Hne E]]%lookup_insert_Some Hq Hst Hd.
    + by rewrite lookup_insert_eq in Hq; simplify_eq.
    + rewrite lookup_insert_ne in Hq by (specialize (Hold _ _ E); congruence). rewrite lookup_insert_ne in Hd by done. by apply (wf_roll0 n q x).
Qed.

Lemma wf_desire c w now code msg :
  wf w →
  wf (at_sched (λ s, set_lifecycle now (ac_Name c) AgentLifecycleInvalidConfig code msg 0 zero_time (with_desired (<[ac_Name c := c]> (desired s)) s)) w).
Proof.
  intros []. constructor; try assumption; cbn [at_sched sch exited timers waiters]; unfold recovering, supervised, invalid; cbn.
  - intros q p Hp Hx Hst. destruct (wf_live0 q p Hp Hx Hst) as [? ?]. split; [done |].
    destruct (decide (ac_Name c = ac_Name (p_cfg p))) as [-> | ?]; [by rewrite lookup_insert_eq | by rewrite lookup_insert_ne].
  - intros n x [[[<- <-] | [Hne E]]%lookup_insert_Some | E]; [by rewrite lookup_insert_eq | |].
    + rewrite lookup_insert_ne by done. apply wf_names0. by left.
    + destruct (wf_names0 n x (or_intror E)) as [? [y ?]]. split; [done |]. destruct (decide (ac_Name c = n)) as [-> | ?];
        [by rewrite lookup_insert_eq | rewrite lookup_insert_ne by done; eauto].
  - intros n Hs Hd. destruct (decide (ac_Name c = n)) as [<- | Hne]; [right; right; right; left; by rewrite lookup_insert_eq |].
    rewrite lookup_insert_ne in Hd by done. rewrite lookup_insert_ne by done. by apply wf_kept0.
  - intros n q x E Hq Hst Hd. destruct (decide (ac_Name c = n)) as [<- | Hne]; [right; by rewrite lookup_insert_eq |].
    rewrite lookup_insert_ne in Hd by done. rewrite lookup_insert_ne by done. by apply (wf_roll0 n q x).
Qed.

Lemma wf_outcome now c attempts w s r :
  wf w → not_serving (ac_Name c) (sch w) → start_outcome now c attempts (sch w) s r → wf (at_sched (λ _, s) w).
Proof.
  intros W Hns Ho. destruct Ho as [c' token next Hn Hf | code msg | next msg].
  - rewrite <- Hn in Hns, Hf. by apply (wf_spawned c' attempts token next w).
  - by apply (wf_desire c w now code msg).
  - by apply (wf_nextPort next w).
Qed.

(** ** Requests *)

Lemma wf_undesired l n q ph w :
  wf (mkWorld (sch w) (exited w) (timers w) (l ++ [(n, q, ph)])) → desired (sch w) !! n = None →
  wf (mkWorld (sch w) (exited w) (timers w) l).
Proof.
  intros [] Hn. cbn in *. constructor; try assumption; cbn.
  - intros m Hs Hd. assert (m ≠ n) as Hmn by (intros ->; rewrite Hn in Hd; by destruct Hd).
    destruct (wf_kept0 m Hs Hd) as [? | [? | [? | [? | (r & ph' & Hin & ?)]]]]; unfold recovering; cbn; auto.
    do 4 right. exists r, ph'. set_solver.
  - intros m r p Ha Hp Hst Hd. assert (m ≠ n) as Hmn by (intros ->; rewrite Hn in Hd; by destruct Hd).
    destruct (wf_roll0 m r p Ha Hp Hst Hd); [left; set_solver | by right].
Qed.

Definition forget (n : string) (s : Sched) : Sched := with_idle (delete n (idleStopped s)) (with_desired (delete n (desired s)) s).

Lemma wf_forget n w : wf w → not_serving n (sch w) → wf (at_sched (forget n) w).
Proof.
  intros [] Hns. assert (∀ m, is_Some (delete n (desired (sch w)) !! m) → m ≠ n ∧ is_Some (desired (sch w) !! m)) as Hdel.
  { intros m [c [Hne Hc]%lookup_delete_Some]. by eauto. }
  constructor; try assumption; cbn [at_sched sch exited timers waiters]; unfold recovering, supervised, invalid; cbn.
  - intros q p Hp Hx Hst. destruct (wf_live0 q p Hp Hx Hst) as [Ha Hd]. split; [done |].
    rewrite lookup_delete_ne; [done |]. intros E. rewrite <- E in Ha. by rewrite (Hns q p Ha Hp) in Hst.
  - intros m c Hc. assert (m ≠ n) as Hmn by (intros ->; rewrite !lookup_delete_eq in Hc; by destruct Hc).
    rewrite !lookup_delete_ne in Hc by done. rewrite lookup_delete_ne by done. by apply wf_names0.
  - intros m Hs [Hmn Hd]%Hdel. destruct (wf_kept0 m Hs Hd) as [? | [? | ?]]; auto. right; left. by rewrite lookup_delete_ne.
  - intros m q p Ha Hp Hst [_ Hd]%Hdel. by apply (wf_roll0 m q p).
Qed.

Lemma keeps_stop : keeps (λ p, set_killed (set_stopping p)).
Proof. done. Qed.

(** The published process of the agent is told to stop; a caller rolls back. *)
Lemma wf_stop_process n q w :
  wf w → (n, q, Draining) ∈ waiters w → agents (sch w) !! n = Some q → wf (at_sched (on_proc (λ p, set_killed (set_stopping p)) q) w).
Proof.
  intros W Hin Ha. apply wf_on_proc; [exact keeps_stop | done |]. intros m p Hm Hp _ _. left.
  destruct (wf_heap w W n q Ha) as (p1 & Hp1 & <- & _), (wf_heap w W m q Hm) as (p2 & Hp2 & <- & _). by simplify_eq.
Qed.

Lemma not_serving_stopped n q s : agents s !! n = Some q → not_serving n (on_proc (λ p, set_killed (set_stopping p)) q s).
Proof.
  intros Ha i p Hi (p0 & _ & ->)%lookup_on_proc. destruct (on_proc_fields (λ p, set_killed (set_stopping p)) q s) as (E & _).
  rewrite E in Hi. simplify_eq. by rewrite decide_True.
Qed.

Lemma on_proc_commutes f q now n st code reason a t s :
  on_proc f q (set_lifecycle now n st code reason a t (forget n s)) = set_lifecycle now n st code reason a t (forget n (on_proc f q s)).
Proof. unfold on_proc. cbn. by destruct (procs s !! q). Qed.

Lemma wf_stopped now n w s r : wf w → StopAgent now n (sch w) = (s, r) → wf (at_sched (λ _, s) w).
Proof.
  intros W. unfold StopAgent. intros Hs.
  assert (∀ w, wf w → desired (sch w) !! n = None →
    wf (at_sched (set_lifecycle now n AgentLifecycleStopped "operator-stopped" "stopped by operator" 0 zero_time) w)) as Hstop.
  { clear. intros w W Hn. apply wf_lifecycle; [done |]. right. by split; [rewrite Hn; intros []% is_Some_None | intros q p _ _ _; rewrite Hn; intros []% is_Some_None]. }
  destruct (agents (sch w) !! n) as [q |] eqn:Ha; simplify_eq.
  - change (wf (at_sched (λ _, on_proc (λ p, set_killed (set_stopping p)) q
      (set_lifecycle now n AgentLifecycleStopped "operator-stopped" "stopped by operator" 0 zero_time (forget n (sch w)))) w)).
    rewrite on_proc_commutes. apply (wf_undesired (waiters w) n q Draining (at_sched (λ _, set_lifecycle now n AgentLifecycleStopped
      "operator-stopped" "stopped by operator" 0 zero_time (forget n (on_proc (λ p, set_killed (set_stopping p)) q (sch w)))) w));
      [| apply lookup_delete_eq].
    set (w1 := mkWorld (sch w) (exited w) (timers w) (waiters w ++ [(n, q, Draining)])).
    assert (wf w1) as W1 by (apply wf_grow; set_solver).
    apply (Hstop (at_sched (λ s, forget n (on_proc (λ p, set_killed (set_stopping p)) q s)) w1)); [| apply lookup_delete_eq].
    apply (wf_forget n (at_sched (on_proc (λ p, set_killed (set_stopping p)) q) w1)); [| by apply not_serving_stopped].
    apply (wf_stop_process n); [done | cbn; set_solver | done].
  - assert (wf (at_sched (forget n) w)) as W1 by (apply wf_forget; [done | intros q p; by rewrite Ha]).
    case_decide; [| exact W1]. apply (Hstop (at_sched (forget n) w)); [done | apply lookup_delete_eq].
Qed.

(** ** Idle agents, exits *)

Lemma wf_idle n c w : wf w → desired (sch w) !! n = Some c → wf (at_sched (λ s, with_idle (<[n := c]> (idleStopped s)) s) w).
Proof.
  intros [] Hd. constructor; try assumption; cbn [at_sched sch exited timers waiters]; unfold recovering, supervised, invalid; cbn.
  - intros m x [E | [[<- <-] | [? E]]%lookup_insert_Some]; apply wf_names0; auto.
  - intros m Hs Hm. destruct (decide (n = m)) as [<- | ?]; [right; left; by rewrite lookup_insert_eq |].
    rewrite lookup_insert_ne by done. by apply wf_kept0.
Qed.

Lemma wf_awake n w : wf w → is_Some (agents (sch w) !! n) → wf (at_sched (λ s, with_idle (delete n (idleStopped s)) s) w).
Proof.
  intros [] Ha. constructor; try assumption; cbn [at_sched sch exited timers waiters]; unfold recovering, supervised, invalid; cbn.
  - intros m x [E | [_ E]%lookup_delete_Some]; apply wf_names0; auto.
  - intros m Hs Hm. destruct (decide (n = m)) as [<- | ?]; [by left |]. rewrite lookup_delete_ne by done. by apply wf_kept0.
Qed.

(** The monitor of a process that is not published any more. *)
Lemma wf_orphan q w :
  wf w → is_Some (procs (sch w) !! q) → (∀ n, agents (sch w) !! n ≠ Some q) → wf (mkWorld (sch w) ({[q]} ∪ exited w) (timers w) (waiters w)).
Proof.
  intros [] Hq Hn. constructor; try assumption; cbn.
  - intros n i E. destruct (wf_heap0 n i E) as (p & Hp & Hname & Hx). exists p. split_and!; [done.. |].
    assert (i ≠ q) by (intros ->; by destruct (Hn n)). set_solver.
  - intros i [Hi | Hi]; [auto |]. apply elem_of_union in Hi as [->%elem_of_singleton | Hi]; auto.
  - intros i p Hp Hx. apply wf_live0; [done | set_solver].
Qed.

Lemma wf_unpublish q p w :
  wf w → procs (sch w) !! q = Some p → agents (sch w) !! ac_Name (p_cfg p) = Some q →
  (supervised (sch w) → is_Some (desired (sch w) !! ac_Name (p_cfg p)) →
     recovering (ac_Name (p_cfg p)) (at_sched (with_agents ∅) w)) →
  wf (mkWorld (with_agents (delete (ac_Name (p_cfg p)) (agents (sch w))) (sch w)) ({[q]} ∪ exited w) (timers w) (waiters w)).
Proof.
  intros [] Hp Ha Hrec. set (n := ac_Name (p_cfg p)) in *.
  assert (∀ m i, agents (sch w) !! m = Some i → m ≠ n → i ≠ q) as Hother.
  { intros m i Hm Hne ->. destruct (wf_heap0 m q Hm) as (p' & Hp' & E & _). simplify_eq. }
  constructor; try assumption; unfold recovering, supervised, invalid; cbn.
  - intros m i [Hne E]%lookup_delete_Some. destruct (wf_heap0 m i E) as (p' & Hp' & Hname & Hx). exists p'. split_and!; [done.. |].
    specialize (Hother m i E (not_eq_sym Hne)). set_solver.
  - intros i [Hi | Hi]; [auto |]. apply elem_of_union in Hi as [->%elem_of_singleton | Hi]; eauto.
  - intros i p' Hp' Hx Hst. destruct (wf_live0 i p' Hp') as [E ?]; [set_solver | done |]. split; [| done].
    rewrite lookup_delete_ne; [done |]. intros E'. rewrite <- E' in E. simplify_eq. set_solver.
  - intros n1 n2 q1 q2 p1 p2 [_ H1]%lookup_delete_Some [_ H2]%lookup_delete_Some. by apply wf_ports0.
  - intros m Hs Hd. destruct (decide (m = n)) as [-> | Hne].
    + destruct (Hrec Hs Hd) as [E | ?]; [destruct E as [? E]; cbn in E; by rewrite lookup_empty in E | auto].
    + destruct (wf_kept0 m Hs Hd) as [? | ?]; [left; by rewrite lookup_delete_ne | auto].
  - intros m i p' [_ E]%lookup_delete_Some. by apply wf_roll0.
Qed.

Lemma wf_exit now q idle text w s t :
  wf w → is_Some (procs (sch w) !! q) → q ∉ exited w → monitor_exit now q idle text (sch w) = (s, t) →
  wf (mkWorld s ({[q]} ∪ exited w) (timers w ++ timer_of t) (waiters w)).
Proof.
  intros W [p Hp] Hx Hs. unfold monitor_exit in Hs. rewrite Hp in Hs. unfold current in Hs.
  destruct (bool_decide (agents (sch w) !! ac_Name (p_cfg p) = Some q)) eqn:Ha; bool_to_prop; cbn in Hs.
  2: { simplify_eq. rewrite app_nil_r. apply wf_orphan; [done | by exists p |]. intros n E.
       destruct (wf_heap w W n q E) as (p' & ? & <- & _). by simplify_eq. }
  destruct (stopping p || ctxDone (sch w) || negb (Enabled (supervisor (sch w)))) eqn:Hst.
  { simplify_eq. rewrite app_nil_r. apply wf_unpublish; [done.. |]. intros (_ & Hc & He) Hd.
    rewrite Hc, He in Hst. rewrite !orb_false_r in Hst.
    destruct (wf_roll w W _ q p Ha Hp Hst Hd); [do 4 right; by exists q, Draining | do 3 right; by left]. }
  destruct (desired (sch w) !! ac_Name (p_cfg p)) as [c |] eqn:Hd.
  2: { simplify_eq. rewrite app_nil_r. apply wf_unpublish; [done.. |]. intros _. rewrite Hd. by intros []%is_Some_None. }
  pose proof (wf_names w W _ c (or_introl Hd)) as [Hc _].
  assert (∀ st code reason a t w', wf w' → agents (sch w') !! ac_Name (p_cfg p) = None →
    is_Some (idleStopped (sch w') !! ac_Name (p_cfg p)) ∨ (∃ a, (ac_Name (p_cfg p), a) ∈ timers w') →
    wf (at_sched (set_lifecycle now (ac_Name (p_cfg p)) st code reason a t) w')) as Hlife.
  { intros st code reason a t' w' W' Hn Hor. apply wf_lifecycle; [done |]. right. split; [auto |]. intros i x E. by rewrite Hn in E. }
  destruct idle; injection Hs as <- <-.
  - rewrite app_nil_r. pose proof (wf_idle _ _ _ W Hd) as W1.
    refine (Hlife _ _ _ _ _ _ (wf_unpublish q p _ W1 Hp Ha _) _ _); cbn.
    + intros _ _. right; left. cbn. by rewrite lookup_insert_eq.
    + apply lookup_delete_eq.
    + left. by rewrite lookup_insert_eq.
  - assert (wf (mkWorld (sch w) (exited w) (timers w ++ timer_of (Some (c, (restartAttempts p + 1)%Z, 0%Z))) (waiters w))) as W1
      by (apply wf_grow; [done | set_solver | set_solver]).
    assert ((ac_Name (p_cfg p), (restartAttempts p + 1)%Z) ∈ timers w ++ [(ac_Name c, (restartAttempts p + 1)%Z)]) as Hin
      by (rewrite Hc; set_solver).
    refine (Hlife _ _ _ _ _ _ (wf_unpublish q p _ W1 Hp Ha _) _ _); cbn.
    + intros _ _. right; right; left. eexists. exact Hin.
    + apply lookup_delete_eq.
    + right. eexists. exact Hin.
Qed.

Lemma stop_all_spec l s :
  nextProc (stop_all l s) = nextProc s ∧
  ∀ i p, procs (stop_all l s) !! i = Some p →
    ∃ p0, procs s !! i = Some p0 ∧ p_cfg p = p_cfg p0 ∧ (stopping p = false → stopping p0 = false ∧ i ∉ l).
Proof.
  induction l as [| q l [IHn IH]]; cbn [stop_all foldr]; [split; [done |]; intros i p Hp; exists p; set_solver |].
  fold (stop_all l s). destruct (on_proc_fields (λ p, set_killed (set_stopping p)) q (stop_all l s)) as (_ & _ & _ & _ & Hn & _).
  split; [by rewrite Hn |]. intros i p (p1 & Hp & ->)%lookup_on_proc. destruct (IH i p1 Hp) as (p0 & Hp0 & Hc & Hst).
  exists p0. case_decide; split_and!; try done. intros E. destruct (Hst E). set_solver.
Qed.

Lemma wf_shutdown w : wf w → wf (at_sched SchedulerStop w).
Proof.
  intros W. pose proof W as []. destruct (stop_all_spec (snd <$> map_to_list (agents (sch w))) (sch w)) as [Hn Hs].
  constructor; cbn [at_sched sch exited timers waiters]; unfold SchedulerStop, supervised; cbn.
  - intros n q. by rewrite lookup_empty.
  - rewrite Hn. intros q [[p Hq] | Hq]; [| auto]. destruct (Hs q p Hq) as (p0 & Hp0 & _). eauto.
  - intros q p Hp Hx Hst. destruct (Hs q p Hp) as (p0 & Hp0 & Hc & Hst'). destruct (Hst' Hst) as [Hst0 Hin]. exfalso. apply Hin.
    destruct (wf_live0 q p0 Hp0 Hx Hst0) as [Ha _]. apply list_elem_of_fmap. exists (ac_Name (p_cfg p0), q). split; [done |].
    by apply elem_of_map_to_list.
  - intros n1 n2 q1 q2 p1 p2. by rewrite lookup_empty.
  - intros n c [E | E]; by rewrite lookup_empty in E.
  - intros n [E _]. done.
  - intros n q p. by rewrite lookup_empty.
Qed.

Lemma wf_restored l rest n q s b w :
  wf w → waiters w = l ++ (n, q, Restoring) :: rest → rollback_restore n (sch w) = (s, b) →
  wf (mkWorld s (exited w) (timers w) (l ++ rest)).
Proof.
  intros W Hw Hs. unfold rollback_restore in Hs. injection Hs as <- _.
  assert (∀ w', wf w' → waiters w' = waiters w →
    (supervised (sch w') → is_Some (desired (sch w') !! n) → is_Some (agents (sch w') !! n) ∨ is_Some (idleStopped (sch w') !! n)) →
    wf (mkWorld (sch w') (exited w') (timers w') (l ++ rest))) as Hdrop.
  { intros w' W' Hw' H. rewrite Hw in Hw'. apply (wf_waiter l rest n q Restoring [] w'); try done. intros _ Hsup Hd. destruct (H Hsup Hd); [by left | by right; left]. }
  destruct (desired (sch w) !! n) as [c |] eqn:Hd.
  - destruct (running (sch w) && negb (bool_decide (is_Some (agents (sch w) !! n)))) eqn:E.
    + apply (Hdrop _ (wf_idle n c w W Hd)); [done |]. intros _ _. right. cbn. by rewrite lookup_insert_eq.
    + apply (Hdrop w W); [done |]. intros (Hr & _) _. left. rewrite Hr in E. cbn in E. apply negb_false_iff, bool_decide_eq_true in E. done.
  - apply (Hdrop w W); [done |]. rewrite Hd. by intros _ []%is_Some_None.
Qed.

Lemma wf_fired l rest env now n a w s t b :
  wf w → timers w = l ++ (n, a) :: rest → restart_fired env now n a (sch w) = (s, t, b) →
  wf (mkWorld s (exited w) (l ++ rest ++ timer_of t) (waiters w)).
Proof.
  intros W Ht Hs. unfold restart_fired in Hs.
  assert (∀ w', wf w' → timers w' = timers w →
    (supervised (sch w') → is_Some (desired (sch w') !! n) →
       is_Some (agents (sch w') !! n) ∨ is_Some (idleStopped (sch w') !! n) ∨ invalid n (sch w')) →
    wf (mkWorld (sch w') (exited w') (l ++ rest ++ []) (waiters w'))) as Hdrop.
  { intros w' W' Hw' H. rewrite app_nil_r. rewrite Ht in Hw'. apply (wf_timer l rest n a w'); try done. intros Hsup Hd.
    destruct (H Hsup Hd) as [? | [? | ?]]; unfold recovering; auto. }
  destruct (ctxDone (sch w)) eqn:Hc; [simplify_eq; apply (Hdrop w W); [done |]; intros (_ & E & _); congruence |].
  destruct (desired (sch w) !! n) as [c |] eqn:Hd.
  2: { simplify_eq. apply (Hdrop w W); [done |]. rewrite Hd. by intros _ []%is_Some_None. }
  case_decide; [simplify_eq; apply (Hdrop w W); [done |]; auto |].
  case_decide; [simplify_eq; apply (Hdrop w W); [done |]; auto |].
  destruct (wf_names w W n c (or_introl Hd)) as [<- _].
  destruct (startAgentLocked env now c a (sch w)) as [s1 r] eqn:Es. apply startAgentLocked_spec in Es.
  assert (not_serving (ac_Name c) (sch w)) as Hns by (intros q p E; rewrite E in H; by destruct H).
  pose proof (wf_outcome _ _ _ _ _ _ W Hns Es) as W1.
  inversion Es; subst r s1; simplify_eq; cbn [timer_of].
  - apply (Hdrop _ W1); [done |]. intros _ _. left. cbn. match goal with H : ac_Name _ = ac_Name c |- _ => rewrite H end. by rewrite lookup_insert_eq.
  - apply (Hdrop _ W1); [done |]. intros _ _. right; right. unfold invalid. cbn. by rewrite lookup_insert_eq.
  - set (w1 := mkWorld (with_nextPort next (sch w)) (exited w) (timers w ++ [(ac_Name c, (a + 1)%Z)]) (waiters w)).
    assert (wf w1) as W2 by (apply (wf_grow _ _ _ W1); set_solver).
    assert (wf (mkWorld (with_nextPort next (sch w)) (exited w) (l ++ rest ++ [(ac_Name c, (a + 1)%Z)]) (waiters w))) as W3.
    { apply (wf_timer l (rest ++ [(ac_Name c, (a + 1)%Z)]) (ac_Name c) a w1 W2); [cbn; rewrite Ht, <- app_assoc; done |].
      intros _ _. right; right; left. exists (a + 1)%Z. cbn. set_solver. }
    refine (wf_lifecycle _ _ _ _ _ _ _ _ W3 _). right. split; cbn.
    + intros _. right; right. exists (a + 1)%Z. set_solver.
    + intros q p E. rewrite E in H. by destruct H.
Qed.

(** ** All steps *)

Lemma undesired_not_serving n w : wf w → desired (sch w) !! n = None → not_serving n (sch w).
Proof.
  intros W Hd q p Ha Hp. destruct (stopping p) eqn:Hst; [done |]. destruct (wf_heap w W n q Ha) as (p' & Hp' & <- & Hx). simplify_eq.
  destruct (wf_live w W q p Hp Hx Hst) as [_ E]. rewrite Hd in E. by destruct E.
Qed.

Lemma absent_not_serving n s : agents s !! n = None → not_serving n s.
Proof. intros Ha q p E. by rewrite Ha in E. Qed.

Lemma wf_waiting s ws w : wf (at_sched (λ _, s) w) → wf (mkWorld s (exited w) (timers w) (waiters w ++ ws)).
Proof. intros W. apply (wf_grow _ _ _ W); set_solver. Qed.

Lemma spawn_outcome env now c w s r :
  wf w → not_serving (ac_Name c) (sch w) → spawn env now c (sch w) = (s, r) → wf (at_sched (λ _, s) w).
Proof.
  intros W Hns. unfold spawn. destruct (startAgentLocked env now c 0 (sch w)) as [s1 o] eqn:E. apply startAgentLocked_spec in E.
  pose proof (wf_outcome _ _ _ _ _ _ W Hns E). by destruct o; intros [= <- <-].
Qed.

Lemma wf_ensure `{UnicodeTables} cp env now c card w s r : wf w → EnsureAgent cp env now c card (sch w) = (s, r) → wf (at_sched (λ _, s) w).
Proof.
  intros W Hs. unfold EnsureAgent in Hs. assert (wf (at_sched (λ _, sch w) w)) as W0 by (by destruct w).
  repeat case_in Hs; try exact W0.
  - eapply spawn_outcome; [exact W | | exact Hs]. apply absent_not_serving.
    match goal with E : desired _ !! _ = Some _ |- _ => destruct (wf_names w W _ _ (or_introl E)) as [-> _] end. done.
  - eapply spawn_outcome; [exact W | | exact Hs]. by apply undesired_not_serving.
Qed.

Lemma wf_start_agent env now c w s r : wf w → StartAgent env now c (sch w) = (s, r) → wf (at_sched (λ _, s) w).
Proof.
  intros W Hs. unfold StartAgent in Hs. assert (wf (at_sched (λ _, sch w) w)) as W0 by (by destruct w).
  destruct (running (sch w)); cbn in Hs; [| by simplify_eq]. repeat (case_decide; [by simplify_eq |]).
  destruct (startAgentLocked env now c 0 (sch w)) as [s1 o] eqn:E. apply startAgentLocked_spec in E.
  assert (not_serving (ac_Name c) (sch w)) as Hns by (apply absent_not_serving; by apply eq_None_not_Some).
  pose proof (wf_outcome _ _ _ _ _ _ W Hns E). by destruct o; simplify_eq.
Qed.

Lemma wf_instance env now sc base idx w s r : wf w → startOrWakeInstance env now sc base idx (sch w) = (s, r) → wf (at_sched (λ _, s) w).
Proof.
  intros W Hs. unfold startOrWakeInstance in Hs. assert (wf (at_sched (λ _, sch w) w)) as W0 by (by destruct w).
  destruct (running (sch w)); cbn in Hs; [| by simplify_eq]. repeat (case_decide; [by simplify_eq |]).
  destruct (desired (sch w) !! base) as [c |] eqn:Hd; [| by simplify_eq]. destruct sc; [by simplify_eq |].
  destruct (wf_names w W base c (or_introl Hd)) as [<- _].
  destruct (startAgentLocked env now (deriveInstanceConfig c idx) 0 (sch w)) as [s1 o] eqn:E. apply startAgentLocked_spec in E.
  assert (not_serving (ac_Name (deriveInstanceConfig c idx)) (sch w)) as Hns by (apply absent_not_serving; by apply eq_None_not_Some).
  pose proof (wf_outcome _ _ _ _ _ _ W Hns E). by destruct o; simplify_eq.
Qed.

Lemma wf_wake env now n w s r : wf w → ensureAwakeOnce env now n (sch w) = (s, r) → wf (at_sched (λ _, s) w).
Proof.
  intros W Hs. unfold ensureAwakeOnce in Hs. assert (wf (at_sched (λ _, sch w) w)) as W0 by (by destruct w).
  destruct (running (sch w)); cbn in Hs; [| by simplify_eq]. case_decide as Ha; [by simplify_eq |].
  destruct (idleStopped (sch w) !! n) as [c |] eqn:Hi; [| by simplify_eq].
  destruct (wf_names w W n c (or_intror Hi)) as [<- _].
  destruct (startAgentLocked env now (set_port 0 c) 0 (sch w)) as [s1 o] eqn:E. apply startAgentLocked_spec in E.
  assert (not_serving (ac_Name (set_port 0 c)) (sch w)) as Hns by (apply absent_not_serving; by apply eq_None_not_Some).
  pose proof (wf_outcome _ _ _ _ _ _ W Hns E) as W1. destruct o as [q | e]; simplify_eq; [| done].
  apply (wf_awake (ac_Name c) _ W1). inversion E; subst. cbn.
  match goal with H : ac_Name _ = ac_Name (set_port _ _) |- _ => cbn in H; rewrite H end. by rewrite lookup_insert_eq.
Qed.

Lemma wf_resolve n cid w s t i : wf w → resolveInstance n cid (sch w) = (s, t, i) → wf (at_sched (λ _, s) w).
Proof.
  intros W Hs. unfold resolveInstance, poolFor, acquire_instance in Hs. assert (wf (at_sched (λ _, sch w) w)) as W0 by (by destruct w).
  repeat case_in Hs; try exact W0; by destruct W; constructor.
Qed.

Lemma wf_unwell now q detail w : wf w → wf (at_sched (restartUnhealthyAgent now q detail) w).
Proof.
  intros W. unfold restartUnhealthyAgent, at_sched. assert (wf (at_sched (λ _, sch w) w)) as W0 by (by destruct w).
  destruct (procs (sch w) !! q) as [p |] eqn:Hp; [| exact W0].
  destruct (current q p (sch w)) eqn:Hc; cbn; [| exact W0]. destruct (stopping p) eqn:Hst; cbn; [exact W0 |].
  destruct (ctxDone (sch w) || negb (Enabled (supervisor (sch w)))); [exact W0 |].
  unfold current in Hc. bool_to_prop.
  set (f := λ p, set_killed (set_failure AgentLifecycleHealthFailed ("health check failed: " +:+ detail) p)).
  set (w1 := at_sched (set_lifecycle now (ac_Name (p_cfg p)) AgentLifecycleHealthFailed "health-threshold"
               ("health check failed: " +:+ detail) (restartAttempts p) zero_time) w).
  assert (wf w1) as W1.
  { apply wf_lifecycle; [done |]. right. split; [rewrite Hc; eauto |]. intros i x Hi Hx Hsx. rewrite Hi in Hc. simplify_eq. congruence. }
  assert (wf (at_sched (on_proc f q) w1)) as W2.
  { apply wf_on_proc; [done | done |]. intros n x Hn Hx Hsx. cbn in Hx. simplify_eq. cbn in Hsx. by rewrite Hst in Hsx. }
  revert W2. unfold at_sched, on_proc, w1. cbn. by rewrite Hp.
Qed.

Lemma wf_world_step `{UnicodeTables} l w w' : wf w → step l w w' → wf w'.
Proof.
  intros W Hstep. destruct Hstep.
  - by eapply (wf_start_agent _ _ _ w).
  - apply wf_waiting. by eapply wf_ensure.
  - apply wf_waiting. by eapply wf_instance.
  - by eapply (wf_resolve _ _ w).
  - by apply (wf_pool_objects (alter _ _ _)).
  - apply wf_waiting. by eapply wf_wake.
  - by eapply (wf_stopped _ _ w).
  - by eapply wf_exit.
  - by apply (wf_unwell now ptr detail w).
  - by eapply wf_fired.
  - by eapply (wf_waiter l rest name ptr Probing []).
  - unfold rollback_kill in H1. case_decide as Ha; simplify_eq.
    + apply (wf_stop_process name ptr (mkWorld (sch w) (exited w) (timers w) (l ++ (name, ptr, Draining) :: rest))); [| cbn; set_solver | done].
      by eapply (wf_waiter l rest name ptr Probing [_]).
    + by eapply (wf_waiter l rest name ptr Probing [_]).
  - eapply (wf_waiter l rest name ptr Draining [_]); try done. intros _. exists ptr, Restoring. set_solver.
  - by eapply wf_restored.
  - by apply wf_shutdown.
Qed.

(** ** The boot of the scheduler *)

Lemma outcome_running b d now c a s s' r :
  start_outcome now c a s s' r → start_outcome now c a (with_running b d s) (with_running b d s') r ∧ ctxDone s' = ctxDone s.
Proof.
  intros Ho. split; [| by destruct Ho].
  destruct Ho as [c' token next Hn Hf | code msg | next msg];
    [exact (so_started now c a (with_running b d s) c' token next Hn Hf) | exact (so_invalid now c a (with_running b d s) code msg)
    | exact (so_failed now c a (with_running b d s) next msg)].
Qed.

Definition booting (s : Sched) : Prop := wf (mkWorld (with_running true false s) ∅ [] []) ∧ ctxDone s = false.

Lemma booting_started now c s s' r :
  booting s → agents s !! ac_Name c = None → start_outcome now c 0 s s' r →
  booting s' ∧ ∀ n, is_Some (agents s' !! n) → n = ac_Name c ∨ is_Some (agents s !! n).
Proof.
  intros [W Hc] Ha Ho. destruct (outcome_running true false _ _ _ _ _ _ Ho) as [Ho' Hc'].
  pose proof (wf_outcome _ _ _ _ _ _ W (absent_not_serving _ _ Ha) Ho') as W'.
  split; [split; [exact W' | by rewrite Hc'] |]. intros n Hn. destruct Ho; cbn in Hn; [| auto..].
  destruct Hn as [q [[<- _] | [_ E]]%lookup_insert_Some]; eauto.
Qed.

Lemma booting_boot envs now cs s s' r :
  booting s → NoDup (ac_Name <$> cs) → (∀ n, is_Some (agents s !! n) → n ∉ ac_Name <$> cs) → boot envs now cs s = (s', r) → booting s'.
Proof.
  revert s. induction cs as [| c cs IH]; intros s Hb Hnd Hdis Hs; cbn in Hs; [by simplify_eq |].
  apply NoDup_cons in Hnd as [Hc Hnd]. case_decide; [| eapply IH; eauto; intros n Hn; specialize (Hdis n Hn); set_solver].
  assert (agents s !! ac_Name c = None) as Ha by (destruct (agents s !! ac_Name c) eqn:E; [| done]; destruct (Hdis (ac_Name c)); [by rewrite E | set_solver]).
  destruct (startAgentLocked (envs (ac_Name c)) now c 0 s) as [s1 o] eqn:E. apply startAgentLocked_spec in E.
  destruct (booting_started _ _ _ _ _ Hb Ha E) as [Hb1 Hag].
  assert (∀ n, is_Some (agents s1 !! n) → n ∉ ac_Name <$> cs) as Hdis1.
  { intros n Hn. destruct (Hag n Hn) as [-> | Hn']; [done |]. specialize (Hdis n Hn'). set_solver. }
  destruct o as [q | [m | m]]; [by eapply IH | by eapply IH | by simplify_eq].
Qed.

Lemma configured_fields now cs r token c (s := configured now cs r token c) :
  static s = cs ∧ procs s = ∅ ∧ agents s = ∅ ∧ desired s = ∅ ∧ idleStopped s = ∅ ∧ running s = false.
Proof.
  unfold s, configured. assert (∀ s0 l, let s := foldl (λ s c, set_lifecycle now (ac_Name c) AgentLifecycleStopped "configured-not-started"
    "configured but not started" 0 zero_time s) s0 l in
    static s = static s0 ∧ procs s = procs s0 ∧ agents s = agents s0 ∧ desired s = desired s0 ∧ idleStopped s = idleStopped s0 ∧
    running s = running s0) as Hf.
  { intros s0 l. revert s0. induction l as [| x l IH]; intros s0; cbn; [done |]. exact (IH _). }
  apply (Hf (mkSched cs r (Start r) ∅ 0 ∅ ∅ ∅ ∅ ∅ false true token c []) cs).
Qed.

Lemma wf_started_with cs w : distinct_names cs → started_with cs w → wf w.
Proof.
  intros Hnd [envs now r token c s Hs]. destruct (configured_fields now cs r token c) as (H1 & H2 & H3 & H4 & H5 & H6).
  unfold SchedulerStart in Hs. rewrite H6, H1 in Hs.
  destruct (boot envs now cs _) as [s1 o] eqn:E. destruct o; simplify_eq.
  assert (booting s1) as [W Hc]; [| by rewrite Hc].
  eapply booting_boot; [| exact Hnd | | exact E].
  - split; [| done]. constructor; cbn; rewrite ?H2, ?H3, ?H4, ?H5; try (intros *; rewrite ?lookup_empty; naive_solver).
    intros q [[? Hq] | Hq]; [by rewrite lookup_empty in Hq | set_solver].
  - cbn. rewrite H3. intros n [? Hn]. by rewrite lookup_empty in Hn.
Qed.

Lemma wf_reachable `{UnicodeTables} cs w : distinct_names cs → reachable cs w → wf w.
Proof. intros Hnd (w0 & H0 & Hr). eapply rtc_invariant; [| by eapply wf_started_with | exact Hr]. intros x y W [l Hl]. by eapply wf_world_step. Qed.
