(* ===== verification/SupervisorSpec.v ===== *)
(** * Theorems about supervision ([internal/scheduler/scheduler.go])

    The invariants of [SupervisorLaws] as guarantees to users of the scheduler, the
    spacing of the restarts and the health threshold. *)
From S2P Require Import Prelude GoBase GoStrings Registry InstancePool AgentLifecycle Supervisor SupervisorDrive SupervisorLaws.
From Stdlib Require Import ZArith Lia.

(** A process of the agent that nobody has told to stop. *)
Definition serving (n : string) (q : Z) (w : world) : Prop :=
  ∃ p, procs (sch w) !! q = Some p ∧ ac_Name (p_cfg p) = n ∧ (q ∉ exited w) ∧ stopping p = false.

(** The port of the published process of an agent. *)
Definition published_port (n : string) (w : world) : option Z := (agents (sch w) !! n) ≫= port_of (sch w).

(** Steps that do not ask for the agent to be started. *)
Definition quiet `{UnicodeTables} (n : string) : relation world := λ w w', ∃ l, l ≠ Some n ∧ step l w w'.

(** What an operator who stopped the agent relies on. *)
Record off (n : string) (s : Sched) : Prop := {
  off_desired : desired s !! n = None;
  off_idle : idleStopped s !! n = None;
  off_stopping : not_serving n s;
  off_lifecycle : State <$> lifecycle s !! n = Some AgentLifecycleStopped;
}.

(** ** A stopped agent *)

Lemma off_set_lifecycle now m n st code reason a t s : n ≠ m → off n s → off n (set_lifecycle now m st code reason a t s).
Proof. intros Hne []. constructor; [done.. |]. rewrite lookup_lifecycle. by rewrite decide_False by done. Qed.

Lemma off_outcome now c a n w s r : wf w → n ≠ ac_Name c → off n (sch w) → start_outcome now c a (sch w) s r → off n s.
Proof.
  intros W Hne Hoff Ho. destruct Ho as [c' token next Hn Hf | code msg | next msg].
  - rewrite <- Hn in Hne. destruct Hoff as [Hd Hi Hs Hl]. constructor; cbn; [by rewrite lookup_insert_ne | done | | done].
    intros q p Ha Hp. cbn in Ha, Hp. apply lookup_insert_Some in Ha as [[? _] | [_ Ha]]; [done |]. destruct (wf_heap w W n q Ha) as (p' & Hp' & _).
    pose proof (wf_next w W q (or_introl (ex_intro _ _ Hp'))). rewrite lookup_insert_ne in Hp by lia. by apply (Hs q).
  - apply off_set_lifecycle; [done |]. destruct Hoff as [Hd Hi Hs Hl]. constructor; [cbn; by rewrite lookup_insert_ne | done..].
  - by destruct Hoff.
Qed.

Lemma off_on_proc f q n s : keeps f → off n s → off n (on_proc f q s).
Proof.
  intros Hf []. destruct (on_proc_fields f q s) as (Ha & Hd & Hi & Hl & _). constructor; rewrite ?Hd, ?Hi, ?Hl; [done.. | | done].
  intros i p. rewrite Ha. intros E (p0 & Hp & ->)%lookup_on_proc. pose proof (off_stopping0 i p0 E Hp).
  case_decide; [by apply Hf | done].
Qed.

Lemma off_forget m n s : off n s → off n (forget m s).
Proof. intros []. constructor; cbn; [apply lookup_delete_None; auto.. | done | done]. Qed.

Lemma off_idle_insert m c n s : n ≠ m → off n s → off n (with_idle (<[m := c]> (idleStopped s)) s).
Proof. intros Hne []. constructor; cbn; [done | by rewrite lookup_insert_ne | done | done]. Qed.

Lemma off_unpublish m n s : off n s → off n (with_agents (delete m (agents s)) s).
Proof. intros []. constructor; cbn; [done.. | | done]. intros q p E. cbn in E. apply lookup_delete_Some in E as [_ E]. by apply off_stopping0. Qed.

Lemma off_spawn env now c n w s r : wf w → n ≠ ac_Name c → off n (sch w) → spawn env now c (sch w) = (s, r) → off n s.
Proof.
  intros W Hne Hoff. unfold spawn. destruct (startAgentLocked env now c 0 (sch w)) as [s1 o] eqn:E. apply startAgentLocked_spec in E.
  pose proof (off_outcome _ _ _ _ _ _ _ W Hne Hoff E). by destruct o; intros [= <- <-].
Qed.

Lemma off_wake env now m n w s r : wf w → off n (sch w) → ensureAwakeOnce env now m (sch w) = (s, r) → off n s.
Proof.
  intros W Hoff Hs. unfold ensureAwakeOnce in Hs. destruct (running (sch w)); cbn in Hs; [| by simplify_eq].
  case_decide; [by simplify_eq |]. destruct (idleStopped (sch w) !! m) as [c |] eqn:Hi; [| by simplify_eq].
  destruct (wf_names w W m c (or_intror Hi)) as [Hc _].
  destruct (startAgentLocked env now (set_port 0 c) 0 (sch w)) as [s1 o] eqn:E. apply startAgentLocked_spec in E.
  assert (n ≠ m) as Hne by (intros ->; destruct Hoff; congruence).
  assert (off n s1) as H1 by (refine (off_outcome _ (set_port 0 c) _ _ _ _ _ W _ Hoff E); cbn; by rewrite Hc).
  destruct o; simplify_eq; [| done]. destruct H1. constructor; cbn; [done | apply lookup_delete_None; auto | done | done].
Qed.

Lemma off_exit now q idle text n s s' t : off n s → monitor_exit now q idle text s = (s', t) → off n s'.
Proof.
  intros Hoff Hs. unfold monitor_exit in Hs. destruct (procs s !! q) as [p |]; [| by simplify_eq].
  destruct (current q p s); cbn in Hs; [| by simplify_eq]. pose proof (off_unpublish (ac_Name (p_cfg p)) n s Hoff) as Hoff1.
  destruct (stopping p || _ || _); [by simplify_eq |]. destruct (desired s !! ac_Name (p_cfg p)) as [c |] eqn:Hd; [| by simplify_eq].
  assert (n ≠ ac_Name (p_cfg p)) as Hne by (intros ->; destruct Hoff; congruence).
  destruct idle; injection Hs as <- _; (apply off_set_lifecycle; [done |]); [| done]. by apply (off_idle_insert _ _ _ _ Hne Hoff1).
Qed.

Lemma off_unwell now q detail n s : off n s → off n (restartUnhealthyAgent now q detail s).
Proof.
  intros Hoff. unfold restartUnhealthyAgent. destruct (procs s !! q) as [p |] eqn:Hp; [| done].
  destruct (current q p s) eqn:Hc; cbn; [| done]. destruct (stopping p) eqn:Hst; cbn; [done |].
  destruct (ctxDone s || _); [done |]. unfold current in Hc. bool_to_prop.
  assert (n ≠ ac_Name (p_cfg p)) as Hne by (intros ->; pose proof (off_stopping _ _ Hoff q p Hc Hp); congruence).
  set (f := λ p, set_killed (set_failure AgentLifecycleHealthFailed ("health check failed: " +:+ detail) p)).
  assert (off n (on_proc f q (set_lifecycle now (ac_Name (p_cfg p)) AgentLifecycleHealthFailed "health-threshold"
    ("health check failed: " +:+ detail) (restartAttempts p) zero_time s))) as H by (apply off_on_proc; [done | by apply off_set_lifecycle]).
  revert H. unfold on_proc. cbn. by rewrite Hp.
Qed.

Lemma off_fire env now m a n w s t b : wf w → off n (sch w) → restart_fired env now m a (sch w) = (s, t, b) → off n s.
Proof.
  intros W Hoff Hs. unfold restart_fired in Hs. destruct (ctxDone (sch w)); [by simplify_eq |].
  destruct (desired (sch w) !! m) as [c |] eqn:Hd; [| by simplify_eq]. repeat (case_decide; [by simplify_eq |]).
  destruct (wf_names w W m c (or_introl Hd)) as [Hc _]. assert (n ≠ m) as Hne by (intros ->; destruct Hoff; congruence).
  destruct (startAgentLocked env now c a (sch w)) as [s1 o] eqn:E. apply startAgentLocked_spec in E.
  assert (off n s1) as H1 by (eapply off_outcome; [exact W | by rewrite Hc | exact Hoff | exact E]).
  destruct o as [| []]; simplify_eq; [done.. |]. by apply off_set_lifecycle.
Qed.

Lemma off_shutdown n s : off n s → off n (SchedulerStop s).
Proof.
  intros [Hd Hi Hs Hl]. constructor; cbn; [apply lookup_empty.. | |].
  - intros q p. cbn. by rewrite lookup_empty.
  - assert (∀ l, lifecycle (stop_all l s) = lifecycle s) as ->; [| done]. intros l. induction l as [| q l IH]; [done |]. cbn.
    fold (stop_all l s). by destruct (on_proc_fields (λ p, set_killed (set_stopping p)) q (stop_all l s)) as (_ & _ & _ & -> & _).
Qed.

Lemma off_step `{UnicodeTables} n l w w' : wf w → off n (sch w) → l ≠ Some n → step l w w' → off n (sch w').
Proof.
  intros W Hoff Hl Hstep. destruct Hstep; cbn [sch] in *; try assumption.
  - unfold StartAgent in H0. destruct (running (sch w)); cbn in H0; [| by simplify_eq]. repeat (case_decide; [by simplify_eq |]).
    destruct (startAgentLocked env now c 0 (sch w)) as [s1 o] eqn:E. apply startAgentLocked_spec in E.
    assert (off n s1) by (eapply off_outcome; [exact W | | exact Hoff | exact E]; congruence). by destruct o; simplify_eq.
  - unfold EnsureAgent in H0. repeat case_in H0; try done; (eapply off_spawn; [exact W | | exact Hoff | exact H0]); [| congruence].
    match goal with E : desired _ !! _ = Some _ |- _ => destruct (wf_names w W _ _ (or_introl E)) as [-> _] end. congruence.
  - unfold startOrWakeInstance in H0. destruct (running (sch w)); cbn in H0; [| by simplify_eq]. repeat (case_decide; [by simplify_eq |]).
    destruct (desired (sch w) !! base) as [c |] eqn:Hd; [| by simplify_eq]. destruct scaffold; [by simplify_eq |].
    destruct (wf_names w W base c (or_introl Hd)) as [Hc _].
    destruct (startAgentLocked env now (deriveInstanceConfig c idx) 0 (sch w)) as [s1 o] eqn:E. apply startAgentLocked_spec in E.
    assert (off n s1) by (eapply off_outcome; [exact W | | exact Hoff | exact E]; cbn; congruence). by destruct o; simplify_eq.
  - unfold resolveInstance, poolFor, acquire_instance in H0. repeat case_in H0; try done; by destruct Hoff.
  - by destruct Hoff.
  - by eapply off_wake.
  - unfold StopAgent in H0. assert (off n (forget name (sch w))) as Hf by by apply off_forget.
    assert (∀ s1, off n s1 → off n (set_lifecycle now name AgentLifecycleStopped "operator-stopped" "stopped by operator" 0 zero_time s1)) as Hset.
    { intros s1 []. constructor; [done.. |]. rewrite lookup_lifecycle. by destruct (decide (name = n)). }
    destruct (agents (sch w) !! name); simplify_eq; [| case_decide; [by apply (Hset (forget name (sch w))) | exact Hf]].
    apply (off_on_proc _ _ n (set_lifecycle now name _ _ _ _ _ (forget name (sch w)))); [exact keeps_stop | by apply Hset].
  - by eapply off_exit.
  - by apply off_unwell.
  - by eapply off_fire.
  - unfold rollback_kill in H1. case_decide; simplify_eq; [| done]. by apply off_on_proc.
  - unfold rollback_restore in H1. simplify_eq. destruct (desired (sch w) !! name) as [c |] eqn:Hd; [| done].
    destruct (_ && _); [| done]. apply off_idle_insert; [| done]. intros ->. destruct Hoff; congruence.
  - by apply off_shutdown.
Qed.

Lemma off_stopped now n w s r :
  wf w → is_Some (desired (sch w) !! n) ∨ is_Some (lifecycle (sch w) !! n) ∨ is_Some (agents (sch w) !! n) →
  StopAgent now n (sch w) = (s, r) → off n s.
Proof.
  intros W Hk Hs. pose proof Hs as Hs'. apply (wf_stopped _ _ _ _ _ W) in Hs'.
  assert (desired s !! n = None ∧ idleStopped s !! n = None ∧ State <$> lifecycle s !! n = Some AgentLifecycleStopped) as (Hd & Hi & Hl).
  { unfold StopAgent in Hs. destruct (agents (sch w) !! n) as [q |] eqn:Ha; simplify_eq.
    - destruct (on_proc_fields (λ p, set_killed (set_stopping p)) q (set_lifecycle now n AgentLifecycleStopped "operator-stopped"
        "stopped by operator" 0 zero_time (forget n (sch w)))) as (_ & Hd & Hi & Hl & _).
      unfold forget in Hd, Hi, Hl. rewrite Hd, Hi, Hl, lookup_lifecycle, decide_True by done. cbn. by rewrite !lookup_delete_eq.
    - rewrite decide_True by (destruct Hk as [? | [? | [? E]]]; auto; congruence). rewrite lookup_lifecycle, decide_True by done.
      cbn. by rewrite !lookup_delete_eq. }
  constructor; [done.. | | done]. by apply (undesired_not_serving n (at_sched (λ _, s) w)).
Qed.

Section properties.
Context `{UnicodeTables} (cs : list AgentConfig).


(** (C12) Every desired agent of a running, supervising scheduler has a process that
    has not been told to stop, or is idle and can be woken, or has a restart pending
    or a failed start being rolled back, or is known to have an invalid
    configuration (one entry being configured for each name): no interleaving of exits, failed restarts, wakes, health
    failures, registrations and stops forgets an agent. *)
Theorem no_agent_forgotten w n :
  distinct_names cs → reachable cs w → supervised (sch w) → is_Some (desired (sch w) !! n) →
  (∃ q, serving n q w) ∨ is_Some (idleStopped (sch w) !! n) ∨ (∃ a, (n, a) ∈ timers w) ∨ rolling n (waiters w) ∨ invalid n (sch w).
Proof.
  intros Hc Hr Hs Hd. pose proof (wf_reachable cs w Hc Hr) as W. destruct (wf_kept w W n Hs Hd) as [[q Ha] | [? | [? | [? | ?]]]]; auto.
  destruct (wf_heap w W n q Ha) as (p & Hp & Hn & Hx). destruct (stopping p) eqn:Hst; [| left; by exists q, p].
  destruct (wf_roll w W n q p Ha Hp Hst Hd); [| by auto]. do 3 right. left. by exists q, Draining.
Qed.

(** (C14) In a scheduler configured with one entry for each agent name, at any time an
    agent has at most one process that has not been told to
    stop, that process is the published one, and the published processes of
    different agents were given different ports. *)
Theorem one_runtime_per_agent w n m q1 q2 :
  distinct_names cs → reachable cs w →
  (serving n q1 w → serving n q2 w → q1 = q2 ∧ agents (sch w) !! n = Some q1) ∧
  (n ≠ m → is_Some (published_port n w) → published_port n w ≠ published_port m w).
Proof.
  intros Hc Hr. pose proof (wf_reachable cs w Hc Hr) as W. split.
  - intros (p1 & Hp1 & <- & Hx1 & Hs1) (p2 & Hp2 & Hn & Hx2 & Hs2).
    destruct (wf_live w W q1 p1 Hp1 Hx1 Hs1) as [E1 _], (wf_live w W q2 p2 Hp2 Hx2 Hs2) as [E2 _]. rewrite Hn in E2. by simplify_eq.
  - intros Hne [x Hx] E. rewrite Hx in E. symmetry in E. unfold published_port, port_of in Hx, E.
    apply bind_Some in Hx as (i & Hi & (p & Hp & Hport1)%fmap_Some), E as (j & Hj & (p' & Hp' & Hport)%fmap_Some).
    cbn in Hport, Hport1. apply (wf_ports w W n m i j p p'); congruence.
Qed.
End properties.

(** ** Spacing of the restarts *)

Definition initial_of (c : supervisorConfig) : duration := if (InitialBackoff c <=? 0)%Z then Second else InitialBackoff c.
Definition max_of (c : supervisorConfig) : duration := if (MaxBackoff c <=? 0)%Z then (30 * Second)%Z else MaxBackoff c.

Lemma backoff_loop_spec n d m : (0 < d < 2 ^ 62)%Z → (0 < m <= 2 ^ 62)%Z → backoff_loop n d m = Z.min m (d * 2 ^ Z.of_nat n).
Proof.
  revert d. induction n as [| n IH]; intros d Hd Hm; cbn [backoff_loop].
  - rewrite Z.mul_1_r. destruct (m <? d)%Z eqn:E; bool_to_prop; lia.
  - assert (i64 (d * 2) = d * 2)%Z as -> by (apply i64_small; unfold min_int64, max_int64; lia). rewrite Nat2Z.inj_succ, Z.pow_succ_r by lia.
    assert (1 <= 2 ^ Z.of_nat n)%Z by (pose proof (Z.pow_pos_nonneg 2 (Z.of_nat n)); lia).
    destruct (m <=? d * 2)%Z eqn:E; bool_to_prop; [nia |]. rewrite IH by lia. f_equal. lia.
Qed.

(** The delay before restart attempt [n + 1] is the initial delay doubled [n]
    times and capped by the maximum; it never decreases with the attempts, and is
    always positive. For delays below 2^62 nanoseconds (146 years) the doubling
    does not overflow, whatever the number of attempts. *)
Lemma restart_backoff_capped c n :
  (InitialBackoff c < 2 ^ 62)%Z → (MaxBackoff c <= 2 ^ 62)%Z →
  restartBackoff c (Z.of_nat n + 1) = Z.min (max_of c) (initial_of c * 2 ^ Z.of_nat n) ∧
  (0 < restartBackoff c (Z.of_nat n + 1) <= restartBackoff c (Z.of_nat n + 2))%Z ∧ (restartBackoff c (Z.of_nat n + 2) <= max_of c)%Z.
Proof.
  intros Hi Hm.
  assert (0 < initial_of c < 2 ^ 62)%Z as Hi'.
  { unfold initial_of. destruct (InitialBackoff c <=? 0)%Z eqn:E; bool_to_prop; [by vm_compute | lia]. }
  assert (0 < max_of c <= 2 ^ 62)%Z as Hm'.
  { unfold max_of. destruct (MaxBackoff c <=? 0)%Z eqn:E; bool_to_prop; [by vm_compute | lia]. }
  assert (∀ k, restartBackoff c (Z.of_nat k + 1) = Z.min (max_of c) (initial_of c * 2 ^ Z.of_nat k)) as H.
  { intros k. unfold restartBackoff. fold (initial_of c) (max_of c). rewrite backoff_loop_spec by done.
    by replace (Z.of_nat (Z.to_nat (Z.of_nat k + 1 - 1))) with (Z.of_nat k) by lia. }
  split; [apply H |]. replace (Z.of_nat n + 2)%Z with (Z.of_nat (S n) + 1)%Z by lia. rewrite !H.
  rewrite Nat2Z.inj_succ, Z.pow_succ_r by lia. assert (1 <= 2 ^ Z.of_nat n)%Z by (pose proof (Z.pow_pos_nonneg 2 (Z.of_nat n)); lia).
  nia.
Qed.

(** ** Health *)

Definition threshold_of (c : supervisorConfig) : Z := if (HealthFailureThreshold c <=? 0)%Z then 3 else HealthFailureThreshold c.

(** The last [t] of the first [k] answers are failures. *)
Definition failing_run (t : nat) (answers : list bool) (k : nat) : Prop :=
  t ≤ k ∧ ∀ i, k ≤ i + t → i < k → answers !! i = Some false.

(** The first such run ends after [k] answers. *)
Definition first_failing_run (t : nat) (answers : list bool) (k : nat) : Prop :=
  failing_run t answers k ∧ ∀ j, j < k → ¬ failing_run t answers j.

Lemma run_reset t f l k : failing_run (S t) (replicate f false ++ true :: l) (f + S k) ↔ failing_run (S t) l k.
Proof.
  assert (∀ i, (replicate f false ++ true :: l) !! (f + S i) = l !! i) as Hl.
  { intros i. rewrite lookup_app_r by (rewrite length_replicate; lia). rewrite length_replicate. by replace (f + S i - f) with (S i) by lia. }
  split; intros [Hle H].
  - assert (S t ≤ k) as Hk.
    { destruct (decide (S t ≤ k)) as [? | Hn]; [done |]. exfalso. specialize (H f ltac:(lia) ltac:(lia)).
      rewrite lookup_app_r in H by (rewrite length_replicate; lia). rewrite length_replicate, Nat.sub_diag in H. done. }
    split; [done |]. intros i H1 H2. rewrite <- Hl. apply H; lia.
  - split; [lia |]. intros i H1 H2. replace i with (f + S (i - S f)) by lia. rewrite Hl. apply H; lia.
Qed.

Lemma run_early t f l j : j ≤ t → ¬ failing_run (S t) (replicate f false ++ l) j.
Proof. intros Hj [? _]. lia. Qed.

Lemma run_replicate t f l : f = S t → failing_run (S t) (replicate f false ++ l) f.
Proof. intros ->. split; [done |]. intros i _ Hi. rewrite lookup_app_l by (by rewrite length_replicate). by rewrite lookup_replicate_2. Qed.

Lemma first_reset t f l k :
  f ≤ t → first_failing_run (S t) (replicate f false ++ true :: l) (f + S k) ↔ first_failing_run (S t) l k.
Proof.
  intros Hf. unfold first_failing_run. rewrite run_reset. split; intros [H1 H2]; split; try done; intros j Hj.
  - rewrite <- (run_reset t f). apply H2. lia.
  - intros Hr. destruct (decide (j ≤ t)); [by eapply run_early |]. replace j with (f + S (j - S f)) in Hr by lia.
    rewrite run_reset in Hr. apply (H2 (j - S f)); [lia | done].
Qed.

Lemma watch_loop_spec t f l k :
  f ≤ t → (watch_loop (Z.of_nat (S t)) (Z.of_nat f) l = Some k) ↔ (k ≠ 0 ∧ first_failing_run (S t) (replicate f false ++ l) (f + k)).
Proof.
  revert f k. induction l as [| ok l IH]; intros f k Hf; cbn [watch_loop].
  - split; [done |]. intros [Hk [[Hle H] _]]. specialize (H (f + k - 1) ltac:(lia) ltac:(lia)).
    rewrite app_nil_r in H. apply lookup_replicate in H as [_ ?]. lia.
  - destruct ok; cbn [negb andb].
    + change 0%Z with (Z.of_nat 0). destruct k as [| k].
      * split; [| naive_solver]. by destruct (watch_loop _ _ l).
      * rewrite first_reset by done. specialize (IH 0 k ltac:(lia)). cbn in IH.
        destruct (watch_loop (Z.of_nat (S t)) (Z.of_nat 0) l) as [k' |] eqn:E; cbn.
        -- split; [intros [= ->]; by destruct (proj1 IH eq_refl) |]. intros [_ Hr].
           destruct (decide (k = 0)) as [-> | Hk]; [destruct Hr as [[? _] _]; lia |]. f_equal. f_equal. assert (Some k' = Some k) by (by apply IH). congruence.
        -- split; [done |]. intros [_ Hr]. destruct (decide (k = 0)) as [-> | Hk]; [destruct Hr as [[? _] _]; lia |].
           by assert (None = Some k) by (by apply IH).
    + replace (Z.of_nat f + 1)%Z with (Z.of_nat (S f)) by lia.
      assert (replicate f false ++ false :: l = replicate (S f) false ++ l) as Hrep by (rewrite cons_middle, app_assoc, <- replicate_S_end; done).
      rewrite Hrep. destruct (Z.of_nat (S t) <=? Z.of_nat (S f))%Z eqn:E; bool_to_prop; cbn.
      * assert (f = t) as -> by lia. split.
        -- intros [= <-]. split; [done |]. replace (t + 1) with (S t) by lia. split; [exact (run_replicate t (S t) l eq_refl) |]. intros j Hj. apply (run_early t (S t) l). lia.
        -- intros [Hk [_ Hr]]. destruct (decide (k = 1)) as [-> | ?]; [done |]. destruct (Hr (S t)); [lia | exact (run_replicate t (S t) l eq_refl)].
      * assert (k ≠ 0 ∧ first_failing_run (S t) (replicate (S f) false ++ l) (f + k) ↔
          ∃ k', k = S k' ∧ watch_loop (Z.of_nat (S t)) (Z.of_nat (S f)) l = Some k') as ->.
        { split; [intros [Hk Hr] | intros (k' & -> & Hw); apply (IH (S f) k' ltac:(lia)) in Hw as [Hk' Hr]].
          - destruct k as [| k]; [done |]. exists k. split; [done |]. apply IH; [lia |].
            replace (S f + k) with (f + S k) by lia. split; [| done]. intros ->. destruct Hr as [[? _] _]. lia.
          - split; [done |]. by replace (f + S k') with (S f + k') by lia. }
        destruct (watch_loop _ _ l); cbn; naive_solver.
Qed.

(** The health watcher of a process gives up exactly when the configured
    number of consecutive probes (three, by default) has failed for the first time
    since it started: neither earlier failures that a success interrupted nor any
    number of them spread out ever restart the agent, and the first run is never
    missed. *)
Lemma watch_gives_up_at_threshold c answers k :
  watchAgentHealth c answers = Some k ↔ first_failing_run (Z.to_nat (threshold_of c)) answers k.
Proof.
  unfold watchAgentHealth. fold (threshold_of c).
  assert (0 < threshold_of c)%Z as Ht by (unfold threshold_of; destruct (_ <=? _)%Z eqn:E; bool_to_prop; lia).
  destruct (Z.to_nat (threshold_of c)) as [| t] eqn:E; [lia |]. replace (threshold_of c) with (Z.of_nat (S t)) by lia.
  rewrite (watch_loop_spec t 0 answers k ltac:(lia)). cbn. split; [by intros [_ ?] |]. intros Hr. split; [| done].
  intros ->. destruct Hr as [[? _] _]. lia.
Qed.

(** ** The theorems at concrete inputs *)

Definition demo_env : start_env := mkStartEnv None (λ _, Free) (inl "token") None.
Definition demo_agent (name : string) : AgentConfig := mkConfig name ("/srv/" +:+ name) "" 0 1 "" "" "".
Definition demo_agents : list AgentConfig := demo_agent <$> ["coder"; "writer"].
Definition demo_sched : Sched :=
  (SchedulerStart (λ _, demo_env) 0 (configured 0 demo_agents (mkRange 9802 9810) "admin" defaultSupervisorConfig)).1.
Definition demo : world := mkWorld demo_sched ∅ [] [].

(** The coder has crashed. *)
Definition demo_crashed : world :=
  mkWorld (monitor_exit 5 0 false "exit status 1" demo_sched).1 {[0%Z]} [("coder", 1%Z)] [].

Definition demo_stopped : world := mkWorld (StopAgent 9 "coder" (sch demo_crashed)).1 {[0%Z]} [("coder", 1%Z)] [].

Section witnesses.
#[local] Existing Instance ascii_tables.

Lemma demo_distinct : distinct_names demo_agents.
Proof. vm_compute. apply NoDup_cons_2; [set_solver | apply NoDup_singleton]. Qed.

Lemma demo_reachable : reachable demo_agents demo.
Proof.
  exists demo. split; [| apply rtc_refl]. apply (started_world _ (λ _, demo_env) 0 (mkRange 9802 9810) "admin" defaultSupervisorConfig).
  vm_compute. reflexivity.
Qed.

(** Two entries of one name are both started; the second takes the place of the first,
    whose process is then told nothing when the agent is stopped. *)
Lemma duplicate_name_left_running :
  let cs := demo_agent <$> ["coder"; "coder"] in
  let s := (SchedulerStart (λ _, demo_env) 0 (configured 0 cs (mkRange 9802 9810) "admin" defaultSupervisorConfig)).1 in
  let w := mkWorld (StopAgent 9 "coder" s).1 ∅ [] [] in
  reachable cs (mkWorld s ∅ [] []) ∧ agents s !! "coder" = Some 1%Z ∧ desired (sch w) !! "coder" = None ∧ serving "coder" 0 w.
Proof.
  split_and!; [| by vm_compute | by vm_compute |].
  - eexists. split; [| apply rtc_refl]. apply (started_world _ (λ _, demo_env) 0 (mkRange 9802 9810) "admin" defaultSupervisorConfig). by vm_compute.
  - eexists. split_and!; [vm_compute; reflexivity | reflexivity | set_solver | reflexivity].
Qed.

Lemma demo_crashed_reachable : reachable demo_agents demo_crashed.
Proof.
  destruct demo_reachable as (w0 & H0 & Hr). exists w0. split; [done |]. eapply rtc_r; [exact Hr |]. exists None.
  change demo_crashed with (mkWorld (sch demo_crashed) ({[0%Z]} ∪ ∅) ([] ++ [("coder", 1%Z)]) []).
  apply (s_exit demo 5 0 false "exit status 1" (sch demo_crashed) (Some (mkConfig "coder" "/srv/coder" "" 9802 1 "" "token" "admin", 1%Z, Second))).
  - vm_compute. eauto.
  - set_solver.
  - vm_compute. reflexivity.
Qed.


Lemma no_agent_forgotten_witness :
  agents (sch demo_crashed) !! "coder" = None ∧
  ((∃ q, serving "coder" q demo_crashed) ∨ is_Some (idleStopped (sch demo_crashed) !! "coder") ∨ (∃ a, ("coder", a) ∈ timers demo_crashed) ∨
   rolling "coder" (waiters demo_crashed) ∨ invalid "coder" (sch demo_crashed)).
Proof.
  split; [reflexivity |]. apply (no_agent_forgotten demo_agents demo_crashed "coder"); [exact demo_distinct | exact demo_crashed_reachable | split_and!; reflexivity | vm_compute; eauto].
Defined.

Lemma one_runtime_per_agent_witness :
  published_port "coder" demo = Some 9802%Z ∧ published_port "writer" demo = Some 9803%Z ∧ published_port "coder" demo ≠ published_port "writer" demo.
Proof.
  split_and!; [vm_compute; reflexivity.. |].
  apply (one_runtime_per_agent demo_agents demo "coder" "writer" 0 0); [exact demo_distinct | exact demo_reachable | done | vm_compute; eauto].
Defined.

Lemma restart_backoff_capped_witness :
  restartBackoff defaultSupervisorConfig (Z.of_nat 3 + 1) = (8 * Second)%Z ∧ restartBackoff defaultSupervisorConfig (Z.of_nat 70 + 1) = (30 * Second)%Z.
Proof.
  split.
  - destruct (restart_backoff_capped defaultSupervisorConfig 3) as [H _]; [vm_compute; reflexivity | vm_compute; discriminate |].
    rewrite H. vm_compute. reflexivity.
  - destruct (restart_backoff_capped defaultSupervisorConfig 70) as [H _]; [vm_compute; reflexivity | vm_compute; discriminate |].
    rewrite H. vm_compute. reflexivity.
Defined.
End witnesses.
