(* ===== verification/Preflight.v ===== *)
(** * Checking required paths before a dispatch ([internal/scheduler/filesystem_preflight.go])

    A dispatch may name the paths that its task needs; the scheduler accepts it only
    when the card of the managed agent allows every one of them. Symbolic links and
    the working directory are parameters. *)
From S2P Require Import Prelude GoBase GoStrings InstancePool AgentLifecycle IdleMonitor LifecycleConfig Paths Runtime Card Supervisor.
From Stdlib Require Import ZArith Lia Ascii.
Import InstanceName.

(** [FilesystemPreflightError]; the cause is not part of its text. *)
Record FilesystemPreflightError := mkPreflight { Code : string; Agent : string; Path : string; Cause : option string }.

Definition preflight_text (e : FilesystemPreflightError) : string :=
  if decide (Code e = "filesystem_disabled") then "agent " +:+ Agent e +:+ " has filesystem access disabled; cannot access " +:+ Path e
  else if decide (Code e = "filesystem_path_invalid") then "required filesystem path " +:+ Path e +:+ " is invalid or unavailable"
  else if decide (Code e = "filesystem_policy_unavailable")
  then "filesystem policy for agent " +:+ Agent e +:+ " is unavailable; cannot verify " +:+ Path e
  else "agent " +:+ Agent e +:+ " cannot access " +:+ Path e +:+ "; select or reconfigure a project-scoped agent".

Section preflight.
(** [load] is [Load] of the card in a workspace; [upload] is [ResolveUploadDir()]. *)
Context (Getwd : string + string) (EvalSymlinks : string → string + string) (load : string → AgentCardConfig + string) (upload : string).

Definition canonicalFilesystemPath (base path : string) : string + string :=
  let path := if IsAbs path then path else JoinPath base path in
  match (if IsAbs (Clean path) then inl "" else Getwd) with
  | inr err => inr err
  | inl cwd => EvalSymlinks (Abs cwd (Clean path))
  end.

(** The configuration of a managed agent: the desired one, or else the first local
    agent of that name in the configuration file. *)
Definition managed_config (s : Sched) (baseName : string) : option AgentConfig :=
  match desired s !! baseName with
  | Some cfg => Some cfg
  | None => head (filter (λ c, ac_Name c = baseName ∧ Supervisor.Remote c = "") (static s))
  end.

Definition baseNameOf (agentName : string) : string :=
  let '(base, _, ok) := parseInstanceName agentName in if ok then base else agentName.

(** The allowed roots that resolve. *)
Definition canonicalAllowed (workdir : string) (c : AgentCardConfig) : list string :=
  omap (λ root, match canonicalFilesystemPath workdir root with inl p => Some p | inr _ => None end) (AllowedPaths (Filesystem c) ++ [upload]).

Fixpoint check_required (name workdir : string) (roots required : list string) : option FilesystemPreflightError :=
  match required with
  | [] => None
  | p :: required =>
      if negb (nonempty (TrimSpace p)) then Some (mkPreflight "filesystem_path_invalid" name p None)
      else match canonicalFilesystemPath workdir p with
      | inr err => Some (mkPreflight "filesystem_path_invalid" name p (Some err))
      | inl canonical =>
          if existsb (λ root, pathContainedBy root canonical) roots then check_required name workdir roots required
          else Some (mkPreflight "filesystem_access_denied" name p None)
      end
  end.

Definition workdir_of (cfg : AgentConfig) : string := if nonempty (Workdir cfg) then Workdir cfg else Workspace cfg.

Definition PreflightFilesystem (s : Sched) (agentName : string) (requiredPaths : list string) : option FilesystemPreflightError :=
  match requiredPaths with
  | [] => None
  | first :: _ =>
      let name := baseNameOf agentName in
      match managed_config s name with
      | None => Some (mkPreflight "filesystem_policy_unavailable" name first None)
      | Some cfg =>
          if negb (nonempty (Workspace cfg)) then Some (mkPreflight "filesystem_policy_unavailable" name first None)
          else match load (Workspace cfg) with
          | inr err => Some (mkPreflight "filesystem_policy_unavailable" name first (Some err))
          | inl c =>
              if negb (fs_Enabled (Filesystem c)) then Some (mkPreflight "filesystem_disabled" name first None)
              else match canonicalAllowed (workdir_of cfg) c with
              | [] => Some (mkPreflight "filesystem_policy_unavailable" name first None)
              | roots => check_required name (workdir_of cfg) roots requiredPaths
              end
          end
      end
  end.

(** ** What an accepted dispatch means *)

(** The path lies in the root, component by component. *)
Definition inside (root p : string) : Prop := components root `prefix_of` components p.

(** A root of the card, with what it resolves to. *)
Definition allowed_root (workdir : string) (c : AgentCardConfig) (root canonical : string) : Prop :=
  root ∈ AllowedPaths (Filesystem c) ++ [upload] ∧ canonicalFilesystemPath workdir root = inl canonical.

Lemma canonicalAllowed_elem workdir c p : p ∈ canonicalAllowed workdir c ↔ ∃ root, allowed_root workdir c root p.
Proof.
  unfold canonicalAllowed, allowed_root. rewrite list_elem_of_omap. split.
  - intros (root & I & E). exists root. by destruct (canonicalFilesystemPath workdir root); simplify_eq.
  - intros (root & I & E). exists root. by rewrite E.
Qed.

Definition permitted (workdir : string) (c : AgentCardConfig) (p : string) : Prop :=
  TrimSpace p ≠ "" ∧ ∃ q root r, canonicalFilesystemPath workdir p = inl q ∧ allowed_root workdir c root r ∧ inside r q.

Lemma canonical_rooted base p q :
  (∀ x y, EvalSymlinks x = inl y → is_rooted y = true) → canonicalFilesystemPath base p = inl q → is_rooted q = true.
Proof. intros Links. unfold canonicalFilesystemPath. destruct (if IsAbs (Clean _) then _ else _); [apply Links | done]. Qed.

Lemma check_required_spec name workdir c required :
  (∀ x y, EvalSymlinks x = inl y → is_rooted y = true) →
  check_required name workdir (canonicalAllowed workdir c) required = None ↔ Forall (permitted workdir c) required.
Proof.
  intros Links. induction required as [| p required IH]; [by split; [constructor |] |]. rewrite Forall_cons, <- IH. clear IH. cbn [check_required].
  unfold permitted. destruct (TrimSpace p) as [| b t] eqn:T; [by split; [| intros [[] _]] |]. cbn [nonempty negb].
  destruct (canonicalFilesystemPath workdir p) as [q |] eqn:Q; [| split; [done | naive_solver]].
  destruct (existsb _ _) eqn:X.
  - split; [| tauto]. intros ->. split; [| done]. split; [done |]. apply existsb_exists in X as (r & I & C).
    apply list_elem_of_In in I. apply canonicalAllowed_elem in I as [root Al]. exists q, root, r. split_and!; [done | done |].
    apply contained_iff; [by eapply canonical_rooted, Al | by eapply canonical_rooted | done].
  - split; [done |]. intros [[_ (q' & root & r & [= <-] & Al & In)] _]. apply not_true_iff_false in X. destruct X.
    apply existsb_exists. exists r. split; [apply list_elem_of_In, canonicalAllowed_elem; eauto |].
    apply contained_iff; [by eapply canonical_rooted, Al | by eapply canonical_rooted | done].
Qed.

(** A refusal names the agent and the path at hand. *)
Ltac refused := simplify_eq; split; [done | apply list_elem_of_here].

(** No other configuration of the agent could have passed. *)
Ltac not_managed := split; [done | intros [| (? & ? & ? & ? & ? & ? & _)]; [done | simplify_eq; congruence]].

(** (C34) A dispatch passes the preflight exactly when it requires nothing, or its
    agent is managed with a card that enables the filesystem and every required path
    resolves, through symbolic links and [..], to a place inside what some allowed
    root resolves to, compared component by component; a blank path is refused. A
    refusal names the agent and one of the required paths, never a root of the card.
    (What symbolic links resolve to is an absolute path.) *)
Theorem preflight_exact s agentName required :
  (∀ x y, EvalSymlinks x = inl y → is_rooted y = true) →
  (PreflightFilesystem s agentName required = None ↔
   required = [] ∨
   ∃ cfg c, managed_config s (baseNameOf agentName) = Some cfg ∧ Workspace cfg ≠ "" ∧ load (Workspace cfg) = inl c ∧
     fs_Enabled (Filesystem c) = true ∧ Forall (permitted (workdir_of cfg) c) required) ∧
  (∀ e, PreflightFilesystem s agentName required = Some e → Agent e = baseNameOf agentName ∧ Path e ∈ required ∧
     ∀ e', Code e' = Code e → Agent e' = Agent e → Path e' = Path e → preflight_text e' = preflight_text e).
Proof.
  intros Links. split.
  - destruct required as [| first required]; [by split; [left |] |]. cbn [PreflightFilesystem].
    destruct (managed_config s _) as [cfg |] eqn:M; [| not_managed]. destruct (Workspace cfg) as [| b w] eqn:W; [not_managed |]. cbn [nonempty negb].
    destruct (load _) as [c |] eqn:L; [| not_managed]. destruct (fs_Enabled (Filesystem c)) eqn:F; [| not_managed]. cbn [negb].
    assert (∀ roots, canonicalAllowed (workdir_of cfg) c = roots →
      (match roots with [] => Some (mkPreflight "filesystem_policy_unavailable" (baseNameOf agentName) first None)
       | r :: rs => check_required (baseNameOf agentName) (workdir_of cfg) (r :: rs) (first :: required) end = None ↔
       Forall (permitted (workdir_of cfg) c) (first :: required))) as G.
    { intros roots <-. rewrite <- (check_required_spec (baseNameOf agentName)) by done. destruct (canonicalAllowed _ c) eqn:R; [| done].
      split; [done |]. cbn [check_required existsb]. destruct (nonempty (TrimSpace first)); [| done]. by destruct (canonicalFilesystemPath _ first). }
    rewrite (G _ eq_refl). split.
    + intros Fa. right. exists cfg, c. by rewrite W.
    + intros [| (cfg' & c' & [= <-] & _ & L' & _ & Fa)]; [done |]. rewrite W, L in L'. by simplify_eq.
  - intros e E.
    assert (∀ e', Code e' = Code e → Agent e' = Agent e → Path e' = Path e → preflight_text e' = preflight_text e) as T.
    { intros e' C A P. unfold preflight_text. by rewrite C, A, P. }
    cut (Agent e = baseNameOf agentName ∧ Path e ∈ required); [by intros [] |]. clear T.
    destruct required as [| first required]; [done |]. cbn [PreflightFilesystem] in E.
    destruct (managed_config s _) as [cfg |]; [| refused].
    destruct (negb _); [refused |].
    destruct (load _) as [c |]; [| refused].
    destruct (negb _); [refused |].
    destruct (canonicalAllowed _ _) as [| r roots]; [refused |].
    revert E. generalize (first :: required) as ps. intros ps. induction ps as [| p ps IH]; [done |]. cbn [check_required].
    destruct (negb _); [intros ?; refused |].
    destruct (canonicalFilesystemPath _ p); [| intros ?; refused].
    destruct (existsb _ _); [| intros ?; refused].
    intros [? ?]%IH. split; [done | by apply list_elem_of_further].
Qed.
End preflight.

Lemma preflight_exact_witness :
  let links p := if is_rooted p then inl (Clean p) else inr "relative" in
  let rt := Runtime.mkRuntime "" "" "" "" "" "" "claude" [] ∅ "120s" "" in
  let lc := LifecycleConfig.mkLifecycleConfig (LifecycleConfig.mkInitConfig false "" "" "") (LifecycleConfig.mkFinalConfig false "" "" "") in
  let c := mkCard "a" "" "" None [] (mkClaude "" 5) rt (mkNetwork "127.0.0.1" "" false) (mkFilesystem true false false ["src"])
             (mkPool 0 "" "" "" 0 None "") false ∅ lc in
  let s := mkSched [mkConfig "a" "/w" "" 0 1 "" "" ""] (mkRange 1 2) 1 ∅ 0 ∅ ∅ ∅ ∅ ∅ false true "" defaultSupervisorConfig [] in
  PreflightFilesystem (inl "/") links (λ _, inl c) "/tmp/up" s "a" ["src/main.go"; "/tmp/up/x"] = None ∧
  PreflightFilesystem (inl "/") links (λ _, inl c) "/tmp/up" s "a" ["src/../secret"] ≠ None.
Proof.
  intros links rt lc c s.
  assert (L : ∀ x y, links x = inl y → is_rooted y = true).
  { intros x y. unfold links. destruct (is_rooted x) eqn:R; [| done]. intros [= <-]. by rewrite Clean_rooted. }
  split.
  - apply (proj1 (preflight_exact (inl "/") links (λ _, inl c) "/tmp/up" s "a" ["src/main.go"; "/tmp/up/x"] L)). right.
    exists (mkConfig "a" "/w" "" 0 1 "" "" ""), c. split_and!; [reflexivity | discriminate | reflexivity | reflexivity |].
    repeat constructor; try discriminate.
    + exists "/w/src/main.go", "src", "/w/src". split_and!; [reflexivity | split; [set_solver | reflexivity] |]. by exists ["main.go"].
    + exists "/tmp/up/x", "/tmp/up", "/tmp/up". split_and!; [reflexivity | split; [set_solver | reflexivity] |]. by exists ["x"].
  - vm_compute. discriminate.
Defined.
