(* ===== verification/Gateway.v ===== *)
(** * The scheduler's HTTP gateway ([internal/scheduler/gateway.go], [scheduler.go])

    Routing and authorization, the A2A proxy with the observation of its event
    stream, and the chat handler with the background settling of an asynchronous
    turn. The registry, the ledger, the live event hub and the supervisor are the
    components of the development; JSON decoding, the transport, the activator and
    the file-system check answer through arguments. *)
From S2P Require Import Prelude GoBase GoStrings Registry InstancePool AgentLifecycle LiveEvents Ledger Supervisor SupervisorDrive.
From Stdlib Require Import ZArith Lia Ascii.

Definition a2aProxyPrefix : string := "/a2a/".
Definition AdminTokenHeader : string := "X-Ahsir-Admin-Token".

Definition StatusAccepted : Z := 202.
Definition StatusUnauthorized : Z := 401.
Definition StatusForbidden : Z := 403.
Definition StatusConflict : Z := 409.
Definition StatusRequestEntityTooLarge : Z := 413.
Definition StatusBadGateway : Z := 502.

Definition HasPrefix (s p : string) : bool := bool_decide (is_Some (strip_prefix p s)).
Definition HasSuffix (s p : string) : bool := HasPrefix (String.rev s) (String.rev p).

(** ** Authorization and routing *)

(** [adminAuthorized]: the token of the scheduler and the header of the request. *)
Definition adminAuthorized (token header : string) : bool :=
  if decide (token = "") then true else bool_decide (header = token).

(** [isRegistryWrite]; [MethodOther] carries the name of a further method. *)
Definition isRegistryWrite (m : Registry.method) (path : string) : bool :=
  let rest := TrimPrefix path "/agents/" in
  let one := nonempty rest && negb (Contains rest "/") in
  match m with
  | Registry.MethodPost => bool_decide (path = "/agents")
  | Registry.MethodDelete => one
  | Registry.MethodOther o => (bool_decide (o = "PUT") || bool_decide (o = "PATCH")) && one
  | Registry.MethodGet => false
  end.

Inductive admin_route := A_Start | A_Restart (name : string) | A_Stop (name : string) | A_MethodNotAllowed.

Definition is_get (m : Registry.method) : bool := if m is Registry.MethodGet then true else false.
Definition is_post (m : Registry.method) : bool := if m is Registry.MethodPost then true else false.
Definition is_delete (m : Registry.method) : bool := if m is Registry.MethodDelete then true else false.

(** [handleAdmin] *)
Definition handleAdmin (m : Registry.method) (path : string) : admin_route :=
  let rest := TrimPrefix path "/admin/agents" in
  if (bool_decide (rest = "") || bool_decide (rest = "/")) && is_post m then A_Start
  else if HasSuffix rest "/restart" && is_post m then A_Restart (TrimSuffix (TrimPrefix rest "/") "/restart")
  else if HasPrefix rest "/" && is_delete m then A_Stop (TrimPrefix rest "/")
  else A_MethodNotAllowed.

(** The handler that [ServeHTTP] calls. *)
Inductive route :=
| R_Metrics | R_Proxy | R_Timeouts | R_Diagnostics | R_PublicAgents | R_Invocations | R_ContextEvents | R_ContextStream | R_Archived
| R_Rooms | R_Admin (a : admin_route) | R_Unauthorized | R_Registry
| R_PublicAgent (name : string) | R_Chat (name : string) | R_Task (name id : string) | R_History (name contextID : string)
| R_Config (name : string).

(** The routes below [/agents/]. *)
Definition agents_route (m : Registry.method) (rest : string) : route :=
  if decide (rest = "") then (if is_get m then R_PublicAgents else R_Registry)
  else match Split_byte rest "/"%char with
       | [name] => if is_get m then R_PublicAgent name else R_Registry
       | [name; sub] =>
           if bool_decide (sub = "chat") && is_post m then R_Chat name
           else if bool_decide (sub = "config") && is_get m then R_Config name else R_Registry
       | [name; sub; x] =>
           if bool_decide (sub = "tasks") && is_get m then R_Task name x
           else if bool_decide (sub = "history") && is_get m then R_History name x else R_Registry
       | _ => R_Registry
       end.

Definition ServeHTTP (token header : string) (m : Registry.method) (path : string) : route :=
  if bool_decide (path = "/metrics") && is_get m then R_Metrics
  else if HasPrefix path a2aProxyPrefix then R_Proxy
  else if bool_decide (path = "/config/timeouts") && is_get m then R_Timeouts
  else if bool_decide (path = "/diagnostics/agents") && is_get m then R_Diagnostics
  else if bool_decide (path = "/agents") && is_get m then R_PublicAgents
  else if bool_decide (path = "/invocations") && is_get m then R_Invocations
  else if bool_decide (path = "/context-events") && is_get m then R_ContextEvents
  else if bool_decide (path = "/context-events/stream") && is_get m then R_ContextStream
  else if bool_decide (path = "/archived-agents") && is_get m then R_Archived
  else if bool_decide (path = "/rooms") || HasPrefix path "/rooms/" then R_Rooms
  else if HasPrefix path "/admin/agents" then
    (if adminAuthorized token header then R_Admin (handleAdmin m path) else R_Unauthorized)
  else if isRegistryWrite m path && negb (adminAuthorized token header) then R_Unauthorized
  else if HasPrefix path "/agents/" then agents_route m (TrimPrefix path "/agents/")
  else R_Registry.

(** [http.ServeMux] redirects a path that is not clean, keeping a final slash. *)
Definition mux_clean (path : string) : string :=
  let np := InstanceName.Clean (if HasPrefix path "/" then path else "/" +:+ path) in
  if HasSuffix path "/" && negb (bool_decide (np = "/")) then np +:+ "/" else np.

(** What a request does to the registry at the hands of the registry's handler. *)
Definition registry_effect `{UnicodeLower} {card body : Type} (card_Name : card → string) (decode : body → card + string)
    (token header : string) (now : time) (q : Registry.request (body := body)) (r : Registry.Registry (card := card))
    : Registry.Registry (card := card) :=
  match ServeHTTP token header (Registry.r_method q) (Registry.r_path q) with
  | R_Registry =>
      if decide (mux_clean (Registry.r_path q) = Registry.r_path q) then (Registry.ServeHTTP card_Name decode now q r).1 else r
  | _ => r
  end.

(** ** Dialling an agent *)

Record dial_target := mkDial { d_url : string; d_token : string }.

Definition localURL (p : agentProcess) : string := "http://127.0.0.1:" +:+ fmt_d (Port (p_cfg p)) +:+ "/".

(** [agentDialTarget]: [registered] is the address on the registry card. *)
Definition agentDialTarget (registered : option string) (name : string) (s : Sched) : option dial_target :=
  match agents s !! name with
  | Some ptr => (λ p, mkDial (localURL p) (internalToken p)) <$> procs s !! ptr
  | None => (λ url, mkDial url "") <$> registered
  end.

(** ** Errors *)

Inductive cause := Canceled | DeadlineExceeded | OtherCause.
Record go_error := mkErr { cause_of : cause; text_of : string }.

Definition classifyProxyError (e : go_error) : string :=
  match cause_of e with Canceled => ResultCancel | DeadlineExceeded => ResultTimeout | OtherCause => ResultUpstreamError end.

Definition agent_busy : string := "agent busy:".

Definition classifyChatError (e : option go_error) : string :=
  match e with
  | None => ResultDone
  | Some e =>
      match cause_of e with
      | Canceled => ResultCancel
      | DeadlineExceeded => ResultTimeout
      | OtherCause => if Contains (text_of e) agent_busy then ResultBusy else ResultUpstreamError
      end
  end.

(** ** The event stream of the upstream *)

(** The parts of a status message, decoded; a field that is missing or of another
    type leaves the event's as it is. *)
Inductive part :=
| PartText (text : string)
| PartData (ev id tool_use_id name content : option string) (is_error : option bool) (input : string)
| PartOther.

Record frame := mkFrame { f_kind : string; f_state : string; f_parts : list part }.

Definition live_base (inv : InvocationRecord) : LiveEvent :=
  LiveEvents.mkEvent "" (ID inv) (Ledger.ContextID inv) (Ledger.AgentName inv) "" zero_time "" "" "" "" false "".

Definition typed (ty state content : string) (e : LiveEvent) : LiveEvent :=
  LiveEvents.mkEvent (LiveEvents.ID e) (InvocationID e) (LiveEvents.ContextID e) (LiveEvents.AgentName e) ty (At e) (LiveEvents.Name e)
    (ToolUseID e) (Input e) content (LiveEvents.IsError e) state.

(** The event of a part, if it makes one. *)
Definition part_event (base : LiveEvent) (p : part) : option LiveEvent :=
  match p with
  | PartText text => Some (typed "text_delta" "" text base)
  | PartData ev id tool_use_id name content is_error input =>
      let e := LiveEvents.mkEvent (LiveEvents.ID base) (InvocationID base) (LiveEvents.ContextID base) (LiveEvents.AgentName base)
                 (default "" ev) (At base) (default "" name) (default (default "" id) tool_use_id) input (default "" content)
                 (default false is_error) (LiveEvents.State base) in
      if nonempty (LiveEvents.Type_ e) then Some e else None
  | PartOther => None
  end.

(** The events of a frame, in the order they are published. *)
Definition frame_events (inv : InvocationRecord) (f : frame) : list LiveEvent :=
  let base := live_base inv in
  if decide (f_kind f = "task") then [typed "terminal" (f_state f) "" base]
  else if negb (bool_decide (f_kind f = "status-update")) then []
  else match f_parts f with
       | [] => [typed "status" (f_state f) "" base]
       | ps => omap (part_event base) ps
       end.

Definition publish_all (now : time) (es : list LiveEvent) (h : liveEventHub) : liveEventHub :=
  foldl (λ h e, (Publish now e h).1) h es.

Section gateway.
(** [decode_frame] is [json.Unmarshal] into the frame of [observeA2AFrame]. *)
Context (decode_frame : string → option frame).

Definition observeA2AFrame (now : time) (inv : InvocationRecord) (payload : string) (h : liveEventHub) : liveEventHub :=
  match decode_frame payload with Some f => publish_all now (frame_events inv f) h | None => h end.

(** One [ReadBytes] of the body: the bytes, the error of writing them on, and how
    the read ended: more to come, end of the body, or an error. *)
Inductive read_end := More | EOF | ReadFailed (msg : string).
Record read := mkRead { rd_line : string; rd_at : time; rd_write : option string; rd_end : read_end }.

Definition data_payload (line : string) : option string :=
  let trimmed := TrimSpace line in
  TrimSpace <$> strip_prefix "data:" trimmed.

(** [copyObservedSSE]: the lines relayed and the hub, and [Some] of the error once
    it has returned. [observe] is [onData]. *)
Fixpoint copyObservedSSE (observe : time → string → liveEventHub → liveEventHub) (rs : list read) (h : liveEventHub)
    : list string * liveEventHub * option (option string) :=
  match rs with
  | [] => ([], h, None)
  | r :: rs =>
      let finish out h :=
        match rd_end r with
        | EOF => (out, h, Some None)
        | ReadFailed msg => (out, h, Some (Some msg))
        | More => let '(out', h, res) := copyObservedSSE observe rs h in (out ++ out', h, res)
        end in
      if nonempty (rd_line r) then
        match rd_write r with
        | Some msg => ([], h, Some (Some msg))
        | None => finish [rd_line r] (match data_payload (rd_line r) with Some p => observe (rd_at r) p h | None => h end)
        end
      else finish [] h
  end.

(** ** The A2A proxy *)

Record upstream := mkUpstream { u_status : Z; u_sse : bool; u_reads : list read }.

(** What is sent on, and to whom. *)
Record sent := mkSent { s_url : string; s_token : string; s_body : string }.

(** Read errors of a request body. *)
Inductive body_error := TooLarge (limit : Z) | BodyFailed (msg : string).

Record proxy_env := mkProxyEnv {
  pe_unescape : string → option string;
  pe_body : string + body_error;
  pe_paths : string → list string + string;
  pe_preflight : string → list string → option string;
  pe_wake : string → option string;
  pe_sched : Sched;
  pe_registered : string → option string;
  pe_parse : string → option string;
  pe_meta : string → string → InvocationMetadata;
  pe_request : option string;
  pe_trip : sent → upstream + go_error;
}.

(** What a handler has done: the answer (its status, whether it carries the
    [scheduler_agent_not_found] code, the body lines relayed), whether the agent was
    woken, what was sent to it, the record it began, the ledger and the hub. *)
Record outcome := mkOutcome {
  o_status : Z; o_not_found_code : bool; o_relayed : list string; o_woken : option string; o_sent : option sent;
  o_record : option string; o_ledger : InvocationLedger; o_hub : liveEventHub;
}.

Definition name_of_path (path : string) : string :=
  let name := TrimPrefix path a2aProxyPrefix in
  match Index name "/" with Some i => byte_take i name | None => name end.

(** The part of [handleA2AProxy] before the ledger is touched: the agent, the body
    and the target, or the answer that ends it and whom it has woken. *)
Definition proxy_admit (env : proxy_env) (path : string) : string * string * dial_target + Z * bool * option string :=
  if decide (TrimPrefix path a2aProxyPrefix = "") then inr (Registry.StatusBadRequest, false, None)
  else match pe_unescape env (name_of_path path) with
  | None => inr (Registry.StatusBadRequest, false, None)
  | Some name =>
      match pe_body env with
      | inr (TooLarge _) => inr (StatusRequestEntityTooLarge, false, None)
      | inr (BodyFailed _) => inr (Registry.StatusBadRequest, false, None)
      | inl body =>
          match pe_paths env body with
          | inr _ => inr (Registry.StatusBadRequest, false, None)
          | inl paths =>
              match pe_preflight env name paths with
              | Some _ => inr (StatusForbidden, false, None)
              | None =>
                  match pe_wake env name with
                  | Some _ => inr (StatusBadGateway, false, Some name)
                  | None =>
                      match agentDialTarget (pe_registered env name) name (pe_sched env) with
                      | None => inr (Registry.StatusNotFound, true, Some name)
                      | Some target =>
                          match pe_parse env (d_url target) with
                          | Some _ => inr (StatusBadGateway, false, Some name)
                          | None => inl (name, body, target)
                          end
                      end
                  end
              end
          end
      end
  end.

(** [handleA2AProxy]; [None] while the body is still being relayed. *)
Definition handleA2AProxy (env : proxy_env) (t0 t1 : time) (path : string) (l : InvocationLedger) (h : liveEventHub) : option outcome :=
  match proxy_admit env path with
  | inr (status, code, woken) => Some (mkOutcome status code [] woken None None l h)
  | inl (name, body, target) =>
      let '(l, inv) := Begin t0 (pe_meta env name body) l in
      let id := ID inv in
      match pe_request env with
      | Some msg => Some (mkOutcome StatusBadGateway false [] (Some name) None (Some id) (FailResult t1 id ResultInternalError msg l) h)
      | None =>
          let req := mkSent (d_url target) (d_token target) body in
          match pe_trip env req with
          | inr err =>
              Some (mkOutcome StatusBadGateway false [] (Some name) (Some req) (Some id)
                      (FailResult t1 id (classifyProxyError err) (text_of err) l) h)
          | inl u =>
              let '(out, h, res) := copyObservedSSE (λ now p h, if u_sse u then observeA2AFrame now inv p h else h) (u_reads u) h in
              match res with
              | None => None
              | Some copyErr =>
                  let l :=
                    if (500 <=? u_status u)%Z then FailResult t1 id ResultUpstreamError ("upstream status " +:+ fmt_d (u_status u)) l
                    else match copyErr with
                         | Some msg => FailResult t1 id ResultUpstreamError ("response stream interrupted: " +:+ msg) l
                         | None => Complete t1 id l
                         end in
                  Some (mkOutcome (u_status u) false out (Some name) (Some req) (Some id) l h)
              end
          end
      end
  end.

(** ** Chat *)

(** [writeChatError]; [registered] says whether the agent has a card. *)
Definition writeChatError (registered : bool) (e : go_error) : Z :=
  if Contains (text_of e) agent_busy then StatusConflict else if registered then StatusBadGateway else Registry.StatusNotFound.

Record chatRequest := mkChat {
  cr_Message : string; cr_ContextID : string; cr_RequiredPaths : list string; cr_Speaker : string; cr_Async : bool;
}.

(** [ChatWithAgentAs] and [ChatWithAgentAsync] answer with the reply or the id of
    the task; [ce_fresh] is the context id minted for a new conversation. *)
Record chat_env := mkChatEnv {
  he_decode : option chatRequest;
  he_preflight : string → list string → option string;
  he_fresh : string;
  he_registered : bool;
  he_chat : string → string → string → string + go_error;
  he_submit : string → string → string → string + go_error;
}.

Definition InvocationSourceChatGateway : string := "chat_gateway".

(** What the chat handler leaves: the status, the invocation, and the task whose
    settling is under way. *)
Record chat_outcome := mkChatOutcome {
  co_status : Z; co_reply : option string; co_record : option string; co_settling : option string; co_ledger : InvocationLedger;
}.

Definition handleChat (env : chat_env) (t0 t1 : time) (name : string) (l : InvocationLedger) : chat_outcome :=
  if decide (name = "") then mkChatOutcome Registry.StatusBadRequest None None None l
  else match he_decode env with
  | None => mkChatOutcome Registry.StatusBadRequest None None None l
  | Some req =>
      if decide (cr_Message req = "") then mkChatOutcome Registry.StatusBadRequest None None None l
      else if he_preflight env name (cr_RequiredPaths req) is Some _ then mkChatOutcome StatusForbidden None None None l
      else
        let contextID := if decide (cr_ContextID req = "") then he_fresh env else cr_ContextID req in
        let '(l, inv) := Begin t0 (mkMeta InvocationSourceChatGateway name "message/send" contextID "" (cr_Message req) (cr_Speaker req)) l in
        let id := ID inv in
        match (if cr_Async req then he_submit else he_chat) env contextID (cr_Speaker req) (cr_Message req) with
        | inr err =>
            mkChatOutcome (writeChatError (he_registered env) err) None (Some id) None
              (FailResult t1 id (classifyChatError (Some err)) (text_of err) l)
        | inl answer =>
            if cr_Async req then mkChatOutcome StatusAccepted None (Some id) (Some answer) (Queued t1 id l)
            else mkChatOutcome Registry.StatusOK (Some answer) (Some id) None (Complete t1 id l)
        end
  end.

(** ** Settling an asynchronous turn *)

Inductive task_state := TaskCompleted | TaskFailed (message : option string) | TaskCanceled | TaskOther.

(** One poll: the time after the sleep and the answer of [GetTaskStatus]. *)
Record poll := mkPoll { po_at : time; po_answer : task_state + string }.

(** How a settled turn is recorded: completed, or failed with a message. *)
Inductive verdict := V_Complete | V_Fail (msg : string).

(** The loop of [settleAsyncInvocation]; [deadline] is [None] without a chat timeout. *)
Fixpoint settle_loop (taskID : string) (deadline : option time) (errs : nat) (ps : list poll) : option verdict :=
  match ps with
  | [] => None
  | p :: ps =>
      if (if deadline is Some d then (d <? po_at p)%Z else false)
      then Some (V_Fail ("async task " +:+ taskID +:+ ": no terminal state within chat timeout"))
      else match po_answer p with
           | inr err =>
               if 5 <=? S errs
               then Some (V_Fail ("async task " +:+ taskID +:+ ": poll failed: " +:+ err +:+ " (agent restarted? check `ahsir history`)"))
               else settle_loop taskID deadline (S errs) ps
           | inl TaskCompleted => Some V_Complete
           | inl (TaskFailed m) =>
               Some (V_Fail (match m with Some txt => if nonempty txt then txt else "async task failed" | None => "async task failed" end))
           | inl TaskCanceled => Some (V_Fail "task canceled")
           | inl TaskOther => settle_loop taskID deadline 0 ps
           end
  end.

(** [settleAsyncInvocation], started at [t0]: the ledger and whether the instance
    was released, once it has returned. *)
Definition settleAsyncInvocation (chatTimeout : duration) (t0 t1 : time) (id taskID : string) (ps : list poll) (l : InvocationLedger)
    : option (InvocationLedger * bool) :=
  match settle_loop taskID (if (0 <? chatTimeout)%Z then Some (Add t0 chatTimeout) else None) 0 ps with
  | None => None
  | Some V_Complete => Some (Complete t1 id l, true)
  | Some (V_Fail msg) => Some (FailResult t1 id ResultInternalError msg l, true)
  end.
End gateway.
