(* ===== verification/GatewayLaws.v ===== *)
(** * What the gateway guarantees ([internal/scheduler/gateway.go])

    The control plane is closed to a request without the token; the ledger tells
    what became of a proxied turn; the observation of a stream never disturbs it;
    an internal token only goes where the scheduler put the agent; an asynchronous
    turn is settled within the chat timeout. *)
From S2P Require Import Prelude GoBase GoStrings Registry InstancePool AgentLifecycle LiveEvents Ledger LedgerLaws Supervisor SupervisorDrive Gateway.
From Stdlib Require Import ZArith Lia Ascii.

(** ** The control plane *)

(** A request that may not use the control plane. *)
Definition unauthorized (token header : string) : Prop := token ≠ "" ∧ header ≠ token.

Lemma unauthorized_spec token header : unauthorized token header → adminAuthorized token header = false.
Proof. intros [Ht Hh]. unfold adminAuthorized. by rewrite decide_False, bool_decide_eq_false_2. Qed.

Section control_plane.
Context `{UnicodeLower} {card body : Type} (card_Name : card → string) (decode : body → card + string).

(** What the registry's handler does by method. *)
Lemma registry_post now q r :
  Registry.r_method q = Registry.MethodPost → Registry.r_path q ≠ "/agents" → Registry.r_path q ≠ "/agents/" → Registry.r_path q ≠ "/agents//" →
  (Registry.ServeHTTP card_Name decode now q r).1 = r.
Proof.
  intros Hm H1 H2 H3. unfold Registry.ServeHTTP. rewrite bool_decide_eq_false_2 by done.
  destruct (strip_prefix "/agents/" (Registry.r_path q)) as [rest |] eqn:E; [| done]. apply strip_prefix_Some in E.
  unfold Registry.handleAgent. rewrite E, TrimPrefix_app. rewrite E in H2, H3.
  rewrite !bool_decide_eq_false_2 by (intros ->; done). cbn. by rewrite Hm.
Qed.

Lemma registry_delete now q r :
  Registry.r_method q = Registry.MethodDelete →
  (Registry.ServeHTTP card_Name decode now q r).1 = r ∨
  ∃ name, Registry.r_path q = "/agents/" +:+ name ∧ name ≠ "" ∧ (Registry.ServeHTTP card_Name decode now q r).1 = (Registry.Unregister name r).1.
Proof.
  intros Hm. unfold Registry.ServeHTTP, Registry.handleAgents. rewrite Hm. case_bool_decide; [by left |].
  destruct (strip_prefix "/agents/" (Registry.r_path q)) as [rest |] eqn:E; [| by left]. apply strip_prefix_Some in E.
  unfold Registry.handleAgent, Registry.handleAgents. rewrite E, TrimPrefix_app, Hm.
  destruct (bool_decide (rest = "") || bool_decide (rest = "/")) eqn:Hr; [by left |]. right. exists rest. bool_to_prop.
  split_and!; [done.. |]. by destruct (Registry.Unregister rest r) as [? []].
Qed.

Lemma registry_read now q r :
  Registry.r_method q ≠ Registry.MethodPost → Registry.r_method q ≠ Registry.MethodDelete → (Registry.ServeHTTP card_Name decode now q r).1 = r.
Proof.
  intros Hp Hd. unfold Registry.ServeHTTP, Registry.handleAgent, Registry.handleAgents.
  destruct (Registry.r_method q); [| done | done |]; (case_bool_decide; [done |]);
    (destruct (strip_prefix _ _); [| done]); (destruct (_ || _); [done |]); try done.
  by destruct (Registry.Get _ r).
Qed.

(** (C15) With an admin token configured, a request that does not carry it reaches none of
    the admin routes (the commands that start, restart or stop an agent) on any method
    and path, and it leaves the registry as it is, with two exceptions that the routing
    overlooks: a POST to the path [/agents/], with the slash, and a DELETE of a name
    that contains a slash. This is about these commands only: the chat and proxy
    routes, which need no token, still wake an idle agent and start instances of a
    pooled one. *)
Theorem control_plane_gated token header now q r :
  unauthorized token header →
  (∀ a, ServeHTTP token header (Registry.r_method q) (Registry.r_path q) ≠ R_Admin a) ∧
  (registry_effect card_Name decode token header now q r = r ∨
   (Registry.r_method q = Registry.MethodPost ∧ Registry.r_path q = "/agents/") ∨
   (Registry.r_method q = Registry.MethodDelete ∧
    ∃ name, Registry.r_path q = "/agents/" +:+ name ∧ Contains name "/" = true ∧
      registry_effect card_Name decode token header now q r = (Registry.Unregister name r).1)).
Proof.
  intros Hu%unauthorized_spec. unfold registry_effect. set (rt := ServeHTTP _ _ _ _). assert (rt = ServeHTTP token header (Registry.r_method q) (Registry.r_path q)) as Hrt by done.
  clearbody rt. split.
  - intros a ->. revert Hrt. unfold ServeHTTP. rewrite Hu. unfold agents_route.
    repeat (case_match; try done; simplify_eq/=).
  - destruct rt; try (by left). destruct (decide (mux_clean _ = _)) as [Hclean | _]; [| by left].
    assert (isRegistryWrite (Registry.r_method q) (Registry.r_path q) = false) as Hw.
    { destruct (isRegistryWrite _ _) eqn:E; [| done]. exfalso. revert Hrt. unfold ServeHTTP. rewrite E, Hu. cbn [negb andb]. repeat (case_match; try done). }
    destruct (Registry.r_method q) eqn:Hm.
    + left. apply registry_read; congruence.
    + destruct (decide (Registry.r_path q = "/agents/")) as [E | E]; [auto |]. left. apply registry_post; [done | | done |].
      * unfold isRegistryWrite in Hw. by apply bool_decide_eq_false in Hw.
      * intros E'. rewrite E' in Hclean. by vm_compute in Hclean.
    + destruct (registry_delete now q r Hm) as [E | (name & Hp & Hne & E)]; [by left | right; right]. split; [done |].
      exists name. split_and!; [done | | exact E]. unfold isRegistryWrite in Hw. rewrite Hp, TrimPrefix_app in Hw.
      destruct name; [done |]. cbn [nonempty] in Hw. by destruct (Contains _ _).
    + left. apply registry_read; congruence.
Qed.
End control_plane.

(** Without the token, a POST to [/agents/] registers a card. *)
Lemma post_with_slash_bypasses_auth `{UnicodeLower} {card body : Type} (card_Name : card → string) (decode : body → card + string) now c b r :
  decode b = inl c →
  registry_effect card_Name decode "secret" "" now (Registry.mkRequest Registry.MethodPost "/agents/" b) r = Registry.Register card_Name now c r.
Proof. intros Hb. unfold registry_effect, Registry.ServeHTTP, Registry.handleAgent, Registry.handleAgents. cbn. by rewrite Hb. Qed.

(** ** The proxy *)

(** The copy of a body came to its end, and every line of it was relayed. *)
Fixpoint fully_relayed (rs : list read) (relayed : list string) : Prop :=
  match rs with
  | [] => False
  | r :: rs =>
      if nonempty (rd_line r) then
        rd_write r = None ∧
        match rd_end r with
        | EOF => relayed = [rd_line r]
        | ReadFailed _ => False
        | More => ∃ out, relayed = rd_line r :: out ∧ fully_relayed rs out
        end
      else match rd_end r with EOF => relayed = [] | ReadFailed _ => False | More => fully_relayed rs relayed end
  end.

Lemma copy_complete observe rs h out h' :
  copyObservedSSE observe rs h = (out, h', Some None) → fully_relayed rs out.
Proof.
  revert h out. induction rs as [| r rs IH]; intros h out; cbn; [done |].
  destruct (nonempty (rd_line r)).
  - destruct (rd_write r); [done |]. destruct (rd_end r); [| by intros [= <- <-] | done].
    destruct (copyObservedSSE observe rs _) as [[out1 h1] res] eqn:E. intros [= <- <- ->]. eauto.
  - destruct (rd_end r); [| by intros [= <- <-] | done].
    destruct (copyObservedSSE observe rs h) as [[out1 h1] res] eqn:E. intros [= <- <- ->]. eauto.
Qed.

Lemma copy_broken observe rs h out h' msg out' :
  copyObservedSSE observe rs h = (out, h', Some (Some msg)) → ¬ fully_relayed rs out'.
Proof.
  revert h out out'. induction rs as [| r rs IH]; intros h out out'; cbn; [done |].
  destruct (nonempty (rd_line r)).
  - destruct (rd_write r); [by intros _ [? _] |]. destruct (rd_end r); [| done | by intros _ []].
    destruct (copyObservedSSE observe rs _) as [[out1 h1] res] eqn:E. intros [= <- <- ->] (_ & o & -> & Ho). eapply IH; eauto.
  - destruct (rd_end r); [| done | by intros _ []].
    destruct (copyObservedSSE observe rs h) as [[out1 h1] res] eqn:E. intros [= <- <- ->]. by eapply IH.
Qed.

(** The stream is relayed as it is, whatever is made of it: the lines relayed and
    the end do not depend on the observer, and the observer sees the data payloads
    of the lines relayed, in order. *)
Definition observed (rs : list read) (n : nat) : list (time * string) :=
  omap (λ r, pair (rd_at r) <$> data_payload (rd_line r)) (take n (filter (λ r, nonempty (rd_line r) = true) rs)).

(** Observing a stream does not disturb it: what is relayed to the caller,
    and how the copy ends, are the same as with no observer, and the observer is
    given exactly the data payloads of the lines relayed, in their order, before
    the copy returns. *)
Lemma observation_is_transparent observe rs h :
  let '(out, h', res) := copyObservedSSE observe rs h in
  (∃ h0, copyObservedSSE (λ _ _ h, h) rs newLiveEventHub = (out, h0, res)) ∧
  out = take (length out) (rd_line <$> filter (λ r, nonempty (rd_line r) = true) rs) ∧
  h' = foldl (λ h x, observe x.1 x.2 h) h (observed rs (length out)).
Proof.
  revert h. induction rs as [| r rs IH]; intros h; cbn [copyObservedSSE]; [by split_and!; eauto |].
  unfold observed. rewrite filter_cons. destruct (nonempty (rd_line r)) eqn:Hne.
  - rewrite decide_True by done. destruct (rd_write r); [by split_and!; eauto |].
    destruct (data_payload (rd_line r)) as [x |] eqn:Hx.
    + specialize (IH (observe (rd_at r) x h)). destruct (copyObservedSSE observe rs _) as [[out h'] res].
      destruct IH as ((h0 & E) & Hout & Hh).
      destruct (rd_end r); cbn; rewrite ?E, ?Hx; cbn; rewrite ?take_0; split_and!; eauto; try done; try (by f_equal).
    + specialize (IH h). destruct (copyObservedSSE observe rs _) as [[out h'] res].
      destruct IH as ((h0 & E) & Hout & Hh).
      destruct (rd_end r); cbn; rewrite ?E, ?Hx; cbn; rewrite ?take_0; split_and!; eauto; try done; try (by f_equal).
  - rewrite decide_False by done. specialize (IH h). destruct (copyObservedSSE observe rs _) as [[out h'] res].
    destruct IH as ((h0 & E) & Hout & Hh). destruct (rd_end r); rewrite ?E; by split_and!; eauto.
Qed.

Lemma settled_in_ledger t id status result msg l l0 inv :
  records l = <[id := inv]> (records l0) → 
  let l' := finish t id status result msg l in
  (∀ id', id' ≠ id → records l' !! id' = records l0 !! id') ∧ ∃ r, records l' !! id = Some r ∧ Ledger.Status r = status ∧ Ledger.Error r = msg.
Proof.
  intros Hl. cbv zeta. unfold finish. destruct (update_spec t id status result msg true l inv) as (E & _);
    [rewrite Hl; apply lookup_insert_eq |]. rewrite E, Hl. split.
  - intros id' Hne. by rewrite !lookup_insert_ne.
  - rewrite lookup_insert_eq. eexists. by split_and!.
Qed.

(** A request whose body can be read and whose required paths the agent may access. *)
Definition admissible (env : proxy_env) (path name : string) : Prop :=
  ∃ body paths, pe_unescape env (name_of_path path) = Some name ∧ pe_body env = inl body ∧ pe_paths env body = inl paths ∧
    pe_preflight env name paths = None.

Section proxy.
Context (decode_frame : string → option frame).

(** What the ledger says of a proxied turn. *)
Definition told_truly (env : proxy_env) (o : outcome) (r : InvocationRecord) : Prop :=
  (Ledger.Status r = InvocationStatusCompleted ∧
   ∃ req u, o_sent o = Some req ∧ pe_trip env req = inl u ∧ o_status o = u_status u ∧ (u_status u < 500)%Z ∧ fully_relayed (u_reads u) (o_relayed o)) ∨
  (Ledger.Status r = InvocationStatusFailed ∧
   ∀ req u, o_sent o = Some req → pe_trip env req = inl u → (500 <= u_status u)%Z ∨ ¬ fully_relayed (u_reads u) (o_relayed o)).

(** (C16) When the proxy has answered, either it began no record and left the ledger
    and the live events alone, having sent nothing; or it began one under a new id,
    touched no other, and that record says [completed] exactly when the agent
    answered with a status below 500 and its whole body reached the caller, and
    [failed] in every other case: transport error, server error, a stream broken
    off on either side. *)
Theorem proxy_ledger_truthful env t0 t1 path l h o :
  LedgerLaws.wf l → (nextID l < max_uint64)%Z → handleA2AProxy decode_frame env t0 t1 path l h = Some o →
  match o_record o with
  | None => o_ledger o = l ∧ o_hub o = h ∧ o_sent o = None ∧ o_relayed o = []
  | Some id =>
      records l !! id = None ∧ (∀ id', id' ≠ id → records (o_ledger o) !! id' = records l !! id') ∧
      ∃ r, records (o_ledger o) !! id = Some r ∧ told_truly env o r
  end.
Proof.
  intros W Hn Ho. unfold handleA2AProxy in Ho. destruct (proxy_admit env path) as [[[name body] target] | [[st code] woken]]; [| by simplify_eq].
  pose proof (wf_next l W) as Hpos. pose proof (begin_spec t0 (pe_meta env name body) l ltac:(lia)) as Hb.
  destruct (Begin t0 (pe_meta env name body) l) as [l1 inv]. destruct Hb as (_ & Hid & _ & _ & _ & _ & _ & _ & _ & Hrec & _).
  assert (records l !! ID inv = None) as Hnew by (rewrite Hid; apply eq_None_not_Some; rewrite <- (wf_dom l W); apply invocation_id_fresh; [done | lia]).
  assert (∀ t res msg, (∀ id', id' ≠ ID inv → records (FailResult t (ID inv) res msg l1) !! id' = records l !! id') ∧
    ∃ r, records (FailResult t (ID inv) res msg l1) !! ID inv = Some r ∧ Ledger.Status r = InvocationStatusFailed) as Hfail.
  { intros t res msg. destruct (settled_in_ledger t (ID inv) InvocationStatusFailed res msg l1 l inv Hrec) as (? & r & ? & ? & _). eauto. }
  destruct (pe_request env) as [msg |]; [simplify_eq |]; cbn.
  { destruct (Hfail t1 ResultInternalError msg) as (Hoth & r & Hr & Hst). split_and!; [done.. |]. exists r. split; [done |]. by right. }
  destruct (pe_trip env _) as [u | err] eqn:Htrip.
  - destruct (copyObservedSSE _ (u_reads u) h) as [[out h'] res] eqn:Ec. destruct res as [ce |]; [| done]. simplify_eq. cbn.
    destruct (500 <=? u_status u)%Z eqn:Hst; bool_to_prop.
    { destruct (Hfail t1 ResultUpstreamError ("upstream status " +:+ fmt_d (u_status u))) as (Hoth & r & Hr & Hs).
      split_and!; [done.. |]. exists r. split; [done |]. right. split; [done |]. cbn. intros req u' [= <-]. rewrite Htrip. intros [= <-]. by left. }
    destruct ce as [msg |].
    + destruct (Hfail t1 ResultUpstreamError ("response stream interrupted: " +:+ msg)) as (Hoth & r & Hr & Hs).
      split_and!; [done.. |]. exists r. split; [done |]. right. split; [done |]. cbn. intros req u' [= <-]. rewrite Htrip. intros [= <-].
      right. by eapply copy_broken.
    + destruct (settled_in_ledger t1 (ID inv) InvocationStatusCompleted ResultDone "" l1 l inv Hrec) as (Hoth & r & Hr & Hs & _).
      split_and!; [done.. |]. exists r. split; [done |]. left. split; [done |]. cbn. eexists _, u. split_and!; [done.. | by eapply copy_complete].
  - simplify_eq. cbn. destruct (Hfail t1 (classifyProxyError err) (text_of err)) as (Hoth & r & Hr & Hs).
    split_and!; [done.. |]. exists r. split; [done |]. right. split; [done |]. cbn. intros req u [= <-]. by rewrite Htrip.
Qed.

(** A request that is malformed or asks for a path the agent may not access
    wakes nobody and is sent nowhere; an internal token is only ever sent to the
    loopback address of the port the scheduler gave to the published process of the
    very agent that was asked for, and is that process's token; and the marker that
    lets a client repeat a turn is set only when nothing was sent. *)
Lemma proxy_reach env t0 t1 path l h o :
  handleA2AProxy decode_frame env t0 t1 path l h = Some o →
  (∀ name, o_woken o = Some name → admissible env path name) ∧
  (∀ req, o_sent o = Some req → ∃ name, o_woken o = Some name ∧ pe_wake env name = None ∧
     (s_token req ≠ "" → ∃ ptr p, agents (pe_sched env) !! name = Some ptr ∧ procs (pe_sched env) !! ptr = Some p ∧
        s_url req = localURL p ∧ s_token req = internalToken p)) ∧
  (o_not_found_code o = true → o_sent o = None ∧ o_record o = None ∧ o_status o = Registry.StatusNotFound).
Proof.
  intros Ho. assert (match proxy_admit env path with
    | inr (status, code, woken) => (code = true → status = Registry.StatusNotFound) ∧ ∀ name, woken = Some name → admissible env path name
    | inl (name, body, target) => (∃ paths, pe_unescape env (name_of_path path) = Some name ∧ pe_body env = inl body ∧ pe_paths env body = inl paths ∧ pe_preflight env name paths = None) ∧
        pe_wake env name = None ∧ agentDialTarget (pe_registered env name) name (pe_sched env) = Some target
    end) as Ha.
  { unfold proxy_admit. repeat (case_match; simplify_eq/=; try (split; [done | done])); try (split; [done |]; intros; simplify_eq; unfold admissible; by eauto 10). by eauto 10. }
  unfold handleA2AProxy in Ho. destruct (proxy_admit env path) as [[[name body] target] | [[st code] woken]].
  - destruct Ha as ((paths & Ha) & Hw & Hd). destruct (Begin t0 (pe_meta env name body) l) as [l1 inv].
    assert (o_woken o = Some name ∧ o_not_found_code o = false ∧ ∀ req, o_sent o = Some req → req = mkSent (d_url target) (d_token target) body) as (Hwk & Hnf & Hs).
    { destruct (pe_request env); [by simplify_eq |]. destruct (pe_trip env _); [| simplify_eq; cbn; split_and!; [done.. |]; by intros req [= <-]].
      destruct (copyObservedSSE _ _ h) as [[out h'] []]; [| done]. simplify_eq. cbn. split_and!; [done.. |]. by intros req [= <-]. }
    rewrite Hwk, Hnf. split_and!; [intros n [= <-]; exists body, paths; done | | done]. intros req ->%Hs. exists name. split_and!; [done.. |]. cbn. intros Ht.
    unfold agentDialTarget in Hd. destruct (agents (pe_sched env) !! name) as [ptr |].
    + apply fmap_Some in Hd as (p & Hp & ->). by exists ptr, p.
    + apply fmap_Some in Hd as (u & _ & ->). done.
  - destruct Ha as [Hc Hw]. simplify_eq. cbn. split_and!; [done | done |]. intros E. split_and!; auto.
Qed.
End proxy.

(** ** Chat *)

Definition in_time (deadline : option time) (p : poll) : Prop := match deadline with Some d => (po_at p <= d)%Z | None => True end.

Definition is_error (p : poll) : Prop := ∃ e, po_answer p = inr e.

(** Why a turn was settled the way it was. *)
Definition reason (deadline : option time) (ps : list poll) (v : verdict) : Prop :=
  ∃ k p, ps !! k = Some p ∧
  match v with
  | V_Complete => po_answer p = inl TaskCompleted ∧ in_time deadline p
  | V_Fail _ =>
      ¬ in_time deadline p ∨ (∃ m, po_answer p = inl (TaskFailed m)) ∨ po_answer p = inl TaskCanceled ∨
      (4 ≤ k ∧ ∀ i q, k ≤ i + 4 → i ≤ k → ps !! i = Some q → is_error q)
  end.

Lemma settle_loop_reason taskID d pre errs ps v :
  errs ≤ length pre → (∀ i q, length pre ≤ i + errs → pre !! i = Some q → is_error q) →
  settle_loop taskID d errs ps = Some v → reason d (pre ++ ps) v.
Proof.
  revert pre errs. induction ps as [| p ps IH]; intros pre errs Hle Herr Hs; cbn in Hs; [done |].
  assert ((pre ++ p :: ps) !! length pre = Some p) as Hp by (by rewrite lookup_app_r, Nat.sub_diag).
  assert (∀ errs', errs' ≤ S (length pre) → (∀ i q, S (length pre) ≤ i + errs' → (pre ++ [p]) !! i = Some q → is_error q) →
    settle_loop taskID d errs' ps = Some v → reason d (pre ++ p :: ps) v) as Hnext.
  { intros errs' H1 H2 H3. replace (pre ++ p :: ps) with ((pre ++ [p]) ++ ps) by (by rewrite <- app_assoc).
    eapply IH; [| | exact H3]; rewrite length_app; cbn; [lia |]. intros i q Hi. apply H2. lia. }
  destruct (match d with Some d => (d <? po_at p)%Z | None => false end) eqn:Hd.
  { simplify_eq. exists (length pre), p. split; [done |]. left. destruct d; [| done]. cbn. bool_to_prop. lia. }
  assert (in_time d p) as Hin by (destruct d; [cbn; bool_to_prop; lia | done]).
  destruct (po_answer p) as [[| m | |] | e] eqn:Ha.
  - simplify_eq. by exists (length pre), p.
  - simplify_eq. exists (length pre), p. eauto 6.
  - simplify_eq. exists (length pre), p. auto 6.
  - apply (Hnext 0); [lia | | done]. intros i q Hi Hq. apply lookup_lt_Some in Hq. rewrite length_app in Hq. cbn in Hq. lia.
  - assert (∀ i q, length pre ≤ i + errs → i ≤ length pre → (pre ++ p :: ps) !! i = Some q → is_error q) as Hrun.
    { intros i q H1 H2 Hq. destruct (decide (i = length pre)) as [-> | Hne]; [rewrite Hp in Hq; simplify_eq; by exists e |].
      rewrite lookup_app_l in Hq by lia. by apply (Herr i). }
    destruct errs as [| [| [| [| errs]]]]; cbn in Hs;
      try (eapply Hnext; [| | exact Hs]; [lia |]; intros i q Hi Hq; apply (Hrun i q); [lia | apply lookup_lt_Some in Hq; rewrite length_app in Hq; cbn in Hq; lia |];
           replace (pre ++ p :: ps) with ((pre ++ [p]) ++ ps) by (by rewrite <- app_assoc); by apply lookup_app_l_Some).
    simplify_eq. exists (length pre), p. split; [done |]. do 3 right. split; [lia |]. intros i q H1 H2. apply Hrun; lia.
Qed.

(** A poll after the deadline ends the loop. *)
Lemma settle_loop_ends taskID d errs ps k p : ps !! k = Some p → (d < po_at p)%Z → is_Some (settle_loop taskID (Some d) errs ps).
Proof.
  revert errs k. induction ps as [| q ps IH]; intros errs k Hk Hd; [done |]. cbn.
  destruct (d <? po_at q)%Z eqn:E; [by eauto |]. destruct k as [| k]; [cbn in Hk; simplify_eq; bool_to_prop; lia |].
  destruct (po_answer q) as [[] |]; eauto. destruct errs as [| [| [| [| errs]]]]; cbn; eauto.
Qed.

(** The first [n] polls. *)
Definition first_polls (ps : nat → poll) (n : nat) : list poll := ps <$> Lists.List.seq 0 n.

Lemma first_polls_last ps n : first_polls ps (S n) !! n = Some (ps n).
Proof. unfold first_polls. by rewrite list_lookup_fmap, lookup_seq_lt by lia. Qed.

(** (C17) A turn accepted for asynchronous execution is settled: with a chat timeout
    and one poll a second, at the latest with the first poll after the timeout, and
    its instance is released then. The record that was queued says [completed] only
    when the agent reported the task as completed within the timeout, and [failed]
    only when the timeout passed, the agent reported it failed or canceled, or five
    polls in a row failed; fewer failing polls never fail a turn. *)
Theorem async_turn_settles env t0 t1 name l id taskID T t2 (ps : nat → poll) n :
  LedgerLaws.wf l → (nextID l < max_uint64)%Z → (0 < T)%Z →
  co_record (handleChat env t0 t1 name l) = Some id → co_settling (handleChat env t0 t1 name l) = Some taskID →
  (∀ k : nat, (t1 + (Z.of_nat k + 1) * Second <= po_at (ps k))%Z) → (T < Z.of_nat n * Second)%Z →
  ∃ l' r v, settleAsyncInvocation T t1 t2 id taskID (first_polls ps n) (co_ledger (handleChat env t0 t1 name l)) = Some (l', true) ∧
    records l' !! id = Some r ∧ reason (Some (t1 + T)%Z) (first_polls ps n) v ∧
    (Ledger.Status r = InvocationStatusCompleted ∧ v = V_Complete ∨ Ledger.Status r = InvocationStatusFailed ∧ v = V_Fail (Ledger.Error r)).
Proof.
  intros W Hn HT Hid Htask Hps HnT.
  assert (∃ inv, records (co_ledger (handleChat env t0 t1 name l)) !! id = Some inv) as [inv Hinv].
  { revert Hid Htask. unfold handleChat. case_decide; [done |]. destruct (he_decode env) as [req |]; [| done]. case_decide; [done |].
    destruct (he_preflight env name (cr_RequiredPaths req)); [done |]. set (meta := mkMeta _ _ _ _ _ _ _).
    pose proof (wf_next l W) as Hpos. pose proof (begin_spec t0 meta l ltac:(lia)) as Hb. destruct (Begin t0 meta l) as [l1 rec].
    destruct Hb as (_ & _ & _ & _ & _ & _ & _ & _ & _ & Hrec & _).
    destruct ((if cr_Async req then he_submit else he_chat) env _ _ _) as [a | e]; [| done]. destruct (cr_Async req); [| done]. cbn. intros [= <-] _.
    unfold Queued. destruct (update_spec t1 (ID rec) InvocationStatusQueued "" "" false l1 rec) as (E & _); [rewrite Hrec; apply lookup_insert_eq |].
    rewrite E, lookup_insert_eq. eauto. }
  unfold settleAsyncInvocation. rewrite (proj2 (Z.ltb_lt _ _) HT). change (Add t1 T) with (t1 + T)%Z.
  destruct n as [| n]; [lia |].
  pose proof (first_polls_last ps n) as Hlast.
  destruct (settle_loop_ends taskID (t1 + T)%Z 0 _ n (ps n) Hlast) as [v Hv].
  { specialize (Hps n). lia. }
  rewrite Hv. assert (reason (Some (t1 + T)%Z) (first_polls ps (S n)) v) as Hr.
  { apply (settle_loop_reason taskID _ [] 0); [done | | done]. intros i q _. by rewrite lookup_nil. }
  set (l1 := co_ledger (handleChat env t0 t1 name l)) in *.
  assert (∀ st res msg, ∃ r, records (finish t2 id st res msg l1) !! id = Some r ∧ Ledger.Status r = st ∧ Ledger.Error r = msg) as Hfin.
  { intros st res msg. unfold finish. destruct (update_spec t2 id st res msg true l1 inv Hinv) as (E & _). rewrite E, lookup_insert_eq. eauto. }
  destruct v as [| msg].
  - destruct (Hfin InvocationStatusCompleted ResultDone "") as (r & Hr1 & Hr2 & _). exists (Complete t2 id l1), r, V_Complete. split_and!; [done.. |]. by left.
  - destruct (Hfin InvocationStatusFailed ResultInternalError msg) as (r & Hr1 & Hr2 & Hr3).
    exists (FailResult t2 id ResultInternalError msg l1), r, (V_Fail msg). split_and!; [done.. |]. right. by rewrite Hr3.
Qed.

(** ** The theorems at concrete inputs *)

Section witnesses.
#[local] Existing Instance bytewise_lower.

Definition demo_registry : Registry.Registry (card := string) := Registry.Register (@id string) 5 "coder" (Registry.NewRegistry 90).

Lemma control_plane_gated_witness :
  unauthorized "secret" "guess" ∧
  registry_effect (@id string) inl "secret" "guess" 7 (Registry.mkRequest Registry.MethodDelete "/agents/coder" "") demo_registry = demo_registry.
Proof.
  split; [by split |].
  destruct (control_plane_gated (@id string) inl "secret" "guess" 7 (Registry.mkRequest Registry.MethodDelete "/agents/coder" "") demo_registry)
    as [_ [H | [[H _] | (_ & name & H & Hc & _)]]]; [by split | exact H | discriminate H |].
  vm_compute in H. injection H as H. subst name. vm_compute in Hc. discriminate Hc.
Defined.

Definition demo_coder : agentProcess := mkProcess (mkConfig "coder" "/srv/coder" "" 9802 1 "" "token" "admin") false 0 "token" None "" false.

(** Coder is asked, answers with a stream of one line that has data in it, and the
    body ends. *)
Definition demo_proxy : proxy_env :=
  mkProxyEnv Some (inl "{}") (λ _, inl []) (λ _ _, None) (λ _, None)
    (mkSched [] (mkRange 9802 9810) 9803 {[0%Z := demo_coder]} 1 {["coder" := 0%Z]} ∅ ∅ ∅ ∅ true false "admin" defaultSupervisorConfig [])
    (λ _, Some "http://evil.example/") (λ _, None) (λ name _, mkMeta "a2a_proxy" name "message/send" "ctx" "m1" "hi" "") None
    (λ _, inl (mkUpstream 200 true [mkRead ("data: x" +:+ nl) 11 None More; mkRead "" 12 None EOF])).

Lemma empty_ledger_wf : LedgerLaws.wf NewInvocationLedger.
Proof.
  split; cbn; [done | apply NoDup_nil_2 | | by intros id r; rewrite lookup_empty | by intros id Hid%not_elem_of_nil].
  intros id. rewrite lookup_empty. split; [by intros Hid%not_elem_of_nil | by intros []%is_Some_None].
Qed.

Lemma proxy_ledger_truthful_witness :
  ∃ o, handleA2AProxy (λ _, None) demo_proxy 10 20 "/a2a/coder" NewInvocationLedger newLiveEventHub = Some o ∧
    o_record o = Some "inv-1" ∧ o_relayed o = ["data: x" +:+ nl] ∧
    ∃ r, records (o_ledger o) !! "inv-1" = Some r ∧ told_truly demo_proxy o r.
Proof.
  eexists. split; [vm_compute; reflexivity |]. split; [reflexivity |]. split; [reflexivity |].
  destruct (proxy_ledger_truthful (λ _, None) demo_proxy 10 20 "/a2a/coder" NewInvocationLedger newLiveEventHub _ empty_ledger_wf
    ltac:(vm_compute; reflexivity) ltac:(vm_compute; reflexivity)) as (_ & _ & r & Hr & Ht).
  exists r. split; [exact Hr | exact Ht].
Defined.

(** The address on the card is not the one that gets the token. *)
Lemma proxy_reach_witness :
  ∃ o req, handleA2AProxy (λ _, None) demo_proxy 10 20 "/a2a/coder" NewInvocationLedger newLiveEventHub = Some o ∧
    o_sent o = Some req ∧ s_url req = "http://127.0.0.1:9802/" ∧ s_token req = "token" ∧ o_woken o = Some "coder".
Proof.
  eexists _, _. split; [vm_compute; reflexivity |]. split; [reflexivity |].
  destruct (proxy_reach (λ _, None) demo_proxy 10 20 "/a2a/coder" NewInvocationLedger newLiveEventHub _ ltac:(vm_compute; reflexivity))
    as (_ & Hs & _).
  destruct (Hs _ eq_refl) as (name & Hn & _ & Ht). injection Hn as <-.
  destruct (Ht ltac:(discriminate)) as (ptr & p & Ha & Hp & Hu & Htok). vm_compute in Ha. injection Ha as <-. vm_compute in Hp. injection Hp as <-.
  split; [exact Hu | split; [exact Htok | reflexivity]].
Defined.

(** The task is reported as completed by the third poll. *)
Definition demo_chat : chat_env :=
  mkChatEnv (Some (mkChat "hello" "" [] "" true)) (λ _ _, None) "ctx-1" true (λ _ _ _, inl "") (λ _ _ _, inl "task-1").
Definition demo_polls (k : nat) : poll :=
  mkPoll (10 + (Z.of_nat k + 1) * Second) (if decide (k < 2) then inl TaskOther else inl TaskCompleted).

Lemma async_turn_settles_witness :
  ∃ l' r v, settleAsyncInvocation (5 * Second) 10 99 "inv-1" "task-1" (first_polls demo_polls 6)
      (co_ledger (handleChat demo_chat 9 10 "coder" NewInvocationLedger)) = Some (l', true) ∧
    records l' !! "inv-1" = Some r ∧ reason (Some (10 + 5 * Second)%Z) (first_polls demo_polls 6) v.
Proof.
  destruct (async_turn_settles demo_chat 9 10 "coder" NewInvocationLedger "inv-1" "task-1" (5 * Second) 99 demo_polls 6) as (l' & r & v & H1 & H2 & H3 & _);
    [exact empty_ledger_wf | vm_compute; reflexivity.. | intros k; unfold demo_polls; cbn [po_at]; lia | vm_compute; reflexivity |].
  exists l', r, v. split; [exact H1 | split; [exact H2 | exact H3]].
Defined.
End witnesses.
