(* ===== verification/Activation.v ===== *)
(** * Joining activations and recovering invocations ([internal/scheduler/scheduler.go])

    [runActivation], which lets concurrent callers share one activation of an
    agent, as a step system of its sections under [activationMu]; and
    [recoverAgentInvocations], which a restarted agent is given its interrupted
    invocations by. *)
From S2P Require Import Prelude GoBase GoStrings Ledger LedgerLaws.
From Stdlib Require Import ZArith Lia.

(** ** Single flight

    [calls] are the results of the calls that are done; [leaders] run the
    activation of a call, [joined] wait for one, [returned] have come back from
    one. An error is its text, [None] for nil. *)
Record flights := mkFlights {
  activations : gmap string Z;
  calls : gmap Z (option string);
  nextCall : Z;
  leaders : list (string * Z);
  joined : list (string * Z);
  returned : list (string * Z * option string);
}.

Definition grounded : flights := mkFlights ∅ ∅ 0 [] [] [].

(** The first section: join the call under way, or lead a new one. *)
Definition enter (name : string) (s : flights) : flights :=
  match activations s !! name with
  | Some c => mkFlights (activations s) (calls s) (nextCall s) (leaders s) (joined s ++ [(name, c)]) (returned s)
  | None =>
      let c := nextCall s in
      mkFlights (<[name := c]> (activations s)) (calls s) (c + 1) (leaders s ++ [(name, c)]) (joined s) (returned s)
  end.

(** The last section of the leader. *)
Definition land (name : string) (c : Z) (err : option string) (s : flights) : flights :=
  mkFlights (delete name (activations s)) (<[c := err]> (calls s)) (nextCall s) (leaders s) (joined s) (returned s ++ [(name, c, err)]).

Definition with_leaders (l : list (string * Z)) (s : flights) : flights :=
  mkFlights (activations s) (calls s) (nextCall s) l (joined s) (returned s).

Inductive fly : flights → flights → Prop :=
| f_enter s name : fly s (enter name s)
| f_land s l rest name c err : leaders s = l ++ (name, c) :: rest → fly s (with_leaders (l ++ rest) (land name c err s))
| f_leave s l rest name c err :
    joined s = l ++ (name, c) :: rest → calls s !! c = Some err →
    fly s (mkFlights (activations s) (calls s) (nextCall s) (leaders s) (l ++ rest) (returned s ++ [(name, c, err)])).

Record flights_ok (s : flights) : Prop := {
  fo_leaders : NoDup (leaders s);
  fo_active name c : (name, c) ∈ leaders s ↔ activations s !! name = Some c;
  fo_inj n1 n2 c : activations s !! n1 = Some c → activations s !! n2 = Some c → n1 = n2;
  fo_next name c : activations s !! name = Some c → (c < nextCall s)%Z ∧ calls s !! c = None;
  fo_done c : is_Some (calls s !! c) → (c < nextCall s)%Z;
  fo_joined name c : (name, c) ∈ joined s → activations s !! name = Some c ∨ is_Some (calls s !! c);
  fo_returned name c err : (name, c, err) ∈ returned s → calls s !! c = Some err;
}.

Lemma flights_ok_enter name s : flights_ok s → flights_ok (enter name s).
Proof.
  intros []. unfold enter. destruct (activations s !! name) as [c |] eqn:Ha; constructor; cbn; try assumption.
  - intros n d [Hin | [= -> ->]%list_elem_of_singleton]%elem_of_app; auto.
  - apply NoDup_app. split_and!; [done | | apply NoDup_singleton]. intros x Hx ->%list_elem_of_singleton.
    apply fo_active0 in Hx. congruence.
  - intros n c. rewrite elem_of_app, list_elem_of_singleton, fo_active0, lookup_insert_Some. split.
    + intros [Hc | [= -> ->]]; [right | by left]. split; [congruence | done].
    + intros [[-> ->] | [_ Hc]]; auto.
  - intros n1 n2 c [[<- <-] | [? H1]]%lookup_insert_Some [[<- ?] | [? H2]]%lookup_insert_Some; try done; [..| by eapply fo_inj0].
    + destruct (fo_next0 _ _ H2). lia.
    + subst c. destruct (fo_next0 _ _ H1). lia.
  - intros n c [[<- <-] | [_ Hc]]%lookup_insert_Some; [| destruct (fo_next0 _ _ Hc); split; [lia | done]].
    split; [lia |]. apply eq_None_not_Some. intros Hs%fo_done0. lia.
  - intros c Hc%fo_done0. lia.
  - intros n c Hin. destruct (fo_joined0 _ _ Hin) as [Hc | Hc]; [| auto]. left. rewrite lookup_insert_ne; [done | congruence].
Qed.

Lemma flights_ok_fly s s' : flights_ok s → fly s s' → flights_ok s'.
Proof.
  intros Hok Hstep. destruct Hstep as [s name | s l rest name c err Hl | s l rest name c err Hj Hc]; [by apply flights_ok_enter | |]; destruct Hok.
  - rewrite Hl in fo_leaders0. assert (activations s !! name = Some c) as Ha by (apply fo_active0; rewrite Hl; set_solver).
    destruct (fo_next0 _ _ Ha) as [Hlt Hnone]. apply NoDup_app in fo_leaders0 as (N1 & N2 & N3). apply NoDup_cons in N3 as [N3 N4].
    constructor; cbn; try assumption.
    + apply NoDup_app. split_and!; [done | | done]. intros x Hx Hr. apply (N2 x Hx). by right.
    + intros n d. rewrite lookup_delete_Some, <- fo_active0, Hl, !elem_of_app, elem_of_cons. split.
      * intros Hin. assert ((n, d) ≠ (name, c)) as Hne by (intros [= -> ->]; destruct Hin as [Hin | Hin]; [apply (N2 _ Hin); by left | done]).
        split; [| tauto]. intros <-. apply Hne. f_equal. assert (activations s !! name = Some d) as E; [| congruence].
        apply fo_active0. rewrite Hl. set_solver.
      * intros [Hne [? | [[= <- <-] | ?]]]; tauto.
    + intros n1 n2 d [_ H1]%lookup_delete_Some [_ H2]%lookup_delete_Some. by eapply fo_inj0.
    + intros n d [Hne Hd]%lookup_delete_Some. destruct (fo_next0 _ _ Hd). split; [done |]. rewrite lookup_insert_ne; [done |].
      intros ->. apply Hne. by eapply fo_inj0.
    + intros d [e [[<- _] | [_ He]]%lookup_insert_Some]; [done | apply fo_done0; eauto].
    + intros n d Hin. destruct (fo_joined0 _ _ Hin) as [Hd | [e He]].
      * destruct (decide (n = name)) as [-> | ?]; [right; assert (c = d) as -> by congruence; by rewrite lookup_insert_eq | left; by rewrite lookup_delete_ne].
      * right. destruct (decide (c = d)) as [-> | ?]; [by rewrite lookup_insert_eq | rewrite lookup_insert_ne by done; eauto].
    + intros n d e [Hin | [= -> -> ->]%list_elem_of_singleton]%elem_of_app; [| by rewrite lookup_insert_eq].
      specialize (fo_returned0 _ _ _ Hin). rewrite lookup_insert_ne; [done | congruence].
  - constructor; cbn; try assumption.
    + intros n d Hin. apply fo_joined0. rewrite Hj. set_solver.
    + intros n d e [Hin | [= -> -> ->]%list_elem_of_singleton]%elem_of_app; eauto.
Qed.

(** At most one activation of an agent runs at a time; whoever joins one is waiting
    for a run that is under way or done, and everyone comes back with the result of
    the run of his call, which never changes. *)
Lemma single_flight s :
  rtc fly grounded s →
  (∀ name c1 c2, (name, c1) ∈ leaders s → (name, c2) ∈ leaders s → c1 = c2) ∧
  (∀ name c, (name, c) ∈ joined s → (name, c) ∈ leaders s ∨ is_Some (calls s !! c)) ∧
  (∀ n1 n2 c e1 e2, (n1, c, e1) ∈ returned s → (n2, c, e2) ∈ returned s → e1 = e2).
Proof.
  intros Hr. assert (flights_ok s) as [].
  { revert Hr. apply rtc_invariant; [by intros; eapply flights_ok_fly |]. constructor; cbn; try (by intros *; rewrite ?lookup_empty; set_solver). apply NoDup_nil_2. }
  split_and!.
  - intros name c1 c2 H1%fo_active0 H2%fo_active0. congruence.
  - intros name c Hin. destruct (fo_joined0 _ _ Hin); [left; by apply fo_active0 | by right].
  - intros n1 n2 c e1 e2 H1%fo_returned0 H2%fo_returned0. congruence.
Qed.

(** ** Recovering the invocations of a restarted agent *)

(** What the dispatch of a continuation prompt answers for a context, as the
    [n]-th of the recovery: an error or nothing. *)
Definition recover_record (now : time) (dispatch : InvocationRecord → option string) (l : InvocationLedger) (r : InvocationRecord) : InvocationLedger :=
  if decide (ContextID r = "") then l
  else
    let l := Recovering now (ID r) l in
    match dispatch r with
    | Some err => RecoveryFailed now (ID r) err l
    | None => Recovered now (ID r) l
    end.

Definition recoverAgentInvocations (now : time) (dispatch : InvocationRecord → option string) (agentName : string) (l : InvocationLedger) : InvocationLedger :=
  foldl (recover_record now dispatch) l (RecoverableForAgent agentName l).

(** The recovered state of a record. *)
Definition recovery_status (o : option string) : string := match o with Some _ => InvocationStatusRecoveryFailed | None => InvocationStatusRecovered end.

Lemma recover_record_other now dispatch l r id : id ≠ ID r → records (recover_record now dispatch l r) !! id = records l !! id.
Proof.
  intros Hne. unfold recover_record. case_decide; [done |].
  assert (∀ st res msg fin l, records (updateStatus now (ID r) st res msg fin l) !! id = records l !! id) as Hu.
  { intros st res msg fin l0. destruct (records l0 !! ID r) as [x |] eqn:E; [| by rewrite update_None].
    destruct (update_spec now (ID r) st res msg fin l0 x E) as (-> & _). by rewrite lookup_insert_ne. }
  by destruct (dispatch r); unfold RecoveryFailed, Recovered, Recovering; rewrite !Hu.
Qed.

Lemma recover_record_self now dispatch l r x :
  ContextID r ≠ "" → records l !! ID r = Some x →
  ∃ y, records (recover_record now dispatch l r) !! ID r = Some y ∧ Status y = recovery_status (dispatch r) ∧ Error y = default "" (dispatch r) ∧ FinishedAt y = now.
Proof.
  intros Hc Hx. unfold recover_record. rewrite decide_False by done. unfold Recovering.
  destruct (update_spec now (ID r) InvocationStatusRecovering "" "" false l x Hx) as (E & _).
  set (l1 := updateStatus now (ID r) InvocationStatusRecovering "" "" false l) in *.
  assert (∀ st msg, records (updateStatus now (ID r) st "" msg true l1) !! ID r = Some (updated now st msg true (updated now InvocationStatusRecovering "" false x))) as Hu.
  { intros st msg. destruct (update_spec now (ID r) st "" msg true l1 _ ltac:(rewrite E; apply lookup_insert_eq)) as (-> & _). by rewrite lookup_insert_eq. }
  unfold RecoveryFailed, Recovered. destruct (dispatch r); rewrite Hu; eexists; by split_and!.
Qed.

(** After the recovery of an agent, every invocation of it that was recoverable has
    been dispatched once, in its own context, and is recovered or failed with the
    error of the dispatch; no other invocation has changed. *)
Lemma recovery_settles now dispatch agentName l id r :
  LedgerLaws.wf l → records l !! id = Some r →
  if recoverable agentName r
  then ∃ y, records (recoverAgentInvocations now dispatch agentName l) !! id = Some y ∧ Status y = recovery_status (dispatch r) ∧
         Error y = default "" (dispatch r) ∧ FinishedAt y = now
  else records (recoverAgentInvocations now dispatch agentName l) !! id = Some r.
Proof.
  intros W Hr. unfold recoverAgentInvocations.
  assert (∀ rs l0, id ∉ ID <$> rs → records (foldl (recover_record now dispatch) l0 rs) !! id = records l0 !! id) as Hother.
  { induction rs as [| x rs IH]; intros l0 Hin; [done |]. cbn. rewrite IH by set_solver. apply recover_record_other. set_solver. }
  assert (ID r = id) as Hid by (apply (ro_id id r); by apply (wf_records l W)).
  destruct (recoverable agentName r) eqn:Hrec.
  - assert (r ∈ RecoverableForAgent agentName l) as Hin.
    { unfold RecoverableForAgent. apply list_elem_of_filter. split; [by rewrite Hrec |]. apply (snapshot_elem l r W). by rewrite Hid. }
    assert (NoDup (ID <$> RecoverableForAgent agentName l)) as Hnd.
    { eapply sublist_NoDup; [| apply fmap_sublist, sublist_filter]. rewrite (snapshot_ids l W). apply (wf_order l W). }
    apply list_elem_of_split in Hin as (before & after & Hsplit). rewrite Hsplit in Hnd |- *. rewrite fmap_app, fmap_cons in Hnd.
    apply NoDup_app in Hnd as (_ & Hb & [Ha _]%NoDup_cons). rewrite foldl_app. cbn [foldl].
    rewrite Hother by (rewrite <- Hid; done). rewrite <- Hid. eapply recover_record_self.
    + unfold recoverable in Hrec. bool_to_prop. by destruct (ContextID r).
    + rewrite <- Hid in Hother, Hr. rewrite Hother; [exact Hr |]. intros Hin. apply (Hb _ Hin). by left.
  - rewrite Hother; [done |]. intros (x & Hx & Hin)%list_elem_of_fmap. unfold RecoverableForAgent in Hin.
    apply list_elem_of_filter in Hin as [Hrx Hin]. apply (snapshot_elem l x W) in Hin. rewrite <- Hx, Hr in Hin. simplify_eq. by rewrite Hrec in Hrx.
Qed.
