(* ===== verification/TranscriptLaws.v ===== *)
(** * What the transcripts guarantee ([internal/wrapper/transcript.go])

    The files refine one abstract log per context, which says exactly which turns a
    failed write costs; pruning by age removes nothing that the listing shows. *)
From S2P Require Import Prelude GoBase GoStrings Transcript.
From Stdlib Require Import ZArith Lia Ascii.

(** ** The log of one context *)

(** How its file ends: with a newline, in the middle of a record, or after a whole
    record whose newline is missing. *)
Inductive ending := Clean | Torn | Unended (t : TranscriptTurn).

Record context_log := mkLog { kept : list TranscriptTurn; ended : ending; numbered : option Z; listed : bool }.

Definition fresh : context_log := mkLog [] Clean None false.

(** What a reader is given. *)
Definition said (l : context_log) : list TranscriptTurn := kept l ++ (if ended l is Unended t then [t] else []).

(** A restart forgets the number of the last turn. *)
Definition forget (l : context_log) : context_log := mkLog (kept l) (ended l) None (listed l).

Lemma short_empty : (Z.of_nat (blen "") < max_line)%Z.
Proof. unfold max_line. cbn. lia. Qed.

#[local] Hint Resolve short_empty : core.

Lemma byte_take_all k s : blen s ≤ k → byte_take k s = s.
Proof.
  revert k. induction s as [| x s IH]; intros [| k] Hle; cbn in *; try done; [lia |]. f_equal. apply IH. lia.
Qed.

Section laws.
Context (transcriptFileName : string → string) (Encode : TranscriptTurn → option string) (Unmarshal : string → option TranscriptTurn).

#[local] Abbreviation Append := (Append transcriptFileName Encode Unmarshal).
#[local] Abbreviation readLocked := (readLocked transcriptFileName Unmarshal).
#[local] Abbreviation next_turn := (next_turn transcriptFileName Unmarshal).
#[local] Abbreviation scan := (scan Unmarshal).

(** What an append does: a whole line is lost when it lands behind a record that has
    no newline, and takes that record with it; a part of a line leaves the file
    torn. *)
Definition log_append (now : time) (turn : TranscriptTurn) (flt : fault) (l : context_log) : context_log :=
  let next := match numbered l with Some n => Some n | None => if decide (flt = F_read) then None else Some (Z.of_nat (length (said l))) end in
  match next with
  | None => l
  | Some n =>
      let t := stamp now n turn in
      match Encode t with
      | None => l
      | Some line =>
          let whole := if ended l is Clean then kept l ++ [t] else kept l in
          match flt with
          | F_mkdir | F_open => l
          | F_write k =>
              if decide (k = 0) then l
              else mkLog (kept l) (if ended l is Clean then if decide (blen line ≤ k) then Unended t else Torn else Torn) (numbered l) (listed l)
          | F_close => mkLog whole Clean (numbered l) (listed l)
          | F_index => mkLog whole Clean (Some (n + 1)%Z) (listed l)
          | _ => mkLog whole Clean (Some (n + 1)%Z) true
          end
      end
  end.

(** The text left by writes that broke off: never a record, whatever follows. *)
Inductive broken : string → Prop :=
| broken_cut t line k : Encode t = Some line → 0 < k < blen line → broken (byte_take k line)
| broken_glued t line t' line' k : Encode t = Some line → Encode t' = Some line' → 0 < k → broken (line +:+ byte_take k line')
| broken_again s t line k : broken s → Encode t = Some line → 0 < k → broken (s +:+ byte_take k line).

(** What is relied on of the codec: records are read back, and broken text is not
    taken for one. *)
Record codec : Prop := {
  read_back t line : Encode t = Some line → TrimSuffix line cr ≠ "" ∧ Unmarshal (TrimSuffix line cr) = Some t;
  broken_unread s : broken s → Unmarshal (TrimSuffix s cr) = None;
}.

(** The contexts in use, whose files differ. *)
Context (cs : list string).

Definition distinct_files : Prop := ∀ c c', c ∈ cs → c' ∈ cs → transcriptFileName c = transcriptFileName c' → c = c'.

(** The line to be written stays within what the scanner accepts. *)
Definition fits (now : time) (c : string) (turn : TranscriptTurn) (flt : fault) (s : TranscriptStore) : Prop :=
  ∀ n line, next_turn c flt s = Some n → Encode (stamp now n turn) = Some line →
  (Z.of_nat (blen (from_option tail "" (files s !! transcriptFileName c)) + blen line) < max_line)%Z.

(** Histories of a store and of its logs; the flag tells whether an append has met a
    fault. *)
Inductive history : bool → TranscriptStore → (string → context_log) → Prop :=
| history_new : history false (NewTranscriptStore ∅ NoIndex) (λ _, fresh)
| history_append b s l now c turn flt :
    history b s l → c ∈ cs → fits now c turn flt s →
    history (b || negb (bool_decide (flt = F_none))) (Append now c turn flt s).1 (λ c', if decide (c' = c) then log_append now turn flt (l c) else l c')
| history_restart b s l :
    history b s l → history b (NewTranscriptStore (files s) (index_json s)) (λ c, forget (l c)).

(** ** Reading *)

Lemma scan_app l1 l2 acc :
  scan (l1 ++ l2) acc = match scan l1 acc with (ts, false) => scan l2 ts | r => r end.
Proof.
  revert acc. induction l1 as [| x l1 IH]; intros acc; [done |]. cbn [app Transcript.scan]. cbv zeta.
  destruct (decide (max_line ≤ _)%Z); [done |]. destruct (decide (TrimSuffix x cr = "")); [apply IH |]. destruct (Unmarshal _); apply IH.
Qed.

Lemma scan_line x acc :
  (Z.of_nat (blen x) < max_line)%Z →
  scan [x] acc = (if decide (TrimSuffix x cr = "") then acc else match Unmarshal (TrimSuffix x cr) with Some t => acc ++ [t] | None => acc end, false).
Proof.
  intros Hx. cbn [Transcript.scan]. cbv zeta. destruct (decide (max_line ≤ _)%Z); [lia |].
  destruct (decide (TrimSuffix x cr = "")); [done |]. by destruct (Unmarshal _).
Qed.

Context (Hcodec : codec).

Lemma scan_record t line acc : Encode t = Some line → (Z.of_nat (blen line) < max_line)%Z → scan [line] acc = (acc ++ [t], false).
Proof. intros [Hne Hr]%(read_back Hcodec) Hx. rewrite scan_line, decide_False, Hr; done. Qed.

Lemma scan_broken s acc : broken s → (Z.of_nat (blen s) < max_line)%Z → scan [s] acc = (acc, false).
Proof. intros Hb%(broken_unread Hcodec) Hx. rewrite scan_line, Hb by done. by destruct (decide _). Qed.

(** ** The files and the logs *)

Inductive ends : string → ending → Prop :=
| ends_clean : ends "" Clean
| ends_torn s : broken s → ends s Torn
| ends_unended t s : Encode t = Some s → ends s (Unended t).

Definition file_rel (f : option file) (l : context_log) : Prop :=
  match f with
  | None => kept l = [] ∧ ended l = Clean
  | Some f => scan (lines f) [] = (kept l, false) ∧ ends (tail f) (ended l) ∧ (Z.of_nat (blen (tail f)) < max_line)%Z
  end.

Lemma file_rel_open now f l : file_rel f l → file_rel (Some (default (mkFile [] "" now) f)) l.
Proof. destruct f; [done |]. intros [Hk He]. unfold file_rel, default. rewrite Hk, He. split_and!; [done | constructor | auto]. Qed.

Lemma file_rel_read c s l : file_rel (files s !! transcriptFileName c) l → readLocked c s = (said l, false).
Proof.
  unfold Transcript.readLocked, said. destruct (files s !! _) as [f |]; [| intros [-> ->]; done]. intros (Hs & He & Hl).
  unfold file_lines. rewrite scan_app, Hs. inversion He as [Ht | s' Hb Ht | t s' Ht Hs']; subst; [by rewrite decide_True, app_nil_r | |].
  - destruct (decide (tail f = "")); rewrite app_nil_r; [done |]. by apply scan_broken.
  - destruct (decide (tail f = "")) as [E |]; [rewrite E in Ht; by destruct (read_back Hcodec _ _ Ht) |]. by apply scan_record.
Qed.

(** A whole line at the end. *)
Lemma file_rel_line f l t line now n b :
  file_rel (Some f) l → Encode t = Some line → (Z.of_nat (blen (tail f) + blen line) < max_line)%Z →
  file_rel (Some (mkFile (lines f ++ [tail f +:+ line]) "" now)) (mkLog (if ended l is Clean then kept l ++ [t] else kept l) Clean n b).
Proof.
  intros (Hs & He & Hl) Ht Hm. cbn [file_rel lines tail kept ended]. split_and!; [| constructor | auto].
  assert (line = byte_take (S (blen line)) line) as Hall by (rewrite byte_take_all; [done | lia]).
  rewrite scan_app, Hs. inversion He as [E1 E2 | s' Hb E1 E2 | t' s' Ht' E1 E2]; subst.
  - change ("" +:+ line) with line. apply scan_record; [done | lia].
  - apply scan_broken; [| rewrite blen_app; lia]. rewrite Hall. eapply broken_again; [done | exact Ht | lia].
  - apply scan_broken; [| rewrite blen_app; lia]. rewrite Hall. eapply broken_glued; [exact Ht' | exact Ht | lia].
Qed.

(** A part of a line at the end. *)
Lemma file_rel_cut f l t line k now n b :
  file_rel (Some f) l → Encode t = Some line → k ≠ 0 → (Z.of_nat (blen (tail f) + blen line) < max_line)%Z →
  file_rel (Some (mkFile (lines f) (tail f +:+ byte_take k line) now))
    (mkLog (kept l) (if ended l is Clean then if decide (blen line ≤ k) then Unended t else Torn else Torn) n b).
Proof.
  intros (Hs & He & Hl) Ht Hk Hm. cbn [file_rel lines tail kept ended]. split_and!; [done | | rewrite blen_app, blen_byte_take; lia].
  inversion He as [E1 E2 | s' Hb E1 E2 | t' s' Ht' E1 E2]; subst.
  - destruct (decide (blen line ≤ k)) as [Hle | Hlt]; cbn; constructor.
    + by rewrite byte_take_all.
    + eapply broken_cut; [exact Ht | lia].
  - constructor. eapply broken_again; [done | exact Ht | lia].
  - constructor. eapply broken_glued; [exact Ht' | exact Ht | lia].
Qed.

(** ** The store and the logs *)

Record rel (c : string) (s : TranscriptStore) (l : context_log) : Prop := {
  rel_file : file_rel (files s !! transcriptFileName c) l;
  rel_number : counters s !! c = numbered l;
  rel_listed : listed l = true → readIndexLocked s !! c = Some (transcriptFileName c);
}.

Lemma rel_next c flt s l :
  rel c s l →
  next_turn c flt s = match numbered l with Some n => Some n | None => if decide (flt = F_read) then None else Some (Z.of_nat (length (said l))) end.
Proof. intros [Hf Hn _]. unfold Transcript.next_turn. rewrite Hn. destruct (numbered l); [done |]. by rewrite (file_rel_read _ _ _ Hf). Qed.

(** The other contexts are not touched. *)
Lemma Append_other now c turn flt s c' l :
  c' ≠ c → transcriptFileName c' ≠ transcriptFileName c → rel c' s l → rel c' (Append now c turn flt s).1 l.
Proof.
  intros Hc Hn [Hf Hnum Hli]. unfold Transcript.Append.
  assert (∀ bytes nl, rel c' (write now (transcriptFileName c) bytes nl s) l) as Hw.
  { intros bytes nl. split; cbn; [by rewrite lookup_insert_ne by congruence | done | done]. }
  destruct (decide (flt = F_mkdir)); [done |]. destruct (next_turn c flt s) as [k |]; [| done]. cbv zeta.
  destruct (decide (flt = F_open)); [done |]. destruct (Encode _) as [line |]; [| apply Hw].
  destruct flt; try apply Hw; try done.
  all: assert (rel c' (mkStore (<[c := (k + 1)%Z]> (counters (write now (transcriptFileName c) line true s))) (files (write now (transcriptFileName c) line true s))
        (index_json (write now (transcriptFileName c) line true s))) l) as Hs
    by (destruct (Hw line true); split; [done | cbn; by rewrite lookup_insert_ne by congruence | done]).
  all: destruct (decide _) as [Hd |]; [exact Hs |]; try done.
  all: unfold updateIndexLocked; destruct (decide (_ !! c = _)); [exact Hs |]; destruct Hs; (split; [done | done |]); intros Hl; cbn;
    rewrite lookup_insert_ne by congruence; by apply Hli.
Qed.

Lemma updateIndex_rel c s l b : rel c s l → rel c (updateIndexLocked transcriptFileName c s) (mkLog (kept l) (ended l) (numbered l) b).
Proof.
  intros [Hf Hn _]. unfold updateIndexLocked. destruct (decide (_ !! c = _)); split; try done. intros _. cbn. by rewrite lookup_insert_eq.
Qed.

Lemma Append_same now c turn flt s l :
  rel c s l → fits now c turn flt s → rel c (Append now c turn flt s).1 (log_append now turn flt l).
Proof.
  intros Hrel Hfits. unfold Transcript.Append, log_append, fits in *. rewrite (rel_next _ _ _ _ Hrel) in *. destruct Hrel as [Hf Hn Hl]. cbv zeta.
  destruct (match numbered l with Some n => Some n | None => _ end) as [k |]; [| by destruct (decide _)].
  destruct (decide (flt = F_mkdir)) as [-> |]; [by destruct (Encode _) |]. destruct (decide (flt = F_open)) as [-> |]; [by destruct (Encode _) |].
  pose proof (file_rel_open now _ _ Hf) as Hopen. set (f := default (mkFile [] "" now) (files s !! transcriptFileName c)) in *.
  destruct (Encode (stamp now k turn)) as [line |] eqn:He.
  2: { split; [| done | done]. cbn. by rewrite lookup_insert_eq. }
  specialize (Hfits k line eq_refl He).
  assert (Z.of_nat (blen (tail f) + blen line) < max_line)%Z as Hm by (unfold f; by destruct (files s !! transcriptFileName c)).
  assert (∀ n b, file_rel (Some (mkFile (lines f ++ [tail f +:+ line]) "" now)) (mkLog (if ended l is Clean then kept l ++ [stamp now k turn] else kept l) Clean n b))
    as Hline by (intros n' b; by apply file_rel_line).
  destruct flt as [| | | | j | |]; try done.
  3: { destruct (decide (j = 0)) as [-> | Hj]; (split; [| done | done]); unfold write; cbn [files fst]; rewrite lookup_insert_eq; fold f.
       - by destruct line.
       - destruct (decide (byte_take j line = "")) as [E |]; [| by apply file_rel_cut].
         destruct line, j; try done. by destruct (read_back Hcodec _ _ He). }
  3: { split; [| done | done]. unfold write. cbn [files fst]. rewrite lookup_insert_eq. apply Hline. }
  1-2: rewrite decide_False by done.
  3: rewrite decide_True by done.
  1-2: change (mkLog ?x Clean ?n true) with (mkLog (kept (mkLog x Clean n (listed l))) (ended (mkLog x Clean n (listed l))) (numbered (mkLog x Clean n (listed l))) true);
    apply updateIndex_rel.
  all: split; [unfold write; cbn [files fst]; rewrite lookup_insert_eq; apply Hline | cbn; by rewrite lookup_insert_eq | exact Hl].
Qed.

(** A log whose appends have all succeeded. *)
Definition in_order (l : context_log) : Prop :=
  ended l = Clean ∧ (∀ n, numbered l = Some n → n = Z.of_nat (length (kept l))) ∧ t_Turn <$> kept l = Z.of_nat <$> Lists.List.seq 1 (length (kept l)).

Lemma log_append_in_order now turn l : in_order l → in_order (log_append now turn F_none l).
Proof.
  intros (He & Hn & Ht). unfold log_append, said. rewrite decide_False, He, app_nil_r by done.
  set (m := match numbered l with Some n => Some n | None => _ end). assert (m = Some (Z.of_nat (length (kept l)))) as ->.
  { unfold m. destruct (numbered l); [by rewrite (Hn _ eq_refl) | done]. }
  destruct (Encode _); [| by split]. split_and!; [done | |]; cbn.
  - intros n [= <-]. rewrite length_app. cbn. lia.
  - rewrite fmap_app, Ht, length_app, Nat.add_1_r, seq_S, fmap_app. cbn. repeat f_equal. lia.
Qed.

Lemma history_rel b s l : distinct_files → history b s l → ∀ c, c ∈ cs → rel c s (l c) ∧ (b = false → in_order (l c)).
Proof.
  intros Hd. induction 1 as [| b s l now c0 turn flt Hh IH Hc0 Hfits | b s l Hh IH]; intros c Hc.
  - split; [by split | done].
  - destruct (IH c Hc) as [Hr Ho]. destruct (decide (c = c0)) as [-> | Hne].
    + split; [by apply Append_same |]. intros Hb. destruct b, (decide (flt = F_none)) as [-> | Hf]; try done; [by apply log_append_in_order, Ho |].
      by rewrite bool_decide_false in Hb.
    + split; [apply Append_other; [done | | done]; intros E; by apply Hne, Hd |]. intros Hb. apply Ho. by destruct b.
  - destruct (IH c Hc) as [[Hf Hn Hl] Ho]. split; [by split |]. intros Hb. destruct (Ho Hb) as (He & _ & Ht). by split_and!.
Qed.

(** (C21) What a conversation has said survives the process that wrote it. After any
    history of appends to any contexts, of restarts, and of writes that failed or broke
    off at any byte - in which no line grows to 10 MiB, which would make the context
    unreadable (lemma long_record_wedges), and the contexts used have different file
    names - reading a context gives exactly the turns of its log: all of
    them, in order, except that a record left without its newline is lost together with the
    one written behind it. As long as no append has failed, they are numbered one after
    the other from 1, across restarts; and a context that has once been recorded without
    an error is in the index. The decoder is relied on to read back what the encoder
    wrote. *)
Theorem transcript_refines b s l c :
  distinct_files → history b s l → c ∈ cs →
  Read transcriptFileName Unmarshal c s = (said (l c), false) ∧
  (b = false → t_Turn <$> said (l c) = Z.of_nat <$> Lists.List.seq 1 (length (said (l c)))) ∧
  (listed (l c) = true → Contexts s !! c = Some (transcriptFileName c)).
Proof.
  intros Hd Hh Hc. destruct (history_rel b s l Hd Hh c Hc) as [[Hf Hn Hl] Ho]. split_and!; [by apply file_rel_read | | done].
  intros Hb. destruct (Ho Hb) as (He & _ & Ht). unfold said. by rewrite He, app_nil_r.
Qed.
End laws.

(** A record that the scanner does not accept: once the process that wrote it is gone, its
    context can neither be read nor appended to. *)
Lemma long_record_wedges tfn Encode Unmarshal now c turn flt s f x :
  files s !! tfn c = Some f → x ∈ lines f → (max_line ≤ Z.of_nat (blen x))%Z → counters s !! c = None →
  Append tfn Encode Unmarshal now c turn flt s = (s, true).
Proof.
  intros Hf (l1 & l2 & El)%list_elem_of_split Hx Hc. unfold Append. destruct (decide (flt = F_mkdir)); [done |]. unfold next_turn. rewrite Hc.
  destruct (decide (flt = F_read)); [done |]. unfold readLocked. rewrite Hf. unfold file_lines. rewrite El, <- app_assoc, scan_app.
  destruct (scan Unmarshal l1 []) as [ts []]; [done |]. cbn [scan app]. by rewrite decide_True.
Qed.

(** ** Pruning by age *)

Lemma bind_nil {A B} (f : A → list B) l : (∀ x, x ∈ l → f x = []) → l ≫= f = [].
Proof. induction l as [| x l IH]; intros Hf; [done |]. cbn. rewrite (Hf x) by (by left). apply IH. intros y ?. apply Hf. by right. Qed.

Lemma bind_ext_elem {A B} (f g : A → list B) l : (∀ x, x ∈ l → f x = g x) → l ≫= f = l ≫= g.
Proof. induction l as [| x l IH]; intros Hf; [done |]. cbn. rewrite (Hf x) by (by left). f_equal. apply IH. intros y ?. apply Hf. by right. Qed.

Section pruning.
Context (transcriptFileName : string → string) (Unmarshal : string → option TranscriptTurn).

#[local] Abbreviation readLocked := (readLocked transcriptFileName Unmarshal).
#[local] Abbreviation list_loop := (list_loop transcriptFileName Unmarshal).

(** What one context adds to the listing. *)
Definition shows (now : time) (s : TranscriptStore) (c : string) : option (list ContextSummary) :=
  match readLocked c s with (_, true) => None | (turns, false) => Some (option_list (summary now c turns)) end.

Definition shown (now : time) (s : TranscriptStore) (c : string) : list ContextSummary := default [] (shows now s c).

Lemma list_loop_spec now order s l :
  list_loop now order s = Some l ↔ (∀ c, c ∈ order → is_Some (shows now s c)) ∧ l = order ≫= shown now s.
Proof.
  revert l. induction order as [| c order IH]; intros l.
  { split; [intros [= <-]; split; [by intros ? ?%elem_of_nil | done] | by intros [_ ->]]. }
  cbn [Transcript.list_loop mbind list_bind]. setoid_rewrite elem_of_cons. unfold shown at 1.
  pose proof (eq_refl : shows now s c = match readLocked c s with (_, true) => None | (turns, false) => Some (option_list (summary now c turns)) end) as Hc.
  destruct (readLocked c s) as [turns []].
  { rewrite Hc. split; [done |]. intros [Ha _]. destruct (Ha c) as [? E]; [by left | congruence]. }
  rewrite Hc. cbn [default from_option id]. destruct (list_loop now order s) as [out |] eqn:Ho; cbn.
  - destruct (IH out) as [[Ha Hl] _]; [done |]. split.
    + intros [= <-]. split; [intros c' [-> | Hin]; [rewrite Hc; eauto | by apply Ha] | by rewrite Hl].
    + intros [_ ->]. by rewrite Hl.
  - split; [done |]. intros [Ha ->]. destruct (IH (order ≫= shown now s)) as [_ Hr]. discriminate Hr. split; [intros; apply Ha; by right | done].
Qed.

(** No record is younger than its file. *)
Definition dated (s : TranscriptStore) : Prop :=
  ∀ c name f t, Contexts s !! c = Some name → files s !! name = Some f → last (scan Unmarshal (file_lines f) []).1 = Some t → (t_TS t ≤ ModTime f)%Z.

Definition index_true (s : TranscriptStore) : Prop := ∀ c name, Contexts s !! c = Some name → name = transcriptFileName c.

Context (stat_err remove_err : string → bool) (write_err : bool) (now : time) (s : TranscriptStore).

#[local] Abbreviation cutoff := (Add now (- transcriptRetention)).

Definition gone (name : string) : Prop := match files s !! name with None => True | Some f => Before (ModTime f) cutoff = true end.

(** What pruning may have done so far. *)
Record pruned (fs : gmap string file) (index : gmap string string) : Prop := {
  pruned_files name : fs !! name = files s !! name ∨ (fs !! name = None ∧ gone name);
  pruned_index c : index !! c = Contexts s !! c ∨ (index !! c = None ∧ ∃ name, Contexts s !! c = Some name ∧ gone name);
}.

Lemma pruned_drop fs index c name :
  Contexts s !! c = Some name → gone name → pruned fs index → pruned fs (delete c index).
Proof.
  intros Hc Hg [Hf Hi]. split; [done |]. intros c'. destruct (decide (c' = c)) as [-> |]; [| by rewrite lookup_delete_ne].
  right. rewrite lookup_delete_eq. eauto.
Qed.

Lemma pruned_remove fs index name : gone name → pruned fs index → pruned (delete name fs) index.
Proof.
  intros Hg [Hf Hi]. split; [| done]. intros n. destruct (decide (n = name)) as [-> |]; [| by rewrite lookup_delete_ne].
  right. by rewrite lookup_delete_eq.
Qed.

Lemma compact_loop_pruned order x :
  (∀ c name, (c, name) ∈ order → Contexts s !! c = Some name) → index_json (cp_store x) = index_json s → pruned (files (cp_store x)) (cp_index x) →
  let x' := (compact_loop stat_err remove_err cutoff order x).1 in
  index_json (cp_store x') = index_json s ∧ pruned (files (cp_store x')) (cp_index x').
Proof.
  revert x. induction order as [| [c name] order IH]; intros x Ho Hj Hp; [done |]. cbn [compact_loop]. cbv zeta.
  destruct (stat_err name); [done |].
  assert (Contexts s !! c = Some name) as Hc by (apply Ho; by left).
  assert (∀ c name, (c, name) ∈ order → Contexts s !! c = Some name) as Ho' by (intros; apply Ho; by right).
  pose proof (pruned_files _ _ Hp name) as Hn. destruct (files (cp_store x) !! name) as [f |].
  - destruct (Before (ModTime f) _) eqn:Hb; [| by apply IH]. destruct (remove_err name); [done |].
    assert (gone name) as Hg by (destruct Hn as [Hn | [? ?]]; [| done]; unfold gone; by rewrite <- Hn).
    apply IH; [done.. |]. cbn. by eapply pruned_drop, pruned_remove.
  - apply IH; [done.. |]. cbn. eapply pruned_drop; [done | | done]. destruct Hn as [Hn | [_ ?]]; [| done]. unfold gone. by rewrite <- Hn.
Qed.

Lemma CompactForRetention_pruned order :
  order ≡ₚ map_to_list (Contexts s) →
  let s' := (CompactForRetention stat_err remove_err write_err now order s).1.1 in pruned (files s') (Contexts s').
Proof.
  intros Ho. assert (pruned (files s) (Contexts s)) as H0 by (split; by left).
  unfold CompactForRetention. destruct (decide (_ = ∅)); [done |].
  assert (∀ c name, (c, name) ∈ order → Contexts s !! c = Some name) as Ho' by (intros c name Hin; rewrite Ho in Hin; by apply elem_of_map_to_list).
  destruct (compact_loop_pruned order (mkComp s (readIndexLocked s) 0 false) Ho' eq_refl H0) as [Hj Hp].
  destruct (compact_loop _ _ _ order _) as [x err]. cbn in Hj, Hp. destruct Hp as [Hf Hi].
  destruct err; [| destruct (cp_changed x); [destruct write_err |]]; cbn; (split; [done |]); try done; intros c; left; unfold Contexts, readIndexLocked; cbn; by rewrite Hj.
Qed.

Context (Hdated : dated s) (Htrue : index_true s).

(** A context whose file is gone or old is not listed. *)
Lemma gone_not_shown c name l : Contexts s !! c = Some name → gone name → shows now s c = Some l → l = [].
Proof.
  intros Hc Hg. unfold shows, Transcript.readLocked. pose proof (Htrue c name Hc) as <-. unfold gone in Hg.
  destruct (files s !! name) as [f |] eqn:Hf; [| by intros [= <-]].
  pose proof (Hdated c name f) as Hd. destruct (scan Unmarshal (file_lines f) []) as [turns []] eqn:Hs; [done |]. intros [= <-].
  unfold summary. destruct (last turns) as [t |] eqn:Hl; [| done]. specialize (Hd t Hc Hf Hl).
  unfold TranscriptExpired, Before in *. bool_to_prop. destruct (Z.ltb_spec (t_TS t) cutoff) as [| Hge]; [done | lia].
Qed.

Lemma pruned_shows s' c l :
  pruned (files s') (Contexts s') → is_Some (Contexts s !! c) → shows now s c = Some l → shows now s' c = Some l ∧ (Contexts s' !! c = None → l = []).
Proof.
  intros [Hf Hi] [name Hc] Hl. split.
  - pose proof (Htrue c name Hc) as ->. destruct (Hf (transcriptFileName c)) as [E | [E Hg]].
    + unfold shows, Transcript.readLocked in *. by rewrite E.
    + rewrite (gone_not_shown _ _ _ Hc Hg Hl). unfold shows, Transcript.readLocked. by rewrite E.
  - intros Hn. destruct (Hi c) as [E | (_ & name' & Hc' & Hg)]; [congruence |]. by eapply gone_not_shown.
Qed.

(** Pruning is invisible. Whatever file cannot be inspected, removed or written back, and in whatever
    order the index is visited, a transcript whose last record is within the retention
    window is left as it is, and if the contexts can be listed before the pruning, they can
    be afterwards, with the same result. *)
Lemma pruning_unseen order o o' out :
  order ≡ₚ map_to_list (Contexts s) → o ≡ₚ (map_to_list (Contexts s)).*1 →
  let s' := (CompactForRetention stat_err remove_err write_err now order s).1.1 in
  o' ≡ₚ (map_to_list (Contexts s')).*1 →
  ListContexts transcriptFileName Unmarshal now o s = Some out →
  (∃ out', ListContexts transcriptFileName Unmarshal now o' s' = Some out' ∧ out' ≡ₚ out) ∧
  (∀ name f, files s !! name = Some f → Before (ModTime f) cutoff = false → files s' !! name = Some f).
Proof.
  intros Hord Ho s' Ho' Hout. pose proof (CompactForRetention_pruned order Hord : pruned (files s') (Contexts s')) as Hp.
  unfold ListContexts in *. destruct (list_loop now o s) as [l |] eqn:Hl; [| done]. injection Hout as <-. apply list_loop_spec in Hl as [Hall ->].
  assert (∀ c, c ∈ o ↔ is_Some (Contexts s !! c)) as Hdom.
  { intros c. rewrite Ho, list_elem_of_fmap. split; [intros ([c' name] & -> & Hin%elem_of_map_to_list); eauto |]. intros [name Hc].
    exists (c, name). by rewrite elem_of_map_to_list. }
  assert (∀ c, c ∈ o' ↔ is_Some (Contexts s' !! c)) as Hdom'.
  { intros c. rewrite Ho', list_elem_of_fmap. split; [intros ([c' name] & -> & Hin%elem_of_map_to_list); eauto |]. intros [name Hc].
    exists (c, name). by rewrite elem_of_map_to_list. }
  assert (∀ c, c ∈ o' → c ∈ o) as Hsub.
  { intros c [n Hc]%Hdom'. apply Hdom. destruct Hp as [_ Hi]. destruct (Hi c) as [E | [E _]]; [exists n |]; congruence. }
  assert (∀ c, c ∈ o → shows now s' c = shows now s c ∧ (c ∉ o' → shown now s c = [])) as Hshow.
  { intros c Hc. destruct (Hall c Hc) as [x Hx]. destruct (pruned_shows s' c x Hp) as [E Hn]; [by apply Hdom | done |].
    split; [congruence |]. intros Hc'. unfold shown. rewrite Hx. apply Hn. rewrite Hdom' in Hc'. by apply eq_None_not_Some. }
  split.
  - exists (merge_sort newer (o' ≫= shown now s')). split.
    + destruct (list_loop_spec now o' s' (o' ≫= shown now s')) as [_ ->]; [done |]. split; [| done]. intros c Hc%Hsub.
      destruct (Hshow c Hc) as [-> _]. by apply Hall.
    + rewrite !merge_sort_Permutation, <- (filter_app_complement (.∈ o') o), bind_app.
      assert (filter (.∈ o') o ≡ₚ o') as ->.
      { apply NoDup_Permutation; [apply NoDup_filter; rewrite Ho; apply NoDup_fst_map_to_list | rewrite Ho'; apply NoDup_fst_map_to_list |].
        intros c. rewrite list_elem_of_filter. naive_solver. }
      assert (filter (λ x, ¬ x ∈ o') o ≫= shown now s = []) as ->.
      { apply bind_nil. intros c [Hc1 Hc2]%list_elem_of_filter. by apply Hshow. }
      rewrite app_nil_r. apply reflexive_eq, bind_ext_elem. intros c Hc%Hsub. unfold shown. by destruct (Hshow c Hc) as [-> _].
  - intros name f Hf Hold. destruct Hp as [Hp _]. destruct (Hp name) as [-> | [_ Hg]]; [done |]. unfold gone in Hg. rewrite Hf in Hg. congruence.
Qed.
End pruning.

(** ** Concrete inputs *)

(** A codec of two records, written between angle brackets. *)
Definition note (ts : time) (text : string) : TranscriptTurn := mkTurn ts 0 "t" "ann" text "" "completed" "" 0.
Definition hi : TranscriptTurn := stamp 9 0 (note 5 "hi").
Definition yo : TranscriptTurn := stamp 9 1 (note transcriptRetention "yo").

#[export] Instance TranscriptTurn_eq_dec : EqDecision TranscriptTurn.
Proof. solve_decision. Defined.

Definition encode_note (t : TranscriptTurn) : option string := if decide (t = hi) then Some "<1>" else if decide (t = yo) then Some "<2>" else None.
Definition decode_note (s : string) : option TranscriptTurn := if decide (s = "<1>") then Some hi else if decide (s = "<2>") then Some yo else None.

Lemma encode_note_Some t line : encode_note t = Some line → t = hi ∧ line = "<1>" ∨ t = yo ∧ line = "<2>".
Proof. unfold encode_note. repeat case_decide; intros [= <-]; eauto. Qed.

(** Broken text begins with a bracket and is too short or has another one. *)
Definition stump (s : string) : Prop :=
  ∃ rest, s = String "<" rest ∧ (rest ∈ [""; "1"; "2"] ∨ ∃ a b, rest = a +:+ String "<" b).

Lemma broken_stump s : broken encode_note s → stump s.
Proof.
  assert (∀ t line k, encode_note t = Some line → 0 < k → ∃ rest, byte_take k line = String "<" rest ∧ (k < 3 → rest ∈ [""; "1"; "2"])) as Hp.
  { intros t line k [[-> ->] | [-> ->]]%encode_note_Some Hk; destruct k as [| [| [| k]]]; try lia; cbn; eexists; (split; [done |]); try lia; set_solver. }
  induction 1 as [t line k He Hk | t line t' line' k He He' Hk | s t line k Hb (rest & -> & Hr) He Hk].
  - destruct (Hp t line k He) as (rest & -> & Hr); [lia |]. exists rest. split; [done |]. left. apply Hr.
    by destruct (encode_note_Some t line He) as [[_ ->] | [_ ->]]; cbn in Hk; lia.
  - destruct (Hp t' line' k He' Hk) as (rest & -> & _). destruct (encode_note_Some t line He) as [[_ ->] | [_ ->]];
      [exists ("1>" +:+ String "<" rest) | exists ("2>" +:+ String "<" rest)]; (split; [done |]); right; by eexists _, rest.
  - destruct (Hp t line k He Hk) as (rest' & -> & _). exists (rest +:+ String "<" rest'). split; [done |]. right. by exists rest, rest'.
Qed.

Lemma stump_unread s : stump s → decode_note (TrimSuffix s cr) = None.
Proof.
  intros (rest & -> & Hr). unfold decode_note. set (x := TrimSuffix _ cr).
  assert (x ≠ "<1>" ∧ x ≠ "<2>") as [H1 H2]; [| by rewrite !decide_False].
  assert (∀ d, rest ≠ String d ">" ∧ rest ≠ String d (">" +:+ cr) ∨ d ≠ "1"%char ∧ d ≠ "2"%char) as Hd.
  { intros d. destruct Hr as [Hr | (a & b & ->)].
    - left. rewrite !elem_of_cons, elem_of_nil in Hr. destruct Hr as [-> | [-> | [-> | []]]]; done.
    - destruct (decide (d = "1"%char ∨ d = "2"%char)) as [Hd |]; [left | right; tauto].
      split; (destruct a as [| a1 [| a2 [| a3 [| ? ?]]]]; cbn; [by intros [= <- ?]; destruct Hd | by intros [=].. ]). }
  destruct (TrimSuffix_cases (String "<" rest) cr) as [E | E]; fold x in E.
  - split; intros ->; injection E as <-; [destruct (Hd "1"%char) | destruct (Hd "2"%char)]; naive_solver.
  - split; intros Hx; rewrite Hx in E; injection E as ->; [destruct (Hd "1"%char) | destruct (Hd "2"%char)]; naive_solver.
Qed.

Lemma note_codec : codec encode_note decode_note.
Proof.
  split; [intros t line [[-> ->] | [-> ->]]%encode_note_Some; by vm_compute |]. intros s Hs. by apply stump_unread, broken_stump.
Qed.

(** Two turns, a restart in between, another one whose write breaks off, and one more,
    which is lost behind it. *)
Definition first_turn := Append id encode_note decode_note 9 "c" (note 5 "hi") F_none (NewTranscriptStore ∅ NoIndex).
Definition reopened := NewTranscriptStore (files first_turn.1) (index_json first_turn.1).
Definition second_turn := Append id encode_note decode_note 9 "c" (note transcriptRetention "yo") (F_write 2) reopened.
Definition third_turn := Append id encode_note decode_note 9 "c" (note transcriptRetention "yo") F_none second_turn.1.

Lemma transcript_refines_witness :
  Read id decode_note "c" reopened = ([hi], false) ∧ Read id decode_note "c" third_turn.1 = ([hi], false) ∧
  ∃ l, Read id decode_note "c" third_turn.1 = (said (l "c"), false).
Proof.
  split; [by vm_compute |]. split; [by vm_compute |]. eexists.
  refine (proj1 (transcript_refines id encode_note decode_note ["c"] note_codec true third_turn.1 _ "c" _ _ _)).
  - by intros c c' [-> | []%elem_of_nil]%elem_of_cons [-> | []%elem_of_nil]%elem_of_cons _.
  - change true with ((false || negb (bool_decide (F_write 2 = F_none))) || negb (bool_decide (F_none = F_none))).
    apply history_append; [| by left | by intros n line [= <-] [= <-]; vm_compute].
    apply history_append; [| by left | by intros n line [= <-] [= <-]; vm_compute].
    apply history_restart. change false with (false || negb (bool_decide (F_none = F_none))).
    apply history_append; [apply history_new | by left | by intros n line [= <-] [= <-]; vm_compute].
  - by left.
Defined.

(** A store with an old and a new conversation. *)
Definition two_contexts : TranscriptStore :=
  mkStore ∅ {["old" := mkFile ["<1>"] "" 100; "new" := mkFile ["<2>"] "" (100 + transcriptRetention)]}
    (IndexMap {["old" := "old"; "new" := "new"]}).

#[local] Abbreviation late := (200 + transcriptRetention)%Z.
#[local] Abbreviation compacted := (CompactForRetention (λ _, false) (λ _, false) false late (map_to_list (Contexts two_contexts)) two_contexts).1.1.

Lemma pruning_unseen_witness :
  files compacted = {["new" := mkFile ["<2>"] "" (100 + transcriptRetention)]} ∧
  ∃ out, ListContexts id decode_note late ["new"] compacted = Some out ∧ cs_ContextID <$> out = ["new"].
Proof.
  split; [by vm_compute |].
  assert (ListContexts id decode_note late ["old"; "new"] two_contexts = Some [mkSummary "new" "yo" 1 transcriptRetention "completed"]) as Hl by (by vm_compute).
  destruct (pruning_unseen id decode_note (λ _, false) (λ _, false) false late two_contexts) with (order := map_to_list (Contexts two_contexts))
    (o := ["old"; "new"]) (o' := ["new"]) (out := [mkSummary "new" "yo" 1 transcriptRetention "completed"]) as [(out & Ho & Hp) _].
  - intros c name f t Hc. apply elem_of_map_to_list in Hc. change (map_to_list (Contexts two_contexts)) with [("old", "old"); ("new", "new")] in Hc.
    apply elem_of_cons in Hc as [[= -> ->] | [[= -> ->] | []%elem_of_nil]%elem_of_cons]; intros [= <-] [= <-]; vm_compute; done.
  - intros c name Hc. apply elem_of_map_to_list in Hc. change (map_to_list (Contexts two_contexts)) with [("old", "old"); ("new", "new")] in Hc.
    by apply elem_of_cons in Hc as [[= -> ->] | [[= -> ->] | []%elem_of_nil]%elem_of_cons].
  - done.
  - change (map_to_list (Contexts two_contexts)) with [("old", "old"); ("new", "new")]. done.
  - done.
  - exact Hl.
  - exists out. split; [exact Ho |]. apply Permutation_singleton_r in Hp as ->. done.
Defined.
