(* ===== verification/Executor.v ===== *)
(** * The agent loop ([internal/wrapper/executor.go], [prompt.go])

    One request to an agent: the provider is prompted, a call to another agent that
    its answer asks for is made and its result injected into the next prompt, up to
    a budget of rounds; either all at once ([Execute]) or as a stream of updates
    ([ExecuteStream]). The provider session, the other agents and the consumer of
    the stream are oracles of what has happened so far. Logging is budget out. *)
From S2P Require Import Prelude GoBase GoStrings Transcript.
From Stdlib Require Import ZArith Lia.

(** ** Prompts ([prompt.go]) *)

Record A2ACall := mkCall { Agent : string; Task_ : string }.

Definition ValidateA2ACall (c : A2ACall) : option string :=
  if decide (Agent c = "") then Some "agent name is required in A2A_CALL"
  else if decide (Task_ c = "") then Some "task description is required in A2A_CALL"
  else None.

Definition call_marker : string := "---A2A_CALL---".
Definition end_marker : string := "---END---".

(** The peers of an agent, as its prompt lists them. *)
Record peer_card := mkPeer { pc_Name : string; pc_Skills : list string; pc_URL : string }.

(** ** Events of a provider turn ([session_types.go]) *)

Record turn_error := mkTurnErr { te_canceled : bool; te_text : string }.

(** [fmt.Errorf] with [%w]. *)
Definition wrap_err (prefix : string) (e : turn_error) : turn_error := mkTurnErr (te_canceled e) (prefix +:+ te_text e).

Inductive Event :=
| EventText (text : string)
| EventTextDelta (text : string)
| EventToolUse (id name input : string)
| EventThinking
| EventToolResult (id content : string) (is_error : bool)
| EventAgentCall (agent task : string)
| EventTurnDone (err : option turn_error) (input_tokens output_tokens : Z)
| EventLifecycle (event turn_id phase kind trigger detail : string).

Record turnResult := mkResult {
  tr_text : string; tr_call : option A2ACall; tr_err : option turn_error; tr_input : Z; tr_output : Z;
}.

(** ** Tasks and messages *)

Inductive TaskState := TaskSubmitted | TaskWorking | TaskCompleted | TaskFailed | TaskCanceled.
#[export] Instance TaskState_eq_dec : EqDecision TaskState.
Proof. solve_decision. Defined.

Record Message := mkMessage { from_agent : bool; m_text : string }.

(** The incoming message; a conversation without an id is given [mi_fresh]. *)
Record incoming := mkIncoming { mi_Text : string; mi_Speaker : string; mi_ContextID : string; mi_fresh : string; mi_task : string }.

(** What is yielded to the consumer of a stream. *)
Inductive data :=
| D_SpanStart
| D_SpanEnd (input_tokens output_tokens : Z)
| D_ToolUse (id name : string) (input : option string)
| D_Thinking
| D_ToolResult (id content : string) (is_error : bool)
| D_Lifecycle (event turn_id phase : string) (kind trigger detail : option string).

Inductive item :=
| I_Working
| I_Delta (text : string)
| I_Data (d : data)
| I_Task (state : TaskState) (message : option string) (err : option turn_error).

(** What one request has done: the prompts given to the session, the calls made to
    other agents, the task, and what was yielded. *)
Record io := mkIO {
  prompts : list string;
  dispatched : list A2ACall;
  History : list Message;
  State : TaskState;
  StatusMessage : option string;
  out : list item;
  streamErr : option turn_error;
  transcript : list (string * TranscriptTurn);
}.

Definition add_prompt (p : string) (s : io) : io :=
  mkIO (prompts s ++ [p]) (dispatched s) (History s) (State s) (StatusMessage s) (out s) (streamErr s) (transcript s).
Definition add_call (c : A2ACall) (s : io) : io :=
  mkIO (prompts s) (dispatched s ++ [c]) (History s) (State s) (StatusMessage s) (out s) (streamErr s) (transcript s).
Definition add_history (m : Message) (s : io) : io :=
  mkIO (prompts s) (dispatched s) (History s ++ [m]) (State s) (StatusMessage s) (out s) (streamErr s) (transcript s).
Definition set_status (st : TaskState) (m : option string) (s : io) : io :=
  mkIO (prompts s) (dispatched s) (History s) st m (out s) (streamErr s) (transcript s).
Definition add_turn (c : string) (t : TranscriptTurn) (s : io) : io :=
  mkIO (prompts s) (dispatched s) (History s) (State s) (StatusMessage s) (out s) (streamErr s) (transcript s ++ [(c, t)]).

Definition data_of (e : Event) : option data :=
  let opt x := if decide (x = "") then None else Some x in
  match e with
  | EventToolUse id name input => Some (D_ToolUse id name (opt input))
  | EventThinking => Some D_Thinking
  | EventToolResult id content is_error => Some (D_ToolResult id content is_error)
  | EventLifecycle event turn_id phase kind trigger detail => Some (D_Lifecycle event turn_id phase (opt kind) (opt trigger) (opt detail))
  | _ => None
  end.

Section executor.
(** [Decode] and [Encode] are JSON; [provider] answers a prompt, given those
    before it, with an error or the events until its channel closes; [callAgent]
    answers a call, given those before it; [accept k] is what the consumer's loop
    answers to the item number [k]. *)
Context `{UnicodeTables} `{UnicodeLower} (Decode : string → option A2ACall) (Encode : A2ACall → string).
Context (provider : list string → string → list Event + turn_error).
Context (callAgent : option (list A2ACall → A2ACall → string + string)).
Context (accept : nat → bool).
Context (maxDepth : Z) (basePrompt : string) (recording : bool).

Definition ParseA2ACall (output : string) : option A2ACall :=
  match Index output call_marker with
  | None => None
  | Some start =>
      let content := byte_drop (start + blen call_marker) output in
      match Index content end_marker with
      | None => None
      | Some stop => Decode (TrimSpace (byte_take stop content))
      end
  end.

(** A tool call of the runtime that asks for another agent, under any of the names
    the providers use. *)
Definition ParseA2ACallTool (name input : string) : option A2ACall :=
  if decide (ToLower (TrimSpace name) ∈ ["a2a_call"; "a2a-call"; "agent_call"; "agent-call"; "call_agent"; "call-agent"]) then Decode input else None.

Definition SerializeA2ACall (c : A2ACall) : string := call_marker +:+ nl +:+ Encode c +:+ nl +:+ end_marker +:+ nl.

Definition BuildSystemPrompt (agents : list peer_card) : string :=
  basePrompt +:+
  match agents with
  | [] => ""
  | _ =>
      nl +:+ nl +:+ "You can call the following agents for help:" +:+ nl +:+
      Join ((λ a, "- name: " +:+ fmt_q (pc_Name a) +:+ ", skills: [" +:+ Join (pc_Skills a) " " +:+ "], endpoint: " +:+ fmt_q (pc_URL a) +:+ nl) <$> agents) "" +:+
      nl +:+ "When you need another agent's help, prefer a structured tool call named `a2a_call` with JSON input:" +:+ nl +:+
      "{" +:+ dq +:+ "agent" +:+ dq +:+ ": " +:+ dq +:+ "<name>" +:+ dq +:+ ", " +:+ dq +:+ "task" +:+ dq +:+ ": " +:+ dq +:+ "<description of what you need>" +:+ dq +:+ "}" +:+ nl +:+
      nl +:+ "If your runtime cannot emit that tool call, append this fallback text block to your response:" +:+ nl +:+
      call_marker +:+ nl +:+
      "{" +:+ dq +:+ "agent" +:+ dq +:+ ": " +:+ dq +:+ "<name>" +:+ dq +:+ ", " +:+ dq +:+ "task" +:+ dq +:+ ": " +:+ dq +:+ "<description of what you need>" +:+ dq +:+ "}" +:+ nl +:+
      end_marker +:+ nl +:+
      nl +:+ "Max chain depth: " +:+ fmt_d maxDepth +:+ " agent calls." +:+ nl
  end.

Definition BuildInjectionPrompt (agentName originalTask result : string) : string :=
  "Your original task was: " +:+ originalTask +:+ nl +:+ nl +:+ "Agent " +:+ fmt_q agentName +:+ " returned the following response:" +:+ nl +:+ result +:+
  nl +:+ nl +:+ "Please use this response to answer the original task. If the response is sufficient, relay it to the user directly. " +:+
  "If not, explain what additional information is needed.".

Definition speakerInstruction : string :=
  "Messages in this conversation may come from multiple people. Each message is tagged with [speaker: <name>] at the start. Attribute statements, preferences, and requests to the speaker who made them; do not assume consecutive messages come from the same person.".

(** [buildTurnPrompt]: the opening prompt and the text of the user. *)
Definition buildTurnPrompt (agents : list peer_card) (m : incoming) : string * string :=
  let system := BuildSystemPrompt agents in
  let '(system, text) :=
    if decide (mi_Speaker m = "") then (system, mi_Text m)
    else (system +:+ nl +:+ nl +:+ speakerInstruction, "[speaker: " +:+ mi_Speaker m +:+ "] " +:+ mi_Text m) in
  (system +:+ nl +:+ nl +:+ text +:+ nl, text).

(** ** One turn *)

(** [runTurn] over the events of the channel: [onDelta] is not called again once it
    has answered false, [onAux] always is. *)
Fixpoint drain {S} (onDelta : string → S → S * bool) (onAux : Event → S → S) (evs : list Event) (stopDeltas : bool) (r : turnResult) (s : S)
    : turnResult * S :=
  match evs with
  | [] => (r, s)
  | e :: evs =>
      match e with
      | EventTextDelta text =>
          if stopDeltas then drain onDelta onAux evs true r s
          else let '(s, more) := onDelta text s in drain onDelta onAux evs (negb more) r s
      | EventText text => drain onDelta onAux evs stopDeltas (mkResult (tr_text r +:+ text) (tr_call r) (tr_err r) (tr_input r) (tr_output r)) s
      | EventAgentCall agent task =>
          drain onDelta onAux evs stopDeltas (mkResult (tr_text r) (Some (mkCall agent task)) (tr_err r) (tr_input r) (tr_output r)) s
      | EventTurnDone err i o => drain onDelta onAux evs stopDeltas (mkResult (tr_text r) (tr_call r) err i o) s
      | _ => drain onDelta onAux evs stopDeltas r (onAux e s)
      end
  end.

Definition runTurn {S} (onDelta : string → S → S * bool) (onAux : Event → S → S) (evs : list Event) (s : S) : turnResult * S :=
  let '(r, s) := drain onDelta onAux evs false (mkResult "" None None 0 0) s in
  (mkResult (tr_text r) (if tr_call r is Some c then Some c else ParseA2ACall (tr_text r)) (tr_err r) (tr_input r) (tr_output r), s).

(** ** The blocking loop *)

(** [interact], with [budget] rounds before the maximal depth. *)
Fixpoint interact (budget : nat) (prompt originalTask : string) (s : io) : io * (string + turn_error) :=
  match provider (prompts s) prompt with
  | inr err => (add_prompt prompt s, inr (wrap_err "session turn: " err))
  | inl evs =>
      let s := add_prompt prompt s in
      let '(turn, _) := runTurn (λ _ u, (u, true)) (λ _ u, u) evs tt in
      match tr_err turn with
      | Some err => (s, inr (wrap_err "session turn: " err))
      | None =>
          let s := add_history (mkMessage true (tr_text turn)) s in
          match tr_call turn with
          | None => (s, inl (tr_text turn))
          | Some call =>
              match budget with
              | O => (s, inl (tr_text turn))
              | S budget =>
                  match ValidateA2ACall call with
                  | Some err => interact budget (nl +:+ "[A2A_CALL error: " +:+ err +:+ "]" +:+ nl) originalTask s
                  | None =>
                      match callAgent with
                      | None => interact budget (nl +:+ "[Cannot call agent " +:+ Agent call +:+ ": no agent caller configured]" +:+ nl) originalTask s
                      | Some ask =>
                          match ask (dispatched s) call with
                          | inr err => interact budget (nl +:+ "[Agent " +:+ Agent call +:+ " call failed: " +:+ err +:+ "]" +:+ nl) originalTask (add_call call s)
                          | inl result => interact budget (BuildInjectionPrompt (Agent call) originalTask result) originalTask (add_call call s)
                          end
                      end
                  end
              end
          end
      end
  end.

Definition rounds : nat := Z.to_nat maxDepth.

Definition ContextID_of (m : incoming) : string := if decide (mi_ContextID m = "") then mi_fresh m else mi_ContextID m.

(** [NewSubmittedTask] *)
Definition submitted (m : incoming) : io := mkIO [] [] [mkMessage false (mi_Text m)] TaskSubmitted None [] None [].

Definition appendTranscript (now started : time) (m : incoming) (reply : string) (err : option turn_error) (s : io) : io :=
  if recording then
    add_turn (ContextID_of m)
      (match err with
       | None => mkTurn now 0 (mi_task m) (mi_Speaker m) (mi_Text m) reply "completed" "" (Z.quot (Sub now started) Millisecond)
       | Some e => mkTurn now 0 (mi_task m) (mi_Speaker m) (mi_Text m) "" "failed" (te_text e) (Z.quot (Sub now started) Millisecond)
       end) s
  else s.

(** [Execute]: the task and the error returned. [opened] is the error of opening
    the session. *)
Definition Execute (now started : time) (opened : option turn_error) (agents : list peer_card) (m : incoming) : io * option turn_error :=
  let s := submitted m in
  match opened with
  | Some err => (appendTranscript now started m "" (Some err) (set_status TaskFailed None s), Some err)
  | None =>
      let '(prompt, text) := buildTurnPrompt agents m in
      match interact rounds prompt text s with
      | (s, inr err) => (appendTranscript now started m "" (Some err) (set_status TaskFailed None s), Some err)
      | (s, inl reply) => (appendTranscript now started m reply None (set_status TaskCompleted None s), None)
      end
  end.

(** ** The streaming loop *)

Definition yield (i : item) (s : io) : io * bool :=
  (mkIO (prompts s) (dispatched s) (History s) (State s) (StatusMessage s) (out s ++ [i]) (streamErr s) (transcript s), accept (length (out s))).

(** [observingYield] of the task with an error. *)
Definition yield_err (st : TaskState) (err : turn_error) (s : io) : io :=
  let s := mkIO (prompts s) (dispatched s) (History s) (State s) (StatusMessage s) (out s) (Some err) (transcript s) in
  (yield (I_Task st (StatusMessage s) (Some err)) s).1.

(** The callbacks of [interactStream]; the flag is [stopYielding]. *)
Definition on_delta (text : string) (x : io * bool) : io * bool * bool :=
  match yield (I_Delta text) x.1 with
  | (s, true) => (s, x.2, true)
  | (s, false) => (s, true, false)
  end.

Definition on_aux (e : Event) (x : io * bool) : io * bool :=
  match data_of e with
  | None => x
  | Some d => match yield (I_Data d) x.1 with (s, true) => (s, x.2) | (s, false) => (s, true) end
  end.

(** [interactStream]: whether the stream goes on. *)
Fixpoint interactStream (budget : nat) (prompt originalTask : string) (s : io) : io * bool :=
  match yield (I_Data D_SpanStart) s with
  | (s, false) => (s, false)
  | (s, true) =>
      match provider (prompts s) prompt with
      | inr err => (yield_err TaskFailed (wrap_err "session stream: " err) (set_status TaskFailed None (add_prompt prompt s)), false)
      | inl evs =>
          let '(turn, (s, stopYielding)) := runTurn on_delta on_aux evs (add_prompt prompt s, false) in
          let '(s, _) := yield (I_Data (D_SpanEnd (tr_input turn) (tr_output turn))) s in
          if stopYielding : bool then (s, false)
          else
            match tr_err turn with
            | Some err =>
                if te_canceled err then ((yield (I_Task TaskCanceled None None) (set_status TaskCanceled None s)).1, false)
                else (yield_err TaskFailed (wrap_err "session turn: " err) (set_status TaskFailed None s), false)
            | None =>
                let s := add_history (mkMessage true (tr_text turn)) s in
                match tr_call turn with
                | None => (s, true)
                | Some call =>
                    match budget with
                    | O => (s, true)
                    | S budget =>
                        match ValidateA2ACall call with
                        | Some err => interactStream budget (nl +:+ "[A2A_CALL error: " +:+ err +:+ "]" +:+ nl) originalTask s
                        | None =>
                            match callAgent with
                            | None => interactStream budget (nl +:+ "[Cannot call agent " +:+ Agent call +:+ ": no agent caller configured]" +:+ nl) originalTask s
                            | Some ask =>
                                match ask (dispatched s) call with
                                | inr err =>
                                    interactStream budget (nl +:+ "[Agent " +:+ Agent call +:+ " call failed: " +:+ err +:+ "]" +:+ nl) originalTask (add_call call s)
                                | inl result => interactStream budget (BuildInjectionPrompt (Agent call) originalTask result) originalTask (add_call call s)
                                end
                            end
                        end
                    end
                end
            end
      end
  end.

(** [finalAgentMessage]: the text of the last message of the agent that has any. *)
Definition finalAgentMessage (h : list Message) : option string :=
  last (omap (λ m, if from_agent m && nonempty (m_text m) then Some (m_text m) else None) h).

Definition finalAgentText (h : list Message) : string := default "" (finalAgentMessage h).

Definition ExecuteStream (now started : time) (opened : option turn_error) (agents : list peer_card) (m : incoming) : io :=
  let s := submitted m in
  match opened with
  | Some err => (yield (I_Task TaskFailed None (Some err)) (appendTranscript now started m "" (Some err) (set_status TaskFailed None s))).1
  | None =>
      let '(prompt, text) := buildTurnPrompt agents m in
      match yield I_Working s with
      | (s, false) => s
      | (s, true) =>
          match interactStream rounds prompt text s with
          | (s, false) =>
              match streamErr s with
              | Some err => if decide (State s = TaskFailed) then appendTranscript now started m "" (Some err) s else s
              | None => s
              end
          | (s, true) =>
              let s := set_status TaskCompleted (finalAgentMessage (History s)) s in
              let s := appendTranscript now started m (finalAgentText (History s)) None s in
              (yield (I_Task TaskCompleted (StatusMessage s) None) s).1
          end
      end
  end.
End executor.
