(* ===== verification/ExecutorLaws.v ===== *)
(** * What the agent loop guarantees ([internal/wrapper/executor.go])

    Both loops spend a bounded number of prompts and calls; the streaming one does
    the same work as the blocking one, and its consumer sees every turn of the
    provider from its first event to its last. *)
From S2P Require Import Prelude GoBase GoStrings Executor.
From Stdlib Require Import ZArith Lia.

Section laws.
Context `{UnicodeTables} (Decode : string → option A2ACall).
Context (provider : list string → string → list Event + turn_error).
Context (callAgent : option (list A2ACall → A2ACall → string + string)).
Context (maxDepth : Z) (basePrompt : string) (recording : bool).

#[local] Abbreviation interact := (interact Decode provider callAgent).
#[local] Abbreviation interactStream := (interactStream Decode provider callAgent).
#[local] Abbreviation Execute := (Execute Decode provider callAgent maxDepth basePrompt recording).
#[local] Abbreviation ExecuteStream := (ExecuteStream Decode provider callAgent).
#[local] Abbreviation runTurn := (runTurn Decode).

(** ** A turn *)

(** The result of a turn does not depend on who listens. *)
Definition turn_of (evs : list Event) : turnResult := (runTurn (λ _ u, (u, true)) (λ _ u, u) evs tt).1.

Lemma drain_result {S S'} f g f' g' evs b b' r (s : S) (s' : S') : (drain f g evs b r s).1 = (drain f' g' evs b' r s').1.
Proof.
  revert b b' r s s'. induction evs as [| e evs IH]; intros b b' r s s'; [done |].
  destruct e; cbn; try apply IH. destruct b, b'; [apply IH | | |];
    repeat (match goal with |- context [let '(_, _) := ?x in _] => destruct x end); apply IH.
Qed.

Lemma runTurn_result {S} f g evs (s : S) : (runTurn f g evs s).1 = turn_of evs.
Proof.
  unfold turn_of, Executor.runTurn. pose proof (drain_result f g (λ _ u, (u, true)) (λ _ u, u) evs false false (mkResult "" None None 0 0) s tt) as E.
  destruct (drain f g evs false _ s), (drain _ _ evs false _ tt). cbn in *. by rewrite E.
Qed.

Lemma runTurn_invariant {S} (P : S → Prop) f g evs (s : S) :
  (∀ t s, P s → P (f t s).1) → (∀ e s, P s → P (g e s)) → P s → P (runTurn f g evs s).2.
Proof.
  intros Hf Hg Hs. unfold Executor.runTurn. assert (∀ b r s, P s → P (drain f g evs b r s).2) as Hd.
  { clear s Hs. induction evs as [| e evs IH]; intros b r s Hs; [done |]. destruct e; cbn; auto.
    destruct b; [auto |]. specialize (Hf text s Hs). destruct (f text s) as [s' more]. auto. }
  specialize (Hd false (mkResult "" None None 0 0) s Hs). by destruct (drain f g evs false _ s).
Qed.

(** What yielding leaves alone. *)
Record same_work (s s' : io) : Prop := {
  sw_prompts : prompts s' = prompts s;
  sw_dispatched : dispatched s' = dispatched s;
  sw_History : History s' = History s;
  sw_transcript : transcript s' = transcript s;
  sw_streamErr : streamErr s' = streamErr s;
}.

Lemma turn_same_work accept evs s b : same_work s (runTurn (on_delta accept) (on_aux accept) evs (s, b)).2.1.
Proof.
  apply (runTurn_invariant (λ x : io * bool, same_work s x.1)); [| | by split].
  - intros t [s1 b1] []. unfold on_delta, yield. cbn. destruct (accept _); by split.
  - intros e [s1 b1] []. unfold on_aux. destruct (data_of e); [| by split]. unfold yield. cbn. destruct (accept _); by split.
Qed.

(** ** The budget *)

Lemma interact_budget n p o s :
  length (prompts (interact n p o s).1) ≤ length (prompts s) + S n ∧ length (dispatched (interact n p o s).1) ≤ length (dispatched s) + n.
Proof.
  revert p s. induction n as [| n IH]; intros p s; cbn [Executor.interact].
  all: destruct (provider (prompts s) p) as [evs | err]; [| cbn; rewrite length_app; cbn; lia].
  all: destruct (runTurn _ _ evs tt) as [turn u]; destruct (tr_err turn); [cbn; rewrite length_app; cbn; lia |].
  all: destruct (tr_call turn) as [call |]; [| cbn; rewrite length_app; cbn; lia].
  1: cbn; rewrite length_app; cbn; lia.
  destruct (ValidateA2ACall call); [| destruct callAgent as [ask |]; [destruct (ask _ call) |]];
  match goal with |- context [Executor.interact _ _ _ n ?p' o ?s'] => destruct (IH p' s') as [H1 H2] end;
    (split; [etrans; [exact H1 |] | etrans; [exact H2 |]]); cbn; rewrite ?length_app; cbn; lia.
Qed.

Lemma interactStream_budget accept n p o s :
  length (prompts (interactStream accept n p o s).1) ≤ length (prompts s) + S n ∧
  length (dispatched (interactStream accept n p o s).1) ≤ length (dispatched s) + n.
Proof.
  revert p s. induction n as [| n IH]; intros p s; cbn [Executor.interactStream].
  all: destruct (yield accept (I_Data D_SpanStart) s) as [s0 ok] eqn:Ey; injection Ey as <- <-; cbn [prompts dispatched].
  all: destruct (accept (length (out s))); [| cbn; lia].
  all: destruct (provider (prompts s) p) as [evs | err]; [| cbn; rewrite length_app; cbn; lia].
  all: match goal with |- context [Executor.runTurn Decode (on_delta ?a) _ ?es (?s0, false)] => pose proof (turn_same_work a es s0 false) as [Wp Wd _ _ _] end.
  all: destruct (runTurn _ _ _ (_, false)) as [turn [s1 stop]]; cbn in Wp, Wd.
  all: cbn [yield prompts dispatched History State StatusMessage out streamErr transcript].
  all: destruct stop; [cbn; rewrite Wp, Wd, length_app; cbn; lia |].
  all: destruct (tr_err turn) as [e |]; [destruct (te_canceled e); cbn; rewrite Wp, Wd, length_app; cbn; lia |].
  all: destruct (tr_call turn) as [call |]; [| cbn; rewrite Wp, Wd, length_app; cbn; lia].
  1: cbn; rewrite Wp, Wd, length_app; cbn; lia.
  destruct (ValidateA2ACall call); [| destruct callAgent as [ask |]; [destruct (ask _ call) |]];
  match goal with |- context [Executor.interactStream _ _ _ _ n ?p' o ?s'] => destruct (IH p' s') as [H1 H2] end;
    (split; [etrans; [exact H1 |] | etrans; [exact H2 |]]); cbn; rewrite ?Wp, ?Wd, ?length_app; cbn; lia.
Qed.

(** ** A consumer that takes everything *)

(** What the consumer is shown of an event, of a turn, and of all the turns that the
    prompts [ps] after [before] lead to. *)
Definition item_of (e : Event) : option item := match e with EventTextDelta text => Some (I_Delta text) | _ => I_Data <$> data_of e end.

Definition span_of (evs : list Event) : list item :=
  I_Data D_SpanStart :: omap item_of evs ++ [I_Data (D_SpanEnd (tr_input (turn_of evs)) (tr_output (turn_of evs)))].

Definition prompt_items (before : list string) (p : string) : list item :=
  match provider before p with inl evs => span_of evs | inr _ => [I_Data D_SpanStart] end.

Fixpoint spans (before ps : list string) : list item :=
  match ps with [] => [] | p :: ps => prompt_items before p ++ spans (before ++ [p]) ps end.

#[local] Abbreviation all_of := (λ _ : nat, true).

Lemma drain_items evs r s :
  let x := (drain (on_delta all_of) (on_aux all_of) evs false r (s, false)).2 in
  x.2 = false ∧ out x.1 = out s ++ omap item_of evs ∧ same_work s x.1 ∧ State x.1 = State s ∧ StatusMessage x.1 = StatusMessage s.
Proof.
  revert r s. induction evs as [| e evs IH]; intros r s; [cbn; rewrite app_nil_r; split_and!; try done; by split |].
  assert (∀ i r, let s1 := (yield all_of i s).1 in
    let x := (drain (on_delta all_of) (on_aux all_of) evs false r (s1, false)).2 in
    x.2 = false ∧ out x.1 = out s ++ i :: omap item_of evs ∧ same_work s x.1 ∧ State x.1 = State s ∧ StatusMessage x.1 = StatusMessage s) as Hy.
  { intros i r1. cbv zeta. destruct (IH r1 (yield all_of i s).1) as (H1 & H2 & [] & H4 & H5). cbn in *.
    split_and!; try done; try (by rewrite H2, <- app_assoc); by split. }
  destruct e; cbn [drain]; try exact (IH _ s); try exact (Hy _ _).
Qed.

Lemma runTurn_items evs s :
  let x := (runTurn (on_delta all_of) (on_aux all_of) evs (s, false)).2 in
  x.2 = false ∧ out x.1 = out s ++ omap item_of evs ∧ same_work s x.1 ∧ State x.1 = State s ∧ StatusMessage x.1 = StatusMessage s.
Proof.
  unfold Executor.runTurn. pose proof (drain_items evs (mkResult "" None None 0 0) s) as Hd. by destruct (drain _ _ evs false _ _).
Qed.

(** The work both loops do. *)
Definition work_of (s : io) : list string * list A2ACall * list Message := (prompts s, dispatched s, History s).

(** How the two loops end when they begin with the same work done. *)
Definition ends_alike (s1 s2 s1' s2' : io) (r : string + turn_error) (b : bool) : Prop :=
  work_of s1' = work_of s2' ∧ transcript s1' = transcript s1 ∧ transcript s2' = transcript s2 ∧
  ∃ ps, prompts s1' = prompts s1 ++ ps ∧
    match r with
    | inl reply =>
        b = true ∧ streamErr s2' = streamErr s2 ∧ (∃ h, History s1' = h ++ [mkMessage true reply]) ∧ out s2' = out s2 ++ spans (prompts s1) ps
    | inr err =>
        b = false ∧
        ((State s2' = TaskFailed ∧ ∃ err', streamErr s2' = Some err' ∧ te_canceled err' = te_canceled err ∧
            out s2' = out s2 ++ spans (prompts s1) ps ++ [I_Task TaskFailed None (Some err')]) ∨
         (te_canceled err = true ∧ State s2' = TaskCanceled ∧ streamErr s2' = streamErr s2 ∧
            out s2' = out s2 ++ spans (prompts s1) ps ++ [I_Task TaskCanceled None None]))
    end.

(** One more round in front. *)
Lemma ends_alike_round s1 s2 p evs t1 t2 s1' s2' r b :
  provider (prompts s1) p = inl evs → prompts t1 = prompts s1 ++ [p] → transcript t1 = transcript s1 → transcript t2 = transcript s2 →
  streamErr t2 = streamErr s2 → out t2 = out s2 ++ span_of evs → ends_alike t1 t2 s1' s2' r b → ends_alike s1 s2 s1' s2' r b.
Proof.
  intros Hp Hpr Ht1 Ht2 He Ho (W & T1 & T2 & ps & Hps & Hr). unfold ends_alike. rewrite T1, T2, Hps, Hpr, Ht1, Ht2. split_and!; [done.. |].
  assert (spans (prompts s1) (p :: ps) = span_of evs ++ spans (prompts t1) ps) as Hsp by (cbn; unfold prompt_items; by rewrite Hp, Hpr).
  exists (p :: ps). split; [by rewrite <- app_assoc |]. rewrite Hsp. destruct r as [reply | err].
  - destruct Hr as (-> & E & Hh & Hout). split_and!; [done | congruence | done |]. by rewrite Hout, Ho, <- app_assoc.
  - destruct Hr as (-> & [(E & err' & E1 & E2 & Hout) | (E1 & E2 & E3 & Hout)]); (split; [done |]).
    + left. split; [done |]. exists err'. split_and!; [done.. |]. by rewrite Hout, Ho, <- !app_assoc.
    + right. split_and!; [done | done | congruence |]. by rewrite Hout, Ho, <- !app_assoc.
Qed.

Lemma spans_one before p : spans before [p] = prompt_items before p.
Proof. cbn. apply app_nil_r. Qed.

(** The end of a turn that was streamed, before what it leads to. *)
Definition after_turn (p : string) (evs : list Event) (s : io) : io :=
  let s := (runTurn (on_delta all_of) (on_aux all_of) evs (add_prompt p (yield all_of (I_Data D_SpanStart) s).1, false)).2.1 in
  (yield all_of (I_Data (D_SpanEnd (tr_input (turn_of evs)) (tr_output (turn_of evs)))) s).1.

#[local] Arguments after_turn : simpl never.

Lemma after_turn_spec p evs s :
  let s' := after_turn p evs s in
  prompts s' = prompts s ++ [p] ∧ dispatched s' = dispatched s ∧ History s' = History s ∧ transcript s' = transcript s ∧
  streamErr s' = streamErr s ∧ out s' = out s ++ span_of evs.
Proof.
  cbv zeta. unfold after_turn. destruct (runTurn_items evs (add_prompt p (yield all_of (I_Data D_SpanStart) s).1)) as (_ & Ho & [] & _).
  cbn in *. split_and!; try done. rewrite Ho. unfold span_of. by rewrite <- !app_assoc.
Qed.

(** The streaming loop, turn by turn. *)
Lemma interactStream_unfold n p o s :
  interactStream all_of n p o s =
  match provider (prompts s) p with
  | inr err =>
      (yield_err all_of TaskFailed (wrap_err "session stream: " err)
         (set_status TaskFailed None (add_prompt p (yield all_of (I_Data D_SpanStart) s).1)), false)
  | inl evs =>
      let s := after_turn p evs s in
      match tr_err (turn_of evs) with
      | Some err =>
          if te_canceled err then ((yield all_of (I_Task TaskCanceled None None) (set_status TaskCanceled None s)).1, false)
          else (yield_err all_of TaskFailed (wrap_err "session turn: " err) (set_status TaskFailed None s), false)
      | None =>
          let s := add_history (mkMessage true (tr_text (turn_of evs))) s in
          match tr_call (turn_of evs), n with
          | None, _ | Some _, O => (s, true)
          | Some call, S n =>
              match ValidateA2ACall call with
              | Some err => interactStream all_of n (nl +:+ "[A2A_CALL error: " +:+ err +:+ "]" +:+ nl) o s
              | None =>
                  match callAgent with
                  | None => interactStream all_of n (nl +:+ "[Cannot call agent " +:+ Agent call +:+ ": no agent caller configured]" +:+ nl) o s
                  | Some ask =>
                      match ask (dispatched s) call with
                      | inr err => interactStream all_of n (nl +:+ "[Agent " +:+ Agent call +:+ " call failed: " +:+ err +:+ "]" +:+ nl) o (add_call call s)
                      | inl result => interactStream all_of n (BuildInjectionPrompt (Agent call) o result) o (add_call call s)
                      end
                  end
              end
          end
      end
  end.
Proof.
  unfold after_turn. destruct n as [| n]; cbn [Executor.interactStream]; unfold yield at 1; cbn [prompts];
    (destruct (provider (prompts s) p) as [evs | err]; [| done]);
    set (s0 := add_prompt p _); destruct (runTurn_items evs s0) as (Hb & _);
    pose proof (runTurn_result (on_delta all_of) (on_aux all_of) evs (s0, false)) as Hr;
    change (yield all_of (I_Data D_SpanStart) s).1 with
      (mkIO (prompts s) (dispatched s) (History s) (State s) (StatusMessage s) (out s ++ [I_Data D_SpanStart]) (streamErr s) (transcript s));
    fold s0; destruct (runTurn (on_delta all_of) (on_aux all_of) evs (s0, false)) as [turn [s1 stop]]; cbn in Hb, Hr; subst turn stop; cbn [snd fst];
    unfold yield at 1; cbn [fst]; destruct (tr_err (turn_of evs)); try done; by destruct (tr_call (turn_of evs)).
Qed.

(** The blocking loop, turn by turn. *)
Lemma interact_turn evs turn u : runTurn (λ _ u, (u, true)) (λ _ u, u) evs tt = (turn, u) → turn = turn_of evs.
Proof. intros E. unfold turn_of. by rewrite E. Qed.

Lemma interact_unfold n p o s :
  interact n p o s =
  let s' := add_prompt p s in
  match provider (prompts s) p with
  | inr err => (s', inr (wrap_err "session turn: " err))
  | inl evs =>
      match tr_err (turn_of evs) with
      | Some err => (s', inr (wrap_err "session turn: " err))
      | None =>
          let s := add_history (mkMessage true (tr_text (turn_of evs))) s' in
          match tr_call (turn_of evs), n with
          | None, _ | Some _, O => (s, inl (tr_text (turn_of evs)))
          | Some call, S n =>
              match ValidateA2ACall call with
              | Some err => interact n (nl +:+ "[A2A_CALL error: " +:+ err +:+ "]" +:+ nl) o s
              | None =>
                  match callAgent with
                  | None => interact n (nl +:+ "[Cannot call agent " +:+ Agent call +:+ ": no agent caller configured]" +:+ nl) o s
                  | Some ask =>
                      match ask (dispatched s) call with
                      | inr err => interact n (nl +:+ "[Agent " +:+ Agent call +:+ " call failed: " +:+ err +:+ "]" +:+ nl) o (add_call call s)
                      | inl result => interact n (BuildInjectionPrompt (Agent call) o result) o (add_call call s)
                      end
                  end
              end
          end
      end
  end.
Proof.
  cbv zeta. destruct n; cbn [Executor.interact]; (destruct (provider (prompts s) p) as [evs |]; [| done]);
    destruct (runTurn _ _ evs tt) as [turn u] eqn:Et; apply interact_turn in Et; subst turn;
    (destruct (tr_err (turn_of evs)); [done |]); by destruct (tr_call (turn_of evs)).
Qed.

(** The turn that ends the request. *)
Lemma ends_alike_last s1 s2 p evs s1' s2' r b :
  provider (prompts s1) p = inl evs → let t1 := add_prompt p s1 in let t2 := after_turn p evs s2 in
  work_of s1' = work_of s2' → transcript s1' = transcript s1 → transcript s2' = transcript s2 → prompts s1' = prompts s1 ++ [p] →
  match r with
  | inl reply => b = true ∧ streamErr s2' = streamErr s2 ∧ History s1' = History s1 ++ [mkMessage true reply] ∧ out s2' = out t2
  | inr err =>
      b = false ∧
      ((State s2' = TaskFailed ∧ ∃ err', streamErr s2' = Some err' ∧ te_canceled err' = te_canceled err ∧
          out s2' = out t2 ++ [I_Task TaskFailed None (Some err')]) ∨
       (te_canceled err = true ∧ State s2' = TaskCanceled ∧ streamErr s2' = streamErr s2 ∧ out s2' = out t2 ++ [I_Task TaskCanceled None None]))
  end → ends_alike s1 s2 s1' s2' r b.
Proof.
  intros Hp t1 t2 W T1 T2 P Hr. destruct (after_turn_spec p evs s2) as (_ & _ & _ & _ & _ & Ho). fold t2 in Ho.
  assert (out t2 = out s2 ++ spans (prompts s1) [p]) as Ho' by (rewrite Ho, spans_one; unfold prompt_items; by rewrite Hp).
  unfold ends_alike. split_and!; [done.. |]. exists [p]. split; [done |]. destruct r as [reply | err].
  - destruct Hr as (-> & E & Hh & Hout). rewrite Hout, Ho'. split_and!; eauto.
  - destruct Hr as (-> & Hr). split; [done |].
    destruct Hr as [(E & err' & E1 & E2 & Hout) | (E1 & E2 & E3 & Hout)]; [left | right]; rewrite Ho', <- app_assoc in Hout; eauto 6.
Qed.

Lemma simulation n p o s1 s2 :
  work_of s1 = work_of s2 →
  let '(s1', r) := interact n p o s1 in let '(s2', b) := interactStream all_of n p o s2 in ends_alike s1 s2 s1' s2' r b.
Proof.
  revert p s1 s2. induction n as [n IH] using lt_wf_ind; intros p s1 s2 W. rewrite interactStream_unfold, interact_unfold.
  injection W as Wp Wd Wh. rewrite <- Wp. destruct (provider (prompts s1) p) as [evs | err] eqn:Hp.
  2: { cbv zeta. unfold ends_alike. split_and!; [unfold work_of; cbn; congruence | done | done |]. exists [p]. split; [done |]. split; [done |].
       left. split; [done |]. eexists. split_and!; [done.. |]. rewrite spans_one. unfold prompt_items. rewrite Hp. cbn. by rewrite <- app_assoc. }
  destruct (after_turn_spec p evs s2) as (P1 & P2 & P3 & P4 & P5 & P6). cbv zeta.
  destruct (tr_err (turn_of evs)) as [e |].
  { destruct (te_canceled e) eqn:Hcan; (eapply ends_alike_last; [exact Hp | unfold work_of; cbn; congruence | done | done | done |]); (split; [done |]); [right | left];
      cbn; eauto 6. }
  destruct (tr_call (turn_of evs)) as [call |]; [destruct n as [| n] |].
  1,3: eapply ends_alike_last; [exact Hp | unfold work_of; cbn; congruence | done | done | done |]; cbn; done.
  set (m := mkMessage true (tr_text (turn_of evs))).
  assert (dispatched (add_history m (after_turn p evs s2)) = dispatched (add_history m (add_prompt p s1))) as -> by (cbn; congruence).
  destruct (ValidateA2ACall call); [| destruct callAgent as [ask |]; [destruct (ask _ call) |]]; cbv beta iota;
    match goal with |- context [Executor.interact _ _ _ n ?p' o ?t1] =>
      match goal with |- context [Executor.interactStream _ _ _ _ n p' o ?t2] => specialize (IH n (Nat.lt_succ_diag_r n) p' t1 t2) end end;
    (destruct (Executor.interact _ _ _ n _ o _) as [s1' r]); (destruct (Executor.interactStream _ _ _ _ n _ o _) as [s2' b]);
    (eapply ends_alike_round; [exact Hp | | | | | | apply IH; unfold work_of; cbn; congruence]; cbn; try done; congruence).
Qed.

(** ** Requests *)

Context (now started : time) (opened : option turn_error) (agents : list peer_card) (m : incoming).

#[local] Abbreviation execute := (Execute now started opened agents m).
#[local] Abbreviation stream accept := (ExecuteStream accept maxDepth basePrompt recording now started opened agents m).

Lemma appendTranscript_same t1 t2 reply err s :
  let s' := appendTranscript recording t1 t2 m reply err s in
  work_of s' = work_of s ∧ State s' = State s ∧ StatusMessage s' = StatusMessage s ∧ out s' = out s.
Proof. unfold appendTranscript. by destruct recording. Qed.

(** However the provider and the other agents behave, and whether its updates are read to the
    end or not, one request prompts the provider at most one time more than it has rounds of
    calls, and dispatches at most that many calls: an agent that keeps asking for another
    one, or keeps getting it wrong, cannot go on for ever. *)
Lemma rounds_bounded accept :
  let s1 := (Execute now started opened agents m).1 in
  let s2 := ExecuteStream accept maxDepth basePrompt recording now started opened agents m in
  (length (prompts s1) ≤ S (Z.to_nat maxDepth) ∧ length (dispatched s1) ≤ Z.to_nat maxDepth) ∧
  (length (prompts s2) ≤ S (Z.to_nat maxDepth) ∧ length (dispatched s2) ≤ Z.to_nat maxDepth).
Proof.
  cbv zeta. assert (∀ t1 t2 r e s, prompts (appendTranscript recording t1 t2 m r e s) = prompts s ∧ dispatched (appendTranscript recording t1 t2 m r e s) = dispatched s) as Ha
    by (intros; unfold appendTranscript; by destruct recording).
  change (Z.to_nat maxDepth) with (rounds maxDepth). unfold Executor.Execute, Executor.ExecuteStream. destruct opened as [err |]; [cbn; rewrite !(proj1 (Ha _ _ _ _ _)), !(proj2 (Ha _ _ _ _ _)); cbn; lia |].
  destruct (buildTurnPrompt maxDepth basePrompt agents m) as [p o]. split.
  - pose proof (interact_budget (rounds maxDepth) p o (submitted m)) as Hb. cbn in Hb.
    destruct (Executor.interact _ _ _ _ p o _) as [s [reply | err]]; cbn [fst]; by rewrite (proj1 (Ha _ _ _ _ _)), (proj2 (Ha _ _ _ _ _)).
  - destruct (yield accept I_Working (submitted m)) as [s0 ok] eqn:Ey. injection Ey as <- <-. destruct (accept _); [| cbn; lia].
    match goal with |- context [Executor.interactStream _ _ _ _ _ p o ?s0] => pose proof (interactStream_budget accept (rounds maxDepth) p o s0) as Hb end. cbn in Hb.
    destruct (Executor.interactStream _ _ _ _ _ p o _) as [s []]; cbn [fst] in Hb.
    + cbn. by rewrite (proj1 (Ha _ _ _ _ _)), (proj2 (Ha _ _ _ _ _)).
    + destruct (streamErr s); [| done]. case_decide; [| done]. by rewrite (proj1 (Ha _ _ _ _ _)), (proj2 (Ha _ _ _ _ _)).
Qed.

Lemma finalAgentMessage_last h reply :
  finalAgentMessage (h ++ [mkMessage true reply]) = if decide (reply = "") then finalAgentMessage h else Some reply.
Proof.
  unfold finalAgentMessage. rewrite omap_app. destruct reply; cbn; [by rewrite app_nil_r | by rewrite last_snoc].
Qed.

#[local] Arguments finalAgentMessage : simpl never.

(** What the consumer is shown before the task as it ended: nothing when the session
    did not open. *)
Definition shown (s : io) : list item := if opened is Some _ then [] else I_Working :: spans [] (prompts s).

(** (C20) For a consumer that takes every event, and given the same answers, the
    streaming request does what the blocking one does: the same prompts are sent and the
    same agents called, and the same history is left; its consumer sees the task taken
    up, then every turn of the provider from its start to its end, event by event, then
    the task as it ended - or, when the session does not open, only the failed task.
    Both complete, or both fail; only a turn that was canceled is told apart, as canceled
    by the stream and as a failure by the blocking request, and then the stream leaves
    no record in the transcript. When both complete they record the same turn, unless
    the last reply is empty. (A consumer that leaves early stops the work: it is not
    covered.) *)
Theorem stream_agrees :
  let '(s1, e) := execute in let s2 := stream all_of in
  work_of s1 = work_of s2 ∧
  match e with
  | None =>
      State s1 = TaskCompleted ∧ State s2 = TaskCompleted ∧
      out s2 = I_Working :: spans [] (prompts s1) ++ [I_Task TaskCompleted (finalAgentMessage (History s1)) None] ∧
      (transcript s1 = transcript s2 ∨ ∃ h, History s1 = h ++ [mkMessage true ""])
  | Some err =>
      State s1 = TaskFailed ∧
      ((State s2 = TaskFailed ∧ ∃ err', te_canceled err' = te_canceled err ∧ length (transcript s1) = length (transcript s2) ∧
          out s2 = shown s1 ++ [I_Task TaskFailed None (Some err')]) ∨
       (te_canceled err = true ∧ State s2 = TaskCanceled ∧ transcript s2 = [] ∧
          out s2 = shown s1 ++ [I_Task TaskCanceled None None]))
  end.
Proof.
  unfold Executor.Execute, Executor.ExecuteStream, shown. destruct opened as [err |].
  { unfold appendTranscript. cbn. destruct recording; cbn; (split; [done |]); (split; [done |]); left; (split; [done |]); by exists err. }
  destruct (buildTurnPrompt maxDepth basePrompt agents m) as [p o].
  set (s0 := (yield all_of I_Working (submitted m)).1). change (yield all_of I_Working (submitted m)) with (s0, true).
  pose proof (simulation (rounds maxDepth) p o (submitted m) s0 eq_refl) as Hs. cbv beta iota.
  destruct (Executor.interact _ _ _ _ p o _) as [s1 r], (Executor.interactStream _ _ _ _ _ p o _) as [s2 b].
  destruct Hs as (W & T1 & T2 & ps & Hps & Hr). cbn in T1, T2, Hps. subst ps. injection W as Wp Wd Wh.
  destruct r as [reply | err]; unfold appendTranscript.
  - destruct Hr as (-> & E & (h & Hh) & Hout). cbn in Hout. split; [unfold work_of; cbn; destruct recording; cbn; congruence |].
    unfold finalAgentText. destruct recording; cbn;
      rewrite <- ?Wh, Hout, Hh, finalAgentMessage_last; (split_and!; [done.. |]); rewrite T1, T2; [case_decide; subst; eauto | by left].
  - destruct Hr as (-> & [(E1 & err' & E2 & E3 & Hout) | (E1 & E2 & E3 & Hout)]); cbn in Hout.
    + rewrite E2, E1, (decide_True (P := TaskFailed = TaskFailed)) by done. split; [destruct recording; cbn; unfold work_of; cbn; congruence |].
      destruct recording; cbn; (split; [done |]); left; (split; [done |]); exists err'; rewrite ?T1, ?T2; done.
    + rewrite E3. cbn. split; [destruct recording; unfold work_of; cbn; congruence |].
      destruct recording; cbn; (split; [done |]); right; done.
Qed.
End laws.

(** ** A consumer that leaves *)

(** When the consumer answers a delta by leaving, the loop still yields to it the end
    of the span (and what the turn still reports): a loop over the stream that has
    ended is called again. *)
Lemma yields_after_leaving `{UnicodeTables} Decode provider callAgent accept n p o s text :
  provider (prompts s) p = inl [EventTextDelta text] → accept (length (out s)) = true → accept (S (length (out s))) = false →
  out (interactStream Decode provider callAgent accept n p o s).1 = out s ++ [I_Data D_SpanStart; I_Delta text; I_Data (D_SpanEnd 0 0)].
Proof.
  intros Hp Ha Hb. destruct n; cbn [interactStream]; unfold yield at 1; rewrite Ha; cbn [prompts]; rewrite Hp;
    unfold runTurn; cbn; rewrite length_app; cbn; rewrite Nat.add_1_r, Hb; cbn; by rewrite <- !app_assoc.
Qed.

(** ** Concrete inputs *)

#[local] Existing Instances ascii_tables.

(** A provider that asks for another agent at every prompt, and one whose answers are
    canceled at the second. *)
Definition eager (before : list string) (p : string) : list Event + turn_error :=
  inl [EventTextDelta "ok"; EventText "ok"; EventToolUse "t1" "Read" ""; EventAgentCall "helper" "look"; EventTurnDone None 3 5].
Definition interrupted (before : list string) (p : string) : list Event + turn_error :=
  match before with
  | [] => eager before p
  | _ => inl [EventThinking; EventTurnDone (Some (mkTurnErr true "turn canceled")) 1 0]
  end.
Definition helper (before : list A2ACall) (c : A2ACall) : string + string :=
  match before with [] => inl "found" | _ => inr "busy" end.
Definition hello : incoming := mkIncoming "hello" "ann" "c1" "fresh" "t1".

Lemma stream_agrees_witness :
  let s1 := Execute (λ _, None) eager (Some helper) 2 "base" true 0 0 None [] hello in
  let s2 := ExecuteStream (λ _, None) eager (Some helper) (λ _, true) 2 "base" true 0 0 None [] hello in
  s1.2 = None ∧ length (prompts s1.1) = 3 ∧ length (out s2) = 14 ∧ work_of s1.1 = work_of s2.
Proof.
  pose proof (stream_agrees (λ _, None) eager (Some helper) 2 "base" true 0 0 None [] hello) as Hs.
  split_and!; [vm_compute; reflexivity.. | ]. cbv zeta in Hs |- *. destruct (Execute _ _ _ _ _ _ _ _ _ _ _) as [s e]. exact (proj1 Hs).
Defined.

(** The turn canceled after a call: a failure here, a cancellation there. *)
Lemma canceled_twice :
  let s1 := Execute (λ _, None) interrupted (Some helper) 2 "base" true 0 0 None [] hello in
  let s2 := ExecuteStream (λ _, None) interrupted (Some helper) (λ _, true) 2 "base" true 0 0 None [] hello in
  (State s1.1, length (transcript s1.1)) = (TaskFailed, 1) ∧ (State s2, length (transcript s2)) = (TaskCanceled, 0).
Proof. vm_compute. done. Qed.
