(* ===== verification/Server.v ===== *)
(** * The A2A server of an agent ([internal/wrapper/server.go])

    Tasks accepted for the background, their cancellation, and streamed turns, as the
    critical sections of concurrent goroutines over the task store. The executor is
    a relation between a message's task and its results. Logging, JSON-RPC and the
    empty push-config methods are left out. *)
From S2P Require Import Prelude GoBase GoStrings TaskStore Transcript Executor.
From Stdlib Require Import ZArith Lia.

Record Task := mkTask { ID : string; ContextID : string; task_State : TaskState; task_Message : option string; task_History : list Message }.

Definition with_State (st : TaskState) (m : option string) (t : Task) : Task := mkTask (ID t) (ContextID t) st m (task_History t).

Definition terminal (st : TaskState) : bool := match st with TaskCompleted | TaskFailed | TaskCanceled => true | _ => false end.

(** The context of a goroutine is named by the goroutine. *)
Record A2AServer := mkServer { tasks : TaskStore (Task := Task); asyncCancels : gmap string nat; cancelled : gset nat }.

Definition NewA2AServer : A2AServer := mkServer NewTaskStore ∅ ∅.

Definition save (t : Task) (s : A2AServer) : A2AServer := mkServer (Save ID t (tasks s)) (asyncCancels s) (cancelled s).
Definition get (id : string) (s : A2AServer) : option Task := Get id (tasks s).
Definition register (id : string) (i : nat) (s : A2AServer) : A2AServer := mkServer (tasks s) (<[id := i]> (asyncCancels s)) (cancelled s).
Definition unregister (id : string) (s : A2AServer) : A2AServer := mkServer (tasks s) (delete id (asyncCancels s)) (cancelled s).
Definition cancel (i : nat) (s : A2AServer) : A2AServer := mkServer (tasks s) (asyncCancels s) ({[i]} ∪ cancelled s).

(** [ctx.Err() != nil] *)
Definition ctx_done (i : nat) (s : A2AServer) : bool := bool_decide (i ∈ cancelled s).

(** ** Reading: [OnGetTask], [OnListTasks] *)

Definition OnGetTask (id : string) (s : A2AServer) : string + Task :=
  match get id s with Some t => inr t | None => inl ("task " +:+ id +:+ " not found") end.

Definition OnListTasks (s : A2AServer) : list Task := TaskStore.List (tasks s).

(** ** The goroutines *)

(** What the executor returns, and what it streams. *)
Abbreviation result := (option Task * option string)%type (only parsing).

Inductive goroutine :=
(* [sendNonBlocking] and the goroutine it starts *)
| A_accepted (t : Task)
| A_registered (t : Task)
| A_begun (t : Task)
| A_running (t : Task)
| A_returned (t : Task) (r : result)
| A_checked (t : Task) (r : result) (was_canceled : bool)
| A_settle (t : Task) (saved : option Task)
| A_leaving (t : Task)
| A_gone (t : Task)
(* [OnCancelTask] *)
| C_called (id : string)
| C_fired (id : string) (found : bool)
| C_got (id : string) (t : Task)
| C_replied (id : string) (reply : string + Task)
(* [OnSendMessageStream], with [cancelTaskID] *)
| S_open (cancelTaskID : option string)
| S_gone.

(** [sendNonBlocking]: the submitted task. *)
Definition accept_task (id ctx text : string) : Task := mkTask id ctx TaskSubmitted None [mkMessage false text].

(** The goroutine after the executor has returned: what is saved. *)
Definition async_result (t : Task) (r : result) (canceled : bool) : option Task :=
  if canceled then Some (with_State TaskCanceled None t)
  else
    match r with
    | (_, Some err) => Some (with_State TaskFailed (Some err) t)
    | (Some x, None) => Some (mkTask (ID t) (ContextID t) (task_State x) (task_Message x) (task_History x))
    | (None, None) => None
    end.

(** One step of the goroutine [i] that runs the task. *)
Definition async_step (i : nat) (g : goroutine) (s : A2AServer) : option (A2AServer * goroutine) :=
  match g with
  | A_accepted t => Some (register (ID t) i s, A_registered t)
  | A_registered t => Some (s, if ctx_done i s then A_leaving t else A_begun t)
  | A_begun t => Some (save (with_State TaskWorking None t) s, A_running t)
  | A_returned t r => Some (s, A_checked t r (bool_decide (task_State <$> get (ID t) s = Some TaskCanceled)))
  | A_checked t r c => Some (s, A_settle t (async_result t r (c || ctx_done i s)))
  | A_settle t (Some x) => Some (save x s, A_leaving t)
  | A_settle t None => Some (s, A_leaving t)
  | A_leaving t => Some (cancel i (unregister (ID t) s), A_gone t)
  | _ => None
  end.

(** One step of [OnCancelTask]. *)
Definition cancel_step (g : goroutine) (s : A2AServer) : option (A2AServer * goroutine) :=
  match g with
  | C_called id =>
      match asyncCancels s !! id with
      | Some i => Some (cancel i s, C_fired id true)
      | None => Some (s, C_fired id false)
      end
  | C_fired id found =>
      match get id s with
      | Some t => Some (s, C_got id t)
      | None => Some (s, C_replied id (if found then inr (mkTask id "" TaskCanceled None []) else inl ("task " +:+ id +:+ " not found")))
      end
  | C_got id t =>
      let t := with_State TaskCanceled None t in Some (save t s, C_replied id (inr t))
  | _ => None
  end.

(** An event of the streamed turn of goroutine [i]: [registerCancel], then the task
    if it carries one. *)
Definition stream_event (i : nat) (reg : option string) (id : string) (t : option Task) (s : A2AServer) : A2AServer * goroutine :=
  let '(s, reg) := if decide (id = "" ∨ is_Some reg) then (s, reg) else (register id i s, Some id) in
  (from_option (λ t, save t s) s t, S_open reg).

(** The end of the stream. *)
Definition stream_end (i : nat) (reg : option string) (s : A2AServer) : A2AServer * goroutine :=
  (cancel i (from_option (λ id, unregister id s) s reg), S_gone).

(** [OnSendMessage] that blocks, with the result of the executor. *)
Definition OnSendMessage (r : result) (s : A2AServer) : A2AServer * (string + option Task) :=
  match r with
  | (_, Some err) => (s, inl err)
  | (x, None) => (from_option (λ t, save t s) s x, inr x)
  end.

(** ** The system *)

(** What the executor returns for a task, and the tasks that the streaming one
    yields. *)
Section system.
Context (executor : Task → result → Prop) (streamer : Task → Prop).

Definition system : Type := A2AServer * list goroutine.

Definition async_task (g : goroutine) : option Task :=
  match g with
  | A_accepted t | A_registered t | A_begun t | A_running t | A_returned t _ | A_checked t _ _ | A_settle t _ | A_leaving t | A_gone t => Some t
  | _ => None
  end.

(** No task in the background has this id. *)
Definition foreign (id : string) (gs : list goroutine) : Prop := ∀ i g t, gs !! i = Some g → async_task g = Some t → ID t ≠ id.

(** The ids that the library makes are fresh. A client may give a streamed or blocking
    turn any id, also that of a task in the background: the label is the id of the
    task that such a turn stores. *)
Inductive step : option string → system → system → Prop :=
| step_accept s gs id ctx text :
    foreign id gs → get id s = None →
    step None (s, gs) (save (accept_task id ctx text) s, gs ++ [A_accepted (accept_task id ctx text)])
| step_async s gs i g s' g' : gs !! i = Some g → async_step i g s = Some (s', g') → step None (s, gs) (s', <[i := g']> gs)
| step_executor s gs i t r : gs !! i = Some (A_running t) → executor t r → step None (s, gs) (s, <[i := A_returned t r]> gs)
| step_cancel s gs id : step None (s, gs) (s, gs ++ [C_called id])
| step_canceling s gs i g s' g' : gs !! i = Some g → cancel_step g s = Some (s', g') → step None (s, gs) (s', <[i := g']> gs)
| step_stream s gs : step None (s, gs) (s, gs ++ [S_open None])
| step_event s gs i reg id t :
    gs !! i = Some (S_open reg) → (∀ x, t = Some x → streamer x) →
    step (ID <$> t) (s, gs) (let '(s', g') := stream_event i reg id t s in (s', <[i := g']> gs))
| step_end s gs i reg : gs !! i = Some (S_open reg) → step None (s, gs) (let '(s', g') := stream_end i reg s in (s', <[i := g']> gs))
| step_blocking s gs t r : executor t r → step (ID <$> r.1) (s, gs) ((OnSendMessage r s).1, gs).

Definition any_step : relation system := λ x y, ∃ l, step l x y.
End system.
