(* ===== verification/ServerLaws.v ===== *)
(** * What the A2A server guarantees ([internal/wrapper/server.go])

    However requests, background turns, streams and cancellations interleave, a task
    accepted for the background settles, nothing of it is left behind, and a
    cancellation that reaches it in time is not overruled. *)
From S2P Require Import Prelude GoBase GoStrings TaskStore Transcript Executor ExecutorLaws Server.
From Stdlib Require Import ZArith Lia.

Section laws.
Context (executor : Task → result → Prop) (streamer : Task → Prop).

(** What is relied on of the executor: it returns a task that has ended, or an error,
    and a task that it streams has ended. *)
Definition settling : Prop :=
  (∀ t r, executor t r → match r with (_, Some _) => True | (Some x, None) => terminal (task_State x) = true | (None, None) => False end) ∧
  ∀ x, streamer x → terminal (task_State x) = true.

#[local] Abbreviation step := (any_step executor streamer).

(** ** The parts of the state *)

Lemma get_save id t s : get id (save t s) = if decide (id = ID t) then Some t else get id s.
Proof.
  unfold get, save, Get, Save. cbn. destruct (decide (id = ID t)) as [-> |]; [by rewrite lookup_insert_eq | by rewrite lookup_insert_ne].
Qed.

(** A cancellation that will still store its task. *)
Definition pends (id : string) (g : goroutine) : bool :=
  match g with C_fired id' _ | C_got id' _ => bool_decide (id' = id) | _ => false end.

Definition pending (id : string) (gs : list goroutine) : Prop := ∃ i g, gs !! i = Some g ∧ pends id g = true.

Definition stored (id : string) (P : TaskState → Prop) (s : A2AServer) : Prop := ∃ x, get id s = Some x ∧ P (task_State x).

(** The goroutines whose cancellation is registered. *)
Definition registered (g : goroutine) : bool :=
  match g with A_accepted _ | A_gone _ => false | _ => bool_decide (is_Some (async_task g)) end.

Definition known (g : goroutine) (t : Task) (r : result) : Prop := executor t r.

Definition phase_ok (i : nat) (g : goroutine) (s : A2AServer) (gs : list goroutine) : Prop :=
  match g with
  | A_accepted _ => i ∉ cancelled s
  | A_registered t => i ∈ cancelled s → stored (ID t) (λ st, terminal st = true) s ∨ pending (ID t) gs
  | A_returned t r | A_checked t r _ => executor t r
  | A_settle t x => ∃ y, x = Some y ∧ ID y = ID t ∧ terminal (task_State y) = true
  | A_leaving t | A_gone t => stored (ID t) (λ st, terminal st = true) s ∨ pending (ID t) gs
  | _ => True
  end.

Record inv (x : system) : Prop := {
  inv_keyed id t : get id x.1 = Some t → ID t = id;
  inv_own i j g g' t t' :
    x.2 !! i = Some g → x.2 !! j = Some g' → async_task g = Some t → async_task g' = Some t' → ID t = ID t' → i = j;
  inv_got i id t : x.2 !! i = Some (C_got id t) → ID t = id;
  inv_cancels id j :
    asyncCancels x.1 !! id = Some j →
    ∃ g, x.2 !! j = Some g ∧ ((∃ t, async_task g = Some t ∧ ID t = id ∧ registered g = true) ∨ g = S_open (Some id));
  inv_bound j : j ∈ cancelled x.1 → j < length x.2;
  inv_exists i g t : x.2 !! i = Some g → async_task g = Some t → is_Some (get (ID t) x.1);
  inv_phase i g : x.2 !! i = Some g → phase_ok i g x.1 x.2;
}.

(** ** What a step does to the other goroutines *)

(** Seen by the goroutine [k] with the task [id]: its task is untouched or comes to an
    end, pending cancellations stay or have taken effect, and [k] is only
    canceled by one that is pending. *)
Record quiet (k : nat) (id : string) (s s' : A2AServer) (gs gs' : list goroutine) : Prop := {
  quiet_get : get id s' = get id s ∨ stored id (λ st, terminal st = true) s';
  quiet_pending : pending id gs → pending id gs' ∨ stored id (λ st, terminal st = true) s';
  quiet_cancelled : k ∈ cancelled s' → k ∈ cancelled s ∨ pending id gs';
}.

Lemma quiet_stored k id s s' gs gs' (P := λ st, terminal st = true) :
  quiet k id s s' gs gs' → stored id P s ∨ pending id gs → stored id P s' ∨ pending id gs'.
Proof.
  intros [Hg Hp _] [Hs | Hs].
  - left. destruct Hg as [E | ?]; [unfold stored in *; by rewrite E | done].
  - destruct (Hp Hs) as [? | ?]; [by right | by left].
Qed.

Lemma phase_quiet k g t s s' gs gs' :
  async_task g = Some t → (registered g = false → k ∈ cancelled s' → k ∈ cancelled s) → quiet k (ID t) s s' gs gs' → phase_ok k g s gs → phase_ok k g s' gs'.
Proof.
  intros Ht Hr Hq. destruct g; try done; injection Ht as <-; cbn.
  - intros Hk Hc. by apply Hk, Hr.
  - intros Hk Hc. destruct (quiet_cancelled _ _ _ _ _ _ Hq Hc) as [Hc' |]; [| by right]. by apply (quiet_stored k _ s _ gs), Hk.
  - by apply (quiet_stored k _ s _ gs).
  - by apply (quiet_stored k _ s _ gs).
Qed.

Lemma phase_no_task k g s s' gs gs' : async_task g = None → phase_ok k g s gs → phase_ok k g s' gs'.
Proof. by destruct g. Qed.

Lemma pending_update id i g g' gs (X : Prop) :
  gs !! i = Some g → (pends id g = true → pends id g' = true ∨ X) → pending id gs → pending id (<[i := g']> gs) ∨ X.
Proof.
  intros Hi Hp (j & h & Hj & Hh). destruct (decide (j = i)) as [-> | Hne].
  - assert (h = g) as -> by congruence. destruct (Hp Hh) as [Hg |]; [| by right]. left. exists i, g'.
    by rewrite list_lookup_insert_eq by (by eapply lookup_lt_Some).
  - left. exists j, h. by rewrite list_lookup_insert_ne.
Qed.

Lemma pending_new id i g g' gs : gs !! i = Some g → pends id g' = true → pending id (<[i := g']> gs).
Proof. intros Hi Hp. exists i, g'. by rewrite list_lookup_insert_eq by (by eapply lookup_lt_Some). Qed.

Lemma pending_snoc id g gs : pending id gs → pending id (gs ++ [g]).
Proof. intros (i & h & Hi & Hh). exists i, h. split; [| done]. by apply lookup_app_l_Some. Qed.

(** A goroutine that keeps its task moves. *)
Lemma inv_update s gs i g s' g' :
  inv (s, gs) → gs !! i = Some g → async_task g' = async_task g →
  (∀ id t, get id s' = Some t → ID t = id) →
  (∀ id t, g' = C_got id t → ID t = id) →
  (∀ id j, asyncCancels s' !! id = Some j →
     j = i ∧ ((∃ t, async_task g' = Some t ∧ ID t = id ∧ registered g' = true) ∨ g' = S_open (Some id)) ∨ j ≠ i ∧ asyncCancels s !! id = Some j) →
  (∀ j, j ∈ cancelled s' → j ∈ cancelled s ∨ j < length gs) →
  (∀ id, is_Some (get id s) → is_Some (get id s')) →
  phase_ok i g' s' (<[i := g']> gs) →
  (∀ k gk t, k ≠ i → gs !! k = Some gk → async_task gk = Some t →
     quiet k (ID t) s s' gs (<[i := g']> gs) ∧ (registered gk = false → k ∈ cancelled s' → k ∈ cancelled s)) →
  inv (s', <[i := g']> gs).
Proof.
  intros [Hkey Hown Hgot Hcan Hbnd Hex Hph] Hi Ht Hkey' Hgot' Hcan' Hbnd' Hex' Hph' Hoth. cbn [fst snd] in *.
  assert (∀ k gk, <[i := g']> gs !! k = Some gk → k = i ∧ gk = g' ∨ k ≠ i ∧ gs !! k = Some gk) as Hlook.
  { intros k gk. destruct (decide (k = i)) as [-> | Hk]; [| rewrite list_lookup_insert_ne by done; by right].
    rewrite list_lookup_insert_eq by (by eapply lookup_lt_Some). intros [= <-]. by left. }
  assert (∀ k gk t, <[i := g']> gs !! k = Some gk → async_task gk = Some t → ∃ gk', gs !! k = Some gk' ∧ async_task gk' = Some t) as Hold.
  { intros k gk t [[-> ->] | [Hk Hgk]]%Hlook Hgt; [exists g; split; [done | congruence] | by exists gk]. }
  split; cbn [fst snd].
  - done.
  - intros k l gk gl t t' Hk Hl Hgk Hgl E. destruct (Hold k gk t Hk Hgk) as (gk' & ? & ?), (Hold l gl t' Hl Hgl) as (gl' & ? & ?). by eapply Hown.
  - intros k id t [[-> <-] | [Hk Hgk]]%Hlook; [by apply Hgot' | by eapply Hgot].
  - intros id j [[-> Hg] | [Hj Hc]]%Hcan'.
    + exists g'. split; [| done]. apply list_lookup_insert_eq. by eapply lookup_lt_Some.
    + destruct (Hcan id j Hc) as (gj & Hgj & Hr). exists gj. split; [by rewrite list_lookup_insert_ne | done].
  - intros j Hj. rewrite length_insert. destruct (Hbnd' j Hj) as [Hj' |]; [by apply Hbnd | done].
  - intros k gk t Hk Hgk. destruct (Hold k gk t Hk Hgk) as (gk' & Hk' & Hgk'). apply Hex'. by eapply Hex.
  - intros k gk [[-> ->] | [Hk Hgk]]%Hlook; [done |]. destruct (async_task gk) as [t |] eqn:Hgt; [| by eapply phase_no_task, Hph].
    destruct (Hoth k gk t Hk Hgk Hgt). eapply phase_quiet; eauto.
Qed.

(** A goroutine without a task arrives. *)
Lemma inv_spawn s gs g : inv (s, gs) → async_task g = None → (∀ id t, g ≠ C_got id t) → inv (s, gs ++ [g]).
Proof.
  intros [Hkey Hown Hgot Hcan Hbnd Hex Hph] Ht H1. cbn [fst snd] in *.
  assert (∀ k gk, (gs ++ [g]) !! k = Some gk → gk = g ∨ gs !! k = Some gk) as Hlook.
  { intros k gk [Hk | [_ Hk]]%lookup_app_Some; [by right |]. left. by apply list_lookup_singleton_Some in Hk as [_ ->]. }
  assert (∀ k gk t, (gs ++ [g]) !! k = Some gk → async_task gk = Some t → gs !! k = Some gk) as Hold.
  { intros k gk t [-> | Hk]%Hlook Hgt; [congruence | done]. }
  split; cbn [fst snd].
  - done.
  - intros k l gk gl t t' Hk Hl Hgk Hgl E. eapply Hown; [by eapply Hold | by eapply Hold | done..].
  - intros k id t [E | Hk]%Hlook; [by destruct (H1 id t) | by eapply Hgot].
  - intros id j Hc. destruct (Hcan id j Hc) as (gj & Hgj & Hr). exists gj. split; [by apply lookup_app_l_Some | done].
  - intros j Hj. rewrite length_app. specialize (Hbnd j Hj). lia.
  - intros k gk t Hk Hgk. eapply Hex; [by eapply Hold | done].
  - intros k gk Hk. destruct (Hlook k gk Hk) as [-> | Hgk]; [by destruct g |]. destruct (async_task gk) as [t |] eqn:Hgt; [| by eapply phase_no_task, Hph].
    eapply phase_quiet; [done | done | | by apply Hph]. split; [by left | intros Hp; left; by apply pending_snoc | by left].
Qed.

(** ** The steps keep the invariant *)

Lemma quiet_still k id s s' gs i g g' :
  gs !! i = Some g → (pends id g = true → pends id g' = true) → get id s' = get id s → (k ∈ cancelled s' → k ∈ cancelled s) →
  quiet k id s s' gs (<[i := g']> gs).
Proof.
  intros Hi Hp Hg Hc. split; [by left | | intros; left; by apply Hc]. intros Hpend.
  destruct (pending_update id i g g' gs False Hi) as [|[]]; [intros; left; by apply Hp | done | by left].
Qed.

(** What the move of a goroutine in the background leaves to be shown. *)
Lemma inv_async s gs i g s' g' t :
  inv (s, gs) → gs !! i = Some g → async_task g = Some t → async_task g' = Some t →
  (∀ id, id ≠ ID t → get id s' = get id s) → (∀ x, get (ID t) s' = Some x → ID x = ID t) → is_Some (get (ID t) s') →
  (∀ id j, asyncCancels s' !! id = Some j → j = i ∧ id = ID t ∧ registered g' = true ∨ j ≠ i ∧ asyncCancels s !! id = Some j) →
  (∀ j, j ∈ cancelled s' → j ∈ cancelled s ∨ j = i) →
  phase_ok i g' s' (<[i := g']> gs) →
  inv (s', <[i := g']> gs).
Proof.
  intros Hinv Hi Hg Hg' Hget Hkey Hex Hcan Hcc Hph. pose proof Hinv as [Hkey0 Hown _ _ _ _ _]. cbn [fst snd] in *.
  assert (pends (ID t) g = false ∧ ∀ id, pends id g = false) as [_ Hnp] by (by destruct g).
  eapply inv_update; try done.
  - congruence.
  - intros id x Hx. destruct (decide (id = ID t)) as [-> | Hne]; [by apply Hkey | rewrite Hget in Hx by done; by apply Hkey0].
  - by intros id x ->.
  - intros id j [(-> & -> & Hr) | [Hj Hc]]%Hcan; [left; split; [done |]; left; by exists t | by right].
  - intros j [Hj | ->]%Hcc; [by left | right; by eapply lookup_lt_Some].
  - intros id Hid. destruct (decide (id = ID t)) as [-> | Hne]; [done | by rewrite Hget].
  - intros k gk tk Hk Hgk Htk. assert (ID tk ≠ ID t) as Hne by (intros E; by apply Hk, (Hown k i gk g tk t)).
    assert (k ∈ cancelled s' → k ∈ cancelled s) as Hkc by (intros [? | ->]%Hcc; done).
    split; [| done]. eapply quiet_still; [done | by rewrite Hnp | by apply Hget | done].
Qed.

(** A goroutine in the background is the only one registered under its index. *)
Lemma cancels_self s gs i g t id :
  inv (s, gs) → gs !! i = Some g → async_task g = Some t → asyncCancels s !! id = Some i → id = ID t ∧ registered g = true.
Proof.
  intros [_ _ _ Hcan _ _ _] Hi Hg Hc. destruct (Hcan id i Hc) as (g' & Hg' & Hr). cbn [fst snd] in *.
  assert (g' = g) as -> by congruence. destruct Hr as [(t' & Ht' & <- & Hr) | ->]; [| done]. rewrite Hg in Ht'. by injection Ht' as ->.
Qed.

Lemma cancels_keep s gs i g t (b : bool) :
  inv (s, gs) → gs !! i = Some g → async_task g = Some t → b = true ∨ registered g = false →
  ∀ id j, asyncCancels s !! id = Some j → j = i ∧ id = ID t ∧ b = true ∨ j ≠ i ∧ asyncCancels s !! id = Some j.
Proof.
  intros Hinv Hi Hg Hr id j Hc. destruct (decide (j = i)) as [-> |]; [left | by right].
  destruct (cancels_self _ _ _ _ _ _ Hinv Hi Hg Hc) as [-> Hr']. split_and!; [done.. |]. destruct Hr; [done | congruence].
Qed.

Lemma pending_still id i g g' gs : gs !! i = Some g → pends id g = false → pending id gs → pending id (<[i := g']> gs).
Proof.
  intros Hi Hp Hpend. assert (pends id g = true → pends id g' = true ∨ False) as Hx by (intros; congruence).
  by destruct (pending_update id i g g' gs False Hi Hx Hpend) as [|[]].
Qed.

Lemma async_step_inv s gs i g s' g' :
  settling → inv (s, gs) → gs !! i = Some g → async_step i g s = Some (s', g') → inv (s', <[i := g']> gs).
Proof.
  intros Hset Hinv Hi Hstep.
  pose proof (inv_phase _ Hinv i g Hi) as Hph. pose proof (inv_exists _ Hinv i g) as Hex. pose proof (inv_keyed _ Hinv) as Hkey. cbn [fst snd] in *.
  destruct g as [t | t | t | t | t r | t r c | t x | t | t | | | | | |]; try done; cbn in Hstep;
    try (destruct x as [x |]); injection Hstep as <- <-; specialize (Hex t Hi eq_refl).
  - eapply inv_async; try done; [by apply Hkey | | by left |].
    + intros id j. unfold register. cbn. rewrite lookup_insert_Some. intros [[<- <-] | [Hne Hc]]; [by left | ].
      eapply (cancels_keep _ _ _ _ _ true) in Hc; [exact Hc | done | exact Hi | done | by right].
    + intros Hc. by destruct Hph.
  - assert (registered (if ctx_done i s then A_leaving t else A_begun t) = true) as Hr by (by destruct (ctx_done i s)).
    eapply inv_async; try done; [by destruct (ctx_done i s) | by apply Hkey | rewrite Hr; exact (cancels_keep s gs i _ t true Hinv Hi eq_refl (or_introl eq_refl)) | by left |].
    unfold ctx_done. case_bool_decide as Hc; [| done]. cbn in *. destruct (Hph Hc) as [(y & Hy & Hs) | Hp]; [left | right; by eapply pending_still].
    exists y. by rewrite Hs.
  - eapply inv_async; try done; [| | | exact (cancels_keep s gs i _ t true Hinv Hi eq_refl (or_introl eq_refl)) | by left].
    + intros id Hne. by rewrite get_save, decide_False.
    + intros y. rewrite get_save, decide_True by done. by intros [= <-].
    + by rewrite get_save, decide_True.
  - eapply inv_async; try done; [by apply Hkey | exact (cancels_keep s gs i _ t true Hinv Hi eq_refl (or_introl eq_refl)) | by left].
  - eapply inv_async; try done; [by apply Hkey | exact (cancels_keep s gs i _ t true Hinv Hi eq_refl (or_introl eq_refl)) | by left |].
    cbn in *. unfold async_result. destruct (c || ctx_done i s); [by eexists |]. pose proof (proj1 Hset t r Hph) as Hr.
    destruct r as [[y |] [err |]]; try done; by eexists.
  - destruct Hph as (y & [= <-] & Hy & Hter).
    eapply inv_async; try done; [| | | exact (cancels_keep s gs i _ t true Hinv Hi eq_refl (or_introl eq_refl)) | by left |].
    + intros id Hne. rewrite get_save, decide_False; [done | congruence].
    + intros z. rewrite get_save, decide_True by done. by intros [= <-].
    + by rewrite get_save, decide_True.
    + left. exists x. by rewrite get_save, decide_True.
  - by destruct Hph as (y & ? & _).
  - eapply inv_async; try done; [by apply Hkey | | |].
    + intros id j. unfold cancel, unregister. cbn. rewrite lookup_delete_Some. intros [Hne Hc]. right. split; [| done]. intros ->.
      destruct (cancels_self _ _ _ _ _ _ Hinv Hi eq_refl Hc). congruence.
    + intros j. unfold cancel. cbn. rewrite elem_of_union, elem_of_singleton. naive_solver.
    + cbn in *. destruct Hph as [|]; [by left | right; by eapply pending_still].
Qed.

(** The move of a goroutine without a task that leaves the registrations alone. *)
Lemma inv_other s gs i g s' g' :
  inv (s, gs) → gs !! i = Some g → async_task g = None → async_task g' = None → (∀ id, g ≠ S_open id) →
  (∀ id t, g' = C_got id t → ID t = id) → (∀ id, g' ≠ S_open id) →
  (∀ id t, get id s' = Some t → ID t = id) → asyncCancels s' = asyncCancels s →
  (∀ j, j ∈ cancelled s' → j ∈ cancelled s ∨ j < length gs) → (∀ id, is_Some (get id s) → is_Some (get id s')) →
  (∀ k gk t, k ≠ i → gs !! k = Some gk → async_task gk = Some t →
     quiet k (ID t) s s' gs (<[i := g']> gs) ∧ (registered gk = false → k ∈ cancelled s' → k ∈ cancelled s)) →
  inv (s', <[i := g']> gs).
Proof.
  intros Hinv Hi Hg Hg' Hs Hgot Hs' Hkey Hcan Hbnd Hex Hoth. eapply inv_update; try done.
  - congruence.
  - intros id j. rewrite Hcan. intros Hc. right. split; [| done]. intros ->. destruct (inv_cancels _ Hinv id i Hc) as (h & Hh & Hr). cbn in Hh.
    assert (h = g) as -> by congruence. destruct Hr as [(t & ? & _) | ->]; [congruence | by destruct (Hs (Some id))].
  - by destruct g'.
Qed.

Lemma cancel_step_inv s gs i g s' g' : inv (s, gs) → gs !! i = Some g → cancel_step g s = Some (s', g') → inv (s', <[i := g']> gs).
Proof.
  intros Hinv Hi Hstep. pose proof (inv_keyed _ Hinv) as Hkey. pose proof (inv_exists _ Hinv) as Hex. cbn [fst snd] in *.
  destruct g as [| | | | | | | | | id | id found | id t | | |]; try done; cbn in Hstep.
  - destruct (asyncCancels s !! id) as [j |] eqn:Hc; injection Hstep as <- <-; (eapply inv_other; try done).
    + intros k. unfold cancel. cbn. rewrite elem_of_union, elem_of_singleton. intros [-> |]; [right | by left].
      destruct (inv_cancels _ Hinv id j Hc) as (gj & Hgj & _). by eapply lookup_lt_Some.
    + intros k gk tk Hk Hgk Htk. destruct (inv_cancels _ Hinv id j Hc) as (gj & Hgj & Hr). cbn in Hgj.
      assert (k = j → id = ID tk ∧ registered gk = true) as Hkj.
      { intros ->. assert (gj = gk) as -> by congruence. destruct Hr as [(x & Hx & <- & ?) | ->]; [| done]. rewrite Htk in Hx. by injection Hx as ->. }
      unfold cancel. cbn. split; [split; [by left | intros Hp; left; by eapply pending_still |] |]; cbn; rewrite elem_of_union, elem_of_singleton.
      * intros [-> |]; [right | by left]. destruct (Hkj eq_refl) as [-> _]. eapply pending_new; [exact Hi | by apply bool_decide_eq_true].
      * intros Hf [-> |]; [| done]. destruct (Hkj eq_refl). congruence.
    + intros k Hk. by left.
    + intros k gk tk Hk Hgk Htk. split; [| done]. by eapply quiet_still.
  - destruct (get id s) as [t |] eqn:Hget; injection Hstep as <- <-; (eapply inv_other; try done).
    + intros id' t' [= <- <-]. by apply Hkey.
    + intros k Hk. by left.
    + intros k gk tk Hk Hgk Htk. split; [| done]. by eapply quiet_still.
    + intros k Hk. by left.
    + intros k gk tk Hk Hgk Htk. split; [| done]. eapply quiet_still; try done. cbn. rewrite bool_decide_eq_true. intros ->.
      destruct (Hex k gk tk Hgk Htk) as [x Hx]. congruence.
  - pose proof (inv_got _ Hinv i id t Hi) as Hid. injection Hstep as <- <-. eapply inv_other; try done.
    + intros id' t'. rewrite get_save. case_decide as E; [intros [= <-]; cbn in *; congruence | apply Hkey].
    + intros k Hk. by left.
    + intros id' Hid'. rewrite get_save. by case_decide.
    + intros k gk tk Hk Hgk Htk. split; [| done]. cbn in Hid.
      assert (ID tk = id → stored (ID tk) (λ st, terminal st = true) (save (with_State TaskCanceled None t) s)) as Hst.
      { intros E. exists (with_State TaskCanceled None t). rewrite get_save, decide_True; [done | cbn; congruence]. }
      split; [| | by left].
      * destruct (decide (ID tk = id)) as [E | E]; [right; by apply Hst | left]. rewrite get_save, decide_False; [done | cbn; congruence].
      * intros Hp. eapply pending_update; [exact Hi | | exact Hp]. cbn. rewrite bool_decide_eq_true. intros ->. right. by apply Hst.
Qed.

Lemma foreign_save x s gs k gk t : foreign (ID x) gs → gs !! k = Some gk → async_task gk = Some t → get (ID t) (save x s) = get (ID t) s.
Proof. intros Hf Hk Ht. rewrite get_save, decide_False; [done |]. by eapply Hf. Qed.

(** Saving a task of others, or one that has ended. *)
Lemma inv_save s gs x : inv (s, gs) → foreign (ID x) gs ∨ terminal (task_State x) = true → inv (save x s, gs).
Proof.
  intros [Hkey Hown Hgot Hcan Hbnd Hex Hph] Hf. cbn [fst snd] in *. split; cbn [fst snd]; try done.
  - intros id t. rewrite get_save. case_decide; [by intros [= <-] | apply Hkey].
  - intros k gk t Hk Ht. rewrite get_save. case_decide; [by eexists | by eapply Hex].
  - intros k gk Hk. destruct (async_task gk) as [t |] eqn:Ht; [| by eapply phase_no_task, Hph].
    apply (phase_quiet k gk t s _ gs); [done | done | | by apply Hph]. split; [| by left | by left].
    destruct Hf as [Hf | Hf]; [left; by eapply foreign_save |]. unfold stored. rewrite get_save. case_decide; [right; by eexists | by left].
Qed.

Lemma stream_event_inv s gs i reg id t :
  inv (s, gs) → gs !! i = Some (S_open reg) → (∀ x, t = Some x → terminal (task_State x) = true) →
  let '(s', g') := stream_event i reg id t s in inv (s', <[i := g']> gs).
Proof.
  intros Hinv Hi Ht. unfold stream_event. set (y := if decide (id = "" ∨ is_Some reg) then (s, reg) else (register id i s, Some id)).
  assert (inv (y.1, <[i := S_open y.2]> gs)) as Hy.
  { unfold y. destruct (decide (id = "" ∨ is_Some reg)) as [| Hn]; [by rewrite list_insert_id |]. assert (reg = None) as -> by (destruct reg; [exfalso; eauto | done]).
    eapply inv_update; try done; cbn [fst snd].
    - apply (inv_keyed _ Hinv).
    - intros id' j. unfold register. cbn. rewrite lookup_insert_Some. intros [[<- <-] | [Hne Hc]]; [left; eauto | right]. split; [| done]. intros ->.
      destruct (inv_cancels _ Hinv id' i Hc) as (h & Hh & Hr). cbn in Hh. assert (h = S_open None) as -> by congruence. by destruct Hr as [(? & ? & _) |].
    - by left.
    - intros k gk tk Hk Hgk Htk. split; [| done]. by eapply quiet_still. }
  destruct y as [s1 reg1]. cbn in Hy. destruct t as [x |]; [| done]. cbn. apply inv_save; [done |]. right. by apply Ht.
Qed.

Lemma stream_end_inv s gs i reg :
  inv (s, gs) → gs !! i = Some (S_open reg) → let '(s', g') := stream_end i reg s in inv (s', <[i := g']> gs).
Proof.
  intros Hinv Hi. unfold stream_end. eapply inv_update; try done; cbn [fst snd].
  - intros id t. destruct reg; apply (inv_keyed _ Hinv).
  - intros id j Hc. right.
    assert (asyncCancels s !! id = Some j ∧ reg ≠ Some id) as [Hc' Hr].
    { destruct reg as [id' |]; cbn in Hc; [| done]. apply lookup_delete_Some in Hc as [Hne Hc]. split; [done | congruence]. }
    split; [| done]. intros ->. destruct (inv_cancels _ Hinv id i Hc') as (h & Hh & Hx). cbn in Hh. assert (h = S_open reg) as -> by congruence.
    destruct Hx as [(? & ? & _) | Hx]; [done | congruence].
  - intros j. destruct reg; cbn; rewrite elem_of_union, elem_of_singleton; intros [-> |]; [right; by eapply lookup_lt_Some | by left | right; by eapply lookup_lt_Some | by left].
  - by destruct reg.
  - intros k gk tk Hk Hgk Htk.
    assert (k ∈ cancelled (cancel i (from_option (λ id, unregister id s) s reg)) → k ∈ cancelled s) as Hc
      by (destruct reg; cbn; rewrite elem_of_union, elem_of_singleton; by intros [|]).
    split; [| done]. eapply quiet_still; try done. by destruct reg.
Qed.

Lemma accept_inv s gs t :
  inv (s, gs) → foreign (ID t) gs → inv (save t s, gs ++ [A_accepted t]).
Proof.
  intros Hinv Hf. pose proof (inv_save s gs t Hinv (or_introl Hf)) as [Hkey Hown Hgot Hcan Hbnd Hex Hph]. cbn [fst snd] in *.
  assert (∀ k gk, (gs ++ [A_accepted t]) !! k = Some gk → k = length gs ∧ gk = A_accepted t ∨ gs !! k = Some gk) as Hlook.
  { intros k gk [Hk | [Hle Hk]]%lookup_app_Some; [by right |]. left. apply list_lookup_singleton_Some in Hk as [E ->]. split; [lia | done]. }
  split; cbn [fst snd].
  - done.
  - intros k l gk gl x y [[-> ->] | Hk]%Hlook [[-> ->] | Hl]%Hlook Hx Hy E; [done | | | by eapply Hown].
    + injection Hx as <-. by destruct (Hf l gl y Hl Hy).
    + injection Hy as <-. by destruct (Hf k gk x Hk Hx).
  - intros k id x [[_ E] | Hk]%Hlook; [done | by eapply Hgot].
  - intros id j Hc. destruct (Hcan id j Hc) as (gj & Hgj & Hr). exists gj. split; [by apply lookup_app_l_Some | done].
  - intros j Hj. rewrite length_app. specialize (Hbnd j Hj). lia.
  - intros k gk x [[-> ->] | Hk]%Hlook Hx; [injection Hx as <-; by rewrite get_save, decide_True | by eapply Hex].
  - intros k gk [[-> ->] | Hk]%Hlook; [intros Hc; specialize (Hbnd _ Hc); lia |].
    destruct (async_task gk) as [x |] eqn:Hx; [| by eapply phase_no_task, Hph].
    apply (phase_quiet k gk x (save t s) _ gs); [done | done | | by apply Hph]. split; [by left | intros; left; by apply pending_snoc | by left].
Qed.

Lemma inv_step x y : settling → step x y → inv x → inv y.
Proof.
  intros Hset [l Hstep] Hinv. destruct Hstep as [s gs id ctx text Hf Hg | s gs i g s' g' Hi Hg | s gs i t r Hi Hr | s gs id | s gs i g s' g' Hi Hg | s gs
    | s gs i reg id t Hi Ht | s gs i reg Hi | s gs t r Hr].
  - by apply accept_inv.
  - by eapply async_step_inv.
  - eapply inv_async; try done; [apply (inv_keyed _ Hinv) | by apply (inv_exists _ Hinv _ _ _ Hi) | exact (cancels_keep s gs i _ t true Hinv Hi eq_refl (or_introl eq_refl)) | by left].
  - by apply inv_spawn.
  - by eapply cancel_step_inv.
  - by apply inv_spawn.
  - pose proof (stream_event_inv s gs i reg id t Hinv Hi (λ x Ex, proj2 Hset x (Ht x Ex))) as H. by destruct (stream_event _ _ _ _ _).
  - pose proof (stream_end_inv s gs i reg Hinv Hi) as H. by destruct (stream_end _ _ _).
  - pose proof (proj1 Hset t r Hr) as He. destruct r as [[x |] [err |]]; cbn; try done. apply inv_save; [done | by right].
Qed.

Lemma inv_init : inv (NewA2AServer, []).
Proof.
  split; cbn [fst snd]; try (intros; done); intros; try (by rewrite lookup_nil in *).
Qed.

Definition reachable (x : system) : Prop := rtc step (NewA2AServer, []) x.

Lemma reachable_inv x : settling → reachable x → inv x.
Proof. intros Hset. apply (rtc_invariant _ inv); [| apply inv_init]. intros a b Hi Hs. by eapply inv_step. Qed.

(** (C19) A task accepted for the background settles. Whatever else the server does meanwhile -
    other tasks, cancellations at any point, streams and blocking requests, also ones
    that a client gives this very task's id - once its goroutine is gone and no
    cancellation of it is under way, the stored task has ended (completed, failed or
    canceled), so that a client that polls it is not left waiting; and nothing of it is
    left among the cancel functions: what is registered under its id, if anything,
    belongs to an open stream that was given the id. It is relied on that the executor
    returns and streams only tasks that have ended (as [Execute] does, lemma
    executed_settles), and that the ids of accepted tasks are fresh. *)
Theorem async_task_settles s gs i t :
  settling → reachable (s, gs) → gs !! i = Some (A_gone t) → ¬ pending (ID t) gs →
  stored (ID t) (λ st, terminal st = true) s ∧ ∀ j, asyncCancels s !! ID t = Some j → gs !! j = Some (S_open (Some (ID t))).
Proof.
  intros Hset Hr Hi Hn. pose proof (reachable_inv _ Hset Hr) as Hinv. split.
  - by destruct (inv_phase _ Hinv i _ Hi).
  - intros j Hc. destruct (inv_cancels _ Hinv _ _ Hc) as (g & Hg & [(t' & Ht' & E & Hreg) | ->]); [| done].
    assert (j = i) as -> by (by eapply (inv_own _ Hinv j i g _ t' t)). cbn in *. assert (g = A_gone t) as -> by congruence. done.
Qed.

(** ** Cancellation *)

(** The cancellation of the goroutine [i] has come before it looked for one for the
    last time, or has been taken up since. *)
Definition doomed (i : nat) (t : Task) (x : system) : Prop :=
  ∃ g t', x.2 !! i = Some g ∧ async_task g = Some t' ∧ ID t' = ID t ∧
  match g with
  | A_registered _ => i ∈ cancelled x.1 ∧ (stored (ID t) (.= TaskCanceled) x.1 ∨ pending (ID t) x.2)
  | A_begun _ | A_running _ | A_returned _ _ | A_checked _ _ _ => i ∈ cancelled x.1
  | A_settle _ y => ∃ z, y = Some z ∧ ID z = ID t ∧ task_State z = TaskCanceled
  | A_leaving _ | A_gone _ => stored (ID t) (.= TaskCanceled) x.1 ∨ pending (ID t) x.2
  | _ => False
  end.

(** Doom is not lifted by the moves of others. *)
Lemma doomed_quiet i t s gs s' gs' :
  doomed i t (s, gs) → gs' !! i = gs !! i → (i ∈ cancelled s → i ∈ cancelled s') →
  (stored (ID t) (.= TaskCanceled) s ∨ pending (ID t) gs → stored (ID t) (.= TaskCanceled) s' ∨ pending (ID t) gs') → doomed i t (s', gs').
Proof.
  intros (g & t' & Hg & Ht & Hid & Hd) Hi Hc Hq. exists g, t'. cbn [fst snd] in *. split_and!; [congruence | done | done |].
  destruct g; try done; [destruct Hd; auto | by apply Hc || by apply Hq..].
Qed.

Lemma async_step_frame s gs i g s' g' :
  inv (s, gs) → gs !! i = Some g → async_step i g s = Some (s', g') →
  ∃ t, async_task g = Some t ∧ async_task g' = Some t ∧ (∀ id, id ≠ ID t → get id s' = get id s) ∧ cancelled s ⊆ cancelled s'.
Proof.
  intros Hinv Hi Hstep. pose proof (inv_phase _ Hinv i g Hi) as Hph. cbn [fst snd] in *.
  destruct g as [t | t | t | t | t r | t r c | t x | t | t | | | | | |]; try done; cbn in Hstep; try (destruct x as [x |]); injection Hstep as <- <-; exists t;
    (split_and!; [done | by try destruct (ctx_done i s) | | cbn; set_solver]); intros id Hne; try done.
  - by rewrite get_save, decide_False.
  - destruct Hph as (y & [= <-] & Hy & _). rewrite get_save, decide_False; [done | congruence].
Qed.

Lemma cancel_step_frame s i g s' g' gs id :
  inv (s, gs) → gs !! i = Some g → cancel_step g s = Some (s', g') → is_Some (get id s) →
  cancelled s ⊆ cancelled s' ∧
  (stored id (.= TaskCanceled) s ∨ pending id gs → stored id (.= TaskCanceled) s' ∨ pending id (<[i := g']> gs)).
Proof.
  intros Hinv Hi Hstep Hid.
  assert (∀ Q, (stored id (.= TaskCanceled) s → Q) → (pends id g = true → pends id g' = true ∨ Q) →
    stored id (.= TaskCanceled) s ∨ pending id gs → Q ∨ pending id (<[i := g']> gs)) as Hgen.
  { intros Q Hs Hp [? | Hpend]; [left; by apply Hs |]. destruct (pending_update id i g g' gs Q Hi Hp Hpend); [by right | by left]. }
  destruct g as [| | | | | | | | | id' | id' found | id' t | | |]; try done; cbn in Hstep.
  - destruct (asyncCancels s !! id') as [j |]; injection Hstep as <- <-; (split; [cbn; set_solver |]); by apply Hgen.
  - destruct (get id' s) as [t |] eqn:Hget; injection Hstep as <- <-; (split; [done |]); apply Hgen; try done; [by left |].
    cbn. rewrite bool_decide_eq_true. intros ->. destruct Hid. congruence.
  - pose proof (inv_got _ Hinv i id' t Hi) as Ht. injection Hstep as <- <-. split; [done |].
    assert (id = id' → stored id (.= TaskCanceled) (save (with_State TaskCanceled None t) s)) as Hnew.
    { intros ->. exists (with_State TaskCanceled None t). rewrite get_save, decide_True; [done | cbn; congruence]. }
    apply Hgen; [| cbn; rewrite bool_decide_eq_true; intros ->; right; by apply Hnew].
    intros (x & Hx & Hs). destruct (decide (id = id')) as [E |]; [by apply Hnew |]. exists x. rewrite get_save, decide_False; [done | cbn; congruence].
Qed.

(** The move of the goroutine itself. *)
Lemma doomed_own i t s gs g s' g' :
  inv (s, gs) → gs !! i = Some g → async_step i g s = Some (s', g') → doomed i t (s, gs) → doomed i t (s', <[i := g']> gs).
Proof.
  intros Hinv Hi Hstep (h & t' & Hh & Ht & Hid & Hd). pose proof (inv_phase _ Hinv i g Hi) as Hph. cbn [fst snd] in *.
  assert (h = g) as -> by congruence. exists g', t'. cbn [fst snd]. rewrite list_lookup_insert_eq by (by eapply lookup_lt_Some).
  assert (∀ k, pends (ID t) g = false → pending (ID t) gs → pending (ID t) (<[i := k]> gs)) as Hpend by (intros; by eapply pending_still).
  destruct g as [x | x | x | x | x r | x r c | x y | x | x | | | | | |]; try done; injection Ht as <-; cbn in Hstep; try (destruct y as [y |]); injection Hstep as <- <-.
  - unfold ctx_done. rewrite bool_decide_true by (by destruct Hd). split_and!; [done.. |]. destruct Hd as [_ [|]]; [by left | right; by apply Hpend].
  - done.
  - done.
  - split_and!; [done.. |]. unfold ctx_done, async_result. rewrite bool_decide_true, orb_true_r by done. by eexists.
  - split_and!; [done.. |]. destruct Hd as (z & [= <-] & Hz & Hs). left. exists y. by rewrite <- Hz, get_save, decide_True.
  - by destruct Hd as (z & ? & _).
  - split_and!; [done.. |]. destruct Hd; [by left | right; by apply Hpend].
Qed.

Lemma stored_save_foreign id P x s : ID x ≠ id → stored id P s → stored id P (save x s).
Proof. intros Hne (y & Hy & Hs). exists y. by rewrite get_save, decide_False. Qed.

Lemma doomed_step i t l x y : l ≠ Some (ID t) → inv x → Server.step executor streamer l x y → doomed i t x → doomed i t y.
Proof.
  intros Hl Hinv Hstep Hd. pose proof Hd as (g & t' & Hg & Ht & Hid & Hph).
  pose proof (inv_exists _ Hinv i g t' Hg Ht) as Hsome. rewrite Hid in Hsome.
  assert (∀ z, (x.2 ++ [z]) !! i = x.2 !! i) as Hsnoc by (intros z; apply lookup_app_l; by eapply lookup_lt_Some).
  assert (∀ j z, j ≠ i → <[j := z]> x.2 !! i = x.2 !! i) as Hins by (intros j z Hne; by apply list_lookup_insert_ne).
  assert (∀ z, foreign (ID z) x.2 → ID z ≠ ID t) as Hfor by (intros z Hz; rewrite <- Hid; intros E; by apply (Hz i g t' Hg Ht)).
  destruct Hstep as [s gs id ctx text Hf Hnone | s gs j h s' h' Hj Hh | s gs j t0 r Hj Hr | s gs id | s gs j h s' h' Hj Hh | s gs
    | s gs j reg id u Hj Hu | s gs j reg Hj | s gs t0 r Hr]; cbn [fst snd] in *.
  - eapply doomed_quiet; [done | apply Hsnoc | done |]. intros [Hst | Hp]; [left | right; by apply pending_snoc].
    apply stored_save_foreign; [by apply Hfor | done].
  - destruct (decide (j = i)) as [-> | Hne]; [eapply doomed_own; [exact Hinv | exact Hj | exact Hh | exact Hd] |].
    destruct (async_step_frame s gs j h s' h' Hinv Hj Hh) as (tj & Htj & _ & Hget & Hcc).
    eapply doomed_quiet; [done | by apply Hins | set_solver |]. intros [(z & Hz & Hst) | Hp].
    + left. exists z. rewrite Hget; [done |]. rewrite <- Hid. intros E. by apply Hne, (inv_own _ Hinv j i h g tj t').
    + right. eapply pending_still; [done | by destruct h | done].
  - destruct (decide (j = i)) as [-> | Hne].
    + assert (g = A_running t0) as -> by congruence. injection Ht as ->. exists (A_returned t' r), t'. cbn [fst snd].
      by rewrite list_lookup_insert_eq by (by eapply lookup_lt_Some).
    + eapply doomed_quiet; [done | by apply Hins | done |]. intros [Hst | Hp]; [by left | right]. by eapply pending_still.
  - eapply doomed_quiet; [done | apply Hsnoc | done |]. intros [Hst | Hp]; [by left | right; by apply pending_snoc].
  - assert (j ≠ i) as Hne by (intros ->; assert (h = g) as -> by congruence; by destruct g).
    destruct (cancel_step_frame s j h s' h' gs (ID t) Hinv Hj Hh Hsome) as [Hcc Hq]. eapply doomed_quiet; [done | by apply Hins | set_solver | done].
  - eapply doomed_quiet; [done | apply Hsnoc | done |]. intros [Hst | Hp]; [by left | right; by apply pending_snoc].
  - assert (j ≠ i) as Hne by (intros ->; assert (g = S_open reg) as -> by congruence; done). unfold stream_event.
    destruct (decide (id = "" ∨ is_Some reg)); cbn.
    all: eapply doomed_quiet; [exact Hd | by apply Hins | by destruct u |]; intros [Hst | Hp]; [left | right; by eapply pending_still].
    all: destruct u as [z |]; [apply stored_save_foreign; [cbn in Hl; congruence | done] | done].
  - assert (j ≠ i) as Hne by (intros ->; assert (g = S_open reg) as -> by congruence; done). cbn.
    eapply doomed_quiet; [exact Hd | by apply Hins | destruct reg; cbn; set_solver |]. intros [Hst | Hp]; [left; by destruct reg | right; by eapply pending_still].
  - eapply doomed_quiet; [exact Hd | done | by destruct r as [[] []] |]. intros [Hst | Hp]; [left | by right].
    destruct r as [[z |] [err |]]; cbn; try done. apply stored_save_foreign; [cbn in Hl; congruence | done].
Qed.

(** The steps in which no stream and no blocking request stores a task under [id]. *)
Definition unnamed (id : string) : relation system := λ x y, ∃ l, l ≠ Some id ∧ Server.step executor streamer l x y.

(** A cancellation that reaches a background task in time wins. If it has been signalled before
    the goroutine looks for one for the last time, then whatever the executor returns and
    whatever is stored in between, the task is canceled once the goroutine is gone and no
    cancellation of it is under way - unless a client gave a stream or a blocking
    request the id of the task, whose result then takes its place. *)
Lemma cancel_in_time_wins s gs i g t s' gs' :
  settling → reachable (s, gs) → gs !! i = Some g → async_task g = Some t →
  (match g with A_registered _ => stored (ID t) (.= TaskCanceled) s ∨ pending (ID t) gs | A_begun _ | A_running _ | A_returned _ _ | A_checked _ _ _ => True | _ => False end) → i ∈ cancelled s →
  rtc (unnamed (ID t)) (s, gs) (s', gs') → gs' !! i = Some (A_gone t) → ¬ pending (ID t) gs' → stored (ID t) (.= TaskCanceled) s'.
Proof.
  intros Hset Hr Hi Ht Hphase Hc Hrun Hgone Hn.
  assert (inv (s', gs') ∧ doomed i t (s', gs')) as [_ (h & t' & Hh & Ht' & _ & Hd)].
  { apply (rtc_invariant (unnamed (ID t)) (λ x, inv x ∧ doomed i t x) (s, gs)); [| | done].
    - intros x y [Hinv Hd] (l & Hl & Hstep). split; [eapply inv_step; [done | by exists l | done] | by eapply doomed_step].
    - split; [by apply reachable_inv |]. exists g, t. split_and!; [done.. |]. by destruct g. }
  cbn [fst snd] in *. assert (h = A_gone t) as -> by congruence. by destruct Hd.
Qed.
End laws.

(** ** Cancellations that come too late, or too early *)

(** Canceling a task that has ended replaces its state and its message. *)
Lemma late_cancel_overwrites id t s :
  get id s = Some t → ID t = id → asyncCancels s !! id = None →
  ∃ s', (cancel_step (C_called id) s = Some (s, C_fired id false)) ∧ cancel_step (C_fired id false) s = Some (s, C_got id t) ∧
    cancel_step (C_got id t) s = Some (s', C_replied id (inr (with_State TaskCanceled None t))) ∧ get id s' = Some (with_State TaskCanceled None t).
Proof.
  intros Hg Hid Hc. eexists. cbn. rewrite Hc, Hg. split_and!; [done.. |]. by rewrite get_save, decide_True.
Qed.

(** A cancellation between the storing of the submitted task and the registration of
    its cancel function is answered, and the task runs nonetheless. *)
Lemma early_cancel_lost t s i :
  get (ID t) s = None → i ∉ cancelled s → asyncCancels s !! ID t = None → 
  let s1 := save t s in
  cancel_step (C_called (ID t)) s1 = Some (s1, C_fired (ID t) false) ∧
  cancel_step (C_got (ID t) t) s1 = Some (save (with_State TaskCanceled None t) s1, C_replied (ID t) (inr (with_State TaskCanceled None t))) ∧
  ∃ s2, async_step i (A_accepted t) (save (with_State TaskCanceled None t) s1) = Some (s2, A_registered t) ∧ async_step i (A_registered t) s2 = Some (s2, A_begun t).
Proof.
  intros Hg Hi Hc s1. cbn. rewrite Hc. split_and!; [done.. |]. eexists. split; [done |]. cbn. unfold ctx_done. cbn. by rewrite bool_decide_false.
Qed.

(** ** The agent loop as the executor *)

(** [Execute], as the server is given it. *)
Definition executed `{UnicodeTables} Decode provider callAgent maxDepth basePrompt recording now started opened agents (t : Task) (r : result) : Prop :=
  ∃ m, let '(s, e) := Execute Decode provider callAgent maxDepth basePrompt recording now started opened agents m in
  r = (Some (mkTask (ID t) (ContextID t) (State s) (StatusMessage s) (History s)), te_text <$> e).

(** The tasks that [ExecuteStream] yields. *)
Definition streamed `{UnicodeTables} Decode provider callAgent maxDepth basePrompt recording now started opened agents (x : Task) : Prop :=
  ∃ accept m msg err,
    I_Task (task_State x) msg err ∈ out (ExecuteStream Decode provider callAgent accept maxDepth basePrompt recording now started opened agents m).

(** Whatever is yielded is no task or one that has ended. *)
Definition ended_item (i : item) : Prop := if i is I_Task st _ _ then terminal st = true else True.
Definition ended_items (s : io) : Prop := Forall ended_item (out s).

Lemma ended_yield accept i s : ended_item i → ended_items s → ended_items (yield accept i s).1.
Proof. intros Hi Hs. apply Forall_app. by split; [| apply Forall_singleton]. Qed.

Lemma ended_turn `{UnicodeTables} Decode accept evs s b :
  ended_items s → ended_items (runTurn Decode (on_delta accept) (on_aux accept) evs (s, b)).2.1.
Proof.
  intros Hs. apply (runTurn_invariant Decode (λ x, ended_items x.1)); [| | done].
  - intros text [s1 b1] H1. unfold on_delta. pose proof (ended_yield accept (I_Delta text) s1 I H1) as Hy. by destruct (yield _ _ _) as [? []].
  - intros e [s1 b1] H1. unfold on_aux. destruct (data_of e) as [d |]; [| done].
    pose proof (ended_yield accept (I_Data d) s1 I H1) as Hy. by destruct (yield _ _ _) as [? []].
Qed.

Lemma ended_stream `{UnicodeTables} Decode provider callAgent accept n p o s :
  ended_items s → ended_items (interactStream Decode provider callAgent accept n p o s).1.
Proof.
  revert p s. induction n as [| n IH]; intros p s Hs; cbn [Executor.interactStream].
  all: pose proof (ended_yield accept (I_Data D_SpanStart) s I Hs) as H0; destruct (yield accept (I_Data D_SpanStart) s) as [s0 []]; [| done].
  all: destruct (provider (prompts s0) p) as [evs | err]; [| by apply ended_yield].
  all: pose proof (ended_turn Decode accept evs (add_prompt p s0) false H0) as Ht; destruct (runTurn _ _ _ _ _) as [turn [s1 stop]]; cbn in Ht.
  all: pose proof (ended_yield accept (I_Data (D_SpanEnd (tr_input turn) (tr_output turn))) s1 I Ht) as H1; destruct (yield accept _ s1) as [s2 ok]; cbn in H1.
  all: destruct stop; [done |]; destruct (tr_err turn) as [e |]; [destruct (te_canceled e); by apply ended_yield |].
  all: destruct (tr_call turn) as [call |]; [| done].
  1: done.
  destruct (ValidateA2ACall call); [by apply IH |]. destruct callAgent as [ask |]; [| by apply IH]. destruct (ask _ call); by apply IH.
Qed.

Lemma executed_settles `{UnicodeTables} Decode provider callAgent maxDepth basePrompt recording now started opened agents :
  settling (executed Decode provider callAgent maxDepth basePrompt recording now started opened agents)
    (streamed Decode provider callAgent maxDepth basePrompt recording now started opened agents).
Proof.
  assert (∀ a b m reply err s, State (appendTranscript recording a b m reply err s) = State s ∧ out (appendTranscript recording a b m reply err s) = out s) as Ha
    by (intros; unfold appendTranscript; by destruct recording).
  split.
  - intros t r (m & Hr). unfold Execute in Hr. destruct opened as [err |]; [by rewrite Hr |]. destruct (buildTurnPrompt _ _ _ _) as [p o].
    destruct (interact _ _ _ _ _ _ _) as [s [reply | err]]; rewrite Hr; cbn; [by rewrite (proj1 (Ha _ _ _ _ _ _)) | done].
  - intros x (accept & m & msg & err & Hx). assert (ended_items (ExecuteStream Decode provider callAgent accept maxDepth basePrompt recording now started opened agents m)) as He.
    + unfold ExecuteStream. destruct opened as [e |]; [apply ended_yield; [done |]; unfold ended_items; rewrite (proj2 (Ha _ _ _ _ _ _)); apply Forall_nil_2 |].
      destruct (buildTurnPrompt _ _ _ _) as [p o]. pose proof (ended_yield accept I_Working (submitted m) I (Forall_nil_2 _)) as H0.
      destruct (yield accept I_Working (submitted m)) as [s0 []]; [| done].
      pose proof (ended_stream Decode provider callAgent accept (rounds maxDepth) p o s0 H0) as H1.
      destruct (interactStream _ _ _ _ _ _ _ s0) as [s1 []]; cbn in H1.
      * apply ended_yield; [done |]. unfold ended_items. by rewrite (proj2 (Ha _ _ _ _ _ _)).
      * destruct (streamErr s1); [| done]. case_decide; [| done]. unfold ended_items. by rewrite (proj2 (Ha _ _ _ _ _ _)).
    + by apply (proj1 (Forall_forall _ _) He _ Hx).
Qed.

(** ** Concrete inputs *)

#[local] Existing Instances ascii_tables.
#[local] Abbreviation agent := (executed (λ _, None) eager (Some helper) 2 "base" true 0 0 None []).
#[local] Abbreviation streams := (streamed (λ _, None) eager (Some helper) 2 "base" true 0 0 None []).

Definition hello_task : Task := accept_task "t1" "c1" "hello".
Definition hello_result : result :=
  let '(s, e) := Execute (λ _, None) eager (Some helper) 2 "base" true 0 0 None [] hello in
  (Some (mkTask "t1" "c1" (State s) (StatusMessage s) (History s)), te_text <$> e).

(** The task is accepted, begun, and has reached the executor. *)
Definition at_executor : A2AServer := save (with_State TaskWorking None hello_task) (register "t1" 0 (save hello_task NewA2AServer)).

Lemma unnamed_steps executor streamer id x y : rtc (unnamed executor streamer id) x y → rtc (any_step executor streamer) x y.
Proof. apply rtc_subrel. intros a b (l & _ & H). by exists l. Qed.

Lemma own_step i g s gs s' g' :
  gs !! i = Some g → async_step i g s = Some (s', g') → unnamed agent streams "t1" (s, gs) (s', <[i := g']> gs).
Proof. intros Hi Hg. exists None. split; [done | by eapply step_async]. Qed.

Lemma reach_executor : reachable agent streams (at_executor, [A_running hello_task]).
Proof.
  eapply rtc_l; [exists None; apply (step_accept agent streams NewA2AServer [] "t1" "c1" "hello"); [by intros i g t | done] |].
  apply (unnamed_steps _ _ "t1"). do 3 (eapply rtc_l; [eapply (own_step 0); [reflexivity | reflexivity] |]; cbn [app list_insert insert]).
  apply rtc_refl.
Qed.

(** To the end, undisturbed. *)
Definition ended_server (x : Task) (s : A2AServer) : A2AServer := cancel 0 (unregister "t1" (save x s)).

Lemma run_to_end s x gs :
  async_result hello_task hello_result (bool_decide (task_State <$> get "t1" s = Some TaskCanceled) || ctx_done 0 s) = Some x →
  rtc (unnamed agent streams "t1") (s, A_running hello_task :: gs) (ended_server x s, A_gone hello_task :: gs).
Proof.
  intros Hx. eapply rtc_l; [exists None; split; [done |]; eapply (step_executor agent streams _ _ 0 hello_task hello_result); [reflexivity | by exists hello] |].
  eapply rtc_l; [eapply (own_step 0); [reflexivity | reflexivity] |].
  eapply rtc_l; [eapply (own_step 0) with (s' := s) (g' := A_settle hello_task (Some x)); [reflexivity | rewrite <- Hx; reflexivity] |].
  do 2 (eapply rtc_l; [eapply (own_step 0); [reflexivity | reflexivity] |]). apply rtc_refl.
Qed.

(** A client gives a stream the id of the task in the background: the stream registers
    its own cancel function and stores its own task. *)
Definition streamed_task : Task := mkTask "t1" "c2" TaskCompleted None [].
Definition during_stream : A2AServer := save streamed_task (register "t1" 1 at_executor).

Lemma reach_stream : reachable agent streams (during_stream, [A_running hello_task; S_open (Some "t1")]).
Proof.
  unfold reachable. etrans; [apply reach_executor |]. eapply rtc_l; [exists None; apply step_stream |].
  eapply rtc_l; [| apply rtc_refl]. exists (Some "t1").
  apply (step_event agent streams at_executor [A_running hello_task; S_open None] 1 None "t1" (Some streamed_task)); [reflexivity |].
  intros ? [= <-]. exists (λ _, true), hello, (Some "ok"), None. vm_compute. repeat (apply elem_of_cons; first [by left | right]).
Qed.

Lemma async_task_settles_witness :
  ∃ s, reachable agent streams (s, [A_gone hello_task; S_open (Some "t1")]) ∧ (task_State <$> get "t1" s) = Some TaskCompleted ∧
    stored "t1" (λ st, terminal st = true) s ∧ asyncCancels s !! "t1" = None.
Proof.
  exists (ended_server (default hello_task hello_result.1) during_stream).
  assert (reachable agent streams (ended_server (default hello_task hello_result.1) during_stream, [A_gone hello_task; S_open (Some "t1")])) as Hrun
    by (unfold reachable; etrans; [apply reach_stream | apply (unnamed_steps _ _ "t1"), run_to_end; vm_compute; reflexivity]).
  split; [exact Hrun |]. split; [vm_compute; reflexivity |]. split; [| vm_compute; reflexivity].
  apply (async_task_settles agent streams _ _ 0 hello_task (executed_settles _ _ _ _ _ _ _ _ _ _) Hrun eq_refl).
  intros (i & g & Hi & Hp). destruct i as [| [| i]]; [by injection Hi as <- | by injection Hi as <- | done].
Defined.

(** A client cancels while the executor runs. *)
Definition canceled_task : Task := with_State TaskCanceled None hello_task.
Definition after_cancel : A2AServer := save canceled_task (cancel 0 at_executor).

Lemma reach_cancel : reachable agent streams (after_cancel, [A_running hello_task; C_replied "t1" (inr canceled_task)]).
Proof.
  unfold reachable; etrans; [apply reach_executor |]. eapply rtc_l; [exists None; apply step_cancel with (id := "t1") |].
  do 3 (eapply rtc_l; [exists None; eapply (step_canceling agent streams _ _ 1); [reflexivity | reflexivity] |]). apply rtc_refl.
Qed.

Lemma cancel_in_time_wins_witness :
  let s' := ended_server canceled_task after_cancel in
  rtc (unnamed agent streams "t1") (after_cancel, [A_running hello_task; C_replied "t1" (inr canceled_task)]) (s', [A_gone hello_task; C_replied "t1" (inr canceled_task)]) ∧
  stored "t1" (.= TaskCanceled) s'.
Proof.
  cbv zeta.
  assert (rtc (unnamed agent streams "t1") (after_cancel, [A_running hello_task; C_replied "t1" (inr canceled_task)])
    (ended_server canceled_task after_cancel, [A_gone hello_task; C_replied "t1" (inr canceled_task)])) as Hrun by (apply run_to_end; vm_compute; reflexivity).
  split; [exact Hrun |].
  eapply (cancel_in_time_wins agent streams after_cancel _ 0 (A_running hello_task) hello_task);
    [apply executed_settles | apply reach_cancel | reflexivity | done | done | | exact Hrun | reflexivity |].
  - apply (bool_decide_unpack _). vm_compute. exact I.
  - intros (i & g & Hi & Hp). destruct i as [| [| i]]; [by injection Hi as <- | by injection Hi as <- | done].
Defined.
