(* ===== verification/ClaudeSession.v ===== *)
(** * A conversation with a [claude] process ([internal/wrapper/session_claude.go])

    The critical sections of a session: accepting a turn, the reader of the
    process's output, aborts, the end of the output, closing. A send to the channel
    of a turn happens under the mutex; when its buffer is full the sender blocks and
    keeps the mutex. JSON decoding and the process are parameters. *)
From S2P Require Import Prelude GoBase GoStrings Transcript Executor.
From Stdlib Require Import ZArith Lia.

(** ** Command-line arguments *)

(** Dropping flags; [flag] is dropped alone, [valued] with the token after it,
    [prefix] when the value is part of it. *)
Fixpoint drop_args (flag valued prefixed : string → bool) (skipNext : bool) (args : list string) : list string :=
  match args with
  | [] => []
  | a :: args =>
      if skipNext then drop_args flag valued prefixed false args
      else if flag a then drop_args flag valued prefixed false args
      else if valued a then drop_args flag valued prefixed true args
      else if prefixed a then drop_args flag valued prefixed false args
      else a :: drop_args flag valued prefixed false args
  end.

Definition one_of (l : list string) (a : string) : bool := bool_decide (a ∈ l).
Definition prefix_of (l : list string) (a : string) : bool := existsb (λ p, bool_decide (is_Some (strip_prefix p a))) l.

Definition injectStreamJSONFlags (args : list string) : list string :=
  drop_args (one_of ["-p"; "--print"]) (one_of ["--input-format"; "--output-format"]) (prefix_of ["--input-format="; "--output-format="]) false args
  ++ ["-p"; "--input-format=stream-json"; "--output-format=stream-json"; "--verbose"].

Definition stripClaudePermissionBypassArgs (args : list string) : list string :=
  drop_args (λ a, one_of ["--dangerously-skip-permissions"] a || prefix_of ["--dangerously-skip-permissions="] a)
    (one_of ["--permission-mode"]) (prefix_of ["--permission-mode="]) false args.

(** The arguments that [buildProductionTransport] starts the process with. *)
Definition transport_args (args : list string) (resumeID : string) : list string :=
  injectStreamJSONFlags (stripClaudePermissionBypassArgs args) ++ (if decide (resumeID = "") then [] else ["--resume=" +:+ resumeID]).

(** ** The state *)

Inductive sessionState := stateReady | stateInFlight | stateEvicted | stateClosed.
#[export] Instance sessionState_eq_dec : EqDecision sessionState.
Proof. solve_decision. Defined.

(** The channel of a turn: what was sent, what is still in its buffer, whether it is
    closed. *)
Record chan := mkChan { sent : list Event; buffer : list Event; closed : bool }.

Definition chan_cap : nat := 16.

(** What follows a send: nothing, or closing the channel and becoming ready again (after
    a result) under the same lock, and killing the process once it is released. *)
Inductive after_send := A_nothing | A_close (ready kills : bool).

(** An action of the reader that is still to come: a send on the channel it has looked up,
    or closing [readerDone]. *)
Inductive reader_action :=
| R_emit (ch : nat) (ev : Event)
| R_result (ch : nat) (err : option turn_error) (input_tokens output_tokens : Z)
| R_done.

Record ClaudeSession := mkSession {
  resumeID : string;
  state : sessionState;
  sessionID : string;
  resumeErr : option turn_error;
  eventsCh : option nat;
  readerDone : bool;
  processExited : bool;
  processErr : option string;
  chans : list chan;
  reader_todo : list reader_action;
  blocked : option (nat * Event * after_send);
  killed : bool;
  panicked : bool;
}.

Definition newClaudeSession (resumeID : string) : ClaudeSession :=
  mkSession resumeID stateReady "" None None false false None [] [] None false false.

Definition with_state (st : sessionState) (s : ClaudeSession) : ClaudeSession :=
  mkSession (resumeID s) st (sessionID s) (resumeErr s) (eventsCh s) (readerDone s) (processExited s) (processErr s) (chans s) (reader_todo s) (blocked s) (killed s) (panicked s).
Definition with_ch (ch : option nat) (s : ClaudeSession) : ClaudeSession :=
  mkSession (resumeID s) (state s) (sessionID s) (resumeErr s) ch (readerDone s) (processExited s) (processErr s) (chans s) (reader_todo s) (blocked s) (killed s) (panicked s).
Definition with_chans (cs : list chan) (s : ClaudeSession) : ClaudeSession :=
  mkSession (resumeID s) (state s) (sessionID s) (resumeErr s) (eventsCh s) (readerDone s) (processExited s) (processErr s) cs (reader_todo s) (blocked s) (killed s) (panicked s).
Definition with_todo (l : list reader_action) (s : ClaudeSession) : ClaudeSession :=
  mkSession (resumeID s) (state s) (sessionID s) (resumeErr s) (eventsCh s) (readerDone s) (processExited s) (processErr s) (chans s) l (blocked s) (killed s) (panicked s).
Definition with_blocked (b : option (nat * Event * after_send)) (s : ClaudeSession) : ClaudeSession :=
  mkSession (resumeID s) (state s) (sessionID s) (resumeErr s) (eventsCh s) (readerDone s) (processExited s) (processErr s) (chans s) (reader_todo s) b (killed s) (panicked s).
Definition with_id (id : string) (err : option turn_error) (s : ClaudeSession) : ClaudeSession :=
  mkSession (resumeID s) (state s) id err (eventsCh s) (readerDone s) (processExited s) (processErr s) (chans s) (reader_todo s) (blocked s) (killed s) (panicked s).
Definition with_exit (err : option string) (s : ClaudeSession) : ClaudeSession :=
  mkSession (resumeID s) (state s) (sessionID s) (resumeErr s) (eventsCh s) (readerDone s) true err (chans s) (reader_todo s) (blocked s) (killed s) (panicked s).
Definition with_reader_done (s : ClaudeSession) : ClaudeSession :=
  mkSession (resumeID s) (state s) (sessionID s) (resumeErr s) (eventsCh s) true (processExited s) (processErr s) (chans s) (reader_todo s) (blocked s) (killed s) (panicked s).
Definition kill (s : ClaudeSession) : ClaudeSession :=
  mkSession (resumeID s) (state s) (sessionID s) (resumeErr s) (eventsCh s) (readerDone s) (processExited s) (processErr s) (chans s) (reader_todo s) (blocked s) true (panicked s).
Definition panic (s : ClaudeSession) : ClaudeSession :=
  mkSession (resumeID s) (state s) (sessionID s) (resumeErr s) (eventsCh s) (readerDone s) (processExited s) (processErr s) (chans s) (reader_todo s) (blocked s) (killed s) true.

Definition SessionID (s : ClaudeSession) : string := sessionID s.
Definition IsHealthy (s : ClaudeSession) : bool := negb (bool_decide (state s = stateEvicted ∨ state s = stateClosed)).

(** ** Sending *)

(** [close(ch)]: a panic when it is closed already. *)
Definition close_chan (ch : nat) (s : ClaudeSession) : ClaudeSession :=
  match chans s !! ch with
  | Some c => if closed c then panic s else with_chans (<[ch := mkChan (sent c) (buffer c) true]> (chans s)) s
  | None => s
  end.

Definition after (ch : nat) (k : after_send) (s : ClaudeSession) : ClaudeSession :=
  match k with
  | A_nothing => s
  | A_close ready kills =>
      let s := close_chan ch s in
      let s := if ready && bool_decide (state s = stateInFlight) then with_state stateReady s else s in
      if kills then kill s else s
  end.

Definition deliver (ch : nat) (c : chan) (ev : Event) (k : after_send) (s : ClaudeSession) : ClaudeSession :=
  after ch k (with_chans (<[ch := mkChan (sent c ++ [ev]) (buffer c ++ [ev]) (closed c)]> (chans s)) s).

(** [ch <- ev], and what follows: a panic when the channel is closed, blocking when its
    buffer is full. *)
Definition send (ch : nat) (ev : Event) (k : after_send) (s : ClaudeSession) : ClaudeSession :=
  match chans s !! ch with
  | Some c => if closed c then panic s else if decide (length (buffer c) < chan_cap) then deliver ch c ev k s else with_blocked (Some (ch, ev, k)) s
  | None => s
  end.

(** The consumer takes an event; a sender that was blocked goes on. *)
Definition receive (ch : nat) (s : ClaudeSession) : option (Event * ClaudeSession) :=
  match chans s !! ch with
  | Some c =>
      match buffer c with
      | [] => None
      | ev :: rest =>
          let c := mkChan (sent c) rest (closed c) in
          let s := with_chans (<[ch := c]> (chans s)) s in
          Some (ev,
            match blocked s with
            | Some (ch', ev', k) => if decide (ch' = ch) then deliver ch c ev' k (with_blocked None s) else s
            | None => s
            end)
      end
  | None => None
  end.

(** ** Operations *)

Section session.
Context `{UnicodeTables} `{UnicodeLower}.

(** The beginning of [Stream]: an error, or the channel of the turn. *)
Inductive refusal := R_in_flight | R_not_ready.

Definition Stream (s : ClaudeSession) : ClaudeSession * (refusal + nat) :=
  match state s with
  | stateInFlight => (s, inl R_in_flight)
  | stateClosed | stateEvicted => (s, inl R_not_ready)
  | stateReady =>
      let ch := length (chans s) in
      (with_state stateInFlight (with_ch (Some ch) (with_chans (chans s ++ [mkChan [] [] false]) s)), inr ch)
  end.

Definition evict_in_flight (s : ClaudeSession) : ClaudeSession :=
  if decide (state s = stateInFlight) then with_state stateEvicted s else s.

(** Writing the message to the process failed. *)
Definition failTurn (err : turn_error) (s : ClaudeSession) : ClaudeSession :=
  let ch := eventsCh s in
  let s := evict_in_flight (with_ch None s) in
  match ch with Some ch => send ch (EventTurnDone (Some err) 0 0) (A_close false false) s | None => s end.

(** [abortTurn]: a timeout or a cancellation of the turn with channel [ch]. *)
Definition abortTurn (ch : nat) (cause : turn_error) (s : ClaudeSession) : ClaudeSession :=
  if decide (eventsCh s = Some ch) then send ch (EventTurnDone (Some cause) 0 0) (A_close false true) (evict_in_flight (with_ch None s)) else s.

Definition ErrTurnCanceled : turn_error := mkTurnErr true "turn canceled".
Definition ErrSessionClosed : turn_error := mkTurnErr false "session closed while turn was running".

Definition Close (s : ClaudeSession) : ClaudeSession :=
  if decide (state s = stateClosed) then s
  else
    let ch := eventsCh s in
    let s := with_state stateClosed (with_ch None s) in
    match ch with Some ch => send ch (EventTurnDone (Some ErrSessionClosed) 0 0) (A_close false true) s | None => kill s end.

Definition emitEvent (ch : nat) (ev : Event) (s : ClaudeSession) : ClaudeSession :=
  if decide (eventsCh s = Some ch) then send ch ev A_nothing s else s.

Definition emitResult (ch : nat) (err : option turn_error) (input_tokens output_tokens : Z) (s : ClaudeSession) : ClaudeSession :=
  let err := match err with None => resumeErr s | Some _ => err end in
  if decide (eventsCh s = Some ch) then send ch (EventTurnDone err input_tokens output_tokens) (A_close true false) (with_ch None s) else s.

Definition handleInit (id : string) (s : ClaudeSession) : ClaudeSession :=
  if decide (sessionID s = "") then
    with_id id
      (if decide (resumeID s ≠ "" ∧ resumeID s ≠ id)
       then Some (mkTurnErr false ("claude resume mismatch: got session_id " +:+ fmt_q id +:+ ", want " +:+ fmt_q (resumeID s)))
       else resumeErr s) s
  else s.

(** [handleEOF], then the end of the reader; [scanErr] is the scanner's error, and
    whether it is [io.ErrClosedPipe]. *)
Definition exit_error (scanErr : option (string * bool)) (s : ClaudeSession) : turn_error :=
  let cause :=
    match processExited s, processErr s, scanErr with
    | true, Some err, _ => Some err
    | _, _, Some (err, false) => Some err
    | _, _, _ => None
    end in
  mkTurnErr false ("claude process exited mid-turn" +:+ from_option (λ c, ": " +:+ c) "" cause).

Definition handleEOF (scanErr : option (string * bool)) (s : ClaudeSession) : ClaudeSession :=
  if decide (state s = stateClosed) then s
  else
    match eventsCh s with
    | Some ch => send ch (EventTurnDone (Some (exit_error scanErr s)) 0 0) (A_close false false) (with_state stateEvicted (with_ch None s))
    | None => with_state stateEvicted s
    end.

(** ** The protocol *)

(** What [json.Unmarshal] makes of a line, or a part of one, for each shape that the
    reader asks for. *)
Record decoders := mkDecoders {
  d_envelope : string → option (string * string * string);
  d_content : string → option (list string);
  d_type : string → option string;
  d_text : string → option string;
  d_tool_use : string → option (string * string * string);
  d_tool_result : string → option (string * string * bool);
  d_string : string → option string;
  d_blocks : string → option (list (string * string));
  d_delta : string → option (string * string * string);
  d_result : string → bool * string * Z * Z * Z;
  d_call : string → option A2ACall;
}.

Context (D : decoders).

Definition toolResultText (raw : string) : string :=
  if decide (raw = "") then ""
  else
    match d_string D raw with
    | Some s => s
    | None => from_option (λ blocks, Join (snd <$> filter (λ b, b.1 = "text") blocks) "") "" (d_blocks D raw)
    end.

(** The events of one part of a message of the user, and of the assistant. *)
Definition user_part (part : string) : option Event :=
  if decide (d_type D part = Some "tool_result") then
    (λ '(id, content, is_error), EventToolResult id (toolResultText content) is_error) <$> d_tool_result D part
  else None.

Definition assistant_part (part : string) : option Event :=
  ty ← d_type D part;
  if decide (ty = "text") then EventText <$> d_text D part
  else if decide (ty = "thinking") then Some EventThinking
  else if decide (ty = "tool_use") then
    '(id, name, input) ← d_tool_use D part;
    match ParseA2ACallTool (d_call D) name input with
    | Some call => Some (EventAgentCall (Agent call) (Task_ call))
    | None => Some (EventToolUse id name input)
    end
  else None.

Definition emitUser (ch : nat) (raw : string) : list reader_action := R_emit ch <$> omap user_part (default [] (d_content D raw)).
Definition emitAssistant (ch : nat) (raw : string) : list reader_action := R_emit ch <$> omap assistant_part (default [] (d_content D raw)).

Definition emitStreamEvent (ch : nat) (raw : string) : list reader_action :=
  match d_delta D raw with
  | Some (ty, delta, text) =>
      if decide (ty = "content_block_delta" ∧ delta = "text_delta" ∧ text ≠ "") then [R_emit ch (EventTextDelta text)] else []
  | None => []
  end.

Definition result_action (ch : nat) (raw : string) : list reader_action :=
  let '(is_error, text, status, input_tokens, output_tokens) := d_result D raw in
  let err :=
    if is_error : bool then
      Some (mkTurnErr false
        (if decide (text = "") then "claude turn failed (api_status=" +:+ fmt_d status +:+ ")"
         else "claude turn failed: " +:+ text +:+ " (api_status=" +:+ fmt_d status +:+ ")"))
    else None in
  [R_result ch err input_tokens output_tokens].

(** One line of the output: [dispatchEvent] up to the sends. *)
Definition dispatchEvent (raw : string) (s : ClaudeSession) : ClaudeSession :=
  match d_envelope D raw with
  | None => s
  | Some (ty, subtype, id) =>
      if decide (ty = "system") then if decide (subtype = "init") then handleInit id s else s
      else
        match eventsCh s with
        | None => s
        | Some ch =>
            with_todo
              (if decide (ty = "assistant") then emitAssistant ch raw
               else if decide (ty = "user") then emitUser ch raw
               else if decide (ty = "result") then result_action ch raw
               else if decide (ty = "stream_event") then emitStreamEvent ch raw
               else []) s
        end
  end.

(** The next send of the reader. *)
Definition reader_act (s : ClaudeSession) : ClaudeSession :=
  match reader_todo s with
  | [] => s
  | R_emit ch ev :: l => emitEvent ch ev (with_todo l s)
  | R_result ch err i o :: l => emitResult ch err i o (with_todo l s)
  | R_done :: l => with_reader_done (with_todo l s)
  end.

(** ** The session and its goroutines *)

(** A step takes the mutex, which nobody holds; only the consumer needs none. *)
Inductive step : ClaudeSession → ClaudeSession → Prop :=
| step_stream s : blocked s = None → step s (Stream s).1
| step_write_failed s err : blocked s = None → step s (failTurn err s)
| step_abort s ch cause : blocked s = None → ch < length (chans s) → step s (abortTurn ch cause s)
| step_close s : blocked s = None → step s (Close s)
| step_line s raw : blocked s = None → readerDone s = false → reader_todo s = [] → step s (dispatchEvent raw s)
| step_reader s : blocked s = None → readerDone s = false → reader_todo s ≠ [] → step s (reader_act s)
| step_eof s err : blocked s = None → readerDone s = false → reader_todo s = [] → step s (with_todo [R_done] (handleEOF err s))
| step_exit s err : blocked s = None → step s (with_exit err s)
| step_receive s ch ev s' : receive ch s = Some (ev, s') → step s s'.
End session.
