(* ===== verification/ClaudeLaws.v ===== *)
(** * What a [claude] session guarantees ([internal/wrapper/session_claude.go])

    Whatever races - results, cancellations, timeouts, failed writes, the death of the
    process, closing - every turn that was accepted ends exactly once, and nothing is ever
    sent to a channel that is closed. *)
From S2P Require Import Prelude GoBase GoStrings Transcript Executor ClaudeSession.
From Stdlib Require Import ZArith Lia.

(** ** The arguments of the process *)

Lemma drop_args_kept flag valued prefixed skip args a :
  a ∈ drop_args flag valued prefixed skip args → a ∈ args ∧ flag a = false ∧ valued a = false ∧ prefixed a = false.
Proof.
  revert skip. induction args as [| x args IH]; intros skip; cbn; [by intros ?%elem_of_nil |].
  assert (∀ b, a ∈ drop_args flag valued prefixed b args → a ∈ x :: args ∧ flag a = false ∧ valued a = false ∧ prefixed a = false) as Hb
    by (intros b (? & ? & ? & ?)%IH; split_and!; try done; by right).
  destruct skip; [apply Hb |]. destruct (flag x) eqn:Hf; [apply Hb |]. destruct (valued x) eqn:Hv; [apply Hb |]. destruct (prefixed x) eqn:Hp; [apply Hb |].
  rewrite elem_of_cons. intros [-> | Hin]; [split_and!; try done; by left | by eapply Hb].
Qed.

(** The flags by which a process gives up its permissions. *)
Definition bypass (a : string) : bool :=
  one_of ["--dangerously-skip-permissions"; "--permission-mode"] a || prefix_of ["--dangerously-skip-permissions="; "--permission-mode="] a.

Lemma one_of_cons x l a : one_of (x :: l) a = bool_decide (a = x) || one_of l a.
Proof. unfold one_of. repeat case_bool_decide; set_solver. Qed.

Lemma strip_not_bypass args a : a ∈ stripClaudePermissionBypassArgs args → a ∈ args ∧ bypass a = false.
Proof.
  intros (Ha & Hf & Hv & Hp)%drop_args_kept. split; [done |]. apply orb_false_elim in Hf as [Hf1 Hf2].
  unfold bypass, one_of, prefix_of in *. cbn [existsb] in *. rewrite !orb_false_r in *. rewrite Hf2, Hp, !orb_false_r.
  apply bool_decide_eq_false in Hf1, Hv. apply bool_decide_eq_false. set_solver.
Qed.

(** Whatever arguments an agent's card or template carries, the process is started in the
    protocol that the session speaks, and never with a flag that skips permissions or sets the
    permission mode: every argument is one of the session's own, the id to resume, or one of the
    card's that is neither such a flag nor one of the protocol's. *)
Lemma claude_args_safe args resumeID a :
  a ∈ transport_args args resumeID →
  a ∈ ["-p"; "--input-format=stream-json"; "--output-format=stream-json"; "--verbose"; "--resume=" +:+ resumeID] ∨
  a ∈ args ∧ bypass a = false ∧ one_of ["-p"; "--print"; "--input-format"; "--output-format"] a = false ∧
  prefix_of ["--input-format="; "--output-format="] a = false.
Proof.
  unfold transport_args, injectStreamJSONFlags. rewrite !elem_of_app. intros [[Ha | Ha] | Ha].
  - right. apply drop_args_kept in Ha as (Ha & Hf & Hv & Hp). apply strip_not_bypass in Ha as [Ha Hb]. split_and!; try done.
    rewrite !one_of_cons in *. apply orb_false_elim in Hf as [-> Hf]. apply orb_false_elim in Hf as [-> _]. done.
  - left. set_solver.
  - left. destruct (decide (resumeID = "")); set_solver.
Qed.

(** ** Turns *)

Section laws.
Context `{UnicodeTables} `{UnicodeLower} (D : decoders).

#[local] Abbreviation step := (step D).

Definition is_done (ev : Event) : bool := match ev with EventTurnDone _ _ _ => true | _ => false end.

(** Events that go on, and events that have ended: the last is the only [EventTurnDone]. *)
Definition open_turn (evs : list Event) : Prop := Forall (λ ev, is_done ev = false) evs.
Definition ended_turn (evs : list Event) : Prop := ∃ before ev, evs = before ++ [ev] ∧ open_turn before ∧ is_done ev = true.

Definition unhealthy (st : sessionState) : Prop := st = stateEvicted ∨ st = stateClosed.

(** The sender that is blocked is about to end the turn of [ch]. *)
Definition ending (ch : nat) (s : ClaudeSession) : Prop := ∃ ev r k, blocked s = Some (ch, ev, A_close r k).

Record inv (s : ClaudeSession) : Prop := {
  inv_panic : panicked s = false;
  inv_current ch : eventsCh s = Some ch → state s = stateInFlight ∧ ∃ c, chans s !! ch = Some c ∧ closed c = false ∧ ¬ ending ch s;
  inv_closed ch c : chans s !! ch = Some c → closed c = true → ended_turn (sent c);
  inv_open ch c : chans s !! ch = Some c → closed c = false → open_turn (sent c) ∧ (eventsCh s = Some ch ∨ ending ch s);
  inv_blocked ch ev k :
    blocked s = Some (ch, ev, k) →
    ∃ c, chans s !! ch = Some c ∧ closed c = false ∧
    match k with A_nothing => is_done ev = false ∧ eventsCh s = Some ch | A_close r _ => is_done ev = true ∧ eventsCh s = None ∧ (r = false → unhealthy (state s)) end;
  inv_idle : eventsCh s = None → blocked s = None → state s ≠ stateInFlight;
  inv_todo : Forall (λ a, match a with R_emit _ ev => is_done ev = false | _ => True end) (reader_todo s);
  inv_eof : readerDone s = true ∨ R_done ∈ reader_todo s → unhealthy (state s) ∧ eventsCh s = None;
}.

(** What the buffer may hold is not part of the invariant. *)
Lemma deliver_nothing ch c ev s : deliver ch c ev A_nothing s = with_chans (<[ch := mkChan (sent c ++ [ev]) (buffer c ++ [ev]) (closed c)]> (chans s)) s.
Proof. done. Qed.

(** The state after the last event of a turn. *)
Definition finish (ch : nat) (c : chan) (ev : Event) (ready kills : bool) (s : ClaudeSession) : ClaudeSession :=
  let s := with_chans (<[ch := mkChan (sent c ++ [ev]) (buffer c ++ [ev]) true]> (chans s)) s in
  let s := if ready && bool_decide (state s = stateInFlight) then with_state stateReady s else s in
  if kills then kill s else s.

Lemma deliver_close ch c ev r k s : ch < length (chans s) → closed c = false → deliver ch c ev (A_close r k) s = finish ch c ev r k s.
Proof.
  intros Hlt Hc. unfold deliver, after, close_chan. cbn [chans with_chans]. rewrite list_lookup_insert_eq by done. cbn [closed]. rewrite Hc.
  unfold finish. cbn [sent buffer with_chans chans]. unfold with_chans. cbn [chans]. by rewrite list_insert_insert_eq.
Qed.

Lemma ended_snoc evs ev : open_turn evs → is_done ev = true → ended_turn (evs ++ [ev]).
Proof. intros Ho Hd. by exists evs, ev. Qed.

Lemma open_snoc evs ev : open_turn evs → is_done ev = false → open_turn (evs ++ [ev]).
Proof. intros Ho Hd. apply Forall_app. split; [done |]. by apply Forall_singleton. Qed.

(** A turn about to end: it is the only one that is open. *)
Record last_event (s : ClaudeSession) (ch : nat) (c : chan) (ev : Event) (r : bool) : Prop := {
  le_chan : chans s !! ch = Some c;
  le_closed : closed c = false;
  le_open : open_turn (sent c);
  le_done : is_done ev = true;
  le_panic : panicked s = false;
  le_current : eventsCh s = None;
  le_others ch' c' : ch' ≠ ch → chans s !! ch' = Some c' → closed c' = true ∧ ended_turn (sent c');
  le_state : r = false → unhealthy (state s);
  le_todo : Forall (λ a, match a with R_emit _ ev => is_done ev = false | _ => True end) (reader_todo s);
  le_eof : readerDone s = true ∨ R_done ∈ reader_todo s → unhealthy (state s);
}.

Lemma finish_inv s ch c ev r k : last_event s ch c ev r → blocked s = None → inv (finish ch c ev r k s).
Proof.
  intros [Hc Hcl Ho Hd Hp He Hoth Hst Htd Hde] Hb.
  set (st := if r && bool_decide (state s = stateInFlight) then stateReady else state s).
  assert (finish ch c ev r k s =
    mkSession (resumeID s) st (sessionID s) (resumeErr s) (eventsCh s) (readerDone s) (processExited s) (processErr s)
      (<[ch := mkChan (sent c ++ [ev]) (buffer c ++ [ev]) true]> (chans s)) (reader_todo s) (blocked s) (if k then true else killed s) (panicked s)) as ->
    by (unfold finish, st; cbn; destruct (r && _), k; done).
  assert (∀ ch' c', <[ch := mkChan (sent c ++ [ev]) (buffer c ++ [ev]) true]> (chans s) !! ch' = Some c' → closed c' = true ∧ ended_turn (sent c')) as Hall.
  { intros ch' c'. destruct (decide (ch' = ch)) as [-> | Hne]; [| rewrite list_lookup_insert_ne by done; by apply Hoth].
    rewrite list_lookup_insert_eq by (by eapply lookup_lt_Some). intros [= <-]. split; [done | by apply ended_snoc]. }
  split; cbn.
  - done.
  - by rewrite He.
  - intros ch' c' Hc' _. by eapply Hall.
  - intros ch' c' Hc' Hf. destruct (Hall ch' c' Hc'). congruence.
  - by rewrite Hb.
  - intros _ _. unfold st. destruct r; cbn; [by case_bool_decide |]. destruct (Hst eq_refl) as [-> | ->]; done.
  - done.
  - intros Hx%Hde. split; [| done]. unfold st. destruct r; cbn; [| done]. rewrite bool_decide_false; [done |]. by destruct Hx as [-> | ->].
Qed.

Lemma block_inv s ch c ev r k : last_event s ch c ev r → inv (with_blocked (Some (ch, ev, A_close r k)) s).
Proof.
  intros [Hc Hcl Ho Hd Hp He Hoth Hst Htd Hde]. split; cbn; try done.
  - by rewrite He.
  - intros ch' c' Hc'. destruct (decide (ch' = ch)) as [-> | Hne]; [congruence |]. intros _. by eapply Hoth.
  - intros ch' c' Hc' Hf. destruct (decide (ch' = ch)) as [-> | Hne].
    + assert (c' = c) as -> by congruence. split; [done |]. right. by exists ev, r, k.
    + destruct (Hoth ch' c' Hne Hc'). congruence.
  - intros ch' ev' k' [= <- <- <-]. exists c. by split_and!.
  - intros Hx. split; [by apply Hde | done].
Qed.

Lemma send_last_inv s ch c ev r k : last_event s ch c ev r → blocked s = None → inv (send ch ev (A_close r k) s).
Proof.
  intros Hl Hb. pose proof Hl as [Hc Hcl _ _ _ _ _ _ _ _]. unfold send. rewrite Hc, Hcl. destruct (decide _); [| by eapply block_inv].
  rewrite deliver_close by (done || by eapply lookup_lt_Some). by apply finish_inv.
Qed.

(** Taking the turn away from its channel. *)
Lemma last_event_take s ch ev r st :
  inv s → blocked s = None → eventsCh s = Some ch → is_done ev = true → (r = true ∧ st = state s ∨ unhealthy st) →
  ∃ c, last_event (with_state st (with_ch None s)) ch c ev r.
Proof.
  intros Hinv Hb He Hd Hst. destruct (inv_current _ Hinv ch He) as (Hif & c & Hc & Hcl & _). exists c.
  assert (readerDone s = true ∨ R_done ∈ reader_todo s → False) as Hno.
  { intros Hx. destruct (inv_eof _ Hinv Hx) as [_ Hn]. congruence. }
  split; cbn; try done.
  - by eapply inv_open.
  - by eapply inv_panic.
  - intros ch' c' Hne Hc'. destruct (closed c') eqn:Hf; [split; [done | by eapply inv_closed] |].
    destruct (inv_open _ Hinv ch' c' Hc' Hf) as [_ [E | (? & ? & ? & E)]]; congruence.
  - intros ->. by destruct Hst as [[? _] |].
  - apply (inv_todo _ Hinv).
Qed.

Lemma send_last s ch ev r k st :
  inv s → blocked s = None → eventsCh s = Some ch → is_done ev = true → (r = true ∧ st = state s ∨ unhealthy st) →
  inv (send ch ev (A_close r k) (with_state st (with_ch None s))).
Proof. intros Hinv Hb He Hd Hst. destruct (last_event_take s ch ev r st) as [c Hl]; try done. by eapply send_last_inv. Qed.

Lemma evict_current s ch : inv s → eventsCh s = Some ch → evict_in_flight (with_ch None s) = with_state stateEvicted (with_ch None s).
Proof. intros Hinv He. unfold evict_in_flight. cbn. by rewrite decide_True by apply (inv_current _ Hinv ch He). Qed.

(** The fields that the invariant looks at. *)
Lemma inv_same s s' :
  inv s → state s' = state s → eventsCh s' = eventsCh s → chans s' = chans s → blocked s' = blocked s → panicked s' = panicked s →
  Forall (λ a, match a with R_emit _ ev => is_done ev = false | _ => True end) (reader_todo s') →
  (readerDone s' = true ∨ R_done ∈ reader_todo s' → unhealthy (state s) ∧ eventsCh s = None) → inv s'.
Proof.
  intros [Hp Hcur Hcl Hop Hbl Hid Htd He] E1 E2 E3 E4 E5 Ht' He'. unfold ending in *. split; unfold ending; rewrite ?E1, ?E2, ?E3, ?E4, ?E5; done.
Qed.

Lemma inv_unhealthy s st : inv s → blocked s = None → eventsCh s = None → unhealthy st → inv (with_state st s).
Proof.
  intros [Hp Hcur Hcl Hop Hbl Hid Htd He] Hb Hc Hst. split; cbn; unfold ending; cbn; try done.
  - by rewrite Hc.
  - by rewrite Hb.
  - intros _ _. by destruct Hst as [-> | ->].
Qed.

Lemma with_ch_None s : eventsCh s = None → with_ch None s = s.
Proof. destruct s. cbn. by intros ->. Qed.

Lemma Stream_inv s : inv s → blocked s = None → inv (Stream s).1.
Proof.
  intros Hinv Hb. unfold Stream. destruct (state s) eqn:Hs; try done. cbn [fst]. pose proof Hinv as [Hp Hcur Hcl Hop Hbl Hid Htd He].
  assert (eventsCh s = None) as Hn by (destruct (eventsCh s) as [ch |] eqn:E; [destruct (Hcur ch eq_refl); congruence | done]).
  assert (∀ ch c, (chans s ++ [mkChan [] [] false]) !! ch = Some c → closed c = true ∧ ended_turn (sent c) ∨ ch = length (chans s) ∧ c = mkChan [] [] false) as Hall.
  { intros ch c [Hc | [Hle Hc]]%lookup_app_Some; [left | right].
    - destruct (closed c) eqn:Hf; [split; [done | by eapply Hcl] |]. destruct (Hop ch c Hc Hf) as [_ [E | (? & ? & ? & E)]]; congruence.
    - apply list_lookup_singleton_Some in Hc as [E <-]. split; [lia | done]. }
  assert ((chans s ++ [mkChan [] [] false]) !! length (chans s) = Some (mkChan [] [] false)) as Hnew
    by (rewrite lookup_app_r, Nat.sub_diag by lia; done).
  split; cbn; try done.
  - intros ch [= <-]. split; [done |]. eexists. split_and!; [exact Hnew | done |]. intros (? & ? & ? & E). cbn in E. congruence.
  - intros ch c Hc Hf. destruct (Hall ch c Hc) as [[_ ?] | [_ ->]]; [done | discriminate].
  - intros ch c Hc Hf. destruct (Hall ch c Hc) as [[? _] | [-> ->]]; [congruence |]. split; [by apply Forall_nil | by left].
  - by rewrite Hb.
  - intros [Hx _]%He. rewrite Hs in Hx. by destruct Hx.
Qed.

Lemma failTurn_inv s err : inv s → blocked s = None → inv (failTurn err s).
Proof.
  intros Hinv Hb. unfold failTurn. destruct (eventsCh s) as [ch |] eqn:He.
  - rewrite (evict_current s ch) by done. apply send_last; try done. right. by left.
  - rewrite with_ch_None by done. unfold evict_in_flight. rewrite decide_False; [done | by apply (inv_idle _ Hinv)].
Qed.

Lemma abortTurn_inv s ch cause : inv s → blocked s = None → inv (abortTurn ch cause s).
Proof.
  intros Hinv Hb. unfold abortTurn. case_decide as He; [| done]. rewrite (evict_current s ch) by done. apply send_last; try done. right. by left.
Qed.

Lemma Close_inv s : inv s → blocked s = None → inv (Close s).
Proof.
  intros Hinv Hb. unfold Close. case_decide; [done |]. destruct (eventsCh s) as [ch |] eqn:He.
  - apply send_last; try done. right. by right.
  - rewrite with_ch_None by done. apply (inv_same (with_state stateClosed s)); try done.
    + apply inv_unhealthy; try done. by right.
    + apply (inv_todo _ Hinv).
    + intros Hx. split; [by right | done].
Qed.

Lemma send_keeps s ch ev r k : state (send ch ev (A_close false k) s) = state s ∧ eventsCh (send ch ev (A_close r k) s) = eventsCh s.
Proof.
  unfold send. destruct (chans s !! ch) as [c |] eqn:Hc; [| done]. destruct (closed c); [done |]. destruct (decide _); [| done].
  unfold deliver, after, close_chan. set (s0 := with_chans _ s). assert (state s0 = state s ∧ eventsCh s0 = eventsCh s) as [<- <-] by done.
  destruct (chans s0 !! ch) as [c' |]; [destruct (closed c') |]; destruct r, k; cbn [andb]; try done; by destruct (bool_decide _).
Qed.

Lemma handleEOF_inv s err : inv s → blocked s = None → inv (with_todo [R_done] (handleEOF err s)).
Proof.
  intros Hinv Hb.
  assert (inv (handleEOF err s) ∧ unhealthy (state (handleEOF err s)) ∧ eventsCh (handleEOF err s) = None) as (Hi & Hu & Hn).
  { unfold handleEOF. case_decide as Hs.
    - split_and!; [done | by right |]. destruct (eventsCh s) as [ch |] eqn:E; [| done]. destruct (inv_current _ Hinv ch E). congruence.
    - destruct (eventsCh s) as [ch |] eqn:He.
      + split; [apply send_last; try done; right; by left |]. rewrite (proj1 (send_keeps _ _ _ false _)), (proj2 (send_keeps _ _ _ _ _)). split; [by left | done].
      + split_and!; [apply inv_unhealthy; try done; by left | by left | done]. }
  apply (inv_same (handleEOF err s)); try done. cbn. repeat constructor.
Qed.

(** ** The reader *)

Definition good_todo (l : list reader_action) : Prop := Forall (λ a, match a with R_emit _ ev => is_done ev = false | _ => True end) l ∧ R_done ∉ l.

Lemma good_emits ch evs : Forall (λ ev, is_done ev = false) evs → good_todo (R_emit ch <$> evs).
Proof.
  intros Hf. split; [by apply Forall_fmap |]. by intros (ev & ? & _)%list_elem_of_fmap.
Qed.

Lemma omap_Forall {A B} (P : B → Prop) (f : A → option B) l : (∀ x y, f x = Some y → P y) → Forall P (omap f l).
Proof. intros Hf. induction l as [| x l IH]; [constructor |]. cbn. destruct (f x) eqn:E; [constructor; eauto | done]. Qed.

Lemma user_part_open part ev : user_part D part = Some ev → is_done ev = false.
Proof. unfold user_part. case_decide; [| done]. by destruct (d_tool_result D part) as [[[] ?] |]; intros [= <-]. Qed.

Lemma assistant_part_open part ev : assistant_part D part = Some ev → is_done ev = false.
Proof.
  unfold assistant_part. destruct (d_type D part) as [ty |]; [| done]. cbn. repeat case_decide; try done.
  - destruct (d_text D part); by intros [= <-].
  - by intros [= <-].
  - destruct (d_tool_use D part) as [[[id name] input] |]; [| done]. cbn. destruct (ParseA2ACallTool _ _ _); by intros [= <-].
Qed.

Lemma dispatchEvent_inv s raw : inv s → reader_todo s = [] → inv (dispatchEvent D raw s).
Proof.
  intros Hinv Ht. unfold dispatchEvent. destruct (d_envelope D raw) as [[[ty subtype] id] |]; [| done].
  destruct (decide (ty = "system")).
  { destruct (decide (subtype = "init")); [| done]. unfold handleInit. destruct (decide (sessionID s = "")); [| done].
    apply (inv_same s); try done; [apply (inv_todo _ Hinv) | apply (inv_eof _ Hinv)]. }
  destruct (eventsCh s) as [ch |]; [| done].
  match goal with |- inv (with_todo ?l s) => assert (good_todo l) as [Hf Hn] end.
  { destruct (decide (ty = "assistant")); [apply good_emits, omap_Forall, assistant_part_open |].
    destruct (decide (ty = "user")); [apply good_emits, omap_Forall, user_part_open |].
    destruct (decide (ty = "result")); [unfold result_action; destruct (d_result D raw) as [[[[? ?] ?] ?] ?]; split; [by repeat constructor | set_solver] |].
    destruct (decide (ty = "stream_event")); [| split; [constructor | set_solver]].
    unfold emitStreamEvent. destruct (d_delta D raw) as [[[? ?] ?] |]; [| split; [constructor | set_solver]].
    case_decide; (split; [by repeat constructor | set_solver]). }
  apply (inv_same s); try done. cbn. intros [Hd | Hd]; [| done]. apply (inv_eof _ Hinv). by left.
Qed.

Lemma open_event_inv s ch c ev :
  inv s → blocked s = None → eventsCh s = Some ch → chans s !! ch = Some c → closed c = false → is_done ev = false →
  inv (with_chans (<[ch := mkChan (sent c ++ [ev]) (buffer c ++ [ev]) (closed c)]> (chans s)) s).
Proof.
  intros [Hp Hcur Hcl Hop Hbl Hid Htd He] Hb Hch Hc Hf Hev. rewrite Hch in *.
  assert (∀ ch' c', <[ch := mkChan (sent c ++ [ev]) (buffer c ++ [ev]) (closed c)]> (chans s) !! ch' = Some c' →
    ch' = ch ∧ c' = mkChan (sent c ++ [ev]) (buffer c ++ [ev]) (closed c) ∨ ch' ≠ ch ∧ chans s !! ch' = Some c') as Hall.
  { intros ch' c'. destruct (decide (ch' = ch)) as [-> | Hne]; [| rewrite list_lookup_insert_ne by done; by right].
    rewrite list_lookup_insert_eq by (by eapply lookup_lt_Some). intros [= <-]. by left. }
  split; cbn; unfold ending in *; cbn; rewrite ?Hch; try done.
  - intros ch' [= <-]. destruct (Hcur ch eq_refl) as (Hs & _ & _ & _ & Hn). split; [done |]. eexists.
    rewrite list_lookup_insert_eq by (by eapply lookup_lt_Some). split_and!; [done | done | by unfold ending in Hn].
  - intros ch' c' [[-> ->] | [Hne Hc']]%Hall; cbn; [congruence | by eapply Hcl].
  - intros ch' c' [[-> ->] | [Hne Hc']]%Hall; cbn; [| by eapply Hop]. intros _. split; [| by left]. apply open_snoc; [by apply (Hop ch c Hc Hf) | done].
  - by rewrite Hb.
Qed.

Lemma reader_act_inv s : inv s → blocked s = None → reader_todo s ≠ [] → inv (reader_act s).
Proof.
  intros Hinv Hb Hne. unfold reader_act. destruct (reader_todo s) as [| a l] eqn:Ht; [done |].
  pose proof (inv_todo _ Hinv) as Htd. rewrite Ht in Htd. apply Forall_cons in Htd as [Ha Hl].
  assert (inv (with_todo l s)) as Hs.
  { apply (inv_same s); try done. cbn. intros Hx. apply (inv_eof _ Hinv). rewrite Ht. destruct Hx; [by left | right; by right]. }
  destruct a as [ch ev | ch err i o |].
  - unfold emitEvent. case_decide as He; [| done]. destruct (inv_current _ Hs ch He) as (Hif & c & Hc & Hcl & Hn).
    unfold send. rewrite Hc, Hcl. destruct (decide _); [rewrite deliver_nothing; by apply open_event_inv |].
    destruct Hs as [Hp Hcur Hclo Hop Hbl Hid Htd He']. split; unfold ending in *; cbn [with_blocked blocked state eventsCh chans panicked reader_todo readerDone];
      cbn [with_todo blocked state eventsCh chans panicked reader_todo readerDone] in *; try done.
    + intros ch' Hch'. destruct (Hcur ch' Hch') as (? & c' & ? & ? & _). split; [done |]. exists c'. split_and!; [done.. |]. by intros (? & ? & ? & ?).
    + intros ch' c' Hc' Hf. destruct (Hop ch' c' Hc' Hf) as [? [? | (? & ? & ? & E)]]; [split; [done | by left] | congruence].
    + intros ch' ev' k [= <- <- <-]. by exists c.
  - unfold emitResult. case_decide as He; [| done].
    assert (with_ch None (with_todo l s) = with_state (state (with_todo l s)) (with_ch None (with_todo l s))) as -> by done. apply send_last; try done. by left.
  - destruct (inv_eof _ Hinv) as [Hu Hn]; [right; rewrite Ht; by left |]. by apply (inv_same (with_todo l s)).
Qed.

(** ** The consumer *)

Lemma buffer_inv s ch c b :
  inv s → chans s !! ch = Some c → inv (with_chans (<[ch := mkChan (sent c) b (closed c)]> (chans s)) s).
Proof.
  intros [Hp Hcur Hcl Hop Hbl Hid Htd He] Hc.
  assert (∀ ch' c', <[ch := mkChan (sent c) b (closed c)]> (chans s) !! ch' = Some c' → ∃ c0, chans s !! ch' = Some c0 ∧ sent c' = sent c0 ∧ closed c' = closed c0) as Hall.
  { intros ch' c'. destruct (decide (ch' = ch)) as [-> | Hne]; [| rewrite list_lookup_insert_ne by done; eauto].
    rewrite list_lookup_insert_eq by (by eapply lookup_lt_Some). intros [= <-]. eauto. }
  assert (∀ ch' c0, chans s !! ch' = Some c0 → ∃ c', <[ch := mkChan (sent c) b (closed c)]> (chans s) !! ch' = Some c' ∧ closed c' = closed c0) as Hback.
  { intros ch' c0 Hc0. destruct (decide (ch' = ch)) as [-> | Hne]; [| rewrite list_lookup_insert_ne by done; eauto].
    rewrite list_lookup_insert_eq by (by eapply lookup_lt_Some). eexists. split; [done |]. cbn. congruence. }
  split; cbn; unfold ending in *; cbn; try done.
  - intros ch' Hch'. destruct (Hcur ch' Hch') as (? & c0 & Hc0 & ? & ?). split; [done |]. destruct (Hback ch' c0 Hc0) as (c' & ? & ?). exists c'. split_and!; [done | congruence | done].
  - intros ch' c' (c0 & Hc0 & -> & ->)%Hall. by eapply Hcl.
  - intros ch' c' (c0 & Hc0 & -> & ->)%Hall. by eapply Hop.
  - intros ch' ev k Hbk. destruct (Hbl ch' ev k Hbk) as (c0 & Hc0 & ? & ?). destruct (Hback ch' c0 Hc0) as (c' & ? & ?). exists c'. split_and!; [done | congruence | done].
Qed.

Lemma unblock_inv s ch c ev k :
  inv s → blocked s = Some (ch, ev, k) → chans s !! ch = Some c → inv (deliver ch c ev k (with_blocked None s)).
Proof.
  intros Hinv Hb Hc. destruct (inv_blocked _ Hinv ch ev k Hb) as (c' & Hc' & Hf & Hk). assert (c' = c) as -> by congruence.
  destruct k as [| r kl].
  - destruct Hk as [Hev He]. rewrite deliver_nothing. apply open_event_inv; try done.
    destruct Hinv as [Hp Hcur Hcl Hop Hbl Hid Htd He']. split; unfold ending in *; cbn; try done.
    + intros ch' Hch'. destruct (Hcur ch' Hch') as (? & c' & ? & ? & _). split; [done |]. exists c'. split_and!; [done.. |]. by intros (? & ? & ? & ?).
    + intros ch' c1 Hc1 Hf1. destruct (Hop ch' c1 Hc1 Hf1) as [? [? | (? & ? & ? & E)]]; [split; [done | by left] | congruence].
    + by rewrite He.
  - destruct Hk as (Hd & He & Hr). rewrite deliver_close by (done || by eapply lookup_lt_Some). apply finish_inv; [| done].
    pose proof Hinv as [Hp Hcur Hcl Hop Hbl Hid Htd He']. split; cbn; try done.
    + by eapply Hop.
    + intros ch' c1 Hne Hc1. destruct (closed c1) eqn:Hf1; [split; [done | by eapply Hcl] |].
      destruct (Hop ch' c1 Hc1 Hf1) as [_ [E | (? & ? & ? & E)]]; congruence.
    + intros Hx. by apply He'.
Qed.

Lemma receive_inv s ch ev s' : inv s → receive ch s = Some (ev, s') → inv s'.
Proof.
  intros Hinv. unfold receive. destruct (chans s !! ch) as [c |] eqn:Hc; [| done]. destruct (buffer c) as [| ev0 rest] eqn:Hbuf; [done |].
  intros [= <- <-]. pose proof (buffer_inv s ch c rest Hinv Hc) as Hs. cbn [blocked with_chans].
  destruct (blocked s) as [[[ch' ev'] k] |] eqn:Hb; [| done]. destruct (decide (ch' = ch)) as [-> |]; [| done].
  apply unblock_inv; [done | done |]. cbn. by rewrite list_lookup_insert_eq by (by eapply lookup_lt_Some).
Qed.

Lemma session_inv_step s s' : step s s' → inv s → inv s'.
Proof.
  intros Hstep Hinv. destruct Hstep; [by apply Stream_inv | by apply failTurn_inv | by apply abortTurn_inv | by apply Close_inv | by apply dispatchEvent_inv
    | by apply reader_act_inv | by apply handleEOF_inv | | by eapply receive_inv].
  apply (inv_same s); try done; [apply (inv_todo _ Hinv) | apply (inv_eof _ Hinv)].
Qed.

Lemma inv_new id : inv (newClaudeSession id).
Proof.
  split; cbn; try done. intros [|]; [done | set_solver].
Qed.

Definition reachable (s : ClaudeSession) : Prop := ∃ id, rtc step (newClaudeSession id) s.

Lemma session_reachable_inv s : reachable s → inv s.
Proof. intros [id Hr]. apply (rtc_invariant step inv (newClaudeSession id)); [| apply inv_new | done]. intros x y Hx Hs. by eapply session_inv_step. Qed.

(** (C18) Every turn ends exactly once. However results, cancellations, timeouts, failed writes,
    the end of the output and closing race, no goroutine ever sends to a closed channel or
    closes it twice; a channel that is closed has carried any number of events and then one
    last [EventTurnDone]; one that is open has carried none, and is the one that the next of
    those causes will end, or is just being ended. *)
Theorem turns_end_once s :
  reachable s →
  panicked s = false ∧
  (∀ ch c, chans s !! ch = Some c → if closed c then ended_turn (sent c) else open_turn (sent c) ∧ (eventsCh s = Some ch ∨ ending ch s)).
Proof.
  intros Hinv%session_reachable_inv. split; [by apply (inv_panic _ Hinv) |]. intros ch c Hc.
  destruct (closed c) eqn:Hf; [by eapply inv_closed | by eapply inv_open].
Qed.

(** ** The end of a session *)

Lemma send_state ch ev k s : state s ≠ stateInFlight → state (send ch ev k s) = state s ∧ readerDone (send ch ev k s) = readerDone s ∧
  length (chans (send ch ev k s)) = length (chans s).
Proof.
  intros Hs. assert (∀ c, length (chans (deliver ch c ev k s)) = length (chans s) ∧ state (deliver ch c ev k s) = state s ∧ readerDone (deliver ch c ev k s) = readerDone s) as Hd.
  { intros c. unfold deliver, after, close_chan. set (s0 := with_chans _ s).
    assert (length (chans s0) = length (chans s) ∧ state s0 = state s ∧ readerDone s0 = readerDone s) as (E1 & E2 & E3) by (cbn; by rewrite length_insert).
    destruct k as [| r kl]; [done |]. destruct (chans s0 !! ch) as [c' |]; [destruct (closed c') |]; cbn [panic with_chans state]; rewrite E2, (bool_decide_false _ Hs), andb_false_r;
      destruct kl; cbn; rewrite ?length_insert, ?E1, ?E2, ?E3; done. }
  unfold send. destruct (chans s !! ch) as [c |]; [| done]. destruct (closed c); [done |]. destruct (decide _); [| done]. by destruct (Hd c) as (? & ? & ?).
Qed.

Definition dead (n : nat) (s : ClaudeSession) : Prop := unhealthy (state s) ∧ readerDone s = true ∧ length (chans s) = n.

Lemma unhealthy_not_in_flight st : unhealthy st → st ≠ stateInFlight.
Proof. by intros [-> | ->]. Qed.

Lemma dead_step n s s' : step s s' → dead n s → dead n s'.
Proof.
  intros Hstep (Hu & Hr & Hl). pose proof (unhealthy_not_in_flight _ Hu) as Hnf.
  assert (∀ ch ev k s0, state s0 = state s ∨ unhealthy (state s0) → readerDone s0 = true → length (chans s0) = n → dead n (send ch ev k s0)) as Hsend.
  { intros ch ev k s0 Hs Hr0 Hl0. assert (unhealthy (state s0)) as Hu0 by (destruct Hs as [-> |]; done).
    destruct (send_state ch ev k s0 (unhealthy_not_in_flight _ Hu0)) as (E1 & E2 & E3). unfold dead. by rewrite E1, E2, E3. }
  destruct Hstep as [s Hb | s err Hb | s ch cause Hb Hlt | s Hb | s raw Hb Hd Ht | s Hb Hd Ht | s err Hb Hd Ht | s err Hb | s ch ev s' Hrec]; try congruence.
  - assert ((Stream s).1 = s) as -> by (unfold Stream; by destruct Hu as [-> | ->]). done.
  - unfold failTurn, evict_in_flight. cbn. rewrite decide_False by done. destruct (eventsCh s); [apply Hsend; try done; by left | done].
  - unfold abortTurn, evict_in_flight. case_decide; [| done]. cbn. rewrite decide_False by done. apply Hsend; try done. by left.
  - unfold Close. case_decide; [done |]. destruct (eventsCh s); [apply Hsend; try done; right; by right |]. split_and!; [by right | done | done].
  - done.
  - unfold receive in Hrec. destruct (chans s !! ch) as [c |]; [| done]. destruct (buffer c) as [| ev0 rest]; [done |]. injection Hrec as <- <-.
    set (s0 := with_chans _ s). assert (dead n s0) as Hd0 by (split_and!; [done | done | cbn; by rewrite length_insert]). clearbody s0.
    destruct Hd0 as (Hu0 & Hr0 & Hl0). pose proof (unhealthy_not_in_flight _ Hu0) as Hnf0.
    destruct (blocked s) as [[[ch' ev'] k] |]; [| by split_and!]. destruct (decide (ch' = ch)); [| by split_and!].
    unfold deliver, after, close_chan. set (s1 := with_chans _ _).
    assert (state s1 = state s0 ∧ readerDone s1 = true ∧ length (chans s1) = n) as (E1 & E2 & E3) by (cbn; by rewrite length_insert). clearbody s1.
    destruct k as [| r kl]; [by split_and!; [rewrite E1 | |] |]. destruct (chans s1 !! ch) as [c' |]; [destruct (closed c') |]; cbn [panic with_chans state];
      rewrite E1, (bool_decide_false _ Hnf0), andb_false_r; destruct kl; (split_and!; cbn; rewrite ?length_insert, ?E1; done).
Qed.

(** Once the reader of a session is gone - the process died, or its output ended or became
    unreadable, or the session was closed - every turn that was ever accepted has received its
    last event and its channel is closed; the session reports itself unhealthy, for good, and
    accepts no turn any more, so that the pool replaces it. *)
Lemma reader_end_ends_turns s s' :
  reachable s → readerDone s = true → rtc step s s' → blocked s' = None →
  (∀ ch c, chans s' !! ch = Some c → closed c = true ∧ ended_turn (sent c)) ∧
  IsHealthy s' = false ∧ Stream s' = (s', inl R_not_ready) ∧ length (chans s') = length (chans s).
Proof.
  intros Hr Hd Hrun Hb. pose proof (session_reachable_inv _ Hr) as Hinv.
  assert (inv s' ∧ dead (length (chans s)) s') as [Hinv' (Hu & Hd' & Hl)].
  { apply (rtc_invariant step (λ x, inv x ∧ dead (length (chans s)) x) s); [| | done].
    - intros x y [Hx Hdx] Hs. split; [by eapply session_inv_step | by eapply dead_step].
    - split; [done |]. split_and!; [apply (inv_eof _ Hinv); by left | done | done]. }
  destruct (inv_eof _ Hinv') as [_ Hn]; [by left |]. split_and!; [| | | done].
  - intros ch c Hc. destruct (closed c) eqn:Hf; [split; [done | by eapply inv_closed] |].
    destruct (inv_open _ Hinv' ch c Hc Hf) as [_ [E | (? & ? & ? & E)]]; congruence.
  - unfold IsHealthy. by rewrite bool_decide_true.
  - unfold Stream. by destruct Hu as [-> | ->].
Qed.

(** ** What the code does not prevent *)

(** While a sender is blocked on a consumer that does not read, it keeps the mutex: nothing
    but reading goes on, so that the turn can neither be canceled nor time out, and the session
    cannot be closed. *)
Lemma blocked_sender_stalls s s' ch ev k :
  blocked s = Some (ch, ev, k) → step s s' → ∃ ch' ev', receive ch' s = Some (ev', s') ∧ (ch' ≠ ch → blocked s' = blocked s).
Proof.
  intros Hb Hstep. destruct Hstep as [| | | | | | | | s ch' ev' s' Hr]; try congruence. exists ch', ev'. split; [done |]. intros Hne. unfold receive in Hr.
  destruct (chans s !! ch') as [c |]; [| done]. destruct (buffer c) as [| e rest]; [done |]. injection Hr as <- <-. cbn. rewrite Hb.
  rewrite decide_False by congruence. done.
Qed.

(** A process that comes up with another conversation poisons its session: every result is an
    error from then on, and the session stays healthy. *)
Lemma mismatch_poisons s id ch i o :
  sessionID s = "" → resumeID s ≠ "" → resumeID s ≠ id → id ≠ "" →
  let s1 := handleInit id s in
  ∃ err, resumeErr s1 = Some err ∧ emitResult ch None i o s1 = emitResult ch (Some err) i o s1 ∧ IsHealthy s1 = IsHealthy s ∧ ∀ id', handleInit id' s1 = s1.
Proof.
  intros Hs Hr Hne Hid. unfold handleInit. rewrite (decide_True (P := sessionID s = "")), (decide_True (P := resumeID s ≠ "" ∧ resumeID s ≠ id)) by done. cbv zeta. eexists. split_and!; [done | done | done |].
  intros id'. cbn. by rewrite decide_False.
Qed.
End laws.

(** ** Concrete inputs *)

Definition no_decoders : decoders :=
  mkDecoders (λ _, None) (λ _, None) (λ _, None) (λ _, None) (λ _, None) (λ _, None) (λ _, None) (λ _, None) (λ _, None) (λ _, (false, "", 0, 0, 0)%Z) (λ _, None).

#[local] Existing Instances ascii_tables bytewise_lower.

Lemma claude_args_safe_witness :
  "--add-dir" ∈ transport_args ["--permission-mode"; "bypassPermissions"; "--add-dir"; "--dangerously-skip-permissions=1"; "--print"] "s1" ∧
  ("bypassPermissions" ∉ transport_args ["--permission-mode"; "bypassPermissions"; "--add-dir"; "--dangerously-skip-permissions=1"; "--print"] "s1") ∧
  bypass "--add-dir" = false.
Proof.
  assert ("--add-dir" ∈ transport_args ["--permission-mode"; "bypassPermissions"; "--add-dir"; "--dangerously-skip-permissions=1"; "--print"] "s1") as Hin
    by (apply (bool_decide_unpack _); vm_compute; exact I).
  split; [exact Hin |]. split; [apply (bool_decide_unpack _); vm_compute; exact I |].
  destruct (claude_args_safe _ _ _ Hin) as [Hx | (_ & Hb & _)]; [| exact Hb].
  apply (bool_decide_pack _) in Hx. by vm_compute in Hx.
Defined.

(** A turn that is canceled, and the end of the process during the next one. *)
Definition canceled_turn : ClaudeSession := abortTurn 0 ErrTurnCanceled (Stream (newClaudeSession "")).1.
Definition died_turn : ClaudeSession := reader_act (with_todo [R_done] (handleEOF (Some ("broken pipe", false)) (Stream (newClaudeSession "")).1)).

Lemma reach_canceled : reachable no_decoders canceled_turn.
Proof.
  exists "". eapply rtc_l; [by apply step_stream |]. eapply rtc_l; [apply step_abort; [done | by apply Nat.lt_0_1] |]. apply rtc_refl.
Qed.

Lemma turns_end_once_witness :
  panicked canceled_turn = false ∧ (sent <$> chans canceled_turn) = [[EventTurnDone (Some ErrTurnCanceled) 0 0]] ∧
  ∀ c, chans canceled_turn !! 0 = Some c → ended_turn (sent c).
Proof.
  destruct (turns_end_once no_decoders canceled_turn reach_canceled) as [Hp Hc]. split; [exact Hp |]. split; [reflexivity |].
  intros c Hx. specialize (Hc 0 c Hx). by injection Hx as <-.
Defined.

Lemma reader_end_ends_turns_witness :
  readerDone died_turn = true ∧ IsHealthy died_turn = false ∧ Stream died_turn = (died_turn, inl R_not_ready).
Proof.
  assert (reachable no_decoders died_turn) as Hr.
  { exists "". eapply rtc_l; [by apply step_stream |]. eapply rtc_l; [by apply (step_eof no_decoders _ (Some ("broken pipe", false))) |].
    eapply rtc_l; [by apply step_reader |]. apply rtc_refl. }
  destruct (reader_end_ends_turns no_decoders died_turn died_turn Hr eq_refl (rtc_refl _ _) eq_refl) as (_ & Hh & Hs & _).
  split; [reflexivity |]. split; [exact Hh | exact Hs].
Defined.
