(* ===== verification/Codex.v ===== *)
(** * A conversation with [codex exec] ([internal/wrapper/session_codex.go])

    Codex runs one process per turn: the arguments it is started with, the events
    read from its output, what a run ends with, and the session as critical
    sections of its callers and of the goroutine of its turn. JSON decoding and the
    process are parameters; the output is the list of its lines, decoded. *)
From S2P Require Import Prelude GoBase GoStrings Transcript Executor ClaudeSession SessionWorkspace.
From Stdlib Require Import ZArith Lia.

(** ** Arguments *)

(** [codexOverrideBypassesPolicy] on [key=value]. *)
Definition override_key (kv : string) : string :=
  TrimSpace (match Index kv "=" with Some i => byte_take i kv | None => kv end).

Definition codexOverrideBypassesPolicy (kv : string) : bool :=
  let key := override_key kv in
  one_of ["sandbox_mode"; "approval_policy"; "model_provider"; "openai_base_url"; "preferred_auth_method"; "cli_auth_credentials_store"] key ||
  prefix_of ["sandbox_workspace_write"; "model_providers."] key.

(** Flags dropped with the token after them, and their joined forms. *)
Definition valued_flags : list string := ["--ask-for-approval"; "-a"; "-o"; "--output-last-message"; "--output-schema"; "--sandbox"; "-s"].
Definition joined_flags : list string :=
  ["--ask-for-approval="; "-a="; "-o="; "--output-last-message="; "--output-schema="; "--sandbox="; "-s="].
Definition bypass_flags : list string := ["--dangerously-bypass-approvals-and-sandbox"; "--yolo"; "--full-auto"].

(** [sanitizeCodexExecArgs]; [skip] drops the token at hand. *)
Fixpoint sanitize_args (skip : bool) (args : list string) : list string :=
  match args with
  | [] => []
  | a :: args =>
      if skip then sanitize_args false args
      else if bool_decide (a = "exec") || bool_decide (a = "--json") then sanitize_args false args
      else if one_of valued_flags a then sanitize_args true args
      else if prefix_of joined_flags a then sanitize_args false args
      else if one_of bypass_flags a then sanitize_args false args
      else if one_of ["-c"; "--config"] a then
        match args with
        | kv :: _ => if codexOverrideBypassesPolicy kv then sanitize_args true args else a :: sanitize_args false args
        | [] => [a]
        end
      else match strip_prefix "-c=" a with
      | Some kv => if codexOverrideBypassesPolicy kv then sanitize_args false args else a :: sanitize_args false args
      | None =>
          match strip_prefix "--config=" a with
          | Some kv => if codexOverrideBypassesPolicy kv then sanitize_args false args else a :: sanitize_args false args
          | None => a :: sanitize_args false args
          end
      end
  end.

Definition sanitizeCodexExecArgs (args : list string) : list string := sanitize_args false args.

Definition ensureCodexFlag (args : list string) (flag : string) : list string :=
  if bool_decide (flag ∈ args) then args else args ++ [flag].

(** Whether the flag is there with a value. *)
Fixpoint has_value (long short : string) (args : list string) : bool :=
  match args with
  | [] => false
  | a :: rest =>
      (one_of [long; short] a && negb (bool_decide (rest = []))) || prefix_of [long +:+ "="; short +:+ "="] a || has_value long short rest
  end.

Definition ensureCodexFlagValue (args : list string) (long short value : string) : list string :=
  if has_value long short args then args else args ++ [long +:+ "=" +:+ value].

Definition buildCodexExecArgs (runtimeArgs : list string) (resumeID prompt : string) (writeAccess networkAccess : bool)
    (trustedProviderArgs : list string) : list string :=
  let args := "exec" :: sanitizeCodexExecArgs runtimeArgs in
  let args := ensureCodexFlag args "--json" in
  let args := ensureCodexFlagValue args "--sandbox" "-s" (if writeAccess then "workspace-write" else "read-only") in
  let args := args ++ (if writeAccess && networkAccess then ["-c"; "sandbox_workspace_write.network_access=true"] else []) in
  let args := args ++ trustedProviderArgs in
  let args := ensureCodexFlag args "--skip-git-repo-check" in
  args ++ (if nonempty resumeID then ["resume"; resumeID; prompt] else [prompt]).

(** ** The output of a run *)

(** The [item] of a line, decoded; [i_exit] is the exit code. *)
Record item := mkItem {
  i_ID : string; i_Type : string; i_Text : string; i_Command : string; i_Name : string; i_Input : string; i_Output : string;
  i_Status : string; i_exit : option Z;
}.

Record line := mkLine {
  l_Type : string; l_ThreadID : string; l_Item : option item; l_Input : Z; l_Output : Z; l_Message : string; l_Error : string;
}.

(** What the parser calls while it reads. *)
Inductive action := A_emit (e : Event) | A_thread (id : string).

Record codexRunResult := mkRun { cr_ThreadID : string; cr_Text : string; cr_Input : Z; cr_Output : Z }.

Record parsing := mkParsing { ps_result : codexRunResult; ps_err : option string; ps_terminal : bool; ps_started : gset string }.

Definition ErrCodexStreamTruncated : string := "codex stream closed without a terminal event".

(** [truncateCodexEventText] *)
Definition truncated_mark : string :=
  nl +:+ "…[truncated]".
Definition truncateCodexEventText (s : string) (max : nat) : string :=
  if blen s <=? max then s else byte_take (rune_cut s max) s +:+ truncated_mark.

Section codex.
(** [command_input] is the JSON of a command; [decode_call] decodes a call to
    another agent. *)
Context `{UnicodeLower} (command_input : string → string) (decode_call : string → option A2ACall).

Definition set_started (id : string) (s : parsing) : parsing := mkParsing (ps_result s) (ps_err s) (ps_terminal s) ({[id]} ∪ ps_started s).
Definition set_text (t : string) (s : parsing) : parsing :=
  mkParsing (mkRun (cr_ThreadID (ps_result s)) t (cr_Input (ps_result s)) (cr_Output (ps_result s))) (ps_err s) (ps_terminal s) (ps_started s).

Definition applyCodexItem (completed : bool) (raw : option item) (s : parsing) : parsing * list action :=
  match raw with
  | None => (s, [])
  | Some i =>
      if decide (i_Type i = "agent_message") then (if completed then set_text (i_Text i) s else s, [])
      else if decide (i_Type i = "command_execution") then
        let input := if nonempty (i_Command i) then command_input (i_Command i) else "{}" in
        let '(s, use) :=
          if negb completed || negb (bool_decide (i_ID i ∈ ps_started s))
          then (set_started (i_ID i) s, [A_emit (EventToolUse (i_ID i) "command_execution" input)]) else (s, []) in
        let is_error := bool_decide (i_Status i = "failed") || (if i_exit i is Some z then negb (z =? 0)%Z else false) in
        (s, use ++ if completed then [A_emit (EventToolResult (i_ID i) (truncateCodexEventText (i_Output i) (16 * 1024)) is_error)] else [])
      else if bool_decide (i_Type i = "mcp_tool_call") || bool_decide (i_Type i = "tool_call") then
        if completed then
          let name := if nonempty (i_Name i) then i_Name i else i_Type i in
          let input := if nonempty (i_Input i) then i_Input i else "{}" in
          (s, [A_emit (match ParseA2ACallTool decode_call name input with
                       | Some call => EventAgentCall (Agent call) (Task_ call)
                       | None => EventToolUse (i_ID i) name input
                       end)])
        else (s, [])
      else if decide (i_Type i = "reasoning") then (s, if completed then [A_emit EventThinking] else [])
      else (s, [])
  end.

(** One line; a line that does not decode is skipped. *)
Definition read_line (l : option line) (s : parsing) : parsing * list action :=
  match l with
  | None => (s, [])
  | Some l =>
      let r := ps_result s in
      if decide (l_Type l = "thread.started") then
        (mkParsing (mkRun (l_ThreadID l) (cr_Text r) (cr_Input r) (cr_Output r)) (ps_err s) (ps_terminal s) (ps_started s),
         [A_thread (l_ThreadID l)])
      else if decide (l_Type l = "turn.completed") then
        (mkParsing (mkRun (cr_ThreadID r) (cr_Text r) (l_Input l) (l_Output l)) (ps_err s) true (ps_started s), [])
      else if bool_decide (l_Type l = "turn.failed") || bool_decide (l_Type l = "error") then
        let msg := if nonempty (l_Message l) then l_Message l else if nonempty (l_Error l) then l_Error l else l_Type l in
        (mkParsing r (Some msg) true (ps_started s), [])
      else if bool_decide (l_Type l = "item.started") || bool_decide (l_Type l = "item.completed")
      then applyCodexItem (bool_decide (l_Type l = "item.completed")) (l_Item l) s
      else (s, [])
  end.

Fixpoint read_lines (ls : list (option line)) (s : parsing) : parsing * list action :=
  match ls with
  | [] => (s, [])
  | l :: ls => let '(s, a) := read_line l s in let '(s, b) := read_lines ls s in (s, a ++ b)
  end.

Definition fresh_parsing : parsing := mkParsing (mkRun "" "" 0 0) None false ∅.

(** [parseCodexJSONLStream]; [scan] is the error of the scanner. *)
Definition parseCodexJSONLStream (ls : list (option line)) (scan : option string) : codexRunResult * list action * option string :=
  let '(s, acts) := read_lines ls fresh_parsing in
  (ps_result s, acts,
   match scan with
   | Some err => Some ("read codex jsonl: " +:+ err)
   | None => if bool_decide (ps_err s = None) && negb (ps_terminal s) then Some ErrCodexStreamTruncated else ps_err s
   end).

(** The process of a turn: it does not start, or its output and how it exits. *)
Inductive process := NotStarted (err : string) | Ran (ls : list (option line)) (scan exit : option string) (stderr : string).

(** [runCodexExecStream]; [trim] bounds what is shown of the standard error. *)
Definition runCodexExecStream (trim : string → string) (p : process) : codexRunResult * list action * option string :=
  match p with
  | NotStarted err => (mkRun "" "" 0 0, [], Some err)
  | Ran ls scan exit stderr =>
      let '(r, acts, err) := parseCodexJSONLStream ls scan in
      (r, acts,
       match err, exit with
       | Some e, Some x => Some (e +:+ " (process exit: " +:+ x +:+ ")")
       | Some e, None => Some e
       | None, Some x => Some (let msg := trim stderr in "codex exec failed: " +:+ x +:+ if nonempty msg then ": " +:+ msg else "")
       | None, None => None
       end)
  end.

(** Everything the goroutine of a turn does to the channel and to the session id,
    in order. *)
Definition turn_actions (trim : string → string) (p : process) : list action :=
  let '(r, acts, err) := runCodexExecStream trim p in
  acts ++ (if nonempty (cr_Text r) then [A_emit (EventText (cr_Text r))] else [])
       ++ (if nonempty (cr_ThreadID r) then [A_thread (cr_ThreadID r)] else [])
       ++ [A_emit (EventTurnDone ((λ e, mkTurnErr false e) <$> err) (cr_Input r) (cr_Output r))].

(** ** The session *)

(** The channel of a turn: what was sent, what is still in its buffer, whether it is
    closed. [g_todo] is what its goroutine has left to do. *)
Inductive cleanup := C_running | C_reset | C_finished.

#[global] Instance cleanup_eq_dec : EqDecision cleanup.
Proof. solve_decision. Defined.

Record turn := mkTurn {
  t_resume : string; t_sent : list Event; t_buffer : list Event; t_closed : bool; t_todo : list action; t_phase : cleanup;
}.

Record CodexSession := mkCodexSession {
  closed : bool; inFlight : bool; sessionID : string; known : list string; turns : list turn;
}.

Definition codex_cap : nat := 8.
#[global] Arguments codex_cap : simpl never.

Definition fresh_session (resumeID : string) : CodexSession := mkCodexSession false false resumeID [] [].

Definition NewCodexSession (cfg : SessionConfig) (resumeID : string) : CodexSession + string :=
  match Validate cfg with Some err => inr err | None => inl (fresh_session resumeID) end.

(** [Stream]: an error, or the turn it has started, which the process [p] answers. *)
Definition Stream (trim : string → string) (p : process) (s : CodexSession) : CodexSession * (nat + string) :=
  if closed s then (s, inr "codex session: closed")
  else if inFlight s then (s, inr "codex session: agent busy: a turn is already running for this conversation; retry after it completes")
  else (mkCodexSession false true (sessionID s) (known s)
          (turns s ++ [mkTurn (sessionID s) [] [] false (turn_actions trim p) C_running]),
        inl (length (turns s))).

(** [noteThreadID]: the callback is told of a new id. *)
Definition noteThreadID (id : string) (s : CodexSession) : CodexSession :=
  if decide (id = "") then s else if decide (sessionID s = id) then s
  else mkCodexSession (closed s) (inFlight s) id (known s ++ [id]) (turns s).

Definition with_turn (i : nat) (t : turn) (s : CodexSession) : CodexSession :=
  mkCodexSession (closed s) (inFlight s) (sessionID s) (known s) (<[i := t]> (turns s)).

(** The next step of the goroutine of turn [i]; a send waits for room. The deferred
    functions run in reverse order: the session is free before the channel closes. *)
Definition turn_step (i : nat) (s : CodexSession) : option CodexSession :=
  match turns s !! i with
  | None => None
  | Some t =>
      match t_todo t, t_phase t with
      | A_emit e :: todo, C_running =>
          if length (t_buffer t) <? codex_cap
          then Some (with_turn i (mkTurn (t_resume t) (t_sent t ++ [e]) (t_buffer t ++ [e]) (t_closed t) todo C_running) s) else None
      | A_thread id :: todo, C_running =>
          Some (noteThreadID id (with_turn i (mkTurn (t_resume t) (t_sent t) (t_buffer t) (t_closed t) todo C_running) s))
      | [], C_running =>
          Some (mkCodexSession (closed s) false (sessionID s) (known s)
                  (<[i := mkTurn (t_resume t) (t_sent t) (t_buffer t) (t_closed t) [] C_reset]> (turns s)))
      | [], C_reset => Some (with_turn i (mkTurn (t_resume t) (t_sent t) (t_buffer t) true [] C_finished) s)
      | _, _ => None
      end
  end.

(** The consumer takes an event. *)
Definition receive (i : nat) (s : CodexSession) : option (Event * CodexSession) :=
  match turns s !! i with
  | Some t =>
      match t_buffer t with
      | e :: buf => Some (e, with_turn i (mkTurn (t_resume t) (t_sent t) buf (t_closed t) (t_todo t) (t_phase t)) s)
      | [] => None
      end
  | None => None
  end.

Definition Close (s : CodexSession) : CodexSession := mkCodexSession true (inFlight s) (sessionID s) (known s) (turns s).
Definition IsHealthy (s : CodexSession) : bool := negb (closed s).

(** [OnSessionIDKnown]: the callback hears of an id that is already known. *)
Definition OnSessionIDKnown (s : CodexSession) : CodexSession :=
  mkCodexSession (closed s) (inFlight s) (sessionID s) (known s ++ if nonempty (sessionID s) then [sessionID s] else []) (turns s).

(** [Turn] of the events of a turn. *)
Definition Turn (es : list Event) : string * option turn_error :=
  foldl (λ '(text, err) e, match e with
                           | EventText t => (text +:+ t, err)
                           | EventTurnDone err' _ _ => (text, err')
                           | _ => (text, err)
                           end) ("", None) es.

Inductive step : CodexSession → CodexSession → Prop :=
| step_stream s trim p : step s (Stream trim p s).1
| step_turn s i s' : turn_step i s = Some s' → step s s'
| step_receive s i e s' : receive i s = Some (e, s') → step s s'
| step_close s : step s (Close s).
End codex.
