(* ===== verification/CodexLaws.v ===== *)
(** * Laws of a Codex session

    The wrapper decides the sandbox of every run; a run counts as a success only
    when Codex says that its turn completed; the turns of a session run one at a
    time and each one ends with its outcome. *)
From S2P Require Import Prelude GoBase GoStrings Transcript Executor ClaudeSession SessionWorkspace Codex.
From Stdlib Require Import ZArith Lia.

(** ** Arguments *)

(** What the wrapper owns, spelled out from the options of [codex exec]: the output
    protocol, the approvals and the sandbox, each flag alone or joined to its value,
    the flags that bypass both, and the overrides of the policy and of the provider. *)
Inductive policy_key : string → Prop :=
| key_sandbox : policy_key "sandbox_mode"
| key_approval : policy_key "approval_policy"
| key_provider : policy_key "model_provider"
| key_base_url : policy_key "openai_base_url"
| key_auth : policy_key "preferred_auth_method"
| key_credentials : policy_key "cli_auth_credentials_store"
| key_write x : policy_key ("sandbox_workspace_write" +:+ x)
| key_providers x : policy_key ("model_providers." +:+ x).

Inductive owned_flag : string → Prop :=
| flag_ask : owned_flag "--ask-for-approval"
| flag_a : owned_flag "-a"
| flag_o : owned_flag "-o"
| flag_last : owned_flag "--output-last-message"
| flag_schema : owned_flag "--output-schema"
| flag_sandbox : owned_flag "--sandbox"
| flag_s : owned_flag "-s".

Inductive owned : string → Prop :=
| own_exec : owned "exec"
| own_json : owned "--json"
| own_flag f : owned_flag f → owned f
| own_joined f v : owned_flag f → owned (f +:+ "=" +:+ v)
| own_bypass : owned "--dangerously-bypass-approvals-and-sandbox"
| own_yolo : owned "--yolo"
| own_full_auto : owned "--full-auto"
| own_override c kv : c = "-c=" ∨ c = "--config=" → policy_key (override_key kv) → owned (c +:+ kv).

Lemma policy_key_bypasses kv : policy_key (override_key kv) → codexOverrideBypassesPolicy kv = true.
Proof.
  unfold codexOverrideBypassesPolicy. intros Hk. destruct Hk; try reflexivity.
  all: apply orb_true_intro; right; unfold prefix_of, existsb; rewrite strip_prefix_app; rewrite ?orb_true_r; reflexivity.
Qed.

(** What the filter lets through at one token. *)
Definition passes (a : string) : bool :=
  negb (bool_decide (a = "exec")) && negb (bool_decide (a = "--json")) && negb (one_of valued_flags a) &&
  negb (prefix_of joined_flags a) && negb (one_of bypass_flags a) &&
  negb (if strip_prefix "-c=" a is Some kv then codexOverrideBypassesPolicy kv else false) &&
  negb (if strip_prefix "--config=" a is Some kv then codexOverrideBypassesPolicy kv else false).

Lemma prefix_of_intro l p v : p ∈ l → prefix_of l (p +:+ v) = true.
Proof.
  intros Hp. unfold prefix_of. apply existsb_exists. exists p. split; [by apply list_elem_of_In |].
  rewrite strip_prefix_app. by apply bool_decide_eq_true.
Qed.

Lemma passes_not_owned a : passes a = true → ¬ owned a.
Proof.
  intros Hp Ho. unfold passes in Hp. destruct Ho as [| | f Hf | f v Hf | | | | c kv Hc Hk]; try done.
  - by destruct Hf.
  - assert (prefix_of joined_flags (f +:+ "=" +:+ v) = true) as E.
    { destruct Hf; match goal with |- prefix_of _ (?f +:+ "=" +:+ v) = _ => change (f +:+ "=" +:+ v) with ((f +:+ "=") +:+ v) end;
        apply prefix_of_intro; unfold joined_flags; set_solver. }
    rewrite E in Hp. bool_to_prop. done.
  - apply policy_key_bypasses in Hk. bool_to_prop. destruct Hc as [-> | ->]; rewrite strip_prefix_app, Hk in *; done.
Qed.

Lemma config_passes a : one_of ["-c"; "--config"] a = true → passes a = true.
Proof. unfold one_of. intros H%bool_decide_eq_true. set_unfold. by destruct H as [-> | [-> | []]]. Qed.

Lemma sanitize_passes skip args : Forall (λ a, passes a = true) (sanitize_args skip args).
Proof.
  revert skip. induction args as [| a args IH]; intros skip; [constructor |]. cbn [sanitize_args].
  destruct skip; [apply IH |].
  destruct (bool_decide (a = "exec") || _) eqn:E1; [apply IH |]. destruct (one_of valued_flags a) eqn:E2; [apply IH |].
  destruct (prefix_of joined_flags a) eqn:E3; [apply IH |]. destruct (one_of bypass_flags a) eqn:E4; [apply IH |].
  apply orb_false_iff in E1 as [E0 E1].
  destruct (one_of ["-c"; "--config"] a) eqn:E5.
  - assert (T : passes a = true) by by apply config_passes.
    destruct args as [| kv args]; [by repeat constructor |].
    destruct (codexOverrideBypassesPolicy kv); [apply IH | by constructor; [| apply IH]].
  - destruct (strip_prefix "-c=" a) as [kv |] eqn:E6.
    + destruct (codexOverrideBypassesPolicy kv) eqn:E7; [apply IH |]. constructor; [| apply IH].
      unfold passes. rewrite E0, E1, E2, E3, E4, E6, E7. by apply strip_prefix_Some in E6 as ->.
    + destruct (strip_prefix "--config=" a) as [kv |] eqn:E7.
      * destruct (codexOverrideBypassesPolicy kv) eqn:E8; [apply IH |]. constructor; [| apply IH].
        unfold passes. by rewrite E0, E1, E2, E3, E4, E6, E7, E8.
      * constructor; [| apply IH]. unfold passes. by rewrite E0, E1, E2, E3, E4, E6, E7.
Qed.

(** No [-c] or [--config] with an override of the policy in the next token. *)
Definition is_config (a : string) : Prop := a = "-c" ∨ a = "--config".

Fixpoint no_overrides (args : list string) : Prop :=
  match args with
  | a :: (kv :: _) as rest => (is_config a → ¬ policy_key (override_key kv)) ∧ no_overrides rest
  | _ => True
  end.

(** What stands behind [-c] is not itself something the filter would drop, or
    another [-c]. *)
Fixpoint plain_overrides (args : list string) : Prop :=
  match args with
  | a :: (kv :: _) as rest => (is_config a → ¬ owned kv ∧ ¬ is_config kv) ∧ plain_overrides rest
  | _ => True
  end.

Lemma bypasses_policy_key kv : codexOverrideBypassesPolicy kv = true → policy_key (override_key kv).
Proof.
  unfold codexOverrideBypassesPolicy. generalize (override_key kv) as k. intros k [Hk | Hk]%orb_prop.
  - unfold one_of in Hk. apply bool_decide_eq_true in Hk. set_unfold. destruct_or!; subst; try done; constructor.
  - unfold prefix_of, existsb in Hk. bool_to_prop. destruct (strip_prefix "sandbox_workspace_write" k) as [x |] eqn:E1.
    + apply strip_prefix_Some in E1 as ->. constructor.
    + destruct (strip_prefix "model_providers." k) as [x |] eqn:E2; [apply strip_prefix_Some in E2 as ->; constructor |].
      rewrite !(bool_decide_eq_false_2 (is_Some None)) in Hk by by intros []. done.
Qed.

Lemma not_owned_passes a : ¬ owned a → passes a = true.
Proof.
  intros Ho. unfold passes.
  assert (bool_decide (a = "exec") = false) as -> by (apply bool_decide_eq_false; intros ->; apply Ho; constructor).
  assert (bool_decide (a = "--json") = false) as -> by (apply bool_decide_eq_false; intros ->; apply Ho; constructor).
  assert (one_of valued_flags a = false) as ->.
  { apply bool_decide_eq_false. intros Hin. apply Ho, own_flag. unfold valued_flags in Hin. set_unfold. destruct_or!; subst; try done; constructor. }
  assert (prefix_of joined_flags a = false) as ->.
  { apply not_true_is_false. intros Hin. apply Ho. unfold prefix_of in Hin. apply existsb_exists in Hin as (f & Hf & [v Hv]%bool_decide_eq_true).
    apply strip_prefix_Some in Hv as ->. unfold joined_flags in Hf. apply list_elem_of_In in Hf. set_unfold.
    assert (∀ g, owned_flag g → f = g +:+ "=" → owned (f +:+ v)) as Hj.
    { intros g Hg ->. rewrite string_app_assoc. by apply (own_joined g). }
    destruct_or!; try done; [apply (Hj "--ask-for-approval") | apply (Hj "-a") | apply (Hj "-o") | apply (Hj "--output-last-message") |
      apply (Hj "--output-schema") | apply (Hj "--sandbox") | apply (Hj "-s")]; done || constructor. }
  assert (one_of bypass_flags a = false) as ->.
  { apply bool_decide_eq_false. intros Hin. apply Ho. unfold bypass_flags in Hin. set_unfold.
    destruct_or!; subst; first [done | exact own_bypass | exact own_yolo | exact own_full_auto]. }
  assert (∀ c, c = "-c=" ∨ c = "--config=" → (if strip_prefix c a is Some kv then codexOverrideBypassesPolicy kv else false) = false) as Hc.
  { intros c Hc. destruct (strip_prefix c a) as [kv |] eqn:E; [| done]. apply not_true_is_false. intros Hk.
    apply strip_prefix_Some in E as ->. apply Ho. by apply own_override; [| apply bypasses_policy_key]. }
  by rewrite !Hc by auto.
Qed.

Lemma one_of_config a : one_of ["-c"; "--config"] a = true ↔ is_config a.
Proof.
  unfold one_of, is_config. rewrite bool_decide_eq_true. rewrite elem_of_cons, list_elem_of_singleton. done.
Qed.

Lemma sanitize_keeps a args :
  ¬ owned a → ¬ is_config a → sanitize_args false (a :: args) = a :: sanitize_args false args.
Proof.
  intros Ho Hc. apply not_owned_passes in Ho. unfold passes in Ho. bool_to_prop. cbn [sanitize_args].
  rewrite (proj2 (orb_false_iff _ _)) by (by split; apply bool_decide_eq_false). repeat match goal with H : ?x = false |- _ => rewrite H end.
  assert (one_of ["-c"; "--config"] a = false) as ->.
  { apply not_true_is_false. intros Hin. by apply Hc, one_of_config. }
  destruct (strip_prefix "-c=" a) as [kv |]; [by repeat match goal with H : ?x = false |- _ => rewrite H end |].
  destruct (strip_prefix "--config=" a) as [kv |]; [by repeat match goal with H : ?x = false |- _ => rewrite H end | done].
Qed.

Lemma no_overrides_cons a l : ¬ is_config a → no_overrides l → no_overrides (a :: l).
Proof. destruct l; [done |]. by split. Qed.

Lemma sanitize_no_overrides skip args : plain_overrides args → no_overrides (sanitize_args skip args).
Proof.
  revert skip. induction args as [| a args IH]; intros skip Hp; [done |].
  assert (plain_overrides args) as Hp' by (destruct args; [done | by destruct Hp]). cbn [sanitize_args].
  destruct skip; [by apply IH |].
  destruct (bool_decide (a = "exec") || _); [by apply IH |]. destruct (one_of valued_flags a); [by apply IH |].
  destruct (prefix_of joined_flags a); [by apply IH |]. destruct (one_of bypass_flags a); [by apply IH |].
  destruct (one_of ["-c"; "--config"] a) eqn:E5.
  - assert (is_config a) as Hc. { by apply one_of_config. }
    destruct args as [| kv args]; [done |]. destruct Hp as [Ha _]. destruct (Ha Hc) as [Ho Hn].
    destruct (codexOverrideBypassesPolicy kv) eqn:E6; [by apply IH |].
    specialize (IH false Hp'). rewrite (sanitize_keeps kv) in IH |- * by done. split; [| done].
    intros _ Hk%policy_key_bypasses. congruence.
  - assert (¬ is_config a) as Hc. { intros Hc%one_of_config. congruence. }
    destruct (strip_prefix "-c=" a) as [kv |].
    + destruct (codexOverrideBypassesPolicy kv); [by apply IH | by apply no_overrides_cons, IH].
    + destruct (strip_prefix "--config=" a) as [kv |]; [| by apply no_overrides_cons, IH].
      destruct (codexOverrideBypassesPolicy kv); [by apply IH | by apply no_overrides_cons, IH].
Qed.

Lemma sanitize_sublist skip args : sublist (sanitize_args skip args) args.
Proof.
  revert skip. induction args as [| a args IH]; intros skip; [constructor |]. cbn [sanitize_args].
  repeat case_match; subst; try (by constructor; apply IH); reflexivity.
Qed.

Lemma passes_no_sandbox args : Forall (λ a, ¬ owned a) args → has_value "--sandbox" "-s" (args ++ ["--json"]) = false.
Proof.
  induction 1 as [| a args T _ IH]; [done |]. cbn [has_value app]. rewrite IH, orb_false_r.
  assert (one_of ["--sandbox"; "-s"] a = false) as ->.
  { apply bool_decide_eq_false. intros Hin. apply T, own_flag. set_unfold. destruct_or!; subst; try done; constructor. }
  apply not_true_is_false. intros Hin. cbn [negb andb orb] in Hin. unfold prefix_of in Hin.
  apply existsb_exists in Hin as (f & Hf & [v Hv]%bool_decide_eq_true). apply strip_prefix_Some in Hv as ->.
  apply list_elem_of_In in Hf. apply T. set_unfold.
  destruct_or!; subst; try done; [apply (own_joined "--sandbox" v) | apply (own_joined "-s" v)]; constructor.
Qed.

(** A value dropped from behind [-c] leaves the flag to the token after it: the result
    of the filter would not pass the filter. *)
Lemma sanitize_smuggles :
  sanitizeCodexExecArgs ["-c"; "exec"; "sandbox_mode=danger-full-access"] = ["-c"; "sandbox_mode=danger-full-access"] ∧
  sanitizeCodexExecArgs ["-c"; "sandbox_mode=danger-full-access"] = [].
Proof. done. Qed.

(** The joined short forms are not recognised. *)
Lemma joined_short_survives : sanitizeCodexExecArgs ["-sdanger-full-access"; "-anever"] = ["-sdanger-full-access"; "-anever"].
Proof. done. Qed.

(** (C31) What the configured arguments can say of the sandbox of a run. What is left
    of them, in order, has none of the tokens the wrapper owns, spelled out in
    [owned]: the flags of the sandbox, the approvals and the output, alone or joined
    by an equals sign to their value, the bypass flags, the protocol, and joined
    overrides of the policy or of the provider. When no [-c] is followed by such a
    token or by another [-c], no override of the policy is left behind a [-c] either
    (otherwise one can be: [sanitize_smuggles]). The wrapper then adds its own
    sandbox flag, which gives write access when the session has it, network access
    only with that, the provider's arguments of ahsir itself, and the prompt last.
    Not recognised are the joined short forms -sVALUE and -aVALUE
    ([joined_short_survives]), and nothing separates a prompt that begins with a
    dash from the options. *)
Theorem codex_sandbox_owned runtimeArgs resumeID prompt writeAccess networkAccess trusted :
  ∃ kept skip,
    sublist kept runtimeArgs ∧ Forall (λ a, ¬ owned a) kept ∧ (plain_overrides runtimeArgs → no_overrides kept) ∧
    (skip = [] ∨ skip = ["--skip-git-repo-check"]) ∧
    buildCodexExecArgs runtimeArgs resumeID prompt writeAccess networkAccess trusted =
      "exec" :: kept ++ ["--json"; "--sandbox=" +:+ (if writeAccess then "workspace-write" else "read-only")] ++
      (if writeAccess && networkAccess then ["-c"; "sandbox_workspace_write.network_access=true"] else []) ++
      trusted ++ skip ++ (if nonempty resumeID then ["resume"; resumeID] else []) ++ [prompt].
Proof.
  set (kept := sanitizeCodexExecArgs runtimeArgs).
  assert (T : Forall (λ a, ¬ owned a) kept) by (eapply Forall_impl; [apply sanitize_passes | apply passes_not_owned]).
  assert (J : "--json" ∉ "exec" :: kept).
  { rewrite elem_of_cons. intros [? | I]; [done |]. apply (proj1 (Forall_forall _ _) T) in I. apply I. constructor. }
  set (args := ("exec" :: kept) ++ ["--json"; "--sandbox=" +:+ (if writeAccess then "workspace-write" else "read-only")] ++
    (if writeAccess && networkAccess then ["-c"; "sandbox_workspace_write.network_access=true"] else []) ++ trusted).
  exists kept, (if bool_decide ("--skip-git-repo-check" ∈ args) then [] else ["--skip-git-repo-check"]).
  split_and!; [apply sanitize_sublist | done | apply sanitize_no_overrides | case_bool_decide; auto |].
  unfold buildCodexExecArgs. fold kept. unfold ensureCodexFlag at 2. rewrite bool_decide_eq_false_2 by done.
  unfold ensureCodexFlagValue.
  change (has_value "--sandbox" "-s" (("exec" :: kept) ++ ["--json"])) with (has_value "--sandbox" "-s" (kept ++ ["--json"])).
  rewrite passes_no_sandbox by done.
  match goal with |- ensureCodexFlag ?x _ ++ _ = _ => replace x with args by by unfold args; rewrite <- !app_assoc end.
  unfold ensureCodexFlag. case_bool_decide; unfold args; rewrite <- !app_assoc; by destruct (nonempty resumeID).
Qed.

(** ** What a run ends with *)

Section outcome.
Context `{UnicodeLower} (command_input : string → string) (decode_call : string → option A2ACall).

Abbreviation read_line := (read_line command_input decode_call).
Abbreviation read_lines := (read_lines command_input decode_call).
Abbreviation turn_actions := (turn_actions command_input decode_call).

Definition is_type (ts : list string) (l : option line) : bool := if l is Some l then one_of ts (l_Type l) else false.
Definition emits (acts : list action) : list Event := omap (λ a, if a is A_emit e then Some e else None) acts.

Lemma emits_app a b : emits (a ++ b) = emits a ++ emits b.
Proof. unfold emits. induction a as [| [] a IH]; cbn; [done | by rewrite IH | done]. Qed.

(** The tools of [acts] come before their results; [started] ran before. *)
Fixpoint results_follow (started : gset string) (es : list Event) : Prop :=
  match es with
  | [] => True
  | EventToolUse id _ _ :: es => results_follow ({[id]} ∪ started) es
  | EventToolResult id _ _ :: es => id ∈ started ∧ results_follow started es
  | EventTurnDone _ _ _ :: _ => False
  | _ :: es => results_follow started es
  end.

Lemma results_follow_mono S S' es : S ⊆ S' → results_follow S es → results_follow S' es.
Proof. revert S S'. induction es as [| [] es IH]; intros S S' Sub; cbn; try eauto; [| set_solver]. apply IH. set_solver. Qed.

Lemma item_follows completed raw s es :
  let '(s', a) := applyCodexItem command_input decode_call completed raw s in
  results_follow (ps_started s') es → results_follow (ps_started s) (emits a ++ es).
Proof.
  unfold applyCodexItem. destruct raw as [i |]; [| done].
  destruct (decide (i_Type i = "agent_message")); [by destruct completed |].
  destruct (decide (i_Type i = "command_execution")).
  - destruct (negb completed || negb (bool_decide (i_ID i ∈ ps_started s))) eqn:E; cbn; rewrite ?emits_app; destruct completed; cbn; try done.
    + intros R. split; [set_solver | done].
    + cbn in E. intros R. apply negb_false_iff, bool_decide_eq_true in E. done.
  - destruct (bool_decide _ || bool_decide _).
    + destruct completed; [| done]. cbn. destruct (ParseA2ACallTool _ _ _); cbn; [done |]. apply results_follow_mono. set_solver.
    + destruct (decide (i_Type i = "reasoning")); [by destruct completed | done].
Qed.

Lemma item_keeps completed raw s :
  let s' := (applyCodexItem command_input decode_call completed raw s).1 in ps_err s' = ps_err s ∧ ps_terminal s' = ps_terminal s.
Proof.
  unfold applyCodexItem. destruct raw as [i |]; [| done].
  destruct (decide (i_Type i = "agent_message")); [by destruct completed |].
  destruct (decide (i_Type i = "command_execution")); [by destruct (negb completed || _) |].
  by destruct (bool_decide _ || bool_decide _), completed; try destruct (decide (i_Type i = "reasoning")).
Qed.

Lemma lines_follow ls s es :
  let '(s', a) := read_lines ls s in results_follow (ps_started s') es → results_follow (ps_started s) (emits a ++ es).
Proof.
  revert s es. induction ls as [| l ls IH]; intros s es; [by cbn; intros |]. cbn [Codex.read_lines].
  destruct (read_line l s) as [s1 a] eqn:E1. specialize (IH s1 es). destruct (read_lines ls s1) as [s2 b].
  intros R%IH. rewrite emits_app, <- app_assoc. revert R. generalize (emits b ++ es). clear IH. intros es' R.
  unfold Codex.read_line in E1. destruct l as [l |]; [| by simplify_eq].
  destruct (decide (l_Type l = "thread.started")); [by simplify_eq |].
  destruct (decide (l_Type l = "turn.completed")); [by simplify_eq |].
  destruct (bool_decide (l_Type l = "turn.failed") || _); [by simplify_eq |].
  destruct (bool_decide (l_Type l = "item.started") || _); [| by simplify_eq].
  pose proof (item_follows (bool_decide (l_Type l = "item.completed")) (l_Item l) s es') as F. rewrite E1 in F. auto.
Qed.

Lemma line_outcome l s :
  let s' := (read_line l s).1 in
  ps_terminal s' = ps_terminal s || is_type ["turn.completed"; "turn.failed"; "error"] l ∧
  (ps_err s' = None ↔ ps_err s = None ∧ is_type ["turn.failed"; "error"] l = false).
Proof.
  destruct l as [l |]; [| by cbn; rewrite orb_false_r; naive_solver]. unfold Codex.read_line, is_type, one_of.
  destruct (decide (l_Type l = "thread.started")) as [-> | N1]; [by cbn; rewrite orb_false_r; naive_solver |].
  destruct (decide (l_Type l = "turn.completed")) as [-> | N2]; [by cbn; rewrite orb_true_r; naive_solver |].
  destruct (bool_decide (l_Type l = "turn.failed") || _) eqn:E.
  - rewrite orb_true_iff, !bool_decide_eq_true in E. cbn. destruct E as [-> | ->]; cbn; rewrite orb_true_r; naive_solver.
  - apply orb_false_iff in E as [N3%bool_decide_eq_false N4%bool_decide_eq_false].
    rewrite !(bool_decide_eq_false_2 (l_Type l ∈ _)) by set_solver. rewrite orb_false_r.
    case_match; [| cbn; naive_solver].
    pose proof (item_keeps (bool_decide (l_Type l = "item.completed")) (l_Item l) s) as [-> ->]. naive_solver.
Qed.

Lemma lines_outcome ls s :
  let s' := (read_lines ls s).1 in
  ps_terminal s' = ps_terminal s || existsb (is_type ["turn.completed"; "turn.failed"; "error"]) ls ∧
  (ps_err s' = None ↔ ps_err s = None ∧ existsb (is_type ["turn.failed"; "error"]) ls = false).
Proof.
  revert s. induction ls as [| l ls IH]; intros s; cbn [Codex.read_lines existsb]; [cbn; rewrite orb_false_r; naive_solver |].
  pose proof (line_outcome l s) as [T E]. destruct (read_line l s) as [s1 a]. specialize (IH s1) as [T' E'].
  destruct (read_lines ls s1) as [s2 b]. cbn in *. rewrite T', T, orb_assoc. split; [done |]. rewrite E', E, orb_false_iff. tauto.
Qed.

(** (C32) A run of Codex tells the truth about its turn. Whatever the process prints, what
    reaches the channel is the events of its output and then exactly one end of the
    turn; no result comes before the tool it belongs to; and the turn succeeds exactly
    when the process ran, its output was read to the end, it said that the turn
    completed, it reported no failure and it exited well. *)
Theorem codex_turn_truth trim p :
  let err := (runCodexExecStream command_input decode_call trim p).2 in
  (∃ es i o, emits (turn_actions trim p) = es ++ [EventTurnDone ((λ e, mkTurnErr false e) <$> err) i o] ∧ results_follow ∅ es) ∧
  (err = None ↔
   match p with
   | NotStarted _ => False
   | Ran ls scan exit _ =>
       scan = None ∧ exit = None ∧ existsb (is_type ["turn.completed"]) ls = true ∧ existsb (is_type ["turn.failed"; "error"]) ls = false
   end).
Proof.
  cbn zeta. split.
  - unfold Codex.turn_actions. destruct p as [e | ls scan exit stderr]; cbn; [by exists [], 0%Z, 0%Z |].
    unfold parseCodexJSONLStream. pose proof (lines_follow ls fresh_parsing) as F. destruct (read_lines ls fresh_parsing) as [s acts]. cbn.
    rewrite !emits_app, app_assoc. set (text := if nonempty _ then [A_emit _] else []). set (thread := if nonempty _ then [A_thread _] else []).
    assert (emits thread = []) as -> by (unfold thread; by case_match).
    rewrite app_assoc. do 3 eexists. split; [reflexivity |]. rewrite app_nil_r. apply F. unfold text. by case_match.
  - destruct p as [e | ls scan exit stderr]; cbn; [by split |].
    unfold parseCodexJSONLStream. pose proof (lines_outcome ls fresh_parsing) as [T E]. destruct (read_lines ls fresh_parsing) as [s acts]. cbn in *.
    assert (C : existsb (is_type ["turn.failed"; "error"]) ls = false →
      existsb (is_type ["turn.completed"; "turn.failed"; "error"]) ls = existsb (is_type ["turn.completed"]) ls).
    { clear. induction ls as [| l ls IH]; [done |]. cbn. rewrite orb_false_iff. intros [F ?]. rewrite IH by done. f_equal.
      destruct l as [l |]; [| done]. unfold is_type, one_of in *. apply bool_decide_ext. apply bool_decide_eq_false in F. set_solver. }
    destruct scan as [x |]; [by destruct exit; naive_solver |].
    destruct (decide (ps_err s = None)) as [N | N].
    + apply E in N as N'. destruct N' as [_ N']. rewrite bool_decide_eq_true_2 by done. rewrite N, T, C by done. cbn.
      destruct (existsb (is_type ["turn.completed"]) ls), exit; cbn; naive_solver.
    + rewrite bool_decide_eq_false_2 by done. cbn. destruct (ps_err s) as [err |] eqn:Es; [| done]. destruct exit; naive_solver.
Qed.

(** ** The turns of a session *)

Abbreviation step := (step command_input decode_call).
Abbreviation Stream := (Stream command_input decode_call).

Definition turn_ok (t : turn) : Prop :=
  (∃ trim p, t_sent t ++ emits (t_todo t) = emits (turn_actions trim p)) ∧
  (∃ taken, t_sent t = taken ++ t_buffer t) ∧ length (t_buffer t) ≤ codex_cap ∧
  (t_phase t ≠ C_running → t_todo t = []) ∧ t_closed t = bool_decide (t_phase t = C_finished).

Definition session_ok (s : CodexSession) : Prop :=
  (∀ i t, turns s !! i = Some t → turn_ok t ∧ (t_phase t = C_running → S i = length (turns s))) ∧
  (inFlight s = true ↔ ∃ i t, turns s !! i = Some t ∧ t_phase t = C_running).

(** A turn that changes and goes on running. *)
Lemma session_ok_running s i t t' :
  session_ok s → turns s !! i = Some t → t_phase t' = t_phase t → turn_ok t' → session_ok (with_turn i t' s).
Proof.
  intros [T F] Ti Ph Ok. assert (L : i < length (turns s)) by by eapply lookup_lt_Some.
  split; cbn.
  - intros j u. rewrite length_insert. destruct (decide (i = j)) as [<- | N].
    + rewrite list_lookup_insert_eq by done. intros [= <-]. split; [done |]. rewrite Ph. by apply (T i t).
    + rewrite list_lookup_insert_ne by done. apply T.
  - rewrite F. split; intros (j & u & Tj & R).
    + destruct (decide (i = j)) as [<- | N].
      * exists i, t'. rewrite list_lookup_insert_eq by done. by simplify_eq; rewrite Ph.
      * exists j, u. by rewrite list_lookup_insert_ne.
    + destruct (decide (i = j)) as [<- | N].
      * rewrite list_lookup_insert_eq in Tj by done. exists i, t. simplify_eq. by rewrite <- Ph.
      * exists j, u. by rewrite list_lookup_insert_ne in Tj.
Qed.

Lemma session_ok_note id s : session_ok s → session_ok (noteThreadID id s).
Proof. unfold noteThreadID. by repeat case_decide. Qed.
Lemma turn_step_ok i s s' : session_ok s → turn_step i s = Some s' → session_ok s'.
Proof.
  intros Ok E. unfold turn_step in E. destruct (turns s !! i) as [t |] eqn:Ti; [| done]. pose proof Ok as [T F].
  destruct (T i t Ti) as [((trim & p & Plan) & (taken & Sent) & Cap & Todo & Cl) Last].
  destruct t as [r sent buf cl todo ph]. cbn [t_todo t_phase t_sent t_buffer t_resume t_closed] in *. destruct todo as [| a todo].
  - destruct ph; simplify_eq/=.
    + assert (L : i < length (turns s)) by by eapply lookup_lt_Some.
      split; cbn.
      * intros j u. rewrite length_insert. destruct (decide (i = j)) as [<- | N].
        -- rewrite list_lookup_insert_eq by done. intros [= <-]. split; [| done]. repeat split; cbn; eauto.
        -- rewrite list_lookup_insert_ne by done. apply T.
      * split; [done |]. intros (j & u & Tj & R). destruct (decide (i = j)) as [<- | N].
        -- rewrite list_lookup_insert_eq in Tj by done. by simplify_eq.
        -- rewrite list_lookup_insert_ne in Tj by done. destruct N. specialize (Last eq_refl). pose proof (proj2 (T j u Tj) R). lia.
    + split; cbn.
      * intros j u. rewrite length_insert. destruct (decide (i = j)) as [<- | N].
        -- rewrite list_lookup_insert_eq by by eapply lookup_lt_Some. intros [= <-]. split; [| done]. repeat split; cbn; eauto.
        -- rewrite list_lookup_insert_ne by done. apply T.
      * rewrite F. split; intros (j & u & Tj & R).
        -- exists j, u. destruct (decide (i = j)) as [<- | N]; [by simplify_eq |]. by rewrite list_lookup_insert_ne.
        -- exists j, u. destruct (decide (i = j)) as [<- | N]; [| by rewrite list_lookup_insert_ne in Tj].
           rewrite list_lookup_insert_eq in Tj by by eapply lookup_lt_Some. by simplify_eq.
  - destruct ph; [| by specialize (Todo ltac:(done)) ..]. destruct a as [e | id].
    + destruct (length buf <? codex_cap) eqn:R; [| done]. apply Nat.ltb_lt in R. simplify_eq. apply (session_ok_running s i _ _ Ok Ti); [done |].
      cbn in *. split_and!; cbn; [exists trim, p | exists taken | | |]; [| | | done | done].
      * by rewrite <- app_assoc, <- Plan.
      * by rewrite app_assoc.
      * rewrite length_app. cbn. lia.
    + simplify_eq. apply session_ok_note, (session_ok_running s i _ _ Ok Ti); [done |].
      split_and!; cbn; [exists trim, p | exists taken | | |]; [| | | done | done]; done.
Qed.

Lemma session_step_ok s s' : session_ok s → step s s' → session_ok s'.
Proof.
  intros Ok St. destruct St as [s trim p | s i s' E | s i e s' E | s].
  - unfold Codex.Stream. destruct (closed s); [done |]. destruct (inFlight s) eqn:Fl; [done |]. destruct Ok as [T F]. split; cbn.
    + intros i t. rewrite length_app. cbn. intros [[_ Ti] | [-> Ti]]%lookup_snoc_Some.
      * destruct (T i t) as [Tok _]; [done |]. split; [done |]. intros R. assert (false = true) by (rewrite <- Fl; apply F; eauto). done.
      * subst t. split; [| intros; lia]. split_and!; cbn; [exists trim, p | exists [] | unfold codex_cap; lia | |]; done.
    + split; [| done]. intros _. eexists (length (turns s)), _. split; [by rewrite lookup_app_r, Nat.sub_diag | done].
  - by eapply turn_step_ok.
  - unfold receive in E. destruct (turns s !! i) as [t |] eqn:Ti; [| done]. destruct (t_buffer t) as [| e' buf] eqn:B; [done |]. simplify_eq.
    apply (session_ok_running s i t _ Ok Ti); [done |]. destruct Ok as [T _]. destruct (T i t Ti) as [(Plan & (taken & Sent) & Cap & Todo & Cl) _].
    rewrite B in *. split_and!; cbn; [done | | cbn in Cap; lia | done | done]. exists (taken ++ [e]). by rewrite <- app_assoc.
  - done.
Qed.

Lemma new_session_ok r : session_ok (fresh_session r).
Proof. split; cbn; [done |]. split; [done |]. by intros (? & ? & ? & ?). Qed.
Lemma reach_ok r s : rtc step (fresh_session r) s → session_ok s.
Proof. intros R. eapply (rtc_invariant step session_ok); [apply session_step_ok | apply new_session_ok | done]. Qed.

(** What turn [i] has left to do: every receive and every step of its goroutine takes
    some of it away. *)
Definition work (t : turn) : nat :=
  2 * length (t_todo t) + length (t_buffer t) + match t_phase t with C_running => 2 | C_reset => 1 | C_finished => 0 end.

Lemma turn_progress i t s :
  session_ok s → turns s !! i = Some t → t_closed t = false →
  ∃ s' t', step s s' ∧ turns s' !! i = Some t' ∧ work t' < work t.
Proof.
  intros [T _] Ti Cl. destruct (T i t Ti) as [(_ & _ & Cap & Todo & C) _]. pose proof (lookup_lt_Some _ _ _ Ti) as L.
  destruct (t_buffer t) as [| e buf] eqn:B.
  - assert (∃ s' t', turn_step i s = Some s' ∧ turns s' !! i = Some t' ∧ work t' < work t) as (s' & t' & E & ?).
    2: { exists s', t'. split; [by eapply step_turn | done]. }
    unfold turn_step, work. rewrite Ti. destruct (t_todo t) as [| a todo] eqn:D.
    + destruct (t_phase t) eqn:Ph; [| | by rewrite C in Cl].
      * do 2 eexists. split; [reflexivity |]. cbn. rewrite list_lookup_insert_eq by done. split; [reflexivity |]. cbn. rewrite B. cbn. lia.
      * do 2 eexists. split; [reflexivity |]. cbn. rewrite list_lookup_insert_eq by done. split; [reflexivity |]. cbn. rewrite B. cbn. lia.
    + destruct (t_phase t) eqn:Ph; [| by specialize (Todo ltac:(done)) ..]. rewrite B. destruct a as [e | id].
      * do 2 eexists. split; [reflexivity |]. cbn. rewrite list_lookup_insert_eq by done. split; [reflexivity |]. cbn. lia.
      * do 2 eexists. split; [reflexivity |]. split.
        -- unfold noteThreadID, with_turn. repeat case_decide; cbn; by rewrite list_lookup_insert_eq.
        -- cbn. lia.
  - exists (with_turn i (mkTurn (t_resume t) (t_sent t) buf (t_closed t) (t_todo t) (t_phase t)) s). eexists. split; [| split].
    + eapply (step_receive _ _ _ i e). unfold receive. by rewrite Ti, B.
    + cbn. by rewrite list_lookup_insert_eq.
    + unfold work. rewrite B. cbn. lia.
Qed.

(** The turns of a session run one at a time, and each one ends with its outcome. In
    every state a session reaches: a turn that runs is the last one started, and a
    new one is accepted exactly when the session is open and none runs; a closed
    channel has carried the events of its run, the end of the turn last and once;
    and every turn can be driven to the close of its channel by reading it. *)
Lemma codex_turns_run_alone r s :
  rtc step (fresh_session r) s →
  (∀ i t, turns s !! i = Some t → t_phase t = C_running → S i = length (turns s)) ∧
  (∀ trim p, (Stream trim p s).2 = inl (length (turns s)) ↔ closed s = false ∧ ∀ i t, turns s !! i = Some t → t_phase t ≠ C_running) ∧
  (∀ i t, turns s !! i = Some t → t_closed t = true →
     ∃ trim p, t_sent t = emits (turn_actions trim p)) ∧
  (∀ i, i < length (turns s) → ∃ s' t, rtc step s s' ∧ turns s' !! i = Some t ∧ t_closed t = true).
Proof.
  intros R. pose proof (reach_ok r s R) as Ok. split_and!.
  - intros i t Ti. by apply Ok.
  - intros trim p. unfold Codex.Stream. destruct Ok as [_ F]. destruct (closed s); [naive_solver |]. destruct (inFlight s).
    + split; [done |]. intros [_ N]. destruct (proj1 F eq_refl) as (i & t & Ti & Ph). by destruct (N i t).
    + split; [| done]. intros _. split; [done |]. intros i t Ti Ph. assert (false = true) by (apply F; eauto). done.
  - intros i t Ti Cl. destruct Ok as [T _]. destruct (T i t Ti) as [((trim & p & Plan) & _ & _ & Todo & C) _].
    exists trim, p. rewrite <- Plan, Todo, app_nil_r; [done |]. intros Ph. by rewrite C, Ph in Cl.
  - clear R. intros i [t Ti]%lookup_lt_is_Some_2. remember (work t) as n eqn:W. revert s t Ok Ti W.
    induction n as [n IH] using lt_wf_ind. intros s t Ok Ti ->. destruct (t_closed t) eqn:Cl; [by exists s, t |].
    destruct (turn_progress i t s Ok Ti Cl) as (s1 & t1 & St & T1 & Less).
    destruct (IH (work t1) Less s1 t1) as (s2 & t2 & Run & ?); [by eapply session_step_ok | done | done |].
    exists s2, t2. split; [by eapply rtc_l | done].
Qed.
End outcome.

#[local] Existing Instance bytewise_lower.

Lemma codex_turns_run_alone_witness :
  ∃ s, let t := default (mkTurn "" [] [] true [] C_finished) (turns s !! 0) in
  rtc (step (λ c, c) (λ _, None)) (fresh_session "") s ∧ t_closed t = false ∧
  ∃ s' t', rtc (step (λ c, c) (λ _, None)) s s' ∧ turns s' !! 0 = Some t' ∧ t_closed t' = true.
Proof.
  set (s := (Stream (λ c, c) (λ _, None) (λ c, c) (NotStarted "no such file") (fresh_session "")).1).
  assert (R : rtc (step (λ c, c) (λ _, None)) (fresh_session "") s) by apply rtc_once, step_stream.
  exists s. split; [exact R |]. split; [reflexivity |].
  destruct (codex_turns_run_alone (λ c, c) (λ _, None) "" s R) as (_ & _ & _ & Ends).
  apply (Ends 0). cbn. lia.
Defined.
