(* ===== verification/AgentMain.v ===== *)
(** * The agent process ([cmd/ahsir-agent/main.go])

    How a card becomes the configuration that sessions are started with: the
    retention of the pool, arguments, environment, the isolated home of Codex, the
    backstop of a turn; which session serves a conversation; and the monitor that
    shuts an agent down when its registry is gone. The environment, the files and
    the clock are parameters. *)
From S2P Require Import Prelude GoBase GoStrings InstancePool IdleMonitor LifecycleConfig Executor ClaudeSession Paths Runtime Card SessionWorkspace.
From Stdlib Require Import ZArith Lia Ascii.
Import InstanceName.

(** ** Flags and the environment *)

(** The first mention of the flag decides. *)
Fixpoint hasFlag (long short : string) (args : list string) : bool :=
  match args with
  | [] => false
  | a :: rest =>
      if bool_decide (a = long) || bool_decide (a = short) then negb (bool_decide (rest = []))
      else prefix_of [long +:+ "="; short +:+ "="] a || hasFlag long short rest
  end.

(** [mergeEnv]; [visit] is the order in which a map is visited. *)
Definition env_key (item : string) : option string := (λ i, byte_take i item) <$> Index item "=".

Definition mergeEnv (visit : gmap string string → list (string * string)) (base : list string) (extra : gmap string string) : list string :=
  filter (λ item, from_option (λ k, bool_decide (extra !! k = None)) true (env_key item) = true) base ++
  ((λ kv : string * string, kv.1 +:+ "=" +:+ kv.2) <$> visit extra).

(** ** The home of Codex *)

(** [sourceCodexHome]: the variable, or [.codex] of the home directory. *)
Definition sourceCodexHome (CODEX_HOME : string) (home : option string) : string :=
  if nonempty (TrimSpace CODEX_HOME) then TrimSpace CODEX_HOME
  else match home with Some h => JoinPath h ".codex" | None => "" end.

(** [samePath]; without a working directory, relative paths stay as they are. *)
Definition AbsOr (Getwd : string + string) (p : string) : string :=
  if IsAbs (Clean p) then Clean p else match Getwd with inl cwd => Abs cwd (Clean p) | inr _ => p end.
Definition samePath (Getwd : string + string) (a b : string) : bool := bool_decide (AbsOr Getwd a = AbsOr Getwd b).

Definition kept_line (line : string) : Prop :=
  let trimmed := TrimSpace line in strip_prefix "notify" trimmed = None ∧ strip_prefix "CODEX_HOME" trimmed = None.

#[export] Instance kept_line_dec line : Decision (kept_line line).
Proof. unfold kept_line. apply _. Defined.

Definition filter_config (data : string) : string := Join (filter kept_line (Split_byte data "010")) nl.

(** [copyFilteredCodexConfig]: what is written, and the error. *)
Definition copyFilteredCodexConfig (src : file) (mkdir write : option string) : option string * option string :=
  match src with
  | Missing _ => (None, None)
  | Unreadable err => (None, Some err)
  | Content data =>
      match mkdir, write with
      | Some err, _ | None, Some err => (None, Some err)
      | None, None => (Some (filter_config data), None)
      end
  end.

(** [mirrorCodexHomeForAgent]; [config] reads a file. *)
Definition mirrorCodexHomeForAgent (Getwd : string + string) (CODEX_HOME : string) (home : option string) (config : string → file)
    (mkdir write : option string) (dst : string) : option (string * string) * option string :=
  let src := sourceCodexHome CODEX_HOME home in
  if negb (nonempty src) || samePath Getwd src dst then (None, None)
  else let '(out, err) := copyFilteredCodexConfig (config (JoinPath src "config.toml")) mkdir write in
       (pair (JoinPath dst "config.toml") <$> out, (λ e, "mirror codex config: " +:+ e) <$> err).

(** ** Durations and the retention of the pool *)

Record poolRetention := mkRetention { idleTTL : duration; evictedTTL : duration; maxEvicted : Z }.

Definition Day : duration := (24 * Hour)%Z.

Section retention.
(** [ParseDuration] of package [time]; the text of the error of [strconv.Atoi]. *)
Context `{UnicodeTables} (ParseDuration : string → duration + string) (AtoiError : string → string).

(** [parsePoolDuration]: a whole number of days, or a duration. The product wraps. *)
Definition parsePoolDuration (s : string) : duration + string :=
  if bool_decide (is_Some (strip_prefix "d" (String.rev s))) then
    match Atoi (TrimSuffix s "d") with
    | Some days => inl (i64 (i64 (days * 24) * Hour))
    | None => inr (AtoiError (TrimSuffix s "d"))
    end
  else ParseDuration s.

Definition parse_ttl (field s : string) (default : duration) : duration + string :=
  if nonempty s then
    match parsePoolDuration s with
    | inl d => inl d
    | inr err => inr (field +:+ " " +:+ fmt_q s +:+ ": " +:+ err)
    end
  else inl default.

Definition poolRetentionConfig (cfg : PoolConfig) : poolRetention + string :=
  match parse_ttl "pool.session_idle_ttl" (SessionIdleTTL cfg) (30 * Minute)%Z with
  | inr err => inr err
  | inl idle =>
      match parse_ttl "pool.evicted_ttl" (EvictedTTL cfg) (30 * Day)%Z with
      | inr err => inr err
      | inl evicted => inl (mkRetention idle evicted (if (0 <? MaxEvicted cfg)%Z then MaxEvicted cfg else 1000%Z))
      end
  end.
End retention.

(** [lifecycleBackstopTimeout]: the sum wraps. *)
Definition lifecycleBackstopTimeout (current : duration) (lc : ResolvedLifecycle) : duration :=
  if negb (Fin_Enabled (Finalize lc)) then current
  else let backstop := i64 (Fin_WorkTimeout (Finalize lc) + Fin_GraceTimeout (Finalize lc)) in
       if (current <? backstop)%Z then backstop else current.

(** ** The configuration of a session *)

Section config.
(** The environment as a map and as a list, the temporary directory, the JSON of the
    servers, and the error of creating the home of Codex and of filling it. *)
Context `{UnicodeTables} `{UnicodeLower} (ParseDuration : string → duration + string).
Context (environ : gmap string string) (visit : gmap string string → list (string * string)) (Environ : list string).
Context (tempDir : string) (marshal_mcp : gmap string string → string + string) (mkhome mirror : option string).

Definition uploadDir : string := ResolveUploadDir (default "" (environ !! "AHSIR_UPLOAD_DIR")) tempDir.

Definition add_dir (workdir p : string) : string := "--add-dir=" +:+ (if IsAbs p then p else JoinPath workdir p).

Definition allowedTools (fs : FilesystemConfig) : string :=
  "--allowedTools=" +:+ (if Card.WriteAccess fs then "Read,LS,Glob,Grep,Edit,MultiEdit,Write" else "Read,LS,Glob,Grep") +:+
  (if ShellAccess fs then ",Bash" else "").

(** What the filesystem block grants. *)
Definition filesystem_args (codex : bool) (fs : FilesystemConfig) (workdir : string) : list string :=
  if fs_Enabled fs
  then (add_dir workdir <$> AllowedPaths fs) ++ ["--add-dir=" +:+ uploadDir] ++ (if codex then [] else [allowedTools fs])
  else [].

Definition codexProviderArgs (x : CodexProviderConfig) : list string :=
  if nonempty (cx_BaseURL x) then
    ["-c"; "model_provider=" +:+ dq +:+ "ahsir_runtime" +:+ dq; "-c"; "model_providers.ahsir_runtime.name=" +:+ dq +:+ "Ahsir runtime" +:+ dq;
     "-c"; "model_providers.ahsir_runtime.base_url=" +:+ fmt_q (cx_BaseURL x); "-c"; "model_providers.ahsir_runtime.wire_api=" +:+ fmt_q (cx_WireAPI x);
     "-c"; "model_providers.ahsir_runtime.env_key=" +:+ fmt_q (cx_EnvKey x); "-c"; "model_providers.ahsir_runtime.requires_openai_auth=false";
     "-c"; "web_search=" +:+ dq +:+ "disabled" +:+ dq]
  else [].

Definition runtime_timeout (rt : Runtime.RuntimeConfig) : duration + string :=
  if nonempty (Timeout rt) then
    match ParseDuration (Timeout rt) with
    | inl d => inl d
    | inr err => inr ("runtime.timeout " +:+ fmt_q (Timeout rt) +:+ ": " +:+ err)
    end
  else inl (120 * Second)%Z.

(** The variables on top of the environment: Codex gets a home of its own. *)
Definition extra_env (codex : bool) (workspace : string) (extra : gmap string string) : gmap string string + string :=
  let home := JoinPath (JoinPath workspace ".a2a") "codex-home" in
  if codex && bool_decide (extra !! "CODEX_HOME" = None) then
    match mkhome with
    | Some err => inr ("create isolated CODEX_HOME " +:+ fmt_q home +:+ ": " +:+ err)
    | None => match mirror with Some err => inr err | None => inl (<["CODEX_HOME" := home]> extra) end
    end
  else inl extra.

(** The arguments after those of the filesystem. *)
Definition provider_args (codex : bool) (model : string) (servers : gmap string string) (partial : bool) (args : list string) : list string + string :=
  if codex then
    if bool_decide (servers = ∅)
    then inl (args ++ (if nonempty model && negb (hasFlag "--model" "-m" args) then ["--model=" +:+ model] else []))
    else inr "mcp.servers is only supported for claude-backed agents; codex configures MCP via its CODEX_HOME config.toml"
  else
    match (if bool_decide (servers = ∅) then inl [] else match marshal_mcp servers with inl raw => inl ["--mcp-config=" +:+ raw] | inr err => inr err end) with
    | inr err => inr ("marshal mcp.servers: " +:+ err)
    | inl mcp => inl (args ++ "--strict-mcp-config" :: mcp ++ (if partial then ["--include-partial-messages"] else []))
    end.

Definition buildSessionConfig (name : string) (rt : Runtime.RuntimeConfig) (fs : FilesystemConfig) (servers : gmap string string) (partial : bool)
    (workspace workdir : string) (network : NetworkConfig) : SessionConfig + string :=
  let codex := bool_decide (RuntimeProvider rt = ProviderCodex) in
  match ValidateRuntimeConfig ParseDuration environ visit rt (negb (bool_decide (servers = ∅))) with
  | Some err => inr err
  | None =>
      match runtime_timeout rt, (if codex then ResolveCodexProvider environ rt else inl (mkCodex "" "" "")) with
      | inr err, _ | inl _, inr err => inr err
      | inl timeout, inl x =>
          match ResolveProviderEnv environ visit rt, ResolveRuntimeModel environ rt with
          | inr err, _ | inl _, inr err => inr err
          | inl extra, inl model =>
              match extra_env codex workspace extra with
              | inr err => inr err
              | inl extra =>
                  match provider_args codex model servers partial (Args rt ++ filesystem_args codex fs workdir) with
                  | inr err => inr err
                  | inl args =>
                      inl (mkSessionConfig name (RuntimeProvider rt) (Command rt) args (if codex then codexProviderArgs x else [])
                             (if bool_decide (extra = ∅) then [] else mergeEnv visit Environ extra) workdir timeout
                             (fs_Enabled fs && Card.WriteAccess fs) (fs_Enabled fs && Card.WriteAccess fs && OutboundAccess network))
                  end
              end
          end
      end
  end.

(** ** The session of a conversation *)

(** The configuration of a session, in its own directory when sessions are isolated;
    [provision] is the answer of [Provision]. *)
Definition isolated (isolation : IsolationMode) (provider : string) : bool :=
  SessionWorkspace.Enabled isolation && negb (bool_decide (provider = ProviderEcho)).

Definition sessionConfigFor (isolation : IsolationMode) (provision : string + string) (c : SessionConfig) : SessionConfig + string :=
  if isolated isolation (sc_Provider c) then
    match provision with inl dir => inl (WithSessionWorkspace c dir) | inr err => inr err end
  else inl c.

Inductive backend := EchoSession | CodexSession | ClaudeSession.

Definition factory (isolation : IsolationMode) (provision : string + string) (c : SessionConfig) : (backend * SessionConfig) + string :=
  match sessionConfigFor isolation provision c with
  | inr err => inr err
  | inl c =>
      inl (if decide (sc_Provider c = ProviderEcho) then EchoSession else if decide (sc_Provider c = ProviderCodex) then CodexSession else ClaudeSession, c)
  end.

(** What [main] starts sessions with. *)
Definition main_config (c : AgentCardConfig) (lc : ResolvedLifecycle) (workspace workdir : string) : SessionConfig + string :=
  let workdir := if nonempty workdir then workdir else workspace in
  match buildSessionConfig (card_Name c) (card_Runtime c) (Filesystem c) (MCP_Servers c) (PartialMessages c) workspace workdir (Network c) with
  | inr err => inr err
  | inl s =>
      inl (mkSessionConfig (sc_Name s) (sc_Provider s) (sc_Command s) (sc_Args s) (sc_CodexProviderArgs s) (sc_Env s) (sc_WorkDir s)
             (lifecycleBackstopTimeout (sc_Timeout s) lc) (sc_WriteAccess s) (sc_NetworkAccess s))
  end.
End config.

(** ** The registry monitor *)

Record registryMonitorConfig := mkMonitor { m_URL : string; m_Interval : duration; m_Timeout : duration; m_FailureGrace : duration }.

Definition defaultRegistryMonitorConfig (url : string) : registryMonitorConfig := mkMonitor url (5 * Second)%Z (2 * Second)%Z (30 * Second)%Z.

Definition positive_or (d default : duration) : duration := if (d <=? 0)%Z then default else d.

(** The checks of [startRegistryMonitor]; [None] when there is nothing to monitor. *)
Definition monitor_config (c : registryMonitorConfig) : option registryMonitorConfig :=
  if nonempty (TrimSpace (m_URL c))
  then Some (mkMonitor (m_URL c) (positive_or (m_Interval c) (5 * Second)%Z) (positive_or (m_Timeout c) (2 * Second)%Z)
               (positive_or (m_FailureGrace c) (30 * Second)%Z))
  else None.

(** [registryReachable] of the status of the reply, if there was one. *)
Definition registryReachable (status : option Z) : bool := if status is Some z then (200 <=? z)%Z && (z <? 300)%Z else false.

(** The loop over what the checks find, each a status and the time after it; its
    result is the number of the check at which the agent is shut down. *)
Fixpoint monitor_loop (grace : duration) (firstFailure : time) (checks : list (option Z * time)) : option nat :=
  match checks with
  | [] => None
  | (status, now) :: checks =>
      if registryReachable status then S <$> monitor_loop grace zero_time checks
      else let first := if IsZero firstFailure then now else firstFailure in
           if (grace <=? Sub now first)%Z then Some 0 else S <$> monitor_loop grace first checks
  end.

(** [main]'s exit: the status of a process that its idle reaper ended. *)
Inductive wakeup := W_signal | W_done | W_idle.
Definition exit_code (w : wakeup) : Z := match w with W_idle => IdleStopExitCode | _ => 0 end.
