(* ===== verification/AgentMainLaws.v ===== *)
(** * Laws of the agent process

    A session is started with exactly the access of the card; a path that passed the
    scheduler's preflight lies in a directory the process was given; the retention
    and the backstop are within their bounds; and an agent outlives its registry by
    no more than the grace. *)
From S2P Require Import Prelude GoBase GoStrings InstancePool IdleMonitor LifecycleConfig Executor ClaudeSession Paths Runtime Card SessionWorkspace AgentMain Supervisor Preflight.
From Stdlib Require Import ZArith Lia Ascii.
Import InstanceName.

(** ** Access *)

Definition has_prefix (p a : string) : Prop := is_Some (strip_prefix p a).

(** With a valid lifecycle block the deadline of the provider is never below work and
    grace together, nor below the configured one, and nothing wraps. *)
Lemma backstop_covers ParseDuration yaml sha cfg r t :
  ResolveLifecycle ParseDuration yaml sha cfg = inl r → Fin_Enabled (Finalize r) = true →
  lifecycleBackstopTimeout t r = Z.max t (Fin_WorkTimeout (Finalize r) + Fin_GraceTimeout (Finalize r)).
Proof.
  intros R E. destruct (proj1 (resolved_lifecycle_sound ParseDuration yaml sha cfg) r R) as (_ & _ & B & _).
  destruct (B E) as [[G1 G2] [W _]]. unfold lifecycleBackstopTimeout. rewrite E. cbn [negb]. rewrite i64_small.
  - destruct (Z.ltb_spec t (Fin_WorkTimeout (Finalize r) + Fin_GraceTimeout (Finalize r))); lia.
  - unfold min_int64, max_int64, Hour, Minute, Second, Millisecond, Nanosecond in *. lia.
Qed.

(** *** What reaches the command line of [claude] *)

Definition strip_flag (a : string) : bool := one_of ["--dangerously-skip-permissions"] a || prefix_of ["--dangerously-skip-permissions="] a.

(** A token that neither filter of the session looks at. *)
Definition quiet (a : string) : bool :=
  negb (strip_flag a) && negb (one_of ["--permission-mode"] a) && negb (prefix_of ["--permission-mode="] a) &&
  negb (one_of ["-p"; "--print"] a) && negb (one_of ["--input-format"; "--output-format"] a) &&
  negb (prefix_of ["--input-format="; "--output-format="] a).

Lemma drop_args_quiet flag valued prefixed l :
  Forall (λ a, flag a = false ∧ valued a = false ∧ prefixed a = false) l → drop_args flag valued prefixed false l = l.
Proof. induction 1 as [| a l (H1 & H2 & H3) _ IH]; [done |]. cbn. by rewrite H1, H2, H3, IH. Qed.

(** The filter on a list in two parts, when the first does not end in a flag that
    waits for its value. *)
Lemma drop_args_app flag valued prefixed skip l1 l2 :
  (∀ f, last l1 = Some f → valued f = false) → (l1 = [] → skip = false) →
  drop_args flag valued prefixed skip (l1 ++ l2) = drop_args flag valued prefixed skip l1 ++ drop_args flag valued prefixed false l2.
Proof.
  revert skip. induction l1 as [| a l1 IH]; intros skip Hl Hs; [by rewrite (Hs eq_refl) |]. cbn [app drop_args].
  assert (∀ f, last l1 = Some f → valued f = false) as Hl' by (intros f Hf; apply Hl; rewrite last_cons; by rewrite Hf).
  destruct skip; [by apply IH |]. destruct (flag a); [by apply IH |]. destruct (valued a) eqn:Ev.
  - apply IH; [done |]. intros ->. by rewrite (Hl a eq_refl) in Ev.
  - destruct (prefixed a); [by apply IH |]. cbn [app]. by rewrite IH.
Qed.

(** The runtime arguments do not end in a flag that takes the next token with it,
    before or after the first filter. *)
Definition complete (args : list string) : Prop :=
  (∀ f, last args = Some f → one_of ["--permission-mode"] f = false) ∧
  (∀ f, last (stripClaudePermissionBypassArgs args) = Some f → one_of ["--input-format"; "--output-format"] f = false).

Lemma own_args_arrive args own resume a :
  complete args → Forall (λ a, quiet a = true) own → a ∈ own → a ∈ transport_args (args ++ own) resume.
Proof.
  intros [H1 H2] Hq Ha. unfold transport_args, stripClaudePermissionBypassArgs, injectStreamJSONFlags in *.
  fold strip_flag in *. apply elem_of_app. left. apply elem_of_app. left.
  rewrite drop_args_app by done. rewrite (drop_args_quiet _ _ _ own).
  2: { eapply Forall_impl; [exact Hq |]. intros x Hx. unfold quiet in Hx. by bool_to_prop. }
  rewrite drop_args_app by done. rewrite (drop_args_quiet _ _ _ own); [apply elem_of_app; by right |].
  eapply Forall_impl; [exact Hq |]. intros x Hx. unfold quiet in Hx. by bool_to_prop.
Qed.

Lemma quiet_equals p x :
  p ∈ ["--allowedTools="; "--add-dir="; "--mcp-config="] → quiet (p +:+ x) = true.
Proof.
  intros Hp. unfold quiet, strip_flag, one_of. set_unfold.
  destruct_or!; subst; try done; rewrite !(bool_decide_eq_false_2 (_ ∈ _)) by (intros Hin; set_unfold; by destruct_or!); reflexivity.
Qed.

Section access.
Context `{UnicodeTables} `{UnicodeLower} (ParseDuration : string → duration + string).
Context (environ : gmap string string) (visit : gmap string string → list (string * string)) (Environ : list string).
Context (tempDir : string) (marshal_mcp : gmap string string → string + string) (mkhome mirror : option string).

Abbreviation buildSessionConfig := (buildSessionConfig ParseDuration environ visit Environ tempDir marshal_mcp mkhome mirror).
Abbreviation main_config := (main_config ParseDuration environ visit Environ tempDir marshal_mcp mkhome mirror).
Abbreviation uploadDir := (uploadDir environ tempDir).
Abbreviation filesystem_args := (filesystem_args environ tempDir).

(** The arguments after those of the filesystem grant nothing. *)
Lemma provider_args_spec codex model servers partial args out :
  provider_args marshal_mcp codex model servers partial args = inl out →
  ∃ rest, out = args ++ rest ∧ Forall (λ a, ¬ has_prefix "--allowedTools=" a ∧ ¬ has_prefix "--add-dir=" a) rest ∧
    (codex = true → servers = ∅ ∧ "--strict-mcp-config" ∉ rest) ∧
    (codex = false → head rest = Some "--strict-mcp-config" ∧ Forall (λ a, quiet a = true) rest).
Proof.
  assert (N : ∀ a, strip_prefix "--allowedTools=" a = None → strip_prefix "--add-dir=" a = None →
    ¬ has_prefix "--allowedTools=" a ∧ ¬ has_prefix "--add-dir=" a).
  { intros a E1 E2. unfold has_prefix. rewrite E1, E2. by split; intros []. }
  unfold provider_args. destruct codex.
  - case_bool_decide; [| done]. intros [= <-]. eexists. split; [done |].
    split_and!; [| intros _; split; [done |] | done]; destruct (_ && _); [| constructor | | by apply not_elem_of_nil].
    + repeat constructor; by apply N.
    + rewrite list_elem_of_singleton. by destruct model.
  - destruct (if bool_decide _ then _ else _) as [mcp |] eqn:M; [| done]. intros [= <-]. eexists. split; [reflexivity |]. split_and!; [| done |].
    2: { intros _. split; [done |]. constructor; [done |]. apply Forall_app. split; [| by destruct partial; repeat constructor].
      case_bool_decide; [by simplify_eq; constructor |]. destruct (marshal_mcp servers); simplify_eq. by repeat constructor. }
    constructor; [by apply N |]. apply Forall_app. split; [| by destruct partial; repeat constructor; apply N].
    case_bool_decide; [by simplify_eq; constructor |]. destruct (marshal_mcp servers); simplify_eq. repeat constructor; by apply N.
Qed.

Lemma buildSessionConfig_spec name rt fs servers partial workspace workdir network s :
  buildSessionConfig name rt fs servers partial workspace workdir network = inl s →
  ∃ rest, let codex := bool_decide (RuntimeProvider rt = ProviderCodex) in
    sc_Args s = Args rt ++ filesystem_args codex fs workdir ++ rest ∧
    Forall (λ a, ¬ has_prefix "--allowedTools=" a ∧ ¬ has_prefix "--add-dir=" a) rest ∧
    (codex = true → servers = ∅ ∧ "--strict-mcp-config" ∉ rest) ∧
    (codex = false → head rest = Some "--strict-mcp-config" ∧ Forall (λ a, quiet a = true) rest) ∧
    sc_WriteAccess s = fs_Enabled fs && Card.WriteAccess fs ∧
    sc_NetworkAccess s = fs_Enabled fs && Card.WriteAccess fs && OutboundAccess network ∧
    sc_WorkDir s = workdir ∧ sc_Provider s = RuntimeProvider rt ∧ runtime_timeout ParseDuration rt = inl (sc_Timeout s).
Proof.
  unfold AgentMain.buildSessionConfig. set (codex := bool_decide (RuntimeProvider rt = ProviderCodex)). cbv zeta.
  destruct (ValidateRuntimeConfig _ _ _ _ _); [done |]. destruct (runtime_timeout ParseDuration rt) as [t |]; [| done].
  destruct (if codex then _ else _) as [x |]; [| done]. destruct (ResolveProviderEnv _ _ _); [| done]. destruct (ResolveRuntimeModel _ _); [| done].
  destruct (extra_env _ _ _ _ _); [| done]. destruct (provider_args _ _ _ _ _ _) as [args |] eqn:P; [| done]. intros [= <-]. cbn.
  apply provider_args_spec in P as (rest & -> & Pure & Cx & Cl). exists rest. by rewrite <- app_assoc.
Qed.

Lemma filesystem_tools codex fs workdir :
  filter (has_prefix "--allowedTools=") (filesystem_args codex fs workdir) = (if fs_Enabled fs && negb codex then [allowedTools fs] else []) ∧
  filter (has_prefix "--add-dir=") (filesystem_args codex fs workdir) =
    (if fs_Enabled fs then (add_dir workdir <$> AllowedPaths fs) ++ ["--add-dir=" +:+ uploadDir] else []).
Proof.
  unfold AgentMain.filesystem_args. destruct (fs_Enabled fs); [| done]. cbn [andb]. rewrite !filter_app.
  assert (D : ∀ d, strip_prefix "--add-dir=" ("--add-dir=" +:+ d) = Some d) by (intros; apply strip_prefix_app).
  split.
  - rewrite (filter_none _ (add_dir workdir <$> _)). 2: { apply Forall_fmap, Forall_forall. by intros p _ []. }
    rewrite (filter_none _ ["--add-dir=" +:+ uploadDir]). 2: { repeat constructor. by intros []. }
    destruct codex; [done |]. cbn [negb app]. rewrite filter_cons_True; [done |]. unfold allowedTools, has_prefix. by rewrite strip_prefix_app.
  - rewrite (list_filter_all (has_prefix "--add-dir=") (add_dir workdir <$> _)).
    2: { intros x (p & -> & _)%list_elem_of_fmap. unfold add_dir, has_prefix. by rewrite D. }
    f_equal. rewrite filter_cons_True by (unfold has_prefix; by rewrite D). cbn. f_equal. apply filter_none. destruct codex; repeat constructor. by intros [].
Qed.

(** The tools of a Claude session by the switches of the card. *)
Definition granted_tools (fs : FilesystemConfig) : list string :=
  ["Read"; "LS"; "Glob"; "Grep"] ++ (if Card.WriteAccess fs then ["Edit"; "MultiEdit"; "Write"] else []) ++ (if ShellAccess fs then ["Bash"] else []).

Lemma allowedTools_granted fs : allowedTools fs = "--allowedTools=" +:+ Join (granted_tools fs) ",".
Proof. unfold allowedTools, granted_tools. by destruct (Card.WriteAccess fs), (ShellAccess fs). Qed.

Lemma filesystem_quiet codex fs workdir : Forall (λ a, quiet a = true) (filesystem_args codex fs workdir).
Proof.
  unfold AgentMain.filesystem_args. destruct (fs_Enabled fs); [| constructor]. apply Forall_app. split.
  - apply Forall_fmap, Forall_forall. intros p _. apply quiet_equals. set_solver.
  - constructor; [apply quiet_equals; set_solver |]. destruct codex; [constructor |]. constructor; [| constructor].
    unfold allowedTools. apply quiet_equals. set_solver.
Qed.

(** (C33) What the process of an agent adds to the runtime arguments of its card (which
    reach the session as they are) grants the access of the card and no more: exactly
    one list of allowed tools when the filesystem is on and the provider is not
    Codex, with the editing tools only with write access and a shell only with shell
    access; directories only for the allowed paths and the upload directory; and for
    every provider but Codex the flag that shuts out the MCP servers of the host.
    All of it reaches the command line of claude, unless the runtime arguments end in
    a flag that waits for its value ([complete]; otherwise [dangling_flag_swallows]).
    A Codex agent whose card names MCP servers is refused; those of the host's Codex
    configuration, which is copied for it, are not shut out. Write and network access
    of Codex are the card's, and the deadline of a turn is the configured one, raised
    to the work and grace time of an enabled finalization and to nothing more. *)
Theorem agent_confined c lc workspace workdir s :
  main_config c lc workspace workdir = inl s →
  let wd := if nonempty workdir then workdir else workspace in
  let fs := Filesystem c in
  let codex := bool_decide (RuntimeProvider (card_Runtime c) = ProviderCodex) in
  ∃ own, sc_Args s = Args (card_Runtime c) ++ own ∧
    filter (has_prefix "--allowedTools=") own = (if fs_Enabled fs && negb codex then ["--allowedTools=" +:+ Join (granted_tools fs) ","] else []) ∧
    filter (has_prefix "--add-dir=") own =
      (if fs_Enabled fs then ((λ p, "--add-dir=" +:+ (if IsAbs p then p else JoinPath wd p)) <$> AllowedPaths fs) ++ ["--add-dir=" +:+ uploadDir] else []) ∧
    ("--strict-mcp-config" ∈ own ↔ codex = false) ∧ (codex = true → MCP_Servers c = ∅) ∧
    (codex = false → complete (Args (card_Runtime c)) → ∀ resume a, a ∈ own → a ∈ transport_args (sc_Args s) resume) ∧
    sc_WriteAccess s = fs_Enabled fs && Card.WriteAccess fs ∧ sc_NetworkAccess s = sc_WriteAccess s && OutboundAccess (Network c) ∧
    sc_WorkDir s = wd ∧ ∃ t, runtime_timeout ParseDuration (card_Runtime c) = inl t ∧ (t ≤ sc_Timeout s)%Z ∧
      ∀ yaml sha cfg, ResolveLifecycle ParseDuration yaml sha cfg = inl lc →
        sc_Timeout s = if Fin_Enabled (Finalize lc) then Z.max t (Fin_WorkTimeout (Finalize lc) + Fin_GraceTimeout (Finalize lc)) else t.
Proof.
  unfold AgentMain.main_config. cbv zeta. set (wd := if nonempty workdir then workdir else workspace).
  destruct (buildSessionConfig _ _ _ _ _ _ _ _) as [b |] eqn:B; [| done]. intros [= <-]. cbn.
  apply buildSessionConfig_spec in B as (rest & -> & Pure & Cx & Cl & -> & -> & -> & _ & T).
  set (codex := bool_decide (RuntimeProvider (card_Runtime c) = ProviderCodex)) in *.
  destruct (filesystem_tools codex (Filesystem c) wd) as [Tools Dirs].
  assert (filter (has_prefix "--allowedTools=") rest = [] ∧ filter (has_prefix "--add-dir=") rest = []) as [R1 R2].
  { split; apply filter_none; eapply Forall_impl; [exact Pure | tauto | exact Pure | tauto]. }
  exists (filesystem_args codex (Filesystem c) wd ++ rest). rewrite !filter_app, Tools, Dirs, R1, R2, !app_nil_r, allowedTools_granted. split_and!; try done.
  - rewrite elem_of_app. split.
    + intros [I | I]; [| by destruct codex; [destruct (Cx eq_refl) |]]. exfalso. revert I. unfold AgentMain.filesystem_args.
      destruct (fs_Enabled _); [| by intros []%not_elem_of_nil]. rewrite !elem_of_app, list_elem_of_fmap. destruct codex; set_solver.
    + intros E. right. destruct (Cl E) as [Cl' _]. destruct rest; [done |]. injection Cl' as ->. apply list_elem_of_here.
  - intros E. by destruct (Cx E).
  - intros E Hc resume a Ha. apply own_args_arrive; [done | | done]. apply Forall_app. split; [apply filesystem_quiet | by apply Cl].
  - exists (sc_Timeout b). split_and!; [done | |].
    + unfold lifecycleBackstopTimeout. destruct (Fin_Enabled (Finalize lc)); cbn [negb]; [| lia]. destruct (Z.ltb_spec (sc_Timeout b) (i64 (Fin_WorkTimeout (Finalize lc) + Fin_GraceTimeout (Finalize lc)))); lia.
    + intros yaml sha cfg L. destruct (Fin_Enabled (Finalize lc)) eqn:F; [by apply (backstop_covers _ _ _ _ _ _ L) |]. unfold lifecycleBackstopTimeout. by rewrite F.
Qed.

(** What the preflight accepts, the agent can reach. When the scheduler and the
    agent read the same card, in an absolute working directory, every path that is
    permitted for a dispatch resolves into a directory that was granted to the
    process with [--add-dir]; and no path is permitted to an agent whose filesystem
    is off. *)
Lemma preflight_granted Getwd EvalSymlinks c lc workspace workdir s p :
  let wd := if nonempty workdir then workdir else workspace in
  IsAbs wd = true → IsAbs uploadDir = true → main_config c lc workspace workdir = inl s →
  fs_Enabled (Filesystem c) = true → permitted Getwd EvalSymlinks uploadDir wd c p →
  ∃ d q r, ("--add-dir=" +:+ d) ∈ sc_Args s ∧ canonicalFilesystemPath Getwd EvalSymlinks wd p = inl q ∧
    canonicalFilesystemPath Getwd EvalSymlinks wd d = inl r ∧ inside r q.
Proof.
  intros wd Wd Up. unfold AgentMain.main_config. fold wd. destruct (buildSessionConfig _ _ _ _ _ _ _ _) as [b |] eqn:B; [| done]. intros [= <-] En. cbn.
  apply buildSessionConfig_spec in B as (rest & -> & _). intros (_ & q & root & r & Q & [I R] & In).
  exists (if IsAbs root then root else JoinPath wd root), q, r. split_and!; [| done | | done].
  - apply elem_of_app. right. apply elem_of_app. left. unfold AgentMain.filesystem_args. rewrite En.
    apply elem_of_app in I as [I | ->%list_elem_of_singleton].
    + apply elem_of_app. left. apply list_elem_of_fmap. by exists root.
    + apply elem_of_app. right. rewrite Up. apply list_elem_of_here.
  - rewrite <- R. unfold canonicalFilesystemPath. destruct (IsAbs root) eqn:A; [by rewrite A |].
    replace (IsAbs (JoinPath wd root)) with true; [done |]. symmetry. unfold JoinPath, Join2.
    assert (W : is_rooted wd = true) by done. destruct wd as [| b0 w]; [done |]. cbn [nonempty].
    assert (Rt : ∀ x, is_rooted (String b0 w +:+ x) = true → is_rooted (Clean (String b0 w +:+ x)) = true) by (intros x E; by rewrite Clean_rooted).
    destruct (nonempty root).
    + unfold IsAbs. apply Rt. clear -W. cbn in *. done.
    + unfold IsAbs. by rewrite Clean_rooted.
Qed.
End access.

#[local] Existing Instances ascii_tables bytewise_lower.

(** A card with read access to [src], for the examples. *)
Definition example_card : AgentCardConfig :=
  let rt := Runtime.mkRuntime "" "" "" "" "" "" "claude" ["--model=opus"] ∅ "120s" "" in
  let lc := LifecycleConfig.mkLifecycleConfig (LifecycleConfig.mkInitConfig false "" "" "") (LifecycleConfig.mkFinalConfig false "" "" "") in
  mkCard "a" "" "" None [] (mkClaude "" 5) rt (mkNetwork "127.0.0.1" "" true) (mkFilesystem true false true ["src"])
    (mkPool 0 "" "" "" 0 None "") false ∅ lc.
Definition example_lifecycle : ResolvedLifecycle := mkResolved (mkResolvedInit false 0 "" "") (mkResolvedFinal true (300 * Second) (100 * Second) "") "".
Definition example_main : SessionConfig + string :=
  main_config (λ _, inl (120 * Second)%Z) ∅ map_to_list [] "/tmp" (λ _, inl "{}") None None example_card example_lifecycle "/w" "".

Lemma agent_confined_witness :
  ∃ s, example_main = inl s ∧ sc_WriteAccess s = false ∧ sc_NetworkAccess s = false ∧ (120 * Second <= sc_Timeout s)%Z ∧
  ∃ own, sc_Args s = ["--model=opus"] ++ own ∧ filter (has_prefix "--allowedTools=") own = ["--allowedTools=Read,LS,Glob,Grep,Bash"].
Proof.
  destruct example_main as [s |] eqn:E; [| vm_compute in E; discriminate]. exists s. split; [reflexivity |].
  destruct (agent_confined _ _ _ _ _ _ _ _ _ _ _ _ _ E) as (own & A & T & _ & _ & _ & _ & W & N & _ & t & P & D).
  split; [exact W |]. split; [rewrite N, W; reflexivity |]. split.
  - destruct D as [D _]. vm_compute in P. injection P as <-. exact D.
  - exists own. split; [exact A | exact T].
Defined.

Lemma preflight_granted_witness :
  let links p := if is_rooted p then inl (Clean p) else inr "relative" in
  ∃ s d q r, example_main = inl s ∧ ("--add-dir=" +:+ d) ∈ sc_Args s ∧ canonicalFilesystemPath (inl "/") links "/w" "src/../src/a.go" = inl q ∧
    canonicalFilesystemPath (inl "/") links "/w" d = inl r ∧ inside r q.
Proof.
  intros links. destruct example_main as [s |] eqn:E; [| vm_compute in E; discriminate]. exists s.
  destruct (preflight_granted (λ _, inl (120 * Second)%Z) ∅ map_to_list [] "/tmp" (λ _, inl "{}") None None (inl "/") links
    example_card example_lifecycle "/w" "" s "src/../src/a.go" ltac:(by vm_compute) ltac:(by vm_compute) E ltac:(by vm_compute)) as (d & q & r & ?).
  - split; [discriminate |]. exists "/w/src/a.go", "src", "/w/src". split_and!; [reflexivity | split; [set_solver | reflexivity] |]. by exists ["a.go"].
  - exists d, q, r. by split.
Defined.

(** The filters of a session see the runtime arguments and the process's own in one
    list: a flag whose value is missing takes the first of the latter with it. *)
Lemma dangling_flag_swallows :
  ("--strict-mcp-config" ∈ transport_args ["--strict-mcp-config"] "") ∧
  ("--strict-mcp-config" ∉ transport_args (["--permission-mode"] ++ ["--strict-mcp-config"]) "").
Proof. split; vm_compute; set_solver. Qed.

(** A list of allowed tools among the runtime arguments reaches the process. *)
Lemma runtime_tools_survive : "--allowedTools=Bash" ∈ transport_args ["--allowedTools=Bash"; "--allowedTools=Read,LS,Glob,Grep"] "".
Proof. vm_compute. set_solver. Qed.

(** ** The registry monitor *)

(** The checks from [j] to [n] failed, the first and the last of them [grace] apart. *)
Definition outage (grace : duration) (checks : list (option Z * time)) (j n : nat) : Prop :=
  j ≤ n ∧ (∀ k, j ≤ k ≤ n → ∃ status now, checks !! k = Some (status, now) ∧ registryReachable status = false) ∧
  ∃ s t s' t', checks !! j = Some (s, t) ∧ checks !! n = Some (s', t') ∧ (grace ≤ Sub t' t)%Z.

Lemma outage_cons grace c checks j n : outage grace checks j n ↔ outage grace (c :: checks) (S j) (S n).
Proof.
  unfold outage. cbn. split; intros (L & F & G); (split; [lia | split; [| done]]); intros k Hk.
  - destruct k; [lia |]. apply F. lia.
  - apply (F (S k)). lia.
Qed.

(** The failures since [first] count, when there is one. *)
Lemma monitor_loop_spec grace first checks n :
  (0 < grace)%Z → Forall (λ c : option Z * time, IsZero c.2 = false) checks → monitor_loop grace first checks = Some n →
  (∃ j, outage grace checks j n) ∨
  (IsZero first = false ∧ (∀ k, k ≤ n → ∃ status now, checks !! k = Some (status, now) ∧ registryReachable status = false) ∧
   ∃ s t, checks !! n = Some (s, t) ∧ (grace ≤ Sub t first)%Z).
Proof.
  intros G. revert first n. induction checks as [| [status now] checks IH]; intros first n Z; [done |].
  apply Forall_cons in Z as [Zn Z]. cbn [monitor_loop]. destruct (registryReachable status) eqn:R.
  - intros (m & M & ->)%fmap_Some. destruct (IH _ _ Z M) as [[j O] | [? _]]; [| done]. left. exists (S j). by apply outage_cons.
  - set (f := if IsZero first then now else first). destruct (grace <=? Sub now f)%Z eqn:L.
    + intros [= <-]. apply Z.leb_le in L. unfold f in L. destruct (IsZero first) eqn:Zf.
      * left. exists 0. split; [lia |]. split; [intros k Hk; assert (k = 0) as -> by lia; by exists status, now |]. by exists status, now, status, now.
      * right. split; [done |]. split; [| by exists status, now]. intros k Hk. assert (k = 0) as -> by lia. by exists status, now.
    + intros (m & M & ->)%fmap_Some. destruct (IH _ _ Z M) as [[j O] | (Zf & F & s & t & T & D)]; [left; exists (S j); by apply outage_cons |].
      unfold f in D, Zf. destruct (IsZero first) eqn:Zf'.
      * left. exists 0. split; [lia |]. split; [intros [| k] Hk; [by exists status, now | apply F; lia] |]. by exists status, now, s, t.
      * right. split; [done |]. split; [intros [| k] Hk; [by exists status, now | apply F; lia] | by exists s, t].
Qed.

Lemma monitor_loop_complete grace first checks n :
  (∀ k, k ≤ n → ∃ status now, checks !! k = Some (status, now) ∧ registryReachable status = false) → IsZero first = false →
  (∃ s t, checks !! n = Some (s, t) ∧ (grace ≤ Sub t first)%Z) → ∃ m, m ≤ n ∧ monitor_loop grace first checks = Some m.
Proof.
  revert first n. induction checks as [| [status now] checks IH]; intros first n F Z (s & t & T & D); [by rewrite lookup_nil in T |].
  cbn [monitor_loop]. destruct (F 0) as (? & ? & [= <- <-] & ->); [lia |]. rewrite Z. destruct (grace <=? Sub now first)%Z eqn:L; [exists 0; split; [lia | done] |].
  destruct n as [| n]; [simplify_eq/=; apply Z.leb_gt in L; lia |].
  destruct (IH first n) as (m & Hm & ->); [intros k Hk; apply (F (S k)); lia | done | by exists s, t |]. exists (S m). split; [lia | done].
Qed.

(** A later start only shortens an outage, so the first failure decides. *)
Lemma monitor_loop_any grace first checks j n :
  (0 < grace)%Z → Forall (λ c : option Z * time, IsZero c.2 = false) checks →
  (∀ i s t, checks !! i = Some (s, t) → IsZero first = true ∨ (first ≤ t)%Z) →
  (∀ i k s t s' t', i ≤ k → checks !! i = Some (s, t) → checks !! k = Some (s', t') → (t ≤ t')%Z) →
  outage grace checks j n → ∃ m, m ≤ n ∧ monitor_loop grace first checks = Some m.
Proof.
  intros G. revert first j n. induction checks as [| [status now] checks IH]; intros first j n Z Le Mono (L & F & s & t & s' & t' & Tj & Tn & D); [by rewrite lookup_nil in Tj |].
  apply Forall_cons in Z as [Zn Z].
  assert (M' : ∀ i k s t s' t', i ≤ k → checks !! i = Some (s, t) → checks !! k = Some (s', t') → (t ≤ t')%Z).
  { intros i k ? ? ? ? ? Hi Hk. eapply (Mono (S i) (S k)); [lia | exact Hi | exact Hk]. }
  destruct j as [| j].
  - destruct (decide (IsZero first = true)) as [E | E].
    + cbn [monitor_loop]. destruct (F 0) as (? & ? & [= <- <-] & ->); [lia |]. rewrite E. injection Tj as <- <-.
      destruct (grace <=? Sub now now)%Z eqn:L0; [exists 0; split; [lia | done] |].
      destruct n as [| n]; [simplify_eq/=; apply Z.leb_gt in L0; lia |].
      destruct (monitor_loop_complete grace now checks n) as (m & Hm & ->); [intros k Hk; apply (F (S k)); lia | done | by exists s', t' |].
      exists (S m). split; [lia | done].
    + apply not_true_iff_false in E. apply (monitor_loop_complete grace first ((status, now) :: checks) n); [intros k Hk; apply F; lia | done |].
      exists s', t'. split; [done |]. destruct (Le 0 s t Tj) as [| Le']; [congruence |]. etrans; [exact D |]. unfold Sub. lia.
  - destruct n as [| n]; [lia |].
    assert (O : outage grace checks j n) by (apply (outage_cons grace (status, now)); split; [done | split; [exact F | by exists s, t, s', t']]).
    cbn [monitor_loop]. destruct (registryReachable status).
    + destruct (IH zero_time j n Z) as (m & Hm & ->); [intros; by left | exact M' | exact O |]. exists (S m). split; [lia | done].
    + set (f := if IsZero first then now else first). destruct (grace <=? Sub now f)%Z; [exists 0; split; [lia | done] |].
      destruct (IH f j n Z) as (m & Hm & ->); [| exact M' | exact O | exists (S m); split; [lia | done]].
      intros i x y Hi. right. unfold f. destruct (IsZero first) eqn:E.
      * by eapply (Mono 0 (S i)); [lia | reflexivity | exact Hi].
      * destruct (Le (S i) x y Hi); [congruence | done].
Qed.

(** An agent outlives its registry by no more than the grace, and one that is
    reached in time is left alone. On any sequence of checks, at times that do not
    run backwards, the monitor shuts the agent down exactly when some failures
    without a success between them span the grace, and it does so at the first check
    that completes such an outage. *)
Lemma monitor_fires_on_outage grace checks :
  (0 < grace)%Z → Forall (λ c : option Z * time, IsZero c.2 = false) checks →
  (∀ i k s t s' t', i ≤ k → checks !! i = Some (s, t) → checks !! k = Some (s', t') → (t ≤ t')%Z) →
  ∀ n, monitor_loop grace zero_time checks = Some n ↔
    (∃ j, outage grace checks j n) ∧ ∀ m, m < n → ¬ ∃ j, outage grace checks j m.
Proof.
  intros G Z Mono n.
  assert (Sound : ∀ m, monitor_loop grace zero_time checks = Some m → ∃ j, outage grace checks j m).
  { intros m M. by destruct (monitor_loop_spec grace zero_time checks m G Z M) as [| [? _]]. }
  assert (Complete : ∀ m j, outage grace checks j m → ∃ k, k ≤ m ∧ monitor_loop grace zero_time checks = Some k).
  { intros m j O. eapply monitor_loop_any; [done | done | by left | done | exact O]. }
  split.
  - intros M. split; [by apply Sound |]. intros m L [j O]. destruct (Complete m j O) as (k & Hk & M'). rewrite M in M'. simplify_eq. lia.
  - intros [[j O] First]. destruct (Complete n j O) as (k & Hk & M). destruct (decide (k = n)) as [-> | N]; [done |].
    destruct (First k); [lia | by apply Sound].
Qed.

Lemma monitor_fires_on_outage_witness :
  monitor_loop 30 zero_time [(Some 200%Z, 10%Z); (None, 20%Z); (Some 503%Z, 40%Z); (None, 50%Z); (None, 60%Z)] = Some 3 ∧
  ¬ ∃ j, outage 30 [(Some 200%Z, 10%Z); (None, 20%Z); (Some 503%Z, 40%Z); (None, 50%Z); (None, 60%Z)] j 2.
Proof.
  split; [reflexivity |].
  assert (M : ∀ i k s t s' t', i ≤ k → [(Some 200%Z, 10%Z); (None, 20%Z); (Some 503%Z, 40%Z); (None, 50%Z); (None, 60%Z)] !! i = Some (s, t) →
    [(Some 200%Z, 10%Z); (None, 20%Z); (Some 503%Z, 40%Z); (None, 50%Z); (None, 60%Z)] !! k = Some (s', t') → (t ≤ t')%Z).
  { intros i k s t s' t' L Hi Hk.
    destruct i as [| [| [| [| [| i]]]]]; cbn in Hi; try done; injection Hi as <- <-;
      (destruct k as [| [| [| [| [| k]]]]]; cbn in Hk; try done; injection Hk as <- <-; lia). }
  pose proof (proj1 (monitor_fires_on_outage 30 [(Some 200%Z, 10%Z); (None, 20%Z); (Some 503%Z, 40%Z); (None, 50%Z); (None, 60%Z)]
    ltac:(lia) ltac:(by repeat constructor) M 3) eq_refl) as [_ F]. apply (F 2). lia.
Defined.

(** ** Bounds *)

Lemma i64_mul x y : i64 (i64 x * y) = i64 (x * y).
Proof.
  unfold i64 at 2. set (q := ((x + 2 ^ 63) / 2 ^ 64)%Z).
  assert (((x + 2 ^ 63) mod 2 ^ 64) = x + 2 ^ 63 - q * 2 ^ 64)%Z as -> by (unfold q; pose proof (Z.div_mod (x + 2 ^ 63) (2 ^ 64)); lia).
  unfold i64. f_equal. replace ((x + 2 ^ 63 - q * 2 ^ 64 - 2 ^ 63) * y + 2 ^ 63)%Z with (x * y + 2 ^ 63 + (- q * y) * 2 ^ 64)%Z by lia.
  by apply Z.mod_add.
Qed.

(** A number of days is exact up to 106751 and wraps after that: a retention of 106752
    days is a negative one. *)
Lemma pool_days_bounds ParseDuration err s days :
  Atoi s = Some days → (0 ≤ days)%Z →
  parsePoolDuration ParseDuration err (s +:+ "d") = inl (i64 (days * Day)) ∧ ((days ≤ 106751)%Z → i64 (days * Day) = (days * Day)%Z).
Proof.
  intros A P. split.
  - unfold parsePoolDuration. rewrite string_rev_app. change (String.rev "d") with "d". rewrite strip_prefix_app, bool_decide_eq_true_2 by done.
    rewrite TrimSuffix_app, A, i64_mul. do 2 f_equal. unfold Day. lia.
  - intros L. apply i64_small. unfold min_int64, max_int64, Day, Hour, Minute, Second, Millisecond, Nanosecond. lia.
Qed.

Lemma pool_days_wrap : parsePoolDuration (λ _, inr "") id "106752d" = inl (-9223371273709551616)%Z.
Proof. by vm_compute. Qed.

(** The environment of a process has exactly one entry of a variable that was added,
    and every other entry as it was. *)
Lemma mergeEnv_spec visit base extra k :
  visits visit → Index k "=" = None → (∀ k', is_Some (extra !! k') → Index k' "=" = None) →
  filter (λ item, env_key item = Some k) (mergeEnv visit base extra) =
    match extra !! k with
    | Some v => [k +:+ "=" +:+ v]
    | None => filter (λ item, env_key item = Some k) base
    end.
Proof.
  intros V Nk Ne.
  assert (K : ∀ x y, Index x "=" = None → env_key (x +:+ "=" +:+ y) = Some x).
  { intros x y. unfold env_key. intros E. induction x as [| c x IH]; [done |].
    rewrite string_app_cons. cbn [Index] in *. destruct (strip_prefix "=" (String c x)) eqn:Sx; [done |].
    assert (strip_prefix "=" (String c (x +:+ "=" +:+ y)) = None) as ->.
    { change (strip_prefix "=" (String c ?z)) with (if ascii_dec "=" c then Some z else None) in *. by destruct (ascii_dec "=" c). }
    destruct (Index x "="); [done |]. specialize (IH eq_refl). destruct (Index (x +:+ "=" +:+ y) "="); [| done]. injection IH as IH. cbn. by rewrite IH. }
  unfold mergeEnv. rewrite filter_app, list_filter_filter.
  assert (X : filter (λ item, env_key item = Some k) ((λ kv : string * string, kv.1 +:+ "=" +:+ kv.2) <$> visit extra) =
    match extra !! k with Some v => [k +:+ "=" +:+ v] | None => [] end).
  { rewrite list_filter_fmap. rewrite (list_filter_ext _ (λ kv : string * string, kv.1 = k)).
    2: { intros [k' v'] I. cbn. apply (visits_elem visit) in I; [| done]. rewrite K by (apply Ne; by eexists). naive_solver. }
    pose proof (visits_NoDup visit extra V) as D. destruct (extra !! k) as [v |] eqn:E.
    - apply (visits_elem visit _ _ _ V) in E. apply list_elem_of_split in E as (l1 & l2 & E). rewrite E in *.
      rewrite fmap_app, fmap_cons in D. apply NoDup_app in D as (_ & D1 & [D2 _]%NoDup_cons).
      rewrite filter_app, filter_cons_True by done. rewrite !filter_none; [done | |].
      + apply Forall_forall. intros [k' v'] I. cbn. intros ->. apply D2. apply list_elem_of_fmap. by exists (k, v').
      + apply Forall_forall. intros [k' v'] I. cbn. intros ->. apply (D1 k); [apply list_elem_of_fmap; by exists (k, v') | apply list_elem_of_here].
    - rewrite filter_none; [done |]. apply Forall_forall. intros [k' v'] I. cbn. intros ->. apply (visits_elem visit) in I; [congruence | done]. }
  rewrite X. destruct (extra !! k) as [v |] eqn:E.
  - rewrite filter_none; [done |]. apply Forall_forall. intros item _ [E1 E2]. rewrite E1 in E2. cbn in E2. apply bool_decide_eq_true in E2. congruence.
  - rewrite app_nil_r. apply list_filter_ext. intros item _. split; [tauto |]. intros E1. split; [done |]. rewrite E1. cbn. by apply bool_decide_eq_true.
Qed.
