(* ===== verification/SchedulerFiles.v ===== *)
(** * The files of the scheduler ([scheduler/config.go], [admintoken.go], [archived.go])

    Where the scheduler keeps its state beside [ahsir.yaml], the timeouts and checks
    of the configuration, the admin token, and the read-only view of the agents
    that have gone but left their transcripts. YAML, random bytes and the file
    system answer through arguments. *)
From S2P Require Import Prelude GoBase GoStrings InstancePool AgentLifecycle Transcript Paths Card Supervisor.
From Stdlib Require Import ZArith Lia Ascii.
Import InstanceName.

(** ** The configuration *)

Record TimeoutsConfig := mkTimeouts { to_Chat : string; to_TaskStatus : string }.
Record RegistryConfig := mkRegistry { rg_Host : string; rg_Port : Z; rg_HeartbeatInterval : string; rg_HeartbeatTimeout : string }.

(** What [ahsir.yaml] holds. *)
Record ConfigFile := mkConfigFile {
  cfg_Agents : list AgentConfig; cfg_Registry : RegistryConfig; cfg_PortRange : PortRange; cfg_Timeouts : TimeoutsConfig;
}.
Record Config := mkConfig_ { cfg_file : ConfigFile; cfg_nextPort : Z; cfg_path : string }.

Definition defaultChatTimeout : duration := (10 * Minute)%Z.
Definition defaultTaskStatusTimeout : duration := (30 * Second)%Z.

Section timeouts.
Context (ParseDuration : string → duration + string).

Definition parsed_or (default : duration) (s : string) : duration :=
  if nonempty s then match ParseDuration s with inl d => d | inr _ => default end else default.

Definition ChatTimeout (t : TimeoutsConfig) : duration := parsed_or defaultChatTimeout (to_Chat t).
Definition TaskStatusTimeout (t : TimeoutsConfig) : duration := parsed_or defaultTaskStatusTimeout (to_TaskStatus t).
End timeouts.

(** [PortRange.validate] *)
Definition validate_range (p : PortRange) : option string :=
  if (Start p <=? 0)%Z then Some ("invalid port_range: start " +:+ fmt_d (Start p) +:+ " must be a positive port number")
  else if (65535 <? End_ p)%Z then Some ("invalid port_range: end " +:+ fmt_d (End_ p) +:+ " exceeds the maximum port number 65535")
  else if (End_ p <? Start p)%Z then Some ("invalid port_range: start " +:+ fmt_d (Start p) +:+ " is greater than end " +:+ fmt_d (End_ p))
  else None.

Definition default_config : ConfigFile :=
  mkConfigFile [] (mkRegistry "127.0.0.1" 9800 "10s" "30s") (mkRange 9802 9900) (mkTimeouts "" "").

(** [LoadConfig]; [decode] lays a document over the defaults. *)
Definition LoadConfig (Getwd : string + string) (decode : string → ConfigFile → ConfigFile + string) (path : string) (f : Card.file) : Config + string :=
  match f with
  | Missing msg | Unreadable msg => inr ("read config: " +:+ msg)
  | Content data =>
      match decode data default_config with
      | inr err => inr ("parse config: " +:+ err)
      | inl c =>
          match validate_range (cfg_PortRange c) with
          | Some err => inr err
          | None =>
              inl (mkConfig_ c (Start (cfg_PortRange c))
                     (if IsAbs path then Clean path else match Getwd with inl cwd => JoinPath cwd path | inr _ => path end))
          end
      end
  end.

(** A place in [.ahsir] beside the file; nothing without a file. *)
Definition state_path (path sub : string) : string :=
  if nonempty path then JoinPath (JoinPath (Dir path) ".ahsir") sub else "".

Definition InvocationLedgerPath (c : option Config) : string := if c is Some c then state_path (cfg_path c) "ledger.jsonl" else "".
Definition RoomsDir (c : option Config) : string := if c is Some c then state_path (cfg_path c) "rooms" else "".
Definition ManagedAgentsDir (c : option Config) : string := if c is Some c then state_path (cfg_path c) "agents" else "".
Definition ManagedAgentWorkspace (c : option Config) (name : string) : string :=
  let dir := ManagedAgentsDir c in if nonempty dir then JoinPath dir name else "".

(** ** The admin token *)

Definition AdminTokenPath (configPath : string) : string := JoinPath (Dir configPath) "admin-token".

Definition hex_digit (n : Z) : ascii := ascii_of_nat (Z.to_nat (if (n <? 10)%Z then 48 + n else 87 + n)).

(** [hex.EncodeToString] of bytes. *)
Fixpoint EncodeToString (bs : list Z) : string :=
  match bs with
  | [] => ""
  | b :: bs => String (hex_digit (Z.shiftr b 4)) (String (hex_digit (Z.land b 15)) (EncodeToString bs))
  end.

(** [newInternalToken] of what the random source gives. *)
Definition newInternalToken (rand : list Z + string) : string + string :=
  match rand with inl bs => inl (EncodeToString bs) | inr err => inr err end.

Definition sourceEnv : string := "env".
Definition sourceFile : string := "file".
Definition sourceGenerated : string := "file (generated)".

Definition token_in (f : Card.file) : string := if f is Content data then TrimSpace data else "".

(** [LoadOrCreateAdminToken]: the file afterwards, and the token with its source or
    the error. [env] is the variable; [mkdir] and [write] are the errors of
    creating the directory and the file. *)
Definition LoadOrCreateAdminToken (configPath env : string) (rand : list Z + string) (mkdir write : option string) (f : Card.file)
    : Card.file * (string * string + string) :=
  let path := AdminTokenPath configPath in
  if nonempty (TrimSpace env) then (f, inl (TrimSpace env, sourceEnv))
  else if nonempty (token_in f) then (f, inl (token_in f, sourceFile))
  else if f is Unreadable err then (f, inr ("read admin token " +:+ path +:+ ": " +:+ err))
  else match newInternalToken rand with
  | inr err => (f, inr ("generate admin token: " +:+ err))
  | inl tok =>
      match mkdir with
      | Some err => (f, inr ("create config dir for admin token: " +:+ err))
      | None =>
          match write with
          | Some err => (f, inr ("write admin token " +:+ path +:+ ": " +:+ err))
          | None => (Content (tok +:+ nl), inl (tok, sourceGenerated))
          end
      end
  end.

(** [loadAdminToken]: the token and the source that the scheduler keeps. *)
Definition loadAdminToken (c : option Config) (env : string) (rand : list Z + string) (mkdir write : option string) (f : Card.file)
    : Card.file * (string * string + string) :=
  if nonempty (TrimSpace env) then (f, inl (TrimSpace env, sourceEnv))
  else match c with
  | Some c => if nonempty (cfg_path c) then LoadOrCreateAdminToken (cfg_path c) env rand mkdir write f else (f, inl ("", "disabled (no config path)"))
  | None => (f, inl ("", "disabled (no config path)"))
  end.

Definition ReadAdminToken (env : string) (f : Card.file) : string * string :=
  if nonempty (TrimSpace env) then (TrimSpace env, sourceEnv)
  else if nonempty (token_in f) then (token_in f, sourceFile) else ("", "").

(** ** Archived agents *)

Record ArchivedContext := mkArchivedContext {
  ar_ContextID : string; ar_Title : string; ar_Turns : nat; ar_LastActivity : string; ar_LastStatus : string;
}.
Record ArchivedAgent := mkArchived { ar_Name : string; ar_Contexts : list ArchivedContext }.

Definition ContainsAny (s : string) (chars : list ascii) : bool := negb (all_bytes (λ c, negb (bool_decide (c ∈ chars))) s).

Definition backslash : ascii := "092".

Definition safeManagedName (name : string) : bool :=
  if negb (nonempty name) || bool_decide (name = ".") || bool_decide (name = "..") then false
  else if ContainsAny name ["/"%char; backslash] || Contains name ".." then false
  else bool_decide (Base name = name).

(** What listing a directory answers: its entries and which are directories. *)
Inductive dir_listing := D_Missing | D_Error (msg : string) | D_Entries (es : list (string * bool)).

Definition by_agent (a b : ArchivedAgent) : Prop := String.le (ar_Name a) (ar_Name b).
#[export] Instance by_agent_dec a b : Decision (by_agent a b).
Proof. unfold by_agent. apply _. Defined.
#[export] Instance by_agent_total : Total by_agent.
Proof. intros a b. unfold by_agent. apply String.le_total. Qed.

Section archived.
Context `{UnicodeTables} (transcriptFileName : string → string) (decode : string → option TranscriptTurn) (RFC3339 : time → string).
(** The registry's names, the transcripts in the workspace at a path, and the order
    in which the index of one is visited. *)
Context (registered : string → bool) (store : string → TranscriptStore) (order : string → list string).

Definition isArchivable (s : Sched) (name : string) : bool :=
  bool_decide (desired s !! name = None) && negb (registered name).

Definition archived_context (c : ContextSummary) : ArchivedContext :=
  mkArchivedContext (cs_ContextID c) (cs_Title c) (cs_Turns c) (RFC3339 (cs_LastActivity c)) (cs_LastStatus c).

(** What one entry adds. *)
Definition archived_entry (s : Sched) (dir : string) (now : time) (e : string * bool) : option ArchivedAgent :=
  let '(name, isDir) := e in
  if negb isDir || negb (safeManagedName name) || negb (isArchivable s name) then None
  else
    let workspace := JoinPath dir name in
    match ListContexts transcriptFileName decode now (order workspace) (store workspace) with
    | None | Some [] => None
    | Some l => Some (mkArchived name (archived_context <$> l))
    end.

Definition ArchivedAgents (s : Sched) (c : option Config) (now : time) (listing : string → dir_listing) : list ArchivedAgent + string :=
  let dir := ManagedAgentsDir c in
  if nonempty dir then
    match listing dir with
    | D_Missing => inl []
    | D_Error msg => inr ("read managed agents dir: " +:+ msg)
    | D_Entries es => inl (merge_sort by_agent (omap (archived_entry s dir now) es))
    end
  else inl [].

(** [managedAgentHistory]; [isdir] says whether a path is a directory. *)
Definition managedAgentHistory (c : option Config) (isdir : string → bool) (now : time) (name contextID : string) : list TranscriptTurn + string :=
  let dir := ManagedAgentsDir c in
  if negb (nonempty dir) then inr "no managed workspace directory"
  else if negb (safeManagedName name) then inr ("invalid agent name " +:+ fmt_q name)
  else
    let workspace := JoinPath dir name in
    if negb (isdir workspace) then inr ("archived agent " +:+ fmt_q name +:+ " not found")
    else match Read transcriptFileName decode contextID (store workspace) with
    | (_, true) => inr "read archived transcript: token too long"
    | (turns, false) =>
        match last turns with
        | None => inr ("no transcript for context " +:+ fmt_q contextID +:+ " of agent " +:+ fmt_q name)
        | Some l =>
            if TranscriptExpired (t_TS l) now
            then inr ("transcript for context " +:+ fmt_q contextID +:+ " of agent " +:+ fmt_q name +:+ " is past retention")
            else inl turns
        end
    end.

Definition ArchivedAgentHistory := managedAgentHistory.
End archived.
