(* ===== verification/SchedulerFilesLaws.v ===== *)
(** * Laws of the files of the scheduler

    The scheduler and the command line agree on the admin token; the archive shows
    exactly the agents that are offline, from directories directly below its own,
    and everything it lists can be opened. *)
From S2P Require Import Prelude GoBase GoStrings InstancePool AgentLifecycle Transcript TranscriptLaws Paths Card Supervisor SchedulerFiles.
From Stdlib Require Import ZArith Lia Ascii.
Import InstanceName.

(** ** Tokens *)

(** A printable ASCII character that is not a space. *)
Definition graphic (c : ascii) : bool := in_range 33 126 c.

Lemma graphic_bytes c : graphic c = true → (33 ≤ byte_of c ≤ 126)%Z.
Proof. unfold graphic, in_range. intros [?%Z.leb_le ?%Z.leb_le]%andb_true_iff. lia. Qed.

Lemma is_byte_no z c : graphic c = true → (z < 33 ∨ 126 < z)%Z → is_byte z c = false.
Proof. intros H%graphic_bytes N. unfold is_byte. apply Z.eqb_neq. lia. Qed.

Lemma in_range_no lo hi c : graphic c = true → (hi < 33 ∨ 126 < lo)%Z → in_range lo hi c = false.
Proof. intros H%graphic_bytes N. unfold in_range. apply andb_false_iff. rewrite !Z.leb_gt. lia. Qed.

Lemma space_width_graphic c s : graphic c = true → space_width (String c s) = 0.
Proof.
  intros G. unfold space_width. rewrite in_range_no, !is_byte_no by (done || lia). cbn [orb andb]. destruct s as [| b [| d s]]; try done.
Qed.

Lemma rev_space_width_graphic c s : graphic c = true → rev_space_width (String c s) = 0.
Proof.
  intros G. unfold rev_space_width. rewrite in_range_no, is_byte_no by (done || lia). cbn [orb]. destruct s as [| b s]; [done |].
  assert (E2 : Nat.eqb (space_width (String b (String c ""))) 2 = false).
  { unfold space_width. rewrite !(is_byte_no _ c) by (done || lia). destruct (_ || _); [done |]. by rewrite andb_false_r. }
  rewrite E2. destruct s as [| d s]; [done |].
  assert (E3 : Nat.eqb (space_width (String d (String b (String c "")))) 3 = false).
  { unfold space_width. rewrite !(is_byte_no _ c), !(in_range_no _ _ c) by (done || lia). destruct (_ || _); [done |]. destruct (is_byte 194 d && _); [done |].
    by rewrite !andb_false_r. }
  by rewrite E3.
Qed.

Lemma all_bytes_rev P s : all_bytes P (String.rev s) = all_bytes P s.
Proof.
  induction s as [| c s IH]; [done |]. change (String c s) with (String c "" +:+ s). rewrite string_rev_app, !all_bytes_app, IH. apply andb_comm.
Qed.

(** A line of printable characters loses its newline and nothing else. *)
Lemma TrimSpace_line s : all_bytes graphic s = true → TrimSpace (s +:+ nl) = s.
Proof.
  intros G. destruct s as [| c s]; [done |]. rewrite string_app_cons. unfold TrimSpace. cbn [all_bytes] in G.
  apply andb_true_iff in G as [Gc Gs]. cbn [trim_front]. rewrite space_width_graphic by done.
  change (String c (s +:+ nl)) with (String c s +:+ nl). rewrite string_rev_app. change (String.rev nl) with (String "010" "").
  rewrite string_app_cons. cbn [trim_front rev_space_width]. change (in_range 9 13 "010" || is_byte 32 "010") with true. cbv iota.
  change ("" +:+ String.rev (String c s)) with (String.rev (String c s)).
  assert (R : all_bytes graphic (String.rev (String c s)) = true) by (rewrite all_bytes_rev; cbn [all_bytes]; by rewrite Gc).
  destruct (String.rev (String c s)) as [| d r] eqn:E.
  - cbn [trim_front]. rewrite <- (string_rev_rev (String c s)), E. done.
  - cbn [trim_front]. rewrite rev_space_width_graphic by (cbn [all_bytes] in R; by apply andb_true_iff in R as []).
    rewrite <- (string_rev_rev (String c s)). by rewrite E.
Qed.

Definition is_octet (b : Z) : Prop := (0 ≤ b < 256)%Z.

Lemma hex_digit_graphic n : (0 ≤ n < 16)%Z → graphic (hex_digit n) = true.
Proof. intros H. assert (n ∈ seqZ 0 16) as I by (apply elem_of_seqZ; lia). vm_compute in I. set_unfold. repeat (destruct I as [-> | I]; [done |]). done. Qed.

Lemma EncodeToString_graphic bs : Forall is_octet bs → all_bytes graphic (EncodeToString bs) = true.
Proof.
  induction 1 as [| b bs B _ IH]; [done |]. cbn [EncodeToString all_bytes]. unfold is_octet in B.
  rewrite !hex_digit_graphic, IH; [done | |].
  - change 15%Z with (Z.ones 4). rewrite Z.land_ones by lia. apply Z.mod_pos_bound. lia.
  - rewrite Z.shiftr_div_pow2 by lia. change (2 ^ 4)%Z with 16%Z. split; [apply Z.div_pos; lia | apply Z.div_lt_upper_bound; lia].
Qed.

(** The scheduler and its clients hold the same admin token. Whenever the token is
    resolved it is not empty, a client that reads the same variable and file finds it,
    and resolving it again, with any other random bytes, gives it again without
    touching the file. The file is written only when there is no variable and no token
    in a readable file: a token is never replaced, and after an error nothing has
    changed. *)
Lemma admin_token_agreed path env rand mkdir write f f' res :
  (∀ bs, rand = inl bs → bs ≠ [] ∧ Forall is_octet bs) →
  LoadOrCreateAdminToken path env rand mkdir write f = (f', res) →
  match res with
  | inr _ => f' = f
  | inl (tok, src) =>
      tok ≠ "" ∧ (ReadAdminToken env f').1 = tok ∧
      (∀ rand' mkdir' write', ∃ src', LoadOrCreateAdminToken path env rand' mkdir' write' f' = (f', inl (tok, src'))) ∧
      (f' ≠ f → TrimSpace env = "" ∧ token_in f = "" ∧ (∀ e, f ≠ Unreadable e) ∧ src = sourceGenerated)
  end.
Proof.
  intros Rand. unfold LoadOrCreateAdminToken, ReadAdminToken.
  destruct (TrimSpace env) as [| a e] eqn:Env; cbn [nonempty]; [| intros [= <- <-]; split_and!; [done | done | by eexists | done]].
  destruct (token_in f) as [| b t] eqn:File; cbn [nonempty].
  2: { intros [= <- <-]. rewrite File. split_and!; [done | done | by eexists | done]. }
  destruct (if f is Unreadable err then Some err else None) as [err |] eqn:U; [destruct f; try done; by intros [= <- <-] |].
  assert (N : ∀ err, f ≠ Unreadable err) by (intros err ->; done).
  replace (match f with Unreadable err => _ | _ => _ end) with
    (match newInternalToken rand with
     | inr err => (f, inr ("generate admin token: " +:+ err))
     | inl tok =>
         match mkdir with
         | Some err => (f, inr ("create config dir for admin token: " +:+ err))
         | None =>
             match write with
             | Some err => (f, inr ("write admin token " +:+ AdminTokenPath path +:+ ": " +:+ err))
             | None => (Content (tok +:+ nl), inl (tok, sourceGenerated))
             end
         end
     end) by by destruct f.
  unfold newInternalToken. destruct rand as [bs | err]; [| by intros [= <- <-]].
  destruct mkdir; [by intros [= <- <-] |]. destruct write; [by intros [= <- <-] |]. intros [= <- <-].
  destruct (Rand bs eq_refl) as [Ne Oct].
  assert (T : token_in (Content (EncodeToString bs +:+ nl)) = EncodeToString bs) by by apply TrimSpace_line, EncodeToString_graphic.
  assert (nonempty (EncodeToString bs) = true) as Ne' by by destruct bs.
  rewrite T, Ne'. split_and!; [by intros E; rewrite E in Ne' | done | by eexists | done].
Qed.

Lemma admin_token_agreed_witness :
  let r := LoadOrCreateAdminToken "/etc/ahsir/ahsir.yaml" " " (inl [171; 7]%Z) None None (Content " ") in
  r.2 = inl ("ab07", sourceGenerated) ∧ (ReadAdminToken "" r.1).1 = "ab07" ∧ (ReadAdminToken "" (Content " ")).1 = "".
Proof.
  split; [reflexivity |]. split; [| reflexivity].
  pose proof (admin_token_agreed "/etc/ahsir/ahsir.yaml" " " (inl [171; 7]%Z) None None (Content " ") _ _
    ltac:(intros bs [= <-]; split; [discriminate | by repeat constructor]) eq_refl) as A. exact (proj1 (proj2 A)).
Defined.

(** ** Names below the directory of managed agents *)

Lemma no_slash_bytes c s : cut_last c s = None ↔ all_bytes (λ x, negb (bool_decide (x ∈ [c]))) s = true.
Proof.
  induction s as [| a s IH]; [done |]. rewrite cut_last_cons. cbn [all_bytes]. rewrite andb_true_iff, <- IH, negb_true_iff, bool_decide_eq_false.
  by rewrite list_elem_of_singleton.
Qed.

Lemma Base_plain name : plain name → Base name = name.
Proof.
  intros (H1 & _ & _ & H4). unfold Base. rewrite decide_False by done. rewrite split_slash_one by done. by rewrite filter_cons_True.
Qed.

(** The names that pass: a component of a path, without a backslash or two dots. *)
Lemma safeManagedName_spec name :
  safeManagedName name = true ↔ plain name ∧ cut_last backslash name = None ∧ Contains name ".." = false.
Proof.
  assert (A : ContainsAny name ["/"%char; backslash] = false ↔ cut_last "/" name = None ∧ cut_last backslash name = None).
  { unfold ContainsAny. rewrite negb_false_iff, !no_slash_bytes. induction name as [| c s IH]; [done |]. cbn [all_bytes].
    rewrite !andb_true_iff, IH, !negb_true_iff, !bool_decide_eq_false. set_solver. }
  unfold safeManagedName. split.
  - destruct name as [| c s]; [done |]. cbn [nonempty negb orb].
    destruct (bool_decide (String c s = ".") || bool_decide (String c s = "..")) eqn:D; [done |].
    apply orb_false_iff in D as [D1%bool_decide_eq_false D2%bool_decide_eq_false].
    destruct (ContainsAny _ _ || Contains _ _) eqn:E; [done |]. apply orb_false_iff in E as [[E1 E2]%A E3]. intros _. by repeat split.
  - intros [P [B D]]. pose proof P as (H1 & H2 & H3 & H4). destruct name as [| c s]; [done |]. cbn [nonempty negb orb].
    rewrite !(bool_decide_eq_false_2 _) by done. cbn [orb]. rewrite (proj2 A) by done. rewrite D. cbn [orb]. by apply bool_decide_eq_true, Base_plain.
Qed.

Section archive.
Context `{UnicodeTables} (transcriptFileName : string → string) (decode : string → option TranscriptTurn) (RFC3339 : time → string).
Context (registered : string → bool) (store : string → TranscriptStore) (order : string → list string).

Abbreviation ArchivedAgents := (ArchivedAgents transcriptFileName decode RFC3339 registered store order).
Abbreviation archived_entry := (archived_entry transcriptFileName decode RFC3339 registered store order).
Abbreviation managedAgentHistory := (managedAgentHistory transcriptFileName decode store).
Abbreviation ListContexts := (ListContexts transcriptFileName decode).

(** A listed context is one of the index with a last turn in retention. *)
Lemma ListContexts_elem now o s l x :
  ListContexts now o s = Some l →
  x ∈ l ↔ ∃ turns t, cs_ContextID x ∈ o ∧ readLocked transcriptFileName decode (cs_ContextID x) s = (turns, false) ∧ last turns = Some t ∧
    TranscriptExpired (t_TS t) now = false ∧ x = mkSummary (cs_ContextID x) (firstUserText turns) (length turns) (t_TS t) (t_Status t).
Proof.
  intros (l0 & L & ->)%fmap_Some. rewrite (merge_sort_Permutation newer l0). apply list_loop_spec in L as [_ ->].
  rewrite list_elem_of_bind. unfold shown, shows. split.
  - intros (c & E & I). destruct (readLocked transcriptFileName decode c s) as [turns []] eqn:R; [by apply elem_of_nil in E |]. cbn in E.
    unfold summary in E. destruct (last turns) as [t |] eqn:La; [| by apply elem_of_nil in E].
    destruct (TranscriptExpired (t_TS t) now) eqn:Ex; [by apply elem_of_nil in E |]. cbn in E. apply list_elem_of_singleton in E as ->. cbn. by exists turns, t.
  - intros (turns & t & I & R & La & Ex & E). exists (cs_ContextID x). split; [| done]. rewrite R. cbn. unfold summary. rewrite La, Ex. cbn.
    by apply list_elem_of_singleton.
Qed.

Lemma archived_entry_spec s dir now name isDir a :
  archived_entry s dir now (name, isDir) = Some a ↔
  isDir = true ∧ safeManagedName name = true ∧ desired s !! name = None ∧ registered name = false ∧
  ∃ l, ListContexts now (order (JoinPath dir name)) (store (JoinPath dir name)) = Some l ∧ l ≠ [] ∧ a = mkArchived name (archived_context RFC3339 <$> l).
Proof.
  unfold SchedulerFiles.archived_entry, isArchivable. destruct isDir; [| naive_solver]. cbn [negb orb]. destruct (safeManagedName name); [| naive_solver]. cbn [negb orb].
  destruct (decide (desired s !! name = None)) as [D | D].
  - rewrite bool_decide_eq_true_2 by done. destruct (registered name); [naive_solver |]. cbn [negb andb].
    destruct (ListContexts _ _ _) as [[| x l] |]; naive_solver.
  - rewrite bool_decide_eq_false_2 by done. naive_solver.
Qed.

(** (C37) The archive shows the agents that are gone, and what it shows can be opened.
    It lists a name exactly when a directory of that name lies directly below the
    directory of managed agents, the name cannot lead out of it, the agent is neither
    desired nor registered, and its transcripts are readable with some context in
    retention; every context listed opens with the number of turns shown; and the
    agents come in the order of their names. No history is ever read outside. *)
Theorem archive_truthful s c isdir now listing es out :
  ArchivedAgents s c now listing = inl out →
  let dir := ManagedAgentsDir c in
  dir ≠ "" → is_rooted dir = true → listing dir = D_Entries es → (∀ name, (name, true) ∈ es → isdir (JoinPath dir name) = true) →
  (∀ a, a ∈ out → desired s !! ar_Name a = None ∧ registered (ar_Name a) = false ∧
     components (JoinPath dir (ar_Name a)) = components dir ++ [ar_Name a] ∧ ar_Contexts a ≠ [] ∧
     ∀ x, x ∈ ar_Contexts a → ∃ turns, managedAgentHistory c isdir now (ar_Name a) (ar_ContextID x) = inl turns ∧ length turns = ar_Turns x) ∧
  (∀ name l, (name, true) ∈ es → safeManagedName name = true → desired s !! name = None → registered name = false →
     ListContexts now (order (JoinPath dir name)) (store (JoinPath dir name)) = Some l → l ≠ [] →
     mkArchived name (archived_context RFC3339 <$> l) ∈ out) ∧
  StronglySorted by_agent out ∧
  (∀ name contextID turns, managedAgentHistory c isdir now name contextID = inl turns →
     components (JoinPath dir name) = components dir ++ [name]).
Proof.
  intros Out dir Ne Root List_ IsDir. revert Out. unfold SchedulerFiles.ArchivedAgents. fold dir. destruct dir as [| d0 dr] eqn:Dir; [done |]. cbn [nonempty]. rewrite <- Dir in *.
  rewrite List_. intros [= <-].
  assert (Child : ∀ name, safeManagedName name = true → components (JoinPath dir name) = components dir ++ [name]).
  { intros name [P _]%safeManagedName_spec. by apply components_child. }
  split_and!.
  - intros a I. rewrite (merge_sort_Permutation by_agent) in I. apply list_elem_of_omap in I as ([name isDir] & I & E).
    apply archived_entry_spec in E as (-> & Safe & De & Re & l & L & Nl & ->). cbn. split_and!; [done | done | by apply Child | by destruct l |].
    intros x (y & -> & Iy)%list_elem_of_fmap. apply (ListContexts_elem _ _ _ _ _ L) in Iy as (turns & t & _ & R & La & Ex & ->). cbn in *.
    exists turns. split; [| done]. unfold SchedulerFiles.managedAgentHistory. fold dir. rewrite Dir. cbn [nonempty negb]. rewrite <- Dir, Safe, IsDir by done. cbn [negb].
    unfold Read. by rewrite R, La, Ex.
  - intros name l I Safe De Re L Nl. rewrite (merge_sort_Permutation by_agent). apply list_elem_of_omap. exists (name, true). split; [done |].
    apply archived_entry_spec. split_and!; try done. by exists l.
  - apply StronglySorted_merge_sort; [| apply _]. intros x y z. unfold by_agent. apply (transitivity (R := String.le)).
  - intros name contextID turns. unfold SchedulerFiles.managedAgentHistory. fold dir. destruct (negb (nonempty dir)); [done |].
    destruct (safeManagedName name) eqn:Safe; [| done]. intros _. by apply Child.
Qed.
End archive.

#[local] Existing Instances ascii_tables.

Lemma archive_truthful_witness :
  let c := Some (mkConfig_ default_config 9802 "/etc/ahsir.yaml") in
  let s := mkSched [] (mkRange 1 2) 1 ∅ 0 ∅ {["bob" := mkConfig "bob" "/w" "" 0 1 "" "" ""]} ∅ ∅ ∅ true false "" defaultSupervisorConfig [] in
  let es := [("bob", true); ("ann", true); ("..", true); ("notes", false)] in
  ∃ out, ArchivedAgents id decode_note (λ _, "9") (λ _, false) (λ _, reopened) (λ _, ["c"]) s c 9 (λ _, D_Entries es) = inl out ∧
    ar_Name <$> out = ["ann"] ∧
    ∃ turns, managedAgentHistory id decode_note (λ _, reopened) c (λ _, true) 9 "ann" "c" = inl turns ∧ length turns = 1.
Proof.
  intros c s es.
  assert (O : ArchivedAgents id decode_note (λ _, "9") (λ _, false) (λ _, reopened) (λ _, ["c"]) s c 9 (λ _, D_Entries es) =
    inl [mkArchived "ann" [mkArchivedContext "c" "hi" 1 "9" "completed"]]) by by vm_compute.
  eexists. split; [exact O |]. split; [reflexivity |].
  destruct (archive_truthful id decode_note (λ _, "9") (λ _, false) (λ _, reopened) (λ _, ["c"]) s c (λ _, true) 9 (λ _, D_Entries es) es _
    O ltac:(discriminate) ltac:(by vm_compute) eq_refl ltac:(done)) as (Opens & _).
  destruct (Opens _ (list_elem_of_here _ _)) as (_ & _ & _ & _ & Ctx). exact (Ctx _ (list_elem_of_here _ _)).
Defined.
