(* ===== verification/ConfigEdit.v ===== *)
(** * Editing [ahsir.yaml] in place ([internal/scheduler/configedit.go])

    The agent commands append and remove declarations in the tree of the YAML
    document, so that what surrounds them stays. The parser and the encoder are
    parameters; a document is the tree of its nodes. *)
From S2P Require Import Prelude GoBase GoStrings InstancePool Paths Card.
From Stdlib Require Import ZArith Lia Ascii.

(** ** Documents *)

Inductive kind := DocumentNode | SequenceNode | MappingNode | ScalarNode | OtherNode (k : Z).
Inductive style := DefaultStyle | DoubleQuotedStyle | OtherStyle (s : Z).

#[export] Instance kind_eq_dec : EqDecision kind.
Proof. solve_decision. Defined.
#[export] Instance style_eq_dec : EqDecision style.
Proof. solve_decision. Defined.

#[local] Set Warnings "-register-all".

(** [yaml.Node]; [comments] stands for the fields that the editor passes over. *)
Inductive node := Node (k : kind) (value tag : string) (st : style) (comments : string) (content : list node).

(** Induction with the hypothesis for every child. *)
Definition node_ind' (P : node → Prop)
    (step : ∀ k v t s x c, Forall P c → P (Node k v t s x c)) : ∀ n, P n :=
  fix go n := let 'Node k v t s x c := n in
    step k v t s x c ((fix all c : Forall P c := match c with [] => Forall_nil_2 P | m :: c => Forall_cons_2 P m c (go m) (all c) end) c).

Definition n_Kind (n : node) : kind := let 'Node k _ _ _ _ _ := n in k.
Definition n_Value (n : node) : string := let 'Node _ v _ _ _ _ := n in v.
Definition n_Content (n : node) : list node := let 'Node _ _ _ _ _ c := n in c.
Definition with_content (c : list node) (n : node) : node := let 'Node k v t s x _ := n in Node k v t s x c.
Definition with_style (s : style) (n : node) : node := let 'Node k v t _ x c := n in Node k v t s x c.

Definition scalar (v : string) : node := Node ScalarNode v "" DefaultStyle "" [].
Definition quoted (v : string) : node := Node ScalarNode v "" DoubleQuotedStyle "" [].

(** [mappingFieldString]: the value after the first key of that name. *)
Fixpoint field_string (field : string) (content : list node) : string :=
  match content with
  | key :: val :: rest => if decide (n_Value key = field) then n_Value val else field_string field rest
  | _ => ""
  end.

Definition mappingFieldString (n : node) (field : string) : string :=
  if decide (n_Kind n = MappingNode) then field_string field (n_Content n) else "".

Definition buildAgentMapping (name workspace workdir : string) (port : Z) : node :=
  Node MappingNode "" "" DefaultStyle ""
    ([scalar "name"; quoted name; scalar "workspace"; quoted workspace] ++
     (if nonempty workdir then [scalar "workdir"; quoted workdir] else []) ++
     (if (0 <? port)%Z then [scalar "port"; Node ScalarNode (fmt_d port) "!!int" DefaultStyle "" []] else [])).

(** ** The list of agents *)

Definition kind_number (k : kind) : Z :=
  match k with DocumentNode => 1 | SequenceNode => 2 | MappingNode => 4 | ScalarNode => 8 | OtherNode z => z end.

(** The children of the top-level mapping with the value of the first [agents] key
    replaced by what [f] makes of it, and that value. *)
Fixpoint on_agents (f : node → node) (content : list node) : node * list node + string :=
  match content with
  | key :: val :: rest =>
      if decide (n_Value key = "agents") then
        if decide (n_Kind val = SequenceNode) then inl (val, key :: f val :: rest)
        else inr ("yaml: `agents` is not a sequence (got kind=" +:+ fmt_d (kind_number (n_Kind val)) +:+ ")")
      else match on_agents f rest with inl (seq, rest) => inl (seq, key :: val :: rest) | inr err => inr err end
  | _ => inr "yaml: top-level `agents` key not found"
  end.

(** [agentsSequence] on a document, with the document in which [f] has changed the
    sequence that it points to. *)
Definition agentsSequence (f : node → node) (root : node) : node * node + string :=
  match n_Kind root, n_Content root with
  | DocumentNode, mapping :: others =>
      if decide (n_Kind mapping = MappingNode) then
        match on_agents f (n_Content mapping) with
        | inl (seq, c) => inl (seq, with_content (with_content c mapping :: others) root)
        | inr err => inr err
        end
      else inr ("yaml: top-level is not a mapping (got kind=" +:+ fmt_d (kind_number (n_Kind mapping)) +:+ ")")
  | _, _ => inr "yaml: empty or non-document root"
  end.

Definition named (name : string) (entry : node) : Prop := mappingFieldString entry "name" = name.
#[export] Instance named_dec name entry : Decision (named name entry).
Proof. unfold named. apply _. Defined.

Definition append_entry (e : node) (seq : node) : node := with_style DefaultStyle (with_content (n_Content seq ++ [e]) seq).
Definition drop_entries (name : string) (seq : node) : node := with_content (filter (λ e, ¬ named name e) (n_Content seq)) seq.

(** ** The file *)

Section edit.
Context (Decode : string → node + string) (Encode : node → string + string).

Definition readYAMLNode (path : string) (f : Card.file) : node + string :=
  match f with
  | Missing err | Unreadable err => inr ("read " +:+ path +:+ ": " +:+ err)
  | Content data => match Decode data with inl n => inl n | inr err => inr ("parse " +:+ path +:+ ": " +:+ err) end
  end.

(** [writeYAMLNodeAtomic]; [create] is the error of the temporary file, [rename] that of
    closing the encoder or the file or of renaming it, with its prefix. *)
Definition writeYAMLNodeAtomic (create rename : option string) (root : node) (f : Card.file) : Card.file * option string :=
  match create with
  | Some err => (f, Some err)
  | None =>
      match Encode root with
      | inr err => (f, Some ("encode: " +:+ err))
      | inl data => match rename with Some err => (f, Some err) | None => (Content data, None) end
      end
  end.

Definition AddAgentToConfig (create rename : option string) (path name workspace workdir : string) (port : Z) (f : Card.file) : Card.file * option string :=
  match readYAMLNode path f with
  | inr err => (f, Some err)
  | inl root =>
      match agentsSequence (append_entry (buildAgentMapping name workspace workdir port)) root with
      | inr err => (f, Some err)
      | inl (seq, root') =>
          if decide (Exists (named name) (n_Content seq)) then (f, None) else writeYAMLNodeAtomic create rename root' f
      end
  end.

Definition RemoveAgentFromConfig (create rename : option string) (path name : string) (f : Card.file) : Card.file * option string :=
  match readYAMLNode path f with
  | inr err => (f, Some err)
  | inl root =>
      match agentsSequence (drop_entries name) root with
      | inr err => (f, Some err)
      | inl (_, root') => writeYAMLNodeAtomic create rename root' f
      end
  end.

(** ** What an edit does *)

(** The entries of a document, and the document without them. *)
Definition entries (root : node) : option (list node) := match agentsSequence id root with inl (seq, _) => Some (n_Content seq) | inr _ => None end.
Definition surroundings (root : node) : option node :=
  match agentsSequence (λ seq, with_style DefaultStyle (with_content [] seq)) root with inl (_, root) => Some root | inr _ => None end.

(** What YAML is relied on to keep of a node when it is written and read back: its
    kind, its value and its content; not the tag, the style or the comments. *)
Fixpoint bare (n : node) : node := let 'Node k v _ _ _ c := n in Node k v "" DefaultStyle "" (map bare c).

Lemma bare_inv n m : bare n = bare m → n_Kind n = n_Kind m ∧ n_Value n = n_Value m ∧ map bare (n_Content n) = map bare (n_Content m).
Proof. destruct n, m. cbn. by intros [= -> -> ->]. Qed.

Lemma bare_content n m c c' : bare n = bare m → map bare c = map bare c' → bare (with_content c n) = bare (with_content c' m).
Proof. destruct n, m. cbn. by intros [= -> -> _] ->. Qed.

Lemma bare_style st n : bare (with_style st n) = bare n.
Proof. by destruct n. Qed.

Lemma bare_field x y field : bare x = bare y → mappingFieldString x field = mappingFieldString y field.
Proof.
  intros (K & _ & C)%bare_inv. unfold mappingFieldString. rewrite K. case_decide; [| done]. clear K H. revert C.
  generalize (n_Content x) (n_Content y). intros c. assert (∃ n, length c ≤ n) as [n L] by by exists (length c). revert c L.
  induction n as [| n IH]; intros [| k [| v r]] L [| k' [| v' r']]; cbn in L |- *; try lia; try done.
  intros [= K V R]. apply bare_inv in K as (_ & -> & _), V as (_ & -> & _). case_decide; [done |]. apply IH; [lia | done].
Qed.

Lemma bare_named name x y : bare x = bare y → named name x ↔ named name y.
Proof. intros B. unfold named. by rewrite (bare_field _ _ _ B). Qed.

Lemma bare_filter name c c' : map bare c = map bare c' → map bare (filter (λ e, ¬ named name e) c) = map bare (filter (λ e, ¬ named name e) c').
Proof.
  revert c'. induction c as [| x c IH]; intros [| y c']; try done. cbn [map]. intros [= B C]. rewrite !filter_cons.
  pose proof (bare_named name _ _ B). do 2 case_decide; try tauto; cbn [map]; [by rewrite B, (IH c') | by apply IH].
Qed.

Lemma bare_Exists name c c' : map bare c = map bare c' → Exists (named name) c → Exists (named name) c'.
Proof.
  revert c'. induction c as [| x c IH]; intros [| y c']; try done. cbn [map]. intros [= B C] [E | E]%Exists_cons; apply Exists_cons.
  - left. by apply (bare_named name _ _ B).
  - right. by apply IH.
Qed.

(** *** Documents that can be written

    The encoder of the vendored library leaves out the last child of a mapping when it
    has no value, turns text that is not UTF-8 into base64, and needs the node behind
    an alias. A plain document has none of these. *)
Fixpoint valid_go (skip : nat) (s : string) : bool :=
  match s with
  | EmptyString => true
  | String _ s' =>
      match skip with
      | S k => valid_go k s'
      | O => match decode_width s with (w, true) => valid_go (pred w) s' | (_, false) => false end
      end
  end.

(** [utf8.ValidString]. *)
Definition ValidString (s : string) : bool := valid_go 0 s.

Fixpoint plain_node (n : node) : bool :=
  let 'Node k v _ _ _ c := n in
  ValidString v &&
  match k with
  | MappingNode => Nat.even (length c) | SequenceNode => true | ScalarNode => bool_decide (length c = 0)
  | DocumentNode | OtherNode _ => false
  end && forallb plain_node c.

Definition plain_document (n : node) : bool :=
  match n with Node DocumentNode "" _ _ _ [top] => plain_node top | _ => false end.

Lemma forallb_bare c c' : (∀ n m, bare n = bare m → n ∈ c → plain_node n = plain_node m) →
  map bare c = map bare c' → forallb plain_node c = forallb plain_node c'.
Proof.
  revert c'. induction c as [| n c IH]; intros [| m c'] Hb; try done. cbn. intros [= Hn Hc].
  rewrite (Hb n m) by (done || left). f_equal. apply IH; [| done]. intros x y Hx Hin. apply Hb; [done | by right].
Qed.

Lemma plain_bare n m : bare n = bare m → plain_node n = plain_node m.
Proof.
  revert m. induction n as [k v t st x c IH] using node_ind'. intros [k' v' t' st' x' c']. cbn. intros [= -> -> Hc].
  rewrite (forallb_bare c c'); [| intros n1 n2 Hab Hin; by apply (proj1 (Forall_forall _ _) IH) | done].
  assert (length c = length c') as -> by (rewrite <- (length_map bare c), Hc; apply length_map). done.
Qed.

Lemma plain_document_bare n m : bare n = bare m → plain_document n = plain_document m.
Proof.
  destruct n as [k v t st x c], m as [k' v' t' st' x' c']. cbn. intros [= -> -> Hc].
  destruct k', v', c as [| n1 [| ? ?]], c' as [| m1 [| ? ?]]; try done. cbn in Hc |- *. injection Hc as Hab. by apply plain_bare.
Qed.

Lemma ascii_valid s : all_bytes (in_range 0 127) s = true → ValidString s = true.
Proof.
  unfold ValidString. induction s as [| b s IH]; [done |]. cbn [all_bytes]. intros [Ha Hs]%andb_prop.
  cbn [valid_go]. unfold decode_width. rewrite Ha. by apply IH.
Qed.

(** The decimal digits are. *)
Lemma pretty_go_ascii x s : all_bytes (in_range 0 127) s = true → all_bytes (in_range 0 127) (pretty_N_go x s) = true.
Proof.
  revert s. induction (N.lt_wf_0 x) as [x _ IH]; intros s Hs. destruct (decide (x = 0%N)) as [-> | Hx]; [done |].
  rewrite pretty_N_go_step by lia. apply IH; [apply N.div_lt; lia |]. cbn [all_bytes]. rewrite Hs, andb_true_r.
  unfold pretty_N_char. by repeat case_match.
Qed.

Lemma fmt_d_ascii z : all_bytes (in_range 0 127) (fmt_d z) = true.
Proof.
  assert (∀ n : N, all_bytes (in_range 0 127) (pretty n) = true) as Hn.
  { intros n. unfold pretty, pretty_N. case_decide; [done | by apply pretty_go_ascii]. }
  unfold fmt_d, pretty, pretty_Z. destruct z; [done | apply Hn | rewrite all_bytes_app; apply andb_true_intro; split; [done | apply Hn]].
Qed.

(** A list of nodes, or a document, with its sequence taken out. *)
Definition hole {A} (find : (node → node) → A → node * A + string) (x : A) (seq : node) (plug : node → A) : Prop :=
  n_Kind seq = SequenceNode ∧ (∀ g, find g x = inl (seq, plug (g seq))) ∧ (∀ g s, n_Kind s = SequenceNode → find g (plug s) = inl (s, plug (g s))).
Abbreviation lens := (hole agentsSequence).

Lemma hole_plug {A} (find : (node → node) → A → node * A + string) x seq plug s : hole find x seq plug → n_Kind s = SequenceNode → hole find (plug s) s plug.
Proof. by intros (_ & _ & P) K; split_and!; [| intros g; apply P |]. Qed.

(** The entries of lists that read the same are found at the same place. *)
Lemma on_agents_lens f content seq content' :
  on_agents f content = inl (seq, content') →
  ∃ plug, hole on_agents content seq plug ∧
    ∀ other, map bare other = map bare content →
      ∃ seq2 plug2, hole on_agents other seq2 plug2 ∧ bare seq2 = bare seq ∧ ∀ s s', bare s = bare s' → map bare (plug2 s) = map bare (plug s').
Proof.
  revert seq content'. assert (∃ n, length content ≤ n) as [n L] by by exists (length content). revert content L.
  induction n as [| n IH]; intros [| key [| val rest]] L seq content'; cbn in L; try lia; try done. cbn [on_agents].
  assert (Here : ∀ key val rest, n_Value key = "agents" → n_Kind val = SequenceNode → hole on_agents (key :: val :: rest) val (λ s, key :: s :: rest)).
  { intros k v r K Sq. split_and!; [done | |]; intros; cbn [on_agents]; by rewrite !decide_True. }
  assert (Later : ∀ key val rest sq plug, n_Value key ≠ "agents" → hole on_agents rest sq plug → hole on_agents (key :: val :: rest) sq (λ s, key :: val :: plug s)).
  { intros k v r sq plug K (Sq & G & P). split_and!; [done | |]; intros; cbn [on_agents]; rewrite decide_False by done; [by rewrite G | by rewrite P]. }
  destruct (decide (n_Value key = "agents")) as [K | K].
  - destruct (decide (n_Kind val = SequenceNode)) as [Sq | Sq]; [| done]. intros [= <- <-]. exists (λ s, key :: s :: rest). split; [by apply Here |].
    intros [| k [| v r]]; try done. cbn [map]. intros [= Bk Bv Br]. exists v, (λ s, k :: s :: r). split_and!; [| done |].
    + apply bare_inv in Bk as (_ & E & _), Bv as (E' & _ & _). apply Here; congruence.
    + intros s s' B. cbn [map]. by rewrite Bk, B, Br.
  - destruct (on_agents f rest) as [[sq c] |] eqn:E; [| done]. intros [= <- <-].
    destruct (IH rest ltac:(lia) _ _ E) as (plug & H & Sim). exists (λ s, key :: val :: plug s). split; [by apply Later |].
    intros [| k [| v r]]; try done. cbn [map]. intros [= Bk Bv Br]. destruct (Sim r Br) as (seq2 & plug2 & H2 & B2 & P2).
    exists seq2, (λ s, k :: v :: plug2 s). split_and!; [| done |].
    + apply bare_inv in Bk as (_ & E' & _). apply Later; [congruence | done].
    + intros s s' B. cbn [map]. by rewrite Bk, Bv, (P2 s s').
Qed.

Lemma agents_lens f root seq root' :
  agentsSequence f root = inl (seq, root') →
  ∃ plug, lens root seq plug ∧
    ∀ other, bare other = bare root → ∃ seq2 plug2, lens other seq2 plug2 ∧ bare seq2 = bare seq ∧ ∀ s s', bare s = bare s' → bare (plug2 s) = bare (plug s').
Proof.
  assert (Doc : ∀ v t st x mv mt ms mx mc others sq plug, hole on_agents mc sq plug →
    lens (Node DocumentNode v t st x (Node MappingNode mv mt ms mx mc :: others)) sq
      (λ s, Node DocumentNode v t st x (Node MappingNode mv mt ms mx (plug s) :: others))).
  { intros v t st x mv mt ms mx mc others sq plug (Sq & G & P).
    split_and!; [done | |]; intros; unfold agentsSequence; cbn [n_Kind n_Content]; rewrite decide_True by done; [by rewrite G | by rewrite P]. }
  destruct root as [k v t st x [| mapping others]]; unfold agentsSequence; cbn [n_Kind n_Content]; destruct k; try done.
  destruct mapping as [mk mv mt ms mx mc]. cbn [n_Kind n_Content]. destruct (decide (mk = MappingNode)) as [-> |]; [| done].
  destruct (on_agents f mc) as [[sq c] |] eqn:E; [| done]. intros [= <- _]. apply on_agents_lens in E as (plug & H & Sim).
  eexists. split; [by apply Doc |].
  intros [k2 v2 t2 st2 x2 [| [mk2 mv2 mt2 ms2 mx2 mc2] others2]]; cbn [bare map]; [done |]. intros [= -> -> -> -> Bc Bo].
  destruct (Sim mc2 Bc) as (seq2 & plug2 & H2 & B2 & P2). exists seq2. eexists. split_and!; [by apply Doc | done |].
  intros s s' B. cbn [bare map]. by rewrite (P2 s s' B), Bo.
Qed.

(** Documents that read the same have the same sequence in the same surroundings. *)
Lemma lens_bare root other seq plug :
  lens root seq plug → bare other = bare root →
  ∃ seq2 plug2, lens other seq2 plug2 ∧ bare seq2 = bare seq ∧ ∀ s s', bare s = bare s' → bare (plug2 s) = bare (plug s').
Proof.
  intros (Sq & G & P) B. destruct (agents_lens _ _ _ _ (G id)) as (plug0 & (_ & G0 & _) & Sim). destruct (Sim other B) as (seq2 & plug2 & H & B2 & P2).
  exists seq2, plug2. split_and!; [done | done |]. intros s s' Bs. rewrite (P2 s s' Bs). f_equal.
  pose proof (G (λ _, s')) as E. rewrite G0 in E. by injection E.
Qed.

Lemma lens_entries root seq plug s :
  lens root seq plug → n_Kind s = SequenceNode → entries (plug s) = Some (n_Content s) ∧ surroundings (plug s) = Some (plug (with_style DefaultStyle (with_content [] s))).
Proof. intros (_ & _ & P) K. unfold entries, surroundings. by rewrite !P. Qed.

Lemma lens_root root seq plug : lens root seq plug → entries root = Some (n_Content seq) ∧ surroundings root = Some (plug (with_style DefaultStyle (with_content [] seq))).
Proof. intros (_ & G & _). unfold entries, surroundings. by rewrite !G. Qed.

Lemma new_entry name workspace workdir port :
  let e := buildAgentMapping name workspace workdir port in
  mappingFieldString e "name" = name ∧ mappingFieldString e "workspace" = workspace ∧ mappingFieldString e "workdir" = workdir ∧
  mappingFieldString e "port" = if (0 <? port)%Z then fmt_d port else "".
Proof. unfold buildAgentMapping, mappingFieldString. destruct workdir, (0 <? port)%Z; done. Qed.

(** An edit that fails has changed nothing. *)
Lemma failed_edit_unchanged create rename path name workspace workdir port f f' e :
  AddAgentToConfig create rename path name workspace workdir port f = (f', Some e) ∨ RemoveAgentFromConfig create rename path name f = (f', Some e) → f' = f.
Proof.
  assert (W : ∀ root, writeYAMLNodeAtomic create rename root f = (f', Some e) → f' = f).
  { intros root. unfold writeYAMLNodeAtomic. destruct create; [by intros [= ->] |]. destruct (Encode root); [| by intros [= ->]].
    destruct rename; [by intros [= ->] | done]. }
  unfold AddAgentToConfig, RemoveAgentFromConfig. destruct (readYAMLNode path f) as [root |]; [| by intros [[= ->] | [= ->]]].
  intros [E | E]; destruct (agentsSequence _ root) as [[seq root'] |]; try (by injection E as -> _); [| by apply W in E].
  case_decide; [done | by apply W in E].
Qed.

(** What a successful write leaves. *)
Lemma written create rename root f f' :
  writeYAMLNodeAtomic create rename root f = (f', None) → ∃ d, f' = Content d ∧ Encode root = inl d.
Proof.
  unfold writeYAMLNodeAtomic. destruct create; [done |]. destruct (Encode root) as [d |]; [| done]. destruct rename; [done |]. intros [= <-]. by exists d.
Qed.

Lemma drop_append name e seq seq1 :
  named name e → ¬ Exists (named name) (n_Content seq) → bare seq1 = bare (append_entry e seq) → bare (drop_entries name seq1) = bare seq.
Proof.
  intros E N B. pose proof (bare_inv _ _ B) as (_ & _ & C%(bare_filter name)). unfold drop_entries.
  rewrite (bare_content _ _ _ _ B C). destruct seq as [k v t st x c]. cbn in N |- *. f_equal. f_equal.
  rewrite filter_app, filter_cons_False by tauto. cbn. rewrite app_nil_r.
  apply list_filter_all. intros y I Y. destruct N. apply Exists_exists. by exists y.
Qed.

(** *** Plain documents stay plain *)

Lemma on_agents_plain f content seq content' :
  on_agents f content = inl (seq, content') → forallb plain_node content = true →
  plain_node seq = true ∧ length content' = length content ∧ (plain_node (f seq) = true → forallb plain_node content' = true).
Proof.
  revert seq content'. assert (∃ n, length content ≤ n) as [n L] by by exists (length content). revert content L.
  induction n as [| n IH]; intros [| key [| val rest]] L seq content'; cbn in L; try lia; try done. cbn [on_agents forallb].
  destruct (decide (n_Value key = "agents")).
  - destruct (decide (n_Kind val = SequenceNode)); [| done]. intros [= <- <-] [Hk [Hv Hr]%andb_prop]%andb_prop. split_and!; [done | done |]. cbn [forallb]. intros ->. by rewrite Hk, Hr.
  - destruct (on_agents f rest) as [[sq c] |] eqn:E; [| done]. intros [= <- <-] [Hk [Hv Hr]%andb_prop]%andb_prop. destruct (IH rest ltac:(lia) _ _ E Hr) as (H1 & H2 & H3). cbn [forallb length]. split_and!; [done | by rewrite H2 |].
    intros Hf. by rewrite Hk, Hv, H3.
Qed.

Lemma agents_plain f root seq root' :
  agentsSequence f root = inl (seq, root') → plain_document root = true →
  plain_node seq = true ∧ (plain_node (f seq) = true → plain_document root' = true).
Proof.
  unfold agentsSequence. destruct root as [[| | | |] [| ? ?] t st x [| mapping [| ? ?]]]; cbn [n_Kind n_Content plain_document]; try done.
  destruct mapping as [mk mv mt ms mx mc]. cbn [n_Kind n_Content]. destruct (decide (mk = MappingNode)) as [-> |]; [| done].
  destruct (on_agents f mc) as [[sq c] |] eqn:E; [| done]. intros [= <- <-] Hp. cbn in Hp. apply andb_prop in Hp as [[Hv Hl]%andb_prop Hc].
  destruct (on_agents_plain f mc sq c E Hc) as (H1 & H2 & H3). split; [done |]. intros Hf. cbn. by rewrite Hv, H2, Hl, H3.
Qed.

Lemma plain_sequence k v t st x c st' c' :
  plain_node (Node k v t st x c) = true → k = SequenceNode → forallb plain_node c' = true → plain_node (Node k v t st' x c') = true.
Proof. cbn. intros [[Hv _]%andb_prop _]%andb_prop -> ->. by rewrite Hv. Qed.

Lemma plain_content seq : plain_node seq = true → forallb plain_node (n_Content seq) = true.
Proof. destruct seq. cbn. by intros [_ ?]%andb_prop. Qed.

Lemma append_plain e seq : n_Kind seq = SequenceNode → plain_node seq = true → plain_node e = true → plain_node (append_entry e seq) = true.
Proof.
  intros K Hp He. pose proof (plain_content _ Hp) as Hc. destruct seq as [k v t st x c]. cbn in K, Hc. apply (plain_sequence _ _ _ st _ c); [done.. |].
  cbn. rewrite forallb_app, Hc. cbn. by rewrite He.
Qed.

Lemma drop_plain name seq : n_Kind seq = SequenceNode → plain_node seq = true → plain_node (drop_entries name seq) = true.
Proof.
  intros K Hp. pose proof (plain_content _ Hp) as Hc. destruct seq as [k v t st x c]. cbn in K, Hc. apply (plain_sequence _ _ _ st _ c); [done.. |].
  cbn. clear -Hc. induction c as [| m c IH]; [done |]. cbn in Hc. apply andb_prop in Hc as [Hm Hc]. rewrite filter_cons.
  case_decide; [cbn; by rewrite Hm, IH | by apply IH].
Qed.

Lemma new_plain name workspace workdir port :
  ValidString name = true → ValidString workspace = true → ValidString workdir = true →
  plain_node (buildAgentMapping name workspace workdir port) = true.
Proof.
  intros Hn Hw Hd. assert (ValidString (fmt_d port) = true) as Hp by apply ascii_valid, fmt_d_ascii.
  unfold buildAgentMapping, scalar, quoted. destruct (nonempty workdir), (0 <? port)%Z; cbn -[ValidString]; rewrite ?Hn, ?Hw, ?Hd, ?Hp; reflexivity.
Qed.

(** The edit of the tree: what it finds, and the document it makes. *)
Lemma edit_tree g root seq root' :
  agentsSequence g root = inl (seq, root') → n_Kind (g seq) = SequenceNode → with_style DefaultStyle (with_content [] (g seq)) = with_style DefaultStyle (with_content [] seq) →
  entries root' = Some (n_Content (g seq)) ∧ surroundings root' = surroundings root.
Proof.
  intros A K S. destruct (agents_lens _ _ _ _ A) as (plug & L & _). pose proof L as (Sq & G & _). rewrite G in A. injection A as <-.
  destruct (lens_entries _ _ _ _ L K) as [-> ->]. destruct (lens_root _ _ _ L) as [_ ->]. by rewrite S.
Qed.

(** (C38) Editing the configuration is exact. Adding an agent that has no entry gives
    the encoder the tree that was read with one entry appended, of its name,
    workspace, working directory and port, and nothing else changed in it, comments
    included; adding it again changes nothing at all; removing it gives the encoder
    the tree read then without its entry. Reading the file again gives, up to tags,
    styles and comments, those entries in the same surroundings, and after the removal
    the entries there were. Hypotheses: the YAML library reads back the kinds, values
    and content of a plain document (valid UTF-8, whole mappings, no aliases; what it
    makes of comments is left open); the file and the new entry are plain. *)
Theorem config_edit_exact create rename path name workspace workdir port f f1 :
  (∀ n d, plain_document n = true → Encode n = inl d → ∃ m, Decode d = inl m ∧ bare m = bare n) →
  (∀ data root, f = Content data → Decode data = inl root → plain_document root = true) →
  ValidString name = true → ValidString workspace = true → ValidString workdir = true →
  AddAgentToConfig create rename path name workspace workdir port f = (f1, None) →
  ∃ data root es, f = Content data ∧ Decode data = inl root ∧ entries root = Some es ∧
    (Exists (named name) es → f1 = f) ∧
    (¬ Exists (named name) es →
       ∃ d1 tree1 root1 es1, f1 = Content d1 ∧ Encode tree1 = inl d1 ∧
         surroundings tree1 = surroundings root ∧ entries tree1 = Some (es ++ [buildAgentMapping name workspace workdir port]) ∧
         Decode d1 = inl root1 ∧ bare <$> surroundings root1 = bare <$> surroundings root ∧
         entries root1 = Some es1 ∧ map bare es1 = map bare (es ++ [buildAgentMapping name workspace workdir port]) ∧
         (∀ create' rename' workspace' workdir' port', AddAgentToConfig create' rename' path name workspace' workdir' port' f1 = (f1, None)) ∧
         ∀ create' rename' f2, RemoveAgentFromConfig create' rename' path name f1 = (f2, None) →
           ∃ d2 tree2 root2 es2, f2 = Content d2 ∧ Encode tree2 = inl d2 ∧
             surroundings tree2 = surroundings root1 ∧ entries tree2 = Some (filter (λ e, ¬ named name e) es1) ∧
             Decode d2 = inl root2 ∧ bare <$> surroundings root2 = bare <$> surroundings root ∧
             entries root2 = Some es2 ∧ map bare es2 = map bare es).
Proof.
  intros Codec Plain Vn Vw Vd. unfold AddAgentToConfig at 1. destruct (readYAMLNode path f) as [root |] eqn:R; [| done].
  set (new := buildAgentMapping name workspace workdir port).
  destruct (agentsSequence (append_entry new) root) as [[seq root'] |] eqn:A; [| done]. intros W.
  assert (∃ data, f = Content data ∧ Decode data = inl root) as (data & -> & D).
  { unfold readYAMLNode in R. destruct f as [| | data]; try done. exists data. by destruct (Decode data); simplify_eq. }
  destruct (agents_plain _ _ _ _ A (Plain _ _ eq_refl D)) as [Ps Pr].
  destruct (agents_lens _ _ _ _ A) as (plug & L & _). pose proof L as (Sq & G & _).
  assert (plain_document root' = true) as Pd by (apply Pr, append_plain; [done | done | by apply new_plain]).
  assert (K : n_Kind (append_entry new seq) = SequenceNode) by by destruct seq.
  destruct (edit_tree _ _ _ _ A K ltac:(by destruct seq)) as [Et St].
  replace (n_Content (append_entry new seq)) with (n_Content seq ++ [new]) in Et by by destruct seq.
  rewrite G in A. injection A as <-.
  destruct (lens_root _ _ _ L) as [En Su]. exists data, root, (n_Content seq). split_and!; [done | done | done | |].
  { intros Ex. rewrite decide_True in W by done. by injection W as <-. }
  intros N. rewrite decide_False in W by done. apply written in W as (d1 & -> & E1). destruct (Codec _ _ Pd E1) as (root1 & D1 & B1).
  pose proof (plain_document_bare _ _ B1) as Pd1. rewrite Pd in Pd1.
  destruct (lens_bare _ _ _ _ (hole_plug _ _ _ _ _ L K) B1) as (seq1 & plug1 & L1 & Bs1 & P1).
  destruct (lens_root _ _ _ L1) as [En1 Su1]. pose proof L1 as (Sq1 & G1 & _).
  pose proof (bare_inv _ _ Bs1) as (_ & _ & C1). assert (New : named name new) by apply (new_entry name workspace workdir port).
  replace (n_Content (append_entry new seq)) with (n_Content seq ++ [new]) in C1 by by destruct seq.
  exists d1, (plug (append_entry new seq)), root1, (n_Content seq1). split_and!; [done | done | done | done | done | | done | done | |].
  - rewrite Su1, Su. cbn. f_equal. apply P1. rewrite !bare_style. rewrite (bare_content _ _ [] [] Bs1) by done. by destruct seq.
  - intros. unfold AddAgentToConfig, readYAMLNode. rewrite D1, G1. apply decide_True.
    apply (bare_Exists name _ _ (eq_sym C1)), Exists_app. right. by constructor.
  - intros create' rename' f2. unfold RemoveAgentFromConfig, readYAMLNode. rewrite D1.
    destruct (agentsSequence (drop_entries name) root1) as [[sq2 tree2] |] eqn:A2; [| done]. intros (d2 & -> & E2)%written.
    pose proof A2 as A2'. rewrite G1 in A2'. injection A2' as <- <-.
    destruct (agents_plain _ _ _ _ A2 Pd1) as [Ps1 Pr1].
    assert (K' : n_Kind (drop_entries name seq1) = SequenceNode) by by destruct seq1.
    destruct (edit_tree _ _ _ _ A2 K' ltac:(by destruct seq1)) as [Et2 St2].
    replace (n_Content (drop_entries name seq1)) with (filter (λ e, ¬ named name e) (n_Content seq1)) in Et2 by by destruct seq1.
    destruct (Codec _ _ (Pr1 (drop_plain _ _ Sq1 Ps1)) E2) as (root2 & D2 & B2).
    pose proof (drop_append name new seq seq1 New N Bs1) as Bd.
    destruct (lens_bare _ _ _ _ (hole_plug _ _ _ _ _ L1 K') B2) as (seq2 & plug2 & L2 & Bs2 & P2).
    destruct (lens_root _ _ _ L2) as [En2 Su2]. rewrite Bd in Bs2.
    exists d2, (plug1 (drop_entries name seq1)), root2, (n_Content seq2). split_and!; [done | done | done | done | done | | done | by apply bare_inv].
    rewrite Su2, Su. cbn. f_equal. rewrite (P2 _ _ eq_refl). apply P1. rewrite !bare_style. by apply bare_content.
Qed.
End edit.

#[local] Instance node_eq_dec : EqDecision node.
Proof.
  unfold EqDecision. fix go 1. intros x y. destruct x as [k v t st x c], y as [k' v' t' st' x' c'].
  destruct (decide (k = k' ∧ v = v' ∧ t = t' ∧ st = st' ∧ x = x')) as [E | N]; [| right; abstract (intros [=]; tauto)].
  destruct (List.list_eq_dec go c c') as [E' | N]; [left | right; abstract (intros [=]; tauto)].
  abstract (destruct E as (-> & -> & -> & -> & ->); by rewrite E').
Defined.

(** A document with one agent and a comment, one with another added, and their codec. *)
Definition ann : node := buildAgentMapping "ann" "/w/ann" "" 9802.
Definition one_agent : node :=
  Node DocumentNode "" "" DefaultStyle "" [Node MappingNode "" "" DefaultStyle "# ours" [scalar "registry"; scalar "r"; scalar "agents"; Node SequenceNode "" "" DefaultStyle "" [ann]]].
Definition two_agents : node :=
  match agentsSequence (append_entry (buildAgentMapping "bob" "/w/bob" "/src" 0)) one_agent with inl (_, root) => root | inr _ => one_agent end.
Definition encode_doc (n : node) : string + string := if decide (n = one_agent) then inl "1" else if decide (n = two_agents) then inl "2" else inr "unknown".
Definition decode_doc (d : string) : node + string := if decide (d = "1") then inl one_agent else if decide (d = "2") then inl two_agents else inr "unknown".

Lemma config_edit_exact_witness :
  AddAgentToConfig decode_doc encode_doc None None "ahsir.yaml" "bob" "/w/bob" "/src" 0 (Content "1") = (Content "2", None) ∧
  (∃ es, entries two_agents = Some es ∧ map bare es = map bare [ann; buildAgentMapping "bob" "/w/bob" "/src" 0]) ∧
  bare <$> surroundings two_agents = bare <$> surroundings one_agent.
Proof.
  assert (A : AddAgentToConfig decode_doc encode_doc None None "ahsir.yaml" "bob" "/w/bob" "/src" 0 (Content "1") = (Content "2", None)) by by vm_compute.
  split; [exact A |].
  assert (Codec : ∀ n d, encode_doc n = inl d → ∃ m, decode_doc d = inl m ∧ bare m = bare n).
  { intros n d. unfold encode_doc. destruct (decide (n = one_agent)) as [-> |]; [intros [= <-]; by exists one_agent |].
    destruct (decide (n = two_agents)) as [-> |]; [intros [= <-]; by exists two_agents | done]. }
  destruct (config_edit_exact decode_doc encode_doc None None "ahsir.yaml" "bob" "/w/bob" "/src" 0 (Content "1") (Content "2") (λ n d _, Codec n d)
    ltac:(intros data root [= <-] [= <-]; reflexivity) eq_refl eq_refl eq_refl A)
    as (data & root & es & [= <-] & D & En & _ & Added). injection D as <-. injection En as <-.
  assert (N : ¬ Exists (named "bob") [ann]) by (intros Ex; apply Exists_cons in Ex as [Ex | Ex]; [discriminate Ex | by apply Exists_nil in Ex]).
  destruct (Added N) as (d1 & tree1 & root1 & es1 & [= <-] & _ & _ & _ & D1 & Su & En1 & B & _).
  injection D1 as <-. split; [by exists es1 | exact Su].
Defined.
