(* ===== verification/GatewayViews.v ===== *)
(** * The views and commands of the gateway ([internal/scheduler/gateway.go])

    What a client is shown of the agents, the invocations and the rooms, how room
    and agent commands reach the room manager and the supervisor, and the helpers of
    the proxy for names, headers and required paths. JSON, [url.Parse] and the
    supervisor's waits answer through arguments. *)
From S2P Require Import Prelude GoBase GoStrings Registry InstancePool AgentLifecycle LiveEvents Ledger Rooms Supervisor SupervisorDrive Paths Card Preflight Transcript SchedulerFiles Gateway.
From Stdlib Require Import ZArith Lia Ascii.
Import InstanceName.

(** ** Escaping ([net/url]) *)

Definition upper_hex (n : nat) : ascii := ascii_of_nat (if n <? 10 then 48 + n else 55 + n).

Definition unhex (c : ascii) : option nat :=
  let n := nat_of_ascii c in
  if (48 <=? n) && (n <=? 57) then Some (n - 48)
  else if (97 <=? n) && (n <=? 102) then Some (n - 87)
  else if (65 <=? n) && (n <=? 70) then Some (n - 55) else None.

(** The bytes that stay: letters, digits and [-_.~], and in a path segment some of
    the reserved ones. *)
Definition unreserved (c : ascii) : bool :=
  let n := nat_of_ascii c in
  ((48 <=? n) && (n <=? 57)) || ((65 <=? n) && (n <=? 90)) || ((97 <=? n) && (n <=? 122)) ||
  bool_decide (c ∈ ["-"%char; "_"%char; "."%char; "~"%char]).
Definition segment_byte (c : ascii) : bool :=
  unreserved c || bool_decide (c ∈ ["$"%char; "&"%char; "+"%char; ":"%char; "="%char; "@"%char]).

Fixpoint escape (keep : ascii → bool) (s : string) : string :=
  match s with
  | EmptyString => ""
  | String c s =>
      if keep c then String c (escape keep s)
      else String "%" (String (upper_hex (nat_of_ascii c / 16)) (String (upper_hex (nat_of_ascii c mod 16)) (escape keep s)))
  end.

Fixpoint PathUnescape (s : string) : option string :=
  match s with
  | EmptyString => Some ""
  | String c s =>
      if decide (c = "%"%char) then
        match s with
        | String a (String b s) =>
            match unhex a, unhex b with
            | Some h, Some l => String (ascii_of_nat (16 * h + l)) <$> PathUnescape s
            | _, _ => None
            end
        | _ => None
        end
      else String c <$> PathUnescape s
  end.

Definition PathEscape : string → string := escape segment_byte.
Fixpoint map_bytes (f : ascii → ascii) (s : string) : string := match s with EmptyString => "" | String c s => String (f c) (map_bytes f s) end.
Definition plus_for_space (c : ascii) : ascii := if decide (c = " "%char) then "+"%char else c.
Definition QueryEscape (s : string) : string := map_bytes plus_for_space (escape (λ c, unreserved c || bool_decide (c = " "%char)) s).

(** ** Answers *)

(** What a handler writes: a JSON value, an error, or a bare status. *)
Inductive answer (A : Type) := Json (status : Z) (value : A) | JsonError (status : Z) (msg : string) | Bare (status : Z).
Arguments Json {A}. Arguments JsonError {A}. Arguments Bare {A}.

Definition status_of {A} (a : answer A) : Z := match a with Json s _ | JsonError s _ | Bare s => s end.

Definition StatusInternalServerError : Z := 500.

(** ** Invocations *)

Record invocationView := mkInvocationView { iv_record : InvocationRecord; iv_DurationMS : Z }.

Definition view_of (r : InvocationRecord) : invocationView :=
  mkInvocationView r (if negb (IsZero (FinishedAt r)) && negb (IsZero (StartedAt r))
                      then Z.quot (Sub (FinishedAt r) (StartedAt r)) Millisecond else 0).

Definition handleInvocations (contextID : string) (snapshot : list InvocationRecord) : list invocationView :=
  view_of <$> filter (λ r, contextID = "" ∨ Ledger.ContextID r = contextID) snapshot.

(** ** Cards *)

Record PublicCard := mkPublic { pc_Name : string; pc_URL : string }.

Section cards.
(** [u.Hostname()] of the parsed address, whether a host is a loopback address. *)
Context (Hostname : string → option string) (loopback : string → bool).

Definition shouldExposeViaScheduler (raw : string) : bool :=
  match Hostname raw with
  | None => false
  | Some host => nonempty host && (bool_decide (host = "localhost") || bool_decide (host = "::1") || loopback host)
  end.

Definition externalBaseURL (forwarded : string) (tls : bool) (host : string) : string :=
  (if nonempty forwarded then forwarded else if tls then "https" else "http") +:+ "://" +:+ host.

Definition publicAgentCard (base : string) (c : PublicCard) : PublicCard :=
  if shouldExposeViaScheduler (pc_URL c) then mkPublic (pc_Name c) (base +:+ a2aProxyPrefix +:+ PathEscape (pc_Name c)) else c.

(** The agents shown, with their status. *)
Definition handlePublicAgents (status : string → string) (base : string) (cards : list PublicCard) : list (PublicCard * string) :=
  (λ c, (publicAgentCard base c, status (pc_Name c))) <$> filter (λ c, isInstanceChild (pc_Name c) = false) cards.

Definition handlePublicAgent (base : string) (found : option PublicCard) : answer PublicCard :=
  match found with None => JsonError Registry.StatusNotFound "agent not found" | Some c => Json Registry.StatusOK (publicAgentCard base c) end.
End cards.

(** ** Configuration and archive *)

(** [AgentConfigFile]: the path and the content, or the path and the error. *)
Definition AgentConfigFile `{UnicodeTables} (read : string → Card.file) (name : string) (s : Sched) : string * (string + string) :=
  match desired s !! name with
  | None => ("", inr ("agent " +:+ fmt_q name +:+ " not found"))
  | Some c =>
      let path := cardFile (Workspace c) in
      (path, match read path with
             | Content data => inl data
             | Missing err | Unreadable err => inr ("read agent config: " +:+ err)
             end)
  end.

Definition handleAgentConfig `{UnicodeTables} (read : string → Card.file) (name : string) (s : Sched) : Z * string * (string + string) :=
  let '(path, r) := AgentConfigFile read name s in
  (match r with inl _ => Registry.StatusOK | inr _ => if nonempty path then StatusBadGateway else Registry.StatusNotFound end, path, r).

Definition handleArchivedAgents (found : list ArchivedAgent + string) : answer (list ArchivedAgent) :=
  match found with inr err => JsonError StatusInternalServerError err | inl l => Json Registry.StatusOK l end.

(** ** Commands for agents *)

Record startAgentRequest := mkStartRequest {
  sa_Name : string; sa_Workspace : string; sa_Workdir : string; sa_Port : Z; sa_Instances : Z; sa_Card : option AgentCardConfig;
}.

(** The workspace of a request, or why there is none. *)
Definition start_workspace (cfg : option Config) (req : startAgentRequest) : string + string :=
  if sa_Card req is Some _ then
    if nonempty (sa_Workspace req) then inl (sa_Workspace req)
    else let managed := ManagedAgentWorkspace cfg (sa_Name req) in
         if nonempty managed then inl managed else inr "workspace is required (no managed workspace dir for in-memory config)"
  else if nonempty (sa_Workspace req) then inl (sa_Workspace req) else inr "workspace is required".

Definition start_config (workspace : string) (req : startAgentRequest) : AgentConfig :=
  mkConfig (sa_Name req) workspace (sa_Workdir req) (sa_Port req) (sa_Instances req) "" "" "".

(** [errors.Is] with [ErrAgentIncompatible] or [ErrAgentAlreadyExists]. *)
Definition is_conflict (e : agent_err) : bool := match e with Incompatible _ _ | AlreadyExists _ => true | _ => false end.

Definition StatusCreated : Z := 201.
Definition StatusNoContent : Z := 204.

(** The handler; [ensure] is [EnsureAgent] with its waits: the port and whether a
    runtime was created, or the error with its text. What it is asked comes first. *)
Definition handleAdminStart (cfg : option Config) (ensure : AgentConfig → option AgentCardConfig → Z * bool + agent_err * string)
    (body : startAgentRequest + string) : option AgentConfig * answer (string * Z) :=
  match body with
  | inr err => (None, JsonError Registry.StatusBadRequest ("invalid request body: " +:+ err))
  | inl req =>
      if decide (sa_Name req = "") then (None, JsonError Registry.StatusBadRequest "name is required")
      else match start_workspace cfg req with
      | inr err => (None, JsonError Registry.StatusBadRequest err)
      | inl workspace =>
          let c := start_config workspace req in
          (Some c,
           match ensure c (sa_Card req) with
           | inr (e, msg) => JsonError (if is_conflict e then StatusConflict else StatusInternalServerError) msg
           | inl (port, created) => Json (if created then StatusCreated else Registry.StatusOK) (sa_Name req, port)
           end)
      end
  end.

Definition handleAdminRestart (restart : string → Z + string) (name : string) : answer (string * Z) :=
  if decide (name = "") then JsonError Registry.StatusBadRequest "name is required"
  else match restart name with inr err => JsonError StatusInternalServerError err | inl port => Json StatusCreated (name, port) end.

(** [StopAgent] has no error to return. *)
Definition handleAdminStop (now : time) (name : string) (s : Sched) : Sched * answer (string * Z) :=
  if decide (name = "") then (s, JsonError Registry.StatusBadRequest "name is required") else ((StopAgent now name s).1, Bare StatusNoContent).

(** ** Rooms *)

Record createRoomRequest := mkCreateRoom {
  cm_Topic : string; cm_Participants : list string; cm_Mode : string; cm_Organizer : string; cm_MaxChain : Z; cm_Moderator : string;
  cm_Budget : Z; cm_Message : string;
}.
Record sayRequest := mkSay { sy_Text : string; sy_Speaker : string }.

Inductive rooms_value := OneView (v : RoomView) | AllViews (l : list RoomView).

(** What an operation of the manager answers with. *)
Definition room_not_found `{UnicodeTables} (id : string) : string := "room " +:+ fmt_q id +:+ " not found".
Definition viewed `{UnicodeTables} (id : string) (m : RoomManager) : RoomView + string := match Get id m with Some v => inl v | None => inr (room_not_found id) end.

Definition writeRoomResult (r : RoomView + string) : answer rooms_value :=
  match r with
  | inr err =>
      JsonError (if Contains err "not found" then Registry.StatusNotFound else if Contains err "stopped" then StatusConflict
                 else Registry.StatusBadRequest) err
  | inl v => Json Registry.StatusOK (OneView v)
  end.

(** The decoded bodies, the id of a new room, the clock, the shuffle and the order
    in which a map is visited. *)
Record rooms_env := mkRoomsEnv {
  re_create : createRoomRequest + string; re_say : sayRequest + string; re_id : string; re_now : time; re_shuffle : list string → list string;
  re_range : gmap string Room → list (string * Room);
}.

Section rooms.
Context `{UnicodeTables} `{UnicodeLower}.

Definition handleCreateRoom (env : rooms_env) (m : RoomManager) : RoomManager * answer rooms_value :=
  match re_create env with
  | inr err => (m, JsonError Registry.StatusBadRequest ("invalid request body: " +:+ err))
  | inl q =>
      let '(m', r) :=
        if decide (cm_Mode q = RoomModeRoundtable)
        then CreateRoundtableRoom (re_shuffle env) (re_now env) (re_id env) (cm_Topic q) (cm_Participants q) (cm_Moderator q) (cm_Budget q)
               (cm_Message q) m
        else CreateRoom (re_shuffle env) (re_now env) (re_id env) (cm_Topic q) (cm_Participants q) (cm_Organizer q) (cm_MaxChain q)
               (cm_Message q) m in
      (m', match r with
           | inr err => JsonError Registry.StatusBadRequest err
           | inl _ => match viewed (re_id env) m' with inl v => Json StatusCreated (OneView v) | inr err => JsonError Registry.StatusBadRequest err end
           end)
  end.

Definition handleSay (env : rooms_env) (id : string) (m : RoomManager) : RoomManager * answer rooms_value :=
  match re_say env with
  | inr err => (m, JsonError Registry.StatusBadRequest ("invalid request body: " +:+ err))
  | inl q =>
      if decide (sy_Text q = "") then (m, JsonError Registry.StatusBadRequest "text is required")
      else let '(m', r) := Say (re_shuffle env) (re_now env) id (sy_Text q) (sy_Speaker q) m in
           (m', writeRoomResult (match r with inl _ => viewed id m' | inr err => inr err end))
  end.

Definition handleStop (id : string) (m : RoomManager) : RoomManager * answer rooms_value :=
  let '(m', err) := Stop id m in (m', writeRoomResult (match err with None => viewed id m' | Some err => inr err end)).

Definition handleRooms (env : rooms_env) (mt : Registry.method) (path : string) (m : RoomManager) : RoomManager * answer rooms_value :=
  let rest := TrimPrefix (TrimPrefix path "/rooms") "/" in
  if decide (rest = "") then
    match mt with
    | Registry.MethodGet => (m, Json Registry.StatusOK (AllViews (List_ (re_range env) m)))
    | Registry.MethodPost => handleCreateRoom env m
    | _ => (m, JsonError Registry.StatusMethodNotAllowed "method not allowed for /rooms")
    end
  else
    let missing := (m, JsonError Registry.StatusNotFound ("no such room route: " +:+ path)) in
    match Split_byte rest "/"%char with
    | [id] => if is_get mt then (m, writeRoomResult (viewed id m)) else missing
    | [id; sub] =>
        if bool_decide (sub = "say") && is_post mt then handleSay env id m
        else if bool_decide (sub = "stop") && is_post mt then handleStop id m else missing
    | _ => missing
    end.
End rooms.

(** ** Required paths and headers *)

Definition MetadataRequiredFilesystemPathsKey : string := "requiredFilesystemPaths".

Section paths.
Context `{UnicodeTables}.

(** The metadata of the message in a body, and an entry of it as a list of strings;
    [Some None] is the JSON null. *)
Context (metadata : string → gmap string string + string) (strings : string → option (option (list string))).

Definition requiredPathsFromA2AJSON (body : string) : list string + string :=
  let malformed := "message.metadata." +:+ MetadataRequiredFilesystemPathsKey +:+ " must be an array of non-empty strings" in
  match metadata body with
  | inr err => inr ("invalid A2A request body: " +:+ err)
  | inl md =>
      match md !! MetadataRequiredFilesystemPathsKey with
      | None => inl []
      | Some raw =>
          match strings raw with
          | None | Some None => inr malformed
          | Some (Some paths) => if existsb (λ p, negb (nonempty (TrimSpace p))) paths then inr malformed else inl paths
          end
      end
  end.

(** The answer of a refused preflight; the code, the agent and the path come with
    the message when it is one. *)
Definition writeFilesystemPreflightError (e : FilesystemPreflightError + string) : Z * string * option (string * string * string) :=
  match e with
  | inr msg => (StatusForbidden, msg, None)
  | inl e => (StatusForbidden, preflight_text e, Some (Code e, Agent e, Path e))
  end.

(** A header by its canonical keys; [canonical] is [textproto.CanonicalMIMEHeaderKey]. *)
Context (canonical : string → string).

Definition add_header (h : gmap string (list string)) (k v : string) : gmap string (list string) :=
  <[canonical k := default [] (h !! canonical k) ++ [v]]> h.

Definition copyHeader (visit : gmap string (list string) → list (string * list string)) (dst src : gmap string (list string))
    : gmap string (list string) :=
  foldl (λ h x, foldl (λ h v, add_header h x.1 v) h x.2) dst (visit src).

Definition hop_by_hop : list string :=
  ["Connection"; "Keep-Alive"; "Proxy-Authenticate"; "Proxy-Authorization"; "Te"; "Trailer"; "Transfer-Encoding"; "Upgrade"].

Definition connection_fields (h : gmap string (list string)) : list string :=
  filter (λ f, f ≠ "") (TrimSpace <$> (default [] (h !! canonical "Connection") ≫= λ v, Split_byte v ","%char)).

Definition removeHopByHopHeaders (h : gmap string (list string)) : gmap string (list string) :=
  foldl (λ h f, delete (canonical f) h) h (connection_fields h ++ hop_by_hop).
End paths.
