(* ===== verification/GatewayViewsLaws.v ===== *)
(** * Laws of the views and commands of the gateway

    The escaping of names round-trips; an agent's public address leads the proxy back
    to it; the answers to room commands tell what has happened to the room; and the
    headers of a connection do not travel further. *)
From S2P Require Import Prelude GoBase GoStrings Registry InstancePool AgentLifecycle LiveEvents Ledger Rooms RoomsDrive Supervisor SupervisorDrive Paths Card Preflight Transcript SchedulerFiles Gateway GatewayViews.
From Stdlib Require Import ZArith Lia Ascii.
Import InstanceName.

(** ** Splitting *)

Definition without (c : ascii) (s : string) : Prop := all_bytes (λ x, negb (bool_decide (x = c))) s = true.

Lemma Split_byte_one s c : without c s → Split_byte s c = [s].
Proof.
  unfold without. induction s as [| x s IH]; [done |]. cbn. rewrite andb_true_iff, negb_true_iff, bool_decide_eq_false. intros [N W].
  rewrite (IH W). by destruct (ascii_dec x c).
Qed.

Lemma Split_byte_app a c s : without c a → Split_byte (a +:+ String c s) c = a :: Split_byte s c.
Proof.
  unfold without. induction a as [| x a IH]; cbn [all_bytes].
  - intros _. change ("" +:+ String c s) with (String c s). cbn. by destruct (ascii_dec c c).
  - rewrite andb_true_iff, negb_true_iff, bool_decide_eq_false. intros [N W]. rewrite string_app_cons. cbn. rewrite (IH W). by destruct (ascii_dec x c).
Qed.

Lemma Contains_app a s t : Contains (a +:+ s +:+ t) s = true.
Proof.
  apply bool_decide_eq_true. induction a as [| x a IH].
  - change ("" +:+ s +:+ t) with (s +:+ t). pose proof (strip_prefix_app s t) as E. destruct (s +:+ t); cbn [Index]; by rewrite E.
  - rewrite string_app_cons. cbn [Index]. destruct (strip_prefix s _); [done |]. destruct IH as [n ->]. done.
Qed.

(** ** Escaping *)

Lemma unhex_upper c : unhex (upper_hex (nat_of_ascii c / 16)) = Some (nat_of_ascii c / 16) ∧ unhex (upper_hex (nat_of_ascii c mod 16)) = Some (nat_of_ascii c mod 16).
Proof. destruct c as [[] [] [] [] [] [] [] []]; by vm_compute. Qed.

Lemma unescape_escape keep s : keep "%"%char = false → PathUnescape (escape keep s) = Some s.
Proof.
  intros K. induction s as [| c s IH]; [done |]. cbn [escape]. destruct (keep c) eqn:E.
  - cbn [PathUnescape]. rewrite decide_False by congruence. by rewrite IH.
  - cbn [PathUnescape]. destruct (unhex_upper c) as [-> ->]. rewrite decide_True by done. rewrite IH.
    replace (16 * (nat_of_ascii c / 16) + nat_of_ascii c mod 16) with (nat_of_ascii c) by apply Nat.div_mod_eq. by rewrite ascii_nat_embedding.
Qed.

Lemma PathUnescape_plain s : without "%" s → PathUnescape s = Some s.
Proof.
  unfold without. induction s as [| c s IH]; [done |]. cbn [all_bytes PathUnescape]. rewrite andb_true_iff, negb_true_iff, bool_decide_eq_false.
  intros [N W]. by rewrite decide_False, (IH W).
Qed.


Lemma escape_without_slash s : without "/" (PathEscape s).
Proof.
  unfold without, PathEscape. induction s as [| c s IH]; [done |]. cbn [escape]. destruct (segment_byte c) eqn:K; cbn [all_bytes]; rewrite IH.
  - rewrite andb_true_r, negb_true_iff, bool_decide_eq_false. by intros ->.
  - clear. destruct c as [[] [] [] [] [] [] [] []]; by vm_compute.
Qed.

Lemma name_of_proxy_path name : without "/" name → name_of_path (a2aProxyPrefix +:+ name) = name.
Proof.
  intros W. unfold name_of_path. rewrite TrimPrefix_app.
  enough (Index name "/" = None) as -> by done.
  revert W. unfold without. induction name as [| c s IH]; [done |]. cbn [all_bytes Index]. rewrite andb_true_iff, negb_true_iff, bool_decide_eq_false.
  intros [N W]. change (strip_prefix "/" (String c s)) with (if ascii_dec "/" c then Some s else None).
  destruct (ascii_dec "/" c) as [<- |]; [done |]. by rewrite (IH W).
Qed.

(** ** Cards and names *)

(** An agent that listens on this machine is shown at the scheduler: the address
    decodes to a path of the proxy, whatever the name, and the proxy finds the name
    in it if that has no slash and no percent sign. *)
Lemma public_address_leads_back Hostname loopback base c token header mt :
  shouldExposeViaScheduler Hostname loopback (pc_URL c) = true →
  pc_Name (publicAgentCard Hostname loopback base c) = pc_Name c ∧
  ∃ e, pc_URL (publicAgentCard Hostname loopback base c) = base +:+ e ∧ PathUnescape e = Some (a2aProxyPrefix +:+ pc_Name c) ∧
    ServeHTTP token header mt (a2aProxyPrefix +:+ pc_Name c) = R_Proxy ∧
    (without "/" (pc_Name c) → without "%" (pc_Name c) → PathUnescape (name_of_path (a2aProxyPrefix +:+ pc_Name c)) = Some (pc_Name c)).
Proof.
  intros S. unfold publicAgentCard. rewrite S. split; [done |]. exists (a2aProxyPrefix +:+ PathEscape (pc_Name c)). split_and!; [done | | |].
  - unfold PathEscape. pose proof (unescape_escape segment_byte (pc_Name c) eq_refl) as E.
    change (a2aProxyPrefix +:+ escape segment_byte (pc_Name c)) with
      (String "/" (String "a" (String "2" (String "a" (String "/" (escape segment_byte (pc_Name c))))))).
    cbn [PathUnescape]. rewrite !decide_False by done. by rewrite E.
  - unfold ServeHTTP, HasPrefix. rewrite strip_prefix_app. change (a2aProxyPrefix +:+ pc_Name c) with (String "/" (String "a" (String "2" (String "a" (String "/" (pc_Name c)))))).
    rewrite bool_decide_eq_false_2 by done. cbn [andb]. by rewrite bool_decide_eq_true_2.
  - intros Sl Pc. by rewrite name_of_proxy_path, PathUnescape_plain.
Qed.

(** The name is decoded once by the server and once by the proxy: a percent sign
    does not survive. *)
Lemma percent_not_found : PathUnescape (name_of_path (a2aProxyPrefix +:+ "100%")) = None ∧
  PathUnescape (name_of_path (a2aProxyPrefix +:+ "a%41")) = Some "aA".
Proof. by vm_compute. Qed.

(** A name that is a path leads the workspace of a new agent out of the directory of
    managed agents. *)
Lemma managed_workspace_escapes file :
  ManagedAgentWorkspace (Some (mkConfig_ file 1 "/etc/ahsir.yaml")) "../../../home/x" = "/home/x" ∧ safeManagedName "../../../home/x" = false.
Proof. by vm_compute. Qed.

(** ** Commands for rooms *)

Section rooms.
Context `{UnicodeTables} `{UnicodeLower}.

Lemma viewed_spec id m : viewed id m = match rooms m !! id with Some r => inl (snapshot r) | None => inr (room_not_found id) end.
Proof. unfold viewed, Get. by destruct (rooms m !! id). Qed.

Lemma write_missing id : writeRoomResult (inr (room_not_found id)) = JsonError Registry.StatusNotFound (room_not_found id).
Proof.
  unfold writeRoomResult. enough (Contains (room_not_found id) "not found" = true) as -> by done.
  replace (room_not_found id) with (("room " +:+ fmt_q id +:+ " ") +:+ "not found" +:+ "") by (by rewrite !string_app_assoc). apply Contains_app.
Qed.

(** The routes below one room. *)
Lemma room_routes env mt id m :
  id ≠ "" → without "/" id →
  handleRooms env mt ("/rooms/" +:+ id) m =
    (m, if is_get mt then writeRoomResult (viewed id m) else JsonError Registry.StatusNotFound ("no such room route: /rooms/" +:+ id)) ∧
  handleRooms env Registry.MethodPost ("/rooms/" +:+ id +:+ "/say") m = handleSay env id m ∧
  handleRooms env Registry.MethodPost ("/rooms/" +:+ id +:+ "/stop") m = handleStop id m.
Proof.
  intros Ne W. assert (T : ∀ s, TrimPrefix (TrimPrefix ("/rooms/" +:+ s) "/rooms") "/" = s).
  { intros s. change ("/rooms/" +:+ s) with ("/rooms" +:+ ("/" +:+ s)). by rewrite !TrimPrefix_app. }
  assert (N : ∀ s, id +:+ s ≠ "") by (intros s; destruct id; [done |]; by rewrite string_app_cons).
  split_and!; unfold handleRooms; rewrite T.
  - rewrite decide_False by done. rewrite Split_byte_one by done. by destruct (is_get mt).
  - rewrite decide_False by done. by rewrite Split_byte_app.
  - rewrite decide_False by done. by rewrite Split_byte_app.
Qed.

Lemma canon_loop_registered m seen ps l out :
  canon_loop m seen ps l = inl out → Forall (λ p, Rooms.registered m p = true) l → Forall (λ p, Rooms.registered m p = true) out.
Proof.
  revert seen l. induction ps as [| p ps IH]; intros seen l; cbn; [by intros [= ->] |].
  destruct (decide _); [apply IH |]. destruct (Rooms.registered m (TrimSpace p)) eqn:R; cbn [negb]; [| done].
  destruct (bool_decide _); [apply IH |]. intros E F. apply (IH _ _ E). apply Forall_app. by repeat constructor.
Qed.

(** What the constructors of a room leave. *)
Lemma created_room sh now opening r m m' res :
  Rooms.create sh now opening r m = (m', res) → status r ≠ RoomStopped →
  ∃ r', m' = with_room (room_ID (meta r)) r' m ∧ meta r' = meta r ∧ ∃ x, res = inl x.
Proof.
  unfold create. intros E L. destruct (decide _); [injection E as <- <-; by exists r; split_and!; [| | eexists] |].
  unfold Rooms.Say in E. cbn [rooms with_room] in E. rewrite lookup_insert_eq in E.
  destruct (Say_locked _ _ _ _ _) as [[[r' t] start] |] eqn:S.
  - injection E as <- <-. exists r'. split_and!; [| by apply (said_meta _ _ _ _ _ (Say_said _ _ _ _ _ _ _ _ S)) | by eexists].
    unfold with_room. cbn. by rewrite insert_insert_eq.
  - unfold Say_locked in S. destruct (decide (status r = RoomStopped)); [done |]. by destruct (decide _).
Qed.

Lemma viewed_with id r m : writeRoomResult (viewed id (with_room id r m)) = Json Registry.StatusOK (OneView (snapshot r)).
Proof. rewrite viewed_spec. cbn. by rewrite lookup_insert_eq. Qed.

Lemma say_answer env id m q :
  re_say env = inl q → sy_Text q ≠ "" →
  match rooms m !! id with
  | None => handleSay env id m = (m, JsonError Registry.StatusNotFound (room_not_found id))
  | Some r =>
      (status r = RoomStopped → handleSay env id m = (m, JsonError StatusConflict "room is stopped")) ∧
      (status r ≠ RoomStopped → ∃ r' t, handleSay env id m = (with_room id r' m, Json Registry.StatusOK (OneView (snapshot r'))) ∧
         transcript r' = transcript r ++ [t] ∧ Text t = sy_Text q ∧ meta r' = meta r)
  end.
Proof.
  intros Q T. unfold handleSay. rewrite Q, decide_False by done. unfold Rooms.Say. destruct (rooms m !! id) as [r |] eqn:R; [| exact (f_equal (pair m) (write_missing id))].
  destruct (Say_locked _ _ _ _ r) as [[[r' t] start] |] eqn:S; split; intros St.
  - by apply Say_said, said_live in S.
  - exists r', t. rewrite viewed_with. pose proof (Say_said _ _ _ _ _ _ _ _ S) as Sd. split_and!; [done | apply Sd | | apply Sd].
    unfold Say_locked in S. destruct (decide (status r = _)); [done |]. by destruct (decide _); injection S as <- <- <-.
  - by vm_compute.
  - unfold Say_locked in S. rewrite decide_False in S by done. by destruct (decide _).
Qed.

Lemma stop_answer id m :
  match rooms m !! id with
  | None => handleStop id m = (m, JsonError Registry.StatusNotFound (room_not_found id))
  | Some r => handleStop id m = (with_room id (Stop_locked r) m, Json Registry.StatusOK (OneView (snapshot (Stop_locked r))))
  end.
Proof. unfold handleStop, Rooms.Stop. destruct (rooms m !! id); [by rewrite viewed_with | exact (f_equal (pair m) (write_missing id))]. Qed.

Lemma participants_ok m ps l : canonParticipants m ps = inl l → l ≠ [] ∧ Forall (λ p, Rooms.registered m p = true) l.
Proof.
  unfold canonParticipants. destruct (canon_loop m ∅ ps []) as [[| x xs] |] eqn:E; try done. intros [= <-]. split; [done |].
  by apply (canon_loop_registered _ _ _ _ _ E).
Qed.

Lemma create_answer env m m' a :
  handleCreateRoom env m = (m', a) →
  (m' = m ∧ status_of a = Registry.StatusBadRequest) ∨
  ∃ r, m' = with_room (re_id env) r m ∧ a = Json StatusCreated (OneView (snapshot r)) ∧ Participants (meta r) ≠ [] ∧
    Forall (λ p, Rooms.registered m p = true) (Participants (meta r)).
Proof.
  unfold handleCreateRoom. destruct (re_create env) as [q |]; [| by intros [= <- <-]; left].
  assert (Go : ∀ r res opening, Rooms.create (re_shuffle env) (re_now env) opening r m = (m', res) → status r ≠ RoomStopped → room_ID (meta r) = re_id env →
    Participants (meta r) ≠ [] → Forall (λ p, Rooms.registered m p = true) (Participants (meta r)) →
    a = match res with
        | inr err => JsonError Registry.StatusBadRequest err
        | inl _ => match viewed (re_id env) m' with inl v => Json StatusCreated (OneView v) | inr err => JsonError Registry.StatusBadRequest err end
        end →
    ∃ r, m' = with_room (re_id env) r m ∧ a = Json StatusCreated (OneView (snapshot r)) ∧ Participants (meta r) ≠ [] ∧
      Forall (λ p, Rooms.registered m p = true) (Participants (meta r))).
  { intros r res opening C L Id Ne F ->. destruct (created_room _ _ _ _ _ _ _ C L) as (r' & -> & M & x & ->). rewrite Id in *. exists r'.
    rewrite viewed_spec. cbn. rewrite lookup_insert_eq. by rewrite M. }
  destruct (decide (cm_Mode q = RoomModeRoundtable)).
  - unfold CreateRoundtableRoom, roundtable_room. destruct (canonParticipants m _) as [ps |] eqn:P; [| by intros [= <- <-]; left].
    destruct (decide (TrimSpace (cm_Moderator q) = "")); [by intros [= <- <-]; left |]. destruct (negb _); [by intros [= <- <-]; left |].
    destruct (existsb _ _); [by intros [= <- <-]; left |]. apply participants_ok in P as [Ne F].
    destruct (Rooms.create _ _ _ _ _) as [m1 res] eqn:C. intros [= -> <-]. right. by eapply Go; [exact C | ..].
  - unfold CreateRoom, relay_room. destruct (canonParticipants m _) as [ps |] eqn:P; [| by intros [= <- <-]; left].
    destruct (_ && _); [by intros [= <- <-]; left |]. apply participants_ok in P as [Ne F].
    destruct (Rooms.create _ _ _ _ _) as [m1 res] eqn:C. intros [= -> <-]. right. by eapply Go; [exact C | ..].
Qed.

Lemma changed_only_ok env mt path m m' a :
  handleRooms env mt path m = (m', a) → m' ≠ m → status_of a = Registry.StatusOK ∨ status_of a = StatusCreated.
Proof.
  assert (Say : ∀ id, handleSay env id m = (m', a) → m' ≠ m → status_of a = Registry.StatusOK).
  { intros id. destruct (re_say env) as [q |] eqn:Q; [| by unfold handleSay; rewrite Q; intros [= <- <-]].
    destruct (decide (sy_Text q = "")); [by unfold handleSay; rewrite Q, decide_True by done; intros [= <- <-] |].
    pose proof (say_answer env id m q Q ltac:(done)) as A. destruct (rooms m !! id) as [r |]; [| rewrite A; by intros [= <- <-]].
    destruct A as [A1 A2]. destruct (decide (status r = RoomStopped)) as [St | St]; [rewrite A1 by done; by intros [= <- <-] |].
    destruct (A2 St) as (r' & t & -> & _). by intros [= <- <-]. }
  assert (Stop : ∀ id, handleStop id m = (m', a) → m' ≠ m → status_of a = Registry.StatusOK).
  { intros id. pose proof (stop_answer id m) as A. by destruct (rooms m !! id); rewrite A; intros [= <- <-]. }
  unfold handleRooms. destruct (decide _).
  - destruct mt; [by intros [= <- <-] | | by intros [= <- <-] | by intros [= <- <-]].
    intros [[-> _] | (r & _ & -> & _)]%create_answer; [done | by right].
  - destruct (Split_byte _ _) as [| id [| sub [| x l]]]; [by intros [= <- <-] | by destruct (is_get mt); intros [= <- <-] | | by intros [= <- <-]].
    destruct (_ && _); [intros A N; left; by eapply Say |]. destruct (_ && _); [intros A N; left; by eapply Stop | by intros [= <- <-]].
Qed.

(** (C40) The answers to room requests are true. A room is answered with 404 exactly when
    it does not exist, a message with 409 exactly when the room has been stopped; a
    message that is accepted is the next turn of the transcript, and the view in the
    answer shows it; a stopped room keeps its transcript; a created room has
    registered participants and is the only room that has changed; and a request
    that is refused, whatever its route, leaves every room as it was. *)
Theorem room_answers_true env m id :
  id ≠ "" → without "/" id →
  (handleRooms env Registry.MethodGet ("/rooms/" +:+ id) m =
     (m, match rooms m !! id with
         | None => JsonError Registry.StatusNotFound (room_not_found id)
         | Some r => Json Registry.StatusOK (OneView (snapshot r))
         end)) ∧
  (∀ q, re_say env = inl q → sy_Text q ≠ "" →
     let answered := handleRooms env Registry.MethodPost ("/rooms/" +:+ id +:+ "/say") m in
     match rooms m !! id with
     | None => answered = (m, JsonError Registry.StatusNotFound (room_not_found id))
     | Some r =>
         (status r = RoomStopped → answered = (m, JsonError StatusConflict "room is stopped")) ∧
         (status r ≠ RoomStopped → ∃ r' t, answered = (with_room id r' m, Json Registry.StatusOK (OneView (snapshot r'))) ∧
            transcript r' = transcript r ++ [t] ∧ Text t = sy_Text q ∧ meta r' = meta r)
     end) ∧
  (let answered := handleRooms env Registry.MethodPost ("/rooms/" +:+ id +:+ "/stop") m in
   match rooms m !! id with
   | None => answered = (m, JsonError Registry.StatusNotFound (room_not_found id))
   | Some r => ∃ r', answered = (with_room id r' m, Json Registry.StatusOK (OneView (snapshot r'))) ∧ status r' = RoomStopped ∧ transcript r' = transcript r
   end) ∧
  (∀ m' a, handleRooms env Registry.MethodPost "/rooms" m = (m', a) →
     (m' = m ∧ status_of a = Registry.StatusBadRequest) ∨
     ∃ r, m' = with_room (re_id env) r m ∧ a = Json StatusCreated (OneView (snapshot r)) ∧ Participants (meta r) ≠ [] ∧
       Forall (λ p, Rooms.registered m p = true) (Participants (meta r))) ∧
  (∀ mt path m' a, handleRooms env mt path m = (m', a) → m' ≠ m → status_of a = Registry.StatusOK ∨ status_of a = StatusCreated).
Proof.
  intros Ne W. destruct (room_routes env Registry.MethodGet id m Ne W) as (Get_ & Say_ & Stop_). split_and!.
  - rewrite Get_. cbn [is_get]. rewrite viewed_spec. by destruct (rooms m !! id); [| rewrite write_missing].
  - intros q Q T. cbv zeta. rewrite Say_. by apply say_answer.
  - cbv zeta. rewrite Stop_. pose proof (stop_answer id m) as A. destruct (rooms m !! id) as [r |]; [| done]. by exists (Stop_locked r).
  - intros m' a. apply create_answer.
  - intros mt path m' a. apply changed_only_ok.
Qed.
End rooms.

(** ** The rest *)

(** Instances of a pool are not shown, every other agent is. *)
Lemma public_agents_complete Hostname loopback status base cards x :
  x ∈ handlePublicAgents Hostname loopback status base cards ↔
  ∃ c, c ∈ cards ∧ isInstanceChild (pc_Name c) = false ∧ x = (publicAgentCard Hostname loopback base c, status (pc_Name c)).
Proof. unfold handlePublicAgents. rewrite list_elem_of_fmap. setoid_rewrite list_elem_of_filter. naive_solver. Qed.

(** What the supervisor is asked for has a name and a workspace, so a refusal for the
    want of one cannot come from it; the status tells what came of it. *)
Lemma admin_start_asks cfg ensure body asked a :
  handleAdminStart cfg ensure body = (asked, a) →
  (asked = None ↔ status_of a = Registry.StatusBadRequest) ∧
  ∀ c, asked = Some c → ac_Name c ≠ "" ∧ Workspace c ≠ "" ∧
    ∃ req, body = inl req ∧ ac_Name c = sa_Name req ∧ (sa_Workspace req ≠ "" → Workspace c = sa_Workspace req) ∧
    match ensure c (sa_Card req) with
    | inl (port, created) => a = Json (if created then StatusCreated else Registry.StatusOK) (sa_Name req, port)
    | inr (e, _) => status_of a = if is_conflict e then StatusConflict else StatusInternalServerError
    end.
Proof.
  unfold handleAdminStart. destruct body as [req |]; [| by intros [= <- <-]]. destruct (decide (sa_Name req = "")) as [| Ne]; [by intros [= <- <-] |].
  assert (W : ∀ w, start_workspace cfg req = inl w → w ≠ "" ∧ (sa_Workspace req ≠ "" → w = sa_Workspace req)).
  { intros w. unfold start_workspace. destruct (sa_Card req), (sa_Workspace req); cbn [nonempty]; try done; [| by intros [= <-]..].
    destruct (ManagedAgentWorkspace _ _); cbn [nonempty]; [done |]. by intros [= <-]. }
  destruct (start_workspace cfg req) as [w |]; [| by intros [= <- <-]]. destruct (W w eq_refl) as [Wn Ws]. intros [= <- <-].
  split; [destruct (ensure _ _) as [[port []] | [e msg]]; cbn; try destruct (is_conflict e); done |].
  intros c [= <-]. split_and!; [done | done |]. exists req. split_and!; [done | done | done |].
  by destruct (ensure _ _) as [[port created] | [e msg]].
Qed.

(** The paths of a request are never blank, and a body without the key asks for none. *)
Lemma required_paths_ok `{UnicodeTables} metadata strings body paths :
  requiredPathsFromA2AJSON metadata strings body = inl paths → Forall (λ p, TrimSpace p ≠ "") paths.
Proof.
  unfold requiredPathsFromA2AJSON. destruct (metadata body) as [md |]; [| done]. destruct (md !! _); [| by intros [= <-]].
  destruct (strings _) as [[ps |] |]; [| done | done]. destruct (existsb _ ps) eqn:E; [done |]. intros [= <-]. apply Forall_forall. intros p P T.
  assert (existsb (λ p, negb (nonempty (TrimSpace p))) ps = true); [| congruence].
  apply existsb_exists. exists p. by rewrite <- list_elem_of_In, T.
Qed.

(** No header of the connection travels on, and all others do. *)
Lemma hop_by_hop_removed `{UnicodeTables} canonical h k :
  removeHopByHopHeaders canonical h !! k = if decide (k ∈ canonical <$> connection_fields canonical h ++ hop_by_hop) then None else h !! k.
Proof.
  unfold removeHopByHopHeaders. generalize (connection_fields canonical h ++ hop_by_hop). intros l. revert h.
  induction l as [| f l IH]; intros h; [done |]. cbn [foldl]. rewrite IH, fmap_cons, lookup_delete.
  destruct (decide (k ∈ canonical <$> l)) as [I | N]; [by rewrite decide_True by (by right) |].
  destruct (decide (canonical f = k)) as [<- | Nf]; [by rewrite decide_True by left |]. rewrite decide_False; [done |].
  rewrite elem_of_cons. by intros [-> |].
Qed.

(** ** A room in which something was said *)

#[local] Existing Instances bytewise_lower ascii_tables.

Definition witness_room : Room := new_room (mkMeta "r1" "t" ["ann"] "operator" 3 RoomModeRelay "" 0 1).
Definition witness_manager : RoomManager := mkManager {["r1" := witness_room; "r2" := Stop_locked witness_room]} None.
Definition witness_env : rooms_env := mkRoomsEnv (inr "") (inl (mkSay "hello" "")) "r3" 5 id map_to_list.

Lemma room_answers_true_witness :
  (handleRooms witness_env Registry.MethodPost "/rooms/r2/say" witness_manager = (witness_manager, JsonError StatusConflict "room is stopped")) ∧
  (∃ r t, handleRooms witness_env Registry.MethodPost "/rooms/r1/say" witness_manager = (with_room "r1" r witness_manager, Json Registry.StatusOK (OneView (snapshot r))) ∧
     transcript r = [t] ∧ Text t = "hello").
Proof.
  split.
  - destruct (room_answers_true witness_env witness_manager "r2" ltac:(discriminate) eq_refl) as (_ & Said & _).
    specialize (Said (mkSay "hello" "") eq_refl ltac:(discriminate)). exact (proj1 Said eq_refl).
  - destruct (room_answers_true witness_env witness_manager "r1" ltac:(discriminate) eq_refl) as (_ & Said & _).
    specialize (Said (mkSay "hello" "") eq_refl ltac:(discriminate)). destruct (proj2 Said ltac:(discriminate)) as (r & t & E & T & X & _).
    exists r, t. split; [exact E |]. split; [exact T | exact X].
Defined.
