(* ===== verification/Dispatch.v ===== *)
(** * Dispatching a turn ([internal/scheduler/scheduler.go], [internal/wrapper/client.go])

    From the name of an agent to the message on the wire: the instance of a pooled
    agent, the wake of an idle one, the address and token, the message and the reading
    of the answer; and the reading of histories and tasks with the handlers that serve
    them. What is done is recorded in order. Starting and waking with their waits, the
    A2A transport and HTTP answer through the environment, which may change the state
    of the scheduler meanwhile. *)
From S2P Require Import Prelude GoBase GoStrings Registry InstancePool AgentLifecycle Transcript Supervisor SupervisorDrive Paths Card SchedulerFiles Gateway GatewayViews.
From Stdlib Require Import ZArith Lia Ascii.

(** ** The client *)

Inductive Part := TextPart (text : string) | OtherPart.
Inductive Role := RoleUser | RoleAgent | RoleOther.

#[export] Instance Role_eq_dec : EqDecision Role.
Proof. solve_decision. Defined.

(** A message; its metadata are the two keys that are written. *)
Record A2AMessage := mkA2A {
  msg_Role : Role; msg_ContextID : string; msg_Parts : list Part; msg_speaker : option string; msg_required : option (list string);
}.
Record A2ATask := mkA2ATask { task_ID : string; task_State : string; task_History : list A2AMessage }.

(** The result of a send; another type is shown by its name and its value. *)
Inductive send_result := SentMessage (m : A2AMessage) | SentTask (t : A2ATask) | SentOther (type value : string).

Definition type_name (r : send_result) : string :=
  match r with SentMessage _ => "*a2a.Message" | SentTask _ => "*a2a.Task" | SentOther t _ => t end.

Definition buildUserMessageWithRequirements (contextID speaker text : string) (requiredPaths : list string) : A2AMessage :=
  mkA2A RoleUser contextID [TextPart text] (if decide (speaker = "") then None else Some speaker)
    (if decide (requiredPaths = []) then None else Some requiredPaths).

Definition buildUserMessage (contextID speaker text : string) : A2AMessage := buildUserMessageWithRequirements contextID speaker text [].

Definition messageToString (m : A2AMessage) : string :=
  match omap (λ p, if p is TextPart t then Some t else None) (msg_Parts m) with t :: _ => t | [] => "" end.

Definition first_text (l : list A2AMessage) : option string := head (filter (λ t, t ≠ "") (messageToString <$> l)).

Definition taskToString (t : A2ATask) : string :=
  match first_text (filter (λ m, msg_Role m = RoleAgent) (reverse (task_History t))) with
  | Some txt => txt
  | None => match first_text (task_History t) with Some txt => txt | None => task_State t end
  end.

(** [SendMessageWithRequirements] and its non-blocking form on the answer; [card] is
    the name on the card. *)
Definition read_reply (card : string) (answer : send_result + string) : string + string :=
  match answer with
  | inr err => inr ("send message to " +:+ card +:+ ": " +:+ err)
  | inl (SentMessage m) => inl (messageToString m)
  | inl (SentTask t) => inl (taskToString t)
  | inl (SentOther _ value) => inl value
  end.

Definition read_task (card : string) (answer : send_result + string) : A2ATask + string :=
  match answer with
  | inr err => inr ("send message to " +:+ card +:+ ": " +:+ err)
  | inl (SentTask t) => inl t
  | inl r => inr ("non-blocking send to " +:+ card +:+ ": expected a task result, got " +:+ type_name r)
  end.

(** ** Turns *)

(** What a dispatch does to the pool and the agent: the deadline is that of the
    request, if it has one. *)
Inductive act :=
| Acquired (pool : nat) (idx : Z) | Released (pool : nat) (idx : Z) | Woken (target : string)
| Sent (to : dial_target) (m : A2AMessage) (blocking : bool) (deadline : option duration).

(** [startOrWakeInstance] and [ensureAwake] as a whole, the address on the registry
    card and the name on the card dialled, the error of creating a client, and the
    send. *)
Record dispatch_env := mkDispatch {
  de_bring : string → Z → Sched → Sched * option string;
  de_awake : string → Sched → Sched * option string;
  de_registered : string → option string;
  de_card : string → string;
  de_client : dial_target → option string;
  de_send : dial_target → A2AMessage → bool → option duration → Sched → Sched * (send_result + string);
}.

Section dispatch.
Context (env : dispatch_env) (chatTimeout taskTimeout : duration).

(** [resolveInstance]: the agent to dial, and the pool and ordinal that the release
    it returns gives back. *)
Definition resolve (name contextID : string) (s : Sched) : Sched * list act * (string * option (nat * Z) + string) :=
  match resolveInstance name contextID s with
  | (s, target, None) => (s, [], inl (target, None))
  | (s, target, Some (p, idx)) =>
      if decide (idx = 0%Z) then (s, [Acquired p idx], inl (target, Some (p, idx)))
      else match de_bring env name idx s with
           | (s, Some err) => (release_instance p idx s, [Acquired p idx; Released p idx], inr err)
           | (s, None) => (s, [Acquired p idx], inl (target, Some (p, idx)))
           end
  end.

(** The release itself. *)
Definition release_of (taken : option (nat * Z)) (s : Sched) : Sched * list act :=
  match taken with None => (s, []) | Some (p, idx) => (release_instance p idx s, [Released p idx]) end.

(** The address of the target once it is awake, with a client for it. *)
Definition dial (name target : string) (s : Sched) : Sched * (dial_target + string) :=
  match de_awake env target s with
  | (s, Some err) => (s, inr err)
  | (s, None) =>
      (s, match agentDialTarget (de_registered env target) target s with
          | None => inr ("agent " +:+ name +:+ " not found")
          | Some d =>
              match de_client env d with
              | Some err => inr ("create client for " +:+ name +:+ ": create client for " +:+ de_card env target +:+ ": " +:+ err)
              | None => inl d
              end
          end)
  end.

(** The turn between the acquisition and the release. *)
Definition send_turn {A} (read : string → send_result + string → A + string) (blocking : bool) (deadline : option duration)
    (name target : string) (m : A2AMessage) (s : Sched) : Sched * list act * (A + string) :=
  match dial name target s with
  | (s, inr err) => (s, [Woken target], inr err)
  | (s, inl d) =>
      let '(s, answer) := de_send env d m blocking deadline s in
      (s, [Woken target; Sent d m blocking deadline], read (de_card env target) answer)
  end.

Definition ChatWithAgentAs (name contextID speaker message : string) (s : Sched) : Sched * list act * (string + string) :=
  match resolve name contextID s with
  | (s, acts, inr err) => (s, acts, inr err)
  | (s, acts, inl (target, taken)) =>
      let deadline := if (0 <? chatTimeout)%Z then Some chatTimeout else None in
      let '(s, turn, r) := send_turn read_reply true deadline name target (buildUserMessage contextID speaker message) s in
      let '(s, released) := release_of taken s in (s, acts ++ turn ++ released, r)
  end.

Definition ChatWithAgent (name contextID message : string) : Sched → Sched * list act * (string + string) :=
  ChatWithAgentAs name contextID "" message.

(** The task comes with what its settling releases. *)
Definition ChatWithAgentAsync (name contextID speaker message : string) (s : Sched)
    : Sched * list act * (A2ATask * option (nat * Z) + string) :=
  match resolve name contextID s with
  | (s, acts, inr err) => (s, acts, inr err)
  | (s, acts, inl (target, taken)) =>
      match send_turn read_task false (Some taskTimeout) name target (buildUserMessage contextID speaker message) s with
      | (s, turn, inl t) => (s, acts ++ turn, inl (t, taken))
      | (s, turn, inr err) => let '(s, released) := release_of taken s in (s, acts ++ turn ++ released, inr err)
      end
  end.
End dispatch.

(** ** Histories and tasks *)

(** What a request for a history comes to. *)
Inductive fetched := BadRequest_ (msg : string) | Unreachable (msg : string) | Answered (status : Z) (turns : list TranscriptTurn + string).

Section reads.
(** The card of an agent in the registry, the transcripts on the disk, and the fetch
    of an address with a token. *)
Context (registered : string → option string) (managed : string → string → list TranscriptTurn + string)
  (fetch : string → string → fetched) (getTask : dial_target → string → A2ATask + string) (client : dial_target → option string) (card : string → string).

Definition history_url (base contextID : string) : string := TrimSuffix base "/" +:+ "/history?contextId=" +:+ QueryEscape contextID.

(** [AgentHistory], with what was requested of the agent. *)
Definition AgentHistory (s : Sched) (name contextID : string) : option (string * string) * (list TranscriptTurn + string) :=
  if decide (is_Some (idleStopped s !! name)) then (None, managed name contextID)
  else match agentDialTarget (registered name) name s with
  | None => (None, inr ("agent " +:+ name +:+ " not found"))
  | Some d =>
      let url := history_url (d_url d) contextID in
      match fetch url (d_token d) with
      | BadRequest_ msg => (None, inr ("build history request for " +:+ name +:+ ": " +:+ msg))
      | Unreachable msg =>
          (Some (url, d_token d),
           let failed := inr ("fetch history from " +:+ name +:+ ": " +:+ msg) in
           if decide (is_Some (desired s !! name)) then match managed name contextID with inl turns => inl turns | inr _ => failed end else failed)
      | Answered status turns =>
          (Some (url, d_token d),
           if negb (status =? Registry.StatusOK)%Z then inr ("agent " +:+ name +:+ " history: status " +:+ fmt_d status)
           else match turns with inl turns => inl turns | inr err => inr ("decode history from " +:+ name +:+ ": " +:+ err) end)
      end
  end.

Definition GetTaskStatus (s : Sched) (name taskID : string) : A2ATask + string :=
  match agentDialTarget (registered name) name s with
  | None => inr ("agent " +:+ name +:+ " not found")
  | Some d =>
      match client d with
      | Some err => inr ("create client for " +:+ name +:+ ": create client for " +:+ card name +:+ ": " +:+ err)
      | None => match getTask d taskID with inl t => inl t | inr err => inr ("get task " +:+ taskID +:+ ": " +:+ err) end
      end
  end.

(** The handlers; the history of an agent that is not registered is the archived
    one. *)
Definition handleHistory (archived : string → string → list TranscriptTurn + string) (s : Sched) (name rawContextID : string)
    : answer (list TranscriptTurn) :=
  match PathUnescape rawContextID with
  | None | Some "" => JsonError Registry.StatusBadRequest "invalid contextId"
  | Some contextID =>
      if decide (is_Some (registered name)) then
        match (AgentHistory s name contextID).2 with inl turns => Json Registry.StatusOK turns | inr err => JsonError StatusBadGateway err end
      else match archived name contextID with inl turns => Json Registry.StatusOK turns | inr err => JsonError Registry.StatusNotFound err end
  end.

Definition handleTask (s : Sched) (name taskID : string) : answer A2ATask :=
  if decide (name = "" ∨ taskID = "") then JsonError Registry.StatusBadRequest "agent name and task id are required"
  else match GetTaskStatus s name taskID with
  | inl t => Json Registry.StatusOK t
  | inr err => JsonError (if decide (is_Some (registered name)) then StatusBadGateway else Registry.StatusNotFound) err
  end.
End reads.
