(* ===== verification/DispatchLaws.v ===== *)
(** * Laws of dispatching a turn

    A turn takes an instance and gives it back exactly once, is sent at most once and
    only to a target that is awake, with the token that belongs to it; what is
    returned is read from the agent's answer; and reading a history never wakes anyone. *)
From S2P Require Import Prelude GoBase GoStrings Registry InstancePool AgentLifecycle Transcript Supervisor SupervisorDrive Paths Card SchedulerFiles Gateway GatewayViews Dispatch.
From Stdlib Require Import ZArith Lia Ascii.

(** ** The load of a pool *)

(** The turns in flight on the instance [i] of the pool [p]; there are none on a pool
    that has not been made. *)
Definition load_of (p : nat) (i : Z) (s : Sched) : Z := from_option (λ pool, InstancePool.load pool i) 0%Z (pool_objects s !! p).

(** Every pool is well formed, and an entry of the map points to one. *)
Definition pools_ok (s : Sched) : Prop :=
  Forall InstancePool.wf (pool_objects s) ∧ ∀ n p, pools s !! n = Some p → p < length (pool_objects s).

(** The pool of an agent, which is made when it is first asked for. *)
Definition pool_of (name : string) (s : Sched) : option nat := (poolFor name s).2.

(** A change of the state in which no turn on the pool begins or ends: the map, and
    with it the whole scheduler, may change. *)
Definition frame (p : nat) {A} (f : Sched → Sched * A) : Prop := ∀ s, pool_objects (f s).1 !! p = pool_objects s !! p.

Lemma load_new n i : InstancePool.load (InstancePool.newInstancePool n) i = 0%Z.
Proof. unfold InstancePool.load, InstancePool.newInstancePool. cbn. by rewrite lookup_empty. Qed.

Lemma poolFor_spec name s s' r :
  poolFor name s = (s', r) → pools_ok s →
  pools_ok s' ∧ (∀ p, r = Some p → p < length (pool_objects s')) ∧ ∀ p i, load_of p i s' = load_of p i s.
Proof.
  unfold poolFor, load_of. intros E [W P]. destruct (pools s !! name) as [p |] eqn:Hp.
  { injection E as <- <-. split_and!; [done | | done]. intros q [= <-]. by apply (P name). }
  destruct (desired s !! name) as [c |]; [| by injection E as <- <-; split_and!].
  destruct (_ <=? _)%Z; [by injection E as <- <-; split_and! |]. injection E as <- <-. unfold pools_ok. cbn. rewrite length_app. cbn. split_and!.
  - apply Forall_app. split; [done |]. apply Forall_singleton, InstancePool.instances_wf_new.
  - intros n q [[-> <-] | [_ Q]]%lookup_insert_Some; [lia |]. specialize (P n q Q). lia.
  - intros q [= <-]. lia.
  - intros q i. destruct (decide (q < length (pool_objects s))) as [L | L]; [by rewrite lookup_app_l |].
    rewrite lookup_app_r, (lookup_ge_None_2 (pool_objects s)) by lia. destruct (q - _) as [| [|]]; cbn; [apply load_new | done | done].
Qed.

(** Taking an instance adds one turn to it. *)
Lemma resolveInstance_spec name ctx s s' target taken :
  resolveInstance name ctx s = (s', target, taken) → pools_ok s →
  pools_ok s' ∧
  match taken with
  | None => target = name ∧ pool_of name s = None ∧ ∀ p i, load_of p i s' = load_of p i s
  | Some (p, k) => (0 ≤ k)%Z ∧ pool_of name s = Some p ∧ (0 < load_of p k s')%Z ∧
      target = (if decide (k = 0%Z) then name else InstanceName.instanceName name k) ∧
      ∀ q i, load_of q i s' = (load_of q i s + if decide ((p, k) = (q, i)) then 1 else 0)%Z
  end.
Proof.
  unfold resolveInstance, pool_of. destruct (poolFor name s) as [s1 [p |]] eqn:F; intros E Ok; destruct (poolFor_spec _ _ _ _ F Ok) as ([W P] & Lt & L).
  2: { injection E as <- <- <-. by split_and!. }
  specialize (Lt p eq_refl). destruct (lookup_lt_is_Some_2 _ _ Lt) as [pool Hp]. unfold acquire_instance in E. rewrite Hp in E. cbn in E.
  destruct (InstancePool.acquire ctx pool) as [k pool'] eqn:A. injection E as <- <- <-. pose proof (Forall_lookup_1 _ _ _ _ W Hp) as Wp.
  destruct (InstancePool.acquire_spec _ _ _ _ Wp A) as (W' & K & _ & Ld & _). pose proof (InstancePool.wf_active pool Wp k) as [Lk _].
  assert (New : ∀ q i, load_of q i (with_pool_objects (<[p := pool']> (pool_objects s1)) s1) =
    (load_of q i s + if decide ((p, k) = (q, i)) then 1 else 0)%Z).
  { intros q i. rewrite <- L. unfold load_of. cbn. destruct (decide (p = q)) as [<- |].
    - rewrite list_lookup_insert_eq, Hp by done. cbn. rewrite Ld. repeat case_decide; (congruence || lia).
    - rewrite list_lookup_insert_ne by done. rewrite decide_False by congruence. lia. }
  split_and!; [split | lia | done | | done | done].
  - by apply Forall_insert.
  - cbn. intros n q Q. rewrite length_insert. by apply (P n).
  - rewrite New, <- L. unfold load_of. rewrite Hp, decide_True by done. cbn. lia.
Qed.

(** A well-formed pool stays one when a turn on it ends. *)
Definition lawful (p : nat) (s : Sched) : Prop := ∀ pool, pool_objects s !! p = Some pool → InstancePool.wf pool.

Lemma pools_lawful p s : pools_ok s → lawful p s.
Proof. intros [W _] pool Hp. by apply (Forall_lookup_1 _ _ _ _ W Hp). Qed.

Lemma release_spec p k s :
  lawful p s → (0 < load_of p k s)%Z →
  lawful p (release_instance p k s) ∧ ∀ i, load_of p i (release_instance p k s) = (load_of p i s - if decide (k = i) then 1 else 0)%Z.
Proof.
  unfold lawful, release_instance, load_of. cbn. rewrite list_lookup_alter_eq. intros W L.
  destruct (pool_objects s !! p) as [pool |]; cbn in *; [| lia]. split.
  - intros ? [= <-]. by apply InstancePool.wf_release, W.
  - intros i. unfold InstancePool.release. rewrite (proj2 (Z.ltb_lt _ _)) by done. rewrite InstancePool.load_set_load. case_decide; subst; lia.
Qed.

(** ** Turns *)

(** The agent that is dialled for an ordinal, and what is done around a turn. *)
Definition target_of (name : string) (taken : option (nat * Z)) : string :=
  match taken with None => name | Some (_, k) => if decide (k = 0%Z) then name else InstanceName.instanceName name k end.
Definition bracket (taken : option (nat * Z)) (turn : list act) : list act :=
  match taken with None => turn | Some (p, k) => Acquired p k :: turn ++ [Released p k] end.
Definition turn_of (taken : option (nat * Z)) (p : nat) (i : Z) : Z := if decide (taken = Some (p, i)) then 1%Z else 0%Z.

(** The address and the token of a target in a state: a token goes only to the local
    address of the process it belongs to. *)
Definition rightful (t : string) (d : dial_target) (s : Sched) : Prop :=
  match agents s !! t with
  | Some ptr => ∃ p, procs s !! ptr = Some p ∧ d = mkDial (localURL p) (internalToken p)
  | None => d_token d = ""
  end.

Lemma dial_rightful registered t d s : agentDialTarget registered t s = Some d → rightful t d s.
Proof.
  unfold agentDialTarget, rightful. destruct (agents s !! t); intros E.
  - apply fmap_Some in E as (p & P & ->). by exists p.
  - by apply fmap_Some in E as (u & _ & ->).
Qed.

Section dispatch.
Context (env : dispatch_env) (chatTimeout taskTimeout : duration) (name : string).

(** The turn that was sent to a target, or why there was none. *)
Definition sent_well {A} (read : string → send_result + string → A + string) (b : bool) (dl : option duration) (m : A2AMessage) (t : string)
    (turn : list act) (r : A + string) : Prop :=
  (turn = [Woken t] ∧ ∃ err, r = inr err) ∨
  ∃ s1 s2 d, turn = [Woken t; Sent d m b dl] ∧ de_awake env t s1 = (s2, None) ∧ rightful t d s2 ∧
    r = read (de_card env t) (de_send env d m b dl s2).2.

(** No other turn begins or ends on the pool during the dispatch. *)
Definition undisturbed (p : nat) : Prop :=
  (∀ k, frame p (de_bring env name k)) ∧ (∀ t, frame p (de_awake env t)) ∧ ∀ d m b dl, frame p (de_send env d m b dl).

Definition same_pool (p : nat) (s s' : Sched) : Prop := pool_objects s' !! p = pool_objects s !! p.

Lemma same_load p s s' i : same_pool p s s' → load_of p i s' = load_of p i s.
Proof. unfold same_pool, load_of. by intros ->. Qed.
Lemma same_lawful p s s' : same_pool p s s' → lawful p s → lawful p s'.
Proof. unfold same_pool, lawful. by intros ->. Qed.

Lemma send_turn_spec {A} (read : string → send_result + string → A + string) b dl t m s s' turn r :
  send_turn env read b dl name t m s = (s', turn, r) →
  sent_well read b dl m t turn r ∧ ∀ p, undisturbed p → same_pool p s s'.
Proof.
  unfold send_turn, dial, same_pool. destruct (de_awake env t s) as [s1 o] eqn:W.
  assert (K : ∀ p, undisturbed p → pool_objects s1 !! p = pool_objects s !! p) by (intros p (_ & F & _); by rewrite <- (F t s), W).
  destruct o as [err |]; [intros [= <- <- <-]; split; [left; split; [done | by eexists] | done] |].
  destruct (agentDialTarget _ t s1) as [d |] eqn:D; [| intros [= <- <- <-]; split; [left; split; [done | by eexists] | done]].
  destruct (de_client env d); [intros [= <- <- <-]; split; [left; split; [done | by eexists] | done] |].
  destruct (de_send env d m b dl s1) as [s2 ans] eqn:S. intros [= <- <- <-]. split.
  - right. exists s, s1, d. rewrite S. split_and!; [done | done | by apply (dial_rightful _ _ _ _ D) | done].
  - intros p U. rewrite <- (K p U). destruct U as (_ & _ & F). by rewrite <- (F d m b dl s1), S.
Qed.

(** What the resolution leaves: nothing taken on an error, and otherwise one more
    turn on what was taken. *)
Lemma resolve_spec ctx s s' acts r :
  resolve env name ctx s = (s', acts, r) → pools_ok s →
  match r with
  | inr _ => ∃ p k, pool_of name s = Some p ∧ acts = bracket (Some (p, k)) [] ∧
      (undisturbed p → lawful p s' ∧ ∀ i, load_of p i s' = load_of p i s)
  | inl (target, taken) =>
      fst <$> taken = pool_of name s ∧ target = target_of name taken ∧
      acts = match taken with Some (p, k) => [Acquired p k] | None => [] end ∧
      ∀ p, pool_of name s = Some p → undisturbed p →
        lawful p s' ∧ (∀ k, taken = Some (p, k) → (0 < load_of p k s')%Z) ∧ ∀ i, load_of p i s' = (load_of p i s + turn_of taken p i)%Z
  end.
Proof.
  unfold resolve, turn_of. destruct (resolveInstance name ctx s) as [[s1 target] [[p k] |]] eqn:R; intros E Ok;
    destruct (resolveInstance_spec _ _ _ _ _ _ R Ok) as [Ok1 S].
  2: { injection E as <- <- <-. destruct S as (-> & P & L). split_and!; try done. rewrite P. by intros p [=]. }
  destruct S as (_ & P & Pos & T & L).
  assert (Add : ∀ s2, same_pool p s1 s2 → lawful p s2 ∧ (0 < load_of p k s2)%Z ∧
    ∀ i, load_of p i s2 = (load_of p i s + if decide (Some (p, k) = Some (p, i)) then 1 else 0)%Z).
  { intros s2 Sm. split_and!; [by apply (same_lawful _ _ _ Sm), pools_lawful | by rewrite (same_load _ _ _ _ Sm) |].
    intros i. rewrite (same_load _ _ _ _ Sm), L. repeat case_decide; simplify_eq; (congruence || lia). }
  assert (Taken : ∀ s2, (undisturbed p → same_pool p s1 s2) → ∀ q, pool_of name s = Some q → undisturbed q →
    lawful q s2 ∧ (∀ i, Some (p, k) = Some (q, i) → (0 < load_of q i s2)%Z) ∧
    ∀ i, load_of q i s2 = (load_of q i s + if decide (Some (p, k) = Some (q, i)) then 1 else 0)%Z).
  { intros s2 Sm q Q U. rewrite P in Q. injection Q as <-. destruct (Add s2 (Sm U)) as (W & Lk & A). split_and!; [done | by intros i [= <-] | done]. }
  destruct (decide (k = 0%Z)) as [-> | Nz]; [injection E as <- <- <-; split_and!; [by rewrite P | done | done | by apply Taken] |].
  destruct (de_bring env name k s1) as [s2 o] eqn:B.
  assert (K : undisturbed p → same_pool p s1 s2) by (intros (F & _); unfold same_pool; by rewrite <- (F k s1), B).
  destruct o as [err |]; injection E as <- <- <-.
  - exists p, k. split_and!; [done | done |]. intros U. destruct (Add s2 (K U)) as (W & Lk & A). destruct (release_spec p k s2 W Lk) as [W' L'].
    split; [done |]. intros i. rewrite L', A. repeat case_decide; simplify_eq; lia.
  - split_and!; [by rewrite P | rewrite T; cbn; by rewrite decide_False | done | by apply Taken].
Qed.

Lemma release_of_spec taken s s' acts p :
  release_of taken s = (s', acts) → fst <$> taken = Some p → lawful p s → (∀ k, taken = Some (p, k) → (0 < load_of p k s)%Z) →
  lawful p s' ∧ ∀ i, load_of p i s' = (load_of p i s - turn_of taken p i)%Z.
Proof.
  unfold release_of, turn_of. destruct taken as [[q k] |]; intros E [= ->] W P. injection E as <- <-.
  destruct (release_spec p k s W (P k eq_refl)) as [W' L]. split; [done |]. intros i. rewrite L. repeat case_decide; simplify_eq; lia.
Qed.

(** The whole of a turn that was resolved: what its sending and its release make of
    the pool. *)
Lemma turn_loads taken p s s1 s2 :
  fst <$> taken = Some p → (∀ k, taken = Some (p, k) → (0 < load_of p k s1)%Z) → lawful p s1 →
  (∀ i, load_of p i s1 = (load_of p i s + turn_of taken p i)%Z) → same_pool p s1 s2 →
  lawful p s2 ∧ (∀ i, load_of p i s2 = (load_of p i s + turn_of taken p i)%Z) ∧
  lawful p (release_of taken s2).1 ∧ ∀ i, load_of p i (release_of taken s2).1 = load_of p i s.
Proof.
  intros T Pos W L Sm. pose proof (same_lawful _ _ _ Sm W) as W2.
  assert (L2 : ∀ i, load_of p i s2 = (load_of p i s + turn_of taken p i)%Z) by (intros i; by rewrite (same_load _ _ _ _ Sm)).
  destruct (release_of taken s2) as [s3 acts] eqn:R.
  destruct (release_of_spec _ _ _ _ p R T W2) as [W3 L3]; [intros k Ek; rewrite (same_load _ _ _ _ Sm); auto |].
  split_and!; [done | done | done |]. intros i. cbn. rewrite L3, L2. lia.
Qed.

Lemma released_acts taken s : (release_of taken s).2 = match taken with Some (p, k) => [Released p k] | None => [] end.
Proof. by destruct taken as [[]|]. Qed.

Lemma bracket_acts taken turn s :
  match taken with Some (p, k) => [Acquired p k] | None => [] end ++ turn ++ (release_of taken s).2 = bracket taken turn.
Proof. rewrite released_acts. destruct taken as [[]|]; cbn; [done | by rewrite app_nil_r]. Qed.

(** (C39) A turn is accounted for. Whatever happens on the way, other turns of the agent
    and a stop of the scheduler included, a dispatch takes an instance exactly when
    the agent has a pool, and gives that ordinal back to that very pool exactly once:
    a blocking one before it returns, an asynchronous one in the release it hands out
    when it is accepted, and at once when it fails. At most one message is sent: to
    the instance taken, after it was found awake, carrying the conversation, the
    speaker and the text given, and a token only to the local address of the process
    that the token belongs to; the result is what [read_reply] or [read_task] reads
    in the answer to it. If in addition no other turn on this pool begins or ends
    meanwhile, the load of every instance is what it was (one more for the accepted
    asynchronous turn, until its release). *)
Theorem dispatch_accounted contextID speaker message s :
  pools_ok s →
  let m := mkA2A RoleUser contextID [TextPart message] (if decide (speaker = "") then None else Some speaker) None in
  (∀ s' acts r, ChatWithAgentAs env chatTimeout name contextID speaker message s = (s', acts, r) →
     (∃ taken turn, fst <$> taken = pool_of name s ∧ acts = bracket taken turn ∧
       (turn = [] ∧ (∃ err, r = inr err) ∨
        sent_well read_reply true (if (0 <? chatTimeout)%Z then Some chatTimeout else None) m (target_of name taken) turn r)) ∧
     ∀ p, pool_of name s = Some p → undisturbed p → lawful p s' ∧ ∀ i, load_of p i s' = load_of p i s) ∧
  (∀ s' acts r, ChatWithAgentAsync env taskTimeout name contextID speaker message s = (s', acts, r) →
     match r with
     | inr err =>
         (∃ taken turn, fst <$> taken = pool_of name s ∧ acts = bracket taken turn ∧
           (turn = [] ∨ sent_well read_task false (Some taskTimeout) m (target_of name taken) turn (inr err))) ∧
         ∀ p, pool_of name s = Some p → undisturbed p → lawful p s' ∧ ∀ i, load_of p i s' = load_of p i s
     | inl (t, taken) =>
         (∃ turn, fst <$> taken = pool_of name s ∧ acts ++ (release_of taken s').2 = bracket taken turn ∧
           sent_well read_task false (Some taskTimeout) m (target_of name taken) turn (inl t)) ∧
         ∀ p, pool_of name s = Some p → undisturbed p →
           (∀ i, load_of p i s' = (load_of p i s + turn_of taken p i)%Z) ∧
           lawful p (release_of taken s').1 ∧ ∀ i, load_of p i (release_of taken s').1 = load_of p i s
     end).
Proof.
  intros Ok m. unfold ChatWithAgentAs, ChatWithAgentAsync. change (buildUserMessage contextID speaker message) with m.
  destruct (resolve env name contextID s) as [[s1 acts1] [[target taken] | err]] eqn:R; pose proof (resolve_spec _ _ _ _ _ R Ok) as S.
  2: { destruct S as (p & k & P & -> & L). rewrite P. split; intros s' acts r [= <- <- <-].
       all: split; [exists (Some (p, k)), []; split; [done | split; [done | left]] | by intros q [= <-]].
       - split; [done | by eexists].
       - done. }
  destruct S as (P & -> & -> & L). split; intros s' acts r E.
  - destruct (send_turn _ _ _ _ _ _ _ s1) as [[s2 turn] r'] eqn:T. destruct (send_turn_spec _ _ _ _ _ _ _ _ _ T) as [W K].
    pose proof (bracket_acts taken turn s2) as B. rewrite (surjective_pairing (release_of taken s2)) in E. injection E as <- <- <-. rewrite B. split.
    { exists taken, turn. split_and!; [done | done | by right]. }
    intros p Hp U. destruct (L p Hp U) as (W1 & Pos & L1). rewrite Hp in P. by destruct (turn_loads _ _ s _ _ P Pos W1 L1 (K p U)) as (_ & _ & ? & ?).
  - destruct (send_turn _ _ _ _ _ _ _ s1) as [[s2 turn] r'] eqn:T. destruct (send_turn_spec _ _ _ _ _ _ _ _ _ T) as [W K].
    pose proof (bracket_acts taken turn s2) as B. destruct r' as [t | err].
    + injection E as <- <- <-. rewrite <- app_assoc, B. split; [exists turn; by split_and! |].
      intros p Hp U. destruct (L p Hp U) as (W1 & Pos & L1). rewrite Hp in P. by destruct (turn_loads _ _ s _ _ P Pos W1 L1 (K p U)) as (_ & ? & ? & ?).
    + rewrite (surjective_pairing (release_of taken s2)) in E. injection E as <- <- <-. rewrite B. split; [exists taken, turn; split_and!; [done | done | by right] |].
      intros p Hp U. destruct (L p Hp U) as (W1 & Pos & L1). rewrite Hp in P. by destruct (turn_loads _ _ s _ _ P Pos W1 L1 (K p U)) as (_ & _ & ? & ?).
Qed.
End dispatch.

(** ** Answers *)

(** The reply read from a task is the last text of the agent, if it said anything. *)
Lemma reply_of_agent t before m after :
  task_History t = before ++ m :: after → msg_Role m = RoleAgent → messageToString m ≠ "" →
  (∀ x, x ∈ after → msg_Role x = RoleAgent → messageToString x = "") → taskToString t = messageToString m.
Proof.
  intros H A T N. unfold taskToString. rewrite H, reverse_app, reverse_cons, filter_app, filter_app.
  rewrite (filter_cons_True _ m) by done. cbn [filter list_filter app]. unfold first_text. rewrite !fmap_app, !filter_app. cbn.
  assert (filter (λ t, t ≠ "") (messageToString <$> filter (λ m, msg_Role m = RoleAgent) (reverse after)) = []) as ->.
  { apply filter_none, Forall_fmap, Forall_forall. intros x [R I]%list_elem_of_filter C. apply C. cbn. apply N; [by apply elem_of_reverse | done]. }
  cbn. rewrite decide_True by done. done.
Qed.

(** Without one it is any text of the history: the user's own message comes back as
    the answer. *)
Lemma own_message_returned id state text : text ≠ "" → taskToString (mkA2ATask id state [mkA2A RoleUser "" [TextPart text] None None]) = text.
Proof.
  intros N. unfold taskToString, first_text. cbn [task_History]. rewrite reverse_singleton. cbn. rewrite (decide_False (P := RoleUser = RoleAgent)) by done. cbn. by rewrite (decide_True (P := text ≠ "")).
Qed.

(** ** Histories *)

(** Reading a history asks at most one agent, never one that has been stopped for
    idleness, and gives a token only to a process of the scheduler. *)
Lemma history_request registered managed fetch s name ctx url token :
  (AgentHistory registered managed fetch s name ctx).1 = Some (url, token) →
  idleStopped s !! name = None ∧ ∃ d, rightful name d s ∧ d_token d = token ∧ url = history_url (d_url d) ctx.
Proof.
  unfold AgentHistory. destruct (decide (is_Some _)) as [| N]; [done |]. destruct (agentDialTarget _ name s) as [d |] eqn:D; [| done].
  destruct (fetch _ _); intros [= <- <-]; (split; [by apply eq_None_not_Some |]); exists d; (split_and!; [by apply (dial_rightful _ _ _ _ D) | done | done]).
Qed.

(** An agent that stops between the lookup and the read still shows its history, from
    the disk. *)
Lemma history_survives_stop registered managed fetch s name ctx d turns msg :
  idleStopped s !! name = None → agentDialTarget (registered name) name s = Some d → is_Some (desired s !! name) →
  fetch (history_url (d_url d) ctx) (d_token d) = Unreachable msg → managed name ctx = inl turns →
  (AgentHistory registered managed fetch s name ctx).2 = inl turns.
Proof.
  intros I D M F H. unfold AgentHistory. rewrite decide_False by (rewrite I; by intros []). rewrite D, F. cbn. by rewrite decide_True, H.
Qed.

(** ** A pool of two *)

Definition pooled_state : Sched :=
  mkSched [] (mkRange 1 2) 1 ∅ 0 ∅ {["crew" := mkConfig "crew" "/w" "" 0 2 "" "" ""]} ∅ ∅ ∅ true false "" defaultSupervisorConfig [].
Definition answering : dispatch_env :=
  mkDispatch (λ _ _ s, (s, None)) (λ _ s, (s, None)) (λ _, Some "http://h/") id (λ _, None)
    (λ _ m b _ s, (s, inl (if b then SentMessage (mkA2A RoleAgent "" [TextPart "yes"] None None) else SentTask (mkA2ATask "t1" "submitted" [])))).

Lemma dispatch_accounted_witness :
  let r := ChatWithAgentAs answering 5 "crew" "c" "ann" "hi" pooled_state in
  r.2 = inl "yes" ∧ (∃ d m b dl, r.1.2 = [Acquired 0 0; Woken "crew"; Sent d m b dl; Released 0 0]) ∧ load_of 0 0 r.1.1 = 0%Z ∧
  load_of 0 0 (ChatWithAgentAsync answering 5 "crew" "c" "ann" "hi" pooled_state).1.1 = 1%Z.
Proof.
  assert (Ok : pools_ok pooled_state) by (split; [done | intros n p; cbn; by rewrite lookup_empty]).
  destruct (dispatch_accounted answering 5 5 "crew" "c" "ann" "hi" pooled_state Ok) as [Blocking Async].
  destruct (ChatWithAgentAs answering 5 "crew" "c" "ann" "hi" pooled_state) as [[s' acts] r] eqn:E.
  destruct (Blocking _ _ _ eq_refl) as (_ & L). destruct (L 0 ltac:(by vm_compute) ltac:(by split_and!)) as [_ L0].
  cbn [fst snd]. rewrite L0. vm_compute in E. injection E as <- <- <-.
  split; [reflexivity |]. split; [by repeat eexists |]. split; by vm_compute.
Defined.
