(* ===== verification/PersistFile.v ===== *)
(** * The file behind the session pool ([internal/wrapper/session_pool_persist.go])

    Loading and saving the map of resumable sessions: the file system as a map from
    paths to contents, every state it passes through while a save runs, and a failure
    at any of its steps. JSON is a parameter. Shown: whenever the process dies, the
    file holds the old map or the new one, and a failed save leaves no trace. *)
From S2P Require Import Prelude GoBase GoStrings SessionPool.
From Stdlib Require Import ZArith Lia.

Definition persistFileVersion : Z := 1.

Record persistFile := mkPersistFile { pf_Version : Z; pf_Entries : option (gmap string PersistedRecord) }.

Abbreviation filesystem := (gmap string string).

(** Where a save fails. A write fails after some bytes. *)
Inductive save_failure :=
| MkdirFails (e : string) | MarshalFails (e : string) | CreateFails (e : string) | WriteFails (n : nat) (e : string)
| ChmodFails (e : string) | SyncFails (e : string) | CloseFails (e : string) | RenameFails (e : string).

Section persist.
Context (path : string) (Unmarshal : string → option persistFile) (MarshalIndent : persistFile → string).

(** [Load]: a file that cannot be read, one that cannot be parsed, which is moved to
    [broken] if the rename succeeds, and one without entries. *)
Definition Load (broken : string) (unreadable : option string) (renames : bool) (fs : filesystem) : filesystem * (gmap string PersistedRecord + string) :=
  match fs !! path with
  | None => (fs, inl ∅)
  | Some data =>
      match unreadable with
      | Some err => (fs, inr ("read persist file " +:+ path +:+ ": " +:+ err))
      | None =>
          match Unmarshal data with
          | None => (if renames then <[broken := data]> (delete path fs) else fs, inl ∅)
          | Some pf => (fs, inl (default ∅ (pf_Entries pf)))
          end
      end
  end.

Definition payload (records : gmap string PersistedRecord) : string := MarshalIndent (mkPersistFile persistFileVersion (Some records)) +:+ nl.

(** The file system while [n] bytes of the temporary file are written. *)
Definition writing (tmp data : string) (fs : filesystem) (n : nat) : filesystem := <[tmp := byte_take n data]> fs.

(** [Save]: the states passed, and the last one with the error. [tmp] is the name
    that [CreateTemp] chose. *)
Definition Save (tmp : string) (fail : option save_failure) (records : gmap string PersistedRecord) (fs : filesystem)
    : list filesystem * filesystem * option string :=
  let data := payload records in
  let written n := writing tmp data fs <$> seq 0 (S n) in
  let full := blen data in
  match fail with
  | Some (MkdirFails e) => ([], fs, Some ("mkdir parent of " +:+ path +:+ ": " +:+ e))
  | Some (MarshalFails e) => ([], fs, Some ("marshal records: " +:+ e))
  | Some (CreateFails e) => ([], fs, Some ("create temp: " +:+ e))
  | Some (WriteFails n e) => (written (n `min` full), delete tmp (writing tmp data fs (n `min` full)), Some ("write temp: " +:+ e))
  | Some (ChmodFails e) => (written full, delete tmp (writing tmp data fs full), Some ("chmod temp: " +:+ e))
  | Some (SyncFails e) => (written full, delete tmp (writing tmp data fs full), Some ("fsync temp: " +:+ e))
  | Some (CloseFails e) => (written full, delete tmp (writing tmp data fs full), Some ("close temp: " +:+ e))
  | Some (RenameFails e) =>
      (written full, delete tmp (writing tmp data fs full), Some ("rename " +:+ tmp +:+ " → " +:+ path +:+ ": " +:+ e))
  | None => (written full, <[path := byte_take full data]> (delete tmp (writing tmp data fs full)), None)
  end.

Lemma byte_take_blen s : byte_take (blen s) s = s.
Proof. induction s as [| c s IH]; [done |]. cbn. by rewrite IH. Qed.

(** ** What a save does *)

(** Whatever fails and whenever the process dies, the file is what it was or the whole
    new map, and nothing but the file and the temporary one has changed; a save that
    fails has changed nothing, and one that succeeds is what the next load reads. *)
Lemma save_crash_safe tmp fail records fs during fs' err broken :
  tmp ≠ path → fs !! tmp = None →
  (∀ records, Unmarshal (payload records) = Some (mkPersistFile persistFileVersion (Some records))) →
  Save tmp fail records fs = (during, fs', err) →
  (∀ st, st ∈ during → (∀ q, q ≠ tmp → st !! q = fs !! q) ∧ ∀ renames, (Load broken None renames st).2 = (Load broken None renames fs).2) ∧
  (err ≠ None → fs' = fs) ∧
  (err = None → (∀ q, q ≠ path → fs' !! q = fs !! q) ∧ ∀ renames, Load broken None renames fs' = (fs', inl records)).
Proof.
  intros Nt Fresh Codec.
  assert (W : ∀ n q, q ≠ tmp → writing tmp (payload records) fs n !! q = fs !! q).
  { intros n q Nq. unfold writing. by rewrite lookup_insert_ne. }
  assert (D : ∀ n, delete tmp (writing tmp (payload records) fs n) = fs).
  { intros n. unfold writing. by rewrite delete_insert_eq, delete_id. }
  assert (Rd : ∀ st renames, (∀ q, q ≠ tmp → st !! q = fs !! q) → (Load broken None renames st).2 = (Load broken None renames fs).2).
  { intros st renames E. unfold Load. rewrite (E path) by done. destruct (fs !! path); [| done]. by destruct (Unmarshal _). }
  assert (Dur : ∀ n st, st ∈ writing tmp (payload records) fs <$> seq 0 (S n) → ∀ q, q ≠ tmp → st !! q = fs !! q).
  { intros n st (k & -> & _)%list_elem_of_fmap. apply W. }
  intros E. assert ((∃ n, during = writing tmp (payload records) fs <$> seq 0 (S n)) ∨ during = []) as Shape.
  { unfold Save in E. destruct fail as [[] |]; injection E as <- _ _; eauto. }
  split_and!.
  - intros st I. destruct Shape as [[n ->] | ->]; [| by apply not_elem_of_nil in I]. split; [by eapply Dur | intros renames; apply Rd; by eapply Dur].
  - intros Ne. unfold Save in E. destruct fail as [[] |]; injection E as _ <- <-; rewrite ?D; done.
  - intros ->. unfold Save in E. destruct fail as [[] |]; try done. injection E as _ <-. rewrite D, byte_take_blen. split.
    + intros q Nq. by rewrite lookup_insert_ne.
    + intros renames. unfold Load. by rewrite lookup_insert_eq, Codec.
Qed.

(** The version that is written is never looked at. *)
Lemma version_ignored broken renames fs data v entries :
  fs !! path = Some data → Unmarshal data = Some (mkPersistFile v entries) → Load broken None renames fs = (fs, inl (default ∅ entries)).
Proof. intros F U. unfold Load. by rewrite F, U. Qed.

(** A file that does not parse is kept aside, and the pool starts empty. *)
Lemma corrupt_kept broken fs data :
  broken ≠ path → fs !! path = Some data → Unmarshal data = None →
  ∃ fs', Load broken None true fs = (fs', inl ∅) ∧ fs' !! broken = Some data ∧ fs' !! path = None.
Proof.
  intros N F U. unfold Load. rewrite F, U. eexists. split; [done |]. split; [by rewrite lookup_insert_eq |].
  by rewrite lookup_insert_ne, lookup_delete_eq.
Qed.
End persist.
