(* ===== verification/AgentServe.v ===== *)
(** * The process of an agent as a server ([internal/wrapper/wrapper.go])

    The wrapper's life (created, started, ready, stopped), its routes with the token
    that guards them, its health answers and the history it serves from the
    transcripts. The listener, the shutdown and the address of the card in the A2A
    library are arguments. *)
From S2P Require Import Prelude GoBase GoStrings Registry Transcript Gateway GatewayViews.
From Stdlib Require Import ZArith Lia.

Record AgentWrapperConfig := mkWrapperConfig { wc_Port : Z; wc_RegistryURL : string; wc_Card : option string; wc_InternalToken : string; wc_AdminToken : string }.

(** [aw_server] is the server with whether its executor is set; [aw_beating] says that
    the heartbeat loop runs. *)
Record AgentWrapper := mkWrapper {
  aw_cfg : AgentWrapperConfig; aw_server : option bool; aw_listening : bool; aw_running : bool; aw_ready : bool; aw_beating : bool;
}.

Definition NewAgentWrapper (cfg : AgentWrapperConfig) : AgentWrapper := mkWrapper cfg None false false false false.

(** Without a server the executor is dropped. *)
Definition SetupExecutor (w : AgentWrapper) : AgentWrapper :=
  match aw_server w with None => w | Some _ => mkWrapper (aw_cfg w) (Some true) (aw_listening w) (aw_running w) true (aw_beating w) end.

(** [listen] is the error of the listener. *)
Definition Start (listen : option string) (w : AgentWrapper) : AgentWrapper * option string :=
  if aw_running w then (w, Some "wrapper already running")
  else match listen with
  | Some err =>
      (mkWrapper (aw_cfg w) None (aw_listening w) (aw_running w) (aw_ready w) (aw_beating w),
       Some ("agent wrapper listen on 127.0.0.1:" +:+ fmt_d (wc_Port (aw_cfg w)) +:+ ": " +:+ err))
  | None => (mkWrapper (aw_cfg w) (Some false) true true (aw_ready w) (nonempty (wc_RegistryURL (aw_cfg w))), None)
  end.

(** [Shutdown] closes the listener first; its error is that connections remained. *)
Definition Stop (shutdown : option string) (w : AgentWrapper) : AgentWrapper * option string :=
  if negb (aw_running w) then (w, None)
  else match shutdown with
  | Some err => (mkWrapper (aw_cfg w) (aw_server w) false true (aw_ready w) false, Some ("shutdown server: " +:+ err))
  | None => (mkWrapper (aw_cfg w) (aw_server w) false false false false, None)
  end.

Inductive step : AgentWrapper → AgentWrapper → Prop :=
| step_setup w : step w (SetupExecutor w)
| step_start listen w : step w (Start listen w).1
| step_stop shutdown w : step w (Stop shutdown w).1.

(** ** Routes *)

Inductive handler := H_Healthz | H_Readyz | H_Card | H_History | H_A2A.

(** The handler of a path of the mux and whether it asks for the token. *)
Definition mux (cardPath : string) (w : AgentWrapper) (path : string) : handler * bool :=
  if decide (path = "/healthz") then (H_Healthz, false)
  else if decide (path = "/readyz") then (H_Readyz, false)
  else if bool_decide (is_Some (wc_Card (aw_cfg w))) && bool_decide (path = cardPath) then (H_Card, false)
  else if decide (path = "/history") then (H_History, true)
  else (H_A2A, true).

(** [requireInternalToken] *)
Definition token_passes (w : AgentWrapper) (header : string) : bool :=
  negb (nonempty (wc_InternalToken (aw_cfg w))) || bool_decide (header = wc_InternalToken (aw_cfg w)).

(** What a request reaches, or 401. *)
Definition serve (cardPath : string) (w : AgentWrapper) (header path : string) : handler + Z :=
  let '(h, guarded) := mux cardPath w path in
  if guarded && negb (token_passes w header) then inr StatusUnauthorized else inl h.

Definition StatusServiceUnavailable : Z := 503.

Definition is_head (m : Registry.method) : bool := if m is Registry.MethodOther o then bool_decide (o = "HEAD") else false.

Definition handleHealthz (m : Registry.method) : answer string :=
  if is_get m || is_head m then Json Registry.StatusOK "ok" else Bare Registry.StatusMethodNotAllowed.

Definition handleReadyz (m : Registry.method) (w : AgentWrapper) : answer string :=
  if negb (is_get m || is_head m) then Bare Registry.StatusMethodNotAllowed
  else if aw_running w && aw_ready w && bool_decide (is_Some (aw_server w)) && bool_decide (is_Some (wc_Card (aw_cfg w)))
  then Json Registry.StatusOK "ready" else Json StatusServiceUnavailable "not_ready".

(** The history of a context; an error here is sent as a status, under the key of the
    health answers. *)
Section history.
Context (transcriptFileName : string → string) (decode : string → option TranscriptTurn).

Definition handleHistory (store : option TranscriptStore) (m : Registry.method) (contextID : string) : answer (list TranscriptTurn) :=
  if negb (is_get m) then Bare Registry.StatusMethodNotAllowed
  else if decide (contextID = "") then JsonError Registry.StatusBadRequest "contextId is required"
  else match store with
  | None => Json Registry.StatusOK []
  | Some store =>
      match Read transcriptFileName decode contextID store with
      | (_, true) => JsonError StatusInternalServerError "read transcript: token too long"
      | (turns, false) => Json Registry.StatusOK turns
      end
  end.
End history.

(** ** The registry heartbeat *)

Record beat := mkBeat { b_url : string; b_card : string; b_token : option string }.

(** What [registerWithRegistry] posts; nothing when the card does not encode. *)
Definition registerWithRegistry (card : option string) (w : AgentWrapper) : option beat :=
  (λ c, mkBeat (wc_RegistryURL (aw_cfg w) +:+ "/agents") c (if nonempty (wc_AdminToken (aw_cfg w)) then Some (wc_AdminToken (aw_cfg w)) else None)) <$> card.

(** ** Laws *)

(** In every state the wrapper reaches it listens only while it runs, and it is ready
    only when some server had its executor. *)
Definition sound (w : AgentWrapper) : Prop :=
  (aw_running w = true → is_Some (aw_server w)) ∧ (aw_listening w = true → aw_running w = true) ∧ (aw_beating w = true → aw_running w = true).

Lemma sound_step w w' : sound w → step w w' → sound w'.
Proof.
  unfold sound. intros (R & L & B) S. destruct S as [w | listen w | shutdown w].
  - unfold SetupExecutor. destruct (aw_server w) eqn:E; cbn; rewrite ?E; by split_and!.
  - unfold Start. destruct (aw_running w) eqn:Rn; cbn; [by rewrite Rn; split_and! |]. destruct listen; cbn; rewrite ?Rn; split_and!; naive_solver.
  - unfold Stop. destruct (aw_running w) eqn:Rn; cbn; [| by rewrite Rn; split_and!]. destruct shutdown; cbn; split_and!; auto; done.
Qed.

Lemma reached_sound cfg w : rtc step (NewAgentWrapper cfg) w → sound w.
Proof. intros R. eapply rtc_invariant; [exact sound_step | | exact R]. by split_and!. Qed.

(** Nothing but the health answers and the public card is reached without the token. *)
Lemma guarded cardPath w header path h :
  wc_InternalToken (aw_cfg w) ≠ "" → header ≠ wc_InternalToken (aw_cfg w) → serve cardPath w header path = inl h →
  h = H_Healthz ∨ h = H_Readyz ∨ h = H_Card.
Proof.
  intros T N. unfold serve, mux, token_passes. destruct (wc_InternalToken _) as [| a s] eqn:E; [done |]. cbn [nonempty negb orb].
  rewrite (bool_decide_eq_false_2 (header = String a s)) by done.
  destruct (decide (path = "/healthz")); [intros [= <-]; tauto |]. destruct (decide (path = "/readyz")); [intros [= <-]; tauto |].
  destruct (_ && _); [intros [= <-]; tauto |]. by destruct (decide _).
Qed.

(** A failed restart after a stop leaves the agent not ready; a shutdown that times
    out leaves it running, but without a listener and without its heartbeat. *)
Lemma stop_timeout_half_dead w err :
  aw_running w = true →
  let w' := (Stop (Some err) w).1 in
  aw_running w' = true ∧ aw_listening w' = false ∧ aw_beating w' = false ∧ (Start None w').2 = Some "wrapper already running".
Proof. intros R. unfold Stop. rewrite R. by cbn. Qed.
