(* ===== verification/SmallSessions.v ===== *)
(** * The sessions without a process ([internal/wrapper/session_oneshot.go], [session_echo.go])

    A session that calls a function per turn, and one that answers with what it was
    told. Shown: what a turn puts on its channel fits its buffer, so the goroutine
    never waits for a reader, and reading it gives the answer back. *)
From S2P Require Import Prelude GoBase GoStrings Executor SchedulerFiles Codex.
From Stdlib Require Import ZArith Lia.

(** ** One call per turn *)

Record OneshotSession := mkOneshot { os_closed : bool }.
Definition NewOneshotSession : OneshotSession := mkOneshot false.

(** The events of [Stream] for what the sender returned. *)
Definition oneshot_stream (out : string) (err : option turn_error) : list Event :=
  (if nonempty out then [EventText out] else []) ++ [EventTurnDone err 0 0].

Definition oneshot_cap : nat := 2.
Definition oneshot_Turn (out : string) (err : option turn_error) : string * option turn_error := Codex.Turn (oneshot_stream out err).
Definition oneshot_SessionID : string := "".
Definition oneshot_IsHealthy (s : OneshotSession) : bool := negb (os_closed s).
Definition oneshot_Close (s : OneshotSession) : OneshotSession := mkOneshot true.

(** ** The echo *)

Record EchoSession := mkEcho { es_sessionID : string; es_closed : bool }.

(** [random] are the bytes of a fresh id. *)
Definition NewEchoSession (random : list Z) (resumeID : string) : EchoSession :=
  mkEcho (if nonempty resumeID then resumeID else "echo-" +:+ EncodeToString random) false.

Definition echo_stream (canceled : option turn_error) (userText : string) : list Event :=
  match canceled with
  | Some err => [EventTurnDone (Some err) 0 0]
  | None => let reply := "echo: " +:+ userText in [EventTextDelta reply; EventText reply; EventTurnDone None 0 0]
  end.

Definition echo_cap : nat := 3.
Definition echo_Turn (canceled : option turn_error) (userText : string) : string * option turn_error := Codex.Turn (echo_stream canceled userText).
Definition echo_SessionID (s : EchoSession) : string := es_sessionID s.
Definition echo_IsHealthy (s : EchoSession) : bool := negb (es_closed s).
Definition echo_Close (s : EchoSession) : EchoSession := mkEcho (es_sessionID s) true.

(** The ids that the callback hears of. *)
Definition echo_OnSessionIDKnown (s : EchoSession) : list string := if nonempty (es_sessionID s) then [es_sessionID s] else [].

(** ** Laws *)

Lemma oneshot_turn_exact out err : oneshot_Turn out err = (out, err) ∧ length (oneshot_stream out err) ≤ oneshot_cap.
Proof. unfold oneshot_Turn, oneshot_stream, oneshot_cap, Codex.Turn. destruct out; cbn; split; try done; lia. Qed.

Lemma echo_turn_exact text : echo_Turn None text = ("echo: " +:+ text, None) ∧ ∀ canceled, length (echo_stream canceled text) ≤ echo_cap.
Proof. split; [done |]. intros [err |]; cbn; unfold echo_cap; lia. Qed.

(** A session that is resumed has the id it was resumed with, and the pool always
    hears of an id. *)
Lemma echo_resumes random resumeID :
  (resumeID ≠ "" → echo_SessionID (NewEchoSession random resumeID) = resumeID) ∧
  ∃ id, echo_OnSessionIDKnown (NewEchoSession random resumeID) = [id] ∧ id = echo_SessionID (NewEchoSession random resumeID).
Proof. unfold NewEchoSession, echo_OnSessionIDKnown, echo_SessionID. destruct resumeID; (split; [done | by eexists]). Qed.

(** The executor reads the same answer from the stream, whatever its consumer does with
    the increments. *)
Lemma echo_through_executor {S} (Parse : string → option A2ACall) (onDelta : string → S → S * bool) (onAux : Event → S → S) text (s : S) :
  tr_text (runTurn Parse onDelta onAux (echo_stream None text) s).1 = "echo: " +:+ text ∧
  tr_err (runTurn Parse onDelta onAux (echo_stream None text) s).1 = None.
Proof. unfold runTurn, echo_stream. cbn [drain]. destruct (onDelta _ s) as [s' more]. by cbn. Qed.
