(* ===== verification/Console.v ===== *)
(** * The web console ([internal/ui/server.go])

    The rows of the conversation list, folded from the invocations of the scheduler;
    the requests passed on to the scheduler, with the token of the control plane; and
    the files that are dropped. HTTP and JSON are left out, the file system and random
    bytes answer through arguments. *)
From S2P Require Import Prelude GoBase GoStrings InstancePool Paths SchedulerFiles SchedulerFilesLaws Gateway.
From Stdlib Require Import ZArith Lia Ascii.
Import InstanceName.

(** ** Passing on *)

(** The path of a proxied request, and the token it carries. *)
Definition Director (adminToken path : string) : string * option string :=
  let path := TrimPrefix path "/api" in
  (path, if nonempty adminToken && HasPrefix path "/admin/" then Some adminToken else None).

(** ** Dropped files *)

(** The name a file is kept under; [filepath.FromSlash] changes nothing on Unix. *)
Definition upload_name (filename : string) : string :=
  let name := Base filename in if bool_decide (name = "") || bool_decide (name = ".") || bool_decide (name = "/") then "file" else name.

Definition randToken (rand : list Z + string) : string + string := newInternalToken rand.

Definition upload_path (uploadDir token filename : string) : string := JoinPath (JoinPath uploadDir token) (upload_name filename).

Record saved := mkSaved { sv_Name : string; sv_Path : string }.

(** The loop of [handleUpload]: the files saved, or the error that ends it. *)
Fixpoint save_all (uploadDir : string) (rand : nat → list Z + string) (mkdir save : string → option string) (i : nat) (files : list string)
    : list saved + string :=
  match files with
  | [] => inl []
  | f :: files =>
      match randToken (rand i) with
      | inr err => inr ("token: " +:+ err)
      | inl token =>
          match mkdir (JoinPath uploadDir token) with
          | Some err => inr ("mkdir: " +:+ err)
          | None =>
              match save (upload_path uploadDir token f) with
              | Some err => inr ("save: " +:+ err)
              | None =>
                  match save_all uploadDir rand mkdir save (S i) files with
                  | inl l => inl (mkSaved (upload_name f) (upload_path uploadDir token f) :: l)
                  | inr err => inr err
                  end
              end
          end
      end
  end.

(** ** The list of conversations *)

Record invocation := mkInvocation {
  in_ID : string; in_AgentName : string; in_ContextID : string; in_UserText : string; in_Status : string; in_StartedAt : string;
  in_Source : string; in_Speaker : string; in_DurationMS : Z; in_Error : string;
}.

(** A row: the title, the agents and the number of turns, and the invocation of the
    last activity, whose fields the row shows. *)
Record contextSummary := mkSummary {
  su_ContextID : string; su_Title : string; su_Agents : list string; su_Turns : nat; su_LastActivity : string; su_last : option invocation;
}.

(** [firstAt] anchors the title. *)
Record acc := mkAcc { ac_summary : contextSummary; ac_firstAt : string }.

Definition fresh_acc (ctx : string) : acc := mkAcc (mkSummary ctx "" [] 0 "" None) "".

(** Strings compare by bytes. *)
Definition less (a b : string) : bool := negb (bool_decide (String.le b a)).

Definition absorb (a : acc) (r : invocation) : acc :=
  let s := ac_summary a in
  let agents := if nonempty (in_AgentName r) && negb (bool_decide (in_AgentName r ∈ su_Agents s)) then su_Agents s ++ [in_AgentName r] else su_Agents s in
  let titled := nonempty (in_UserText r) && (bool_decide (ac_firstAt a = "") || less (in_StartedAt r) (ac_firstAt a)) in
  let later := less (su_LastActivity s) (in_StartedAt r) in
  mkAcc (mkSummary (su_ContextID s) (if titled then in_UserText r else su_Title s) agents (S (su_Turns s))
           (if later then in_StartedAt r else su_LastActivity s) (if later then Some r else su_last s))
        (if titled then in_StartedAt r else ac_firstAt a).

Definition counted (r : invocation) : Prop := in_ContextID r ≠ "" ∧ in_Source r ≠ "roundtable".
#[export] Instance counted_dec r : Decision (counted r).
Proof. unfold counted. apply _. Defined.

(** The loop over the records: the map of the contexts and their order. *)
Definition fold_record (x : gmap string acc * list string) (r : invocation) : gmap string acc * list string :=
  let '(byCtx, order) := x in
  if decide (counted r) then
    let c := in_ContextID r in
    (<[c := absorb (default (fresh_acc c) (byCtx !! c)) r]> byCtx, if byCtx !! c is Some _ then order else order ++ [c])
  else x.

Definition newer (a b : contextSummary) : Prop := String.le (su_LastActivity b) (su_LastActivity a).
#[export] Instance newer_dec a b : Decision (newer a b).
Proof. unfold newer. apply _. Defined.

(** [handleContexts]; rows of the same activity are in no order in Go, this is one. *)
Definition handleContexts (records : list invocation) : list contextSummary :=
  let '(byCtx, order) := foldl fold_record (∅, []) records in
  merge_sort newer (omap (λ c, ac_summary <$> byCtx !! c) order).

(** ** Laws *)

(** The rows of one conversation. *)
Definition of_context (c : string) (records : list invocation) : list invocation := filter (λ r, counted r ∧ in_ContextID r = c) records.

Lemma fold_spec records m o :
  foldl fold_record (∅, []) records = (m, o) →
  NoDup o ∧ (∀ c, c ∈ o ↔ is_Some (m !! c)) ∧
  ∀ c, m !! c = if decide (of_context c records = []) then None else Some (foldl absorb (fresh_acc c) (of_context c records)).
Proof.
  revert m o. induction records as [| r records IH] using rev_ind; intros m o.
  { cbn. intros [= <- <-]. split_and!; [constructor | | done]. intros c. rewrite lookup_empty. split; [by intros ?%not_elem_of_nil | by intros []]. }
  rewrite foldl_app. destruct (foldl fold_record (∅, []) records) as [m0 o0] eqn:E. destruct (IH _ _ eq_refl) as (Nd & Dom & Val).
  assert (Of : ∀ c, of_context c (records ++ [r]) = of_context c records ++ if decide (counted r ∧ in_ContextID r = c) then [r] else []).
  { intros c. unfold of_context. rewrite filter_app. f_equal. }
  cbn [foldl fold_record]. destruct (decide (counted r)) as [C | C].
  2: { intros [= <- <-]. split_and!; [done | done |]. intros c. rewrite Of, (decide_False (P := counted r ∧ _)) by tauto. by rewrite app_nil_r. }
  intros [= <- <-]. set (c0 := in_ContextID r) in *. split_and!.
  - destruct (m0 !! c0) eqn:L; [done |]. apply NoDup_app. split_and!; [done | | apply NoDup_singleton].
    intros x X ->%list_elem_of_singleton. apply Dom in X as [y Y]. congruence.
  - intros c. rewrite lookup_insert. case_decide as Ec.
    + subst c. split; [done |]. intros _. destruct (m0 !! c0) eqn:L; [by apply Dom; rewrite L |]. apply elem_of_app. right. by left.
    + rewrite <- Dom. destruct (m0 !! c0) eqn:L; [done |]. rewrite elem_of_app, list_elem_of_singleton. naive_solver.
  - intros c. rewrite Of, lookup_insert. case_decide as Ec.
    + subst c. rewrite (decide_True (P := counted r ∧ _)) by done. rewrite decide_False by (by destruct (of_context c0 records)).
      rewrite foldl_app, Val. by destruct (decide (of_context c0 records = [])) as [-> |].
    + rewrite (decide_False (P := counted r ∧ _)) by (by intros [_ ?]). by rewrite app_nil_r.
Qed.

(** A row tells of its conversation, when every invocation has a time. *)
Record row_true (c : string) (l : list invocation) (s : contextSummary) : Prop := {
  row_context : su_ContextID s = c;
  row_turns : su_Turns s = length l;
  row_agents : NoDup (su_Agents s) ∧ ∀ a, a ∈ su_Agents s ↔ a ≠ "" ∧ ∃ r, r ∈ l ∧ in_AgentName r = a;
  row_last : ∃ r, r ∈ l ∧ su_last s = Some r ∧ su_LastActivity s = in_StartedAt r ∧ ∀ r', r' ∈ l → String.le (in_StartedAt r') (in_StartedAt r);
  row_title : (su_Title s = "" ∧ ∀ r, r ∈ l → in_UserText r = "") ∨
    ∃ r, r ∈ l ∧ su_Title s = in_UserText r ∧ in_UserText r ≠ "" ∧ ∀ r', r' ∈ l → in_UserText r' ≠ "" → String.le (in_StartedAt r) (in_StartedAt r');
}.

Lemma less_spec a b : less a b = true ↔ ¬ String.le b a.
Proof. unfold less. by rewrite negb_true_iff, bool_decide_eq_false. Qed.

Lemma less_false a b : less a b = false ↔ String.le b a.
Proof. unfold less. by rewrite negb_false_iff, bool_decide_eq_true. Qed.

Lemma not_le a b : ¬ String.le a b → String.le b a.
Proof. intros N. by destruct (String.le_total a b). Qed.

Lemma le_trans a b c : String.le a b → String.le b c → String.le a c.
Proof. apply (transitivity (R := String.le)). Qed.

#[local] Instance newer_total : Total newer.
Proof. intros a b. unfold newer. apply String.le_total. Qed.
#[local] Instance newer_trans : Transitive newer.
Proof. intros a b c. unfold newer. intros; by eapply le_trans. Qed.

Lemma absorb_agents a r :
  NoDup (su_Agents (ac_summary a)) →
  NoDup (su_Agents (ac_summary (absorb a r))) ∧
  ∀ x, x ∈ su_Agents (ac_summary (absorb a r)) ↔ x ∈ su_Agents (ac_summary a) ∨ (x ≠ "" ∧ x = in_AgentName r).
Proof.
  intros Nd. cbn. destruct (in_AgentName r) as [| k n] eqn:E; cbn [nonempty andb]; [split; [done | naive_solver] |].
  case_bool_decide as I; cbn [negb]; [split; [done | naive_solver] |]. split.
  - apply NoDup_app. split_and!; [done | | apply NoDup_singleton]. by intros x X ->%list_elem_of_singleton.
  - intros x. rewrite elem_of_app, list_elem_of_singleton. naive_solver.
Qed.

(** What one more record does to the invariant of a row; [firstAt] is the time of the
    title. *)
Record absorbed (c : string) (l : list invocation) (a : acc) : Prop := {
  ab_context : su_ContextID (ac_summary a) = c;
  ab_turns : su_Turns (ac_summary a) = length l;
  ab_agents : NoDup (su_Agents (ac_summary a)) ∧ ∀ x, x ∈ su_Agents (ac_summary a) ↔ x ≠ "" ∧ ∃ r, r ∈ l ∧ in_AgentName r = x;
  ab_last : (l = [] ∧ su_LastActivity (ac_summary a) = "") ∨
    ∃ r, r ∈ l ∧ su_last (ac_summary a) = Some r ∧ su_LastActivity (ac_summary a) = in_StartedAt r ∧ ∀ r', r' ∈ l → String.le (in_StartedAt r') (in_StartedAt r);
  ab_title : (ac_firstAt a = "" ∧ su_Title (ac_summary a) = "" ∧ ∀ r, r ∈ l → in_UserText r = "") ∨
    (ac_firstAt a ≠ "" ∧ ∃ r, r ∈ l ∧ su_Title (ac_summary a) = in_UserText r ∧ ac_firstAt a = in_StartedAt r ∧ in_UserText r ≠ "" ∧
       ∀ r', r' ∈ l → in_UserText r' ≠ "" → String.le (in_StartedAt r) (in_StartedAt r'));
}.

Lemma empty_less s : s ≠ "" → less "" s = true.
Proof. intros N. apply less_spec. destruct s as [| c s]; [done |]. unfold String.le, String.leb. cbn. by intros []. Qed.

Lemma absorb_last c l a r :
  in_StartedAt r ≠ "" → absorbed c l a →
  let s := ac_summary (absorb a r) in
  ∃ x, x ∈ l ++ [r] ∧ su_last s = Some x ∧ su_LastActivity s = in_StartedAt x ∧ ∀ y, y ∈ l ++ [r] → String.le (in_StartedAt y) (in_StartedAt x).
Proof.
  intros Ne A. cbn. destruct (ab_last _ _ _ A) as [[-> ->] | (x & X & L & T & M)].
  - rewrite empty_less by done. exists r. split_and!; [by left | done | done |]. by intros y ->%list_elem_of_singleton.
  - destruct (less (su_LastActivity (ac_summary a)) (in_StartedAt r)) eqn:Ls.
    + apply less_spec in Ls. rewrite T in Ls. exists r. split_and!; [apply elem_of_app; right; by left | done | done |].
      intros y [Y | ->%list_elem_of_singleton]%elem_of_app; [| done]. eapply le_trans; [by apply M | by apply not_le].
    + apply less_false in Ls. rewrite T in Ls. exists x. split_and!; [apply elem_of_app; by left | done | done |].
      by intros y [Y | ->%list_elem_of_singleton]%elem_of_app; [apply M |].
Qed.

Lemma absorb_title c l a r :
  in_StartedAt r ≠ "" → absorbed c l a →
  let a' := absorb a r in
  (ac_firstAt a' = "" ∧ su_Title (ac_summary a') = "" ∧ ∀ x, x ∈ l ++ [r] → in_UserText x = "") ∨
  (ac_firstAt a' ≠ "" ∧ ∃ x, x ∈ l ++ [r] ∧ su_Title (ac_summary a') = in_UserText x ∧ ac_firstAt a' = in_StartedAt x ∧ in_UserText x ≠ "" ∧
     ∀ y, y ∈ l ++ [r] → in_UserText y ≠ "" → String.le (in_StartedAt x) (in_StartedAt y)).
Proof.
  intros Ne A. cbn. assert (Text : nonempty (in_UserText r) = false ∧ in_UserText r = "" ∨ nonempty (in_UserText r) = true ∧ in_UserText r ≠ "").
  { destruct (in_UserText r); [by left | by right]. }
  destruct (ab_title _ _ _ A) as [(F & T & N) | (F & x & X & T & E & U & M)].
  - rewrite F. rewrite bool_decide_eq_true_2 by done. cbn [orb]. rewrite andb_true_r. destruct Text as [[-> Tr] | [-> Tr]].
    + left. split_and!; [done | done |]. by intros y [Y | ->%list_elem_of_singleton]%elem_of_app; [apply N |].
    + right. split; [done |]. exists r. split_and!; [apply elem_of_app; right; by left | done | done | done |].
      intros y [Y | ->%list_elem_of_singleton]%elem_of_app Ty; [by destruct Ty; apply N | done].
  - rewrite bool_decide_eq_false_2 by done. cbn [orb]. right. destruct Text as [[-> Tr] | [-> Tr]]; cbn [andb].
    + split; [done |]. exists x. split_and!; [apply elem_of_app; by left | done | done | done |].
      by intros y [Y | ->%list_elem_of_singleton]%elem_of_app Ty; [apply M |].
    + destruct (less (in_StartedAt r) (ac_firstAt a)) eqn:Ls; (split; [done |]).
      * apply less_spec in Ls. rewrite E in Ls. exists r. split_and!; [apply elem_of_app; right; by left | done | done | done |].
        intros y [Y | ->%list_elem_of_singleton]%elem_of_app Ty; [| done]. eapply le_trans; [by apply not_le | by apply M].
      * apply less_false in Ls. rewrite E in Ls. exists x. split_and!; [apply elem_of_app; by left | done | done | done |].
        by intros y [Y | ->%list_elem_of_singleton]%elem_of_app Ty; [apply M |].
Qed.

Lemma absorbed_all c l : Forall (λ r, in_StartedAt r ≠ "") l → absorbed c l (foldl absorb (fresh_acc c) l).
Proof.
  induction l as [| r l IH] using rev_ind; intros T.
  { split; [done | done | | by left | left]; [| split_and!; [done | done |]].
    - split; [constructor |]. intros x. split; [by intros ?%not_elem_of_nil | by intros (_ & r & ?%not_elem_of_nil & _)].
    - by intros r ?%not_elem_of_nil. }
  apply Forall_app in T as [T [Tr _]%Forall_cons]. specialize (IH T). rewrite foldl_app. cbn [foldl]. set (a := foldl absorb (fresh_acc c) l) in *.
  destruct (ab_agents _ _ _ IH) as [Nd Ag]. destruct (absorb_agents a r Nd) as [Nd' Ag']. split.
  - apply (ab_context _ _ _ IH).
  - cbn. rewrite (ab_turns _ _ _ IH), length_app. cbn. lia.
  - split; [done |]. intros x. rewrite Ag', Ag. setoid_rewrite elem_of_app. setoid_rewrite list_elem_of_singleton. naive_solver.
  - right. by apply absorb_last with c.
  - by apply absorb_title with c.
Qed.

(** The list of conversations is complete and true: one row for each conversation
    that is not a room, newest first, with the number of its turns, its agents, the
    invocation of its last activity, and the text it began with. *)
Lemma conversations_listed records :
  Forall (λ r, in_StartedAt r ≠ "") records →
  let out := handleContexts records in
  StronglySorted newer out ∧ NoDup (su_ContextID <$> out) ∧
  (∀ c, (∃ s, s ∈ out ∧ su_ContextID s = c) ↔ ∃ r, r ∈ records ∧ counted r ∧ in_ContextID r = c) ∧
  ∀ s, s ∈ out → row_true (su_ContextID s) (of_context (su_ContextID s) records) s.
Proof.
  intros T. cbv zeta. unfold handleContexts. destruct (foldl fold_record (∅, []) records) as [m o] eqn:E. destruct (fold_spec _ _ _ E) as (Nd & Dom & Val).
  set (rows := omap (λ c, ac_summary <$> m !! c) o).
  assert (Tc : ∀ c, Forall (λ r, in_StartedAt r ≠ "") (of_context c records)).
  { intros c. apply Forall_forall. intros r [_ R]%list_elem_of_filter. by apply (proj1 (Forall_forall _ _) T). }
  assert (Row : ∀ c s, ac_summary <$> m !! c = Some s → of_context c records ≠ [] ∧ s = ac_summary (foldl absorb (fresh_acc c) (of_context c records))).
  { intros c s. rewrite Val. destruct (decide _); [done |]. by intros [= <-]. }
  assert (Ctx : ∀ c s, ac_summary <$> m !! c = Some s → su_ContextID s = c).
  { intros c s (_ & ->)%Row. apply (ab_context _ _ _ (absorbed_all c _ (Tc c))). }
  assert (In_ : ∀ s, s ∈ merge_sort newer rows ↔ ∃ c, c ∈ o ∧ ac_summary <$> m !! c = Some s).
  { intros s. rewrite (merge_sort_Permutation newer rows). apply list_elem_of_omap. }
  split_and!.
  - apply (StronglySorted_merge_sort _).
  - rewrite (merge_sort_Permutation newer rows). unfold rows.
    assert (su_ContextID <$> omap (λ c, ac_summary <$> m !! c) o = o) as ->; [| done].
    assert (Some_ : Forall (λ c, is_Some (ac_summary <$> m !! c)) o) by (apply Forall_forall; intros c [a A]%Dom; by rewrite A).
    clear -Some_ Ctx. induction o as [| c o IH]; [done |]. apply Forall_cons in Some_ as [[s S] F]. cbn. rewrite S. cbn. by rewrite (Ctx c s S), IH.
  - intros c. split.
    + intros (s & (c' & _ & S)%In_ & <-). rewrite (Ctx _ _ S). destruct (Row _ _ S) as [N _].
      destruct (of_context c' records) as [| r l] eqn:O; [done |]. assert (r ∈ of_context c' records) as [R I]%list_elem_of_filter by (rewrite O; by left).
      exists r. by destruct R.
    + intros (r & R & C & <-). assert (of_context (in_ContextID r) records ≠ []) as N.
      { intros O. assert (r ∈ of_context (in_ContextID r) records) as I by (by apply list_elem_of_filter). rewrite O in I. by apply not_elem_of_nil in I. }
      pose proof (Val (in_ContextID r)) as V. rewrite decide_False in V by done. eexists. split.
      * apply In_. exists (in_ContextID r). rewrite Dom, V. split; [done | reflexivity].
      * apply Ctx. by rewrite V.
  - intros s (c & _ & S)%In_. rewrite (Ctx _ _ S). destruct (Row _ _ S) as [N ->]. pose proof (absorbed_all c _ (Tc c)) as A.
    split; [apply A | apply A | apply A | |].
    + destruct (ab_last _ _ _ A) as [[? _] |]; [done | done].
    + destruct (ab_title _ _ _ A) as [(_ & X & Y) | (_ & r & R & X & _ & U & M)]; [by left | right; by exists r].
Qed.

(** ** Where files and tokens go *)

(** A dropped file lands in its own directory, whatever its name, except for two dots. *)
Lemma upload_stays uploadDir token filename :
  is_rooted uploadDir = true → plain token → upload_name filename ≠ ".." →
  components (upload_path uploadDir token filename) = components uploadDir ++ [token; upload_name filename].
Proof.
  intros R T N. assert (P : plain (upload_name filename)).
  { revert N. unfold upload_name, Base. destruct (decide (filename = "")) as [-> |]; [by repeat split |].
    destruct (last _) as [x |] eqn:L; [| by repeat split]. apply last_Some_elem_of, list_elem_of_filter in L as [Nx I].
    pose proof (proj1 (Forall_forall _ _) (split_slash_pieces "" filename eq_refl) _ I) as Sl. cbn in Sl.
    destruct (bool_decide (x = "")) eqn:E1; [by apply bool_decide_eq_true in E1 |]. destruct (bool_decide (x = ".")) eqn:E2; [by repeat split |].
    destruct (bool_decide (x = "/")) eqn:E3; [by repeat split |]. cbn. intros N. apply bool_decide_eq_false in E2. by repeat split. }
  unfold upload_path. rewrite components_child; [| | done].
  - by rewrite components_child, <- app_assoc.
  - by rewrite JoinPath_child.
Qed.

(** With them the path is the directory of all uploads. *)
Lemma upload_two_dots : upload_path "/tmp/ahsir-uploads" "0a1b" "../.." = "/tmp/ahsir-uploads".
Proof. by vm_compute. Qed.

(** The token is added to requests for the control plane of the scheduler only. *)
Lemma token_to_admin adminToken path p t : Director adminToken path = (p, Some t) → t = adminToken ∧ t ≠ "" ∧ HasPrefix p "/admin/" = true.
Proof. unfold Director. destruct (nonempty adminToken) eqn:E; [| done]. destruct (HasPrefix _ _) eqn:H; [| done]. intros [= <- <-]. split_and!; [done | by destruct adminToken | done]. Qed.
